(* ===== verification/_CoqProject ===== *)
-Q . S2P
Prelude.v
StdContainers.v
Configuration.v
Ballot.v
ConfigurationManager.v
ClosureQueue.v
BallotBox.v
LogStorage.v
MemoryLog.v
LogManager.v
LogManagerSpec.v
Bytes.v
Crc32c.v
Murmur.v
FileSegData.v
Text.v
PeerText.v
FileSystem.v
Protobuf.v
Segment.v
SegmentSpec.v
SegmentLog.v
SegmentLogSpec.v
SegmentLogRecovery.v
SegmentLogRun.v
StateMonad.v
Messages.v
FsmCaller.v
FsmCallerSpec.v
Lease.v
MetaStorage.v
AppendEntriesCache.v
NodeState.v
NodeVote.v
NodeCore.v
NodeLog.v
NodeLogSpec.v
NodeRun.v
NodeStep.v
Election.v
Cluster.v
RaftMeta.v
ClusterRuns.v
Replicator.v
ReplicatorWire.v
ReplicatorSpec.v
ReplicatorGroup.v
ReplicatorRuns.v
SnapshotFs.v
Snapshot.v
SnapshotWire.v
SnapshotSpec.v
SnapshotRun.v
LogLink.v
LogLinkOps.v
LogManagerRuns.v
NodeLogStep.v
LogMatching.v
LogMatchingRuns.v
LastLogId.v
SnapshotExecutor.v
SnapshotExecutorSpec.v
SnapshotExecutorRuns.v
FileCopy.v
ThrottleSpec.v
FileCopySpec.v
FileCopyRuns.v
SnapshotCopier.v
SnapshotCopierSpec.v
SnapshotCopierRuns.v
LocalStore.v
LocalStoreRuns.v
