(* ===== verification/Prelude.v ===== *)
(** * Melon raft: a verification development

    The raft library of melon (src/melon/raft, with the parts of
    src/melon/utility and src/melon/proto it stands on) as a shallow embedding:
    every object of the C++ code is a record of its fields, every method a
    function of the same name or with a short prefix ([bb_] for [BallotBox],
    [lm_] for [LogManager], [sl_] for [SegmentLogStorage] and so on), and every
    statement below is about those functions.

    ** The program

    A server of a group runs a [NodeImpl].  The leader of the group appends
    tasks to its log through the [LogManager], which keeps the latest entries
    in memory and lets a disk thread write them to a [LogStorage]; each entry
    has a [Ballot] in the [BallotBox] and is committed when a majority (of both
    configurations during a change) has stored it; the closures of committed
    entries leave the [ClosureQueue].  Followers receive entries and vote
    requests by rpc, the entries from the [Replicator] the leader keeps for each
    of them in its [ReplicatorGroup]; the [FSMCaller] hands committed entries to
    the state machine.  Term and vote are kept by a [RaftMetaStorage].

    ** The files

    Shared: Prelude.v (aborts, machine integers, lists), StdContainers.v
    ([std::set] and [std::map] by their comparison), StateMonad.v (state
    passing with abort), Bytes.v, Text.v.

    Configurations and quorums: Configuration.v (configuration.h, log_entry.h),
    Ballot.v (ballot.cc), ConfigurationManager.v (configuration_manager.cc),
    ClosureQueue.v (closure_queue.cc), BallotBox.v (ballot_box.cc).  [granted]
    is a strict majority of each configuration whatever the hints and
    repetitions; [commit_at] commits the greatest index with its majorities and
    never moves backwards; a pop up to a committed index hands out exactly the
    closures of the tasks up to it; the history of configurations answers every query with the latest one at or
    below an index.

    The log: LogStorage.v is the interface of storage.h as a class with its
    laws over an abstract log.  MemoryLog.v (memory_log.cc) and SegmentLog*.v
    (log.cc, over Segment*.v and the files of FileSystem.v) are instances.
    LogManager.v (log_manager.cc) is written against the class, and
    LogManagerSpec.v shows that its reads, appends, conflict resolution,
    truncations and snapshots act on one abstract log, with any number of disk
    operations pending, and that the disk thread drains its queue.
    LogManagerRuns.v runs the calls of a manager from a start and relates it to
    the abstract log the calls make.  LastLogId.v has what
    [last_log_id(true)] answers over these runs: at least the last log id the
    manager had when it was called.  SegmentLogRecovery.v and SegmentLogRun.v restart the storage after crashes
    that cut an append at any byte.

    Encodings: Crc32c.v and Murmur.v (the checksums equal their definitions
    however a buffer is cut), FileSegData.v (util.cc, file_service.cc,
    remote_file_copier.cc: the segments of an answer and what the copier
    makes of them), PeerText.v
    (peers and configurations survive printing and parsing), Protobuf.v (the
    generated code as a class of codecs with the wire format as instance).

    The node: MetaStorage.v is the interface of the meta storage and RaftMeta.v
    its file-based instance (raft_meta.cc), which keeps the last acknowledged
    term and vote whatever writes fail.  Lease.v (lease.cc) and
    AppendEntriesCache.v (node.cc) are parts of the node.  NodeState.v is the
    state of [NodeImpl] and its calls to other components; NodeVote.v holds
    the handlers of elections, NodeLog.v all others, NodeRun.v [init] and the
    inputs a node that is up can receive.  NodeLogSpec.v: a leader's lease is
    renewed with the latest timestamp a majority stands behind, a follower's by
    every request it does not refuse, and a valid leader lease leaves no
    majority that could vote.  LastLogId.v: a vote goes to a candidate that is
    not behind the log the voter had when its handler asked for its end.

    The state machine: FsmCaller.v (fsm_caller.cc) is the caller with its
    iterator, over the log manager and the closure queue.  FsmCallerSpec.v:
    whatever the batches, and as long as the other users of the log manager
    leave the committed entries alone, a state machine that reports no error
    sees the committed log, each entry once and in order, with the closure of
    its task; an error stops the caller.

    Replication: Replicator.v (replicator.cc) has one function for each callback
    of a replicator, from locking its session to unlocking it.  ReplicatorWire.v
    relates the entries it packs to those [NodeLog] parses.  ReplicatorSpec.v:
    the rpcs in fly are disjoint, ordered and accounted for in every reachable
    state; only what a successful answer acknowledges is counted in the ballot
    box; a follower parses exactly the leader's log.  ReplicatorGroup.v has the
    group, what each of its operations does to the map of followers and their
    sessions, and the choice of the next leader on a step down.
    ReplicatorRuns.v evaluates runs, two of which end badly: an abort of the
    leader and entries that vanish from the pipeline.

    Snapshots: SnapshotFs.v (file_system_adaptor.cc, file_util_posix.cc) has
    directories on the files of FileSystem.v.  Snapshot.v (snapshot.cc) is the
    table, the writer, the reader and the storage of snapshots;
    SnapshotWire.v the format of its meta file.  SnapshotSpec.v is the invariant
    of the storage and its operations under faults; SnapshotRun.v runs it with
    readers of other threads, crashes and restarts: closing a writer is atomic,
    and a snapshot does not change while it is read.  SnapshotExecutor.v
    (snapshot_executor.cc) saves, installs and loads snapshots over any storage
    of storage.h; what a method does after it has released the mutex is a job
    in the state.  SnapshotExecutorSpec.v: no order of jobs, requests and
    answers of the caller makes it abort, every request is answered once, and
    [join] leaves nothing behind, as long as the caller takes every save until
    the executor is shut down; [refused_save_wedges] is what happens otherwise.
    SnapshotExecutorRuns.v evaluates a run on a
    storage in memory.

    Copying snapshots: FileCopy.v has the file service with its readers
    (file_service.cc, file_reader.cc, snapshot.cc), the session that copies one
    file (remote_file_copier.cc) and the throttle (snapshot_throttle.cc).
    FileCopySpec.v: whatever requests and answers are lost, repeated or
    reordered and whoever else uses the service, a session that ends without an
    error has copied the file; undisturbed it ends after a bounded number of
    requests.  ThrottleSpec.v bounds what the throttle grants over time.
    FileCopyRuns.v evaluates a copy.  SnapshotCopier.v (snapshot.cc) is the copier
    that fetches a whole snapshot into the local storage.  SnapshotCopierSpec.v
    puts service, sessions, copier and storage together: after a copy the
    storage serves the snapshot of the other server or the one it had.
    SnapshotCopierRuns.v evaluates copies, among them three that go wrong on
    faults of the disk.  LocalStore.v gives the executor this storage and this
    copier: the laws SnapshotExecutorSpec.v asks of a storage hold, and after
    every step of the executor the disk has the snapshot the storage serves.
    LocalStoreRuns.v evaluates a save and an install on a disk, and a save on a
    full one, which the executor takes for done.

    The group: Cluster.v runs any number of nodes on their media, with requests
    that may be anything, answers that are lost, delayed, repeated or
    reordered, crashes between and in handlers, and restarts.  NodeCore.v is
    the abstraction of a node that elections depend on and NodeStep.v the
    simulation: every input of a node is a sequence of its steps.  Election.v
    has the invariant of one node over its lives, and Cluster.v concludes
    election safety.  ClusterRuns.v evaluates whole runs: an election that goes
    well, two leaders in one term after a store that failed, an abort.

    The logs of the group: LogLink.v reads a log as a chain of links, an entry
    with the term of the one before it, and shows that two chains made of the
    same links agree before any entry they share.  LogLinkOps.v has what each
    operation of the log manager does to the links, NodeLogStep.v what each
    input of a node does to its manager.  LogMatching.v carries both through the
    runs of Cluster.v: every link is made by the one server that won its term,
    so the logs of the group match, through conflicts, snapshots, crashes and
    restarts.  LogMatchingRuns.v evaluates a run with two leaders, a conflict
    and a restart.

    ** Conventions

    A failed [CHECK] and [LOG(FATAL)] are [None]; error codes are results.  A
    handler of the node is one step from taking the mutex to releasing it; the
    four handlers that release it in the middle leave a suspended call in the
    state, so that any other handler can run before they go on.  Calls of
    the node into timers, replicators, the state machine caller and the snapshot
    executor are recorded as events, oldest first; what they answer is an argument ([Env],
    [InitEnv]) about which nothing is assumed.  System calls end as the
    scripts of the world say ([w_reads], [w_writes]), as do calls to the fiber
    runtime ([n_sys], [cs_sys], [rw_sys]).  A callback of a replicator and a task
    of the state machine caller are one step each; what other threads do to the
    objects they share (log manager, ballot box) happens at each access, as a
    stream of interference says ([rw_others], [fw_others]).  64-bit indexes and terms are unbounded [Z];
    widths are kept where the code packs, hashes, prints or truncates.

    Loops over containers are structural.  The fuel of the loops that are not
    (scans of a file, [disk_thread], number printing) is derived from the size
    of their input, and the theorems state that a result is returned.

    ** Assumptions

    [election_safety] and [one_vote_per_term] assume that no store of a
    server's vote for itself failed; [unstored_vote_two_leaders] shows that
    they fail otherwise.  [log_matching] and [entries_from_leaders] assume this
    too, and that the rest of the system behaves as the code relies on
    ([action_log_ok]): a request of another server carries links some log had,
    what leaves a manager's memory is on its storage and no queued operation
    removes it, a snapshot is of applied entries, a restart reads entries that
    were logged; the elections of one term share a configuration; and the log
    storages do not fail.  [log_manager_reads] and [vote_up_to_date] assume the
    same of the calls of a log manager.  That what leaves memory is written is
    not ensured by the code: [stale_disk_id_reads_replaced_entry] is a run in
    which it is not.  [valid_lease_blocks_elections] assumes that clocks drift
    by no more than the options say and that a follower's lease was not reset or
    expired after it handled the leader's request.  The theorems on the segment log assume that the
    system calls of the run succeed apart from the crash; the errors of single
    calls are covered where a theorem says so.  Files that are copied are shorter than 2^63 bytes, the
    table of a snapshot than 2^32, and a write that reports all its bytes has
    written them; the files of a snapshot that is copied lie in one directory.  Reads of the meta file and
    of the directories of snapshots are taken to succeed, writes may fail in
    every way.

    ** Not modelled

    The merged and mixed meta storages on LevelDB; the services, the command line, the
    route table and the node manager, which dispatch calls; bootstrap, [join]
    and the pages that print a status; timer threads; file system adaptors other
    than the POSIX one.  The recursion of blocking and probing in a replicator is
    modelled with a finite script of timers that cannot be added
    ([block_rounds]).  [snapshot_copied] and [executor_on_disk] are about copies
    without filtering by checksum; under the executor a copy is one step, and
    the snapshot it is given is newer than the last one.
    Outside src/melon/raft: the rpc framework, the fiber runtime, monitoring
    variables, naming and load balancing, and the utility library beyond what
    the raft code uses of it.  They are input and output, scheduling and memory
    management, or third-party code. *)

From stdpp Require Import prelude sorting.
Local Open Scope Z_scope.

(** ** Process abort

    [CHECK(cond)] and [LOG(FATAL)] terminate the process.  A definition that
    can reach one returns an [option]: [None] is the aborted process and never
    an ordinary error code, which is always a value of the result. *)

Definition CHECK (P : Prop) `{Decision P} : option unit :=
  if decide P then Some tt else None.

Lemma CHECK_true (P : Prop) `{Decision P} : P → CHECK P = Some tt.
Proof. intros. unfold CHECK. by rewrite decide_True. Qed.

Lemma CHECK_false (P : Prop) `{Decision P} : ¬ P → CHECK P = None.
Proof. intros. unfold CHECK. by rewrite decide_False. Qed.

Lemma CHECK_Some (P : Prop) `{Decision P} u : CHECK P = Some u ↔ P.
Proof. unfold CHECK. destruct u. case_decide; naive_solver. Qed.

Lemma CHECK_bind_Some {A} (P : Prop) `{Decision P} (k : option A) (a : A) :
  (CHECK P;; k) = Some a ↔ P ∧ k = Some a.
Proof. unfold CHECK. case_decide; cbn; naive_solver. Qed.

(** ** errno values (Linux, the last two of melon) the code returns *)

Definition EPERM : Z := 1.
Definition ENOENT : Z := 2.
Definition EIO : Z := 5.
Definition EEXIST : Z := 17.
Definition EBUSY : Z := 16.
Definition EINVAL : Z := 22.
Definition ERANGE : Z := 34.
Definition EINTR : Z := 4.
Definition EAGAIN : Z := 11.
Definition EHOSTDOWN : Z := 112.
Definition ESTALE : Z := 116.
Definition ECANCELED : Z := 125.
Definition EREQUEST : Z := 1003.
Definition EINTERNAL : Z := 2001.

(** ** Automation *)

Create HintDb melon.

(** Split every [match]/[if] scrutinee of the goal, keeping the equations. *)
Ltac case_all :=
  repeat (case_match || case_decide); simplify_eq/=.

(** Close a goal about integers after exposing list lengths. *)
Ltac len := repeat (rewrite ?length_app, ?length_cons, ?length_nil in *; cbn [length] in * ); lia.

(** ** Lists *)

(** Indexing a [std::vector]/[std::deque] by a signed index.  The caller's
    guard keeps the index in range; out of range has no value. *)
Definition zlookup {A} (l : list A) (i : Z) : option A :=
  if decide (i < 0) then None else l !! Z.to_nat i.

Definition zlen {A} (l : list A) : Z := Z.of_nat (length l).

Section list_facts.
Context {A : Type}.
Implicit Types (l k : list A) (x : A).

Lemma zlen_nonneg l : 0 ≤ zlen l.
Proof. unfold zlen. lia. Qed.

Lemma zlen_app l k : zlen (l ++ k) = zlen l + zlen k.
Proof. unfold zlen. rewrite length_app. lia. Qed.

Lemma zlen_cons x l : zlen (x :: l) = zlen l + 1.
Proof. unfold zlen. cbn. lia. Qed.

Lemma zlen_nil : zlen ([] : list A) = 0.
Proof. done. Qed.

Lemma zlen_take n l : zlen (take n l) = Z.min (Z.of_nat n) (zlen l).
Proof. unfold zlen. rewrite length_take. lia. Qed.

Lemma zlen_drop n l : zlen (drop n l) = Z.max 0 (zlen l - Z.of_nat n).
Proof. unfold zlen. rewrite length_drop. lia. Qed.

Lemma zlookup_Some_range l i x : zlookup l i = Some x → 0 ≤ i < zlen l.
Proof.
  unfold zlookup, zlen. case_decide; [done|]. intros ?%lookup_lt_Some. lia.
Qed.

Lemma zlookup_in_range l i : 0 ≤ i < zlen l → ∃ x, zlookup l i = Some x.
Proof.
  unfold zlookup, zlen. intros ?. rewrite decide_False by lia.
  apply lookup_lt_is_Some. lia.
Qed.

Lemma zlookup_of_nat l (n : nat) : zlookup l (Z.of_nat n) = l !! n.
Proof. unfold zlookup. rewrite decide_False by lia. by rewrite Nat2Z.id. Qed.

Lemma zlookup_app_l l k i : i < zlen l → zlookup (l ++ k) i = zlookup l i.
Proof.
  unfold zlookup, zlen. intros ?. case_decide; [done|].
  apply lookup_app_l. lia.
Qed.

Lemma zlookup_app_r l k i :
  zlen l ≤ i → zlookup (l ++ k) i = zlookup k (i - zlen l).
Proof.
  unfold zlookup, zlen. intros ?. rewrite !decide_False by lia.
  rewrite lookup_app_r by lia. f_equal. lia.
Qed.

Lemma zlookup_drop n l i :
  0 ≤ i → zlookup (drop n l) i = zlookup l (i + Z.of_nat n).
Proof.
  intros ?. unfold zlookup. rewrite !decide_False by lia.
  rewrite lookup_drop. f_equal. lia.
Qed.

Lemma zlookup_take n l i :
  i < Z.of_nat n → zlookup (take n l) i = zlookup l i.
Proof.
  intros ?. unfold zlookup. case_decide; [done|].
  rewrite lookup_take_lt by lia. done.
Qed.

Lemma zlookup_elem l i x : zlookup l i = Some x → x ∈ l.
Proof.
  unfold zlookup. case_decide; [done|]. intros. by eapply list_elem_of_lookup_2.
Qed.

Lemma last_snoc_eq l x : last (l ++ [x]) = Some x.
Proof. by rewrite last_snoc. Qed.
End list_facts.

#[export] Hint Resolve zlen_nonneg : melon.

(** Normalise the lengths of concatenations before [lia]. *)
Ltac zlen_simp := rewrite ?zlen_app, ?zlen_cons, ?zlen_nil in *.

(** ** Filters *)

Lemma filter_ext_elem {A} (P Q : A → Prop) `{∀ x, Decision (P x), ∀ x, Decision (Q x)} (l : list A) :
  (∀ x, x ∈ l → P x ↔ Q x) → filter P l = filter Q l.
Proof.
  induction l as [|x l IH]; intros H1; [done|]. rewrite !filter_cons.
  rewrite IH by set_solver. repeat case_decide; [done| | |done];
    exfalso; specialize (H1 x); set_solver.
Qed.

Lemma list_filter_all {A} (P : A → Prop) `{∀ x, Decision (P x)} (l : list A) :
  (∀ x, x ∈ l → P x) → filter P l = l.
Proof.
  induction l as [|x l IH]; intros H1; [done|]. rewrite filter_cons.
  rewrite decide_True, IH; set_solver.
Qed.

Lemma list_filter_none {A} (P : A → Prop) `{∀ x, Decision (P x)} (l : list A) :
  (∀ x, x ∈ l → ¬ P x) → filter P l = [].
Proof.
  induction l as [|x l IH]; intros H1; [done|]. rewrite filter_cons.
  rewrite decide_False, IH; set_solver.
Qed.
