(* ===== verification/StdContainers.v ===== *)
(** * The ordered containers of the C++ standard library

    [std::set<T>] and [std::map<int64_t, V>] as the raft code uses them: an
    ordered container is the list of its elements in iteration order.  A set
    only looks at its elements through [operator<], so two elements neither of
    which is below the other are the same element even when they differ in a
    field the comparison ignores. *)

From stdpp Require Import prelude sorting.
From S2P Require Import Prelude.
Local Open Scope Z_scope.

(** ** [std::set] *)

Class StrictWeakOrder {A} (lt : relation A) := {
  swo_dec :: RelDecision lt;
  swo_irrefl : ∀ x, ¬ lt x x;
  swo_trans : ∀ x y z, lt x y → lt y z → lt x z;
  swo_incomp_trans : ∀ x y z,
    ¬ lt x y → ¬ lt y x → ¬ lt y z → ¬ lt z y → ¬ lt x z ∧ ¬ lt z x;
}.

Section std_set.
Context {A : Type} (lt : relation A) `{!StrictWeakOrder lt}.
Implicit Types (l : list A) (x y : A).

(** The equivalence a set compares its keys with. *)
Definition key_eq (x y : A) : Prop := ¬ lt x y ∧ ¬ lt y x.

#[global] Instance key_eq_dec : RelDecision key_eq.
Proof. intros x y. unfold key_eq. apply _. Defined.

#[global] Instance key_eq_equivalence : Equivalence key_eq.
Proof.
  split.
  - intros x. split; apply swo_irrefl.
  - intros x y [??]. by split.
  - intros x y z [??] [??]. unfold key_eq. by apply (swo_incomp_trans x y z).
Qed.

(** [insert(x)]: the flag is [insert(x).second]. *)
Fixpoint set_insert (x : A) (l : list A) : list A * bool :=
  match l with
  | [] => ([x], true)
  | y :: l' =>
      if decide (lt x y) then (x :: y :: l', true)
      else if decide (lt y x) then let '(r, b) := set_insert x l' in (y :: r, b)
      else (y :: l', false)
  end.

Lemma set_insert_snoc x l : Forall (λ y, lt y x) l → set_insert x l = (l ++ [x], true).
Proof.
  induction 1 as [|y l Hy Hl IH]; [done|]. cbn [set_insert]. rewrite decide_False.
  - rewrite decide_True by done. by rewrite IH.
  - intros Hxy. apply (swo_irrefl x). by eapply swo_trans.
Qed.

Definition set_find (x : A) (l : list A) : option A :=
  head (filter (key_eq x) l).

Definition set_contains (x : A) (l : list A) : bool :=
  bool_decide (Exists (key_eq x) l).

(** [erase(x)], returning the number of elements removed. *)
Definition set_erase (x : A) (l : list A) : list A * bool :=
  (filter (λ y, ¬ key_eq x y) l, set_contains x l).

Definition set_of_list (l : list A) : list A :=
  foldl (λ s x, (set_insert x s).1) [] l.

(** The representation invariant: strictly increasing. *)
Definition set_wf (l : list A) : Prop := StronglySorted lt l.

Lemma set_contains_true x l : set_contains x l = true ↔ ∃ y, y ∈ l ∧ key_eq x y.
Proof.
  unfold set_contains. rewrite bool_decide_eq_true, Exists_exists. done.
Qed.

Lemma lt_key_eq_l x y z : key_eq x y → lt y z → lt x z.
Proof.
  intros [H1 H2] H3. destruct (decide (lt x z)) as [|Hn]; [done|].
  exfalso. destruct (decide (lt z x)) as [Hzx|Hzx].
  - apply H2. by eapply swo_trans.
  - destruct (swo_incomp_trans y x z) as [? _]; eauto.
Qed.

Lemma lt_key_eq_r x y z : key_eq y z → lt x y → lt x z.
Proof.
  intros [H1 H2] H3. destruct (decide (lt x z)) as [|Hn]; [done|].
  exfalso. destruct (decide (lt z x)) as [Hzx|Hzx].
  - apply H2. by eapply swo_trans.
  - destruct (swo_incomp_trans x z y) as [? _]; eauto.
Qed.

Lemma set_insert_In x y l :
  y ∈ (set_insert x l).1 → y = x ∨ y ∈ l.
Proof.
  induction l as [|z l IH]; cbn.
  - set_solver.
  - repeat case_decide; cbn; [set_solver| |set_solver].
    destruct (set_insert x l) as [r b] eqn:E; cbn in *. set_solver.
Qed.

Lemma set_insert_mono x l y : y ∈ l → y ∈ (set_insert x l).1.
Proof.
  induction l as [|z l IH]; cbn; [set_solver|].
  repeat case_decide; cbn; [set_solver| |set_solver].
  destruct (set_insert x l) as [r b] eqn:E; cbn in *. set_solver.
Qed.

Lemma set_insert_contains x l : ∃ y, y ∈ (set_insert x l).1 ∧ key_eq x y.
Proof.
  induction l as [|z l IH]; cbn.
  - exists x. split; [set_solver|reflexivity].
  - repeat case_decide; cbn.
    + exists x. split; [set_solver|reflexivity].
    + destruct (set_insert x l) as [r b] eqn:E; cbn in *. set_solver.
    + exists z. split; [set_solver|by split].
Qed.

Lemma set_insert_wf x l : set_wf l → set_wf (set_insert x l).1.
Proof.
  unfold set_wf. induction 1 as [|z l Hs IH Hall]; cbn.
  - repeat constructor.
  - repeat case_decide; cbn.
    + constructor; [by constructor|]. constructor; [done|].
      eapply Forall_impl; [exact Hall|]. intros w ?; cbn in *. by eapply swo_trans.
    + destruct (set_insert x l) as [r b] eqn:E; cbn in *. constructor; [done|].
      apply Forall_forall. intros w Hw.
      pose proof (set_insert_In x w l) as Hin. rewrite E in Hin; cbn in Hin.
      destruct (Hin Hw) as [->|?]; [done|]. rewrite Forall_forall in Hall. auto.
    + by constructor.
Qed.

(** [insert] reports [true] exactly when no equivalent key was present, and
    leaves the set alone otherwise. *)
Lemma set_insert_false x l :
  (set_insert x l).2 = false → (set_insert x l).1 = l ∧ set_contains x l = true.
Proof.
  induction l as [|z l IH]; cbn; [done|].
  repeat case_decide; cbn; try done.
  - destruct (set_insert x l) as [r b] eqn:E; cbn in *. intros Hb.
    destruct (IH Hb) as [-> Hc]. split; [done|].
    rewrite set_contains_true in *. set_solver.
  - intros _. split; [done|]. rewrite set_contains_true.
    exists z. split; [set_solver|by split].
Qed.

Lemma set_insert_true x l :
  set_wf l → (set_insert x l).2 = true →
  set_contains x l = false ∧ length (set_insert x l).1 = S (length l).
Proof.
  unfold set_wf. induction 1 as [|z l Hs IH Hall]; cbn; [done|].
  repeat case_decide; cbn; try done.
  - intros _. split; [|done]. apply not_true_iff_false. rewrite set_contains_true.
    intros (w & Hw & [Hxw Hwx]). apply Hxw.
    apply elem_of_cons in Hw as [->|Hw]; [done|].
    rewrite Forall_forall in Hall. eapply swo_trans; eauto.
  - destruct (set_insert x l) as [r b] eqn:E; cbn in *. intros Hb.
    destruct (IH Hb) as [Hc Hl]. split; [|by rewrite Hl].
    apply not_true_iff_false. rewrite set_contains_true.
    intros (w & Hw & [Hxw Hwx]).
    apply elem_of_cons in Hw as [->|Hw]; [done|].
    apply not_true_iff_false in Hc. apply Hc. rewrite set_contains_true.
    exists w. by repeat split.
Qed.

Lemma set_insert_contains_iff x y l :
  set_wf l →
  set_contains y (set_insert x l).1 = true ↔ key_eq x y ∨ set_contains y l = true.
Proof.
  intros Hwf. rewrite !set_contains_true. split.
  - intros (w & Hw & He). apply set_insert_In in Hw as [->|Hw].
    + left. by symmetry.
    + right. eauto.
  - intros [He|(w & Hw & He)].
    + destruct (set_insert_contains x l) as (w & Hw & He').
      exists w. split; [done|]. etrans; [symmetry; exact He|done].
    + exists w. split; [by apply set_insert_mono|done].
Qed.

Lemma set_of_list_wf_acc l s :
  set_wf s → set_wf (foldl (λ s x, (set_insert x s).1) s l).
Proof.
  revert s. induction l as [|x l IH]; intros s Hs; cbn; [done|].
  apply IH. by apply set_insert_wf.
Qed.

Lemma set_of_list_wf l : set_wf (set_of_list l).
Proof. apply set_of_list_wf_acc. constructor. Qed.

Lemma set_of_list_contains_acc l s y :
  set_wf s →
  set_contains y (foldl (λ s x, (set_insert x s).1) s l) = true ↔
  set_contains y s = true ∨ Exists (key_eq y) l.
Proof.
  revert s. induction l as [|x l IH]; intros s Hs; cbn.
  - rewrite Exists_nil. naive_solver.
  - rewrite IH by by apply set_insert_wf.
    rewrite set_insert_contains_iff by done. rewrite Exists_cons.
    split; [intros [[?|?]|?]|intros [?|[?|?]]]; auto.
    + right. left. by symmetry.
    + left. left. by symmetry.
Qed.

Lemma set_of_list_contains l y :
  set_contains y (set_of_list l) = true ↔ Exists (key_eq y) l.
Proof.
  unfold set_of_list. rewrite set_of_list_contains_acc by constructor.
  split; [intros [H%set_contains_true|?]|]; auto. set_solver.
Qed.

Lemma set_erase_wf x l : set_wf l → set_wf (set_erase x l).1.
Proof.
  unfold set_wf, set_erase. simpl fst. induction 1 as [|z l Hs IH Hall]; [constructor|].
  rewrite filter_cons. case_decide; [|done]. constructor; [done|].
  apply Forall_forall. intros w [_ Hw]%list_elem_of_filter.
  rewrite Forall_forall in Hall. auto.
Qed.

Lemma set_erase_contains x y l :
  set_contains y (set_erase x l).1 = true ↔
  set_contains y l = true ∧ ¬ key_eq x y.
Proof.
  rewrite !set_contains_true. cbn. split.
  - intros (w & [Hn Hw]%list_elem_of_filter & He). split; [eauto|].
    intros Hxy. apply Hn. etrans; eauto.
  - intros [(w & Hw & He) Hn]. exists w. split; [|done].
    apply list_elem_of_filter. split; [|done]. intros Hxw. apply Hn.
    etrans; [exact Hxw|by symmetry].
Qed.

(** In a well-formed set a key occurs at one position only. *)
Lemma set_wf_lookup_inj l i j x y :
  set_wf l → l !! i = Some x → l !! j = Some y → key_eq x y → i = j.
Proof.
  unfold set_wf. intros Hs. revert i j.
  induction Hs as [|z l Hs IH Hall]; intros i j Hi Hj He; [done|].
  rewrite Forall_forall in Hall.
  destruct i as [|i], j as [|j]; cbn in *; simplify_eq; [done| | |].
  - exfalso. apply (proj1 He). apply Hall. by eapply list_elem_of_lookup_2.
  - exfalso. apply (proj2 He). apply Hall. by eapply list_elem_of_lookup_2.
  - f_equal. eauto.
Qed.

Lemma set_wf_elem_inj l x y :
  set_wf l → x ∈ l → y ∈ l → key_eq x y → x = y.
Proof.
  intros Hs [i Hi]%list_elem_of_lookup [j Hj]%list_elem_of_lookup He.
  pose proof (set_wf_lookup_inj l i j x y Hs Hi Hj He). by simplify_eq.
Qed.

Lemma set_wf_NoDup l : set_wf l → NoDup l.
Proof.
  intros Hs. apply NoDup_alt. intros i j x Hi Hj.
  by eapply (set_wf_lookup_inj l i j x x).
Qed.
End std_set.

Arguments set_wf {A} lt l.

(** ** [std::map<int64_t, V>] *)

Section std_map.
Context {V : Type}.
Implicit Types (m : list (Z * V)) (k : Z) (v : V).

(** Strictly increasing keys. *)
Definition map_wf (m : list (Z * V)) : Prop := StronglySorted Z.lt m.*1.

Definition map_get (k : Z) (m : list (Z * V)) : option V :=
  snd <$> head (filter (λ p, p.1 = k) m).

(** [m[k] = v]. *)
Fixpoint map_set (k : Z) (v : V) (m : list (Z * V)) : list (Z * V) :=
  match m with
  | [] => [(k, v)]
  | (k', v') :: m' =>
      if decide (k < k') then (k, v) :: (k', v') :: m'
      else if decide (k = k') then (k, v) :: m'
      else (k', v') :: map_set k v m'
  end.

(** [m.insert(make_pair(k, v))]: an existing key keeps its value. *)
Fixpoint map_insert (k : Z) (v : V) (m : list (Z * V)) : list (Z * V) :=
  match m with
  | [] => [(k, v)]
  | (k', v') :: m' =>
      if decide (k < k') then (k, v) :: (k', v') :: m'
      else if decide (k = k') then (k', v') :: m'
      else (k', v') :: map_insert k v m'
  end.

Definition map_erase (k : Z) (m : list (Z * V)) : list (Z * V) :=
  filter (λ p, p.1 ≠ k) m.

(** The elements below [lower_bound(k)] and from it on. *)
Definition map_below (k : Z) (m : list (Z * V)) : list (Z * V) :=
  filter (λ p, p.1 < k) m.
Definition map_from (k : Z) (m : list (Z * V)) : list (Z * V) :=
  filter (λ p, k ≤ p.1) m.

Lemma map_insert_elem k v m p : p ∈ map_insert k v m → p = (k, v) ∨ p ∈ m.
Proof.
  induction m as [|[k' v'] m IH]; cbn; [set_solver|].
  repeat case_decide; set_solver.
Qed.

Lemma map_insert_fresh k v m :
  k ∉ m.*1 → map_insert k v m ≡ₚ (k, v) :: m.
Proof.
  induction m as [|[k' v'] m IH]; cbn; intros Hn; [done|].
  repeat case_decide; [done|set_solver|].
  rewrite IH by set_solver. apply Permutation_swap.
Qed.

Lemma map_insert_wf k v m : map_wf m → map_wf (map_insert k v m).
Proof.
  unfold map_wf. induction m as [|[k' v'] m IH]; cbn; intros Hs.
  - repeat constructor.
  - apply StronglySorted_inv in Hs as [Hs Hall].
    repeat case_decide; cbn.
    + constructor; [by constructor|]. constructor; [done|].
      eapply Forall_impl; [exact Hall|]. cbn. lia.
    + by constructor.
    + constructor; [auto|]. apply Forall_forall. intros x (p & -> & Hp)%list_elem_of_fmap.
      apply map_insert_elem in Hp as [->|Hp]; cbn; [lia|].
      rewrite Forall_forall in Hall. apply Hall. apply list_elem_of_fmap. eauto.
Qed.

Lemma map_set_elem k v m p : p ∈ map_set k v m → p = (k, v) ∨ p ∈ m.
Proof.
  induction m as [|[k' v'] m IH]; cbn; [set_solver|].
  repeat case_decide; set_solver.
Qed.

Lemma map_set_wf k v m : map_wf m → map_wf (map_set k v m).
Proof.
  unfold map_wf. induction m as [|[k' v'] m IH]; cbn; intros Hs.
  - repeat constructor.
  - apply StronglySorted_inv in Hs as [Hs Hall].
    repeat case_decide; cbn; subst.
    + constructor; [by constructor|]. constructor; [done|].
      eapply Forall_impl; [exact Hall|]. cbn. lia.
    + by constructor.
    + constructor; [auto|]. apply Forall_forall. intros x (p & -> & Hp)%list_elem_of_fmap.
      apply map_set_elem in Hp as [->|Hp]; cbn; [lia|].
      rewrite Forall_forall in Hall. apply Hall. apply list_elem_of_fmap. eauto.
Qed.

(** Assigning a key above every other appends. *)
Lemma map_set_snoc k v m :
  Forall (λ p, p.1 < k) m → map_set k v m = m ++ [(k, v)].
Proof.
  induction 1 as [|[k' v'] m Hk Hall IH]; cbn in *; [done|].
  rewrite !decide_False by lia. by rewrite IH.
Qed.

Lemma map_filter_wf (P : Z * V → Prop) `{∀ p, Decision (P p)} m :
  map_wf m → map_wf (filter P m).
Proof.
  unfold map_wf. induction m as [|[k' v'] m IH]; intros Hs; [done|].
  rewrite fmap_cons in Hs. apply StronglySorted_inv in Hs as [Hs Hall]. rewrite filter_cons.
  case_decide; [rewrite fmap_cons|auto]. constructor; [auto|].
  apply Forall_forall. intros x (p & -> & Hp)%list_elem_of_fmap.
  apply list_elem_of_filter in Hp as [_ Hp].
  rewrite Forall_forall in Hall. apply Hall. apply list_elem_of_fmap. eauto.
Qed.

Lemma map_wf_app m1 m2 :
  map_wf (m1 ++ m2) ↔
  map_wf m1 ∧ map_wf m2 ∧ ∀ p q, p ∈ m1 → q ∈ m2 → p.1 < q.1.
Proof.
  unfold map_wf. rewrite fmap_app. induction m1 as [|[k v] m1 IH]; cbn.
  - split; [|naive_solver]. intros ?. repeat split; [constructor|done|set_solver].
  - split.
    + intros [H Hall]%StronglySorted_inv. apply IH in H as (?&?&Hlt).
      rewrite Forall_app in Hall. destruct Hall as [Ha1 Ha2].
      repeat split; [by constructor|done|].
      intros p q [->|Hp]%elem_of_cons Hq; [|auto]. cbn.
      rewrite Forall_forall in Ha2. apply Ha2. apply list_elem_of_fmap. eauto.
    + intros ([H1 Hall]%StronglySorted_inv & H2 & Hlt).
      constructor; [apply IH; set_solver|]. apply Forall_app. split; [done|].
      apply Forall_forall. intros x (q & -> & Hq)%list_elem_of_fmap.
      apply (Hlt (k, v) q); set_solver.
Qed.
End std_map.
