(* ===== verification/Configuration.v ===== *)
(** * Peers, log identifiers and configurations

    [PeerId] and [Configuration] of src/melon/raft/configuration.h, [LogId] and
    [LogEntry] of src/melon/raft/log_entry.h.  A configuration is an
    [std::set<PeerId>], ordered by address and index only: a peer's role does
    not take part in comparisons. *)

From stdpp Require Import prelude sorting.
From S2P Require Import Prelude StdContainers.
Local Open Scope Z_scope.

(** ** Endpoints and peers *)

Record EndPoint := mkEndPoint { ip : Z; port : Z }.

Inductive Role := REPLICA | WITNESS.

Record PeerId := mkPeerId { addr : EndPoint; idx : Z; role : Role }.

#[global] Instance EndPoint_eq_dec : EqDecision EndPoint.
Proof. solve_decision. Defined.
#[global] Instance Role_eq_dec : EqDecision Role.
Proof. solve_decision. Defined.
#[global] Instance PeerId_eq_dec : EqDecision PeerId.
Proof. solve_decision. Defined.

(** [operator<] and [operator==] on endpoints. *)
Definition endpoint_lt (p1 p2 : EndPoint) : Prop :=
  if decide (ip p1 ≠ ip p2) then ip p1 < ip p2 else port p1 < port p2.

Definition endpoint_eq (p1 p2 : EndPoint) : Prop :=
  ip p1 = ip p2 ∧ port p1 = port p2.

#[global] Instance endpoint_lt_dec : RelDecision endpoint_lt.
Proof. intros x y. unfold endpoint_lt. case_decide; apply _. Defined.
#[global] Instance endpoint_eq_dec : RelDecision endpoint_eq.
Proof. intros x y. unfold endpoint_eq. apply _. Defined.

(** [operator<] and [operator==] on peers. *)
Definition peer_lt (id1 id2 : PeerId) : Prop :=
  endpoint_lt (addr id1) (addr id2) ∨
  (endpoint_eq (addr id1) (addr id2) ∧ idx id1 < idx id2).

Definition peer_eq (id1 id2 : PeerId) : Prop :=
  endpoint_eq (addr id1) (addr id2) ∧ idx id1 = idx id2.

#[global] Instance peer_lt_dec : RelDecision peer_lt.
Proof. intros x y. unfold peer_lt. apply _. Defined.
#[global] Instance peer_eq_dec : RelDecision peer_eq.
Proof. intros x y. unfold peer_eq. apply _. Defined.

(** [PeerId()] and [reset()]. *)
Definition empty_peer : PeerId := mkPeerId (mkEndPoint 0 0) 0 REPLICA.

Definition peer_is_empty (p : PeerId) : bool :=
  bool_decide (ip (addr p) = 0 ∧ port (addr p) = 0 ∧ idx p = 0).

Definition is_witness (p : PeerId) : bool := bool_decide (role p = WITNESS).

(** What a peer is to every comparison of the code. *)
Definition peer_key (p : PeerId) : Z * Z * Z := (ip (addr p), port (addr p), idx p).

Lemma peer_eq_key p q : peer_eq p q ↔ peer_key p = peer_key q.
Proof.
  unfold peer_eq, endpoint_eq, peer_key.
  split; [intros [[-> ->] ->]; done|intros [=]; done].
Qed.

Lemma peer_is_empty_eq p : peer_is_empty p = true ↔ peer_eq p empty_peer.
Proof. unfold peer_is_empty, peer_eq, endpoint_eq. rewrite bool_decide_eq_true. naive_solver. Qed.

#[global] Instance peer_eq_equivalence : Equivalence peer_eq.
Proof.
  split; [intros x|intros x y|intros x y z]; rewrite !peer_eq_key; congruence.
Qed.

Lemma peer_lt_spec p q :
  peer_lt p q ↔
  ip (addr p) < ip (addr q) ∨
  (ip (addr p) = ip (addr q) ∧ port (addr p) < port (addr q)) ∨
  (ip (addr p) = ip (addr q) ∧ port (addr p) = port (addr q) ∧ idx p < idx q).
Proof. unfold peer_lt, endpoint_lt, endpoint_eq. case_decide; lia. Qed.

(** [operator<] is a strict weak order, and its equivalence is [operator==]. *)
#[global] Instance peer_lt_swo : StrictWeakOrder peer_lt.
Proof. split; [apply _|intros *; rewrite !peer_lt_spec; lia..]. Defined.

Lemma key_eq_peer p q : key_eq peer_lt p q ↔ peer_key p = peer_key q.
Proof.
  unfold key_eq. rewrite !peer_lt_spec. unfold peer_key.
  split; [|intros [=]; lia]. intros H.
  assert (ip (addr p) = ip (addr q) ∧ port (addr p) = port (addr q) ∧ idx p = idx q)
    as (-> & -> & ->) by lia. done.
Qed.

(** Comparisons of keys stay opaque to injection-based simplification. *)
#[global] Opaque peer_key.

(** ** Log identifiers *)

Record LogId := mkLogId { index : Z; term : Z }.

#[global] Instance LogId_eq_dec : EqDecision LogId.
Proof. solve_decision. Defined.

Definition logid_lt (lhs rhs : LogId) : Prop :=
  if decide (term lhs = term rhs) then index lhs < index rhs else term lhs < term rhs.

Definition logid_gt (lhs rhs : LogId) : Prop :=
  if decide (term lhs = term rhs) then index lhs > index rhs else term lhs > term rhs.

Definition logid_le (lhs rhs : LogId) : Prop := ¬ logid_gt lhs rhs.
Definition logid_ge (lhs rhs : LogId) : Prop := ¬ logid_lt lhs rhs.

#[global] Instance logid_lt_dec : RelDecision logid_lt.
Proof. intros x y. unfold logid_lt. case_decide; apply _. Defined.
#[global] Instance logid_gt_dec : RelDecision logid_gt.
Proof. intros x y. unfold logid_gt. case_decide; apply _. Defined.
#[global] Instance logid_le_dec : RelDecision logid_le.
Proof. intros x y. unfold logid_le. apply _. Defined.
#[global] Instance logid_ge_dec : RelDecision logid_ge.
Proof. intros x y. unfold logid_ge. apply _. Defined.

Definition zero_id : LogId := mkLogId 0 0.

(** [std::min] on log ids: the second argument only when it is smaller. *)
Definition logid_min (a b : LogId) : LogId := if decide (logid_lt b a) then b else a.

Lemma logid_lt_spec a b :
  logid_lt a b ↔ term a < term b ∨ (term a = term b ∧ index a < index b).
Proof. unfold logid_lt. case_decide; lia. Qed.

Lemma logid_gt_lt a b : logid_gt a b ↔ logid_lt b a.
Proof. unfold logid_gt, logid_lt. repeat case_decide; lia. Qed.

Lemma logid_le_spec a b :
  logid_le a b ↔ term a < term b ∨ (term a = term b ∧ index a ≤ index b).
Proof. unfold logid_le. rewrite logid_gt_lt, logid_lt_spec. lia. Qed.

Lemma logid_ge_spec a b : logid_ge a b ↔ logid_le b a.
Proof. unfold logid_ge, logid_le. by rewrite logid_gt_lt. Qed.

(** ** Log entries *)

Inductive EntryType :=
  | ENTRY_TYPE_UNKNOWN | ENTRY_TYPE_NO_OP | ENTRY_TYPE_DATA | ENTRY_TYPE_CONFIGURATION.

#[global] Instance EntryType_eq_dec : EqDecision EntryType.
Proof. solve_decision. Defined.

(** [peers] and [old_peers] are owned pointers, null unless the entry carries
    a configuration; [data] is the content of the [IOBuf], one [Z] per byte. *)
Record LogEntry := mkLogEntry {
  type : EntryType;
  id : LogId;
  peers : option (list PeerId);
  old_peers : option (list PeerId);
  data : list Z;
}.

#[global] Instance LogEntry_eq_dec : EqDecision LogEntry.
Proof. solve_decision. Defined.

(** ** Configurations *)

Record Configuration := mkConfiguration { _peers : list PeerId }.

#[global] Instance Configuration_eq_dec : EqDecision Configuration.
Proof. solve_decision. Defined.

Definition conf_new : Configuration := mkConfiguration [].

Definition conf_of_vector (ps : list PeerId) : Configuration :=
  mkConfiguration (set_of_list peer_lt ps).

Definition conf_empty (c : Configuration) : bool := bool_decide (_peers c = []).

Definition conf_size (c : Configuration) : Z := zlen (_peers c).

Definition list_peers (c : Configuration) : list PeerId := _peers c.

(** [append_peers(&peers)] on a set of peers. *)
Definition append_peers (c : Configuration) (s : list PeerId) : list PeerId :=
  foldl (λ s x, (set_insert peer_lt x s).1) s (_peers c).

Definition add_peer (c : Configuration) (p : PeerId) : Configuration * bool :=
  let '(l, b) := set_insert peer_lt p (_peers c) in (mkConfiguration l, b).

Definition remove_peer (c : Configuration) (p : PeerId) : Configuration * bool :=
  let '(l, b) := set_erase peer_lt p (_peers c) in (mkConfiguration l, b).

Definition contains (c : Configuration) (p : PeerId) : bool :=
  set_contains peer_lt p (_peers c).

(** [contains(const std::vector<PeerId>&)]. *)
Fixpoint contains_all (c : Configuration) (ps : list PeerId) : bool :=
  match ps with
  | [] => true
  | p :: ps' => if contains c p then contains_all c ps' else false
  end.

(** [equals(const std::vector<PeerId>&)]. *)
Fixpoint equals_vector_loop (c : Configuration) (ps peer_set : list PeerId) : bool :=
  match ps with
  | [] => bool_decide (zlen peer_set = zlen (_peers c))
  | p :: ps' =>
      if contains c p then equals_vector_loop c ps' (set_insert peer_lt p peer_set).1
      else false
  end.

Definition equals_vector (c : Configuration) (ps : list PeerId) : bool :=
  equals_vector_loop c ps [].

(** [equals(const Configuration&)]. *)
Definition conf_equals (c rhs : Configuration) : bool :=
  if decide (conf_size c ≠ conf_size rhs) then false else contains_all rhs (_peers c).

(** [diffs]: [(included, excluded)]. *)
Definition diffs (c rhs : Configuration) : Configuration * Configuration :=
  let excluded := foldl (λ s p, (set_erase peer_lt p s).1) (_peers rhs) (_peers c) in
  let included := foldl (λ s p, (set_erase peer_lt p s).1) (_peers c) (_peers rhs) in
  (mkConfiguration included, mkConfiguration excluded).

Definition conf_wf (c : Configuration) : Prop := set_wf peer_lt (_peers c).

(** The keys of the members, which is all a configuration is up to
    [operator==]. *)
Definition conf_keys (c : Configuration) : list (Z * Z * Z) := peer_key <$> _peers c.

(** ** Configuration entries (configuration_manager.h) *)

Record ConfigurationEntry := mkConfigurationEntry {
  ce_id : LogId;
  ce_conf : Configuration;
  ce_old_conf : Configuration;
}.

Definition ce_default : ConfigurationEntry :=
  mkConfigurationEntry zero_id conf_new conf_new.

(** [ConfigurationEntry(const LogEntry&)] dereferences [entry.peers]: the
    entry must carry peers. *)
Definition ce_of_entry (entry : LogEntry) : option ConfigurationEntry :=
  match peers entry with
  | None => None
  | Some ps =>
      Some (mkConfigurationEntry (id entry) (conf_of_vector ps)
              match old_peers entry with
              | Some ops => conf_of_vector ops
              | None => conf_new
              end)
  end.

Definition ce_stable (e : ConfigurationEntry) : bool := conf_empty (ce_old_conf e).
Definition ce_empty (e : ConfigurationEntry) : bool := conf_empty (ce_conf e).
Definition ce_list_peers (e : ConfigurationEntry) : list PeerId :=
  append_peers (ce_old_conf e) (append_peers (ce_conf e) []).
Definition ce_contains (e : ConfigurationEntry) (p : PeerId) : bool :=
  contains (ce_conf e) p || contains (ce_old_conf e) p.

(** ** Lemmas *)

Lemma contains_key c p : contains c p = true ↔ peer_key p ∈ conf_keys c.
Proof.
  unfold contains, conf_keys. rewrite set_contains_true, list_elem_of_fmap.
  setoid_rewrite key_eq_peer. split; intros (y & ? & ?); eauto.
Qed.

Lemma conf_keys_NoDup c : conf_wf c → NoDup (conf_keys c).
Proof.
  intros Hwf. apply NoDup_alt. unfold conf_keys. intros i j k Hi Hj.
  rewrite list_lookup_fmap in Hi, Hj.
  apply fmap_Some in Hi as (x & Hx & ->). apply fmap_Some in Hj as (y & Hy & He).
  eapply set_wf_lookup_inj; [exact Hwf|exact Hx|exact Hy|]. by apply key_eq_peer.
Qed.

Lemma conf_of_vector_wf ps : conf_wf (conf_of_vector ps).
Proof. apply set_of_list_wf. Qed.

Lemma add_peer_wf c p : conf_wf c → conf_wf (add_peer c p).1.
Proof.
  intros H. unfold add_peer. pose proof (set_insert_wf peer_lt p (_peers c) H).
  by destruct (set_insert peer_lt p (_peers c)).
Qed.

Lemma remove_peer_wf c p : conf_wf c → conf_wf (remove_peer c p).1.
Proof. intros H. by apply (set_erase_wf peer_lt). Qed.

#[export] Hint Resolve conf_of_vector_wf add_peer_wf remove_peer_wf : melon.

Lemma conf_of_vector_keys ps k : k ∈ conf_keys (conf_of_vector ps) ↔ k ∈ peer_key <$> ps.
Proof.
  split.
  - intros (p & -> & Hp)%list_elem_of_fmap.
    assert (set_contains peer_lt p (set_of_list peer_lt ps) = true) as H.
    { apply set_contains_true. exists p. split; [done|reflexivity]. }
    apply set_of_list_contains, Exists_exists in H as (q & Hq & He).
    apply key_eq_peer in He. apply list_elem_of_fmap. eauto.
  - intros (p & -> & Hp)%list_elem_of_fmap. apply contains_key.
    unfold contains. apply set_of_list_contains, Exists_exists.
    exists p. split; [done|by apply key_eq_peer].
Qed.

Lemma add_peer_contains c p q :
  conf_wf c → contains (add_peer c p).1 q = true ↔ peer_key p = peer_key q ∨ contains c q = true.
Proof.
  intros Hwf. unfold contains, add_peer.
  pose proof (set_insert_contains_iff peer_lt p q (_peers c) Hwf) as H.
  destruct (set_insert peer_lt p (_peers c)); cbn in *. rewrite H. by rewrite key_eq_peer.
Qed.

Lemma contains_all_true c ps : contains_all c ps = true ↔ ∀ p, p ∈ ps → contains c p = true.
Proof.
  induction ps as [|p ps IH]; cbn; [set_solver|].
  destruct (contains c p) eqn:E.
  - rewrite IH. split; [|set_solver]. intros H q [->|?]%elem_of_cons; auto.
  - split; [done|]. intros H. specialize (H p). rewrite E in H. apply H. set_solver.
Qed.

(** Two duplicate-free lists of the same length, one inside the other, have
    the same elements. *)
Lemma NoDup_incl_eq_length {A} `{!EqDecision A} (l k : list A) :
  NoDup l → (∀ x, x ∈ l → x ∈ k) → length l = length k → l ≡ₚ k.
Proof.
  intros Hl Hin Hlen. apply submseteq_length_Permutation; [|lia].
  by apply NoDup_submseteq.
Qed.

Lemma NoDup_incl_length_le {A} `{!EqDecision A} (l k : list A) :
  NoDup l → (∀ x, x ∈ l → x ∈ k) → (length l ≤ length k)%nat.
Proof. intros Hl Hin. by apply submseteq_length, NoDup_submseteq. Qed.

Lemma set_erase_all_contains ps s q :
  set_contains peer_lt q (foldl (λ s p, (set_erase peer_lt p s).1) s ps) = true ↔
  set_contains peer_lt q s = true ∧ peer_key q ∉ peer_key <$> ps.
Proof.
  revert s. induction ps as [|p ps IH]; intros s; cbn [foldl].
  - split; [intros H; split; [done|set_solver]|tauto].
  - rewrite IH, set_erase_contains, key_eq_peer, fmap_cons, not_elem_of_cons. intuition congruence.
Qed.

Lemma set_erase_all_wf ps s :
  set_wf peer_lt s → set_wf peer_lt (foldl (λ s p, (set_erase peer_lt p s).1) s ps).
Proof.
  revert s. induction ps as [|p ps IH]; intros s Hs; [done|].
  cbn [foldl]. apply IH. by apply (set_erase_wf peer_lt).
Qed.

Lemma equals_vector_loop_spec c ps s :
  conf_wf c → set_wf peer_lt s →
  (∀ q, set_contains peer_lt q s = true → contains c q = true) →
  equals_vector_loop c ps s = true ↔
  (∀ q, contains c q = true ↔ set_contains peer_lt q s = true ∨ peer_key q ∈ peer_key <$> ps).
Proof.
  intros Hc. revert s. induction ps as [|p ps IH]; intros s Hs Hsub; cbn [equals_vector_loop].
  - rewrite bool_decide_eq_true. unfold zlen. rewrite fmap_nil.
    pose proof (conf_keys_NoDup c Hc) as Hnc.
    pose proof (conf_keys_NoDup (mkConfiguration s) Hs) as Hns.
    assert (∀ q, set_contains peer_lt q s = contains (mkConfiguration s) q) as Hk by done.
    assert (∀ k, k ∈ conf_keys (mkConfiguration s) → k ∈ conf_keys c) as Hin.
    { intros k (q & -> & Hq)%list_elem_of_fmap. apply contains_key, Hsub. rewrite Hk.
      apply contains_key, list_elem_of_fmap. eauto. }
    split.
    + intros Hlen q. rewrite Hk, !contains_key.
      rewrite (NoDup_incl_eq_length _ _ Hns Hin); [split; [by left|by intros [?|?%elem_of_nil]]|].
      unfold conf_keys. rewrite !length_fmap. cbn. lia.
    + intros Heq. f_equal. unfold conf_keys in *.
      apply Nat.le_antisymm.
      * pose proof (NoDup_incl_length_le _ _ Hns Hin) as Hle. by rewrite !length_fmap in Hle.
      * assert (∀ k, k ∈ conf_keys c → k ∈ conf_keys (mkConfiguration s)) as Hin'.
        { intros k (q & -> & Hq)%list_elem_of_fmap. apply contains_key. rewrite <-Hk.
          destruct (proj1 (Heq q)) as [?|H]; [|done|set_solver].
          apply contains_key, list_elem_of_fmap. eauto. }
        pose proof (NoDup_incl_length_le _ _ Hnc Hin') as Hle.
        unfold conf_keys in Hle. by rewrite !length_fmap in Hle.
  - destruct (contains c p) eqn:E.
    + rewrite IH; [|by apply set_insert_wf|].
      2:{ intros q. rewrite set_insert_contains_iff, key_eq_peer by done.
          intros [He|?]; [|auto]. apply contains_key. rewrite <-He. by apply contains_key. }
      setoid_rewrite (set_insert_contains_iff peer_lt p _ s Hs). setoid_rewrite key_eq_peer.
      rewrite fmap_cons. setoid_rewrite elem_of_cons. split; intros H q; rewrite H; intuition congruence.
    + split; [done|]. intros H. rewrite (proj2 (H p)) in E; [done|].
      right. rewrite fmap_cons. set_solver.
Qed.

(** ** Properties *)

(** [equals] between configurations decides equality of membership: the size
    test and the one-directional scan suffice because the two sets hold each
    key once. *)
Theorem conf_equals_spec c rhs :
  conf_wf c → conf_wf rhs →
  conf_equals c rhs = true ↔ (∀ p, contains c p = contains rhs p).
Proof.
  intros Hc Hr. unfold conf_equals, conf_size, zlen.
  pose proof (conf_keys_NoDup c Hc) as Hnc. pose proof (conf_keys_NoDup rhs Hr) as Hnr.
  assert (∀ p, p ∈ _peers c → peer_key p ∈ conf_keys c) as Hmem.
  { intros p ?. apply list_elem_of_fmap. eauto. }
  split.
  - case_decide as Hsz; [done|]. rewrite contains_all_true. intros H p.
    assert (conf_keys c ≡ₚ conf_keys rhs) as HP.
    { apply NoDup_incl_eq_length; [done| |unfold conf_keys; rewrite !length_fmap; lia].
      intros k (q & -> & Hq)%list_elem_of_fmap. apply contains_key. auto. }
    apply eq_iff_eq_true. by rewrite !contains_key, HP.
  - intros H. rewrite decide_False.
    + apply contains_all_true. intros p Hp. rewrite <-H. apply contains_key. auto.
    + intros Hsz. apply Hsz. f_equal.
      assert (∀ k, k ∈ conf_keys c ↔ k ∈ conf_keys rhs) as Hk.
      { intros k. split; intros (q & -> & Hq)%list_elem_of_fmap; apply contains_key;
          [rewrite <-H|rewrite H]; apply contains_key, list_elem_of_fmap; eauto. }
      pose proof (NoDup_incl_length_le _ _ Hnc (λ k, proj1 (Hk k))) as H1.
      pose proof (NoDup_incl_length_le _ _ Hnr (λ k, proj2 (Hk k))) as H2.
      unfold conf_keys in H1, H2. rewrite !length_fmap in *. lia.
Qed.

Theorem equals_vector_spec c ps :
  conf_wf c →
  equals_vector c ps = true ↔ (∀ p, contains c p = true ↔ peer_key p ∈ peer_key <$> ps).
Proof.
  intros Hc. unfold equals_vector. rewrite equals_vector_loop_spec; [|done|constructor|].
  - assert (∀ q, set_contains peer_lt q [] = false) as He.
    { intros q. apply not_true_iff_false. rewrite set_contains_true. set_solver. }
    setoid_rewrite He. split; intros H q; rewrite H; intuition congruence.
  - intros q. rewrite set_contains_true. set_solver.
Qed.

(** [diffs] computes the two set differences. *)
Theorem diffs_spec c rhs :
  conf_wf c → conf_wf rhs →
  let '(included, excluded) := diffs c rhs in
  conf_wf included ∧ conf_wf excluded ∧
  (∀ p, contains included p = contains c p && negb (contains rhs p)) ∧
  (∀ p, contains excluded p = contains rhs p && negb (contains c p)).
Proof.
  intros Hc Hr. unfold diffs. repeat split; [by apply set_erase_all_wf..| |];
    intros p; apply eq_iff_eq_true; unfold contains at 1; cbn [_peers];
    rewrite set_erase_all_contains, andb_true_iff, negb_true_iff, <-not_true_iff_false.
  - by rewrite (contains_key rhs).
  - by rewrite (contains_key c).
Qed.
