(* ===== verification/Ballot.v ===== *)
(** * Ballots

    [Ballot] of src/melon/raft/ballot.h and ballot.cc: the votes of a
    configuration, or of the two configurations of a joint consensus, counted
    down to zero.  [grant] takes a position hint so that a batch of grants by
    the same peer skips the linear search. *)

From stdpp Require Import prelude sorting.
From S2P Require Import Prelude StdContainers Configuration.
Local Open Scope Z_scope.

Record UnfoundPeerId := mkUnfound { peer_id : PeerId; found : bool }.

Record PosHint := mkPosHint { pos0 : Z; pos1 : Z }.

Record Ballot := mkBallot {
  bl_peers : list UnfoundPeerId;
  _quorum : Z;
  bl_old_peers : list UnfoundPeerId;
  _old_quorum : Z;
}.

Definition no_hint : PosHint := mkPosHint (-1) (-1).

Definition ballot_new : Ballot := mkBallot [] 0 [] 0.

(** [init(conf, old_conf)]; [None] is the null [old_conf].  It always returns
    0. *)
Definition ballot_init (conf : Configuration) (old_conf : option Configuration) : Ballot * Z :=
  let ps := (λ p, mkUnfound p false) <$> list_peers conf in
  let quorum := zlen ps / 2 + 1 in
  match old_conf with
  | None => (mkBallot ps quorum [] 0, 0)
  | Some oc =>
      let ops := (λ p, mkUnfound p false) <$> list_peers oc in
      (mkBallot ps quorum ops (zlen ops / 2 + 1), 0)
  end.

(** The linear scan of [find_peer]; [None] is [peers.end()]. *)
Fixpoint find_peer_scan (peer : PeerId) (ps : list UnfoundPeerId) : option nat :=
  match ps with
  | [] => None
  | u :: ps' =>
      if decide (peer_eq (peer_id u) peer) then Some 0%nat else S <$> find_peer_scan peer ps'
  end.

Definition find_peer (peer : PeerId) (ps : list UnfoundPeerId) (pos_hint : Z) : option nat :=
  match zlookup ps pos_hint with
  | Some u =>
      if decide (peer_eq (peer_id u) peer) then Some (Z.to_nat pos_hint)
      else find_peer_scan peer ps
  | None => find_peer_scan peer ps
  end.

(** One half of [grant]: mark the peer in a list and count it once.  Returns
    the list, the quorum left and the position (-1 when the peer is absent). *)
Definition grant_in (peer : PeerId) (ps : list UnfoundPeerId) (quorum hint : Z)
  : list UnfoundPeerId * Z * Z :=
  match find_peer peer ps hint with
  | Some i =>
      match ps !! i with
      | Some u =>
          if found u then (ps, quorum, Z.of_nat i)
          else (<[i := mkUnfound (peer_id u) true]> ps, quorum - 1, Z.of_nat i)
      | None => (ps, quorum, -1)
      end
  | None => (ps, quorum, -1)
  end.

(** [grant(peer, hint)]. *)
Definition ballot_grant_hint (b : Ballot) (peer : PeerId) (hint : PosHint) : Ballot * PosHint :=
  let '(ps, q, p0) := grant_in peer (bl_peers b) (_quorum b) (pos0 hint) in
  if decide (bl_old_peers b = []) then
    (mkBallot ps q (bl_old_peers b) (_old_quorum b), mkPosHint p0 (-1))
  else
    let '(ops, oq, p1) := grant_in peer (bl_old_peers b) (_old_quorum b) (pos1 hint) in
    (mkBallot ps q ops oq, mkPosHint p0 p1).

(** [grant(peer)]. *)
Definition ballot_grant (b : Ballot) (peer : PeerId) : Ballot :=
  (ballot_grant_hint b peer no_hint).1.

Definition ballot_granted (b : Ballot) : bool :=
  bool_decide (_quorum b ≤ 0 ∧ _old_quorum b ≤ 0).

(** ** Specification *)

Abbreviation peer_keys := (list (Z * Z * Z)).

(** The members of [c] among the acknowledging peers. *)
Definition acked (c : Configuration) (acks : peer_keys) : peer_keys :=
  filter (λ k, k ∈ acks) (conf_keys c).

(** A strict majority of [c] acknowledged. *)
Definition majority (c : Configuration) (acks : peer_keys) : Prop :=
  conf_size c < 2 * zlen (acked c acks).

#[global] Instance majority_dec c acks : Decision (majority c acks).
Proof. unfold majority. apply _. Defined.

(** Majorities of the configuration and, during joint consensus, of the old
    configuration too. *)
Definition joint_majority (c : Configuration) (oc : option Configuration) (acks : peer_keys) : Prop :=
  majority c acks ∧ match oc with Some o => majority o acks | None => True end.

(** Grants in sequence, each with whatever hint the caller has. *)
Definition grant_all (b : Ballot) (gs : list (PeerId * PosHint)) : Ballot :=
  foldl (λ b g, (ballot_grant_hint b g.1 g.2).1) b gs.

(** What a list of [UnfoundPeerId]s and a remaining quorum represent. *)
Definition marks (c : Configuration) (acks : peer_keys) : list UnfoundPeerId :=
  (λ p, mkUnfound p (bool_decide (peer_key p ∈ acks))) <$> _peers c.

Definition quorum_left (c : Configuration) (acks : peer_keys) : Z :=
  conf_size c / 2 + 1 - zlen (acked c acks).

(** ** Lemmas *)

Lemma find_peer_scan_Some peer ps i :
  find_peer_scan peer ps = Some i →
  ∃ u, ps !! i = Some u ∧ peer_eq (peer_id u) peer.
Proof.
  revert i. induction ps as [|u ps IH]; intros i; cbn; [done|].
  case_decide; [intros [= <-]; cbn; eauto|].
  intros (j & Hj & ->)%fmap_Some. cbn. eauto.
Qed.

Lemma find_peer_scan_None peer ps :
  find_peer_scan peer ps = None → ∀ u, u ∈ ps → ¬ peer_eq (peer_id u) peer.
Proof.
  induction ps as [|u ps IH]; cbn; [set_solver|]. case_decide as Hd; [done|].
  intros H%fmap_None u' [->|?]%elem_of_cons; auto.
Qed.

Lemma marks_lookup_inj c acks i j u v :
  conf_wf c → marks c acks !! i = Some u → marks c acks !! j = Some v →
  peer_eq (peer_id u) (peer_id v) → i = j.
Proof.
  intros Hc Hi Hj He. unfold marks in *. rewrite list_lookup_fmap in Hi, Hj.
  apply fmap_Some in Hi as (p & Hp & ->). apply fmap_Some in Hj as (q & Hq & ->).
  eapply set_wf_lookup_inj; [exact Hc|done|done|].
  apply key_eq_peer. by apply peer_eq_key.
Qed.

(** The hint only ever saves the scan. *)
Lemma find_peer_hint c acks peer h :
  conf_wf c → find_peer peer (marks c acks) h = find_peer_scan peer (marks c acks).
Proof.
  intros Hc. unfold find_peer. destruct (zlookup (marks c acks) h) as [u|] eqn:Eu; [|done].
  case_decide as He; [|done].
  pose proof (zlookup_Some_range _ _ _ Eu) as [Hh _].
  unfold zlookup in Eu. rewrite decide_False in Eu by lia.
  destruct (find_peer_scan peer (marks c acks)) as [j|] eqn:Ej.
  - apply find_peer_scan_Some in Ej as (v & Hv & Hev). f_equal.
    eapply marks_lookup_inj; [done|exact Eu|exact Hv|]. etrans; [exact He|by symmetry].
  - exfalso. eapply find_peer_scan_None; [exact Ej| |exact He].
    by eapply list_elem_of_lookup_2.
Qed.

Lemma find_marks_found c acks peer i :
  find_peer_scan peer (marks c acks) = Some i →
  ∃ p, _peers c !! i = Some p ∧ peer_key p = peer_key peer ∧
       marks c acks !! i = Some (mkUnfound p (bool_decide (peer_key peer ∈ acks))).
Proof.
  intros (u & Hu & He)%find_peer_scan_Some. pose proof Hu as Hu'. unfold marks in Hu.
  rewrite list_lookup_fmap in Hu. apply fmap_Some in Hu as (p & Hp & ->).
  apply peer_eq_key in He. cbn in He. exists p. repeat split; [done|done|].
  by rewrite Hu', He.
Qed.

Lemma find_marks_absent c acks peer :
  find_peer_scan peer (marks c acks) = None → peer_key peer ∉ conf_keys c.
Proof.
  intros Hn. pose proof (find_peer_scan_None _ _ Hn) as H.
  intros (p & Hk & Hp)%list_elem_of_fmap. eapply (H (mkUnfound p (bool_decide (peer_key p ∈ acks)))).
  - apply list_elem_of_fmap. eauto.
  - by apply peer_eq_key.
Qed.

Lemma acked_old c acks k : k ∈ acks → acked c (k :: acks) = acked c acks.
Proof. intros Hk. apply filter_ext_elem. set_solver. Qed.

Lemma acked_absent c acks k : k ∉ conf_keys c → acked c (k :: acks) = acked c acks.
Proof. intros Hk. apply filter_ext_elem. set_solver. Qed.

Lemma acked_new c acks k :
  conf_wf c → k ∈ conf_keys c → k ∉ acks → zlen (acked c (k :: acks)) = zlen (acked c acks) + 1.
Proof.
  intros Hc Hk Hn. pose proof (conf_keys_NoDup c Hc) as Hnd. unfold acked, zlen.
  apply list_elem_of_split in Hk as (l1 & l2 & Heq). rewrite Heq in *.
  rewrite !filter_app, !filter_cons.
  rewrite (decide_True (P := k ∈ k :: acks)) by set_solver. rewrite decide_False by done.
  apply NoDup_app in Hnd as (_ & Hd & [Hk2 _]%NoDup_cons).
  rewrite (filter_ext_elem (λ x, x ∈ k :: acks) (λ x, x ∈ acks) l1),
          (filter_ext_elem (λ x, x ∈ k :: acks) (λ x, x ∈ acks) l2); [|set_solver..].
  rewrite !length_app. cbn [length]. lia.
Qed.

Lemma marks_cons_absent c acks k : k ∉ conf_keys c → marks c (k :: acks) = marks c acks.
Proof.
  intros Hk. unfold marks. apply list_fmap_ext. intros i p Hp. f_equal.
  apply bool_decide_ext. rewrite elem_of_cons. split; [intros [<-|?]; [|done]|auto].
  exfalso. apply Hk, list_elem_of_fmap. exists p. split; [done|by eapply list_elem_of_lookup_2].
Qed.

Lemma marks_cons_old c acks k : k ∈ acks → marks c (k :: acks) = marks c acks.
Proof.
  intros Hk. unfold marks. apply list_fmap_ext. intros i p Hp. f_equal.
  apply bool_decide_ext. set_solver.
Qed.

Lemma marks_cons_new c acks p i :
  conf_wf c → _peers c !! i = Some p →
  <[i := mkUnfound p true]> (marks c acks) = marks c (peer_key p :: acks).
Proof.
  intros Hc Hp. apply list_eq. intros j. unfold marks.
  destruct (decide (i = j)) as [<-|Hij].
  - rewrite list_lookup_insert_eq by (rewrite length_fmap; by eapply lookup_lt_Some).
    rewrite list_lookup_fmap, Hp. cbn. rewrite bool_decide_true by set_solver. done.
  - rewrite list_lookup_insert_ne by done. rewrite !list_lookup_fmap.
    destruct (_peers c !! j) as [q|] eqn:Eq; [|done]. cbn. do 2 f_equal.
    apply bool_decide_ext. rewrite elem_of_cons. split; [auto|intros [Hk|?]; [|done]].
    exfalso. apply Hij. eapply set_wf_lookup_inj; [exact Hc|done|done|].
    by apply key_eq_peer.
Qed.

(** [grant_in] implements "add the peer to the acknowledgements". *)
Lemma grant_in_spec c acks peer h :
  conf_wf c →
  (grant_in peer (marks c acks) (quorum_left c acks) h).1 =
  (marks c (peer_key peer :: acks), quorum_left c (peer_key peer :: acks)).
Proof.
  intros Hc. unfold grant_in. rewrite find_peer_hint by done.
  destruct (find_peer_scan peer (marks c acks)) as [i|] eqn:Ei.
  - destruct (find_marks_found _ _ _ _ Ei) as (p & Hp & Hk & Hm). rewrite Hm. cbn [found peer_id].
    case_bool_decide as Hin; cbn.
    + unfold quorum_left. by rewrite marks_cons_old, acked_old.
    + rewrite marks_cons_new by done. rewrite Hk. f_equal. unfold quorum_left.
      rewrite acked_new; [lia|done| |done].
      rewrite <-Hk. apply list_elem_of_fmap. exists p. split; [done|by eapply list_elem_of_lookup_2].
  - apply find_marks_absent in Ei. cbn. unfold quorum_left.
    by rewrite marks_cons_absent, acked_absent.
Qed.

(** The ballot a configuration and a set of acknowledgements determine. *)
Definition ballot_of (c : Configuration) (oc : option Configuration) (acks : peer_keys) : Ballot :=
  match oc with
  | None => mkBallot (marks c acks) (quorum_left c acks) [] 0
  | Some o => mkBallot (marks c acks) (quorum_left c acks) (marks o acks) (quorum_left o acks)
  end.

Definition oconf_wf (oc : option Configuration) : Prop :=
  match oc with Some o => conf_wf o | None => True end.

Lemma acked_nil c : acked c [] = [].
Proof. unfold acked. induction (conf_keys c); [done|]. rewrite filter_cons, decide_False; set_solver. Qed.

Lemma quorum_left_nil c : quorum_left c [] = conf_size c / 2 + 1.
Proof. unfold quorum_left. rewrite acked_nil, zlen_nil. lia. Qed.

Lemma marks_nil c : marks c [] = (λ p, mkUnfound p false) <$> list_peers c.
Proof. done. Qed.

Lemma ballot_init_spec c oc : ballot_init c oc = (ballot_of c oc [], 0).
Proof.
  unfold ballot_init, ballot_of. destruct oc as [o|]; rewrite !marks_nil, !quorum_left_nil;
    unfold zlen; rewrite !length_fmap; done.
Qed.

Lemma acked_empty_conf o acks : _peers o = [] → acked o acks = [].
Proof. intros H. unfold acked, conf_keys. by rewrite H. Qed.

Lemma ballot_grant_hint_spec c oc acks peer h :
  conf_wf c → oconf_wf oc →
  (ballot_grant_hint (ballot_of c oc acks) peer h).1 = ballot_of c oc (peer_key peer :: acks).
Proof.
  intros Hc Ho. unfold ballot_grant_hint.
  pose proof (grant_in_spec c acks peer (pos0 h) Hc) as Hg.
  destruct oc as [o|]; cbn [ballot_of bl_peers _quorum bl_old_peers _old_quorum] in *.
  - destruct (grant_in peer (marks c acks) (quorum_left c acks) (pos0 h)) as [[ps q] p0].
    cbn in Hg. simplify_eq. case_decide as Hemp.
    + cbn. unfold marks in Hemp. apply fmap_nil_inv in Hemp.
      unfold marks, quorum_left. rewrite !(acked_empty_conf o) by done. by rewrite Hemp.
    + pose proof (grant_in_spec o acks peer (pos1 h) Ho) as Hg'.
      destruct (grant_in peer (marks o acks) (quorum_left o acks) (pos1 h)) as [[ops oq] p1].
      cbn in Hg'. by simplify_eq.
  - destruct (grant_in peer (marks c acks) (quorum_left c acks) (pos0 h)) as [[ps q] p0].
    cbn in Hg. by simplify_eq.
Qed.

Lemma grant_all_spec c oc gs acks :
  conf_wf c → oconf_wf oc →
  grant_all (ballot_of c oc acks) gs = ballot_of c oc (reverse (peer_key ∘ fst <$> gs) ++ acks).
Proof.
  intros Hc Ho. revert acks. induction gs as [|g gs IH]; intros acks; [done|].
  cbn [grant_all foldl]. rewrite ballot_grant_hint_spec by done.
  fold (grant_all (ballot_of c oc (peer_key g.1 :: acks)) gs). rewrite IH.
  rewrite fmap_cons, reverse_cons. by rewrite <-app_assoc.
Qed.

Lemma ballot_of_granted c oc acks :
  ballot_granted (ballot_of c oc acks) = true ↔ joint_majority c oc acks.
Proof.
  unfold ballot_granted, joint_majority, majority, ballot_of, quorum_left.
  rewrite bool_decide_eq_true.
  pose proof (Z.div_mod (conf_size c) 2). destruct oc as [o|]; cbn [_quorum _old_quorum].
  - pose proof (Z.div_mod (conf_size o) 2).
    assert (0 ≤ conf_size c mod 2 < 2) by (apply Z.mod_pos_bound; lia).
    assert (0 ≤ conf_size o mod 2 < 2) by (apply Z.mod_pos_bound; lia). lia.
  - assert (0 ≤ conf_size c mod 2 < 2) by (apply Z.mod_pos_bound; lia). lia.
Qed.

Lemma acked_ext c acks acks' :
  (∀ k, k ∈ acks ↔ k ∈ acks') → acked c acks = acked c acks'.
Proof. intros H. apply filter_ext_elem. naive_solver. Qed.

#[global] Instance majority_proper c : Proper ((≡ₚ) ==> iff) (majority c).
Proof.
  intros a b Hab. unfold majority. rewrite (acked_ext c a b); [done|].
  intros k. by rewrite Hab.
Qed.

Lemma majority_mono c acks acks' :
  (∀ k, k ∈ acks → k ∈ acks') → majority c acks → majority c acks'.
Proof.
  intros Hsub. unfold majority. cut (zlen (acked c acks) ≤ zlen (acked c acks')); [lia|].
  unfold acked, zlen. induction (conf_keys c) as [|k l IH]; [done|].
  rewrite !filter_cons. repeat case_decide; cbn [length]; [lia| |lia|lia].
  exfalso. auto.
Qed.

(** Pigeonhole: two strict majorities of one configuration meet. *)
Lemma majority_intersect c a b :
  conf_wf c → majority c a → majority c b → ∃ k, k ∈ conf_keys c ∧ k ∈ a ∧ k ∈ b.
Proof.
  intros Hc Ha Hb. pose proof (conf_keys_NoDup c Hc) as Hnd.
  destruct (decide (Exists (λ k, k ∈ b) (acked c a))) as [H|H].
  { apply Exists_exists in H as (k & [Hka Hk]%list_elem_of_filter & Hkb). eauto. }
  exfalso. apply not_Exists_Forall in H; [|apply _].
  assert (NoDup (acked c a ++ acked c b)) as Hn.
  { apply NoDup_app. split_and!; [by apply NoDup_filter| |by apply NoDup_filter].
    intros k Hka [Hkb _]%list_elem_of_filter. rewrite Forall_forall in H. by eapply H. }
  assert (∀ k, k ∈ acked c a ++ acked c b → k ∈ conf_keys c) as Hin.
  { intros k [[_ ?]%list_elem_of_filter|[_ ?]%list_elem_of_filter]%elem_of_app; done. }
  pose proof (NoDup_incl_length_le _ _ Hn Hin) as Hle. rewrite length_app in Hle.
  unfold majority, conf_size, zlen, conf_keys in *. rewrite length_fmap in Hle. lia.
Qed.

(** ** Theorems *)

(** C8. A ballot is granted exactly when a strict majority of the distinct
    members of the configuration have granted it and, when an old
    configuration was given, a strict majority of the old one too; whatever
    position hints the grants carried, in whatever order they came, and with
    repeated grants and grants by non-members counted for nothing. *)
Theorem ballot_granted_iff_majority (c : Configuration) (oc : option Configuration)
    (gs : list (PeerId * PosHint)) (Hc : conf_wf c) (Ho : oconf_wf oc) :
  ballot_granted (grant_all (ballot_init c oc).1 gs) = true ↔
  joint_majority c oc (peer_key ∘ fst <$> gs).
Proof.
  rewrite ballot_init_spec. cbn [fst]. rewrite grant_all_spec by done.
  rewrite ballot_of_granted. unfold joint_majority.
  rewrite app_nil_r, reverse_Permutation.
  destruct oc as [o|]; [|done]. by rewrite reverse_Permutation.
Qed.

(** The hint changes no ballot: granting with any hint leaves the state
    that granting with a full scan leaves, and the position it returns points
    at the peer. *)
Theorem grant_hint_irrelevant (c : Configuration) (oc : option Configuration)
    (gs : list (PeerId * PosHint)) (peer : PeerId) (h : PosHint)
    (Hc : conf_wf c) (Ho : oconf_wf oc) :
  let b := grant_all (ballot_init c oc).1 gs in
  (ballot_grant_hint b peer h).1 = ballot_grant b peer ∧
  let h' := (ballot_grant_hint b peer h).2 in
  (contains c peer = true → ∃ u, zlookup (bl_peers b) (pos0 h') = Some u ∧ peer_eq (peer_id u) peer) ∧
  (contains c peer = false → pos0 h' = -1).
Proof.
  cbn zeta. rewrite ballot_init_spec. cbn [fst]. rewrite grant_all_spec by done.
  set (acks := reverse _ ++ _). split.
  { unfold ballot_grant. by rewrite !ballot_grant_hint_spec. }
  assert (bl_peers (ballot_of c oc acks) = marks c acks ∧
          _quorum (ballot_of c oc acks) = quorum_left c acks) as [Hbp Hq] by by destruct oc.
  assert (pos0 (ballot_grant_hint (ballot_of c oc acks) peer h).2 =
          (grant_in peer (marks c acks) (quorum_left c acks) (pos0 h)).2) as ->.
  { unfold ballot_grant_hint. rewrite Hbp, Hq.
    destruct (grant_in _ (marks c acks) _ _) as [[??]?]. case_decide; [done|].
    by destruct (grant_in _ (bl_old_peers _) _ _) as [[??]?]. }
  rewrite Hbp. unfold grant_in. rewrite find_peer_hint by done.
  destruct (find_peer_scan peer (marks c acks)) as [i|] eqn:Ei.
  - destruct (find_marks_found _ _ _ _ Ei) as (p & Hp & Hk & Hm). rewrite Hm.
    assert (contains c peer = true) as ->.
    { apply contains_key. rewrite <-Hk. apply list_elem_of_fmap.
      exists p. split; [done|by eapply list_elem_of_lookup_2]. }
    split; [|done]. intros _. eexists. rewrite <-peer_eq_key in Hk.
    case_match; cbn [snd]; rewrite zlookup_of_nat; by split.
  - apply find_marks_absent in Ei. rewrite <-contains_key in Ei.
    destruct (contains c peer); [by destruct Ei|]. by split.
Qed.

(** Quorum intersection, joint consensus included: two granted ballots
    that have a configuration in common - as the new or the old one on either
    side - were granted by a common member of that configuration. *)
Theorem granted_ballots_intersect (c1 c2 c : Configuration) (o1 o2 : option Configuration)
    (g1 g2 : list (PeerId * PosHint))
    (Hc1 : conf_wf c1) (Hc2 : conf_wf c2) (Ho1 : oconf_wf o1) (Ho2 : oconf_wf o2)
    (Hin1 : c = c1 ∨ o1 = Some c) (Hin2 : c = c2 ∨ o2 = Some c)
    (Hg1 : ballot_granted (grant_all (ballot_init c1 o1).1 g1) = true)
    (Hg2 : ballot_granted (grant_all (ballot_init c2 o2).1 g2) = true) :
  ∃ p1 p2 h1 h2, (p1, h1) ∈ g1 ∧ (p2, h2) ∈ g2 ∧ peer_eq p1 p2 ∧ contains c p1 = true.
Proof.
  rewrite ballot_init_spec in Hg1, Hg2. cbn [fst] in Hg1, Hg2.
  rewrite grant_all_spec in Hg1, Hg2 by done.
  apply ballot_of_granted in Hg1 as [Hm1 Hm1'], Hg2 as [Hm2 Hm2'].
  rewrite app_nil_r in *.
  assert (conf_wf c ∧ majority c (reverse (peer_key ∘ fst <$> g1))) as [Hc Ha].
  { destruct Hin1; subst; done. }
  assert (majority c (reverse (peer_key ∘ fst <$> g2))) as Hb.
  { destruct Hin2; subst; done. }
  destruct (majority_intersect c _ _ Hc Ha Hb) as (k & Hk & Hka & Hkb).
  rewrite elem_of_reverse in Hka, Hkb.
  apply list_elem_of_fmap in Hka as ([p1 h1] & -> & Hp1).
  apply list_elem_of_fmap in Hkb as ([p2 h2] & He & Hp2). cbn in *.
  exists p1, p2, h1, h2. split_and!; [done|done|by apply peer_eq_key|by apply contains_key].
Qed.

(** ** Concrete instances *)

Definition ex_peer (n : Z) : PeerId := mkPeerId (mkEndPoint n 8000) 0 REPLICA.
Definition ex_conf3 : Configuration := conf_of_vector [ex_peer 1; ex_peer 2; ex_peer 3].
Definition ex_conf2 : Configuration := conf_of_vector [ex_peer 3; ex_peer 4].

Lemma ballot_granted_iff_majority_witness :
  ballot_granted (grant_all (ballot_init ex_conf3 (Some ex_conf2)).1
    [(ex_peer 3, no_hint); (ex_peer 4, no_hint); (ex_peer 1, mkPosHint 2 0)]) = true ∧
  ¬ joint_majority ex_conf3 (Some ex_conf2) [peer_key (ex_peer 1); peer_key (ex_peer 3)].
Proof.
  split.
  - apply (ballot_granted_iff_majority ex_conf3 (Some ex_conf2)
      [(ex_peer 3, no_hint); (ex_peer 4, no_hint); (ex_peer 1, mkPosHint 2 0)]).
    + apply conf_of_vector_wf.
    + apply conf_of_vector_wf.
    + split; vm_compute; done.
  - intros [_ H]. vm_compute in H. done.
Defined.

Lemma grant_hint_irrelevant_witness :
  let b := grant_all (ballot_init ex_conf3 (Some ex_conf2)).1 [(ex_peer 3, no_hint)] in
  (ballot_grant_hint b (ex_peer 3) (mkPosHint 2 0)).1 = ballot_grant b (ex_peer 3).
Proof.
  apply (grant_hint_irrelevant ex_conf3 (Some ex_conf2) [(ex_peer 3, no_hint)] (ex_peer 3)
    (mkPosHint 2 0)); apply conf_of_vector_wf.
Defined.

Lemma granted_ballots_intersect_witness :
  ∃ p1 p2 h1 h2,
    (p1, h1) ∈ [(ex_peer 1, no_hint); (ex_peer 3, no_hint); (ex_peer 4, no_hint)] ∧
    (p2, h2) ∈ [(ex_peer 3, no_hint); (ex_peer 4, no_hint)] ∧ peer_eq p1 p2 ∧
    contains ex_conf2 p1 = true.
Proof.
  apply (granted_ballots_intersect ex_conf3 ex_conf2 ex_conf2 (Some ex_conf2) None);
    [apply conf_of_vector_wf| apply conf_of_vector_wf|apply conf_of_vector_wf|done
    |by right|by left|vm_compute; done|vm_compute; done].
Defined.
