(* ===== verification/ConfigurationManager.v ===== *)
(** * Configuration history

    [ConfigurationManager] of src/melon/raft/configuration_manager.{h,cc}: the
    configurations of the log, oldest first, and the one of the last snapshot. *)

From stdpp Require Import prelude sorting.
From S2P Require Import Prelude StdContainers Configuration.
Local Open Scope Z_scope.

Record ConfigurationManager := mkCM {
  _configurations : list ConfigurationEntry;
  _snapshot : ConfigurationEntry;
}.

Definition cm_new : ConfigurationManager := mkCM [] ce_default.

Definition ce_index (e : ConfigurationEntry) : Z := index (ce_id e).

(** [add]; the index going back fails a [CHECK]. *)
Definition cm_add (m : ConfigurationManager) (entry : ConfigurationEntry)
  : option ConfigurationManager :=
  match last (_configurations m) with
  | Some back =>
      CHECK (¬ (ce_index entry ≤ ce_index back));;
      Some (mkCM (_configurations m ++ [entry]) (_snapshot m))
  | None => Some (mkCM (_configurations m ++ [entry]) (_snapshot m))
  end.

(** [while (!empty() && front().id.index < first_index_kept) pop_front()]. *)
Fixpoint pop_front_while (first_index_kept : Z) (l : list ConfigurationEntry)
  : list ConfigurationEntry :=
  match l with
  | [] => []
  | e :: l' => if decide (ce_index e < first_index_kept) then pop_front_while first_index_kept l' else l
  end.

Definition cm_truncate_prefix (m : ConfigurationManager) (first_index_kept : Z)
  : ConfigurationManager :=
  mkCM (pop_front_while first_index_kept (_configurations m)) (_snapshot m).

(** [while (!empty() && back().id.index > last_index_kept) pop_back()], on the
    reversed deque. *)
Fixpoint pop_back_while (last_index_kept : Z) (rl : list ConfigurationEntry)
  : list ConfigurationEntry :=
  match rl with
  | [] => []
  | e :: rl' => if decide (last_index_kept < ce_index e) then pop_back_while last_index_kept rl' else rl
  end.

Definition cm_truncate_suffix (m : ConfigurationManager) (last_index_kept : Z)
  : ConfigurationManager :=
  mkCM (reverse (pop_back_while last_index_kept (reverse (_configurations m)))) (_snapshot m).

Definition cm_set_snapshot (m : ConfigurationManager) (entry : ConfigurationEntry)
  : option ConfigurationManager :=
  CHECK (logid_ge (ce_id entry) (ce_id (_snapshot m)));;
  Some (mkCM (_configurations m) entry).

(** The scan of [get]: the entry before the first one past the index. *)
Fixpoint get_scan (last_included_index : Z) (prev : option ConfigurationEntry)
    (l : list ConfigurationEntry) : option ConfigurationEntry :=
  match l with
  | [] => prev
  | e :: l' =>
      if decide (last_included_index < ce_index e) then prev
      else get_scan last_included_index (Some e) l'
  end.

Definition cm_get (m : ConfigurationManager) (last_included_index : Z)
  : option ConfigurationEntry :=
  match _configurations m with
  | [] => CHECK (ce_index (_snapshot m) ≤ last_included_index);; Some (_snapshot m)
  | _ => Some (default (_snapshot m) (get_scan last_included_index None (_configurations m)))
  end.

Definition cm_last_configuration (m : ConfigurationManager) : ConfigurationEntry :=
  default (_snapshot m) (last (_configurations m)).

(** ** Invariant *)

(** Indexes strictly increase along the deque. *)
Definition entries_sorted (l : list ConfigurationEntry) : Prop :=
  StronglySorted (λ a b, ce_index a < ce_index b) l.

Definition cm_wf (m : ConfigurationManager) : Prop := entries_sorted (_configurations m).

(** The entries at or below an index. *)
Definition upto (i : Z) (l : list ConfigurationEntry) : list ConfigurationEntry :=
  filter (λ e, ce_index e ≤ i) l.

Lemma entries_sorted_snoc l e :
  entries_sorted l → (∀ b, last l = Some b → ce_index b < ce_index e) → entries_sorted (l ++ [e]).
Proof.
  intros Hs Hl. apply StronglySorted_app_2; [|done|repeat constructor].
  intros x y Hx ->%list_elem_of_singleton.
  destruct (last l) as [b|] eqn:Eb; [|apply last_None in Eb; set_solver].
  apply last_Some in Eb as [l' ->]. specialize (Hl b eq_refl).
  apply elem_of_app in Hx as [Hx| ->%list_elem_of_singleton]; [|done].
  eapply StronglySorted_app_1_elem_of in Hs; [|exact Hx|by apply list_elem_of_singleton]. lia.
Qed.

Lemma upto_all_gt i l : Forall (λ e, i < ce_index e) l → upto i l = [].
Proof.
  induction 1; [done|]. unfold upto in *. rewrite filter_cons, decide_False by lia. done.
Qed.

(** The scan stops at the first entry past the index, which in a sorted deque
    is the end of the entries at or below it. *)
Lemma get_scan_spec i l prev :
  entries_sorted l → get_scan i prev l = match last (upto i l) with Some e => Some e | None => prev end.
Proof.
  intros Hs. revert prev. induction Hs as [|e l Hs IH Hall]; intros prev; [done|]. cbn [get_scan].
  case_decide as Hd.
  - rewrite (upto_all_gt i (e :: l)); [done|]. constructor; [done|].
    eapply Forall_impl; [exact Hall|]. cbn. lia.
  - rewrite IH. unfold upto. rewrite filter_cons, decide_True by lia.
    rewrite last_cons. by destruct (last _).
Qed.

Lemma pop_front_while_spec k l :
  entries_sorted l → pop_front_while k l = filter (λ e, k ≤ ce_index e) l.
Proof.
  induction 1 as [|e l Hs IH Hall]; [done|]. cbn [pop_front_while]. rewrite filter_cons.
  case_decide; [rewrite decide_False by lia; done|rewrite decide_True by lia].
  f_equal. symmetry. apply list_filter_all.
  rewrite Forall_forall in Hall. intros x Hx. specialize (Hall x Hx). cbn in Hall. lia.
Qed.

Lemma pop_back_while_spec k l :
  entries_sorted l → reverse (pop_back_while k (reverse l)) = upto k l.
Proof.
  induction l as [|e l IH] using rev_ind; [done|]. intros Hs.
  rewrite reverse_snoc. cbn [pop_back_while].
  assert (entries_sorted l) as Hs' by by eapply StronglySorted_app_1_l.
  case_decide as Hd.
  - rewrite IH by done. unfold upto. rewrite filter_app, filter_cons, filter_nil.
    rewrite (decide_False (P := ce_index e ≤ k)) by lia. by rewrite app_nil_r.
  - rewrite reverse_cons, reverse_involutive. symmetry. apply list_filter_all.
    intros x [Hx| ->%list_elem_of_singleton]%elem_of_app; [|lia].
    eapply StronglySorted_app_1_elem_of in Hs; [|exact Hx|by apply list_elem_of_singleton]. lia.
Qed.

Lemma entries_sorted_filter (P : ConfigurationEntry → Prop) `{∀ e, Decision (P e)} l :
  entries_sorted l → entries_sorted (filter P l).
Proof.
  induction 1 as [|e l Hs IH Hall]; [constructor|]. rewrite filter_cons. case_decide; [|done].
  constructor; [done|]. rewrite Forall_forall in *.
  intros x [_ ?]%list_elem_of_filter. auto.
Qed.

Lemma cm_truncate_prefix_eq m k :
  cm_wf m →
  cm_truncate_prefix m k = mkCM (filter (λ e, k ≤ ce_index e) (_configurations m)) (_snapshot m).
Proof. intros Hw. unfold cm_truncate_prefix. by rewrite pop_front_while_spec. Qed.

Lemma cm_truncate_suffix_eq m k :
  cm_wf m → cm_truncate_suffix m k = mkCM (upto k (_configurations m)) (_snapshot m).
Proof. intros Hw. unfold cm_truncate_suffix. by rewrite pop_back_while_spec. Qed.

Lemma cm_add_wf m e m' : cm_wf m → cm_add m e = Some m' → cm_wf m'.
Proof.
  unfold cm_add, cm_wf. intros Hw. destruct (last _) as [b|] eqn:Eb.
  - rewrite CHECK_bind_Some. intros [Hlt [= <-]]. apply entries_sorted_snoc; [done|].
    intros b' Hb'. simplify_eq. lia.
  - intros [= <-]. apply last_None in Eb. rewrite Eb. repeat constructor.
Qed.

Lemma cm_truncate_prefix_wf m k : cm_wf m → cm_wf (cm_truncate_prefix m k).
Proof. intros Hw. rewrite cm_truncate_prefix_eq by done. by apply entries_sorted_filter. Qed.

Lemma cm_truncate_suffix_wf m k : cm_wf m → cm_wf (cm_truncate_suffix m k).
Proof. intros Hw. rewrite cm_truncate_suffix_eq by done. by apply entries_sorted_filter. Qed.

#[export] Hint Resolve cm_add_wf cm_truncate_prefix_wf cm_truncate_suffix_wf : melon.

(** The largest element of a sorted deque comes last. *)
Lemma entries_sorted_last l e x :
  entries_sorted l → last l = Some e → x ∈ l → ce_index x ≤ ce_index e.
Proof.
  intros Hs [l' ->]%last_Some [Hx| ->%list_elem_of_singleton]%elem_of_app; [|lia].
  eapply StronglySorted_app_1_elem_of in Hs; [|exact Hx|by apply list_elem_of_singleton]. lia.
Qed.

Lemma cm_get_eq m i :
  cm_wf m → (_configurations m ≠ [] ∨ ce_index (_snapshot m) ≤ i) →
  cm_get m i = Some (default (_snapshot m) (last (upto i (_configurations m)))).
Proof.
  intros Hw Hne. unfold cm_get. destruct (_configurations m) as [|e l] eqn:El.
  - destruct Hne as [|Hle]; [done|]. by rewrite CHECK_true.
  - rewrite get_scan_spec by (by rewrite <-El). by destruct (last _).
Qed.

(** ** Histories *)

Inductive cm_op :=
  | OpAdd (e : ConfigurationEntry)
  | OpTruncatePrefix (k : Z)
  | OpTruncateSuffix (k : Z)
  | OpSetSnapshot (e : ConfigurationEntry).

Definition cm_run (m : ConfigurationManager) (o : cm_op) : option ConfigurationManager :=
  match o with
  | OpAdd e => cm_add m e
  | OpTruncatePrefix k => Some (cm_truncate_prefix m k)
  | OpTruncateSuffix k => Some (cm_truncate_suffix m k)
  | OpSetSnapshot e => cm_set_snapshot m e
  end.

Fixpoint cm_runs (m : ConfigurationManager) (os : list cm_op) : option ConfigurationManager :=
  match os with [] => Some m | o :: os' => m' ← cm_run m o; cm_runs m' os' end.

Lemma cm_run_wf m o m' : cm_wf m → cm_run m o = Some m' → cm_wf m'.
Proof.
  intros Hw. destruct o; cbn [cm_run]; [by apply cm_add_wf|intros [= <-]; auto with melon..|].
  unfold cm_set_snapshot. rewrite CHECK_bind_Some. by intros [_ [= <-]].
Qed.

Lemma cm_runs_wf m os m' : cm_wf m → cm_runs m os = Some m' → cm_wf m'.
Proof.
  revert m. induction os as [|o os IH]; intros m Hw; cbn; [by intros [= <-]|].
  intros (m1 & H1 & H2)%bind_Some. eauto using cm_run_wf.
Qed.

(** After any history of additions, truncations at either end and
    snapshots that did not abort, [get(i)] is the recorded configuration with
    the greatest index at or below [i], and the snapshot's when there is none;
    it aborts only when nothing is recorded and [i] is before the snapshot. *)
Theorem cm_get_latest (os : list cm_op) (m : ConfigurationManager) (i : Z)
    (Hrun : cm_runs cm_new os = Some m)
    (Hin : _configurations m ≠ [] ∨ ce_index (_snapshot m) ≤ i) :
  ∃ e, cm_get m i = Some e ∧
    ((e ∈ _configurations m ∧ ce_index e ≤ i ∧
      ∀ e', e' ∈ _configurations m → ce_index e' ≤ i → ce_index e' ≤ ce_index e) ∨
     (e = _snapshot m ∧ ∀ e', e' ∈ _configurations m → i < ce_index e')).
Proof.
  assert (cm_wf m) as Hw by (eapply cm_runs_wf; [|exact Hrun]; constructor).
  rewrite cm_get_eq by done. eexists. split; [done|].
  destruct (last (upto i (_configurations m))) as [e|] eqn:El; cbn [default].
  - left. pose proof El as (l' & Hl')%last_Some.
    assert (e ∈ upto i (_configurations m)) as [? ?]%list_elem_of_filter by (rewrite Hl'; set_solver).
    split_and!; [done|done|]. intros e' He' Hle. eapply entries_sorted_last; [|exact El|].
    + by apply entries_sorted_filter.
    + by apply list_elem_of_filter.
  - right. split; [done|]. intros e' He'. apply last_None in El.
    destruct (decide (ce_index e' ≤ i)); [|lia].
    assert (e' ∈ upto i (_configurations m)) as Hx by by apply list_elem_of_filter.
    rewrite El in Hx. set_solver.
Qed.

Lemma upto_upto i k l : upto i (upto k l) = upto (Z.min i k) l.
Proof.
  unfold upto. rewrite list_filter_filter. apply list_filter_iff. intros x. lia.
Qed.

(** Truncating the suffix forgets exactly the configurations past the cut:
    whatever was added after index [k] is gone once the log is cut back to
    [k], and [get] answers as it did for [k] and below. *)
Theorem cm_truncate_suffix_get (m : ConfigurationManager) (k i : Z) (Hw : cm_wf m)
    (Hs : ce_index (_snapshot m) ≤ Z.min i k) :
  cm_get (cm_truncate_suffix m k) i = cm_get m (Z.min i k) ∧
  cm_last_configuration (cm_truncate_suffix m k) = default (_snapshot m) (cm_get m k).
Proof.
  rewrite !cm_get_eq; [|done|right; lia|done|right; lia|by apply cm_truncate_suffix_wf|right; cbn; lia].
  unfold cm_last_configuration. rewrite cm_truncate_suffix_eq by done.
  cbn [_configurations _snapshot default]. by rewrite upto_upto.
Qed.

(** ** Concrete instances *)

Definition ex_ce (i t : Z) : ConfigurationEntry := mkConfigurationEntry (mkLogId i t) conf_new conf_new.

Definition ex_cm_ops : list cm_op :=
  [OpAdd (ex_ce 1 1); OpAdd (ex_ce 5 1); OpAdd (ex_ce 9 2); OpSetSnapshot (ex_ce 3 1);
   OpTruncatePrefix 4; OpTruncateSuffix 7].

Lemma cm_get_latest_witness :
  ∃ m, cm_runs cm_new ex_cm_ops = Some m ∧ ∃ e, cm_get m 6 = Some e ∧ ce_index e = 5.
Proof.
  eexists. split; [vm_compute; reflexivity|].
  destruct (cm_get_latest ex_cm_ops (mkCM [ex_ce 5 1] (ex_ce 3 1)) 6) as (e & He & Hcase);
    [vm_compute; reflexivity|left; discriminate|].
  exists e. split; [done|]. destruct Hcase as [[Hin _]|[_ Hn]].
  - apply list_elem_of_singleton in Hin. by subst.
  - specialize (Hn (ex_ce 5 1)). cbn in Hn. exfalso. assert (6 < 5); [|lia]. apply Hn. set_solver.
Defined.

Lemma cm_truncate_suffix_get_witness :
  cm_get (cm_truncate_suffix (mkCM [ex_ce 5 1; ex_ce 9 2] (ex_ce 3 1)) 7) 20 = Some (ex_ce 5 1).
Proof.
  destruct (cm_truncate_suffix_get (mkCM [ex_ce 5 1; ex_ce 9 2] (ex_ce 3 1)) 7 20) as [H _].
  - repeat constructor.
  - cbn. lia.
  - rewrite H. reflexivity.
Defined.
