(* ===== verification/ClosureQueue.v ===== *)
(** * Closure queue

    [ClosureQueue] of src/melon/raft/closure_queue.{h,cc}: the closures of the
    pending tasks, indexed by log index.  A closure is an identifier and
    [None] is the null pointer of a task without one. *)

From stdpp Require Import prelude.
From S2P Require Import Prelude.
Local Open Scope Z_scope.

Definition Closure : Type := Z.

Record ClosureQueue := mkClosureQueue {
  cq_first_index : Z;
  cq_queue : list (option Closure);
}.

Definition cq_new : ClosureQueue := mkClosureQueue 0 [].

(** [clear]: the queue is swapped out under the lock, then every closure of it
    is run with [EPERM].  The second component lists the runs. *)
Definition cq_clear (q : ClosureQueue) : ClosureQueue * list (Closure * Z) :=
  (mkClosureQueue 0 [], omap (λ c, (λ c, (c, EPERM)) <$> c) (cq_queue q)).

Definition cq_reset_first_index (q : ClosureQueue) (first_index : Z) : option ClosureQueue :=
  CHECK (cq_queue q = []);;
  Some (mkClosureQueue first_index (cq_queue q)).

Definition cq_append_pending_closure (q : ClosureQueue) (c : option Closure) : ClosureQueue :=
  mkClosureQueue (cq_first_index q) (cq_queue q ++ [c]).

(** The pop loop [for (i = _first_index; i <= index; ++i)]; [n] is its number of
    iterations.  [front()] of an empty deque has no value. *)
Fixpoint pop_closures (n : nat) (queue : list (option Closure)) (out : list (option Closure))
  : option (list (option Closure) * list (option Closure)) :=
  match n with
  | O => Some (queue, out)
  | S n' =>
      match queue with
      | [] => None
      | c :: queue' => pop_closures n' queue' (out ++ [c])
      end
  end.

(** [pop_closure_until(index, out, out_first_index)]: the queue left, [out] and
    [*out_first_index]. *)
Definition cq_pop_closure_until (q : ClosureQueue) (idx : Z)
  : option (ClosureQueue * list (option Closure) * Z) :=
  if decide (cq_queue q = [] ∨ idx < cq_first_index q) then Some (q, [], idx + 1)
  else
    CHECK (¬ (cq_first_index q + zlen (cq_queue q) - 1 < idx));;
    '(queue, out) ← pop_closures (Z.to_nat (idx - cq_first_index q + 1)) (cq_queue q) [];
    Some (mkClosureQueue (idx + 1) queue, out, cq_first_index q).

(** ** Lemmas *)

Lemma pop_closures_spec n queue out :
  (n ≤ length queue)%nat → pop_closures n queue out = Some (drop n queue, out ++ take n queue).
Proof.
  revert queue out. induction n as [|n IH]; intros queue out Hn; cbn [pop_closures].
  - rewrite drop_0, take_0, app_nil_r. done.
  - destruct queue as [|c queue]; cbn in Hn; [lia|]. rewrite IH by lia.
    cbn [drop take]. by rewrite <-app_assoc.
Qed.

Lemma cq_pop_closure_until_spec q i :
  (cq_queue q ≠ [] → i < cq_first_index q + zlen (cq_queue q)) →
  cq_pop_closure_until q i =
  if decide (cq_queue q = [] ∨ i < cq_first_index q) then Some (q, [], i + 1)
  else
    let n := Z.to_nat (i - cq_first_index q + 1) in
    Some (mkClosureQueue (i + 1) (drop n (cq_queue q)), take n (cq_queue q), cq_first_index q).
Proof.
  intros Hr. unfold cq_pop_closure_until. case_decide as Hd; [done|].
  assert (cq_queue q ≠ []) as Hne by tauto. specialize (Hr Hne).
  unfold zlen in *. rewrite CHECK_true by lia. cbn [mbind option_bind].
  rewrite pop_closures_spec by lia. done.
Qed.

(** What the queue holds for a log index. *)
Definition cq_at (q : ClosureQueue) (i : Z) : option (option Closure) :=
  zlookup (cq_queue q) (i - cq_first_index q).

(** The elements of [l] with their indexes, the first one at [first]. *)
Fixpoint indexed {A} (first : Z) (l : list A) : list (Z * A) :=
  match l with
  | [] => []
  | x :: l => (first, x) :: indexed (first + 1) l
  end.

Lemma indexed_app {A} first (l k : list A) : indexed first (l ++ k) = indexed first l ++ indexed (first + zlen l) k.
Proof.
  revert first. induction l as [|x l IH]; intros first; cbn [indexed app].
  - unfold zlen. cbn. by rewrite Z.add_0_r.
  - rewrite IH, zlen_cons. cbn [app]. do 3 f_equal. lia.
Qed.

Lemma indexed_ge {A} first (l : list A) : Forall (λ p, first ≤ p.1) (indexed first l).
Proof.
  revert first. induction l as [|x l IH]; intros first; cbn [indexed]; constructor; [done|].
  eapply Forall_impl; [apply IH|]. cbn. lia.
Qed.

Lemma indexed_le {A} first (l : list A) i :
  filter (λ p, p.1 ≤ i) (indexed first l) = indexed first (take (Z.to_nat (i - first + 1)) l).
Proof.
  revert first. induction l as [|x l IH]; intros first; [by rewrite take_nil|]. cbn [indexed]. rewrite filter_cons, IH. cbn [fst].
  case_decide.
  - replace (Z.to_nat (i - first + 1)) with (S (Z.to_nat (i - (first + 1) + 1))) by lia. done.
  - by replace (Z.to_nat (i - first + 1)) with O by lia; replace (Z.to_nat (i - (first + 1) + 1)) with O by lia.
Qed.

Lemma indexed_gt {A} first (l : list A) i :
  first ≤ i + 1 → filter (λ p, i < p.1) (indexed first l) = indexed (i + 1) (drop (Z.to_nat (i - first + 1)) l).
Proof.
  revert first. induction l as [|x l IH]; intros first Hf; [by rewrite drop_nil|]. cbn [indexed]. rewrite filter_cons. cbn [fst].
  case_decide.
  - replace (Z.to_nat (i - first + 1)) with O by lia. rewrite drop_0. cbn [indexed]. assert (first = i + 1) as -> by lia. f_equal.
    rewrite list_filter_all; [done|]. intros [j y] Hin. pose proof (indexed_ge (i + 1 + 1) l) as Hge. rewrite Forall_forall in Hge.
    apply Hge in Hin. cbn in *. lia.
  - rewrite IH by lia. by replace (Z.to_nat (i - first + 1)) with (S (Z.to_nat (i - (first + 1) + 1))) by lia.
Qed.

Lemma omap_indexed {A B} (f : A → option B) first (l : list A) : omap (λ p, f p.2) (indexed first l) = omap f l.
Proof. revert first. induction l as [|x l IH]; intros first; [done|]. cbn. by rewrite IH. Qed.

(** Popping up to an index the queue covers hands out exactly the closures
    of the indexes from the returned first index to that index, in order, and
    leaves every later index with the closure it had. *)
Theorem pop_closure_until_exact (q : ClosureQueue) (i : Z) (Hne : cq_queue q ≠ [])
    (Hlo : cq_first_index q ≤ i) (Hhi : i < cq_first_index q + zlen (cq_queue q)) :
  ∃ q' out, cq_pop_closure_until q i = Some (q', out, cq_first_index q) ∧
    zlen out = i - cq_first_index q + 1 ∧
    (∀ j, cq_first_index q ≤ j ≤ i → zlookup out (j - cq_first_index q) = cq_at q j) ∧
    (∀ j, i < j → cq_at q' j = cq_at q j) ∧
    cq_first_index q' = i + 1.
Proof.
  rewrite cq_pop_closure_until_spec by done. rewrite decide_False by (intros [?|?]; [done|lia]).
  do 2 eexists. split; [done|]. unfold cq_at. cbn [cq_first_index cq_queue]. split_and!.
  - rewrite zlen_take. lia.
  - intros j Hj. apply zlookup_take. lia.
  - intros j Hj. rewrite zlookup_drop by lia. f_equal. lia.
  - done.
Qed.

Lemma pop_closure_until_exact_witness :
  ∃ q' out, cq_pop_closure_until (mkClosureQueue 5 [Some 10; None; Some 12]) 6 = Some (q', out, 5) ∧
    zlen out = 2 ∧ cq_at q' 7 = Some (Some 12).
Proof.
  destruct (pop_closure_until_exact (mkClosureQueue 5 [Some 10; None; Some 12]) 6)
    as (q' & out & H1 & H2 & _ & H4 & _); [done|done|done|].
  exists q', out. split_and!; [exact H1|exact H2|]. rewrite (H4 7) by lia. reflexivity.
Defined.
