(* ===== verification/BallotBox.v ===== *)
(** * Ballot box

    [BallotBox] of src/melon/raft/ballot_box.{h,cc}: the ballots of the tasks a
    leader has appended and not committed, with the closure queue it feeds.
    [_closure_queue] is part of the state and a call of [_waiter->on_committed]
    is the committed index in the result. *)

From stdpp Require Import prelude sorting.
From S2P Require Import Prelude StdContainers Configuration Ballot ClosureQueue.
Local Open Scope Z_scope.

Record BallotBox := mkBallotBox {
  bb_last_committed_index : Z;
  bb_pending_index : Z;
  bb_pending_meta_queue : list Ballot;
  bb_closure_queue : ClosureQueue;
}.

Definition bb_new : BallotBox := mkBallotBox 0 0 [] cq_new.

(** [init(options)]: the waiter and the closure queue, null or not. *)
Definition bb_init (has_waiter : bool) (closure_queue : option ClosureQueue) : BallotBox * Z :=
  match has_waiter, closure_queue with
  | true, Some q => (mkBallotBox 0 0 [] q, 0)
  | _, _ => (bb_new, EINVAL)
  end.

(** The grant loop of [commit_at], [fuel] iterations from [log_index] with the
    position hint of one ballot handed to the next.  Returns the queue and
    [last_committed_index]. *)
Fixpoint commit_loop (fuel : nat) (pending log_index : Z) (peer : PeerId) (pos_hint : PosHint)
    (q : list Ballot) (committed : Z) : option (list Ballot * Z) :=
  match fuel with
  | O => Some (q, committed)
  | S fuel' =>
      bl ← zlookup q (log_index - pending);
      let '(bl', pos_hint') := ballot_grant_hint bl peer pos_hint in
      commit_loop fuel' pending (log_index + 1) peer pos_hint'
        (<[Z.to_nat (log_index - pending) := bl']> q)
        (if ballot_granted bl' then log_index else committed)
  end.

(** [commit_at]: the box, the return code and the index [on_committed] is
    called with, if it is. *)
Definition bb_commit_at (b : BallotBox) (first_log_index last_log_index : Z) (peer : PeerId)
  : option (BallotBox * Z * option Z) :=
  let pending := bb_pending_index b in
  let q := bb_pending_meta_queue b in
  if decide (pending = 0) then Some (b, EINVAL, None)
  else if decide (last_log_index < pending) then Some (b, 0, None)
  else if decide (pending + zlen q ≤ last_log_index) then Some (b, ERANGE, None)
  else
    let start_at := Z.max pending first_log_index in
    '(q', committed) ← commit_loop (Z.to_nat (last_log_index - start_at + 1)) pending start_at
                         peer no_hint q 0;
    if decide (committed = 0) then
      Some (mkBallotBox (bb_last_committed_index b) pending q' (bb_closure_queue b), 0, None)
    else
      Some (mkBallotBox committed (committed + 1)
              (drop (Z.to_nat (committed - pending + 1)) q') (bb_closure_queue b),
            0, Some committed).

(** [clear_pending_tasks]: drop the ballots, then clear the closure queue. *)
Definition bb_clear_pending_tasks (b : BallotBox) : BallotBox * list (Closure * Z) :=
  let '(cq, runs) := cq_clear (bb_closure_queue b) in
  (mkBallotBox (bb_last_committed_index b) 0 [] cq, runs).

Definition bb_reset_pending_index (b : BallotBox) (new_pending_index : Z) : option BallotBox :=
  CHECK (bb_pending_index b = 0 ∧ bb_pending_meta_queue b = []);;
  CHECK (bb_last_committed_index b < new_pending_index);;
  cq ← cq_reset_first_index (bb_closure_queue b) new_pending_index;
  Some (mkBallotBox (bb_last_committed_index b) new_pending_index (bb_pending_meta_queue b) cq).

Definition bb_append_pending_task (b : BallotBox) (conf : Configuration)
    (old_conf : option Configuration) (closure : option Closure) : option BallotBox :=
  let '(bl, rc) := ballot_init conf old_conf in
  CHECK (rc = 0);;
  CHECK (0 < bb_pending_index b);;
  Some (mkBallotBox (bb_last_committed_index b) (bb_pending_index b)
          (bb_pending_meta_queue b ++ [bl])
          (cq_append_pending_closure (bb_closure_queue b) closure)).

(** [set_last_committed_index]: the box, the return code and the index
    [on_committed] is called with. *)
Definition bb_set_last_committed_index (b : BallotBox) (last_committed_index : Z)
  : option (BallotBox * Z * option Z) :=
  if decide (bb_pending_index b ≠ 0 ∨ bb_pending_meta_queue b ≠ []) then
    CHECK (last_committed_index < bb_pending_index b);;
    Some (b, -1, None)
  else if decide (last_committed_index < bb_last_committed_index b) then Some (b, EINVAL, None)
  else if decide (bb_last_committed_index b < last_committed_index) then
    Some (mkBallotBox last_committed_index (bb_pending_index b) (bb_pending_meta_queue b)
            (bb_closure_queue b), 0, Some last_committed_index)
  else Some (b, 0, None).

Record BallotBoxStatus := mkBallotBoxStatus {
  committed_index : Z; pending_index : Z; pending_queue_size : Z
}.

(** [get_status] into a status that holds the defaults 0. *)
Definition bb_get_status (b : BallotBox) : BallotBoxStatus :=
  if decide (zlen (bb_pending_meta_queue b) ≠ 0) then
    mkBallotBoxStatus (bb_last_committed_index b) (bb_pending_index b) (zlen (bb_pending_meta_queue b))
  else mkBallotBoxStatus (bb_last_committed_index b) 0 0.

(** ** Specification

    A pending task is a configuration pair, the peers that acknowledged its
    log entry and its closure. *)

Record Task := mkTask {
  t_conf : Configuration;
  t_old : option Configuration;
  t_acks : peer_keys;
  t_closure : option Closure;
}.

Definition task_ballot (t : Task) : Ballot := ballot_of (t_conf t) (t_old t) (t_acks t).
Definition task_wf (t : Task) : Prop := conf_wf (t_conf t) ∧ oconf_wf (t_old t).
Definition task_granted (t : Task) : Prop := joint_majority (t_conf t) (t_old t) (t_acks t).
Definition task_ack (peer : PeerId) (t : Task) : Task :=
  mkTask (t_conf t) (t_old t) (peer_key peer :: t_acks t) (t_closure t).

#[global] Instance task_granted_dec t : Decision (task_granted t).
Proof. unfold task_granted, joint_majority. destruct (t_old t); apply _. Defined.

(** The tasks after [peer] acknowledged the indexes from [lo] to [hi]. *)
Definition ack_range (pending lo hi : Z) (peer : PeerId) (ts : list Task) : list Task :=
  imap (λ k t, if decide (lo ≤ pending + Z.of_nat k ≤ hi) then task_ack peer t else t) ts.

Definition granted_at (pending : Z) (ts : list Task) (j : Z) : Prop :=
  match zlookup ts (j - pending) with Some t => task_granted t | None => False end.

#[global] Instance granted_at_dec pending ts j : Decision (granted_at pending ts j).
Proof. unfold granted_at. destruct (zlookup _ _); apply _. Defined.

(** The greatest index of [lo .. lo+n-1] whose task is granted. *)
Definition last_granted (pending : Z) (ts : list Task) (lo : Z) (n : Z) : option Z :=
  last (filter (granted_at pending ts) (seqZ lo n)).

(** The box of a list of tasks. *)
Definition bb_of (committed pending : Z) (ts : list Task) (cq : ClosureQueue) : BallotBox :=
  mkBallotBox committed pending (task_ballot <$> ts) cq.

(** What [commit_at] promises: the acknowledged tasks are marked, and the
    greatest pending index acknowledged by the majorities of its
    configurations, with everything before it, is committed. *)
Definition commit_at_spec (committed pending : Z) (ts : list Task) (cq : ClosureQueue)
    (first_log_index last_log_index : Z) (peer : PeerId) : BallotBox * Z * option Z :=
  if decide (pending = 0) then (bb_of committed pending ts cq, EINVAL, None)
  else if decide (last_log_index < pending) then (bb_of committed pending ts cq, 0, None)
  else if decide (pending + zlen ts ≤ last_log_index) then (bb_of committed pending ts cq, ERANGE, None)
  else
    let ts' := ack_range pending first_log_index last_log_index peer ts in
    match last_granted pending ts' pending (zlen ts') with
    | None => (bb_of committed pending ts' cq, 0, None)
    | Some c => (bb_of c (c + 1) (drop (Z.to_nat (c + 1 - pending)) ts') cq, 0, Some c)
    end.

(** ** The loop *)

Lemma ack_range_lookup pending lo hi peer ts k :
  ack_range pending lo hi peer ts !! k =
  (λ t, if decide (lo ≤ pending + Z.of_nat k ≤ hi) then task_ack peer t else t) <$> ts !! k.
Proof. unfold ack_range. by rewrite list_lookup_imap. Qed.

Lemma ack_range_length pending lo hi peer ts : length (ack_range pending lo hi peer ts) = length ts.
Proof. apply length_imap. Qed.

Lemma ack_range_zlen pending lo hi peer ts : zlen (ack_range pending lo hi peer ts) = zlen ts.
Proof. unfold zlen. by rewrite ack_range_length. Qed.

Lemma ack_range_step pending lo hi peer ts t :
  pending ≤ lo ≤ hi → ts !! Z.to_nat (lo - pending) = Some t →
  ack_range pending (lo + 1) hi peer (<[Z.to_nat (lo - pending) := task_ack peer t]> ts) =
  ack_range pending lo hi peer ts.
Proof.
  intros Hlo Ht. apply list_eq. intros k. rewrite !ack_range_lookup.
  destruct (decide (k = Z.to_nat (lo - pending))) as [->|Hk].
  - rewrite list_lookup_insert_eq by (by eapply lookup_lt_Some). rewrite Ht. cbn.
    rewrite decide_False, decide_True by lia. done.
  - rewrite list_lookup_insert_ne by done. destruct (ts !! k); [|done]. cbn.
    by repeat case_decide; try lia.
Qed.

Lemma ack_range_empty pending lo hi peer ts : hi < lo → ack_range pending lo hi peer ts = ts.
Proof.
  intros Hlt. apply list_eq. intros k. rewrite ack_range_lookup.
  destruct (ts !! k); [|done]. cbn. by rewrite decide_False by lia.
Qed.

Lemma ack_range_max pending lo hi peer ts :
  ack_range pending (Z.max pending lo) hi peer ts = ack_range pending lo hi peer ts.
Proof.
  apply list_eq. intros k. rewrite !ack_range_lookup. destruct (ts !! k); [|done]. cbn.
  by repeat case_decide; try lia.
Qed.

Lemma last_granted_cons pending ts lo n :
  0 ≤ n →
  last_granted pending ts lo (Z.succ n) =
  match last_granted pending ts (lo + 1) n with
  | Some c => Some c
  | None => if decide (granted_at pending ts lo) then Some lo else None
  end.
Proof.
  intros Hn. unfold last_granted. rewrite seqZ_cons by lia. rewrite filter_cons.
  replace (Z.succ lo) with (lo + 1) by lia. replace (Z.pred (Z.succ n)) with n by lia.
  case_decide; [rewrite last_cons|]; by destruct (last _).
Qed.

Lemma task_grant_ack t peer h :
  task_wf t → (ballot_grant_hint (task_ballot t) peer h).1 = task_ballot (task_ack peer t).
Proof. intros [??]. unfold task_ballot. by rewrite ballot_grant_hint_spec. Qed.


Lemma task_ballot_granted t : ballot_granted (task_ballot t) = true ↔ task_granted t.
Proof. apply ballot_of_granted. Qed.

Lemma commit_loop_spec fuel pending i peer h ts c :
  Forall task_wf ts → pending ≤ i → (fuel = 0%nat ∨ i - pending + Z.of_nat fuel ≤ zlen ts) →
  let ts' := ack_range pending i (i + Z.of_nat fuel - 1) peer ts in
  commit_loop fuel pending i peer h (task_ballot <$> ts) c =
  Some (task_ballot <$> ts', default c (last_granted pending ts' i (Z.of_nat fuel))).
Proof.
  revert i h ts c. induction fuel as [|fuel IH]; intros i h ts c Hwf Hi Hlen; cbn zeta.
  { cbn [commit_loop]. rewrite ack_range_empty by lia. done. }
  destruct Hlen as [?|Hlen]; [done|]. unfold zlen in Hlen. cbn [commit_loop].
  destruct (lookup_lt_is_Some_2 ts (Z.to_nat (i - pending))) as [t Ht]; [lia|].
  assert (zlookup (task_ballot <$> ts) (i - pending) = Some (task_ballot t)) as ->.
  { unfold zlookup. rewrite decide_False by lia. by rewrite list_lookup_fmap, Ht. }
  cbn [mbind option_bind].
  assert (task_wf t) as Hwt by (eapply Forall_lookup_1; done).
  pose proof (task_grant_ack t peer h Hwt) as Hg.
  destruct (ballot_grant_hint (task_ballot t) peer h) as [bl' h']. cbn [fst] in Hg. subst bl'.
  rewrite <-list_fmap_insert. rewrite IH; clear IH.
  2:{ apply Forall_insert; [done|]. exact Hwt. }
  2:{ lia. }
  2:{ right. unfold zlen. rewrite length_insert. lia. }
  replace (i + 1 + Z.of_nat fuel - 1) with (i + Z.of_nat (S fuel) - 1) by lia.
  rewrite ack_range_step by (done || lia).
  f_equal. f_equal. rewrite Nat2Z.inj_succ, last_granted_cons by lia.
  destruct (last_granted pending _ (i + 1) _); cbn [default]; [done|].
  assert (granted_at pending (ack_range pending i (i + Z.succ (Z.of_nat fuel) - 1) peer ts) i
          ↔ task_granted (task_ack peer t)) as Hiff.
  { unfold granted_at, zlookup. rewrite decide_False by lia.
    rewrite ack_range_lookup, Ht. cbn. rewrite decide_True by lia. done. }
  pose proof (task_ballot_granted (task_ack peer t)) as Hb.
  destruct (ballot_granted _); case_decide; naive_solver.
Qed.

(** Before a call no pending task is granted, so only the acknowledged range
    can hold one after it. *)
Lemma last_granted_range pending lo hi peer ts :
  pending ≤ lo → hi < pending + zlen ts → Forall (λ t, ¬ task_granted t) ts →
  last_granted pending (ack_range pending lo hi peer ts) pending (zlen ts) =
  last_granted pending (ack_range pending lo hi peer ts) lo (Z.max 0 (hi - lo + 1)).
Proof.
  intros Hlo Hhi Hno. unfold last_granted. set (ts' := ack_range _ _ _ _ _).
  assert (∀ j, ¬ (lo ≤ j ≤ hi) → ¬ granted_at pending ts' j) as Hout.
  { intros j Hj. unfold granted_at, zlookup. case_decide; [tauto|]. subst ts'.
    rewrite ack_range_lookup. destruct (ts !! _) as [t|] eqn:Et; cbn; [|tauto].
    rewrite decide_False by lia. rewrite Forall_forall in Hno. apply Hno.
    by eapply list_elem_of_lookup_2. }
  destruct (decide (hi < lo)) as [Hlt|Hge].
  { rewrite (list_filter_none _ (seqZ pending _)) by (intros; apply Hout; lia).
    replace (Z.max 0 (hi - lo + 1)) with 0 by lia. done. }
  replace (Z.max 0 (hi - lo + 1)) with (hi - lo + 1) by lia.
  replace (zlen ts) with ((lo - pending) + ((hi - lo + 1) + (pending + zlen ts - hi - 1))) by lia.
  rewrite seqZ_app, seqZ_app by lia. rewrite !filter_app.
  replace (pending + (lo - pending)) with lo by lia.
  rewrite (list_filter_none _ (seqZ pending _)).
  2:{ intros j Hj%elem_of_seqZ. apply Hout. lia. }
  rewrite (list_filter_none _ (seqZ (lo + _) _)).
  2:{ intros j Hj%elem_of_seqZ. apply Hout. lia. }
  by rewrite app_nil_r.
Qed.

Lemma last_granted_Some pending ts lo n c :
  last_granted pending ts lo n = Some c → lo ≤ c < lo + n ∧ granted_at pending ts c.
Proof.
  unfold last_granted. intros (l & Hl)%last_Some.
  assert (c ∈ filter (granted_at pending ts) (seqZ lo n)) as [Hg Hc]%list_elem_of_filter
    by (rewrite Hl; set_solver).
  apply elem_of_seqZ in Hc. split; [lia|done].
Qed.

(** Nothing past the greatest granted index is granted. *)
Lemma last_granted_max pending ts lo n j :
  0 ≤ n → lo ≤ j < lo + n → granted_at pending ts j →
  ∃ c, last_granted pending ts lo n = Some c ∧ j ≤ c.
Proof.
  intros Hn. revert lo j. pattern n. apply natlike_ind; [lia| |done].
  intros m Hm IH lo j Hj Hg. rewrite last_granted_cons by done.
  destruct (decide (j = lo)) as [->|Hne].
  - rewrite decide_True by done. destruct (last_granted _ _ _ _) as [c|] eqn:Ec; eauto with lia.
    apply last_granted_Some in Ec. eexists. split; [done|lia].
  - destruct (IH (lo + 1) j) as (c & -> & ?); [lia|done|]. eauto.
Qed.

(** ** Invariant *)

(** [ts] are the pending tasks of [b] and [gone] the closures of committed
    tasks that have not been popped yet. *)
Record bb_rep (b : BallotBox) (ts : list Task) (gone : list (option Closure)) : Prop := {
  rep_queue : bb_pending_meta_queue b = task_ballot <$> ts;
  rep_wf : Forall task_wf ts;
  rep_open : Forall (λ t, ¬ task_granted t) ts;
  rep_committed : 0 ≤ bb_last_committed_index b;
  rep_pending : bb_pending_index b = 0 ∨ bb_last_committed_index b < bb_pending_index b;
  rep_idle : bb_pending_index b = 0 → ts = [] ∧ cq_queue (bb_closure_queue b) = [];
  rep_closures : bb_pending_index b ≠ 0 → cq_queue (bb_closure_queue b) = gone ++ (t_closure <$> ts);
  rep_aligned : bb_pending_index b ≠ 0 →
    cq_first_index (bb_closure_queue b) + zlen gone = bb_pending_index b;
}.

Lemma bb_new_rep : bb_rep bb_new [] [].
Proof. split; cbn; auto; lia. Qed.

(** [commit_at] implements its specification. *)
Lemma commit_at_refines b ts gone first_log_index last_log_index peer :
  bb_rep b ts gone →
  bb_commit_at b first_log_index last_log_index peer =
  Some (commit_at_spec (bb_last_committed_index b) (bb_pending_index b) ts (bb_closure_queue b)
          first_log_index last_log_index peer).
Proof.
  intros Hr. pose proof (rep_queue _ _ _ Hr) as Hq. destruct b as [lc pending q cq].
  cbn [bb_pending_meta_queue] in Hq. subst q. pose proof (rep_pending _ _ _ Hr) as Hp.
  pose proof (rep_committed _ _ _ Hr) as Hc.
  unfold bb_commit_at, commit_at_spec. cbn [bb_pending_index bb_pending_meta_queue
    bb_last_committed_index bb_closure_queue] in *. fold (bb_of lc pending ts cq).
  assert (zlen (task_ballot <$> ts) = zlen ts) as -> by (unfold zlen; by rewrite length_fmap).
  case_decide; [done|]. case_decide; [done|]. case_decide; [done|]. cbn zeta.
  set (lo := Z.max pending first_log_index).
  pose proof (commit_loop_spec (Z.to_nat (last_log_index - lo + 1)) pending lo peer no_hint ts 0
    (rep_wf _ _ _ Hr)) as Hloop. cbn zeta in Hloop.
  replace (ack_range pending lo (lo + _ - 1) peer ts)
    with (ack_range pending first_log_index last_log_index peer ts) in Hloop.
  2:{ rewrite <-ack_range_max. fold lo. destruct (decide (last_log_index < lo)).
      - rewrite !ack_range_empty by lia. done.
      - f_equal. lia. }
  rewrite Hloop by lia. cbn [mbind option_bind]. rewrite ack_range_zlen.
  assert (last_granted pending (ack_range pending first_log_index last_log_index peer ts) pending (zlen ts)
    = last_granted pending (ack_range pending first_log_index last_log_index peer ts) lo
        (Z.of_nat (Z.to_nat (last_log_index - lo + 1)))) as ->.
  { rewrite <-ack_range_max. fold lo. rewrite last_granted_range; [f_equal; lia|lia|lia|].
    apply (rep_open _ _ _ Hr). }
  destruct (last_granted _ _ lo _) as [c|] eqn:Ec; cbn [default].
  - apply last_granted_Some in Ec as [? _]. unfold Datatypes.id. rewrite decide_False by lia. unfold bb_of.
    rewrite fmap_drop. do 5 f_equal. lia.
  - by rewrite decide_True.
Qed.

(** ** Executions

    The box with the tasks that were appended and neither popped nor cleared
    since, oldest first, each with the log index it was appended at. *)

Record BoxWorld := mkBoxWorld {
  w_box : BallotBox;
  w_pending : list (Z * option Closure);
}.

Inductive bb_step : BoxWorld → BoxWorld → Prop :=
  | step_commit_at b w f l peer b' rc ev :
      bb_commit_at b f l peer = Some (b', rc, ev) →
      bb_step (mkBoxWorld b w) (mkBoxWorld b' w)
  | step_append b w conf old_conf c b' :
      conf_wf conf → oconf_wf old_conf →
      bb_append_pending_task b conf old_conf c = Some b' →
      bb_step (mkBoxWorld b w)
        (mkBoxWorld b' (w ++ [(bb_pending_index b + zlen (bb_pending_meta_queue b), c)]))
  | step_reset b w i b' :
      bb_reset_pending_index b i = Some b' → bb_step (mkBoxWorld b w) (mkBoxWorld b' [])
  | step_clear b w :
      bb_step (mkBoxWorld b w) (mkBoxWorld (bb_clear_pending_tasks b).1 [])
  | step_set_committed b w i b' rc ev :
      bb_set_last_committed_index b i = Some (b', rc, ev) →
      bb_step (mkBoxWorld b w) (mkBoxWorld b' w)
  | step_pop b w i cq' out fi :
      i ≤ bb_last_committed_index b →
      cq_pop_closure_until (bb_closure_queue b) i = Some (cq', out, fi) →
      bb_step (mkBoxWorld b w)
        (mkBoxWorld (mkBallotBox (bb_last_committed_index b) (bb_pending_index b)
           (bb_pending_meta_queue b) cq') (filter (λ p, i < p.1) w)).

Definition bb_reachable (w : BoxWorld) : Prop := rtc bb_step (mkBoxWorld bb_new []) w.

(** The queue holds the closures of the pending tasks. *)
Definition queue_recorded (w : BoxWorld) : Prop :=
  w_pending w = indexed (cq_first_index (bb_closure_queue (w_box w))) (cq_queue (bb_closure_queue (w_box w))).

Definition bb_inv (w : BoxWorld) : Prop :=
  (∃ ts gone, bb_rep (w_box w) ts gone) ∧ queue_recorded w.

Lemma task_new_open conf oc c : ¬ task_granted (mkTask conf oc [] c).
Proof.
  unfold task_granted, joint_majority, majority. cbn [t_conf t_old t_acks]. rewrite acked_nil.
  unfold conf_size, zlen. intros [H _]. cbn in H. lia.
Qed.

Lemma ack_range_closure pending lo hi peer ts :
  t_closure <$> ack_range pending lo hi peer ts = t_closure <$> ts.
Proof.
  apply list_eq. intros k. rewrite !list_lookup_fmap, ack_range_lookup.
  destruct (ts !! k); [|done]. cbn. by case_decide.
Qed.

Lemma ack_range_wf pending lo hi peer ts :
  Forall task_wf ts → Forall task_wf (ack_range pending lo hi peer ts).
Proof.
  rewrite !Forall_lookup. intros H k t. rewrite ack_range_lookup.
  intros (t0 & Ht0 & ->)%fmap_Some. apply H in Ht0. by case_decide.
Qed.

(** After the greatest granted index is cut off no granted task is left. *)
Lemma open_after pending ts :
  (match last_granted pending ts pending (zlen ts) with
   | None => Forall (λ t, ¬ task_granted t) ts
   | Some c => Forall (λ t, ¬ task_granted t) (drop (Z.to_nat (c + 1 - pending)) ts)
   end).
Proof.
  assert (∀ k t, ts !! k = Some t → task_granted t → granted_at pending ts (pending + Z.of_nat k)) as Hat.
  { intros k t Ht Hg. unfold granted_at.
    replace (pending + Z.of_nat k - pending) with (Z.of_nat k) by lia.
    by rewrite zlookup_of_nat, Ht. }
  destruct (last_granted _ _ _ _) as [c|] eqn:Ec; apply Forall_lookup; intros k t Hk Hg.
  - rewrite lookup_drop in Hk. pose proof (lookup_lt_Some _ _ _ Hk).
    destruct (last_granted_max pending ts pending (zlen ts)
      (pending + Z.of_nat (Z.to_nat (c + 1 - pending) + k))) as (c' & Hc' & ?);
      [apply zlen_nonneg|unfold zlen; lia|by eapply Hat|].
    rewrite Ec in Hc'. injection Hc' as <-. apply last_granted_Some in Ec as [? _]. lia.
  - pose proof (lookup_lt_Some _ _ _ Hk).
    destruct (last_granted_max pending ts pending (zlen ts) (pending + Z.of_nat k))
      as (c' & Hc' & _); [apply zlen_nonneg|unfold zlen; lia|by eapply Hat|]. congruence.
Qed.

Lemma commit_at_rep b ts gone f l peer b' rc ev :
  bb_rep b ts gone → bb_commit_at b f l peer = Some (b', rc, ev) →
  bb_last_committed_index b ≤ bb_last_committed_index b' ∧
  bb_closure_queue b' = bb_closure_queue b ∧
  (bb_pending_index b' = 0 ↔ bb_pending_index b = 0) ∧
  bb_pending_index b' + zlen (bb_pending_meta_queue b') =
    bb_pending_index b + zlen (bb_pending_meta_queue b) ∧
  ∃ ts' gone', bb_rep b' ts' gone'.
Proof.
  intros Hr. rewrite (commit_at_refines _ _ _ _ _ _ Hr). intros [= H]. revert H.
  pose proof Hr as [Hq Hwf Hno Hc Hp Hi Hcl Hal]. destruct b as [lc pending q cq].
  cbn [bb_last_committed_index bb_pending_index bb_pending_meta_queue bb_closure_queue] in *. subst q.
  unfold commit_at_spec. fold (bb_of lc pending ts cq) in Hr.
  repeat (case_decide; [intros [= <- <- <-]; split_and!; [done|done|done|done|eauto]|]).
  set (ts' := ack_range pending f l peer ts). pose proof (open_after pending ts') as Hopen.
  assert (zlen ts' = zlen ts) as Hlen by apply ack_range_zlen.
  destruct (last_granted pending ts' pending (zlen ts')) as [c|] eqn:Ec; intros [= <- <- <-];
    unfold bb_of; cbn [bb_last_committed_index bb_pending_index bb_pending_meta_queue bb_closure_queue].
  - apply last_granted_Some in Ec as [Hc' _].
    assert (zlen (task_ballot <$> drop (Z.to_nat (c + 1 - pending)) ts') = zlen ts - (c + 1 - pending)) as Hl'.
    { unfold zlen in *. rewrite length_fmap, length_drop. lia. }
    split_and!; [lia|done|lia| |].
    { rewrite Hl'. unfold zlen. rewrite length_fmap. lia. }
    exists (drop (Z.to_nat (c + 1 - pending)) ts'),
      (gone ++ (t_closure <$> take (Z.to_nat (c + 1 - pending)) ts')).
    split; cbn; [done|by apply Forall_drop, ack_range_wf|done|lia|lia|lia| |].
    + intros _. rewrite Hcl by done. rewrite <-app_assoc, <-fmap_app, take_drop. subst ts'.
      by rewrite ack_range_closure.
    + intros _. rewrite zlen_app. unfold zlen at 2. rewrite length_fmap, length_take.
      rewrite <-Hal by done. unfold zlen in *. lia.
  - split_and!; [done|done|done| |].
    { unfold zlen. rewrite !length_fmap. unfold zlen in Hlen. lia. }
    exists ts', gone. split; cbn; [done|by apply ack_range_wf|done|done|done| | |done].
    + tauto.
    + intros ?. unfold ts'. rewrite ack_range_closure. auto.
Qed.

Lemma append_rep b ts gone conf oc c b' :
  conf_wf conf → oconf_wf oc → bb_rep b ts gone →
  bb_append_pending_task b conf oc c = Some b' →
  bb_rep b' (ts ++ [mkTask conf oc [] c]) gone ∧
  bb_pending_index b' = bb_pending_index b ∧ 0 < bb_pending_index b ∧
  bb_last_committed_index b' = bb_last_committed_index b ∧
  bb_closure_queue b' = cq_append_pending_closure (bb_closure_queue b) c ∧
  zlen (bb_pending_meta_queue b') = zlen (bb_pending_meta_queue b) + 1.
Proof.
  intros Hcw How [Hq Hwf Hno Hc Hp Hi Hcl Hal]. unfold bb_append_pending_task.
  rewrite ballot_init_spec. cbv beta iota zeta. rewrite CHECK_bind_Some. intros [_ H]. revert H.
  rewrite CHECK_bind_Some. intros [Hpos [= <-]].
  split_and!; [|done|done|done|done|cbn [bb_pending_meta_queue]; rewrite zlen_app; reflexivity].
  split; cbn; [|apply Forall_app; by repeat constructor| |done|done|lia| |].
  - by rewrite Hq, fmap_app.
  - apply Forall_app. split; [done|]. constructor; [apply task_new_open|done].
  - intros ?. rewrite Hcl by done. by rewrite fmap_app, app_assoc.
  - done.
Qed.

Lemma reset_rep b ts gone i b' :
  bb_rep b ts gone → bb_reset_pending_index b i = Some b' →
  bb_rep b' [] [] ∧ bb_last_committed_index b' = bb_last_committed_index b ∧
  cq_queue (bb_closure_queue b') = [].
Proof.
  intros [Hq Hwf Hno Hc Hp Hi Hcl Hal]. unfold bb_reset_pending_index.
  rewrite !CHECK_bind_Some. intros ([Hz He] & Hlt & H).
  apply bind_Some in H as (cq & H & [= <-]). unfold cq_reset_first_index in H.
  apply CHECK_bind_Some in H as [Hcq [= <-]].
  split_and!; [|done|done]. split; cbn; rewrite ?Hcq, ?He; auto; unfold zlen; cbn; lia.
Qed.

Lemma clear_rep b ts gone :
  bb_rep b ts gone → bb_rep (bb_clear_pending_tasks b).1 [] [].
Proof. intros []. split; cbn; auto; done. Qed.

Lemma set_committed_rep b ts gone i b' rc ev :
  bb_rep b ts gone → bb_set_last_committed_index b i = Some (b', rc, ev) →
  bb_rep b' ts gone ∧ bb_last_committed_index b ≤ bb_last_committed_index b' ∧
  bb_closure_queue b' = bb_closure_queue b ∧ bb_pending_index b' = bb_pending_index b ∧
  bb_pending_meta_queue b' = bb_pending_meta_queue b.
Proof.
  intros Hr. unfold bb_set_last_committed_index. case_decide as Hd.
  { rewrite CHECK_bind_Some. intros [_ [= <- <- <-]]. done. }
  case_decide; [by intros [= <- <- <-]|]. case_decide; [|by intros [= <- <- <-]].
  intros [= <- <- <-]. destruct Hr as [Hq Hwf Hno Hc Hp Hi Hcl Hal].
  assert (bb_pending_index b = 0) as Hz by (destruct (decide (bb_pending_index b = 0)); tauto).
  split_and!; cbn; [|lia|done|done|done]. split; cbn; auto; lia.
Qed.

(** A pop up to a committed index is within the queue. *)
Lemma pop_covered b ts gone i :
  bb_rep b ts gone → i ≤ bb_last_committed_index b → cq_queue (bb_closure_queue b) ≠ [] →
  i < cq_first_index (bb_closure_queue b) + zlen (cq_queue (bb_closure_queue b)).
Proof.
  intros [Hq Hwf Hno Hc Hp Hi Hcl Hal] Hi0 Hne. destruct (decide (bb_pending_index b = 0)) as [Hz|Hz]; [by apply Hi in Hz as [_ ?]|].
  rewrite Hcl, zlen_app by done. pose proof (zlen_nonneg (t_closure <$> ts)). specialize (Hal Hz). lia.
Qed.

(** What it hands out and leaves. *)
Lemma pop_indexed q i :
  (cq_queue q ≠ [] → i < cq_first_index q + zlen (cq_queue q)) →
  ∃ q' out fi, cq_pop_closure_until q i = Some (q', out, fi) ∧
    indexed fi out = filter (λ p, p.1 ≤ i) (indexed (cq_first_index q) (cq_queue q)) ∧
    indexed (cq_first_index q') (cq_queue q') = filter (λ p, i < p.1) (indexed (cq_first_index q) (cq_queue q)).
Proof.
  intros Hr. rewrite cq_pop_closure_until_spec by done. case_decide as Hd.
  - eexists _, _, _. split; [done|]. pose proof (indexed_ge (cq_first_index q) (cq_queue q)) as Hge. rewrite Forall_forall in Hge.
    split; [rewrite list_filter_none|rewrite list_filter_all]; [done| |done|];
      (destruct Hd as [Hd|Hd]; [rewrite Hd; by intros ? ?%elem_of_nil|]; intros p Hin; apply Hge in Hin; lia).
  - eexists _, _, _. split; [done|]. by rewrite indexed_le, indexed_gt by lia.
Qed.

Lemma pop_rep b ts gone i cq' out fi :
  bb_rep b ts gone → i ≤ bb_last_committed_index b →
  cq_pop_closure_until (bb_closure_queue b) i = Some (cq', out, fi) →
  ∃ gone', bb_rep (mkBallotBox (bb_last_committed_index b) (bb_pending_index b) (bb_pending_meta_queue b) cq') ts gone'.
Proof.
  intros Hr Hi0. pose proof (pop_covered _ _ _ _ Hr Hi0) as Hcov. pose proof Hr as [Hq Hwf Hno Hc Hp Hi Hcl Hal].
  destruct b as [lc pending q cq]; cbn [bb_last_committed_index bb_pending_index
    bb_pending_meta_queue bb_closure_queue] in *.
  rewrite cq_pop_closure_until_spec by done. case_decide as Hd; [intros [= <- <- <-]; eauto|]. intros [= <- <- <-].
  assert (pending ≠ 0) as Hz by (intros Hz; apply Hi in Hz; tauto).
  assert (Z.to_nat (i - cq_first_index cq + 1) ≤ length gone)%nat as Hle.
  { specialize (Hal Hz). unfold zlen in *. lia. }
  exists (drop (Z.to_nat (i - cq_first_index cq + 1)) gone).
  split; cbn; [done|done|done|done|done|tauto| |].
  - intros _. rewrite Hcl by done. by rewrite drop_app_le.
  - intros _. specialize (Hal Hz). unfold zlen in *. rewrite length_drop. lia.
Qed.

Lemma bb_step_inv w w' :
  bb_inv w → bb_step w w' →
  bb_inv w' ∧ bb_last_committed_index (w_box w) ≤ bb_last_committed_index (w_box w').
Proof.
  intros ((ts & gone & Hr) & Hrec) Hs. unfold queue_recorded in *.
  inversion Hs; subst; clear Hs; cbn [w_box w_pending] in *; unfold bb_inv, queue_recorded;
    cbn [w_box w_pending].
  - destruct (commit_at_rep _ _ _ _ _ _ _ _ _ Hr H) as (? & Hcq & _ & _ & ?). rewrite Hcq. done.
  - destruct (append_rep _ _ _ _ _ _ _ H H0 Hr H1) as (Hr' & Hp & Hpos & Hc & Hcq & Hl).
    split; [|lia]. split; [eauto|]. rewrite Hcq. cbn [cq_append_pending_closure cq_first_index cq_queue].
    rewrite indexed_app. cbn [indexed].
    assert (bb_pending_index b + zlen (bb_pending_meta_queue b) =
      cq_first_index (bb_closure_queue b) + zlen (cq_queue (bb_closure_queue b))) as ->; [|by rewrite Hrec].
    destruct Hr as [Hq _ _ _ _ _ Hcl Hal]. specialize (Hcl ltac:(lia)). specialize (Hal ltac:(lia)).
    rewrite Hcl, zlen_app, Hq. unfold zlen in *. rewrite !length_fmap. lia.
  - destruct (reset_rep _ _ _ _ _ Hr H) as (Hr' & Hc & Hcq). split; [|lia]. split; [eauto|by rewrite Hcq].
  - split; [|done]. split; [eauto using clear_rep|done].
  - destruct (set_committed_rep _ _ _ _ _ _ _ Hr H) as (Hr' & Hc & Hcq & _). rewrite Hcq. split; [split; [eauto|done]|done].
  - destruct (pop_rep _ _ _ _ _ _ _ Hr H H0) as (gone' & Hr'). split; [|done]. split; [eauto|].
    destruct (pop_indexed (bb_closure_queue b) i) as (q' & out' & fi' & Hpop & _ & Hleft); [by eapply pop_covered|].
    rewrite H0 in Hpop. injection Hpop as <- _ _. by rewrite Hrec.
Qed.

Lemma bb_reachable_inv w : bb_reachable w → bb_inv w.
Proof.
  intros Hr. unfold bb_reachable in Hr.
  remember (mkBoxWorld bb_new []) as w0 eqn:E.
  assert (bb_inv w0) as Hi by (subst; split; [exists [], []; apply bb_new_rep|done]).
  clear E. induction Hr as [|x y z Hxy Hyz IH]; [done|].
  apply IH. eapply bb_step_inv; done.
Qed.

(** ** Theorems *)

(** C9. In every reachable box, [commit_at(first, last, peer)] does what its
    specification says for the pending tasks the box holds: it marks the tasks
    of the range as acknowledged by the peer, and commits (and reports) the
    greatest pending index acknowledged by a majority of its configuration and
    of its old one, with everything before it; a range past the queue is
    refused with [ERANGE] and a box that is not leading with [EINVAL]. *)
Theorem commit_at_commits_greatest_majority (w : BoxWorld) (first_log_index last_log_index : Z)
    (peer : PeerId) (Hw : bb_reachable w) :
  let b := w_box w in
  ∃ ts, bb_pending_meta_queue b = task_ballot <$> ts ∧ Forall task_wf ts ∧
    bb_commit_at b first_log_index last_log_index peer =
    Some (commit_at_spec (bb_last_committed_index b) (bb_pending_index b) ts (bb_closure_queue b)
            first_log_index last_log_index peer).
Proof.
  destruct (bb_reachable_inv w Hw) as [(ts & gone & Hr) _]. exists ts.
  split_and!; [apply Hr|apply Hr|by eapply commit_at_refines].
Qed.

(** A commit is never late: in every reachable box no pending ballot is
    granted, i.e. as soon as an index has its majorities it has left the
    queue. *)
Theorem no_pending_ballot_granted (w : BoxWorld) (bl : Ballot)
    (Hw : bb_reachable w) (Hin : bl ∈ bb_pending_meta_queue (w_box w)) :
  ballot_granted bl = false.
Proof.
  destruct (bb_reachable_inv w Hw) as [(ts & gone & Hr) _].
  rewrite (rep_queue _ _ _ Hr) in Hin. apply list_elem_of_fmap in Hin as (t & -> & Ht).
  pose proof (rep_open _ _ _ Hr) as Ho. rewrite Forall_forall in Ho. specialize (Ho t Ht).
  rewrite <-task_ballot_granted in Ho. by destruct (ballot_granted _).
Qed.

(** The committed index never goes back, over any interleaving of the
    box's operations. *)
Theorem committed_index_monotone (w w' : BoxWorld) (Hw : bb_reachable w) (Hs : rtc bb_step w w') :
  bb_last_committed_index (w_box w) ≤ bb_last_committed_index (w_box w').
Proof.
  apply bb_reachable_inv in Hw. induction Hs as [|x y z Hxy Hyz IH]; [done|].
  destruct (bb_step_inv _ _ Hw Hxy). etrans; [eassumption|]. auto.
Qed.

(** C10. No closure is lost, kept back or handed out twice.  In every reachable
    box, popping up to a committed index returns, hands out exactly the closures
    of the pending tasks up to that index, in order and each for the index its
    task was appended at, and leaves exactly the later ones; clearing the
    box runs exactly the closures still pending, with [EPERM]. *)
Theorem committed_closures_delivered (w : BoxWorld) (i : Z)
    (Hw : bb_reachable w) (Hi : i ≤ bb_last_committed_index (w_box w)) :
  ∃ cq' out fi,
    cq_pop_closure_until (bb_closure_queue (w_box w)) i = Some (cq', out, fi) ∧
    indexed fi out = filter (λ p, p.1 ≤ i) (w_pending w) ∧
    indexed (cq_first_index cq') (cq_queue cq') = filter (λ p, i < p.1) (w_pending w) ∧
    (bb_clear_pending_tasks (w_box w)).2 = omap (λ p, (λ c, (c, EPERM)) <$> p.2) (w_pending w).
Proof.
  destruct (bb_reachable_inv w Hw) as ((ts & gone & Hr) & Hrec). unfold queue_recorded in Hrec. rewrite Hrec.
  destruct (pop_indexed (bb_closure_queue (w_box w)) i) as (q' & out & fi & Hpop & Hout & Hleft); [by eapply pop_covered|].
  exists q', out, fi. split_and!; [done..|]. cbn. by rewrite omap_indexed.
Qed.

(** ** Concrete instances *)

(** A leader of three peers at pending index 5: two tasks appended, peer 1 has
    both entries and peer 2 the first. *)
Definition ex_box (b : option BallotBox) : BallotBox := default bb_new b.
Definition ex_committed (r : option (BallotBox * Z * option Z)) : BallotBox :=
  from_option (λ r, r.1.1) bb_new r.

Definition ex_w1 : BoxWorld := Eval vm_compute in
  mkBoxWorld (ex_box (bb_reset_pending_index bb_new 5)) [].
Definition ex_w2 : BoxWorld := Eval vm_compute in
  mkBoxWorld (ex_box (bb_append_pending_task (w_box ex_w1) ex_conf3 None (Some 1))) [(5, Some 1)].
Definition ex_w3 : BoxWorld := Eval vm_compute in
  mkBoxWorld (ex_box (bb_append_pending_task (w_box ex_w2) ex_conf3 None (Some 2)))
    [(5, Some 1); (6, Some 2)].
Definition ex_w4 : BoxWorld := Eval vm_compute in
  mkBoxWorld (ex_committed (bb_commit_at (w_box ex_w3) 5 6 (ex_peer 1))) [(5, Some 1); (6, Some 2)].
Definition ex_w5 : BoxWorld := Eval vm_compute in
  mkBoxWorld (ex_committed (bb_commit_at (w_box ex_w4) 5 5 (ex_peer 2))) [(5, Some 1); (6, Some 2)].

Lemma ex_w3_reachable : bb_reachable ex_w3.
Proof.
  apply rtc_l with ex_w1.
  { apply (step_reset _ _ 5 (w_box ex_w1)). vm_compute. reflexivity. }
  apply rtc_l with ex_w2.
  { apply (step_append (w_box ex_w1) [] ex_conf3 None (Some 1) (w_box ex_w2));
      [apply conf_of_vector_wf|done|]. vm_compute. reflexivity. }
  apply rtc_once.
  apply (step_append (w_box ex_w2) [(5, Some 1)] ex_conf3 None (Some 2) (w_box ex_w3));
    [apply conf_of_vector_wf|done|]. vm_compute. reflexivity.
Qed.

Lemma ex_w4_step : bb_step ex_w3 ex_w4.
Proof.
  apply (step_commit_at (w_box ex_w3) (w_pending ex_w3) 5 6 (ex_peer 1) (w_box ex_w4) 0 None).
  vm_compute. reflexivity.
Qed.

Lemma ex_w5_step : bb_step ex_w4 ex_w5.
Proof.
  apply (step_commit_at (w_box ex_w4) (w_pending ex_w4) 5 5 (ex_peer 2) (w_box ex_w5) 0 (Some 5)).
  vm_compute. reflexivity.
Qed.

Lemma ex_w4_reachable : bb_reachable ex_w4.
Proof. eapply rtc_r; [apply ex_w3_reachable|apply ex_w4_step]. Qed.

Lemma ex_w5_reachable : bb_reachable ex_w5.
Proof. eapply rtc_r; [apply ex_w4_reachable|apply ex_w5_step]. Qed.

Lemma commit_at_commits_greatest_majority_witness :
  ∃ ts, bb_pending_meta_queue (w_box ex_w4) = task_ballot <$> ts ∧ Forall task_wf ts ∧
    bb_commit_at (w_box ex_w4) 5 6 (ex_peer 2) =
    Some (commit_at_spec 0 5 ts (bb_closure_queue (w_box ex_w4)) 5 6 (ex_peer 2)).
Proof. exact (commit_at_commits_greatest_majority ex_w4 5 6 (ex_peer 2) ex_w4_reachable). Defined.

Lemma no_pending_ballot_granted_witness :
  ∃ bl, bb_pending_meta_queue (w_box ex_w5) = [bl] ∧ ballot_granted bl = false.
Proof.
  eexists. split; [vm_compute; reflexivity|].
  apply (no_pending_ballot_granted ex_w5); [apply ex_w5_reachable|].
  vm_compute. left.
Defined.

Lemma committed_index_monotone_witness :
  bb_last_committed_index (w_box ex_w3) = 0 ∧
  bb_last_committed_index (w_box ex_w3) ≤ bb_last_committed_index (w_box ex_w5).
Proof.
  split; [reflexivity|]. apply (committed_index_monotone ex_w3 ex_w5); [apply ex_w3_reachable|].
  eapply rtc_l; [apply ex_w4_step|apply rtc_once, ex_w5_step].
Defined.

Lemma committed_closures_delivered_witness :
  bb_last_committed_index (w_box ex_w5) = 5 ∧
  ∃ cq' out fi, cq_pop_closure_until (bb_closure_queue (w_box ex_w5)) 5 = Some (cq', out, fi) ∧
    indexed fi out = [(5, Some 1)] ∧ indexed (cq_first_index cq') (cq_queue cq') = [(6, Some 2)].
Proof.
  split; [reflexivity|].
  destruct (committed_closures_delivered ex_w5 5) as (cq' & out & fi & H1 & H2 & H3 & _); [apply ex_w5_reachable|vm_compute; done|].
  exists cq', out, fi. split; [exact H1|]. split; [exact H2|exact H3].
Defined.
