(* ===== verification/LogStorage.v ===== *)
(** * The log storage interface

    [LogStorage] of src/melon/raft/storage.h, as a class of operations with the
    laws its clients rely on, over an abstract log: the index of the first
    entry kept and the entries from there. *)

From stdpp Require Import prelude sorting.
From S2P Require Import Prelude StdContainers Configuration.
Local Open Scope Z_scope.

(** ** The abstract log *)

Record Log := mkLog { lfirst : Z; lents : list LogEntry }.

Definition log_last (l : Log) : Z := lfirst l + zlen (lents l) - 1.

Definition log_get (l : Log) (i : Z) : option LogEntry := zlookup (lents l) (i - lfirst l).

Definition log_term (l : Log) (i : Z) : Z := from_option (λ e, term (id e)) 0 (log_get l i).

Definition log_append (l : Log) (es : list LogEntry) : Log := mkLog (lfirst l) (lents l ++ es).

(** Keep the indexes from [k] on; past the end the log is empty at [k]. *)
Definition log_truncate_prefix (l : Log) (k : Z) : Log :=
  mkLog k (drop (Z.to_nat (k - lfirst l)) (lents l)).

(** Keep the indexes up to [k]; before the start the log is empty at [k+1]. *)
Definition log_truncate_suffix (l : Log) (k : Z) : Log :=
  if decide (k < lfirst l) then mkLog (k + 1) []
  else mkLog (lfirst l) (take (Z.to_nat (k + 1 - lfirst l)) (lents l)).

Definition log_reset (n : Z) : Log := mkLog n [].

(** The entries carry consecutive indexes from [i]. *)
Definition contiguous (i : Z) (es : list LogEntry) : Prop :=
  ∀ k e, es !! k = Some e → index (id e) = i + Z.of_nat k.

Definition log_wf (l : Log) : Prop := contiguous (lfirst l) (lents l).

Lemma contiguous_nil i : contiguous i [].
Proof. intros k e. by rewrite lookup_nil. Qed.

Lemma contiguous_cons i e es :
  contiguous i (e :: es) ↔ index (id e) = i ∧ contiguous (i + 1) es.
Proof.
  split.
  - intros H. split; [specialize (H 0%nat e eq_refl); lia|].
    intros k e' Hk. specialize (H (S k) e' Hk). lia.
  - intros [He H] [|k] e' Hk; cbn in Hk; [simplify_eq; lia|]. apply H in Hk. lia.
Qed.

#[global] Instance contiguous_dec i es : Decision (contiguous i es).
Proof.
  revert i. induction es as [|e es IH]; intros i; [left; apply contiguous_nil|].
  destruct (decide (index (id e) = i)) as [He|He];
    [|right; intros [? _]%contiguous_cons; done].
  destruct (IH (i + 1)) as [Hc|Hc]; [left|right; intros [_ ?]%contiguous_cons; done].
  by apply contiguous_cons.
Defined.

Lemma contiguous_app i es fs :
  contiguous i (es ++ fs) ↔ contiguous i es ∧ contiguous (i + zlen es) fs.
Proof.
  revert i. induction es as [|e es IH]; intros i; cbn [app].
  - rewrite Z.add_0_r. split; [intros ?; split; [apply contiguous_nil|done]|tauto].
  - rewrite !contiguous_cons, IH, zlen_cons.
    replace (i + 1 + zlen es) with (i + (zlen es + 1)) by lia. tauto.
Qed.

Lemma contiguous_take i n es : contiguous i es → contiguous i (take n es).
Proof. intros H. rewrite <-(take_drop n es) in H. by apply contiguous_app in H as [? _]. Qed.

Lemma contiguous_drop i n es :
  contiguous i es → (n ≤ length es)%nat → contiguous (i + Z.of_nat n) (drop n es).
Proof.
  intros H Hn. rewrite <-(take_drop n es) in H. apply contiguous_app in H as [_ H].
  rewrite zlen_take in H. unfold zlen in H.
  by replace (Z.min (Z.of_nat n) (Z.of_nat (length es))) with (Z.of_nat n) in H by lia.
Qed.

Lemma log_get_index l i e : log_wf l → log_get l i = Some e → index (id e) = i.
Proof.
  intros Hw Hg. pose proof (zlookup_Some_range _ _ _ Hg) as [? _].
  unfold log_get, zlookup in Hg. rewrite decide_False in Hg by lia. apply Hw in Hg. lia.
Qed.

Lemma log_get_Some_range l i e : log_get l i = Some e → lfirst l ≤ i ≤ log_last l.
Proof. intros H%zlookup_Some_range. unfold log_last. lia. Qed.

Lemma log_get_in_range l i : lfirst l ≤ i ≤ log_last l → ∃ e, log_get l i = Some e.
Proof. unfold log_last. intros ?. apply zlookup_in_range. lia. Qed.

Lemma log_get_out l i : ¬ (lfirst l ≤ i ≤ log_last l) → log_get l i = None.
Proof. intros H. destruct (log_get l i) eqn:E; [|done]. by apply log_get_Some_range in E. Qed.

Lemma log_append_wf l es : log_wf l → contiguous (log_last l + 1) es → log_wf (log_append l es).
Proof.
  unfold log_wf, log_last, log_append. cbn. intros H1 H2. apply contiguous_app. split; [done|].
  by replace (lfirst l + zlen (lents l)) with (lfirst l + zlen (lents l) - 1 + 1) by lia.
Qed.

Lemma log_append_last l es : log_last (log_append l es) = log_last l + zlen es.
Proof. unfold log_last, log_append. cbn. rewrite zlen_app. lia. Qed.

Lemma log_append_app l es fs : log_append (log_append l es) fs = log_append l (es ++ fs).
Proof. unfold log_append. cbn. by rewrite app_assoc. Qed.

Lemma log_append_nil l : log_append l [] = l.
Proof. destruct l. unfold log_append. cbn. by rewrite app_nil_r. Qed.

Lemma log_truncate_prefix_wf l k : log_wf l → lfirst l ≤ k → log_wf (log_truncate_prefix l k).
Proof.
  unfold log_wf, log_truncate_prefix. cbn. intros Hw Hk.
  destruct (decide (k - lfirst l ≤ zlen (lents l))) as [Hle|Hgt]; unfold zlen in *.
  - replace k with (lfirst l + Z.of_nat (Z.to_nat (k - lfirst l))) at 1 by lia.
    apply contiguous_drop; [done|lia].
  - rewrite drop_ge by lia. apply contiguous_nil.
Qed.

Lemma log_truncate_prefix_last l k :
  lfirst l ≤ k → log_last (log_truncate_prefix l k) = Z.max (k - 1) (log_last l).
Proof. unfold log_last, log_truncate_prefix. cbn. rewrite zlen_drop. pose proof (zlen_nonneg (lents l)). lia. Qed.

Lemma log_truncate_prefix_get l k i :
  lfirst l ≤ k → log_get (log_truncate_prefix l k) i = if decide (k ≤ i) then log_get l i else None.
Proof.
  intros Hk. unfold log_get, log_truncate_prefix. cbn. case_decide.
  - rewrite zlookup_drop by lia. f_equal. lia.
  - unfold zlookup. by rewrite decide_True by lia.
Qed.

Lemma log_truncate_suffix_wf l k : log_wf l → log_wf (log_truncate_suffix l k).
Proof.
  unfold log_wf, log_truncate_suffix. intros Hw. case_decide; cbn;
    [apply contiguous_nil|by apply contiguous_take].
Qed.

Lemma log_truncate_suffix_last l k : k ≤ log_last l → log_last (log_truncate_suffix l k) = k.
Proof.
  unfold log_last, log_truncate_suffix. intros ?. case_decide; cbn; [unfold zlen; cbn; lia|].
  rewrite zlen_take. lia.
Qed.

Lemma log_truncate_suffix_get l k i :
  log_get (log_truncate_suffix l k) i = if decide (i ≤ k) then log_get l i else None.
Proof.
  unfold log_get, log_truncate_suffix. destruct (decide (k < lfirst l)); cbn [lfirst lents].
  - case_decide; unfold zlookup; repeat case_decide; try done; lia.
  - case_decide; [apply zlookup_take; lia|]. unfold zlookup. case_decide; [done|].
    apply lookup_take_ge. lia.
Qed.

(** ** Operations and laws

    Every operation can end the process ([None]).  Return codes are the code's:
    [append_entries] returns how many entries it appended, the others 0 on
    success. *)

Class LogStorage (S : Type) := {
  ls_first_log_index : S → Z;
  ls_last_log_index : S → Z;
  ls_get_entry : S → Z → option (option LogEntry);
  ls_get_term : S → Z → option Z;
  ls_append_entries : S → list LogEntry → option (S * Z);
  ls_truncate_prefix : S → Z → option (S * Z);
  ls_truncate_suffix : S → Z → option (S * Z);
  ls_reset : S → Z → option (S * Z);
}.

Class LogStorageLaws (S : Type) `{LogStorage S} := {
  ls_rep : S → Log → Prop;
  ls_rep_wf s l : ls_rep s l → log_wf l;
  ls_rep_first s l : ls_rep s l → ls_first_log_index s = lfirst l;
  ls_rep_last s l : ls_rep s l → ls_last_log_index s = log_last l;
  ls_rep_get_entry s l i : ls_rep s l → ls_get_entry s i = Some (log_get l i);
  ls_rep_get_term s l i : ls_rep s l → ls_get_term s i = Some (log_term l i);
  (** Contiguous entries: a prefix of them is appended, as long as the count
      returned. *)
  ls_rep_append s l es :
    ls_rep s l → contiguous (log_last l + 1) es →
    ∃ s' (n : nat), ls_append_entries s es = Some (s', Z.of_nat n) ∧ (n ≤ length es)%nat ∧
      ls_rep s' (log_append l (take n es));
  (** Truncations and resets that report success have the effect. *)
  ls_rep_truncate_prefix s l k :
    ls_rep s l → lfirst l ≤ k →
    ∃ s' rc, ls_truncate_prefix s k = Some (s', rc) ∧
      (rc = 0 → ls_rep s' (log_truncate_prefix l k)) ∧ (rc ≠ 0 → ls_rep s' l);
  ls_rep_truncate_suffix s l k :
    ls_rep s l → lfirst l - 1 ≤ k < log_last l →
    ∃ s' rc, ls_truncate_suffix s k = Some (s', rc) ∧
      (rc = 0 → ls_rep s' (log_truncate_suffix l k));
  ls_rep_reset s l n :
    ls_rep s l → 0 < n →
    ∃ s' rc, ls_reset s n = Some (s', rc) ∧ (rc = 0 → ls_rep s' (log_reset n));
}.
