(* ===== verification/MemoryLog.v ===== *)
(** * Log storage in memory

    [MemoryLogStorage] of src/melon/raft/memory_log.{h,cc}, and that it
    implements the interface of LogStorage.v. *)

From stdpp Require Import prelude sorting.
From S2P Require Import Prelude StdContainers Configuration LogStorage.
Local Open Scope Z_scope.

Record MemoryLogStorage := mkMemoryLog {
  ml_first_log_index : Z;
  ml_last_log_index : Z;
  ml_log_entry_data : list LogEntry;
}.

Definition ml_new : MemoryLogStorage := mkMemoryLog 1 0 [].

Definition ml_init (m : MemoryLogStorage) : MemoryLogStorage * Z :=
  (mkMemoryLog 1 0 (ml_log_entry_data m), 0).

(** [get_entry]; the inner [None] is the null pointer. *)
Definition ml_get_entry (m : MemoryLogStorage) (i : Z) : option (option LogEntry) :=
  if decide (i < ml_first_log_index m ∨ ml_last_log_index m < i) then Some None
  else
    temp ← zlookup (ml_log_entry_data m) (i - ml_first_log_index m);
    CHECK (index (id temp) = i);;
    Some (Some temp).

Definition ml_get_term (m : MemoryLogStorage) (i : Z) : option Z :=
  if decide (i < ml_first_log_index m ∨ ml_last_log_index m < i) then Some 0
  else
    temp ← zlookup (ml_log_entry_data m) (i - ml_first_log_index m);
    CHECK (index (id temp) = i);;
    Some (term (id temp)).

Definition ml_append_entry (m : MemoryLogStorage) (input_entry : LogEntry)
  : option (MemoryLogStorage * Z) :=
  CHECK (¬ (index (id input_entry) ≠ ml_last_log_index m + 1));;
  Some (mkMemoryLog (ml_first_log_index m) (ml_last_log_index m + 1)
          (ml_log_entry_data m ++ [input_entry]), 0).

(** The loop of [append_entries], which ignores what [append_entry] returns. *)
Fixpoint ml_append_loop (m : MemoryLogStorage) (entries : list LogEntry) : option MemoryLogStorage :=
  match entries with
  | [] => Some m
  | e :: es => '(m', _) ← ml_append_entry m e; ml_append_loop m' es
  end.

Definition ml_append_entries (m : MemoryLogStorage) (entries : list LogEntry)
  : option (MemoryLogStorage * Z) :=
  if decide (entries = []) then Some (m, 0)
  else m' ← ml_append_loop m entries; Some (m', zlen entries).

Fixpoint ml_pop_front (first_index_kept : Z) (d : list LogEntry) : list LogEntry :=
  match d with
  | [] => []
  | e :: d' => if decide (index (id e) < first_index_kept) then ml_pop_front first_index_kept d' else d
  end.

Definition ml_truncate_prefix (m : MemoryLogStorage) (first_index_kept : Z)
  : MemoryLogStorage * Z :=
  (mkMemoryLog first_index_kept
     (if decide (ml_last_log_index m < first_index_kept) then first_index_kept - 1
      else ml_last_log_index m)
     (ml_pop_front first_index_kept (ml_log_entry_data m)), 0).

(** The pop loop of [truncate_suffix], on the reversed deque. *)
Fixpoint ml_pop_back (last_index_kept : Z) (rd : list LogEntry) : list LogEntry :=
  match rd with
  | [] => []
  | e :: rd' => if decide (last_index_kept < index (id e)) then ml_pop_back last_index_kept rd' else rd
  end.

Definition ml_truncate_suffix (m : MemoryLogStorage) (last_index_kept : Z)
  : MemoryLogStorage * Z :=
  (mkMemoryLog
     (if decide (last_index_kept < ml_first_log_index m) then last_index_kept + 1
      else ml_first_log_index m)
     last_index_kept
     (reverse (ml_pop_back last_index_kept (reverse (ml_log_entry_data m)))), 0).

Definition ml_reset (m : MemoryLogStorage) (next_log_index : Z) : MemoryLogStorage * Z :=
  if decide (next_log_index ≤ 0) then (m, EINVAL)
  else (mkMemoryLog next_log_index (next_log_index - 1) [], 0).

#[global] Instance memory_log_storage : LogStorage MemoryLogStorage := {
  ls_first_log_index := ml_first_log_index;
  ls_last_log_index := ml_last_log_index;
  ls_get_entry := ml_get_entry;
  ls_get_term := ml_get_term;
  ls_append_entries := ml_append_entries;
  ls_truncate_prefix m k := Some (ml_truncate_prefix m k);
  ls_truncate_suffix m k := Some (ml_truncate_suffix m k);
  ls_reset m n := Some (ml_reset m n);
}.

(** ** Refinement *)

Definition ml_of (l : Log) : MemoryLogStorage := mkMemoryLog (lfirst l) (log_last l) (lents l).

Definition ml_rep (m : MemoryLogStorage) (l : Log) : Prop := m = ml_of l ∧ log_wf l.

Lemma ml_get_entry_of l i : log_wf l → ml_get_entry (ml_of l) i = Some (log_get l i).
Proof.
  intros Hw. unfold ml_get_entry, ml_of. cbn [ml_first_log_index ml_last_log_index ml_log_entry_data].
  case_decide as Hd; [rewrite log_get_out by lia; done|].
  destruct (log_get_in_range l i) as [e He]; [lia|]. pose proof (log_get_index _ _ _ Hw He).
  rewrite He. unfold log_get in He. rewrite He. cbn. by rewrite CHECK_true.
Qed.

Lemma ml_get_term_of l i : log_wf l → ml_get_term (ml_of l) i = Some (log_term l i).
Proof.
  intros Hw. unfold ml_get_term, ml_of, log_term. cbn [ml_first_log_index ml_last_log_index ml_log_entry_data].
  case_decide as Hd; [rewrite log_get_out by lia; done|].
  destruct (log_get_in_range l i) as [e He]; [lia|]. pose proof (log_get_index _ _ _ Hw He).
  rewrite He. unfold log_get in He. rewrite He. cbn. by rewrite CHECK_true.
Qed.

Lemma ml_append_loop_of l es :
  contiguous (log_last l + 1) es → ml_append_loop (ml_of l) es = Some (ml_of (log_append l es)).
Proof.
  revert l. induction es as [|e es IH]; intros l; cbn [ml_append_loop].
  { intros _. by rewrite log_append_nil. }
  intros [He Hes]%contiguous_cons. unfold ml_append_entry. rewrite CHECK_true by (cbn; lia).
  cbn [mbind option_bind].
  assert (mkMemoryLog (ml_first_log_index (ml_of l)) (ml_last_log_index (ml_of l) + 1)
    (ml_log_entry_data (ml_of l) ++ [e]) = ml_of (log_append l [e])) as ->.
  { unfold ml_of. cbn. by rewrite log_append_last. }
  rewrite IH; [by rewrite log_append_app|]. rewrite log_append_last. unfold zlen. cbn. done.
Qed.

Lemma ml_pop_front_spec i k es :
  contiguous i es → ml_pop_front k es = drop (Z.to_nat (k - i)) es.
Proof.
  revert i. induction es as [|e es IH]; intros i; cbn [ml_pop_front]; [by rewrite drop_nil|].
  intros [He Hes]%contiguous_cons. case_decide.
  - rewrite (IH _ Hes). replace (Z.to_nat (k - i)) with (S (Z.to_nat (k - (i + 1)))) by lia. done.
  - by replace (Z.to_nat (k - i)) with 0%nat by lia.
Qed.

Lemma ml_pop_back_spec i k es :
  contiguous i es → reverse (ml_pop_back k (reverse es)) = take (Z.to_nat (k + 1 - i)) es.
Proof.
  induction es as [|e es IH] using rev_ind; [by rewrite take_nil|].
  intros [Hes [He _]%contiguous_cons]%contiguous_app. rewrite reverse_snoc. cbn [ml_pop_back].
  unfold zlen in He. case_decide.
  - rewrite IH by done. by rewrite take_app_le by lia.
  - rewrite reverse_cons, reverse_involutive. rewrite take_ge; [done|]. rewrite length_app. cbn. lia.
Qed.

Lemma ml_truncate_prefix_of l k :
  log_wf l → lfirst l ≤ k → ml_truncate_prefix (ml_of l) k = (ml_of (log_truncate_prefix l k), 0).
Proof.
  intros Hw Hk. unfold ml_truncate_prefix, ml_of. cbn [ml_last_log_index ml_log_entry_data].
  rewrite log_truncate_prefix_last by done. rewrite (ml_pop_front_spec (lfirst l)) by done.
  do 2 f_equal. case_decide; lia.
Qed.

Lemma ml_truncate_suffix_of l k :
  log_wf l → k ≤ log_last l → ml_truncate_suffix (ml_of l) k = (ml_of (log_truncate_suffix l k), 0).
Proof.
  intros Hw Hk. unfold ml_truncate_suffix, ml_of.
  cbn [ml_first_log_index ml_last_log_index ml_log_entry_data].
  rewrite log_truncate_suffix_last by done. rewrite (ml_pop_back_spec (lfirst l)) by done.
  unfold log_truncate_suffix. case_decide; [|done]. cbn.
  by replace (Z.to_nat (k + 1 - lfirst l)) with 0%nat by lia.
Qed.

#[global] Program Instance memory_log_laws : LogStorageLaws MemoryLogStorage := {
  ls_rep := ml_rep;
}.
Next Obligation. by intros s l [-> ?]. Qed.
Next Obligation. by intros s l [-> ?]. Qed.
Next Obligation. by intros s l [-> ?]. Qed.
Next Obligation. intros s l i [-> ?]. by apply ml_get_entry_of. Qed.
Next Obligation. intros s l i [-> ?]. by apply ml_get_term_of. Qed.
Next Obligation.
  intros s l es [-> Hw] Hes. cbn. unfold ml_append_entries. case_decide as Hd.
  - subst. exists (ml_of l), 0%nat. split_and!; [done|done|]. rewrite take_0, log_append_nil. by split.
  - rewrite ml_append_loop_of by done. cbn. exists (ml_of (log_append l es)), (length es).
    rewrite take_ge by lia. split_and!; [done|lia|]. split; [done|by apply log_append_wf].
Qed.
Next Obligation.
  intros s l k [-> Hw] Hk. cbn. rewrite ml_truncate_prefix_of by done. do 2 eexists.
  split_and!; [done|split; [done|by apply log_truncate_prefix_wf]|done].
Qed.
Next Obligation.
  intros s l k [-> Hw] Hk. cbn. rewrite ml_truncate_suffix_of by (done || lia). do 2 eexists.
  split; [done|split; [done|by apply log_truncate_suffix_wf]].
Qed.
Next Obligation.
  intros s l n [-> Hw] Hn. cbn. unfold ml_reset. rewrite decide_False by lia. do 2 eexists.
  split; [done|]. intros _. split; [|apply contiguous_nil].
  unfold ml_of, log_reset, log_last, zlen. cbn. f_equal; lia.
Qed.

(** ** Executions *)

Inductive ml_op :=
  | MlAppend (es : list LogEntry)
  | MlTruncatePrefix (k : Z)
  | MlTruncateSuffix (k : Z)
  | MlReset (n : Z).

Definition ml_run (m : MemoryLogStorage) (o : ml_op) : option MemoryLogStorage :=
  match o with
  | MlAppend es => fst <$> ml_append_entries m es
  | MlTruncatePrefix k => Some (ml_truncate_prefix m k).1
  | MlTruncateSuffix k => Some (ml_truncate_suffix m k).1
  | MlReset n => Some (ml_reset m n).1
  end.

(** The abstract operation, where its precondition holds. *)
Definition log_run (l : Log) (o : ml_op) : option Log :=
  match o with
  | MlAppend es => if decide (contiguous (log_last l + 1) es) then Some (log_append l es) else None
  | MlTruncatePrefix k => if decide (lfirst l ≤ k) then Some (log_truncate_prefix l k) else None
  | MlTruncateSuffix k => if decide (k ≤ log_last l) then Some (log_truncate_suffix l k) else None
  | MlReset n => if decide (0 < n) then Some (log_reset n) else Some l
  end.

Fixpoint ml_runs (m : MemoryLogStorage) (os : list ml_op) : option MemoryLogStorage :=
  match os with [] => Some m | o :: os' => m' ← ml_run m o; ml_runs m' os' end.

Fixpoint log_runs (l : Log) (os : list ml_op) : option Log :=
  match os with [] => Some l | o :: os' => l' ← log_run l o; log_runs l' os' end.

Lemma ml_run_simulates l o l' :
  log_wf l → log_run l o = Some l' → ml_run (ml_of l) o = Some (ml_of l') ∧ log_wf l'.
Proof.
  intros Hw. destruct o as [es|k|k|n]; cbn [log_run ml_run]; case_decide as Hd; intros [= <-].
  - unfold ml_append_entries. split; [|by apply log_append_wf]. case_decide.
    + subst. by rewrite log_append_nil.
    + by rewrite ml_append_loop_of.
  - rewrite ml_truncate_prefix_of by done. split; [done|by apply log_truncate_prefix_wf].
  - rewrite ml_truncate_suffix_of by done. split; [done|by apply log_truncate_suffix_wf].
  - unfold ml_reset. rewrite decide_False by lia. split; [|apply contiguous_nil].
    unfold ml_of, log_reset, log_last, zlen. cbn. do 2 f_equal. lia.
  - unfold ml_reset. by rewrite decide_True by lia.
Qed.

Lemma ml_runs_simulates l os l' :
  log_wf l → log_runs l os = Some l' → ml_runs (ml_of l) os = Some (ml_of l') ∧ log_wf l'.
Proof.
  revert l. induction os as [|o os IH]; intros l Hw; cbn; [by intros [= <-]|].
  intros (l1 & H1 & H2)%bind_Some. destruct (ml_run_simulates _ _ _ Hw H1) as [-> ?].
  by apply IH.
Qed.

(** The in-memory storage refines the abstract log: a new storage driven by
    any sequence of appends, truncations and resets that the abstract log
    allows never aborts and answers every query as that log does. *)
Theorem memory_log_refines (os : list ml_op) (l : Log) (Hl : log_runs (mkLog 1 []) os = Some l) :
  ∃ m, ml_runs ml_new os = Some m ∧
    ml_first_log_index m = lfirst l ∧ ml_last_log_index m = log_last l ∧
    ∀ i, ml_get_entry m i = Some (log_get l i) ∧ ml_get_term m i = Some (log_term l i).
Proof.
  destruct (ml_runs_simulates (mkLog 1 []) os l (contiguous_nil 1) Hl) as [Hm Hw].
  exists (ml_of l). split_and!; [exact Hm|done|done|].
  intros i. split; [by apply ml_get_entry_of|by apply ml_get_term_of].
Qed.

(** ** Concrete instance *)

Definition ex_entry (i t : Z) : LogEntry := mkLogEntry ENTRY_TYPE_DATA (mkLogId i t) None None [i].

Definition ex_ml_ops : list ml_op :=
  [MlAppend [ex_entry 1 1; ex_entry 2 1; ex_entry 3 2]; MlTruncateSuffix 2;
   MlAppend [ex_entry 3 3; ex_entry 4 3]; MlTruncatePrefix 2].

Lemma memory_log_refines_witness :
  ∃ m, ml_runs ml_new ex_ml_ops = Some m ∧ ml_get_term m 3 = Some 3 ∧ ml_get_entry m 1 = Some None.
Proof.
  destruct (memory_log_refines ex_ml_ops (mkLog 2 [ex_entry 2 1; ex_entry 3 3; ex_entry 4 3]))
    as (m & Hm & _ & _ & Hq); [vm_compute; reflexivity|].
  exists m. split_and!; [exact Hm|apply (Hq 3)|apply (Hq 1)].
Defined.
