(* ===== verification/LogManager.v ===== *)
(** * Log manager

    [LogManager] of src/melon/raft/log_manager.{h,cc}, over any [LogStorage].
    The manager answers from the entries it still holds in memory and lets a
    disk thread apply the queued operations to the storage, in order.

    The calls the manager makes to the outside (closures run, waiters woken,
    errors reported) are collected in [lm_out], oldest first.  The execution
    queue [_disk_queue] is the list of queued closures; [lm_thread] is the disk
    thread's local state while it runs.  [execution_queue_execute] fails only
    on a stopped queue, which the manager stops in its destructor, so it
    succeeds here. *)

From stdpp Require Import prelude sorting.
From S2P Require Import Prelude StdContainers Configuration ConfigurationManager ClosureQueue LogStorage.
Local Open Scope Z_scope.

Definition ESTOP : Z := -20.

(** What the manager calls. *)
Inductive LmEvent :=
  | EvRun (c : Closure) (error_code : Z)
  | EvLastLogId (c : Closure) (last_log_id : LogId)
  | EvNewLog (w : Z) (error_code : Z)
  | EvError (error_code : Z).

(** A queued [StableClosure]: an append with its entries, or one of the closure
    classes the disk thread recognises. *)
Inductive DiskTask :=
  | TaskAppend (done : Closure) (first_log_index : Z) (entries : list LogEntry)
  | TaskLastLogId (done : Closure)
  | TaskTruncatePrefix (first_index_kept : Z)
  | TaskTruncateSuffix (last_index_kept last_term_kept : Z)
  | TaskReset (next_log_index : Z).

(** [AppendBatcher]: the closures buffered with their entries. *)
Record AppendBatcher := mkAppendBatcher {
  ab_storage : list Closure;
  ab_buffer_size : Z;
  ab_to_append : list LogEntry;
}.

Definition ab_new : AppendBatcher := mkAppendBatcher [] 0 [].

(** [ARRAY_SIZE(storage)] and [FLAGS_raft_max_append_buffer_size]. *)
Definition ab_cap : Z := 256.
Definition raft_max_append_buffer_size : Z := 256 * 1024.

Record SnapshotMeta := mkSnapshotMeta {
  sm_last_included_index : Z;
  sm_last_included_term : Z;
  sm_peers : list PeerId;
  sm_old_peers : list PeerId;
}.

Record LogManager (S : Type) := mkLogManager {
  lm_log_storage : S;
  lm_config_manager : ConfigurationManager;
  lm_wait_map : list (Z * Z);
  lm_stopped : bool;
  lm_has_error : bool;
  lm_next_wait_id : Z;
  lm_disk_id : LogId;
  lm_applied_id : LogId;
  lm_logs_in_memory : list LogEntry;
  lm_first_log_index : Z;
  lm_last_log_index : Z;
  lm_last_snapshot_id : LogId;
  lm_virtual_first_log_id : LogId;
  lm_disk_queue : list DiskTask;
  lm_thread : option (LogId * AppendBatcher);
  lm_out : list LmEvent;
}.
#[global] Arguments mkLogManager {S}.
#[global] Arguments lm_log_storage {S}.
#[global] Arguments lm_config_manager {S}.
#[global] Arguments lm_wait_map {S}.
#[global] Arguments lm_stopped {S}.
#[global] Arguments lm_has_error {S}.
#[global] Arguments lm_next_wait_id {S}.
#[global] Arguments lm_disk_id {S}.
#[global] Arguments lm_applied_id {S}.
#[global] Arguments lm_logs_in_memory {S}.
#[global] Arguments lm_first_log_index {S}.
#[global] Arguments lm_last_log_index {S}.
#[global] Arguments lm_last_snapshot_id {S}.
#[global] Arguments lm_virtual_first_log_id {S}.
#[global] Arguments lm_disk_queue {S}.
#[global] Arguments lm_thread {S}.
#[global] Arguments lm_out {S}.

Section log_manager.
Context {S : Type} `{LogStorage S}.
Implicit Types m : LogManager S.

(** ** Field updates *)

Definition with_storage m (s : S) := mkLogManager s (lm_config_manager m) (lm_wait_map m) (lm_stopped m)
  (lm_has_error m) (lm_next_wait_id m) (lm_disk_id m) (lm_applied_id m) (lm_logs_in_memory m)
  (lm_first_log_index m) (lm_last_log_index m) (lm_last_snapshot_id m) (lm_virtual_first_log_id m)
  (lm_disk_queue m) (lm_thread m) (lm_out m).
Definition with_config m c := mkLogManager (lm_log_storage m) c (lm_wait_map m) (lm_stopped m)
  (lm_has_error m) (lm_next_wait_id m) (lm_disk_id m) (lm_applied_id m) (lm_logs_in_memory m)
  (lm_first_log_index m) (lm_last_log_index m) (lm_last_snapshot_id m) (lm_virtual_first_log_id m)
  (lm_disk_queue m) (lm_thread m) (lm_out m).
Definition with_waiters m w n := mkLogManager (lm_log_storage m) (lm_config_manager m) w (lm_stopped m)
  (lm_has_error m) n (lm_disk_id m) (lm_applied_id m) (lm_logs_in_memory m)
  (lm_first_log_index m) (lm_last_log_index m) (lm_last_snapshot_id m) (lm_virtual_first_log_id m)
  (lm_disk_queue m) (lm_thread m) (lm_out m).
Definition with_stopped m b := mkLogManager (lm_log_storage m) (lm_config_manager m) (lm_wait_map m) b
  (lm_has_error m) (lm_next_wait_id m) (lm_disk_id m) (lm_applied_id m) (lm_logs_in_memory m)
  (lm_first_log_index m) (lm_last_log_index m) (lm_last_snapshot_id m) (lm_virtual_first_log_id m)
  (lm_disk_queue m) (lm_thread m) (lm_out m).
Definition with_error m b := mkLogManager (lm_log_storage m) (lm_config_manager m) (lm_wait_map m)
  (lm_stopped m) b (lm_next_wait_id m) (lm_disk_id m) (lm_applied_id m) (lm_logs_in_memory m)
  (lm_first_log_index m) (lm_last_log_index m) (lm_last_snapshot_id m) (lm_virtual_first_log_id m)
  (lm_disk_queue m) (lm_thread m) (lm_out m).
Definition with_ids m d a := mkLogManager (lm_log_storage m) (lm_config_manager m) (lm_wait_map m)
  (lm_stopped m) (lm_has_error m) (lm_next_wait_id m) d a (lm_logs_in_memory m)
  (lm_first_log_index m) (lm_last_log_index m) (lm_last_snapshot_id m) (lm_virtual_first_log_id m)
  (lm_disk_queue m) (lm_thread m) (lm_out m).
Definition with_memory m l := mkLogManager (lm_log_storage m) (lm_config_manager m) (lm_wait_map m)
  (lm_stopped m) (lm_has_error m) (lm_next_wait_id m) (lm_disk_id m) (lm_applied_id m) l
  (lm_first_log_index m) (lm_last_log_index m) (lm_last_snapshot_id m) (lm_virtual_first_log_id m)
  (lm_disk_queue m) (lm_thread m) (lm_out m).
Definition with_range m f l := mkLogManager (lm_log_storage m) (lm_config_manager m) (lm_wait_map m)
  (lm_stopped m) (lm_has_error m) (lm_next_wait_id m) (lm_disk_id m) (lm_applied_id m)
  (lm_logs_in_memory m) f l (lm_last_snapshot_id m) (lm_virtual_first_log_id m)
  (lm_disk_queue m) (lm_thread m) (lm_out m).
Definition with_snapshot m sid v := mkLogManager (lm_log_storage m) (lm_config_manager m) (lm_wait_map m)
  (lm_stopped m) (lm_has_error m) (lm_next_wait_id m) (lm_disk_id m) (lm_applied_id m)
  (lm_logs_in_memory m) (lm_first_log_index m) (lm_last_log_index m) sid v
  (lm_disk_queue m) (lm_thread m) (lm_out m).
Definition with_queue m q := mkLogManager (lm_log_storage m) (lm_config_manager m) (lm_wait_map m)
  (lm_stopped m) (lm_has_error m) (lm_next_wait_id m) (lm_disk_id m) (lm_applied_id m)
  (lm_logs_in_memory m) (lm_first_log_index m) (lm_last_log_index m) (lm_last_snapshot_id m)
  (lm_virtual_first_log_id m) q (lm_thread m) (lm_out m).
Definition with_thread m t := mkLogManager (lm_log_storage m) (lm_config_manager m) (lm_wait_map m)
  (lm_stopped m) (lm_has_error m) (lm_next_wait_id m) (lm_disk_id m) (lm_applied_id m)
  (lm_logs_in_memory m) (lm_first_log_index m) (lm_last_log_index m) (lm_last_snapshot_id m)
  (lm_virtual_first_log_id m) (lm_disk_queue m) t (lm_out m).
Definition emit m evs := mkLogManager (lm_log_storage m) (lm_config_manager m) (lm_wait_map m)
  (lm_stopped m) (lm_has_error m) (lm_next_wait_id m) (lm_disk_id m) (lm_applied_id m)
  (lm_logs_in_memory m) (lm_first_log_index m) (lm_last_log_index m) (lm_last_snapshot_id m)
  (lm_virtual_first_log_id m) (lm_disk_queue m) (lm_thread m) (lm_out m ++ evs).

(** [fiber::execution_queue_execute(_disk_queue, c)]. *)
Definition execute m (t : DiskTask) : LogManager S := with_queue m (lm_disk_queue m ++ [t]).

Definition lm_report_error m (error_code : Z) : LogManager S :=
  emit (with_error m true) [EvError error_code].

(** [LogManager()] followed by [init] on an initialised storage. *)
Definition lm_init (s : S) (cm : ConfigurationManager) : option (LogManager S) :=
  t ← ls_get_term s (ls_last_log_index s);
  Some (mkLogManager s cm [] false false 0
          (mkLogId (ls_last_log_index s) t) zero_id []
          (ls_first_log_index s) (ls_last_log_index s) zero_id zero_id [] None []).

(** ** Reading *)

Definition lm_get_entry_from_memory m (i : Z) : option (option LogEntry) :=
  match lm_logs_in_memory m, last (lm_logs_in_memory m) with
  | front :: _, Some back =>
      let first_index := index (id front) in
      let last_index := index (id back) in
      CHECK (last_index - first_index + 1 = zlen (lm_logs_in_memory m));;
      if decide (first_index ≤ i ∧ i ≤ last_index) then
        Some (zlookup (lm_logs_in_memory m) (i - first_index))
      else Some None
  | _, _ => Some None
  end.

Definition lm_unsafe_get_term m (i : Z) : option Z :=
  if decide (i = 0) then Some 0
  else if decide (i = index (lm_virtual_first_log_id m)) then Some (term (lm_virtual_first_log_id m))
  else if decide (i = index (lm_last_snapshot_id m)) then Some (term (lm_last_snapshot_id m))
  else if decide (lm_last_log_index m < i ∨ i < lm_first_log_index m) then Some 0
  else
    e ← lm_get_entry_from_memory m i;
    match e with
    | Some entry => Some (term (id entry))
    | None => ls_get_term (lm_log_storage m) i
    end.

(** [get_term]: the same look-up with the lock released before the storage is
    read. *)
Definition lm_get_term m (i : Z) : option Z :=
  if decide (i = 0) then Some 0
  else if decide (i = index (lm_virtual_first_log_id m)) then Some (term (lm_virtual_first_log_id m))
  else if decide (i = index (lm_last_snapshot_id m)) then Some (term (lm_last_snapshot_id m))
  else if decide (lm_last_log_index m < i ∨ i < lm_first_log_index m) then Some 0
  else
    e ← lm_get_entry_from_memory m i;
    match e with
    | Some entry => Some (term (id entry))
    | None => ls_get_term (lm_log_storage m) i
    end.

Definition lm_get_entry m (i : Z) : option (LogManager S * option LogEntry) :=
  if decide (lm_last_log_index m < i ∨ i < lm_first_log_index m) then Some (m, None)
  else
    e ← lm_get_entry_from_memory m i;
    match e with
    | Some entry => Some (m, Some entry)
    | None =>
        e' ← ls_get_entry (lm_log_storage m) i;
        match e' with
        | Some entry => Some (m, Some entry)
        | None => Some (lm_report_error m EIO, None)
        end
    end.

(** [last_log_id(false)]. *)
Definition lm_last_log_id m : option LogId :=
  if decide (lm_first_log_index m ≤ lm_last_log_index m) then
    t ← lm_unsafe_get_term m (lm_last_log_index m);
    Some (mkLogId (lm_last_log_index m) t)
  else Some (lm_last_snapshot_id m).

(** [last_log_id(true)] up to the wait: the answer at hand, or the closure
    queued whose run delivers it. *)
Definition lm_last_log_id_flush m (c : Closure) : LogManager S * option LogId :=
  if decide (lm_last_log_index m = index (lm_last_snapshot_id m)) then (m, Some (lm_last_snapshot_id m))
  else (execute m (TaskLastLogId c), None).

Definition lm_get_configuration m (i : Z) : option ConfigurationEntry :=
  cm_get (lm_config_manager m) i.

(** [check_and_set_configuration(current)]: the new [*current] and the result. *)
Definition lm_check_and_set_configuration m (current : ConfigurationEntry)
  : ConfigurationEntry * bool :=
  let last_conf := cm_last_configuration (lm_config_manager m) in
  if decide (ce_id current ≠ ce_id last_conf) then (last_conf, true) else (current, false).

Record LogManagerStatus := mkLogManagerStatus {
  first_index : Z; last_index : Z; disk_index : Z; known_applied_index : Z
}.

Definition lm_get_status m : LogManagerStatus :=
  mkLogManagerStatus (ls_first_log_index (lm_log_storage m)) (ls_last_log_index (lm_log_storage m))
    (index (lm_disk_id m)) (index (lm_applied_id m)).

(** [check_consistency]: the error code of the status. *)
Definition lm_check_consistency m : option Z :=
  CHECK (0 < lm_first_log_index m);;
  CHECK (0 ≤ lm_last_log_index m);;
  if decide (lm_last_snapshot_id m = mkLogId 0 0) then
    if decide (lm_first_log_index m = 1) then Some 0 else Some EIO
  else
    if decide (lm_first_log_index m - 1 ≤ index (lm_last_snapshot_id m) ∧
               index (lm_last_snapshot_id m) ≤ lm_last_log_index m)
    then Some 0 else Some EIO.

(** ** Waiters *)

(** [static_cast<int>] of a 64-bit value. *)
Definition to_int32 (z : Z) : Z := (z + 2 ^ 31) mod 2 ^ 32 - 2 ^ 31.

(** [notify_on_new_log(expected_last_log_index, wm)]; the wait id returned. *)
Definition lm_notify_on_new_log m (expected_last_log_index : Z) (wm : Z) : LogManager S * Z :=
  if decide (expected_last_log_index ≠ lm_last_log_index m ∨ lm_stopped m = true) then
    (emit m [EvNewLog wm (if lm_stopped m then ESTOP else 0)], 0)
  else
    let next := if decide (lm_next_wait_id m = 0) then 1 else lm_next_wait_id m in
    let wait_id := to_int32 next in
    (with_waiters m (map_set wait_id wm (lm_wait_map m)) (next + 1), wait_id).

Definition lm_remove_waiter m (wait_id : Z) : LogManager S * Z :=
  match map_get wait_id (lm_wait_map m) with
  | Some _ => (with_waiters m (map_erase wait_id (lm_wait_map m)) (lm_next_wait_id m), 0)
  | None => (m, -1)
  end.

Definition lm_wakeup_all_waiter m : LogManager S :=
  let error_code := if lm_stopped m then ESTOP else 0 in
  emit (with_waiters m [] (lm_next_wait_id m))
    ((λ w, EvNewLog w.2 error_code) <$> lm_wait_map m).

Definition lm_shutdown m : LogManager S := lm_wakeup_all_waiter (with_stopped m true).

(** ** Memory *)

(** One round of [clear_memory_logs]: at most [n] entries leave the front. *)
Fixpoint clear_round (n : nat) (cid : LogId) (l : list LogEntry) : list LogEntry * nat :=
  match n with
  | O => (l, 0%nat)
  | Datatypes.S n' =>
      match l with
      | [] => ([], 0%nat)
      | e :: l' =>
          if decide (logid_gt (id e) cid) then (l, 0%nat)
          else let '(l'', k) := clear_round n' cid l' in (l'', Datatypes.S k)
      end
  end.

(** The do-while over rounds of 256; each round but the last takes 256 entries,
    so the length bounds their number. *)
Fixpoint clear_rounds (fuel : nat) (cid : LogId) (l : list LogEntry) : list LogEntry :=
  match fuel with
  | O => l
  | Datatypes.S fuel' =>
      let '(l', nentries) := clear_round 256 cid l in
      if decide (nentries = 256%nat) then clear_rounds fuel' cid l' else l'
  end.

Definition lm_clear_memory_logs m (cid : LogId) : LogManager S :=
  with_memory m (clear_rounds (Datatypes.S (length (lm_logs_in_memory m))) cid (lm_logs_in_memory m)).

Definition lm_set_disk_id m (disk_id : LogId) : LogManager S :=
  if decide (logid_lt disk_id (lm_disk_id m)) then m
  else lm_clear_memory_logs (with_ids m disk_id (lm_applied_id m)) (logid_min disk_id (lm_applied_id m)).

Definition lm_set_applied_id m (applied_id : LogId) : LogManager S :=
  if decide (logid_lt applied_id (lm_applied_id m)) then m
  else lm_clear_memory_logs (with_ids m (lm_disk_id m) applied_id) (logid_min (lm_disk_id m) applied_id).

(** ** Truncation *)

Fixpoint mem_pop_front (first_index_kept : Z) (l : list LogEntry) : list LogEntry :=
  match l with
  | [] => []
  | e :: l' => if decide (index (id e) < first_index_kept) then mem_pop_front first_index_kept l' else l
  end.

Definition lm_truncate_prefix m (first_index_kept : Z) : option (LogManager S) :=
  let m1 := with_memory m (mem_pop_front first_index_kept (lm_logs_in_memory m)) in
  CHECK (lm_first_log_index m ≤ first_index_kept);;
  let m2 := with_range m1 first_index_kept
              (if decide (lm_last_log_index m < first_index_kept) then first_index_kept - 1
               else lm_last_log_index m) in
  let m3 := with_config m2 (cm_truncate_prefix (lm_config_manager m2) first_index_kept) in
  Some (execute m3 (TaskTruncatePrefix first_index_kept)).

Definition lm_reset m (next_log_index : Z) : LogManager S :=
  let m1 := with_range (with_memory m []) next_log_index (next_log_index - 1) in
  let m2 := with_config m1 (cm_truncate_suffix
              (cm_truncate_prefix (lm_config_manager m1) next_log_index) (next_log_index - 1)) in
  execute m2 (TaskReset next_log_index).

(** The pop loop of [unsafe_truncate_suffix], on the reversed deque. *)
Fixpoint mem_pop_back (last_index_kept : Z) (rl : list LogEntry) : list LogEntry :=
  match rl with
  | [] => []
  | e :: rl' => if decide (last_index_kept < index (id e)) then mem_pop_back last_index_kept rl' else rl
  end.

Definition lm_unsafe_truncate_suffix m (last_index_kept : Z) : option (LogManager S) :=
  CHECK (¬ (last_index_kept < index (lm_applied_id m)));;
  let m1 := with_memory m (reverse (mem_pop_back last_index_kept (reverse (lm_logs_in_memory m)))) in
  let m2 := with_range m1 (lm_first_log_index m) last_index_kept in
  last_term_kept ← lm_unsafe_get_term m2 last_index_kept;
  CHECK (last_index_kept = 0 ∨ last_term_kept ≠ 0);;
  let m3 := with_config m2 (cm_truncate_suffix (lm_config_manager m2) last_index_kept) in
  Some (execute m3 (TaskTruncateSuffix last_index_kept last_term_kept)).

(** ** Appending *)

Definition set_index (e : LogEntry) (i : Z) : LogEntry :=
  mkLogEntry (type e) (mkLogId i (term (id e))) (peers e) (old_peers e) (data e).

(** [entries[i]->id.index = ++_last_log_index] for every entry. *)
Fixpoint assign_indexes (last : Z) (entries : list LogEntry) : list LogEntry :=
  match entries with
  | [] => []
  | e :: es => set_index e (last + 1) :: assign_indexes (last + 1) es
  end.

(** How many leading entries the local log already has with the same term. *)
Fixpoint conflicting_index m (entries : list LogEntry) : option nat :=
  match entries with
  | [] => Some 0%nat
  | e :: es =>
      t ← lm_unsafe_get_term m (index (id e));
      if decide (t ≠ term (id e)) then Some 0%nat
      else Datatypes.S <$> conflicting_index m es
  end.

(** [check_and_resolve_conflict(entries, done)] on a non-empty vector: the
    entries left, the return value and the error set in [done]. *)
Definition lm_check_and_resolve_conflict m (entries : list LogEntry)
  : option (LogManager S * list LogEntry * Z * Z) :=
  match entries, last entries with
  | front :: _, Some back =>
      if decide (index (id front) = 0) then
        Some (with_range m (lm_first_log_index m) (lm_last_log_index m + zlen entries),
              assign_indexes (lm_last_log_index m) entries, 0, 0)
      else if decide (lm_last_log_index m + 1 < index (id front)) then Some (m, entries, -1, EINVAL)
      else if decide (index (id back) ≤ index (lm_applied_id m)) then Some (m, entries, 1, 0)
      else if decide (index (id front) = lm_last_log_index m + 1) then
        Some (with_range m (lm_first_log_index m) (index (id back)), entries, 0, 0)
      else
        c ← conflicting_index m entries;
        m' ← match entries !! c with
             | Some e =>
                 m1 ← (if decide (index (id e) ≤ lm_last_log_index m)
                       then lm_unsafe_truncate_suffix m (index (id e) - 1) else Some m);
                 Some (with_range m1 (lm_first_log_index m1) (index (id back)))
             | None => Some m
             end;
        Some (m', drop c entries, 0, 0)
  | _, _ => None
  end.

(** The configuration entries of an append enter the history. *)
Fixpoint add_configurations (cm : ConfigurationManager) (entries : list LogEntry)
  : option ConfigurationManager :=
  match entries with
  | [] => Some cm
  | e :: es =>
      if decide (type e = ENTRY_TYPE_CONFIGURATION) then
        ce ← ce_of_entry e;
        cm' ← cm_add cm ce;
        add_configurations cm' es
      else add_configurations cm es
  end.

(** [append_entries] after the conflicts are resolved. *)
Definition lm_append_resolved m (entries : list LogEntry) (done : Closure) : option (LogManager S) :=
  cm ← add_configurations (lm_config_manager m) entries;
  let m1 := with_memory (with_config m cm) (lm_logs_in_memory m ++ entries) in
  let first_log_index := from_option (λ e, index (id e)) 0 (head entries) in
  Some (lm_wakeup_all_waiter (execute m1 (TaskAppend done first_log_index entries))).

Definition lm_append_entries m (entries : list LogEntry) (done : Closure) : option (LogManager S) :=
  if lm_has_error m then Some (emit m [EvRun done EIO])
  else if decide (entries = []) then lm_append_resolved m [] done
  else
    '(m1, entries1, ret, err) ← lm_check_and_resolve_conflict m entries;
    if decide (ret ≠ 0) then Some (emit m1 [EvRun done err])
    else lm_append_resolved m1 entries1 done.

(** ** The disk thread *)

(** [append_to_storage(to_append, &last_id)]. *)
Definition lm_append_to_storage m (to_append : list LogEntry) (last_id : LogId)
  : option (LogManager S * LogId) :=
  if lm_has_error m then Some (m, last_id)
  else
    '(s, nappent) ← ls_append_entries (lm_log_storage m) to_append;
    let m1 := with_storage m s in
    let m2 := if decide (nappent ≠ zlen to_append) then lm_report_error m1 EIO else m1 in
    if decide (0 < nappent) then
      e ← zlookup to_append (nappent - 1);
      Some (m2, id e)
    else Some (m2, last_id).

(** [AppendBatcher::flush]. *)
Definition ab_flush m (last_id : LogId) (ab : AppendBatcher)
  : option (LogManager S * LogId * AppendBatcher) :=
  if decide (ab_storage ab = []) then Some (m, last_id, mkAppendBatcher [] 0 (ab_to_append ab))
  else
    '(m1, last_id1) ← lm_append_to_storage m (ab_to_append ab) last_id;
    let error_code := if lm_has_error m1 then EIO else 0 in
    Some (emit m1 ((λ c, EvRun c error_code) <$> ab_storage ab), last_id1, ab_new).

Definition data_size (entries : list LogEntry) : Z :=
  foldr (λ e z, zlen (data e) + z) 0 entries.

(** [AppendBatcher::append]. *)
Definition ab_append m (last_id : LogId) (ab : AppendBatcher) (done : Closure)
    (entries : list LogEntry) : option (LogManager S * LogId * AppendBatcher) :=
  '(m1, last_id1, ab1) ←
    (if decide (zlen (ab_storage ab) = ab_cap ∨ raft_max_append_buffer_size ≤ ab_buffer_size ab)
     then ab_flush m last_id ab else Some (m, last_id, ab));
  Some (m1, last_id1,
        mkAppendBatcher (ab_storage ab1 ++ [done]) (ab_buffer_size ab1 + data_size entries)
          (ab_to_append ab1 ++ entries)).

(** The operations of the closures without entries: the manager, [last_id],
    the code [ret] and the event of running the closure.  The three truncation
    closures only delete themselves. *)
Definition disk_operation m (last_id : LogId) (t : DiskTask)
  : option (LogManager S * LogId * Z * list LmEvent) :=
  match t with
  | TaskAppend done _ _ => Some (m, last_id, 0, [EvRun done 0])
  | TaskLastLogId done =>
      CHECK (index last_id = 0 ∨ term last_id ≠ 0);;
      Some (m, last_id, 0, [EvLastLogId done last_id])
  | TaskTruncatePrefix k =>
      '(s, ret) ← ls_truncate_prefix (lm_log_storage m) k;
      Some (with_storage m s, last_id, ret, [])
  | TaskTruncateSuffix k t =>
      '(s, ret) ← ls_truncate_suffix (lm_log_storage m) k;
      if decide (ret = 0) then
        CHECK (k = 0 ∨ t ≠ 0);;
        Some (with_storage m s, mkLogId k t, ret, [])
      else Some (with_storage m s, last_id, ret, [])
  | TaskReset n =>
      '(s, ret) ← ls_reset (lm_log_storage m) n;
      Some (with_storage m s, last_id, ret, [])
  end.

(** One iteration of the loop of [disk_thread]. *)
Definition disk_iteration m (last_id : LogId) (ab : AppendBatcher) (t : DiskTask)
  : option (LogManager S * LogId * AppendBatcher) :=
  match t with
  | TaskAppend done _ (e :: es) => ab_append m last_id ab done (e :: es)
  | _ =>
      '(m1, last_id1, ab1) ← ab_flush m last_id ab;
      '(m2, last_id2, ret, evs) ← disk_operation m1 last_id1 t;
      let m3 := if decide (ret ≠ 0) then lm_report_error m2 ret else m2 in
      Some (emit m3 evs, last_id2, ab1)
  end.

(** The disk thread starts on a batch, takes the next closure of the queue, and
    ends when the batch is exhausted. *)
Definition disk_start m : option (LogManager S) :=
  match lm_thread m with
  | None => Some (with_thread m (Some (lm_disk_id m, ab_new)))
  | Some _ => None
  end.

Definition disk_step m : option (LogManager S) :=
  match lm_thread m, lm_disk_queue m with
  | Some (last_id, ab), t :: q =>
      '(m1, last_id1, ab1) ← disk_iteration (with_queue m q) last_id ab t;
      Some (with_thread m1 (Some (last_id1, ab1)))
  | _, _ => None
  end.

Definition disk_end m : option (LogManager S) :=
  match lm_thread m with
  | Some (last_id, ab) =>
      '(m1, last_id1, _) ← ab_flush m last_id ab;
      Some (lm_set_disk_id (with_thread m1 None) last_id1)
  | None => None
  end.

Fixpoint disk_steps (n : nat) m : option (LogManager S) :=
  match n with O => Some m | Datatypes.S n' => m' ← disk_step m; disk_steps n' m' end.

(** [disk_thread] on a batch of [n] closures that runs undisturbed. *)
Definition disk_thread (n : nat) m : option (LogManager S) :=
  m1 ← disk_start m; m2 ← disk_steps n m1; disk_end m2.

(** ** Snapshots *)

Definition lm_set_snapshot m (meta : SnapshotMeta) : option (LogManager S) :=
  if decide (sm_last_included_index meta ≤ index (lm_last_snapshot_id m)) then Some m
  else
    let conf := foldl (λ c p, (add_peer c p).1) conf_new (sm_peers meta) in
    let old_conf := foldl (λ c p, (add_peer c p).1) conf_new (sm_old_peers meta) in
    let sid := mkLogId (sm_last_included_index meta) (sm_last_included_term meta) in
    cm ← cm_set_snapshot (lm_config_manager m) (mkConfigurationEntry sid conf old_conf);
    let m1 := with_config m cm in
    t ← lm_unsafe_get_term m1 (sm_last_included_index meta);
    let last_but_one := lm_last_snapshot_id m in
    let m2 := with_snapshot m1 sid (lm_virtual_first_log_id m1) in
    let m3 := if decide (logid_gt sid (lm_applied_id m2)) then with_ids m2 (lm_disk_id m2) sid else m2 in
    if decide (t = 0) then
      lm_truncate_prefix (with_snapshot m3 sid sid) (sm_last_included_index meta + 1)
    else if decide (t = sm_last_included_term meta) then
      if decide (0 < index last_but_one) then
        lm_truncate_prefix (with_snapshot m3 sid last_but_one) (index last_but_one + 1)
      else Some m3
    else Some (lm_reset (with_snapshot m3 sid sid) (sm_last_included_index meta + 1)).

Definition lm_clear_bufferred_logs m : option (LogManager S) :=
  if decide (index (lm_last_snapshot_id m) ≠ 0) then
    lm_truncate_prefix (with_snapshot m (lm_last_snapshot_id m) (lm_last_snapshot_id m))
      (index (lm_last_snapshot_id m) + 1)
  else Some m.

End log_manager.
