(* ===== verification/LogManagerSpec.v ===== *)
(** * Correctness of the log manager

    The log a [LogManager] stands for is its storage's log with every operation
    still queued for the disk thread applied to it.  The invariant ties the
    manager's indexes, its entries in memory and its configuration history to
    that log, and says which entries may be read from the storage. *)

From stdpp Require Import prelude sorting.
From S2P Require Import Prelude StdContainers Configuration ConfigurationManager ClosureQueue LogStorage.
From S2P Require Import MemoryLog LogManager.
Local Open Scope Z_scope.

(** ** Pending effects *)

Inductive Effect :=
  | EffAppend (es : list LogEntry)
  | EffTruncatePrefix (k : Z)
  | EffTruncateSuffix (k : Z)
  | EffReset (n : Z).

Definition task_effects (t : DiskTask) : list Effect :=
  match t with
  | TaskAppend _ _ es => [EffAppend es]
  | TaskLastLogId _ => []
  | TaskTruncatePrefix k => [EffTruncatePrefix k]
  | TaskTruncateSuffix k _ => [EffTruncateSuffix k]
  | TaskReset n => [EffReset n]
  end.

(** An effect on a log it is meant for. *)
Definition apply_effect (l : Log) (f : Effect) : option Log :=
  match f with
  | EffAppend es =>
      if decide (contiguous (log_last l + 1) es) then Some (log_append l es) else None
  | EffTruncatePrefix k => if decide (lfirst l ≤ k) then Some (log_truncate_prefix l k) else None
  | EffTruncateSuffix k =>
      if decide (lfirst l - 1 ≤ k < log_last l) then Some (log_truncate_suffix l k) else None
  | EffReset n => if decide (0 < n) then Some (log_reset n) else None
  end.

Fixpoint replay (l : Log) (fs : list Effect) : option Log :=
  match fs with [] => Some l | f :: fs' => l' ← apply_effect l f; replay l' fs' end.

(** The entry is at the index now and after each of the effects. *)
Fixpoint always (l : Log) (fs : list Effect) (i : Z) (e : LogEntry) : Prop :=
  log_get l i = Some e ∧
  match fs with
  | [] => True
  | f :: fs' => ∀ l', apply_effect l f = Some l' → always l' fs' i e
  end.

Lemma apply_effect_wf l f l' : log_wf l → apply_effect l f = Some l' → log_wf l'.
Proof.
  intros Hw. destruct f as [es|k|k|n]; cbn; case_decide; intros [= <-].
  - by apply log_append_wf.
  - by apply log_truncate_prefix_wf.
  - by apply log_truncate_suffix_wf.
  - apply contiguous_nil.
Qed.

Lemma replay_app l fs gs : replay l (fs ++ gs) = l' ← replay l fs; replay l' gs.
Proof.
  revert l. induction fs as [|f fs IH]; intros l; [done|]. cbn.
  destruct (apply_effect l f); cbn; [apply IH|done].
Qed.

Lemma replay_wf l fs l' : log_wf l → replay l fs = Some l' → log_wf l'.
Proof.
  revert l. induction fs as [|f fs IH]; intros l Hw; cbn; [by intros [= <-]|].
  intros (l1 & H1 & H2)%bind_Some. eauto using apply_effect_wf.
Qed.

Lemma always_get l fs i e : always l fs i e → log_get l i = Some e.
Proof. destruct fs; cbn; tauto. Qed.

Lemma always_end l fs L i e : always l fs i e → replay l fs = Some L → log_get L i = Some e.
Proof.
  revert l. induction fs as [|f fs IH]; intros l; cbn; [intros [? _] [= <-]; done|].
  intros [_ Hf] (l1 & H1 & H2)%bind_Some. eauto.
Qed.

Lemma always_snoc l fs g i e :
  always l fs i e → (∀ L', replay l (fs ++ [g]) = Some L' → log_get L' i = Some e) →
  always l (fs ++ [g]) i e.
Proof.
  revert l. induction fs as [|f fs IH]; intros l; cbn.
  - intros [Hg _] HL. split; [done|]. intros l' Hl'. split; [|done]. apply HL. by rewrite Hl'.
  - intros [Hg Hf] HL. split; [done|]. intros l' Hl'. apply IH; [auto|].
    intros L' HL'. apply HL. by rewrite Hl'.
Qed.

(** Two appends in a row are one. *)
Lemma apply_append_app l es gs :
  apply_effect l (EffAppend (es ++ gs)) =
  l' ← apply_effect l (EffAppend es); apply_effect l' (EffAppend gs).
Proof.
  cbn. destruct (decide (contiguous (log_last l + 1) es)) as [He|He]; cbn.
  - rewrite log_append_last, log_append_app.
    replace (log_last l + zlen es + 1) with (log_last l + 1 + zlen es) by lia.
    repeat case_decide; rewrite contiguous_app in *; tauto.
  - rewrite decide_False; [done|]. by intros [? _]%contiguous_app.
Qed.

Lemma replay_append_app l es gs fs :
  replay l (EffAppend (es ++ gs) :: fs) = replay l (EffAppend es :: EffAppend gs :: fs).
Proof.
  cbn [replay]. rewrite apply_append_app. by destruct (apply_effect l (EffAppend es)).
Qed.

Lemma always_append_app l es gs fs i e :
  always l (EffAppend es :: EffAppend gs :: fs) i e → always l (EffAppend (es ++ gs) :: fs) i e.
Proof.
  cbn [always]. intros [Hg Hf]. split; [done|]. intros l'. rewrite apply_append_app.
  intros (l1 & H1 & H2)%bind_Some. destruct (Hf l1 H1) as [_ Hf']. by apply Hf'.
Qed.

Lemma apply_append_nil l : apply_effect l (EffAppend []) = Some l.
Proof. cbn. rewrite decide_True by apply contiguous_nil. by rewrite log_append_nil. Qed.

Lemma always_append_nil l fs i e : always l fs i e → always l (EffAppend [] :: fs) i e.
Proof.
  intros Ha. split; [by eapply always_get|]. intros l'. rewrite apply_append_nil. by intros [= <-].
Qed.

(** ** The configuration entries of a log *)

Definition entry_conf (e : LogEntry) : option ConfigurationEntry :=
  if decide (type e = ENTRY_TYPE_CONFIGURATION) then ce_of_entry e else None.

(** A configuration entry carries peers. *)
Definition entry_ok (e : LogEntry) : Prop :=
  term (id e) ≠ 0 ∧ (type e = ENTRY_TYPE_CONFIGURATION → peers e ≠ None).

Lemma entry_conf_index e ce : entry_conf e = Some ce → ce_index ce = index (id e).
Proof.
  unfold entry_conf, ce_of_entry. case_decide; [|done]. destruct (peers e); [|done].
  by intros [= <-].
Qed.

Lemma omap_conf_index_ge i es ce : contiguous i es → ce ∈ omap entry_conf es → i ≤ ce_index ce < i + zlen es.
Proof.
  intros Hc (e & He & Hce)%list_elem_of_omap. apply entry_conf_index in Hce. rewrite Hce.
  apply list_elem_of_lookup in He as [k Hk]. pose proof (lookup_lt_Some _ _ _ Hk).
  apply Hc in Hk. unfold zlen. lia.
Qed.

Lemma omap_conf_sorted i es : contiguous i es → entries_sorted (omap entry_conf es).
Proof.
  revert i. induction es as [|e es IH]; intros i; [constructor|].
  intros [He Hes]%contiguous_cons. cbn. destruct (entry_conf e) as [ce|] eqn:Ec; [|by eapply IH].
  constructor; [by eapply IH|]. apply Forall_forall. intros ce' Hce'.
  apply entry_conf_index in Ec. eapply omap_conf_index_ge in Hce'; [|done]. lia.
Qed.

Lemma omap_app_list {A B} (f : A → option B) (l k : list A) : omap f (l ++ k) = omap f l ++ omap f k.
Proof. induction l as [|x l IH]; cbn; [done|]. destruct (f x); cbn; by rewrite IH. Qed.

(** Adding the configuration entries of an append extends the history by
    them. *)
Lemma add_configurations_spec snap i es fs :
  contiguous i (es ++ fs) → Forall entry_ok fs →
  add_configurations (mkCM (omap entry_conf es) snap) fs =
  Some (mkCM (omap entry_conf (es ++ fs)) snap).
Proof.
  revert es. induction fs as [|f fs IH]; intros es Hc Hok; [by rewrite app_nil_r|].
  cbn [add_configurations]. apply Forall_cons in Hok as [Hf Hok].
  assert (contiguous i ((es ++ [f]) ++ fs)) as Hc' by by rewrite <-app_assoc.
  specialize (IH _ Hc' Hok). rewrite <-app_assoc in IH. cbn in IH.
  rewrite omap_app_list in IH. cbn in IH. unfold entry_conf in IH at 2. case_decide as Ht.
  - unfold ce_of_entry in *. destruct (peers f) as [ps|] eqn:Ep; [|by destruct Hf as [_ []]].
    cbn [mbind option_bind]. unfold cm_add. cbn [_configurations _snapshot].
    destruct (last (omap entry_conf es)) as [b|] eqn:Eb; [|exact IH].
    rewrite CHECK_true; [exact IH|]. apply contiguous_app in Hc as [Hes Hff].
    apply last_Some in Eb as [k Hk].
    assert (b ∈ omap entry_conf es) as Hb by (rewrite Hk; set_solver).
    eapply omap_conf_index_ge in Hb; [|done].
    apply contiguous_cons in Hff as [Hi _]. unfold ce_index at 1. cbn. lia.
  - rewrite app_nil_r in IH. exact IH.
Qed.

(** ** The invariant *)

Definition id_ok (i : LogId) : Prop := index i = 0 ∨ term i ≠ 0.

Definition task_ok (t : DiskTask) : Prop :=
  match t with
  | TaskAppend _ _ es => Forall entry_ok es
  | TaskTruncateSuffix k t => id_ok (mkLogId k t)
  | _ => True
  end.

(** The batcher holds entries only with a closure to run for them. *)
Definition thread_ok (t : option (LogId * AppendBatcher)) : Prop :=
  match t with
  | None => True
  | Some (last_id, ab) =>
      id_ok last_id ∧ Forall entry_ok (ab_to_append ab) ∧
      (ab_storage ab = [] → ab_to_append ab = [])
  end.

Section invariant.
Context {St : Type} `{LogStorageLaws St}.
Implicit Types (m : LogManager St) (l L : Log).

Definition queued (q : list DiskTask) : list Effect := q ≫= task_effects.

Definition batched (t : option (LogId * AppendBatcher)) : list Effect :=
  match t with Some (_, ab) => [EffAppend (ab_to_append ab)] | None => [] end.

Definition pending m : list Effect := batched (lm_thread m) ++ queued (lm_disk_queue m).

(** [l] is the storage's log and [L] the log the manager stands for. *)
Record lm_inv m l L : Prop := {
  inv_ok : lm_has_error m = false;
  inv_rep : ls_rep (lm_log_storage m) l;
  inv_replay : replay l (pending m) = Some L;
  inv_first : lm_first_log_index m = lfirst L;
  inv_last : lm_last_log_index m = log_last L;
  inv_pos : 1 ≤ lfirst L;
  inv_mem : ∃ n, (n ≤ length (lents L))%nat ∧ lm_logs_in_memory m = drop n (lents L);
  inv_read i e : log_get L i = Some e → i ≤ log_last L - zlen (lm_logs_in_memory m) →
    always l (pending m) i e;
  inv_conf : _configurations (lm_config_manager m) = omap entry_conf (lents L);
  inv_entries : Forall entry_ok (lents L);
  inv_queue : Forall task_ok (lm_disk_queue m);
  inv_thread : thread_ok (lm_thread m);
  inv_disk : id_ok (lm_disk_id m);
  inv_virtual : index (lm_virtual_first_log_id m) < lfirst L;
  inv_snap : index (lm_last_snapshot_id m) ≤ log_last L ∧
    ∀ e, log_get L (index (lm_last_snapshot_id m)) = Some e →
         term (id e) = term (lm_last_snapshot_id m);
  inv_applied : index (lm_last_snapshot_id m) ≤ index (lm_applied_id m);
}.

Lemma inv_wf m l L : lm_inv m l L → log_wf L.
Proof. intros Hi. eapply replay_wf; [|apply Hi]. eapply ls_rep_wf, Hi. Qed.

(** A new manager on a storage that is empty at 1 or not empty. *)
Lemma lm_init_inv s l cm :
  ls_rep s l → 1 ≤ lfirst l → Forall entry_ok (lents l) → (lents l = [] → lfirst l = 1) →
  _configurations cm = omap entry_conf (lents l) →
  ∃ m, lm_init s cm = Some m ∧ lm_inv m l l.
Proof.
  intros Hr Hp Hok Hne Hcm. unfold lm_init. rewrite (ls_rep_get_term _ _ _ Hr). cbn.
  eexists. split; [done|]. split; cbn; try done.
  - by apply ls_rep_first.
  - by apply ls_rep_last.
  - exists (length (lents l)). split; [lia|]. by rewrite drop_all.
  - unfold id_ok. cbn. rewrite (ls_rep_last _ _ Hr).
    destruct (lents l) as [|e es] eqn:El.
    + left. unfold log_last. rewrite El, Hne by done. done.
    + right. destruct (log_get_in_range l (log_last l)) as [e' He'].
      { unfold log_last. rewrite El, zlen_cons. pose proof (zlen_nonneg es). lia. }
      unfold log_term. rewrite He'. cbn. rewrite <-El in Hok. rewrite Forall_forall in Hok.
      apply Hok. unfold log_get in He'. by eapply zlookup_elem.
  - lia.
  - split; [unfold log_last; pose proof (zlen_nonneg (lents l)); lia|].
    intros e He%log_get_Some_range. lia.
Qed.

(** ** Reading *)

Lemma mem_lookup_log m L i :
  log_wf L →
  (∃ n, (n ≤ length (lents L))%nat ∧ lm_logs_in_memory m = drop n (lents L)) →
  lm_get_entry_from_memory m i =
  Some (if decide (log_last L - zlen (lm_logs_in_memory m) < i) then log_get L i else None).
Proof.
  intros Hw (n & Hn & Hm).
  unfold lm_get_entry_from_memory. rewrite Hm.
  assert (zlen (drop n (lents L)) = zlen (lents L) - Z.of_nat n) as Hlen
    by (rewrite zlen_drop; unfold zlen; lia).
  assert (contiguous (lfirst L + Z.of_nat n) (drop n (lents L))) as Hc by by apply contiguous_drop.
  rewrite Hlen. unfold log_last.
  destruct (drop n (lents L)) as [|front rest] eqn:Ed.
  { case_decide; [|done]. rewrite log_get_out; [done|]. unfold log_last.
    change (zlen ([] : list LogEntry)) with 0 in Hlen. lia. }
  destruct (last (front :: rest)) as [back|] eqn:Eb; [|by apply last_None in Eb].
  assert (index (id front) = lfirst L + Z.of_nat n) as Hf by by apply contiguous_cons in Hc as [? _].
  assert (index (id back) = lfirst L + zlen (lents L) - 1) as Hb.
  { rewrite last_lookup in Eb. apply Hc in Eb. rewrite Eb. unfold zlen in *. cbn [pred length] in *. lia. }
  rewrite Hf, Hb. rewrite CHECK_true by lia. cbn [mbind option_bind].
  destruct (decide (_ ∧ _)) as [Hr|Hr].
  - rewrite decide_True by lia. unfold log_get. rewrite <-Ed. rewrite zlookup_drop by lia.
    do 2 f_equal. lia.
  - case_decide; [|done]. rewrite log_get_out; [done|]. unfold log_last. lia.
Qed.

Lemma mem_lookup m l L i :
  lm_inv m l L →
  lm_get_entry_from_memory m i =
  Some (if decide (log_last L - zlen (lm_logs_in_memory m) < i) then log_get L i else None).
Proof. intros Hi. apply mem_lookup_log; [by eapply inv_wf|apply Hi]. Qed.

(** Inside the log, terms and entries read are those of the log. *)
Lemma unsafe_get_term_in m l L i :
  lm_inv m l L → lfirst L ≤ i ≤ log_last L → lm_unsafe_get_term m i = Some (log_term L i).
Proof.
  intros Hi Hr. destruct (log_get_in_range L i Hr) as [e He]. unfold lm_unsafe_get_term, log_term.
  rewrite He. pose proof (inv_pos _ _ _ Hi). pose proof (inv_virtual _ _ _ Hi).
  rewrite decide_False by lia. rewrite decide_False by lia. case_decide as Hs.
  { subst i. destruct (inv_snap _ _ _ Hi) as [_ Hsn]. by rewrite <-(Hsn e He). }
  rewrite (inv_first _ _ _ Hi), (inv_last _ _ _ Hi). rewrite decide_False by lia.
  rewrite (mem_lookup _ _ _ _ Hi). cbn [mbind option_bind]. case_decide as Hm.
  - by rewrite He.
  - rewrite (ls_rep_get_term _ _ _ (inv_rep _ _ _ Hi)). unfold log_term.
    pose proof (inv_read _ _ _ Hi i e He) as Ha. by rewrite (always_get _ _ _ _ (Ha ltac:(lia))).
Qed.

(** Past the end there is no term. *)
Lemma unsafe_get_term_past m l L i :
  lm_inv m l L → log_last L < i → lm_unsafe_get_term m i = Some 0.
Proof.
  intros Hi Hr. unfold lm_unsafe_get_term. pose proof (inv_pos _ _ _ Hi).
  pose proof (inv_virtual _ _ _ Hi). destruct (inv_snap _ _ _ Hi) as [Hs _].
  assert (lfirst L - 1 ≤ log_last L) by (unfold log_last; pose proof (zlen_nonneg (lents L)); lia).
  rewrite decide_False by lia. rewrite decide_False by lia. rewrite decide_False by lia.
  rewrite (inv_first _ _ _ Hi), (inv_last _ _ _ Hi). by rewrite decide_True by lia.
Qed.

Lemma get_entry_in m l L i e :
  lm_inv m l L → log_get L i = Some e → lm_get_entry m i = Some (m, Some e).
Proof.
  intros Hi He. pose proof (log_get_Some_range _ _ _ He). unfold lm_get_entry.
  rewrite (inv_first _ _ _ Hi), (inv_last _ _ _ Hi). rewrite decide_False by lia.
  rewrite (mem_lookup _ _ _ _ Hi). cbn [mbind option_bind]. case_decide as Hm; [by rewrite He|].
  rewrite (ls_rep_get_entry _ _ _ (inv_rep _ _ _ Hi)). cbn [mbind option_bind].
  pose proof (inv_read _ _ _ Hi i e He) as Ha. by rewrite (always_get _ _ _ _ (Ha ltac:(lia))).
Qed.

Lemma get_entry_out m l L i :
  lm_inv m l L → log_get L i = None → lm_get_entry m i = Some (m, None).
Proof.
  intros Hi He. unfold lm_get_entry. rewrite (inv_first _ _ _ Hi), (inv_last _ _ _ Hi).
  rewrite decide_True; [done|]. destruct (decide (lfirst L ≤ i ≤ log_last L)) as [Hr|Hr]; [|lia].
  apply log_get_in_range in Hr as [e ?]. congruence.
Qed.

(** ** Queueing an operation *)

Lemma pending_snoc m m' t :
  lm_thread m' = lm_thread m → lm_disk_queue m' = lm_disk_queue m ++ [t] →
  pending m' = pending m ++ task_effects t.
Proof.
  intros Ht Hq. unfold pending, queued. rewrite Ht, Hq, bind_app. cbn.
  by rewrite app_nil_r, app_assoc.
Qed.

(** What every operation that queues a task has to show. *)
Lemma inv_enqueue m l L m' t g L' :
  lm_inv m l L →
  lm_has_error m' = false → lm_log_storage m' = lm_log_storage m →
  lm_thread m' = lm_thread m → lm_disk_id m' = lm_disk_id m →
  lm_disk_queue m' = lm_disk_queue m ++ [t] → task_effects t = [g] → task_ok t →
  apply_effect L g = Some L' →
  lm_first_log_index m' = lfirst L' → lm_last_log_index m' = log_last L' → 1 ≤ lfirst L' →
  (∃ n, (n ≤ length (lents L'))%nat ∧ lm_logs_in_memory m' = drop n (lents L')) →
  (∀ i e, log_get L' i = Some e → i ≤ log_last L' - zlen (lm_logs_in_memory m') →
     log_get L i = Some e ∧ i ≤ log_last L - zlen (lm_logs_in_memory m)) →
  _configurations (lm_config_manager m') = omap entry_conf (lents L') →
  Forall entry_ok (lents L') →
  index (lm_virtual_first_log_id m') < lfirst L' →
  (index (lm_last_snapshot_id m') ≤ log_last L' ∧
   ∀ e, log_get L' (index (lm_last_snapshot_id m')) = Some e →
        term (id e) = term (lm_last_snapshot_id m')) →
  index (lm_last_snapshot_id m') ≤ index (lm_applied_id m') →
  lm_inv m' l L'.
Proof.
  intros Hi He Hs Ht Hd Hq Htg Hto Hg Hf Hl Hp Hm Hrd Hc Hen Hv Hsn Ha.
  assert (replay l (pending m') = Some L') as Hrep.
  { rewrite (pending_snoc m m' t Ht Hq), Htg, replay_app, (inv_replay _ _ _ Hi). cbn. by rewrite Hg. }
  split; try done.
  - rewrite Hs. apply Hi.
  - intros i e Hie Hle. destruct (Hrd i e Hie Hle) as [Hie' Hle'].
    rewrite (pending_snoc m m' t Ht Hq), Htg in *. apply always_snoc; [by eapply inv_read|].
    intros L'' HL''. rewrite Hrep in HL''. by injection HL'' as <-.
  - rewrite Hq. apply Forall_app. split; [apply Hi|by constructor].
  - rewrite Ht. apply Hi.
  - rewrite Hd. apply Hi.
Qed.

(** The entries in memory end the log. *)
Lemma mem_split m l L :
  lm_inv m l L → ∃ pre, lents L = pre ++ lm_logs_in_memory m ∧
    zlen pre = log_last L - zlen (lm_logs_in_memory m) - lfirst L + 1.
Proof.
  intros Hi. destruct (inv_mem _ _ _ Hi) as (n & Hn & Hm). exists (take n (lents L)).
  rewrite Hm, take_drop. split; [done|]. rewrite zlen_take, zlen_drop. unfold log_last, zlen. lia.
Qed.

Lemma drop_app_mem (pre mem : list LogEntry) k :
  ∃ n, (n ≤ length (pre ++ mem))%nat ∧ drop k mem = drop n (pre ++ mem).
Proof.
  exists (length pre + (k `min` length mem))%nat. rewrite length_app. split; [lia|].
  rewrite drop_app_ge by lia. replace (length pre + k `min` length mem - length pre)%nat
    with (k `min` length mem)%nat by lia.
  destruct (decide (k ≤ length mem)%nat); [by rewrite Nat.min_l by lia|].
  rewrite Nat.min_r by lia. rewrite !drop_ge by lia. done.
Qed.

(** Entries that continue the log are appended. *)
Lemma append_resolved_inv m l L es done :
  lm_inv m l L → es ≠ [] → contiguous (log_last L + 1) es → Forall entry_ok es →
  ∃ m', lm_append_resolved (with_range m (lm_first_log_index m) (log_last L + zlen es)) es done = Some m' ∧
    lm_inv m' l (log_append L es) ∧
    lm_disk_queue m' = lm_disk_queue m ++ [TaskAppend done (log_last L + 1) es] ∧
    lm_thread m' = lm_thread m ∧
    lm_wait_map m' = [] ∧
    lm_out m' = lm_out m ++ ((λ w, EvNewLog w.2 (if lm_stopped m then ESTOP else 0)) <$> lm_wait_map m).
Proof.
  intros Hi Hne Hc Hok. pose proof (inv_wf _ _ _ Hi) as Hw. pose proof (log_append_wf _ _ Hw Hc) as Hw'.
  unfold lm_append_resolved. cbn [lm_config_manager with_range lm_logs_in_memory].
  destruct (lm_config_manager m) as [cs snap] eqn:Ecm.
  assert (cs = omap entry_conf (lents L)) as -> by (pose proof (inv_conf _ _ _ Hi) as E; by rewrite Ecm in E).
  rewrite (add_configurations_spec snap (lfirst L)); [|exact Hw'|done].
  cbn [mbind option_bind]. eexists. split; [done|]. rewrite <-(app_nil_r (lm_out m)).
  destruct es as [|e es]; [done|].
  assert (index (id e) = log_last L + 1) as Hidx by by apply contiguous_cons in Hc as [? _].
  split_and!; [|cbn; by rewrite Hidx|done|done|cbn; by rewrite app_nil_r].
  destruct (mem_split _ _ _ Hi) as (pre & Hpre & Hlen).
  eapply (inv_enqueue m l L) with (g := EffAppend (e :: es)); cbn [lm_has_error lm_log_storage lm_thread
    lm_disk_id lm_disk_queue lm_first_log_index lm_last_log_index lm_logs_in_memory lm_config_manager
    lm_virtual_first_log_id lm_last_snapshot_id lm_applied_id execute with_queue with_memory with_config
    with_range lm_wakeup_all_waiter emit with_waiters _configurations]; try done; try apply Hi.
  - cbn. by rewrite decide_True.
  - by rewrite log_append_last.
  - unfold log_append. cbn [lents]. rewrite Hpre, <-app_assoc.
    apply (drop_app_mem pre (lm_logs_in_memory m ++ e :: es) 0).
  - rewrite log_append_last, zlen_app. intros i e' Hg Hle. split; [|lia].
    rewrite <-Hg. unfold log_get, log_append. cbn. symmetry. apply zlookup_app_l.
    rewrite Hpre, zlen_app, Hlen. pose proof (zlen_nonneg (lm_logs_in_memory m)). unfold log_last in *. lia.
  - cbn [lents log_append]. apply Forall_app. split; [apply Hi|done].
  - destruct (inv_snap _ _ _ Hi) as [Hs1 Hs2]. rewrite log_append_last.
    pose proof (zlen_nonneg (e :: es)). split; [lia|]. intros e' He'. apply Hs2. rewrite <-He'.
    unfold log_get, log_append. cbn [lents lfirst]. symmetry. apply zlookup_app_l. unfold log_last in *. lia.
Qed.

(** The indexes a leader assigns continue its log. *)
Lemma assign_indexes_contiguous last es : contiguous (last + 1) (assign_indexes last es).
Proof.
  revert last. induction es as [|e es IH]; intros last; cbn [assign_indexes]; [apply contiguous_nil|].
  apply contiguous_cons. split; [done|]. apply IH.
Qed.

Lemma assign_indexes_length last es : zlen (assign_indexes last es) = zlen es.
Proof. revert last. induction es as [|e es IH]; intros last; [done|]. cbn [assign_indexes]. by rewrite !zlen_cons, IH. Qed.

Lemma assign_indexes_ok last es : Forall entry_ok es → Forall entry_ok (assign_indexes last es).
Proof.
  intros Hf. revert last. induction Hf as [|e es He Hes IH]; intros last; constructor; [|apply IH].
  by destruct He.
Qed.

(** ** Truncating *)

Lemma upto_omap_conf i k es :
  contiguous i es →
  upto k (omap entry_conf es) = omap entry_conf (take (Z.to_nat (k + 1 - i)) es).
Proof.
  intros Hc. rewrite <-(take_drop (Z.to_nat (k + 1 - i)) es) at 1. rewrite omap_app_list.
  unfold upto. rewrite filter_app. rewrite (list_filter_all _ (omap entry_conf (take _ _))).
  2:{ intros ce Hce. eapply (omap_conf_index_ge i) in Hce; [|by apply contiguous_take].
      rewrite zlen_take in Hce. lia. }
  rewrite list_filter_none; [by rewrite app_nil_r|].
  destruct (decide (Z.to_nat (k + 1 - i) ≤ length es)%nat) as [Hle|Hgt].
  - intros ce Hce. eapply (omap_conf_index_ge (i + Z.of_nat (Z.to_nat (k + 1 - i)))) in Hce;
      [lia|by apply contiguous_drop].
  - rewrite drop_ge by lia. cbn. set_solver.
Qed.

Lemma from_omap_conf i k es :
  contiguous i es →
  filter (λ ce, k ≤ ce_index ce) (omap entry_conf es) = omap entry_conf (drop (Z.to_nat (k - i)) es).
Proof.
  intros Hc. rewrite <-(take_drop (Z.to_nat (k - i)) es) at 1. rewrite omap_app_list, filter_app.
  rewrite (list_filter_none _ (omap entry_conf (take _ _))).
  2:{ intros ce Hce. eapply (omap_conf_index_ge i) in Hce; [|by apply contiguous_take].
      rewrite zlen_take in Hce. lia. }
  cbn [app]. apply list_filter_all.
  destruct (decide (Z.to_nat (k - i) ≤ length es)%nat) as [Hle|Hgt].
  - intros ce Hce. eapply (omap_conf_index_ge (i + Z.of_nat (Z.to_nat (k - i)))) in Hce;
      [lia|by apply contiguous_drop].
  - rewrite drop_ge by lia. cbn. set_solver.
Qed.

Lemma inv_conf_wf m l L : lm_inv m l L → cm_wf (lm_config_manager m).
Proof.
  intros Hi. unfold cm_wf. rewrite (inv_conf _ _ _ Hi). eapply omap_conf_sorted, inv_wf, Hi.
Qed.

(** The entries popped off the back are those past the cut. *)
Lemma mem_pop_back_inv m l L k :
  lm_inv m l L → lfirst L - 1 ≤ k →
  let mem' := reverse (mem_pop_back k (reverse (lm_logs_in_memory m))) in
  (∃ n, (n ≤ length (lents (log_truncate_suffix L k)))%nat ∧ mem' = drop n (lents (log_truncate_suffix L k))) ∧
  (k ≤ log_last L → k - zlen mem' = Z.min k (log_last L - zlen (lm_logs_in_memory m))).
Proof.
  intros Hi Hk mem'. destruct (mem_split _ _ _ Hi) as (pre & Hpre & Hlen).
  pose proof (inv_wf _ _ _ Hi) as Hw. unfold log_wf in Hw. rewrite Hpre in Hw.
  apply contiguous_app in Hw as [_ Hm].
  assert (mem' = take (Z.to_nat (k + 1 - (lfirst L + zlen pre))) (lm_logs_in_memory m)) as ->.
  { exact (ml_pop_back_spec _ k _ Hm). }
  assert (lents (log_truncate_suffix L k) = take (Z.to_nat (k + 1 - lfirst L)) (lents L)) as Hle.
  { unfold log_truncate_suffix. case_decide; [|done]. cbn.
    by replace (Z.to_nat (k + 1 - lfirst L)) with 0%nat by lia. }
  rewrite Hle. split.
  - rewrite Hpre. destruct (decide (k + 1 - lfirst L ≤ zlen pre)) as [Hs|Hs].
    + exists (length (take (Z.to_nat (k + 1 - lfirst L)) (pre ++ lm_logs_in_memory m))).
      split; [lia|]. rewrite drop_all. by replace (Z.to_nat _) with 0%nat by lia.
    + exists (length pre). rewrite length_take, length_app. unfold zlen in *. split; [lia|].
      rewrite take_app_ge by lia. rewrite drop_app_ge by lia.
      rewrite Nat.sub_diag, drop_0. f_equal. lia.
  - intros Hkl. rewrite zlen_take. unfold log_last in *. rewrite Hpre, zlen_app in *. pose proof (zlen_nonneg (lm_logs_in_memory m)). lia.
Qed.

Lemma truncate_suffix_inv m l L k t :
  lm_inv m l L → lfirst L - 1 ≤ k < log_last L → index (lm_applied_id m) ≤ k →
  lm_unsafe_get_term m k = Some t → id_ok (mkLogId k t) →
  ∃ m', lm_unsafe_truncate_suffix m k = Some m' ∧ lm_inv m' l (log_truncate_suffix L k) ∧
    lm_disk_queue m' = lm_disk_queue m ++ [TaskTruncateSuffix k t] ∧
    lm_thread m' = lm_thread m ∧ lm_out m' = lm_out m ∧ lm_wait_map m' = lm_wait_map m ∧
    lm_stopped m' = lm_stopped m.
Proof.
  intros Hi Hk Ha Ht Hid. unfold lm_unsafe_truncate_suffix. rewrite CHECK_true by lia.
  cbn [mbind option_bind].
  destruct (mem_pop_back_inv m l L k Hi) as [Hmem Hcut]; [lia|]. specialize (Hcut ltac:(lia)).
  set (mem' := reverse (mem_pop_back k (reverse (lm_logs_in_memory m)))) in *.
  set (m2 := with_range (with_memory m mem') (lm_first_log_index m) k).
  pose proof (log_truncate_suffix_wf L k (inv_wf _ _ _ Hi)) as Hw'.
  assert (lm_unsafe_get_term m2 k = Some t) as Ht2.
  { rewrite <-Ht. unfold lm_unsafe_get_term. cbn [m2 with_range with_memory lm_virtual_first_log_id
      lm_last_snapshot_id lm_last_log_index lm_first_log_index lm_log_storage].
    do 3 (case_decide; [done|]). rewrite (inv_last _ _ _ Hi).
    destruct (decide (k < k ∨ k < lm_first_log_index m)), (decide (log_last L < k ∨ k < lm_first_log_index m));
      [done|lia|lia|].
    rewrite (mem_lookup_log m2 (log_truncate_suffix L k)) by done. rewrite (mem_lookup m l L) by done.
    cbn [m2 with_range with_memory lm_logs_in_memory mbind option_bind].
    rewrite log_truncate_suffix_last by lia. rewrite Hcut, log_truncate_suffix_get.
    rewrite (decide_True (P := k ≤ k)) by lia. by repeat case_decide; try lia. }
  rewrite Ht2. cbn [mbind option_bind]. rewrite CHECK_true by exact Hid. cbn [mbind option_bind].
  eexists. split; [done|]. split; [|done].
  pose proof (inv_applied _ _ _ Hi). destruct (inv_snap _ _ _ Hi) as [Hs1 Hs2].
  assert (lfirst (log_truncate_suffix L k) = lfirst L) as Hf'.
  { unfold log_truncate_suffix. case_decide; cbn; lia. }
  eapply (inv_enqueue m l L) with (g := EffTruncateSuffix k);
    rewrite ?Hf', ?log_truncate_suffix_last by lia; try done; try apply Hi.
  - cbn. by rewrite decide_True.
  - intros i e. cbn [lm_logs_in_memory execute with_queue with_config m2 with_range with_memory].
    rewrite Hcut, log_truncate_suffix_get. case_decide; [|done]. intros He Hle. split; [done|lia].
  - cbn [lm_config_manager execute with_queue with_config m2 with_range with_memory].
    rewrite cm_truncate_suffix_eq by (by eapply inv_conf_wf). cbn [_configurations].
    rewrite (inv_conf _ _ _ Hi), (upto_omap_conf (lfirst L)) by (by eapply inv_wf).
    unfold log_truncate_suffix. case_decide; [|done]. cbn. by replace (Z.to_nat _) with 0%nat by lia.
  - unfold log_truncate_suffix. case_decide; [constructor|]. cbn. apply Forall_take, Hi.
  - cbn. split; [lia|]. intros e. rewrite log_truncate_suffix_get. case_decide; [|done]. apply Hs2.
Qed.

(** ** Appending *)

(** How many leading entries agree with the log. *)
Fixpoint match_len (L : Log) (es : list LogEntry) : nat :=
  match es with
  | [] => 0
  | e :: es' => if decide (log_term L (index (id e)) = term (id e)) then Datatypes.S (match_len L es') else 0
  end.

(** The log after entries from a leader: the agreeing ones change nothing, the
    first that does not replaces the rest of the log. *)
Definition merge (L : Log) (es : list LogEntry) : Log :=
  match es !! match_len L es with
  | None => L
  | Some e =>
      log_append (if decide (index (id e) ≤ log_last L) then log_truncate_suffix L (index (id e) - 1) else L)
        (drop (match_len L es) es)
  end.

Lemma match_len_le L es : (match_len L es ≤ length es)%nat.
Proof. induction es as [|e es IH]; cbn; [lia|]. case_decide; lia. Qed.

Lemma match_len_matches L es k e :
  (k < match_len L es)%nat → es !! k = Some e → log_term L (index (id e)) = term (id e).
Proof.
  revert k. induction es as [|f es IH]; intros k; cbn; [lia|]. case_decide; [|lia].
  destruct k; cbn; [intros _ [= <-]; done|]. intros. eapply IH; [|done]. lia.
Qed.

Lemma match_len_stop L es e :
  es !! match_len L es = Some e → log_term L (index (id e)) ≠ term (id e).
Proof.
  induction es as [|f es IH]; cbn; [done|]. case_decide; cbn; [done|]. by intros [= <-].
Qed.

Lemma match_len_in L i es k e :
  contiguous i es → Forall entry_ok es → (k < match_len L es)%nat → es !! k = Some e →
  index (id e) ≤ log_last L.
Proof.
  intros Hc Hok Hk He. pose proof (match_len_matches _ _ _ _ Hk He) as Ht.
  destruct (decide (index (id e) ≤ log_last L)); [done|]. exfalso.
  unfold log_term in Ht. rewrite log_get_out in Ht by lia. cbn in Ht.
  rewrite Forall_lookup in Hok. apply Hok in He as [He _]. congruence.
Qed.

Lemma conflicting_index_spec m l L i es :
  lm_inv m l L → lfirst L ≤ i → contiguous i es →
  conflicting_index m es = Some (match_len L es).
Proof.
  intros Hi. revert i. induction es as [|e es IH]; intros i Hl; cbn [conflicting_index match_len]; [done|].
  intros [He Hes]%contiguous_cons.
  assert (lm_unsafe_get_term m (index (id e)) = Some (log_term L (index (id e)))) as ->.
  { destruct (decide (i ≤ log_last L)).
    - eapply unsafe_get_term_in; [done|lia].
    - rewrite (unsafe_get_term_past _ _ _ _ Hi) by lia. unfold log_term. by rewrite log_get_out by lia. }
  cbn [mbind option_bind]. destruct (decide (log_term L (index (id e)) = term (id e))) as [Ht|Ht].
  - rewrite decide_False by tauto. rewrite (IH (i + 1)) by (done || lia). done.
  - by rewrite decide_True.
Qed.

(** An append without entries queues its closure and changes nothing. *)
Lemma append_nothing_inv m l L done :
  lm_inv m l L → ∃ m', lm_append_resolved m [] done = Some m' ∧ lm_inv m' l L.
Proof.
  intros Hi. unfold lm_append_resolved. cbn. eexists. split; [done|].
  eapply (inv_enqueue m l L) with (g := EffAppend []); cbn [lm_has_error lm_log_storage lm_thread
    lm_disk_id lm_disk_queue lm_first_log_index lm_last_log_index lm_logs_in_memory lm_config_manager
    lm_virtual_first_log_id lm_last_snapshot_id lm_applied_id execute with_queue with_memory with_config
    with_range lm_wakeup_all_waiter emit with_waiters _configurations]; rewrite ?app_nil_r;
    try done; try apply Hi; [constructor|apply apply_append_nil].
Qed.

Lemma with_range_same m f k : lm_first_log_index m = f → lm_last_log_index m = k → with_range m f k = m.
Proof. intros <- <-. by destruct m. Qed.

(** The term before the first conflicting entry is known. *)
Lemma term_before_conflict m l L es i e :
  lm_inv m l L → contiguous i es → Forall entry_ok es → lfirst L ≤ i →
  (i = 1 ∨ ∃ t, t ≠ 0 ∧ lm_unsafe_get_term m (i - 1) = Some t) →
  es !! match_len L es = Some e →
  ∃ t, lm_unsafe_get_term m (index (id e) - 1) = Some t ∧ id_ok (mkLogId (index (id e) - 1) t).
Proof.
  intros Hi Hc Hok Hl Hprev He. pose proof (Hc _ _ He) as Hei.
  destruct (match_len L es) as [|c] eqn:Ec.
  - replace (index (id e) - 1) with (i - 1) by lia. destruct Hprev as [->|(t & Ht & Hg)].
    + exists 0. split; [done|by left].
    + exists t. split; [done|by right].
  - destruct (lookup_lt_is_Some_2 es c) as [f Hf]; [apply lookup_lt_Some in He; lia|].
    assert (c < match_len L es)%nat as Hlt by lia.
    pose proof (match_len_matches _ _ _ _ Hlt Hf) as Ht.
    pose proof (match_len_in _ _ _ _ _ Hc Hok Hlt Hf). pose proof (Hc _ _ Hf).
    replace (index (id e) - 1) with (index (id f)) by lia. exists (term (id f)).
    rewrite (unsafe_get_term_in _ _ _ _ Hi) by lia. rewrite Ht. split; [done|]. right.
    rewrite Forall_lookup in Hok. by apply Hok in Hf as [? _].
Qed.

(** The conflicting entries and what follows them replace the local ones. *)
Lemma resolve_at_inv m l L es i e done :
  lm_inv m l L → contiguous i es → Forall entry_ok es → lfirst L ≤ i ≤ log_last L →
  (i = 1 ∨ ∃ t, t ≠ 0 ∧ lm_unsafe_get_term m (i - 1) = Some t) →
  (∀ e, es !! match_len L es = Some e → index (id e) ≤ log_last L → index (lm_applied_id m) < index (id e)) →
  es !! match_len L es = Some e →
  ∃ m1 m', (if decide (index (id e) ≤ lm_last_log_index m)
        then lm_unsafe_truncate_suffix m (index (id e) - 1) else Some m) = Some m1 ∧
    lm_append_resolved (with_range m1 (lm_first_log_index m1) (i + zlen es - 1))
      (drop (match_len L es) es) done = Some m' ∧
    lm_inv m' l (merge L es).
Proof.
  intros Hi Hc Hok Hl Hprev Hagree He. set (c := match_len L es) in *.
  pose proof (Hc _ _ He) as Hei. pose proof (lookup_lt_Some _ _ _ He) as Hlt.
  assert (contiguous (index (id e)) (drop c es)) as Hcd.
  { rewrite Hei. apply contiguous_drop; [done|lia]. }
  assert (zlen (drop c es) = zlen es - Z.of_nat c) as Hzd by (rewrite zlen_drop; unfold zlen; lia).
  assert (drop c es ≠ []) as Hne. { intros Hx. rewrite Hx in Hzd. unfold zlen in *. cbn in Hzd. lia. }
  unfold merge. fold c. rewrite He. rewrite (inv_last _ _ _ Hi). case_decide as Hin.
  - destruct (term_before_conflict m l L es i e Hi Hc Hok (proj1 Hl) Hprev He) as (t & Ht & Hid).
    assert (index (lm_applied_id m) ≤ index (id e) - 1) as Hap by (specialize (Hagree e He Hin); lia).
    destruct (truncate_suffix_inv m l L (index (id e) - 1) t Hi) as (m1 & Hm1 & Hi1 & _);
      [lia|done|done|done|].
    destruct (append_resolved_inv m1 l _ (drop c es) done Hi1) as (m' & Hm' & Hi' & _);
      [done| |by apply Forall_drop|].
    { rewrite log_truncate_suffix_last by lia. by replace (index (id e) - 1 + 1) with (index (id e)) by lia. }
    exists m1, m'. split_and!; [done| |done]. rewrite <-Hm'. do 2 f_equal.
    rewrite log_truncate_suffix_last by lia. lia.
  - assert (index (id e) = log_last L + 1) as Hlast.
    { destruct c as [|c'] eqn:Ec; [lia|].
      destruct (lookup_lt_is_Some_2 es c') as [f Hf]; [lia|].
      assert (c' < match_len L es)%nat as Hlt' by lia.
      pose proof (match_len_in _ _ _ _ _ Hc Hok Hlt' Hf). pose proof (Hc _ _ Hf). lia. }
    destruct (append_resolved_inv m l L (drop c es) done Hi) as (m' & Hm' & Hi' & _);
      [done|by rewrite <-Hlast|by apply Forall_drop|].
    exists m, m'. split_and!; [done| |done]. rewrite <-Hm'. do 2 f_equal. lia.
Qed.

(** The manager merges what a leader sends. *)
Lemma resolve_conflict_inv m l L es front done :
  lm_inv m l L → head es = Some front → contiguous (index (id front)) es → Forall entry_ok es →
  lfirst L ≤ index (id front) ≤ log_last L + 1 →
  index (lm_applied_id m) < index (id front) + zlen es - 1 →
  (index (id front) = 1 ∨ ∃ t, t ≠ 0 ∧ lm_unsafe_get_term m (index (id front) - 1) = Some t) →
  (∀ e, es !! match_len L es = Some e → index (id e) ≤ log_last L → index (lm_applied_id m) < index (id e)) →
  ∃ m', lm_append_entries m es done = Some m' ∧ lm_inv m' l (merge L es).
Proof.
  intros Hi Hhd Hc Hok Hr Hap Hprev Hagree. unfold lm_append_entries. rewrite (inv_ok _ _ _ Hi).
  destruct es as [|e es]; [done|]. injection Hhd as ->. rewrite decide_False by done.
  assert (∃ back, last (front :: es) = Some back ∧ index (id back) = index (id front) + zlen es) as (back & Hb & Hbi).
  { destruct (last (front :: es)) as [b|] eqn:Eb; [|by apply last_None in Eb]. exists b. split; [done|].
    rewrite last_lookup in Eb. apply Hc in Eb. rewrite Eb. unfold zlen. cbn. lia. }
  unfold lm_check_and_resolve_conflict. rewrite Hb. rewrite zlen_cons in Hap.
  pose proof (inv_pos _ _ _ Hi). rewrite (inv_last _ _ _ Hi).
  do 3 (rewrite decide_False by lia).
  set (c := match_len L (front :: es)). pose proof (match_len_le L (front :: es)) as Hcl. fold c in Hcl.
  destruct (decide (index (id front) = log_last L + 1)) as [Hfast|Hslow].
  { cbn [mbind option_bind]. rewrite decide_False by (intros Hx; by destruct Hx).
    replace (index (id back)) with (log_last L + zlen (front :: es)) by (rewrite zlen_cons; lia).
    destruct (append_resolved_inv m l L (front :: es) done Hi) as (m' & Hm' & Hi' & _);
      [done|by rewrite <-Hfast|done|].
    exists m'. split; [done|].
    assert (match_len L (front :: es) = 0%nat) as Hz.
    { cbn. rewrite decide_False; [done|]. unfold log_term. rewrite log_get_out by lia. cbn.
      apply Forall_cons in Hok as [[? _] _]. congruence. }
    unfold merge. rewrite Hz. cbn [lookup list_lookup drop]. by rewrite decide_False by lia. }
  rewrite (conflicting_index_spec _ _ _ _ _ Hi (proj1 Hr) Hc). fold c. cbn [mbind option_bind].
  unfold merge. fold c. destruct ((front :: es) !! c) as [e|] eqn:Ee.
  2:{ cbn [mbind option_bind]. rewrite decide_False by (intros Hx; by destruct Hx).
      apply lookup_ge_None in Ee. rewrite drop_ge by done. by apply append_nothing_inv. }
  destruct (resolve_at_inv m l L (front :: es) _ e done Hi Hc Hok) as (m1 & m' & Hm1 & Hm' & Hi');
    [lia|done|done|done|].
  rewrite (inv_last _ _ _ Hi) in Hm1. rewrite Hm1. cbn [mbind option_bind].
  rewrite decide_False by (intros Hx; by destruct Hx). rewrite zlen_cons in Hm'.
  replace (index (id back)) with (index (id front) + (zlen es + 1) - 1) by lia.
  unfold merge in Hi'. fold c in Hi', Hm'. rewrite Ee in Hi'. eauto.
Qed.

(** It aborts rather than to drop applied entries. *)
Lemma resolve_conflict_aborts m l L es front back e done :
  lm_inv m l L → head es = Some front → last es = Some back → contiguous (index (id front)) es → Forall entry_ok es →
  lfirst L ≤ index (id front) ≤ log_last L + 1 → index (lm_applied_id m) < index (id back) →
  es !! match_len L es = Some e → index (id e) ≤ log_last L → index (id e) ≤ index (lm_applied_id m) →
  lm_append_entries m es done = None.
Proof.
  intros Hi Hhd Hbk Hc Hok Hr Hap He Hin Hle. unfold lm_append_entries. rewrite (inv_ok _ _ _ Hi).
  destruct es as [|f es]; [done|]. injection Hhd as ->. rewrite decide_False by done.
  pose proof (Hc _ _ He) as Hei. pose proof (inv_pos _ _ _ Hi).
  unfold lm_check_and_resolve_conflict. rewrite Hbk, (inv_last _ _ _ Hi). do 4 (rewrite decide_False by lia).
  rewrite (conflicting_index_spec _ _ _ _ _ Hi (proj1 Hr) Hc). cbn [mbind option_bind]. rewrite He, decide_True by done.
  unfold lm_unsafe_truncate_suffix. by rewrite CHECK_false by lia.
Qed.

(** Entries without indexes get the next ones and extend the log. *)
Lemma leader_append_inv m l L es front done :
  lm_inv m l L → head es = Some front → index (id front) = 0 → Forall entry_ok es →
  let es' := assign_indexes (log_last L) es in
  ∃ m', lm_append_entries m es done = Some m' ∧ lm_inv m' l (log_append L es') ∧
    lm_disk_queue m' = lm_disk_queue m ++ [TaskAppend done (log_last L + 1) es'] ∧
    lm_wait_map m' = [] ∧
    lm_out m' = lm_out m ++ ((λ w, EvNewLog w.2 (if lm_stopped m then ESTOP else 0)) <$> lm_wait_map m).
Proof.
  intros Hi Hhd Hz Hok. cbn zeta. destruct es as [|e es]; [done|]. injection Hhd as ->.
  unfold lm_append_entries. rewrite (inv_ok _ _ _ Hi). rewrite decide_False by done.
  unfold lm_check_and_resolve_conflict.
  destruct (last (front :: es)) as [b|] eqn:Eb; [|by apply last_None in Eb].
  rewrite decide_True by done. cbn [mbind option_bind]. rewrite decide_False by (intros Hx; by destruct Hx).
  rewrite (inv_last _ _ _ Hi). rewrite <-(assign_indexes_length (log_last L) (front :: es)).
  destruct (append_resolved_inv m l L (assign_indexes (log_last L) (front :: es)) done Hi)
    as (m' & Hm' & Hi' & Hq & _ & Hw & Ho); [done|apply assign_indexes_contiguous|by apply assign_indexes_ok|].
  by exists m'.
Qed.

(** ** Snapshots *)

(** [m'] differs from [m] in its snapshot ids and applied id at most. *)
Definition same_log m m' : Prop :=
  lm_has_error m' = lm_has_error m ∧ lm_log_storage m' = lm_log_storage m ∧
  lm_thread m' = lm_thread m ∧ lm_disk_id m' = lm_disk_id m ∧
  lm_disk_queue m' = lm_disk_queue m ∧ lm_logs_in_memory m' = lm_logs_in_memory m ∧
  lm_first_log_index m' = lm_first_log_index m ∧ lm_last_log_index m' = lm_last_log_index m ∧
  _configurations (lm_config_manager m') = _configurations (lm_config_manager m).

(** The snapshot ids fit the log. *)
Definition ids_fit m L : Prop :=
  index (lm_virtual_first_log_id m) < lfirst L ∧
  index (lm_last_snapshot_id m) ≤ log_last L ∧
  (∀ e, log_get L (index (lm_last_snapshot_id m)) = Some e → term (id e) = term (lm_last_snapshot_id m)) ∧
  index (lm_last_snapshot_id m) ≤ index (lm_applied_id m).

Lemma inv_same_log m l L m' : lm_inv m l L → same_log m m' → ids_fit m' L → lm_inv m' l L.
Proof.
  intros Hi (He & Hs & Ht & Hd & Hq & Hm & Hf & Hl & Hc) (Hv & Hs1 & Hs2 & Ha).
  assert (pending m' = pending m) as Hp by (unfold pending; by rewrite Ht, Hq).
  split; rewrite ?He, ?Hs, ?Hp, ?Hf, ?Hl, ?Hm, ?Hc, ?Hq, ?Ht, ?Hd; try done; apply Hi.
Qed.

Lemma log_truncate_prefix_first L k : lfirst (log_truncate_prefix L k) = k.
Proof. done. Qed.

Lemma truncate_prefix_inv m l L m0 k :
  lm_inv m l L → same_log m m0 → lfirst L ≤ k → ids_fit m0 (log_truncate_prefix L k) →
  ∃ m', lm_truncate_prefix m0 k = Some m' ∧ lm_inv m' l (log_truncate_prefix L k) ∧
    lm_last_snapshot_id m' = lm_last_snapshot_id m0 ∧
    lm_virtual_first_log_id m' = lm_virtual_first_log_id m0.
Proof.
  intros Hi (He & Hs & Ht & Hd & Hq & Hm & Hf & Hl & Hc) Hk (Hv & Hs1 & Hs2 & Ha).
  unfold lm_truncate_prefix. rewrite CHECK_true by (rewrite Hf, (inv_first _ _ _ Hi); lia).
  cbn [mbind option_bind]. eexists. split; [done|]. split; [|done]. pose proof (inv_wf _ _ _ Hi) as Hw.
  destruct (mem_split _ _ _ Hi) as (pre & Hpre & Hlen). pose proof Hw as Hw2. unfold log_wf in Hw2.
  rewrite Hpre in Hw2. apply contiguous_app in Hw2 as [_ Hcm]. pose proof (inv_pos _ _ _ Hi).
  assert (mem_pop_front k (lm_logs_in_memory m0) =
          drop (Z.to_nat (k - (lfirst L + zlen pre))) (lm_logs_in_memory m)) as Hpop.
  { rewrite Hm. exact (ml_pop_front_spec _ k _ Hcm). }
  eapply (inv_enqueue m l L) with (t := TaskTruncatePrefix k) (g := EffTruncatePrefix k); try done.
  all: cbn [lm_has_error lm_log_storage lm_thread lm_disk_id lm_disk_queue lm_first_log_index
    lm_last_log_index lm_logs_in_memory lm_config_manager lm_virtual_first_log_id lm_last_snapshot_id
    lm_applied_id execute with_queue with_memory with_config with_range].
  - rewrite He. apply Hi.
  - by rewrite Hq.
  - unfold apply_effect. by rewrite decide_True.
  - rewrite Hl, (inv_last _ _ _ Hi), log_truncate_prefix_last by done. case_decide; lia.
  - cbn. lia.
  - rewrite Hpop. cbn [lents log_truncate_prefix]. rewrite Hpre.
    destruct (decide (k - lfirst L ≤ zlen pre)) as [Hle|Hgt].
    + replace (Z.to_nat (k - (lfirst L + zlen pre))) with 0%nat by lia. rewrite drop_0.
      rewrite drop_app_le by (unfold zlen in *; lia). apply (drop_app_mem _ _ 0).
    + exists 0%nat. rewrite drop_0, drop_app_ge by (unfold zlen in *; lia). split; [lia|].
      f_equal. unfold zlen. lia.
  - intros i e. rewrite log_truncate_prefix_get, log_truncate_prefix_last by done.
    case_decide; [|done]. intros Hg Hle. split; [done|]. pose proof (log_get_Some_range _ _ _ Hg).
    rewrite Hpop, zlen_drop in Hle. pose proof (zlen_nonneg (lm_logs_in_memory m)).
    unfold log_last in *. rewrite Hpre, zlen_app in *. lia.
  - rewrite cm_truncate_prefix_eq.
    + cbn [_configurations]. rewrite Hc, (inv_conf _ _ _ Hi), (from_omap_conf (lfirst L)) by done. done.
    + unfold cm_wf. rewrite Hc. by eapply inv_conf_wf.
  - cbn [lents log_truncate_prefix]. apply Forall_drop, Hi.
Qed.

Lemma reset_inv m l L m0 n :
  lm_inv m l L → same_log m m0 → 0 < n → ids_fit m0 (log_reset n) → lm_inv (lm_reset m0 n) l (log_reset n).
Proof.
  intros Hi (He & Hs & Ht & Hd & Hq & Hm & Hf & Hl & Hc) Hn (Hv & Hs1 & Hs2 & Ha).
  eapply (inv_enqueue m l L) with (t := TaskReset n) (g := EffReset n); unfold lm_reset; try done.
  all: cbn [lm_has_error lm_log_storage lm_thread lm_disk_id lm_disk_queue lm_first_log_index
    lm_last_log_index lm_logs_in_memory lm_config_manager lm_virtual_first_log_id lm_last_snapshot_id
    lm_applied_id execute with_queue with_memory with_config with_range].
  - rewrite He. apply Hi.
  - by rewrite Hq.
  - cbn. by rewrite decide_True by lia.
  - unfold log_last, log_reset, zlen. cbn. lia.
  - cbn. lia.
  - exists 0%nat. cbn. split; [lia|done].
  - intros i e Hg%log_get_Some_range. unfold log_last, log_reset, zlen in Hg. cbn in Hg. lia.
  - assert (cm_wf (lm_config_manager m0)) as Hcw by (unfold cm_wf; rewrite Hc; by eapply inv_conf_wf).
    rewrite cm_truncate_suffix_eq by (by apply cm_truncate_prefix_wf).
    rewrite cm_truncate_prefix_eq by done. cbn. unfold upto. rewrite list_filter_filter.
    apply list_filter_none. intros ce _ ?. lia.
Qed.

(** What installing a snapshot makes of the log: everything up to it goes when
    the log does not reach it; nothing after the previous snapshot goes when
    the log has its last entry; otherwise the log restarts after it. *)
Definition snapshot_log (L : Log) (prev : LogId) (meta : SnapshotMeta) (t : Z) : Log :=
  if decide (t = 0) then log_truncate_prefix L (sm_last_included_index meta + 1)
  else if decide (t = sm_last_included_term meta) then
    (if decide (0 < index prev) then log_truncate_prefix L (index prev + 1) else L)
  else log_reset (sm_last_included_index meta + 1).

Lemma consistent_snapshot m l L :
  lm_inv m l L → lm_check_consistency m = Some 0 → lfirst L - 1 ≤ index (lm_last_snapshot_id m).
Proof.
  intros Hi. unfold lm_check_consistency. rewrite !CHECK_bind_Some. intros (_ & _ & Hc). revert Hc.
  rewrite (inv_first _ _ _ Hi), (inv_last _ _ _ Hi). case_decide as Hz.
  - rewrite Hz. case_decide; [intros _; cbn; lia|done].
  - case_decide; [intros _; lia|done].
Qed.

Lemma consistent_of m l L :
  lm_inv m l L → lfirst L - 1 ≤ index (lm_last_snapshot_id m) → lm_last_snapshot_id m ≠ mkLogId 0 0 →
  lm_check_consistency m = Some 0.
Proof.
  intros Hi Hs Hne. pose proof (inv_pos _ _ _ Hi). destruct (inv_snap _ _ _ Hi) as [Hs1 _].
  unfold lm_check_consistency. rewrite (inv_first _ _ _ Hi), (inv_last _ _ _ Hi).
  rewrite !CHECK_true; [|unfold log_last; pose proof (zlen_nonneg (lents L)); lia|lia].
  cbn [mbind option_bind]. rewrite decide_False by done. by rewrite decide_True.
Qed.

Lemma log_term_nonzero m l L i :
  lm_inv m l L → lfirst L ≤ i ≤ log_last L → log_term L i ≠ 0.
Proof.
  intros Hi [e He]%log_get_in_range. unfold log_term. rewrite He. cbn.
  pose proof (inv_entries _ _ _ Hi) as Hok. rewrite Forall_forall in Hok.
  apply Hok. by eapply zlookup_elem.
Qed.

Lemma snapshot_term m l L cm i :
  lm_inv m l L → lfirst L ≤ i + 1 → index (lm_virtual_first_log_id m) < i →
  0 ≤ index (lm_last_snapshot_id m) < i →
  lm_unsafe_get_term (with_config m cm) i = Some (log_term L i) ∧
  (log_term L i = 0 ↔ ¬ lfirst L ≤ i ≤ log_last L).
Proof.
  intros Hi Hf Hv Hlt. change (lm_unsafe_get_term (with_config m cm) i) with (lm_unsafe_get_term m i).
  destruct (decide (lfirst L ≤ i ≤ log_last L)) as [Hr|Hr].
  - rewrite (unsafe_get_term_in _ _ _ _ Hi) by lia. split; [done|].
    pose proof (log_term_nonzero _ _ _ i Hi) as Hnz. split; [|lia]. intros Hz. exfalso. apply Hnz; [lia|done].
  - unfold log_term. rewrite log_get_out by lia. split; [|done]. unfold lm_unsafe_get_term.
    do 3 (rewrite decide_False by lia). rewrite (inv_first _ _ _ Hi), (inv_last _ _ _ Hi).
    by rewrite decide_True by lia.
Qed.

(** The manager [set_snapshot] works on once the ids are updated. *)
Definition snapshot_taken m (sid : LogId) (cm : ConfigurationManager) : LogManager St :=
  let m2 := with_snapshot (with_config m cm) sid (lm_virtual_first_log_id m) in
  if decide (logid_gt sid (lm_applied_id m)) then with_ids m2 (lm_disk_id m2) sid else m2.

Lemma snapshot_taken_fits m sid cm v L :
  logid_gt sid (lm_applied_id m) ∨ index sid ≤ index (lm_applied_id m) →
  index v < lfirst L → index sid ≤ log_last L →
  (∀ e, log_get L (index sid) = Some e → term (id e) = term sid) →
  ids_fit (with_snapshot (snapshot_taken m sid cm) sid v) L.
Proof.
  intros Hord Hv Hs Hg. unfold ids_fit, snapshot_taken. split_and!; case_decide as Hd; cbn; try done.
  by destruct Hord.
Qed.

Lemma snapshot_taken_same m sid cm v :
  _configurations cm = _configurations (lm_config_manager m) →
  same_log m (with_snapshot (snapshot_taken m sid cm) sid v).
Proof. intros Hc. unfold same_log, snapshot_taken. case_decide; by split_and!. Qed.

(** The virtual first id after a snapshot. *)
Definition snapshot_virtual m (meta : SnapshotMeta) (t : Z) : LogId :=
  let sid := mkLogId (sm_last_included_index meta) (sm_last_included_term meta) in
  if decide (t = 0) then sid
  else if decide (t = sm_last_included_term meta) then
    (if decide (0 < index (lm_last_snapshot_id m)) then lm_last_snapshot_id m else lm_virtual_first_log_id m)
  else sid.

Lemma set_snapshot_inv m l L meta :
  lm_inv m l L →
  let sid := mkLogId (sm_last_included_index meta) (sm_last_included_term meta) in
  lfirst L ≤ index sid + 1 → index (lm_virtual_first_log_id m) < index sid →
  index (lm_last_snapshot_id m) = 0 ∨ lfirst L ≤ index (lm_last_snapshot_id m) + 1 →
  index (lm_last_snapshot_id m) < index sid →
  logid_ge sid (ce_id (_snapshot (lm_config_manager m))) →
  logid_gt sid (lm_applied_id m) ∨ index sid ≤ index (lm_applied_id m) →
  ∃ m', lm_set_snapshot m meta = Some m' ∧
    lm_inv m' l (snapshot_log L (lm_last_snapshot_id m) meta (log_term L (index sid))) ∧
    lm_last_snapshot_id m' = sid ∧
    lm_virtual_first_log_id m' = snapshot_virtual m meta (log_term L (index sid)).
Proof.
  intros Hi sid Hfs Hvs Hcs Hnew Hge Hord. destruct meta as [si st ps ops].
  unfold lm_set_snapshot, snapshot_log, snapshot_virtual.
  cbn [index sid sm_last_included_index sm_last_included_term sm_peers sm_old_peers] in *.
  rewrite decide_False by lia. unfold cm_set_snapshot. fold sid.
  rewrite CHECK_true by exact Hge. cbn [mbind option_bind]. pose proof (inv_pos _ _ _ Hi) as Hpos.
  set (cm := mkCM _ _). destruct (snapshot_term m l L cm si Hi) as [Ht Hz]; [lia..|].
  rewrite Ht. cbn [mbind option_bind].
  destruct (inv_snap _ _ _ Hi) as [Hs1 Hs2]. pose proof (inv_virtual _ _ _ Hi) as Hvirt.
  match goal with |- context [with_snapshot ?m3 sid sid] =>
    change m3 with (snapshot_taken m sid cm) end.
  pose proof (λ v, snapshot_taken_same m sid cm v eq_refl) as Hsame.
  destruct (decide (log_term L si = 0)) as [E0|E0].
  { apply Hz in E0. apply (truncate_prefix_inv m l L); [done|done|lia|].
    apply snapshot_taken_fits; [done|cbn; lia|rewrite log_truncate_prefix_last; cbn; lia|].
    intros e. cbn [index sid]. rewrite log_truncate_prefix_get by lia. by rewrite decide_False by lia. }
  assert (lfirst L ≤ si ≤ log_last L) as Hin by (destruct (decide (lfirst L ≤ si ≤ log_last L)); [done|tauto]).
  case_decide as Et; [case_decide as Hp|].
  - apply (truncate_prefix_inv m l L); [done|done|lia|].
    apply snapshot_taken_fits; [done|cbn; lia|rewrite log_truncate_prefix_last; cbn; lia|].
    intros e. cbn [index sid]. rewrite log_truncate_prefix_get by lia. case_decide; [|done]. intros He.
    unfold log_term in Et. by rewrite He in Et.
  - exists (snapshot_taken m sid cm).
    assert (snapshot_taken m sid cm = with_snapshot (snapshot_taken m sid cm) sid (lm_virtual_first_log_id m))
      as Heq by (unfold snapshot_taken; by case_decide).
    split; [done|]. split; [|by rewrite Heq]. rewrite Heq.
    eapply inv_same_log; [done|done|]. apply snapshot_taken_fits; [done|done|apply Hin|].
    intros e He. cbn [index sid] in He. unfold log_term in Et. by rewrite He in Et.
  - eexists. split; [done|]. split; [|done]. eapply reset_inv; [done|done|lia|].
    apply snapshot_taken_fits; [done|cbn; lia|unfold log_last, log_reset, zlen; cbn; lia|].
    intros e He%log_get_Some_range. unfold log_last, log_reset, zlen in He. cbn in He. lia.
Qed.

(** ** The disk thread *)

(** What the disk thread works on: the storage, the effects it still has to
    apply, the log they lead to and the last index that may be read from the
    storage. *)
Definition disk_inv (s : St) (fs : list Effect) (L : Log) (cut : Z) (l : Log) : Prop :=
  ls_rep s l ∧ replay l fs = Some L ∧
  ∀ i e, log_get L i = Some e → i ≤ cut → always l fs i e.

Lemma disk_inv_step s s' f fs L cut l l' :
  disk_inv s (f :: fs) L cut l → apply_effect l f = Some l' → ls_rep s' l' → disk_inv s' fs L cut l'.
Proof.
  intros (Hr & Hrep & Ha) Hl' Hr'. split_and!; [done|..].
  - cbn in Hrep. by rewrite Hl' in Hrep.
  - intros i e Hg Hle. destruct (Ha i e Hg Hle) as [_ Hf]. by apply Hf.
Qed.

Lemma disk_inv_effect s f fs L cut l :
  disk_inv s (f :: fs) L cut l → ∃ l', apply_effect l f = Some l'.
Proof. intros (_ & Hrep & _). cbn in Hrep. apply bind_Some in Hrep as (l' & ? & _). eauto. Qed.

(** The closures run by a list of events, and those of a queued task. *)
Definition runs (evs : list LmEvent) : list Closure :=
  omap (λ ev, match ev with EvRun c _ | EvLastLogId c _ => Some c | _ => None end) evs.

Definition task_closures (t : DiskTask) : list Closure :=
  match t with TaskAppend c _ _ | TaskLastLogId c => [c] | _ => [] end.

Lemma runs_app evs evs' : runs (evs ++ evs') = runs evs ++ runs evs'.
Proof. apply omap_app_list. Qed.

Lemma runs_closures cs code : runs ((λ c, EvRun c code) <$> cs) = cs.
Proof. induction cs as [|c cs IH]; [done|]. rewrite fmap_cons. cbn. f_equal. exact IH. Qed.

(** A storage none of whose operations fails. *)
Class LogStorageReliable := {
  rel_append s l es s' n :
    ls_rep s l → contiguous (log_last l + 1) es → ls_append_entries s es = Some (s', n) → n = zlen es;
  rel_truncate_prefix s l k s' rc :
    ls_rep s l → lfirst l ≤ k → ls_truncate_prefix s k = Some (s', rc) → rc = 0;
  rel_truncate_suffix s l k s' rc :
    ls_rep s l → lfirst l - 1 ≤ k < log_last l → ls_truncate_suffix s k = Some (s', rc) → rc = 0;
  rel_reset s l n s' rc : ls_rep s l → 0 < n → ls_reset s n = Some (s', rc) → rc = 0;
}.

(** [m'] differs from [m] in its storage and in the events it emitted. *)
Definition disk_frame m m' (cs : list Closure) : Prop :=
  ∃ s evs, m' = emit (with_storage m s) evs ∧ runs evs = cs.

Lemma disk_frame_refl m : disk_frame m m [].
Proof.
  exists (lm_log_storage m), []. split; [|done]. destruct m. unfold emit, with_storage. cbn.
  by rewrite app_nil_r.
Qed.

Lemma disk_frame_trans m1 m2 m3 cs cs' :
  disk_frame m1 m2 cs → disk_frame m2 m3 cs' → disk_frame m1 m3 (cs ++ cs').
Proof.
  intros (s & evs & -> & <-) (s' & evs' & -> & <-). exists s', (evs ++ evs').
  split; [|by rewrite runs_app]. unfold emit, with_storage. cbn. by rewrite app_assoc.
Qed.

Section reliable.
Context `{!LogStorageReliable}.

Lemma append_to_storage_ok m es last_id fs L cut l :
  lm_has_error m = false → id_ok last_id → Forall entry_ok es →
  disk_inv (lm_log_storage m) (EffAppend es :: fs) L cut l →
  ∃ s' last_id' l', lm_append_to_storage m es last_id = Some (with_storage m s', last_id') ∧
    id_ok last_id' ∧ disk_inv s' fs L cut l'.
Proof.
  intros He Hid Hok Hd. unfold lm_append_to_storage. rewrite He.
  destruct (disk_inv_effect _ _ _ _ _ _ Hd) as (l' & Hl'). pose proof Hl' as Hl2. cbn in Hl2.
  case_decide as Hc; [|done]. injection Hl2 as Hl2.
  destruct (ls_rep_append (lm_log_storage m) l es) as (s' & n & Happ & Hn & Hr'); [apply Hd|done|].
  rewrite Happ. cbn [mbind option_bind]. pose proof (rel_append _ _ _ _ _ (proj1 Hd) Hc Happ) as Hlen.
  unfold zlen in Hlen. assert (n = length es) as -> by lia. rewrite take_ge in Hr' by lia.
  destruct (decide (Z.of_nat (length es) ≠ zlen es)) as [Hx|_]; [by destruct Hx|].
  assert (disk_inv s' fs L cut l') as Hd' by (eapply disk_inv_step; [done|done|by rewrite <-Hl2]).
  case_decide as Hpos; [|by exists s', last_id, l'].
  destruct (zlookup_in_range es (Z.of_nat (length es) - 1)) as [e Hlk]; [unfold zlen; lia|].
  rewrite Hlk. cbn. exists s', (id e), l'. split_and!; [done| |done]. right.
  rewrite Forall_forall in Hok. apply Hok. by eapply zlookup_elem.
Qed.

Lemma flush_ok m last_id ab fs L cut l :
  lm_has_error m = false → thread_ok (Some (last_id, ab)) →
  disk_inv (lm_log_storage m) (EffAppend (ab_to_append ab) :: fs) L cut l →
  ∃ m1 last_id1 l', ab_flush m last_id ab = Some (m1, last_id1, ab_new) ∧
    disk_frame m m1 (ab_storage ab) ∧ id_ok last_id1 ∧ disk_inv (lm_log_storage m1) fs L cut l'.
Proof.
  intros He (Hid & Hok & Hemp) Hd. unfold ab_flush. case_decide as Hs.
  - rewrite (Hemp Hs) in *. exists m, last_id, l. rewrite Hs. split_and!; [done|apply disk_frame_refl|done|].
    eapply disk_inv_step; [done|apply apply_append_nil|apply Hd].
  - destruct (append_to_storage_ok _ _ last_id _ _ _ _ He Hid Hok Hd) as (s' & id' & l' & -> & Hid' & Hd').
    cbn [mbind option_bind]. do 3 eexists. split; [done|]. split_and!; [|done|exact Hd'].
    exists s'. eexists. split; [done|]. apply runs_closures.
Qed.

Lemma disk_operation_ok m last_id t fs L cut l :
  id_ok last_id → task_ok t → (∀ c i e es, t ≠ TaskAppend c i (e :: es)) →
  disk_inv (lm_log_storage m) (task_effects t ++ fs) L cut l →
  ∃ s' last_id' evs l', disk_operation m last_id t = Some (with_storage m s', last_id', 0, evs) ∧
    runs evs = task_closures t ∧ id_ok last_id' ∧ disk_inv s' fs L cut l'.
Proof.
  intros Hid Hok Hne Hd.
  assert (with_storage m (lm_log_storage m) = m) as Hsame by by destruct m.
  destruct t as [c i [|e es]|c|k|k t|n]; cbn [disk_operation task_effects app] in *.
  - exists (lm_log_storage m), last_id, [EvRun c 0], l. rewrite Hsame. split_and!; [done|done|done|].
    eapply disk_inv_step; [done|apply apply_append_nil|apply Hd].
  - by destruct (Hne c i e es).
  - exists (lm_log_storage m), last_id, [EvLastLogId c last_id], l. rewrite Hsame.
    rewrite CHECK_true by exact Hid. split_and!; done.
  - destruct (disk_inv_effect _ _ _ _ _ _ Hd) as (l' & Hl'). pose proof Hl' as Hl2. cbn in Hl2.
    case_decide as Hk; [|done]. injection Hl2 as Hl2.
    destruct (ls_rep_truncate_prefix _ _ k (proj1 Hd) Hk) as (s' & rc & Hop & Hr' & _).
    pose proof (rel_truncate_prefix _ _ _ _ _ (proj1 Hd) Hk Hop) as ->. rewrite Hop. cbn.
    exists s', last_id, [], l'. split_and!; [done|done|done|].
    eapply disk_inv_step; [done|done|]. rewrite <-Hl2. auto.
  - destruct (disk_inv_effect _ _ _ _ _ _ Hd) as (l' & Hl'). pose proof Hl' as Hl2. cbn in Hl2.
    case_decide as Hk; [|done]. injection Hl2 as Hl2.
    destruct (ls_rep_truncate_suffix _ _ k (proj1 Hd) Hk) as (s' & rc & Hop & Hr').
    pose proof (rel_truncate_suffix _ _ _ _ _ (proj1 Hd) Hk Hop) as ->. rewrite Hop. cbn.
    rewrite CHECK_true by exact Hok. cbn.
    exists s', (mkLogId k t), [], l'. split_and!; [done|done|exact Hok|].
    eapply disk_inv_step; [done|done|]. rewrite <-Hl2. auto.
  - destruct (disk_inv_effect _ _ _ _ _ _ Hd) as (l' & Hl'). pose proof Hl' as Hl2.
    unfold apply_effect in Hl2. case_decide as Hk; [|done]. injection Hl2 as Hl2.
    destruct (ls_rep_reset _ _ n (proj1 Hd) Hk) as (s' & rc & Hop & Hr').
    pose proof (rel_reset _ _ _ _ _ (proj1 Hd) Hk Hop) as ->. rewrite Hop. cbn.
    exists s', last_id, [], l'. split_and!; [done|done|done|].
    eapply disk_inv_step; [done|done|]. rewrite <-Hl2. auto.
Qed.

Lemma disk_inv_merge s es gs fs L cut l :
  disk_inv s (EffAppend es :: EffAppend gs :: fs) L cut l → disk_inv s (EffAppend (es ++ gs) :: fs) L cut l.
Proof.
  intros (Hr & Hrep & Ha). split_and!; [done|by rewrite replay_append_app|].
  intros i e Hg Hle. by apply always_append_app, Ha.
Qed.

Lemma disk_inv_nil s fs L cut l : disk_inv s fs L cut l → disk_inv s (EffAppend [] :: fs) L cut l.
Proof.
  intros (Hr & Hrep & Ha). split_and!; [done| |].
  - cbn [replay]. by rewrite apply_append_nil.
  - intros i e Hg Hle. by apply always_append_nil, Ha.
Qed.

Lemma ab_append_ok m last_id ab c es fs L cut l :
  lm_has_error m = false → thread_ok (Some (last_id, ab)) → Forall entry_ok es →
  disk_inv (lm_log_storage m) (EffAppend (ab_to_append ab) :: EffAppend es :: fs) L cut l →
  ∃ m1 id1 ab1 l' cs, ab_append m last_id ab c es = Some (m1, id1, ab1) ∧
    disk_frame m m1 cs ∧ cs ++ ab_storage ab1 = ab_storage ab ++ [c] ∧
    thread_ok (Some (id1, ab1)) ∧
    disk_inv (lm_log_storage m1) (EffAppend (ab_to_append ab1) :: fs) L cut l'.
Proof.
  intros He Hth Hes Hd. unfold ab_append. case_decide.
  - destruct (flush_ok _ _ _ _ _ _ _ He Hth Hd) as (m1 & id1 & l' & -> & Hfr & Hid & Hd').
    cbn [mbind option_bind]. do 5 eexists. split; [done|].
    split_and!; [done|done|by split_and!|exact Hd'].
  - cbn [mbind option_bind]. exists m, last_id. do 3 eexists. split; [done|].
    destruct Hth as (Hid & Hok & Hemp).
    split_and!; [apply disk_frame_refl|done| |by apply disk_inv_merge].
    split_and!; [done|by apply Forall_app|by destruct (ab_storage ab)].
Qed.

Lemma disk_iteration_ok m last_id ab t fs L cut l :
  lm_has_error m = false → thread_ok (Some (last_id, ab)) → task_ok t →
  disk_inv (lm_log_storage m) (EffAppend (ab_to_append ab) :: task_effects t ++ fs) L cut l →
  ∃ m1 id1 ab1 l' cs, disk_iteration m last_id ab t = Some (m1, id1, ab1) ∧
    disk_frame m m1 cs ∧ cs ++ ab_storage ab1 = ab_storage ab ++ task_closures t ∧
    thread_ok (Some (id1, ab1)) ∧
    disk_inv (lm_log_storage m1) (EffAppend (ab_to_append ab1) :: fs) L cut l'.
Proof.
  intros He Hth Hok Hd.
  assert ((∃ c i e es, t = TaskAppend c i (e :: es)) ∨ (∀ c i e es, t ≠ TaskAppend c i (e :: es))) as [(c & i & e & es & ->)|Hne].
  { destruct t as [c i [|e es]|c|k|k t|n]; [right; congruence|left; eauto 10|right; congruence..]. }
  { cbn [disk_iteration]. by apply (ab_append_ok _ _ _ _ _ _ _ _ l). }
  destruct (flush_ok _ _ _ _ _ _ _ He Hth Hd) as (m1 & id1 & l1 & Hfl & Hfr & Hid & Hd1).
  destruct (disk_operation_ok m1 id1 t fs L cut l1 Hid Hok Hne Hd1) as (s' & id2 & evs & l2 & Hop & Hev & Hid2 & Hd2).
  exists (emit (with_storage m1 s') evs), id2, ab_new, l2, (ab_storage ab ++ runs evs). split.
  { assert (disk_iteration m last_id ab t =
      '(m1, last_id1, ab1) ← ab_flush m last_id ab;
      '(m2, last_id2, ret, evs) ← disk_operation m1 last_id1 t;
      let m3 := if decide (ret ≠ 0) then lm_report_error m2 ret else m2 in
      Some (emit m3 evs, last_id2, ab1)) as ->.
    { destruct t as [c i [|e es]|c|k|k t|n]; try done. by destruct (Hne c i e es). }
    rewrite Hfl. cbn [mbind option_bind]. rewrite Hop. done. }
  split_and!.
  - eapply disk_frame_trans; [done|]. by exists s', evs.
  - cbn. by rewrite app_nil_r, Hev.
  - by split_and!.
  - cbn. by apply disk_inv_nil.
Qed.

Lemma inv_disk_inv m l L :
  lm_inv m l L → disk_inv (lm_log_storage m) (pending m) L (log_last L - zlen (lm_logs_in_memory m)) l.
Proof. intros Hi. split_and!; [apply Hi..|]. intros i e. apply Hi. Qed.

(** The disk thread leaves everything else alone. *)
Lemma inv_disk_update m l L m1 cs q th l' :
  lm_inv m l L → disk_frame (with_queue m q) m1 cs → Forall task_ok q → thread_ok th →
  disk_inv (lm_log_storage m1) (batched th ++ queued q) L (log_last L - zlen (lm_logs_in_memory m)) l' →
  lm_inv (with_thread m1 th) l' L.
Proof.
  intros Hi (s & evs & -> & _) Hq Hth (Hr & Hrep & Ha). cbn in Hr.
  split; cbn; try done; try apply Hi.
Qed.

Lemma disk_start_inv m l L :
  lm_inv m l L → lm_thread m = None →
  ∃ m', disk_start m = Some m' ∧ lm_inv m' l L ∧ lm_disk_queue m' = lm_disk_queue m ∧
    lm_thread m' = Some (lm_disk_id m, ab_new) ∧ lm_out m' = lm_out m ∧
    lm_logs_in_memory m' = lm_logs_in_memory m.
Proof.
  intros Hi Hth. unfold disk_start. rewrite Hth. eexists. split; [done|]. split_and!; [|done..].
  pose proof (inv_disk_inv _ _ _ Hi) as Hd. unfold pending in Hd. rewrite Hth in Hd.
  replace (with_thread m _) with (with_thread (with_queue m (lm_disk_queue m)) (Some (lm_disk_id m, ab_new)))
    by by destruct m.
  apply (inv_disk_update m l L _ [] (lm_disk_queue m)); [done|apply disk_frame_refl|apply Hi| |].
  - split_and!; [apply Hi|constructor|done].
  - cbn. by apply disk_inv_nil.
Qed.

(** One closure of the queue: what the manager stands for does not change. *)
Lemma disk_step_inv m l L last_id ab t q :
  lm_inv m l L → lm_thread m = Some (last_id, ab) → lm_disk_queue m = t :: q →
  ∃ m' l' id1 ab1 cs, disk_step m = Some m' ∧ lm_inv m' l' L ∧ lm_disk_queue m' = q ∧
    lm_thread m' = Some (id1, ab1) ∧ cs ++ ab_storage ab1 = ab_storage ab ++ task_closures t ∧
    runs (lm_out m') = runs (lm_out m) ++ cs ∧ lm_logs_in_memory m' = lm_logs_in_memory m.
Proof.
  intros Hi Hth Hq. unfold disk_step. rewrite Hth, Hq.
  pose proof (inv_disk_inv _ _ _ Hi) as Hd. unfold pending in Hd. rewrite Hth, Hq in Hd.
  pose proof (inv_queue _ _ _ Hi) as Hok. rewrite Hq in Hok. apply Forall_cons in Hok as [Ht Hqs].
  pose proof (inv_thread _ _ _ Hi) as Hto. rewrite Hth in Hto. cbn [batched queued mbind list_bind app] in Hd.
  destruct (disk_iteration_ok (with_queue m q) last_id ab t (queued q) L
    (log_last L - zlen (lm_logs_in_memory m)) l) as (m1 & id1 & ab1 & l' & cs & Hit & Hfr & Hcs & Hth1 & Hd1);
    [apply Hi|done|done|exact Hd|].
  rewrite Hit. cbn [mbind option_bind]. exists (with_thread m1 (Some (id1, ab1))), l', id1, ab1, cs.
  split; [done|]. split; [by eapply inv_disk_update|].
  destruct Hfr as (s & evs & -> & Hev). split_and!; [done|done|done| |done].
  cbn. by rewrite runs_app, Hev.
Qed.

Lemma disk_steps_inv m l L last_id ab n :
  lm_inv m l L → lm_thread m = Some (last_id, ab) → (n ≤ length (lm_disk_queue m))%nat →
  ∃ m' l' id1 ab1 cs, disk_steps n m = Some m' ∧ lm_inv m' l' L ∧
    lm_disk_queue m' = drop n (lm_disk_queue m) ∧ lm_thread m' = Some (id1, ab1) ∧
    cs ++ ab_storage ab1 = ab_storage ab ++ (take n (lm_disk_queue m) ≫= task_closures) ∧
    runs (lm_out m') = runs (lm_out m) ++ cs ∧ lm_logs_in_memory m' = lm_logs_in_memory m.
Proof.
  revert m l last_id ab. induction n as [|n IH]; intros m l last_id ab Hi Hth Hn; cbn [disk_steps].
  { exists m, l, last_id, ab, []. rewrite drop_0, take_0, !app_nil_r. done. }
  destruct (lm_disk_queue m) as [|t q] eqn:Hq; cbn in Hn; [lia|].
  destruct (disk_step_inv _ _ _ _ _ _ _ Hi Hth Hq) as (m1 & l1 & id1 & ab1 & cs1 & -> & Hi1 & Hq1 & Hth1 & Hcs1 & Ho1 & Hm1).
  cbn [mbind option_bind]. destruct (IH m1 l1 id1 ab1 Hi1 Hth1) as (m2 & l2 & id2 & ab2 & cs2 & -> & Hi2 & Hq2 & Hth2 & Hcs2 & Ho2 & Hm2).
  { rewrite Hq1. lia. }
  exists m2, l2, id2, ab2, (cs1 ++ cs2). rewrite Hq1 in *. split_and!; try done.
  - cbn [take mbind list_bind]. rewrite <-app_assoc, Hcs2, !app_assoc, Hcs1. done.
  - by rewrite Ho2, Ho1, app_assoc.
  - by rewrite Hm2.
Qed.

End reliable.

(** ** Dropping entries from memory *)

Fixpoint drop_le (cid : LogId) (l : list LogEntry) : list LogEntry :=
  match l with
  | [] => []
  | e :: l' => if decide (logid_gt (id e) cid) then l else drop_le cid l'
  end.

Lemma clear_round_spec n cid (l : list LogEntry) :
  let '(l', k) := clear_round n cid l in
  (k ≤ n)%nat ∧ (k ≤ length l)%nat ∧ length l' = (length l - k)%nat ∧ drop_le cid l' = drop_le cid l ∧
  ((k < n)%nat → l' = drop_le cid l).
Proof.
  revert l. induction n as [|n IH]; intros l; cbn [clear_round]; [split_and!; [lia..|done|lia]|].
  destruct l as [|e l]; [by split_and!; cbn; [lia..| |]|]. case_decide as Hg.
  { split_and!; [lia|lia|lia|done|]. intros _. cbn. by rewrite decide_True. }
  specialize (IH l). destruct (clear_round n cid l) as [l' k]. destruct IH as (H1 & H2 & H3 & H4 & H5).
  cbn [length drop_le]. rewrite decide_False by done. split_and!; [lia..|done|]. intros ?. apply H5. lia.
Qed.

(** The rounds of 256 clear the front of the deque up to the id. *)
Lemma clear_rounds_spec fuel cid (l : list LogEntry) : (length l < fuel)%nat → clear_rounds fuel cid l = drop_le cid l.
Proof.
  revert l. induction fuel as [|fuel IH]; intros l Hl; [lia|]. cbn [clear_rounds].
  pose proof (clear_round_spec 256 cid l) as Hr. destruct (clear_round 256 cid l) as [l' k].
  destruct Hr as (H1 & H2 & H3 & H4 & H5). case_decide as Hk; [|apply H5; lia].
  rewrite IH by lia. done.
Qed.

(** The entries that leave. *)
Fixpoint popped (cid : LogId) (l : list LogEntry) : list LogEntry :=
  match l with
  | [] => []
  | e :: l' => if decide (logid_gt (id e) cid) then [] else e :: popped cid l'
  end.

Lemma drop_le_popped cid (l : list LogEntry) :
  ∃ k, (k ≤ length l)%nat ∧ drop_le cid l = drop k l ∧ popped cid l = take k l.
Proof.
  induction l as [|e l IH]; cbn [drop_le popped]; [by exists 0%nat|].
  case_decide as Hg; [exists 0%nat; split_and!; [lia|done|done]|].
  destruct IH as (k & Hk & -> & ->). exists (Datatypes.S k). cbn. split_and!; [lia|done|done].
Qed.

Lemma popped_elem cid (l : list LogEntry) e : e ∈ popped cid l → e ∈ l.
Proof. destruct (drop_le_popped cid l) as (k & _ & _ & ->). intros He. rewrite <-(take_drop k l). apply elem_of_app. by left. Qed.

Lemma popped_le cid (l : list LogEntry) e : e ∈ popped cid l → logid_le (id e) cid.
Proof.
  induction l as [|f l IH]; cbn; [by intros ?%not_elem_of_nil|]. case_decide as Hg; [by intros ?%not_elem_of_nil|].
  intros [->|He]%elem_of_cons; [done|by apply IH].
Qed.

(** The entries up to [c] can be read from the storage, now and until the
    queue is drained. *)
Definition clear_safe m l L (c : LogId) : Prop :=
  ∀ i e, log_get L i = Some e → logid_le (id e) c → always l (pending m) i e.

(** Only the entries that leave the memory matter. *)
Lemma clear_popped_inv m l L c :
  lm_inv m l L → (∀ e, e ∈ popped c (lm_logs_in_memory m) → always l (pending m) (index (id e)) e) →
  lm_inv (lm_clear_memory_logs m c) l L.
Proof.
  intros Hi Hsafe. unfold lm_clear_memory_logs. rewrite clear_rounds_spec by lia. pose proof (inv_wf _ _ _ Hi) as Hw.
  destruct (drop_le_popped c (lm_logs_in_memory m)) as (k & Hk & -> & Hj). rewrite Hj in Hsafe.
  destruct (mem_split _ _ _ Hi) as (pre & Hpre & Hlen).
  split; cbn; try apply Hi; try done.
  - rewrite Hpre. apply drop_app_mem.
  - intros i e Hg Hle. rewrite zlen_drop in Hle. unfold pending. cbn. fold (pending m).
    destruct (decide (i ≤ log_last L - zlen (lm_logs_in_memory m))) as [Ho|Hn]; [by eapply inv_read|].
    pose proof (log_get_index _ _ _ Hw Hg) as <-. apply Hsafe. unfold log_get in Hg. rewrite Hpre in Hg.
    rewrite zlookup_app_r in Hg by lia. unfold zlookup in Hg. rewrite decide_False in Hg by lia.
    eapply list_elem_of_lookup_2. rewrite lookup_take_lt; [exact Hg|]. unfold zlen in *. lia.
Qed.

Lemma clear_memory_inv m l L c : lm_inv m l L → clear_safe m l L c → lm_inv (lm_clear_memory_logs m c) l L.
Proof.
  intros Hi Hsafe. apply clear_popped_inv; [done|]. intros e He. apply Hsafe; [|by eapply popped_le].
  destruct (mem_split _ _ _ Hi) as (pre & Hpre & _). pose proof (inv_wf _ _ _ Hi) as Hw. unfold log_wf in Hw.
  apply popped_elem, list_elem_of_lookup in He as [j Hj].
  assert (lents L !! (length pre + j)%nat = Some e) as Hl
    by (rewrite Hpre, lookup_app_r by lia; by replace (length pre + j - length pre)%nat with j by lia).
  unfold log_get, zlookup. rewrite (Hw _ _ Hl). rewrite decide_False by lia. rewrite <-Hl. f_equal. lia.
Qed.

(** Terms do not decrease along the log. *)
Definition log_sorted L : Prop :=
  ∀ i j e f, i ≤ j → log_get L i = Some e → log_get L j = Some f → term (id e) ≤ term (id f).

(** The log is durable up to the entry of id [d]. *)
Definition durable_upto m l L (d : LogId) : Prop :=
  (∃ f, log_get L (index d) = Some f ∧ id f = d) ∧
  ∀ i e, log_get L i = Some e → i ≤ index d → always l (pending m) i e.

Lemma clear_safe_durable m l L c d :
  log_wf L → log_sorted L → durable_upto m l L d → logid_le c d → clear_safe m l L c.
Proof.
  intros Hw Hs [(f & Hf & Hid) Hdur] Hcd i e Hg Hle. apply Hdur; [done|].
  destruct (decide (i ≤ index d)); [done|]. exfalso.
  assert (term (id f) ≤ term (id e)) as Ht by (eapply Hs; [|done|done]; lia).
  pose proof (log_get_index _ _ _ Hw Hg) as Hi. rewrite Hid in Ht.
  rewrite !logid_le_spec in *. lia.
Qed.

Lemma logid_min_le_l a b : logid_le (logid_min a b) a.
Proof. unfold logid_min. case_decide as Hd; rewrite logid_le_spec; rewrite logid_lt_spec in *; lia. Qed.

Lemma logid_min_le_r a b : logid_le (logid_min a b) b.
Proof. unfold logid_min. case_decide as Hd; rewrite logid_le_spec; rewrite logid_lt_spec in *; lia. Qed.

Lemma set_applied_inv m l L a :
  lm_inv m l L → index (lm_last_snapshot_id m) ≤ index a →
  clear_safe m l L (logid_min (lm_disk_id m) a) → lm_inv (lm_set_applied_id m a) l L.
Proof.
  intros Hi Ha Hsafe. unfold lm_set_applied_id. case_decide; [done|].
  apply clear_memory_inv; [|exact Hsafe]. split; try apply Hi. exact Ha.
Qed.

Lemma set_disk_inv m l L d :
  lm_inv m l L → id_ok d → clear_safe m l L (logid_min d (lm_applied_id m)) → lm_inv (lm_set_disk_id m d) l L.
Proof.
  intros Hi Hd Hsafe. unfold lm_set_disk_id. case_decide; [done|].
  apply clear_memory_inv; [|exact Hsafe]. split; try apply Hi. exact Hd.
Qed.

(** The end of a batch that emptied the queue: the storage is the log. *)
Lemma disk_end_inv `{!LogStorageReliable} m l L last_id ab :
  lm_inv m l L → lm_thread m = Some (last_id, ab) → lm_disk_queue m = [] →
  ∃ m', disk_end m = Some m' ∧ lm_inv m' L L ∧ lm_disk_queue m' = [] ∧ lm_thread m' = None ∧
    runs (lm_out m') = runs (lm_out m) ++ ab_storage ab.
Proof.
  intros Hi Hth Hq. unfold disk_end. rewrite Hth.
  pose proof (inv_disk_inv _ _ _ Hi) as Hd. unfold pending in Hd. rewrite Hth, Hq in Hd.
  pose proof (inv_thread _ _ _ Hi) as Hto. rewrite Hth in Hto. cbn [batched queued mbind list_bind app] in Hd.
  destruct (flush_ok _ _ _ _ _ _ _ (inv_ok _ _ _ Hi) Hto Hd) as (m1 & id1 & l' & -> & Hfr & Hid & Hd1).
  cbn [mbind option_bind]. eexists. split; [done|].
  assert (l' = L) as ->. { destruct Hd1 as (_ & Hrep & _). by injection Hrep. }
  assert (lm_inv (with_thread m1 None) L L) as Hi1.
  { apply (inv_disk_update m l L m1 (ab_storage ab) []); [done| |constructor|done|exact Hd1].
    replace (with_queue m []) with m; [done|]. rewrite <-Hq. by destruct m. }
  destruct Hfr as (s & evs & -> & Hev).
  split.
  { apply set_disk_inv; [done|done|]. intros i e Hg _. unfold pending. cbn. by rewrite Hq. }
  unfold lm_set_disk_id. case_decide; cbn; by rewrite runs_app, Hev.
Qed.

(** ** What merging does *)

Lemma log_get_append_l L es i e : log_get L i = Some e → log_get (log_append L es) i = Some e.
Proof.
  intros Hg. pose proof (zlookup_Some_range _ _ _ Hg). rewrite <-Hg. unfold log_get, log_append. cbn.
  apply zlookup_app_l. lia.
Qed.

Lemma log_get_append_r L es k e :
  es !! k = Some e → log_get (log_append L es) (log_last L + 1 + Z.of_nat k) = Some e.
Proof.
  intros He. unfold log_get, log_append, log_last. cbn. rewrite zlookup_app_r by lia.
  rewrite <-He, <-zlookup_of_nat. f_equal. lia.
Qed.

(** The part of the log before the merged entries, and what a match proves. *)
Lemma merge_keeps L es i j e :
  contiguous i es → Forall entry_ok es →
  log_get L j = Some e → (∀ f, es !! match_len L es = Some f → j < index (id f)) →
  log_get (merge L es) j = Some e.
Proof.
  intros Hc Hok Hg Hlt. unfold merge. destruct (es !! match_len L es) as [f|] eqn:Ef; [|done].
  specialize (Hlt f eq_refl). apply log_get_append_l. case_decide; [|done].
  rewrite log_truncate_suffix_get. by rewrite decide_True by lia.
Qed.

Lemma merge_base_last L es i f :
  contiguous i es → Forall entry_ok es → i ≤ log_last L + 1 → es !! match_len L es = Some f →
  log_last (if decide (index (id f) ≤ log_last L) then log_truncate_suffix L (index (id f) - 1) else L) =
  index (id f) - 1.
Proof.
  intros Hc Hok Hi Hf. case_decide as Hd; [apply log_truncate_suffix_last; lia|].
  pose proof (Hc _ _ Hf). destruct (match_len L es) as [|c] eqn:Ec; [lia|].
  destruct (lookup_lt_is_Some_2 es c) as [g Hg]; [apply lookup_lt_Some in Hf; lia|].
  assert (c < match_len L es)%nat as Hlt by lia.
  pose proof (match_len_in _ _ _ _ _ Hc Hok Hlt Hg). pose proof (Hc _ _ Hg). lia.
Qed.

(** Every entry sent is in the merged log, by index and term. *)
Lemma merge_has L es i k e :
  contiguous i es → Forall entry_ok es → lfirst L ≤ i ≤ log_last L + 1 → es !! k = Some e →
  log_term (merge L es) (index (id e)) = term (id e).
Proof.
  intros Hc Hok Hi He. pose proof (Hc _ _ He) as Hei.
  destruct (decide (k < match_len L es)%nat) as [Hlt|Hge].
  - pose proof (match_len_matches _ _ _ _ Hlt He) as Ht.
    pose proof (match_len_in _ _ _ _ _ Hc Hok Hlt He).
    destruct (log_get_in_range L (index (id e))) as [g Hg]; [lia|].
    unfold log_term in *. rewrite (merge_keeps L es i _ g); [by rewrite Hg in Ht|done|done|done|].
    intros f Hf. apply Hc in Hf. lia.
  - unfold merge. destruct (es !! match_len L es) as [f|] eqn:Ef.
    2:{ apply lookup_ge_None in Ef. apply lookup_lt_Some in He. lia. }
    pose proof (merge_base_last L es i f Hc Hok (proj2 Hi) Ef) as Hbl. pose proof (Hc _ _ Ef).
    unfold log_term. replace (index (id e)) with
      (log_last (if decide (index (id f) ≤ log_last L) then log_truncate_suffix L (index (id f) - 1) else L)
       + 1 + Z.of_nat (k - match_len L es)) at 1 by lia.
    rewrite (log_get_append_r _ _ _ e); [done|]. rewrite lookup_drop. rewrite <-He. f_equal. lia.
Qed.

End invariant.

(** ** Theorems *)

Section theorems.
Context {St : Type} `{LogStorageLaws St}.
Implicit Types (m : LogManager St) (l L : Log).

(** A leader's append never aborts: the entries get the next indexes, the
    log is extended by them, the append is queued for the disk thread and
    everyone waiting for new entries is woken. *)
Theorem leader_append_extends m l L (es : list LogEntry) (front : LogEntry) (done : Closure)
    (Hi : lm_inv m l L) (Hhd : head es = Some front) (Hz : index (id front) = 0)
    (Hok : Forall entry_ok es) :
  let es' := assign_indexes (log_last L) es in
  ∃ m', lm_append_entries m es done = Some m' ∧ lm_inv m' l (log_append L es') ∧
    contiguous (log_last L + 1) es' ∧
    lm_disk_queue m' = lm_disk_queue m ++ [TaskAppend done (log_last L + 1) es'] ∧
    lm_wait_map m' = [] ∧
    lm_out m' = lm_out m ++ ((λ w, EvNewLog w.2 (if lm_stopped m then ESTOP else 0)) <$> lm_wait_map m).
Proof.
  destruct (leader_append_inv m l L es front done Hi Hhd Hz Hok) as (m' & ? & ? & ? & ? & ?).
  exists m'. split_and!; try done. apply assign_indexes_contiguous.
Qed.

(** Entries that leave a gap are refused with [EINVAL], entries that end at
    or before the applied index are acknowledged without effect, and a manager
    whose storage failed refuses everything with [EIO]; none of these changes
    the log or the queue. *)
Theorem append_refused m l L (es : list LogEntry) (front back : LogEntry) (done : Closure)
    (Hi : lm_inv m l L) (Hhd : head es = Some front) (Hbk : last es = Some back)
    (Hne : index (id front) ≠ 0) :
  (log_last L + 1 < index (id front) →
     lm_append_entries m es done = Some (emit m [EvRun done EINVAL])) ∧
  (index (id front) ≤ log_last L + 1 → index (id back) ≤ index (lm_applied_id m) →
     lm_append_entries m es done = Some (emit m [EvRun done 0])) ∧
  (lm_append_entries (lm_report_error m EIO) es done =
     Some (emit (lm_report_error m EIO) [EvRun done EIO])).
Proof.
  destruct es as [|e es]; [done|]. injection Hhd as ->. split_and!; [| |done]; unfold lm_append_entries;
    rewrite (inv_ok _ _ _ Hi); rewrite decide_False by done; unfold lm_check_and_resolve_conflict;
    rewrite Hbk, (inv_last _ _ _ Hi); rewrite decide_False by done.
  - intros Hgap. by rewrite decide_True by lia.
  - intros Hle Happ. rewrite decide_False by lia. by rewrite decide_True by lia.
Qed.

(** Entries that contradict nothing applied are merged. *)
Lemma follower_merge m l L (es : list LogEntry) (front : LogEntry) (done : Closure) :
  lm_inv m l L → head es = Some front → contiguous (index (id front)) es → Forall entry_ok es →
  lfirst L ≤ index (id front) ≤ log_last L + 1 → index (lm_applied_id m) < index (id front) + zlen es - 1 →
  (index (id front) = 1 ∨ ∃ t, t ≠ 0 ∧ lm_get_term m (index (id front) - 1) = Some t) →
  (∀ e, es !! match_len L es = Some e → index (id e) ≤ log_last L → index (lm_applied_id m) < index (id e)) →
  ∃ m', lm_append_entries m es done = Some m' ∧ lm_inv m' l (merge L es) ∧
    (∀ e, e ∈ es → log_term (merge L es) (index (id e)) = term (id e)) ∧
    (∀ j e, log_get L j = Some e → j < index (id front) ∨ j ≤ index (lm_applied_id m) → log_get (merge L es) j = Some e) ∧
    ((∀ e, e ∈ es → log_term L (index (id e)) = term (id e)) → merge L es = L).
Proof.
  intros Hi Hhd Hc Hok Hr Hnew Hprev Hfree.
  destruct (resolve_conflict_inv m l L es front done Hi Hhd Hc Hok Hr Hnew Hprev Hfree) as (m' & Hm' & Hi').
  exists m'. split_and!; [done|done|..].
  - intros e (k & Hk)%list_elem_of_lookup. by eapply merge_has.
  - intros j e Hg Hj. eapply merge_keeps; [done|done|done|]. intros f Hf. pose proof (Hc _ _ Hf).
    pose proof (log_get_Some_range _ _ _ Hg). destruct (decide (index (id f) ≤ log_last L)); [specialize (Hfree f Hf ltac:(done)); lia|lia].
  - intros Hall. unfold merge. destruct (es !! match_len L es) as [f|] eqn:Ef; [|done].
    exfalso. eapply match_len_stop; [done|]. apply Hall. by eapply list_elem_of_lookup_2.
Qed.


(** C15. Draining the disk queue: on a storage whose operations succeed, the
    disk thread goes through the whole queue without aborting, the storage ends
    up holding exactly the log the manager stands for, that log has not
    changed, and every queued closure has been run once, in queue order. *)
Theorem disk_thread_drains `{!LogStorageReliable (St := St)} m l L
    (Hi : lm_inv m l L) (Hth : lm_thread m = None) :
  ∃ m', disk_thread (length (lm_disk_queue m)) m = Some m' ∧ lm_inv m' L L ∧
    ls_rep (lm_log_storage m') L ∧ lm_disk_queue m' = [] ∧ lm_thread m' = None ∧
    runs (lm_out m') = runs (lm_out m) ++ (lm_disk_queue m ≫= task_closures).
Proof.
  unfold disk_thread.
  destruct (disk_start_inv m l L Hi Hth) as (m1 & -> & Hi1 & Hq1 & Hth1 & Ho1 & _). cbn [mbind option_bind].
  rewrite <-Hq1. destruct (disk_steps_inv m1 l L _ _ (length (lm_disk_queue m1)) Hi1 Hth1)
    as (m2 & l2 & id2 & ab2 & cs & -> & Hi2 & Hq2 & Hth2 & Hcs & Ho2 & _); [lia|].
  rewrite drop_all in Hq2. rewrite take_ge in Hcs by lia. cbn [mbind option_bind].
  destruct (disk_end_inv m2 l2 L id2 ab2 Hi2 Hth2 Hq2) as (m3 & -> & Hi3 & Hq3 & Hth3 & Ho3).
  exists m3. split_and!; [done|done|apply Hi3|done|done|].
  rewrite Ho3, Ho2, Ho1, <-app_assoc, Hcs. done.
Qed.

(** The disk thread may be interrupted anywhere: after any number of the
    queued closures, with appends by other threads possible in between, the
    manager still stands for the same log and still answers reads from it. *)
Theorem disk_steps_transparent `{!LogStorageReliable (St := St)} m l L (last_id : LogId)
    (ab : AppendBatcher) (n : nat)
    (Hi : lm_inv m l L) (Hth : lm_thread m = Some (last_id, ab)) (Hn : (n ≤ length (lm_disk_queue m))%nat) :
  ∃ m' l', disk_steps n m = Some m' ∧ lm_inv m' l' L ∧
    lm_disk_queue m' = drop n (lm_disk_queue m) ∧
    ∀ i, lm_get_entry m' i = Some (m', log_get L i).
Proof.
  destruct (disk_steps_inv m l L last_id ab n Hi Hth Hn) as (m' & l' & id1 & ab1 & cs & Hs & Hi' & Hq & _).
  exists m', l'. split_and!; try done. intros i.
  destruct (log_get L i) as [e|] eqn:E; [by eapply get_entry_in|by eapply get_entry_out].
Qed.

(** C16. A snapshot taken or installed leaves a consistent manager that stands
    for: the log cut before the previous snapshot, when the log has the
    snapshot's last entry; the empty log right after the snapshot, when the log
    does not reach it or has another term there. *)
Theorem set_snapshot_log m l L (meta : SnapshotMeta)
    (Hi : lm_inv m l L) (Hcons : lm_check_consistency m = Some 0)
    (Hnew : index (lm_last_snapshot_id m) < sm_last_included_index meta)
    (Hge : logid_ge (mkLogId (sm_last_included_index meta) (sm_last_included_term meta))
             (ce_id (_snapshot (lm_config_manager m))))
    (Hord : logid_gt (mkLogId (sm_last_included_index meta) (sm_last_included_term meta)) (lm_applied_id m) ∨
            sm_last_included_index meta ≤ index (lm_applied_id m)) :
  ∃ m', lm_set_snapshot m meta = Some m' ∧
    lm_inv m' l (snapshot_log L (lm_last_snapshot_id m) meta (log_term L (sm_last_included_index meta))) ∧
    lm_check_consistency m' = Some 0.
Proof.
  pose proof (consistent_snapshot _ _ _ Hi Hcons) as Hcs. pose proof (inv_virtual _ _ _ Hi).
  destruct (set_snapshot_inv m l L meta Hi) as (m' & Hm' & Hi' & Hs & _); cbn [index] in *; [lia..|done|done|].
  exists m'. split_and!; [done|done|]. eapply consistent_of; [exact Hi'| |].
  - pose proof (consistent_snapshot _ _ _ Hi Hcons). rewrite Hs. unfold snapshot_log.
    repeat case_decide; cbn; lia.
  - rewrite Hs. intros E. apply (f_equal index) in E. cbn in E.
    pose proof (consistent_snapshot _ _ _ Hi Hcons). pose proof (inv_pos _ _ _ Hi). lia.
Qed.

(** Applying entries only ever drops from memory what can be read back:
    when the log's terms do not decrease and the log is durable up to the
    applied entry or up to the disk id, [set_applied_id] leaves every read as
    it was. *)
Theorem set_applied_keeps_reads m l L (a d : LogId)
    (Hi : lm_inv m l L) (Hs : log_sorted L) (Hsn : index (lm_last_snapshot_id m) ≤ index a)
    (Hd : d = a ∨ d = lm_disk_id m) (Hdur : durable_upto m l L d) :
  let m' := lm_set_applied_id m a in
  lm_inv m' l L ∧ ∀ i, lm_get_entry m' i = Some (m', log_get L i).
Proof.
  cbn zeta. assert (lm_inv (lm_set_applied_id m a) l L) as Hi'.
  { apply set_applied_inv; [done|done|]. eapply clear_safe_durable; [by eapply inv_wf|done|done|].
    destruct Hd as [->| ->]; [apply logid_min_le_r|apply logid_min_le_l]. }
  split; [done|]. intros i.
  destruct (log_get L i) as [e|] eqn:E; [by eapply get_entry_in|by eapply get_entry_out].
Qed.

End theorems.

(** ** The in-memory storage does not fail *)

#[global] Instance memory_log_reliable : LogStorageReliable (St := MemoryLogStorage).
Proof.
  split.
  - intros s l es s' n [-> Hw] Hc. cbn. unfold ml_append_entries. case_decide; [by intros [= <- <-]; subst|].
    rewrite ml_append_loop_of by done. by intros [= <- <-].
  - intros s l k s' rc [-> Hw] Hk. cbn. by intros [= <- <-].
  - intros s l k s' rc [-> Hw] Hk. cbn. by intros [= <- <-].
  - intros s l n s' rc [-> Hw] Hn. cbn. unfold ml_reset. rewrite decide_False by lia. by intros [= <- <-].
Qed.

(** ** Concrete instances *)

Definition ex_log : Log := mkLog 1 [ex_entry 1 1; ex_entry 2 1; ex_entry 3 2].

Definition ex_manager (l : Log) : LogManager MemoryLogStorage :=
  mkLogManager (ml_of l) cm_new [] false false 0 (mkLogId (log_last l) (log_term l (log_last l))) zero_id []
    (lfirst l) (log_last l) zero_id zero_id [] None [].

Lemma ex_inv : lm_inv (ex_manager ex_log) ex_log ex_log.
Proof.
  destruct (lm_init_inv (ml_of ex_log) ex_log cm_new) as (m & Hm & Hi).
  - split; [done|]. vm_compute. intros [|[|[|k]]] e [= <-]; reflexivity.
  - done.
  - repeat constructor; done.
  - done.
  - done.
  - vm_compute in Hm. injection Hm as <-. exact Hi.
Qed.

Lemma leader_append_extends_witness :
  ∃ m', lm_append_entries (ex_manager ex_log) [ex_entry 0 3; ex_entry 0 3] 7 = Some m' ∧
    lm_inv m' ex_log (log_append ex_log [set_index (ex_entry 0 3) 4; set_index (ex_entry 0 3) 5]).
Proof.
  destruct (leader_append_extends _ _ _ [ex_entry 0 3; ex_entry 0 3] (ex_entry 0 3) 7 ex_inv)
    as (m' & Hm & Hi & _); [done|done|repeat constructor; done|].
  exists m'. split; [exact Hm|exact Hi].
Defined.

Definition ex_sent : list LogEntry := [ex_entry 2 1; ex_entry 3 3; ex_entry 4 3].


Lemma append_refused_witness :
  lm_append_entries (ex_manager ex_log) [ex_entry 9 3] 7 =
  Some (emit (ex_manager ex_log) [EvRun 7 EINVAL]).
Proof.
  apply (append_refused _ _ _ [ex_entry 9 3] (ex_entry 9 3) (ex_entry 9 3) 7 ex_inv); done.
Defined.

(** The follower of the previous example with its append still queued. *)
Definition ex_appended : LogManager MemoryLogStorage := Eval vm_compute in
  default (ex_manager ex_log) (lm_append_entries (ex_manager ex_log) ex_sent 7).
Definition ex_merged : Log := Eval vm_compute in merge ex_log ex_sent.

Lemma ex_appended_inv : lm_inv ex_appended ex_log ex_merged.
Proof.
  destruct (resolve_conflict_inv (ex_manager ex_log) ex_log ex_log ex_sent (ex_entry 2 1) 7 ex_inv)
    as (m' & Hm & Hi).
  - done.
  - vm_compute. intros [|[|[|k]]] e [= <-]; reflexivity.
  - repeat constructor; done.
  - done.
  - done.
  - right. exists 1. split; [done|]. vm_compute. reflexivity.
  - intros e. vm_compute. by intros [= <-].
  - vm_compute in Hm. injection Hm as <-. exact Hi.
Qed.

Lemma disk_thread_drains_witness :
  ∃ m', disk_thread 2 ex_appended = Some m' ∧ ls_rep (lm_log_storage m') ex_merged ∧
    runs (lm_out m') = [7].
Proof.
  destruct (disk_thread_drains ex_appended ex_log ex_merged ex_appended_inv eq_refl)
    as (m' & Hm & _ & Hr & _ & _ & Ho).
  exists m'. split_and!; [exact Hm|exact Hr|exact Ho].
Defined.

Definition ex_running : LogManager MemoryLogStorage := Eval vm_compute in
  default ex_appended (disk_start ex_appended).

Lemma ex_running_inv : lm_inv ex_running ex_log ex_merged.
Proof.
  destruct (disk_start_inv ex_appended ex_log ex_merged ex_appended_inv eq_refl) as (m' & Hm & Hi & _).
  vm_compute in Hm. injection Hm as <-. exact Hi.
Qed.

Lemma disk_steps_transparent_witness :
  ∃ m' l', disk_steps 1 ex_running = Some m' ∧ lm_inv m' l' ex_merged ∧
    lm_get_entry m' 3 = Some (m', Some (ex_entry 3 3)).
Proof.
  destruct (disk_steps_transparent ex_running ex_log ex_merged (mkLogId 3 2) ab_new 1 ex_running_inv)
    as (m' & l' & Hm & Hi & _ & Hg); [reflexivity|cbn; lia|].
  exists m', l'. split_and!; [exact Hm|exact Hi|exact (Hg 3)].
Defined.

Lemma set_snapshot_log_witness :
  ∃ m', lm_set_snapshot (ex_manager ex_log) (mkSnapshotMeta 2 7 [] []) = Some m' ∧
    lm_inv m' ex_log (mkLog 3 []) ∧ lm_check_consistency m' = Some 0.
Proof.
  apply (set_snapshot_log (ex_manager ex_log) ex_log ex_log (mkSnapshotMeta 2 7 [] []) ex_inv).
  - vm_compute. reflexivity.
  - done.
  - vm_compute. discriminate.
  - left. vm_compute. reflexivity.
Defined.

Definition ex_drained : LogManager MemoryLogStorage := Eval vm_compute in
  default ex_appended (disk_thread 2 ex_appended).

Lemma ex_drained_inv : lm_inv ex_drained ex_merged ex_merged.
Proof.
  destruct (disk_steps_inv ex_running ex_log ex_merged (mkLogId 3 2) ab_new 2 ex_running_inv)
    as (m2 & l2 & id2 & ab2 & cs & Hm2 & Hi2 & Hq2 & Hth2 & _); [reflexivity|cbn; lia|].
  destruct (disk_end_inv m2 l2 ex_merged id2 ab2 Hi2 Hth2 Hq2) as (m3 & Hm3 & Hi3 & _).
  assert (m3 = ex_drained) as <-; [|done].
  vm_compute in Hm2. injection Hm2 as <-. vm_compute in Hm3. by injection Hm3 as <-.
Qed.

Lemma set_applied_keeps_reads_witness :
  lm_logs_in_memory (lm_set_applied_id ex_drained (mkLogId 3 3)) = [ex_entry 4 3] ∧
  lm_get_entry (lm_set_applied_id ex_drained (mkLogId 3 3)) 3 =
  Some (lm_set_applied_id ex_drained (mkLogId 3 3), Some (ex_entry 3 3)).
Proof.
  split; [vm_compute; reflexivity|].
  apply (set_applied_keeps_reads ex_drained ex_merged ex_merged (mkLogId 3 3) (mkLogId 3 3) ex_drained_inv).
  - intros i j e f Hij He Hf. pose proof (log_get_Some_range _ _ _ He) as Hi.
    pose proof (log_get_Some_range _ _ _ Hf) as Hj. unfold log_last, zlen in *. cbn in Hi, Hj.
    assert (i = 1 ∨ i = 2 ∨ i = 3 ∨ i = 4) as [->|[->|[->| ->]]] by lia;
      vm_compute in He; injection He as <-;
      (assert (j = 1 ∨ j = 2 ∨ j = 3 ∨ j = 4) as [->|[->|[->| ->]]] by lia; try lia;
       vm_compute in Hf; injection Hf as <-; cbn; lia).
  - cbn. lia.
  - by left.
  - split; [eexists; split; [vm_compute; reflexivity|reflexivity]|]. intros i e He _. by split.
Defined.

(** C38. A stale disk id loses an entry.  The storage has two entries of term 2;
    a leader replaces the first by one of term 1, which stays queued; once it
    is applied, the entry leaves memory although the disk thread has not
    written it - the disk id (2, 2) of the replaced entry is greater than its
    id (1, 1) - and the next read returns the replaced entry. *)
Theorem stale_disk_id_reads_replaced_entry :
  let old := [ex_entry 1 2; ex_entry 2 2] in
  ∃ m0 m1, lm_init (ml_of (mkLog 1 old)) cm_new = Some m0 ∧
    lm_append_entries m0 [ex_entry 1 1] 7 = Some m1 ∧
    lm_get_entry m1 1 = Some (m1, Some (ex_entry 1 1)) ∧
    let m2 := lm_set_applied_id m1 (mkLogId 1 1) in
    lm_disk_queue m2 = [TaskTruncateSuffix 0 0; TaskAppend 7 1 [ex_entry 1 1]] ∧
    lm_get_entry m2 1 = Some (m2, Some (ex_entry 1 2)).
Proof.
  do 2 eexists. split; [vm_compute; reflexivity|]. split; [vm_compute; reflexivity|].
  split; [vm_compute; reflexivity|]. split; vm_compute; reflexivity.
Qed.
