(* ===== verification/Bytes.v ===== *)
(** * Bytes and network order

    Machine integers in memory (little-endian host) and the packers of
    src/melon/utility/raw_pack.h over the byte order conversions of
    src/melon/utility/sys_byteorder.h.  A byte is a [Z] from 0 to 255. *)

From stdpp Require Import prelude.
From S2P Require Import Prelude.
Local Open Scope Z_scope.

Definition byte (b : Z) : Prop := 0 ≤ b < 256.
Definition bytes (bs : list Z) : Prop := Forall byte bs.

#[global] Instance byte_dec b : Decision (byte b).
Proof. unfold byte. apply _. Defined.

(** Conversions to the unsigned types, [int64_t] and [int32_t]. *)
Definition u8 (x : Z) : Z := x mod 2 ^ 8.
Definition u32 (x : Z) : Z := x mod 2 ^ 32.
Definition u64 (x : Z) : Z := x mod 2 ^ 64.
Definition i64 (x : Z) : Z := if decide (2 ^ 63 ≤ u64 x) then u64 x - 2 ^ 64 else u64 x.

Definition i32 (x : Z) : Z := if decide (2 ^ 31 ≤ u32 x) then u32 x - 2 ^ 32 else u32 x.

(** An object of [n] bytes in memory, and the value of the bytes. *)
Fixpoint store_le (n : nat) (x : Z) : list Z :=
  match n with O => [] | S n' => x mod 256 :: store_le n' (x / 256) end.

Fixpoint load_le (bs : list Z) : Z :=
  match bs with [] => 0 | b :: bs' => b + 256 * load_le bs' end.

(** [bswap_32] reverses the bytes of a word. *)
Definition ByteSwap32 (x : Z) : Z := load_le (reverse (store_le 4 x)).

Definition HostToNet32 (x : Z) : Z := ByteSwap32 x.
Definition NetToHost32 (x : Z) : Z := ByteSwap32 x.

(** [RawPacker]: the bytes appended to the stream. *)
Definition pack32 (host_value : Z) : list Z := store_le 4 (HostToNet32 (u32 host_value)).

Definition pack64 (host_value : Z) : list Z :=
  store_le 4 (HostToNet32 (u32 (Z.shiftr (u64 host_value) 32))) ++
  store_le 4 (HostToNet32 (u32 (Z.land (u64 host_value) 0xFFFFFFFF))).

(** [RawUnpacker]: the value and the stream left; a stream that is too short
    has no value. *)
Definition unpack32 (stream : list Z) : option (Z * list Z) :=
  if decide (4 ≤ length stream)%nat then
    Some (NetToHost32 (load_le (take 4 stream)), drop 4 stream)
  else None.

Definition unpack64 (stream : list Z) : option (Z * list Z) :=
  if decide (8 ≤ length stream)%nat then
    Some (Z.lor (Z.shiftl (NetToHost32 (load_le (take 4 stream))) 32)
            (NetToHost32 (load_le (take 4 (drop 4 stream)))),
          drop 8 stream)
  else None.

(** ** Byte arrays *)

(** Cutting to [n] bytes or padding with zeros, as [ftruncate] and
    [IOBuf::resize] do. *)
Definition bytes_resize (f : list Z) (n : Z) : list Z :=
  take (Z.to_nat n) f ++ replicate (Z.to_nat (n - zlen f)) 0.

(** Writing at an offset, past the end or not. *)
Definition bytes_write (f : list Z) (off : Z) (d : list Z) : list Z :=
  bytes_resize f off ++ d ++ drop (Z.to_nat (off + zlen d)) f.

(** ** Lemmas *)

Lemma store_le_length n x : length (store_le n x) = n.
Proof. revert x. induction n as [|n IH]; intros x; cbn; [done|]. by rewrite IH. Qed.

Lemma store_le_bytes n x : bytes (store_le n x).
Proof.
  revert x. induction n as [|n IH]; intros x; constructor; [|apply IH].
  unfold byte. apply Z.mod_pos_bound. lia.
Qed.

Lemma load_le_range bs : bytes bs → 0 ≤ load_le bs < 256 ^ zlen bs.
Proof.
  induction 1 as [|b bs Hb Hbs IH]; [done|].
  rewrite zlen_cons, Z.pow_add_r, Z.pow_1_r by (try apply zlen_nonneg; lia).
  cbn [load_le]. unfold byte in Hb. lia.
Qed.

Lemma load_store_le n x : load_le (store_le n x) = x mod 256 ^ Z.of_nat n.
Proof.
  revert x. induction n as [|n IH]; intros x; cbn [store_le load_le]; [by rewrite Z.mod_1_r|].
  rewrite IH, Nat2Z.inj_succ, Z.pow_succ_r by lia.
  rewrite Z.rem_mul_r by lia. done.
Qed.

Lemma store_load_le bs : bytes bs → store_le (length bs) (load_le bs) = bs.
Proof.
  induction 1 as [|b bs Hb Hbs IH]; [done|]. cbn [length store_le load_le]. unfold byte in Hb. f_equal.
  - rewrite Z.mul_comm, Z_mod_plus_full. apply Z.mod_small. lia.
  - replace ((b + 256 * load_le bs) / 256) with (load_le bs); [done|].
    rewrite Z.mul_comm, Z_div_plus_full by lia. rewrite Z.div_small by lia. lia.
Qed.

Lemma ByteSwap32_range x : 0 ≤ ByteSwap32 x < 2 ^ 32.
Proof.
  unfold ByteSwap32. apply (load_le_range (reverse (store_le 4 x))).
  apply Forall_reverse, store_le_bytes.
Qed.

Lemma ByteSwap32_involutive x : 0 ≤ x < 2 ^ 32 → ByteSwap32 (ByteSwap32 x) = x.
Proof.
  intros Hx. unfold ByteSwap32.
  pose proof (store_load_le (reverse (store_le 4 x))) as Hs.
  rewrite length_reverse, store_le_length in Hs.
  rewrite Hs by (apply Forall_reverse, store_le_bytes). rewrite reverse_involutive, load_store_le.
  apply Z.mod_small. exact Hx.
Qed.

Lemma u32_range x : 0 ≤ u32 x < 2 ^ 32.
Proof. apply Z.mod_pos_bound. lia. Qed.

Lemma u32_small x : 0 ≤ x < 2 ^ 32 → u32 x = x.
Proof. apply Z.mod_small. Qed.

Lemma u64_range x : 0 ≤ u64 x < 2 ^ 64.
Proof. apply Z.mod_pos_bound. lia. Qed.

Lemma pack32_length v : length (pack32 v) = 4%nat.
Proof. apply store_le_length. Qed.

Lemma pack64_length v : length (pack64 v) = 8%nat.
Proof. unfold pack64. rewrite length_app, !store_le_length. done. Qed.

Lemma pack32_bytes v : bytes (pack32 v).
Proof. apply store_le_bytes. Qed.

Lemma pack64_bytes v : bytes (pack64 v).
Proof. apply Forall_app; split; apply store_le_bytes. Qed.

(** What is stored is read back. *)
Lemma net_word x : 0 ≤ x < 2 ^ 32 → NetToHost32 (load_le (store_le 4 (HostToNet32 x))) = x.
Proof.
  intros Hx. rewrite load_store_le. unfold NetToHost32, HostToNet32.
  rewrite (Z.mod_small (ByteSwap32 x)) by apply ByteSwap32_range. by apply ByteSwap32_involutive.
Qed.

Lemma unpack_pack32 v rest : unpack32 (pack32 v ++ rest) = Some (u32 v, rest).
Proof.
  unfold unpack32. rewrite length_app, pack32_length. rewrite decide_True by lia.
  rewrite take_app_length', drop_app_length' by (by rewrite pack32_length). unfold pack32.
  by rewrite net_word by apply u32_range.
Qed.

Lemma split_u64 x : 0 ≤ x < 2 ^ 64 → Z.lor (Z.shiftl (Z.shiftr x 32) 32) (Z.land x 0xFFFFFFFF) = x.
Proof.
  intros Hx. change 0xFFFFFFFF with (Z.ones 32). rewrite Z.land_ones by lia.
  rewrite Z.shiftl_mul_pow2, Z.shiftr_div_pow2 by lia.
  pose proof (Z.add_lor_land (x / 2 ^ 32 * 2 ^ 32) (x mod 2 ^ 32)) as Hadd.
  assert (Z.land (x / 2 ^ 32 * 2 ^ 32) (x mod 2 ^ 32) = 0) as Hz.
  { rewrite <-Z.shiftl_mul_pow2, <-Z.land_ones by lia. apply Z.bits_inj'. intros n Hn.
    rewrite Z.land_spec, Z.land_spec, Z.bits_0. destruct (decide (n < 32)).
    - rewrite Z.shiftl_spec_low by lia. done.
    - rewrite (Z.ones_spec_high 32 n) by lia. by rewrite !andb_false_r. }
  pose proof (Z.div_mod x (2 ^ 32)). lia.
Qed.

Lemma unpack_pack64 v rest : unpack64 (pack64 v ++ rest) = Some (u64 v, rest).
Proof.
  pose proof (u64_range v) as Hv.
  assert (0 ≤ Z.shiftr (u64 v) 32 < 2 ^ 32) as Hhi.
  { rewrite Z.shiftr_div_pow2 by lia. split; [apply Z.div_pos; lia|apply Z.div_lt_upper_bound; lia]. }
  assert (0 ≤ Z.land (u64 v) 0xFFFFFFFF < 2 ^ 32) as Hlo.
  { change 0xFFFFFFFF with (Z.ones 32). rewrite Z.land_ones by lia. apply Z.mod_pos_bound. lia. }
  unfold unpack64. rewrite length_app, pack64_length. rewrite decide_True by lia.
  unfold pack64. rewrite <-!app_assoc, !u32_small by done.
  rewrite take_app_length', drop_app_length' by (by rewrite store_le_length).
  rewrite take_app_length' by (by rewrite store_le_length). rewrite !net_word by done.
  rewrite split_u64 by done.
  rewrite app_assoc. rewrite drop_app_length'; [done|]. by rewrite length_app, !store_le_length.
Qed.

Lemma i64_u64 x : - 2 ^ 63 ≤ x < 2 ^ 63 → i64 (u64 x) = x.
Proof.
  intros Hx. unfold i64. assert (u64 (u64 x) = u64 x) as -> by (apply Z.mod_small, u64_range).
  unfold u64. destruct (decide (0 ≤ x)).
  - rewrite Z.mod_small by lia. rewrite decide_False by lia. done.
  - replace (x mod 2 ^ 64) with (x + 2 ^ 64).
    + rewrite decide_True by lia. lia.
    + rewrite <-(Z_mod_plus_full x 1), Z.mod_small; lia.
Qed.

(** Network order round trip: what [pack32]/[pack64] write is big-endian
    and [unpack32]/[unpack64] read the same 32- or 64-bit value back, leaving
    the rest of the stream. *)
Theorem pack_unpack_roundtrip (a b : Z) (rest : list Z) :
  unpack32 (pack32 a ++ rest) = Some (u32 a, rest) ∧
  unpack64 (pack64 b ++ rest) = Some (u64 b, rest) ∧
  pack32 a = [u8 (u32 a / 2 ^ 24); u8 (u32 a / 2 ^ 16); u8 (u32 a / 2 ^ 8); u8 (u32 a)].
Proof.
  split_and!; [apply unpack_pack32|apply unpack_pack64|]. unfold pack32, HostToNet32, ByteSwap32.
  pose proof (store_load_le (reverse (store_le 4 (u32 a)))) as Hs.
  rewrite length_reverse, store_le_length in Hs. rewrite Hs by (apply Forall_reverse, store_le_bytes).
  cbn [store_le reverse rev_append]. unfold reverse. cbn [rev_append].
  by rewrite !Z.div_div by lia.
Qed.

Lemma bytes_resize_le f n : 0 ≤ n ≤ zlen f → bytes_resize f n = take (Z.to_nat n) f.
Proof. intros Hn. unfold bytes_resize. replace (Z.to_nat (n - zlen f)) with 0%nat by lia. apply app_nil_r. Qed.

Lemma bytes_write_end f d : bytes_write f (zlen f) d = f ++ d.
Proof.
  pose proof (zlen_nonneg d). unfold bytes_write. rewrite bytes_resize_le by (pose proof (zlen_nonneg f); lia).
  rewrite take_ge, drop_ge by (unfold zlen in *; lia). by rewrite app_nil_r.
Qed.

Lemma bytes_write_nil f off : 0 ≤ off ≤ zlen f → bytes_write f off [] = f.
Proof.
  intros Ho. unfold bytes_write. rewrite bytes_resize_le by done. rewrite Z.add_0_r. apply take_drop.
Qed.
