(* ===== verification/Murmur.v ===== *)
(** * MurmurHash3 (x86, 32 bits)

    src/melon/utility/third_party/murmurhash3: the one-shot hash, the iterative
    one, and that they agree however the input is cut. *)

From stdpp Require Import prelude.
From S2P Require Import Prelude Bytes.
Local Open Scope Z_scope.

Definition rotl32 (x r : Z) : Z := Z.lor (u32 (Z.shiftl x r)) (Z.shiftr x (32 - r)).

Definition fmix32 (h : Z) : Z :=
  let h := Z.lxor h (Z.shiftr h 16) in
  let h := u32 (h * 0x85ebca6b) in
  let h := Z.lxor h (Z.shiftr h 13) in
  let h := u32 (h * 0xc2b2ae35) in
  Z.lxor h (Z.shiftr h 16).

Definition mm_c1 : Z := 0xcc9e2d51.
Definition mm_c2 : Z := 0x1b873593.

(** [k1 *= c1; k1 = ROTL32(k1,15); k1 *= c2]. *)
Definition mm_k1 (k1 : Z) : Z := u32 (rotl32 (u32 (k1 * mm_c1)) 15 * mm_c2).

(** The body of the loop over blocks. *)
Definition mm_block (h1 k1 : Z) : Z :=
  let h1 := Z.lxor h1 (mm_k1 k1) in
  let h1 := rotl32 h1 13 in
  u32 (h1 * 5 + 0xe6546b64).

Fixpoint mm_blocks (nblocks : nat) (h1 : Z) (data : list Z) : Z :=
  match nblocks with
  | O => h1
  | S n => mm_blocks n (mm_block h1 (load_le (take 4 data))) (drop 4 data)
  end.

(** The fall-through switch on the tail. *)
Definition mm_tail (h1 : Z) (tail_len : nat) (tail : list Z) : Z :=
  let t i := default 0 (tail !! i) in
  match tail_len with
  | 3%nat => Z.lxor h1 (mm_k1 (Z.lxor (Z.lxor (Z.lxor 0 (Z.shiftl (t 2%nat) 16)) (Z.shiftl (t 1%nat) 8)) (t 0%nat)))
  | 2%nat => Z.lxor h1 (mm_k1 (Z.lxor (Z.lxor 0 (Z.shiftl (t 1%nat) 8)) (t 0%nat)))
  | 1%nat => Z.lxor h1 (mm_k1 (Z.lxor 0 (t 0%nat)))
  | _ => h1
  end.

(** [MurmurHash3_x86_32(key, len, seed, out)]. *)
Definition MurmurHash3_x86_32 (key : list Z) (seed : Z) : Z :=
  let nblocks := (length key / 4)%nat in
  let h1 := mm_blocks nblocks seed key in
  let h1 := mm_tail h1 (length key mod 4) (drop (nblocks * 4) key) in
  fmix32 (Z.lxor h1 (u32 (zlen key))).

Record MurmurHash3_x86_32_Context := mkMmContext {
  mm_h1 : Z; mm_total_len : Z; mm_tail_len : nat; mm_tail_buf : list Z
}.

(** [Init] leaves the tail buffer as it is. *)
Definition MurmurHash3_x86_32_Init (garbage : list Z) (seed : Z) : MurmurHash3_x86_32_Context :=
  mkMmContext seed 0 0 garbage.

(** [memcpy(buf + at, src, n)] inside the buffer. *)
Definition memcpy_at (buf : list Z) (at_ : nat) (src : list Z) : list Z :=
  take at_ buf ++ src ++ drop (at_ + length src) buf.

Definition MurmurHash3_x86_32_Update (ctx : MurmurHash3_x86_32_Context) (key : list Z)
  : MurmurHash3_x86_32_Context :=
  let '(h1, total1, tl1, buf1, data) :=
    (if decide (0 < mm_tail_len ctx)%nat then
       let append := (length key `min` (4 - mm_tail_len ctx))%nat in
       let buf := memcpy_at (mm_tail_buf ctx) (mm_tail_len ctx) (take append key) in
       let total := mm_total_len ctx + Z.of_nat append in
       let tl := (mm_tail_len ctx + append)%nat in
       if decide (tl = 4%nat) then (mm_block (mm_h1 ctx) (load_le (take 4 buf)), total, 0%nat, buf, drop append key)
       else (mm_h1 ctx, total, tl, buf, drop append key)
     else (mm_h1 ctx, mm_total_len ctx, mm_tail_len ctx, mm_tail_buf ctx, key)) in
  let nblocks := (length data / 4)%nat in
  let h1' := mm_blocks nblocks h1 data in
  let tail_len := (length data mod 4)%nat in
  if decide (0 < tail_len)%nat then
    mkMmContext h1' (total1 + zlen data) tail_len (memcpy_at buf1 0 (drop (nblocks * 4) data))
  else mkMmContext h1' (total1 + zlen data) tl1 buf1.

Definition MurmurHash3_x86_32_Final (ctx : MurmurHash3_x86_32_Context) : Z :=
  let h1 := mm_tail (mm_h1 ctx) (mm_tail_len ctx) (mm_tail_buf ctx) in
  fmix32 (Z.lxor h1 (u32 (mm_total_len ctx))).

(** [murmurhash32(const void*, int)] and [murmurhash32(const IOBuf&)] of
    raft/util.h. *)
Definition murmurhash32 (key : list Z) : Z := MurmurHash3_x86_32 key 0.

Definition murmurhash32_iobuf (garbage : list Z) (blocks : list (list Z)) : Z :=
  MurmurHash3_x86_32_Final
    (foldl (λ ctx sp, if decide (sp = []) then ctx else MurmurHash3_x86_32_Update ctx sp)
       (MurmurHash3_x86_32_Init garbage 0) blocks).

(** ** Absorbing bytes *)

(** The state after some bytes: the full blocks mixed, the rest kept. *)
Fixpoint absorb (h : Z) (bs : list Z) : Z * list Z :=
  match bs with
  | a :: b :: c :: d :: rest => absorb (mm_block h (load_le [a; b; c; d])) rest
  | _ => (h, bs)
  end.

Lemma list_ind4 (P : list Z → Prop) :
  (∀ bs, (length bs < 4)%nat → P bs) → (∀ a b c d bs, P bs → P (a :: b :: c :: d :: bs)) → ∀ bs, P bs.
Proof.
  intros Hs Hc bs. remember (length bs) as n eqn:E. revert bs E.
  induction (lt_wf n) as [n _ IH]. intros bs ->.
  destruct bs as [|a [|b [|c [|d bs]]]]; [apply Hs; cbn; lia..|]. apply Hc, (IH (length bs)); [cbn; lia|done].
Qed.

Lemma absorb_short h bs : (length bs < 4)%nat → absorb h bs = (h, bs).
Proof. destruct bs as [|a [|b [|c [|d bs]]]]; cbn; [done..|lia]. Qed.

Lemma absorb_blocks h bs :
  absorb h bs = (mm_blocks (length bs / 4) h bs, drop (length bs / 4 * 4) bs).
Proof.
  revert h. induction bs as [bs Hs|a b c d bs IH] using list_ind4; intros h.
  - rewrite absorb_short by done. rewrite Nat.div_small by done. done.
  - cbn [absorb]. rewrite IH. cbn [length].
    replace (S (S (S (S (length bs)))) / 4)%nat with (S (length bs / 4))%nat.
    + cbn [mm_blocks take drop Nat.mul Nat.add]. by rewrite take_0, drop_0.
    + replace (S (S (S (S (length bs))))) with (1 * 4 + length bs)%nat by lia.
      rewrite Nat.div_add_l by lia. lia.
Qed.

Lemma absorb_rest_length h bs : length (absorb h bs).2 = (length bs mod 4)%nat.
Proof.
  rewrite absorb_blocks. cbn [snd]. rewrite length_drop.
  pose proof (Nat.div_mod (length bs) 4 ltac:(lia)). lia.
Qed.

Lemma absorb_app h bs cs : absorb h (bs ++ cs) = absorb (absorb h bs).1 ((absorb h bs).2 ++ cs).
Proof.
  revert h. induction bs as [bs Hs|a b c d bs IH] using list_ind4; intros h.
  - by rewrite (absorb_short h bs) by done.
  - cbn [app absorb]. apply IH.
Qed.

(** The hash of what has been absorbed. *)
Definition mm_hash (h : Z) (rest : list Z) (len : Z) : Z :=
  fmix32 (Z.lxor (mm_tail h (length rest) rest) (u32 len)).

Lemma oneshot_absorb key seed :
  MurmurHash3_x86_32 key seed = mm_hash (absorb seed key).1 (absorb seed key).2 (zlen key).
Proof.
  unfold mm_hash. rewrite absorb_rest_length, absorb_blocks. done.
Qed.

(** The context stands for the bytes fed so far. *)
Definition mm_rep (ctx : MurmurHash3_x86_32_Context) (seed : Z) (fed : list Z) : Prop :=
  absorb seed fed = (mm_h1 ctx, take (mm_tail_len ctx) (mm_tail_buf ctx)) ∧
  mm_total_len ctx = zlen fed ∧ (mm_tail_len ctx < 4)%nat ∧ length (mm_tail_buf ctx) = 4%nat.

Lemma memcpy_at_length buf k src :
  (k + length src ≤ length buf)%nat → length (memcpy_at buf k src) = length buf.
Proof. intros Hk. unfold memcpy_at. rewrite !length_app, length_take, length_drop. lia. Qed.

Lemma memcpy_at_take buf k src :
  (k + length src ≤ length buf)%nat → take (k + length src) (memcpy_at buf k src) = take k buf ++ src.
Proof.
  intros Hk. unfold memcpy_at. rewrite app_assoc. apply take_app_length'.
  rewrite length_app, length_take. lia.
Qed.

(** The second half of [Update]: blocks from the data, then the tail. *)
Definition update_body (h1 total : Z) (tl : nat) (buf data : list Z) : MurmurHash3_x86_32_Context :=
  let nblocks := (length data / 4)%nat in
  let h1' := mm_blocks nblocks h1 data in
  let tail_len := (length data mod 4)%nat in
  if decide (0 < tail_len)%nat then
    mkMmContext h1' (total + zlen data) tail_len (memcpy_at buf 0 (drop (nblocks * 4) data))
  else mkMmContext h1' (total + zlen data) tl buf.

(** From an empty tail it absorbs the data. *)
Lemma update_body_absorb h total buf data :
  length buf = 4%nat →
  let ctx := update_body h total 0 buf data in
  absorb h data = (mm_h1 ctx, take (mm_tail_len ctx) (mm_tail_buf ctx)) ∧
  mm_total_len ctx = total + zlen data ∧ (mm_tail_len ctx < 4)%nat ∧ length (mm_tail_buf ctx) = 4%nat.
Proof.
  intros Hbuf. unfold update_body. pose proof (absorb_rest_length h data) as Hl. rewrite absorb_blocks in *.
  cbn [snd] in Hl. set (rest := drop (length data / 4 * 4) data) in *.
  pose proof (Nat.mod_upper_bound (length data) 4 ltac:(lia)).
  case_decide as Hd; cbn [mm_h1 mm_total_len mm_tail_len mm_tail_buf].
  - assert (take (length data mod 4) (memcpy_at buf 0 rest) = rest) as Ht.
    { rewrite <-Hl. exact (memcpy_at_take buf 0 rest ltac:(lia)). }
    rewrite Ht. split_and!; [done|done|lia|]. rewrite memcpy_at_length; lia.
  - split_and!; [|done|lia|done]. f_equal. apply length_zero_iff_nil. lia.
Qed.

Lemma Update_rep ctx seed fed key :
  mm_rep ctx seed fed → mm_rep (MurmurHash3_x86_32_Update ctx key) seed (fed ++ key).
Proof.
  intros (Ha & Ht & Hl & Hb). destruct ctx as [h total tl buf]. cbn in Ha, Ht, Hl, Hb.
  unfold mm_rep. rewrite absorb_app, Ha, zlen_app. cbn [fst snd].
  unfold MurmurHash3_x86_32_Update. cbn [mm_h1 mm_total_len mm_tail_len mm_tail_buf].
  destruct (decide (0 < tl)%nat) as [Hpos|Hz].
  2:{ assert (tl = 0%nat) as -> by lia. fold (update_body h total 0 buf key). rewrite take_0. cbn [app].
      destruct (update_body_absorb h total buf key Hb) as (H1 & H2 & H3 & H4). split_and!; [done|lia|done|done]. }
  set (n := (length key `min` (4 - tl))%nat).
  assert (length (take n key) = n) as Hn by (rewrite length_take; lia).
  assert (take (tl + n) (memcpy_at buf tl (take n key)) = take tl buf ++ take n key) as Htk.
  { rewrite <-Hn at 1. apply memcpy_at_take. lia. }
  assert (length (memcpy_at buf tl (take n key)) = 4%nat) as Hbl by (rewrite memcpy_at_length; lia).
  rewrite <-(take_drop n key) at 1. rewrite app_assoc, <-Htk.
  case_decide as H4.
  - fold (update_body (mm_block h (load_le (take 4 (memcpy_at buf tl (take n key)))))
      (total + Z.of_nat n) 0 (memcpy_at buf tl (take n key)) (drop n key)).
    rewrite H4. set (b := memcpy_at buf tl (take n key)) in *.
    destruct (update_body_absorb (mm_block h (load_le (take 4 b))) (total + Z.of_nat n) b (drop n key) Hbl)
      as (H1 & H2 & H3 & H5).
    split_and!; [|rewrite H2, zlen_drop; unfold zlen in *; lia|done|done]. rewrite <-H1.
    rewrite take_ge by lia. destruct b as [|b0 [|b1 [|b2 [|b3 [|]]]]]; cbn in Hbl; try lia. done.
  - assert (n = length key ∧ (tl + length key < 4)%nat) as [Hnk Hlt] by (subst n; lia). rewrite Hnk in *. rewrite drop_all, app_nil_r.
    cbn [length mm_h1 mm_total_len mm_tail_len mm_tail_buf Nat.div Nat.modulo Nat.divmod Nat.sub fst snd mm_blocks].
    rewrite decide_False by lia. cbn [mm_h1 mm_total_len mm_tail_len mm_tail_buf].
    split_and!; [apply absorb_short; rewrite length_take, Hbl; lia|unfold zlen in *; cbn; lia|lia|done].
Qed.

Lemma Final_rep ctx seed fed : mm_rep ctx seed fed → MurmurHash3_x86_32_Final ctx = MurmurHash3_x86_32 fed seed.
Proof.
  intros (Ha & Ht & Hl & Hb). rewrite oneshot_absorb, Ha. unfold mm_hash, MurmurHash3_x86_32_Final. cbn [fst snd].
  rewrite Ht, length_take, Hb. replace (mm_tail_len ctx `min` 4)%nat with (mm_tail_len ctx) by lia.
  do 2 f_equal. unfold mm_tail.
  destruct (mm_tail_buf ctx) as [|b0 [|b1 [|b2 [|b3 [|]]]]]; cbn in Hb; try lia.
  by destruct (mm_tail_len ctx) as [|[|[|[|]]]].
Qed.

Lemma murmurhash32_iobuf_concat (garbage : list Z) (blocks : list (list Z)) :
  length garbage = 4%nat → murmurhash32_iobuf garbage blocks = murmurhash32 (concat blocks).
Proof.
  intros Hg. unfold murmurhash32_iobuf, murmurhash32.
  cut (∀ ctx fed, mm_rep ctx 0 fed → mm_rep (foldl (λ ctx sp, if decide (sp = []) then ctx else
    MurmurHash3_x86_32_Update ctx sp) ctx blocks) 0 (fed ++ concat blocks)).
  - intros Hcut. apply Final_rep. apply (Hcut (MurmurHash3_x86_32_Init garbage 0) []).
    split_and!; [done|done|cbn; lia|done].
  - clear Hg. induction blocks as [|sp blocks IH]; intros ctx fed Hr; [by rewrite app_nil_r|].
    cbn [foldl concat]. case_decide as Hs; [subst; by apply IH|].
    rewrite app_assoc. by apply IH, Update_rep.
Qed.

Lemma fmix32_range h : 0 ≤ fmix32 h < 2 ^ 32.
Proof.
  unfold fmix32. set (x := u32 (_ * 0xc2b2ae35)). pose proof (u32_range (Z.lxor (u32 (Z.lxor h (Z.shiftr h 16) * 0x85ebca6b))
    (Z.shiftr (u32 (Z.lxor h (Z.shiftr h 16) * 0x85ebca6b)) 13) * 0xc2b2ae35)) as Hx. fold x in Hx.
  assert (0 ≤ Z.shiftr x 16) by (apply Z.shiftr_nonneg; lia).
  assert (0 ≤ Z.lxor x (Z.shiftr x 16)) by (apply Z.lxor_nonneg; lia). split; [done|].
  destruct (decide (Z.lxor x (Z.shiftr x 16) = 0)) as [->|Hne]; [lia|].
  apply Z.log2_lt_pow2; [lia|]. eapply Z.le_lt_trans; [apply Z.log2_lxor; lia|].
  assert (Z.shiftr x 16 ≤ x) as Hle by (rewrite Z.shiftr_div_pow2 by lia; apply Z.div_le_upper_bound; lia).
  pose proof (Z.log2_le_mono _ _ Hle). rewrite Z.max_l by done.
  destruct (decide (x = 0)) as [->|]; [cbn; lia|]. apply Z.log2_lt_pow2; lia.
Qed.

Lemma murmurhash32_range key : 0 ≤ murmurhash32 key < 2 ^ 32.
Proof. apply fmix32_range. Qed.

(** The hash of an IOBuf does not depend on its blocks: feeding the blocks
    one by one, with whatever was in the context's tail buffer before, gives
    the one-shot hash of the bytes. *)
Theorem murmurhash32_iobuf_blocks (garbage : list Z) (blocks : list (list Z))
    (Hg : length garbage = 4%nat) :
  murmurhash32_iobuf garbage blocks = murmurhash32 (concat blocks).
Proof. by apply murmurhash32_iobuf_concat. Qed.

Lemma murmurhash32_iobuf_blocks_witness :
  murmurhash32_iobuf [9; 9; 9; 9] [[104]; [101; 108; 108; 111]; []; [33]] =
  murmurhash32 [104; 101; 108; 108; 111; 33].
Proof.
  apply (murmurhash32_iobuf_blocks [9; 9; 9; 9] [[104]; [101; 108; 108; 111]; []; [33]]). reflexivity.
Defined.
