(* ===== verification/FileSegData.v ===== *)
(** * File segments

    [FileSegData] of src/melon/raft/util.{h,cc}, the container snapshot files
    are sent in, and the loop of [FileServiceImpl::get_file]
    (src/melon/raft/file_service.cc) that leaves holes out of it.

    An [IOBuf] is the list of its bytes; the area [reserve] returns is the
    position of the reserved bytes, whose content is arbitrary until
    [unsafe_assign]. *)

From stdpp Require Import prelude sorting.
From S2P Require Import Prelude Bytes.
Local Open Scope Z_scope.

Record FileSegData := mkFileSegData {
  fs_data : list Z;
  fs_seg_header : nat;
  fs_seg_offset : Z;
  fs_seg_len : Z;
}.

Definition fs_writer : FileSegData := mkFileSegData [] 0 0 0.
Definition fs_reader (data : list Z) : FileSegData := mkFileSegData data 0 0 0.

Definition fs_header_size : nat := 12.

(** [unsafe_assign(area, header)]. *)
Definition fs_assign (data : list Z) (area : nat) (header : list Z) : list Z :=
  take area data ++ header ++ drop (area + length header) data.

(** Closing the last segment: its header is filled in if it has data. *)
Definition fs_close_segment (f : FileSegData) : list Z :=
  if decide (0 < fs_seg_len f) then
    fs_assign (fs_data f) (fs_seg_header f) (pack64 (fs_seg_offset f) ++ pack32 (fs_seg_len f))
  else fs_data f.

(** [append(data, offset)]; [garbage] is what the reserved bytes hold. *)
Definition fs_append (garbage : list Z) (f : FileSegData) (data : list Z) (offset : Z) : FileSegData :=
  let len := u32 (zlen data) in
  if decide (0 ≠ fs_seg_offset f ∧ offset = u64 (fs_seg_offset f + fs_seg_len f)) then
    mkFileSegData (fs_data f ++ data) (fs_seg_header f) (fs_seg_offset f) (u32 (fs_seg_len f + len))
  else
    let d := fs_close_segment f in
    mkFileSegData (d ++ take fs_header_size garbage ++ data) (length d) offset len.

Definition fs_close (f : FileSegData) : FileSegData :=
  mkFileSegData (fs_close_segment f) (fs_seg_header f) 0 0.

(** [next(&offset, &data)]: the reader left, the offset, the data and the size;
    an empty reader returns size 0. *)
Definition fs_next (f : FileSegData) : option (FileSegData * Z * list Z * Z) :=
  if decide (fs_data f = []) then Some (f, 0, [], 0)
  else
    let header_buf := take fs_header_size (fs_data f) in
    CHECK (length header_buf = fs_header_size);;
    let rest := drop fs_header_size (fs_data f) in
    '(seg_offset, s1) ← unpack64 header_buf;
    '(seg_len, _) ← unpack32 s1;
    let body := take (Z.to_nat seg_len) rest in
    CHECK (zlen body = seg_len);;
    Some (mkFileSegData (drop (Z.to_nat seg_len) rest) (fs_seg_header f) (fs_seg_offset f) (fs_seg_len f),
          seg_offset, body, seg_len).

(** [while (0 != data.next(&seg_offset, &seg_data))]: the segments read.  Each
    call takes a header off the data, so its length bounds their number. *)
Fixpoint fs_read_all (fuel : nat) (f : FileSegData) : option (list (Z * list Z)) :=
  match fuel with
  | O => None
  | S fuel' =>
      '(f', offset, data, len) ← fs_next f;
      if decide (len = 0) then Some []
      else segs ← fs_read_all fuel' f'; Some ((offset, data) :: segs)
  end.

Definition fs_segments (data : list Z) : option (list (Z * list Z)) :=
  fs_read_all (S (length data)) (fs_reader data).

(** [is_zero(buff, size)]: the first word (or byte) is 0 and the buffer equals
    itself shifted by it. *)
Definition is_zero (buff : list Z) : bool :=
  let size := length buff in
  if decide (8 ≤ size)%nat then
    bool_decide (load_le (take 8 buff) = 0) && bool_decide (take (size - 8) buff = drop 8 buff)
  else if decide (0 < size)%nat then
    bool_decide (load_le (take 1 buff) = 0) && bool_decide (take (size - 1) buff = drop 1 buff)
  else false.

(** The hole check of [get_file]: blocks of zeros are skipped. *)
Fixpoint fs_send (garbage : list Z) (f : FileSegData) (blocks : list (list Z)) (buf_off : Z) : FileSegData :=
  match blocks with
  | [] => f
  | p :: ps =>
      let f' := if is_zero p then f else fs_append garbage f p buf_off in
      fs_send garbage f' ps (buf_off + zlen p)
  end.

(** The attachment [get_file] replies with. *)
Definition get_file_attachment (garbage : list Z) (check_hole : bool) (blocks : list (list Z)) (offset : Z)
  : list Z :=
  if decide (concat blocks = []) then []
  else if check_hole then fs_data (fs_close (fs_send garbage fs_writer blocks offset))
  else fs_data (fs_close (fs_append garbage fs_writer (concat blocks) offset)).

(** The loops of [RemoteFileCopier::Session::on_rpc_returned]: the reply is
    written into the file, whose [write] gives the new content and the number
    of bytes written, or appended to the buffer ([resize] pads it with zeros). *)
Section client.
  Variable write : list Z → list Z → Z → list Z * Z.

Fixpoint copy_to_file (fuel : nat) (f : FileSegData) (file : list Z) : option (list Z * Z) :=
  match fuel with
  | O => None
  | S fuel' =>
      '(f', seg_offset, seg_data, len) ← fs_next f;
      if decide (0 ≠ len) then
        let '(file', nwritten) := write file seg_data seg_offset in
        if decide (nwritten ≠ zlen seg_data) then Some (file', EIO)
        else copy_to_file fuel' f' file'
      else Some (file, 0)
  end.
End client.

Fixpoint copy_to_buf (fuel : nat) (f : FileSegData) (buf : list Z) : option (list Z) :=
  match fuel with
  | O => None
  | S fuel' =>
      '(f', seg_offset, seg_data, len) ← fs_next f;
      if decide (0 ≠ len) then
        CHECK (zlen buf ≤ seg_offset);;
        copy_to_buf fuel' f' (bytes_resize buf seg_offset ++ seg_data)
      else Some buf
  end.

(** ** Specification *)

Lemma list_bind_singleton {A B} (g : A → list B) (x : A) : ([x] ≫= g) = g x.
Proof. apply app_nil_r. Qed.


(** The addressed bytes of a write. *)
Definition place (w : Z * list Z) : list (Z * Z) := imap (λ i b, (w.1 + Z.of_nat i, b)) w.2.
Definition places (ws : list (Z * list Z)) : list (Z * Z) := ws ≫= place.

Definition encode_segment (w : Z * list Z) : list Z := pack64 w.1 ++ pack32 (zlen w.2) ++ w.2.

(** A segment of 1 to 2^32-1 bytes inside the 64-bit offsets. *)
Definition segment_ok (w : Z * list Z) : Prop :=
  w.2 ≠ [] ∧ zlen w.2 < 2 ^ 32 ∧ 0 ≤ w.1 ∧ w.1 + zlen w.2 < 2 ^ 64.

(** The writer holds closed segments and an open one whose header is still to
    be filled in. *)
Definition fs_rep (f : FileSegData) (closed : list (Z * list Z)) (open : option (Z * list Z)) : Prop :=
  Forall segment_ok closed ∧
  match open with
  | None => fs_data f = (closed ≫= encode_segment) ∧ fs_seg_len f = 0 ∧ fs_seg_offset f = 0
  | Some w =>
      segment_ok w ∧ fs_seg_offset f = w.1 ∧ fs_seg_len f = zlen w.2 ∧
      fs_seg_header f = length (closed ≫= encode_segment) ∧
      ∃ hdr, length hdr = fs_header_size ∧ fs_data f = (closed ≫= encode_segment) ++ hdr ++ w.2
  end.

Lemma place_app o a b : place (o, a ++ b) = place (o, a) ++ place (o + zlen a, b).
Proof.
  unfold place. cbn. rewrite imap_app. f_equal. apply imap_ext. intros i x Hx. cbn. f_equal. unfold zlen. lia.
Qed.

Lemma places_app ws vs : places (ws ++ vs) = places ws ++ places vs.
Proof. apply bind_app. Qed.

Lemma places_one w : places [w] = place w.
Proof. apply list_bind_singleton. Qed.

Lemma header_length o n : length (pack64 o ++ pack32 n) = fs_header_size.
Proof. by rewrite length_app, pack64_length, pack32_length. Qed.

Lemma fs_close_segment_rep f closed open :
  fs_rep f closed open → fs_close_segment f = (closed ++ option_list open) ≫= encode_segment.
Proof.
  intros [Hc Ho]. unfold fs_close_segment. destruct open as [w|].
  - destruct Ho as ((Hne & Hlt & _) & Hoff & Hlen & Hhd & hdr & Hh & Hd).
    assert (0 < zlen w.2) by (unfold zlen; destruct w.2; [done|cbn; lia]).
    rewrite decide_True by lia. unfold fs_assign. rewrite Hd, Hhd, Hoff, Hlen, bind_app. change (option_list (Some w)) with [w].
    rewrite list_bind_singleton, take_app_length. rewrite header_length, <-Hh.
    rewrite (app_assoc _ hdr), drop_app_length' by (by rewrite length_app). unfold encode_segment.
    by rewrite <-!app_assoc.
  - destruct Ho as (Hd & Hlen & _). rewrite decide_False by lia. by rewrite app_nil_r.
Qed.

Lemma segment_ok_u32 w : segment_ok w → u32 (zlen w.2) = zlen w.2.
Proof. intros (_ & Hlt & _). apply u32_small. pose proof (zlen_nonneg w.2). lia. Qed.

(** There is room for [n] more bytes at [o]; the open segment has it. *)
Definition range_ok (o : Z) (n : Z) : Prop := 0 ≤ o ∧ n < 2 ^ 32 ∧ o + n < 2 ^ 64.
Definition open_room (open : option (Z * list Z)) (n : Z) : Prop :=
  ∀ w, open = Some w → range_ok w.1 (zlen w.2 + n).

Lemma segment_ok_range o d n : d ≠ [] → 0 ≤ n → range_ok o (zlen d + n) → segment_ok (o, d).
Proof. unfold range_ok, segment_ok. cbn. intros. split_and!; [done|lia..]. Qed.

(** Appending keeps the addressed bytes in order. *)
Lemma fs_append_rep garbage f closed open data offset n :
  length garbage = fs_header_size → fs_rep f closed open → data ≠ [] → 0 ≤ n →
  range_ok offset (zlen data + n) → open_room open (zlen data + n) →
  ∃ closed' open', fs_rep (fs_append garbage f data offset) closed' (Some open') ∧
    places (closed' ++ [open']) = places (closed ++ option_list open) ++ place (offset, data) ∧
    open_room (Some open') n.
Proof.
  intros Hg Hr Hne Hn Hro Hoo. pose proof (segment_ok_range _ _ _ Hne Hn Hro) as Hok.
  pose proof (segment_ok_u32 _ Hok) as Hu. cbn in Hu. unfold fs_append. rewrite Hu.
  case_decide as Hcase.
  - destruct Hcase as [Hnz Heq]. destruct open as [w|]; [|destruct Hr as [_ (_ & _ & Hz)]; lia].
    pose proof Hr as [Hc (Hwok & Hoff & Hlen & Hhd & hdr & Hh & Hd)]. pose proof (Hoo w eq_refl) as Hm.
    assert (segment_ok (w.1, w.2 ++ data)) as Hok'.
    { apply (segment_ok_range _ _ n); [|done|rewrite zlen_app; by rewrite <-Z.add_assoc].
      by intros [_ ?]%app_nil. }
    exists closed, (w.1, w.2 ++ data). split_and!.
    + split; [done|]. cbn. split_and!; [done|done| |done|].
      * rewrite Hlen, <-zlen_app. apply (segment_ok_u32 _ Hok').
      * exists hdr. split; [done|]. by rewrite Hd, <-!app_assoc.
    + change (option_list (Some w)) with [w]. rewrite !places_app, !places_one, <-app_assoc. f_equal.
      destruct w as [o wd]. cbn [fst snd] in *. rewrite place_app. f_equal. f_equal.
      rewrite Heq, Hoff, Hlen. destruct Hwok as (_ & _ & ? & ?). cbn in *. unfold u64. f_equal.
      symmetry. apply Z.mod_small. pose proof (zlen_nonneg wd). lia.
    + intros w' [= <-]. cbn. by rewrite zlen_app, <-Z.add_assoc.
  - pose proof (fs_close_segment_rep _ _ _ Hr) as Hcl. exists (closed ++ option_list open), (offset, data). split_and!.
    + split.
      * destruct Hr as [Hc Ho]. apply Forall_app. split; [done|]. destruct open; [|constructor].
        destruct Ho as [? _]. by constructor.
      * cbn [fs_data fs_seg_header fs_seg_offset fs_seg_len fst snd]. rewrite Hcl. split_and!; try done.
        exists (take fs_header_size garbage). rewrite take_ge by lia. split; [done|]. done.
    + by rewrite !places_app, places_one.
    + by intros w' [= <-].
Qed.

(** ** Reading *)

Lemma fs_next_segment w rest p o n :
  segment_ok w →
  fs_next (mkFileSegData (encode_segment w ++ rest) p o n) =
  Some (mkFileSegData rest p o n, w.1, w.2, zlen w.2).
Proof.
  intros Hw. pose proof (segment_ok_u32 _ Hw) as Hu. destruct Hw as (Hne & Hlt & Ho & Hoe).
  unfold fs_next. cbn [fs_data fs_seg_header fs_seg_offset fs_seg_len]. unfold encode_segment. rewrite <-!app_assoc.
  rewrite decide_False.
  2:{ intros E. apply (f_equal length) in E. rewrite length_app, pack64_length in E. cbn in E. lia. }
  rewrite (app_assoc (pack64 w.1) (pack32 (zlen w.2))).
  rewrite take_app_length', drop_app_length' by (by rewrite header_length).
  rewrite CHECK_true by apply header_length. cbn [mbind option_bind].
  rewrite unpack_pack64. cbn [mbind option_bind]. rewrite <-(app_nil_r (pack32 (zlen w.2))), unpack_pack32.
  cbn [mbind option_bind]. rewrite Hu. replace (Z.to_nat (zlen w.2)) with (length w.2) by (unfold zlen; lia).
  rewrite take_app_length, drop_app_length. rewrite CHECK_true by done. cbn [mbind option_bind].
  do 4 f_equal. unfold u64. apply Z.mod_small. pose proof (zlen_nonneg w.2). lia.
Qed.

Lemma fs_read_all_segments segs fuel p o n :
  Forall segment_ok segs → (length segs < fuel)%nat →
  fs_read_all fuel (mkFileSegData (segs ≫= encode_segment) p o n) = Some segs.
Proof.
  intros Hs. revert fuel. induction Hs as [|w segs Hw Hs IH]; intros fuel Hf;
    (destruct fuel as [|fuel]; [cbn in Hf; lia|]); cbn [fs_read_all].
  - done.
  - cbn [mbind list_bind]. rewrite fs_next_segment by done. cbn [mbind option_bind].
    rewrite decide_False by (destruct Hw as [Hne _]; unfold zlen; destruct w.2; [done|cbn; lia]).
    rewrite IH by (cbn in Hf; lia). cbn. by destruct w.
Qed.

Lemma segments_count segs : (length segs ≤ length (segs ≫= encode_segment))%nat.
Proof.
  induction segs as [|w segs IH]; [done|]. rewrite bind_cons. cbn [length]. unfold encode_segment at 1.
  rewrite !length_app, pack64_length. lia.
Qed.

(** ** Sending a range of a file *)

(** The writes of the blocks that are kept. *)
Fixpoint sent (blocks : list (list Z)) (off : Z) : list (Z * list Z) :=
  match blocks with
  | [] => []
  | p :: ps => (if is_zero p then [] else [(off, p)]) ++ sent ps (off + zlen p)
  end.

(** [is_zero] is right about blocks of bytes. *)
Lemma shifted_zero (k : nat) (l : list Z) :
  (0 < k ≤ length l)%nat → Forall (λ b, b = 0) (take k l) → take (length l - k) l = drop k l →
  Forall (λ b, b = 0) l.
Proof.
  intros Hk Hz Heq. apply Forall_lookup. intros i. induction (lt_wf i) as [i _ IH]. intros x Hx.
  destruct (decide (i < k)%nat).
  - rewrite Forall_lookup in Hz. apply (Hz i). by rewrite lookup_take_lt.
  - pose proof (lookup_lt_Some _ _ _ Hx). apply (IH (i - k)%nat); [lia|].
    rewrite <-(lookup_take_lt l (length l - k)) by lia. rewrite Heq, lookup_drop. rewrite <-Hx. f_equal. lia.
Qed.

Lemma load_le_zero l : bytes l → load_le l = 0 → Forall (λ b, b = 0) l.
Proof.
  induction 1 as [|b l Hb Hl IH]; intros Hz; constructor; cbn in Hz; pose proof (load_le_range l Hl); unfold byte in Hb;
    [lia|]. apply IH. lia.
Qed.

Lemma is_zero_zeros p : bytes p → is_zero p = true → Forall (λ b, b = 0) p.
Proof.
  intros Hb. unfold is_zero.
  assert (∀ k : nat, (0 < k ≤ length p)%nat →
    bool_decide (load_le (take k p) = 0) && bool_decide (take (length p - k) p = drop k p) = true →
    Forall (λ b, b = 0) p) as H.
  { intros k Hk (H1%bool_decide_eq_true & H2%bool_decide_eq_true)%andb_true_iff. apply (shifted_zero k); [done| |done].
    apply load_le_zero; [by apply Forall_take|done]. }
  case_decide; [apply H; lia|]. case_decide; [apply H; lia|]. done.
Qed.

Lemma fs_send_rep garbage blocks f closed open off :
  length garbage = fs_header_size → fs_rep f closed open → Forall (λ p, p ≠ []) blocks →
  range_ok off (zlen (concat blocks)) → open_room open (zlen (concat blocks)) →
  ∃ closed' open', fs_rep (fs_send garbage f blocks off) closed' open' ∧
    places (closed' ++ option_list open') = places (closed ++ option_list open) ++ places (sent blocks off).
Proof.
  intros Hg Hr Hb. revert f closed open off Hr.
  induction Hb as [|p blocks Hp Hb IH]; intros f closed open off Hr Hro Hoo; cbn [fs_send sent].
  - exists closed, open. split; [done|]. by rewrite app_nil_r.
  - cbn [concat] in Hro, Hoo. rewrite zlen_app in Hro, Hoo.
    pose proof (zlen_nonneg (concat blocks)). pose proof (zlen_nonneg p).
    assert (range_ok (off + zlen p) (zlen (concat blocks))) by (unfold range_ok in *; lia).
    destruct (is_zero p).
    + apply IH; [done|done|]. intros w Hw. specialize (Hoo w Hw). unfold range_ok in *. lia.
    + destruct (fs_append_rep garbage f closed open p off (zlen (concat blocks))) as (c1 & o1 & Hr1 & Hp1 & Hoo1); [done..|].
      destruct (IH _ _ _ _ Hr1 ltac:(done) Hoo1) as (c2 & o2 & Hr2 & Hp2). exists c2, o2. split; [done|].
      rewrite Hp2, (places_app [(off, p)]), places_one. change (option_list (Some o1)) with [o1].
      by rewrite Hp1, <-app_assoc.
Qed.

Lemma fs_close_segments f closed open :
  fs_rep f closed open →
  ∃ segs, fs_data (fs_close f) = (segs ≫= encode_segment) ∧ Forall segment_ok segs ∧
    places segs = places (closed ++ option_list open).
Proof.
  intros Hr. exists (closed ++ option_list open). split_and!; [by apply fs_close_segment_rep| |done].
  destruct Hr as [Hc Ho]. apply Forall_app. split; [done|]. destruct open; [|constructor].
  destruct Ho as [? _]. by constructor.
Qed.

(** The writes of a reply, with and without the hole check. *)
Definition reply_writes (check_hole : bool) (blocks : list (list Z)) (off : Z) : list (Z * list Z) :=
  if check_hole then sent blocks off
  else if decide (concat blocks = []) then [] else [(off, concat blocks)].

Lemma fs_writer_rep : fs_rep fs_writer [] None.
Proof. split; [constructor|]. done. Qed.

Lemma concat_nil_blocks (blocks : list (list Z)) : Forall (λ p, p ≠ []) blocks → concat blocks = [] → blocks = [].
Proof. intros [|p ps Hp _]; [done|]. cbn. by intros [? _]%app_nil. Qed.

Lemma get_file_segments garbage check_hole blocks off :
  length garbage = fs_header_size → Forall (λ p, p ≠ []) blocks → range_ok off (zlen (concat blocks)) →
  ∃ segs, get_file_attachment garbage check_hole blocks off = (segs ≫= encode_segment) ∧
    Forall segment_ok segs ∧ places segs = places (reply_writes check_hole blocks off).
Proof.
  intros Hg Hb Hro. unfold get_file_attachment, reply_writes. case_decide as Hnil.
  - exists []. split_and!; [done|constructor|]. destruct check_hole; [|done].
    by rewrite (concat_nil_blocks _ Hb Hnil).
  - destruct check_hole.
    + destruct (fs_send_rep garbage blocks fs_writer [] None off) as (c & o & Hr & Hp);
        [done|apply fs_writer_rep|done..|].
      destruct (fs_close_segments _ _ _ Hr) as (segs & Hs & Hok & Hpl). exists segs.
      rewrite Hpl, Hp. done.
    + destruct (fs_append_rep garbage fs_writer [] None (concat blocks) off 0) as (c & o & Hr & Hp & _);
        [done|apply fs_writer_rep|done|done|by rewrite Z.add_0_r|done|].
      destruct (fs_close_segments _ _ _ Hr) as (segs & Hs & Hok & Hpl). exists segs.
      rewrite Hpl. change (option_list (Some o)) with [o]. rewrite Hp, places_one. done.
Qed.

(** ** Receiving it *)

(** The byte at an offset; files and buffers read as zeros past their end. *)
Definition byte_at (f : list Z) (i : Z) : Z := default 0 (zlookup f i).

(** The last byte written at [i], or [v]. *)
Definition last_write (i : Z) (v : Z) (ps : list (Z * Z)) : Z :=
  foldl (λ v p, if decide (p.1 = i) then p.2 else v) v ps.

Lemma byte_at_bytes_write f off data i :
  0 ≤ off →
  byte_at (bytes_write f off data) i =
    if decide (off ≤ i < off + zlen data) then byte_at data (i - off) else byte_at f i.
Proof.
  intros Ho. unfold byte_at, bytes_write, bytes_resize.
  destruct (decide (i < 0)) as [Hneg|Hpos].
  { rewrite decide_False by lia. unfold zlookup. by destruct (decide (i < 0)). }
  set (pre := take _ f ++ replicate _ 0).
  assert (zlen pre = off) as Hpre.
  { unfold pre. rewrite zlen_app, zlen_take. unfold zlen at 2. rewrite length_replicate.
    pose proof (zlen_nonneg f). lia. }
  destruct (decide (i < off)).
  - rewrite zlookup_app_l by lia. rewrite decide_False by lia. unfold pre. unfold zlookup. rewrite !decide_False by lia.
    destruct (decide (i < zlen f)) as [Hi|Hi]; unfold zlen in Hi.
    + rewrite lookup_app_l by (rewrite length_take; lia). by rewrite lookup_take_lt by lia.
    + rewrite lookup_app_r by (rewrite length_take; lia). rewrite (lookup_ge_None_2 f) by lia.
      rewrite lookup_replicate_2; [done|]. rewrite length_take. unfold zlen. lia.
  - rewrite zlookup_app_r by lia. rewrite Hpre. destruct (decide (i - off < zlen data)).
    + rewrite zlookup_app_l by lia. by rewrite decide_True by lia.
    + rewrite zlookup_app_r by lia. rewrite decide_False by lia. unfold zlookup. rewrite !decide_False by lia.
      rewrite lookup_drop. do 2 f_equal. unfold zlen in *. lia.
Qed.

Lemma last_write_app i v ps qs : last_write i v (ps ++ qs) = last_write i (last_write i v ps) qs.
Proof. apply foldl_app. Qed.

Lemma last_write_place i v o d :
  last_write i v (place (o, d)) = if decide (o ≤ i < o + zlen d) then byte_at d (i - o) else v.
Proof.
  revert v o. induction d as [|b d IH]; intros v o.
  { cbn. rewrite decide_False; [done|]. rewrite zlen_nil. lia. }
  change (b :: d) with ([b] ++ d). rewrite place_app, last_write_app, IH.
  unfold byte_at. rewrite zlen_app. change (zlen [b]) with 1. unfold last_write, place. cbn [imap fst snd foldl].
  pose proof (zlen_nonneg d). destruct (decide (o + 1 ≤ i < o + 1 + zlen d)).
  - rewrite decide_True by lia. rewrite zlookup_app_r by (change (zlen [b]) with 1; lia).
    do 2 f_equal. change (zlen [b]) with 1. lia.
  - destruct (decide (o + Z.of_nat 0 = i)).
    + rewrite decide_True by lia. replace (i - o) with 0 by lia. done.
    + rewrite decide_False by lia. done.
Qed.

Lemma byte_at_zeros p i : Forall (λ b, b = 0) p → byte_at p i = 0.
Proof.
  intros Hz. unfold byte_at, zlookup. case_decide; [done|]. destruct (p !! _) eqn:E; [|done]. cbn.
  by apply (Forall_lookup_1 _ _ _ _ Hz E).
Qed.

Lemma last_write_sent blocks off i v :
  Forall bytes blocks → (off ≤ i < off + zlen (concat blocks) → v = 0) →
  last_write i v (places (sent blocks off)) =
    if decide (off ≤ i < off + zlen (concat blocks)) then byte_at (concat blocks) (i - off) else v.
Proof.
  intros Hb. revert off v. induction Hb as [|p blocks Hp Hb IH]; intros off v Hv; cbn [sent concat].
  { rewrite decide_False; [done|]. rewrite zlen_nil. lia. }
  cbn [concat] in Hv. rewrite zlen_app in *. pose proof (zlen_nonneg (concat blocks)). pose proof (zlen_nonneg p).
  rewrite places_app, last_write_app.
  set (v1 := last_write i v (places (if is_zero p then [] else [(off, p)]))).
  assert (v1 = if decide (off ≤ i < off + zlen p) then byte_at p (i - off) else v) as Hv1.
  { unfold v1. destruct (is_zero p) eqn:Ez; [|by rewrite places_one, last_write_place].
    cbn. case_decide; [|done]. rewrite (byte_at_zeros p) by (by apply is_zero_zeros). apply Hv. lia. }
  rewrite IH.
  2:{ intros. rewrite Hv1, decide_False by lia. apply Hv. lia. }
  rewrite Hv1. unfold byte_at. destruct (decide (off ≤ i < off + zlen p)).
  - rewrite decide_False by lia. rewrite decide_True by lia. by rewrite zlookup_app_l by lia.
  - destruct (decide (off + zlen p ≤ i < off + zlen p + zlen (concat blocks))).
    + rewrite decide_True by lia. rewrite zlookup_app_r by lia. do 2 f_equal. lia.
    + by rewrite decide_False by lia.
Qed.

Lemma last_write_reply check_hole blocks off i v :
  Forall bytes blocks → (off ≤ i < off + zlen (concat blocks) → v = 0) →
  last_write i v (places (reply_writes check_hole blocks off)) =
    if decide (off ≤ i < off + zlen (concat blocks)) then byte_at (concat blocks) (i - off) else v.
Proof.
  intros Hb Hv. unfold reply_writes. destruct check_hole; [by apply last_write_sent|]. case_decide as Hn.
  - rewrite Hn. rewrite decide_False; [done|]. rewrite zlen_nil. lia.
  - by rewrite places_one, last_write_place.
Qed.

(** The addresses of a reply increase and stay in the range. *)
Definition ascending (lo hi : Z) (ps : list (Z * Z)) : Prop :=
  StronglySorted (λ p q, p.1 < q.1) ps ∧ Forall (λ p, lo ≤ p.1 < hi) ps.

Lemma ascending_app lo mid hi ps qs :
  lo ≤ mid ≤ hi → ascending lo mid ps → ascending mid hi qs → ascending lo hi (ps ++ qs).
Proof.
  intros Hm [Hs1 Hf1] [Hs2 Hf2]. split.
  - apply StronglySorted_app_2; [|done|done]. intros x y Hx Hy.
    rewrite Forall_forall in Hf1, Hf2. specialize (Hf1 x Hx). specialize (Hf2 y Hy). lia.
  - apply Forall_app. split; eapply Forall_impl; try done; cbn; intros; lia.
Qed.

Lemma ascending_place o d : ascending o (o + zlen d) (place (o, d)).
Proof.
  revert o. induction d as [|b d IH]; intros o; [split; constructor|].
  change (b :: d) with ([b] ++ d). rewrite place_app, zlen_app. change (zlen [b]) with 1. rewrite Z.add_assoc.
  pose proof (zlen_nonneg d). apply (ascending_app _ (o + 1)); [lia| |apply IH].
  split; repeat constructor; cbn; lia.
Qed.

Lemma ascending_sent blocks off : ascending off (off + zlen (concat blocks)) (places (sent blocks off)).
Proof.
  revert off. induction blocks as [|p blocks IH]; intros off; cbn [sent concat]; [split; constructor|].
  rewrite places_app, zlen_app, Z.add_assoc. pose proof (zlen_nonneg (concat blocks)). pose proof (zlen_nonneg p).
  apply (ascending_app _ (off + zlen p)); [lia| |apply IH].
  destruct (is_zero p); [split; constructor|]. rewrite places_one. apply ascending_place.
Qed.

Lemma ascending_reply check_hole blocks off :
  ascending off (off + zlen (concat blocks)) (places (reply_writes check_hole blocks off)).
Proof.
  unfold reply_writes. destruct check_hole; [apply ascending_sent|]. case_decide; [split; constructor|].
  rewrite places_one. apply ascending_place.
Qed.

(** A non-empty segment and what follows it. *)
Lemma place_elem o d k : 0 ≤ k < zlen d → ∃ b, (o + k, b) ∈ place (o, d).
Proof.
  intros Hk. destruct (lookup_lt_is_Some_2 d (Z.to_nat k)) as [b Hb]; [unfold zlen in Hk; lia|].
  exists b. apply (list_elem_of_lookup_2 _ (Z.to_nat k)). unfold place. cbn [fst snd].
  rewrite list_lookup_imap, Hb. cbn. do 2 f_equal. lia.
Qed.

Lemma ascending_segment lo hi w segs :
  w.2 ≠ [] → ascending lo hi (places (w :: segs)) →
  lo ≤ w.1 ∧ w.1 + zlen w.2 ≤ hi ∧ ascending (w.1 + zlen w.2) hi (places segs).
Proof.
  destruct w as [o d]. cbn [fst snd]. intros Hne [Hs Hf].
  change ((o, d) :: segs) with ([(o, d)] ++ segs) in *. rewrite places_app, places_one in *.
  apply Forall_app in Hf as [Hf1 Hf2]. rewrite Forall_forall in Hf1.
  assert (0 < zlen d) by (unfold zlen; destruct d; [done|cbn; lia]).
  destruct (place_elem o d 0) as [b0 Hb0]; [lia|]. destruct (place_elem o d (zlen d - 1)) as [b1 Hb1]; [lia|].
  pose proof (Hf1 _ Hb0) as H0. pose proof (Hf1 _ Hb1) as H1. cbn in H0, H1. split_and!; [lia|lia|].
  split; [by eapply StronglySorted_app_1_r|].
  apply Forall_forall. intros q Hq. rewrite Forall_forall in Hf2. specialize (Hf2 q Hq).
  eapply StronglySorted_app_1_elem_of in Hs; [|exact Hb1|exact Hq]. cbn in Hs. lia.
Qed.

Lemma copy_to_buf_segments segs buf fuel hi p o n :
  Forall segment_ok segs → (length segs < fuel)%nat → zlen buf ≤ hi → ascending (zlen buf) hi (places segs) →
  ∃ buf', copy_to_buf fuel (mkFileSegData (segs ≫= encode_segment) p o n) buf = Some buf' ∧ zlen buf' ≤ hi ∧
    ∀ i, byte_at buf' i = last_write i (byte_at buf i) (places segs).
Proof.
  intros Hs. revert buf fuel. induction Hs as [|w segs Hw Hs IH]; intros buf fuel Hf Hhi Hasc;
    (destruct fuel as [|fuel]; [cbn in Hf; lia|]); cbn [copy_to_buf].
  { exists buf. done. }
  rewrite bind_cons, fs_next_segment by done. cbn [mbind option_bind].
  pose proof Hw as (Hne & _ & Ho & _).
  rewrite decide_True by (unfold zlen; destruct w.2; [done|cbn; lia]).
  destruct (ascending_segment _ _ _ _ Hne Hasc) as (H1 & H2 & H3). rewrite CHECK_true by done. cbn [mbind option_bind].
  assert (bytes_resize buf w.1 ++ w.2 = bytes_write buf w.1 w.2) as ->.
  { unfold bytes_write. rewrite drop_ge; [by rewrite app_nil_r|]. pose proof (zlen_nonneg w.2). unfold zlen in *. lia. }
  assert (zlen (bytes_write buf w.1 w.2) = w.1 + zlen w.2) as Hl.
  { unfold bytes_write, bytes_resize. rewrite !zlen_app, zlen_take, zlen_drop. unfold zlen at 2. rewrite length_replicate.
    pose proof (zlen_nonneg buf). pose proof (zlen_nonneg w.2). lia. }
  destruct (IH (bytes_write buf w.1 w.2) fuel) as (buf' & Hc & Hle & Hb); [cbn in Hf; lia|lia|by rewrite Hl|].
  exists buf'. split_and!; [done|done|]. intros i. rewrite Hb, byte_at_bytes_write by done.
  change (w :: segs) with ([w] ++ segs). rewrite places_app, last_write_app, places_one. destruct w.
  by rewrite last_write_place.
Qed.

Lemma copy_to_file_segments write segs file fuel p o n :
  (∀ f d off, (write f d off).2 = zlen d → (write f d off).1 = bytes_write f off d) →
  Forall segment_ok segs → (length segs < fuel)%nat →
  ∃ file' rc, copy_to_file write fuel (mkFileSegData (segs ≫= encode_segment) p o n) file = Some (file', rc) ∧
    (rc = 0 ∨ rc = EIO) ∧
    (rc = 0 → ∀ i, byte_at file' i = last_write i (byte_at file i) (places segs)).
Proof.
  intros Hwr Hs. revert file fuel. induction Hs as [|w segs Hw Hs IH]; intros file fuel Hf;
    (destruct fuel as [|fuel]; [cbn in Hf; lia|]); cbn [copy_to_file].
  { exists file, 0. split_and!; [done|by left|done]. }
  rewrite bind_cons, fs_next_segment by done. cbn [mbind option_bind].
  pose proof Hw as (Hne & _ & Ho & _).
  rewrite decide_True by (unfold zlen; destruct w.2; [done|cbn; lia]).
  specialize (Hwr file w.2 w.1). destruct (write file w.2 w.1) as [f1 nw] eqn:Ew. cbn [fst snd] in Hwr.
  case_decide as Hnw.
  { exists f1, EIO. split_and!; [done|by right|done]. }
  destruct (IH f1 fuel) as (file' & rc & Hc & Hrc & Hb); [cbn in Hf; lia|].
  exists file', rc. split_and!; [done|done|]. intros Hz i. rewrite (Hb Hz), Hwr, byte_at_bytes_write by (done || lia).
  change (w :: segs) with ([w] ++ segs). rewrite places_app, last_write_app, places_one. destruct w.
  by rewrite last_write_place.
Qed.

(** ** Properties *)

(** A reply of [get_file] copied into the memory buffer of a copier that
    already holds the file up to the requested offset never trips the
    [CHECK]s of [next] and of the copier, and leaves the bytes before the
    offset as they were and the bytes of the file in the requested range,
    holes left out of the reply included. *)
Theorem get_file_copied_to_buffer garbage check_hole blocks off buf :
  length garbage = fs_header_size → Forall (λ p, p ≠ [] ∧ bytes p) blocks →
  range_ok off (zlen (concat blocks)) → zlen buf ≤ off →
  let attachment := get_file_attachment garbage check_hole blocks off in
  ∃ buf', copy_to_buf (S (length attachment)) (fs_reader attachment) buf = Some buf' ∧
    zlen buf' ≤ off + zlen (concat blocks) ∧
    ∀ i, byte_at buf' i =
      if decide (off ≤ i < off + zlen (concat blocks)) then byte_at (concat blocks) (i - off) else byte_at buf i.
Proof.
  intros Hg Hb Hro Hbuf. apply Forall_and in Hb as [Hb1 Hb2]. cbn zeta.
  destruct (get_file_segments garbage check_hole blocks off) as (segs & -> & Hok & Hpl); [done..|].
  pose proof (zlen_nonneg (concat blocks)).
  destruct (copy_to_buf_segments segs buf (S (length (segs ≫= encode_segment))) (off + zlen (concat blocks)) 0 0 0)
    as (buf' & Hc & Hl & Hbytes); [done|pose proof (segments_count segs); lia|lia| |].
  { rewrite Hpl. destruct (ascending_reply check_hole blocks off) as [Hs Hf]. split; [done|].
    eapply Forall_impl; [exact Hf|]. cbn. intros; lia. }
  exists buf'. split_and!; [done|done|]. intros i. rewrite Hbytes, Hpl. apply last_write_reply; [done|].
  intros Hi. unfold byte_at, zlookup. case_decide; [done|]. rewrite lookup_ge_None_2; [done|]. unfold zlen in Hbuf. lia.
Qed.

Lemma get_file_copied_to_buffer_witness :
  let blocks := [[7; 8]; replicate 9 0; [0; 5]] in
  let attachment := get_file_attachment (replicate 12 1) true blocks 3 in
  length attachment = 28%nat ∧
  ∃ buf', copy_to_buf (S (length attachment)) (fs_reader attachment) [1; 2; 3] = Some buf' ∧
    zlen buf' ≤ 3 + zlen (concat blocks) ∧
    ∀ i, byte_at buf' i =
      if decide (3 ≤ i < 3 + zlen (concat blocks)) then byte_at (concat blocks) (i - 3) else byte_at [1; 2; 3] i.
Proof.
  split; [vm_compute; reflexivity|].
  apply (get_file_copied_to_buffer (replicate 12 1) true [[7; 8]; replicate 9 0; [0; 5]] 3 [1; 2; 3]).
  - reflexivity.
  - repeat constructor; discriminate.
  - repeat split; vm_compute; congruence.
  - vm_compute. congruence.
Defined.

(** The same reply written into the copier's file: the loop ends with
    success or [EIO], and on success the requested range holds the bytes of
    the file, provided the file had no data there when holes are left out. *)
Theorem get_file_copied_to_file write garbage check_hole blocks off file :
  (∀ f d o, (write f d o).2 = zlen d → (write f d o).1 = bytes_write f o d) →
  length garbage = fs_header_size → Forall (λ p, p ≠ [] ∧ bytes p) blocks →
  range_ok off (zlen (concat blocks)) →
  (∀ i, off ≤ i < off + zlen (concat blocks) → byte_at file i = 0) →
  let attachment := get_file_attachment garbage check_hole blocks off in
  ∃ file' rc, copy_to_file write (S (length attachment)) (fs_reader attachment) file = Some (file', rc) ∧
    (rc = 0 ∨ rc = EIO) ∧
    (rc = 0 → ∀ i, byte_at file' i =
      if decide (off ≤ i < off + zlen (concat blocks)) then byte_at (concat blocks) (i - off) else byte_at file i).
Proof.
  intros Hwr Hg Hb Hro Hfile. apply Forall_and in Hb as [Hb1 Hb2]. cbn zeta.
  destruct (get_file_segments garbage check_hole blocks off) as (segs & -> & Hok & Hpl); [done..|].
  destruct (copy_to_file_segments write segs file (S (length (segs ≫= encode_segment))) 0 0 0)
    as (file' & rc & Hc & Hrc & Hbytes); [done|done|pose proof (segments_count segs); lia|].
  exists file', rc. split_and!; [done|done|]. intros Hz i. rewrite (Hbytes Hz), Hpl. apply last_write_reply; [done|].
  apply Hfile.
Qed.

Lemma get_file_copied_to_file_witness :
  let blocks := [[7; 8]; replicate 9 0; [0; 5]] in
  let attachment := get_file_attachment (replicate 12 1) true blocks 3 in
  let write := λ f d o, (bytes_write f o d, zlen d) in
  ∃ file' rc, copy_to_file write (S (length attachment)) (fs_reader attachment) [1; 2; 3] = Some (file', rc) ∧
    (rc = 0 ∨ rc = EIO) ∧
    (rc = 0 → ∀ i, byte_at file' i =
      if decide (3 ≤ i < 3 + zlen (concat blocks)) then byte_at (concat blocks) (i - 3) else byte_at [1; 2; 3] i).
Proof.
  apply (get_file_copied_to_file (λ f d o, (bytes_write f o d, zlen d)) (replicate 12 1) true
           [[7; 8]; replicate 9 0; [0; 5]] 3 [1; 2; 3]).
  - reflexivity.
  - reflexivity.
  - repeat constructor; discriminate.
  - repeat split; vm_compute; congruence.
  - intros i Hi. unfold byte_at, zlookup. case_decide; [done|]. rewrite lookup_ge_None_2; [done|]. cbn. lia.
Defined.
