(* ===== verification/Text.v ===== *)
(** * Decimal text

    The conversions of the C library the sources print and scan numbers with:
    [printf]'s [%d] and [%020ld], and [sscanf]'s literal characters, [%d],
    [%20ld], [%[^:]] and [%*[:]].  A string is the list of its character codes. *)

From Stdlib Require Import Ascii String.
From stdpp Require Import prelude.
From S2P Require Import Prelude.
Local Open Scope Z_scope.

Definition ch_dot : Z := 46.
Definition ch_colon : Z := 58.
Definition ch_comma : Z := 44.
Definition ch_minus : Z := 45.
Definition ch_plus : Z := 43.
Definition ch_zero : Z := 48.
Definition ch_underscore : Z := 95.

(** The codes of a literal. *)
Fixpoint chars (s : string) : list Z :=
  match s with
  | EmptyString => []
  | String a s' => Z.of_nat (nat_of_ascii a) :: chars s'
  end.

Definition is_digit (c : Z) : bool := bool_decide (48 ≤ c ≤ 57).

(** [isspace] of the C locale. *)
Definition is_space (c : Z) : bool := bool_decide (c = 32 ∨ 9 ≤ c ≤ 13).

(** ** Printing *)

(** The [n] low decimal digits of [x], most significant first. *)
Fixpoint fixed_digits (n : nat) (x : Z) : list Z :=
  match n with O => [] | S n' => fixed_digits n' (x / 10) ++ [ch_zero + x mod 10] end.

(** The digits of [x] without leading zeros; [fuel] digits are enough. *)
Fixpoint dec_digits (fuel : nat) (x : Z) : list Z :=
  match fuel with
  | O => []
  | S fuel' => (if decide (x < 10) then [] else dec_digits fuel' (x / 10)) ++ [ch_zero + x mod 10]
  end.

(** [%d] of an integer of at most 64 bits. *)
Definition print_d (x : Z) : list Z :=
  if decide (x < 0) then ch_minus :: dec_digits 20 (- x) else dec_digits 20 x.

(** [%020ld]: padded with zeros to 20 characters, the sign included. *)
Definition print_020 (x : Z) : list Z :=
  if decide (x < 0) then ch_minus :: fixed_digits 19 (- x) else fixed_digits 20 x.

(** ** Scanning *)

Fixpoint span {A} (p : A → bool) (l : list A) : list A * list A :=
  match l with
  | [] => ([], [])
  | x :: l' => if p x then let '(a, b) := span p l' in (x :: a, b) else ([], l)
  end.

Definition digits_value (ds : list Z) : Z := foldl (λ v d, 10 * v + (d - ch_zero)) 0 ds.

(** The sign of a number, within a field of [w] characters. *)
Definition scan_sign (w : nat) (s : list Z) : Z * nat * list Z :=
  match w, s with
  | S w', c :: s' =>
      if decide (c = ch_minus) then (-1, w', s') else if decide (c = ch_plus) then (1, w', s') else (1, w, s)
  | _, _ => (1, w, s)
  end.

(** [%<w>ld]: leading space, then at most [w] characters of sign and digits.
    [None] is a failed match. *)
Definition scan_ld (w : nat) (s : list Z) : option (Z * list Z) :=
  let s0 := (span is_space s).2 in
  let '(sign, w', s1) := scan_sign w s0 in
  let ds := (span is_digit (take w' s1)).1 in
  if decide (ds = []) then None else Some (sign * digits_value ds, drop (length ds) s1).

(** [%d] has no width. *)
Definition scan_d (s : list Z) : option (Z * list Z) := scan_ld (length s) s.

(** A literal in the format. *)
Fixpoint scan_lit (lit s : list Z) : option (list Z) :=
  match lit with
  | [] => Some s
  | c :: lit' =>
      match s with
      | [] => None
      | d :: s' => if decide (c = d) then scan_lit lit' s' else None
      end
  end.

(** [%[^:]] and [%*[:]] match at least one character. *)
Definition scan_span (p : Z → bool) (s : list Z) : option (list Z * list Z) :=
  let '(a, b) := span p s in if decide (a = []) then None else Some (a, b).

(** ** Lemmas *)

Lemma span_app {A} (p : A → bool) l k :
  Forall (λ x, p x = true) l → (∀ x, head k = Some x → p x = false) → span p (l ++ k) = (l, k).
Proof.
  intros Hl Hk. induction Hl as [|x l Hx Hl IH]; cbn.
  - destruct k as [|y k]; [done|]. cbn. by rewrite (Hk y).
  - by rewrite Hx, IH.
Qed.

Lemma span_all {A} (p : A → bool) l : Forall (λ x, p x = true) l → span p l = (l, []).
Proof. intros Hl. rewrite <-(app_nil_r l) at 1. by rewrite span_app. Qed.

Lemma digits_value_app ds d : digits_value (ds ++ [d]) = 10 * digits_value ds + (d - ch_zero).
Proof. unfold digits_value. by rewrite foldl_app. Qed.

Definition digit (c : Z) : Prop := is_digit c = true.

Lemma digit_iff c : digit c ↔ 48 ≤ c ≤ 57.
Proof. unfold digit, is_digit. apply bool_decide_eq_true. Qed.

Lemma digit_of x : digit (ch_zero + x mod 10).
Proof. apply digit_iff. unfold ch_zero. pose proof (Z.mod_pos_bound x 10). lia. Qed.

Lemma fixed_digits_digit n x : Forall digit (fixed_digits n x).
Proof.
  revert x. induction n as [|n IH]; intros x; cbn; [constructor|]. apply Forall_app. split; [apply IH|].
  constructor; [apply digit_of|constructor].
Qed.

Lemma fixed_digits_length n x : length (fixed_digits n x) = n.
Proof. revert x. induction n as [|n IH]; intros x; cbn; [done|]. rewrite length_app, IH. cbn. lia. Qed.

Lemma fixed_digits_value n x : 0 ≤ x < 10 ^ Z.of_nat n → digits_value (fixed_digits n x) = x.
Proof.
  revert x. induction n as [|n IH]; intros x Hx.
  { change (10 ^ Z.of_nat 0) with 1 in Hx. assert (x = 0) as -> by lia. done. }
  rewrite Nat2Z.inj_succ, Z.pow_succ_r in Hx by lia. cbn [fixed_digits]. rewrite digits_value_app, IH.
  - pose proof (Z.div_mod x 10). lia.
  - split; [apply Z.div_pos; lia|apply Z.div_lt_upper_bound; lia].
Qed.

Lemma dec_digits_digit n x : Forall digit (dec_digits n x).
Proof.
  revert x. induction n as [|n IH]; intros x; cbn [dec_digits]; [constructor|]. apply Forall_app. split.
  - case_decide; [constructor|apply IH].
  - constructor; [apply digit_of|constructor].
Qed.

Lemma dec_digits_value n x : (0 < n)%nat → 0 ≤ x < 10 ^ Z.of_nat n → digits_value (dec_digits n x) = x.
Proof.
  revert x. induction n as [|n IH]; intros x Hn Hx; [lia|].
  rewrite Nat2Z.inj_succ, Z.pow_succ_r in Hx by lia. cbn [dec_digits]. rewrite digits_value_app.
  pose proof (Z.div_mod x 10). case_decide as Hd.
  - cbn. rewrite Z.mod_small by lia. lia.
  - assert (0 < n)%nat. { destruct n; [|lia]. cbn in Hx. lia. }
    rewrite IH; [lia|done|]. split; [apply Z.div_pos; lia|apply Z.div_lt_upper_bound; lia].
Qed.

Lemma dec_digits_cons n x : (0 < n)%nat → ∃ d ds, dec_digits n x = d :: ds ∧ digit d.
Proof.
  intros Hn. pose proof (dec_digits_digit n x) as Hd. destruct n as [|n]; [lia|].
  destruct (dec_digits (S n) x) as [|d ds] eqn:E.
  - cbn [dec_digits] in E. by apply app_nil in E as [_ ?].
  - inversion Hd. by exists d, ds.
Qed.

Lemma dec_digits_length n x : (length (dec_digits n x) ≤ n)%nat.
Proof.
  revert x. induction n as [|n IH]; intros x; cbn [dec_digits]; [done|]. rewrite length_app. cbn [length].
  case_decide; [cbn; lia|]. specialize (IH (x / 10)). lia.
Qed.

(** The first digit of a number of at least two digits is not 0. *)
Lemma dec_digits_head n x : 10 ≤ x < 10 ^ Z.of_nat n → ∃ d ds, dec_digits n x = d :: ds ∧ d ≠ ch_zero.
Proof.
  revert x. induction n as [|n IH]; intros x Hx; [change (10 ^ Z.of_nat 0) with 1 in Hx; lia|].
  rewrite Nat2Z.inj_succ, Z.pow_succ_r in Hx by lia. cbn [dec_digits]. rewrite decide_False by lia.
  pose proof (Z.div_mod x 10 ltac:(lia)). pose proof (Z.mod_pos_bound x 10 ltac:(lia)). destruct (decide (x / 10 < 10)) as [Hs|Hs].
  - destruct n as [|n]; [change (10 ^ Z.of_nat 0) with 1 in Hx; lia|]. cbn [dec_digits]. rewrite decide_True by done. cbn [app].
    eexists _, _. split; [done|]. rewrite Z.mod_small by lia. unfold ch_zero. lia.
  - destruct (IH (x / 10)) as (d & ds & -> & Hd); [split; [lia|apply Z.div_lt_upper_bound; lia]|].
    eexists _, _. split; [done|]. done.
Qed.

Definition not_digit_head (s : list Z) : Prop := ∀ c, head s = Some c → is_digit c = false.

Lemma digit_not_space c : digit c → is_space c = false.
Proof. rewrite digit_iff. intros. unfold is_space. apply bool_decide_eq_false. lia. Qed.

(** Scanning digits that fill the field or are followed by something else. *)
Lemma scan_ld_digits w ds s :
  Forall digit ds → ds ≠ [] → (length ds ≤ w)%nat → (length ds = w ∨ not_digit_head s) →
  scan_ld w (ds ++ s) = Some (digits_value ds, s).
Proof.
  intros Hd Hne Hw Hs. destruct ds as [|d ds]; [done|]. inversion Hd as [|? ? Hd1 Hd2]; subst.
  unfold scan_ld. cbn [app span]. rewrite digit_not_space by done. cbn [snd].
  apply digit_iff in Hd1 as Hd1'. unfold scan_sign. destruct w as [|w]; [cbn in Hw; lia|].
  rewrite decide_False by (unfold ch_minus; lia). rewrite decide_False by (unfold ch_plus; lia).
  assert ((span is_digit (take (S w) ((d :: ds) ++ s))).1 = d :: ds) as Hspan.
  { rewrite take_app, take_ge by done. destruct Hs as [<-|Hs].
    - by rewrite Nat.sub_diag, take_0, app_nil_r, span_all.
    - rewrite span_app; [done|done|]. intros c Hc. apply Hs.
      destruct (S w - length (d :: ds))%nat; [done|]. by destruct s. }
  change (d :: ds ++ s) with ((d :: ds) ++ s). rewrite Hspan. rewrite decide_False by done.
  rewrite Z.mul_1_l, drop_app_length. done.
Qed.

Lemma scan_ld_minus w ds s :
  Forall digit ds → ds ≠ [] → (length ds ≤ w)%nat → (length ds = w ∨ not_digit_head s) →
  scan_ld (S w) (ch_minus :: ds ++ s) = Some (- digits_value ds, s).
Proof.
  intros Hd Hne Hw Hs. unfold scan_ld. cbn [span]. change (is_space ch_minus) with false. cbn [snd scan_sign].
  rewrite decide_True by done.
  assert ((span is_digit (take w (ds ++ s))).1 = ds) as ->.
  { rewrite take_app, take_ge by done. destruct Hs as [<-|Hs].
    - by rewrite Nat.sub_diag, take_0, app_nil_r, span_all.
    - rewrite span_app; [done|done|]. intros c Hc. apply Hs.
      destruct (w - length ds)%nat; [done|]. by destruct s. }
  rewrite decide_False by done. by rewrite drop_app_length.
Qed.

(** What [%020ld] prints, [%20ld] reads back. *)
Lemma scan_print_020 x s : - 10 ^ 19 < x < 10 ^ 20 → scan_ld 20 (print_020 x ++ s) = Some (x, s).
Proof.
  intros Hx. unfold print_020. case_decide.
  - cbn [app]. rewrite scan_ld_minus.
    + rewrite fixed_digits_value by lia. do 2 f_equal. lia.
    + apply fixed_digits_digit.
    + intros E. pose proof (fixed_digits_length 19 (- x)) as L. rewrite E in L. done.
    + by rewrite fixed_digits_length.
    + left. apply fixed_digits_length.
  - rewrite scan_ld_digits.
    + rewrite fixed_digits_value by lia. done.
    + apply fixed_digits_digit.
    + intros E. pose proof (fixed_digits_length 20 x) as L. rewrite E in L. done.
    + by rewrite fixed_digits_length.
    + left. apply fixed_digits_length.
Qed.

(** What [%d] prints, [%d] reads back if no digit follows. *)
Lemma scan_print_d x s : - 10 ^ 20 < x < 10 ^ 20 → not_digit_head s → scan_d (print_d x ++ s) = Some (x, s).
Proof.
  intros Hx Hs. unfold print_d, scan_d. case_decide.
  - cbn [app length]. rewrite scan_ld_minus.
    + rewrite dec_digits_value by lia. do 2 f_equal. lia.
    + apply dec_digits_digit.
    + destruct (dec_digits_cons 20 (- x)) as (? & ? & -> & _); [lia|done].
    + rewrite length_app. lia.
    + by right.
  - rewrite scan_ld_digits.
    + rewrite dec_digits_value by lia. done.
    + apply dec_digits_digit.
    + destruct (dec_digits_cons 20 x) as (? & ? & -> & _); [lia|done].
    + rewrite length_app. lia.
    + by right.
Qed.

Lemma scan_lit_app lit s : scan_lit lit (lit ++ s) = Some s.
Proof. induction lit as [|c lit IH]; cbn; [done|]. by rewrite decide_True. Qed.

Lemma print_020_inj x y :
  - 10 ^ 19 < x < 10 ^ 20 → - 10 ^ 19 < y < 10 ^ 20 → print_020 x = print_020 y → x = y.
Proof.
  intros Hx Hy E. pose proof (scan_print_020 x [] Hx) as H1. rewrite E in H1.
  rewrite (scan_print_020 y [] Hy) in H1. congruence.
Qed.

Lemma dec_digits_short n k x : 0 ≤ x < 10 ^ Z.of_nat k → (0 < k)%nat → (length (dec_digits n x) ≤ k)%nat.
Proof.
  revert k x. induction n as [|n IH]; intros k x Hx Hk; cbn [dec_digits]; [cbn; lia|].
  rewrite length_app. cbn [length]. case_decide; [cbn; lia|].
  destruct k as [|[|k]]; [lia|change (10 ^ Z.of_nat 1) with 10 in Hx; lia|].
  rewrite Nat2Z.inj_succ, Z.pow_succ_r in Hx by lia.
  assert (length (dec_digits n (x / 10)) ≤ S k)%nat; [|lia].
  apply IH; [|lia]. split; [apply Z.div_pos; lia|apply Z.div_lt_upper_bound; lia].
Qed.

(** The characters of a printed number. *)
Lemma print_d_chars x : Forall (λ c, c = ch_minus ∨ digit c) (print_d x).
Proof.
  unfold print_d. case_decide; [constructor; [by left|]|];
    (eapply Forall_impl; [apply dec_digits_digit|]; intros; by right).
Qed.

Lemma print_d_cons x : ∃ c cs, print_d x = c :: cs ∧ (c = ch_minus ∨ digit c).
Proof.
  unfold print_d. case_decide; [eexists _, _; split; [done|by left]|].
  destruct (dec_digits_cons 20 x) as (d & ds & -> & Hd); [lia|]. eexists _, _. split; [done|by right].
Qed.

Lemma print_d_short k x : - 10 ^ Z.of_nat k < x < 10 ^ Z.of_nat k → (0 < k)%nat → (length (print_d x) ≤ S k)%nat.
Proof.
  intros Hx Hk. unfold print_d. case_decide; cbn [length].
  - pose proof (dec_digits_short 20 k (- x)). lia.
  - pose proof (dec_digits_short 20 k x). lia.
Qed.
