(* ===== verification/PeerText.v ===== *)
(** * Peers and configurations as text

    [PeerId::parse] and [to_string] of src/melon/raft/configuration.h, the
    conversions of addresses they use (src/melon/utility/endpoint.cpp), and
    [Configuration::parse_from] and [operator<<] of
    src/melon/raft/configuration.cc.  Endpoints of unix sockets and IPv6
    (extended endpoints) are not modelled: converting one has no value. *)

From Stdlib Require Import Ascii String.
From stdpp Require Import prelude sorting.
From S2P Require Import Prelude StdContainers Configuration Bytes Text.
Local Open Scope Z_scope.

Definition EXTENDED_ENDPOINT_PORT : Z := 123456789.

(** ** Addresses *)

(** [inet_ntop(AF_INET)] of the four bytes of an address in network order. *)
Definition inet_ntop (bs : list Z) : list Z :=
  match bs with
  | [a; b; c; d] =>
      print_d a ++ [ch_dot] ++ print_d b ++ [ch_dot] ++ print_d c ++ [ch_dot] ++ print_d d
  | _ => []
  end.

(** One number of a dotted address: up to 255, without leading zeros. *)
Definition scan_octet (s : list Z) : option (Z * list Z) :=
  let '(ds, rest) := span is_digit s in
  match ds with
  | [] => None
  | d :: ds' =>
      if decide (d = ch_zero ∧ ds' ≠ []) then None
      else if decide (digits_value ds ≤ 255) then Some (digits_value ds, rest) else None
  end.

(** [inet_pton(AF_INET)]: four numbers, the separators and nothing else. *)
Definition inet_pton (s : list Z) : option (list Z) :=
  '(a, s) ← scan_octet s; s ← scan_lit [ch_dot] s;
  '(b, s) ← scan_octet s; s ← scan_lit [ch_dot] s;
  '(c, s) ← scan_octet s; s ← scan_lit [ch_dot] s;
  '(d, s) ← scan_octet s;
  if decide (s = []) then Some [a; b; c; d] else None.

(** [str2ip]; [None] is the failure code. *)
Definition str2ip (ip_str : list Z) : option Z :=
  load_le <$> inet_pton (span is_space ip_str).2.

Definition endpoint2str (point : EndPoint) : option (list Z) :=
  if decide (port point = EXTENDED_ENDPOINT_PORT) then None
  else Some (inet_ntop (store_le 4 (ip point)) ++ [ch_colon] ++ print_d (port point)).

(** ** Peers *)

Definition role_code (r : Role) : Z := match r with REPLICA => 0 | WITNESS => 1 end.

Definition role_of_code (v : Z) : option Role :=
  if decide (v = 0) then Some REPLICA else if decide (v = 1) then Some WITNESS else None.

(** [to_string]: at most 127 characters fit the buffer. *)
Definition peer_to_string (p : PeerId) : option (list Z) :=
  ep ← endpoint2str (addr p);
  Some (take 127 (ep ++ [ch_colon] ++ print_d (idx p) ++ [ch_colon] ++ print_d (role_code (role p)))).

(** [%*[:]%d]: a number after colons.  The outer [None] is a number that does
    not fit an [int], which is undefined behaviour; the inner one a failed
    match. *)
Definition scan_field (s : list Z) : option (option (Z * list Z)) :=
  match scan_span (λ c, bool_decide (c = ch_colon)) s with
  | None => Some None
  | Some (_, s1) =>
      match scan_d s1 with
      | None => Some None
      | Some (v, s2) => CHECK (- 2 ^ 31 ≤ v < 2 ^ 31);; Some (Some (v, s2))
      end
  end.

(** The [sscanf] of [parse]: the number of conversions, [ip_str], the port,
    the index and the role, the last three with their values from before when
    they are not converted.  [ip_str] has room for 63 characters. *)
Definition scan_peer (str : list Z) : option (Z * list Z * Z * Z * Z) :=
  match scan_span (λ c, negb (bool_decide (c = ch_colon))) str with
  | None => Some (0, [], 0, 0, 0)
  | Some (ip_str, s1) =>
      CHECK (zlen ip_str < 64);;
      r1 ← scan_field s1;
      match r1 with
      | None => Some (1, ip_str, 0, 0, 0)
      | Some (port, s2) =>
          r2 ← scan_field s2;
          match r2 with
          | None => Some (2, ip_str, port, 0, 0)
          | Some (idx, s3) =>
              r3 ← scan_field s3;
              match r3 with
              | None => Some (3, ip_str, port, idx, 0)
              | Some (value, _) => Some (4, ip_str, port, idx, value)
              end
          end
      end
  end.

(** The characters of a [c_str]. *)
Definition c_str (s : list Z) : list Z := (span (λ c, negb (bool_decide (c = 0))) s).1.

(** [parse]: the peer and the code; on failure the peer is reset. *)
Definition peer_parse (str : list Z) : option (PeerId * Z) :=
  '(n, ip_str, port, idx, value) ← scan_peer (c_str str);
  if decide (2 > n) then Some (empty_peer, -1)
  else
    match role_of_code value with
    | None => Some (empty_peer, -1)
    | Some role =>
        match str2ip ip_str with
        | None => Some (empty_peer, -1)
        | Some ip => Some (mkPeerId (mkEndPoint ip port) idx role, 0)
        end
    end.

(** [PeerId(const std::string&)]. *)
Definition peer_of_string (str : list Z) : option PeerId :=
  '(p, rc) ← peer_parse str; CHECK (rc = 0);; Some p.

(** ** Configurations *)

(** The loop of [operator<<]: a comma after every peer but the last. *)
Fixpoint print_peers (ps : list PeerId) : option (list Z) :=
  match ps with
  | [] => Some []
  | p :: ps' =>
      s ← peer_to_string p; rest ← print_peers ps';
      Some (s ++ (if decide (ps' = []) then [] else [ch_comma]) ++ rest)
  end.

Definition print_configuration (a : Configuration) : option (list Z) := print_peers (list_peers a).

(** [StringSplitter] with [SKIP_EMPTY_FIELD]: the fields that are not empty.
    [cur] is the field being read. *)
Fixpoint split_fields (sep : Z) (cur s : list Z) : list (list Z) :=
  match s with
  | [] => if decide (cur = []) then [] else [cur]
  | c :: s' =>
      if decide (c = sep) then (if decide (cur = []) then [] else [cur]) ++ split_fields sep [] s'
      else split_fields sep (cur ++ [c]) s'
  end.

(** The loop of [parse_from]: the configuration as far as it was read. *)
Fixpoint parse_fields (c : Configuration) (fields : list (list Z)) : option (Configuration * Z) :=
  match fields with
  | [] => Some (c, 0)
  | f :: fs =>
      '(peer, rc) ← peer_parse f;
      if decide (rc ≠ 0) then Some (c, -1) else parse_fields (add_peer c peer).1 fs
  end.

Definition parse_from (conf : list Z) : option (Configuration * Z) :=
  parse_fields conf_new (split_fields ch_comma [] conf).

(** ** Round trips *)

(** A peer with an IPv4 endpoint, its fields in the range of their types. *)
Definition peer_ok (p : PeerId) : Prop :=
  0 ≤ ip (addr p) < 2 ^ 32 ∧ - 2 ^ 31 ≤ port (addr p) < 2 ^ 31 ∧ port (addr p) ≠ EXTENDED_ENDPOINT_PORT ∧
  - 2 ^ 31 ≤ idx p < 2 ^ 31.

Lemma not_digit_head_cons c s : is_digit c = false → not_digit_head (c :: s).
Proof. intros Hc d [= <-]. done. Qed.

Lemma not_digit_head_nil : not_digit_head [].
Proof. intros d [=]. Qed.

Lemma scan_octet_print a s : byte a → not_digit_head s → scan_octet (print_d a ++ s) = Some (a, s).
Proof.
  intros Ha Hs. unfold byte in Ha. unfold scan_octet, print_d. rewrite decide_False by lia.
  rewrite span_app; [|apply dec_digits_digit|done].
  destruct (dec_digits_cons 20 a) as (d & ds & E & Hd); [lia|]. rewrite E.
  pose proof (dec_digits_value 20 a) as Hv. rewrite E in Hv. rewrite Hv by lia.
  rewrite decide_False, decide_True; [done|lia|]. intros [Hz Hne]. destruct (decide (a < 10)) as [Hlt|Hge].
  - cbn [dec_digits] in E. rewrite decide_True in E by done. cbn in E. congruence.
  - destruct (dec_digits_head 20 a) as (d' & ds' & E' & Hd'); [lia|]. congruence.
Qed.

Lemma scan_dot s : scan_lit [ch_dot] (ch_dot :: s) = Some s.
Proof. apply (scan_lit_app [ch_dot]). Qed.

Lemma inet_pton_ntop bs : length bs = 4%nat → bytes bs → inet_pton (inet_ntop bs) = Some bs.
Proof.
  intros Hl Hb. destruct bs as [|a [|b [|c [|d []]]]]; try done.
  inversion Hb as [|? ? Ha Hb1]; inversion Hb1 as [|? ? Hbb Hb2]; inversion Hb2 as [|? ? Hc Hb3];
    inversion Hb3 as [|? ? Hd _]; subst. unfold inet_pton, inet_ntop. cbn [app].
  rewrite scan_octet_print by (done || by apply not_digit_head_cons). cbn [mbind option_bind].
  rewrite scan_dot. cbn [mbind option_bind].
  rewrite scan_octet_print by (done || by apply not_digit_head_cons). cbn [mbind option_bind].
  rewrite scan_dot. cbn [mbind option_bind].
  rewrite scan_octet_print by (done || by apply not_digit_head_cons). cbn [mbind option_bind].
  rewrite scan_dot. cbn [mbind option_bind].
  rewrite <-(app_nil_r (print_d d)), scan_octet_print by (done || apply not_digit_head_nil).
  cbn [mbind option_bind]. done.
Qed.

(** The characters of a dotted address are digits, minus signs and dots. *)
Definition addr_char (c : Z) : Prop := c = ch_dot ∨ c = ch_minus ∨ digit c.

Lemma print_d_addr x : Forall addr_char (print_d x).
Proof. eapply Forall_impl; [apply print_d_chars|]. intros c Hc. by right. Qed.

Lemma inet_ntop_chars bs : Forall addr_char (inet_ntop bs).
Proof.
  unfold inet_ntop. destruct bs as [|a [|b [|c [|d []]]]]; try constructor.
  assert (Forall addr_char [ch_dot]) by (constructor; [by left|constructor]).
  rewrite !Forall_app. split_and!; done || apply print_d_addr.
Qed.

Lemma inet_ntop_length bs : bytes bs → (length (inet_ntop bs) ≤ 19)%nat.
Proof.
  intros Hb. unfold inet_ntop. destruct bs as [|a [|b [|c [|d []]]]]; try (cbn; lia).
  inversion Hb as [|? ? Ha Hb1]; inversion Hb1 as [|? ? Hbb Hb2]; inversion Hb2 as [|? ? Hc Hb3];
    inversion Hb3 as [|? ? Hd _]; subst. unfold byte in *. rewrite !length_app. cbn [length].
  pose proof (print_d_short 3 a). pose proof (print_d_short 3 b).
  pose proof (print_d_short 3 c). pose proof (print_d_short 3 d). lia.
Qed.

Lemma addr_char_plain c : addr_char c → c ≠ ch_colon ∧ c ≠ 0 ∧ c ≠ ch_comma ∧ is_space c = false.
Proof.
  unfold addr_char. rewrite digit_iff. unfold is_space, ch_dot, ch_minus, ch_colon, ch_comma.
  rewrite bool_decide_eq_false. lia.
Qed.

Lemma str2ip_ntop x : 0 ≤ x < 2 ^ 32 → str2ip (inet_ntop (store_le 4 x)) = Some x.
Proof.
  intros Hx. unfold str2ip.
  assert ((span is_space (inet_ntop (store_le 4 x))).2 = inet_ntop (store_le 4 x)) as ->.
  { pose proof (inet_ntop_chars (store_le 4 x)) as Hc. destruct (inet_ntop _) as [|c cs]; [done|].
    inversion Hc as [|? ? Hc1 _]; subst. cbn [span]. by destruct (addr_char_plain _ Hc1) as (_ & _ & _ & ->). }
  rewrite inet_pton_ntop by (apply store_le_length || apply store_le_bytes). cbn [fmap option_fmap option_map].
  rewrite load_store_le. f_equal. by apply Z.mod_small.
Qed.

Lemma scan_field_print v s :
  - 2 ^ 31 ≤ v < 2 ^ 31 → not_digit_head s → scan_field (ch_colon :: print_d v ++ s) = Some (Some (v, s)).
Proof.
  intros Hv Hs. unfold scan_field, scan_span.
  change (ch_colon :: print_d v ++ s) with ([ch_colon] ++ print_d v ++ s). rewrite span_app.
  - rewrite decide_False by done. rewrite scan_print_d by (done || lia). rewrite CHECK_true by done. done.
  - repeat constructor.
  - destruct (print_d_cons v) as (c & cs & -> & Hc). intros d [= <-]. apply bool_decide_eq_false.
    rewrite digit_iff in Hc. unfold ch_colon, ch_minus in *. lia.
Qed.

Lemma peer_to_string_eq p :
  peer_ok p → peer_to_string p =
  Some (inet_ntop (store_le 4 (ip (addr p))) ++ ch_colon :: print_d (port (addr p)) ++
        ch_colon :: print_d (idx p) ++ ch_colon :: print_d (role_code (role p))).
Proof.
  intros (Hip & Hport & Hext & Hidx). unfold peer_to_string, endpoint2str. rewrite decide_False by done.
  cbn [mbind option_bind]. rewrite take_ge; [by rewrite <-!app_assoc|].
  rewrite !length_app. cbn [length]. pose proof (inet_ntop_length _ (store_le_bytes 4 (ip (addr p)))).
  pose proof (print_d_short 10 (port (addr p))). pose proof (print_d_short 10 (idx p)).
  pose proof (print_d_short 10 (role_code (role p))).
  assert (0 ≤ role_code (role p) ≤ 1) by (destruct (role p); cbn; lia). lia.
Qed.

(** The characters of a peer are not separators of a list. *)
Definition peer_char (c : Z) : Prop := c = ch_colon ∨ addr_char c.

Lemma peer_to_string_chars p s : peer_ok p → peer_to_string p = Some s → Forall peer_char s ∧ s ≠ [].
Proof.
  intros Hp. rewrite peer_to_string_eq by done. intros <-%(inj Some). split.
  - assert (∀ l, Forall addr_char l → Forall peer_char l) as Hl.
    { intros l Hl. eapply Forall_impl; [exact Hl|]. intros; by right. }
    assert (peer_char ch_colon) by by left. pose proof (Hl _ (inet_ntop_chars (store_le 4 (ip (addr p))))) as Hi.
    generalize dependent (inet_ntop (store_le 4 (ip (addr p)))). intros i Hi.
    repeat (apply Forall_app_2; [done || apply Hl, print_d_addr|constructor; [done|]]). apply Hl, print_d_addr.
  - intros E. apply (f_equal length) in E. rewrite length_app in E. cbn in E. lia.
Qed.

Lemma scan_peer_string p s :
  peer_ok p → peer_to_string p = Some s →
  scan_peer s = Some (4, inet_ntop (store_le 4 (ip (addr p))), port (addr p), idx p, role_code (role p)).
Proof.
  intros Hp. rewrite peer_to_string_eq by done. intros <-%(inj Some). destruct Hp as (Hip & Hport & Hext & Hidx).
  unfold scan_peer, scan_span at 1. rewrite span_app.
  2:{ eapply Forall_impl; [apply inet_ntop_chars|]. intros c Hc. apply negb_true_iff, bool_decide_eq_false.
      by apply addr_char_plain. }
  2:{ intros c [= <-]. done. }
  rewrite decide_False.
  2:{ destruct (store_le 4 (ip (addr p))) as [|a [|b [|c [|d []]]]] eqn:E; try done.
      destruct (print_d_cons a) as (x & xs & Ex & _). unfold inet_ntop. by rewrite Ex. }
  rewrite CHECK_true.
  2:{ pose proof (inet_ntop_length _ (store_le_bytes 4 (ip (addr p)))). unfold zlen. lia. }
  cbn [mbind option_bind].
  rewrite scan_field_print by (done || by apply not_digit_head_cons). cbn [mbind option_bind].
  rewrite scan_field_print by (done || by apply not_digit_head_cons). cbn [mbind option_bind].
  rewrite <-(app_nil_r (print_d (role_code _))), scan_field_print; [done| |apply not_digit_head_nil].
  destruct (role p); cbn; lia.
Qed.

Lemma c_str_plain s : Forall peer_char s → c_str s = s.
Proof.
  intros Hs. unfold c_str. rewrite span_all; [done|]. eapply Forall_impl; [exact Hs|].
  intros c Hc. apply negb_true_iff, bool_decide_eq_false. destruct Hc as [->|Hc]; [done|].
  by apply addr_char_plain.
Qed.

Lemma peer_parse_string p s : peer_ok p → peer_to_string p = Some s → peer_parse s = Some (p, 0).
Proof.
  intros Hp Hs. destruct (peer_to_string_chars _ _ Hp Hs) as [Hc _]. unfold peer_parse.
  rewrite c_str_plain by done. rewrite (scan_peer_string p) by done. cbn [mbind option_bind].
  rewrite decide_False by lia. destruct Hp as (Hip & _).
  destruct p as [[i po] ix r]. cbn [role addr ip port idx] in *. destruct r; cbn [role_code];
    unfold role_of_code; rewrite str2ip_ntop by done; done.
Qed.

Lemma peer_of_string_print p s : peer_ok p → peer_to_string p = Some s → peer_of_string s = Some p.
Proof. intros Hp Hs. unfold peer_of_string. by rewrite (peer_parse_string p). Qed.

Lemma split_fields_field sep cur s rest :
  Forall (λ c, c ≠ sep) s → split_fields sep cur (s ++ rest) = split_fields sep (cur ++ s) rest.
Proof.
  intros Hs. revert cur. induction Hs as [|c s Hc Hs IH]; intros cur; cbn [app split_fields].
  - by rewrite app_nil_r.
  - rewrite decide_False by done. rewrite IH. by rewrite <-app_assoc.
Qed.

Lemma print_peers_fields ps :
  Forall peer_ok ps → ∃ txt fields, print_peers ps = Some txt ∧ split_fields ch_comma [] txt = fields ∧
    Forall2 (λ p s, peer_to_string p = Some s) ps fields.
Proof.
  induction 1 as [|p ps Hp Hps (txt & fields & Htxt & Hf & Hall)]; [by exists [], []|].
  destruct (peer_to_string p) as [s|] eqn:Es; [|by rewrite peer_to_string_eq in Es].
  destruct (peer_to_string_chars p s Hp Es) as [Hc Hne].
  assert (Forall (λ c, c ≠ ch_comma) s) as Hc'.
  { eapply Forall_impl; [exact Hc|]. intros c [->|H]; [done|by apply addr_char_plain]. }
  cbn [print_peers]. rewrite Es, Htxt. cbn [mbind option_bind]. eexists _, _. split; [done|]. split; [done|].
  rewrite split_fields_field by done. cbn [app]. case_decide as Hn.
  - subst ps. cbn in Htxt. simplify_eq. cbn [app split_fields]. rewrite decide_False by done.
    constructor; [done|constructor].
  - cbn [app split_fields]. rewrite decide_True by done. rewrite decide_False by done. cbn [app].
    constructor; [done|]. by rewrite Hf.
Qed.

Lemma parse_fields_peers ps fields c :
  Forall peer_ok ps → Forall2 (λ p s, peer_to_string p = Some s) ps fields →
  parse_fields c fields = Some (foldl (λ c p, (add_peer c p).1) c ps, 0).
Proof.
  intros Hok H. revert c Hok. induction H as [|p s ps fields Hs H IH]; intros c Hok; [done|].
  inversion Hok as [|? ? Hp Hok']; subst. cbn [parse_fields foldl]. rewrite (peer_parse_string p) by done.
  cbn [mbind option_bind]. rewrite decide_False by lia. by apply IH.
Qed.

Lemma add_sorted_peers l k :
  StronglySorted peer_lt (l ++ k) →
  foldl (λ c p, (add_peer c p).1) (mkConfiguration l) k = mkConfiguration (l ++ k).
Proof.
  revert l. induction k as [|p k IH]; intros l Hs; [by rewrite app_nil_r|]. cbn [foldl].
  unfold add_peer at 2. cbn [_peers]. rewrite set_insert_snoc.
  - cbn [fst]. rewrite (cons_middle p l k), app_assoc in *. by rewrite IH, <-app_assoc.
  - apply Forall_forall. intros y Hy. eapply StronglySorted_app_1_elem_of in Hs; [exact Hs|done|].
    apply list_elem_of_here.
Qed.

(** A peer printed by [to_string] is read back by [parse]. *)
Theorem peer_text_roundtrip p :
  peer_ok p → ∃ s, peer_to_string p = Some s ∧ peer_parse s = Some (p, 0) ∧ peer_of_string s = Some p.
Proof.
  intros Hp. destruct (peer_to_string p) as [s|] eqn:Es; [|by rewrite peer_to_string_eq in Es].
  exists s. split_and!; [done|by apply peer_parse_string|by apply peer_of_string_print].
Qed.

Lemma peer_text_roundtrip_witness :
  let p := mkPeerId (mkEndPoint (load_le [127; 0; 0; 1]) 8100) (-3) WITNESS in
  peer_to_string p = Some (chars "127.0.0.1:8100:-3:1"%string) ∧
  ∃ s, peer_to_string p = Some s ∧ peer_parse s = Some (p, 0) ∧ peer_of_string s = Some p.
Proof.
  split; [vm_compute; reflexivity|]. apply (peer_text_roundtrip _).
  repeat split; vm_compute; congruence.
Defined.

(** A configuration printed by [operator<<] is read back by
    [parse_from], peer by peer. *)
Theorem configuration_text_roundtrip c :
  conf_wf c → Forall peer_ok (_peers c) →
  ∃ s, print_configuration c = Some s ∧ parse_from s = Some (c, 0).
Proof.
  intros Hw Hok. destruct c as [ps]. unfold conf_wf, set_wf in Hw. cbn [_peers] in *.
  destruct (print_peers_fields ps Hok) as (txt & fields & Htxt & Hf & Hall).
  exists txt. split; [done|]. unfold parse_from. rewrite Hf, (parse_fields_peers ps) by done.
  unfold conf_new. by rewrite add_sorted_peers.
Qed.

Lemma configuration_text_roundtrip_witness :
  let c := conf_of_vector [mkPeerId (mkEndPoint 16777343 8101) 0 WITNESS; mkPeerId (mkEndPoint 16777343 8100) 0 REPLICA] in
  print_configuration c = Some (chars "127.0.0.1:8100:0:0,127.0.0.1:8101:0:1"%string) ∧
  ∃ s, print_configuration c = Some s ∧ parse_from s = Some (c, 0).
Proof.
  split; [vm_compute; reflexivity|]. apply (configuration_text_roundtrip _).
  - repeat constructor.
  - repeat constructor; vm_compute; congruence.
Defined.

(** An address of 64 or more characters overruns the buffer [parse]
    scans it into. *)
Theorem peer_parse_overruns ip_str rest :
  Forall (λ c, c ≠ ch_colon ∧ c ≠ 0) ip_str → 64 ≤ zlen ip_str →
  peer_parse (ip_str ++ ch_colon :: rest) = None.
Proof.
  intros Hc Hl. unfold peer_parse.
  assert (c_str (ip_str ++ ch_colon :: rest) = ip_str ++ ch_colon :: c_str rest) as ->.
  { unfold c_str. clear Hl. induction Hc as [|c l [Hc1 Hc2] Hc IH]; cbn [app span].
    - rewrite bool_decide_eq_false_2 by done. cbn [negb]. by destruct (span _ rest).
    - rewrite bool_decide_eq_false_2 by done. cbn [negb]. destruct (span _ (l ++ _)). cbn [fst] in *. by rewrite IH. }
  unfold scan_peer, scan_span at 1. rewrite span_app.
  - rewrite decide_False by (by destruct ip_str). unfold CHECK. rewrite decide_False by lia. done.
  - eapply Forall_impl; [exact Hc|]. intros c [Hn _]. cbn. by rewrite bool_decide_eq_false_2.
  - intros c [= <-]. done.
Qed.

Lemma peer_parse_overruns_witness :
  peer_parse (replicate 64 ch_zero ++ ch_colon :: chars "80"%string) = None.
Proof.
  apply (peer_parse_overruns (replicate 64 ch_zero) (chars "80"%string)); [repeat constructor; discriminate|].
  vm_compute. congruence.
Defined.
