(* ===== verification/FileSystem.v ===== *)
(** * The log directory

    The files a segment log lives in, the system calls it makes and the
    helpers of src/melon/raft/util.cc, src/melon/raft/log.cc and
    src/melon/raft/protobuf_file.cc around them.

    A file is its content under an inode number; the directory maps names to
    inodes, in the order it is listed.  How each system call ends is an input:
    [w_reads] for the calls that only read and [w_writes] for those that
    change something hold the outcomes of the calls to come, and a call past
    their end succeeds.  A computation runs on a [World]; [None] is the aborted
    process. *)

From Stdlib Require Import Ascii String.
From stdpp Require Import prelude gmap.
From S2P Require Import Prelude Bytes Text.
Local Open Scope Z_scope.


Inductive SysResult :=
  | SysDone
  | SysShort (n : nat)
  | SysError (e : Z).

Record World := mkWorld {
  w_files : gmap Z (list Z);
  w_dir : list (list Z * Z);
  w_next : Z;
  w_errno : Z;
  w_reads : list SysResult;
  w_writes : list SysResult;
}.

Definition set_files (w : World) (fs : gmap Z (list Z)) : World :=
  mkWorld fs (w_dir w) (w_next w) (w_errno w) (w_reads w) (w_writes w).
Definition set_dir (w : World) (d : list (list Z * Z)) : World :=
  mkWorld (w_files w) d (w_next w) (w_errno w) (w_reads w) (w_writes w).
Definition set_errno (w : World) (e : Z) : World :=
  mkWorld (w_files w) (w_dir w) (w_next w) e (w_reads w) (w_writes w).

Definition w_content (w : World) (ino : Z) : list Z := default [] (w_files w !! ino).

(** ** Computations *)

Definition IO (A : Type) : Type := World → option (A * World).

#[global] Instance io_ret : MRet IO := λ A a w, Some (a, w).
#[global] Instance io_bind : MBind IO := λ A B k m w,
  match m w with Some (a, w') => k a w' | None => None end.

(** [CHECK] and [LOG(FATAL)]. *)
Definition io_check (P : Prop) `{Decision P} : IO unit := λ w, if decide P then Some (tt, w) else None.

(** A pure computation that can abort. *)
Definition io_lift {A} (m : option A) : IO A := λ w, a ← m; Some (a, w).

Definition get_errno : IO Z := λ w, Some (w_errno w, w).

Lemma io_bind_eq {A B} (m : IO A) (k : A → IO B) w a w' : m w = Some (a, w') → (m ≫= k) w = k a w'.
Proof. unfold mbind, io_bind. by intros ->. Qed.

Lemma io_ret_eq {A} (a : A) w : (mret a : IO A) w = Some (a, w).
Proof. done. Qed.

Lemma io_check_eq (P : Prop) `{Decision P} w : P → io_check P w = Some (tt, w).
Proof. intros. unfold io_check. by rewrite decide_True. Qed.

Lemma io_lift_bind {A B} (a : A) (k : A → IO B) w : (io_lift (Some a) ≫= k) w = k a w.
Proof. done. Qed.

Lemma io_ret_bind {A B} (a : A) (k : A → IO B) w : ((mret a : IO A) ≫= k) w = k a w.
Proof. done. Qed.

Lemma io_check_bind {A} (P : Prop) `{Decision P} (m : IO A) w : P → (io_check P;; m) w = m w.
Proof. intros. by rewrite (io_bind_eq _ _ _ tt w) by (by apply io_check_eq). Qed.

(** ** System calls *)

(** The outcome of the next call. *)
Definition next_read (w : World) : SysResult * World :=
  match w_reads w with
  | [] => (SysDone, w)
  | r :: rs => (r, mkWorld (w_files w) (w_dir w) (w_next w) (w_errno w) rs (w_writes w))
  end.

Definition next_write (w : World) : SysResult * World :=
  match w_writes w with
  | [] => (SysDone, w)
  | r :: rs => (r, mkWorld (w_files w) (w_dir w) (w_next w) (w_errno w) (w_reads w) rs)
  end.

Definition dir_lookup (d : list (list Z * Z)) (name : list Z) : option Z :=
  snd <$> head (filter (λ e, e.1 = name) d).
Definition dir_remove (d : list (list Z * Z)) (name : list Z) : list (list Z * Z) :=
  filter (λ e, e.1 ≠ name) d.

(** [open] of an existing file. *)
Definition sys_open (name : list Z) : IO (option Z) := λ w,
  let '(r, w) := next_read w in
  match r with
  | SysError e => Some (None, set_errno w e)
  | _ =>
      match dir_lookup (w_dir w) name with
      | None => Some (None, set_errno w ENOENT)
      | Some ino => Some (Some ino, w)
      end
  end.

(** [open] with [O_CREAT | O_TRUNC]. *)
Definition sys_create (name : list Z) : IO (option Z) := λ w,
  let '(r, w) := next_write w in
  match r with
  | SysError e => Some (None, set_errno w e)
  | _ =>
      match dir_lookup (w_dir w) name with
      | Some ino => Some (Some ino, set_files w (<[ino := []]> (w_files w)))
      | None =>
          let ino := w_next w in
          Some (Some ino, mkWorld (<[ino := []]> (w_files w)) (w_dir w ++ [(name, ino)]) (ino + 1)
                            (w_errno w) (w_reads w) (w_writes w))
      end
  end.

(** [fstat]: the size of the file. *)
Definition sys_fstat (ino : Z) : IO (option Z) := λ w,
  let '(r, w) := next_read w in
  match r with
  | SysError e => Some (None, set_errno w e)
  | _ => Some (Some (zlen (w_content w ino)), w)
  end.

(** [pread]: the bytes read, or an error. *)
Definition sys_pread (ino offset size : Z) : IO (option (list Z)) := λ w,
  let '(r, w) := next_read w in
  let avail := take (Z.to_nat size) (drop (Z.to_nat offset) (w_content w ino)) in
  match r with
  | SysError e => Some (None, set_errno w e)
  | SysShort n => Some (Some (take n avail), w)
  | SysDone => Some (Some avail, w)
  end.

(** [write] at the position of the descriptor and [pwrite]: the number of
    bytes written, or an error. *)
Definition sys_pwrite (ino offset : Z) (d : list Z) : IO (option Z) := λ w,
  let '(r, w) := next_write w in
  let put (d : list Z) := Some (Some (zlen d), set_files w (<[ino := bytes_write (w_content w ino) offset d]> (w_files w))) in
  match r with
  | SysError e => Some (None, set_errno w e)
  | SysShort n => put (take n d)
  | SysDone => put d
  end.

Definition sys_rename (old new : list Z) : IO Z := λ w,
  let '(r, w) := next_write w in
  match r with
  | SysError e => Some (-1, set_errno w e)
  | _ =>
      match dir_lookup (w_dir w) old with
      | None => Some (-1, set_errno w ENOENT)
      | Some ino =>
          Some (0, set_dir w (dir_remove (dir_remove (w_dir w) old) new ++ [(new, ino)]))
      end
  end.

Definition sys_unlink (name : list Z) : IO Z := λ w,
  let '(r, w) := next_write w in
  match r with
  | SysError e => Some (-1, set_errno w e)
  | _ =>
      match dir_lookup (w_dir w) name with
      | None => Some (-1, set_errno w ENOENT)
      | Some _ => Some (0, set_dir w (dir_remove (w_dir w) name))
      end
  end.

Definition sys_ftruncate (ino length : Z) : IO Z := λ w,
  let '(r, w) := next_write w in
  match r with
  | SysError e => Some (-1, set_errno w e)
  | _ => Some (0, set_files w (<[ino := bytes_resize (w_content w ino) length]> (w_files w)))
  end.

(** [fsync] or [fdatasync]: [raft_fsync].  What reaches the disk is not part
    of the model. *)
Definition raft_fsync (ino : Z) : IO Z := λ w,
  let '(r, w) := next_write w in
  match r with
  | SysError e => Some (-1, set_errno w e)
  | _ => Some (0, w)
  end.

(** [lseek(fd, offset, SEEK_SET)]: the new position, or -1. *)
Definition sys_lseek (offset : Z) : IO Z := λ w,
  let '(r, w) := next_read w in
  match r with
  | SysError e => Some (-1, set_errno w e)
  | _ => Some (offset, w)
  end.

(** ** Helpers *)

(** [do ... while (rc == -1 && errno == EINTR)]; every retry uses up an
    outcome. *)
Fixpoint ftruncate_loop (fuel : nat) (ino length : Z) : IO Z :=
  match fuel with
  | O => λ _, None
  | S fuel' =>
      rc ← sys_ftruncate ino length;
      e ← get_errno;
      if decide (rc = -1 ∧ e = EINTR) then ftruncate_loop fuel' ino length else mret rc
  end.

Definition ftruncate_uninterrupted (ino length : Z) : IO Z := λ w,
  ftruncate_loop (S (List.length (w_writes w))) ino length w.

(** The loop of [file_pread]: [portal] is what was read so far, and no
    count left is an error.  An
    interrupted or short read uses up an outcome, and a read that gets less
    than it asked for is followed by one that gets nothing. *)
Fixpoint pread_loop (fuel : nat) (ino offset left : Z) (portal : list Z) : IO (list Z * option Z) :=
  match fuel with
  | O => λ _, None
  | S fuel' =>
      if decide (left > 0) then
        r ← sys_pread ino offset left;
        match r with
        | Some d =>
            if decide (zlen d > 0) then
              pread_loop fuel' ino (offset + zlen d) (left - zlen d) (portal ++ d)
            else mret (portal, Some left)
        | None =>
            e ← get_errno;
            if decide (e = EINTR) then pread_loop fuel' ino offset left portal else mret (portal, None)
        end
      else mret (portal, Some left)
  end.

(** [file_pread(portal, fd, offset, size)]: the bytes read and the number
    returned, -1 on an error. *)
Definition file_pread (ino offset size : Z) : IO (list Z * Z) := λ w,
  ('(portal, l) ← pread_loop (S (S (S (List.length (w_reads w))))) ino offset size [];
   mret (portal, match l with None => -1 | Some l => size - l end)) w.

(** [file_pwrite(data, fd, offset)]. *)
Fixpoint pwrite_loop (fuel : nat) (ino offset : Z) (piece_data : list Z) : IO bool :=
  match fuel with
  | O => λ _, None
  | S fuel' =>
      if decide (zlen piece_data > 0) then
        r ← sys_pwrite ino offset piece_data;
        match r with
        | Some written => pwrite_loop fuel' ino (offset + written) (drop (Z.to_nat written) piece_data)
        | None =>
            e ← get_errno;
            if decide (e = EINTR) then pwrite_loop fuel' ino offset piece_data else mret false
        end
      else mret true
  end.

Definition file_pwrite (d : list Z) (ino offset : Z) : IO Z := λ w,
  (ok ← pwrite_loop (S (S (List.length (w_writes w)))) ino offset d;
   mret (if ok : bool then zlen d else -1)) w.

(** ** [ProtoBufFile] *)

Definition tmp_suffix : list Z := chars ".tmp"%string.

(** [save(message, sync)], on the serialized message. *)
Definition pb_file_save (path : list Z) (msg_buf : list Z) (sync : bool) : IO Z :=
  let tmp_path := path ++ tmp_suffix in
  file ← sys_create tmp_path;
  match file with
  | None => mret (-1)
  | Some ino =>
      let header_buf := store_le 4 (HostToNet32 (u32 (zlen msg_buf))) in
      n ← file_pwrite header_buf ino 0;
      if decide (4 ≠ n) then mret (-1)
      else
        n ← file_pwrite msg_buf ino 4;
        if decide (zlen msg_buf ≠ n) then mret (-1)
        else
          rc ← (if sync then raft_fsync ino else mret 0);
          if decide (rc ≠ 0) then mret (-1)
          else
            rc ← sys_rename tmp_path path;
            if decide (rc ≠ 0) then mret (-1) else mret 0
  end.

(** [load(message)]: the bytes given to the parser, whose result is ignored,
    or [None] for -1. *)
Definition pb_file_load (path : list Z) : IO (option (list Z)) :=
  file ← sys_open path;
  match file with
  | None => mret None
  | Some ino =>
      '(header_buf, n) ← file_pread ino 0 4;
      if decide (4 ≠ n) then mret None
      else
        let left_len := i32 (NetToHost32 (load_le header_buf)) in
        '(msg_buf, n) ← file_pread ino 4 left_len;
        if decide (left_len ≠ n) then mret None else mret (Some msg_buf)
  end.

(** ** Without faults *)

Lemma w_content_insert w ino d : w_content (set_files w (<[ino := d]> (w_files w))) ino = d.
Proof. unfold w_content. cbn. by rewrite lookup_insert_eq. Qed.

Lemma w_content_insert_ne w ino ino' d :
  ino ≠ ino' → w_content (set_files w (<[ino := d]> (w_files w))) ino' = w_content w ino'.
Proof. intros. unfold w_content. cbn. by rewrite lookup_insert_ne. Qed.

(** Reading what is there. *)
Lemma file_pread_full w ino offset size :
  w_reads w = [] → 0 ≤ offset → 0 ≤ size →
  file_pread ino offset size w =
    let d := take (Z.to_nat size) (drop (Z.to_nat offset) (w_content w ino)) in Some ((d, zlen d), w).
Proof.
  intros Hr Ho Hs. unfold file_pread. rewrite Hr. cbn [length]. set (d := take _ _). cbn zeta.
  assert (zlen d ≤ size) as Hd. { unfold d. rewrite zlen_take. lia. }
  unfold mbind, io_bind. cbn [pread_loop].
  destruct (decide (size > 0)) as [Hp|Hp].
  2:{ assert (d = []) as ->. { unfold d. by replace (Z.to_nat size) with 0%nat by lia. }
      unfold mret, io_ret. by rewrite Z.sub_diag. }
  unfold mbind, io_bind, sys_pread at 1, next_read at 1. rewrite Hr. fold d.
  destruct (decide (zlen d > 0)) as [Hd0|Hd0].
  2:{ assert (d = []) as ->. { destruct d; [done|]. rewrite zlen_cons in Hd0. pose proof (zlen_nonneg d). lia. }
      unfold mret, io_ret. by rewrite Z.sub_diag. }
  cbn [app]. destruct (decide (size - zlen d > 0)) as [Hl|Hl].
  - unfold sys_pread, next_read. rewrite Hr.
    assert (take (Z.to_nat (size - zlen d)) (drop (Z.to_nat (offset + zlen d)) (w_content w ino)) = []) as ->.
    { assert (zlen d = zlen (w_content w ino) - offset) as ->.
      - unfold d in *. rewrite zlen_take, zlen_drop in *. lia.
      - rewrite drop_ge by (unfold zlen in *; lia). apply take_nil. }
    cbn. rewrite decide_False by (rewrite zlen_nil; lia). unfold mret, io_ret. by replace (size - (size - zlen d)) with (zlen d) by lia.
  - unfold mret, io_ret. by replace (size - (size - zlen d)) with (zlen d) by lia.
Qed.

Lemma file_pread_at w ino pre d post n :
  w_reads w = [] → w_content w ino = pre ++ d ++ post → n = zlen d →
  file_pread ino (zlen pre) n w = Some ((d, n), w).
Proof.
  intros Hr Hc ->. rewrite file_pread_full by (done || apply zlen_nonneg). cbn zeta. rewrite Hc.
  rewrite drop_app_length' by (unfold zlen; lia). by rewrite take_app_length' by (unfold zlen; lia).
Qed.

Lemma file_pread_short w ino pre d n :
  w_reads w = [] → w_content w ino = pre ++ d → zlen d ≤ n →
  file_pread ino (zlen pre) n w = Some ((d, zlen d), w).
Proof.
  intros Hr Hc Hn. pose proof (zlen_nonneg d). rewrite file_pread_full by (done || apply zlen_nonneg || lia).
  cbn zeta. rewrite Hc. rewrite drop_app_length' by (unfold zlen; lia). rewrite take_ge by (unfold zlen in *; lia). done.
Qed.

(** No fault is pending. *)
Definition quiet (w : World) : Prop := w_reads w = [] ∧ w_writes w = [].

Definition put_file (w : World) (ino : Z) (c : list Z) : World := set_files w (<[ino := c]> (w_files w)).

Lemma put_file_content w ino c : w_content (put_file w ino c) ino = c.
Proof. apply w_content_insert. Qed.

Lemma put_file_content_ne w ino ino' c : ino ≠ ino' → w_content (put_file w ino c) ino' = w_content w ino'.
Proof. apply w_content_insert_ne. Qed.

Lemma put_file_twice w ino c c' : put_file (put_file w ino c) ino c' = put_file w ino c'.
Proof. unfold put_file, set_files. cbn. by rewrite insert_insert_eq. Qed.

Lemma quiet_put_file w ino c : quiet w → quiet (put_file w ino c).
Proof. done. Qed.

Lemma quiet_set_dir w d : quiet w → quiet (set_dir w d).
Proof. done. Qed.

Lemma sys_pwrite_quiet w ino offset d :
  quiet w →
  sys_pwrite ino offset d w = Some (Some (zlen d), put_file w ino (bytes_write (w_content w ino) offset d)).
Proof. intros [_ Hw]. unfold sys_pwrite, next_write. by rewrite Hw. Qed.

Lemma sys_ftruncate_quiet w ino n :
  quiet w → ftruncate_uninterrupted ino n w = Some (0, put_file w ino (bytes_resize (w_content w ino) n)).
Proof.
  intros [_ Hw]. unfold ftruncate_uninterrupted. rewrite Hw. cbn [length ftruncate_loop].
  unfold mbind, io_bind, sys_ftruncate, next_write. by rewrite Hw.
Qed.

Lemma raft_fsync_quiet w ino : quiet w → raft_fsync ino w = Some (0, w).
Proof. intros [_ Hw]. unfold raft_fsync, next_write. by rewrite Hw. Qed.

Lemma sys_lseek_quiet w n : quiet w → sys_lseek n w = Some (n, w).
Proof. intros [Hr _]. unfold sys_lseek, next_read. by rewrite Hr. Qed.

Lemma sys_fstat_quiet w ino : quiet w → sys_fstat ino w = Some (Some (zlen (w_content w ino)), w).
Proof. intros [Hr _]. unfold sys_fstat, next_read. by rewrite Hr. Qed.

Lemma file_pwrite_quiet w ino offset d :
  quiet w → d ≠ [] →
  file_pwrite d ino offset w = Some (zlen d, put_file w ino (bytes_write (w_content w ino) offset d)).
Proof.
  intros Hq Hd. pose proof Hq as [_ Hw]. assert (0 < zlen d) by (unfold zlen; destruct d; [done|cbn; lia]).
  unfold file_pwrite. rewrite Hw. cbn [length pwrite_loop]. rewrite decide_True by lia.
  unfold mbind at 1, io_bind at 1. rewrite (io_bind_eq _ _ _ _ _ (sys_pwrite_quiet _ _ _ _ Hq)).
  rewrite drop_ge by (unfold zlen; lia). rewrite decide_False by (rewrite zlen_nil; lia). done.
Qed.

(** ** Directories *)

Lemma dir_lookup_perm d n i l : NoDup d.*1 → d ≡ₚ (n, i) :: l → dir_lookup d n = Some i.
Proof.
  intros Hnd Hp. unfold dir_lookup. assert ((n, i) ∈ d) as Hin by (rewrite Hp; apply list_elem_of_here).
  destruct (filter (λ e, e.1 = n) d) as [|[n' i'] f] eqn:Ef.
  - assert ((n, i) ∈ filter (λ e, e.1 = n) d) as Hf by (by apply list_elem_of_filter). rewrite Ef in Hf. inversion Hf.
  - assert ((n', i') ∈ filter (λ e, e.1 = n) d) as Hf by (rewrite Ef; apply list_elem_of_here).
    apply list_elem_of_filter in Hf as [Hn Hf]. cbn in Hn. subst n'. cbn. f_equal.
    apply list_elem_of_lookup in Hin as [a Ha]. apply list_elem_of_lookup in Hf as [b Hb].
    assert (a = b) as <-; [|congruence].
    apply (NoDup_lookup d.*1 a b n); [done|by rewrite list_lookup_fmap, Ha|by rewrite list_lookup_fmap, Hb].
Qed.

Lemma dir_lookup_absent d n : n ∉ d.*1 → dir_lookup d n = None.
Proof.
  intros Hn. unfold dir_lookup. destruct (filter (λ e, e.1 = n) d) as [|e f] eqn:Ef; [done|].
  assert (e ∈ filter (λ e, e.1 = n) d) as Hf by (rewrite Ef; apply list_elem_of_here).
  apply list_elem_of_filter in Hf as [<- Hf]. destruct Hn. apply list_elem_of_fmap. by exists e.
Qed.

Lemma dir_remove_absent d n : n ∉ d.*1 → dir_remove d n = d.
Proof.
  intros Hn. apply list_filter_all. intros e He Heq. destruct Hn. apply list_elem_of_fmap. by exists e.
Qed.

Lemma dir_remove_perm d n i l : NoDup d.*1 → d ≡ₚ (n, i) :: l → dir_remove d n ≡ₚ l.
Proof.
  intros Hnd Hp. unfold dir_remove. rewrite Hp. rewrite Hp in Hnd. rewrite fmap_cons in Hnd.
  apply NoDup_cons in Hnd as [Hn _]. rewrite filter_cons_False by (intros Hx; by apply Hx).
  change (dir_remove l n ≡ₚ l). by rewrite dir_remove_absent.
Qed.

Lemma dir_nodup_perm (d l : list (list Z * Z)) : d ≡ₚ l → NoDup d.*1 → NoDup l.*1.
Proof. intros Hp Hnd. by rewrite <-Hp. Qed.

Lemma sys_rename_quiet w old new i l :
  quiet w → NoDup (w_dir w).*1 → w_dir w ≡ₚ (old, i) :: l → new ∉ l.*1 →
  ∃ d, sys_rename old new w = Some (0, set_dir w d) ∧ d ≡ₚ (new, i) :: l ∧ NoDup d.*1.
Proof.
  intros [_ Hw] Hnd Hp Hnew. unfold sys_rename, next_write. rewrite Hw.
  rewrite (dir_lookup_perm _ _ _ _ Hnd Hp). eexists. split; [done|].
  assert (dir_remove (dir_remove (w_dir w) old) new ≡ₚ l) as Hd.
  { pose proof (dir_remove_perm _ _ _ _ Hnd Hp) as H1. rewrite dir_remove_absent; [done|]. by rewrite H1. }
  assert (dir_remove (dir_remove (w_dir w) old) new ++ [(new, i)] ≡ₚ (new, i) :: l) as Hd'.
  { rewrite Hd. symmetry. apply Permutation_cons_append. }
  split; [done|]. rewrite Hd'. rewrite fmap_cons. apply NoDup_cons. split; [done|].
  apply dir_nodup_perm in Hp; [|done]. rewrite fmap_cons in Hp. by apply NoDup_cons in Hp as [_ ?].
Qed.

Lemma sys_unlink_quiet w n i l :
  quiet w → NoDup (w_dir w).*1 → w_dir w ≡ₚ (n, i) :: l →
  ∃ d, sys_unlink n w = Some (0, set_dir w d) ∧ d ≡ₚ l ∧ NoDup d.*1.
Proof.
  intros [_ Hw] Hnd Hp. unfold sys_unlink, next_write. rewrite Hw.
  rewrite (dir_lookup_perm _ _ _ _ Hnd Hp). eexists. split; [done|].
  pose proof (dir_remove_perm _ _ _ _ Hnd Hp) as Hd. split; [done|]. rewrite Hd.
  apply dir_nodup_perm in Hp; [|done]. rewrite fmap_cons in Hp. by apply NoDup_cons in Hp as [_ ?].
Qed.

Lemma sys_open_quiet w n i l :
  quiet w → NoDup (w_dir w).*1 → w_dir w ≡ₚ (n, i) :: l → sys_open n w = Some (Some i, w).
Proof.
  intros [Hr _] Hnd Hp. unfold sys_open, next_read. rewrite Hr. by rewrite (dir_lookup_perm _ _ _ _ Hnd Hp).
Qed.

(** Creating a file whose name is free. *)
Lemma sys_create_quiet w n :
  quiet w → n ∉ (w_dir w).*1 →
  sys_create n w = Some (Some (w_next w), mkWorld (<[w_next w := []]> (w_files w)) (w_dir w ++ [(n, w_next w)])
                           (w_next w + 1) (w_errno w) (w_reads w) (w_writes w)).
Proof.
  intros [_ Hw] Hn. unfold sys_create, next_write. rewrite Hw. rewrite dir_lookup_absent by done. by rewrite Hw.
Qed.

(** Renaming over an existing file. *)
Lemma sys_rename_over w old new i j l :
  quiet w → NoDup (w_dir w).*1 → w_dir w ≡ₚ (old, i) :: (new, j) :: l →
  ∃ d, sys_rename old new w = Some (0, set_dir w d) ∧ d ≡ₚ (new, i) :: l ∧ NoDup d.*1.
Proof.
  intros [_ Hw] Hnd Hp. unfold sys_rename, next_write. rewrite Hw.
  rewrite (dir_lookup_perm _ _ _ _ Hnd Hp). eexists. split; [done|].
  pose proof (dir_remove_perm _ _ _ _ Hnd Hp) as H1.
  pose proof (dir_nodup_perm _ _ Hp Hnd) as Hnd'. rewrite !fmap_cons in Hnd'. apply NoDup_cons in Hnd' as [_ Hnd'].
  assert (NoDup (dir_remove (w_dir w) old).*1) as Hnd1 by (rewrite H1; by rewrite fmap_cons).
  pose proof (dir_remove_perm _ _ _ _ Hnd1 H1) as H2.
  assert (dir_remove (dir_remove (w_dir w) old) new ++ [(new, i)] ≡ₚ (new, i) :: l) as Hd.
  { rewrite H2. symmetry. apply Permutation_cons_append. }
  split; [done|]. rewrite Hd. by rewrite fmap_cons.
Qed.

(** ** Saving and loading a message *)

Definition pb_file_bytes (msg : list Z) : list Z := store_le 4 (HostToNet32 (u32 (zlen msg))) ++ msg.

Lemma file_pwrite_quiet' w ino offset d :
  quiet w → 0 ≤ offset ≤ zlen (w_content w ino) → ∃ w', file_pwrite d ino offset w = Some (zlen d, w') ∧
    quiet w' ∧ w_dir w' = w_dir w ∧ w_next w' = w_next w ∧
    w_content w' ino = bytes_write (w_content w ino) offset d ∧ (∀ i, i ≠ ino → w_content w' i = w_content w i).
Proof.
  intros Hq Ho. destruct (decide (d = [])) as [->|Hd].
  - exists w. rewrite bytes_write_nil by done. split_and!; try done; try apply Hq.
  - rewrite file_pwrite_quiet by done. eexists. split_and!; try done; try apply Hq; [apply put_file_content|].
    intros i Hi. by apply put_file_content_ne.
Qed.

Lemma pb_file_save_quiet w path msg sync l old :
  quiet w → NoDup (w_dir w).*1 → w_dir w ≡ₚ ((λ i, (path, i)) <$> option_list old) ++ l →
  path ∉ l.*1 → path ++ tmp_suffix ∉ (w_dir w).*1 →
  let n := w_next w in
  ∃ w', pb_file_save path msg sync w = Some (0, w') ∧ quiet w' ∧ NoDup (w_dir w').*1 ∧
    w_dir w' ≡ₚ (path, n) :: l ∧ w_next w' = n + 1 ∧ w_content w' n = pb_file_bytes msg ∧
    (∀ i, i ≠ n → w_content w' i = w_content w i).
Proof.
  intros Hq Hnd Hp Hpl Htmp n. unfold pb_file_save.
  rewrite (io_bind_eq _ _ _ _ _ (sys_create_quiet _ _ Hq Htmp)). fold n.
  set (w1 := mkWorld _ _ _ _ _ _). assert (quiet w1) as Hq1 by done.
  assert (w_content w1 n = []) as Hc1 by (unfold w_content, w1; cbn; by rewrite lookup_insert_eq).
  assert (∀ i, i ≠ n → w_content w1 i = w_content w i) as Hc1'.
  { intros i Hi. unfold w_content, w1. cbn. by rewrite lookup_insert_ne. }
  set (hdr := store_le 4 _). assert (zlen hdr = 4) as Hhdr by (unfold zlen, hdr; by rewrite store_le_length).
  destruct (file_pwrite_quiet' w1 n 0 hdr Hq1) as (w2 & Hw2 & Hq2 & Hd2 & Hn2 & Hc2 & Hc2'); [rewrite Hc1; done|].
  rewrite Hhdr in Hw2. rewrite (io_bind_eq _ _ _ _ _ Hw2). rewrite decide_False by lia.
  assert (w_content w2 n = hdr) as Hc2h by (rewrite Hc2, Hc1; apply (bytes_write_end [])).
  destruct (file_pwrite_quiet' w2 n 4 msg Hq2) as (w3 & Hw3 & Hq3 & Hd3 & Hn3 & Hc3 & Hc3'); [rewrite Hc2h; lia|].
  rewrite (io_bind_eq _ _ _ _ _ Hw3). rewrite decide_False by lia.
  rewrite (io_bind_eq _ _ _ 0 w3) by (destruct sync; [by apply raft_fsync_quiet|done]). rewrite decide_False by lia.
  assert (w_dir w3 ≡ₚ (path ++ tmp_suffix, n) :: ((λ i, (path, i)) <$> option_list old) ++ l) as Hd.
  { rewrite Hd3, Hd2. unfold w1. cbn [w_dir]. rewrite Hp. symmetry. apply Permutation_cons_append. }
  assert (NoDup (w_dir w3).*1) as Hnd3.
  { rewrite Hd. rewrite fmap_cons. apply NoDup_cons. rewrite <-Hp. done. }
  assert (∃ d, sys_rename (path ++ tmp_suffix) path w3 = Some (0, set_dir w3 d) ∧ d ≡ₚ (path, n) :: l ∧ NoDup d.*1)
    as (d & Hren & Hdd & Hndd).
  { destruct old as [j|]; cbn in Hd; [by apply (sys_rename_over _ _ _ _ j)|by apply sys_rename_quiet]. }
  rewrite (io_bind_eq _ _ _ _ _ Hren). rewrite decide_False by lia. exists (set_dir w3 d).
  split_and!; try done; try apply Hq3.
  - cbn. rewrite Hn3, Hn2. done.
  - change (w_content w3 n = pb_file_bytes msg). rewrite Hc3, Hc2h, <-Hhdr. apply bytes_write_end.
  - intros i Hi. change (w_content w3 i = w_content w i). by rewrite Hc3', Hc2', Hc1'.
Qed.

Lemma pb_file_load_reads w path ino msg :
  w_reads w = [] → dir_lookup (w_dir w) path = Some ino → w_content w ino = pb_file_bytes msg →
  zlen msg < 2 ^ 31 → pb_file_load path w = Some (Some msg, w).
Proof.
  intros Hr Hp Hc Hl. pose proof (zlen_nonneg msg). unfold pb_file_load.
  assert (sys_open path w = Some (Some ino, w)) as Ho by (unfold sys_open, next_read; by rewrite Hr, Hp).
  rewrite (io_bind_eq _ _ _ _ _ Ho).
  set (hdr := store_le 4 (HostToNet32 (u32 (zlen msg)))) in *.
  assert (zlen hdr = 4) as Hhdr by (unfold zlen, hdr; by rewrite store_le_length).
  assert (file_pread ino 0 4 w = Some ((hdr, 4), w)) as H1.
  { by apply (file_pread_at w ino [] hdr msg). }
  rewrite (io_bind_eq _ _ _ _ _ H1). rewrite decide_False by lia.
  assert (i32 (NetToHost32 (load_le hdr)) = zlen msg) as ->.
  { unfold hdr. rewrite net_word by apply u32_range. rewrite u32_small by lia. unfold i32.
    rewrite u32_small by lia. by rewrite decide_False by lia. }
  assert (file_pread ino 4 (zlen msg) w = Some ((msg, zlen msg), w)) as H2.
  { rewrite <-Hhdr. apply (file_pread_at w ino hdr msg []); [done|by rewrite app_nil_r|done]. }
  rewrite (io_bind_eq _ _ _ _ _ H2). by rewrite decide_False by lia.
Qed.

Lemma pb_file_load_quiet w path ino l msg :
  quiet w → NoDup (w_dir w).*1 → w_dir w ≡ₚ (path, ino) :: l → w_content w ino = pb_file_bytes msg →
  zlen msg < 2 ^ 31 → pb_file_load path w = Some (Some msg, w).
Proof.
  intros [Hr _] Hnd Hp Hc Hl. apply (pb_file_load_reads w path ino); [done| |done..]. by eapply dir_lookup_perm.
Qed.

(** ** Saving under faults *)

(** Only the file [ino] changed, and no directory entry. *)
Definition only_file (ino : Z) (w w' : World) : Prop :=
  w_dir w' = w_dir w ∧ w_next w' = w_next w ∧ w_reads w' = w_reads w ∧
  ∀ i, i ≠ ino → w_content w' i = w_content w i.

#[global] Instance only_file_preorder ino : PreOrder (only_file ino).
Proof.
  split; [done|]. intros w1 w2 w3 (H1 & H2 & H3 & H4) (H5 & H6 & H7 & H8).
  split_and!; [congruence..|]. intros i Hi. by rewrite H8, H4.
Qed.

Lemma next_write_only ino w r w' : next_write w = (r, w') → only_file ino w w' ∧ w_content w' ino = w_content w ino.
Proof. unfold next_write. destruct (w_writes w); by intros [= <- <-]. Qed.

Lemma sys_pwrite_only ino d w r w' :
  sys_pwrite ino (zlen (w_content w ino)) d w = Some (r, w') →
  only_file ino w w' ∧
  match r with
  | Some n => 0 ≤ n ≤ zlen d ∧ w_content w' ino = w_content w ino ++ take (Z.to_nat n) d
  | None => w_content w' ino = w_content w ino
  end.
Proof.
  unfold sys_pwrite. destruct (next_write w) as [o w1] eqn:Eo. apply (next_write_only ino) in Eo as [Ho Hc].
  rewrite <-Hc. assert (∀ dd, only_file ino w (put_file w1 ino dd)) as Hput.
  { intros dd. etrans; [exact Ho|]. split_and!; [done..|]. intros i Hi. by apply put_file_content_ne. }
  pose proof (zlen_nonneg d). destruct o as [|k|e]; intros [= <- <-].
  - split; [apply Hput|]. split; [lia|]. change (w_content (put_file w1 ino (bytes_write (w_content w1 ino) (zlen (w_content w1 ino)) d)) ino = w_content w1 ino ++ take (Z.to_nat (zlen d)) d).
    rewrite put_file_content, bytes_write_end. f_equal. by rewrite take_ge by (unfold zlen; lia).
  - split; [apply Hput|]. rewrite zlen_take. split; [lia|].
    change (w_content (put_file w1 ino (bytes_write (w_content w1 ino) (zlen (w_content w1 ino)) (take k d))) ino = w_content w1 ino ++ take (Z.to_nat (Z.min (Z.of_nat k) (zlen d))) d).
    rewrite put_file_content, bytes_write_end. f_equal.
    destruct (decide (Z.of_nat k ≤ zlen d)); [f_equal; lia|].
    rewrite !take_ge by (unfold zlen in *; lia). done.
  - done.
Qed.

Lemma pwrite_loop_only fuel ino d w ok w' :
  pwrite_loop fuel ino (zlen (w_content w ino)) d w = Some (ok, w') →
  only_file ino w w' ∧ (ok = true → w_content w' ino = w_content w ino ++ d).
Proof.
  revert d w. induction fuel as [|fuel IH]; intros d w; cbn [pwrite_loop]; [done|].
  destruct (decide (zlen d > 0)) as [Hd|Hd].
  2:{ intros [= <- <-]. split; [done|]. intros _. destruct d; [by rewrite app_nil_r|].
      rewrite zlen_cons in Hd. pose proof (zlen_nonneg d). lia. }
  unfold mbind, io_bind. destruct (sys_pwrite _ _ _ w) as [[r w1]|] eqn:Ew; [|done].
  apply sys_pwrite_only in Ew as [Ho Hr]. destruct r as [n|].
  - destruct Hr as [Hn Hc]. replace (zlen (w_content w ino) + n) with (zlen (w_content w1 ino)).
    2:{ rewrite Hc, zlen_app, zlen_take. lia. }
    intros [Ho' Hc']%IH. split; [by etrans|]. intros Hok. rewrite (Hc' Hok), Hc, <-app_assoc, take_drop. done.
  - cbn. case_decide; [|by intros [= <- <-]]. rewrite <-Hr. intros [Ho' Hc']%IH. split; [by etrans|done].
Qed.

Lemma file_pwrite_only ino d w n w' off :
  off = zlen (w_content w ino) → file_pwrite d ino off w = Some (n, w') →
  only_file ino w w' ∧ (n = zlen d → w_content w' ino = w_content w ino ++ d).
Proof.
  intros ->. unfold file_pwrite, mbind, io_bind. destruct (pwrite_loop _ _ _ _ w) as [[ok w1]|] eqn:Ew; [|done].
  apply pwrite_loop_only in Ew as [Ho Hc]. intros [= <- <-]. split; [done|].
  pose proof (zlen_nonneg d). destruct ok; [auto|lia].
Qed.

Definition lookup_file (w : World) (name : list Z) : option (list Z) := w_content w <$> dir_lookup (w_dir w) name.

(** The file and its temporary are different files. *)
Definition fs_ok (path : list Z) (w : World) : Prop :=
  (∀ i, dir_lookup (w_dir w) path = Some i → i < w_next w ∧ dir_lookup (w_dir w) (path ++ tmp_suffix) ≠ Some i) ∧
  (∀ j, dir_lookup (w_dir w) (path ++ tmp_suffix) = Some j → j < w_next w).

Lemma dir_lookup_app d n i name :
  dir_lookup (d ++ [(n, i)]) name =
    match dir_lookup d name with Some j => Some j | None => if decide (n = name) then Some i else None end.
Proof.
  unfold dir_lookup. rewrite filter_app, filter_cons. destruct (filter _ d) as [|x l]; [|done].
  cbn. case_decide; done.
Qed.

Lemma dir_lookup_remove d n name :
  dir_lookup (dir_remove d n) name = if decide (n = name) then None else dir_lookup d name.
Proof.
  unfold dir_lookup, dir_remove. induction d as [|[m i] d IH]; [by case_decide|].
  rewrite filter_cons. cbn [fst]. destruct (decide (m = n)) as [->|Hm].
  - rewrite decide_False by naive_solver. rewrite IH, filter_cons. cbn [fst]. by repeat case_decide.
  - rewrite decide_True by done. rewrite !filter_cons. cbn [fst].
    destruct (decide (m = name)) as [->|]; [by rewrite decide_False|exact IH].
Qed.

Lemma tmp_path_ne (path : list Z) : path ++ tmp_suffix ≠ path.
Proof. intros E. apply (f_equal length) in E. rewrite length_app in E. unfold tmp_suffix in E. cbn in E. lia. Qed.

(** [path] is as it was, and the temporary is the file [ino]. *)
Definition saving (path : list Z) (w0 : World) (ino : Z) (w : World) : Prop :=
  fs_ok path w ∧ w_reads w = w_reads w0 ∧ lookup_file w path = lookup_file w0 path ∧
  dir_lookup (w_dir w) (path ++ tmp_suffix) = Some ino.

Definition saved (path : list Z) (w0 : World) (w : World) (c : option (list Z)) : Prop :=
  fs_ok path w ∧ w_reads w = w_reads w0 ∧ lookup_file w path = c.

Lemma saving_only path w0 ino w w' : saving path w0 ino w → only_file ino w w' → saving path w0 ino w'.
Proof.
  intros (Hfs & Hr & Hl & Ht) (Hd & Hn & Hr' & Hc). unfold saving, fs_ok, lookup_file in *. rewrite Hd, Hn.
  split_and!; [apply Hfs..|congruence| |done]. rewrite <-Hl. destruct (dir_lookup (w_dir w) path) as [i|] eqn:Ei; [|done].
  cbn. f_equal. apply Hc. intros ->. by destruct (proj1 Hfs ino eq_refl).
Qed.

Lemma saving_fail path w0 ino w : saving path w0 ino w → saved path w0 w (lookup_file w0 path).
Proof. by intros (? & ? & ? & ?). Qed.

Lemma saving_new path w w2 :
  saved path w w2 (lookup_file w path) → dir_lookup (w_dir w2) (path ++ tmp_suffix) = None →
  let w3 := mkWorld (<[w_next w2 := []]> (w_files w2)) (w_dir w2 ++ [(path ++ tmp_suffix, w_next w2)])
              (w_next w2 + 1) (w_errno w2) (w_reads w2) (w_writes w2) in
  saving path w (w_next w2) w3 ∧ w_content w3 (w_next w2) = [].
Proof.
  intros ([Hf1 Hf2] & Hr & Hl) Ht w3. pose proof (tmp_path_ne path).
  split; [|unfold w_content, w3; cbn; by rewrite lookup_insert_eq].
  assert (dir_lookup (w_dir w3) path = dir_lookup (w_dir w2) path) as Hp.
  { unfold w3. cbn [w_dir]. rewrite dir_lookup_app, decide_False by done. by destruct (dir_lookup _ _). }
  assert (dir_lookup (w_dir w3) (path ++ tmp_suffix) = Some (w_next w2)) as Ht3.
  { unfold w3. cbn [w_dir]. by rewrite dir_lookup_app, Ht, decide_True. }
  split_and!; [|done| |done].
  - split; rewrite ?Hp, ?Ht3; change (w_next w3) with (w_next w2 + 1).
    + intros i Hi. destruct (Hf1 i Hi). split; [lia|]. intros [= Heq]. lia.
    + intros j [= <-]. lia.
  - rewrite <-Hl. unfold lookup_file. rewrite Hp. destruct (dir_lookup (w_dir w2) path) as [i|] eqn:Ei; [|done].
    cbn. f_equal. unfold w_content, w3. cbn. destruct (Hf1 i eq_refl). by rewrite lookup_insert_ne by lia.
Qed.

Lemma sys_create_saving path w r w1 :
  fs_ok path w → sys_create (path ++ tmp_suffix) w = Some (r, w1) →
  match r with
  | None => saved path w w1 (lookup_file w path)
  | Some ino => saving path w ino w1 ∧ w_content w1 ino = []
  end.
Proof.
  intros Hfs. unfold sys_create. destruct (next_write w) as [o w2] eqn:Eo. apply (next_write_only 0) in Eo as [Ho Hc0].
  assert (w_dir w2 = w_dir w ∧ w_next w2 = w_next w ∧ w_reads w2 = w_reads w ∧ ∀ i, w_content w2 i = w_content w i)
    as (Hd & Hn & Hr & Hc).
  { destruct Ho as (? & ? & ? & Hc). split_and!; [done..|]. intros i. destruct (decide (i = 0)) as [->|]; auto. }
  assert (saved path w w2 (lookup_file w path)) as Hsaved.
  { unfold saved, fs_ok, lookup_file. rewrite Hd, Hn. split_and!; [apply Hfs..|done|].
    destruct (dir_lookup (w_dir w) path); [|done]. cbn. by rewrite Hc. }
  assert (∀ r', match dir_lookup (w_dir w2) (path ++ tmp_suffix) with
     | Some ino => Some (Some ino, put_file w2 ino [])
     | None => Some (Some (w_next w2), mkWorld (<[w_next w2 := []]> (w_files w2))
         (w_dir w2 ++ [(path ++ tmp_suffix, w_next w2)]) (w_next w2 + 1) (w_errno w2) (w_reads w2) (w_writes w2))
     end = Some (Some r', w1) → saving path w r' w1 ∧ w_content w1 r' = []) as Hmake.
  { intros r'. destruct (dir_lookup (w_dir w2) _) as [ino|] eqn:Et; intros [= <- <-].
    - split; [|apply put_file_content]. apply (saving_only path w ino w2).
      + by split_and!; [apply Hsaved..|].
      + split_and!; [done..|]. intros i Hi. by apply put_file_content_ne.
    - by apply saving_new. }
  destruct o as [|k|e]; [..|by intros [= <- <-]]; intros Hr'; (destruct r as [ino|]; [by apply Hmake|]);
    by destruct (dir_lookup (w_dir w2) _).
Qed.

Lemma sys_rename_saving path w0 ino w rc w' :
  saving path w0 ino w → sys_rename (path ++ tmp_suffix) path w = Some (rc, w') →
  saved path w0 w' (if decide (rc = 0) then Some (w_content w ino) else lookup_file w0 path).
Proof.
  intros ([Hf1 Hf2] & Hr & Hl & Ht). unfold sys_rename. destruct (next_write w) as [o w1] eqn:Eo.
  pose proof (tmp_path_ne path) as Hne. unfold next_write in Eo.
  assert (w_dir w1 = w_dir w ∧ w_next w1 = w_next w ∧ w_reads w1 = w_reads w ∧ w_files w1 = w_files w)
    as (Hd & Hn & Hr1 & Hf) by (destruct (w_writes w); by injection Eo as <- <-).
  rewrite Hd, Ht. set (d := dir_remove (dir_remove (w_dir w) (path ++ tmp_suffix)) path ++ [(path, ino)]).
  assert (dir_lookup d path = Some ino) as Hdp.
  { unfold d. by rewrite dir_lookup_app, dir_lookup_remove, !decide_True. }
  assert (dir_lookup d (path ++ tmp_suffix) = None) as Hdt.
  { unfold d. by rewrite dir_lookup_app, !dir_lookup_remove, decide_False, decide_True, decide_False by done. }
  assert (saved path w0 (set_dir w1 d) (Some (w_content w ino))) as Hok.
  { unfold saved, fs_ok, lookup_file. cbn [w_dir set_dir w_next w_reads]. rewrite Hdp, Hdt, Hn, Hr1.
    split_and!; [|done|done|]. 
    - intros i [= <-]. split; [by apply Hf2|done].
    - cbn. f_equal. unfold w_content. cbn. by rewrite Hf. }
  destruct o as [|k|e]; intros [= <- <-]; cbn; [by rewrite decide_True|by rewrite decide_True|].
  split_and!; [|cbn; congruence|].
  - unfold fs_ok. cbn [w_dir set_errno w_next]. by rewrite Hd, Hn.
  - rewrite <-Hl. unfold lookup_file, w_content. cbn. by rewrite Hd, Hf.
Qed.

(** A save replaces the file or leaves it, and says which. *)
Lemma pb_file_save_atomic path msg sync w rc w' :
  fs_ok path w → pb_file_save path msg sync w = Some (rc, w') →
  saved path w w' (if decide (rc = 0) then Some (pb_file_bytes msg) else lookup_file w path).
Proof.
  intros Hfs. unfold pb_file_save, mbind, io_bind.
  destruct (sys_create _ w) as [[r w1]|] eqn:E1; [|done]. apply sys_create_saving in E1; [|done].
  destruct r as [ino|]; [|by intros [= <- <-]]. destruct E1 as [Hs1 Hc1].
  set (hdr := store_le 4 _). assert (zlen hdr = 4) as Hhdr by (unfold zlen, hdr; by rewrite store_le_length).
  destruct (file_pwrite hdr ino 0 w1) as [[n2 w2]|] eqn:E2; [|done].
  apply file_pwrite_only in E2 as [Ho2 Hc2]; [|by rewrite Hc1]. pose proof (saving_only _ _ _ _ _ Hs1 Ho2) as Hs2.
  destruct (decide (4 ≠ n2)) as [|H4]; [intros [= <- <-]; by eapply saving_fail|].
  rewrite Hc1 in Hc2. specialize (Hc2 ltac:(lia)). cbn in Hc2.
  destruct (file_pwrite msg ino 4 w2) as [[n3 w3]|] eqn:E3; [|done].
  apply file_pwrite_only in E3 as [Ho3 Hc3]; [|by rewrite Hc2]. pose proof (saving_only _ _ _ _ _ Hs2 Ho3) as Hs3.
  case_decide as Hn3; [intros [= <- <-]; by eapply saving_fail|].
  specialize (Hc3 ltac:(lia)). rewrite Hc2 in Hc3.
  assert (∀ rc4 w4, (if sync then raft_fsync ino else mret 0) w3 = Some (rc4, w4) → only_file ino w3 w4 ∧
    w_content w4 ino = w_content w3 ino) as Hsync.
  { intros rc4 w4. destruct sync; [|by intros [= <- <-]]. unfold raft_fsync.
    destruct (next_write w3) as [o w5] eqn:E5. apply (next_write_only ino) in E5. by destruct o; intros [= <- <-]. }
  destruct ((if sync then raft_fsync ino else mret 0) w3) as [[rc4 w4]|] eqn:E4; [|done].
  destruct (Hsync rc4 w4 eq_refl) as [Ho4 Hc4]. pose proof (saving_only _ _ _ _ _ Hs3 Ho4) as Hs4.
  case_decide; [intros [= <- <-]; by eapply saving_fail|].
  destruct (sys_rename _ _ w4) as [[rc5 w5]|] eqn:E5; [|done].
  apply (sys_rename_saving path w ino) in E5; [|done]. rewrite Hc4, Hc3 in E5.
  destruct (decide (rc5 ≠ 0)) as [H5|H5]; intros [= <- <-]; [by rewrite decide_False in E5|].
  rewrite decide_True in E5 by (destruct (decide (rc5 = 0)); [done|by destruct H5]). exact E5.
Qed.
