(* ===== verification/Protobuf.v ===== *)
(** * Messages on disk

    The serialization of [ConfigurationPBMeta] and [LogPBMeta]
    (src/melon/proto/raft/local_storage.proto) is generated code.  Its users
    see it as an instance of [PbCodec] with the laws of [PbCodecLaws]; the
    wire format of protocol buffers is such an instance. *)

From stdpp Require Import prelude.
From S2P Require Import Prelude Bytes.
Local Open Scope Z_scope.

(** Strings are lists of bytes.  A failed parse of [LogPBMeta] leaves a
    message too, so its parser gives a value on every input. *)
Class PbCodec := {
  pb_conf_serialize : list (list Z) → list (list Z) → option (list Z);
  pb_conf_parse : list Z → option (list (list Z) * list (list Z));
  pb_meta_serialize : Z → list Z;
  pb_meta_parse : list Z → Z;
}.

Class PbCodecLaws `{PbCodec} := {
  pb_conf_roundtrip peers old_peers d :
    Forall bytes peers → Forall bytes old_peers → pb_conf_serialize peers old_peers = Some d →
    bytes d ∧ pb_conf_parse d = Some (peers, old_peers);
  pb_meta_roundtrip i :
    - 2 ^ 63 ≤ i < 2 ^ 63 →
    bytes (pb_meta_serialize i) ∧ zlen (pb_meta_serialize i) < 2 ^ 31 ∧
    pb_meta_parse (pb_meta_serialize i) = i;
}.

(** ** The wire format *)

Fixpoint varint (fuel : nat) (x : Z) : list Z :=
  match fuel with
  | O => []
  | S fuel' => if decide (x < 128) then [x] else (128 + x mod 128) :: varint fuel' (x / 128)
  end.

Fixpoint read_varint (d : list Z) : option (Z * list Z) :=
  match d with
  | [] => None
  | b :: d' =>
      if decide (b < 128) then Some (b, d')
      else '(x, rest) ← read_varint d'; Some (b - 128 + 128 * x, rest)
  end.

(** Ten bytes hold 64 bits. *)
Definition varint64 (x : Z) : list Z := varint 10 x.

Definition wire_string (tag : Z) (s : list Z) : list Z := tag :: varint64 (zlen s) ++ s.

Definition wire_conf_serialize (peers old_peers : list (list Z)) : option (list Z) :=
  if decide (Forall (λ s, zlen s < 2 ^ 31) (peers ++ old_peers)) then
    Some (concat (wire_string 10 <$> peers) ++ concat (wire_string 18 <$> old_peers))
  else None.

Fixpoint wire_conf_loop (fuel : nat) (d : list Z) : option (list (list Z) * list (list Z)) :=
  match fuel, d with
  | _, [] => Some ([], [])
  | O, _ => None
  | S fuel', tag :: d' =>
      '(n, rest) ← read_varint d';
      CHECK (n ≤ zlen rest);;
      let s := take (Z.to_nat n) rest in
      '(ps, ops) ← wire_conf_loop fuel' (drop (Z.to_nat n) rest);
      if decide (tag = 10) then Some (s :: ps, ops) else
      if decide (tag = 18) then Some (ps, s :: ops) else None
  end.

Definition wire_conf_parse (d : list Z) : option (list (list Z) * list (list Z)) :=
  wire_conf_loop (length d) d.

Definition wire_meta_parse (d : list Z) : Z :=
  match d with
  | 8 :: d' => i64 (from_option fst 0 (read_varint d'))
  | _ => 0
  end.

#[local] Instance wire_codec : PbCodec := {
  pb_conf_serialize := wire_conf_serialize;
  pb_conf_parse := wire_conf_parse;
  pb_meta_serialize i := 8 :: varint64 (u64 i);
  pb_meta_parse := wire_meta_parse;
}.

Lemma read_varint_app fuel x rest :
  (0 < fuel)%nat → 0 ≤ x < 128 ^ Z.of_nat fuel → read_varint (varint fuel x ++ rest) = Some (x, rest).
Proof.
  revert x. induction fuel as [|fuel IH]; intros x Hf Hx; [lia|].
  rewrite Nat2Z.inj_succ, Z.pow_succ_r in Hx by lia. cbn [varint].
  case_decide as Hd; cbn [app read_varint]; [by rewrite decide_True|].
  pose proof (Z.mod_pos_bound x 128 ltac:(lia)). pose proof (Z.div_mod x 128 ltac:(lia)).
  rewrite decide_False by lia. destruct fuel as [|fuel]; [change (128 ^ Z.of_nat 0) with 1 in Hx; lia|].
  rewrite IH; [|lia|split; [apply Z.div_pos; lia|apply Z.div_lt_upper_bound; lia]].
  cbn [mbind option_bind]. do 2 f_equal. lia.
Qed.

Lemma varint_bytes fuel x : 0 ≤ x → bytes (varint fuel x).
Proof.
  revert x. induction fuel as [|fuel IH]; intros x Hx; cbn [varint]; [constructor|]. case_decide.
  - constructor; [unfold byte; lia|constructor].
  - constructor; [|apply IH, Z.div_pos; lia]. unfold byte. pose proof (Z.mod_pos_bound x 128). lia.
Qed.

Lemma varint_length fuel x : (length (varint fuel x) ≤ fuel)%nat.
Proof.
  revert x. induction fuel as [|fuel IH]; intros x; cbn [varint]; [done|]. case_decide; cbn [length]; [lia|].
  specialize (IH (x / 128)). lia.
Qed.

Lemma read_varint64 x rest : 0 ≤ x < 2 ^ 64 → read_varint (varint64 x ++ rest) = Some (x, rest).
Proof. intros Hx. apply read_varint_app; [lia|]. change (128 ^ Z.of_nat 10) with (2 ^ 70). lia. Qed.

Lemma wire_loop_string fuel tag s d :
  zlen s < 2 ^ 31 →
  wire_conf_loop (S fuel) (wire_string tag s ++ d) =
    '(ps, ops) ← wire_conf_loop fuel d;
    if decide (tag = 10) then Some (s :: ps, ops) else if decide (tag = 18) then Some (ps, s :: ops) else None.
Proof.
  intros Hs. pose proof (zlen_nonneg s). unfold wire_string. cbn [app wire_conf_loop].
  rewrite <-app_assoc, read_varint64 by lia. cbn [mbind option_bind].
  rewrite CHECK_true by (rewrite zlen_app; pose proof (zlen_nonneg d); lia). cbn [mbind option_bind].
  replace (Z.to_nat (zlen s)) with (length s) by (unfold zlen; lia).
  by rewrite take_app_length, drop_app_length.
Qed.

Lemma wire_loop_old ops fuel :
  Forall (λ s, zlen s < 2 ^ 31) ops → (length ops ≤ fuel)%nat →
  wire_conf_loop fuel (concat (wire_string 18 <$> ops)) = Some ([], ops).
Proof.
  intros Ho. revert fuel. induction Ho as [|s ops Hs Ho IH]; intros fuel Hf; [by destruct fuel|].
  destruct fuel as [|fuel]; [cbn in Hf; lia|]. rewrite fmap_cons. cbn [concat].
  rewrite wire_loop_string, IH by (done || cbn in Hf; lia). done.
Qed.

Lemma wire_loop_all ps ops fuel :
  Forall (λ s, zlen s < 2 ^ 31) ps → Forall (λ s, zlen s < 2 ^ 31) ops → (length ps + length ops ≤ fuel)%nat →
  wire_conf_loop fuel (concat (wire_string 10 <$> ps) ++ concat (wire_string 18 <$> ops)) = Some (ps, ops).
Proof.
  intros Hp Ho. revert fuel. induction Hp as [|s ps Hs Hp IH]; intros fuel Hf; [by apply wire_loop_old|].
  destruct fuel as [|fuel]; [cbn in Hf; lia|]. rewrite fmap_cons. cbn [concat]. rewrite <-app_assoc.
  rewrite wire_loop_string, IH by (done || cbn in Hf; lia). done.
Qed.

Lemma wire_strings_bytes tag ss :
  byte tag → Forall bytes ss → bytes (concat (wire_string tag <$> ss)) ∧
  (length ss ≤ length (concat (wire_string tag <$> ss)))%nat.
Proof.
  intros Ht. induction 1 as [|s ss Hs Hss [IH1 IH2]]; [split; [constructor|done]|].
  rewrite fmap_cons. cbn [concat]. unfold wire_string at 1 3. cbn [app length]. split.
  - constructor; [done|]. apply Forall_app. split; [|done]. apply Forall_app. split; [|done].
    apply varint_bytes, zlen_nonneg.
  - rewrite !length_app. lia.
Qed.

#[local] Instance wire_codec_laws : PbCodecLaws.
Proof.
  split; cbn [pb_conf_serialize pb_conf_parse pb_meta_serialize pb_meta_parse wire_codec].
  - intros ps ops d Hp Ho. unfold wire_conf_serialize. case_decide as Hl; [|done]. intros [= <-].
    apply Forall_app in Hl as [Hlp Hlo].
    destruct (wire_strings_bytes 10 ps) as [Hb1 Hc1]; [done|done|].
    destruct (wire_strings_bytes 18 ops) as [Hb2 Hc2]; [done|done|].
    split; [by apply Forall_app|]. unfold wire_conf_parse. apply wire_loop_all; [done..|]. rewrite length_app. lia.
  - intros i Hi. pose proof (u64_range i). split_and!.
    + constructor; [done|]. apply varint_bytes. lia.
    + pose proof (varint_length 10 (u64 i)). unfold zlen. cbn [length]. unfold varint64. lia.
    + unfold wire_meta_parse. rewrite <-(app_nil_r (varint64 _)), read_varint64 by done. cbn [from_option fst].
      by apply i64_u64.
Qed.
