(* ===== verification/Segment.v ===== *)
(** * Segments

    [Segment] of src/melon/raft/log.{h,cc}: a file of log entries, each behind
    a header with checksums, and the index of their offsets and terms in
    memory.  Also the serialization of configuration entries
    (src/melon/raft/log_entry.cc) and the names of segment files.

    The descriptor of a segment is the inode it was opened on, with its file
    offset; a mutex-protected method is one step.  Loading and reading take the
    checksums of whole buffers: Crc32c.v and Murmur.v show that the blocks of
    an [IOBuf] do not matter. *)

From Stdlib Require Import Ascii String.
From stdpp Require Import prelude gmap sorting.
From S2P Require Import Prelude StdContainers Configuration ConfigurationManager LogStorage Bytes Text.
From S2P Require Import PeerText Crc32c Murmur FileSystem Protobuf.
Local Open Scope Z_scope.

(** ** Configuration entries on disk *)

Section segment.
Context {PB : PbCodec}.

(** [PeerId(meta.peers(j))] for every [j]. *)
Definition peers_of_strings (ss : list (list Z)) : option (list PeerId) := mapM peer_of_string ss.

(** [parse_configuration_meta(data, entry)]; the inner [None] is [EINVAL]. *)
Definition parse_configuration_meta (d : list Z) (entry : LogEntry) : option (option LogEntry) :=
  match pb_conf_parse d with
  | None => Some None
  | Some (meta_peers, meta_old_peers) =>
      ps ← peers_of_strings meta_peers;
      if decide (0 < zlen meta_old_peers) then
        ops ← peers_of_strings meta_old_peers;
        Some (Some (mkLogEntry (type entry) (id entry) (Some ps) (Some ops) (data entry)))
      else Some (Some (mkLogEntry (type entry) (id entry) (Some ps) (old_peers entry) (data entry)))
  end.

(** [serialize_configuration_meta(entry, data)] dereferences [entry->peers]. *)
Definition serialize_configuration_meta (entry : LogEntry) : option (option (list Z)) :=
  ps ← peers entry;
  meta_peers ← mapM peer_to_string ps;
  meta_old_peers ← match old_peers entry with None => Some [] | Some ops => mapM peer_to_string ops end;
  Some (pb_conf_serialize meta_peers meta_old_peers).

(** [LogEntry()]. *)
Definition new_entry : LogEntry := mkLogEntry ENTRY_TYPE_UNKNOWN zero_id None None [].

(** The values of [EntryType]. *)
Definition type_code (t : EntryType) : Z :=
  match t with
  | ENTRY_TYPE_UNKNOWN => 0 | ENTRY_TYPE_NO_OP => 1 | ENTRY_TYPE_DATA => 2 | ENTRY_TYPE_CONFIGURATION => 3
  end.

(** ** Checksums *)

Definition CHECKSUM_MURMURHASH32 : Z := 0.
Definition CHECKSUM_CRC32 : Z := 1.

(** [crc32(data, len)] of raft/util.h. *)
Definition crc32 (d : list Z) : Z := crc32c_Value Slow_CRC32 0 d.

Definition verify_checksum (checksum_type : Z) (d : list Z) (value : Z) : bool :=
  if decide (checksum_type = CHECKSUM_MURMURHASH32) then bool_decide (value = murmurhash32 d)
  else if decide (checksum_type = CHECKSUM_CRC32) then bool_decide (value = crc32 d)
  else false.

Definition get_checksum (checksum_type : Z) (d : list Z) : option Z :=
  if decide (checksum_type = CHECKSUM_MURMURHASH32) then Some (murmurhash32 d)
  else if decide (checksum_type = CHECKSUM_CRC32) then Some (crc32 d)
  else None.

(** The overloads on an [IOBuf] of one block. *)
Definition verify_checksum_buf (checksum_type : Z) (d : list Z) (value : Z) : bool :=
  if decide (checksum_type = CHECKSUM_MURMURHASH32) then
    bool_decide (value = murmurhash32_iobuf (replicate 4 0) [d])
  else if decide (checksum_type = CHECKSUM_CRC32) then bool_decide (value = crc32_iobuf Slow_CRC32 [(0, d)])
  else false.

Definition get_checksum_buf (checksum_type : Z) (d : list Z) : option Z :=
  if decide (checksum_type = CHECKSUM_MURMURHASH32) then Some (murmurhash32_iobuf (replicate 4 0) [d])
  else if decide (checksum_type = CHECKSUM_CRC32) then Some (crc32_iobuf Slow_CRC32 [(0, d)])
  else None.

(** ** Names *)

Definition segment_open_name (first_index : Z) : list Z := chars "log_inprogress_"%string ++ print_020 first_index.
Definition segment_closed_name (first_index last_index : Z) : list Z :=
  chars "log_"%string ++ print_020 first_index ++ [ch_underscore] ++ print_020 last_index.
Definition segment_meta_file : list Z := chars "log_meta"%string.

(** ** The segment *)

Definition ENTRY_HEADER_SIZE : Z := 24.

Record EntryHeader := mkHeader {
  eh_term : Z;
  eh_type : Z;
  eh_checksum_type : Z;
  eh_data_len : Z;
  eh_data_checksum : Z;
}.

Record Segment := mkSegment {
  sg_bytes : Z;
  sg_unsynced_bytes : Z;
  sg_fd : option Z;
  sg_pos : Z;
  sg_is_open : bool;
  sg_first_index : Z;
  sg_last_index : Z;
  sg_checksum_type : Z;
  sg_offset_and_term : list (Z * Z);
}.

Definition new_open_segment (first_index checksum_type : Z) : Segment :=
  mkSegment 0 0 None 0 true first_index (first_index - 1) checksum_type [].
Definition new_closed_segment (first_index last_index checksum_type : Z) : Segment :=
  mkSegment 0 0 None 0 false first_index last_index checksum_type [].

Definition set_fd (s : Segment) (fd : option Z) : Segment :=
  mkSegment (sg_bytes s) (sg_unsynced_bytes s) fd 0 (sg_is_open s) (sg_first_index s) (sg_last_index s)
    (sg_checksum_type s) (sg_offset_and_term s).
Definition set_pos (s : Segment) (pos : Z) : Segment :=
  mkSegment (sg_bytes s) (sg_unsynced_bytes s) (sg_fd s) pos (sg_is_open s) (sg_first_index s) (sg_last_index s)
    (sg_checksum_type s) (sg_offset_and_term s).
Definition set_is_open (s : Segment) (b : bool) : Segment :=
  mkSegment (sg_bytes s) (sg_unsynced_bytes s) (sg_fd s) (sg_pos s) b (sg_first_index s) (sg_last_index s)
    (sg_checksum_type s) (sg_offset_and_term s).
Definition set_unsynced (s : Segment) (n : Z) : Segment :=
  mkSegment (sg_bytes s) n (sg_fd s) (sg_pos s) (sg_is_open s) (sg_first_index s) (sg_last_index s)
    (sg_checksum_type s) (sg_offset_and_term s).

(** [file_name()], and the path every method builds the same way. *)
Definition sg_file_name (s : Segment) : list Z :=
  if sg_is_open s then segment_open_name (sg_first_index s)
  else segment_closed_name (sg_first_index s) (sg_last_index s).

Definition sg_create (s : Segment) : IO (Segment * Z) :=
  io_check (sg_is_open s = true);;
  fd ← sys_create (segment_open_name (sg_first_index s));
  mret (set_fd s fd, if decide (is_Some fd) then 0 else -1).

(** The unpacking of a header: its fields and its own checksum. *)
Definition unpack_header (p : list Z) : option (EntryHeader * Z) :=
  '(term, p) ← unpack64 p;
  '(meta_field, p) ← unpack32 p;
  '(data_len, p) ← unpack32 p;
  '(data_checksum, p) ← unpack32 p;
  '(header_checksum, _) ← unpack32 p;
  Some (mkHeader (i64 term) (Z.shiftr meta_field 24) (Z.shiftr (u32 (Z.shiftl meta_field 8)) 24) data_len data_checksum,
        header_checksum).

(** [_load_entry(offset, head, data, size_hint)]: the code when it is not 0,
    or the header and, when the caller wants it, the data. *)
Definition load_entry (ino offset : Z) (want_data : bool) (size_hint : Z) : IO (Z + EntryHeader * list Z) :=
  let to_read := Z.max size_hint ENTRY_HEADER_SIZE in
  '(buf, n) ← file_pread ino offset to_read;
  if decide (n ≠ to_read) then mret (inl (if decide (n < 0) then -1 else 1))
  else
    let p := take 24 buf in
    '(tmp, header_checksum) ← io_lift (unpack_header p);
    if negb (verify_checksum (eh_checksum_type tmp) (take 20 p) header_checksum) then mret (inl (-1))
    else if want_data then
      let whole := ENTRY_HEADER_SIZE + eh_data_len tmp in
      r ← (if decide (zlen buf < whole) then
             let to_read := whole - zlen buf in
             '(more, n) ← file_pread ino (offset + zlen buf) to_read;
             if decide (n ≠ to_read) then mret (inl (if decide (n < 0) then -1 else 1)) else mret (inr (buf ++ more))
           else mret (inr (take (Z.to_nat whole) buf)));
      match r with
      | inl rc => mret (inl rc)
      | inr buf =>
          io_check (zlen buf = whole);;
          let buf := drop 24 buf in
          if negb (verify_checksum_buf (eh_checksum_type tmp) buf (eh_data_checksum tmp)) then mret (inl (-1))
          else mret (inr (tmp, buf))
      end
    else mret (inr (tmp, [])).

(** [_get_meta]: [(offset, term, length)], or [None] for -1. *)
Definition get_meta (s : Segment) (index : Z) : option (option (Z * Z * Z)) :=
  if decide (index > sg_last_index s ∨ index < sg_first_index s) then Some None
  else if decide (sg_last_index s = sg_first_index s - 1) then Some None
  else
    let meta_index := index - sg_first_index s in
    '(entry_cursor, term) ← zlookup (sg_offset_and_term s) meta_index;
    next_cursor ← (if decide (index < sg_last_index s) then fst <$> zlookup (sg_offset_and_term s) (meta_index + 1)
                   else Some (sg_bytes s));
    Some (Some (entry_cursor, term, next_cursor - entry_cursor)).

(** The loop of [load]: the offset reached, the index of the entries read, the
    configurations, and the code.  Every entry is at least a header long, so
    the size of the file bounds their number. *)
Fixpoint load_loop (fuel : nat) (ino file_size i entry_off : Z) (index_ : list (Z * Z)) (cm : ConfigurationManager)
  : IO (Z * list (Z * Z) * ConfigurationManager * Z) :=
  match fuel with
  | O => λ _, None
  | S fuel' =>
      if decide (entry_off < file_size) then
        r ← load_entry ino entry_off false ENTRY_HEADER_SIZE;
        match r with
        | inl rc => mret (entry_off, index_, cm, if decide (rc > 0) then 0 else rc)
        | inr (header, _) =>
            let skip_len := ENTRY_HEADER_SIZE + eh_data_len header in
            if decide (entry_off + skip_len > file_size) then mret (entry_off, index_, cm, 0)
            else if decide (eh_type header = type_code ENTRY_TYPE_CONFIGURATION) then
              r ← load_entry ino entry_off true skip_len;
              match r with
              | inl _ => mret (entry_off, index_, cm, 0)
              | inr (_, d) =>
                  let entry := mkLogEntry ENTRY_TYPE_UNKNOWN (mkLogId i (eh_term header)) None None [] in
                  status ← io_lift (parse_configuration_meta d entry);
                  match status with
                  | None => mret (entry_off, index_, cm, -1)
                  | Some entry =>
                      conf_entry ← io_lift (ce_of_entry entry);
                      cm' ← io_lift (cm_add cm conf_entry);
                      load_loop fuel' ino file_size (i + 1) (entry_off + skip_len)
                        (index_ ++ [(entry_off, eh_term header)]) cm'
                  end
              end
            else
              load_loop fuel' ino file_size (i + 1) (entry_off + skip_len)
                (index_ ++ [(entry_off, eh_term header)]) cm
        end
      else mret (entry_off, index_, cm, 0)
  end.

(** [load(configuration_manager)]. *)
Definition sg_load (s : Segment) (cm : ConfigurationManager) : IO (Segment * ConfigurationManager * Z) :=
  fd ← sys_open (sg_file_name s);
  match fd with
  | None => mret (set_fd s None, cm, -1)
  | Some ino =>
      st ← sys_fstat ino;
      match st with
      | None => mret (set_fd s None, cm, -1)
      | Some file_size =>
          '(entry_off, index_, cm, ret) ←
            load_loop (S (Z.to_nat file_size)) ino file_size (sg_first_index s) 0 (sg_offset_and_term s) cm;
          let s := mkSegment (sg_bytes s) (sg_unsynced_bytes s) (Some ino) 0 (sg_is_open s) (sg_first_index s)
                     (sg_last_index s) (sg_checksum_type s) index_ in
          let actual_last_index := sg_first_index s - 1 + zlen index_ in
          let ret := if decide (ret = 0 ∧ sg_is_open s = false ∧ actual_last_index ≠ sg_last_index s) then -1 else ret in
          if decide (ret ≠ 0) then mret (s, cm, ret)
          else
            ret ← (if decide (entry_off ≠ file_size) then ftruncate_uninterrupted ino entry_off else mret 0);
            off ← sys_lseek entry_off;
            let pos := if decide (off < 0) then 0 else off in
            mret (mkSegment entry_off (sg_unsynced_bytes s) (Some ino) pos (sg_is_open s) (sg_first_index s)
                    (if sg_is_open s then actual_last_index else sg_last_index s) (sg_checksum_type s) index_, cm, ret)
      end
  end.

(** The data of an entry: the outer [None] aborts, the inner one is the
    failure to serialize. *)
Definition entry_data (entry : LogEntry) : option (option (list Z)) :=
  match type entry with
  | ENTRY_TYPE_DATA => Some (Some (data entry))
  | ENTRY_TYPE_NO_OP => Some (Some [])
  | ENTRY_TYPE_CONFIGURATION => serialize_configuration_meta entry
  | ENTRY_TYPE_UNKNOWN => None
  end.

Definition pack_header (checksum_type : Z) (entry : LogEntry) (d : list Z) : option (list Z) :=
  let meta_field := u32 (Z.lor (Z.shiftl (type_code (type entry)) 24) (Z.shiftl checksum_type 16)) in
  data_checksum ← get_checksum_buf checksum_type d;
  let header_buf := pack64 (term (id entry)) ++ pack32 meta_field ++ pack32 (zlen d) ++ pack32 data_checksum in
  header_checksum ← get_checksum checksum_type header_buf;
  Some (header_buf ++ pack32 header_checksum).

(** [while (written < to_write)] over the pieces left, at the position of the
    descriptor. *)
Fixpoint write_loop (fuel : nat) (ino pos : Z) (pieces : list Z) : IO (Z * bool) :=
  match fuel with
  | O => λ _, None
  | S fuel' =>
      if decide (pieces = []) then mret (pos, true)
      else
        n ← sys_pwrite ino pos pieces;
        match n with
        | None => mret (pos, false)
        | Some n => write_loop fuel' ino (pos + n) (drop (Z.to_nat n) pieces)
        end
  end.

(** [append(entry)]. *)
Definition sg_append (s : Segment) (entry : LogEntry) : IO (Segment * Z) := λ w,
  (if negb (sg_is_open s) then mret (s, EINVAL)
   else
     io_check (index (id entry) = sg_last_index s + 1);;
     d ← io_lift (entry_data entry);
     match d with
     | None => mret (s, -1)
     | Some d =>
         io_check (zlen d ≤ 2 ^ 56);;
         header ← io_lift (pack_header (sg_checksum_type s) entry d);
         fd ← io_lift (sg_fd s);
         '(pos, ok) ← write_loop (S (S (List.length (w_writes w)))) fd (sg_pos s) (header ++ d);
         if negb ok then mret (set_pos s pos, -1)
         else
           let to_write := zlen header + zlen d in
           mret (mkSegment (sg_bytes s + to_write) (sg_unsynced_bytes s + to_write) (sg_fd s) pos (sg_is_open s)
                   (sg_first_index s) (sg_last_index s + 1) (sg_checksum_type s)
                   (sg_offset_and_term s ++ [(sg_bytes s, term (id entry))]), 0)
     end) w.

(** The flags [sync] and [close] read. *)
Record SyncFlags := mkFlags {
  raft_sync : bool;
  raft_sync_by_bytes : bool;
  raft_sync_per_bytes : Z;
  raft_sync_segments : bool;
  raft_sync_meta_flag : bool;
  raft_max_segment_size : Z;
}.

(** [sync(will_sync)]. *)
Definition sg_sync (fl : SyncFlags) (s : Segment) (will_sync : bool) : IO (Segment * Z) :=
  if decide (sg_last_index s < sg_first_index s) then mret (s, 0)
  else if will_sync then
    if negb (raft_sync fl) then mret (s, 0)
    else if decide (raft_sync_by_bytes fl = true ∧ raft_sync_per_bytes fl > sg_unsynced_bytes s) then mret (s, 0)
    else
      fd ← io_lift (sg_fd s);
      rc ← raft_fsync fd;
      mret (set_unsynced s 0, rc)
  else mret (s, 0).

(** [get(index)]; [None] inside is the null pointer. *)
Definition sg_get (s : Segment) (i : Z) : IO (option LogEntry) :=
  m ← io_lift (get_meta s i);
  match m with
  | None => mret None
  | Some (offset, mterm, length) =>
      fd ← io_lift (sg_fd s);
      r ← load_entry fd offset true length;
      match r with
      | inl _ => mret None
      | inr (header, d) =>
          io_check (mterm = eh_term header);;
          let id := mkLogId i (eh_term header) in
          if decide (eh_type header = 2) then mret (Some (mkLogEntry ENTRY_TYPE_DATA id None None d))
          else if decide (eh_type header = 1) then
            io_check (d = []);; mret (Some (mkLogEntry ENTRY_TYPE_NO_OP id None None []))
          else if decide (eh_type header = 3) then
            status ← io_lift (parse_configuration_meta d new_entry);
            match status with
            | None => mret None
            | Some e => mret (Some (mkLogEntry ENTRY_TYPE_CONFIGURATION id (peers e) (old_peers e) (data e)))
            end
          else λ _, None
      end
  end.

(** [get_term(index)]. *)
Definition sg_get_term (s : Segment) (i : Z) : option Z :=
  m ← get_meta s i;
  match m with None => Some 0 | Some (_, mterm, _) => Some mterm end.

(** [close(will_sync)]. *)
Definition sg_close (fl : SyncFlags) (s : Segment) (will_sync : bool) : IO (Segment * Z) :=
  io_check (sg_is_open s = true);;
  let old_path := segment_open_name (sg_first_index s) in
  let new_path := segment_closed_name (sg_first_index s) (sg_last_index s) in
  ret ← (if decide (sg_last_index s > sg_first_index s ∧ raft_sync_segments fl = true ∧ will_sync = true) then
           fd ← io_lift (sg_fd s); raft_fsync fd
         else mret 0);
  if decide (ret = 0) then
    rc ← sys_rename old_path new_path;
    mret (set_is_open s false, rc)
  else mret (s, ret).

(** [unlink()]: the file is renamed and removed, in the background or not. *)
Definition sg_unlink (s : Segment) : IO Z :=
  let path := sg_file_name s in
  let tmp_path := path ++ tmp_suffix in
  ret ← sys_rename path tmp_path;
  if decide (ret ≠ 0) then mret ret
  else _ ← sys_unlink tmp_path; mret ret.

(** [truncate(last_index_kept)]. *)
Definition sg_truncate (s : Segment) (last_index_kept : Z) : IO (Segment * Z) :=
  if decide (sg_last_index s ≤ last_index_kept) then mret (s, 0)
  else
    let first_truncate_in_offset := last_index_kept + 1 - sg_first_index s in
    '(truncate_size, _) ← io_lift (zlookup (sg_offset_and_term s) first_truncate_in_offset);
    fd ← io_lift (sg_fd s);
    ret ← (if sg_is_open s then mret 0
           else sys_rename (segment_closed_name (sg_first_index s) (sg_last_index s))
                  (segment_open_name (sg_first_index s)));
    if decide (ret ≠ 0) then mret (s, ret)
    else
      let s := set_is_open s true in
      ret ← ftruncate_uninterrupted fd truncate_size;
      if decide (ret < 0) then mret (s, ret)
      else
        ret_off ← sys_lseek truncate_size;
        if decide (ret_off < 0) then mret (s, -1)
        else
          mret (mkSegment truncate_size (sg_unsynced_bytes s) (sg_fd s) truncate_size true (sg_first_index s)
                  last_index_kept (sg_checksum_type s)
                  (take (Z.to_nat first_truncate_in_offset) (sg_offset_and_term s)), ret).

End segment.
