(* ===== verification/SegmentSpec.v ===== *)
(** * What a segment holds

    The encoding of entries in Segment.v is read back exactly; every method of
    a segment that meets no fault has its effect on the entries the segment
    represents; loading a segment recovers them, cutting off an entry that was
    not completely written. *)

From Stdlib Require Import Ascii String.
From stdpp Require Import prelude gmap sorting.
From S2P Require Import Prelude StdContainers Configuration ConfigurationManager LogStorage Bytes Text.
From S2P Require Import PeerText Crc32c Murmur FileSystem Protobuf Segment.
Local Open Scope Z_scope.

Lemma zlookup_nonneg {A} (l : list A) i : 0 ≤ i → zlookup l i = l !! Z.to_nat i.
Proof. intros. unfold zlookup. by rewrite decide_False by lia. Qed.

(** ** Checksums *)

Definition checksum_ok (ct : Z) : Prop := ct = CHECKSUM_MURMURHASH32 ∨ ct = CHECKSUM_CRC32.

Lemma crc32_eq d : bytes d → crc32 d = crc32c_spec 0 d.
Proof. intros Hd. unfold crc32, crc32c_Value. apply ExtendImpl_ok; [apply _|lia|done]. Qed.

Lemma get_checksum_Some ct d :
  checksum_ok ct → bytes d → ∃ v, get_checksum ct d = Some v ∧ 0 ≤ v < 2 ^ 32 ∧ verify_checksum ct d v = true.
Proof.
  intros [->| ->] Hd; unfold get_checksum, verify_checksum; cbn.
  - exists (murmurhash32 d). split_and!; [done|apply murmurhash32_range..|]. by apply bool_decide_eq_true.
  - exists (crc32 d). rewrite crc32_eq by done. split_and!; [done|by apply crc32c_spec_range..|].
    by apply bool_decide_eq_true.
Qed.

Lemma get_checksum_buf_eq ct d : bytes d → get_checksum_buf ct d = get_checksum ct d.
Proof.
  intros Hd. unfold get_checksum_buf, get_checksum. rewrite murmurhash32_iobuf_concat by done. cbn [concat].
  rewrite app_nil_r. rewrite (crc32_iobuf_ok Slow_CRC32) by (by repeat constructor). rewrite crc32_eq by done. cbn.
  by rewrite app_nil_r.
Qed.

Lemma verify_checksum_buf_eq ct d v : bytes d → verify_checksum_buf ct d v = verify_checksum ct d v.
Proof.
  intros Hd. unfold verify_checksum_buf, verify_checksum. rewrite murmurhash32_iobuf_concat by done. cbn [concat].
  rewrite app_nil_r. rewrite (crc32_iobuf_ok Slow_CRC32) by (by repeat constructor). rewrite crc32_eq by done. cbn.
  by rewrite app_nil_r.
Qed.

Section spec.
Context {PB : PbCodec} {PBL : PbCodecLaws}.

(** ** Entries *)

(** What a segment can store and give back: a 64-bit term and index, and the
    fields its type uses. *)
Definition entry_fields_ok (e : LogEntry) : Prop :=
  match type e with
  | ENTRY_TYPE_DATA => peers e = None ∧ old_peers e = None ∧ bytes (data e)
  | ENTRY_TYPE_NO_OP => peers e = None ∧ old_peers e = None ∧ data e = []
  | ENTRY_TYPE_CONFIGURATION =>
      data e = [] ∧ (∃ ps, peers e = Some ps ∧ Forall peer_ok ps) ∧
      (old_peers e = None ∨ ∃ ops, old_peers e = Some ops ∧ ops ≠ [] ∧ Forall peer_ok ops)
  | ENTRY_TYPE_UNKNOWN => False
  end.

Definition entry_ok (e : LogEntry) : Prop :=
  (- 2 ^ 63 ≤ term (id e) < 2 ^ 63 ∧ 0 ≤ index (id e) < 2 ^ 63) ∧ entry_fields_ok e ∧
  ∃ d, entry_data e = Some (Some d) ∧ zlen d < 2 ^ 32.

Lemma peer_string_bytes p s : peer_ok p → peer_to_string p = Some s → bytes s.
Proof.
  intros Hp Hs. destruct (peer_to_string_chars p s Hp Hs) as [Hc _]. eapply Forall_impl; [exact Hc|].
  intros c Hch. unfold byte. destruct Hch as [->|[->|[->|Hd%digit_iff]]]; unfold ch_colon, ch_dot, ch_minus; lia.
Qed.

Lemma peers_strings ps ss :
  Forall peer_ok ps → mapM peer_to_string ps = Some ss → Forall bytes ss ∧ peers_of_strings ss = Some ps.
Proof.
  intros Hp Hm. apply mapM_Some in Hm. revert Hp. induction Hm as [|p s ps ss Hs Hm IH]; intros Hp; [done|].
  inversion Hp as [|? ? Hp1 Hp2]; subst. destruct (IH Hp2) as [IH1 IH2]. split.
  - constructor; [|done]. by eapply peer_string_bytes.
  - unfold peers_of_strings in *. cbn [mapM]. rewrite (peer_of_string_print p) by done.
    cbn [mbind option_bind]. by rewrite IH2.
Qed.

Lemma entry_data_bytes e d : entry_fields_ok e → entry_data e = Some (Some d) → bytes d.
Proof.
  unfold entry_fields_ok, entry_data. destruct (type e); [done|..].
  - intros _ [= <-]. constructor.
  - by intros (_ & _ & Hb) [= <-].
  - intros (_ & (ps & Hps & Hpok) & Hops). unfold serialize_configuration_meta. rewrite Hps. cbn [mbind option_bind].
    destruct (mapM peer_to_string ps) as [ss|] eqn:Es; [|done]. cbn [mbind option_bind].
    destruct (peers_strings ps ss Hpok Es) as [Hb1 _].
    destruct Hops as [->|(ops & -> & Hne & Hook)]; cbn [mbind option_bind].
    + intros [= Hd]. apply (pb_conf_roundtrip ss []) in Hd as [? _]; done.
    + destruct (mapM peer_to_string ops) as [sss|] eqn:Eo; [|done]. cbn [mbind option_bind]. intros [= Hd].
      destruct (peers_strings ops sss Hook Eo) as [Hb2 _]. by apply (pb_conf_roundtrip ss sss) in Hd as [? _].
Qed.

(** What is serialized is parsed back into the same peers. *)
Lemma configuration_meta_roundtrip e d e0 :
  entry_fields_ok e → type e = ENTRY_TYPE_CONFIGURATION → entry_data e = Some (Some d) → old_peers e0 = None →
  parse_configuration_meta d e0 = Some (Some (mkLogEntry (type e0) (id e0) (peers e) (old_peers e) (data e0))).
Proof.
  unfold entry_fields_ok, entry_data. intros Hf Ht. rewrite Ht in *.
  destruct Hf as (_ & (ps & Hps & Hpok) & Hops). unfold serialize_configuration_meta. rewrite Hps.
  cbn [mbind option_bind]. intros Hd He0.
  destruct (mapM peer_to_string ps) as [ss|] eqn:Es; [|done]. cbn [mbind option_bind] in Hd.
  destruct (peers_strings ps ss Hpok Es) as [Hb1 Hp1]. unfold parse_configuration_meta.
  destruct Hops as [Ho|(ops & Ho & Hne & Hook)]; rewrite Ho in *; cbn [mbind option_bind] in Hd.
  - apply (inj Some) in Hd. apply (pb_conf_roundtrip ss []) in Hd as [_ ->]; [|done..]. rewrite Hp1. cbn [mbind option_bind].
    rewrite decide_False by done. by rewrite He0.
  - destruct (mapM peer_to_string ops) as [sss|] eqn:Eo; [|done]. cbn [mbind option_bind] in Hd.
    destruct (peers_strings ops sss Hook Eo) as [Hb2 Hp2]. apply (inj Some) in Hd.
    apply (pb_conf_roundtrip ss sss) in Hd as [_ ->]; [|done..]. rewrite Hp1, Hp2. cbn [mbind option_bind].
    rewrite decide_True; [done|]. apply mapM_Some, Forall2_length in Eo. unfold zlen. destruct ops; [done|]. cbn in Eo. lia.
Qed.

(** ** Headers *)

Definition header_of (ct : Z) (e : LogEntry) (d : list Z) (cks : Z) : EntryHeader :=
  mkHeader (term (id e)) (type_code (type e)) ct (zlen d) cks.

Lemma meta_field_eq ct e :
  checksum_ok ct → u32 (Z.lor (Z.shiftl (type_code (type e)) 24) (Z.shiftl ct 16)) = type_code (type e) * 2 ^ 24 + ct * 2 ^ 16.
Proof. intros [->| ->]; destruct (type e); reflexivity. Qed.

Lemma meta_field_type ct e :
  checksum_ok ct → let m := type_code (type e) * 2 ^ 24 + ct * 2 ^ 16 in
  Z.shiftr (u32 m) 24 = type_code (type e) ∧ Z.shiftr (u32 (Z.shiftl (u32 m) 8)) 24 = ct.
Proof. intros [->| ->]; destruct (type e); split; reflexivity. Qed.

Lemma pack_header_ok ct e d :
  checksum_ok ct → entry_ok e → entry_data e = Some (Some d) →
  ∃ h cks hck, pack_header ct e d = Some h ∧ length h = 24%nat ∧ bytes h ∧
    unpack_header h = Some (header_of ct e d cks, hck) ∧
    verify_checksum ct (take 20 h) hck = true ∧ verify_checksum_buf ct d cks = true.
Proof.
  intros Hct ([Ht _] & Hf & d' & Hd' & Hlen) Hd. assert (d' = d) as -> by congruence. clear Hd'.
  pose proof (entry_data_bytes e d Hf Hd) as Hb. unfold pack_header. rewrite get_checksum_buf_eq by done.
  destruct (get_checksum_Some ct d Hct Hb) as (cks & -> & Hcks & Hv). cbn [mbind option_bind].
  rewrite meta_field_eq by done. destruct (meta_field_type ct e Hct) as [Hm1 Hm2].
  set (m := type_code (type e) * 2 ^ 24 + ct * 2 ^ 16) in *.
  set (hb := pack64 (term (id e)) ++ pack32 m ++ pack32 (zlen d) ++ pack32 cks).
  assert (bytes hb) as Hbb.
  { unfold hb, bytes. rewrite !Forall_app. split_and!; try apply pack32_bytes. apply pack64_bytes. }
  assert (length hb = 20%nat) as Hlb.
  { unfold hb. rewrite !length_app, !pack32_length, pack64_length. done. }
  destruct (get_checksum_Some ct hb Hct Hbb) as (hck & -> & Hhck & Hv2). cbn [mbind option_bind].
  exists (hb ++ pack32 hck), cks, hck. split_and!; [done|by rewrite length_app, Hlb, pack32_length| | | |].
  - apply Forall_app. split; [done|apply pack32_bytes].
  - unfold unpack_header, hb. rewrite <-!app_assoc. rewrite unpack_pack64. cbn [mbind option_bind].
    rewrite unpack_pack32. cbn [mbind option_bind]. rewrite unpack_pack32. cbn [mbind option_bind].
    rewrite unpack_pack32. cbn [mbind option_bind].
    rewrite <-(app_nil_r (pack32 hck)), unpack_pack32. cbn [mbind option_bind].
    unfold header_of. rewrite i64_u64 by done. rewrite Hm1, Hm2. pose proof (zlen_nonneg d).
    rewrite !u32_small by lia. done.
  - rewrite take_app_length' by done. done.
  - by rewrite verify_checksum_buf_eq.
Qed.

(** The bytes of an entry in a segment. *)
Definition is_chunk (e : LogEntry) (c : list Z) : Prop :=
  ∃ ct d h, checksum_ok ct ∧ entry_data e = Some (Some d) ∧ pack_header ct e d = Some h ∧ c = h ++ d.

Lemma chunk_parts e c :
  entry_ok e → is_chunk e c →
  ∃ ct d h cks hck, c = h ++ d ∧ length h = 24%nat ∧ entry_data e = Some (Some d) ∧ bytes d ∧
    unpack_header h = Some (header_of ct e d cks, hck) ∧
    verify_checksum ct (take 20 h) hck = true ∧ verify_checksum_buf ct d cks = true.
Proof.
  intros He (ct & d & h & Hct & Hd & Hh & ->).
  destruct (pack_header_ok ct e d Hct He Hd) as (h' & cks & hck & Hh' & Hl & Hb & Hu & Hv1 & Hv2).
  assert (h' = h) as -> by congruence. exists ct, d, h, cks, hck. split_and!; try done.
  destruct He as (_ & Hf & _). by eapply entry_data_bytes.
Qed.

Lemma chunk_length e c : entry_ok e → is_chunk e c → 24 ≤ zlen c.
Proof.
  intros He Hc. destruct (chunk_parts e c He Hc) as (ct & d & h & cks & hck & -> & Hl & _).
  rewrite zlen_app. pose proof (zlen_nonneg d). unfold zlen at 1. lia.
Qed.

Lemma load_entry_header w ino pre e c post :
  w_reads w = [] → w_content w ino = pre ++ take 24 c ++ post → entry_ok e → is_chunk e c →
  ∃ ct cks, load_entry ino (zlen pre) false ENTRY_HEADER_SIZE w =
    Some (inr (mkHeader (term (id e)) (type_code (type e)) ct (zlen c - 24) cks, []), w).
Proof.
  intros Hr Hc He Hch. destruct (chunk_parts e c He Hch) as (ct & d & h & cks & hck & -> & Hl & Hd & Hb & Hu & Hv1 & Hv2).
  exists ct, cks. unfold load_entry. change (Z.max ENTRY_HEADER_SIZE ENTRY_HEADER_SIZE) with 24.
  rewrite take_app_length' in Hc by done.
  rewrite (io_bind_eq _ _ _ _ _ (file_pread_at _ _ _ _ _ 24 Hr Hc ltac:(unfold zlen; lia))).
  rewrite decide_False by lia. rewrite (take_ge h 24) by lia. rewrite Hu, io_lift_bind. cbn [eh_checksum_type header_of].
  rewrite Hv1. cbn [negb]. assert (zlen (h ++ d) - 24 = zlen d) as ->; [|done].
  rewrite zlen_app. unfold zlen at 1. lia.
Qed.

Lemma load_entry_data w ino pre e c post n :
  w_reads w = [] → w_content w ino = pre ++ c ++ post → entry_ok e → is_chunk e c → n = zlen c →
  ∃ ct cks d, load_entry ino (zlen pre) true n w =
    Some (inr (mkHeader (term (id e)) (type_code (type e)) ct (zlen d) cks, d), w) ∧ entry_data e = Some (Some d).
Proof.
  intros Hr Hc He Hch ->. pose proof (chunk_length e c He Hch) as Hcl.
  destruct (chunk_parts e c He Hch) as (ct & d & h & cks & hck & Heq & Hl & Hd & Hb & Hu & Hv1 & Hv2).
  exists ct, cks, d. split; [|done]. unfold load_entry. rewrite Z.max_l by (unfold ENTRY_HEADER_SIZE; lia).
  rewrite (io_bind_eq _ _ _ _ _ (file_pread_at _ _ _ _ _ (zlen c) Hr Hc eq_refl)).
  rewrite decide_False by lia. assert (take 24 c = h) as ->. { rewrite Heq. by apply take_app_length'. }
  rewrite Hu, io_lift_bind. cbn [eh_checksum_type header_of].
  rewrite Hv1. cbn [negb eh_data_len eh_data_checksum header_of]. unfold ENTRY_HEADER_SIZE.
  assert (zlen c = 24 + zlen d) as Hz. { rewrite Heq, zlen_app. unfold zlen at 1. rewrite Hl. lia. }
  rewrite decide_False by lia. rewrite io_ret_bind.
  rewrite take_ge by (unfold zlen in *; lia).
  rewrite io_check_bind by lia.
  assert (drop 24 c = d) as ->. { rewrite Heq. by apply drop_app_length'. }
  rewrite Hv2. cbn [negb]. done.
Qed.

(** ** The entries of a segment *)

(** [_offset_and_term] of entries and their chunks from an offset. *)
Fixpoint seg_index (off : Z) (es : list LogEntry) (cs : list (list Z)) : list (Z * Z) :=
  match es, cs with
  | e :: es', c :: cs' => (off, term (id e)) :: seg_index (off + zlen c) es' cs'
  | _, _ => []
  end.

Lemma seg_index_lookup off es cs k e :
  Forall2 is_chunk es cs → es !! k = Some e →
  seg_index off es cs !! k = Some (off + zlen (concat (take k cs)), term (id e)).
Proof.
  intros H. revert off k. induction H as [|e' c es cs Hc H IH]; intros off k; [done|].
  destruct k as [|k]; cbn [seg_index lookup list_lookup take concat].
  - intros [= ->]. rewrite zlen_nil. by rewrite Z.add_0_r.
  - intros Hk. change (seg_index (off + zlen c) es cs !! k = Some (off + zlen (c ++ concat (take k cs)), term (id e))).
    rewrite (IH _ _ Hk), zlen_app. by rewrite Z.add_assoc.
Qed.

Lemma seg_index_length off es cs : Forall2 is_chunk es cs → length (seg_index off es cs) = length es.
Proof. intros H. revert off. induction H as [|e c es cs Hc H IH]; intros off; cbn; [done|]. by rewrite IH. Qed.

Lemma seg_index_app off es cs e c :
  Forall2 is_chunk es cs →
  seg_index off (es ++ [e]) (cs ++ [c]) = seg_index off es cs ++ [(off + zlen (concat cs), term (id e))].
Proof.
  intros H. revert off. induction H as [|e' c' es cs Hc H IH]; intros off; cbn [app seg_index concat].
  - rewrite zlen_nil. by rewrite Z.add_0_r.
  - rewrite IH, zlen_app. by rewrite Z.add_assoc.
Qed.

Lemma seg_index_take off es cs k :
  Forall2 is_chunk es cs → take k (seg_index off es cs) = seg_index off (take k es) (take k cs).
Proof.
  intros H. revert off k. induction H as [|e' c' es cs Hc H IH]; intros off [|k]; cbn [take seg_index]; [done..|].
  by rewrite IH.
Qed.

Lemma concat_lookup (cs : list (list Z)) k c :
  cs !! k = Some c → concat cs = concat (take k cs) ++ c ++ concat (drop (S k) cs).
Proof.
  intros Hk. rewrite <-(take_drop_middle cs k c Hk) at 1. by rewrite concat_app.
Qed.

Record sg_view (w : World) (s : Segment) (es : list LogEntry) (cs : list (list Z)) (ino : Z) : Prop := {
  sv_fd : sg_fd s = Some ino;
  sv_content : w_content w ino = concat cs;
  sv_chunks : Forall2 is_chunk es cs;
  sv_index : sg_offset_and_term s = seg_index 0 es cs;
  sv_bytes : sg_bytes s = zlen (concat cs);
  sv_ok : Forall entry_ok es;
  sv_cont : contiguous (sg_first_index s) es;
  sv_last : sg_last_index s = sg_first_index s + zlen es - 1;
  sv_pos : sg_is_open s = true → sg_pos s = sg_bytes s;
  sv_ct : checksum_ok (sg_checksum_type s);
}.

Lemma sv_get w s es cs ino i e :
  sg_view w s es cs ino → zlookup es (i - sg_first_index s) = Some e →
  ∃ pre c post, w_content w ino = pre ++ c ++ post ∧ is_chunk e c ∧
    get_meta s i = Some (Some (zlen pre, term (id e), zlen c)).
Proof.
  intros V Hi. pose proof (zlookup_Some_range _ _ _ Hi) as Hr. unfold zlookup in Hi. rewrite decide_False in Hi by lia.
  remember (Z.to_nat (i - sg_first_index s)) as k eqn:Hk.
  destruct (Forall2_lookup_l _ _ _ _ _ (sv_chunks _ _ _ _ _ V) Hi) as (c & Hc & Hch).
  exists (concat (take k cs)), c, (concat (drop (S k) cs)).
  split; [rewrite (sv_content _ _ _ _ _ V); by apply concat_lookup|]. split; [done|].
  unfold get_meta. rewrite (sv_last _ _ _ _ _ V). rewrite decide_False by lia. rewrite decide_False by lia.
  rewrite (zlookup_nonneg _ (i - _)) by lia. rewrite <-Hk. rewrite (sv_index _ _ _ _ _ V).
  rewrite (seg_index_lookup _ _ _ _ _ (sv_chunks _ _ _ _ _ V) Hi). cbn [mbind option_bind].
  assert (zlen (concat (take (S k) cs)) = zlen (concat (take k cs)) + zlen c) as Hnext.
  { rewrite (take_S_r _ _ _ Hc), concat_app, zlen_app. cbn [concat]. by rewrite app_nil_r. }
  case_decide as Hlt.
  - rewrite zlookup_nonneg by lia.
    replace (Z.to_nat (i - sg_first_index s + 1)) with (S k) by lia.
    destruct (lookup_lt_is_Some_2 es (S k)) as [e' He']; [unfold zlen in *; lia|].
    rewrite (seg_index_lookup _ _ _ _ _ (sv_chunks _ _ _ _ _ V) He'). cbn [fmap option_fmap option_map mbind option_bind fst].
    do 3 f_equal. lia.
  - cbn [mbind option_bind]. rewrite (sv_bytes _ _ _ _ _ V). do 3 f_equal.
    rewrite (take_ge cs (S k)) in Hnext; [lia|]. rewrite <-(Forall2_length _ _ _ (sv_chunks _ _ _ _ _ V)).
    unfold zlen in *. lia.
Qed.

Lemma get_meta_out s (es : list LogEntry) i :
  sg_last_index s = sg_first_index s + zlen es - 1 → zlookup es (i - sg_first_index s) = None → get_meta s i = Some None.
Proof.
  intros Hl Hi. unfold get_meta. rewrite decide_True; [done|]. rewrite Hl.
  destruct (decide (sg_first_index s ≤ i < sg_first_index s + zlen es)) as [Hr|]; [|lia].
  destruct (zlookup_in_range es (i - sg_first_index s)) as [e He]; [lia|]. congruence.
Qed.

(** Reading gives the entry back. *)
Lemma sg_get_view w s es cs ino i :
  w_reads w = [] → sg_view w s es cs ino → sg_get s i w = Some (zlookup es (i - sg_first_index s), w).
Proof.
  intros Hr V. unfold sg_get. destruct (zlookup es (i - sg_first_index s)) as [e|] eqn:Ei.
  2:{ rewrite (get_meta_out _ es) by (done || apply (sv_last _ _ _ _ _ V)). done. }
  destruct (sv_get _ _ _ _ _ _ _ V Ei) as (pre & c & post & Hc & Hch & ->).
  rewrite io_lift_bind, (sv_fd _ _ _ _ _ V), io_lift_bind.
  pose proof (zlookup_Some_range _ _ _ Ei) as Hrg. unfold zlookup in Ei. rewrite decide_False in Ei by lia.
  pose proof (Forall_lookup_1 _ _ _ _ (sv_ok _ _ _ _ _ V) Ei) as He.
  assert (index (id e) = i) as Hidx. { pose proof (sv_cont _ _ _ _ _ V _ _ Ei). lia. }
  destruct (load_entry_data w ino pre e c post (zlen c)) as (ct & cks & d & Hload & Hd); [done..|].
  rewrite (io_bind_eq _ _ _ _ _ Hload). rewrite io_check_bind by done.
  cbn [eh_term eh_type]. destruct He as (_ & Hf & _). destruct e as [t [ix tm] ps ops dt].
  cbn [id index term] in *. subst ix. unfold entry_fields_ok, entry_data in Hf, Hd.
  destruct t; cbn [type type_code] in *; [done| | |].
  - rewrite decide_False, decide_True by done. destruct Hf as (Hp & Ho & Hdt). cbn in Hp, Ho, Hdt. simplify_eq. done.
  - rewrite decide_True by done. destruct Hf as (Hp & Ho & Hdt). cbn in Hp, Ho, Hd. simplify_eq. done.
  - rewrite !decide_False, decide_True by done.
    rewrite (configuration_meta_roundtrip (mkLogEntry ENTRY_TYPE_CONFIGURATION (mkLogId i tm) ps ops dt) d new_entry) by done.
    destruct Hf as (Hdt & _). cbn in Hdt. subst dt. done.
Qed.

Lemma sg_get_term_view w s es cs ino i :
  sg_view w s es cs ino →
  sg_get_term s i = Some (from_option (λ e, term (id e)) 0 (zlookup es (i - sg_first_index s))).
Proof.
  intros V. unfold sg_get_term. destruct (zlookup es (i - sg_first_index s)) as [e|] eqn:Ei.
  - destruct (sv_get _ _ _ _ _ _ _ V Ei) as (pre & c & post & Hc & Hch & ->). done.
  - rewrite (get_meta_out _ es) by (done || apply (sv_last _ _ _ _ _ V)). done.
Qed.

Lemma sg_view_content w w' s es cs ino :
  w_content w' ino = w_content w ino → sg_view w s es cs ino → sg_view w' s es cs ino.
Proof. intros Hc []. split; try done. by rewrite Hc. Qed.

Lemma sg_view_closed w s es cs ino : sg_view w s es cs ino → sg_view w (set_is_open s false) es cs ino.
Proof. intros []. by split. Qed.

(** ** Writing *)

Lemma write_loop_quiet w n ino pos d :
  quiet w → d ≠ [] →
  write_loop (S (S n)) ino pos d w = Some ((pos + zlen d, true), put_file w ino (bytes_write (w_content w ino) pos d)).
Proof.
  intros Hq Hd. cbn [write_loop]. rewrite decide_False by done.
  rewrite (io_bind_eq _ _ _ _ _ (sys_pwrite_quiet _ _ _ _ Hq)). rewrite drop_ge by (unfold zlen; lia). done.
Qed.

Lemma sg_append_view w s es cs ino e :
  quiet w → sg_view w s es cs ino → sg_is_open s = true → entry_ok e → index (id e) = sg_last_index s + 1 →
  ∃ s' c, sg_append s e w = Some ((s', 0), put_file w ino (concat (cs ++ [c]))) ∧
    sg_view (put_file w ino (concat (cs ++ [c]))) s' (es ++ [e]) (cs ++ [c]) ino ∧
    sg_is_open s' = true ∧ sg_first_index s' = sg_first_index s.
Proof.
  intros Hq V Ho He Hidx. pose proof He as (_ & _ & d & Hd & Hdl).
  destruct (pack_header_ok _ e d (sv_ct _ _ _ _ _ V) He Hd) as (h & cks & hck & Hh & Hl & _).
  assert (is_chunk e (h ++ d)) as Hch by (exists (sg_checksum_type s), d, h; split_and!; try done; apply (sv_ct _ _ _ _ _ V)).
  unfold sg_append. rewrite Ho. cbn [negb]. rewrite io_check_bind by done. rewrite Hd, io_lift_bind.
  rewrite io_check_bind by lia. rewrite Hh, io_lift_bind, (sv_fd _ _ _ _ _ V), io_lift_bind.
  assert (h ++ d ≠ []) as Hne. { intros [E _]%app_nil. by rewrite E in Hl. }
  rewrite (io_bind_eq _ _ _ _ _ (write_loop_quiet w _ ino _ _ Hq Hne)). cbn [negb].
  rewrite (sv_pos _ _ _ _ _ V Ho), (sv_bytes _ _ _ _ _ V), (sv_content _ _ _ _ _ V), bytes_write_end.
  exists (mkSegment (zlen (concat cs) + (zlen h + zlen d)) (sg_unsynced_bytes s + (zlen h + zlen d)) (Some ino)
     (zlen (concat cs) + zlen (h ++ d)) true (sg_first_index s) (sg_last_index s + 1) (sg_checksum_type s)
     (sg_offset_and_term s ++ [(zlen (concat cs), term (id e))])), (h ++ d).
  assert (concat (cs ++ [h ++ d]) = concat cs ++ h ++ d) as Hcc. { rewrite concat_app. cbn [concat]. by rewrite app_nil_r. }
  rewrite Hcc. split_and!; [done| |done|done]. split; cbn; try done.
  - by rewrite put_file_content.
  - apply Forall2_app; [apply (sv_chunks _ _ _ _ _ V)|]. constructor; [done|constructor].
  - rewrite (sv_index _ _ _ _ _ V), seg_index_app by apply (sv_chunks _ _ _ _ _ V). done.
  - rewrite Hcc, !zlen_app. done.
  - apply Forall_app. split; [apply (sv_ok _ _ _ _ _ V)|]. by apply Forall_singleton.
  - apply contiguous_app. split; [apply (sv_cont _ _ _ _ _ V)|]. apply contiguous_cons. split; [|apply contiguous_nil].
    rewrite Hidx, (sv_last _ _ _ _ _ V). lia.
  - rewrite (sv_last _ _ _ _ _ V), zlen_app, zlen_cons, zlen_nil. lia.
  - intros _. rewrite zlen_app. lia.
  - apply (sv_ct _ _ _ _ _ V).
Qed.

Lemma sg_sync_view fl w s es cs ino b :
  quiet w → sg_view w s es cs ino →
  ∃ s', sg_sync fl s b w = Some ((s', 0), w) ∧ sg_view w s' es cs ino ∧
    sg_is_open s' = sg_is_open s ∧ sg_first_index s' = sg_first_index s.
Proof.
  intros Hq V. unfold sg_sync. case_decide; [by exists s|]. destruct b; [|by exists s].
  destruct (raft_sync fl); cbn [negb]; [|by exists s]. case_decide; [by exists s|].
  rewrite (sv_fd _ _ _ _ _ V), io_lift_bind, (io_bind_eq _ _ _ _ _ (raft_fsync_quiet w ino Hq)).
  exists (set_unsynced s 0). split_and!; [done| |done|done]. destruct V. by split.
Qed.

(** A new segment. *)
Lemma sg_create_view w first ct :
  quiet w → checksum_ok ct → segment_open_name first ∉ (w_dir w).*1 →
  ∃ s', sg_create (new_open_segment first ct) w =
    Some ((s', 0), mkWorld (<[w_next w := []]> (w_files w)) (w_dir w ++ [(segment_open_name first, w_next w)])
                     (w_next w + 1) (w_errno w) (w_reads w) (w_writes w)) ∧
    sg_is_open s' = true ∧ sg_first_index s' = first ∧
    ∀ w', w_content w' (w_next w) = [] → sg_view w' s' [] [] (w_next w).
Proof.
  intros Hq Hct Hn. unfold sg_create. rewrite io_check_bind by done.
  rewrite (io_bind_eq _ _ _ _ _ (sys_create_quiet _ _ Hq Hn)).
  exists (set_fd (new_open_segment first ct) (Some (w_next w))). split_and!; [done..|].
  intros w' Hw'. split; cbn; try done; try constructor. rewrite zlen_nil. lia.
Qed.

(** Closing, removing and truncating. *)
Lemma sg_close_quiet fl w s b ino l :
  quiet w → sg_is_open s = true → sg_fd s = Some ino → NoDup (w_dir w).*1 →
  w_dir w ≡ₚ (sg_file_name s, ino) :: l → segment_closed_name (sg_first_index s) (sg_last_index s) ∉ l.*1 →
  ∃ d, sg_close fl s b w = Some ((set_is_open s false, 0), set_dir w d) ∧ NoDup d.*1 ∧
    d ≡ₚ (sg_file_name (set_is_open s false), ino) :: l.
Proof.
  intros Hq Ho Hfd Hnd Hp Hn. unfold sg_close. rewrite io_check_bind by done.
  unfold sg_file_name in Hp. rewrite Ho in Hp.
  destruct (sys_rename_quiet w _ _ _ _ Hq Hnd Hp Hn) as (d & Hren & Hd & Hnd'). exists d. split_and!; [|done|done].
  rewrite (io_bind_eq _ _ _ 0 w).
  - rewrite decide_True by done. by rewrite (io_bind_eq _ _ _ _ _ Hren).
  - case_decide; [|done]. rewrite Hfd, io_lift_bind. by apply raft_fsync_quiet.
Qed.

Lemma sg_unlink_quiet w s ino l :
  quiet w → NoDup (w_dir w).*1 → w_dir w ≡ₚ (sg_file_name s, ino) :: l → sg_file_name s ++ tmp_suffix ∉ l.*1 →
  ∃ d, sg_unlink s w = Some (0, set_dir w d) ∧ NoDup d.*1 ∧ d ≡ₚ l.
Proof.
  intros Hq Hnd Hp Hn. unfold sg_unlink.
  destruct (sys_rename_quiet w _ _ _ _ Hq Hnd Hp Hn) as (d & Hren & Hd & Hnd').
  destruct (sys_unlink_quiet (set_dir w d) (sg_file_name s ++ tmp_suffix) ino l) as (d' & Hun & Hd' & Hnd''); [done..|].
  exists d'. split_and!; [|done|done]. rewrite (io_bind_eq _ _ _ _ _ Hren). rewrite decide_False by lia.
  by rewrite (io_bind_eq _ _ _ _ _ Hun).
Qed.

Lemma sg_truncate_quiet w s es cs ino l k :
  quiet w → sg_view w s es cs ino → NoDup (w_dir w).*1 → w_dir w ≡ₚ (sg_file_name s, ino) :: l →
  segment_open_name (sg_first_index s) ∉ l.*1 → sg_first_index s - 1 ≤ k < sg_last_index s →
  let n := Z.to_nat (k + 1 - sg_first_index s) in
  ∃ s' d, let w' := put_file (set_dir w d) ino (concat (take n cs)) in
    sg_truncate s k w = Some ((s', 0), w') ∧ NoDup d.*1 ∧ d ≡ₚ (sg_file_name s', ino) :: l ∧
    sg_view w' s' (take n es) (take n cs) ino ∧ sg_is_open s' = true ∧ sg_first_index s' = sg_first_index s.
Proof.
  intros Hq V Hnd Hp Hn Hk n. unfold sg_truncate. rewrite decide_False by lia.
  pose proof (sv_last _ _ _ _ _ V) as Hlast. assert (n < length es)%nat as Hne by (unfold n, zlen in *; lia).
  destruct (lookup_lt_is_Some_2 es n Hne) as [e He].
  rewrite zlookup_nonneg by lia. fold n. rewrite (sv_index _ _ _ _ _ V).
  rewrite (seg_index_lookup _ _ _ _ _ (sv_chunks _ _ _ _ _ V) He), io_lift_bind.
  rewrite (sv_fd _ _ _ _ _ V), io_lift_bind. rewrite Z.add_0_l.
  assert (∃ d, (if sg_is_open s then mret 0
    else sys_rename (segment_closed_name (sg_first_index s) (sg_last_index s)) (segment_open_name (sg_first_index s))) w
    = Some (0, set_dir w d) ∧ NoDup d.*1 ∧ d ≡ₚ (segment_open_name (sg_first_index s), ino) :: l) as (d & Hren & Hnd' & Hd).
  { unfold sg_file_name in Hp. destruct (sg_is_open s).
    - exists (w_dir w). split_and!; [by destruct w|done|done].
    - destruct (sys_rename_quiet w _ _ _ _ Hq Hnd Hp Hn) as (d & Hren & Hd & Hnd'). by exists d. }
  rewrite (io_bind_eq _ _ _ _ _ Hren). rewrite decide_False by lia.
  rewrite (io_bind_eq _ _ _ _ _ (sys_ftruncate_quiet _ ino _ (quiet_set_dir _ d Hq))). rewrite decide_False by lia.
  assert (bytes_resize (w_content (set_dir w d) ino) (zlen (concat (take n cs))) = concat (take n cs)) as Hres.
  { change (w_content (set_dir w d) ino) with (w_content w ino). rewrite (sv_content _ _ _ _ _ V).
    rewrite <-(take_drop n cs) at 1. rewrite concat_app.
    rewrite bytes_resize_le by (rewrite zlen_app; pose proof (zlen_nonneg (concat (drop n cs)));
      pose proof (zlen_nonneg (concat (take n cs))); lia).
    by rewrite take_app_length' by (unfold zlen; lia). }
  rewrite Hres. rewrite (io_bind_eq _ _ _ _ _ (sys_lseek_quiet _ _ (quiet_put_file _ ino _ (quiet_set_dir _ d Hq)))).
  rewrite decide_False by (pose proof (zlen_nonneg (concat (take n cs))); lia).
  eexists _, d. split_and!; [done|done|done| |done|done].
  split; cbn; try done.
  - apply (sv_fd _ _ _ _ _ V).
  - apply (put_file_content (set_dir w d)).
  - apply Forall2_take, (sv_chunks _ _ _ _ _ V).
  - fold n. rewrite (sv_index _ _ _ _ _ V), seg_index_take by apply (sv_chunks _ _ _ _ _ V). done.
  - apply Forall_take, (sv_ok _ _ _ _ _ V).
  - apply contiguous_take, (sv_cont _ _ _ _ _ V).
  - rewrite zlen_take. unfold n, zlen in *. lia.
  - apply (sv_ct _ _ _ _ _ V).
Qed.

(** ** Loading *)

(** The configurations of entries, added in order. *)
Fixpoint load_confs (cm : ConfigurationManager) (es : list LogEntry) : option ConfigurationManager :=
  match es with
  | [] => Some cm
  | e :: es' =>
      if decide (type e = ENTRY_TYPE_CONFIGURATION) then
        ce ← ce_of_entry e; cm' ← cm_add cm ce; load_confs cm' es'
      else load_confs cm es'
  end.

(** The end of a file after an interrupted append: nothing, or the beginning
    of an entry. *)
Definition torn_tail (t : list Z) : Prop :=
  t = [] ∨ ∃ e c t', entry_ok e ∧ is_chunk e c ∧ c = t ++ t' ∧ t' ≠ [].

Lemma type_code_conf e :
  type_code (type e) = type_code ENTRY_TYPE_CONFIGURATION ↔ type e = ENTRY_TYPE_CONFIGURATION.
Proof. by destruct (type e). Qed.

Lemma load_entry_short w ino pre t :
  w_reads w = [] → w_content w ino = pre ++ t → zlen t < 24 →
  load_entry ino (zlen pre) false ENTRY_HEADER_SIZE w = Some (inl 1, w).
Proof.
  intros Hr Hc Hs. unfold load_entry. change (Z.max ENTRY_HEADER_SIZE ENTRY_HEADER_SIZE) with 24.
  rewrite (io_bind_eq _ _ _ _ _ (file_pread_short w ino pre t 24 Hr Hc ltac:(lia))).
  rewrite decide_True by lia. by rewrite decide_False by (pose proof (zlen_nonneg t); lia).
Qed.

Lemma load_loop_torn w ino pre t i idx cm fuel :
  w_reads w = [] → w_content w ino = pre ++ t → torn_tail t →
  load_loop (S fuel) ino (zlen (pre ++ t)) i (zlen pre) idx cm w = Some ((zlen pre, idx, cm, 0), w).
Proof.
  intros Hr Hc Ht. cbn [load_loop]. rewrite zlen_app. case_decide as Hd; [|done].
  destruct Ht as [->|(e & c & t' & He & Hch & Heq & Hne)]; [rewrite zlen_nil in Hd; lia|].
  destruct (decide (zlen t < 24)) as [Hs|Hs].
  - by rewrite (io_bind_eq _ _ _ _ _ (load_entry_short w ino pre t Hr Hc Hs)).
  - assert (take 24 c = take 24 t) as Htake by (rewrite Heq; apply take_app_le; unfold zlen in Hs; lia).
    destruct (load_entry_header w ino pre e c (drop 24 t)) as (ct & cks & Hload); [done| |done|done|].
    { by rewrite Hc, Htake, take_drop. }
    rewrite (io_bind_eq _ _ _ _ _ Hload). cbn [eh_data_len]. rewrite decide_True; [done|].
    rewrite Heq, zlen_app. unfold ENTRY_HEADER_SIZE.
    assert (0 < zlen t') by (unfold zlen; destruct t'; [done|cbn; lia]). lia.
Qed.

Lemma load_loop_chunks w ino es cs t : 
  w_reads w = [] → torn_tail t → Forall2 is_chunk es cs → Forall entry_ok es →
  ∀ pre i idx cm cm' fuel, contiguous i es → w_content w ino = pre ++ concat cs ++ t → (length es < fuel)%nat →
  load_confs cm es = Some cm' →
  load_loop fuel ino (zlen (pre ++ concat cs ++ t)) i (zlen pre) idx cm w =
    Some ((zlen pre + zlen (concat cs), idx ++ seg_index (zlen pre) es cs, cm', 0), w).
Proof.
  intros Hr Ht. induction 1 as [|e c es cs Hch H IH]; intros Hok pre i idx cm cm' fuel Hcont Hc Hf Hcm;
    (destruct fuel as [|fuel]; [cbn in Hf; lia|]).
  - cbn [concat app seg_index load_confs] in *. apply (inj Some) in Hcm as ->. rewrite load_loop_torn by done.
    rewrite app_nil_r. change (zlen (@nil Z)) with 0. by rewrite Z.add_0_r.
  - inversion Hok as [|? ? He Hok']; subst. apply contiguous_cons in Hcont as [Hidx Hcont].
    cbn [concat] in *. rewrite <-!app_assoc in *. pose proof (chunk_length e c He Hch) as Hcl.
    pose proof (zlen_nonneg (concat cs)). pose proof (zlen_nonneg t).
    destruct (load_entry_header w ino pre e c (drop 24 c ++ concat cs ++ t)) as (ct & cks & Hload); [done| |done|done|].
    { by rewrite Hc, (app_assoc (take 24 c)), take_drop. }
    specialize (IH Hok' (pre ++ c) (i + 1) (idx ++ [(zlen pre, term (id e))])).
    assert (∀ cm1, load_confs cm1 es = Some cm' →
      load_loop fuel ino (zlen (pre ++ c ++ concat cs ++ t)) (i + 1) (zlen pre + (ENTRY_HEADER_SIZE + (zlen c - 24)))
        (idx ++ [(zlen pre, term (id e))]) cm1 w =
      Some ((zlen pre + zlen (c ++ concat cs), idx ++ seg_index (zlen pre) (e :: es) (c :: cs), cm', 0), w)) as Hnext.
    { intros cm1 Hcm1. specialize (IH cm1 cm' fuel Hcont). rewrite <-!app_assoc in IH.
      replace (zlen pre + (ENTRY_HEADER_SIZE + (zlen c - 24))) with (zlen (pre ++ c)) by (rewrite zlen_app; unfold ENTRY_HEADER_SIZE; lia).
      rewrite IH by (done || cbn in Hf; lia). rewrite !zlen_app. cbn [seg_index app]. by rewrite Z.add_assoc. }
    cbn [load_loop]. rewrite decide_True by (rewrite !zlen_app; lia).
    rewrite (io_bind_eq _ _ _ _ _ Hload). cbn [eh_data_len eh_type eh_term].
    rewrite decide_False by (rewrite !zlen_app; unfold ENTRY_HEADER_SIZE; lia).
    cbn [load_confs] in Hcm. destruct (decide (type e = ENTRY_TYPE_CONFIGURATION)) as [Hty|Hty].
    2:{ rewrite decide_False by (by rewrite type_code_conf). by apply Hnext. }
    rewrite decide_True by (by rewrite type_code_conf).
    destruct (load_entry_data w ino pre e c (concat cs ++ t) (ENTRY_HEADER_SIZE + (zlen c - 24)))
      as (ct' & cks' & d & Hload' & Hd); [done..|unfold ENTRY_HEADER_SIZE; lia|].
    rewrite (io_bind_eq _ _ _ _ _ Hload'). pose proof He as (_ & Hfields & _).
    rewrite (configuration_meta_roundtrip e d) by done. rewrite io_lift_bind. cbn [type id data].
    destruct (ce_of_entry e) as [ce|] eqn:Ece; [|done]. cbn [mbind option_bind] in Hcm.
    destruct (cm_add cm ce) as [cm1|] eqn:Ecm; [|done]. cbn [mbind option_bind] in Hcm.
    assert (ce_of_entry (mkLogEntry ENTRY_TYPE_UNKNOWN (mkLogId i (term (id e))) (peers e) (old_peers e) []) = Some ce) as ->.
    { rewrite <-Ece. destruct e as [et [ei etm] ep eo ed]. cbn in *. by subst. }
    rewrite io_lift_bind, Ecm, io_lift_bind. by apply Hnext.
Qed.

(** Loading a segment file recovers its entries and cuts off a torn tail. *)
Lemma sg_load_view w s es cs t cm cm' ino l :
  quiet w → NoDup (w_dir w).*1 → w_dir w ≡ₚ (sg_file_name s, ino) :: l →
  w_content w ino = concat cs ++ t → torn_tail t → Forall2 is_chunk es cs → Forall entry_ok es →
  contiguous (sg_first_index s) es → sg_offset_and_term s = [] → checksum_ok (sg_checksum_type s) →
  (sg_is_open s = false → sg_last_index s = sg_first_index s + zlen es - 1) →
  load_confs cm es = Some cm' →
  ∃ s' w', sg_load s cm w = Some ((s', cm', 0), w') ∧ sg_view w' s' es cs ino ∧
    (w' = w ∨ w' = put_file w ino (concat cs)) ∧ (t = [] → w' = w) ∧
    sg_is_open s' = sg_is_open s ∧ sg_first_index s' = sg_first_index s.
Proof.
  intros Hq Hnd Hp Hc Ht Hch Hok Hcont Hidx Hct Hlast Hcm. unfold sg_load.
  rewrite (io_bind_eq _ _ _ _ _ (sys_open_quiet _ _ _ _ Hq Hnd Hp)).
  rewrite (io_bind_eq _ _ _ _ _ (sys_fstat_quiet _ ino Hq)). rewrite Hc, Hidx.
  pose proof (load_loop_chunks w ino es cs t (proj1 Hq) Ht Hch Hok [] (sg_first_index s) [] cm cm'
    (S (Z.to_nat (zlen (concat cs ++ t)))) Hcont Hc) as Hloop. cbn [app] in Hloop. rewrite zlen_nil in Hloop.
  assert (zlen es ≤ zlen (concat cs)) as Hle.
  { clear -PBL Hch Hok. induction Hch as [|e c es cs Hc H IH]; [done|]. inversion Hok; subst. cbn [concat].
    rewrite zlen_cons, zlen_app. pose proof (chunk_length e c). specialize (IH ltac:(done)).
    assert (24 ≤ zlen c) by auto. lia. }
  pose proof (zlen_nonneg t).
  rewrite (io_bind_eq _ _ _ _ _ (Hloop ltac:(rewrite zlen_app; unfold zlen in *; lia) Hcm)).
  cbn [sg_is_open sg_first_index sg_last_index sg_unsynced_bytes sg_checksum_type]. rewrite Z.add_0_l.
  assert (zlen (seg_index 0 es cs) = zlen es) as Hil by (unfold zlen; by rewrite seg_index_length).
  rewrite Hil. rewrite (decide_False (P := 0 = 0 ∧ _)).
  2:{ intros (_ & Hcl & Hne). apply Hne. rewrite (Hlast Hcl). lia. }
  rewrite decide_False by lia. rewrite zlen_app.
  set (w' := if decide (zlen (concat cs) ≠ zlen (concat cs) + zlen t) then put_file w ino (concat cs) else w).
  assert ((if decide (zlen (concat cs) ≠ zlen (concat cs) + zlen t) then ftruncate_uninterrupted ino (zlen (concat cs)) else mret 0) w
    = Some (0, w')) as Htr.
  { unfold w'. case_decide; [|done]. rewrite sys_ftruncate_quiet by done. rewrite Hc.
    rewrite bytes_resize_le by (rewrite zlen_app; pose proof (zlen_nonneg (concat cs)); lia).
    by rewrite take_app_length' by (unfold zlen; lia). }
  rewrite (io_bind_eq _ _ _ _ _ Htr). assert (quiet w') as Hq' by (unfold w'; by case_decide).
  rewrite (io_bind_eq _ _ _ _ _ (sys_lseek_quiet _ _ Hq')).
  rewrite decide_False by (pose proof (zlen_nonneg (concat cs)); lia).
  eexists _, w'. split; [done|]. split_and!; [|unfold w'; case_decide; auto| |done|done].
  2:{ intros ->. unfold w'. rewrite decide_False; [done|]. rewrite zlen_nil. lia. }
  split; cbn; try done.
  - unfold w'. case_decide as Hz; [apply put_file_content|]. rewrite Hc.
    assert (t = []) as ->; [|apply app_nil_r]. destruct t; [done|]. rewrite zlen_cons in *. pose proof (zlen_nonneg t). lia.
  - destruct (sg_is_open s) eqn:Ho; [lia|by apply Hlast].
Qed.
End spec.
