(* ===== verification/SegmentLog.v ===== *)
(** * The segment log

    [SegmentLogStorage] of src/melon/raft/log.{h,cc}: closed segments by first
    index, the open segment entries are appended to, and the meta file that
    records the first index of the log.

    A [scoped_refptr<Segment>] is the segment itself, held in one place: where
    the code reaches one segment through two pointers, the model updates the
    place that keeps it. *)

From Stdlib Require Import Ascii String.
From stdpp Require Import prelude gmap sorting.
From S2P Require Import Prelude StdContainers Configuration ConfigurationManager LogStorage Bytes Text.
From S2P Require Import PeerText FileSystem Protobuf Segment.
Local Open Scope Z_scope.

Record SegmentLogStorage := mkSegmentLog {
  sl_first_log_index : Z;
  sl_last_log_index : Z;
  sl_segments : list (Z * Segment);
  sl_open_segment : option Segment;
  sl_checksum_type : Z;
  sl_enable_sync : bool;
}.

Definition sl_new (enable_sync : bool) : SegmentLogStorage := mkSegmentLog 1 0 [] None 0 enable_sync.

Definition sl_set_first (st : SegmentLogStorage) (i : Z) : SegmentLogStorage :=
  mkSegmentLog i (sl_last_log_index st) (sl_segments st) (sl_open_segment st) (sl_checksum_type st) (sl_enable_sync st).
Definition sl_set_last (st : SegmentLogStorage) (i : Z) : SegmentLogStorage :=
  mkSegmentLog (sl_first_log_index st) i (sl_segments st) (sl_open_segment st) (sl_checksum_type st) (sl_enable_sync st).
Definition sl_set_segments (st : SegmentLogStorage) (m : list (Z * Segment)) : SegmentLogStorage :=
  mkSegmentLog (sl_first_log_index st) (sl_last_log_index st) m (sl_open_segment st) (sl_checksum_type st) (sl_enable_sync st).
Definition sl_set_open (st : SegmentLogStorage) (s : option Segment) : SegmentLogStorage :=
  mkSegmentLog (sl_first_log_index st) (sl_last_log_index st) (sl_segments st) s (sl_checksum_type st) (sl_enable_sync st).
Definition sl_set_checksum (st : SegmentLogStorage) (ct : Z) : SegmentLogStorage :=
  mkSegmentLog (sl_first_log_index st) (sl_last_log_index st) (sl_segments st) (sl_open_segment st) ct (sl_enable_sync st).

Section segment_log.
Context {PB : PbCodec} (fl : SyncFlags).

(** ** Meta *)

Definition raft_sync_meta : bool := raft_sync fl || raft_sync_meta_flag fl.

Definition save_meta (log_index : Z) : IO Z :=
  pb_file_save segment_meta_file (pb_meta_serialize log_index) raft_sync_meta.

Definition load_meta (st : SegmentLogStorage) : IO (SegmentLogStorage * Z) :=
  r ← pb_file_load segment_meta_file;
  match r with
  | None => mret (st, -1)
  | Some msg => mret (sl_set_first st (pb_meta_parse msg), 0)
  end.

(** ** Appending *)

(** The parts of [open_segment]: creating the open segment if there is none,
    and closing the open segment [prev] to create the next one.  [false] is the
    null pointer. *)
Definition ensure_open (st : SegmentLogStorage) : IO (SegmentLogStorage * bool) :=
  match sl_open_segment st with
  | Some _ => mret (st, true)
  | None =>
      '(s, rc) ← sg_create (new_open_segment (sl_last_log_index st + 1) (sl_checksum_type st));
      if decide (rc ≠ 0) then mret (sl_set_open st None, false) else mret (sl_set_open st (Some s), true)
  end.

Definition roll_segment (st : SegmentLogStorage) (prev : Segment) : IO (SegmentLogStorage * bool) :=
  '(prev, rc) ← sg_close fl prev (sl_enable_sync st);
  let first := sg_first_index prev in
  let st' := sl_set_open (sl_set_segments st (map_set first prev (sl_segments st))) None in
  let revert := sl_set_open (sl_set_segments st' (map_erase first (sl_segments st'))) (Some prev) in
  if decide (rc = 0) then
    '(s, rc) ← sg_create (new_open_segment (sl_last_log_index st' + 1) (sl_checksum_type st'));
    if decide (rc = 0) then mret (sl_set_open st' (Some s), true) else mret (revert, false)
  else mret (revert, false).

(** [open_segment()]. *)
Definition open_segment (st : SegmentLogStorage) : IO (SegmentLogStorage * bool) :=
  '(st, ok) ← ensure_open st;
  if negb ok then mret (st, false)
  else
    prev ← io_lift (sl_open_segment st);
    if decide (sg_bytes prev > raft_max_segment_size fl) then roll_segment st prev else mret (st, true).

(** The loop of [append_entries]: the number of entries appended, and whether
    all were. *)
Fixpoint append_loop (st : SegmentLogStorage) (entries : list LogEntry) (i : Z) : IO (SegmentLogStorage * Z * bool) :=
  match entries with
  | [] => mret (st, i, true)
  | entry :: rest =>
      '(st, ok) ← open_segment st;
      if negb ok then mret (st, i, false)
      else
        segment ← io_lift (sl_open_segment st);
        '(segment, ret) ← sg_append segment entry;
        let st := sl_set_open st (Some segment) in
        if decide (0 ≠ ret) then mret (st, i, false)
        else append_loop (sl_set_last st (sl_last_log_index st + 1)) rest (i + 1)
  end.

Definition sl_append_entries (st : SegmentLogStorage) (entries : list LogEntry) : IO (SegmentLogStorage * Z) :=
  match entries with
  | [] => mret (st, 0)
  | front :: _ =>
      io_check (sl_last_log_index st + 1 = index (id front));;
      '(st, n, all) ← append_loop st entries 0;
      if negb all then mret (st, n)
      else
        last_segment ← io_lift (sl_open_segment st);
        '(last_segment, _) ← sg_sync fl last_segment (sl_enable_sync st);
        mret (sl_set_open st (Some last_segment), zlen entries)
  end.

(** ** Reading *)

(** [get_segment(index, ptr)]: [None] inside is -1. *)
Definition get_segment (st : SegmentLogStorage) (i : Z) : option (option Segment) :=
  let first_index := sl_first_log_index st in
  let last_index := sl_last_log_index st in
  if decide (first_index = last_index + 1) then Some None
  else if decide (i < first_index ∨ i > last_index + 1) then Some None
  else if decide (i = last_index + 1) then Some None
  else
    let in_segments :=
      CHECK (sl_segments st ≠ []);;
      it ← last (filter (λ p, p.1 ≤ i) (sl_segments st));
      Some (Some it.2) in
    match sl_open_segment st with
    | Some s => if decide (sg_first_index s ≤ i) then Some (Some s) else in_segments
    | None => in_segments
    end.

Definition sl_get_entry (st : SegmentLogStorage) (i : Z) : IO (option LogEntry) :=
  ptr ← io_lift (get_segment st i);
  match ptr with None => mret None | Some s => sg_get s i end.

Definition sl_get_term (st : SegmentLogStorage) (i : Z) : option Z :=
  ptr ← get_segment st i;
  match ptr with None => Some 0 | Some s => sg_get_term s i end.

(** [append_entry(entry)]. *)
Definition sl_append_entry (st : SegmentLogStorage) (entry : LogEntry) : IO (SegmentLogStorage * Z) :=
  '(st, ok) ← open_segment st;
  if negb ok then mret (st, EIO)
  else
    segment ← io_lift (sl_open_segment st);
    '(segment, ret) ← sg_append segment entry;
    let st := sl_set_open st (Some segment) in
    if decide (ret ≠ 0 ∧ ret ≠ EEXIST) then mret (st, ret)
    else
      conflict ← (if decide (EEXIST = ret) then
                    t ← io_lift (sl_get_term st (index (id entry))); mret (bool_decide (term (id entry) ≠ t))
                  else mret false);
      if conflict : bool then mret (st, EINVAL)
      else
        let st := sl_set_last st (sl_last_log_index st + 1) in
        '(segment, rc) ← sg_sync fl segment (sl_enable_sync st);
        mret (sl_set_open st (Some segment), rc).

(** ** Truncation *)

(** The loop of [pop_segments]: the segments popped and those left. *)
Fixpoint pop_front_segments (first_index_kept : Z) (m : list (Z * Segment)) : list Segment * list (Z * Segment) :=
  match m with
  | [] => ([], [])
  | (k, s) :: m' =>
      if decide (sg_last_index s < first_index_kept) then
        let '(popped, rest) := pop_front_segments first_index_kept m' in (s :: popped, rest)
      else ([], m)
  end.

Definition pop_segments (st : SegmentLogStorage) (first_index_kept : Z) : option (SegmentLogStorage * list Segment) :=
  let '(popped, rest) := pop_front_segments first_index_kept (sl_segments st) in
  let st := sl_set_segments (sl_set_first st first_index_kept) rest in
  if decide (rest ≠ []) then Some (st, popped)
  else
    match sl_open_segment st with
    | Some s =>
        if decide (sg_last_index s < first_index_kept) then
          Some (sl_set_last (sl_set_open st None) (first_index_kept - 1), popped ++ [s])
        else CHECK (sg_first_index s ≤ first_index_kept);; Some (st, popped)
    | None => Some (sl_set_last st (first_index_kept - 1), popped)
    end.

(** [for (i...) popped[i]->unlink()], the result ignored. *)
Fixpoint unlink_all (popped : list Segment) : IO unit :=
  match popped with
  | [] => mret tt
  | s :: rest => _ ← sg_unlink s; unlink_all rest
  end.

Definition sl_truncate_prefix (st : SegmentLogStorage) (first_index_kept : Z) : IO (SegmentLogStorage * Z) :=
  if decide (first_index_kept ≤ sl_first_log_index st) then mret (st, 0)
  else
    rc ← save_meta first_index_kept;
    if decide (rc ≠ 0) then mret (st, -1)
    else
      '(st, popped) ← io_lift (pop_segments st first_index_kept);
      _ ← unlink_all popped;
      mret (st, 0).

(** The reverse loop of [pop_segments_from_back], on the reversed map. *)
Fixpoint pop_back_segments (last_index_kept : Z) (rm : list (Z * Segment)) : list Segment :=
  match rm with
  | [] => []
  | (k, s) :: rm' =>
      if decide (sg_first_index s ≤ last_index_kept) then [] else s :: pop_back_segments last_index_kept rm'
  end.

(** [last_segment]: where the segment that is left is kept. *)
Inductive LastSegment :=
  | NoLast
  | LastOpen (s : Segment)
  | LastClosed (s : Segment).

Definition pop_segments_from_back (st : SegmentLogStorage) (last_index_kept : Z)
  : SegmentLogStorage * list Segment * LastSegment :=
  let st := sl_set_last st last_index_kept in
  let below (popped : list Segment) (st : SegmentLogStorage) :=
    let popped := popped ++ pop_back_segments last_index_kept (reverse (sl_segments st)) in
    let m := foldl (λ m s, map_erase (sg_first_index s) m) (sl_segments st) popped in
    let st := sl_set_segments st m in
    match last m with
    | Some (_, s) => (st, popped, LastClosed s)
    | None => (sl_set_first st (last_index_kept + 1), popped, NoLast)
    end in
  match sl_open_segment st with
  | Some s =>
      if decide (sg_first_index s ≤ last_index_kept) then (st, [], LastOpen s)
      else below [s] (sl_set_open st None)
  | None => below [] st
  end.

(** The unlinking loop of [truncate_suffix] stops at an error; [ret] is the
    code so far. *)
Fixpoint unlink_until (popped : list Segment) (ret : Z) : IO (Z * bool) :=
  match popped with
  | [] => mret (ret, true)
  | s :: rest =>
      ret ← sg_unlink s;
      if decide (ret ≠ 0) then mret (ret, false) else unlink_until rest ret
  end.

(** The truncation of the last segment, with the segment in its place. *)
Definition truncate_last (st : SegmentLogStorage) (l : LastSegment) (last_index_kept : Z) : IO (SegmentLogStorage * Z) :=
  match l with
  | NoLast => mret (st, -1)
  | LastOpen s =>
      '(s, ret) ← sg_truncate s last_index_kept;
      mret (sl_set_open st (Some s), ret)
  | LastClosed s =>
      '(s, ret) ← sg_truncate s last_index_kept;
      let first := sg_first_index s in
      if decide (ret = 0 ∧ sg_is_open s = true) then
        io_check (sl_open_segment st = None);;
        mret (sl_set_open (sl_set_segments st (map_erase first (sl_segments st))) (Some s), ret)
      else mret (sl_set_segments st (map_set first s (sl_segments st)), ret)
  end.

#[global] Instance Segment_eq_dec : EqDecision Segment.
Proof. solve_decision. Defined.

Definition sl_truncate_suffix (st : SegmentLogStorage) (last_index_kept : Z) : IO (SegmentLogStorage * Z) :=
  let '(st, popped, last_segment) := pop_segments_from_back st last_index_kept in
  let keep := bool_decide (sl_first_log_index st ≤ sl_last_log_index st) in
  '(st, popped, truncate_last_segment) ←
    match last_segment with
    | NoLast => mret (st, popped, false)
    | LastOpen s =>
        if keep then mret (st, popped, true)
        else mret (sl_set_open (sl_set_segments st (map_erase (sg_first_index s) (sl_segments st))) None, popped ++ [s], false)
    | LastClosed s =>
        if keep then mret (st, popped, true)
        else
          io_check (sl_open_segment st = None);;
          mret (sl_set_segments st (map_erase (sg_first_index s) (sl_segments st)), popped ++ [s], false)
    end;
  '(ret, all) ← unlink_until popped (-1);
  if negb all then mret (st, ret)
  else if truncate_last_segment : bool then truncate_last st last_segment last_index_kept
  else mret (st, ret).

Definition sl_reset (st : SegmentLogStorage) (next_log_index : Z) : IO (SegmentLogStorage * Z) :=
  if decide (next_log_index ≤ 0) then mret (st, EINVAL)
  else
    let popped := (sl_segments st).*2 ++ option_list (sl_open_segment st) in
    let st := sl_set_last (sl_set_first (sl_set_open (sl_set_segments st []) None) next_log_index) (next_log_index - 1) in
    rc ← save_meta next_log_index;
    if decide (rc ≠ 0) then mret (st, -1)
    else _ ← unlink_all popped; mret (st, 0).

(** ** Initialization *)

Definition log_prefix : list Z := chars "log_"%string.

Definition is_tmp (name : list Z) : bool := bool_decide (drop (length name - 4) name = tmp_suffix).

(** [sscanf] with the patterns of the names. *)
Definition scan_closed (name : list Z) : option (Z * Z) :=
  s ← scan_lit log_prefix name;
  '(first_index, s) ← scan_ld 20 s;
  s ← scan_lit [ch_underscore] s;
  '(last_index, _) ← scan_ld 20 s;
  Some (first_index, last_index).

Definition scan_open (name : list Z) : option Z :=
  s ← scan_lit (chars "log_inprogress_"%string) name;
  fst <$> scan_ld 20 s.

(** The loop over the directory; [false] is the conflict of two open segments. *)
Fixpoint list_dir (st : SegmentLogStorage) (is_empty : bool) (names : list (list Z)) : IO (SegmentLogStorage * bool) :=
  match names with
  | [] => mret (st, true)
  | name :: rest =>
      if (is_empty && bool_decide (take 4 name = log_prefix)) || is_tmp name then
        _ ← sys_unlink name; list_dir st is_empty rest
      else
        match scan_closed name with
        | Some (first_index, last_index) =>
            let segment := new_closed_segment first_index last_index (sl_checksum_type st) in
            list_dir (sl_set_segments st (map_set first_index segment (sl_segments st))) is_empty rest
        | None =>
            match scan_open name with
            | Some first_index =>
                match sl_open_segment st with
                | None =>
                    list_dir (sl_set_open st (Some (new_open_segment first_index (sl_checksum_type st)))) is_empty rest
                | Some _ => mret (st, false)
                end
            | None => list_dir st is_empty rest
            end
        end
  end.

(** The check of the closed segments: those kept, [last_log_index], and
    whether it passed. *)
Fixpoint check_segments (first_log_index : Z) (m : list (Z * Segment)) (last_log_index : Z)
  : IO (list (Z * Segment) * Z * bool) :=
  match m with
  | [] => mret ([], last_log_index, true)
  | (k, segment) :: m' =>
      if decide (sg_first_index segment > sg_last_index segment) then mret (m, last_log_index, false)
      else if decide (last_log_index ≠ -1 ∧ sg_first_index segment ≠ last_log_index + 1) then
        mret (m, last_log_index, false)
      else if decide (last_log_index = -1 ∧ first_log_index < sg_first_index segment) then
        mret (m, last_log_index, false)
      else if decide (last_log_index = -1 ∧ first_log_index > sg_last_index segment) then
        _ ← sg_unlink segment; check_segments first_log_index m' last_log_index
      else
        '(kept, last, ok) ← check_segments first_log_index m' (sg_last_index segment);
        mret ((k, segment) :: kept, last, ok)
  end.

(** [list_segments(is_empty)]. *)
Definition list_segments (st : SegmentLogStorage) (is_empty : bool) : IO (SegmentLogStorage * Z) := λ w,
  let '(r, w) := next_read w in
  match r with
  | SysError e => Some ((st, -1), set_errno w e)
  | _ =>
      ('(st, ok) ← list_dir st is_empty (w_dir w).*1;
       if negb ok then mret (st, -1)
       else
         '(kept, last_log_index, ok) ← check_segments (sl_first_log_index st) (sl_segments st) (-1);
         let st := sl_set_segments st kept in
         if negb ok then mret (st, -1)
         else
           match sl_open_segment st with
           | Some s => io_check (last_log_index ≤ sg_last_index s);; mret (st, 0)
           | None => mret (st, 0)
           end) w
  end.

(** Loading the closed segments, in order. *)
Fixpoint load_closed (m : list (Z * Segment)) (cm : ConfigurationManager) (last_log_index : Z)
  : IO (list (Z * Segment) * ConfigurationManager * Z * Z) :=
  match m with
  | [] => mret ([], cm, last_log_index, 0)
  | (k, segment) :: m' =>
      '(segment, cm, ret) ← sg_load segment cm;
      if decide (ret ≠ 0) then mret ((k, segment) :: m', cm, last_log_index, ret)
      else
        '(m', cm, last, ret) ← load_closed m' cm (sg_last_index segment);
        mret ((k, segment) :: m', cm, last, ret)
  end.

(** [load_segments(configuration_manager)]. *)
Definition load_segments (st : SegmentLogStorage) (cm : ConfigurationManager)
  : IO (SegmentLogStorage * ConfigurationManager * Z) :=
  '(m, cm, last, ret) ← load_closed (sl_segments st) cm (sl_last_log_index st);
  let st := sl_set_last (sl_set_segments st m) last in
  if decide (ret ≠ 0) then mret (st, cm, ret)
  else
    '(st, cm, ret) ←
      match sl_open_segment st with
      | None => mret (st, cm, 0)
      | Some s =>
          '(s, cm, ret) ← sg_load s cm;
          let st := sl_set_open st (Some s) in
          if decide (ret ≠ 0) then mret (st, cm, ret)
          else if decide (sl_first_log_index st > sg_last_index s) then
            _ ← sg_unlink s; mret (sl_set_open st None, cm, 0)
          else mret (sl_set_last st (sg_last_index s), cm, 0)
      end;
    if decide (ret ≠ 0) then mret (st, cm, ret)
    else mret (if decide (sl_last_log_index st = 0) then sl_set_last st (sl_first_log_index st - 1) else st, cm, 0).

(** [CreateDirectoryAndGetError]. *)
Definition create_directory : IO bool := λ w,
  let '(r, w) := next_write w in
  match r with SysError e => Some (false, set_errno w e) | _ => Some (true, w) end.

(** [init(configuration_manager)]; [fast_crc32] is [IsFastCrc32Supported()]. *)
Definition sl_init (fast_crc32 : bool) (st : SegmentLogStorage) (cm : ConfigurationManager)
  : IO (SegmentLogStorage * ConfigurationManager * Z) :=
  io_check (0 ≤ raft_max_segment_size fl);;
  ok ← create_directory;
  if negb ok then mret (st, cm, -1)
  else
    let st := sl_set_checksum st (if fast_crc32 then CHECKSUM_CRC32 else CHECKSUM_MURMURHASH32) in
    '(st, ret) ← load_meta st;
    e ← get_errno;
    let is_empty := bool_decide (ret ≠ 0 ∧ e = ENOENT) in
    if decide (ret ≠ 0 ∧ is_empty = false) then mret (st, cm, ret)
    else
      '(st, ret) ← list_segments st is_empty;
      '(st, cm, ret) ← (if decide (ret ≠ 0) then mret (st, cm, ret) else load_segments st cm);
      if is_empty then
        ret ← save_meta 1;
        mret (sl_set_last (sl_set_first st 1) 0, cm, ret)
      else mret (st, cm, ret).

(** [list_files] and [sync]. *)
Definition sl_list_files (st : SegmentLogStorage) : list (list Z) :=
  segment_meta_file :: ((λ p, sg_file_name p.2) <$> sl_segments st) ++ option_list (sg_file_name <$> sl_open_segment st).

Fixpoint sync_all (m : list (Z * Segment)) : IO (list (Z * Segment)) :=
  match m with
  | [] => mret []
  | (k, s) :: m' => '(s, _) ← sg_sync fl s true; m' ← sync_all m'; mret ((k, s) :: m')
  end.

Definition sl_sync (st : SegmentLogStorage) : IO SegmentLogStorage :=
  m ← sync_all (sl_segments st); mret (sl_set_segments st m).

End segment_log.
