(* ===== verification/SegmentLogSpec.v ===== *)
(** * The segment log implements a log

    The invariant that ties a [SegmentLogStorage] and its directory to an
    abstract log, that every operation keeps it when no system call fails, so
    that the storage is an instance of LogStorage.v, and that [init] on the
    directory recovers the log. *)

From Stdlib Require Import Ascii String.
From stdpp Require Import prelude gmap sorting.
From S2P Require Import Prelude StdContainers Configuration ConfigurationManager LogStorage Bytes Text.
From S2P Require Import PeerText FileSystem Protobuf Segment SegmentSpec SegmentLog.
Local Open Scope Z_scope.

(** ** Names *)

Lemma print_020_length x : length (print_020 x) = 20%nat.
Proof. unfold print_020. case_decide; cbn [length]; by rewrite fixed_digits_length. Qed.

Lemma open_name_length i : length (segment_open_name i) = 35%nat.
Proof. unfold segment_open_name. rewrite length_app, print_020_length. done. Qed.

Lemma closed_name_length i j : length (segment_closed_name i j) = 45%nat.
Proof. unfold segment_closed_name. rewrite !length_app, !print_020_length. done. Qed.

Lemma file_name_length s : length (sg_file_name s) = if sg_is_open s then 35%nat else 45%nat.
Proof. unfold sg_file_name. destruct (sg_is_open s); [apply open_name_length|apply closed_name_length]. Qed.

(** An index a name can hold. *)
Definition index_ok (i : Z) : Prop := 0 ≤ i ≤ 2 ^ 63.

Lemma closed_name_inj i j i' j' :
  index_ok i → index_ok i' → segment_closed_name i j = segment_closed_name i' j' → i = i'.
Proof.
  unfold index_ok. intros Hi Hi' E. unfold segment_closed_name in E. apply app_inv_head in E.
  apply app_inj_1 in E as [E _]; [|by rewrite !print_020_length]. apply print_020_inj in E; lia.
Qed.

Section spec.
Context {PB : PbCodec} {PBL : PbCodecLaws} (fl : SyncFlags).

(** ** The directory and the segments in it *)

Record SegV := mkV { v_seg : Segment; v_es : list LogEntry; v_cs : list (list Z); v_ino : Z }.

Definition v_first (v : SegV) : Z := sg_first_index (v_seg v).
Definition v_entry (v : SegV) : list Z * Z := (sg_file_name (v_seg v), v_ino v).

Definition v_ok (w : World) (v : SegV) : Prop :=
  sg_view w (v_seg v) (v_es v) (v_cs v) (v_ino v) ∧ index_ok (v_first v).

Record disk (w : World) (im : Z) (vs : list SegV) : Prop := {
  dk_quiet : quiet w;
  dk_dir : w_dir w ≡ₚ (segment_meta_file, im) :: (v_entry <$> vs);
  dk_names : NoDup (w_dir w).*1;
  dk_inos : NoDup (w_dir w).*2;
  dk_fresh : Forall (λ e, e.2 < w_next w) (w_dir w);
  dk_views : Forall (v_ok w) vs;
}.

Lemma disk_perm w im vs vs' : vs ≡ₚ vs' → disk w im vs → disk w im vs'.
Proof. intros Hp []. split; try done; by rewrite <-Hp. Qed.

(** A name of another length than those of the directory is free. *)
Lemma disk_name_free w im vs n :
  disk w im vs → length n ≠ 8%nat → Forall (λ v, length n ≠ length (sg_file_name (v_seg v))) vs → n ∉ (w_dir w).*1.
Proof.
  intros D H8 Hvs Hin. rewrite (dk_dir _ _ _ D), fmap_cons in Hin. apply elem_of_cons in Hin as [->|Hin]; [done|].
  apply list_elem_of_fmap in Hin as (e & -> & He). apply list_elem_of_fmap in He as (v & -> & Hv).
  rewrite Forall_forall in Hvs. by apply (Hvs v Hv).
Qed.

Lemma file_name_bounds s : length (sg_file_name s) = 35%nat ∨ length (sg_file_name s) = 45%nat.
Proof. rewrite file_name_length. destruct (sg_is_open s); auto. Qed.

(** The inodes of the directory are distinct. *)
Lemma disk_inos_cons w im v vs :
  disk w im (v :: vs) → v_ino v ≠ im ∧ Forall (λ v', v_ino v' ≠ v_ino v) vs ∧ v_ino v < w_next w ∧ im < w_next w.
Proof.
  intros D. pose proof (dk_inos _ _ _ D) as Hn. pose proof (dk_fresh _ _ _ D) as Hf.
  rewrite (dk_dir _ _ _ D) in Hn, Hf. rewrite !fmap_cons in Hn. rewrite fmap_cons in Hf.
  apply NoDup_cons in Hn as [Him Hn]. apply NoDup_cons in Hn as [Hv Hn].
  inversion Hf as [|? ? Hf1 Hf']; subst. inversion Hf' as [|? ? Hf2 _]; subst. split_and!; [set_solver| |done|done].
  apply Forall_forall. intros v' Hv' E. apply Hv. rewrite <-list_fmap_compose. apply list_elem_of_fmap. by exists v'.
Qed.

Lemma disk_inos_im w im vs : disk w im vs → Forall (λ v, v_ino v ≠ im) vs ∧ im < w_next w ∧ Forall (λ v, v_ino v < w_next w) vs.
Proof.
  intros D. pose proof (dk_inos _ _ _ D) as Hn. pose proof (dk_fresh _ _ _ D) as Hf.
  rewrite (dk_dir _ _ _ D) in Hn, Hf. rewrite !fmap_cons in Hn. apply NoDup_cons in Hn as [Him Hn].
  inversion Hf as [|? ? Hf1 Hf']; subst. split_and!; [|done|].
  - apply Forall_forall. intros v Hv E. apply Him. rewrite <-list_fmap_compose. apply list_elem_of_fmap. by exists v.
  - by rewrite Forall_fmap in Hf'.
Qed.

Lemma views_content w w' vs :
  Forall (λ v, w_content w' (v_ino v) = w_content w (v_ino v)) vs → Forall (v_ok w) vs → Forall (v_ok w') vs.
Proof.
  rewrite !Forall_forall. intros Hc Hv v Hin. destruct (Hv v Hin) as [V Hi]. split; [|done].
  eapply sg_view_content; [|exact V]. by apply Hc.
Qed.

Lemma views_set_dir w d vs : Forall (v_ok w) vs → Forall (v_ok (set_dir w d)) vs.
Proof. apply views_content. by apply Forall_forall. Qed.

(** Rewriting the file of one segment. *)
Lemma disk_put w im v vs v' c :
  disk w im (v :: vs) → v_entry v' = v_entry v → v_ok (put_file w (v_ino v) c) v' →
  disk (put_file w (v_ino v) c) im (v' :: vs).
Proof.
  intros D He Hv'. destruct (disk_inos_cons _ _ _ _ D) as (Him & Hvs & _). pose proof (dk_views _ _ _ D) as Hvw.
  inversion Hvw as [|? ? _ Hvw']; subst. split; try apply D.
  - rewrite fmap_cons, He. apply (dk_dir _ _ _ D).
  - constructor; [done|]. eapply views_content; [|exact Hvw']. eapply Forall_impl; [exact Hvs|].
    intros v1 H1. cbn. by apply put_file_content_ne.
Qed.

(** Renaming the file of one segment. *)
Lemma disk_rename_other w im v vs v' d w' :
  disk w im (v :: vs) → NoDup d.*1 → d ≡ₚ v_entry v' :: (segment_meta_file, im) :: (v_entry <$> vs) →
  v_ino v' = v_ino v → quiet w' → w_dir w' = d → w_next w' = w_next w →
  (∀ i, i ≠ v_ino v → w_content w' i = w_content w i) → v_ok w' v' → disk w' im (v' :: vs).
Proof.
  intros D Hnd Hd Hino Hq' Hdir Hnext Hcont Hv'. pose proof (dk_views _ _ _ D) as Hvw. inversion Hvw as [|? ? _ Hvw']; subst.
  destruct (disk_inos_cons _ _ _ _ D) as (_ & Hne & _).
  assert (w_dir w' ≡ₚ (segment_meta_file, im) :: v_entry v' :: (v_entry <$> vs)) as Hd' by (rewrite Hd; apply Permutation_swap).
  assert ((w_dir w').*2 ≡ₚ (w_dir w).*2) as Hi.
  { rewrite Hd', (dk_dir _ _ _ D). cbn. by rewrite Hino. }
  split; try done.
  - rewrite Hi. apply D.
  - pose proof (dk_fresh _ _ _ D) as Hf. rewrite Hd', Hnext. rewrite (dk_dir _ _ _ D) in Hf.
    inversion Hf as [|? ? Hf1 Hf2]; subst. inversion Hf2 as [|? ? Hf3 Hf4]; subst.
    constructor; [done|]. constructor; [|done]. cbn in *. by rewrite Hino.
  - constructor; [done|]. eapply views_content; [|exact Hvw']. eapply Forall_impl; [exact Hne|].
    intros v1 H1. by apply Hcont.
Qed.

Lemma disk_dir_cons w im v vs :
  disk w im (v :: vs) → w_dir w ≡ₚ v_entry v :: (segment_meta_file, im) :: (v_entry <$> vs).
Proof. intros D. rewrite (dk_dir _ _ _ D). apply Permutation_swap. Qed.

(** Removing one segment. *)
Lemma disk_unlink w im v vs :
  disk w im (v :: vs) →
  ∃ w', sg_unlink (v_seg v) w = Some (0, w') ∧ disk w' im vs ∧ ∀ i, w_content w' i = w_content w i.
Proof.
  intros D. pose proof (disk_dir_cons _ _ _ _ D) as Hp.
  destruct (sg_unlink_quiet w (v_seg v) (v_ino v) _ (dk_quiet _ _ _ D) (dk_names _ _ _ D) Hp) as (d & Hun & Hnd & Hd).
  { intros Hin. apply (disk_name_free w im (v :: vs) (sg_file_name (v_seg v) ++ tmp_suffix)); [done| | |].
    - rewrite length_app. destruct (file_name_bounds (v_seg v)) as [->| ->]; done.
    - apply Forall_forall. intros v' _. rewrite length_app.
      destruct (file_name_bounds (v_seg v)) as [->| ->], (file_name_bounds (v_seg v')) as [->| ->]; done.
    - rewrite Hp, fmap_cons. apply elem_of_cons. by right. }
  exists (set_dir w d). split; [done|]. split; [|done].
  pose proof (dk_inos _ _ _ D) as Hi. pose proof (dk_fresh _ _ _ D) as Hf. rewrite Hp in Hi, Hf.
  rewrite fmap_cons in Hi. apply NoDup_cons in Hi as [_ Hi]. inversion Hf as [|? ? _ Hf']; subst.
  pose proof (dk_views _ _ _ D) as Hvw. inversion Hvw as [|? ? _ Hvw']; subst.
  split; cbn; try done; [apply D|by rewrite Hd|by rewrite Hd|by apply views_set_dir].
Qed.

Lemma disk_view w im v vs : disk w im (v :: vs) → v_ok w v.
Proof. intros D. pose proof (dk_views _ _ _ D) as H. by inversion H. Qed.

Lemma disk_append w im v vs e :
  disk w im (v :: vs) → sg_is_open (v_seg v) = true → entry_ok e → index (id e) = sg_last_index (v_seg v) + 1 →
  ∃ v' w', sg_append (v_seg v) e w = Some ((v_seg v', 0), w') ∧ disk w' im (v' :: vs) ∧
    v_es v' = v_es v ++ [e] ∧ v_first v' = v_first v ∧ sg_is_open (v_seg v') = true ∧
    w_content w' im = w_content w im.
Proof.
  intros D Ho He Hi. destruct (disk_view _ _ _ _ D) as [V Hr].
  destruct (sg_append_view w _ _ _ _ e (dk_quiet _ _ _ D) V Ho He Hi) as (s' & c & Happ & V' & Ho' & Hf').
  exists (mkV s' (v_es v ++ [e]) (v_cs v ++ [c]) (v_ino v)). eexists. split; [exact Happ|]. split_and!; try done.
  - apply disk_put; [done| |].
    + unfold v_entry, sg_file_name. cbn. by rewrite Ho, Ho', Hf'.
    + split; [done|]. unfold v_first in *. cbn. by rewrite Hf'.
  - apply put_file_content_ne. by apply (disk_inos_cons _ _ _ _ D).
Qed.

Lemma disk_sync w im v vs b :
  disk w im (v :: vs) →
  ∃ v', sg_sync fl (v_seg v) b w = Some ((v_seg v', 0), w) ∧ disk w im (v' :: vs) ∧
    v_es v' = v_es v ∧ v_first v' = v_first v ∧ sg_is_open (v_seg v') = sg_is_open (v_seg v).
Proof.
  intros D. destruct (disk_view _ _ _ _ D) as [V Hr].
  destruct (sg_sync_view fl w _ _ _ _ b (dk_quiet _ _ _ D) V) as (s' & Hs & V' & Ho' & Hf').
  exists (mkV s' (v_es v) (v_cs v) (v_ino v)). split; [done|]. split_and!; try done.
  pose proof (dk_views _ _ _ D) as Hvw. inversion Hvw as [|? ? _ Hvw']; subst. split; try apply D.
  - rewrite fmap_cons. assert (v_entry (mkV s' (v_es v) (v_cs v) (v_ino v)) = v_entry v) as ->; [|apply (dk_dir _ _ _ D)].
    unfold v_entry, sg_file_name. cbn. rewrite Ho', Hf', (sv_last _ _ _ _ _ V), (sv_last _ _ _ _ _ V'), Hf'. done.
  - constructor; [|done]. split; [done|]. unfold v_first in *. cbn. by rewrite Hf'.
Qed.

Lemma disk_create w im vs first ct :
  disk w im vs → checksum_ok ct → index_ok first → Forall (λ v, sg_is_open (v_seg v) = false) vs →
  ∃ v' w', sg_create (new_open_segment first ct) w = Some ((v_seg v', 0), w') ∧ disk w' im (v' :: vs) ∧
    v_es v' = [] ∧ v_first v' = first ∧ sg_is_open (v_seg v') = true ∧ w_content w' im = w_content w im.
Proof.
  intros D Hct Hr Hcl.
  assert (segment_open_name first ∉ (w_dir w).*1) as Hn.
  { apply (disk_name_free _ _ _ _ D); [by rewrite open_name_length|]. eapply Forall_impl; [exact Hcl|].
    intros v Hv Hl. rewrite open_name_length, file_name_length, Hv in Hl. done. }
  destruct (sg_create_view w first ct (dk_quiet _ _ _ D) Hct Hn) as (s' & Hc & Ho & Hf & Hv).
  destruct (disk_inos_im _ _ _ D) as (Hi1 & Hi2 & Hi3).
  exists (mkV s' [] [] (w_next w)). eexists. split; [exact Hc|]. set (w' := mkWorld _ _ _ _ _ _).
  assert (w_dir w' ≡ₚ (segment_meta_file, im) :: v_entry (mkV s' [] [] (w_next w)) :: (v_entry <$> vs)) as Hd.
  { unfold w'. cbn [w_dir]. rewrite (dk_dir _ _ _ D). cbn [app]. f_equiv. unfold v_entry at 2, sg_file_name. cbn [v_seg v_ino].
    rewrite Ho, Hf. symmetry. apply Permutation_cons_append. }
  assert (∀ i, i < w_next w → w_content w' i = w_content w i) as Hcont.
  { intros i Hlt. unfold w_content, w'. cbn. rewrite lookup_insert_ne; [done|lia]. }
  split_and!; try done; [|by apply Hcont]. split; try done.
  - apply D.
  - unfold w'. cbn. rewrite fmap_app. apply NoDup_app. split_and!; [apply D| |cbn; apply NoDup_singleton].
    intros x Hx Hx'. cbn in Hx'. apply list_elem_of_singleton in Hx'. by subst.
  - unfold w'. cbn. rewrite fmap_app. apply NoDup_app. split_and!; [apply D| |cbn; apply NoDup_singleton].
    intros x Hx Hx'. cbn in Hx'. apply list_elem_of_singleton in Hx'. subst.
    apply list_elem_of_fmap in Hx as (e & Heq & He). pose proof (dk_fresh _ _ _ D) as Hfr. rewrite Forall_forall in Hfr.
    specialize (Hfr e He). lia.
  - unfold w'. cbn. apply Forall_app. split; [|constructor; [cbn; lia|constructor]].
    eapply Forall_impl; [apply D|]. cbn. lia.
  - constructor.
    + split; [|by rewrite <-Hf in Hr]. apply Hv. unfold w_content, w'. cbn. by rewrite lookup_insert_eq.
    + eapply views_content; [|apply D]. eapply Forall_impl; [exact Hi3|]. intros v Hlt. by apply Hcont.
Qed.

Lemma disk_close w im v vs b :
  disk w im (v :: vs) → sg_is_open (v_seg v) = true → Forall (λ v', sg_is_open (v_seg v') = false ∧ v_first v' ≠ v_first v) vs →
  ∃ v' w', sg_close fl (v_seg v) b w = Some ((v_seg v', 0), w') ∧ disk w' im (v' :: vs) ∧
    v_es v' = v_es v ∧ v_first v' = v_first v ∧ sg_is_open (v_seg v') = false ∧ w_content w' im = w_content w im.
Proof.
  intros D Ho Hcl. destruct (disk_view _ _ _ _ D) as [V Hr]. pose proof (disk_dir_cons _ _ _ _ D) as Hp.
  destruct (sg_close_quiet fl w (v_seg v) b (v_ino v) _ (dk_quiet _ _ _ D) Ho (sv_fd _ _ _ _ _ V) (dk_names _ _ _ D) Hp)
    as (d & Hcs & Hnd & Hd).
  { rewrite fmap_cons, not_elem_of_cons. split.
    - intros E. apply (f_equal length) in E. by rewrite closed_name_length in E.
    - intros Hin. apply list_elem_of_fmap in Hin as (e & Heq & He). apply list_elem_of_fmap in He as (v' & -> & Hv').
      rewrite Forall_forall in Hcl. destruct (Hcl v' Hv') as [Ho' Hne]. apply Hne. cbn in Heq.
      unfold sg_file_name in Heq. rewrite Ho' in Heq. pose proof (dk_views _ _ _ D) as Hvw.
      rewrite Forall_cons, Forall_forall in Hvw. destruct Hvw as [_ Hvw]. destruct (Hvw v' Hv') as [_ Hr'].
      symmetry. by eapply closed_name_inj in Heq. }
  exists (mkV (set_is_open (v_seg v) false) (v_es v) (v_cs v) (v_ino v)), (set_dir w d). split_and!; try done.
  apply (disk_rename_other w _ v _ _ d); try done; [apply D|]. split; [|done].
  apply (sg_view_content w); [done|]. by apply sg_view_closed.
Qed.

Lemma disk_truncate w im v vs k :
  disk w im (v :: vs) → Forall (λ v', sg_is_open (v_seg v') = false) vs →
  v_first v - 1 ≤ k < sg_last_index (v_seg v) →
  ∃ v' w', sg_truncate (v_seg v) k w = Some ((v_seg v', 0), w') ∧ disk w' im (v' :: vs) ∧
    v_es v' = take (Z.to_nat (k + 1 - v_first v)) (v_es v) ∧ v_first v' = v_first v ∧
    sg_is_open (v_seg v') = true ∧ w_content w' im = w_content w im.
Proof.
  intros D Hcl Hk. destruct (disk_view _ _ _ _ D) as [V Hr]. pose proof (disk_dir_cons _ _ _ _ D) as Hp.
  assert (segment_open_name (sg_first_index (v_seg v)) ∉ ((segment_meta_file, im) :: (v_entry <$> vs)).*1) as Hn.
  { rewrite fmap_cons, not_elem_of_cons. split.
    - intros E. apply (f_equal length) in E. by rewrite open_name_length in E.
    - intros Hin. apply list_elem_of_fmap in Hin as (e & Heq & He). apply list_elem_of_fmap in He as (v' & -> & Hv').
      rewrite Forall_forall in Hcl. apply (f_equal length) in Heq. cbn [v_entry fst] in Heq.
      by rewrite open_name_length, file_name_length, (Hcl v' Hv') in Heq. }
  destruct (sg_truncate_quiet w _ _ _ _ _ k (dk_quiet _ _ _ D) V (dk_names _ _ _ D) Hp Hn Hk)
    as (s' & d & Htr & Hnd & Hd & V' & Ho & Hf).
  eexists (mkV s' _ _ (v_ino v)), _. split; [exact Htr|]. split_and!; try done.
  - apply (disk_rename_other w _ v _ _ d); try done; [apply D| |].
    + intros i Hi. by apply (put_file_content_ne (set_dir w d)).
    + split; [exact V'|]. unfold v_first in *. cbn. by rewrite Hf.
  - apply (put_file_content_ne (set_dir w d)). by apply (disk_inos_cons _ _ _ _ D).
Qed.

(** Saving the meta file. *)
Definition meta_bytes (i : Z) : list Z := pb_file_bytes (pb_meta_serialize i).

Lemma disk_save_meta w im vs i :
  disk w im vs → ∃ w' im', save_meta fl i w = Some (0, w') ∧ disk w' im' vs ∧ w_content w' im' = meta_bytes i.
Proof.
  intros D. destruct (disk_inos_im _ _ _ D) as (Hi1 & Hi2 & Hi3). unfold save_meta.
  destruct (pb_file_save_quiet w segment_meta_file (pb_meta_serialize i) (raft_sync_meta fl) (v_entry <$> vs) (Some im))
    as (w' & Hs & Hq' & Hnd' & Hd' & Hnext & Hc & Hoth); try apply D.
  { intros Hin. apply list_elem_of_fmap in Hin as (e & Heq & He). apply list_elem_of_fmap in He as (v & -> & _).
    apply (f_equal length) in Heq. cbn [v_entry fst] in Heq. destruct (file_name_bounds (v_seg v)) as [E|E]; by rewrite E in Heq. }
  { apply (disk_name_free _ _ _ _ D); [done|]. apply Forall_forall. intros v _ E.
    destruct (file_name_bounds (v_seg v)) as [E'|E']; by rewrite E' in E. }
  exists w', (w_next w). split_and!; [done| |done].
  pose proof (dk_inos _ _ _ D) as Hin. pose proof (dk_fresh _ _ _ D) as Hf. rewrite (dk_dir _ _ _ D) in Hin, Hf.
  rewrite fmap_cons in Hin. apply NoDup_cons in Hin as [_ Hin]. inversion Hf as [|? ? _ Hf']; subst.
  split; try done.
  - rewrite Hd', fmap_cons. apply NoDup_cons. split; [|done]. intros Hx. apply list_elem_of_fmap in Hx as (e & Heq & He).
    rewrite Forall_forall in Hf'. specialize (Hf' e He). cbn in Heq. lia.
  - rewrite Hd', Hnext. constructor; [cbn; lia|]. eapply Forall_impl; [exact Hf'|]. cbn. lia.
  - eapply views_content; [|apply D]. eapply Forall_impl; [exact Hi3|]. intros v Hlt. cbn in Hlt. apply Hoth. lia.
Qed.

(** Removing several segments. *)
Lemma disk_unlink_all w im us vs :
  disk w im (us ++ vs) →
  ∃ w', unlink_all (v_seg <$> us) w = Some (tt, w') ∧ disk w' im vs ∧ ∀ i, w_content w' i = w_content w i.
Proof.
  revert w. induction us as [|u us IH]; intros w D; [by exists w|].
  destruct (disk_unlink _ _ _ _ D) as (w1 & Hu & D1 & Hc1). destruct (IH w1 D1) as (w2 & Hu2 & D2 & Hc2).
  exists w2. split_and!; [|done|intros i; by rewrite Hc2]. rewrite fmap_cons. cbn [unlink_all].
  by rewrite (io_bind_eq _ _ _ _ _ Hu).
Qed.

Lemma disk_unlink_until w im us vs ret :
  disk w im (us ++ vs) →
  ∃ w', unlink_until (v_seg <$> us) ret w = Some ((if decide (us = []) then ret else 0, true), w') ∧
    disk w' im vs ∧ ∀ i, w_content w' i = w_content w i.
Proof.
  revert w ret. induction us as [|u us IH]; intros w ret D; [by exists w|].
  destruct (disk_unlink _ _ _ _ D) as (w1 & Hu & D1 & Hc1). destruct (IH w1 0 D1) as (w2 & Hu2 & D2 & Hc2).
  exists w2. split_and!; [|done|intros i; by rewrite Hc2]. rewrite fmap_cons. cbn [unlink_until].
  rewrite (io_bind_eq _ _ _ _ _ Hu). rewrite decide_False by lia. rewrite Hu2. by destruct us.
Qed.

(** ** The storage *)

Fixpoint chain (F : Z) (vs : list SegV) : Prop :=
  match vs with
  | [] => True
  | v :: vs' => v_first v = F ∧ chain (F + zlen (v_es v)) vs'
  end.

Definition entries (vs : list SegV) : list LogEntry := concat (v_es <$> vs).

Lemma entries_app vs vs' : entries (vs ++ vs') = entries vs ++ entries vs'.
Proof. unfold entries. by rewrite fmap_app, concat_app. Qed.

Lemma entries_one v : entries [v] = v_es v.
Proof. apply app_nil_r. Qed.

Lemma entries_cons v vs : entries (v :: vs) = v_es v ++ entries vs.
Proof. done. Qed.

Lemma chain_app F vs vs' : chain F (vs ++ vs') ↔ chain F vs ∧ chain (F + zlen (entries vs)) vs'.
Proof.
  revert F. induction vs as [|v vs IH]; intros F; cbn [app chain].
  - change (zlen (entries [])) with 0. rewrite Z.add_0_r. tauto.
  - rewrite IH, entries_cons, zlen_app, Z.add_assoc. tauto.
Qed.

Lemma chain_bounds F vs v :
  chain F vs → v ∈ vs → F ≤ v_first v ∧ v_first v + zlen (v_es v) ≤ F + zlen (entries vs).
Proof.
  intros Hc Hv. apply list_elem_of_split in Hv as (vs1 & vs2 & ->). apply chain_app in Hc as [_ [Hf _]].
  rewrite entries_app, entries_cons, !zlen_app. pose proof (zlen_nonneg (entries vs1)). pose proof (zlen_nonneg (entries vs2)).
  lia.
Qed.

(** Where the log starts: in the first segment, which may still be empty only
    when it is the only one. *)
Definition head_ok (F first : Z) (vs : list SegV) : Prop :=
  match vs with [] => F = first | v :: _ => F ≤ first < F + zlen (v_es v) end.
Definition head_open (F first : Z) (vs : list SegV) : Prop :=
  head_ok F first vs ∨ ∃ v, vs = [v] ∧ v_es v = [] ∧ F = first.

Record sl_inv (st : SegmentLogStorage) (w : World) (F im : Z) (closed : list SegV) (op : option SegV) : Prop := {
  si_disk : disk w im (closed ++ option_list op);
  si_segments : sl_segments st = (λ v, (v_first v, v_seg v)) <$> closed;
  si_open : sl_open_segment st = v_seg <$> op;
  si_closed : Forall (λ v, sg_is_open (v_seg v) = false ∧ v_es v ≠ []) closed;
  si_isopen : ∀ v, op = Some v → sg_is_open (v_seg v) = true;
  si_chain : chain F (closed ++ option_list op);
  si_ct : checksum_ok (sl_checksum_type st);
  si_meta : w_content w im = meta_bytes (sl_first_log_index st);
  si_head : head_open F (sl_first_log_index st) (closed ++ option_list op);
  si_last : sl_last_log_index st = F + zlen (entries (closed ++ option_list op)) - 1;
}.

Lemma closed_first F closed v :
  chain F closed → Forall (λ v, sg_is_open (v_seg v) = false ∧ v_es v ≠ []) closed → v ∈ closed →
  v_first v < F + zlen (entries closed).
Proof.
  intros Hc Hcl Hv. destruct (chain_bounds F closed v Hc Hv) as [_ Hb]. rewrite Forall_forall in Hcl.
  destruct (Hcl v Hv) as [_ Hne]. assert (0 < zlen (v_es v)) by (unfold zlen; destruct (v_es v); [done|cbn; lia]). lia.
Qed.

Lemma v_last w v : v_ok w v → sg_last_index (v_seg v) = v_first v + zlen (v_es v) - 1.
Proof. intros [V _]. apply (sv_last _ _ _ _ _ V). Qed.

Lemma head_open_app_nonempty F first vs vs' :
  head_ok F first vs → vs ≠ [] → head_open F first (vs ++ vs').
Proof. intros H Hne. left. by destruct vs. Qed.

Hypothesis Hmax : 0 ≤ raft_max_segment_size fl.

(** [open_segment] gives an open segment to append to. *)
Lemma add_open_inv st w F im closed :
  sl_inv st w F im closed None → index_ok (sl_last_log_index st + 1) →
  ∃ w' v, sg_create (new_open_segment (sl_last_log_index st + 1) (sl_checksum_type st)) w = Some ((v_seg v, 0), w') ∧
    sl_inv (sl_set_open st (Some (v_seg v))) w' F im closed (Some v) ∧ v_es v = [].
Proof.
  intros I Hr. pose proof (si_disk _ _ _ _ _ _ I) as D. cbn in D. rewrite app_nil_r in D.
  destruct (disk_create w im closed (sl_last_log_index st + 1) _ D (si_ct _ _ _ _ _ _ I) Hr) as
    (v & w1 & Hc & D1 & Hes & Hvf & Ho & Hmc).
  { eapply Forall_impl; [apply (si_closed _ _ _ _ _ _ I)|]. by intros ? []. }
  exists w1, v. split; [done|]. split; [|done].
  pose proof (si_last _ _ _ _ _ _ I) as Hlast. pose proof (si_chain _ _ _ _ _ _ I) as Hch.
  cbn in Hlast, Hch. rewrite app_nil_r in Hlast, Hch. destruct I. split; cbn; try done.
  - eapply disk_perm; [|exact D1]. apply Permutation_cons_append.
  - by intros ? [= <-].
  - apply chain_app. split; [done|]. cbn. split; [lia|done].
  - by rewrite Hmc.
  - cbn in si_head0. rewrite app_nil_r in si_head0. destruct si_head0 as [Hh|(v0 & -> & Hv0 & _)].
    + destruct closed as [|c0 closed]; [|by apply head_open_app_nonempty]. right. exists v. by rewrite Hes.
    + rewrite Forall_singleton in si_closed0. by destruct si_closed0.
  - rewrite Hlast, entries_app, entries_one, Hes, app_nil_r. done.
Qed.

Lemma ensure_open_inv st w F im closed op :
  sl_inv st w F im closed op → index_ok (sl_last_log_index st + 1) →
  ∃ w' v, ensure_open st w = Some ((sl_set_open st (Some (v_seg v)), true), w') ∧
    sl_inv (sl_set_open st (Some (v_seg v))) w' F im closed (Some v) ∧
    entries (closed ++ [v]) = entries (closed ++ option_list op).
Proof.
  intros I Hr. unfold ensure_open. rewrite (si_open _ _ _ _ _ _ I). destruct op as [v|].
  - exists w, v. pose proof (si_open _ _ _ _ _ _ I) as Ho. cbn in Ho. destruct st. cbn in *. subst. done.
  - destruct (add_open_inv _ _ _ _ _ I Hr) as (w' & v & Hc & I' & Hes). exists w', v.
    cbn [fmap option_fmap option_map]. rewrite (io_bind_eq _ _ _ _ _ Hc). rewrite decide_False by lia.
    split_and!; [done|done|]. by rewrite !entries_app, entries_one, Hes.
Qed.

(** Closing the open segment. *)
Lemma close_open_inv st w F im closed v b :
  sl_inv st w F im closed (Some v) → v_es v ≠ [] →
  ∃ v' w', sg_close fl (v_seg v) b w = Some ((v_seg v', 0), w') ∧ v_es v' = v_es v ∧
    sl_inv (sl_set_open (sl_set_segments st (map_set (v_first v') (v_seg v') (sl_segments st))) None) w' F im
      (closed ++ [v']) None.
Proof.
  intros I Hne. pose proof (si_disk _ _ _ _ _ _ I) as D. cbn in D.
  pose proof (si_chain _ _ _ _ _ _ I) as Hch. cbn in Hch. apply chain_app in Hch as [Hch1 [Hvf _]].
  assert (disk w im (v :: closed)) as D0 by (eapply disk_perm; [|exact D]; symmetry; apply Permutation_cons_append).
  assert (∀ u, u ∈ closed → v_first u < v_first v) as Hlt.
  { intros u Hu. rewrite Hvf. by apply (closed_first _ _ _ Hch1 (si_closed _ _ _ _ _ _ I)). }
  destruct (disk_close w im v closed b D0 (si_isopen _ _ _ _ _ _ I _ eq_refl)) as
    (v' & w' & Hc & D' & Hes & Hf' & Ho' & Hmc).
  { apply Forall_forall. intros u Hu. pose proof (si_closed _ _ _ _ _ _ I) as Hcl. rewrite Forall_forall in Hcl.
    destruct (Hcl u Hu). specialize (Hlt u Hu). split; [done|lia]. }
  exists v', w'. split_and!; [done|done|]. pose proof I as I0. destruct I. split; cbn.
  - rewrite app_nil_r. eapply disk_perm; [|exact D']. apply Permutation_cons_append.
  - rewrite si_segments0, map_set_snoc; [by rewrite fmap_app|]. apply Forall_fmap, Forall_forall. intros u Hu. cbn.
    rewrite Hf'. by apply Hlt.
  - done.
  - apply Forall_app. split; [done|]. apply Forall_singleton. by rewrite Hes.
  - done.
  - rewrite app_nil_r. apply chain_app. split; [done|]. cbn. rewrite Hf'. done.
  - done.
  - by rewrite Hmc.
  - rewrite app_nil_r. destruct si_head0 as [Hh|(v0 & Hv0 & Hn & _)].
    + left. destruct closed; cbn in *; [by rewrite Hes|done].
    + destruct closed as [|c0 [|]]; cbn in Hv0; simplify_eq.
  - cbn in si_last0. rewrite si_last0, app_nil_r, !entries_app, !entries_one, Hes. done.
Qed.

Lemma open_segment_inv st w F im closed op :
  sl_inv st w F im closed op → index_ok (sl_last_log_index st + 1) →
  ∃ st' w' closed' v, open_segment fl st w = Some ((st', true), w') ∧ sl_inv st' w' F im closed' (Some v) ∧
    entries (closed' ++ [v]) = entries (closed ++ option_list op) ∧
    sl_first_log_index st' = sl_first_log_index st ∧ sl_last_log_index st' = sl_last_log_index st ∧
    sl_enable_sync st' = sl_enable_sync st.
Proof.
  intros I Hr. unfold open_segment.
  destruct (ensure_open_inv _ _ _ _ _ _ I Hr) as (w1 & v & Hm & I1 & He).
  rewrite (io_bind_eq _ _ _ _ _ Hm). cbn [negb sl_open_segment sl_set_open]. rewrite io_lift_bind.
  case_decide as Hb; [|by eexists _, w1, closed, v; split_and!].
  assert (v_es v ≠ []) as Hne.
  { intros E. pose proof (si_disk _ _ _ _ _ _ I1) as D. pose proof (dk_views _ _ _ D) as Hvw.
    apply Forall_app in Hvw as [_ Hvw]. cbn in Hvw. rewrite Forall_singleton in Hvw. destruct Hvw as [V _].
    rewrite (sv_bytes _ _ _ _ _ V) in Hb. pose proof (sv_chunks _ _ _ _ _ V) as Hc. rewrite E in Hc.
    apply Forall2_nil_inv_l in Hc. rewrite Hc in Hb. cbn [concat] in Hb. rewrite zlen_nil in Hb. lia. }
  unfold roll_segment. cbn [sl_enable_sync sl_set_open].
  destruct (close_open_inv _ _ _ _ _ _ (sl_enable_sync st) I1 Hne) as (v' & w2 & Hc & Hes & I2).
  rewrite (io_bind_eq _ _ _ _ _ Hc). rewrite decide_True by done. fold (v_first v').
  destruct (add_open_inv _ _ _ _ _ I2 Hr) as (w3 & v3 & Hc3 & I3 & Hes3).
  rewrite (io_bind_eq _ _ _ _ _ Hc3). rewrite decide_True by done. eexists _, w3, (closed ++ [v']), v3.
  split_and!; [done|done| |done|done|done]. rewrite <-He, !entries_app, !entries_one, Hes, Hes3. by rewrite app_nil_r.
Qed.

(** ** Appending *)

(** Replacing the open segment by one at the same place. *)
Lemma head_replace F first closed v v' :
  head_open F first (closed ++ [v]) → zlen (v_es v) ≤ zlen (v_es v') → head_ok F first (closed ++ [v]) →
  head_ok F first (closed ++ [v']).
Proof. destruct closed; cbn; [lia|done]. Qed.

Lemma append_open_inv st w F im closed v e :
  sl_inv st w F im closed (Some v) → entry_ok e → index (id e) = sl_last_log_index st + 1 →
  ∃ v' w', sg_append (v_seg v) e w = Some ((v_seg v', 0), w') ∧ v_es v' = v_es v ++ [e] ∧
    sl_inv (sl_set_last (sl_set_open st (Some (v_seg v'))) (sl_last_log_index st + 1)) w' F im closed (Some v') ∧
    head_ok F (sl_first_log_index st) (closed ++ [v']).
Proof.
  intros I He Hi. pose proof (si_disk _ _ _ _ _ _ I) as D. cbn in D.
  assert (disk w im (v :: closed)) as D0 by (eapply disk_perm; [|exact D]; symmetry; apply Permutation_cons_append).
  pose proof (si_chain _ _ _ _ _ _ I) as Hch. cbn in Hch. apply chain_app in Hch as [Hch1 [Hvf _]].
  pose proof (si_last _ _ _ _ _ _ I) as Hlast. cbn in Hlast. rewrite entries_app, entries_one, zlen_app in Hlast.
  pose proof (v_last _ _ (disk_view _ _ _ _ D0)) as Hvl.
  destruct (disk_append w im v closed e D0 (si_isopen _ _ _ _ _ _ I _ eq_refl) He) as
    (v' & w' & Ha & D' & Hes & Hf' & Ho' & Hmc); [lia|].
  exists v', w'. split_and!; [done|done| |].
  - destruct I. split; cbn; try done.
    + eapply disk_perm; [|exact D']. apply Permutation_cons_append.
    + by intros ? [= <-].
    + apply chain_app. split; [done|]. cbn. by rewrite Hf'.
    + by rewrite Hmc.
    + left. destruct si_head0 as [Hh|(v0 & Hv0 & Hn & Hff)].
      * eapply head_replace; [by left|rewrite Hes, zlen_app; pose proof (zlen_nonneg [e]); lia|done].
      * destruct closed as [|c0 [|]]; cbn in Hv0; simplify_eq. cbn. rewrite Hes, Hn. change (zlen ([] ++ [e])) with 1. lia.
    + rewrite Hlast, entries_app, entries_one, Hes, !zlen_app. change (zlen [e]) with 1. lia.
  - destruct (si_head _ _ _ _ _ _ I) as [Hh|(v0 & Hv0 & Hn & Hff)].
    + eapply head_replace; [by left|rewrite Hes, zlen_app; pose proof (zlen_nonneg [e]); lia|done].
    + destruct closed as [|c0 [|]]; cbn in Hv0; simplify_eq. cbn. rewrite Hes, Hn. change (zlen ([] ++ [e])) with 1. lia.
Qed.

Lemma append_loop_inv es st w F im closed op i :
  sl_inv st w F im closed op → contiguous (sl_last_log_index st + 1) es → Forall entry_ok es →
  ∃ st' w' closed' op', append_loop fl st es i w = Some ((st', i + zlen es, true), w') ∧
    sl_inv st' w' F im closed' op' ∧
    entries (closed' ++ option_list op') = entries (closed ++ option_list op) ++ es ∧
    sl_first_log_index st' = sl_first_log_index st ∧ sl_enable_sync st' = sl_enable_sync st ∧
    (es ≠ [] ∨ (is_Some op ∧ head_ok F (sl_first_log_index st) (closed ++ option_list op)) →
     is_Some op' ∧ head_ok F (sl_first_log_index st) (closed' ++ option_list op')).
Proof.
  revert st w closed op i. induction es as [|e es IH]; intros st w closed op i I Hc Hok.
  { exists st, w, closed, op. rewrite app_nil_r, zlen_nil, Z.add_0_r. split_and!; [done..|]. by intros [?|?]. }
  apply contiguous_cons in Hc as [Hi Hc]. inversion Hok as [|? ? He Hok']; subst. cbn [append_loop].
  destruct (open_segment_inv _ _ _ _ _ _ I) as (st1 & w1 & c1 & v1 & Hop & I1 & He1 & Hf1 & Hl1 & Hs1).
  { destruct He as ([_ Hr] & _). unfold index_ok. lia. }
  rewrite (io_bind_eq _ _ _ _ _ Hop). cbn [negb]. rewrite (si_open _ _ _ _ _ _ I1). cbn [fmap option_fmap option_map].
  rewrite io_lift_bind. rewrite <-Hl1 in Hi, Hc.
  destruct (append_open_inv _ _ _ _ _ _ _ I1 He Hi) as (v2 & w2 & Ha & Hes & I2 & Hh2).
  rewrite (io_bind_eq _ _ _ _ _ Ha). rewrite decide_False by lia. cbn [sl_last_log_index sl_set_open].
  destruct (IH _ _ _ _ (i + 1) I2) as (st' & w' & c' & op' & Hloop & I' & He' & Hf' & Hs' & Hx);
    [by cbn|done|]. exists st', w', c', op'. split_and!.
  - rewrite Hloop. by rewrite zlen_cons, <-Z.add_assoc, (Z.add_comm 1).
  - done.
  - rewrite He'. cbn. rewrite entries_app, entries_one, Hes, app_assoc, <-(entries_one v1), <-entries_app, He1.
    by rewrite <-app_assoc.
  - rewrite Hf'. cbn. done.
  - rewrite Hs'. cbn. done.
  - intros _. cbn in Hx. rewrite Hf1 in *. apply Hx. right. split; [done|]. done.
Qed.

(** ** The log of a storage *)

Definition sl_log (first F : Z) (vs : list SegV) : Log := mkLog first (drop (Z.to_nat (first - F)) (entries vs)).

Definition sl_rep (sw : SegmentLogStorage * World) (l : Log) : Prop :=
  ∃ F im closed op, sl_inv sw.1 sw.2 F im closed op ∧
    head_ok F (sl_first_log_index sw.1) (closed ++ option_list op) ∧
    l = sl_log (sl_first_log_index sw.1) F (closed ++ option_list op).

Lemma head_ok_bounds F first vs : head_ok F first vs → F ≤ first ≤ F + zlen (entries vs).
Proof.
  destruct vs as [|v vs]; cbn [head_ok]; [change (zlen (entries [])) with 0; lia|].
  rewrite entries_cons, zlen_app. pose proof (zlen_nonneg (entries vs)). lia.
Qed.

Lemma sl_log_last first F vs : head_ok F first vs → log_last (sl_log first F vs) = F + zlen (entries vs) - 1.
Proof.
  intros Hh%head_ok_bounds. unfold log_last, sl_log. cbn [lfirst lents]. rewrite zlen_drop. lia.
Qed.

Lemma sl_log_get first F vs i :
  head_ok F first vs → first ≤ i → log_get (sl_log first F vs) i = zlookup (entries vs) (i - F).
Proof.
  intros Hh%head_ok_bounds Hi. unfold log_get, sl_log. cbn [lfirst lents]. rewrite !zlookup_nonneg by lia.
  rewrite lookup_drop. f_equal. lia.
Qed.

Lemma sl_log_append first F vs es vs' :
  head_ok F first vs → entries vs' = entries vs ++ es → sl_log first F vs' = log_append (sl_log first F vs) es.
Proof.
  intros Hh%head_ok_bounds E. unfold sl_log, log_append. cbn [lfirst lents]. f_equal.
  rewrite E, drop_app_le; [done|]. unfold zlen in Hh. lia.
Qed.

Lemma entries_contiguous w F vs : chain F vs → Forall (v_ok w) vs → contiguous F (entries vs).
Proof.
  revert F. induction vs as [|v vs IH]; intros F Hc Hv; [apply contiguous_nil|]. destruct Hc as [Hf Hc].
  inversion Hv as [|? ? [V Hr] Hv']; subst. rewrite entries_cons. apply contiguous_app. split; [apply (sv_cont _ _ _ _ _ V)|].
  by apply IH.
Qed.

Lemma sl_rep_wf sw l : sl_rep sw l → log_wf l.
Proof.
  intros (F & im & closed & op & I & Hh & ->). unfold log_wf, sl_log. cbn [lfirst lents].
  pose proof (head_ok_bounds _ _ _ Hh). pose proof (dk_views _ _ _ (si_disk _ _ _ _ _ _ I)) as Hv.
  pose proof (entries_contiguous _ _ _ (si_chain _ _ _ _ _ _ I) Hv) as Hc.
  replace (sl_first_log_index sw.1) with (F + Z.of_nat (Z.to_nat (sl_first_log_index sw.1 - F))) at 1 by lia.
  apply contiguous_drop; [done|]. unfold zlen in *. lia.
Qed.

Lemma replace_open_inv st w F im closed v v' :
  sl_inv st w F im closed (Some v) → disk w im (v' :: closed) → v_es v' = v_es v → v_first v' = v_first v →
  sg_is_open (v_seg v') = true → sl_inv (sl_set_open st (Some (v_seg v'))) w F im closed (Some v').
Proof.
  intros I D Hes Hf Ho. destruct I. cbn in *. split; cbn; try done.
  - eapply disk_perm; [|exact D]. apply Permutation_cons_append.
  - by intros ? [= <-].
  - apply chain_app in si_chain0 as [? [? _]]. apply chain_app. split; [done|]. cbn. by rewrite Hf.
  - destruct closed as [|c0 closed]; cbn in *; [|destruct si_head0 as [?|(? & ? & _)]; [by left|by destruct closed]].
    unfold head_open in *. cbn in *. rewrite Hes. destruct si_head0 as [?|(v0 & ? & ? & ?)]; [by left|]. simplify_eq.
    right. exists v'. by rewrite Hes.
  - rewrite si_last0, !entries_app, !entries_one, Hes. done.
Qed.

Lemma sl_append_rep st w l es :
  sl_rep (st, w) l → contiguous (log_last l + 1) es → Forall entry_ok es →
  ∃ st' w', sl_append_entries fl st es w = Some ((st', zlen es), w') ∧ sl_rep (st', w') (log_append l es).
Proof.
  intros Hrep Hc Hok. destruct es as [|e es].
  { exists st, w. split; [done|]. by rewrite log_append_nil. }
  destruct Hrep as (F & im & closed & op & I & Hh & ->). cbn [fst snd] in *. rewrite sl_log_last in Hc by done.
  assert (contiguous (sl_last_log_index st + 1) (e :: es)) as Hc' by (by rewrite (si_last _ _ _ _ _ _ I)).
  unfold sl_append_entries. rewrite io_check_bind.
  2:{ apply contiguous_cons in Hc' as [Hi _]. lia. }
  destruct (append_loop_inv (e :: es) _ _ _ _ _ _ 0 I Hc' Hok) as (st1 & w1 & c1 & op1 & Hl & I1 & He1 & Hf1 & Hs1 & Hx).
  destruct Hx as [[v1 ->] Hh1]; [by left|].
  rewrite (io_bind_eq _ _ _ _ _ Hl). cbn [negb]. rewrite (si_open _ _ _ _ _ _ I1). cbn [fmap option_fmap option_map].
  rewrite io_lift_bind. pose proof (si_disk _ _ _ _ _ _ I1) as D. cbn in D.
  assert (disk w1 im (v1 :: c1)) as D0 by (eapply disk_perm; [|exact D]; symmetry; apply Permutation_cons_append).
  destruct (disk_sync w1 im v1 c1 (sl_enable_sync st1) D0) as (v2 & Hsy & D2 & Hes2 & Hf2 & Ho2).
  rewrite (io_bind_eq _ _ _ _ _ Hsy). eexists _, w1. split; [done|].
  exists F, im, c1, (Some v2). cbn [fst snd sl_first_log_index sl_set_open]. rewrite Hf1. split_and!.
  - apply (replace_open_inv _ _ _ _ _ v1); try done. rewrite Ho2. by apply (si_isopen _ _ _ _ _ _ I1).
  - cbn in *. destruct c1; cbn in *; [by rewrite Hes2|done].
  - symmetry. apply sl_log_append; [done|]. rewrite <-He1. cbn. by rewrite !entries_app, !entries_one, Hes2.
Qed.

(** ** Reading *)

Lemma chain_find F vs i :
  chain F vs → F ≤ i < F + zlen (entries vs) →
  ∃ vs1 v vs2, vs = vs1 ++ v :: vs2 ∧ v_first v ≤ i < v_first v + zlen (v_es v) ∧
    zlookup (entries vs) (i - F) = zlookup (v_es v) (i - v_first v) ∧
    Forall (λ u, v_first u ≤ i) vs1 ∧ Forall (λ u, i < v_first u) vs2.
Proof.
  revert F. induction vs as [|v vs IH]; intros F Hc Hi; [change (zlen (entries [])) with 0 in Hi; lia|].
  destruct Hc as [Hf Hc]. rewrite entries_cons in *. rewrite zlen_app in Hi.
  destruct (decide (i < F + zlen (v_es v))).
  - exists [], v, vs. split_and!; [done|lia|lia|by rewrite zlookup_app_l, Hf by lia|constructor|].
    apply Forall_forall. intros u Hu. destruct (chain_bounds _ _ _ Hc Hu) as [Hb _]. lia.
  - destruct (IH _ Hc) as (vs1 & u & vs2 & -> & Hu & Hl & H1 & H2); [lia|].
    pose proof (zlen_nonneg (v_es v)).
    exists (v :: vs1), u, vs2. split_and!; [done|lia|lia| |constructor; [lia|done]|done].
    rewrite zlookup_app_r by lia. rewrite <-Hl. f_equal. lia.
Qed.

Lemma get_segment_inv st w F im closed op i :
  sl_inv st w F im closed op → head_ok F (sl_first_log_index st) (closed ++ option_list op) →
  if decide (sl_first_log_index st ≤ i ≤ sl_last_log_index st) then
    ∃ v, get_segment st i = Some (Some (v_seg v)) ∧ v_ok w v ∧
      zlookup (entries (closed ++ option_list op)) (i - F) = zlookup (v_es v) (i - v_first v)
  else get_segment st i = Some None.
Proof.
  intros I Hh. unfold get_segment. pose proof (head_ok_bounds _ _ _ Hh) as Hb.
  pose proof (si_last _ _ _ _ _ _ I) as Hl. case_decide as Hi.
  2:{ repeat (case_decide; [done|]). lia. }
  rewrite !decide_False by lia. pose proof (dk_views _ _ _ (si_disk _ _ _ _ _ _ I)) as Hv. rewrite Forall_forall in Hv.
  destruct (chain_find _ _ i (si_chain _ _ _ _ _ _ I)) as (vs1 & v & vs2 & Heq & Hr & Hlk & H1 & H2); [lia|].
  exists v. split_and!; [|apply Hv; rewrite Heq; set_solver|done].
  rewrite (si_open _ _ _ _ _ _ I), (si_segments _ _ _ _ _ _ I).
  assert (∀ vs2', closed = vs1 ++ v :: vs2' → Forall (λ u, i < v_first u) vs2' →
    (CHECK (((λ v, (v_first v, v_seg v)) <$> closed) ≠ []);;
     it ← last (filter (λ p : Z * Segment, p.1 ≤ i) ((λ v, (v_first v, v_seg v)) <$> closed)); Some (Some it.2))
    = Some (Some (v_seg v))) as Hclosed.
  { intros vs2' -> Hvs2. rewrite CHECK_true by (by destruct vs1). cbn [mbind option_bind].
    rewrite fmap_app, fmap_cons, filter_app, filter_cons_True by (cbn; lia).
    rewrite (list_filter_none _ (_ <$> vs2')).
    - by rewrite last_snoc.
    - intros p Hp. apply list_elem_of_fmap in Hp as (u & -> & Hu). rewrite Forall_forall in Hvs2.
      specialize (Hvs2 u Hu). cbn. lia. }
  destruct op as [o|]; cbn [fmap option_fmap option_map option_list] in *.
  2:{ rewrite app_nil_r in Heq. by apply (Hclosed vs2). }
  destruct vs2 as [|u vs2 _] using rev_ind.
  - apply app_inj_tail in Heq as [-> ->]. rewrite decide_True by (unfold v_first in Hr; lia). done.
  - rewrite app_comm_cons, app_assoc in Heq. apply app_inj_tail in Heq as [Heq ->]. apply Forall_app in H2 as [H2 H2'].
    rewrite Forall_singleton in H2'. rewrite decide_False by (unfold v_first in H2'; lia). by apply (Hclosed vs2).
Qed.

Lemma sl_get_entry_rep st w l i : sl_rep (st, w) l → sl_get_entry st i w = Some (log_get l i, w).
Proof.
  intros (F & im & closed & op & I & Hh & ->). cbn [fst snd] in *. pose proof (head_ok_bounds _ _ _ Hh) as Hb.
  pose proof (get_segment_inv _ _ _ _ _ _ i I Hh) as Hg. pose proof (si_last _ _ _ _ _ _ I) as Hl.
  unfold sl_get_entry. case_decide as Hi.
  - destruct Hg as (v & -> & [V Hr] & Hlk). rewrite io_lift_bind.
    rewrite (sg_get_view _ _ _ _ _ _ (proj1 (dk_quiet _ _ _ (si_disk _ _ _ _ _ _ I))) V).
    rewrite sl_log_get, Hlk by (done || lia). done.
  - rewrite Hg, io_lift_bind. rewrite log_get_out; [done|]. rewrite sl_log_last by done. cbn [lfirst sl_log]. lia.
Qed.

Lemma sl_get_term_rep st w l i : sl_rep (st, w) l → sl_get_term st i = Some (log_term l i).
Proof.
  intros (F & im & closed & op & I & Hh & ->). cbn [fst snd] in *. pose proof (head_ok_bounds _ _ _ Hh) as Hb.
  pose proof (get_segment_inv _ _ _ _ _ _ i I Hh) as Hg. pose proof (si_last _ _ _ _ _ _ I) as Hl.
  unfold sl_get_term, log_term. case_decide as Hi.
  - destruct Hg as (v & -> & [V Hr] & Hlk). cbn [mbind option_bind]. rewrite (sg_get_term_view _ _ _ _ _ _ V).
    rewrite sl_log_get, Hlk by (done || lia). done.
  - rewrite Hg. cbn [mbind option_bind]. rewrite log_get_out; [done|]. rewrite sl_log_last by done. cbn [lfirst sl_log]. lia.
Qed.

(** ** Truncating the prefix *)

Definition as_map (vs : list SegV) : list (Z * Segment) := (λ v, (v_first v, v_seg v)) <$> vs.

Lemma pop_front_split k closed :
  ∃ c1 c2, closed = c1 ++ c2 ∧ pop_front_segments k (as_map closed) = (v_seg <$> c1, as_map c2) ∧
    Forall (λ v, sg_last_index (v_seg v) < k) c1 ∧ (∀ v, head c2 = Some v → k ≤ sg_last_index (v_seg v)).
Proof.
  induction closed as [|v closed (c1 & c2 & -> & Hp & H1 & H2)]; [by exists [], []|].
  unfold as_map. rewrite fmap_cons. cbn [pop_front_segments]. case_decide as Hd.
  - exists (v :: c1), c2. fold (as_map (c1 ++ c2)). rewrite Hp. split_and!; [done|done|by constructor|done].
  - exists [], (v :: c1 ++ c2). split_and!; [done|done|constructor|]. intros ? [= <-]. lia.
Qed.

(** The segments popped end before [k]. *)
Lemma popped_before w F us k first vs :
  chain F us → Forall (v_ok w) us → Forall (λ v, sg_last_index (v_seg v) < k) us →
  head_ok F first (us ++ vs) → first < k → F + zlen (entries us) ≤ k.
Proof.
  intros Hc Hv Hl Hh Hk. apply head_ok_bounds in Hh. destruct us as [|u us _] using rev_ind.
  { change (zlen (entries [])) with 0. lia. }
  apply chain_app in Hc as [_ [Hf _]]. rewrite !Forall_app, !Forall_singleton in *.
  destruct Hl as [_ Hl], Hv as [_ Hv]. rewrite (v_last _ _ Hv), Hf in Hl. rewrite entries_app, entries_one, zlen_app. lia.
Qed.

Lemma pop_segments_inv st w F im closed op k :
  sl_inv st w F im closed op → head_ok F (sl_first_log_index st) (closed ++ option_list op) → sl_first_log_index st < k →
  ∃ us closed' op' st', let vs' := closed' ++ option_list op' in
    let F' := if decide (vs' = []) then k else F + zlen (entries us) in
    pop_segments st k = Some (st', v_seg <$> us) ∧ closed ++ option_list op = us ++ vs' ∧ head_ok F' k vs' ∧
    (vs' = [] → F + zlen (entries us) ≤ k) ∧
    closed' ⊆ closed ∧ (op' = op ∨ op' = None) ∧
    st' = mkSegmentLog k (F' + zlen (entries vs') - 1) (as_map closed') (v_seg <$> op') (sl_checksum_type st) (sl_enable_sync st).
Proof.
  intros I Hh Hk. unfold pop_segments. rewrite (si_segments _ _ _ _ _ _ I). fold (as_map closed).
  destruct (pop_front_split k closed) as (c1 & c2 & -> & -> & H1 & H2).
  pose proof (dk_views _ _ _ (si_disk _ _ _ _ _ _ I)) as Hv. pose proof (si_chain _ _ _ _ _ _ I) as Hch.
  pose proof (si_last _ _ _ _ _ _ I) as Hlast. rewrite <-app_assoc in Hv, Hch, Hh, Hlast.
  apply Forall_app in Hv as [Hv1 Hv2]. apply chain_app in Hch as [Hch1 Hch2].
  pose proof (popped_before _ _ _ _ _ _ Hch1 Hv1 H1 Hh Hk) as Hb1.
  cbn [sl_set_segments sl_set_first sl_open_segment sl_set_last sl_set_open].
  destruct c2 as [|v2 c2]; cbn [as_map fmap list_fmap]; [rewrite decide_False by (intros Hx; by apply Hx)|rewrite decide_True by done].
  2:{ (* a closed segment is kept *)
      exists c1, (v2 :: c2), op. eexists. cbn zeta. rewrite decide_False by done. split_and!; [done|by rewrite <-app_assoc| |done| |by left|].
      - cbn [app head_ok]. destruct Hch2 as [Hf2 _]. specialize (H2 v2 eq_refl). inversion Hv2; subst.
        rewrite (v_last w) in H2 by done. lia.
      - set_solver.
      - unfold sl_set_segments, sl_set_first. cbn -[zlen entries app]. f_equal; [|apply (si_open _ _ _ _ _ _ I)].
        rewrite Hlast, entries_app, zlen_app. lia. }
  rewrite app_nil_r in *. cbn [app] in Hv2, Hch2. rewrite (si_open _ _ _ _ _ _ I).
  destruct op as [o|]; cbn [fmap option_fmap option_map option_list] in *.
  2:{ exists c1, [], None. eexists. cbn zeta. rewrite decide_True by done. split_and!; [done|done|done|by intros _|set_solver|by left|].
      unfold sl_set_last. cbn -[zlen entries]. f_equal; [change (zlen (entries [])) with 0; lia|apply (si_open _ _ _ _ _ _ I)]. }
  change (option_list (Some o)) with [o] in *. destruct Hch2 as [Hf2 _]. rewrite Forall_singleton in Hv2.
  rewrite (v_last _ _ Hv2). case_decide as Ho.
  - exists (c1 ++ [o]), [], None. eexists. cbn zeta. rewrite decide_True by done.
    split_and!; [by rewrite fmap_app|by rewrite app_nil_r|done| |set_solver|by right|].
    + intros _. rewrite entries_app, entries_one, zlen_app. lia.
    + unfold sl_set_last, sl_set_open. cbn -[zlen entries]. f_equal. change (zlen (entries [])) with 0. lia.
  - rewrite CHECK_true by (unfold v_first in Hf2; lia). cbn [mbind option_bind].
    exists c1, [], (Some o). eexists. cbn zeta. rewrite decide_False by done.
    split_and!; [done|done|cbn; lia|done|set_solver|by left|].
    unfold sl_set_segments, sl_set_first. cbn -[zlen entries app]. f_equal; [|apply (si_open _ _ _ _ _ _ I)].
    rewrite Hlast, entries_app, zlen_app. lia.
Qed.

Lemma sl_truncate_prefix_rep st w l k :
  sl_rep (st, w) l → lfirst l ≤ k →
  ∃ st' w', sl_truncate_prefix fl st k w = Some ((st', 0), w') ∧ sl_rep (st', w') (log_truncate_prefix l k).
Proof.
  intros Hrep Hk. unfold sl_truncate_prefix.
  destruct Hrep as (F & im & closed & op & I & Hh & ->). cbn [fst snd lfirst sl_log] in *. case_decide as Hd.
  { exists st, w. split; [done|]. exists F, im, closed, op. split_and!; [done|done|]. unfold log_truncate_prefix, sl_log. cbn.
    assert (k = sl_first_log_index st) as -> by lia. by rewrite Z.sub_diag. }
  destruct (disk_save_meta w im _ k (si_disk _ _ _ _ _ _ I)) as (w1 & im1 & Hs & D1 & Hm1).
  rewrite (io_bind_eq _ _ _ _ _ Hs). rewrite decide_False by lia.
  destruct (pop_segments_inv _ _ _ _ _ _ k I Hh) as (us & c' & op' & st' & Hp & Heq & Hh' & Hnone & Hsub & Hop & Hst'); [lia|].
  rewrite Hp, io_lift_bind. rewrite Heq in D1. destruct (disk_unlink_all _ _ _ _ D1) as (w2 & Hu & D2 & Hc2).
  rewrite (io_bind_eq _ _ _ _ _ Hu). exists st', w2. split; [done|].
  set (vs' := c' ++ option_list op') in *. set (F' := if decide (vs' = []) then k else F + zlen (entries us)) in *.
  assert (sl_first_log_index st' = k) as Hf' by (by rewrite Hst').
  exists F', im1, c', op'. cbn [fst snd]. rewrite Hf'. fold vs'. split_and!; [|done|].
  - pose proof (si_chain _ _ _ _ _ _ I) as Hch. rewrite Heq in Hch. apply chain_app in Hch as [_ Hch].
    pose proof (si_closed _ _ _ _ _ _ I) as Hcl. pose proof (si_isopen _ _ _ _ _ _ I) as Hio.
    split; try (by rewrite Hst'); fold vs'; try done.
    + apply Forall_forall. intros v Hv. rewrite Forall_forall in Hcl. by apply Hcl, Hsub.
    + intros v Hv. destruct Hop as [->| ->]; [by apply Hio|done].
    + unfold F'. case_decide as Hv'; [by rewrite Hv'|done].
    + rewrite Hst'. apply (si_ct _ _ _ _ _ _ I).
    + rewrite Hc2, Hm1, Hf'. done.
    + rewrite Hf'. by left.
  - unfold log_truncate_prefix, sl_log. cbn [lfirst lents]. f_equal. rewrite drop_drop, Heq, entries_app.
    apply head_ok_bounds in Hh. pose proof (zlen_nonneg (entries us)).
    replace (Z.to_nat (sl_first_log_index st - F) + Z.to_nat (k - sl_first_log_index st))%nat with (Z.to_nat (k - F)) by lia.
    unfold F'. case_decide as Hv'.
    + rewrite Hv'. change (entries []) with (@nil LogEntry). rewrite app_nil_r, drop_nil, drop_ge; [done|].
      specialize (Hnone Hv'). unfold zlen in *. lia.
    + apply head_ok_bounds in Hh'.
      rewrite drop_app_ge by (unfold zlen in *; lia). f_equal. unfold zlen in *. lia.
Qed.

Lemma sl_reset_rep st w l n :
  sl_rep (st, w) l → 0 < n →
  ∃ st' w', sl_reset fl st n w = Some ((st', 0), w') ∧ sl_rep (st', w') (log_reset n).
Proof.
  intros (F & im & closed & op & I & Hh & ->) Hn. cbn [fst snd] in *. unfold sl_reset. rewrite decide_False by lia.
  destruct (disk_save_meta w im _ n (si_disk _ _ _ _ _ _ I)) as (w1 & im1 & Hs & D1 & Hm1).
  rewrite (io_bind_eq _ _ _ _ _ Hs). rewrite decide_False by lia.
  assert ((sl_segments st).*2 ++ option_list (sl_open_segment st) = v_seg <$> (closed ++ option_list op)) as ->.
  { rewrite (si_segments _ _ _ _ _ _ I), (si_open _ _ _ _ _ _ I), fmap_app. rewrite <-list_fmap_compose.
    f_equal. by destruct op. }
  rewrite <-(app_nil_r (closed ++ option_list op)) in D1. destruct (disk_unlink_all _ _ _ _ D1) as (w2 & Hu & D2 & Hc2).
  rewrite (io_bind_eq _ _ _ _ _ Hu). eexists _, w2. split; [done|]. exists n, im1, [], None. cbn [fst snd].
  split_and!; [|done|unfold log_reset, sl_log; cbn; by rewrite drop_nil].
  split; try done; cbn -[zlen entries].
  - apply (si_ct _ _ _ _ _ _ I).
  - by rewrite Hc2, Hm1.
  - by left.
  - change (zlen (entries [])) with 0. lia.
Qed.

(** ** Truncating the suffix *)

Definition closed_ok (vs : list SegV) : Prop := Forall (λ v, sg_is_open (v_seg v) = false ∧ v_es v ≠ []) vs.

(** The state after a truncation that keeps entries, and after one that keeps
    none. *)
Lemma suffix_some_rep st w F im closed op w' closed' op' k :
  sl_inv st w F im closed op → head_ok F (sl_first_log_index st) (closed ++ option_list op) →
  sl_first_log_index st ≤ k →
  disk w' im (closed' ++ option_list op') → w_content w' im = w_content w im → closed_ok closed' →
  (∀ v, op' = Some v → sg_is_open (v_seg v) = true) → chain F (closed' ++ option_list op') →
  entries (closed' ++ option_list op') = take (Z.to_nat (k + 1 - F)) (entries (closed ++ option_list op)) →
  k < F + zlen (entries (closed ++ option_list op)) →
  (∀ v, head (closed' ++ option_list op') = Some v → sl_first_log_index st < F + zlen (v_es v)) →
  sl_rep (mkSegmentLog (sl_first_log_index st) k (as_map closed') (v_seg <$> op') (sl_checksum_type st) (sl_enable_sync st), w')
    (log_truncate_suffix (sl_log (sl_first_log_index st) F (closed ++ option_list op)) k).
Proof.
  intros I Hh Hk D Hm Hcl Ho Hch He Hlt Hhd. pose proof (head_ok_bounds _ _ _ Hh) as Hb.
  assert (head_ok F (sl_first_log_index st) (closed' ++ option_list op')) as Hh'.
  { destruct (closed' ++ option_list op') as [|v vs'] eqn:E.
    - change (entries []) with (@nil LogEntry) in He. apply (f_equal zlen) in He. rewrite zlen_nil, zlen_take in He. lia.
    - cbn. specialize (Hhd v eq_refl). lia. }
  exists F, im, closed', op'. cbn [fst snd sl_first_log_index]. split_and!; [|done|].
  - split; cbn [sl_segments sl_open_segment sl_checksum_type sl_first_log_index sl_last_log_index]; try done.
    + apply (si_ct _ _ _ _ _ _ I).
    + rewrite Hm. apply (si_meta _ _ _ _ _ _ I).
    + by left.
    + rewrite He, zlen_take. lia.
  - unfold log_truncate_suffix, sl_log. cbn [lfirst lents]. rewrite decide_False by lia. f_equal.
    rewrite He. rewrite take_drop_commute. do 2 f_equal. lia.
Qed.

Lemma suffix_none_rep st w F im closed op w' k :
  sl_inv st w F im closed op → k = sl_first_log_index st - 1 → disk w' im [] → w_content w' im = w_content w im →
  sl_rep (mkSegmentLog (sl_first_log_index st) k [] None (sl_checksum_type st) (sl_enable_sync st), w')
    (log_truncate_suffix (sl_log (sl_first_log_index st) F (closed ++ option_list op)) k).
Proof.
  intros I -> D Hm. exists (sl_first_log_index st), im, [], None. cbn [fst snd sl_first_log_index]. split_and!; [|done|].
  - split; cbn -[zlen entries]; try done.
    + apply (si_ct _ _ _ _ _ _ I).
    + rewrite Hm. apply (si_meta _ _ _ _ _ _ I).
    + by left.
    + change (zlen (entries [])) with 0. lia.
  - unfold log_truncate_suffix, sl_log. cbn [lfirst lents]. rewrite decide_True by lia. f_equal; [lia|].
    change (entries ([] ++ option_list None)) with (@nil LogEntry). by rewrite drop_nil.
Qed.

(** What the reverse loop pops. *)
Lemma pop_back_split k closed :
  ∃ c1 c2, closed = c1 ++ c2 ∧ pop_back_segments k (reverse (as_map closed)) = v_seg <$> reverse c2 ∧
    Forall (λ v, k < v_first v) c2 ∧ (∀ v, last c1 = Some v → v_first v ≤ k).
Proof.
  induction closed as [|v closed IH] using rev_ind; [by exists [], []|].
  unfold as_map. rewrite fmap_app. cbn [fmap list_fmap]. rewrite reverse_snoc. cbn [pop_back_segments].
  case_decide as Hd.
  - exists (closed ++ [v]), []. split_and!; [by rewrite app_nil_r|done|constructor|]. intros u. rewrite last_snoc. by intros [= <-].
  - destruct IH as (c1 & c2 & -> & Hp & H2 & H1). fold (as_map (c1 ++ c2)). rewrite Hp.
    exists c1, (c2 ++ [v]). split_and!; [by rewrite app_assoc|by rewrite reverse_snoc, fmap_cons| |done].
    apply Forall_app. split; [done|]. apply Forall_singleton. unfold v_first. lia.
Qed.

(** Erasing the popped segments leaves those before them. *)
Lemma erase_popped (c1 : list SegV) (us : list SegV) (m : list SegV) :
  (∀ v, v ∈ c1 → ∀ u, u ∈ us → v_first v ≠ v_first u) → m ⊆ us →
  foldl (λ m s, map_erase (sg_first_index s) m) (as_map (c1 ++ m)) (v_seg <$> us) = as_map c1.
Proof.
  revert m. induction us as [|u us IH]; intros m Hne Hsub; cbn [foldl fmap list_fmap].
  - destruct m as [|x m]; [by rewrite app_nil_r|]. exfalso. specialize (Hsub x ltac:(apply list_elem_of_here)). by inversion Hsub.
  - assert (map_erase (sg_first_index (v_seg u)) (as_map (c1 ++ m)) = as_map (c1 ++ filter (λ v, v_first v ≠ v_first u) m)) as ->.
    { unfold map_erase, as_map. rewrite !fmap_app, filter_app. f_equal.
      - apply list_filter_all. intros p Hp. apply list_elem_of_fmap in Hp as (v & -> & Hv). cbn.
        apply Hne; [done|apply list_elem_of_here].
      - clear. unfold v_first. induction m as [|x m IHm]; [done|]. rewrite fmap_cons, !filter_cons. cbn [fst].
        case_decide; [by rewrite fmap_cons, IHm|done]. }
    apply IH.
    + intros v Hv u' Hu'. apply Hne; [done|]. by apply elem_of_cons; right.
    + intros x Hx. apply list_elem_of_filter in Hx as [Hx1 Hx2]. specialize (Hsub x Hx2).
      apply elem_of_cons in Hsub as [->|?]; [done|done].
Qed.

Lemma pop_from_back_closed st w F im closed op k :
  sl_inv st w F im closed op → (∀ o, op = Some o → k < v_first o) →
  ∃ c1 c2, closed = c1 ++ c2 ∧ Forall (λ v, k < v_first v) (c2 ++ option_list op) ∧
    pop_segments_from_back st k =
      (mkSegmentLog (if decide (c1 = []) then k + 1 else sl_first_log_index st) k (as_map c1) None (sl_checksum_type st) (sl_enable_sync st),
       v_seg <$> (option_list op ++ reverse c2),
       match last c1 with Some c => LastClosed (v_seg c) | None => NoLast end) ∧
    (∀ v, last c1 = Some v → v_first v ≤ k).
Proof.
  intros I Ho. destruct (pop_back_split k closed) as (c1 & c2 & -> & Hp & H2 & H1). exists c1, c2.
  assert (Forall (λ v, k < v_first v) (c2 ++ option_list op)) as H2o.
  { apply Forall_app. split; [done|]. destruct op as [o|]; [|constructor]. apply Forall_singleton. by apply Ho. }
  split_and!; [done|done| |done]. pose proof (si_chain _ _ _ _ _ _ I) as Hch. rewrite <-app_assoc in Hch.
  apply chain_app in Hch as [Hch1 Hch2].
  assert (foldl (λ m s, map_erase (sg_first_index s) m) (as_map (c1 ++ c2)) (v_seg <$> (option_list op ++ reverse c2)) = as_map c1) as Her.
  { apply erase_popped.
    - intros v Hv u Hu Hx. assert (u ∈ c2 ++ option_list op) as Hu'.
      { apply elem_of_app in Hu as [Hu|Hu]; apply elem_of_app; [by right|left]. by rewrite elem_of_reverse in Hu. }
      destruct (chain_bounds _ _ _ Hch2 Hu') as [Hbu _].
      pose proof (si_closed _ _ _ _ _ _ I) as Hcl. apply Forall_app in Hcl as [Hcl _].
      pose proof (closed_first _ _ _ Hch1 Hcl Hv). lia.
    - intros x Hx. apply elem_of_app. right. by rewrite elem_of_reverse. }
  assert (last (as_map c1) = (λ v, (v_first v, v_seg v)) <$> last c1) as Hlast by apply fmap_last.
  unfold pop_segments_from_back. cbn [sl_set_last sl_open_segment]. rewrite (si_open _ _ _ _ _ _ I).
  destruct op as [o|]; cbn [fmap option_fmap option_map].
  - rewrite decide_False by (specialize (Ho o eq_refl); unfold v_first in Ho; lia).
    unfold sl_set_segments, sl_set_open, sl_set_last, sl_set_first. cbn [sl_segments sl_first_log_index sl_last_log_index sl_open_segment sl_checksum_type sl_enable_sync]. rewrite (si_segments _ _ _ _ _ _ I). fold (as_map (c1 ++ c2)). rewrite Hp.
    change (option_list (Some o)) with [o] in Her. cbn [app] in Her |- *. rewrite fmap_cons in Her. rewrite Her, Hlast.
    destruct c1 as [|c c1 _] using rev_ind; [done|]. rewrite last_snoc. cbn [fmap option_fmap option_map].
    rewrite decide_False by (by destruct c1). done.
  - unfold sl_set_segments, sl_set_open, sl_set_last, sl_set_first. cbn [sl_segments sl_first_log_index sl_last_log_index sl_open_segment sl_checksum_type sl_enable_sync]. rewrite (si_segments _ _ _ _ _ _ I). fold (as_map (c1 ++ c2)). rewrite Hp.
    change (option_list None ++ reverse c2) with (reverse c2) in Her. cbn [app]. rewrite Her, Hlast.
    destruct c1 as [|c c1 _] using rev_ind.
    + cbn. rewrite (si_open _ _ _ _ _ _ I). done.
    + rewrite last_snoc. cbn [fmap option_fmap option_map]. rewrite decide_False by (by destruct c1). cbn.
      by rewrite (si_open _ _ _ _ _ _ I).
Qed.

(** When the log starts after [k], only its first segment starts before. *)
Lemma head_only F first vs1 v vs2 k :
  chain F (vs1 ++ v :: vs2) → head_ok F first (vs1 ++ v :: vs2) → v_first v ≤ k → k < first → vs1 = [].
Proof.
  intros Hch Hh Hv Hk. destruct vs1 as [|u vs1]; [done|]. cbn in Hh. apply chain_app in Hch as [Hch1 [Hf _]].
  rewrite entries_cons, zlen_app in Hf. pose proof (zlen_nonneg (entries vs1)). lia.
Qed.

Lemma sl_truncate_suffix_open st w F im closed o k :
  sl_inv st w F im closed (Some o) → head_ok F (sl_first_log_index st) (closed ++ [o]) →
  sl_first_log_index st - 1 ≤ k < sl_last_log_index st → v_first o ≤ k →
  ∃ st' w', sl_truncate_suffix st k w = Some ((st', 0), w') ∧
    sl_rep (st', w') (log_truncate_suffix (sl_log (sl_first_log_index st) F (closed ++ [o])) k).
Proof.
  intros I Hh Hk Ho. pose proof (si_disk _ _ _ _ _ _ I) as D. change (option_list (Some o)) with [o] in D.
  assert (disk w im (o :: closed)) as D0 by (eapply disk_perm; [|exact D]; symmetry; apply Permutation_cons_append).
  pose proof (si_last _ _ _ _ _ _ I) as Hlast. pose proof (si_chain _ _ _ _ _ _ I) as Hch.
  change (option_list (Some o)) with [o] in Hlast, Hch. pose proof Hch as Hch0. apply chain_app in Hch as [Hch1 [Hfo _]].
  rewrite entries_app, entries_one, zlen_app in Hlast. pose proof (v_last _ _ (disk_view _ _ _ _ D0)) as Hvl.
  assert (pop_segments_from_back st k = (sl_set_last st k, [], LastOpen (v_seg o))) as Hpop.
  { unfold pop_segments_from_back. cbn [sl_set_last sl_open_segment]. rewrite (si_open _ _ _ _ _ _ I). cbn [fmap option_fmap option_map].
    by rewrite decide_True by done. }
  unfold sl_truncate_suffix. rewrite Hpop. cbn [sl_first_log_index sl_last_log_index sl_set_last].
  destruct (decide (sl_first_log_index st ≤ k)) as [Hkeep|Hkeep].
  - rewrite bool_decide_eq_true_2 by done. rewrite io_ret_bind. cbn [unlink_until]. rewrite io_ret_bind. cbn [negb truncate_last].
    destruct (disk_truncate w im o closed k D0) as (o' & w' & Ht & D' & Hes & Hf' & Ho' & Hm').
    { eapply Forall_impl; [apply (si_closed _ _ _ _ _ _ I)|]. by intros ? []. }
    { lia. }
    rewrite (io_bind_eq _ _ _ _ _ Ht). eexists _, w'. split; [done|].
    assert (sl_set_open (sl_set_last st k) (Some (v_seg o')) =
      mkSegmentLog (sl_first_log_index st) k (as_map closed) (v_seg <$> Some o') (sl_checksum_type st) (sl_enable_sync st)) as ->.
    { unfold sl_set_open, sl_set_last. cbn. f_equal. apply (si_segments _ _ _ _ _ _ I). }
    apply (suffix_some_rep st w F im closed (Some o)); try done.
    + change (option_list (Some o')) with [o']. eapply disk_perm; [|exact D']. apply Permutation_cons_append.
    + apply (si_closed _ _ _ _ _ _ I).
    + by intros ? [= <-].
    + change (option_list (Some o')) with [o']. apply chain_app. split; [done|]. cbn. rewrite Hf'. done.
    + change (option_list (Some o')) with [o']. change (option_list (Some o)) with [o].
      rewrite !entries_app, !entries_one, Hes, take_app_ge by (unfold zlen in *; lia). f_equal. f_equal. unfold zlen in *. lia.
    + change (option_list (Some o)) with [o]. rewrite entries_app, entries_one, zlen_app. lia.
    + intros v. change (option_list (Some o')) with [o']. destruct closed as [|c closed]; cbn [app head].
      * intros [= <-]. rewrite Hes, zlen_take. cbn in Hh. change (zlen (entries [])) with 0 in *. lia.
      * intros [= <-]. cbn in Hh. lia.
  - rewrite bool_decide_eq_false_2 by done. rewrite io_ret_bind.
    assert (closed = []) as -> by (by eapply head_only with (vs2 := []); [exact Hch0|exact Hh|exact Ho|lia]).
    cbn [app]. destruct (disk_unlink_until w im [o] [] (-1)) as (w' & Hu & D' & Hc'); [done|].
    cbn [fmap list_fmap] in Hu. rewrite (io_bind_eq _ _ _ _ _ Hu). cbn [negb]. rewrite decide_False by done.
    eexists _, w'. split; [done|].
    assert (sl_set_open (sl_set_segments (sl_set_last st k) (map_erase (sg_first_index (v_seg o)) (sl_segments (sl_set_last st k)))) None =
      mkSegmentLog (sl_first_log_index st) k [] None (sl_checksum_type st) (sl_enable_sync st)) as ->.
    { unfold sl_set_open, sl_set_segments, sl_set_last. cbn. rewrite (si_segments _ _ _ _ _ _ I). done. }
    apply (suffix_none_rep st w F im [] (Some o)); [done|lia|done|by rewrite Hc'].
Qed.

Lemma map_erase_last (c1 : list SegV) c :
  (∀ v, v ∈ c1 → v_first v < v_first c) → map_erase (v_first c) (as_map (c1 ++ [c])) = as_map c1.
Proof.
  intros Hlt. unfold map_erase, as_map. rewrite fmap_app, filter_app. cbn [fmap list_fmap].
  rewrite list_filter_all.
  - rewrite filter_cons_False by (intros Hx; by apply Hx). by rewrite filter_nil, app_nil_r.
  - intros p Hp. apply list_elem_of_fmap in Hp as (v & -> & Hv). specialize (Hlt v Hv). cbn. lia.
Qed.

Lemma map_set_last (c1 : list SegV) c :
  (∀ v, v ∈ c1 → v_first v < v_first c) → map_set (v_first c) (v_seg c) (as_map (c1 ++ [c])) = as_map (c1 ++ [c]).
Proof.
  induction c1 as [|v c1 IH]; intros Hlt; unfold as_map; cbn [app fmap list_fmap map_set].
  - rewrite decide_False by lia. by rewrite decide_True.
  - assert (v_first v < v_first c) by (apply Hlt; apply list_elem_of_here).
    rewrite !decide_False by lia. f_equal. apply IH. intros u Hu. apply Hlt. by apply elem_of_cons; right.
Qed.

(** The last segment kept is a closed one. *)
Lemma sl_truncate_suffix_closed st w F im c1 c c2 op k popped :
  let st1 := mkSegmentLog (sl_first_log_index st) k (as_map (c1 ++ [c])) None (sl_checksum_type st) (sl_enable_sync st) in
  sl_inv st w F im ((c1 ++ [c]) ++ c2) op →
  head_ok F (sl_first_log_index st) (((c1 ++ [c]) ++ c2) ++ option_list op) →
  sl_first_log_index st ≤ k < sl_last_log_index st → Forall (λ v, k < v_first v) (c2 ++ option_list op) → v_first c ≤ k →
  popped ≡ₚ c2 ++ option_list op →
  ∃ st' w', ('(ret, all) ← unlink_until (v_seg <$> popped) (-1);
     if negb all then mret (st1, ret) else truncate_last st1 (LastClosed (v_seg c)) k) w = Some ((st', 0), w') ∧
    sl_rep (st', w') (log_truncate_suffix (sl_log (sl_first_log_index st) F (((c1 ++ [c]) ++ c2) ++ option_list op)) k).
Proof.
  intros st1 I Hh Hk H2 Hc Hp. pose proof (si_disk _ _ _ _ _ _ I) as D. rewrite <-app_assoc in D.
  pose proof (si_last _ _ _ _ _ _ I) as Hlast. pose proof (si_chain _ _ _ _ _ _ I) as Hch. rewrite <-app_assoc in Hch, Hlast.
  apply chain_app in Hch as [Hch1 Hch2]. pose proof Hch1 as Hch0. apply chain_app in Hch0 as [Hch0 [Hfc _]].
  pose proof (si_closed _ _ _ _ _ _ I) as Hcl. apply Forall_app in Hcl as [Hcl _]. pose proof Hcl as Hcl1.
  apply Forall_app in Hcl1 as [Hcl1 Hclc]. rewrite Forall_singleton in Hclc.
  assert (∀ v, v ∈ c1 → v_first v < v_first c) as Hlt. { intros v Hv. rewrite Hfc. by apply (closed_first F c1). }
  assert (disk w im (popped ++ (c :: c1))) as D0.
  { eapply disk_perm; [|exact D]. rewrite Hp. rewrite <-(Permutation_cons_append c1 c). apply Permutation_app_comm. }
  destruct (disk_unlink_until _ _ _ _ (-1) D0) as (w1 & Hu & D1 & Hc1). rewrite (io_bind_eq _ _ _ _ _ Hu). cbn [negb].
  pose proof (v_last _ _ (disk_view _ _ _ _ D1)) as Hvl. cbn [truncate_last].
  assert (entries ((c1 ++ [c]) ++ c2 ++ option_list op) = entries c1 ++ v_es c ++ entries (c2 ++ option_list op)) as Hent.
  { by rewrite entries_app, entries_app, entries_one, <-app_assoc. }
  assert (k ≤ sg_last_index (v_seg c)) as Hkc.
  { destruct (c2 ++ option_list op) as [|u us] eqn:E.
    - rewrite Hvl, Hfc. rewrite Hent in Hlast. change (entries []) with (@nil LogEntry) in Hlast. rewrite app_nil_r, zlen_app in Hlast. lia.
    - destruct Hch2 as [Hfu _]. inversion H2; subst. rewrite entries_app, entries_one, zlen_app in Hfu. lia. }
  assert (∀ c', zlen (v_es c') = k + 1 - v_first c → ∀ v, head (c1 ++ [c']) = Some v →
    sl_first_log_index st < F + zlen (v_es v)) as Hhd.
  { intros c' Hc' v Hv. destruct c1; cbn in Hh, Hv; simplify_eq; [|lia]. rewrite Hc', Hfc. change (zlen (entries [])) with 0. lia. }
  assert (k < F + zlen (entries (((c1 ++ [c]) ++ c2) ++ option_list op))) as Hkl by (rewrite <-app_assoc; lia).
  assert (w_content w1 im = w_content w im) as Hm1 by apply Hc1.
  destruct (decide (k < sg_last_index (v_seg c))) as [Hlt2|Hge].
  - destruct (disk_truncate w1 im c c1 k D1) as (c' & w' & Ht & D' & Hes & Hf' & Ho' & Hm').
    { eapply Forall_impl; [exact Hcl1|]. by intros ? []. }
    { lia. }
    rewrite (io_bind_eq _ _ _ _ _ Ht). rewrite decide_True by done. rewrite io_check_bind by done. fold (v_first c'). rewrite Hf'.
    unfold st1, sl_set_open, sl_set_segments.
    cbn [sl_segments sl_first_log_index sl_last_log_index sl_open_segment sl_checksum_type sl_enable_sync].
    rewrite map_erase_last by done. eexists _, w'. split; [done|].
    apply (suffix_some_rep st w F im ((c1 ++ [c]) ++ c2) op w' c1 (Some c')); try done; change (option_list (Some c')) with [c'];
      [lia|eapply disk_perm; [|exact D']; apply Permutation_cons_append|by rewrite Hm'|by intros ? [= <-]|..].
    + apply chain_app. split; [done|]. cbn. by rewrite Hf'.
    + rewrite <-app_assoc, Hent, entries_app, entries_one, Hes.
      rewrite take_app_ge by (unfold zlen in *; lia). rewrite take_app_le by (unfold zlen in *; lia).
      do 2 f_equal. unfold zlen in *. lia.
    + apply Hhd. rewrite Hes, zlen_take. lia.
  - assert (k = sg_last_index (v_seg c)) as Hkeq by lia.
    assert (sg_truncate (v_seg c) k w1 = Some ((v_seg c, 0), w1)) as Ht.
    { unfold sg_truncate. by rewrite decide_True by lia. }
    rewrite (io_bind_eq _ _ _ _ _ Ht). rewrite decide_False by (rewrite (proj1 Hclc); intros [_ ?]; done).
    fold (v_first c). unfold st1, sl_set_segments.
    cbn [sl_segments sl_first_log_index sl_last_log_index sl_open_segment sl_checksum_type sl_enable_sync].
    rewrite map_set_last by done. eexists _, w1. split; [done|].
    apply (suffix_some_rep st w F im ((c1 ++ [c]) ++ c2) op w1 (c1 ++ [c]) None); try done;
      change (option_list None) with (@nil SegV); rewrite ?app_nil_r; try done; [lia| | |].
    + eapply disk_perm; [|exact D1]. apply Permutation_cons_append.
    + rewrite <-app_assoc, Hent, entries_app, entries_one. rewrite app_assoc, take_app_length'; [done|].
      rewrite length_app. unfold zlen in *. lia.
    + apply Hhd. lia.
Qed.

Lemma sl_truncate_suffix_rep st w l k :
  sl_rep (st, w) l → lfirst l - 1 ≤ k < log_last l →
  ∃ st' w', sl_truncate_suffix st k w = Some ((st', 0), w') ∧ sl_rep (st', w') (log_truncate_suffix l k).
Proof.
  intros (F & im & closed & op & I & Hh & ->) Hk. cbn [fst snd] in *. rewrite sl_log_last in Hk by done. cbn [lfirst sl_log] in Hk.
  pose proof (si_last _ _ _ _ _ _ I) as Hlast.
  assert ((∃ o, op = Some o ∧ v_first o ≤ k) ∨ ∀ o, op = Some o → k < v_first o) as [(o & -> & Ho)|Ho].
  { destruct op as [o|]; [|by right]. destruct (decide (v_first o ≤ k)); [left; by exists o|]. right. intros ? [= <-]. lia. }
  { apply sl_truncate_suffix_open with (im := im); [done|done|lia|done]. }
  destruct (pop_from_back_closed _ _ _ _ _ _ k I Ho) as (c1 & c2 & -> & H2 & Hpop & Hl).
  unfold sl_truncate_suffix. rewrite Hpop.
  pose proof (si_chain _ _ _ _ _ _ I) as Hch. pose proof (si_disk _ _ _ _ _ _ I) as D. rewrite <-app_assoc in D, Hch.
  assert (option_list op ++ reverse c2 ≡ₚ c2 ++ option_list op) as Hperm.
  { rewrite (reverse_Permutation c2). apply Permutation_app_comm. }
  destruct c1 as [|c c1 _] using rev_ind.
  - rewrite decide_True by done. change (last (@nil SegV)) with (@None SegV). cbn iota. rewrite io_ret_bind.
    assert (sl_first_log_index st = k + 1) as Hfk.
    { pose proof (head_ok_bounds _ _ _ Hh) as Hb. cbn [app] in *. destruct (c2 ++ option_list op) as [|u us].
      - change (zlen (entries [])) with 0 in *. lia.
      - destruct Hch as [Hfu _]. inversion H2; subst. lia. }
    assert (disk w im ((option_list op ++ reverse c2) ++ [])) as D0.
    { rewrite app_nil_r. eapply disk_perm; [|exact D]. by rewrite Hperm. }
    destruct (disk_unlink_until _ _ _ _ (-1) D0) as (w1 & Hu & D1 & Hc1). rewrite (io_bind_eq _ _ _ _ _ Hu).
    cbn [negb]. rewrite decide_False.
    2:{ intros E. rewrite E in Hperm. apply Permutation_nil_l in Hperm. cbn [app] in Hk, Hh. rewrite <-Hperm in Hk.
        change (zlen (entries [])) with 0 in Hk. pose proof (head_ok_bounds _ _ _ Hh) as Hb. lia. }
    eexists _, w1. split; [done|]. change (as_map []) with (@nil (Z * Segment)). rewrite <-Hfk.
    apply (suffix_none_rep st w F im ([] ++ c2) op); [done|lia|done|by rewrite Hc1].
  - rewrite decide_False by (by destruct c1). rewrite last_snoc. cbn iota. cbn [sl_first_log_index sl_last_log_index].
    assert (v_first c ≤ k) as Hck by (apply Hl; by rewrite last_snoc).
    destruct (decide (sl_first_log_index st ≤ k)) as [Hkeep|Hkeep].
    + rewrite bool_decide_eq_true_2 by done. rewrite io_ret_bind.
      apply sl_truncate_suffix_closed with (im := im); try done. lia.
    + rewrite bool_decide_eq_false_2 by done. erewrite io_bind_eq; [|by rewrite io_check_bind].
      assert (c1 = []) as ->.
      { rewrite <-!app_assoc in Hch. rewrite <-!app_assoc in Hh. eapply head_only; [exact Hch|exact Hh|done|lia]. }
      pose proof (map_erase_last [] c ltac:(intros v Hv; by inversion Hv)) as Her. cbn [app] in *. fold (v_first c).
      unfold sl_set_segments.
      cbn [sl_segments sl_first_log_index sl_last_log_index sl_open_segment sl_checksum_type sl_enable_sync]. rewrite Her.
      assert (disk w im (((option_list op ++ reverse c2) ++ [c]) ++ [])) as D0.
      { rewrite app_nil_r. eapply disk_perm; [|exact D]. rewrite Hperm. apply Permutation_cons_append. }
      destruct (disk_unlink_until _ _ _ _ (-1) D0) as (w1 & Hu & D1 & Hc1). rewrite (fmap_app v_seg) in Hu.
      rewrite (io_bind_eq _ _ _ _ _ Hu). cbn [negb]. rewrite decide_False by (by destruct (option_list op ++ reverse c2)).
      eexists _, w1. split; [done|]. apply (suffix_none_rep st w F im (c :: c2) op); [done|lia|done|by rewrite Hc1].
Qed.
End spec.
