(* ===== verification/SegmentLogRecovery.v ===== *)
(** * Recovery of the segment log

    [SegmentLogStorage::init] on a directory left by a storage of
    SegmentLogSpec.v, possibly after a crash: files that were being removed are
    still there under their temporary name, and the last append was not
    completely written.  The log is recovered as it was, and the configuration
    manager receives its configurations. *)

From Stdlib Require Import Ascii String.
From stdpp Require Import prelude gmap sorting.
From S2P Require Import Prelude StdContainers Configuration ConfigurationManager LogStorage Bytes Text.
From S2P Require Import PeerText FileSystem Protobuf Segment SegmentSpec SegmentLog SegmentLogSpec.
Local Open Scope Z_scope.

(** ** Scanning names *)

Lemma scan_closed_name f l :
  - 10 ^ 19 < f < 10 ^ 20 → - 10 ^ 19 < l < 10 ^ 20 → scan_closed (segment_closed_name f l) = Some (f, l).
Proof.
  intros Hf Hl. unfold scan_closed, segment_closed_name. change (chars "log_"%string) with log_prefix.
  rewrite scan_lit_app. cbn [mbind option_bind]. rewrite scan_print_020 by done. cbn [mbind option_bind].
  rewrite scan_lit_app. cbn [mbind option_bind]. rewrite <-(app_nil_r (print_020 l)), scan_print_020 by done. done.
Qed.

Lemma scan_open_name f : - 10 ^ 19 < f < 10 ^ 20 → scan_open (segment_open_name f) = Some f.
Proof.
  intros Hf. unfold scan_open, segment_open_name. rewrite scan_lit_app. cbn [mbind option_bind].
  rewrite <-(app_nil_r (print_020 f)), scan_print_020 by done. done.
Qed.

Lemma scan_closed_open_name f : scan_closed (segment_open_name f) = None.
Proof. reflexivity. Qed.

Lemma scan_closed_meta : scan_closed segment_meta_file = None.
Proof. reflexivity. Qed.

Lemma scan_open_meta : scan_open segment_meta_file = None.
Proof. reflexivity. Qed.

Lemma is_tmp_last n : is_tmp n = true → last n = Some 112.
Proof.
  unfold is_tmp. intros H%bool_decide_eq_true. rewrite <-(take_drop (length n - 4) n), H.
  change tmp_suffix with ([46; 116; 109] ++ [112]). by rewrite app_assoc, last_snoc.
Qed.

Lemma print_020_last x : ∃ d, last (print_020 x) = Some d ∧ digit d.
Proof.
  unfold print_020. case_decide.
  - change (fixed_digits 19 (- x)) with (fixed_digits 18 (- x / 10) ++ [ch_zero + - x mod 10]).
    rewrite app_comm_cons, last_snoc. eexists. split; [done|]. apply digit_of.
  - change (fixed_digits 20 x) with (fixed_digits 19 (x / 10) ++ [ch_zero + x mod 10]).
    rewrite last_snoc. eexists. split; [done|]. apply digit_of.
Qed.

Lemma last_app_some {A} (l k : list A) x : last k = Some x → last (l ++ k) = Some x.
Proof. intros Hk. apply last_Some in Hk as [k' ->]. by rewrite app_assoc, last_snoc. Qed.

Lemma file_name_not_tmp s : is_tmp (sg_file_name s) = false.
Proof.
  apply not_true_is_false. intros H%is_tmp_last. unfold sg_file_name, segment_open_name, segment_closed_name in H.
  destruct (sg_is_open s).
  - destruct (print_020_last (sg_first_index s)) as (d & Hd & Hdig). rewrite (last_app_some _ _ _ Hd) in H.
    apply digit_iff in Hdig. simplify_eq. lia.
  - destruct (print_020_last (sg_last_index s)) as (d & Hd & Hdig).
    rewrite (last_app_some _ _ d), digit_iff in *; [simplify_eq; lia|]. by apply last_app_some, last_app_some.
Qed.

Lemma meta_not_tmp : is_tmp segment_meta_file = false.
Proof. reflexivity. Qed.

Section recovery.
Context {PB : PbCodec} {PBL : PbCodecLaws} (fl : SyncFlags).
Hypothesis Hmax : 0 ≤ raft_max_segment_size fl.

(** ** The directory before [init] *)

(** A segment as [list_segments] creates it, before it is loaded. *)
Definition unloaded (ct : Z) (open : bool) (v : SegV) : Prop :=
  v_seg v = (if open then new_open_segment (v_first v) ct
             else new_closed_segment (v_first v) (v_first v + zlen (v_es v) - 1) ct).

(** What the file of a segment holds. *)
Definition image_ok (v : SegV) : Prop :=
  Forall2 is_chunk (v_es v) (v_cs v) ∧ Forall entry_ok (v_es v) ∧ contiguous (v_first v) (v_es v) ∧ index_ok (v_first v).

Record on_disk (w : World) (ct im first F : Z) (closed : list SegV) (op : option SegV) (t : list Z)
    (tmps : list (list Z * Z)) : Prop := {
  od_quiet : quiet w;
  od_dir : w_dir w ≡ₚ (segment_meta_file, im) :: (v_entry <$> closed ++ option_list op) ++ tmps;
  od_names : NoDup (w_dir w).*1;
  od_inos : NoDup (w_dir w).*2;
  od_fresh : Forall (λ e, e.2 < w_next w) (w_dir w);
  od_tmps : Forall (λ e, is_tmp e.1 = true) tmps;
  od_closed : Forall (λ v, unloaded ct false v ∧ w_content w (v_ino v) = concat (v_cs v) ∧ v_es v ≠ []) closed;
  od_open : ∀ v, op = Some v → unloaded ct true v ∧ w_content w (v_ino v) = concat (v_cs v) ++ t;
  od_torn : torn_tail t;
  od_images : Forall image_ok (closed ++ option_list op);
  od_chain : chain F (closed ++ option_list op);
  od_ct : checksum_ok ct;
  od_meta : w_content w im = meta_bytes first;
  od_first : - 2 ^ 63 ≤ first < 2 ^ 63;
  od_head : head_open F first (closed ++ option_list op);
}.

(** ** Listing *)

Inductive Kind := KMeta (i : Z) | KTmp (e : list Z * Z) | KClosed (v : SegV) | KOpen (v : SegV).

Definition kind_entry (k : Kind) : list Z * Z :=
  match k with KMeta i => (segment_meta_file, i) | KTmp e => e | KClosed v => v_entry v | KOpen v => v_entry v end.
Definition kind_tmp (k : Kind) : option (list Z * Z) := match k with KTmp e => Some e | _ => None end.
Definition kind_closed (k : Kind) : option SegV := match k with KClosed v => Some v | _ => None end.
Definition kind_open (k : Kind) : option SegV := match k with KOpen v => Some v | _ => None end.

Definition kind_ok (ct : Z) (k : Kind) : Prop :=
  match k with
  | KMeta _ => True
  | KTmp e => is_tmp e.1 = true
  | KClosed v => unloaded ct false v ∧ index_ok (v_first v) ∧ index_ok (v_first v + zlen (v_es v) - 1)
  | KOpen v => unloaded ct true v ∧ index_ok (v_first v)
  end.

Definition set_all (m : list (Z * Segment)) (vs : list SegV) : list (Z * Segment) :=
  foldl (λ m v, map_set (v_first v) (v_seg v) m) m vs.

(** The loop over the directory, whatever its order. *)
Lemma list_dir_run ks st w K :
  Forall (kind_ok (sl_checksum_type st)) ks → quiet w → NoDup (w_dir w).*1 → w_dir w ≡ₚ omap kind_tmp ks ++ K →
  (length (omap kind_open ks) ≤ 1)%nat → (omap kind_open ks ≠ [] → sl_open_segment st = None) →
  ∃ d, list_dir st false (kind_entry <$> ks).*1 w =
    Some ((sl_set_open (sl_set_segments st (set_all (sl_segments st) (omap kind_closed ks)))
             (match omap kind_open ks with [] => sl_open_segment st | v :: _ => Some (v_seg v) end), true), set_dir w d) ∧
    NoDup d.*1 ∧ d ≡ₚ K.
Proof.
  revert st w. induction ks as [|k ks IH]; intros st w Hok Hq Hnd Hp Hle Ho.
  { exists (w_dir w). cbn. split_and!; [|done|done]. by destruct st, w. }
  inversion Hok as [|? ? Hk Hok']; subst. rewrite fmap_cons. cbn [list_dir fmap list_fmap fst].
  destruct k as [i|[n i]|v|v]; cbn [kind_entry fst] in *; cbn [omap list_omap kind_tmp kind_closed kind_open] in *.
  - rewrite meta_not_tmp. cbn [andb orb]. rewrite scan_closed_meta, scan_open_meta. by apply IH.
  - cbn [kind_ok fst] in Hk. rewrite Hk. rewrite orb_true_r.
    destruct (sys_unlink_quiet w n i (omap kind_tmp ks ++ K) Hq Hnd Hp) as (d & Hu & Hd & Hnd').
    rewrite (io_bind_eq _ _ _ _ _ Hu). destruct (IH st (set_dir w d)) as (d' & Hl & Hnd'' & Hd'); try done.
    by exists d'.
  - destruct Hk as (Hun & Hr1 & Hr2). pose proof (file_name_not_tmp (v_seg v)) as Ht. unfold v_entry. cbn [fst]. rewrite Ht. cbn [andb orb].
    assert (sg_file_name (v_seg v) = segment_closed_name (v_first v) (v_first v + zlen (v_es v) - 1)) as -> by (by rewrite Hun).
    rewrite scan_closed_name by (unfold index_ok in *; lia). rewrite <-Hun.
    destruct (IH (sl_set_segments st (map_set (v_first v) (v_seg v) (sl_segments st))) w) as (d & Hl & Hnd' & Hd); try done.
    by exists d.
  - destruct Hk as (Hun & Hr1). pose proof (file_name_not_tmp (v_seg v)) as Ht. unfold v_entry. cbn [fst]. rewrite Ht. cbn [andb orb].
    assert (sg_file_name (v_seg v) = segment_open_name (v_first v)) as -> by (by rewrite Hun).
    rewrite scan_closed_open_name, scan_open_name by (unfold index_ok in *; lia). rewrite Ho by done. rewrite <-Hun.
    destruct (omap kind_open ks) as [|v' vs'] eqn:Eo; [|cbn in Hle; lia].
    destruct (IH (sl_set_open st (Some (v_seg v))) w) as (d & Hl & Hnd' & Hd); try done; [cbn; lia|].
    exists d. split_and!; [|done|done]. rewrite Hl. done.
Qed.

(** Assigning distinct keys in any order gives the sorted map. *)
Definition key_lt (p q : Z * Segment) : Prop := p.1 < q.1.

Lemma map_set_perm k (s : Segment) m : k ∉ m.*1 → map_set k s m ≡ₚ (k, s) :: m.
Proof.
  induction m as [|[k' s'] m IH]; intros Hn; [done|]. rewrite fmap_cons, not_elem_of_cons in Hn. destruct Hn as [Hne Hn].
  cbn [map_set]. case_decide; [done|]. cbn in Hne. rewrite decide_False by done. rewrite IH by done. apply Permutation_swap.
Qed.

Lemma set_all_perm vs m :
  NoDup (v_first <$> vs) → (∀ v, v ∈ vs → v_first v ∉ m.*1) → set_all m vs ≡ₚ m ++ as_map vs.
Proof.
  revert m. induction vs as [|v vs IH]; intros m Hnd Hn; [by rewrite app_nil_r|]. rewrite fmap_cons in Hnd.
  apply NoDup_cons in Hnd as [Hv Hnd]. unfold set_all in *. cbn [foldl].
  pose proof (map_set_perm (v_first v) (v_seg v) m (Hn v ltac:(apply list_elem_of_here))) as Hp.
  rewrite IH; [|done|].
  - rewrite Hp. unfold as_map. rewrite fmap_cons. cbn [app]. by rewrite Permutation_middle.
  - intros u Hu. rewrite Hp, fmap_cons, not_elem_of_cons. split.
    + intros E. apply Hv. cbn in E. rewrite <-E. apply list_elem_of_fmap. by exists u.
    + apply Hn. by apply elem_of_cons; right.
Qed.

Lemma set_all_sorted vs m : map_wf m → map_wf (set_all m vs).
Proof. revert m. induction vs as [|v vs IH]; intros m Hm; [done|]. unfold set_all in *. cbn [foldl]. by apply IH, map_set_wf. Qed.

#[local] Instance key_lt_antisymm : AntiSymm (=) key_lt.
Proof. intros x y Hxy Hyx. unfold key_lt in *. lia. Qed.

Lemma map_wf_key_lt m : map_wf m → StronglySorted key_lt m.
Proof.
  unfold map_wf. induction m as [|p m IH]; intros Hs; [constructor|]. rewrite fmap_cons in Hs.
  apply StronglySorted_cons in Hs as [Ha Hs]. apply StronglySorted_cons. split; [|by apply IH].
  by rewrite Forall_fmap in Ha.
Qed.

Lemma sorted_keys_unique (m1 m2 : list (Z * Segment)) : map_wf m1 → map_wf m2 → m1 ≡ₚ m2 → m1 = m2.
Proof. intros H1 H2 Hp. apply (StronglySorted_unique key_lt); [by apply map_wf_key_lt..|done]. Qed.

(** The closed segments in order of their first index. *)
Lemma chain_sorted F closed : chain F closed → Forall (λ v, v_es v ≠ []) closed → map_wf (as_map closed).
Proof.
  unfold map_wf, as_map. rewrite <-list_fmap_compose. revert F. induction closed as [|v closed IH]; intros F Hc Hne; [constructor|].
  destruct Hc as [Hf Hc]. inversion Hne as [|? ? Hv Hne']; subst. rewrite fmap_cons. apply StronglySorted_cons. split; [|by eapply IH].
  apply Forall_fmap, Forall_forall. intros u Hu. cbn. destruct (chain_bounds _ _ _ Hc Hu) as [Hb _].
  assert (0 < zlen (v_es v)) by (unfold zlen; destruct (v_es v); [done|cbn; lia]). lia.
Qed.

Lemma map_wf_nodup (m : list (Z * Segment)) : map_wf m → NoDup m.*1.
Proof.
  unfold map_wf. intros Hs. induction Hs as [|k ks Hs IH Ha]; constructor; [|done].
  intros Hin. rewrite Forall_forall in Ha. specialize (Ha k Hin). lia.
Qed.

Lemma set_all_closed F closed vs :
  chain F closed → Forall (λ v, v_es v ≠ []) closed → vs ≡ₚ closed → set_all [] vs = as_map closed.
Proof.
  intros Hc Hne Hp. pose proof (chain_sorted _ _ Hc Hne) as Hs. apply sorted_keys_unique; [by apply set_all_sorted; constructor|done|].
  rewrite set_all_perm; [|rewrite Hp; pose proof (map_wf_nodup _ Hs) as Hn; unfold as_map in Hn; by rewrite <-list_fmap_compose in Hn|].
  - cbn [app]. unfold as_map. by rewrite Hp.
  - intros v _ Hin. by inversion Hin.
Qed.

(** Every closed segment passes the check. *)
Lemma unloaded_last ct v : unloaded ct false v → sg_last_index (v_seg v) = v_first v + zlen (v_es v) - 1.
Proof. unfold unloaded. intros E. by rewrite E. Qed.

Lemma zlen_pos {A} (l : list A) : l ≠ [] → 0 < zlen l.
Proof. intros Hl. unfold zlen. destruct l; [done|cbn; lia]. Qed.

Lemma check_segments_tail first F ct closed w :
  chain F closed → Forall (λ v, unloaded ct false v ∧ v_es v ≠ []) closed → 0 < F →
  check_segments first (as_map closed) (F - 1) w = Some ((as_map closed, F + zlen (entries closed) - 1, true), w).
Proof.
  revert F. induction closed as [|v closed IH]; intros F Hc Hu HF.
  { change (zlen (entries [])) with 0. by rewrite Z.add_0_r. }
  destruct Hc as [Hf Hc]. inversion Hu as [|? ? [Hv Hne] Hu']; subst. unfold as_map. rewrite fmap_cons. fold (as_map closed).
  pose proof (zlen_pos _ Hne). pose proof (unloaded_last _ _ Hv) as Hl. cbn [check_segments].
  change (sg_first_index (v_seg v)) with (v_first v). rewrite Hl.
  rewrite !decide_False by lia.
  replace (v_first v + zlen (v_es v) - 1) with (v_first v + zlen (v_es v) - 1) by lia.
  erewrite io_bind_eq; [|apply IH; [done|done|lia]]. rewrite entries_cons, zlen_app, Z.add_assoc. done.
Qed.

Lemma check_segments_all first F ct closed op w :
  chain F closed → Forall (λ v, unloaded ct false v ∧ v_es v ≠ []) closed → 0 ≤ F → head_open F first (closed ++ option_list op) →
  ∃ last, check_segments first (as_map closed) (-1) w = Some ((as_map closed, last, true), w) ∧
    last ≤ F + zlen (entries closed) - 1.
Proof.
  intros Hc Hu HF Hh. destruct closed as [|v closed].
  { exists (-1). split; [done|]. change (zlen (entries [])) with 0. lia. }
  destruct Hc as [Hf Hc]. inversion Hu as [|? ? [Hv Hne] Hu']; subst. unfold as_map. rewrite fmap_cons. fold (as_map closed).
  pose proof (zlen_pos _ Hne). pose proof (unloaded_last _ _ Hv) as Hl. cbn [check_segments].
  change (sg_first_index (v_seg v)) with (v_first v). rewrite Hl.
  assert (v_first v ≤ first < v_first v + zlen (v_es v)) as Hr.
  { destruct Hh as [Hh|(v0 & Hv0 & He & _)]; [done|]. destruct closed, op; cbn in Hv0; simplify_eq. }
  rewrite !decide_False by lia.
  erewrite io_bind_eq; [|apply (check_segments_tail first (v_first v + zlen (v_es v)) ct); [done|done|lia]].
  eexists. split; [done|]. rewrite entries_cons, zlen_app. lia.
Qed.

Definition kinds (im : Z) (closed : list SegV) (op : option SegV) (tmps : list (list Z * Z)) : list Kind :=
  KMeta im :: (KClosed <$> closed) ++ (KOpen <$> option_list op) ++ (KTmp <$> tmps).

Lemma omap_none {A B} (f : A → option B) (l : list A) : (∀ x, x ∈ l → f x = None) → omap f l = [].
Proof.
  induction l as [|x l IH]; intros H; [done|]. cbn [omap list_omap]. rewrite (H x) by apply list_elem_of_here.
  apply IH. intros y Hy. apply H. by apply elem_of_cons; right.
Qed.

Lemma omap_some {A B} (g : B → A) (f : A → option B) (l : list B) : (∀ x, f (g x) = Some x) → omap f (g <$> l) = l.
Proof. intros H. induction l as [|x l IH]; [done|]. rewrite fmap_cons. cbn [omap list_omap]. rewrite H. f_equal. apply IH. Qed.

Lemma kinds_parts im closed op tmps :
  omap kind_tmp (kinds im closed op tmps) = tmps ∧ omap kind_closed (kinds im closed op tmps) = closed ∧
  omap kind_open (kinds im closed op tmps) = option_list op.
Proof.
  assert (∀ {A B C} (g : B → A) (f : A → option C) (l : list B), (∀ x, f (g x) = None) → omap f (g <$> l) = []) as Hn.
  { intros A B C g f l H. apply omap_none. intros x Hx. by apply list_elem_of_fmap in Hx as (y & -> & _). }
  unfold kinds. split_and!; cbn [omap list_omap kind_tmp kind_closed kind_open]; rewrite !omap_app.
  - rewrite (Hn _ _ _ KClosed), (Hn _ _ _ KOpen) by done. by rewrite (omap_some KTmp).
  - rewrite (omap_some KClosed), (Hn _ _ _ KOpen), (Hn _ _ _ KTmp) by done. by rewrite app_nil_r.
  - rewrite (omap_some KOpen), (Hn _ _ _ KClosed), (Hn _ _ _ KTmp) by done. by rewrite app_nil_r.
Qed.

Lemma kinds_entries im closed op tmps :
  kind_entry <$> kinds im closed op tmps = (segment_meta_file, im) :: (v_entry <$> closed ++ option_list op) ++ tmps.
Proof.
  unfold kinds. rewrite fmap_cons, !fmap_app, <-!list_fmap_compose. cbn [kind_entry]. rewrite <-app_assoc. do 3 f_equal.
  induction tmps as [|e tmps IH]; [done|]. rewrite fmap_cons, IH. done.
Qed.

Lemma image_index_ok v : image_ok v → v_es v ≠ [] → index_ok (v_first v + zlen (v_es v) - 1).
Proof.
  intros (_ & Hok & Hc & _) Hne. destruct (v_es v) as [|e es _] using rev_ind; [done|].
  apply contiguous_app in Hc as [_ [Hi _]%contiguous_cons]. apply Forall_app in Hok as [_ Hok]. rewrite Forall_singleton in Hok.
  destruct Hok as ([_ Hr] & _). rewrite zlen_app. change (zlen [e]) with 1. unfold index_ok. lia.
Qed.

Lemma on_disk_kinds w ct im first F closed op t tmps :
  on_disk w ct im first F closed op t tmps → Forall (kind_ok ct) (kinds im closed op tmps).
Proof.
  intros O. unfold kinds. pose proof (od_images _ _ _ _ _ _ _ _ _ O) as Hi. apply Forall_app in Hi as [Hic Hio].
  constructor; [done|]. rewrite !Forall_app, !Forall_fmap. split_and!.
  - pose proof (od_closed _ _ _ _ _ _ _ _ _ O) as Hc. rewrite Forall_forall in *. intros v Hv. cbn.
    destruct (Hc v Hv) as (Hu & _ & Hne). specialize (Hic v Hv). split_and!; [done|apply Hic|by apply image_index_ok].
  - destruct op as [o|]; [|constructor]. apply Forall_singleton. cbn. destruct (od_open _ _ _ _ _ _ _ _ _ O o eq_refl) as [Hu _].
    change (option_list (Some o)) with [o] in Hio. rewrite Forall_singleton in Hio. split; [done|apply Hio].
  - eapply Forall_impl; [apply (od_tmps _ _ _ _ _ _ _ _ _ O)|]. done.
Qed.

Lemma on_disk_first w ct im first F closed op t tmps :
  on_disk w ct im first F closed op t tmps → closed ++ option_list op ≠ [] → 0 ≤ F.
Proof.
  intros O Hne. pose proof (od_images _ _ _ _ _ _ _ _ _ O) as Hi. pose proof (od_chain _ _ _ _ _ _ _ _ _ O) as Hc.
  destruct (closed ++ option_list op) as [|v vs]; [done|]. destruct Hc as [Hf _]. inversion Hi as [|? ? Hv _]; subst.
  destruct Hv as (_ & _ & _ & Hr). unfold index_ok in Hr. lia.
Qed.

Lemma list_segments_run w ct im first F closed op t tmps st :
  on_disk w ct im first F closed op t tmps → sl_segments st = [] → sl_open_segment st = None →
  sl_checksum_type st = ct → sl_first_log_index st = first →
  ∃ w', list_segments st false w = Some ((sl_set_open (sl_set_segments st (as_map closed)) (v_seg <$> op), 0), w') ∧
    on_disk w' ct im first F closed op t [].
Proof.
  intros O Hs Ho Hct Hf. pose proof (od_dir _ _ _ _ _ _ _ _ _ O) as Hd. rewrite <-kinds_entries in Hd.
  apply Permutation_map_inv in Hd as (ks & Hks & Hp). change (map kind_entry ks) with (kind_entry <$> ks) in Hks.
  destruct (kinds_parts im closed op tmps) as (Htmp & Hcl & Hop). pose proof (on_disk_kinds _ _ _ _ _ _ _ _ _ O) as Hok.
  rewrite Hp in Hok. subst ct.
  assert (omap kind_open ks ≡ₚ option_list op) as Hop' by (by rewrite <-Hop, Hp).
  assert (omap kind_open ks = option_list op) as Hop''.
  { destruct op as [o|]; cbn in Hop' |- *; [by apply Permutation_singleton_r in Hop'|by apply Permutation_nil_r in Hop']. }
  set (K := (segment_meta_file, im) :: (v_entry <$> closed ++ option_list op)).
  destruct (list_dir_run ks st w K Hok (od_quiet _ _ _ _ _ _ _ _ _ O) (od_names _ _ _ _ _ _ _ _ _ O)) as (d & Hl & Hnd & Hdk).
  { assert (omap kind_tmp ks ≡ₚ tmps) as -> by (by rewrite <-Htmp, Hp). rewrite (od_dir _ _ _ _ _ _ _ _ _ O). unfold K.
    cbn [app]. rewrite (Permutation_app_comm tmps). done. }
  { rewrite Hop''. destruct op; cbn; lia. }
  { done. }
  pose proof (od_closed _ _ _ _ _ _ _ _ _ O) as Hc. pose proof (od_chain _ _ _ _ _ _ _ _ _ O) as Hch.
  apply chain_app in Hch as [Hch1 Hch2].
  assert (set_all [] (omap kind_closed ks) = as_map closed) as Hall.
  { apply (set_all_closed F); [done|eapply Forall_impl; [exact Hc|]; by intros ? (_ & _ & ?)|by rewrite <-Hcl, Hp]. }
  unfold list_segments, next_read. rewrite (proj1 (od_quiet _ _ _ _ _ _ _ _ _ O)). rewrite Hks.
  rewrite (io_bind_eq _ _ _ _ _ Hl). cbn [negb]. rewrite Hop'', Hs, Ho, Hall.
  assert (match option_list op with [] => None | v :: _ => Some (v_seg v) end = v_seg <$> op) as -> by (by destruct op).
  unfold sl_set_open, sl_set_segments.
  cbn [sl_segments sl_first_log_index sl_last_log_index sl_open_segment sl_checksum_type sl_enable_sync].
  exists (set_dir w d).
  assert (on_disk (set_dir w d) (sl_checksum_type st) im first F closed op t []) as O'.
  { destruct O. split; try done.
    - by rewrite app_nil_r.
    - rewrite od_dir0, fmap_cons, fmap_app, app_comm_cons in od_inos0. cbn [w_dir set_dir]. rewrite Hdk. unfold K.
      rewrite fmap_cons. by apply NoDup_app in od_inos0 as (? & _).
    - rewrite od_dir0, app_comm_cons in od_fresh0. cbn [w_dir set_dir]. rewrite Hdk. by apply Forall_app in od_fresh0 as [? _]. }
  assert (∃ last, check_segments first (as_map closed) (-1) (set_dir w d) = Some ((as_map closed, last, true), set_dir w d) ∧
    (op ≠ None → last ≤ F + zlen (entries closed) - 1)) as (last & Hchk & Hlast).
  { destruct (decide (closed ++ option_list op = [])) as [E|E].
    - apply app_eq_nil in E as [-> E]. exists (-1). split; [done|]. by destruct op.
    - destruct (check_segments_all first F (sl_checksum_type st) closed op (set_dir w d)) as (last & ? & ?);
        [done|eapply Forall_impl; [exact Hc|]; by intros ? (? & _ & ?)|by eapply on_disk_first|apply (od_head _ _ _ _ _ _ _ _ _ O)|].
      by exists last. }
  subst first. rewrite (io_bind_eq _ _ _ _ _ Hchk). cbn [negb]. destruct op as [o|]; cbn [fmap option_fmap option_map].
  - destruct (od_open _ _ _ _ _ _ _ _ _ O o eq_refl) as [Hu _]. destruct Hch2 as [Hf2 _].
    rewrite io_check_bind; [done|]. rewrite Hu. unfold new_open_segment. cbn [sg_last_index]. specialize (Hlast ltac:(done)). lia.
  - done.
Qed.

(** ** Loading *)

(** The configurations among the entries, which [load] adds to the manager. *)
Definition conf_of_entry (e : LogEntry) : option ConfigurationEntry :=
  if decide (type e = ENTRY_TYPE_CONFIGURATION) then ce_of_entry e else None.

Lemma load_confs_entries es cm i :
  contiguous i es → Forall entry_ok es → (∀ b, last (_configurations cm) = Some b → ce_index b < i) →
  load_confs cm es = Some (mkCM (_configurations cm ++ omap conf_of_entry es) (_snapshot cm)).
Proof.
  revert cm i. induction es as [|e es IH]; intros cm i Hc Hok Hb.
  { cbn. rewrite app_nil_r. by destruct cm. }
  apply contiguous_cons in Hc as [Hi Hc]. inversion Hok as [|? ? He Hok']; subst. cbn [load_confs omap list_omap].
  unfold conf_of_entry at 1. case_decide as Hty.
  - destruct (ce_of_entry e) as [ce|] eqn:Ece.
    2:{ unfold ce_of_entry in Ece. destruct He as (_ & Hf & _). unfold entry_fields_ok in Hf. rewrite Hty in Hf.
        destruct Hf as (_ & (ps & Hps & _) & _). by rewrite Hps in Ece. }
    assert (ce_index ce = index (id e)) as Hidx.
    { unfold ce_of_entry in Ece. destruct (peers e); [|done]. by injection Ece as <-. }
    cbn [mbind option_bind]. assert (cm_add cm ce = Some (mkCM (_configurations cm ++ [ce]) (_snapshot cm))) as ->.
    { unfold cm_add. destruct (last _) as [b|] eqn:Eb; [|done]. specialize (Hb b eq_refl).
      apply CHECK_bind_Some. split; [lia|done]. }
    cbn [mbind option_bind]. erewrite IH; [|done|done|].
    + cbn [_configurations _snapshot]. by rewrite <-app_assoc.
    + cbn [_configurations]. intros b. rewrite last_snoc. intros [= <-]. lia.
  - eapply IH; [done..|]. intros b Eb. specialize (Hb b Eb). lia.
Qed.

Lemma load_confs_app cm es es' :
  load_confs cm (es ++ es') = cm' ← load_confs cm es; load_confs cm' es'.
Proof.
  revert cm. induction es as [|e es IH]; intros cm; [done|]. cbn [load_confs app]. case_decide; [|apply IH].
  destruct (ce_of_entry e) as [ce|]; [|done]. cbn [mbind option_bind]. destruct (cm_add cm ce) as [cm'|]; [|done]. apply IH.
Qed.

(** A segment after its [load]. *)
Definition loaded (w : World) (v v' : SegV) : Prop :=
  v_es v' = v_es v ∧ v_entry v' = v_entry v ∧ v_first v' = v_first v ∧
  sg_is_open (v_seg v') = sg_is_open (v_seg v) ∧ v_ok w v'.

Definition last_loaded (vs : list SegV) (dflt : Z) : Z :=
  match last vs with Some v => v_first v + zlen (v_es v) - 1 | None => dflt end.

Lemma load_unloaded w ct open v t cm cm' :
  quiet w → NoDup (w_dir w).*1 → v_entry v ∈ w_dir w → unloaded ct open v → w_content w (v_ino v) = concat (v_cs v) ++ t →
  torn_tail t → image_ok v → checksum_ok ct → load_confs cm (v_es v) = Some cm' →
  ∃ v' w', sg_load (v_seg v) cm w = Some ((v_seg v', cm', 0), w') ∧ loaded w' v v' ∧
    (w' = w ∨ w' = put_file w (v_ino v) (concat (v_cs v))) ∧ (t = [] → w' = w).
Proof.
  intros Hq Hnd Hin Hu Hc Ht (Hch & Hok & Hct & Hr) Hck Hcm. apply elem_of_Permutation in Hin as [l Hl].
  destruct (sg_load_view w (v_seg v) (v_es v) (v_cs v) t cm cm' (v_ino v) l) as (s' & w' & Hload & V & Hw & Hw0 & Ho & Hf); try done.
  - rewrite Hu. by destruct open.
  - rewrite Hu. by destruct open.
  - rewrite Hu. by destruct open.
  - exists (mkV s' (v_es v) (v_cs v) (v_ino v)), w'. split; [done|]. split; [|done].
    split_and!; try done.
    + unfold v_entry, sg_file_name. cbn [v_seg v_ino]. rewrite Ho, (sv_last _ _ _ _ _ V), Hf. unfold unloaded in Hu. destruct open; rewrite Hu; unfold new_open_segment, new_closed_segment; cbn [sg_is_open sg_first_index sg_last_index];
        reflexivity.
    + split; [done|]. unfold v_first in *. cbn. by rewrite Hf.
Qed.

Lemma load_closed_run w ct cl cm cm' dflt :
  quiet w → NoDup (w_dir w).*1 → checksum_ok ct → (∀ v, v ∈ cl → v_entry v ∈ w_dir w) →
  Forall (λ v, unloaded ct false v ∧ w_content w (v_ino v) = concat (v_cs v)) cl → Forall image_ok cl →
  load_confs cm (entries cl) = Some cm' →
  ∃ cl', load_closed (as_map cl) cm dflt w = Some ((as_map cl', cm', last_loaded cl dflt, 0), w) ∧ Forall2 (loaded w) cl cl'.
Proof.
  intros Hq Hnd Hck. revert cm dflt. induction cl as [|v cl IH]; intros cm dflt Hin Hu Hi Hcm.
  { cbn in Hcm. apply (inj Some) in Hcm as ->. exists []. split; [done|constructor]. }
  inversion Hu as [|? ? [Hv Hvc] Hu']; subst. inversion Hi as [|? ? Hvi Hi']; subst.
  rewrite entries_cons, load_confs_app in Hcm. destruct (load_confs cm (v_es v)) as [cm1|] eqn:E1; [|done]. cbn in Hcm.
  destruct (load_unloaded w ct false v [] cm cm1) as (v' & w' & Hl & Hld & _ & Hw); try done.
  { apply Hin, list_elem_of_here. }
  { by rewrite app_nil_r. }
  { by left. }
  specialize (Hw eq_refl). subst w'. unfold as_map. rewrite fmap_cons. fold (as_map cl). cbn [load_closed].
  rewrite (io_bind_eq _ _ _ _ _ Hl). rewrite decide_False by lia.
  destruct (IH cm1 (sg_last_index (v_seg v'))) as (cl' & Hcl & Hld'); try done.
  { intros u Hu1. apply Hin, elem_of_cons. by right. }
  exists (v' :: cl'). split; [|by constructor]. rewrite (io_bind_eq _ _ _ _ _ Hcl). destruct Hld as (Hes & _ & Hf & _ & Hok).
  assert (last_loaded cl (sg_last_index (v_seg v')) = last_loaded (v :: cl) dflt) as ->.
  { unfold last_loaded. rewrite last_cons. destruct (last cl); [done|]. by rewrite (v_last _ _ Hok), Hes, Hf. }
  unfold as_map. by rewrite fmap_cons, Hf.
Qed.

Lemma loaded_chain w vs vs' : Forall2 (loaded w) vs vs' →
  v_entry <$> vs' = v_entry <$> vs ∧ v_es <$> vs' = v_es <$> vs ∧ v_first <$> vs' = v_first <$> vs.
Proof.
  induction 1 as [|v v' vs vs' (Hes & He & Hf & _) _ (IH1 & IH2 & IH3)]; [done|]. rewrite !fmap_cons, He, Hes, Hf. by rewrite IH1, IH2, IH3.
Qed.

Lemma chain_ext F vs vs' : v_es <$> vs' = v_es <$> vs → v_first <$> vs' = v_first <$> vs → chain F vs → chain F vs'.
Proof.
  revert F vs'. induction vs as [|v vs IH]; intros F [|v' vs'] He Hf; [done..|]. cbn in He, Hf.
  injection He as He1 He2. injection Hf as Hf1 Hf2. intros [Hv Hc]. split; [congruence|]. rewrite He1. by apply IH.
Qed.

Lemma head_open_ext F first vs vs' : v_es <$> vs' = v_es <$> vs → head_open F first vs → head_open F first vs'.
Proof.
  intros He [Hh|(v & -> & Hv & ->)].
  - left. destruct vs, vs'; [done..|]. cbn in He. injection He as He _. cbn in *. by rewrite He.
  - right. destruct vs' as [|v' [|]]; try done. exists v'. injection He as He. by rewrite He.
Qed.

(** A storage whose segments have been loaded satisfies the invariant. *)
Lemma loaded_inv w ct im first F closed op t closed' op' st w' :
  on_disk w ct im first F closed op t [] → Forall2 (loaded w') closed closed' → option_Forall2 (loaded w') op op' →
  quiet w' → w_dir w' = w_dir w → w_next w' = w_next w → w_content w' im = w_content w im →
  sl_segments st = as_map closed' → sl_open_segment st = v_seg <$> op' → sl_checksum_type st = ct →
  sl_first_log_index st = first → sl_last_log_index st = F + zlen (entries (closed ++ option_list op)) - 1 →
  sl_inv st w' F im closed' op'.
Proof.
  intros O Hcl Hop Hq Hd Hn Hm Hs Ho Hct Hf Hl.
  assert (Forall2 (loaded w') (closed ++ option_list op) (closed' ++ option_list op')) as Hall.
  { apply Forall2_app; [done|]. destruct Hop; [|constructor]. by constructor. }
  destruct (loaded_chain _ _ _ Hall) as (He & Hes & Hfs). destruct O. rewrite app_nil_r in od_dir0. split; try done.
  - split; rewrite ?Hd, ?Hn, ?He; try done. clear -Hall. induction Hall as [|v v' ? ? Hv]; constructor; [apply Hv|done].
  - clear -Hcl od_closed0. induction Hcl as [|v v' ? ? (Hes & _ & _ & Hop & _) _ IH]; [constructor|].
    inversion od_closed0 as [|? ? (Hu & _ & Hne) ?]; subst. constructor; [|by apply IH]. rewrite Hes, Hop. split; [|done]. by rewrite Hu.
  - intros v' ->. inversion Hop as [v ? (_ & _ & _ & Hop' & _)|]; subst. rewrite Hop'.
    destruct (od_open0 v eq_refl) as [Hu _]. by rewrite Hu.
  - by eapply chain_ext.
  - by rewrite Hct.
  - by rewrite Hm, Hf.
  - rewrite Hf. by eapply head_open_ext.
  - rewrite Hl. unfold entries. by rewrite Hes.
Qed.

Lemma last_loaded_entries F cl dflt : chain F cl → cl ≠ [] → last_loaded cl dflt = F + zlen (entries cl) - 1.
Proof.
  intros Hc Hne. unfold last_loaded. destruct cl as [|v cl _] using rev_ind; [done|]. rewrite last_snoc.
  apply chain_app in Hc as [_ [Hf _]]. rewrite entries_app, entries_one, zlen_app. lia.
Qed.

Lemma loaded_entries w vs vs' : Forall2 (loaded w) vs vs' → entries vs' = entries vs.
Proof. intros (_ & He & _)%loaded_chain. unfold entries. by rewrite He. Qed.

(** The representation of a storage that has loaded its segments. *)
Lemma loaded_rep w ct im first F closed op t closed' op' st w' :
  on_disk w ct im first F closed op t [] → Forall2 (loaded w') closed closed' → option_Forall2 (loaded w') op op' →
  quiet w' → w_dir w' = w_dir w → w_next w' = w_next w → w_content w' im = w_content w im →
  sl_segments st = as_map closed' → sl_open_segment st = v_seg <$> op' → sl_checksum_type st = ct →
  sl_first_log_index st = first → sl_last_log_index st = F + zlen (entries (closed ++ option_list op)) - 1 →
  head_ok F first (closed ++ option_list op) →
  sl_rep (st, w') (sl_log first F (closed ++ option_list op)).
Proof.
  intros O Hcl Hop Hq Hd Hn Hm Hs Ho Hct Hf Hl Hh. exists F, im, closed', op'. cbn [fst snd].
  assert (Forall2 (loaded w') (closed ++ option_list op) (closed' ++ option_list op')) as Hall.
  { apply Forall2_app; [done|]. destruct Hop; [|constructor]. by constructor. }
  destruct (loaded_chain _ _ _ Hall) as (_ & Hes & _). split_and!.
  - by eapply loaded_inv.
  - rewrite Hf. destruct (closed ++ option_list op), (closed' ++ option_list op'); try done. cbn in Hes. injection Hes as Hv _.
    cbn in *. by rewrite Hv.
  - rewrite Hf. unfold sl_log, entries. by rewrite Hes.
Qed.

Lemma loaded_content w w' v v' :
  w_content w' (v_ino v') = w_content w (v_ino v') → loaded w v v' → loaded w' v v'.
Proof.
  intros Hc (? & ? & ? & ? & [V Hr]). split_and!; try done. split; [|done]. by eapply sg_view_content.
Qed.

Lemma loaded_ino w v v' : loaded w v v' → v_ino v' = v_ino v.
Proof. intros (_ & He & _). by injection He. Qed.

(** Rewriting the open segment's file leaves the loaded closed ones. *)
Lemma loaded_put w im closed closed' o c :
  NoDup (w_dir w).*2 → w_dir w ≡ₚ (segment_meta_file, im) :: (v_entry <$> closed ++ [o]) →
  Forall2 (loaded w) closed closed' → Forall2 (loaded (put_file w (v_ino o) c)) closed closed' ∧ v_ino o ≠ im.
Proof.
  intros Hn Hd Hcl. rewrite Hd, fmap_cons, fmap_app, fmap_app in Hn. cbn [fmap list_fmap] in Hn. apply NoDup_cons in Hn as [Him Hn].
  split.
  - apply NoDup_app in Hn as (_ & Hn & _).
    assert (∀ v, v ∈ closed → v_ino v ≠ v_ino o) as Hne.
    { intros v Hv E. eapply Hn; [|apply list_elem_of_here]. cbn. rewrite <-E, <-list_fmap_compose. apply list_elem_of_fmap. by exists v. }
    clear -Hcl Hne. induction Hcl as [|v v' cl cl' Hv Hcl IH]; constructor.
    + eapply loaded_content; [|done]. rewrite (loaded_ino _ _ _ Hv). apply put_file_content_ne, not_eq_sym, Hne, list_elem_of_here.
    + apply IH. intros u Hu. apply Hne, elem_of_cons. by right.
  - intros E. apply Him. cbn. apply elem_of_app. right. rewrite E. apply list_elem_of_here.
Qed.

Lemma head_open_cases F first closed o :
  chain F (closed ++ [o]) → head_open F first (closed ++ [o]) →
  (head_ok F first (closed ++ [o]) ∧ first ≤ v_first o + zlen (v_es o) - 1) ∨
  (closed = [] ∧ v_es o = [] ∧ F = first ∧ first > v_first o + zlen (v_es o) - 1).
Proof.
  intros Hc [Hh|(v & Hv & He & HF)].
  - left. split; [done|]. pose proof (zlen_nonneg (v_es o)). destruct closed as [|v cl].
    + destruct Hc as [-> _]. cbn in Hh. lia.
    + cbn [app] in Hh, Hc. cbn [head_ok] in Hh. rewrite app_comm_cons in Hc. apply chain_app in Hc as [_ [Hf _]].
      rewrite entries_cons, zlen_app in Hf. pose proof (zlen_nonneg (entries cl)). lia.
  - right. destruct closed as [|v0 [|]]; [|done..]. cbn in Hv. injection Hv as ->. destruct Hc as [Hf _].
    rewrite He, zlen_nil. split_and!; try done. lia.
Qed.

Lemma on_disk_unloaded w ct im first F closed op t :
  on_disk w ct im first F closed op t [] →
  Forall (λ v, unloaded ct false v ∧ w_content w (v_ino v) = concat (v_cs v)) closed ∧
  (∀ v, v ∈ closed ++ option_list op → v_entry v ∈ w_dir w).
Proof.
  intros O. split.
  - eapply Forall_impl; [apply (od_closed _ _ _ _ _ _ _ _ _ O)|]. by intros ? (? & ? & _).
  - intros v Hv. rewrite (od_dir _ _ _ _ _ _ _ _ _ O), app_nil_r. apply elem_of_cons. right. apply list_elem_of_fmap. by exists v.
Qed.

Definition after_listing (st : SegmentLogStorage) (ct first : Z) (closed : list SegV) (op : option SegV) : Prop :=
  sl_segments st = as_map closed ∧ sl_open_segment st = v_seg <$> op ∧ sl_checksum_type st = ct ∧
  sl_first_log_index st = first ∧ sl_last_log_index st = 0.

Lemma load_segments_none w ct im first F closed t st cm cm' :
  on_disk w ct im first F closed None t [] → 0 < first → after_listing st ct first closed None →
  load_confs cm (entries closed) = Some cm' →
  ∃ st', load_segments st cm w = Some ((st', cm', 0), w) ∧ sl_rep (st', w) (sl_log first F closed).
Proof.
  intros O Hpos (Hs & Ho & Hct & Hf & Hl) Hcm. destruct (on_disk_unloaded _ _ _ _ _ _ _ _ O) as [Hu Hin].
  pose proof (od_images _ _ _ _ _ _ _ _ _ O) as Hi. pose proof (od_chain _ _ _ _ _ _ _ _ _ O) as Hch.
  pose proof (od_head _ _ _ _ _ _ _ _ _ O) as Hh. cbn in Hin, Hi, Hch, Hh. rewrite app_nil_r in *.
  destruct (load_closed_run w ct closed cm cm' (sl_last_log_index st)) as (cl' & Hcl & Hld); try done; [apply O..|].
  unfold load_segments. rewrite Hs. rewrite (io_bind_eq _ _ _ _ _ Hcl). rewrite decide_False by lia.
  unfold sl_set_segments, sl_set_last. cbn [sl_open_segment sl_segments sl_first_log_index sl_last_log_index sl_checksum_type sl_enable_sync].
  rewrite Ho. cbn [fmap option_fmap option_map]. rewrite io_ret_bind. rewrite decide_False by lia.
  cbn [sl_last_log_index]. eexists. split; [done|].
  assert (head_ok F first closed) as Hh'.
  { destruct Hh as [?|(v & -> & He & _)]; [done|]. pose proof (od_closed _ _ _ _ _ _ _ _ _ O) as Hc.
    rewrite Forall_singleton in Hc. by destruct Hc as (_ & _ & Hne). }
  rewrite <-(app_nil_r closed) at 3.
  eapply (loaded_rep w ct im first F closed None t cl' None); try done; try apply O; try (by case_decide); [constructor| |by cbn; rewrite app_nil_r].
  cbn [option_list]. rewrite app_nil_r. case_decide as Hd; cbn [sl_last_log_index sl_first_log_index].
  - destruct closed as [|v closed]; [cbn in Hh'; change (zlen (entries [])) with 0; lia|].
    rewrite (last_loaded_entries F) in Hd by done. pose proof (head_ok_bounds _ _ _ Hh').
    destruct Hh' as [? ?]. rewrite entries_cons, zlen_app in *. pose proof (zlen_nonneg (entries closed)). lia.
  - destruct closed as [|v closed]; [done|]. by apply last_loaded_entries.
Qed.

(** What loading the open segment changes of the world. *)
Lemma load_open_run w ct im first F closed closed' o t cm cm' :
  on_disk w ct im first F closed (Some o) t [] → Forall2 (loaded w) closed closed' → load_confs cm (v_es o) = Some cm' →
  ∃ o' w', sg_load (v_seg o) cm w = Some ((v_seg o', cm', 0), w') ∧ loaded w' o o' ∧ Forall2 (loaded w') closed closed' ∧
    quiet w' ∧ w_dir w' = w_dir w ∧ w_next w' = w_next w ∧ w_content w' im = w_content w im.
Proof.
  intros O Hcl Hcm. destruct (on_disk_unloaded _ _ _ _ _ _ _ _ O) as [_ Hin].
  destruct (od_open _ _ _ _ _ _ _ _ _ O o eq_refl) as [Huo Hco]. pose proof (od_images _ _ _ _ _ _ _ _ _ O) as Hi.
  apply Forall_app in Hi as [_ Hio]. change (option_list (Some o)) with [o] in *. rewrite Forall_singleton in Hio.
  destruct (load_unloaded w ct true o t cm cm') as (o' & w' & Hl & Hld & Hw & _); try done; try apply O.
  { apply Hin, elem_of_app. right. apply list_elem_of_here. }
  pose proof (od_dir _ _ _ _ _ _ _ _ _ O) as Hd. rewrite app_nil_r in Hd.
  destruct (loaded_put w im closed closed' o (concat (v_cs o)) (od_inos _ _ _ _ _ _ _ _ _ O) Hd Hcl) as [Hcl' Hne].
  exists o', w'. destruct Hw as [->| ->].
  - split_and!; try done. apply O.
  - split_and!; try done; [apply O|]. by apply put_file_content_ne.
Qed.

Lemma load_segments_some w ct im first F closed o t st cm cm' :
  on_disk w ct im first F closed (Some o) t [] → 0 < first → after_listing st ct first closed (Some o) →
  load_confs cm (entries (closed ++ [o])) = Some cm' →
  ∃ st' w', load_segments st cm w = Some ((st', cm', 0), w') ∧ sl_rep (st', w') (sl_log first F (closed ++ [o])).
Proof.
  intros O Hpos (Hs & Ho & Hct & Hf & Hl) Hcm. destruct (on_disk_unloaded _ _ _ _ _ _ _ _ O) as [Hu Hin].
  pose proof (od_images _ _ _ _ _ _ _ _ _ O) as Hi. pose proof (od_chain _ _ _ _ _ _ _ _ _ O) as Hch.
  rewrite entries_app, entries_one, load_confs_app in Hcm.
  destruct (load_confs cm (entries closed)) as [cm1|] eqn:E1; [|done]. cbn [mbind option_bind] in Hcm.
  destruct (load_closed_run w ct closed cm cm1 (sl_last_log_index st)) as (cl' & Hcl & Hld); try done; try apply O.
  { intros v Hv. apply Hin, elem_of_app. by left. }
  { by apply Forall_app in Hi as [? _]. }
  destruct (load_open_run w ct im first F closed cl' o t cm1 cm' O Hld Hcm) as (o' & w' & Hlo & Hldo & Hld' & Hq & Hd & Hn & Hm).
  unfold load_segments. rewrite Hs. rewrite (io_bind_eq _ _ _ _ _ Hcl). rewrite decide_False by lia.
  unfold sl_set_segments, sl_set_last. cbn [sl_open_segment sl_segments sl_first_log_index sl_last_log_index sl_checksum_type sl_enable_sync].
  rewrite Ho. cbn [fmap option_fmap option_map]. pose proof Hldo as (Hes & _ & Hfo & _ & Hvo).
  assert (sg_last_index (v_seg o') = v_first o + zlen (v_es o) - 1) as Hlast by (by rewrite (v_last _ _ Hvo), Hes, Hfo).
  pose proof (od_head _ _ _ _ _ _ _ _ _ O) as Hh. change (option_list (Some o)) with [o] in *.
  destruct (head_open_cases _ _ _ _ Hch Hh) as [[Hh' Hle]|(-> & He & -> & Hgt)].
  - erewrite io_bind_eq; [|rewrite (io_bind_eq _ _ _ _ _ Hlo); rewrite decide_False by lia; cbn [sl_set_open sl_first_log_index];
      rewrite Hlast, Hf, decide_False by lia; done].
    cbn [sl_set_last sl_last_log_index]. rewrite decide_False by lia. rewrite (decide_False (P := _ = 0)) by lia.
    eexists _, w'. split; [done|]. eapply (loaded_rep w ct im first F closed (Some o) t cl' (Some o')); try done; [by constructor|].
    cbn. apply chain_app in Hch as [_ [Hfc _]]. rewrite entries_app, entries_one, zlen_app. lia.
  - inversion Hld'; subst cl'.
    assert (sl_inv (mkSegmentLog first (first - 1) [] (Some (v_seg o')) ct true) w' first im [] (Some o')) as I.
    { eapply (loaded_inv w ct im first first [] (Some o) t); try done; [by constructor|].
      change (option_list (Some o)) with [o]. rewrite app_nil_l, entries_one, He, zlen_nil. cbn. lia. }
    destruct (disk_unlink _ _ _ _ (si_disk _ _ _ _ _ _ I)) as (w2 & Hun & D2 & Hc2).
    erewrite io_bind_eq; [|rewrite (io_bind_eq _ _ _ _ _ Hlo); rewrite decide_False by lia; cbn [sl_set_open sl_first_log_index];
      rewrite Hlast, Hf, decide_True by lia; rewrite (io_bind_eq _ _ _ _ _ Hun); done].
    cbv beta iota. rewrite decide_False by lia. cbn [sl_set_open sl_last_log_index sl_first_log_index sl_segments sl_checksum_type sl_enable_sync].
    change (last_loaded [] (sl_last_log_index st)) with (sl_last_log_index st). rewrite decide_True by lia.
    eexists _, w2. split; [done|]. exists first, im, [], None. cbn [fst snd sl_set_last sl_first_log_index]. split_and!.
    + split; try done; cbn -[entries]; [rewrite Hct; apply O|rewrite Hc2, Hm; apply O|by left; cbn; lia|].
      change (zlen (entries [])) with 0. lia.
    + cbn. lia.
    + unfold sl_log. f_equal. rewrite !app_nil_l, entries_one, He. done.
Qed.

(** ** [init] *)

Lemma load_meta_run w im first l st :
  quiet w → NoDup (w_dir w).*1 → w_dir w ≡ₚ (segment_meta_file, im) :: l → w_content w im = meta_bytes first →
  - 2 ^ 63 ≤ first < 2 ^ 63 → load_meta st w = Some ((sl_set_first st first, 0), w).
Proof.
  intros Hq Hnd Hp Hc Hr. destruct (pb_meta_roundtrip first Hr) as (_ & Hlen & Hrt). unfold load_meta.
  rewrite (io_bind_eq _ _ _ _ _ (pb_file_load_quiet w segment_meta_file im l _ Hq Hnd Hp Hc Hlen)). by rewrite Hrt.
Qed.

Lemma entries_image_ok F vs : chain F vs → Forall image_ok vs → contiguous F (entries vs) ∧ Forall entry_ok (entries vs).
Proof.
  revert F. induction vs as [|v vs IH]; intros F Hc Hi; [split; [apply contiguous_nil|constructor]|]. destruct Hc as [Hf Hc].
  inversion Hi as [|? ? (_ & Hok & Hct & _) Hi']; subst. destruct (IH _ Hc Hi') as [IH1 IH2]. rewrite entries_cons. split.
  - by apply contiguous_app.
  - by apply Forall_app.
Qed.

(** The log a directory holds, and the configurations in it. *)
Lemma sl_init_run w im first F closed op t tmps (fast enable_sync : bool) :
  on_disk w (if fast then CHECKSUM_CRC32 else CHECKSUM_MURMURHASH32) im first F closed op t tmps → 0 < first →
  ∃ st' w', sl_init fl fast (sl_new enable_sync) cm_new w =
      Some ((st', mkCM (omap conf_of_entry (entries (closed ++ option_list op))) (_snapshot cm_new), 0), w') ∧
    sl_rep (st', w') (sl_log first F (closed ++ option_list op)).
Proof.
  set (ct := if fast then CHECKSUM_CRC32 else CHECKSUM_MURMURHASH32). intros O Hpos. unfold sl_init. rewrite io_check_bind by done.
  assert (create_directory w = Some (true, w)) as Hcd.
  { unfold create_directory, next_write. by rewrite (proj2 (od_quiet _ _ _ _ _ _ _ _ _ O)). }
  rewrite (io_bind_eq _ _ _ _ _ Hcd). cbn [negb]. fold ct. set (st0 := sl_set_checksum (sl_new enable_sync) ct).
  rewrite (io_bind_eq _ _ _ _ _ (load_meta_run w im first _ st0 (od_quiet _ _ _ _ _ _ _ _ _ O) (od_names _ _ _ _ _ _ _ _ _ O)
    (od_dir _ _ _ _ _ _ _ _ _ O) (od_meta _ _ _ _ _ _ _ _ _ O) (od_first _ _ _ _ _ _ _ _ _ O))).
  assert (get_errno w = Some (w_errno w, w)) as He by done. rewrite (io_bind_eq _ _ _ _ _ He).
  rewrite bool_decide_eq_false_2 by lia. rewrite decide_False by lia.
  destruct (list_segments_run w ct im first F closed op t tmps (sl_set_first st0 first) O eq_refl eq_refl eq_refl eq_refl)
    as (w1 & Hls & O1).
  rewrite (io_bind_eq _ _ _ _ _ Hls). rewrite decide_False by lia.
  destruct (entries_image_ok _ _ (od_chain _ _ _ _ _ _ _ _ _ O1) (od_images _ _ _ _ _ _ _ _ _ O1)) as [Hcont Hok].
  pose proof (load_confs_entries _ cm_new _ Hcont Hok ltac:(done)) as Hcm.
  assert (after_listing (sl_set_open (sl_set_segments (sl_set_first st0 first) (as_map closed)) (v_seg <$> op)) ct first closed op)
    as Hal by done.
  destruct op as [o|].
  - destruct (load_segments_some w1 ct im first F closed o t _ cm_new _ O1 Hpos Hal Hcm) as (st' & w' & Hload & Hrep).
    exists st', w'. split; [|done]. by rewrite (io_bind_eq _ _ _ _ _ Hload).
  - destruct (load_segments_none w1 ct im first F closed t _ cm_new
      (mkCM (omap conf_of_entry (entries (closed ++ []))) (_snapshot cm_new)) O1 Hpos Hal) as (st' & Hload & Hrep).
    { cbn in Hcm |- *. by rewrite app_nil_r in *. }
    exists st', w1. split; [|by cbn; rewrite app_nil_r]. by rewrite (io_bind_eq _ _ _ _ _ Hload).
Qed.
End recovery.
