(* ===== verification/SegmentLogRun.v ===== *)
(** * Runs of the segment log with crashes

    Whole histories of a [SegmentLogStorage]: [init] on an empty directory,
    then appends, truncations and resets, with crashes in between that cut an
    append anywhere and leave temporary files behind, each followed by [init]
    on what is found on disk.  After every such history the storage answers as
    the abstract log does. *)

From Stdlib Require Import Ascii String.
From stdpp Require Import prelude gmap sorting.
From S2P Require Import Prelude StdContainers Configuration ConfigurationManager LogStorage MemoryLog Bytes.
From S2P Require Import Text PeerText FileSystem Protobuf Segment SegmentSpec SegmentLog SegmentLogSpec.
From S2P Require Import SegmentLogRecovery.
Local Open Scope Z_scope.

Section run.
Context {PB : PbCodec} {PBL : PbCodecLaws} (fl : SyncFlags).
Hypothesis Hmax : 0 ≤ raft_max_segment_size fl.

(** ** Crashes *)

(** The bytes [append] writes for an entry. *)
Definition chunk (ct : Z) (e : LogEntry) : list Z :=
  match entry_data e with
  | Some (Some d) => default [] (pack_header ct e d) ++ d
  | _ => []
  end.

(** Files created under names of their own. *)
Fixpoint add_files (fs : list (list Z * list Z)) (w : World) : World :=
  match fs with
  | [] => w
  | (name, content) :: fs' =>
      add_files fs' (mkWorld (<[w_next w := content]> (w_files w)) (w_dir w ++ [(name, w_next w)]) (w_next w + 1)
                       (w_errno w) (w_reads w) (w_writes w))
  end.

(** The directory after a crash in the [write] of [append]: [n] bytes of the
    entry reached the open segment, and files that were about to be renamed or
    removed are still there. *)
Definition crash_world (st : SegmentLogStorage) (w : World) (e : LogEntry) (n : nat) (fs : list (list Z * list Z)) : World :=
  add_files fs
    (match sl_open_segment st with
     | Some s =>
         match sg_fd s with
         | Some ino => put_file w ino (w_content w ino ++ take n (chunk (sg_checksum_type s) e))
         | None => w
         end
     | None => w
     end).

Definition crash_ok (e : LogEntry) (n : nat) (fs : list (list Z * list Z)) : Prop :=
  entry_ok e ∧ (∃ d, entry_data e = Some (Some d) ∧ (n < 24 + List.length d)%nat) ∧
  Forall (λ f, is_tmp f.1 = true) fs ∧ NoDup fs.*1.

Lemma chunk_is_chunk ct e : checksum_ok ct → entry_ok e → is_chunk e (chunk ct e).
Proof.
  intros Hct He. pose proof He as (_ & _ & d & Hd & _). destruct (pack_header_ok ct e d Hct He Hd) as (h & cks & hck & Hh & _).
  unfold chunk. rewrite Hd, Hh. exists ct, d, h. by split_and!.
Qed.

Lemma chunk_torn ct e n fs : checksum_ok ct → crash_ok e n fs → torn_tail (take n (chunk ct e)).
Proof.
  intros Hct (He & (d & Hd & Hn) & _). right. exists e, (chunk ct e), (drop n (chunk ct e)).
  split_and!; [done|by apply chunk_is_chunk|by rewrite take_drop|]. intros E. apply (f_equal List.length) in E.
  destruct (pack_header_ok ct e d Hct He Hd) as (h & cks & hck & Hh & Hl & _). unfold chunk in E. rewrite Hd, Hh in E.
  rewrite length_drop, length_app in E. cbn in E. lia.
Qed.

(** What [add_files] leaves. *)
Lemma add_files_spec fs w :
  NoDup (w_dir w).*2 → NoDup ((w_dir w).*1 ++ fs.*1) → Forall (λ e, e.2 < w_next w) (w_dir w) →
  ∃ tmps, w_dir (add_files fs w) = w_dir w ++ tmps ∧ tmps.*1 = fs.*1 ∧
    NoDup (w_dir (add_files fs w)).*2 ∧ NoDup (w_dir (add_files fs w)).*1 ∧
    Forall (λ e, e.2 < w_next (add_files fs w)) (w_dir (add_files fs w)) ∧
    (∀ i, i < w_next w → w_content (add_files fs w) i = w_content w i) ∧
    w_reads (add_files fs w) = w_reads w ∧ w_writes (add_files fs w) = w_writes w.
Proof.
  revert w. induction fs as [|[name c] fs IH]; intros w Hi Hn Hf.
  { exists []. cbn [add_files]. rewrite !app_nil_r in *. split_and!; try done. }
  cbn [add_files]. set (w1 := mkWorld _ _ _ _ _ _). destruct (IH w1) as (tmps & Hd & Ht & Hi' & Hn' & Hf' & Hc & Hr & Hw).
  - unfold w1. cbn [w_dir]. rewrite fmap_app. apply NoDup_app. split_and!; [done| |apply NoDup_singleton].
    intros i Hin Hin'. apply list_elem_of_singleton in Hin'. cbn in Hin'. subst i.
    apply list_elem_of_fmap in Hin as (e & He & Hin). rewrite Forall_forall in Hf. specialize (Hf e Hin). lia.
  - unfold w1. cbn [w_dir]. rewrite fmap_app, <-app_assoc. done.
  - unfold w1. cbn [w_dir w_next]. apply Forall_app. split; [|repeat constructor; cbn; lia].
    eapply Forall_impl; [exact Hf|]. cbn. lia.
  - exists ((name, w_next w) :: tmps). split_and!; try done.
    + rewrite Hd. unfold w1. cbn [w_dir]. by rewrite <-app_assoc.
    + cbn. by rewrite Ht.
    + intros i Hlt. rewrite Hc by (unfold w1; cbn; lia). unfold w_content, w1. cbn. rewrite lookup_insert_ne; [done|lia].
Qed.

(** The segments of a running storage as the next [init] lists them. *)
Definition relisted (ct : Z) (v : SegV) : SegV :=
  mkV (if sg_is_open (v_seg v) then new_open_segment (v_first v) ct
       else new_closed_segment (v_first v) (v_first v + zlen (v_es v) - 1) ct) (v_es v) (v_cs v) (v_ino v).

Lemma relisted_same ct v w : v_ok w v →
  v_first (relisted ct v) = v_first v ∧ v_entry (relisted ct v) = v_entry v ∧ image_ok (relisted ct v).
Proof.
  intros Hv. pose proof (v_last _ _ Hv) as Hl. destruct Hv as [V Hr].
  assert (v_first (relisted ct v) = v_first v) as Hf.
  { unfold relisted, v_first at 1. cbn [v_seg]. by destruct (sg_is_open (v_seg v)). }
  split_and!; [done| |].
  - unfold v_entry, sg_file_name, relisted. cbn [v_seg v_ino]. rewrite Hl. by destruct (sg_is_open (v_seg v)).
  - unfold image_ok. rewrite Hf. split_and!; try done; apply V.
Qed.

Lemma relisted_chain ct w vs F first :
  Forall (v_ok w) vs → chain F vs → head_open F first vs →
  chain F (relisted ct <$> vs) ∧ head_open F first (relisted ct <$> vs) ∧ entries (relisted ct <$> vs) = entries vs ∧
  v_entry <$> (relisted ct <$> vs) = v_entry <$> vs ∧ Forall image_ok (relisted ct <$> vs).
Proof.
  intros Hv Hc Hh.
  assert (v_es <$> (relisted ct <$> vs) = v_es <$> vs) as He by (rewrite <-list_fmap_compose; done).
  assert (v_first <$> (relisted ct <$> vs) = v_first <$> vs ∧ v_entry <$> (relisted ct <$> vs) = v_entry <$> vs ∧
    Forall image_ok (relisted ct <$> vs)) as (Hf & Hn & Hi).
  { clear -Hv PBL. induction Hv as [|v vs Hv Hvs (IH1 & IH2 & IH3)]; [done|]. destruct (relisted_same ct v w Hv) as (Hf & Hn & Hi).
    rewrite !fmap_cons, Hf, Hn. split_and!; [by rewrite IH1|by rewrite IH2|by constructor]. }
  split_and!; try done; [by eapply chain_ext|by eapply head_open_ext|unfold entries; by rewrite He].
Qed.

Lemma disk_not_tmp w im vs : disk w im vs → Forall (λ n, is_tmp n = false) (w_dir w).*1.
Proof.
  intros D. rewrite (dk_dir _ _ _ D), fmap_cons. constructor; [apply meta_not_tmp|]. apply Forall_fmap, Forall_fmap, Forall_forall.
  intros v _. apply file_name_not_tmp.
Qed.

Lemma crash_names (d fs : list (list Z)) :
  NoDup d → Forall (λ n, is_tmp n = false) d → NoDup fs → Forall (λ n, is_tmp n = true) fs → NoDup (d ++ fs).
Proof.
  intros Hd Hdt Hf Hft. apply NoDup_app. split_and!; try done. intros n H1 H2. rewrite Forall_forall in Hdt, Hft.
  specialize (Hdt n H1). by rewrite (Hft n H2) in Hdt.
Qed.

(** A crash of a running storage leaves a directory [init] can read. *)
Lemma crash_on_disk st w F im closed op e n fs ct :
  sl_inv st w F im closed op → crash_ok e n fs → checksum_ok ct → - 2 ^ 63 ≤ sl_first_log_index st < 2 ^ 63 →
  ∃ t tmps, on_disk (crash_world st w e n fs) ct im (sl_first_log_index st) F (relisted ct <$> closed) (relisted ct <$> op) t tmps.
Proof.
  intros I Hok Hct Hr. pose proof (si_disk _ _ _ _ _ _ I) as D. pose proof (dk_views _ _ _ D) as Hv. pose proof Hok as (He & _ & Ht & Hnd).
  destruct (relisted_chain ct w _ F _ Hv (si_chain _ _ _ _ _ _ I) (si_head _ _ _ _ _ _ I)) as (Hc' & Hh' & _ & Hn' & Hi').
  assert (relisted ct <$> closed ++ option_list op = (relisted ct <$> closed) ++ option_list (relisted ct <$> op)) as Happ.
  { rewrite fmap_app. by destruct op. }
  rewrite Happ in Hc', Hh', Hn', Hi'.
  set (t := match op with Some v => take n (chunk (sg_checksum_type (v_seg v)) e) | None => [] end).
  set (w1 := match op with Some v => put_file w (v_ino v) (concat (v_cs v) ++ t) | None => w end).
  assert (crash_world st w e n fs = add_files fs w1) as ->.
  { unfold crash_world, w1, t. rewrite (si_open _ _ _ _ _ _ I). destruct op as [v|]; [|done]. cbn [fmap option_fmap option_map].
    apply Forall_app in Hv as [_ Hv]. change (option_list (Some v)) with [v] in Hv. rewrite Forall_singleton in Hv. destruct Hv as [V _].
    by rewrite (sv_fd _ _ _ _ _ V), (sv_content _ _ _ _ _ V). }
  assert (w_dir w1 = w_dir w ∧ w_next w1 = w_next w ∧ quiet w1) as (Hd1 & Hx1 & Hq1).
  { unfold w1. destruct op; split_and!; try done; apply D. }
  destruct (add_files_spec fs w1) as (tmps & Hd & Htm & Hi & Hns & Hf & Hc & Hrd & Hwr); rewrite ?Hd1, ?Hx1; try apply D.
  { apply crash_names; [apply D|by eapply disk_not_tmp|done|by apply Forall_fmap]. }
  exists t, tmps. rewrite Hd1 in Hd. rewrite Hx1 in Hc. destruct (disk_inos_im _ _ _ D) as (Him & Himx & Hlt).
  split; try done.
  - unfold quiet. rewrite Hrd, Hwr. apply Hq1.
  - rewrite Hd, (dk_dir _ _ _ D), <-Hn'. done.
  - assert (Forall (λ x, is_tmp x = true) tmps.*1) as H by (rewrite Htm; by apply Forall_fmap). by rewrite Forall_fmap in H.
  - apply Forall_fmap. apply Forall_app in Hv as [Hv _]. apply Forall_app in Hlt as [Hlt _].
    pose proof (si_closed _ _ _ _ _ _ I) as Hcl. rewrite Forall_forall in *. intros v Hin. cbn. destruct (Hcl v Hin) as [Hop Hne].
    destruct (Hv v Hin) as [V Hr']. destruct (relisted_same ct v w (Hv v Hin)) as (Hfv & _). split_and!; [|rewrite (Hc _ (Hlt v Hin))|done].
    + unfold unloaded. rewrite Hfv. unfold relisted at 1. by rewrite Hop.
    + rewrite <-(sv_content _ _ _ _ _ V). unfold w1. destruct op as [o|]; [|done].
      apply put_file_content_ne. assert (disk w im (o :: closed)) as D0.
      { eapply disk_perm; [|exact D]. symmetry. apply Permutation_cons_append. }
      destruct (disk_inos_cons _ _ _ _ D0) as (_ & Hne' & _). rewrite Forall_forall in Hne'. apply not_eq_sym, (Hne' v Hin).
  - intros v' Hv'. destruct op as [v|]; [|done]. injection Hv' as <-. apply Forall_app in Hv as [_ Hv]. apply Forall_app in Hlt as [_ Hlt].
    change (option_list (Some v)) with [v] in *. rewrite Forall_singleton in Hv, Hlt.
    destruct (relisted_same ct v w Hv) as (Hfv & _). split.
    + unfold unloaded. rewrite Hfv. unfold relisted at 1. by rewrite (si_isopen _ _ _ _ _ _ I v eq_refl).
    + cbn [relisted v_ino v_cs]. rewrite (Hc _ Hlt). unfold w1. by rewrite put_file_content.
  - unfold t. destruct op as [v|]; [|by left]. eapply chunk_torn; [|done]. apply Forall_app in Hv as [_ Hv].
    change (option_list (Some v)) with [v] in *. rewrite Forall_singleton in Hv. apply Hv.
  - rewrite (Hc _ Himx), <-(si_meta _ _ _ _ _ _ I). unfold w1. destruct op as [v|]; [|done]. apply put_file_content_ne.
    apply Forall_app in Him as [_ Him]. change (option_list (Some v)) with [v] in *. by rewrite Forall_singleton in Him.
Qed.

(** ** Histories *)

(** [init] on an empty directory. *)
Lemma sl_init_empty w fast enable_sync cm :
  quiet w → w_dir w = [] →
  ∃ st' w', sl_init fl fast (sl_new enable_sync) cm w = Some ((st', cm, 0), w') ∧ sl_rep (st', w') (mkLog 1 []).
Proof.
  intros Hq Hd. unfold sl_init. rewrite io_check_bind by done.
  assert (create_directory w = Some (true, w)) as Hcd by (unfold create_directory, next_write; by rewrite (proj2 Hq)).
  rewrite (io_bind_eq _ _ _ _ _ Hcd). cbn [negb]. set (ct := if fast then CHECKSUM_CRC32 else CHECKSUM_MURMURHASH32).
  set (st0 := sl_set_checksum (sl_new enable_sync) ct). set (w1 := set_errno w ENOENT).
  assert (load_meta st0 w = Some ((st0, -1), w1)) as Hlm.
  { unfold load_meta, pb_file_load. assert (sys_open segment_meta_file w = Some (None, w1)) as Ho.
    { unfold sys_open, next_read. rewrite (proj1 Hq), Hd. done. }
    unfold mbind, io_bind. rewrite Ho. done. }
  rewrite (io_bind_eq _ _ _ _ _ Hlm). assert (get_errno w1 = Some (ENOENT, w1)) as He by done. rewrite (io_bind_eq _ _ _ _ _ He).
  rewrite bool_decide_eq_true_2 by (split; [lia|done]). rewrite decide_False by (intros [_ ?]; done).
  assert (list_segments st0 true w1 = Some ((st0, 0), w1)) as Hls.
  { unfold list_segments, next_read. cbn [w_reads w1 set_errno]. rewrite (proj1 Hq). unfold w1. cbn [w_dir set_errno]. rewrite Hd. done. }
  rewrite (io_bind_eq _ _ _ _ _ Hls). rewrite decide_False by lia.
  assert (load_segments st0 cm w1 = Some ((st0, cm, 0), w1)) as Hlo by done.
  rewrite (io_bind_eq _ _ _ _ _ Hlo). unfold save_meta.
  destruct (pb_file_save_quiet w1 segment_meta_file (pb_meta_serialize 1) (raft_sync_meta fl) [] None)
    as (w' & Hs & Hq' & Hnd' & Hd' & Hnext & Hc & _); unfold w1; cbn [w_dir set_errno]; rewrite ?Hd; try done; [constructor|set_solver..|].
  rewrite (io_bind_eq _ _ _ _ _ Hs). eexists _, w'. split; [done|]. exists 1, (w_next w), [], None.
  cbn [fst snd sl_set_last sl_set_first sl_first_log_index option_list app]. split_and!; [|done|done].
  split; try done.
  - split; try done; cbn [option_list app fmap list_fmap].
    + rewrite Hd'. apply NoDup_singleton.
    + rewrite Hd', Hnext. repeat constructor. cbn. lia.
  - cbn. unfold ct. destruct fast; [by right|by left].
  - by left.
Qed.

(** The steps of a history: the operations of the interface, and a crash in the
    append of [e] after [n] bytes, with the temporary files [fs] left behind,
    followed by [init] in a new process. *)
Inductive sl_op :=
  | SlOp (o : ml_op)
  | SlCrash (fast enable_sync : bool) (e : LogEntry) (n : nat) (fs : list (list Z * list Z)).

(** A step of the code; [None] is an abort or an error code. *)
Definition sl_exec (sw : SegmentLogStorage * World) (o : sl_op) : option (SegmentLogStorage * World) :=
  let '(st, w) := sw in
  match o with
  | SlOp (MlAppend es) =>
      match sl_append_entries fl st es w with
      | Some ((st', n), w') => if decide (n = zlen es) then Some (st', w') else None
      | None => None
      end
  | SlOp (MlTruncatePrefix k) =>
      match sl_truncate_prefix fl st k w with Some ((st', 0), w') => Some (st', w') | _ => None end
  | SlOp (MlTruncateSuffix k) =>
      match sl_truncate_suffix st k w with Some ((st', 0), w') => Some (st', w') | _ => None end
  | SlOp (MlReset n) =>
      match sl_reset fl st n w with Some ((st', 0), w') => Some (st', w') | _ => None end
  | SlCrash fast enable_sync e n fs =>
      match sl_init fl fast (sl_new enable_sync) cm_new (crash_world st w e n fs) with
      | Some ((st', _, 0), w') => Some (st', w')
      | _ => None
      end
  end.

Fixpoint sl_execs (sw : SegmentLogStorage * World) (os : list sl_op) : option (SegmentLogStorage * World) :=
  match os with [] => Some sw | o :: os' => sw' ← sl_exec sw o; sl_execs sw' os' end.

(** What the user of the interface guarantees, and the effect on the log. *)
Definition sl_pre (l : Log) (o : sl_op) : Prop :=
  match o with
  | SlOp (MlAppend es) => contiguous (log_last l + 1) es ∧ Forall entry_ok es
  | SlOp (MlTruncatePrefix k) => lfirst l ≤ k < 2 ^ 63
  | SlOp (MlTruncateSuffix k) => lfirst l - 1 ≤ k < log_last l
  | SlOp (MlReset n) => 0 < n < 2 ^ 63
  | SlCrash _ _ e n fs => crash_ok e n fs
  end.

Definition sl_effect (l : Log) (o : sl_op) : Log :=
  match o with
  | SlOp (MlAppend es) => log_append l es
  | SlOp (MlTruncatePrefix k) => log_truncate_prefix l k
  | SlOp (MlTruncateSuffix k) => log_truncate_suffix l k
  | SlOp (MlReset n) => log_reset n
  | SlCrash _ _ _ _ _ => l
  end.

Fixpoint sl_pres (l : Log) (os : list sl_op) : Prop :=
  match os with [] => True | o :: os' => sl_pre l o ∧ sl_pres (sl_effect l o) os' end.

Lemma sl_recovers st w l fast enable_sync e n fs :
  sl_rep (st, w) l → 0 < lfirst l < 2 ^ 63 → crash_ok e n fs →
  ∃ st' w' pre, sl_init fl fast (sl_new enable_sync) cm_new (crash_world st w e n fs) =
      Some ((st', mkCM (pre ++ omap conf_of_entry (lents l)) (_snapshot cm_new), 0), w') ∧ sl_rep (st', w') l.
Proof.
  intros (F & im & closed & op & I & Hh & ->) Hr Hok. cbn [fst snd lfirst sl_log lents] in *.
  set (ct := if fast then CHECKSUM_CRC32 else CHECKSUM_MURMURHASH32).
  destruct (crash_on_disk st w F im closed op e n fs ct I Hok) as (t & tmps & O); [unfold ct; destruct fast; [by right|by left]|lia|].
  destruct (relisted_chain ct w _ F _ (dk_views _ _ _ (si_disk _ _ _ _ _ _ I)) (si_chain _ _ _ _ _ _ I) (si_head _ _ _ _ _ _ I))
    as (_ & _ & Hes & _).
  assert ((relisted ct <$> closed) ++ option_list (relisted ct <$> op) = relisted ct <$> closed ++ option_list op) as Happ.
  { rewrite fmap_app. by destruct op. }
  destruct (sl_init_run fl Hmax _ im _ F _ _ t tmps fast enable_sync O ltac:(lia)) as (st' & w' & Hini & Hrep).
  rewrite Happ in Hini, Hrep. unfold sl_log in Hrep. rewrite Hes in Hini, Hrep.
  exists st', w', (omap conf_of_entry (take (Z.to_nat (sl_first_log_index st - F)) (entries (closed ++ option_list op)))).
  split; [|done]. by rewrite <-omap_app, take_drop.
Qed.

Lemma sl_exec_rep st w l o :
  sl_rep (st, w) l → 0 < lfirst l < 2 ^ 63 → sl_pre l o →
  ∃ st' w', sl_exec (st, w) o = Some (st', w') ∧ sl_rep (st', w') (sl_effect l o) ∧ 0 < lfirst (sl_effect l o) < 2 ^ 63.
Proof.
  intros Hrep Hr. destruct o as [[es|k|k|n]|fast sync e n fs]; cbn [sl_pre sl_effect sl_exec].
  - intros [Hc Hok]. destruct (sl_append_rep fl Hmax st w l es Hrep Hc Hok) as (st' & w' & -> & Hrep'). rewrite decide_True by done. eauto.
  - intros Hk. destruct (sl_truncate_prefix_rep fl Hmax st w l k Hrep) as (st' & w' & -> & Hrep'); [lia|]. exists st', w'.
    split_and!; try done; cbn [log_truncate_prefix lfirst]; lia.
  - intros Hk. destruct (sl_truncate_suffix_rep st w l k Hrep Hk) as (st' & w' & -> & Hrep'). exists st', w'.
    split_and!; try done; unfold log_truncate_suffix; case_decide; cbn [lfirst]; lia.
  - intros Hn. destruct (sl_reset_rep fl st w l n Hrep) as (st' & w' & -> & Hrep'); [lia|]. eauto.
  - intros Hok. destruct (sl_recovers st w l fast sync e n fs Hrep Hr Hok) as (st' & w' & pre & -> & Hrep'). eauto.
Qed.

Lemma sl_execs_rep st w l os :
  sl_rep (st, w) l → 0 < lfirst l < 2 ^ 63 → sl_pres l os →
  ∃ st' w', sl_execs (st, w) os = Some (st', w') ∧ sl_rep (st', w') (foldl sl_effect l os).
Proof.
  revert st w l. induction os as [|o os IH]; intros st w l Hrep Hr Hp; [by exists st, w|]. destruct Hp as [Hp Hps].
  destruct (sl_exec_rep st w l o Hrep Hr Hp) as (st1 & w1 & He & Hrep1 & Hr1). cbn [sl_execs foldl]. rewrite He. by apply IH.
Qed.

(** C11. The segment log implements the log interface across crashes: started on
    an empty directory, after any history of appends, truncations and resets
    with crashes anywhere in between - each cutting an append at any byte and
    leaving temporary files - no step aborts or fails, and the storage answers
    every query as the abstract log of that history. *)
Theorem segment_log_refines w (fast enable_sync : bool) cm os
    (Hq : quiet w) (Hd : w_dir w = []) (Hos : sl_pres (mkLog 1 []) os) :
  let l := foldl sl_effect (mkLog 1 []) os in
  ∃ st0 w0 st' w', sl_init fl fast (sl_new enable_sync) cm w = Some ((st0, cm, 0), w0) ∧
    sl_execs (st0, w0) os = Some (st', w') ∧
    sl_first_log_index st' = lfirst l ∧ sl_last_log_index st' = log_last l ∧
    ∀ i, sl_get_entry st' i w' = Some (log_get l i, w') ∧ sl_get_term st' i = Some (log_term l i).
Proof.
  cbv zeta. destruct (sl_init_empty w fast enable_sync cm Hq Hd) as (st0 & w0 & Hini & Hrep0).
  destruct (sl_execs_rep st0 w0 _ os Hrep0) as (st' & w' & He & Hrep); [done|done|].
  exists st0, w0, st', w'. split_and!; [done|done|..].
  - by destruct Hrep as (F & im & closed & op & _ & _ & ->).
  - destruct Hrep as (F & im & closed & op & I & Hh & Hl). rewrite Hl, sl_log_last by done. apply (si_last _ _ _ _ _ _ I).
  - intros i. split; [by eapply (sl_get_entry_rep fl Hmax)|by eapply (sl_get_term_rep fl Hmax _ w')].
Qed.

(** C12. Recovery: when the process dies while appending, whatever part of the
    entry reached the open segment, [init] in the next process succeeds, the
    storage holds exactly the log it held, and the configuration manager has
    been given the configurations of that log, in order. *)
Theorem segment_log_recovers st w l (fast enable_sync : bool) e n fs
    (Hrep : sl_rep (st, w) l) (Hr : 0 < lfirst l < 2 ^ 63) (Hok : crash_ok e n fs) :
  ∃ st' w' pre, sl_init fl fast (sl_new enable_sync) cm_new (crash_world st w e n fs) =
      Some ((st', mkCM (pre ++ omap conf_of_entry (lents l)) (_snapshot cm_new), 0), w') ∧
    ∀ i, sl_get_entry st' i w' = Some (log_get l i, w') ∧ sl_get_term st' i = Some (log_term l i).
Proof.
  destruct (sl_recovers st w l fast enable_sync e n fs Hrep Hr Hok) as (st' & w' & pre & Hini & Hrep').
  exists st', w', pre. split; [done|]. intros i. split; [by eapply (sl_get_entry_rep fl Hmax)|by eapply (sl_get_term_rep fl Hmax _ w')].
Qed.
End run.

(** ** A failed roll *)

Section failed_roll.
Context {PB : PbCodec} (fl : SyncFlags).

Lemma sg_close_closed s b w s' rc w' :
  raft_sync_segments fl = false → sg_close fl s b w = Some ((s', rc), w') →
  sg_is_open s' = false ∧ sg_bytes s' = sg_bytes s.
Proof.
  intros Hs. unfold sg_close, mbind, io_bind, io_check. case_decide; [|done]. rewrite decide_False by (intros (_ & ? & _); congruence).
  unfold mret, io_ret. rewrite decide_True by done. destruct (sys_rename _ _ w) as [[rc1 w1]|]; [|done].
  by intros [= <- _ _].
Qed.

Lemma sg_close_aborts s b w : sg_is_open s = false → sg_close fl s b w = None.
Proof. intros H. unfold sg_close, mbind, io_bind, io_check. by rewrite H. Qed.

Lemma open_segment_full st s w :
  sl_open_segment st = Some s → sg_bytes s > raft_max_segment_size fl → open_segment fl st w = roll_segment fl st s w.
Proof.
  intros Ho Hb. unfold open_segment, ensure_open, mbind, io_bind, mret, io_ret, io_lift. rewrite Ho. cbn [negb]. rewrite Ho.
  cbn [mbind option_bind]. by rewrite decide_True.
Qed.

(** A failed roll poisons the storage: when the open segment is full and
    renaming it or creating the next one fails, [open_segment] reports the
    failure but puts the segment it has just marked closed back as the open
    one, so that the next append - with every system call working again -
    trips the [CHECK] in [close] and aborts the process. *)
Theorem failed_roll_aborts_next_append st s st' w w1 e es
    (Hopen : sl_open_segment st = Some s) (Hfull : sg_bytes s > raft_max_segment_size fl)
    (Hflag : raft_sync_segments fl = false) (Hfail : open_segment fl st w = Some ((st', false), w1))
    (Hidx : sl_last_log_index st + 1 = index (id e)) :
  ∀ w2, open_segment fl st' w2 = None ∧ sl_append_entries fl st' (e :: es) w2 = None.
Proof.
  rewrite (open_segment_full _ _ _ Hopen Hfull) in Hfail. unfold roll_segment, mbind, io_bind in Hfail.
  destruct (sg_close fl s (sl_enable_sync st) w) as [[[s' rc] w3]|] eqn:Hc; [|done].
  destruct (sg_close_closed _ _ _ _ _ _ Hflag Hc) as [Hcl Hby].
  assert (sl_open_segment st' = Some s' ∧ sl_last_log_index st' = sl_last_log_index st) as [Ho' Hl'].
  { case_decide; [|by injection Hfail as <- _]. destruct (sg_create _ w3) as [[[c rc'] w4]|]; [|done].
    case_decide; [done|]. by injection Hfail as <- _. }
  intros w2. assert (open_segment fl st' w2 = None) as Hnone.
  { rewrite (open_segment_full _ s') by (done || lia). unfold roll_segment. unfold mbind, io_bind.
    by rewrite sg_close_aborts. }
  split; [done|]. unfold sl_append_entries. rewrite io_check_bind by lia. cbn [append_loop]. unfold mbind, io_bind. by rewrite Hnone.
Qed.
End failed_roll.

(** ** Concrete instances *)

Definition ex_flags : SyncFlags := mkFlags true false 0 false false 40.
Definition ex_empty_world : World := mkWorld ∅ [] 1 0 [] [].
Definition ex_tmp_name : list Z := segment_open_name 1 ++ tmp_suffix.

Lemma ex_entry_ok i t : 0 ≤ i < 256 → 0 ≤ t < 256 → entry_ok (PB := wire_codec) (ex_entry i t).
Proof.
  intros Hi Ht. unfold entry_ok, ex_entry. cbn [id term index]. split_and!; try lia.
  - cbn. split_and!; try done. constructor; [unfold byte; lia|constructor].
  - exists [i]. split; [done|]. change (zlen [i]) with 1. lia.
Qed.

Lemma ex_crash_ok : crash_ok (PB := wire_codec) (ex_entry 4 2) 10 [(ex_tmp_name, [7])].
Proof.
  split_and!; [by apply ex_entry_ok|exists [4]; split; [done|cbn; lia]|apply Forall_singleton; by vm_compute|apply NoDup_singleton].
Qed.

Definition ex_history : list sl_op :=
  [SlOp (MlAppend [ex_entry 1 1; ex_entry 2 1; ex_entry 3 2]); SlCrash true true (ex_entry 4 2) 10 [(ex_tmp_name, [7])];
   SlOp (MlTruncateSuffix 2); SlOp (MlAppend [ex_entry 3 3; ex_entry 4 3]); SlOp (MlTruncatePrefix 2)].

Lemma ex_history_ok : sl_pres (PB := wire_codec) (mkLog 1 []) ex_history.
Proof.
  cbn [sl_pres ex_history sl_pre sl_effect]. split_and!.
  - apply (bool_decide_unpack _). vm_compute. done.
  - repeat (apply Forall_cons; split; [by apply ex_entry_ok|]). apply Forall_nil_2.
  - apply ex_crash_ok.
  - by vm_compute.
  - by vm_compute.
  - apply (bool_decide_unpack _). vm_compute. done.
  - repeat (apply Forall_cons; split; [by apply ex_entry_ok|]). apply Forall_nil_2.
  - by vm_compute.
  - by vm_compute.
  - done.
Qed.

Lemma segment_log_refines_witness :
  ∃ st' w', sl_get_term st' 3 = Some 3 ∧ sl_get_entry (PB := wire_codec) st' 4 w' = Some (Some (ex_entry 4 3), w') ∧
    sl_first_log_index st' = 2.
Proof.
  destruct (segment_log_refines (PBL := wire_codec_laws) ex_flags ltac:(cbn; lia) ex_empty_world true true cm_new ex_history
    ltac:(split; reflexivity) eq_refl ex_history_ok) as (st0 & w0 & st' & w' & _ & _ & Hf & _ & Hq).
  exists st', w'. split_and!; [|apply (Hq 4)|by rewrite Hf]. apply (Hq 3).
Defined.

Lemma segment_log_recovers_witness :
  ∃ st w st' w', sl_rep (PB := wire_codec) (st, w) (mkLog 1 [ex_entry 1 1; ex_entry 2 1]) ∧
    sl_get_term st' 2 = Some 1 ∧ sl_get_entry (PB := wire_codec) st' 3 w' = Some (None, w').
Proof.
  assert (Forall (entry_ok (PB := wire_codec)) [ex_entry 1 1; ex_entry 2 1]) as Hok.
  { repeat (apply Forall_cons; split; [by apply ex_entry_ok|]). apply Forall_nil_2. }
  destruct (sl_init_empty (PBL := wire_codec_laws) ex_flags ltac:(cbn; lia) ex_empty_world true true cm_new
    ltac:(split; reflexivity) eq_refl) as (st0 & w0 & _ & Hrep0).
  destruct (sl_append_rep (PBL := wire_codec_laws) ex_flags ltac:(cbn; lia) st0 w0 (mkLog 1 []) [ex_entry 1 1; ex_entry 2 1] Hrep0
    ltac:(apply (bool_decide_unpack _); vm_compute; done) Hok) as (st & w & _ & Hrep).
  destruct (segment_log_recovers (PBL := wire_codec_laws) ex_flags ltac:(cbn; lia) st w _ true true (ex_entry 4 2) 10 [(ex_tmp_name, [7])] Hrep
    ltac:(cbn; lia) ex_crash_ok) as (st' & w' & pre & _ & Hq).
  exists st, w, st', w'. split_and!; [exact Hrep|apply (Hq 2)|apply (Hq 3)].
Defined.

Definition ex_full_segment : Segment := mkSegment 50 50 (Some 5) 50 true 1 2 0 [(0, 1); (25, 1)].
Definition ex_full_storage : SegmentLogStorage := mkSegmentLog 1 2 [] (Some ex_full_segment) 0 true.
Definition ex_full_world : World :=
  mkWorld (<[5 := replicate 50 0]> ∅) [(segment_open_name 1, 5)] 6 0 [] [SysDone; SysError EIO].

Lemma failed_roll_aborts_next_append_witness :
  ∃ st' w1, open_segment ex_flags ex_full_storage ex_full_world = Some ((st', false), w1) ∧
    sl_append_entries (PB := wire_codec) ex_flags st' [ex_entry 3 1] w1 = None.
Proof.
  destruct (open_segment ex_flags ex_full_storage ex_full_world) as [[[st' [|]] w1]|] eqn:E; [vm_compute in E; discriminate| |vm_compute in E; discriminate].
  exists st', w1. split; [reflexivity|].
  exact (proj2 (failed_roll_aborts_next_append (PB := wire_codec) ex_flags ex_full_storage ex_full_segment st' ex_full_world w1 (ex_entry 3 1) []
    eq_refl ltac:(cbn; lia) eq_refl E eq_refl w1)).
Defined.
