(* ===== verification/StateMonad.v ===== *)
(** * State passing with abort

    The monad of code that updates one object under its mutex and may reach a
    [CHECK]: a state in, a result and a state out, [None] for the aborted
    process.  [st_rel R m] says that every run of [m] that returns relates the
    states by [R]; for a preorder it is closed under sequencing, which is how
    frame conditions of long handlers are proved.  [st_triple P m Q] says that a
    run of [m] from a state with [P] that returns ends with [Q]. *)

From stdpp Require Import prelude.
From S2P Require Import Prelude.
Local Open Scope Z_scope.

Definition ST (S A : Type) : Type := S → option (A * S).

#[global] Instance st_ret {S} : MRet (ST S) := λ A a s, Some (a, s).
#[global] Instance st_bind {S} : MBind (ST S) := λ A B k m s, '(a, s') ← m s; k a s'.

Section state.
Context {S : Type}.

Definition st_get {A} (f : S → A) : ST S A := λ s, Some (f s, s).
Definition st_mod (f : S → S) : ST S unit := λ s, Some (tt, f s).
Definition st_lift {A} (o : option A) : ST S A := λ s, a ← o; Some (a, s).
Definition st_check (P : Prop) `{Decision P} : ST S unit := st_lift (CHECK P).

(** [for (x in l) f(x)]. *)
Fixpoint st_each {A} (f : A → ST S unit) (l : list A) : ST S unit :=
  match l with
  | [] => mret tt
  | x :: l' => f x;; st_each f l'
  end.

Lemma st_bind_Some {A B} (m : ST S A) (k : A → ST S B) s b s2 :
  (m ≫= k) s = Some (b, s2) ↔ ∃ a s1, m s = Some (a, s1) ∧ k a s1 = Some (b, s2).
Proof.
  unfold mbind, st_bind. destruct (m s) as [[a s1]|] eqn:E; cbn; [|naive_solver].
  split; [eauto|]. by intros (? & ? & [= <- <-] & ?).
Qed.

Lemma st_bind_eq {A B} (m : ST S A) (k : A → ST S B) s a s1 :
  m s = Some (a, s1) → (m ≫= k) s = k a s1.
Proof. intros H. unfold mbind, st_bind. by rewrite H. Qed.

Lemma st_bind_abort {A B} (m : ST S A) (k : A → ST S B) s : m s = None → (m ≫= k) s = None.
Proof. intros H. unfold mbind, st_bind. by rewrite H. Qed.

Lemma st_lift_Some {A} (o : option A) s a s1 : st_lift o s = Some (a, s1) ↔ o = Some a ∧ s1 = s.
Proof. unfold st_lift. destruct o; cbn; naive_solver. Qed.

Lemma st_check_Some (P : Prop) `{Decision P} s u s1 : st_check P s = Some (u, s1) ↔ P ∧ s1 = s.
Proof. unfold st_check. rewrite st_lift_Some, CHECK_Some. done. Qed.

Lemma st_check_true (P : Prop) `{Decision P} s : P → st_check P s = Some (tt, s).
Proof. intros. by apply st_check_Some. Qed.

(** ** Relational frames *)

Definition st_rel (R : relation S) {A} (m : ST S A) : Prop :=
  ∀ s a s', m s = Some (a, s') → R s s'.

Section frames.
Context (R : relation S) `{!PreOrder R}.

Lemma st_rel_ret {A} (a : A) : st_rel R (mret a).
Proof. intros s ? ? [= <- <-]. reflexivity. Qed.

Lemma st_rel_bind {A B} (m : ST S A) (k : A → ST S B) :
  st_rel R m → (∀ a, st_rel R (k a)) → st_rel R (m ≫= k).
Proof.
  intros Hm Hk s b s2 (a & s1 & H1 & H2)%st_bind_Some.
  etrans; [by eapply Hm|by eapply Hk].
Qed.

Lemma st_rel_get {A} (f : S → A) : st_rel R (st_get f).
Proof. intros s ? ? [= <- <-]. reflexivity. Qed.

Lemma st_rel_mod (f : S → S) : (∀ s, R s (f s)) → st_rel R (st_mod f).
Proof. intros H s ? ? [= <- <-]. apply H. Qed.

Lemma st_rel_lift {A} (o : option A) : st_rel R (st_lift o).
Proof. intros s a s' [_ ->]%st_lift_Some. reflexivity. Qed.

Lemma st_rel_check (P : Prop) `{Decision P} : st_rel R (st_check P).
Proof. apply st_rel_lift. Qed.

Lemma st_rel_each {A} (f : A → ST S unit) l : (∀ x, st_rel R (f x)) → st_rel R (st_each f l).
Proof.
  intros Hf. induction l as [|x l IH]; [apply st_rel_ret|]. cbn. by apply st_rel_bind.
Qed.
End frames.

(** ** Pre- and postconditions *)

Definition st_triple {A} (P : S → Prop) (m : ST S A) (Q : A → S → Prop) : Prop :=
  ∀ s a s', P s → m s = Some (a, s') → Q a s'.

Lemma triple_ret {A} (P : S → Prop) (a : A) : st_triple P (mret a) (λ b s, P s ∧ b = a).
Proof. intros s ? ? HP [= <- <-]. done. Qed.

Lemma triple_bind {A B} P (m : ST S A) Q (k : A → ST S B) R :
  st_triple P m Q → (∀ a, st_triple (Q a) (k a) R) → st_triple P (m ≫= k) R.
Proof. intros Hm Hk s b s2 HP (a & s1 & H1 & H2)%st_bind_Some. eapply Hk, H2. by eapply Hm. Qed.

Lemma triple_conseq {A} (P P' : S → Prop) (m : ST S A) (Q Q' : A → S → Prop) :
  st_triple P' m Q' → (∀ s, P s → P' s) → (∀ a s, Q' a s → Q a s) → st_triple P m Q.
Proof. intros Hm HP HQ s a s' Hs Hrun. eapply HQ, Hm, Hrun. by apply HP. Qed.

Lemma triple_pre {A} (P P' : S → Prop) (m : ST S A) (Q : A → S → Prop) :
  st_triple P' m Q → (∀ s, P s → P' s) → st_triple P m Q.
Proof. intros Hm HP. by eapply triple_conseq. Qed.

Lemma triple_get {A} (P : S → Prop) (f : S → A) : st_triple P (st_get f) (λ a s, P s ∧ a = f s).
Proof. intros s ? ? HP [= <- <-]. done. Qed.

Lemma triple_lift {A} (P : S → Prop) (o : option A) : st_triple P (st_lift o) (λ a s, P s ∧ o = Some a).
Proof. intros s a s' HP [? ->]%st_lift_Some. done. Qed.

Lemma triple_check (P : S → Prop) (C : Prop) `{Decision C} : st_triple P (st_check C) (λ _ s, P s ∧ C).
Proof. intros s a s' HP [? ->]%st_check_Some. done. Qed.
End state.

#[global] Opaque st_bind.
