(* ===== verification/Messages.v ===== *)
(** * Messages

    The messages of src/melon/proto/raft/raft.proto the nodes of a group
    exchange.  Strings are lists of bytes; an optional field is an [option],
    read as the default value of its type when absent. *)

From stdpp Require Import prelude.
From S2P Require Import Prelude StdContainers Configuration.
Local Open Scope Z_scope.

Record EntryMeta := mkEntryMeta {
  em_term : Z;
  em_type : EntryType;
  em_peers : list (list Z);
  em_data_len : option Z;
  em_old_peers : list (list Z);
}.

Record TermLeader := mkTermLeader { tl_peer_id : list Z; tl_term : Z }.

Record RequestVoteRequest := mkRequestVoteRequest {
  rv_group_id : list Z;
  rv_server_id : list Z;
  rv_peer_id : list Z;
  rv_term : Z;
  rv_last_log_term : Z;
  rv_last_log_index : Z;
  rv_disrupted_leader : option TermLeader;
}.

(** The optional fields are set by every handler that answers. *)
Record RequestVoteResponse := mkRequestVoteResponse {
  rvr_term : Z;
  rvr_granted : bool;
  rvr_disrupted : bool;
  rvr_previous_term : Z;
  rvr_rejected_by_lease : bool;
}.

Record AppendEntriesRequest := mkAppendEntriesRequest {
  ae_group_id : list Z;
  ae_server_id : list Z;
  ae_peer_id : list Z;
  ae_term : Z;
  ae_prev_log_term : Z;
  ae_prev_log_index : Z;
  ae_entries : list EntryMeta;
  ae_committed_index : Z;
}.

Record AppendEntriesResponse := mkAppendEntriesResponse {
  aer_term : Z;
  aer_success : bool;
  aer_last_log_index : option Z;
  aer_readonly : option bool;
}.

(** [SnapshotMeta] as it travels, peers as strings. *)
Record SnapshotMetaPb := mkSnapshotMetaPb {
  smp_last_included_index : Z;
  smp_last_included_term : Z;
  smp_peers : list (list Z);
  smp_old_peers : list (list Z);
}.

Record InstallSnapshotRequest := mkInstallSnapshotRequest {
  is_group_id : list Z;
  is_server_id : list Z;
  is_peer_id : list Z;
  is_term : Z;
  is_meta : SnapshotMetaPb;
  is_uri : list Z;
}.

Record TimeoutNowRequest := mkTimeoutNowRequest {
  tn_group_id : list Z;
  tn_server_id : list Z;
  tn_peer_id : list Z;
  tn_term : Z;
  tn_old_leader_stepped_down : bool;
}.

(** [TimeoutNowResponse] and [InstallSnapshotResponse]. *)
Record TermResponse := mkTermResponse { tr_term : Z; tr_success : bool }.

Definition ae_entries_size (r : AppendEntriesRequest) : Z := zlen (ae_entries r).

(** The last index the request carries. *)
Definition ae_last_index (r : AppendEntriesRequest) : Z := ae_prev_log_index r + ae_entries_size r.
