(* ===== verification/FsmCaller.v ===== *)
(** * State machine caller

    [FSMCaller] and [IteratorImpl] of src/melon/raft/fsm_caller.{h,cc}, with
    the [Iterator] of src/melon/raft/raft.cc: the queue that feeds committed
    entries, snapshots and leader changes to the user's state machine.

    The caller runs in a fiber of its own while the node and the disk thread
    use the same log manager.  Before each of its calls into the manager the
    others do what the next element of [fw_others] says.  The user's code is an
    input too: [fw_user] lists, for each coming call of [on_apply], what it
    does to the iterator.  Calls to the state machine, to the node and to
    closures are collected in [fw_out], oldest first. *)

From stdpp Require Import prelude list_numbers.
From S2P Require Import Prelude StdContainers Configuration ConfigurationManager ClosureQueue PeerText.
From S2P Require Import LogStorage LogManager LogManagerSpec StateMonad Messages.
Local Open Scope Z_scope.

Definition ESTATEMACHINE : Z := 10002.

(** ** Data *)

Inductive ErrorType :=
  | ERROR_TYPE_NONE | ERROR_TYPE_LOG | ERROR_TYPE_STABLE | ERROR_TYPE_SNAPSHOT | ERROR_TYPE_STATE_MACHINE.

#[global] Instance ErrorType_eq_dec : EqDecision ErrorType.
Proof. solve_decision. Defined.

(** A [Status] is its error code. *)
Record Error := mkError { er_type : ErrorType; er_status : Z }.

Definition no_error : Error := mkError ERROR_TYPE_NONE 0.

Record LeaderChangeContext := mkLeaderChangeContext { lcc_leader_id : PeerId; lcc_term : Z; lcc_status : Z }.

Inductive TaskType :=
  | IDLE | COMMITTED | SNAPSHOT_SAVE | SNAPSHOT_LOAD | LEADER_STOP | LEADER_START
  | START_FOLLOWING | STOP_FOLLOWING | ERROR.

(** A task with the member of the union its type uses. *)
Inductive ApplyTask :=
  | ApplyCommitted (committed_index : Z)
  | ApplySnapshotSave (done : Closure)
  | ApplySnapshotLoad (done : Closure)
  | ApplyLeaderStop (status : Z)
  | ApplyLeaderStart (term lease_epoch : Z)
  | ApplyStartFollowing (context : LeaderChangeContext)
  | ApplyStopFollowing (context : LeaderChangeContext)
  | ApplyError (e : Error).

(** [_after_shutdown] is the closure of the node; [_node] is only used when
    not null. *)
Record FSMCaller := mkFSMCaller {
  fc_last_applied_index : Z;
  fc_last_applied_term : Z;
  fc_after_shutdown : option Closure;
  fc_node : bool;
  fc_cur_task : TaskType;
  fc_applying_index : Z;
  fc_error : Error;
  fc_queue_started : bool;
}.

Inductive FsmEvent :=
  | FsmApply (entry : LogEntry) (done : option Closure)
  | FsmConfigurationCommitted (conf : Configuration) (index : Z)
  | FsmRun (c : Closure) (status : Z)
  | FsmOnError (e : Error)
  | FsmNodeOnError (e : Error)
  | FsmOnSnapshotSave (c : Closure) (meta : SnapshotMetaPb)
  | FsmOnSnapshotLoad (c : Closure)
  | FsmOnLeaderStop (status : Z)
  | FsmLeaderLeaseStart (lease_epoch : Z)
  | FsmOnLeaderStart (term : Z)
  | FsmOnStartFollowing (context : LeaderChangeContext)
  | FsmOnStopFollowing (context : LeaderChangeContext)
  | FsmOnShutdown
  | FsmAfterShutdown (c : Closure).

(** What [on_apply] may do to the iterator. *)
Inductive IterOp := IterNext | IterRollback (ntail : Z).

(** Answers of the snapshot executor's closures and of the user: whether a
    [SaveSnapshotClosure] gives a writer, the [load_meta] of the reader a
    [LoadSnapshotClosure] gives, and the result of [on_snapshot_load]. *)
Record FsmEnv := mkFsmEnv {
  fe_start_writer : Closure → SnapshotMetaPb → bool;
  fe_start_reader : Closure → option (Z * SnapshotMetaPb);
  fe_on_snapshot_load : Closure → Z;
}.

Record FsmWorld (S : Type) := mkFsmWorld {
  fw_caller : FSMCaller;
  fw_log_manager : LogManager S;
  fw_closure_queue : ClosureQueue;
  fw_others : list (LogManager S → option (LogManager S));
  fw_user : list (list IterOp);
  fw_out : list FsmEvent;
}.
#[global] Arguments mkFsmWorld {S}.
#[global] Arguments fw_caller {S}.
#[global] Arguments fw_log_manager {S}.
#[global] Arguments fw_closure_queue {S}.
#[global] Arguments fw_others {S}.
#[global] Arguments fw_user {S}.
#[global] Arguments fw_out {S}.

Record IteratorImpl := mkIteratorImpl {
  it_closure : list (option Closure);
  it_first_closure_index : Z;
  it_cur_index : Z;
  it_committed_index : Z;
  it_cur_entry : option LogEntry;
  it_error : Error;
}.

(** ** Field updates *)

Definition fc_with_applied (i t : Z) (c : FSMCaller) : FSMCaller :=
  mkFSMCaller i t (fc_after_shutdown c) (fc_node c) (fc_cur_task c) (fc_applying_index c) (fc_error c)
    (fc_queue_started c).
Definition fc_with_task (t : TaskType) (c : FSMCaller) : FSMCaller :=
  mkFSMCaller (fc_last_applied_index c) (fc_last_applied_term c) (fc_after_shutdown c) (fc_node c) t
    (fc_applying_index c) (fc_error c) (fc_queue_started c).
Definition fc_with_applying (i : Z) (c : FSMCaller) : FSMCaller :=
  mkFSMCaller (fc_last_applied_index c) (fc_last_applied_term c) (fc_after_shutdown c) (fc_node c)
    (fc_cur_task c) i (fc_error c) (fc_queue_started c).
Definition fc_with_error (e : Error) (c : FSMCaller) : FSMCaller :=
  mkFSMCaller (fc_last_applied_index c) (fc_last_applied_term c) (fc_after_shutdown c) (fc_node c)
    (fc_cur_task c) (fc_applying_index c) e (fc_queue_started c).
Definition fc_with_shutdown (c : FSMCaller) : FSMCaller :=
  mkFSMCaller (fc_last_applied_index c) (fc_last_applied_term c) None false
    (fc_cur_task c) (fc_applying_index c) (fc_error c) (fc_queue_started c).

Definition it_at (i : Z) (e : option LogEntry) (it : IteratorImpl) : IteratorImpl :=
  mkIteratorImpl (it_closure it) (it_first_closure_index it) i (it_committed_index it) e (it_error it).
Definition it_failed (er : Error) (it : IteratorImpl) : IteratorImpl :=
  mkIteratorImpl (it_closure it) (it_first_closure_index it) (it_cur_index it) (it_committed_index it) None er.

Section fsm_caller.
Context {S : Type} `{LogStorage S} (env : FsmEnv) (raft_fsm_caller_commit_batch : Z).
Abbreviation F := (ST (FsmWorld S)).

Definition mod_caller (f : FSMCaller → FSMCaller) : F unit :=
  st_mod (λ w, mkFsmWorld (f (fw_caller w)) (fw_log_manager w) (fw_closure_queue w) (fw_others w)
    (fw_user w) (fw_out w)).

Definition fsm_emit (evs : list FsmEvent) : F unit :=
  st_mod (λ w, mkFsmWorld (fw_caller w) (fw_log_manager w) (fw_closure_queue w) (fw_others w)
    (fw_user w) (fw_out w ++ evs)).

(** A call of the log manager, after what the others did meanwhile. *)
Definition fsm_log {A} (f : LogManager S → option (LogManager S * A)) : F A := λ w,
  m ← match fw_others w with g :: _ => g (fw_log_manager w) | [] => Some (fw_log_manager w) end;
  '(m', a) ← f m;
  Some (a, mkFsmWorld (fw_caller w) m' (fw_closure_queue w) (tail (fw_others w)) (fw_user w) (fw_out w)).

(** What the coming call of [on_apply] does. *)
Definition next_user : F (list IterOp) := λ w,
  Some (default [] (head (fw_user w)),
        mkFsmWorld (fw_caller w) (fw_log_manager w) (fw_closure_queue w) (fw_others w)
          (tail (fw_user w)) (fw_out w)).

Definition run_done (d : option Closure) (status : Z) : F unit :=
  match d with Some c => fsm_emit [FsmRun c status] | None => mret tt end.

(** ** [IteratorImpl] *)

Definition it_has_error (it : IteratorImpl) : bool := negb (bool_decide (er_type (it_error it) = ERROR_TYPE_NONE)).

Definition it_is_good (it : IteratorImpl) : bool :=
  bool_decide (it_cur_index it ≤ it_committed_index it) && negb (it_has_error it).

Definition it_next (it : IteratorImpl) : F IteratorImpl :=
  let it := it_at (it_cur_index it) None it in
  if decide (it_cur_index it ≤ it_committed_index it) then
    let i := it_cur_index it + 1 in
    let it := it_at i None it in
    if decide (i ≤ it_committed_index it) then
      e ← fsm_log (λ m, lm_get_entry m i);
      mod_caller (fc_with_applying i);;
      mret match e with
           | Some entry => it_at i (Some entry) it
           | None => it_failed (mkError ERROR_TYPE_LOG (-1)) it
           end
    else mret it
  else mret it.

(** [done()]: indexing the vector of closures out of range has no value. *)
Definition it_done (it : IteratorImpl) : option (option Closure) :=
  if decide (it_cur_index it < it_first_closure_index it) then Some None
  else zlookup (it_closure it) (it_cur_index it - it_first_closure_index it).

Definition it_is_data (it : IteratorImpl) : bool :=
  match it_cur_entry it with Some e => bool_decide (type e = ENTRY_TYPE_DATA) | None => false end.

Definition it_set_error_and_rollback (ntail : Z) (it : IteratorImpl) : F IteratorImpl :=
  st_check (ntail ≠ 0);;
  let i := if it_is_data it then it_cur_index it - (ntail - 1) else it_cur_index it - ntail in
  mret (it_failed (mkError ERROR_TYPE_STATE_MACHINE ESTATEMACHINE) (it_at i None it)).

(** ** [Iterator] *)

(** [valid()] reads the type of the current entry, which a good iterator has. *)
Definition it_valid (it : IteratorImpl) : bool := it_is_good it && it_is_data it.

Definition iterator_next (it : IteratorImpl) : F IteratorImpl :=
  if it_valid it then it_next it else mret it.

(** The task a valid iterator shows to the user. *)
Definition it_show (it : IteratorImpl) : F unit :=
  match it_cur_entry it with
  | Some e => if it_valid it then d ← st_lift (it_done it); fsm_emit [FsmApply e d] else mret tt
  | None => mret tt
  end.

Definition iter_op (op : IterOp) (it : IteratorImpl) : F IteratorImpl :=
  match op with
  | IterNext =>
      if it_valid it then it' ← it_next it; it_show it';; mret it' else mret it
  | IterRollback ntail => it_set_error_and_rollback ntail it
  end.

Fixpoint iter_ops (ops : list IterOp) (it : IteratorImpl) : F IteratorImpl :=
  match ops with
  | [] => mret it
  | op :: ops' => it' ← iter_op op it; iter_ops ops' it'
  end.

Definition on_apply (it : IteratorImpl) : F IteratorImpl :=
  it_show it;;
  ops ← next_user;
  iter_ops ops it.

(** ** Committed entries *)

Definition set_error (e : Error) : F unit :=
  c ← st_get fw_caller;
  if decide (er_type (fc_error c) ≠ ERROR_TYPE_NONE) then mret tt
  else
    mod_caller (fc_with_error e);;
    fsm_emit [FsmOnError e];;
    if fc_node c then fsm_emit [FsmNodeOnError e] else mret tt.

(** The body of the loop of [do_committed] at entry [e]. *)
Definition apply_entry (e : LogEntry) (it : IteratorImpl) : F IteratorImpl :=
  if decide (type e ≠ ENTRY_TYPE_DATA) then
    (if decide (type e = ENTRY_TYPE_CONFIGURATION ∧ old_peers e = None) then
       ps ← st_lift (peers e);
       fsm_emit [FsmConfigurationCommitted (conf_of_vector ps) (index (id e))]
     else mret tt);;
    d ← st_lift (it_done it);
    run_done d 0;;
    it_next it
  else
    it' ← on_apply it;
    iterator_next it'.

(** Every round moves the iterator, so [fuel] rounds are enough for as many
    entries; [entry()] of a good iterator is not null. *)
Fixpoint apply_loop (fuel : nat) (it : IteratorImpl) : F IteratorImpl :=
  match fuel with
  | O => mret it
  | Datatypes.S fuel' =>
      if it_is_good it then
        e ← st_lift (it_cur_entry it);
        it' ← apply_entry e it;
        apply_loop fuel' it'
      else mret it
  end.

Definition run_the_rest_closure_with_error (it : IteratorImpl) : F unit :=
  let from := Z.max (it_cur_index it) (it_first_closure_index it) in
  st_each (λ i, d ← st_lift (zlookup (it_closure it) (i - it_first_closure_index it));
                run_done d (er_status (it_error it)))
    (seqZ from (it_committed_index it + 1 - from)).

Definition pop_closure_until (committed_index : Z) : F (list (option Closure) * Z) := λ w,
  '(q, closure, first) ← cq_pop_closure_until (fw_closure_queue w) committed_index;
  Some ((closure, first), mkFsmWorld (fw_caller w) (fw_log_manager w) q (fw_others w) (fw_user w) (fw_out w)).

(** [do_committed] after its loop. *)
Definition finish_committed (committed_index : Z) (it : IteratorImpl) : F unit :=
  (if it_has_error it then set_error (it_error it);; run_the_rest_closure_with_error it else mret tt);;
  let last_index := it_cur_index it - 1 in
  last_term ← fsm_log (λ m, t ← lm_get_term m last_index; Some (m, t));
  mod_caller (fc_with_applied committed_index last_term);;
  fsm_log (λ m, Some (lm_set_applied_id m (mkLogId last_index last_term), tt)).

Definition do_committed (committed_index : Z) : F unit :=
  c ← st_get fw_caller;
  if decide (er_status (fc_error c) ≠ 0) then mret tt
  else
    let last_applied_index := fc_last_applied_index c in
    if decide (committed_index ≤ last_applied_index) then mret tt
    else
      '(closure, first_closure_index) ← pop_closure_until committed_index;
      it0 ← it_next (mkIteratorImpl closure first_closure_index last_applied_index committed_index None no_error);
      it ← apply_loop (Z.to_nat (committed_index - last_applied_index)) it0;
      finish_committed committed_index it.

(** ** Snapshots *)

Definition pass_by_status (done : Closure) : F bool :=
  c ← st_get fw_caller;
  if decide (er_status (fc_error c) ≠ 0) then fsm_emit [FsmRun done EINVAL];; mret false
  else mret true.

Definition do_snapshot_save (done : Closure) : F unit :=
  c ← st_get fw_caller;
  conf_entry ← fsm_log (λ m, ce ← lm_get_configuration m (fc_last_applied_index c); Some (m, ce));
  ps ← st_lift (mapM peer_to_string (list_peers (ce_conf conf_entry)));
  old ← st_lift (mapM peer_to_string (list_peers (ce_old_conf conf_entry)));
  let meta := mkSnapshotMetaPb (fc_last_applied_index c) (fc_last_applied_term c) ps old in
  if fe_start_writer env done meta then fsm_emit [FsmOnSnapshotSave done meta]
  else fsm_emit [FsmRun done EINVAL].

Definition do_snapshot_load (done : Closure) : F unit :=
  match fe_start_reader env done with
  | None => fsm_emit [FsmRun done EINVAL]
  | Some (ret, meta) =>
      if decide (ret ≠ 0) then
        fsm_emit [FsmRun done ret];;
        if decide (ret = EIO) then set_error (mkError ERROR_TYPE_SNAPSHOT ret) else mret tt
      else
        c ← st_get fw_caller;
        let last_applied_id := mkLogId (fc_last_applied_index c) (fc_last_applied_term c) in
        let snapshot_id := mkLogId (smp_last_included_index meta) (smp_last_included_term meta) in
        if decide (logid_gt last_applied_id snapshot_id) then fsm_emit [FsmRun done ESTALE]
        else
          fsm_emit [FsmOnSnapshotLoad done];;
          let ret := fe_on_snapshot_load env done in
          if decide (ret ≠ 0) then
            fsm_emit [FsmRun done ret];;
            set_error (mkError ERROR_TYPE_STATE_MACHINE ret)
          else
            (if decide (smp_old_peers meta = []) then
               ps ← st_lift (mapM peer_of_string (smp_peers meta));
               fsm_emit [FsmConfigurationCommitted (foldl (λ cf p, (add_peer cf p).1) conf_new ps)
                           (smp_last_included_index meta)]
             else mret tt);;
            mod_caller (fc_with_applied (smp_last_included_index meta) (smp_last_included_term meta));;
            fsm_emit [FsmRun done 0]
  end.

(** ** The queue *)

(** The cases of [run]'s switch other than [COMMITTED]. *)
Definition run_task (t : ApplyTask) : F unit :=
  match t with
  | ApplyCommitted _ => mret tt
  | ApplySnapshotSave done =>
      mod_caller (fc_with_task SNAPSHOT_SAVE);;
      ok ← pass_by_status done;
      if (ok : bool) then do_snapshot_save done else mret tt
  | ApplySnapshotLoad done =>
      mod_caller (fc_with_task SNAPSHOT_LOAD);;
      ok ← pass_by_status done;
      if (ok : bool) then do_snapshot_load done else mret tt
  | ApplyLeaderStop status => mod_caller (fc_with_task LEADER_STOP);; fsm_emit [FsmOnLeaderStop status]
  | ApplyLeaderStart t lease_epoch => fsm_emit [FsmLeaderLeaseStart lease_epoch; FsmOnLeaderStart t]
  | ApplyStartFollowing c => mod_caller (fc_with_task START_FOLLOWING);; fsm_emit [FsmOnStartFollowing c]
  | ApplyStopFollowing c => mod_caller (fc_with_task STOP_FOLLOWING);; fsm_emit [FsmOnStopFollowing c]
  | ApplyError e => mod_caller (fc_with_task ERROR);; set_error e
  end.

Definition run_committed (max_committed_index : Z) : F unit :=
  if decide (0 ≤ max_committed_index) then
    mod_caller (fc_with_task COMMITTED);; do_committed max_committed_index
  else mret tt.

(** The loop of [run]: commits are merged up to the batch size. *)
Fixpoint run_loop (tasks : list ApplyTask) (max_committed_index counter : Z) : F unit :=
  match tasks with
  | [] => run_committed max_committed_index
  | ApplyCommitted i :: ts =>
      if decide (counter < raft_fsm_caller_commit_batch) then
        if decide (max_committed_index < i) then run_loop ts i (counter + 1)
        else run_loop ts max_committed_index counter
      else
        run_committed max_committed_index;;
        let '(max1, counter1) := if decide (0 ≤ max_committed_index) then (-1, 0) else (max_committed_index, counter) in
        if decide (max1 < i) then run_loop ts i (counter1 + 1) else run_loop ts max1 counter1
  | t :: ts =>
      run_committed max_committed_index;;
      run_task t;;
      let '(max1, counter1) := if decide (0 ≤ max_committed_index) then (-1, 0) else (max_committed_index, counter) in
      run_loop ts max1 counter1
  end.

Definition do_shutdown : F unit :=
  c ← st_get fw_caller;
  mod_caller fc_with_shutdown;;
  fsm_emit [FsmOnShutdown];;
  match fc_after_shutdown c with Some d => fsm_emit [FsmAfterShutdown d] | None => mret tt end.

(** [run] on the tasks it is handed. *)
Definition fsm_run (is_queue_stopped : bool) (tasks : list ApplyTask) : F unit :=
  if is_queue_stopped then do_shutdown
  else run_loop tasks (-1) 0;; mod_caller (fc_with_task IDLE).

(** [applying_index()]. *)
Definition applying_index (c : FSMCaller) : Z :=
  match fc_cur_task c with COMMITTED => fc_applying_index c | _ => 0 end.
End fsm_caller.

(** [FSMCaller()] and [init(options)], the options' pointers given as
    booleans; the result of starting the queue is an argument. *)
Definition fsm_new : FSMCaller := mkFSMCaller 0 0 None false IDLE 0 no_error false.

Definition fsm_init (has_log_manager has_fsm has_closure_queue : bool) (after_shutdown : option Closure)
    (node : bool) (bootstrap_id : LogId) (queue_start : Z) : FSMCaller * Z :=
  if negb (has_log_manager && has_fsm && has_closure_queue) then (fsm_new, EINVAL)
  else if decide (queue_start ≠ 0) then
    (mkFSMCaller (index bootstrap_id) (term bootstrap_id) after_shutdown node IDLE 0 no_error false, -1)
  else (mkFSMCaller (index bootstrap_id) (term bootstrap_id) after_shutdown node IDLE 0 no_error true, 0).
