(* ===== verification/FsmCallerSpec.v ===== *)
(** * The state machine sees the log

    What the caller of FsmCaller.v promises to the state machine: the committed
    entries, each exactly once and in the order of the log, with the closure
    that was queued for it, however the commits are batched, whatever the
    state machine does with the iterator and whatever the other users of the
    log manager do in between, as long as they leave the committed part of the
    log alone ([LogView]). *)

From stdpp Require Import prelude list_numbers.
From S2P Require Import Prelude StdContainers Configuration ConfigurationManager ClosureQueue PeerText.
From S2P Require Import LogStorage MemoryLog LogManager LogManagerSpec StateMonad Messages FsmCaller.
Local Open Scope Z_scope.

(** What the caller relies on between its calls: in every state with [good],
    the entries after [lo] up to [hi] are those of [C], and recording one of
    them as applied keeps it so. *)
Class LogView {S} `{LogStorage S} (good : LogManager S → Prop) (C : Z → LogEntry) (lo hi : Z) : Prop := {
  lv_get m i : good m → lo < i ≤ hi → lm_get_entry m i = Some (m, Some (C i));
  lv_term m i : good m → lo < i ≤ hi → lm_get_term m i = Some (term (id (C i)));
  lv_applied m i : good m → lo < i ≤ hi → good (lm_set_applied_id m (id (C i)));
  lv_index m i : good m → lo < i ≤ hi → index (id (C i)) = i;
  lv_peers m i : good m → lo < i ≤ hi → type (C i) = ENTRY_TYPE_CONFIGURATION → peers (C i) ≠ None;
}.

(** The log manager keeps that promise while its log is the committed one
    after [lo] and its disk id is one of entries it can read back. *)
Definition good_manager {S} `{LogStorageLaws S} (C : Z → LogEntry) (lo hi : Z) (m : LogManager S) : Prop :=
  ∃ l L, lm_inv m l L ∧ clear_safe m l L (lm_disk_id m) ∧ index (lm_last_snapshot_id m) ≤ lo ∧
    ∀ i, lo < i ≤ hi → log_get L i = Some (C i).

(** ** The events of an entry *)

Definition run_events (d : option Closure) (status : Z) : list FsmEvent :=
  match d with Some c => [FsmRun c status] | None => [] end.

Definition entry_events (e : LogEntry) (d : option Closure) : list FsmEvent :=
  match type e with
  | ENTRY_TYPE_DATA => [FsmApply e d]
  | ENTRY_TYPE_CONFIGURATION =>
      match old_peers e with
      | None => [FsmConfigurationCommitted (conf_of_vector (default [] (peers e))) (index (id e))]
      | Some _ => []
      end ++ run_events d 0
  | _ => run_events d 0
  end.

(** The entries from [a] to [b], with closures [d]. *)
Definition log_events (C : Z → LogEntry) (d : Z → option Closure) (a b : Z) : list FsmEvent :=
  seqZ a (b + 1 - a) ≫= λ i, entry_events (C i) (d i).

(** The closure queued for index [i]. *)
Definition closure_at (q : ClosureQueue) (i : Z) : option Closure :=
  if decide (cq_queue q = [] ∨ i < cq_first_index q) then None
  else default None (zlookup (cq_queue q) (i - cq_first_index q)).

(** Popping up to [i] is allowed. *)
Definition cq_covers (q : ClosureQueue) (i : Z) : Prop :=
  cq_queue q = [] ∨ i < cq_first_index q + zlen (cq_queue q).

(** What the tasks show to the outside, one at a time. *)
Fixpoint tasks_events (C : Z → LogEntry) (d : Z → option Closure) (applied : Z) (tasks : list ApplyTask)
  : list FsmEvent :=
  match tasks with
  | [] => []
  | ApplyCommitted i :: ts =>
      if decide (applied < i) then log_events C d (applied + 1) i ++ tasks_events C d i ts
      else tasks_events C d applied ts
  | ApplyLeaderStop status :: ts => FsmOnLeaderStop status :: tasks_events C d applied ts
  | ApplyLeaderStart t lease_epoch :: ts =>
      FsmLeaderLeaseStart lease_epoch :: FsmOnLeaderStart t :: tasks_events C d applied ts
  | ApplyStartFollowing c :: ts => FsmOnStartFollowing c :: tasks_events C d applied ts
  | ApplyStopFollowing c :: ts => FsmOnStopFollowing c :: tasks_events C d applied ts
  | _ :: ts => tasks_events C d applied ts
  end.

(** Commits and changes of the leader; commits stay in the log. *)
Definition task_plain (hi : Z) (q : ClosureQueue) (t : ApplyTask) : Prop :=
  match t with
  | ApplyCommitted i => i ≤ hi ∧ cq_covers q i
  | ApplyLeaderStop _ | ApplyLeaderStart _ _ | ApplyStartFollowing _ | ApplyStopFollowing _ => True
  | _ => False
  end.

(** The greatest index committed. *)
Fixpoint tasks_applied (applied : Z) (tasks : list ApplyTask) : Z :=
  match tasks with
  | [] => applied
  | ApplyCommitted i :: ts => tasks_applied (Z.max applied i) ts
  | _ :: ts => tasks_applied applied ts
  end.

Lemma log_events_nil C d a b : b < a → log_events C d a b = [].
Proof. intros. unfold log_events. by rewrite seqZ_nil by lia. Qed.

Lemma log_events_cons C d a b :
  a ≤ b → log_events C d a b = entry_events (C a) (d a) ++ log_events C d (a + 1) b.
Proof.
  intros. unfold log_events. rewrite seqZ_cons by lia. cbn. do 2 f_equal. f_equal; lia.
Qed.

Lemma log_events_split C d a b c :
  a ≤ b + 1 → b ≤ c → log_events C d a c = log_events C d a b ++ log_events C d (b + 1) c.
Proof.
  intros. unfold log_events. replace (c + 1 - a) with ((b + 1 - a) + (c - b)) by lia.
  rewrite seqZ_app by lia. rewrite bind_app. do 2 f_equal. f_equal; lia.
Qed.

Lemma list_bind_ext_elem {A B} (f g : A → list B) (l : list A) :
  (∀ x, x ∈ l → f x = g x) → l ≫= f = l ≫= g.
Proof. induction l as [|x l IH]; intros Hfg; [done|]. cbn. rewrite Hfg, IH by set_solver. done. Qed.

Lemma list_bind_none {A B} (f : A → list B) (l : list A) : (∀ x, x ∈ l → f x = []) → l ≫= f = [].
Proof. induction l as [|x l IH]; intros Hf; [done|]. cbn. rewrite Hf, IH by set_solver. done. Qed.

Lemma log_events_ext C d d' a b :
  (∀ i, a ≤ i ≤ b → d i = d' i) → log_events C d a b = log_events C d' a b.
Proof.
  intros Hd. unfold log_events. apply list_bind_ext_elem. intros i Hi%elem_of_seqZ. by rewrite Hd by lia.
Qed.

(** ** Closures *)

Lemma pop_covers q c :
  cq_covers q c →
  ∃ q' cl first, cq_pop_closure_until q c = Some (q', cl, first) ∧
    (∀ i, first ≤ i ≤ c → zlookup cl (i - first) = Some (closure_at q i)) ∧
    (∀ i, i ≤ c → i < first → closure_at q i = None) ∧
    (∀ i, c < i → closure_at q' i = closure_at q i) ∧
    (∀ i, cq_covers q i → cq_covers q' i).
Proof.
  intros Hc. rewrite cq_pop_closure_until_spec by (intros ?; by destruct Hc).
  destruct (decide (cq_queue q = [] ∨ c < cq_first_index q)) as [Hd|Hd].
  { eexists q, [], (c + 1). split_and!; [done|lia| |done|done]. intros i Hi _. unfold closure_at.
    rewrite decide_True; [done|]. destruct Hd; [by left|right; lia]. }
  assert (cq_queue q ≠ []) as Hne by tauto. destruct Hc as [?|Hc]; [done|].
  pose proof (zlen_nonneg (cq_queue q)). cbn zeta. do 3 eexists. split; [reflexivity|]. split_and!.
  - intros i Hi. rewrite zlookup_take by lia. unfold closure_at. rewrite decide_False by (intros [|]; [done|lia]).
    destruct (zlookup_in_range (cq_queue q) (i - cq_first_index q)) as [x ->]; [lia|done].
  - intros i Hi Hlt. unfold closure_at. rewrite decide_True by (right; lia). done.
  - intros i Hi. unfold closure_at at 1. cbn. unfold closure_at. rewrite (decide_False (P := _ = [] ∨ _ < cq_first_index q)) by (intros [|]; [done|lia]).
    case_decide as He.
    + destruct He as [He|]; [|lia]. apply (f_equal length) in He. rewrite length_drop in He. cbn in He.
      unfold zlookup. rewrite decide_False by lia. rewrite lookup_ge_None_2; [done|]. unfold zlen in *. lia.
    + rewrite zlookup_drop by lia. do 2 f_equal. lia.
  - intros i [?|Hl]; [done|]. unfold cq_covers. cbn. right. rewrite zlen_drop. lia.
Qed.

Section spec.
Context {S : Type} `{LogStorage S} (env : FsmEnv) (batch : Z).
Context (good : LogManager S → Prop) (C : Z → LogEntry) (lo hi : Z) `{!LogView good C lo hi}.
Implicit Types w : FsmWorld S.

(** What the others do leaves the committed log alone. *)
Definition others_good w : Prop :=
  Forall (λ f, ∀ m, good m → ∃ m', f m = Some m' ∧ good m') (fw_others w).

(** The user does not report errors. *)
Definition user_plain w : Prop := Forall (Forall (λ op, op = IterNext)) (fw_user w).

Definition fw_ok w : Prop := good (fw_log_manager w) ∧ others_good w.

(** [w'] is [w] after events [evs], with the log, the others and the user as
    they should be. *)
Record steps w w' (evs : list FsmEvent) : Prop := {
  st_ok : fw_ok w';
  st_user : user_plain w → user_plain w';
  st_queue : fw_closure_queue w' = fw_closure_queue w;
  st_caller : ∃ i, fw_caller w' = fc_with_applying i (fw_caller w);
  st_out : fw_out w' = fw_out w ++ evs;
}.

Lemma steps_refl w : fw_ok w → steps w w [].
Proof.
  intros. split; try done; [|by rewrite app_nil_r]. exists (fc_applying_index (fw_caller w)). by destruct (fw_caller w).
Qed.

Lemma steps_trans w1 w2 w3 evs1 evs2 : steps w1 w2 evs1 → steps w2 w3 evs2 → steps w1 w3 (evs1 ++ evs2).
Proof.
  intros [_ Hu1 Hq1 [i Hc1] Ho1] [Hok Hu2 Hq2 [j Hc2] Ho2]. split; [done|auto|congruence| |].
  - exists j. by rewrite Hc2, Hc1.
  - by rewrite Ho2, Ho1, app_assoc.
Qed.

Lemma steps_emit w evs : fw_ok w → ∃ w', fsm_emit evs w = Some (tt, w') ∧ steps w w' evs.
Proof.
  intros Hok. eexists. split; [reflexivity|]. split; try done.
  exists (fc_applying_index (fw_caller w)). by destruct (fw_caller w).
Qed.

Lemma steps_run w d status : fw_ok w → ∃ w', run_done d status w = Some (tt, w') ∧ steps w w' (run_events d status).
Proof. intros Hok. destruct d; [by apply steps_emit|]. eexists. split; [reflexivity|by apply steps_refl]. Qed.

Lemma steps_log {A} (f : LogManager S → option (LogManager S * A)) (a : A) w :
  fw_ok w → (∀ m, good m → ∃ m', f m = Some (m', a) ∧ good m') → ∃ w', fsm_log f w = Some (a, w') ∧ steps w w' [].
Proof.
  intros [Hg Ho] Hf. unfold fsm_log.
  assert (∃ m, match fw_others w with g :: _ => g (fw_log_manager w) | [] => Some (fw_log_manager w) end = Some m ∧
    good m ∧ Forall (λ f, ∀ m, good m → ∃ m', f m = Some m' ∧ good m') (tail (fw_others w))) as (m & -> & Hm & Ht).
  { unfold others_good in Ho. destruct Ho as [|g l Hgm Hl]; [by eexists|].
    destruct (Hgm _ Hg) as (m' & ? & ?). by exists m'. }
  destruct (Hf m Hm) as (m' & Hfm & Hm'). cbn. rewrite Hfm. cbn. eexists. split; [reflexivity|].
  split; cbn; [done|done|done| |by rewrite app_nil_r]. exists (fc_applying_index (fw_caller w)). by destruct (fw_caller w).
Qed.

Lemma fsm_log_user {A} (f : LogManager S → option (LogManager S * A)) w a w' :
  fsm_log f w = Some (a, w') → fw_user w' = fw_user w.
Proof. unfold fsm_log. intros (m & _ & ([m' a'] & _ & [= <- <-])%bind_Some)%bind_Some. done. Qed.

Lemma it_next_user it w it' w' : it_next it w = Some (it', w') → fw_user w' = fw_user w.
Proof.
  unfold it_next. case_decide; [|by intros [= <- <-]]. case_decide; [|by intros [= <- <-]].
  intros (e & w1 & Hl%fsm_log_user & ([] & w2 & [= <-] & [= <- <-])%st_bind_Some)%st_bind_Some. done.
Qed.

(** ** The iterator over the log *)

Context (cl : list (option Closure)) (first c : Z) (d : Z → option Closure).
Context (Hcl : ∀ i, first ≤ i ≤ c → zlookup cl (i - first) = Some (d i)).
Context (Hnone : ∀ i, i ≤ c → i < first → d i = None).
Context (Hc : c ≤ hi).

Definition it_pos (i : Z) : IteratorImpl :=
  mkIteratorImpl cl first i c (if decide (i ≤ c) then Some (C i) else None) no_error.

Lemma it_pos_good i : it_is_good (it_pos i) = bool_decide (i ≤ c).
Proof. unfold it_is_good. cbn. apply andb_true_r. Qed.

Lemma it_pos_valid i : it_valid (it_pos i) = bool_decide (i ≤ c ∧ type (C i) = ENTRY_TYPE_DATA).
Proof.
  unfold it_valid. rewrite it_pos_good. unfold it_is_data. cbn. case_decide.
  - rewrite bool_decide_and. done.
  - rewrite !bool_decide_false by lia. done.
Qed.

Lemma it_pos_done i : i ≤ c → it_done (it_pos i) = Some (d i).
Proof.
  intros Hi. unfold it_done. cbn. case_decide; [by rewrite Hnone by lia|]. by rewrite Hcl by lia.
Qed.

Lemma it_next_pos w i e :
  fw_ok w → lo ≤ i ≤ c →
  ∃ w', it_next (mkIteratorImpl cl first i c e no_error) w = Some (it_pos (i + 1), w') ∧ steps w w' [].
Proof.
  intros Hok Hi. unfold it_next, it_pos. cbn. rewrite decide_True by lia. case_decide as Hn; cbn [it_at].
  - destruct (steps_log (λ m, lm_get_entry m (i + 1)) (Some (C (i + 1))) w Hok) as (w1 & H1 & Hs1).
    { intros m Hm. exists m. split; [|done]. apply lv_get; [done|lia]. }
    erewrite st_bind_eq by exact H1. erewrite st_bind_eq by reflexivity. eexists. split; [reflexivity|].
    destruct Hs1 as [Ha Hb Hq [j Hj] Ho]. split; try done. exists (i + 1). cbn. by rewrite Hj.
  - eexists. split; [reflexivity|by apply steps_refl].
Qed.

(** What is left to show at position [i], whose entry is shown already when it
    is data. *)
Definition rest (i : Z) : list FsmEvent :=
  if decide (i ≤ c ∧ type (C i) = ENTRY_TYPE_DATA) then log_events C d (i + 1) c else log_events C d i c.

Lemma steps_show w i :
  fw_ok w → ∃ w' evs, it_show (it_pos i) w = Some (tt, w') ∧ steps w w' evs ∧ evs ++ rest i = log_events C d i c ∧
    fw_user w' = fw_user w.
Proof.
  intros Hok. unfold it_show, rest. rewrite it_pos_valid. destruct (decide (i ≤ c)) as [Hi|Hi].
  - assert (it_cur_entry (it_pos i) = Some (C i)) as -> by (unfold it_pos; cbn; by rewrite decide_True).
    destruct (decide (i ≤ c ∧ type (C i) = ENTRY_TYPE_DATA)) as [Hd|Hd].
    + rewrite bool_decide_true by done. rewrite it_pos_done by done.
      destruct (steps_emit w [FsmApply (C i) (d i)] Hok) as (w' & H1 & Hs).
      exists w', [FsmApply (C i) (d i)]. split_and!; [|done| |by injection H1 as <-].
      * erewrite st_bind_eq by reflexivity. exact H1.
      * rewrite (log_events_cons _ _ i) by done. unfold entry_events. by rewrite (proj2 Hd).
    + rewrite bool_decide_false by done. exists w, []. split_and!; [done|by apply steps_refl|done..].
  - exists w, []. unfold it_pos. cbn. rewrite decide_False by lia.
    split_and!; [done|by apply steps_refl| |done]. rewrite decide_False by tauto. done.
Qed.

Lemma steps_iter_ops ops : ∀ w i,
  fw_ok w → lo < i ≤ c + 1 → Forall (λ op, op = IterNext) ops →
  ∃ j w' evs, iter_ops ops (it_pos i) w = Some (it_pos j, w') ∧ steps w w' evs ∧ i ≤ j ≤ c + 1 ∧
    evs ++ rest j = rest i.
Proof.
  induction ops as [|op ops IH]; intros w i Hok Hi Hops.
  { exists i, w, []. split_and!; [done|by apply steps_refl|lia..|done]. }
  apply Forall_cons in Hops as [-> Hops]. cbn [iter_ops iter_op]. rewrite it_pos_valid.
  destruct (decide (i ≤ c ∧ type (C i) = ENTRY_TYPE_DATA)) as [Hd|Hd].
  - rewrite bool_decide_true by done.
    destruct (it_next_pos w i (it_cur_entry (it_pos i)) Hok) as (w1 & H1 & Hs1); [lia|].
    destruct (steps_show w1 (i + 1) (st_ok _ _ _ Hs1)) as (w2 & evs2 & H2 & Hs2 & He2 & _).
    destruct (IH w2 (i + 1) (st_ok _ _ _ Hs2)) as (j & w3 & evs3 & H3 & Hs3 & Hj & He3); [lia|done|].
    exists j, w3, ([] ++ evs2 ++ evs3). split; [|split; [by repeat (eapply steps_trans; [done|])|]].
    + erewrite st_bind_eq; [exact H3|]. erewrite st_bind_eq by exact H1. erewrite st_bind_eq by exact H2. done.
    + split; [lia|]. cbn. rewrite <-app_assoc, He3, He2. unfold rest. by rewrite decide_True.
  - rewrite bool_decide_false by done.
    destruct (IH w i Hok Hi Hops) as (j & w3 & evs3 & H3 & Hs3 & Hj & He3).
    exists j, w3, evs3. split; [|done]. erewrite st_bind_eq; [exact H3|reflexivity].
Qed.

(** One round of the loop, at an entry that is not data and at one that is. *)
Lemma steps_other_entry w i :
  fw_ok w → lo < i ≤ c → type (C i) ≠ ENTRY_TYPE_DATA →
  ∃ w', apply_entry (C i) (it_pos i) w = Some (it_pos (i + 1), w') ∧ steps w w' (entry_events (C i) (d i)).
Proof.
  intros Hok Hi Ht. unfold apply_entry. rewrite decide_True by done.
  assert (∃ w1 evs1, (if decide (type (C i) = ENTRY_TYPE_CONFIGURATION ∧ old_peers (C i) = None) then
      ps ← st_lift (peers (C i));
      fsm_emit [FsmConfigurationCommitted (conf_of_vector ps) (index (id (C i)))] else mret tt) w = Some (tt, w1) ∧
    steps w w1 evs1 ∧ evs1 ++ run_events (d i) 0 = entry_events (C i) (d i)) as (w1 & evs1 & H1 & Hs1 & He1).
  { unfold entry_events. case_decide as Hcf.
    - destruct Hcf as [Hcf Hold]. destruct (peers (C i)) as [ps|] eqn:Ep; [|exfalso; eapply lv_peers; [apply Hok| |done..]; lia].
      destruct (steps_emit w [FsmConfigurationCommitted (conf_of_vector ps) (index (id (C i)))] Hok) as (w1 & H1 & Hs1).
      eexists w1, _. split; [erewrite st_bind_eq by reflexivity; exact H1|]. split; [done|]. by rewrite Hcf, Hold.
    - exists w, []. split; [done|]. split; [by apply steps_refl|]. destruct (type (C i)); try done.
      destruct (old_peers (C i)); [done|]. by destruct Hcf. }
  destruct (steps_run w1 (d i) 0 (st_ok _ _ _ Hs1)) as (w2 & H2 & Hs2).
  destruct (it_next_pos w2 i (it_cur_entry (it_pos i)) (st_ok _ _ _ Hs2)) as (w3 & H3 & Hs3); [lia|].
  exists w3. split.
  - erewrite st_bind_eq by exact H1. rewrite it_pos_done by lia. erewrite st_bind_eq by reflexivity.
    erewrite st_bind_eq by exact H2. exact H3.
  - rewrite <-He1, <-(app_nil_r (run_events _ _)). by repeat (eapply steps_trans; [done|]).
Qed.

Lemma steps_on_apply w i :
  fw_ok w → user_plain w → lo < i ≤ c →
  ∃ j w' evs, on_apply (it_pos i) w = Some (it_pos j, w') ∧ steps w w' evs ∧ i ≤ j ≤ c + 1 ∧
    evs ++ rest j = log_events C d i c.
Proof.
  intros Hok Hu Hi. destruct (steps_show w i Hok) as (w1 & evs1 & H1 & Hs1 & He1 & _).
  assert (∃ w2, next_user w1 = Some (default [] (head (fw_user w1)), w2) ∧ steps w1 w2 [] ∧
    Forall (λ op, op = IterNext) (default [] (head (fw_user w1)))) as (w2 & H2 & Hs2 & Hops).
  { pose proof (st_ok _ _ _ Hs1) as Hok1. pose proof (st_user _ _ _ Hs1 Hu) as Hu1. unfold user_plain in Hu1.
    eexists. split; [reflexivity|]. split; [|destruct Hu1; cbn; [constructor|done]].
    split; cbn; [exact Hok1| |done| |by rewrite app_nil_r].
    - intros _. unfold user_plain. cbn. by destruct Hu1.
    - exists (fc_applying_index (fw_caller w1)). by destruct (fw_caller w1). }
  destruct (steps_iter_ops _ w2 i (st_ok _ _ _ Hs2) ltac:(lia) Hops) as (j & w3 & evs3 & H3 & Hs3 & Hj & He3).
  exists j, w3, (evs1 ++ [] ++ evs3). split_and!; [|by repeat (eapply steps_trans; [done|])|lia..|].
  - unfold on_apply. erewrite st_bind_eq by exact H1. erewrite st_bind_eq by exact H2. exact H3.
  - cbn. by rewrite <-app_assoc, He3.
Qed.

Lemma steps_apply_entry w i :
  fw_ok w → user_plain w → lo < i ≤ c →
  ∃ j w' evs, apply_entry (C i) (it_pos i) w = Some (it_pos j, w') ∧ steps w w' evs ∧ i < j ≤ c + 1 ∧
    evs ++ log_events C d j c = log_events C d i c.
Proof.
  intros Hok Hu Hi. destruct (decide (type (C i) = ENTRY_TYPE_DATA)) as [Ht|Ht].
  - destruct (steps_on_apply w i Hok Hu Hi) as (j & w1 & evs1 & H1 & Hs1 & Hj & He1).
    unfold apply_entry. rewrite decide_False by tauto. erewrite st_bind_eq by exact H1.
    unfold iterator_next. rewrite it_pos_valid. unfold rest in He1.
    destruct (decide (j ≤ c ∧ type (C j) = ENTRY_TYPE_DATA)) as [Hd|Hd].
    + rewrite bool_decide_true by done.
      destruct (it_next_pos w1 j (it_cur_entry (it_pos j)) (st_ok _ _ _ Hs1)) as (w2 & H2 & Hs2); [lia|].
      exists (j + 1), w2, (evs1 ++ []). split_and!; [exact H2|by eapply steps_trans|lia..|]. by rewrite app_nil_r.
    + rewrite bool_decide_false by done. exists j, w1, evs1. split_and!; [done|done| |lia|done].
      assert (j ≠ i); [|lia]. intros ->. apply Hd. split; [lia|done].
  - destruct (steps_other_entry w i Hok Hi Ht) as (w' & H1 & Hs). exists (i + 1), w', (entry_events (C i) (d i)).
    split_and!; [done|done|lia..|]. by rewrite <-log_events_cons by lia.
Qed.

Lemma steps_apply_loop fuel : ∀ w i,
  fw_ok w → user_plain w → lo < i ≤ c + 1 → c + 1 - i ≤ Z.of_nat fuel →
  ∃ w', apply_loop fuel (it_pos i) w = Some (it_pos (c + 1), w') ∧ steps w w' (log_events C d i c).
Proof.
  induction fuel as [|fuel IH]; intros w i Hok Hu Hi Hf; cbn [apply_loop].
  { replace i with (c + 1) by lia. exists w. split; [done|]. rewrite log_events_nil by lia. by apply steps_refl. }
  rewrite it_pos_good. destruct (decide (i ≤ c)) as [Hle|Hgt].
  - rewrite bool_decide_true by done.
    assert (st_lift (it_cur_entry (it_pos i)) w = Some (C i, w)) as He by (unfold it_pos; cbn; by rewrite decide_True).
    destruct (steps_apply_entry w i Hok Hu) as (j & w1 & evs1 & H1 & Hs1 & Hj & He1); [lia|].
    destruct (IH w1 j (st_ok _ _ _ Hs1) (st_user _ _ _ Hs1 Hu)) as (w2 & H2 & Hs2); [lia..|].
    exists w2. split; [|rewrite <-He1; by eapply steps_trans].
    erewrite st_bind_eq by exact He. erewrite st_bind_eq by exact H1. exact H2.
  - rewrite bool_decide_false by done. replace i with (c + 1) by lia. exists w. split; [done|].
    rewrite log_events_nil by lia. by apply steps_refl.
Qed.

(** ** Rolling back *)

Lemma steps_data_ops k : ∀ w i,
  fw_ok w → lo < i → i + Z.of_nat k ≤ c → (∀ j, i ≤ j ≤ i + Z.of_nat k → type (C j) = ENTRY_TYPE_DATA) →
  ∃ w', iter_ops (replicate k IterNext) (it_pos i) w = Some (it_pos (i + Z.of_nat k), w') ∧
    steps w w' (log_events C d (i + 1) (i + Z.of_nat k)).
Proof.
  induction k as [|k IH]; intros w i Hok Hlo Hi Hdata; cbn [replicate iter_ops iter_op].
  { exists w. replace (i + Z.of_nat 0) with i by lia. rewrite log_events_nil by lia. split; [done|by apply steps_refl]. }
  rewrite it_pos_valid, bool_decide_true by (split; [lia|apply Hdata; lia]).
  destruct (it_next_pos w i (it_cur_entry (it_pos i)) Hok) as (w1 & H1 & Hs1); [lia|].
  destruct (steps_show w1 (i + 1) (st_ok _ _ _ Hs1)) as (w2 & evs2 & H2 & Hs2 & He2 & _).
  destruct (IH w2 (i + 1) (st_ok _ _ _ Hs2)) as (w3 & H3 & Hs3); [lia|lia|intros; apply Hdata; lia|].
  unfold rest in He2. rewrite decide_True, (log_events_cons _ _ (i + 1)) in He2 by (lia || (split; [lia|apply Hdata; lia])).
  apply app_inv_tail in He2. replace (i + 1 + Z.of_nat k) with (i + Z.of_nat (Datatypes.S k)) in * by lia.
  exists w3. split.
  - erewrite st_bind_eq; [exact H3|]. erewrite st_bind_eq by exact H1. erewrite st_bind_eq by exact H2. done.
  - rewrite (log_events_cons _ _ (i + 1)), <-He2 by lia. change (evs2 ++ ?l) with ([] ++ evs2 ++ l).
    by repeat (eapply steps_trans; [done|]).
Qed.

Lemma failed_not_good it : it_has_error it = true → it_is_good it = false.
Proof. intros He. unfold it_is_good. rewrite He. apply andb_false_r. Qed.

Lemma iter_ops_app ops ops' it it' w w' :
  iter_ops ops it w = Some (it', w') → iter_ops (ops ++ ops') it w = iter_ops ops' it' w'.
Proof.
  revert it w. induction ops as [|op ops IH]; intros it w; cbn [iter_ops app]; [by intros [= -> ->]|].
  intros (it1 & w1 & H1 & H2)%st_bind_Some. erewrite st_bind_eq by exact H1. by apply IH.
Qed.

(** The user iterates over [k] more tasks and takes the last [n] back. *)
Lemma steps_rollback w i k n more fuel :
  fw_ok w → fw_user w = (replicate k IterNext ++ [IterRollback n]) :: more → n ≠ 0 →
  lo < i → i + Z.of_nat k ≤ c → (∀ j, i ≤ j ≤ i + Z.of_nat k → type (C j) = ENTRY_TYPE_DATA) →
  ∃ w', apply_loop (Datatypes.S fuel) (it_pos i) w =
      Some (mkIteratorImpl cl first (i + Z.of_nat k + 1 - n) c None (mkError ERROR_TYPE_STATE_MACHINE ESTATEMACHINE), w') ∧
    steps w w' (log_events C d i (i + Z.of_nat k)).
Proof.
  intros Hok Huser Hn Hlo Hi Hdata. destruct (steps_show w i Hok) as (w1 & evs1 & H1 & Hs1 & He1 & Hu1).
  pose proof (Hdata i ltac:(lia)) as Hdi. unfold rest in He1.
  rewrite decide_True, (log_events_cons _ _ i) in He1 by (lia || (split; [lia|done])). apply app_inv_tail in He1.
  set (w1' := mkFsmWorld (fw_caller w1) (fw_log_manager w1) (fw_closure_queue w1) (fw_others w1) more (fw_out w1)).
  assert (next_user w1 = Some (replicate k IterNext ++ [IterRollback n], w1')) as H2
    by (unfold next_user; by rewrite Hu1, Huser).
  destruct (steps_data_ops k w1' i (st_ok _ _ _ Hs1)) as (w2 & H3 & Hs2); [done..|].
  set (it' := mkIteratorImpl cl first (i + Z.of_nat k + 1 - n) c None (mkError ERROR_TYPE_STATE_MACHINE ESTATEMACHINE)).
  assert (iter_ops (replicate k IterNext ++ [IterRollback n]) (it_pos i) w1' = Some (it', w2)) as H4.
  { rewrite (iter_ops_app _ _ _ _ _ _ H3). cbn [iter_ops iter_op]. unfold it_set_error_and_rollback.
    erewrite st_bind_eq; [reflexivity|]. erewrite st_bind_eq by by apply st_check_true.
    assert (it_is_data (it_pos (i + Z.of_nat k)) = true) as ->.
    { unfold it_is_data, it_pos. cbn. rewrite decide_True by done. apply bool_decide_true, Hdata. lia. }
    cbn. by replace (i + Z.of_nat k - (n - 1)) with (i + Z.of_nat k + 1 - n) by lia. }
  exists w2. split.
  - cbn [apply_loop]. rewrite it_pos_good, bool_decide_true by lia.
    assert (st_lift (it_cur_entry (it_pos i)) w = Some (C i, w)) as He
      by (unfold it_pos; cbn; by rewrite decide_True by lia).
    erewrite st_bind_eq by exact He.
    assert (on_apply (it_pos i) w = Some (it', w2)) as H5
      by (unfold on_apply; erewrite st_bind_eq by exact H1; by erewrite st_bind_eq by exact H2).
    assert (apply_entry (C i) (it_pos i) w = Some (it', w2)) as H6
      by (unfold apply_entry; rewrite decide_False by tauto; erewrite st_bind_eq by exact H5;
          unfold iterator_next, it_valid; by rewrite failed_not_good).
    erewrite st_bind_eq by exact H6. destruct fuel; [done|]. cbn [apply_loop]. by rewrite failed_not_good.
  - rewrite (log_events_cons _ _ i), <-He1 by lia. eapply steps_trans; [done|].
    destruct Hs2 as [Hok2 Hu2 Hq2 [j Hj] Ho2]. split; [done| |done|by exists j|done].
    intros Hp. apply Hu2. unfold user_plain in *. rewrite Hu1, Huser in Hp. by apply Forall_cons in Hp as [_ ?].
Qed.

Lemma steps_rest_from w er n : ∀ a,
  fw_ok w → first ≤ a → a + Z.of_nat n = c + 1 →
  ∃ w', st_each (λ i, x ← st_lift (zlookup cl (i - first)); run_done x er) (seqZ a (Z.of_nat n)) w = Some (tt, w') ∧
    steps w w' (seqZ a (Z.of_nat n) ≫= λ i, run_events (d i) er).
Proof.
  revert w. induction n as [|n IH]; intros w a Hok Ha Hn; [exists w; split; [done|by apply steps_refl]|].
  rewrite seqZ_cons by lia. replace (Z.pred (Z.of_nat (Datatypes.S n))) with (Z.of_nat n) by lia. cbn [st_each mbind list_bind].
  destruct (steps_run w (d a) er Hok) as (w1 & H1 & Hs1).
  destruct (IH w1 (Z.succ a) (st_ok _ _ _ Hs1)) as (w2 & H2 & Hs2); [lia..|].
  exists w2. split; [|by eapply steps_trans]. erewrite st_bind_eq; [exact H2|].
  rewrite Hcl by lia. by erewrite st_bind_eq by reflexivity.
Qed.

Lemma steps_rest w j er :
  fw_ok w → j ≤ c →
  ∃ w', run_the_rest_closure_with_error (mkIteratorImpl cl first j c None er) w = Some (tt, w') ∧
    steps w w' (seqZ j (c + 1 - j) ≫= λ i, run_events (d i) (er_status er)).
Proof.
  intros Hok Hj. unfold run_the_rest_closure_with_error. cbn. destruct (decide (Z.max j first ≤ c + 1)) as [Hf|Hf].
  - destruct (steps_rest_from w (er_status er) (Z.to_nat (c + 1 - Z.max j first)) (Z.max j first) Hok) as (w' & H1 & Hs); [lia..|].
    rewrite Z2Nat.id in H1, Hs by lia. exists w'. split; [exact H1|].
    replace (c + 1 - j) with ((Z.max j first - j) + (c + 1 - Z.max j first)) by lia. rewrite seqZ_app, bind_app by lia.
    replace (j + (Z.max j first - j)) with (Z.max j first) by lia.
    rewrite (list_bind_none _ (seqZ j _)); [done|]. intros i Hi%elem_of_seqZ. by rewrite Hnone by lia.
  - rewrite seqZ_nil by lia. exists w. split; [done|]. rewrite list_bind_none; [by apply steps_refl|].
    intros i Hi%elem_of_seqZ. by rewrite Hnone by lia.
Qed.
End spec.
(** ** The queue *)

Section queue.
Context {S : Type} `{LogStorage S} (env : FsmEnv) (batch : Z).
Context (good : LogManager S → Prop) (C : Z → LogEntry) (lo hi : Z) `{!LogView good C lo hi}.
Implicit Types w : FsmWorld S.

Lemma view_id m i : good m → lo < i ≤ hi → mkLogId i (term (id (C i))) = id (C i).
Proof. intros Hm Hi. rewrite <-(lv_index m i Hm Hi) at 1. by destruct (id (C i)). Qed.

(** Between two tasks: the entries up to [a] are applied and nothing is
    wrong; the queue has the closures [d] of the entries to come. *)
Record idle w (a : Z) (d : Z → option Closure) : Prop := {
  id_ok' : fw_ok good w;
  id_user : user_plain w;
  id_applied : fc_last_applied_index (fw_caller w) = a;
  id_term : lo < a → fc_last_applied_term (fw_caller w) = term (id (C a));
  id_error : fc_error (fw_caller w) = no_error;
  id_closures : ∀ i, a < i → closure_at (fw_closure_queue w) i = d i;
}.

(** [do_committed] up to its loop. *)
Lemma do_committed_start w a c :
  fw_ok good w → fc_last_applied_index (fw_caller w) = a → fc_error (fw_caller w) = no_error →
  lo ≤ a < c → c ≤ hi → cq_covers (fw_closure_queue w) c →
  ∃ cl first q' w1,
    (∀ i, first ≤ i ≤ c → zlookup cl (i - first) = Some (closure_at (fw_closure_queue w) i)) ∧
    (∀ i, i ≤ c → i < first → closure_at (fw_closure_queue w) i = None) ∧
    (∀ i, c < i → closure_at q' i = closure_at (fw_closure_queue w) i) ∧
    (∀ i, cq_covers (fw_closure_queue w) i → cq_covers q' i) ∧
    steps good (mkFsmWorld (fw_caller w) (fw_log_manager w) q' (fw_others w) (fw_user w) (fw_out w)) w1 [] ∧
    fw_user w1 = fw_user w ∧
    do_committed c w = (apply_loop (Z.to_nat (c - a)) (it_pos C cl first c (a + 1)) ≫= finish_committed c) w1.
Proof.
  intros Hok Ha He Hlo Hhi Hcov.
  destruct (pop_covers _ c Hcov) as (q' & cl & first & Hpop & Hin & Hout & Hlater & Hcov').
  set (w0 := mkFsmWorld (fw_caller w) (fw_log_manager w) q' (fw_others w) (fw_user w) (fw_out w)).
  assert (pop_closure_until c w = Some ((cl, first), w0)) as H0 by (unfold pop_closure_until; by rewrite Hpop).
  destruct (it_next_pos good C lo hi cl first c Hhi w0 a None Hok) as (w1 & H1 & Hs1); [lia|].
  exists cl, first, q', w1. split_and!; [done..|by apply it_next_user in H1|]. unfold do_committed.
  erewrite st_bind_eq by reflexivity. rewrite He, Ha. rewrite decide_False by (cbn; lia). rewrite decide_False by lia.
  erewrite st_bind_eq by exact H0. cbn beta iota. by erewrite st_bind_eq by exact H1.
Qed.

(** ... and after it, when the iterator stopped before [j]. *)
Lemma finish_committed_spec w c it j evs w1 :
  fw_ok good w1 → it_cur_index it = j + 1 → lo < j ≤ hi →
  (if it_has_error it then set_error (it_error it);; run_the_rest_closure_with_error it else mret tt) w = Some (tt, w1) →
  fw_out w1 = fw_out w ++ evs →
  ∃ w', finish_committed c it w = Some (tt, w') ∧ fw_ok good w' ∧ (user_plain w1 → user_plain w') ∧
    fw_closure_queue w' = fw_closure_queue w1 ∧ fw_out w' = fw_out w ++ evs ∧
    ∃ k, fw_caller w' = fc_with_applying k (fc_with_applied c (term (id (C j))) (fw_caller w1)).
Proof.
  intros Hok Hj Hr H1 Ho1. unfold finish_committed. erewrite st_bind_eq by exact H1. rewrite Hj.
  replace (j + 1 - 1) with j by lia.
  destruct (steps_log good (λ m, t ← lm_get_term m j; Some (m, t)) (term (id (C j))) w1 Hok) as (w2 & H2 & Hs2).
  { intros m Hm. exists m. rewrite lv_term by done. done. }
  erewrite st_bind_eq by exact H2. erewrite st_bind_eq by reflexivity.
  edestruct (steps_log good (λ m, Some (lm_set_applied_id m (mkLogId j (term (id (C j)))), tt)) tt) as (w3 & H3 & Hs3).
  2:{ intros m Hm. eexists. split; [done|]. rewrite (view_id m) by done. by apply lv_applied. }
  2:{ exists w3. split; [exact H3|]. destruct Hs2 as [Hok2 Hu2 Hq2 [k Hk] Ho2], Hs3 as [Hok3 Hu3 Hq3 [k' Hk'] Ho3].
      cbn in *. split_and!; [done|auto|congruence|by rewrite Ho3, app_nil_r, Ho2, app_nil_r|].
      exists k'. rewrite Hk', Hk. done. }
  apply Hs2.
Qed.

(** The greatest committed index is applied, with its term, and the closures
    up to it are gone. *)
Lemma do_committed_spec w a d c :
  idle w a d → lo ≤ a → c ≤ hi → cq_covers (fw_closure_queue w) c →
  ∃ w', do_committed c w = Some (tt, w') ∧ idle w' (Z.max a c) d ∧ fw_out w' = fw_out w ++ log_events C d (a + 1) c ∧
    ∀ i, cq_covers (fw_closure_queue w) i → cq_covers (fw_closure_queue w') i.
Proof.
  intros Hid Hlo Hhi Hcov. destruct (decide (c ≤ a)) as [Hca|Hca].
  { exists w. rewrite Z.max_l, log_events_nil, app_nil_r by lia. split; [|done]. destruct Hid as [_ _ Ha _ He _].
    unfold do_committed. erewrite st_bind_eq by reflexivity. rewrite He, Ha, decide_False by (cbn; lia).
    by rewrite decide_True. }
  destruct Hid as [Hok Hu Ha Ht He Hd].
  destruct (do_committed_start w a c Hok Ha He) as (cl & first & q' & w1 & Hin & Hout & Hlater & Hcov' & Hs1 & Hu1 & ->);
    [lia|done|done|]. set (dq := closure_at (fw_closure_queue w)) in *.
  destruct (steps_apply_loop good C lo hi cl first c dq Hin Hout Hhi (Z.to_nat (c - a)) w1 (a + 1)
    (st_ok _ _ _ _ Hs1) (st_user _ _ _ _ Hs1 Hu)) as (w2 & H2 & Hs2); [lia..|].
  pose proof (steps_trans _ _ _ _ _ _ Hs1 Hs2) as [Hok2 Hu2 Hq2 [j Hj] Ho2]. cbn in Hj, Hq2, Ho2.
  destruct (finish_committed_spec w2 c (it_pos C cl first c (c + 1)) c [] w2) as (w3 & H3 & Hok3 & Hu3 & Hq3 & Ho3 & k & Hk);
    [done|done|lia|done|by rewrite app_nil_r|].
  exists w3. split; [by erewrite st_bind_eq by exact H2|]. rewrite Z.max_r by lia.
  rewrite Ho3, app_nil_r, Ho2, Hq3, Hq2. split; [split|split; [|done]].
  - done.
  - by apply Hu3, Hu2.
  - by rewrite Hk.
  - intros _. by rewrite Hk.
  - rewrite Hk. cbn. by rewrite Hj.
  - intros i Hi. rewrite Hq3, Hq2, Hlater by lia. apply Hd. lia.
  - f_equal. apply log_events_ext. intros i Hi. apply Hd. lia.
Qed.

Lemma idle_caller w a d f :
  idle w a d → (∀ k, fc_last_applied_index (f k) = fc_last_applied_index k ∧
    fc_last_applied_term (f k) = fc_last_applied_term k ∧ fc_error (f k) = fc_error k) →
  ∃ w', mod_caller f w = Some (tt, w') ∧ idle w' a d ∧ fw_out w' = fw_out w ∧
    fw_closure_queue w' = fw_closure_queue w.
Proof.
  intros [Hok Hu Ha Ht He Hd] Hf. destruct (Hf (fw_caller w)) as (H1 & H2 & H3).
  eexists. split; [reflexivity|]. split; [|done]. split; cbn; rewrite ?H1, ?H2, ?H3; done.
Qed.

Lemma idle_emit w a d evs :
  idle w a d → ∃ w', fsm_emit evs w = Some (tt, w') ∧ idle w' a d ∧ fw_out w' = fw_out w ++ evs ∧
    fw_closure_queue w' = fw_closure_queue w.
Proof. intros [Hok Hu Ha Ht He Hd]. by eexists. Qed.

Lemma run_committed_spec w a d max :
  idle w a d → 0 ≤ lo → lo ≤ a → max ≤ hi → (0 ≤ max → cq_covers (fw_closure_queue w) max) → -1 ≤ max →
  ∃ w', run_committed max w = Some (tt, w') ∧ idle w' (Z.max a max) d ∧
    fw_out w' = fw_out w ++ log_events C d (a + 1) max ∧
    ∀ i, cq_covers (fw_closure_queue w) i → cq_covers (fw_closure_queue w') i.
Proof.
  intros Hid H0 Hlo Hhi Hcov Hm. unfold run_committed. case_decide as Hmax.
  - destruct (idle_caller w a d (fc_with_task COMMITTED) Hid) as (w1 & H1 & Hid1 & Ho1 & Hq1); [done|].
    destruct (do_committed_spec w1 a d max Hid1) as (w2 & H2 & Hid2 & Ho2 & Hc2); [lia|lia|rewrite Hq1; auto|].
    exists w2. rewrite <-Ho1, <-Hq1. split; [|done]. erewrite st_bind_eq by exact H1. exact H2.
  - exists w. rewrite Z.max_l, log_events_nil, app_nil_r by lia. done.
Qed.

(** A task that is no commit. *)
Lemma run_task_spec w a d t ts q :
  idle w a d → task_plain hi q t → (∀ i, t ≠ ApplyCommitted i) →
  ∃ w' evs, run_task env t w = Some (tt, w') ∧ idle w' a d ∧ fw_out w' = fw_out w ++ evs ∧
    fw_closure_queue w' = fw_closure_queue w ∧
    tasks_events C d a (t :: ts) = evs ++ tasks_events C d a ts ∧ tasks_applied a (t :: ts) = tasks_applied a ts.
Proof.
  intros Hid Ht Hnc. destruct t; try done; [by destruct (Hnc committed_index)|..]; cbn [run_task].
  2:{ destruct (idle_emit w a d [FsmLeaderLeaseStart lease_epoch; FsmOnLeaderStart term] Hid) as (w1 & H1 & ? & ? & ?).
      by eexists w1, _. }
  all: match goal with |- context [mod_caller ?f] =>
         destruct (idle_caller w a d f Hid) as (w1 & H1 & Hid1 & Ho1 & Hq1); [done|] end.
  all: match goal with |- context [fsm_emit ?evs] =>
         destruct (idle_emit w1 a d evs Hid1) as (w2 & H2 & Hid2 & Ho2 & Hq2) end.
  all: eexists w2, _; split_and!; [erewrite st_bind_eq by exact H1; exact H2|done|by rewrite Ho2, Ho1|congruence|done..].
Qed.

Lemma commit_merge d a m i :
  log_events C d (a + 1) m ++ log_events C d (Z.max a m + 1) i = log_events C d (a + 1) (Z.max m i).
Proof.
  destruct (decide (m ≤ a)).
  - rewrite (log_events_nil _ _ (a + 1) m), Z.max_l by lia. cbn.
    destruct (decide (i ≤ a)); [by rewrite !log_events_nil by lia|by rewrite Z.max_r by lia].
  - rewrite (Z.max_r a) by lia. destruct (decide (i ≤ m)).
    + by rewrite (log_events_nil _ _ (m + 1)), app_nil_r, Z.max_l by lia.
    + rewrite Z.max_r by lia. by rewrite <-log_events_split by lia.
Qed.

Lemma tasks_events_committed d a i ts :
  tasks_events C d a (ApplyCommitted i :: ts) = log_events C d (a + 1) i ++ tasks_events C d (Z.max a i) ts.
Proof.
  cbn. case_decide; [by rewrite Z.max_r by lia|]. by rewrite log_events_nil, Z.max_l by lia.
Qed.

(** After a flush nothing is held back. *)
Lemma flushed max counter :
  -1 ≤ max → ∃ n, (if decide (0 ≤ max) then (-1, 0) else (max, counter)) = (-1, n).
Proof. intros. case_decide; [by eexists|]. exists counter. f_equal. lia. Qed.

Lemma run_loop_spec tasks : ∀ w a d max counter q,
  idle w a d → 0 ≤ lo → lo ≤ a → -1 ≤ max ≤ hi → (∀ i, cq_covers q i → cq_covers (fw_closure_queue w) i) →
  (0 ≤ max → cq_covers q max) → Forall (task_plain hi q) tasks →
  ∃ w', run_loop env batch tasks max counter w = Some (tt, w') ∧ idle w' (tasks_applied (Z.max a max) tasks) d ∧
    fw_out w' = fw_out w ++ log_events C d (a + 1) max ++ tasks_events C d (Z.max a max) tasks.
Proof.
  induction tasks as [|t ts IH]; intros w a d max counter q Hid H0 Hlo Hmax Hq Hcov Ht; cbn [run_loop].
  { destruct (run_committed_spec w a d max) as (w1 & H1 & Hid1 & Ho1 & _); [done..|lia|auto|lia|].
    exists w1. by rewrite app_nil_r. }
  apply Forall_cons in Ht as [Ht Hts]. destruct (flushed max counter) as [n Hn]; [lia|].
  destruct (run_committed_spec w a d max) as (w1 & H1 & Hid1 & Ho1 & Hc1); [done..|lia|auto|lia|].
  assert ((∃ i, t = ApplyCommitted i) ∨ ∀ i, t ≠ ApplyCommitted i) as [[i ->]|Hnc] by (destruct t; eauto).
  - destruct Ht as [Hi Hci]. rewrite tasks_events_committed, (app_assoc (log_events _ _ _ _)), commit_merge. cbn [tasks_applied].
    destruct (decide (counter < batch)); [destruct (decide (max < i))|].
    + destruct (IH w a d i (counter + 1) q) as (w' & Hr & Hid' & Ho); [done|done|done|lia|done|done|done|].
      exists w'. rewrite (Z.max_r max i) by lia. by replace (Z.max (Z.max a max) i) with (Z.max a i) by lia.
    + destruct (IH w a d max counter q) as (w' & Hr & Hid' & Ho); [done..|].
      exists w'. rewrite (Z.max_l max i), (Z.max_l (Z.max a max) i) by lia. done.
    + rewrite Hn. cbn beta iota. destruct (decide (-1 < i)).
      * destruct (IH w1 (Z.max a max) d i (n + 1) q) as (w' & Hr & Hid' & Ho); [done|done|lia|lia|auto|done|done|].
        exists w'. split; [by erewrite st_bind_eq by exact H1|]. split; [done|].
        by rewrite Ho, Ho1, <-commit_merge, <-!app_assoc.
      * destruct (IH w1 (Z.max a max) d (-1) n q) as (w' & Hr & Hid' & Ho); [done|done|lia|lia|auto|lia|done|].
        rewrite (Z.max_l (Z.max a max) (-1)), log_events_nil in Ho by lia. rewrite Z.max_l in Hid' by lia.
        exists w'. split; [by erewrite st_bind_eq by exact H1|].
        rewrite (Z.max_l (Z.max a max) i), (Z.max_l max i) by lia. split; [done|]. rewrite Ho, Ho1, <-app_assoc. done.
  - destruct (run_task_spec w1 (Z.max a max) d t ts q Hid1 Ht) as (w2 & evs & H2 & Hid2 & Ho2 & Hq2 & Hev & Hap); [done|].
    destruct (IH w2 (Z.max a max) d (-1) n q) as (w' & Hr & Hid' & Ho); [done|done|lia|lia|rewrite Hq2; auto|lia|done|].
    rewrite (Z.max_l (Z.max a max) (-1)), log_events_nil in Ho by lia. rewrite Z.max_l in Hid' by lia.
    exists w'. split; [|split; [by rewrite Hap|]].
    + destruct t; try (by destruct (Hnc _ eq_refl)); rewrite Hn; (erewrite st_bind_eq by exact H1);
        (erewrite st_bind_eq by exact H2); exact Hr.
    + rewrite Ho, Ho2, Ho1, Hev, <-!app_assoc. done.
Qed.

Lemma set_error_first (e : Error) w :
  er_type (fc_error (fw_caller w)) = ERROR_TYPE_NONE →
  set_error e w = Some (tt, mkFsmWorld (fc_with_error e (fw_caller w)) (fw_log_manager w) (fw_closure_queue w)
    (fw_others w) (fw_user w)
    (fw_out w ++ FsmOnError e :: (if fc_node (fw_caller w) then [FsmNodeOnError e] else []))).
Proof.
  intros He. unfold set_error. erewrite st_bind_eq by reflexivity. rewrite He, decide_False by tauto.
  do 2 (erewrite st_bind_eq by reflexivity). destruct (fc_node (fw_caller w)); [|done].
  unfold fsm_emit, st_mod. cbn. by rewrite <-app_assoc.
Qed.

(** ** Theorems *)

(** C17. The state machine sees the committed log.  Let the tasks be commits,
    each inside the log and with its closures queued, and changes of the leader;
    let the caller have no error, let the other users of the log manager leave
    its entries up to [hi] as they are ([others_good]), and let the state machine
    only advance its iterator, without an error or a rollback ([user_plain]).
    Then, whatever the batch size, the run over the tasks returns, and shows to
    the outside what handling the tasks one by one in their order would show,
    namely every newly committed entry exactly once and in the order of the log,
    with the closure queued for it.  Afterwards the last applied id is that of
    the last committed entry.  Rollbacks are the subject of
    [rollback_stops_caller]; snapshots and errors are not among these tasks. *)
Theorem fsm_applies_log (w : FsmWorld S) (tasks : list ApplyTask)
    (Hlo : 0 ≤ lo ≤ hi) (Hgood : good (fw_log_manager w)) (Hothers : others_good good w) (Huser : user_plain w)
    (Happlied : fc_last_applied_index (fw_caller w) = lo) (Herror : fc_error (fw_caller w) = no_error)
    (Htasks : Forall (task_plain hi (fw_closure_queue w)) tasks) :
  let last := tasks_applied lo tasks in
  ∃ w', fsm_run env batch false tasks w = Some (tt, w') ∧
    fw_out w' = fw_out w ++ tasks_events C (closure_at (fw_closure_queue w)) lo tasks ∧
    fc_last_applied_index (fw_caller w') = last ∧
    (lo < last → fc_last_applied_term (fw_caller w') = term (id (C last))) ∧
    fc_error (fw_caller w') = no_error ∧ good (fw_log_manager w').
Proof.
  cbn zeta. assert (idle w lo (closure_at (fw_closure_queue w))) as Hid by (split; try done; lia).
  destruct (run_loop_spec tasks w lo (closure_at (fw_closure_queue w)) (-1) 0 (fw_closure_queue w))
    as (w1 & H1 & Hid1 & Ho1); [done|lia|lia|lia|done|lia|done|].
  rewrite log_events_nil, Z.max_l in Ho1 by lia. rewrite Z.max_l in Hid1 by lia.
  destruct (idle_caller w1 _ _ (fc_with_task IDLE) Hid1) as (w2 & H2 & [[Hg _] _ Ha Ht He _] & Ho2 & _); [done|].
  exists w2. rewrite Ho2. split_and!; try done. unfold fsm_run. by erewrite st_bind_eq by exact H1.
Qed.

(** C18. A state machine that reports an error stops the caller.  If the user
    iterates over [k] more tasks and then takes back the last [n] of them, the
    tasks shown are exactly those, the error is reported once to the state
    machine and to the node, the closures of the tasks taken back and of all
    later ones up to the commit run with [ESTATEMACHINE], and no later task of
    the queue that commits entries has any effect. *)
Theorem rollback_stops_caller (w : FsmWorld S) (c n : Z) (k : nat) (more : list (list IterOp))
    (Hlo : 0 ≤ lo) (Hgood : good (fw_log_manager w)) (Hothers : others_good good w)
    (Huser : fw_user w = (replicate k IterNext ++ [IterRollback n]) :: more)
    (Happlied : fc_last_applied_index (fw_caller w) = lo) (Herror : fc_error (fw_caller w) = no_error)
    (Hn : 1 ≤ n ≤ Z.of_nat k) (Hc : lo + 1 + Z.of_nat k ≤ c ≤ hi) (Hcov : cq_covers (fw_closure_queue w) c)
    (Hdata : ∀ i, lo < i ≤ lo + 1 + Z.of_nat k → type (C i) = ENTRY_TYPE_DATA) :
  let e := mkError ERROR_TYPE_STATE_MACHINE ESTATEMACHINE in
  let d := closure_at (fw_closure_queue w) in
  let back := lo + 2 + Z.of_nat k - n in
  ∃ w', do_committed c w = Some (tt, w') ∧
    fw_out w' = fw_out w ++ log_events C d (lo + 1) (lo + 1 + Z.of_nat k) ++
      FsmOnError e :: (if fc_node (fw_caller w) then [FsmNodeOnError e] else []) ++
      (seqZ back (c + 1 - back) ≫= λ i, run_events (d i) ESTATEMACHINE) ∧
    fc_error (fw_caller w') = e ∧ ∀ c', do_committed c' w' = Some (tt, w').
Proof.
  cbn zeta. set (e := mkError ERROR_TYPE_STATE_MACHINE ESTATEMACHINE).
  destruct (do_committed_start w lo c (conj Hgood Hothers) Happlied Herror) as
    (cl & first & q' & w1 & Hin & Hout & _ & _ & Hs1 & Hu1 & ->); [lia|lia|done|].
  set (d := closure_at (fw_closure_queue w)) in *. replace (Z.to_nat (c - lo)) with (Datatypes.S (Z.to_nat (c - lo - 1))) by lia.
  destruct (steps_rollback good C lo hi cl first c d Hin Hout ltac:(lia) w1 (lo + 1) k n more (Z.to_nat (c - lo - 1))
    (st_ok _ _ _ _ Hs1)) as (w2 & H2 & Hs2); [congruence|lia|lia|lia|intros; apply Hdata; lia|].
  pose proof (steps_trans _ _ _ _ _ _ Hs1 Hs2) as [Hok2 Hu2 Hq2 [j Hj] Ho2]. cbn in Hj, Hq2, Ho2.
  erewrite st_bind_eq by exact H2. set (it := mkIteratorImpl _ _ _ _ _ _).
  set (told := FsmOnError e :: (if fc_node (fw_caller w) then [FsmNodeOnError e] else [])).
  pose proof (set_error_first e w2) as H3. rewrite Hj in H3 at 1. cbn [fc_with_applying fc_error] in H3.
  specialize (H3 (f_equal er_type Herror)). set (w3 := mkFsmWorld _ _ _ _ _ _) in H3.
  destruct (steps_rest good cl first c d Hin Hout w3 (lo + 2 + Z.of_nat k - n) e Hok2) as (w4 & H4 & [Hok4 _ _ [i Hi] Ho4]); [lia|].
  destruct (finish_committed_spec w2 c it (lo + 1 + Z.of_nat k - n)
    (told ++ (seqZ (lo + 2 + Z.of_nat k - n) (c + 1 - (lo + 2 + Z.of_nat k - n)) ≫= λ i, run_events (d i) ESTATEMACHINE)) w4)
    as (w5 & H5 & _ & _ & _ & Ho5 & m & Hm); [done|cbn; lia|lia| | |].
  - assert (it_has_error it = true) as -> by done. erewrite st_bind_eq; [|exact H3].
    unfold it. replace (lo + 1 + Z.of_nat k + 1 - n) with (lo + 2 + Z.of_nat k - n) by lia. exact H4.
  - rewrite Ho4. unfold w3, told. cbn [fw_out]. rewrite Hj, <-app_assoc. done.
  - exists w5. split; [exact H5|]. split; [rewrite Ho5, Ho2; unfold told; by rewrite <-!app_assoc|].
    assert (fc_error (fw_caller w5) = e) as He5 by (rewrite Hm, Hi; done). split; [done|].
    intros c'. unfold do_committed. erewrite st_bind_eq by reflexivity. by rewrite He5.
Qed.
End queue.
(** ** The log manager's promise *)

Section manager.
Context {S : Type} `{LogStorageLaws S} (C : Z → LogEntry) (lo hi : Z).

Lemma clear_safe_le (m : LogManager S) l L a b : clear_safe m l L b → logid_le a b → clear_safe m l L a.
Proof.
  intros Hb Hab i e Hg Hle. apply (Hb i e Hg). rewrite logid_le_spec in *. lia.
Qed.

#[global] Instance good_manager_view : LogView (good_manager (S := S) C lo hi) C lo hi.
Proof.
  split.
  - intros m i (l & L & Hi & _ & _ & Hl) Hr. apply (get_entry_in m l L); [done|auto].
  - intros m i (l & L & Hi & _ & _ & Hl) Hr.
    pose proof (log_get_Some_range _ _ _ (Hl i Hr)). pose proof (unsafe_get_term_in m l L i Hi ltac:(lia)) as Ht.
    unfold log_term in Ht. by rewrite Hl in Ht.
  - intros m i (l & L & Hi & Hs & Hsn & Hl) Hr. exists l, L.
    assert (clear_safe m l L (logid_min (lm_disk_id m) (id (C i)))) as Hc
      by (eapply clear_safe_le; [done|apply logid_min_le_l]).
    pose proof (log_get_index _ _ _ (inv_wf _ _ _ Hi) (Hl i Hr)) as Hx.
    split; [apply set_applied_inv; [done|rewrite Hx; lia|done]|].
    unfold lm_set_applied_id. case_decide; done.
  - intros m i (l & L & Hi & _ & _ & Hl) Hr. by eapply log_get_index; [eapply inv_wf|auto].
  - intros m i (l & L & Hi & _ & _ & Hl) Hr. pose proof (inv_entries _ _ _ Hi) as Hok. rewrite Forall_forall in Hok.
    specialize (Hok (C i)). apply Hok. specialize (Hl i Hr). unfold log_get in Hl. by eapply zlookup_elem.
Qed.
End manager.

(** ** Concrete instances *)

Definition ex_fsm_log : Log :=
  mkLog 1 [mkLogEntry ENTRY_TYPE_CONFIGURATION (mkLogId 1 1) (Some [empty_peer]) None []; ex_entry 2 1; ex_entry 3 1; ex_entry 4 2].

Definition ex_fsm_entry (i : Z) : LogEntry := default (ex_entry 0 0) (log_get ex_fsm_log i).

Definition ex_fsm_confs : ConfigurationManager :=
  mkCM (omap entry_conf (lents ex_fsm_log)) ce_default.

Definition ex_fsm_manager : LogManager MemoryLogStorage := Eval vm_compute in
  default (ex_manager ex_log) (lm_init (ml_of ex_fsm_log) ex_fsm_confs).

Lemma ex_fsm_good lo : 0 ≤ lo → good_manager ex_fsm_entry lo 4 ex_fsm_manager.
Proof.
  intros Hlo. destruct (lm_init_inv (ml_of ex_fsm_log) ex_fsm_log ex_fsm_confs) as (m & Hm & Hi).
  - split; [done|]. vm_compute. intros [|[|[|[|k]]]] e [= <-]; reflexivity.
  - done.
  - repeat constructor; done.
  - done.
  - done.
  - vm_compute in Hm. injection Hm as <-. exists ex_fsm_log, ex_fsm_log. split; [exact Hi|]. split_and!.
    + intros i e He _. by split.
    + done.
    + intros i Hr. assert (i = 1 ∨ i = 2 ∨ i = 3 ∨ i = 4) as [->|[->|[->| ->]]] by lia; done.
Qed.

(** Another thread wakes the replicators between two reads. *)
Lemma good_wakeup C lo hi (m : LogManager MemoryLogStorage) :
  good_manager C lo hi m → good_manager C lo hi (lm_wakeup_all_waiter m).
Proof.
  intros (l & L & Hi & Hs & Hsn & Hl). exists l, L. split; [|done].
  eapply inv_same_log; [exact Hi|done|]. destruct (inv_snap _ _ _ Hi) as [? ?].
  split_and!; [apply Hi|done|done|apply Hi].
Qed.

Definition ex_fsm_world (applied : Z) (user : list (list IterOp)) : FsmWorld MemoryLogStorage :=
  mkFsmWorld (mkFSMCaller applied 1 None true IDLE 0 no_error true) ex_fsm_manager
    (mkClosureQueue 1 [None; Some 7; Some 9; Some 8]) [λ m, Some (lm_wakeup_all_waiter m)] user [].

Definition ex_fsm_env : FsmEnv := mkFsmEnv (λ _ _, true) (λ _, None) (λ _, 0).

Lemma ex_fsm_others C lo hi applied user : others_good (good_manager C lo hi) (ex_fsm_world applied user).
Proof. constructor; [|constructor]. intros m Hm. eexists. split; [done|by apply good_wakeup]. Qed.

Lemma fsm_applies_log_witness :
  ∃ w', fsm_run ex_fsm_env 1 false [ApplyLeaderStart 1 0; ApplyCommitted 2; ApplyCommitted 4]
      (ex_fsm_world 0 [[]; [IterNext]]) = Some (tt, w') ∧
    fw_out w' = [FsmLeaderLeaseStart 0; FsmOnLeaderStart 1;
      FsmConfigurationCommitted (conf_of_vector [empty_peer]) 1;
      FsmApply (ex_entry 2 1) (Some 7); FsmApply (ex_entry 3 1) (Some 9); FsmApply (ex_entry 4 2) (Some 8)] ∧
    fc_last_applied_index (fw_caller w') = 4.
Proof.
  destruct (fsm_applies_log ex_fsm_env 1 (good_manager ex_fsm_entry 0 4) ex_fsm_entry 0 4
    (ex_fsm_world 0 [[]; [IterNext]]) [ApplyLeaderStart 1 0; ApplyCommitted 2; ApplyCommitted 4])
    as (w' & Hr & Ho & Ha & _); [lia|by apply ex_fsm_good|apply ex_fsm_others|repeat constructor|done|done| |].
  - repeat constructor; cbn; try lia; right; vm_compute; reflexivity.
  - exists w'. split; [exact Hr|]. split; [by rewrite Ho|exact Ha].
Defined.

Lemma rollback_stops_caller_witness :
  ∃ w', do_committed 4 (ex_fsm_world 1 [[IterNext; IterRollback 1]]) = Some (tt, w') ∧
    fw_out w' = [FsmApply (ex_entry 2 1) (Some 7); FsmApply (ex_entry 3 1) (Some 9);
      FsmOnError (mkError ERROR_TYPE_STATE_MACHINE ESTATEMACHINE);
      FsmNodeOnError (mkError ERROR_TYPE_STATE_MACHINE ESTATEMACHINE);
      FsmRun 9 ESTATEMACHINE; FsmRun 8 ESTATEMACHINE].
Proof.
  destruct (rollback_stops_caller (good_manager ex_fsm_entry 1 4) ex_fsm_entry 1 4
    (ex_fsm_world 1 [[IterNext; IterRollback 1]]) 4 1 1 [])
    as (w' & Hr & Ho & _); [lia|by apply ex_fsm_good|apply ex_fsm_others|done|done|done|lia|lia| | |].
  - right. vm_compute. reflexivity.
  - intros i Hi. assert (i = 2 ∨ i = 3) as [->| ->] by lia; done.
  - exists w'. split; [exact Hr|]. by rewrite Ho.
Defined.
