(* ===== verification/Lease.v ===== *)
(** * Leases

    [LeaderLease] and [FollowerLease] of src/melon/raft/lease.{h,cc}.  Times are
    the milliseconds of [mutil::monotonic_time_ms], an argument [now] of the
    operations that read the clock; [enable] is the flag
    [raft_enable_leader_lease]. *)

From stdpp Require Import prelude.
From S2P Require Import Prelude StdContainers Configuration.
Local Open Scope Z_scope.

(** ** The leader's side *)

Record LeaderLease := mkLeaderLease {
  ll_election_timeout_ms : Z;
  ll_last_active_timestamp : Z;
  ll_term : Z;
  ll_lease_epoch : Z;
}.

Inductive InternalState := DISABLED | EXPIRED | NOT_READY | VALID | SUSPECT.

#[global] Instance InternalState_eq_dec : EqDecision InternalState.
Proof. solve_decision. Defined.

Record LeaseInfo := mkLeaseInfo { li_state : InternalState; li_term : Z; li_lease_epoch : Z }.

Definition ll_new : LeaderLease := mkLeaderLease 0 0 0 0.

Definition ll_init (l : LeaderLease) (election_timeout_ms : Z) : LeaderLease :=
  mkLeaderLease election_timeout_ms (ll_last_active_timestamp l) (ll_term l) (ll_lease_epoch l).

Definition ll_on_leader_start (l : LeaderLease) (term : Z) : LeaderLease :=
  mkLeaderLease (ll_election_timeout_ms l) 0 term (ll_lease_epoch l + 1).

Definition ll_on_leader_stop (l : LeaderLease) : LeaderLease :=
  mkLeaderLease (ll_election_timeout_ms l) 0 0 (ll_lease_epoch l).

Definition ll_renew (l : LeaderLease) (last_active_timestamp : Z) : LeaderLease :=
  mkLeaderLease (ll_election_timeout_ms l) last_active_timestamp (ll_term l) (ll_lease_epoch l).

Definition ll_on_lease_start (l : LeaderLease) (expect_lease_epoch last_active_timestamp : Z)
  : LeaderLease :=
  if decide (ll_term l = 0 ∨ expect_lease_epoch ≠ ll_lease_epoch l) then l
  else mkLeaderLease (ll_election_timeout_ms l) last_active_timestamp (ll_term l) (ll_lease_epoch l).

Definition ll_get_lease_info (enable : bool) (now : Z) (l : LeaderLease) : LeaseInfo :=
  if negb enable then mkLeaseInfo DISABLED 0 0
  else if decide (ll_term l = 0) then mkLeaseInfo EXPIRED 0 0
  else if decide (ll_last_active_timestamp l = 0) then mkLeaseInfo NOT_READY 0 0
  else if decide (now < ll_last_active_timestamp l + ll_election_timeout_ms l) then
    mkLeaseInfo VALID (ll_term l) (ll_lease_epoch l)
  else mkLeaseInfo SUSPECT 0 0.

Definition ll_reset_election_timeout_ms (l : LeaderLease) (election_timeout_ms : Z) : LeaderLease :=
  mkLeaderLease election_timeout_ms (ll_last_active_timestamp l) (ll_term l) (ll_lease_epoch l).

(** ** The follower's side *)

Record FollowerLease := mkFollowerLease {
  fl_election_timeout_ms : Z;
  fl_max_clock_drift_ms : Z;
  fl_last_leader : PeerId;
  fl_last_leader_timestamp : Z;
}.

Definition fl_new : FollowerLease := mkFollowerLease 0 0 empty_peer 0.

Definition fl_init (f : FollowerLease) (now election_timeout_ms max_clock_drift_ms : Z) : FollowerLease :=
  mkFollowerLease election_timeout_ms max_clock_drift_ms (fl_last_leader f) now.

Definition fl_renew (f : FollowerLease) (now : Z) (leader_id : PeerId) : FollowerLease :=
  mkFollowerLease (fl_election_timeout_ms f) (fl_max_clock_drift_ms f) leader_id now.

Definition fl_votable_time_from_now (enable : bool) (now : Z) (f : FollowerLease) : Z :=
  if negb enable then 0
  else
    let votable_timestamp :=
      fl_last_leader_timestamp f + fl_election_timeout_ms f + fl_max_clock_drift_ms f in
    if decide (votable_timestamp ≤ now) then 0 else votable_timestamp - now.

Definition fl_expired (now : Z) (f : FollowerLease) : bool :=
  bool_decide (fl_election_timeout_ms f + fl_max_clock_drift_ms f ≤ now - fl_last_leader_timestamp f).

Definition fl_reset (f : FollowerLease) : FollowerLease :=
  mkFollowerLease (fl_election_timeout_ms f) (fl_max_clock_drift_ms f) empty_peer 0.

Definition fl_expire (f : FollowerLease) : FollowerLease :=
  mkFollowerLease (fl_election_timeout_ms f) (fl_max_clock_drift_ms f) (fl_last_leader f) 0.

Definition fl_reset_election_timeout_ms (f : FollowerLease) (election_timeout_ms max_clock_drift_ms : Z)
  : FollowerLease :=
  mkFollowerLease election_timeout_ms max_clock_drift_ms (fl_last_leader f) (fl_last_leader_timestamp f).

(** ** Facts *)

Lemma ll_valid_iff enable now l :
  li_state (ll_get_lease_info enable now l) = VALID ↔
  enable = true ∧ ll_term l ≠ 0 ∧ ll_last_active_timestamp l ≠ 0 ∧
  now < ll_last_active_timestamp l + ll_election_timeout_ms l.
Proof. unfold ll_get_lease_info. destruct enable; cbn; repeat case_decide; cbn; naive_solver lia. Qed.

Lemma fl_votable_iff now f :
  fl_votable_time_from_now true now f = 0 ↔
  fl_last_leader_timestamp f + fl_election_timeout_ms f + fl_max_clock_drift_ms f ≤ now.
Proof. unfold fl_votable_time_from_now. cbn. case_decide; lia. Qed.

Lemma fl_votable_nonneg enable now f : 0 ≤ fl_votable_time_from_now enable now f.
Proof. unfold fl_votable_time_from_now. destruct enable; cbn; [|lia]. case_decide; lia. Qed.
