(* ===== verification/MetaStorage.v ===== *)
(** * The meta storage interface

    [RaftMetaStorage] of src/melon/raft/storage.h: the term and the vote a node
    must not forget.  [Status] is its error code, 0 for [OK].  The laws are
    stated on what the medium holds, [ms_durable]: it is what a process that
    opens the storage reads, and a call that reports a failure leaves it as it
    was. *)

From stdpp Require Import prelude.
From S2P Require Import Prelude StdContainers Configuration.
Local Open Scope Z_scope.

Class RaftMetaStorage (M : Type) := {
  (** [init]. *)
  ms_init : M → option (Z * M);
  ms_set_term_and_votedfor : Z → PeerId → M → option (Z * M);
  (** The status, and the term and vote when it is [OK]. *)
  ms_get_term_and_votedfor : M → option (Z * (Z * PeerId) * M);
  (** The storage object of the next process on the same medium. *)
  ms_reopen : M → M;
}.

Class RaftMetaLaws (M : Type) `{RaftMetaStorage M} := {
  ms_wf : M → Prop;
  ms_durable : M → Z * PeerId;
  ms_set_law t v m rc m' :
    ms_wf m → ms_set_term_and_votedfor t v m = Some (rc, m') →
    ms_wf m' ∧ ms_durable m' = if decide (rc = 0) then (t, v) else ms_durable m;
  ms_reopen_law m : ms_wf m → ms_wf (ms_reopen m) ∧ ms_durable (ms_reopen m) = ms_durable m;
  ms_init_law m rc m' :
    ms_wf m → ms_init m = Some (rc, m') → ms_wf m' ∧ ms_durable m' = ms_durable m;
  (** An initialised storage gives what the medium holds. *)
  ms_get_law m m1 rc tv m2 :
    ms_wf m → ms_init (ms_reopen m) = Some (0, m1) → ms_get_term_and_votedfor m1 = Some (rc, tv, m2) →
    ms_wf m2 ∧ ms_durable m2 = ms_durable m ∧ (rc = 0 → tv = ms_durable m);
}.
