(* ===== verification/AppendEntriesCache.v ===== *)
(** * The cache of out-of-order AppendEntries

    [NodeImpl::AppendEntriesCache] of src/melon/raft/node.{h,cc}: requests that
    arrive before their predecessors are kept, ordered by the index before
    their first entry, and handed to a new fiber when they can run, when they
    overlap a newer request, when there are too many of them or when they have
    waited too long.

    The queue and the map hold the same [AppendEntriesRpc] objects; an object
    is known by [rpc_id].  The results of the coming calls into the runtime
    (start a fiber, add or delete a timer) are the stream [cs_sys], in call
    order; past its end they succeed.  What the cache does to the outside is
    [cs_out], oldest first. *)

From stdpp Require Import prelude sorting.
From S2P Require Import Prelude StdContainers Configuration StateMonad Messages.
Local Open Scope Z_scope.

(** The controller, response and closure of the call are its identity;
    [rpc_attachment] is the attachment of the controller. *)
Record AppendEntriesRpc := mkAppendEntriesRpc {
  rpc_id : Z;
  rpc_request : AppendEntriesRequest;
  rpc_attachment : list Z;
  rpc_receive_time_ms : Z;
}.

(** [_timer] is set or is [fiber_timer_t()]. *)
Record AppendEntriesCache := mkAppendEntriesCache {
  ac_rpc_queue : list AppendEntriesRpc;
  ac_rpc_map : list (Z * AppendEntriesRpc);
  ac_timer : bool;
  ac_cache_version : Z;
  ac_timer_version : Z;
}.

(** The constructor takes a version and starts from 0. *)
Definition ac_new (version : Z) : AppendEntriesCache := mkAppendEntriesCache [] [] false 0 0.

Inductive CacheEvent :=
  | AcHandle (rpcs : list AppendEntriesRpc)
  | AcAckFail (rpc : AppendEntriesRpc)
  | AcStartTimer (timer_version cache_version timer_start_ms due_ms : Z).

Record CacheState := mkCacheState {
  cs_cache : AppendEntriesCache;
  cs_sys : list Z;
  cs_out : list CacheEvent;
}.

Abbreviation CM := (ST CacheState).

Definition rpc_prev (r : AppendEntriesRpc) : Z := ae_prev_log_index (rpc_request r).
Definition rpc_last (r : AppendEntriesRpc) : Z := ae_last_index (rpc_request r).

(** ** Calls into the runtime *)

Definition cs_call : CM Z := λ s,
  Some (default 0 (head (cs_sys s)), mkCacheState (cs_cache s) (tail (cs_sys s)) (cs_out s)).

Definition cs_emit (evs : list CacheEvent) : CM unit :=
  st_mod (λ s, mkCacheState (cs_cache s) (cs_sys s) (cs_out s ++ evs)).

Definition cs_set (f : AppendEntriesCache → AppendEntriesCache) : CM unit :=
  st_mod (λ s, mkCacheState (f (cs_cache s)) (cs_sys s) (cs_out s)).

Definition ac_with_timer (timer : bool) (version : Z) (c : AppendEntriesCache) : AppendEntriesCache :=
  mkAppendEntriesCache (ac_rpc_queue c) (ac_rpc_map c) timer (ac_cache_version c) version.

Definition ac_with_rpcs (queue : list AppendEntriesRpc) (m : list (Z * AppendEntriesRpc))
    (c : AppendEntriesCache) : AppendEntriesCache :=
  mkAppendEntriesCache queue m (ac_timer c) (ac_cache_version c) (ac_timer_version c).

(** [RemoveFromList] of each of [rpcs]. *)
Definition remove_from_list (rpcs queue : list AppendEntriesRpc) : list AppendEntriesRpc :=
  filter (λ r, rpc_id r ∉ (rpc_id <$> rpcs)) queue.

(** ** Operations *)

Definition ac_empty (c : AppendEntriesCache) : bool := bool_decide (ac_rpc_map c = []).

Definition ac_first_index (c : AppendEntriesCache) : option Z :=
  CHECK (ac_rpc_map c ≠ []);;
  CHECK (ac_rpc_queue c ≠ []);;
  '(_, r) ← head (ac_rpc_map c);
  Some (rpc_prev r + 1).

(** [start_to_handle]; [ack_fail] answers when no fiber can be started. *)
Definition ac_start_to_handle (rpcs : list AppendEntriesRpc) : CM unit :=
  rc ← cs_call;
  if decide (rc = 0) then cs_emit [AcHandle rpcs] else cs_emit (AcAckFail <$> rpcs).

(** [election_timeout_ms] is the option of the node. *)
Definition ac_start_timer (election_timeout_ms : Z) : CM bool :=
  c ← st_get cs_cache;
  let version := ac_timer_version c + 1 in
  cs_set (ac_with_timer (ac_timer c) version);;
  r ← st_lift (head (ac_rpc_queue c));
  let start_ms := rpc_receive_time_ms r in
  rc ← cs_call;
  if decide (rc = 0) then
    cs_set (ac_with_timer true version);;
    cs_emit [AcStartTimer version (ac_cache_version c) start_ms
               (start_ms + Z.max (Z.shiftr election_timeout_ms 2) 1)];;
    mret true
  else mret false.

Definition ac_stop_timer : CM unit :=
  c ← st_get cs_cache;
  if negb (ac_timer c) then mret tt
  else
    let version := ac_timer_version c + 1 in
    rc ← cs_call;
    cs_set (ac_with_timer (negb (bool_decide (rc = 0))) version).

Definition ac_clear : CM unit :=
  ac_stop_timer;;
  c ← st_get cs_cache;
  cs_set (ac_with_rpcs [] []);;
  ac_start_to_handle (ac_rpc_queue c).

(** The requests around [rpc] in the map overlap its indexes: the greatest one
    that starts before it ends after its start, or the first one from its start
    on begins before its end. *)
Definition ac_overlaps (rpc : AppendEntriesRpc) (m : list (Z * AppendEntriesRpc)) : bool :=
  match last (map_below (rpc_prev rpc) m) with
  | Some (_, prev_rpc) => bool_decide (rpc_prev rpc < rpc_last prev_rpc)
  | None => false
  end ||
  match head (map_from (rpc_prev rpc) m) with
  | Some (_, next_rpc) => bool_decide (rpc_prev next_rpc < rpc_last rpc)
  | None => false
  end.

(** The loop that releases the greatest requests while the map is too big:
    the map left and the released requests in order. *)
Fixpoint ac_release (fuel : nat) (max_size : Z) (m : list (Z * AppendEntriesRpc))
  : list (Z * AppendEntriesRpc) * list AppendEntriesRpc :=
  match fuel with
  | O => (m, [])
  | S fuel' =>
      if decide (max_size < zlen m) then
        match last m with
        | Some (k, r) =>
            let '(m', rs) := ac_release fuel' max_size (map_erase k m) in (m', r :: rs)
        | None => (m, [])
        end
      else (m, [])
  end.

Definition ac_store (election_timeout_ms max_size : Z) (rpc : AppendEntriesRpc) : CM bool :=
  c ← st_get cs_cache;
  (if bool_decide (ac_rpc_map c ≠ []) && ac_overlaps rpc (ac_rpc_map c) then ac_clear else mret tt);;
  cs_set (λ c, ac_with_rpcs (ac_rpc_queue c ++ [rpc])
                 (map_insert (rpc_prev rpc) rpc (ac_rpc_map c)) c);;
  m ← st_get (λ s, ac_rpc_map (cs_cache s));
  started ← (if decide (zlen m = 1) then ac_start_timer election_timeout_ms else mret true);
  if negb started then ac_clear;; mret true
  else
    let '(m', rs) := ac_release (length m) max_size m in
    cs_set (λ c, ac_with_rpcs (remove_from_list rs (ac_rpc_queue c)) m' c);;
    (if decide (rs = []) then mret tt else ac_start_to_handle rs);;
    mret true.

(** The loop of [process_runable_rpcs]: the requests that start no later than
    the index before them, and the map left. *)
Fixpoint ac_runable (local_last_index : Z) (m : list (Z * AppendEntriesRpc))
  : list AppendEntriesRpc * list (Z * AppendEntriesRpc) :=
  match m with
  | [] => ([], [])
  | (k, r) :: m' =>
      if decide (local_last_index < rpc_prev r) then ([], m)
      else let '(rs, rest) := ac_runable (rpc_last r) m' in (r :: rs, rest)
  end.

Definition ac_process_runable_rpcs (local_last_index : Z) : CM unit :=
  c ← st_get cs_cache;
  st_check (ac_rpc_map c ≠ []);;
  st_check (ac_rpc_queue c ≠ []);;
  let '(rs, m') := ac_runable local_last_index (ac_rpc_map c) in
  cs_set (λ c, ac_with_rpcs (remove_from_list rs (ac_rpc_queue c)) m' c);;
  (if decide (rs = []) then mret tt else ac_start_to_handle rs);;
  if decide (m' = []) then ac_stop_timer else mret tt.

Definition ac_timedout (election_timeout_ms timer_version timer_start_ms : Z) : CM unit :=
  c ← st_get cs_cache;
  if decide (timer_version ≠ ac_timer_version c) then mret tt
  else
    st_check (ac_rpc_map c ≠ []);;
    st_check (ac_rpc_queue c ≠ []);;
    r ← st_lift (head (ac_rpc_queue c));
    if decide (rpc_receive_time_ms r ≤ timer_start_ms) then ac_clear
    else
      started ← ac_start_timer election_timeout_ms;
      if negb started then ac_clear else mret tt.

(** ** Specification *)

(** The requests given away by [evs], in order. *)
Definition handed (evs : list CacheEvent) : list AppendEntriesRpc :=
  evs ≫= λ ev, match ev with AcHandle rs => rs | AcAckFail r => [r] | AcStartTimer _ _ _ _ => [] end.

(** Consecutive requests of the map do not overlap. *)
Definition rpc_before (p q : Z * AppendEntriesRpc) : Prop := rpc_last p.2 ≤ q.1.

(** The map and the queue hold the same requests, each under the index before
    its entries, without overlap and no more than [max_size] of them. *)
Record ac_wf (max_size : Z) (c : AppendEntriesCache) : Prop := {
  wf_key : Forall (λ p, p.1 = rpc_prev p.2 ∧ rpc_prev p.2 < rpc_last p.2) (ac_rpc_map c);
  wf_sorted : StronglySorted rpc_before (ac_rpc_map c);
  wf_queue : (ac_rpc_map c).*2 ≡ₚ ac_rpc_queue c;
  wf_ids : NoDup (rpc_id <$> ac_rpc_queue c);
  wf_size : zlen (ac_rpc_map c) ≤ max_size;
}.

Inductive cache_op :=
  | CStore (rpc : AppendEntriesRpc)
  | CProcess (local_last_index : Z)
  | CClear
  | CTimedout (timer_version timer_start_ms : Z).

Definition cache_exec (election_timeout_ms max_size : Z) (op : cache_op) : CM unit :=
  match op with
  | CStore rpc => ac_store election_timeout_ms max_size rpc;; mret tt
  | CProcess i => ac_process_runable_rpcs i
  | CClear => ac_clear
  | CTimedout v t => ac_timedout election_timeout_ms v t
  end.

(** A stored request is a new object and has entries. *)
Definition new_rpc (op : cache_op) (c : AppendEntriesCache) : Prop :=
  match op with
  | CStore rpc => rpc_prev rpc < rpc_last rpc ∧ rpc_id rpc ∉ rpc_id <$> ac_rpc_queue c
  | _ => True
  end.

(** The operations that check that the cache holds a request; a timer whose
    version is old returns before the check. *)
Definition needs_rpc (op : cache_op) (c : AppendEntriesCache) : Prop :=
  match op with
  | CProcess _ => True
  | CTimedout timer_version _ => timer_version = ac_timer_version c
  | CStore _ | CClear => False
  end.

#[global] Instance needs_rpc_dec op c : Decision (needs_rpc op c).
Proof. destruct op; cbn; apply _. Defined.

Definition stored (op : cache_op) : list AppendEntriesRpc :=
  match op with CStore rpc => [rpc] | _ => [] end.

(** ** Lemmas *)

Lemma handed_app e1 e2 : handed (e1 ++ e2) = handed e1 ++ handed e2.
Proof. apply bind_app. Qed.

Lemma handed_ack rs : handed (AcAckFail <$> rs) = rs.
Proof. induction rs as [|r rs IH]; [done|]. cbn. f_equal. apply IH. Qed.

Lemma rpc_before_wf m :
  Forall (λ p, p.1 = rpc_prev p.2 ∧ rpc_prev p.2 < rpc_last p.2) m →
  StronglySorted rpc_before m → map_wf m.
Proof.
  unfold map_wf. intros Hk. induction 1 as [|p m Hs IH Hall]; [constructor|].
  apply Forall_cons in Hk as [[Hp1 Hp2] Hk]. cbn. constructor; [by apply IH|].
  apply Forall_fmap. eapply Forall_impl; [exact Hall|]. intros q Hq. unfold rpc_before in Hq. cbn. lia.
Qed.

(** Every run below returns; these are the results. *)
Lemma ac_stop_timer_run s :
  ∃ t v sys, ac_stop_timer s = Some (tt, mkCacheState (ac_with_timer t v (cs_cache s)) sys (cs_out s)).
Proof.
  unfold ac_stop_timer. erewrite st_bind_eq by done. destruct (ac_timer (cs_cache s)) eqn:E; cbn.
  - erewrite st_bind_eq by done. unfold cs_set, st_mod. cbn. eauto.
  - exists false, (ac_timer_version (cs_cache s)), (cs_sys s). destruct s as [[q m t cv v] ? ?]. cbn in E. subst t. reflexivity.
Qed.

Lemma ac_start_to_handle_run rs s :
  ∃ sys evs, ac_start_to_handle rs s = Some (tt, mkCacheState (cs_cache s) sys (cs_out s ++ evs)) ∧
    handed evs = rs.
Proof.
  unfold ac_start_to_handle. erewrite st_bind_eq by done. case_decide.
  - exists (tail (cs_sys s)), [AcHandle rs]. split; [done|]. cbn. by rewrite app_nil_r.
  - exists (tail (cs_sys s)), (AcAckFail <$> rs). split; [done|]. apply handed_ack.
Qed.

Lemma ac_start_timer_run et s :
  ac_rpc_queue (cs_cache s) ≠ [] →
  ∃ b t v sys evs, ac_start_timer et s =
    Some (b, mkCacheState (ac_with_timer t v (cs_cache s)) sys (cs_out s ++ evs)) ∧ handed evs = [].
Proof.
  intros Hq. unfold ac_start_timer. erewrite st_bind_eq by done. cbv zeta.
  erewrite st_bind_eq by done. destruct (ac_rpc_queue (cs_cache s)) as [|r q] eqn:E; [done|].
  erewrite st_bind_eq by done. erewrite st_bind_eq by done. cbn [cs_sys]. case_decide.
  - erewrite st_bind_eq by done. erewrite st_bind_eq by done.
    eexists true, true, (ac_timer_version (cs_cache s) + 1), _, [_]. split; [cbn; reflexivity|done].
  - eexists false, _, (ac_timer_version (cs_cache s) + 1), _, []. rewrite app_nil_r. split; [cbn; reflexivity|done].
Qed.

Lemma ac_clear_run s :
  ∃ t v sys evs, ac_clear s =
    Some (tt, mkCacheState (mkAppendEntriesCache [] [] t (ac_cache_version (cs_cache s)) v) sys
                (cs_out s ++ evs)) ∧ handed evs = ac_rpc_queue (cs_cache s).
Proof.
  unfold ac_clear. destruct (ac_stop_timer_run s) as (t & v & sys & Hs).
  erewrite st_bind_eq by exact Hs. erewrite st_bind_eq by done. erewrite st_bind_eq by done.
  cbn [cs_cache]. destruct (ac_start_to_handle_run (ac_rpc_queue (cs_cache s))
    (mkCacheState (mkAppendEntriesCache [] [] t (ac_cache_version (cs_cache s)) v) sys (cs_out s)))
    as (sys' & evs & Hh & He).
  exists t, v, sys', evs. split; [|done]. exact Hh.
Qed.

Definition keyed (m : list (Z * AppendEntriesRpc)) : Prop :=
  Forall (λ p, p.1 = rpc_prev p.2 ∧ rpc_prev p.2 < rpc_last p.2) m.

(** The indexes of [rpc] meet those of no request of [m]. *)
Definition apart (rpc : AppendEntriesRpc) (m : list (Z * AppendEntriesRpc)) : Prop :=
  Forall (λ p, rpc_last p.2 ≤ rpc_prev rpc ∨ rpc_last rpc ≤ p.1) m.

Lemma sorted_filter {A} (R : relation A) (P : A → Prop) `{∀ x, Decision (P x)} l :
  StronglySorted R l → StronglySorted R (filter P l).
Proof.
  induction 1 as [|q l Hs IH Hall]; [constructor|]. rewrite filter_cons. case_decide; [|done].
  constructor; [done|]. apply Forall_forall. intros x [_ Hx]%list_elem_of_filter.
  by eapply Forall_forall in Hall.
Qed.

Lemma overlaps_apart rpc m :
  keyed m → StronglySorted rpc_before m → ac_overlaps rpc m = false → apart rpc m.
Proof.
  intros Hk Hs Ho. apply orb_false_iff in Ho as [Hb Hf]. apply Forall_forall. intros p Hp.
  pose proof (rpc_before_wf m Hk Hs) as Hw.
  pose proof (proj1 (Forall_forall _ _) Hk) as Hkey.
  destruct (decide (p.1 < rpc_prev rpc)) as [Hlt|Hge]; [left|right].
  - assert (p ∈ map_below (rpc_prev rpc) m) as Hin by (unfold map_below; by apply list_elem_of_filter).
    destruct (last (map_below (rpc_prev rpc) m)) as [[k r]|] eqn:El;
      [|by apply last_None in El; rewrite El in Hin; apply not_elem_of_nil in Hin].
    apply bool_decide_eq_false in Hb. apply last_Some in El as [l' El]. rewrite El in Hin.
    apply elem_of_app in Hin as [Hin| ->%list_elem_of_singleton]; [|cbn; lia].
    pose proof (sorted_filter _ (λ p, p.1 < rpc_prev rpc) m Hs) as Hs'. fold (map_below (rpc_prev rpc) m) in Hs'.
    rewrite El in Hs'. apply (StronglySorted_app_1_elem_of _ _ _ p (k, r) Hs') in Hin; [|set_solver].
    assert (k < rpc_prev rpc).
    { assert ((k, r) ∈ map_below (rpc_prev rpc) m) as [? ?]%list_elem_of_filter; [|done]. rewrite El. set_solver. }
    unfold rpc_before in Hin. cbn in Hin. lia.
  - assert (p ∈ map_from (rpc_prev rpc) m) as Hin by (unfold map_from; apply list_elem_of_filter; split; [lia|done]).
    pose proof (map_filter_wf (λ p, rpc_prev rpc ≤ p.1) m Hw) as Hw'. fold (map_from (rpc_prev rpc) m) in Hw'.
    destruct (map_from (rpc_prev rpc) m) as [|[k r] l] eqn:Ef; [by apply not_elem_of_nil in Hin|].
    cbn in Hf. apply bool_decide_eq_false in Hf.
    assert ((k, r) ∈ m) as Hm.
    { assert ((k, r) ∈ map_from (rpc_prev rpc) m) as [_ ?]%list_elem_of_filter; [|done]. rewrite Ef. set_solver. }
    destruct (Hkey _ Hm) as [Hkr _]. cbn in Hkr.
    apply elem_of_cons in Hin as [->|Hin]; [cbn; lia|].
    unfold map_wf in Hw'. cbn in Hw'. apply StronglySorted_inv in Hw' as [_ Hall].
    rewrite Forall_forall in Hall. specialize (Hall p.1). cbn in Hall.
    assert (k < p.1) by (apply Hall, list_elem_of_fmap; eauto). lia.
Qed.

Lemma map_insert_sorted rpc m :
  rpc_prev rpc < rpc_last rpc → keyed m → StronglySorted rpc_before m → apart rpc m →
  StronglySorted rpc_before (map_insert (rpc_prev rpc) rpc m) ∧
  map_insert (rpc_prev rpc) rpc m ≡ₚ (rpc_prev rpc, rpc) :: m.
Proof.
  intros Hr Hk Hs Ha. split; [|apply map_insert_fresh].
  - induction m as [|[k r] m IH]; cbn [map_insert]; [repeat constructor|].
    apply Forall_cons in Hk as [[Hk1 Hk2] Hk], Ha as [Ha1 Ha]. cbn in Hk1, Hk2, Ha1.
    pose proof (StronglySorted_inv Hs) as [Hs' Hall].
    case_decide; [|rewrite decide_False by lia].
    + constructor; [done|]. unfold rpc_before. constructor; cbn; [lia|].
      eapply Forall_impl; [exact Hall|]. intros p Hp. unfold rpc_before in Hp. cbn in Hp |- *. lia.
    + constructor; [by apply IH|]. apply Forall_forall. intros p [->|Hp]%map_insert_elem;
        [unfold rpc_before; cbn; lia|by eapply Forall_forall in Hall].
  - intros ([k r] & Hkp & Hin)%list_elem_of_fmap. cbn in Hkp.
    eapply Forall_forall in Hk as [Hk1 Hk2]; [|exact Hin]. eapply Forall_forall in Ha; [|exact Hin].
    cbn in *. lia.
Qed.

Lemma ac_runable_split i m rs m' :
  ac_runable i m = (rs, m') → ∃ pre, m = pre ++ m' ∧ pre.*2 = rs.
Proof.
  revert i rs. induction m as [|[k r] m IH]; intros i rs; cbn; [intros [= <- <-]; by exists []|].
  case_decide; [intros [= <- <-]; by exists []|].
  destruct (ac_runable (rpc_last r) m) as [rs1 m1] eqn:E. intros [= <- <-].
  apply IH in E as (pre & -> & <-). by exists ((k, r) :: pre).
Qed.

Lemma map_erase_back {V} (m : list (Z * V)) k v : map_wf (m ++ [(k, v)]) → map_erase k (m ++ [(k, v)]) = m.
Proof.
  intros (_ & _ & H)%map_wf_app. unfold map_erase. rewrite filter_app.
  rewrite list_filter_all, list_filter_none; [apply app_nil_r|set_solver|].
  intros p Hp. specialize (H p (k, v) Hp). cbn in H. assert (p.1 < k) by set_solver. lia.
Qed.

Lemma ac_release_split fuel max_size m m' rs :
  map_wf m → (length m ≤ fuel)%nat → ac_release fuel max_size m = (m', rs) →
  ∃ suf, m = m' ++ suf ∧ reverse (suf.*2) = rs ∧ zlen m' ≤ Z.max 0 max_size.
Proof.
  revert m m' rs. induction fuel as [|fuel IH]; intros m m' rs Hw Hl; cbn.
  - intros [= <- <-]. destruct m; [|cbn in Hl; lia]. exists []. split_and!; [done..|]. rewrite zlen_nil. lia.
  - case_decide as Hlt; [|intros [= <- <-]; exists []; rewrite app_nil_r; split_and!; [done..|lia]].
    destruct (last m) as [[k r]|] eqn:El;
      [|apply last_None in El as ->; intros [= <- <-]; exists []; split_and!; [done..|rewrite zlen_nil; lia]].
    apply last_Some in El as [l ->]. rewrite map_erase_back by done.
    destruct (ac_release fuel max_size l) as [m1 rs1] eqn:E. intros [= <- <-].
    apply IH in E as (suf & -> & <- & Hz); [|by apply map_wf_app in Hw as (? & _ & _)|len].
    exists (suf ++ [(k, r)]). rewrite app_assoc, fmap_app, reverse_app. done.
Qed.

Lemma remove_from_list_perm rs rest q :
  NoDup (rpc_id <$> q) → q ≡ₚ rs ++ rest → remove_from_list rs q ≡ₚ rest.
Proof.
  intros Hnd Hp. unfold remove_from_list. rewrite Hp in Hnd |- *. rewrite filter_app.
  rewrite fmap_app in Hnd. apply NoDup_app in Hnd as (_ & Hd & _).
  rewrite list_filter_none, list_filter_all; [done| |].
  - intros x Hx Hin. apply (Hd (rpc_id x)); [done|]. by apply list_elem_of_fmap_2.
  - intros x Hx Hn. apply Hn. by apply list_elem_of_fmap_2.
Qed.

(** A part of the requests taken out of a well-formed cache leaves one. *)
Lemma ac_wf_remove max_size c m' rs out :
  ac_wf max_size c → StronglySorted rpc_before m' → zlen m' ≤ max_size →
  ac_rpc_map c ≡ₚ m' ++ out → out.*2 ≡ₚ rs →
  ac_wf max_size (ac_with_rpcs (remove_from_list rs (ac_rpc_queue c)) m' c) ∧
  remove_from_list rs (ac_rpc_queue c) ++ rs ≡ₚ ac_rpc_queue c.
Proof.
  intros [Hk Hs Hq Hi Hz] Hs' Hz' Hp Hrs.
  assert (ac_rpc_queue c ≡ₚ rs ++ m'.*2) as Hperm by (rewrite <-Hq, Hp, fmap_app, Hrs; apply Permutation_app_comm).
  pose proof (remove_from_list_perm _ _ _ Hi Hperm) as Hr. split.
  - split; cbn; [|done| | |done].
    + rewrite Hp in Hk. by apply Forall_app in Hk as [? _].
    + by rewrite Hr.
    + rewrite Hr. rewrite Hperm, fmap_app in Hi. by apply NoDup_app in Hi as (_ & _ & ?).
  - rewrite Hr, Hperm. apply Permutation_app_comm.
Qed.

Lemma ac_wf_timer max_size c t v : ac_wf max_size c → ac_wf max_size (ac_with_timer t v c).
Proof. by intros []. Qed.

Lemma ac_wf_empty max_size t cv v :
  0 ≤ max_size → ac_wf max_size (mkAppendEntriesCache [] [] t cv v).
Proof. intros. split; cbn; [constructor..|done]. Qed.

#[local] Instance zlen_perm {A} : Proper ((≡ₚ) ==> eq) (@zlen A).
Proof. intros l k H. unfold zlen. by rewrite H. Qed.

(** What an operation leaves: a well-formed cache, and every request either
    kept or handed out since [s]. *)
Definition conserves (max_size : Z) (s : CacheState) (new : list AppendEntriesRpc) (s' : CacheState) : Prop :=
  ac_wf max_size (cs_cache s') ∧
  ∃ evs, cs_out s' = cs_out s ++ evs ∧
    ac_rpc_queue (cs_cache s) ++ new ≡ₚ ac_rpc_queue (cs_cache s') ++ handed evs.

Lemma conserves_trans m1 m2 s s1 s2 new1 new2 :
  conserves m1 s new1 s1 → conserves m2 s1 new2 s2 → conserves m2 s (new1 ++ new2) s2.
Proof.
  intros [_ (e1 & Ho1 & Hp1)] [Hw (e2 & Ho2 & Hp2)]. split; [done|]. exists (e1 ++ e2).
  rewrite Ho2, Ho1, app_assoc. split; [done|].
  rewrite handed_app, app_assoc, Hp1, <-app_assoc, (Permutation_app_comm (handed e1)), app_assoc, Hp2.
  rewrite <-app_assoc. f_equiv. apply Permutation_app_comm.
Qed.

Lemma conserves_quiet max_size s c sys evs :
  ac_wf max_size c → ac_rpc_queue c = ac_rpc_queue (cs_cache s) → handed evs = [] →
  conserves max_size s [] (mkCacheState c sys (cs_out s ++ evs)).
Proof. intros Hw Hq He. split; [done|]. exists evs. cbn. by rewrite Hq, He. Qed.

Lemma ac_clear_conserves max_size s :
  0 ≤ max_size → ∃ s', ac_clear s = Some (tt, s') ∧ conserves max_size s [] s' ∧
    ac_rpc_queue (cs_cache s') = [] ∧ ac_rpc_map (cs_cache s') = [].
Proof.
  intros Hm. destruct (ac_clear_run s) as (t & v & sys & evs & Hc & He).
  eexists. split; [exact Hc|]. split_and!; [|done..]. split; [by apply ac_wf_empty|].
  exists evs. split; [done|]. cbn. by rewrite He, app_nil_r.
Qed.

(** Take [rs] out and hand them over. *)
Lemma ac_take_conserves max_size max_size' s m' rs out :
  ac_wf max_size (cs_cache s) → StronglySorted rpc_before m' → zlen m' ≤ max_size' → max_size' ≤ max_size →
  ac_rpc_map (cs_cache s) ≡ₚ m' ++ out → out.*2 ≡ₚ rs →
  let c := ac_with_rpcs (remove_from_list rs (ac_rpc_queue (cs_cache s))) m' (cs_cache s) in
  ∃ s', (if decide (rs = []) then mret tt else ac_start_to_handle rs) (mkCacheState c (cs_sys s) (cs_out s)) =
    Some (tt, s') ∧ cs_cache s' = c ∧ conserves max_size' s [] s'.
Proof.
  intros Hw Hs Hz Hle Hp Hrs c.
  destruct (ac_wf_remove max_size _ m' rs out Hw Hs (Z.le_trans _ _ _ Hz Hle) Hp Hrs) as [Hw' Hq].
  assert (∃ sys' evs, (if decide (rs = []) then mret tt else ac_start_to_handle rs)
    (mkCacheState c (cs_sys s) (cs_out s)) = Some (tt, mkCacheState c sys' (cs_out s ++ evs)) ∧ handed evs = rs)
    as (sys' & evs & Hr & He).
  { case_decide as Hn; [exists (cs_sys s), []; by rewrite app_nil_r, Hn|].
    apply (ac_start_to_handle_run rs (mkCacheState c (cs_sys s) (cs_out s))). }
  eexists. split; [exact Hr|]. split; [done|]. split; [destruct Hw'; split; cbn in *; done|].
  exists evs. split; [done|]. cbn. by rewrite He, Hq, app_nil_r.
Qed.

Lemma ac_add_conserves max_size s rpc :
  ac_wf max_size (cs_cache s) → new_rpc (CStore rpc) (cs_cache s) → apart rpc (ac_rpc_map (cs_cache s)) →
  conserves (max_size + 1) s [rpc]
    (mkCacheState (ac_with_rpcs (ac_rpc_queue (cs_cache s) ++ [rpc])
       (map_insert (rpc_prev rpc) rpc (ac_rpc_map (cs_cache s))) (cs_cache s)) (cs_sys s) (cs_out s)).
Proof.
  intros [Hk Hs Hq Hi Hz] [Hlt Hid] Ha. destruct (map_insert_sorted rpc _ Hlt Hk Hs Ha) as [Hs' Hp].
  split; [|exists []; by rewrite !app_nil_r]. split; cbn; [|done| | |].
  - rewrite Hp. by constructor.
  - rewrite Hp. cbn. by rewrite Hq, Permutation_cons_append.
  - rewrite fmap_app. apply NoDup_app. split_and!; [done|set_solver|apply NoDup_singleton].
  - rewrite Hp, zlen_cons. lia.
Qed.

(** The first steps of [store]: make room, then add the request. *)
Lemma ac_make_room max_size s rpc :
  0 ≤ max_size → ac_wf max_size (cs_cache s) → new_rpc (CStore rpc) (cs_cache s) →
  ∃ s1,
    (if bool_decide (ac_rpc_map (cs_cache s) ≠ []) && ac_overlaps rpc (ac_rpc_map (cs_cache s))
     then ac_clear else mret tt) s = Some (tt, s1) ∧
    conserves max_size s [] s1 ∧ new_rpc (CStore rpc) (cs_cache s1) ∧ apart rpc (ac_rpc_map (cs_cache s1)).
Proof.
  intros Hm Hw [Hlt Hid]. destruct (bool_decide (ac_rpc_map (cs_cache s) ≠ []) && _) eqn:E.
  - destruct (ac_clear_conserves max_size s Hm) as (s1 & Hc & Hcon & Hq & Hmap).
    exists s1. split_and!; [done..| |rewrite Hmap; constructor]. split; [done|]. rewrite Hq. set_solver.
  - exists s. split_and!; [done| |done|].
    + split; [done|]. exists []. by rewrite !app_nil_r.
    + apply andb_false_iff in E as [E|E]; [|by apply overlaps_apart; [apply Hw..|]].
      apply bool_decide_eq_false, dec_stable in E. rewrite E. constructor.
Qed.

Lemma ac_store_conserves et max_size s rpc :
  0 ≤ max_size → ac_wf max_size (cs_cache s) → new_rpc (CStore rpc) (cs_cache s) →
  ∃ s', ac_store et max_size rpc s = Some (true, s') ∧ conserves max_size s [rpc] s'.
Proof.
  intros Hm Hw Hpre. unfold ac_store. erewrite st_bind_eq by done.
  destruct (ac_make_room max_size s rpc Hm Hw Hpre) as (s1 & H1 & Hc1 & Hpre1 & Ha1).
  erewrite st_bind_eq by exact H1. erewrite st_bind_eq by done. erewrite st_bind_eq by done. cbn [cs_cache].
  pose proof (ac_add_conserves _ s1 rpc (proj1 Hc1) Hpre1 Ha1) as Hc2.
  set (s2 := mkCacheState _ (cs_sys s1) (cs_out s1)) in *. set (c2 := cs_cache s2).
  assert (∃ b t v sys e, (if decide (zlen (ac_rpc_map c2) = 1) then ac_start_timer et else mret true) s2 =
    Some (b, mkCacheState (ac_with_timer t v c2) sys (cs_out s2 ++ e)) ∧ handed e = [])
    as (b & t & v & sys & e & Ht & He).
  { case_decide; [apply ac_start_timer_run; cbn; by destruct (ac_rpc_queue (cs_cache s1))|].
    exists true, (ac_timer c2), (ac_timer_version c2), (cs_sys s2), []. rewrite app_nil_r. split; [|done].
    by destruct s1 as [[] ? ?]. }
  erewrite st_bind_eq by exact Ht.
  pose proof (conserves_quiet _ s2 _ sys e (ac_wf_timer _ c2 t v (proj1 Hc2)) eq_refl He) as Hc3.
  pose proof (conserves_trans _ _ _ _ _ _ _ (conserves_trans _ _ _ _ _ _ _ Hc1 Hc2) Hc3) as Hc. cbn [app] in Hc.
  set (s3 := mkCacheState (ac_with_timer t v c2) sys _) in *. destruct b; cbn [negb].
  - destruct (ac_release _ _ _) as [m' rs] eqn:Er. pose proof (proj1 Hc3) as Hw3. destruct Hw3 as [Hk3 Hs3 _ _ _].
    apply ac_release_split in Er as (suf & Hsuf & Hrs & Hz); [|by apply rpc_before_wf|done].
    destruct (ac_take_conserves (max_size + 1) max_size s3 m' rs suf) as (s4 & H4 & _ & Hc4);
      [apply Hc3| |lia|lia|by rewrite <-Hsuf|by rewrite <-Hrs, reverse_Permutation|].
    { eapply StronglySorted_app_1_l. rewrite <-Hsuf. exact Hs3. }
    erewrite st_bind_eq by done. erewrite st_bind_eq by exact H4. eexists. split; [done|].
    exact (conserves_trans _ _ _ _ _ _ _ Hc Hc4).
  - destruct (ac_clear_conserves max_size s3 Hm) as (s4 & H4 & Hc4 & _).
    erewrite st_bind_eq by exact H4. eexists. split; [done|]. exact (conserves_trans _ _ _ _ _ _ _ Hc Hc4).
Qed.

Lemma ac_queue_nonempty max_size c : ac_wf max_size c → ac_rpc_map c ≠ [] → ac_rpc_queue c ≠ [].
Proof.
  intros Hw Hne Hq. pose proof (wf_queue _ _ Hw) as Hp. rewrite Hq in Hp.
  by apply Permutation_nil_r, fmap_nil_inv in Hp.
Qed.

Lemma ac_process_conserves max_size s i :
  ac_wf max_size (cs_cache s) → ac_rpc_map (cs_cache s) ≠ [] →
  ∃ s', ac_process_runable_rpcs i s = Some (tt, s') ∧ conserves max_size s [] s'.
Proof.
  intros Hw Hne. unfold ac_process_runable_rpcs. erewrite st_bind_eq by done.
  pose proof (ac_queue_nonempty _ _ Hw Hne) as Hq.
  erewrite st_bind_eq by by apply st_check_true. erewrite st_bind_eq by by apply st_check_true.
  destruct (ac_runable i _) as [rs m'] eqn:Er. apply ac_runable_split in Er as (pre & Hm & Hrs).
  pose proof Hw as [_ Hs _ _ Hz].
  destruct (ac_take_conserves max_size max_size s m' rs pre) as (s1 & H1 & Hc1 & Hcon);
    [done| |rewrite Hm, zlen_app in Hz; pose proof (zlen_nonneg pre); lia|lia
    |rewrite Hm; apply Permutation_app_comm|by rewrite Hrs|].
  { eapply StronglySorted_app_1_r. by rewrite <-Hm. }
  erewrite st_bind_eq by done. erewrite st_bind_eq by exact H1. destruct (decide (m' = [])); [|exists s1; split; [reflexivity|exact Hcon]].
  destruct (ac_stop_timer_run s1) as (t & v & sys & Ht). eexists. split; [exact Ht|].
  rewrite <-(app_nil_r (cs_out s1)).
  exact (conserves_trans _ _ _ _ _ _ _ Hcon
    (conserves_quiet _ s1 _ sys [] (ac_wf_timer _ _ t v (proj1 Hcon)) eq_refl eq_refl)).
Qed.

Lemma ac_timedout_conserves et max_size s v t :
  0 ≤ max_size → ac_wf max_size (cs_cache s) → ac_rpc_map (cs_cache s) ≠ [] →
  ∃ s', ac_timedout et v t s = Some (tt, s') ∧ conserves max_size s [] s'.
Proof.
  intros Hm Hw Hne. pose proof (ac_queue_nonempty _ _ Hw Hne) as Hq.
  unfold ac_timedout. erewrite st_bind_eq by done.
  destruct (decide (v ≠ _)).
  { eexists. split; [done|]. split; [done|]. exists []. by rewrite !app_nil_r. }
  erewrite st_bind_eq by by apply st_check_true. erewrite st_bind_eq by by apply st_check_true.
  destruct (ac_rpc_queue (cs_cache s)) as [|r q] eqn:Eq; [done|].
  erewrite st_bind_eq by done. destruct (decide (_ ≤ _)).
  { destruct (ac_clear_conserves max_size s Hm) as (s1 & H1 & Hc & _). eauto. }
  destruct (ac_start_timer_run et s) as (b & t' & v' & sys & e & Ht & He); [by rewrite Eq|].
  erewrite st_bind_eq by exact Ht.
  pose proof (conserves_quiet _ s _ sys e (ac_wf_timer _ _ t' v' Hw) eq_refl He) as Hc.
  destruct b; cbn [negb]; [eexists; split; [reflexivity|exact Hc]|].
  destruct (ac_clear_conserves max_size (mkCacheState (ac_with_timer t' v' (cs_cache s)) sys (cs_out s ++ e)) Hm)
    as (s1 & H1 & Hc1 & _).
  eexists. split; [exact H1|]. exact (conserves_trans _ _ _ _ _ _ _ Hc Hc1).
Qed.

Lemma ac_empty_aborts et max_size op s : needs_rpc op (cs_cache s) → ac_rpc_map (cs_cache s) = [] → cache_exec et max_size op s = None.
Proof.
  intros Hn He. destruct op as [rpc|i| |v t]; cbn in Hn |- *; try done.
  - unfold ac_process_runable_rpcs. erewrite st_bind_eq by done. apply st_bind_abort. unfold st_check. by rewrite He.
  - unfold ac_timedout. erewrite st_bind_eq by done. rewrite decide_False by tauto. apply st_bind_abort. unfold st_check. by rewrite He.
Qed.

Lemma ac_exec_conserves et max_size op s :
  0 ≤ max_size → ac_wf max_size (cs_cache s) → new_rpc op (cs_cache s) →
  ac_rpc_map (cs_cache s) ≠ [] ∨ ¬ needs_rpc op (cs_cache s) →
  ∃ s', cache_exec et max_size op s = Some (tt, s') ∧ conserves max_size s (stored op) s'.
Proof.
  intros Hm Hw Hnew Hne. destruct op as [rpc|i| |v t]; cbn [cache_exec stored].
  - destruct (ac_store_conserves et max_size s rpc Hm Hw Hnew) as (s' & H & ?). exists s'. erewrite st_bind_eq by exact H. done.
  - apply ac_process_conserves; [done|]. destruct Hne as [|[]]; done.
  - destruct (ac_clear_conserves max_size s Hm) as (s' & ? & ? & _). eauto.
  - destruct (decide (v = ac_timer_version (cs_cache s))) as [->|Hv].
    + apply ac_timedout_conserves; [done..|]. destruct Hne as [|[]]; done.
    + exists s. split; [|by split; [|exists []; rewrite !app_nil_r]]. unfold ac_timedout. erewrite st_bind_eq by done. by rewrite decide_True.
Qed.

(** C36. No request is lost, duplicated or kept in a bad order by the cache.  An
    operation on a well-formed cache aborts exactly when it takes requests to
    be there and there are none: [process_runable_rpcs], and a timer that is
    not outdated, on an empty cache.  Otherwise it returns, whatever the runtime
    calls answer; the cache is then well formed (ordered, without overlap, no
    larger than the limit) and the requests it held, with the one stored, are
    exactly the ones it still holds and the ones it handed to a fiber or
    answered with a failure.  A stored request is a new one with entries. *)
Theorem append_cache_conserves (election_timeout_ms max_size : Z) (op : cache_op) (s : CacheState)
  (Hmax : 0 ≤ max_size) (Hwf : ac_wf max_size (cs_cache s)) (Hnew : new_rpc op (cs_cache s)) :
  match cache_exec election_timeout_ms max_size op s with
  | None => ac_rpc_map (cs_cache s) = [] ∧ needs_rpc op (cs_cache s)
  | Some (_, s') =>
      ¬ (ac_rpc_map (cs_cache s) = [] ∧ needs_rpc op (cs_cache s)) ∧
      ac_wf max_size (cs_cache s') ∧
      ∃ evs, cs_out s' = cs_out s ++ evs ∧
        ac_rpc_queue (cs_cache s) ++ stored op ≡ₚ ac_rpc_queue (cs_cache s') ++ handed evs
  end.
Proof.
  destruct (decide (needs_rpc op (cs_cache s))) as [Hn|Hn]; [destruct (decide (ac_rpc_map (cs_cache s) = [])) as [He|He]|].
  - by rewrite ac_empty_aborts.
  - destruct (ac_exec_conserves election_timeout_ms max_size op s Hmax Hwf Hnew) as (s' & -> & Hc); [by left|]. split; [tauto|exact Hc].
  - destruct (ac_exec_conserves election_timeout_ms max_size op s Hmax Hwf Hnew) as (s' & -> & Hc); [by right|]. split; [tauto|exact Hc].
Qed.

Definition ex_append_rpc (i prev n : Z) : AppendEntriesRpc :=
  mkAppendEntriesRpc i
    (mkAppendEntriesRequest [] [] [] 1 1 prev (replicate (Z.to_nat n) (mkEntryMeta 1 ENTRY_TYPE_DATA [] None [])) 0)
    [] i.

Definition ex_cache : CacheState :=
  mkCacheState (mkAppendEntriesCache [ex_append_rpc 1 8 3] [(8, ex_append_rpc 1 8 3)] true 0 1) [] [].

(** The cache holds one request; a second one is stored with room for one. *)
Lemma append_cache_conserves_witness :
  ∃ s' evs, cache_exec 1000 1 (CStore (ex_append_rpc 2 5 2)) ex_cache = Some (tt, s') ∧
    ac_wf 1 (cs_cache s') ∧ cs_out s' = [] ++ evs ∧
    [ex_append_rpc 1 8 3] ++ [ex_append_rpc 2 5 2] ≡ₚ ac_rpc_queue (cs_cache s') ++ handed evs.
Proof.
  assert (ac_wf 1 (cs_cache ex_cache)) as Hw.
  { split; cbn; [|repeat constructor|done|apply NoDup_singleton|done]. constructor; [by vm_compute|constructor]. }
  assert (new_rpc (CStore (ex_append_rpc 2 5 2)) (cs_cache ex_cache)) as Hn.
  { split; [by vm_compute|]. cbn. intros [=]%list_elem_of_singleton. }
  pose proof (append_cache_conserves 1000 1 (CStore (ex_append_rpc 2 5 2)) ex_cache ltac:(done) Hw Hn) as H.
  destruct (cache_exec _ _ _ _) as [[[] s']|]; [|by destruct H as [_ []]]. destruct H as (_ & Hw' & evs & Ho & Hp).
  exists s', evs. split; [reflexivity|]. split; [exact Hw'|]. split; [exact Ho|exact Hp].
Defined.
