(* ===== verification/NodeState.v ===== *)
(** * The state of a node

    The data of [NodeImpl], src/melon/raft/node.{h,cc}, and the monad its
    handlers run in.  A handler runs from one acquisition of the node's mutex
    to its release.  [pre_vote], [elect_self] and the two vote request handlers
    release the mutex to wait for [LogManager::last_log_id(true)] and take it
    again: the rest of such a call is a [Suspended] call of the state, so that
    any other handler can run in between.

    The calls of the node to its timers, replicators, state machine caller and
    snapshot executor, and the messages it sends, are collected in [n_out],
    oldest first.  What those components answer within a handler is the
    environment [Env] of the handler; the results of calls into the runtime
    (timers, fibers) are the stream [n_sys], in call order, 0 past its end. *)

From stdpp Require Import prelude.
From S2P Require Import Prelude StdContainers Configuration Ballot ClosureQueue BallotBox.
From S2P Require Import LogStorage LogManager StateMonad Messages Lease MetaStorage AppendEntriesCache.
Local Open Scope Z_scope.

(** ** States and errors *)

(** [State] of raft.h; its order is the one of the constructors. *)
Inductive State :=
  | STATE_LEADER | STATE_TRANSFERRING | STATE_CANDIDATE | STATE_FOLLOWER
  | STATE_ERROR | STATE_UNINITIALIZED | STATE_SHUTTING | STATE_SHUTDOWN.

#[global] Instance State_eq_dec : EqDecision State.
Proof. solve_decision. Defined.

Definition state_num (s : State) : Z :=
  match s with
  | STATE_LEADER => 1 | STATE_TRANSFERRING => 2 | STATE_CANDIDATE => 3 | STATE_FOLLOWER => 4
  | STATE_ERROR => 5 | STATE_UNINITIALIZED => 6 | STATE_SHUTTING => 7 | STATE_SHUTDOWN => 8
  end.

Definition is_active_state (s : State) : bool := bool_decide (state_num s < state_num STATE_ERROR).

(** [RaftError] and the errno values of the handlers. *)
Definition ERAFTTIMEDOUT : Z := 10001.
Definition ECATCHUP : Z := 10003.
Definition ELEADERREMOVED : Z := 10004.
Definition ESETPEER : Z := 10005.
Definition EHIGHERTERMREQUEST : Z := 10007.
Definition EHIGHERTERMRESPONSE : Z := 10008.
Definition EBADNODE : Z := 10009.
Definition EVOTEFORCANDIDATE : Z := 10010.
Definition ENEWLEADER : Z := 10011.
Definition ELEADERCONFLICT : Z := 10012.
Definition ETRANSFERLEADERSHIP : Z := 10013.
Definition ELOGDELETED : Z := 10014.
Definition ENOMOREUSERLOG : Z := 10015.
Definition EREADONLY : Z := 10016.
Definition ESHUTDOWN : Z := 108.
Definition ETIMEDOUT : Z := 110.

(** ** Vote contexts *)

Record DisruptedLeader := mkDisruptedLeader { dl_peer_id : PeerId; dl_term : Z }.

Definition no_disrupted_leader : DisruptedLeader := mkDisruptedLeader empty_peer (-1).

(** [VoteBallotCtx]; [vc_timer] says whether [_timer] is set. *)
Record VoteBallotCtx := mkVoteBallotCtx {
  vc_timer : bool;
  vc_ballot : Ballot;
  vc_version : Z;
  vc_triggered : bool;
  vc_reserved_peers : list PeerId;
  vc_disrupted_leader : DisruptedLeader;
  vc_last_log_id : LogId;
}.

Definition vc_new : VoteBallotCtx :=
  mkVoteBallotCtx false ballot_new 0 false [] no_disrupted_leader zero_id.

Definition vc_grant (c : VoteBallotCtx) (peer : PeerId) : VoteBallotCtx :=
  mkVoteBallotCtx (vc_timer c) (ballot_grant (vc_ballot c) peer) (vc_version c) (vc_triggered c)
    (vc_reserved_peers c) (vc_disrupted_leader c) (vc_last_log_id c).

Definition vc_granted (c : VoteBallotCtx) : bool := ballot_granted (vc_ballot c).

Definition vc_with_timer (timer : bool) (c : VoteBallotCtx) : VoteBallotCtx :=
  mkVoteBallotCtx timer (vc_ballot c) (vc_version c) (vc_triggered c)
    (vc_reserved_peers c) (vc_disrupted_leader c) (vc_last_log_id c).

(** The fields [reset] clears after it stopped the timer. *)
Definition vc_clear (c : VoteBallotCtx) : VoteBallotCtx :=
  mkVoteBallotCtx (vc_timer c) (vc_ballot c) (vc_version c + 1) false [] no_disrupted_leader zero_id.

(** What [init] sets after [reset]. *)
Definition vc_start (conf : ConfigurationEntry) (triggered : bool) (c : VoteBallotCtx) : VoteBallotCtx :=
  let b := (ballot_init (ce_conf conf) (if ce_stable conf then None else Some (ce_old_conf conf))).1 in
  mkVoteBallotCtx (vc_timer c) b (vc_version c) triggered
    (vc_reserved_peers c) (vc_disrupted_leader c) (vc_last_log_id c).

Definition vc_reserve (c : VoteBallotCtx) (peer : PeerId) : VoteBallotCtx :=
  mkVoteBallotCtx (vc_timer c) (vc_ballot c) (vc_version c) (vc_triggered c)
    (set_insert peer_lt peer (vc_reserved_peers c)).1 (vc_disrupted_leader c) (vc_last_log_id c).

Definition vc_set_disrupted_leader (c : VoteBallotCtx) (dl : DisruptedLeader) : VoteBallotCtx :=
  mkVoteBallotCtx (vc_timer c) (vc_ballot c) (vc_version c) (vc_triggered c)
    (vc_reserved_peers c) dl (vc_last_log_id c).

(** [pop_grantable_peers(&peers)]: the context and [*peers]. *)
Definition vc_pop_grantable_peers (c : VoteBallotCtx) : VoteBallotCtx * list PeerId :=
  if decide (dl_term (vc_disrupted_leader c) = -1) then (c, [])
  else (mkVoteBallotCtx (vc_timer c) (vc_ballot c) (vc_version c) (vc_triggered c)
          [] (vc_disrupted_leader c) (vc_last_log_id c), vc_reserved_peers c).

Definition vc_set_last_log_id (c : VoteBallotCtx) (i : LogId) : VoteBallotCtx :=
  mkVoteBallotCtx (vc_timer c) (vc_ballot c) (vc_version c) (vc_triggered c)
    (vc_reserved_peers c) (vc_disrupted_leader c) i.

(** [_vote_ctx] or [_pre_vote_ctx]. *)
Inductive WhichCtx := VoteCtx | PreVoteCtx.

#[global] Instance WhichCtx_eq_dec : EqDecision WhichCtx.
Proof. solve_decision. Defined.

(** ** The configuration change *)

Inductive Stage := STAGE_NONE | STAGE_CATCHING_UP | STAGE_JOINT | STAGE_STABLE.

#[global] Instance Stage_eq_dec : EqDecision Stage.
Proof. solve_decision. Defined.

Record ConfigurationCtx := mkConfigurationCtx {
  cc_stage : Stage;
  cc_nchanges : Z;
  cc_version : Z;
  cc_new_peers : list PeerId;
  cc_old_peers : list PeerId;
  cc_adding_peers : list PeerId;
  cc_done : option Closure;
}.

Definition cc_init : ConfigurationCtx := mkConfigurationCtx STAGE_NONE 0 0 [] [] [] None.

Definition cc_is_busy (c : ConfigurationCtx) : bool := negb (bool_decide (cc_stage c = STAGE_NONE)).

Definition cc_with_stage (s : Stage) (c : ConfigurationCtx) : ConfigurationCtx :=
  mkConfigurationCtx s (cc_nchanges c) (cc_version c) (cc_new_peers c) (cc_old_peers c)
    (cc_adding_peers c) (cc_done c).

Definition cc_with_adding (ps : list PeerId) (c : ConfigurationCtx) : ConfigurationCtx :=
  mkConfigurationCtx (cc_stage c) (cc_nchanges c) (cc_version c) (cc_new_peers c) (cc_old_peers c)
    ps (cc_done c).

(** ** Closures, suspended calls and events *)

(** The closures the node makes, and the users' closures it is given. *)
Inductive NodeClosure :=
  | LeaderStableClosure (first_log_index nentries : Z)
  | FollowerStableClosure (rpc : AppendEntriesRpc) (term : Z)
  | ConfigurationChangeDone (term : Z) (leader_start : bool) (lease_epoch : Z)
  | UserClosure (c : Z).

(** The rest of a call after [last_log_id(true)]. *)
Inductive Resumption :=
  | ResumePreVote (triggered : bool) (old_term : Z)
  | ResumeElectSelf (old_term : Z)
  | ResumePreVoteRequest (request : RequestVoteRequest)
  | ResumeVoteRequest (request : RequestVoteRequest) (candidate_id : PeerId) (previous_term : Z).

(** The mutex is released, [last_log_id(true)] waits for the closure, or its
    answer is there. *)
Inductive Suspended :=
  | SuspendedAt (k : Resumption)
  | SuspendedOn (c : Closure) (k : Resumption)
  | SuspendedWith (last_log_id : LogId) (k : Resumption).

Inductive NodeTimer := ElectionTimer | VoteTimer | StepdownTimer | SnapshotTimer | TransferTimer.

Inductive NodeEvent :=
  (* messages and answers *)
  | EvPreVote (peer : PeerId) (request : RequestVoteRequest) (term ctx_version : Z)
  | EvRequestVote (peer : PeerId) (request : RequestVoteRequest) (term ctx_version : Z)
  | EvPreVoteReply (request : RequestVoteRequest) (rc : Z) (response : option RequestVoteResponse)
  | EvRequestVoteReply (request : RequestVoteRequest) (candidate_id : PeerId) (rc : Z)
      (response : option RequestVoteResponse)
  | EvTimeoutNowReply (request : TimeoutNowRequest) (response : TermResponse)
  | EvAppendEntriesReply (rpc : AppendEntriesRpc) (failed : Z) (response : option AppendEntriesResponse)
  | EvInstallSnapshotReply (request : InstallSnapshotRequest) (failed : Z) (response : option TermResponse)
  (* meta storage *)
  | EvSetMeta (term : Z) (votedfor : PeerId) (rc : Z)
  (* timers *)
  | EvTimerInit (t : NodeTimer) (timeout_ms : Z)
  | EvTimerStart (t : NodeTimer)
  | EvTimerStop (t : NodeTimer)
  | EvTimerReset (t : NodeTimer) (timeout_ms : Z)
  | EvTimerDestroy (t : NodeTimer)
  | EvGrantSelfTimer (w : WhichCtx) (ctx_version wait_ms : Z)
  | EvTransferTimer (term : Z) (peer : PeerId) (timeout_ms : Z)
  (* replicators *)
  | EvReplicatorResetTerm (term : Z)
  | EvReplicatorAdd (peer : PeerId)
  | EvReplicatorStop (peer : PeerId)
  | EvReplicatorStopAll
  | EvReplicatorStopAllFindCandidate (conf : ConfigurationEntry)
  | EvReplicatorWaitCaughtup (peer : PeerId) (term version due_ms : Z)
  | EvReplicatorTransfer (peer : PeerId) (last_log_index : Z)
  | EvReplicatorStopTransfer (peer : PeerId)
  | EvReplicatorReadonly (peer : PeerId) (readonly : bool)
  | EvReplicatorIntervals (heartbeat_ms election_timeout_ms : Z)
  (* state machine caller *)
  | EvLeaderStop (error : Z)
  | EvLeaderStart (term lease_epoch : Z)
  | EvUserLeaderStart (term : Z)
  | EvStopFollowing (leader_id : PeerId) (term error : Z)
  | EvStartFollowing (leader_id : PeerId) (term error : Z)
  | EvCommitted (committed_index : Z)
  | EvFsmError (error : Z)
  | EvFsmShutdown
  (* closures and fibers *)
  | EvRunClosure (c : Closure) (error : Z)
  | EvUserDone (c : Z) (error : Z)
  | EvCache (ev : CacheEvent)
  (* others *)
  | EvNewLogAvailable (w : Z) (error : Z)
  | EvInterruptDownloading (term : Z)
  | EvInstallSnapshot (request : InstallSnapshotRequest)
  | EvSnapshotShutdown
  | EvRemoveFromManager.

(** ** Options, flags and the environment of a handler *)

Record NodeOptions := mkNodeOptions {
  no_election_timeout_ms : Z;
  no_catchup_timeout_ms : Z;
  no_max_clock_drift_ms : Z;
  no_catchup_margin : Z;
  no_witness : bool;
  no_initial_conf : Configuration;
  no_snapshot_interval_s : Z;
}.

Definition get_catchup_timeout_ms (o : NodeOptions) : Z :=
  if decide (no_catchup_timeout_ms o = 0) then no_election_timeout_ms o else no_catchup_timeout_ms o.

(** The gflags the handlers read. *)
Record RaftFlags := mkRaftFlags {
  raft_enable_leader_lease : bool;
  raft_step_down_when_vote_timedout : bool;
  raft_enable_append_entries_cache : bool;
  raft_max_append_entries_cache_size : Z;
  raft_enable_witness_to_leader : bool;
  raft_election_heartbeat_factor : Z;
}.

(** What other components answer while a handler runs: the clocks, whether a
    channel to a peer can be made, the replicator group, the snapshot
    executor. *)
Record Env := mkEnv {
  e_monotonic_ms : Z;
  e_realtime_ms : Z;
  e_channel_init : PeerId → Z;
  e_installing_snapshot : bool;
  e_add_replicator : PeerId → Z;
  e_wait_caughtup : PeerId → Z;
  e_last_rpc_send_timestamp : PeerId → Z;
  e_readonly : PeerId → bool;
  e_next_candidate : option PeerId;
  e_transfer_leadership_to : PeerId → Z → Z;
}.

(** ** The node

    [n_snapshot_executor] says whether [_snapshot_executor] is set; it,
    [n_server_id] and [n_group_id] do not change once the node is up.
    [n_closures] are the closures made and not run yet, [n_suspended] the calls
    waiting outside the mutex. *)
Record Node (S M : Type) := mkNode {
  n_group_id : list Z;
  n_server_id : PeerId;
  n_options : NodeOptions;
  n_state : State;
  n_current_term : Z;
  n_leader_id : PeerId;
  n_voted_id : PeerId;
  n_vote_ctx : VoteBallotCtx;
  n_pre_vote_ctx : VoteBallotCtx;
  n_conf : ConfigurationEntry;
  n_conf_ctx : ConfigurationCtx;
  n_meta_storage : M;
  n_log_manager : LogManager S;
  n_ballot_box : BallotBox;
  n_snapshot_executor : bool;
  n_stop_transfer_arg : option (Z * PeerId);
  n_vote_triggered : bool;
  n_shutdown_continuations : list Closure;
  n_cache : option AppendEntriesCache;
  n_cache_version : Z;
  n_node_readonly : bool;
  n_majority_nodes_readonly : bool;
  n_leader_lease : LeaderLease;
  n_follower_lease : FollowerLease;
  n_closures : list (Closure * NodeClosure);
  n_next_closure : Z;
  n_suspended : list Suspended;
  n_sys : list Z;
  n_out : list NodeEvent;
}.
#[global] Arguments mkNode {S M}.
#[global] Arguments n_group_id {S M}.
#[global] Arguments n_server_id {S M}.
#[global] Arguments n_options {S M}.
#[global] Arguments n_state {S M}.
#[global] Arguments n_current_term {S M}.
#[global] Arguments n_leader_id {S M}.
#[global] Arguments n_voted_id {S M}.
#[global] Arguments n_vote_ctx {S M}.
#[global] Arguments n_pre_vote_ctx {S M}.
#[global] Arguments n_conf {S M}.
#[global] Arguments n_conf_ctx {S M}.
#[global] Arguments n_meta_storage {S M}.
#[global] Arguments n_log_manager {S M}.
#[global] Arguments n_ballot_box {S M}.
#[global] Arguments n_snapshot_executor {S M}.
#[global] Arguments n_stop_transfer_arg {S M}.
#[global] Arguments n_vote_triggered {S M}.
#[global] Arguments n_shutdown_continuations {S M}.
#[global] Arguments n_cache {S M}.
#[global] Arguments n_cache_version {S M}.
#[global] Arguments n_node_readonly {S M}.
#[global] Arguments n_majority_nodes_readonly {S M}.
#[global] Arguments n_leader_lease {S M}.
#[global] Arguments n_follower_lease {S M}.
#[global] Arguments n_closures {S M}.
#[global] Arguments n_next_closure {S M}.
#[global] Arguments n_suspended {S M}.
#[global] Arguments n_sys {S M}.
#[global] Arguments n_out {S M}.

Section setters.
Context {S M : Type}.
Implicit Types n : Node S M.

Definition with_options (v : NodeOptions) n : Node S M :=
  mkNode (n_group_id n) (n_server_id n) v (n_state n) (n_current_term n) (n_leader_id n) (n_voted_id n)
  (n_vote_ctx n) (n_pre_vote_ctx n) (n_conf n) (n_conf_ctx n) (n_meta_storage n) (n_log_manager n) (n_ballot_box
  n) (n_snapshot_executor n) (n_stop_transfer_arg n) (n_vote_triggered n) (n_shutdown_continuations n) (n_cache n)
  (n_cache_version n) (n_node_readonly n) (n_majority_nodes_readonly n) (n_leader_lease n) (n_follower_lease n)
  (n_closures n) (n_next_closure n) (n_suspended n) (n_sys n) (n_out n).
Definition with_state (v : State) n : Node S M :=
  mkNode (n_group_id n) (n_server_id n) (n_options n) v (n_current_term n) (n_leader_id n) (n_voted_id n)
  (n_vote_ctx n) (n_pre_vote_ctx n) (n_conf n) (n_conf_ctx n) (n_meta_storage n) (n_log_manager n) (n_ballot_box
  n) (n_snapshot_executor n) (n_stop_transfer_arg n) (n_vote_triggered n) (n_shutdown_continuations n) (n_cache n)
  (n_cache_version n) (n_node_readonly n) (n_majority_nodes_readonly n) (n_leader_lease n) (n_follower_lease n)
  (n_closures n) (n_next_closure n) (n_suspended n) (n_sys n) (n_out n).
Definition with_current_term (v : Z) n : Node S M :=
  mkNode (n_group_id n) (n_server_id n) (n_options n) (n_state n) v (n_leader_id n) (n_voted_id n) (n_vote_ctx n)
  (n_pre_vote_ctx n) (n_conf n) (n_conf_ctx n) (n_meta_storage n) (n_log_manager n) (n_ballot_box n)
  (n_snapshot_executor n) (n_stop_transfer_arg n) (n_vote_triggered n) (n_shutdown_continuations n) (n_cache n)
  (n_cache_version n) (n_node_readonly n) (n_majority_nodes_readonly n) (n_leader_lease n) (n_follower_lease n)
  (n_closures n) (n_next_closure n) (n_suspended n) (n_sys n) (n_out n).
Definition with_leader_id (v : PeerId) n : Node S M :=
  mkNode (n_group_id n) (n_server_id n) (n_options n) (n_state n) (n_current_term n) v (n_voted_id n) (n_vote_ctx
  n) (n_pre_vote_ctx n) (n_conf n) (n_conf_ctx n) (n_meta_storage n) (n_log_manager n) (n_ballot_box n)
  (n_snapshot_executor n) (n_stop_transfer_arg n) (n_vote_triggered n) (n_shutdown_continuations n) (n_cache n)
  (n_cache_version n) (n_node_readonly n) (n_majority_nodes_readonly n) (n_leader_lease n) (n_follower_lease n)
  (n_closures n) (n_next_closure n) (n_suspended n) (n_sys n) (n_out n).
Definition with_voted_id (v : PeerId) n : Node S M :=
  mkNode (n_group_id n) (n_server_id n) (n_options n) (n_state n) (n_current_term n) (n_leader_id n) v (n_vote_ctx
  n) (n_pre_vote_ctx n) (n_conf n) (n_conf_ctx n) (n_meta_storage n) (n_log_manager n) (n_ballot_box n)
  (n_snapshot_executor n) (n_stop_transfer_arg n) (n_vote_triggered n) (n_shutdown_continuations n) (n_cache n)
  (n_cache_version n) (n_node_readonly n) (n_majority_nodes_readonly n) (n_leader_lease n) (n_follower_lease n)
  (n_closures n) (n_next_closure n) (n_suspended n) (n_sys n) (n_out n).
Definition with_vote_ctx (v : VoteBallotCtx) n : Node S M :=
  mkNode (n_group_id n) (n_server_id n) (n_options n) (n_state n) (n_current_term n) (n_leader_id n) (n_voted_id
  n) v (n_pre_vote_ctx n) (n_conf n) (n_conf_ctx n) (n_meta_storage n) (n_log_manager n) (n_ballot_box n)
  (n_snapshot_executor n) (n_stop_transfer_arg n) (n_vote_triggered n) (n_shutdown_continuations n) (n_cache n)
  (n_cache_version n) (n_node_readonly n) (n_majority_nodes_readonly n) (n_leader_lease n) (n_follower_lease n)
  (n_closures n) (n_next_closure n) (n_suspended n) (n_sys n) (n_out n).
Definition with_pre_vote_ctx (v : VoteBallotCtx) n : Node S M :=
  mkNode (n_group_id n) (n_server_id n) (n_options n) (n_state n) (n_current_term n) (n_leader_id n) (n_voted_id
  n) (n_vote_ctx n) v (n_conf n) (n_conf_ctx n) (n_meta_storage n) (n_log_manager n) (n_ballot_box n)
  (n_snapshot_executor n) (n_stop_transfer_arg n) (n_vote_triggered n) (n_shutdown_continuations n) (n_cache n)
  (n_cache_version n) (n_node_readonly n) (n_majority_nodes_readonly n) (n_leader_lease n) (n_follower_lease n)
  (n_closures n) (n_next_closure n) (n_suspended n) (n_sys n) (n_out n).
Definition with_conf (v : ConfigurationEntry) n : Node S M :=
  mkNode (n_group_id n) (n_server_id n) (n_options n) (n_state n) (n_current_term n) (n_leader_id n) (n_voted_id
  n) (n_vote_ctx n) (n_pre_vote_ctx n) v (n_conf_ctx n) (n_meta_storage n) (n_log_manager n) (n_ballot_box n)
  (n_snapshot_executor n) (n_stop_transfer_arg n) (n_vote_triggered n) (n_shutdown_continuations n) (n_cache n)
  (n_cache_version n) (n_node_readonly n) (n_majority_nodes_readonly n) (n_leader_lease n) (n_follower_lease n)
  (n_closures n) (n_next_closure n) (n_suspended n) (n_sys n) (n_out n).
Definition with_conf_ctx (v : ConfigurationCtx) n : Node S M :=
  mkNode (n_group_id n) (n_server_id n) (n_options n) (n_state n) (n_current_term n) (n_leader_id n) (n_voted_id
  n) (n_vote_ctx n) (n_pre_vote_ctx n) (n_conf n) v (n_meta_storage n) (n_log_manager n) (n_ballot_box n)
  (n_snapshot_executor n) (n_stop_transfer_arg n) (n_vote_triggered n) (n_shutdown_continuations n) (n_cache n)
  (n_cache_version n) (n_node_readonly n) (n_majority_nodes_readonly n) (n_leader_lease n) (n_follower_lease n)
  (n_closures n) (n_next_closure n) (n_suspended n) (n_sys n) (n_out n).
Definition with_meta_storage (v : M) n : Node S M :=
  mkNode (n_group_id n) (n_server_id n) (n_options n) (n_state n) (n_current_term n) (n_leader_id n) (n_voted_id
  n) (n_vote_ctx n) (n_pre_vote_ctx n) (n_conf n) (n_conf_ctx n) v (n_log_manager n) (n_ballot_box n)
  (n_snapshot_executor n) (n_stop_transfer_arg n) (n_vote_triggered n) (n_shutdown_continuations n) (n_cache n)
  (n_cache_version n) (n_node_readonly n) (n_majority_nodes_readonly n) (n_leader_lease n) (n_follower_lease n)
  (n_closures n) (n_next_closure n) (n_suspended n) (n_sys n) (n_out n).
Definition with_log_manager (v : LogManager S) n : Node S M :=
  mkNode (n_group_id n) (n_server_id n) (n_options n) (n_state n) (n_current_term n) (n_leader_id n) (n_voted_id
  n) (n_vote_ctx n) (n_pre_vote_ctx n) (n_conf n) (n_conf_ctx n) (n_meta_storage n) v (n_ballot_box n)
  (n_snapshot_executor n) (n_stop_transfer_arg n) (n_vote_triggered n) (n_shutdown_continuations n) (n_cache n)
  (n_cache_version n) (n_node_readonly n) (n_majority_nodes_readonly n) (n_leader_lease n) (n_follower_lease n)
  (n_closures n) (n_next_closure n) (n_suspended n) (n_sys n) (n_out n).
Definition with_ballot_box (v : BallotBox) n : Node S M :=
  mkNode (n_group_id n) (n_server_id n) (n_options n) (n_state n) (n_current_term n) (n_leader_id n) (n_voted_id
  n) (n_vote_ctx n) (n_pre_vote_ctx n) (n_conf n) (n_conf_ctx n) (n_meta_storage n) (n_log_manager n) v
  (n_snapshot_executor n) (n_stop_transfer_arg n) (n_vote_triggered n) (n_shutdown_continuations n) (n_cache n)
  (n_cache_version n) (n_node_readonly n) (n_majority_nodes_readonly n) (n_leader_lease n) (n_follower_lease n)
  (n_closures n) (n_next_closure n) (n_suspended n) (n_sys n) (n_out n).
Definition with_stop_transfer_arg (v : option (Z * PeerId)) n : Node S M :=
  mkNode (n_group_id n) (n_server_id n) (n_options n) (n_state n) (n_current_term n) (n_leader_id n) (n_voted_id
  n) (n_vote_ctx n) (n_pre_vote_ctx n) (n_conf n) (n_conf_ctx n) (n_meta_storage n) (n_log_manager n)
  (n_ballot_box n) (n_snapshot_executor n) v (n_vote_triggered n) (n_shutdown_continuations n) (n_cache n)
  (n_cache_version n) (n_node_readonly n) (n_majority_nodes_readonly n) (n_leader_lease n) (n_follower_lease n)
  (n_closures n) (n_next_closure n) (n_suspended n) (n_sys n) (n_out n).
Definition with_vote_triggered (v : bool) n : Node S M :=
  mkNode (n_group_id n) (n_server_id n) (n_options n) (n_state n) (n_current_term n) (n_leader_id n) (n_voted_id
  n) (n_vote_ctx n) (n_pre_vote_ctx n) (n_conf n) (n_conf_ctx n) (n_meta_storage n) (n_log_manager n)
  (n_ballot_box n) (n_snapshot_executor n) (n_stop_transfer_arg n) v (n_shutdown_continuations n) (n_cache n)
  (n_cache_version n) (n_node_readonly n) (n_majority_nodes_readonly n) (n_leader_lease n) (n_follower_lease n)
  (n_closures n) (n_next_closure n) (n_suspended n) (n_sys n) (n_out n).
Definition with_shutdown_continuations (v : list Closure) n : Node S M :=
  mkNode (n_group_id n) (n_server_id n) (n_options n) (n_state n) (n_current_term n) (n_leader_id n) (n_voted_id
  n) (n_vote_ctx n) (n_pre_vote_ctx n) (n_conf n) (n_conf_ctx n) (n_meta_storage n) (n_log_manager n)
  (n_ballot_box n) (n_snapshot_executor n) (n_stop_transfer_arg n) (n_vote_triggered n) v (n_cache n)
  (n_cache_version n) (n_node_readonly n) (n_majority_nodes_readonly n) (n_leader_lease n) (n_follower_lease n)
  (n_closures n) (n_next_closure n) (n_suspended n) (n_sys n) (n_out n).
Definition with_cache (v : option AppendEntriesCache) n : Node S M :=
  mkNode (n_group_id n) (n_server_id n) (n_options n) (n_state n) (n_current_term n) (n_leader_id n) (n_voted_id
  n) (n_vote_ctx n) (n_pre_vote_ctx n) (n_conf n) (n_conf_ctx n) (n_meta_storage n) (n_log_manager n)
  (n_ballot_box n) (n_snapshot_executor n) (n_stop_transfer_arg n) (n_vote_triggered n) (n_shutdown_continuations
  n) v (n_cache_version n) (n_node_readonly n) (n_majority_nodes_readonly n) (n_leader_lease n) (n_follower_lease
  n) (n_closures n) (n_next_closure n) (n_suspended n) (n_sys n) (n_out n).
Definition with_cache_version (v : Z) n : Node S M :=
  mkNode (n_group_id n) (n_server_id n) (n_options n) (n_state n) (n_current_term n) (n_leader_id n) (n_voted_id
  n) (n_vote_ctx n) (n_pre_vote_ctx n) (n_conf n) (n_conf_ctx n) (n_meta_storage n) (n_log_manager n)
  (n_ballot_box n) (n_snapshot_executor n) (n_stop_transfer_arg n) (n_vote_triggered n) (n_shutdown_continuations
  n) (n_cache n) v (n_node_readonly n) (n_majority_nodes_readonly n) (n_leader_lease n) (n_follower_lease n)
  (n_closures n) (n_next_closure n) (n_suspended n) (n_sys n) (n_out n).
Definition with_node_readonly (v : bool) n : Node S M :=
  mkNode (n_group_id n) (n_server_id n) (n_options n) (n_state n) (n_current_term n) (n_leader_id n) (n_voted_id
  n) (n_vote_ctx n) (n_pre_vote_ctx n) (n_conf n) (n_conf_ctx n) (n_meta_storage n) (n_log_manager n)
  (n_ballot_box n) (n_snapshot_executor n) (n_stop_transfer_arg n) (n_vote_triggered n) (n_shutdown_continuations
  n) (n_cache n) (n_cache_version n) v (n_majority_nodes_readonly n) (n_leader_lease n) (n_follower_lease n)
  (n_closures n) (n_next_closure n) (n_suspended n) (n_sys n) (n_out n).
Definition with_majority_nodes_readonly (v : bool) n : Node S M :=
  mkNode (n_group_id n) (n_server_id n) (n_options n) (n_state n) (n_current_term n) (n_leader_id n) (n_voted_id
  n) (n_vote_ctx n) (n_pre_vote_ctx n) (n_conf n) (n_conf_ctx n) (n_meta_storage n) (n_log_manager n)
  (n_ballot_box n) (n_snapshot_executor n) (n_stop_transfer_arg n) (n_vote_triggered n) (n_shutdown_continuations
  n) (n_cache n) (n_cache_version n) (n_node_readonly n) v (n_leader_lease n) (n_follower_lease n) (n_closures n)
  (n_next_closure n) (n_suspended n) (n_sys n) (n_out n).
Definition with_leader_lease (v : LeaderLease) n : Node S M :=
  mkNode (n_group_id n) (n_server_id n) (n_options n) (n_state n) (n_current_term n) (n_leader_id n) (n_voted_id
  n) (n_vote_ctx n) (n_pre_vote_ctx n) (n_conf n) (n_conf_ctx n) (n_meta_storage n) (n_log_manager n)
  (n_ballot_box n) (n_snapshot_executor n) (n_stop_transfer_arg n) (n_vote_triggered n) (n_shutdown_continuations
  n) (n_cache n) (n_cache_version n) (n_node_readonly n) (n_majority_nodes_readonly n) v (n_follower_lease n)
  (n_closures n) (n_next_closure n) (n_suspended n) (n_sys n) (n_out n).
Definition with_follower_lease (v : FollowerLease) n : Node S M :=
  mkNode (n_group_id n) (n_server_id n) (n_options n) (n_state n) (n_current_term n) (n_leader_id n) (n_voted_id
  n) (n_vote_ctx n) (n_pre_vote_ctx n) (n_conf n) (n_conf_ctx n) (n_meta_storage n) (n_log_manager n)
  (n_ballot_box n) (n_snapshot_executor n) (n_stop_transfer_arg n) (n_vote_triggered n) (n_shutdown_continuations
  n) (n_cache n) (n_cache_version n) (n_node_readonly n) (n_majority_nodes_readonly n) (n_leader_lease n) v
  (n_closures n) (n_next_closure n) (n_suspended n) (n_sys n) (n_out n).
Definition with_closures (v : list (Closure * NodeClosure)) n : Node S M :=
  mkNode (n_group_id n) (n_server_id n) (n_options n) (n_state n) (n_current_term n) (n_leader_id n) (n_voted_id
  n) (n_vote_ctx n) (n_pre_vote_ctx n) (n_conf n) (n_conf_ctx n) (n_meta_storage n) (n_log_manager n)
  (n_ballot_box n) (n_snapshot_executor n) (n_stop_transfer_arg n) (n_vote_triggered n) (n_shutdown_continuations
  n) (n_cache n) (n_cache_version n) (n_node_readonly n) (n_majority_nodes_readonly n) (n_leader_lease n)
  (n_follower_lease n) v (n_next_closure n) (n_suspended n) (n_sys n) (n_out n).
Definition with_next_closure (v : Z) n : Node S M :=
  mkNode (n_group_id n) (n_server_id n) (n_options n) (n_state n) (n_current_term n) (n_leader_id n) (n_voted_id
  n) (n_vote_ctx n) (n_pre_vote_ctx n) (n_conf n) (n_conf_ctx n) (n_meta_storage n) (n_log_manager n)
  (n_ballot_box n) (n_snapshot_executor n) (n_stop_transfer_arg n) (n_vote_triggered n) (n_shutdown_continuations
  n) (n_cache n) (n_cache_version n) (n_node_readonly n) (n_majority_nodes_readonly n) (n_leader_lease n)
  (n_follower_lease n) (n_closures n) v (n_suspended n) (n_sys n) (n_out n).
Definition with_suspended (v : list Suspended) n : Node S M :=
  mkNode (n_group_id n) (n_server_id n) (n_options n) (n_state n) (n_current_term n) (n_leader_id n) (n_voted_id
  n) (n_vote_ctx n) (n_pre_vote_ctx n) (n_conf n) (n_conf_ctx n) (n_meta_storage n) (n_log_manager n)
  (n_ballot_box n) (n_snapshot_executor n) (n_stop_transfer_arg n) (n_vote_triggered n) (n_shutdown_continuations
  n) (n_cache n) (n_cache_version n) (n_node_readonly n) (n_majority_nodes_readonly n) (n_leader_lease n)
  (n_follower_lease n) (n_closures n) (n_next_closure n) v (n_sys n) (n_out n).
Definition with_sys (v : list Z) n : Node S M :=
  mkNode (n_group_id n) (n_server_id n) (n_options n) (n_state n) (n_current_term n) (n_leader_id n) (n_voted_id
  n) (n_vote_ctx n) (n_pre_vote_ctx n) (n_conf n) (n_conf_ctx n) (n_meta_storage n) (n_log_manager n)
  (n_ballot_box n) (n_snapshot_executor n) (n_stop_transfer_arg n) (n_vote_triggered n) (n_shutdown_continuations
  n) (n_cache n) (n_cache_version n) (n_node_readonly n) (n_majority_nodes_readonly n) (n_leader_lease n)
  (n_follower_lease n) (n_closures n) (n_next_closure n) (n_suspended n) v (n_out n).
Definition with_out (v : list NodeEvent) n : Node S M :=
  mkNode (n_group_id n) (n_server_id n) (n_options n) (n_state n) (n_current_term n) (n_leader_id n) (n_voted_id
  n) (n_vote_ctx n) (n_pre_vote_ctx n) (n_conf n) (n_conf_ctx n) (n_meta_storage n) (n_log_manager n)
  (n_ballot_box n) (n_snapshot_executor n) (n_stop_transfer_arg n) (n_vote_triggered n) (n_shutdown_continuations
  n) (n_cache n) (n_cache_version n) (n_node_readonly n) (n_majority_nodes_readonly n) (n_leader_lease n)
  (n_follower_lease n) (n_closures n) (n_next_closure n) (n_suspended n) (n_sys n) v.
End setters.

(** ** The monad of the handlers *)

Abbreviation NM S M := (ST (Node S M)).

Section monad.
Context {S M : Type} `{LogStorage S, RaftMetaStorage M}.

Definition emit_ev (evs : list NodeEvent) : NM S M unit := st_mod (λ n, with_out (n_out n ++ evs) n).

(** The result of the next call into the runtime. *)
Definition sys_result : NM S M Z := λ n,
  Some (default 0 (head (n_sys n)), with_sys (tail (n_sys n)) n).

Definition get_ctx (w : WhichCtx) : NM S M VoteBallotCtx :=
  st_get (match w with VoteCtx => n_vote_ctx | PreVoteCtx => n_pre_vote_ctx end).

Definition mod_ctx (w : WhichCtx) (f : VoteBallotCtx → VoteBallotCtx) : NM S M unit :=
  st_mod (λ n, match w with
               | VoteCtx => with_vote_ctx (f (n_vote_ctx n)) n
               | PreVoteCtx => with_pre_vote_ctx (f (n_pre_vote_ctx n)) n
               end).

Definition mod_conf_ctx (f : ConfigurationCtx → ConfigurationCtx) : NM S M unit :=
  st_mod (λ n, with_conf_ctx (f (n_conf_ctx n)) n).

(** A closure of the node's own gets an identity. *)
Definition new_closure (c : NodeClosure) : NM S M Closure := λ n,
  Some (n_next_closure n,
        with_next_closure (n_next_closure n + 1) (with_closures (n_closures n ++ [(n_next_closure n, c)]) n)).

Definition suspend (k : Resumption) : NM S M unit :=
  st_mod (λ n, with_suspended (n_suspended n ++ [SuspendedAt k]) n).

(** [_meta_storage->set_term_and_votedfor(term, votedfor, _v_group_id)]. *)
Definition set_term_and_votedfor (term : Z) (votedfor : PeerId) : NM S M Z :=
  m ← st_get n_meta_storage;
  '(rc, m') ← st_lift (ms_set_term_and_votedfor term votedfor m);
  st_mod (with_meta_storage m');;
  emit_ev [EvSetMeta term votedfor rc];;
  mret rc.

(** A call of the log manager. *)
Definition log_call (f : LogManager S → option (LogManager S)) : NM S M unit :=
  m ← st_get n_log_manager;
  m' ← st_lift (f m);
  st_mod (with_log_manager m').

(** [_log_manager->check_and_set_configuration(&_conf)]. *)
Definition check_and_set_configuration : NM S M unit :=
  st_mod (λ n, with_conf (lm_check_and_set_configuration (n_log_manager n) (n_conf n)).1 n).

(** A call of the ballot box that may commit: [on_committed] of the state
    machine caller. *)
Definition box_call (f : BallotBox → option (BallotBox * Z * option Z)) : NM S M unit :=
  b ← st_get n_ballot_box;
  '(b', _, committed) ← st_lift (f b);
  st_mod (with_ballot_box b');;
  emit_ev (match committed with Some i => [EvCommitted i] | None => [] end).

(** A call of the cache of out-of-order requests. *)
Definition cache_call {A} (c : AppendEntriesCache) (f : CM A) : NM S M A := λ n,
  '(a, s) ← f (mkCacheState c (n_sys n) []);
  Some (a, with_cache (Some (cs_cache s))
             (with_sys (cs_sys s) (with_out (n_out n ++ (EvCache <$> cs_out s)) n))).
End monad.
