(* ===== verification/NodeVote.v ===== *)
(** * Elections

    The part of [NodeImpl], src/melon/raft/node.cc, that decides who leads: the
    pre-vote and the vote from both sides, becoming leader and stepping down,
    with the stages of a configuration change that stepping down and becoming
    leader go through. *)

From stdpp Require Import prelude.
From S2P Require Import Prelude StdContainers Configuration Ballot ClosureQueue BallotBox PeerText.
From S2P Require Import LogStorage LogManager StateMonad Messages Lease MetaStorage AppendEntriesCache NodeState.
Local Open Scope Z_scope.

Section node.
Context {S M : Type} `{LogStorage S, RaftMetaStorage M} (fl : RaftFlags) (e : Env).
Abbreviation N := (NM S M).

(** ** Vote contexts *)

Definition vote_ctx_stop_grant_self_timer (w : WhichCtx) : N unit :=
  c ← get_ctx w;
  if negb (vc_timer c) then mret tt
  else
    rc ← sys_result;
    if decide (rc = 0) then mod_ctx w (vc_with_timer false) else mret tt.

Definition vote_ctx_start_grant_self_timer (w : WhichCtx) (wait_ms : Z) : N unit :=
  c ← get_ctx w;
  rc ← sys_result;
  if decide (rc = 0) then
    mod_ctx w (vc_with_timer true);;
    emit_ev [EvGrantSelfTimer w (vc_version c) wait_ms]
  else mret tt.

Definition vote_ctx_reset (w : WhichCtx) : N unit :=
  vote_ctx_stop_grant_self_timer w;;
  mod_ctx w vc_clear.

Definition vote_ctx_init (w : WhichCtx) (triggered : bool) : N unit :=
  vote_ctx_reset w;;
  conf ← st_get n_conf;
  mod_ctx w (vc_start conf triggered).

Definition votable_time_from_now : N Z :=
  f ← st_get n_follower_lease;
  mret (fl_votable_time_from_now (raft_enable_leader_lease fl) (e_monotonic_ms e) f).

(** ** Stepping down *)

Definition reset_leader_id (new_leader_id : PeerId) (status : Z) : N unit :=
  leader ← st_get n_leader_id;
  if peer_is_empty new_leader_id then
    state ← st_get n_state;
    term ← st_get n_current_term;
    (if negb (peer_is_empty leader) && bool_decide (state_num STATE_TRANSFERRING < state_num state)
     then emit_ev [EvStopFollowing leader term status] else mret tt);;
    st_mod (with_leader_id empty_peer)
  else
    (if peer_is_empty leader then
       vote_ctx_reset PreVoteCtx;;
       term ← st_get n_current_term;
       emit_ev [EvStartFollowing new_leader_id term status]
     else mret tt);;
    st_mod (with_leader_id new_leader_id).

Definition stop_replicator (keep drop : list PeerId) : N unit :=
  st_each (λ p,
    server ← st_get n_server_id;
    if negb (set_contains peer_lt p keep) && negb (bool_decide (peer_eq p server))
    then emit_ev [EvReplicatorStop p] else mret tt) drop.

(** [check_majority_nodes_readonly(conf)]. *)
Definition check_majority_of (conf : Configuration) : N unit :=
  server ← st_get n_server_id;
  ro ← st_get n_node_readonly;
  let ps := list_peers conf in
  let readonly_nodes :=
    zlen (filter (λ p, (if decide (peer_eq p server) then ro else e_readonly e p) = true) ps) in
  let writable_nodes := zlen ps - readonly_nodes in
  st_mod (with_majority_nodes_readonly (negb (bool_decide (zlen ps / 2 + 1 ≤ writable_nodes)))).

Definition check_majority_nodes_readonly : N unit :=
  c ← st_get n_conf;
  check_majority_of (ce_conf c);;
  if conf_empty (ce_old_conf c) then mret tt else check_majority_of (ce_old_conf c).

(** [ConfigurationCtx::reset(st)]: [st] is null or a status. *)
Definition conf_ctx_reset (st : option Z) : N unit :=
  c ← st_get n_conf_ctx;
  if decide (cc_stage c = STAGE_NONE) then mret tt
  else
    (if decide (st = Some 0) then stop_replicator (cc_new_peers c) (cc_old_peers c)
     else stop_replicator (cc_old_peers c) (cc_new_peers c));;
    mod_conf_ctx (λ c, mkConfigurationCtx STAGE_NONE 0 (cc_version c + 1) [] [] [] (cc_done c));;
    check_majority_nodes_readonly;;
    match cc_done c with
    | Some d =>
        emit_ev [EvRunClosure d (default EPERM st)];;
        mod_conf_ctx (λ c, mkConfigurationCtx (cc_stage c) (cc_nchanges c) (cc_version c)
                             (cc_new_peers c) (cc_old_peers c) (cc_adding_peers c) None)
    | None => mret tt
    end.

Definition clear_append_entries_cache : N unit :=
  c ← st_get n_cache;
  match c with
  | None => mret tt
  | Some c => cache_call c ac_clear;; st_mod (with_cache None)
  end.

(** What [step_down] stops, by the state it comes from. *)
Definition step_down_from (status : Z) : N unit :=
  state ← st_get n_state;
  if decide (state = STATE_CANDIDATE) then
    emit_ev [EvTimerStop VoteTimer];; vote_ctx_reset VoteCtx
  else if decide (state = STATE_FOLLOWER) then vote_ctx_reset PreVoteCtx
  else if decide (state_num state ≤ state_num STATE_TRANSFERRING) then
    emit_ev [EvTimerStop StepdownTimer];;
    b ← st_get n_ballot_box;
    let '(b', runs) := bb_clear_pending_tasks b in
    st_mod (with_ballot_box b');;
    emit_ev ((λ r, EvRunClosure r.1 r.2) <$> runs);;
    if decide (state = STATE_LEADER) then
      st_mod (λ n, with_leader_lease (ll_on_leader_stop (n_leader_lease n)) n);;
      emit_ev [EvLeaderStop status]
    else mret tt
  else mret tt.

(** The meta state of [step_down]; the status of the storage is only logged. *)
Definition raise_term (term : Z) : N unit :=
  current ← st_get n_current_term;
  if decide (term > current) then
    st_mod (with_current_term term);;
    st_mod (with_voted_id empty_peer);;
    set_term_and_votedfor term empty_peer;;
    mret tt
  else mret tt.

Definition step_down (term : Z) (wakeup_a_candidate : bool) (status : Z) : N unit :=
  state ← st_get n_state;
  if negb (is_active_state state) then mret tt
  else
    step_down_from status;;
    reset_leader_id empty_peer status;;
    st_mod (with_state STATE_FOLLOWER);;
    conf_ctx_reset None;;
    st_mod (with_majority_nodes_readonly false);;
    clear_append_entries_cache;;
    has_executor ← st_get n_snapshot_executor;
    (if has_executor : bool then emit_ev [EvInterruptDownloading term] else mret tt);;
    raise_term term;;
    (if wakeup_a_candidate
     then conf ← st_get n_conf; emit_ev [EvReplicatorStopAllFindCandidate conf]
     else emit_ev [EvReplicatorStopAll]);;
    arg ← st_get n_stop_transfer_arg;
    (match arg with
     | Some _ => sys_result;; st_mod (with_stop_transfer_arg None)
     | None => mret tt
     end);;
    emit_ev [EvTimerStart ElectionTimer].

Definition check_step_down (request_term : Z) (server_id : PeerId) : N unit :=
  current ← st_get n_current_term;
  state ← st_get n_state;
  leader ← st_get n_leader_id;
  status ←
    (if decide (request_term > current) then step_down request_term false ENEWLEADER;; mret ENEWLEADER
     else if decide (state ≠ STATE_FOLLOWER) then step_down request_term false ENEWLEADER;; mret ENEWLEADER
     else if peer_is_empty leader then step_down request_term false ENEWLEADER;; mret ENEWLEADER
     else mret 0);
  leader' ← st_get n_leader_id;
  if peer_is_empty leader' then reset_leader_id server_id status else mret tt.

(** ** The configuration log *)

(** [first_log_index] the log manager gave the closure [c], 0 when it queued
    none. *)
Definition queued_first_log_index (c : Closure) (q : list DiskTask) : Z :=
  default 0 (head (omap (λ t, match t with
                              | TaskAppend d first _ => if decide (d = c) then Some first else None
                              | _ => None
                              end) q)).

(** [append_entries(&entries, new LeaderStableClosure(...))]. *)
Definition leader_append (entries : list LogEntry) : N unit :=
  c ← new_closure (LeaderStableClosure 0 (zlen entries));
  log_call (λ m, lm_append_entries m entries c);;
  st_mod (λ n, with_closures
    ((λ x, if decide (x.1 = c)
           then (c, LeaderStableClosure (queued_first_log_index c (lm_disk_queue (n_log_manager n))) (zlen entries))
           else x) <$> n_closures n) n).

Definition unsafe_apply_configuration (new_conf : Configuration) (old_conf : option Configuration)
    (leader_start : bool) : N unit :=
  cc ← st_get n_conf_ctx;
  st_check (cc_is_busy cc = true);;
  term ← st_get n_current_term;
  lease ← st_get n_leader_lease;
  let entry := mkLogEntry ENTRY_TYPE_CONFIGURATION (mkLogId 0 term) (Some (list_peers new_conf))
                 (list_peers <$> old_conf) [] in
  done ← new_closure (ConfigurationChangeDone term leader_start (ll_lease_epoch lease));
  b ← st_get n_ballot_box;
  b' ← st_lift (bb_append_pending_task b new_conf old_conf (Some done));
  st_mod (with_ballot_box b');;
  leader_append [entry];;
  check_and_set_configuration.

Definition conf_ctx_flush (conf old_conf : Configuration) : N unit :=
  cc ← st_get n_conf_ctx;
  st_check (cc_is_busy cc = false);;
  (if conf_empty old_conf then
     mod_conf_ctx (λ c, mkConfigurationCtx STAGE_STABLE (cc_nchanges c) (cc_version c)
                          (list_peers conf) (list_peers conf) (cc_adding_peers c) (cc_done c))
   else
     mod_conf_ctx (λ c, mkConfigurationCtx STAGE_JOINT (cc_nchanges c) (cc_version c)
                          (list_peers conf) (list_peers old_conf) (cc_adding_peers c) (cc_done c)));;
  unsafe_apply_configuration conf (if conf_empty old_conf then None else Some old_conf) true.

(** ** Becoming leader *)

Definition become_leader : N unit :=
  state ← st_get n_state;
  st_check (state = STATE_CANDIDATE);;
  emit_ev [EvTimerStop VoteTimer];;
  vote_ctx_reset VoteCtx;;
  st_mod (with_state STATE_LEADER);;
  server ← st_get n_server_id;
  st_mod (with_leader_id server);;
  term ← st_get n_current_term;
  emit_ev [EvReplicatorResetTerm term];;
  st_mod (λ n, with_follower_lease (fl_reset (n_follower_lease n)) n);;
  st_mod (λ n, with_leader_lease (ll_on_leader_start (n_leader_lease n) term) n);;
  conf ← st_get n_conf;
  st_each (λ p, if decide (peer_eq p server) then mret tt else emit_ev [EvReplicatorAdd p])
    (ce_list_peers conf);;
  b ← st_get n_ballot_box;
  m ← st_get n_log_manager;
  b' ← st_lift (bb_reset_pending_index b (lm_last_log_index m + 1));
  st_mod (with_ballot_box b');;
  cc ← st_get n_conf_ctx;
  st_check (cc_is_busy cc = false);;
  conf_ctx_flush (ce_conf conf) (ce_old_conf conf);;
  emit_ev [EvTimerStart StepdownTimer].

(** [elect_self] up to the release of the mutex. *)
Definition elect_self (old_leader_stepped_down : bool) : N unit :=
  conf ← st_get n_conf;
  server ← st_get n_server_id;
  if negb (ce_contains conf server) then mret tt
  else
    state ← st_get n_state;
    (if decide (state = STATE_FOLLOWER) then emit_ev [EvTimerStop ElectionTimer] else mret tt);;
    old_leader ← st_get n_leader_id;
    leader_term ← st_get n_current_term;
    reset_leader_id empty_peer ERAFTTIMEDOUT;;
    st_mod (with_state STATE_CANDIDATE);;
    st_mod (with_current_term (leader_term + 1));;
    st_mod (with_voted_id server);;
    emit_ev [EvTimerStart VoteTimer];;
    vote_ctx_reset PreVoteCtx;;
    vote_ctx_init VoteCtx false;;
    (if old_leader_stepped_down then
       mod_ctx VoteCtx (λ c, vc_set_disrupted_leader c (mkDisruptedLeader old_leader leader_term));;
       st_mod (λ n, with_follower_lease (fl_expire (n_follower_lease n)) n)
     else mret tt);;
    suspend (ResumeElectSelf (leader_term + 1)).

Definition grant_self (w : WhichCtx) : N unit :=
  wait_ms ← votable_time_from_now;
  if decide (wait_ms = 0) then
    server ← st_get n_server_id;
    mod_ctx w (λ c, vc_grant c server);;
    c ← get_ctx w;
    if negb (vc_granted c) then mret tt
    else match w with PreVoteCtx => elect_self false | VoteCtx => become_leader end
  else vote_ctx_start_grant_self_timer w wait_ms.

(** [request_peers_to_vote(peers, disrupted_leader)]; a peer no channel can be
    made to is skipped. *)
Definition request_peers_to_vote (ps : list PeerId) (dl : DisruptedLeader) : N unit :=
  server ← st_get n_server_id;
  group ← st_get n_group_id;
  current ← st_get n_current_term;
  c ← get_ctx VoteCtx;
  st_each (λ p,
    if decide (peer_eq p server) then mret tt
    else if decide (e_channel_init e p ≠ 0) then mret tt
    else
      server_str ← st_lift (peer_to_string server);
      peer_str ← st_lift (peer_to_string p);
      disrupted ← (if decide (peer_eq (dl_peer_id dl) empty_peer) then mret None
                   else s ← st_lift (peer_to_string (dl_peer_id dl)); mret (Some (mkTermLeader s (dl_term dl))));
      emit_ev [EvRequestVote p
        (mkRequestVoteRequest group server_str peer_str current (term (vc_last_log_id c))
           (index (vc_last_log_id c)) disrupted) current (vc_version c)]) ps.

(** [elect_self] from the mutex taken again. *)
Definition elect_self_resume (old_term : Z) (last_log_id : LogId) : N unit :=
  current ← st_get n_current_term;
  if decide (old_term ≠ current) then mret tt
  else
    mod_ctx VoteCtx (λ c, vc_set_last_log_id c last_log_id);;
    conf ← st_get n_conf;
    c ← get_ctx VoteCtx;
    request_peers_to_vote (ce_list_peers conf) (vc_disrupted_leader c);;
    server ← st_get n_server_id;
    rc ← set_term_and_votedfor current server;
    if decide (rc ≠ 0) then st_mod (with_voted_id empty_peer)
    else grant_self VoteCtx.

(** ** The pre-vote *)

(** [pre_vote] up to the release of the mutex. *)
Definition pre_vote (triggered : bool) : N unit :=
  has_executor ← st_get n_snapshot_executor;
  conf ← st_get n_conf;
  server ← st_get n_server_id;
  if has_executor && e_installing_snapshot e then mret tt
  else if negb (ce_contains conf server) then mret tt
  else
    old_term ← st_get n_current_term;
    suspend (ResumePreVote triggered old_term).

Definition request_peers_to_pre_vote (last_log_id : LogId) : N unit :=
  conf ← st_get n_conf;
  server ← st_get n_server_id;
  group ← st_get n_group_id;
  current ← st_get n_current_term;
  c ← get_ctx PreVoteCtx;
  st_each (λ p,
    if decide (peer_eq p server) then mret tt
    else if decide (e_channel_init e p ≠ 0) then mret tt
    else
      server_str ← st_lift (peer_to_string server);
      peer_str ← st_lift (peer_to_string p);
      emit_ev [EvPreVote p
        (mkRequestVoteRequest group server_str peer_str (current + 1) (term last_log_id)
           (index last_log_id) None) current (vc_version c)]) (ce_list_peers conf).

(** [pre_vote] from the mutex taken again. *)
Definition pre_vote_resume (triggered : bool) (old_term : Z) (last_log_id : LogId) : N unit :=
  current ← st_get n_current_term;
  if decide (old_term ≠ current) then mret tt
  else
    vote_ctx_init PreVoteCtx triggered;;
    request_peers_to_pre_vote last_log_id;;
    grant_self PreVoteCtx.

(** ** Timeouts *)

Definition handle_election_timeout : N unit :=
  state ← st_get n_state;
  triggered ← st_get n_vote_triggered;
  f ← st_get n_follower_lease;
  if decide (state ≠ STATE_FOLLOWER) then mret tt
  else if negb triggered && negb (fl_expired (e_monotonic_ms e) f) then mret tt
  else
    st_mod (with_vote_triggered false);;
    reset_leader_id empty_peer ERAFTTIMEDOUT;;
    pre_vote triggered.

Definition handle_vote_timeout : N unit :=
  state ← st_get n_state;
  current ← st_get n_current_term;
  if decide (state ≠ STATE_CANDIDATE) then mret tt
  else if raft_step_down_when_vote_timedout fl then
    step_down current false ERAFTTIMEDOUT;; pre_vote false
  else elect_self false.

Definition handle_grant_self_timedout (w : WhichCtx) (vote_ctx_version : Z) : N unit :=
  state ← st_get n_state;
  c ← get_ctx w;
  if negb (is_active_state state) || negb (bool_decide (vc_version c = vote_ctx_version)) then mret tt
  else grant_self w.

(** ** Requests to vote at once and answers to votes *)

Definition handle_timeout_now_request (request : TimeoutNowRequest) : N unit :=
  current ← st_get n_current_term;
  if decide (tn_term request ≠ current) then
    (if decide (tn_term request > current) then step_down (tn_term request) false EHIGHERTERMREQUEST
     else mret tt);;
    now_term ← st_get n_current_term;
    emit_ev [EvTimeoutNowReply request (mkTermResponse now_term false)]
  else
    state ← st_get n_state;
    if decide (state ≠ STATE_FOLLOWER) then
      emit_ev [EvTimeoutNowReply request (mkTermResponse current false)]
    else
      emit_ev [EvTimeoutNowReply request
        (mkTermResponse (if raft_enable_leader_lease fl then current else current + 1) true)];;
      elect_self (tn_old_leader_stepped_down request).

Definition retry_vote_on_reserved_peers : N unit :=
  c ← get_ctx VoteCtx;
  let '(c', ps) := vc_pop_grantable_peers c in
  mod_ctx VoteCtx (λ _, c');;
  if decide (ps = []) then mret tt else request_peers_to_vote ps (vc_disrupted_leader c').

Definition handle_request_vote_response (peer_id : PeerId) (term ctx_version : Z)
    (response : RequestVoteResponse) : N unit :=
  c ← get_ctx VoteCtx;
  state ← st_get n_state;
  current ← st_get n_current_term;
  if decide (ctx_version ≠ vc_version c) then mret tt
  else if decide (state ≠ STATE_CANDIDATE) then mret tt
  else if decide (term ≠ current) then mret tt
  else if decide (rvr_term response > current) then
    step_down (rvr_term response) false EHIGHERTERMRESPONSE
  else if negb (rvr_granted response) && negb (rvr_rejected_by_lease response) then mret tt
  else
    (if rvr_disrupted response then
       mod_ctx VoteCtx (λ c, vc_set_disrupted_leader c
                               (mkDisruptedLeader peer_id (rvr_previous_term response)))
     else mret tt);;
    if rvr_granted response then
      mod_ctx VoteCtx (λ c, vc_grant c peer_id);;
      f ← st_get n_follower_lease;
      server ← st_get n_server_id;
      (if decide (peer_eq peer_id (fl_last_leader f)) then
         mod_ctx VoteCtx (λ c, vc_grant c server);;
         vote_ctx_stop_grant_self_timer VoteCtx
       else mret tt);;
      c' ← get_ctx VoteCtx;
      if vc_granted c' then become_leader else retry_vote_on_reserved_peers
    else
      mod_ctx VoteCtx (λ c, vc_reserve c peer_id);;
      retry_vote_on_reserved_peers.

(** The loop that counts [peers] in the pre-vote. *)
Definition grant_pre_votes (ps : list PeerId) : N unit :=
  st_each (λ p,
    mod_ctx PreVoteCtx (λ c, vc_grant c p);;
    f ← st_get n_follower_lease;
    server ← st_get n_server_id;
    if decide (peer_eq p (fl_last_leader f)) then
      mod_ctx PreVoteCtx (λ c, vc_grant c server);;
      vote_ctx_stop_grant_self_timer PreVoteCtx
    else mret tt) ps.

Definition handle_pre_vote_response (peer_id : PeerId) (term ctx_version : Z)
    (response : RequestVoteResponse) : N unit :=
  c ← get_ctx PreVoteCtx;
  state ← st_get n_state;
  current ← st_get n_current_term;
  if decide (ctx_version ≠ vc_version c) then mret tt
  else if decide (state ≠ STATE_FOLLOWER) then mret tt
  else if decide (term ≠ current) then mret tt
  else if decide (rvr_term response > current) then
    step_down (rvr_term response) false EHIGHERTERMRESPONSE
  else if negb (rvr_granted response) && negb (rvr_rejected_by_lease response) then mret tt
  else if rvr_rejected_by_lease response && negb (vc_triggered c) then mret tt
  else
    (if rvr_disrupted response then
       mod_ctx PreVoteCtx (λ c, vc_set_disrupted_leader c
                                  (mkDisruptedLeader peer_id (rvr_previous_term response)))
     else mret tt);;
    (if rvr_rejected_by_lease response then mod_ctx PreVoteCtx (λ c, vc_reserve c peer_id) else mret tt);;
    c1 ← get_ctx PreVoteCtx;
    let '(c2, popped) := vc_pop_grantable_peers c1 in
    mod_ctx PreVoteCtx (λ _, c2);;
    grant_pre_votes (if rvr_rejected_by_lease response then popped
                     else (set_insert peer_lt peer_id popped).1);;
    c3 ← get_ctx PreVoteCtx;
    if vc_granted c3 then elect_self false else mret tt.

(** ** Requests for a vote *)

(** [handle_pre_vote_request] up to the release of the mutex. *)
Definition handle_pre_vote_request (request : RequestVoteRequest) : N unit :=
  state ← st_get n_state;
  if negb (is_active_state state) then emit_ev [EvPreVoteReply request EINVAL None]
  else
    '(_, rc) ← st_lift (peer_parse (rv_server_id request));
    if decide (0 ≠ rc) then emit_ev [EvPreVoteReply request EINVAL None]
    else
      current ← st_get n_current_term;
      if decide (rv_term request < current) then
        emit_ev [EvPreVoteReply request 0
          (Some (mkRequestVoteResponse current false (bool_decide (state = STATE_LEADER)) current false))]
      else suspend (ResumePreVoteRequest request).

(** [handle_pre_vote_request] from the mutex taken again. *)
Definition handle_pre_vote_request_resume (request : RequestVoteRequest) (last_log_id : LogId) : N unit :=
  votable_time ← votable_time_from_now;
  state ← st_get n_state;
  current ← st_get n_current_term;
  let grantable :=
    bool_decide (logid_ge (mkLogId (rv_last_log_index request) (rv_last_log_term request)) last_log_id) in
  let granted := grantable && bool_decide (votable_time = 0) in
  let rejected_by_lease := grantable && bool_decide (votable_time > 0) in
  emit_ev [EvPreVoteReply request 0
    (Some (mkRequestVoteResponse current granted (bool_decide (state = STATE_LEADER)) current
             rejected_by_lease))].

(** The answer of [handle_request_vote_request]. *)
Definition reply_request_vote (request : RequestVoteRequest) (candidate_id : PeerId) (previous_term : Z)
    (disrupted rejected_by_lease : bool) : N unit :=
  current ← st_get n_current_term;
  voted ← st_get n_voted_id;
  emit_ev [EvRequestVoteReply request candidate_id 0
    (Some (mkRequestVoteResponse current
             (bool_decide (rv_term request = current) && bool_decide (peer_eq voted candidate_id))
             disrupted previous_term rejected_by_lease))].

(** The candidate has disrupted the leader this node follows. *)
Definition disrupts_leader (request : RequestVoteRequest) : N bool :=
  state ← st_get n_state;
  current ← st_get n_current_term;
  leader ← st_get n_leader_id;
  match rv_disrupted_leader request with
  | None => mret false
  | Some tl =>
      if decide (state = STATE_FOLLOWER ∧ current = tl_term tl) then
        '(p, rc) ← st_lift (peer_parse (tl_peer_id tl));
        mret (bool_decide (0 = rc) && bool_decide (peer_eq leader p))
      else mret false
  end.

(** [handle_request_vote_request] up to the release of the mutex. *)
Definition handle_request_vote_request (request : RequestVoteRequest) : N unit :=
  state ← st_get n_state;
  if negb (is_active_state state) then emit_ev [EvRequestVoteReply request empty_peer EINVAL None]
  else
    '(candidate_id, rc) ← st_lift (peer_parse (rv_server_id request));
    if decide (0 ≠ rc) then emit_ev [EvRequestVoteReply request empty_peer EINVAL None]
    else
      disrupts ← disrupts_leader request;
      (if disrupts : bool
       then st_mod (λ n, with_follower_lease (fl_expire (n_follower_lease n)) n) else mret tt);;
      previous_term ← st_get n_current_term;
      if decide (rv_term request < previous_term) then
        reply_request_vote request candidate_id previous_term false false
      else suspend (ResumeVoteRequest request candidate_id previous_term).

(** [handle_request_vote_request] from the mutex taken again. *)
Definition handle_request_vote_request_resume (request : RequestVoteRequest) (candidate_id : PeerId)
    (previous_term : Z) (last_log_id : LogId) : N unit :=
  current ← st_get n_current_term;
  if decide (previous_term ≠ current) then
    reply_request_vote request candidate_id previous_term false false
  else
    let log_is_ok :=
      bool_decide (logid_ge (mkLogId (rv_last_log_index request) (rv_last_log_term request)) last_log_id) in
    votable_time ← votable_time_from_now;
    if decide (votable_time > 0) then
      reply_request_vote request candidate_id previous_term false log_is_ok
    else
      state ← st_get n_state;
      disrupted ←
        (if decide (rv_term request > current) then
           step_down (rv_term request) false EHIGHERTERMREQUEST;;
           mret (bool_decide (state_num state ≤ state_num STATE_TRANSFERRING))
         else mret false);
      voted ← st_get n_voted_id;
      (if log_is_ok && peer_is_empty voted then
         step_down (rv_term request) false EVOTEFORCANDIDATE;;
         st_mod (with_voted_id candidate_id);;
         now_term ← st_get n_current_term;
         rc ← set_term_and_votedfor now_term candidate_id;
         if decide (rc ≠ 0) then st_mod (with_voted_id empty_peer) else mret tt
       else mret tt);;
      reply_request_vote request candidate_id previous_term disrupted false.

(** ** Waiting for [last_log_id(true)] *)

(** The [i]-th suspended call enters the log manager: the answer is at hand or
    comes with a closure. *)
Definition enter_last_log_id (i : nat) : N unit :=
  l ← st_get n_suspended;
  match l !! i with
  | Some (SuspendedAt k) =>
      c ← st_get n_next_closure;
      st_mod (with_next_closure (c + 1));;
      m ← st_get n_log_manager;
      let '(m', answer) := lm_last_log_id_flush m c in
      st_mod (with_log_manager m');;
      st_mod (with_suspended (<[i := match answer with
                                     | Some a => SuspendedWith a k
                                     | None => SuspendedOn c k
                                     end]> l))
  | _ => mret tt
  end.

(** The closure of [last_log_id(true)] runs. *)
Definition answer_last_log_id (c : Closure) (last_log_id : LogId) : N unit :=
  st_mod (λ n, with_suspended
    ((λ s, match s with
           | SuspendedOn c' k => if decide (c' = c) then SuspendedWith last_log_id k else s
           | _ => s
           end) <$> n_suspended n) n).

Definition resume_call (last_log_id : LogId) (k : Resumption) : N unit :=
  match k with
  | ResumePreVote triggered old_term => pre_vote_resume triggered old_term last_log_id
  | ResumeElectSelf old_term => elect_self_resume old_term last_log_id
  | ResumePreVoteRequest request => handle_pre_vote_request_resume request last_log_id
  | ResumeVoteRequest request candidate_id previous_term =>
      handle_request_vote_request_resume request candidate_id previous_term last_log_id
  end.

(** The [i]-th suspended call, answered, takes the mutex again. *)
Definition resume (i : nat) : N unit :=
  l ← st_get n_suspended;
  match l !! i with
  | Some (SuspendedWith a k) => st_mod (with_suspended (delete i l));; resume_call a k
  | _ => mret tt
  end.
End node.
