(* ===== verification/NodeCore.v ===== *)
(** * What a node commits to in an election

    [Core] is the part of a node that elections depend on: its role, term and
    vote, the vote context's ballot and version, what its meta storage holds,
    the elections and vote requests that wait for the log, and what it already
    told others (from [n_out]).  [core_step] lists the ways it can change.
    Every handler of NodeVote.v is shown to change the core by such steps
    only. *)

From stdpp Require Import prelude.
From S2P Require Import Prelude StdContainers Configuration Ballot ClosureQueue BallotBox PeerText.
From S2P Require Import LogStorage LogManager StateMonad Messages Lease MetaStorage AppendEntriesCache.
From S2P Require Import NodeState NodeVote.
Local Open Scope Z_scope.

Abbreviation pkey := (Z * Z * Z)%type.

Definition key0 : pkey := peer_key empty_peer.

Lemma peer_is_empty_key p : peer_is_empty p = bool_decide (peer_key p = key0).
Proof.
  apply eq_bool_prop_intro. rewrite !Is_true_true, peer_is_empty_eq, peer_eq_key, bool_decide_eq_true. done.
Qed.

(** ** What the events say *)

(** The version of the vote context that a vote request or a timer to grant
    oneself was made under. *)
Definition ev_armed (ev : NodeEvent) : option Z :=
  match ev with
  | EvRequestVote _ _ _ v => Some v
  | EvGrantSelfTimer VoteCtx v _ => Some v
  | _ => None
  end.

(** A vote that was stored. *)
Definition ev_cast (ev : NodeEvent) : option (Z * pkey) :=
  match ev with
  | EvSetMeta t v 0 => if decide (peer_key v = key0) then None else Some (t, peer_key v)
  | _ => None
  end.

(** A vote another node was told it has. *)
Definition ev_reply (ev : NodeEvent) : option (Z * pkey) :=
  match ev with
  | EvRequestVoteReply r c _ (Some resp) => if rvr_granted resp then Some (rv_term r, peer_key c) else None
  | _ => None
  end.

(** A vote for oneself that could not be stored. *)
Definition ev_failed (self : pkey) (ev : NodeEvent) : option Z :=
  match ev with
  | EvSetMeta t v rc => if decide (rc ≠ 0 ∧ peer_key v = self) then Some t else None
  | _ => None
  end.

(** An event that says none of these. *)
Definition quiet_ev (ev : NodeEvent) : bool :=
  match ev with
  | EvRequestVote _ _ _ _ | EvGrantSelfTimer VoteCtx _ _ | EvSetMeta _ _ _ | EvRequestVoteReply _ _ _ _ => false
  | _ => true
  end.

Definition sus_elect (s : Suspended) : option Z :=
  match s with
  | SuspendedAt (ResumeElectSelf t) | SuspendedOn _ (ResumeElectSelf t) | SuspendedWith _ (ResumeElectSelf t) => Some t
  | _ => None
  end.

Definition sus_cand (s : Suspended) : option pkey :=
  match s with
  | SuspendedAt (ResumeVoteRequest _ c _) | SuspendedOn _ (ResumeVoteRequest _ c _)
  | SuspendedWith _ (ResumeVoteRequest _ c _) => Some (peer_key c)
  | _ => None
  end.

(** ** The core *)

Record Core (M : Type) := mkCore {
  c_self : pkey;
  c_state : State;
  c_term : Z;
  c_voted : pkey;
  c_ballot : Ballot;
  c_version : Z;
  c_meta : M;
  c_elects : list Z;
  c_cands : list pkey;
  c_armed : list Z;
  c_cast : list (Z * pkey);
  c_replies : list (Z * pkey);
  c_failed : list Z;
}.
#[global] Arguments mkCore {M}.
#[global] Arguments c_self {M}.
#[global] Arguments c_state {M}.
#[global] Arguments c_term {M}.
#[global] Arguments c_voted {M}.
#[global] Arguments c_ballot {M}.
#[global] Arguments c_version {M}.
#[global] Arguments c_meta {M}.
#[global] Arguments c_elects {M}.
#[global] Arguments c_cands {M}.
#[global] Arguments c_armed {M}.
#[global] Arguments c_cast {M}.
#[global] Arguments c_replies {M}.
#[global] Arguments c_failed {M}.

Section core_setters.
Context {M : Type}.
Implicit Types c : Core M.

Definition cset_state (v : State) c : Core M :=
  mkCore (c_self c) v (c_term c) (c_voted c) (c_ballot c) (c_version c) (c_meta c) (c_elects c) (c_cands c)
  (c_armed c) (c_cast c) (c_replies c) (c_failed c).
Definition cset_term (v : Z) c : Core M :=
  mkCore (c_self c) (c_state c) v (c_voted c) (c_ballot c) (c_version c) (c_meta c) (c_elects c) (c_cands c)
  (c_armed c) (c_cast c) (c_replies c) (c_failed c).
Definition cset_voted (v : pkey) c : Core M :=
  mkCore (c_self c) (c_state c) (c_term c) v (c_ballot c) (c_version c) (c_meta c) (c_elects c) (c_cands c)
  (c_armed c) (c_cast c) (c_replies c) (c_failed c).
Definition cset_ballot (v : Ballot) c : Core M :=
  mkCore (c_self c) (c_state c) (c_term c) (c_voted c) v (c_version c) (c_meta c) (c_elects c) (c_cands c)
  (c_armed c) (c_cast c) (c_replies c) (c_failed c).
Definition cset_version (v : Z) c : Core M :=
  mkCore (c_self c) (c_state c) (c_term c) (c_voted c) (c_ballot c) v (c_meta c) (c_elects c) (c_cands c) (c_armed
  c) (c_cast c) (c_replies c) (c_failed c).
Definition cset_meta (v : M) c : Core M :=
  mkCore (c_self c) (c_state c) (c_term c) (c_voted c) (c_ballot c) (c_version c) v (c_elects c) (c_cands c)
  (c_armed c) (c_cast c) (c_replies c) (c_failed c).
Definition cset_elects (v : list Z) c : Core M :=
  mkCore (c_self c) (c_state c) (c_term c) (c_voted c) (c_ballot c) (c_version c) (c_meta c) v (c_cands c)
  (c_armed c) (c_cast c) (c_replies c) (c_failed c).
Definition cset_cands (v : list pkey) c : Core M :=
  mkCore (c_self c) (c_state c) (c_term c) (c_voted c) (c_ballot c) (c_version c) (c_meta c) (c_elects c) v
  (c_armed c) (c_cast c) (c_replies c) (c_failed c).
Definition cset_armed (v : list Z) c : Core M :=
  mkCore (c_self c) (c_state c) (c_term c) (c_voted c) (c_ballot c) (c_version c) (c_meta c) (c_elects c) (c_cands
  c) v (c_cast c) (c_replies c) (c_failed c).
Definition cset_cast (v : list (Z * pkey)) c : Core M :=
  mkCore (c_self c) (c_state c) (c_term c) (c_voted c) (c_ballot c) (c_version c) (c_meta c) (c_elects c) (c_cands
  c) (c_armed c) v (c_replies c) (c_failed c).
Definition cset_replies (v : list (Z * pkey)) c : Core M :=
  mkCore (c_self c) (c_state c) (c_term c) (c_voted c) (c_ballot c) (c_version c) (c_meta c) (c_elects c) (c_cands
  c) (c_armed c) (c_cast c) v (c_failed c).
Definition cset_failed (v : list Z) c : Core M :=
  mkCore (c_self c) (c_state c) (c_term c) (c_voted c) (c_ballot c) (c_version c) (c_meta c) (c_elects c) (c_cands
  c) (c_armed c) (c_cast c) (c_replies c) v.
End core_setters.

(** [past] are the events of the earlier lives of the node. *)
Definition core {S M} (past : list NodeEvent) (n : Node S M) : Core M :=
  mkCore (peer_key (n_server_id n)) (n_state n) (n_current_term n) (peer_key (n_voted_id n))
    (vc_ballot (n_vote_ctx n)) (vc_version (n_vote_ctx n)) (n_meta_storage n)
    (omap sus_elect (n_suspended n)) (omap sus_cand (n_suspended n))
    (omap ev_armed (n_out n)) (omap ev_cast (past ++ n_out n)) (omap ev_reply (past ++ n_out n))
    (omap (ev_failed (peer_key (n_server_id n))) (n_out n)).

(** Not a candidate and not a leader. *)
Definition passive (s : State) : Prop :=
  s ≠ STATE_CANDIDATE ∧ s ≠ STATE_LEADER ∧ s ≠ STATE_TRANSFERRING.

Definition leading (s : State) : Prop := s = STATE_LEADER ∨ s = STATE_TRANSFERRING.

Section core_step.
Context {M : Type} `{RaftMetaStorage M}.

(** [G t p]: the peer [p] granted its vote in term [t] to this node. *)
Variable G : Z → pkey → Prop.

Implicit Types c : Core M.

(** The node voted for itself in this term and stored it, or acts under a
    vote context that was made after that. *)
Definition self_voted c : Prop :=
  c_version c ∈ c_armed c ∨ (c_term c, c_self c) ∈ c_cast c.

Inductive core_step : relation (Core M) :=
  | cs_state c s : passive s → core_step c (cset_state s c)
  | cs_transfer c s : leading (c_state c) → leading s → core_step c (cset_state s c)
  | cs_reset c : core_step c (cset_version (c_version c + 1) c)
  | cs_term c t rc m :
      passive (c_state c) → c_term c < t → ms_set_term_and_votedfor t empty_peer (c_meta c) = Some (rc, m) →
      core_step c (cset_meta m (cset_voted key0 (cset_term t c)))
  | cs_vote c p m :
      c_voted c = key0 → peer_key p ≠ c_self c → ms_set_term_and_votedfor (c_term c) p (c_meta c) = Some (0, m) →
      core_step c (cset_cast (c_cast c ++ (if decide (peer_key p = key0) then [] else [(c_term c, peer_key p)]))
                     (cset_meta m (cset_voted (peer_key p) c)))
  | cs_vote_fail c p rc m :
      c_voted c = key0 → peer_key p ≠ c_self c → rc ≠ 0 →
      ms_set_term_and_votedfor (c_term c) p (c_meta c) = Some (rc, m) →
      core_step c (cset_meta m c)
  | cs_elect c conf old :
      core_step c (cset_elects (c_elects c ++ [c_term c + 1])
        (cset_version (c_version c + 1) (cset_ballot (ballot_init conf old).1
          (cset_voted (c_self c) (cset_term (c_term c + 1) (cset_state STATE_CANDIDATE c))))))
  | cs_elect_drop c l : l ⊆ c_elects c → core_step c (cset_elects l c)
  | cs_cands_drop c l : l ⊆ c_cands c → core_step c (cset_cands l c)
  | cs_cands_add c k : k ≠ c_self c → core_step c (cset_cands (c_cands c ++ [k]) c)
  | cs_elect_end c p m l ar :
      c_term c ∈ c_elects c → l ⊆ c_elects c → Forall (c_version c =.) ar → peer_key p = c_self c →
      ms_set_term_and_votedfor (c_term c) p (c_meta c) = Some (0, m) →
      core_step c (cset_cast (c_cast c ++ [(c_term c, c_self c)]) (cset_armed (c_armed c ++ ar)
        (cset_meta m (cset_elects l c))))
  | cs_elect_fail c p rc m l ar :
      c_term c ∈ c_elects c → l ⊆ c_elects c → Forall (c_version c =.) ar → peer_key p = c_self c → rc ≠ 0 →
      ms_set_term_and_votedfor (c_term c) p (c_meta c) = Some (rc, m) →
      core_step c (cset_failed (c_failed c ++ [c_term c]) (cset_voted key0 (cset_armed (c_armed c ++ ar)
        (cset_meta m (cset_elects l c)))))
  | cs_arm c ar : self_voted c → Forall (c_version c =.) ar → core_step c (cset_armed (c_armed c ++ ar) c)
  | cs_self_grant c p :
      self_voted c → peer_key p = c_self c → core_step c (cset_ballot (ballot_grant (c_ballot c) p) c)
  | cs_peer_grant c p :
      c_state c = STATE_CANDIDATE → G (c_term c) (peer_key p) →
      core_step c (cset_ballot (ballot_grant (c_ballot c) p) c)
  | cs_leader c :
      c_state c = STATE_CANDIDATE → self_voted c → ballot_granted (c_ballot c) = true →
      core_step c (cset_version (c_version c + 1) (cset_state STATE_LEADER c))
  | cs_reply c t k :
      t = c_term c → k = c_voted c → k ≠ c_self c → core_step c (cset_replies (c_replies c ++ [(t, k)]) c).

Definition core_steps : relation (Core M) := rtc core_step.
End core_step.

(** ** Frames *)

Lemma omap_nil_all {A B} (f : A → option B) l : (∀ x, x ∈ l → f x = None) → omap f l = [].
Proof.
  induction l as [|x l IH]; intros Hl; [done|]. cbn. rewrite (Hl x) by set_solver. apply IH. set_solver.
Qed.

Section frames.
Context {S M : Type} `{LogStorage S, RaftMetaStorage M} (fl : RaftFlags) (e : Env) (past : list NodeEvent).
Implicit Types n : Node S M.

Definition core_eq n n' : Prop := core past n' = core past n.

#[global] Instance core_eq_preorder : PreOrder core_eq.
Proof. split; [done|]. intros n1 n2 n3 H1 H2. unfold core_eq in *. congruence. Qed.

(** A computation that leaves the core alone. *)
Definition ceq {A} (m : NM S M A) : Prop := st_rel core_eq m.

Lemma ceq_ret {A} (a : A) : ceq (mret a).
Proof. apply st_rel_ret, _. Qed.
Lemma ceq_bind {A B} (m : NM S M A) (k : A → NM S M B) : ceq m → (∀ a, ceq (k a)) → ceq (m ≫= k).
Proof. apply st_rel_bind, _. Qed.
Lemma ceq_get {A} (f : Node S M → A) : ceq (st_get f).
Proof. apply st_rel_get, _. Qed.
Lemma ceq_lift {A} (o : option A) : ceq (st_lift o).
Proof. apply st_rel_lift, _. Qed.
Lemma ceq_check (P : Prop) `{Decision P} : ceq (st_check P).
Proof. apply st_rel_check, _. Qed.
Lemma ceq_each {A} (f : A → NM S M unit) l : (∀ x, ceq (f x)) → ceq (st_each f l).
Proof. apply st_rel_each, _. Qed.
Lemma ceq_mod (f : Node S M → Node S M) : (∀ n, core past (f n) = core past n) → ceq (st_mod f).
Proof. apply (st_rel_mod core_eq). Qed.

Lemma core_emit n evs :
  Forall (λ ev, quiet_ev ev = true) evs → core past (with_out (n_out n ++ evs) n) = core past n.
Proof.
  intros Hq. unfold core. cbn. rewrite !app_assoc, !omap_app.
  assert (∀ B (f : NodeEvent → option B), (∀ ev, quiet_ev ev = true → f ev = None) → omap f evs = []) as Hn.
  { intros B f Hf. apply omap_nil_all. intros ev Hev. apply Hf. by eapply Forall_forall in Hq. }
  rewrite !Hn, !app_nil_r; [done|..]; intros []; cbn; try done; by destruct w.
Qed.

Lemma ceq_emit evs : Forall (λ ev, quiet_ev ev = true) evs → ceq (emit_ev evs).
Proof. intros Hq. apply ceq_mod. intros n. by apply core_emit. Qed.

Lemma quiet_cache evs : Forall (λ ev, quiet_ev ev = true) (EvCache <$> evs).
Proof. by apply Forall_fmap, Forall_true. Qed.

Lemma quiet_runs (runs : list (Closure * Z)) :
  Forall (λ ev, quiet_ev ev = true) ((λ r, EvRunClosure r.1 r.2) <$> runs).
Proof. by apply Forall_fmap, Forall_true. Qed.

Lemma ceq_sys : ceq sys_result.
Proof. by intros n a n' [= <- <-]. Qed.

Lemma ceq_mod_ctx w f :
  (w = VoteCtx → ∀ c, vc_ballot (f c) = vc_ballot c ∧ vc_version (f c) = vc_version c) → ceq (mod_ctx w f).
Proof.
  intros Hf. apply ceq_mod. intros n. destruct w; [|done]. unfold core. cbn.
  by destruct (Hf eq_refl (n_vote_ctx n)) as [-> ->].
Qed.

Lemma ceq_suspend k :
  sus_elect (SuspendedAt k) = None → sus_cand (SuspendedAt k) = None → ceq (suspend k).
Proof.
  intros H1 H2. apply ceq_mod. intros n. unfold core. cbn. rewrite !omap_app.
  assert (∀ B (f : Suspended → option B), f (SuspendedAt k) = None → omap f [SuspendedAt k] = []) as Hn.
  { intros B f Hf. cbn. by rewrite Hf. }
  by rewrite !Hn, !app_nil_r.
Qed.

Lemma ceq_new_closure c : ceq (new_closure c).
Proof. by intros n a n' [= <- <-]. Qed.

Lemma ceq_cache_call {A} c (f : CM A) : ceq (cache_call c f).
Proof.
  intros n a n' Hr. unfold cache_call in Hr. destruct (f _) as [[a' s]|]; [|done]. injection Hr as <- <-.
  exact (core_emit n _ (quiet_cache (cs_out s))).
Qed.
End frames.

(** Peel a handler down to operations that have a lemma. *)
Ltac ceq_tac :=
  repeat (cbv beta zeta; match goal with
  | |- ceq _ (mret _) => apply ceq_ret
  | |- ceq _ (st_get _) => apply ceq_get
  | |- ceq _ (get_ctx _) => apply ceq_get
  | |- ceq _ (st_lift _) => apply ceq_lift
  | |- ceq _ (st_check _) => apply ceq_check
  | |- ceq _ (_ ≫= _) => apply ceq_bind; [|intros ?]
  | |- ceq _ (st_each _ _) => apply ceq_each; intros ?
  | |- ceq _ (if ?b then _ else _) => destruct b
  | |- ceq _ (match ?x with _ => _ end) => destruct x
  | |- ceq _ sys_result => apply ceq_sys
  | |- ceq _ (new_closure _) => apply ceq_new_closure
  | |- ceq _ (cache_call _ _) => apply ceq_cache_call
  | |- ceq _ (mod_ctx PreVoteCtx _) => by apply ceq_mod_ctx
  | |- ceq _ (mod_ctx _ _) => apply ceq_mod_ctx; by intros _ []
  | |- ceq _ (mod_conf_ctx _) => by apply ceq_mod
  | |- ceq _ (emit_ev (match ?x with _ => _ end)) => destruct x
  | |- ceq _ (emit_ev _) => apply ceq_emit; first [apply quiet_runs|apply quiet_cache|by repeat constructor]
  | |- ceq _ (st_mod _) => by apply ceq_mod
  | _ => solve [eauto with node_core]
  end).

Create HintDb node_core.

Section frame_lemmas.
Context {S M : Type} `{LogStorage S, RaftMetaStorage M} (fl : RaftFlags) (e : Env) (past : list NodeEvent).
Abbreviation ceq := (ceq (S := S) (M := M) past).

Lemma ceq_log_call f : ceq (log_call f).
Proof. unfold log_call. ceq_tac. Qed.
Lemma ceq_check_conf : ceq check_and_set_configuration.
Proof. unfold check_and_set_configuration. ceq_tac. Qed.
Lemma ceq_box_call f : ceq (box_call f).
Proof. unfold box_call. ceq_tac. Qed.
Lemma ceq_stop_timer w : ceq (vote_ctx_stop_grant_self_timer w).
Proof. unfold vote_ctx_stop_grant_self_timer. ceq_tac. Qed.
Lemma ceq_reset_pre : ceq (vote_ctx_reset PreVoteCtx).
Proof. unfold vote_ctx_reset. ceq_tac. apply ceq_stop_timer. Qed.
Lemma ceq_votable : ceq (votable_time_from_now fl e).
Proof. unfold votable_time_from_now. ceq_tac. Qed.
End frame_lemmas.
#[export] Hint Resolve ceq_log_call ceq_check_conf ceq_box_call ceq_stop_timer ceq_reset_pre ceq_votable : node_core.

Section frame_handlers.
Context {S M : Type} `{LogStorage S, RaftMetaStorage M} (fl : RaftFlags) (e : Env) (past : list NodeEvent).
Abbreviation ceq := (ceq (S := S) (M := M) past).

Lemma ceq_init_pre triggered : ceq (vote_ctx_init PreVoteCtx triggered).
Proof. unfold vote_ctx_init. ceq_tac. Qed.
Lemma ceq_reset_leader_id p st : ceq (reset_leader_id p st).
Proof. unfold reset_leader_id. ceq_tac. Qed.
Lemma ceq_stop_replicator k d : ceq (stop_replicator k d).
Proof. unfold stop_replicator. ceq_tac. Qed.
Lemma ceq_check_majority_of c : ceq (check_majority_of e c).
Proof. unfold check_majority_of. ceq_tac. Qed.
Lemma ceq_clear_cache : ceq clear_append_entries_cache.
Proof. unfold clear_append_entries_cache. ceq_tac. Qed.
Lemma ceq_leader_append es : ceq (leader_append es).
Proof. unfold leader_append. ceq_tac. Qed.
Lemma ceq_pre_vote triggered : ceq (pre_vote e triggered).
Proof.
  unfold pre_vote. ceq_tac. by apply ceq_suspend.
Qed.
Lemma ceq_request_pre i : ceq (request_peers_to_pre_vote e i).
Proof. unfold request_peers_to_pre_vote. ceq_tac. Qed.
End frame_handlers.
#[export] Hint Resolve ceq_init_pre ceq_reset_leader_id ceq_stop_replicator ceq_check_majority_of ceq_clear_cache
  ceq_leader_append ceq_pre_vote ceq_request_pre : node_core.

Section frame_handlers2.
Context {S M : Type} `{LogStorage S, RaftMetaStorage M} (fl : RaftFlags) (e : Env) (past : list NodeEvent).
Abbreviation ceq := (ceq (S := S) (M := M) past).

Lemma ceq_check_majority : ceq (check_majority_nodes_readonly e).
Proof. unfold check_majority_nodes_readonly. ceq_tac. Qed.
Lemma ceq_apply_conf nc oc b : ceq (unsafe_apply_configuration nc oc b).
Proof. unfold unsafe_apply_configuration. ceq_tac. Qed.
Lemma ceq_grant_pre_votes ps : ceq (grant_pre_votes ps).
Proof. unfold grant_pre_votes. ceq_tac. Qed.
Lemma ceq_disrupts r : ceq (disrupts_leader r).
Proof. unfold disrupts_leader. ceq_tac. Qed.
Lemma ceq_pre_vote_request r : ceq (handle_pre_vote_request r).
Proof.
  unfold handle_pre_vote_request. ceq_tac. by apply ceq_suspend.
Qed.
Lemma ceq_pre_vote_request_resume r i : ceq (handle_pre_vote_request_resume fl e r i).
Proof. unfold handle_pre_vote_request_resume. ceq_tac. Qed.
End frame_handlers2.
#[export] Hint Resolve ceq_check_majority ceq_apply_conf ceq_grant_pre_votes ceq_disrupts ceq_pre_vote_request
  ceq_pre_vote_request_resume : node_core.

(** ** Handlers as core steps *)

(** Candidates are other nodes, and the node's own name is not the empty one. *)
Definition cand_ok {M} (c : Core M) : Prop := c_self c ≠ key0 ∧ Forall (c_self c ≠.) (c_cands c).

Section rel.
Context {S M : Type} `{LogStorage S, RaftMetaStorage M} (G : Z → pkey → Prop) (past : list NodeEvent).
Implicit Types n : Node S M.

Lemma core_step_cand_ok (c c' : Core M) : core_step G c c' → cand_ok c → cand_ok c'.
Proof.
  unfold cand_ok. intros Hs [H1 H2]. destruct Hs; cbn; split; try done.
  - rewrite Forall_forall in H2 |- *. set_solver.
  - apply Forall_app. split; [done|]. by constructor.
Qed.

Lemma core_steps_cand_ok (c c' : Core M) : core_steps G c c' → cand_ok c → cand_ok c'.
Proof. induction 1; [done|]. eauto using core_step_cand_ok. Qed.

(** A run from a state with a good core changes the core by steps. *)
Definition node_rel n n' : Prop := cand_ok (core past n) → core_steps G (core past n) (core past n').

#[global] Instance node_rel_preorder : PreOrder node_rel.
Proof.
  split; [by intros n _; apply rtc_refl|]. intros n1 n2 n3 H1 H2 Hok.
  pose proof (H1 Hok) as Hs. etrans; [exact Hs|]. by apply H2, (core_steps_cand_ok _ _ Hs).
Qed.

Definition nrel {A} (m : NM S M A) : Prop := st_rel node_rel m.

Lemma nrel_bind {A B} (m : NM S M A) (k : A → NM S M B) : nrel m → (∀ a, nrel (k a)) → nrel (m ≫= k).
Proof. apply st_rel_bind, _. Qed.

Lemma node_rel_step n n' : core_step G (core past n) (core past n') → node_rel n n'.
Proof. intros Hs _. by apply rtc_once. Qed.

Lemma node_rel_eq n n' : core past n' = core past n → node_rel n n'.
Proof. intros He _. rewrite He. apply rtc_refl. Qed.

Lemma ceq_nrel {A} (m : NM S M A) : ceq past m → nrel m.
Proof. intros Hm n a n' Hr. apply node_rel_eq. by eapply Hm. Qed.

Lemma nrel_mod f : (∀ n, core_step G (core past n) (core past (f n))) → nrel (st_mod f).
Proof. intros Hf. apply st_rel_mod. intros n. by apply node_rel_step. Qed.

Lemma nrel_state s : passive s → nrel (st_mod (with_state s)).
Proof. intros Hs. apply nrel_mod. intros n. apply (cs_state G (core past n) s Hs). Qed.

Lemma nrel_reset_vote : nrel (vote_ctx_reset VoteCtx).
Proof.
  apply nrel_bind; [apply ceq_nrel, ceq_stop_timer|intros _]. apply nrel_mod. intros n.
  apply (cs_reset G (core past n)).
Qed.

(** What storing a vote does to the core. *)
Lemma core_set_meta t v n rc n' :
  set_term_and_votedfor t v n = Some (rc, n') →
  ∃ m, ms_set_term_and_votedfor t v (n_meta_storage n) = Some (rc, m) ∧
    core past n' =
      cset_failed (c_failed (core past n) ++ if decide (rc ≠ 0 ∧ peer_key v = peer_key (n_server_id n)) then [t] else [])
        (cset_cast (c_cast (core past n) ++ if decide (rc = 0 ∧ peer_key v ≠ key0) then [(t, peer_key v)] else [])
          (cset_meta m (core past n))).
Proof.
  intros Hset. unfold set_term_and_votedfor in Hset.
  apply st_bind_Some in Hset as (m & n4 & [= <- <-] & Hset).
  apply st_bind_Some in Hset as ([rc' m'] & n5 & [Hm ->]%st_lift_Some & Hset).
  apply st_bind_Some in Hset as ([] & n6 & [= <-] & Hset).
  apply st_bind_Some in Hset as ([] & n7 & [= <-] & Hset). injection Hset as <- <-.
  exists m'. split; [done|]. unfold core, cset_failed, cset_cast, cset_meta. cbn.
  rewrite !app_assoc, !omap_app, !app_nil_r. f_equal; f_equal; cbn; [|by case_decide].
  destruct rc' as [|rp|rp]; [|by rewrite decide_False by (intros [? _]; done)..].
  repeat case_decide; naive_solver.
Qed.

(** [raise_term] of a node that is no candidate and no leader. *)
Lemma raise_term_rel term n u n' :
  passive (n_state n) → raise_term term n = Some (u, n') → node_rel n n'.
Proof.
  intros Hp Hr. unfold raise_term in Hr. apply st_bind_Some in Hr as (cur & n1 & [= <- <-] & Hr).
  case_decide as Hlt; [|injection Hr as <- <-; by apply node_rel_eq].
  apply st_bind_Some in Hr as ([] & n1 & [= <-] & Hr).
  apply st_bind_Some in Hr as ([] & n2 & [= <-] & Hr).
  apply st_bind_Some in Hr as (rc & n3 & (m & Hm & Hc)%core_set_meta & [= <- <-]).
  intros [Hself _]. apply rtc_once. rewrite Hc. cbn in Hm, Hself.
  rewrite !decide_False, !app_nil_r; cbn; [|naive_solver..].
  exact (cs_term G (core past n) term rc m Hp ltac:(cbn; lia) Hm).
Qed.
End rel.

(** ** Symbolic runs

    [nto c0 c m]: run from a state whose core is [c], reached from [c0] by code
    that is in the middle of a core step, [m] ends in a core that steps lead to
    from [c0]. *)

Section symbolic.
Context {S M : Type} `{LogStorage S, RaftMetaStorage M} (G : Z → pkey → Prop) (past : list NodeEvent).
Implicit Types (n : Node S M) (c : Core M).
Abbreviation nrel := (nrel (S := S) (M := M) G past).

Definition nto c0 c {A} (m : NM S M A) : Prop :=
  ∀ n a n', core past n = c → m n = Some (a, n') → cand_ok c0 → core_steps G c0 (core past n').

Lemma nrel_nto {A} (m : NM S M A) : nrel m ↔ ∀ c, cand_ok c → nto c c m.
Proof.
  split; [intros Hm c _ n a n' <- Hr Hok; by eapply Hm|].
  intros Hm n a n' Hr Hok. by eapply (Hm (core past n)).
Qed.

Lemma nto_ret c0 c {A} (a : A) : core_steps G c0 c → nto c0 c (mret a).
Proof. intros Hs n a' n' <- [= <- <-] _. done. Qed.

Lemma nto_sync c0 c {A} (m : NM S M A) : core_steps G c0 c → (cand_ok c → nto c c m) → nto c0 c m.
Proof.
  intros Hs Hm n a n' Hc Hr Hok. pose proof (core_steps_cand_ok _ _ _ Hs Hok) as Hok'.
  etrans; [exact Hs|by eapply Hm].
Qed.

Lemma nto_step c0 c {A} (m : NM S M A) : core_step G c0 c → (cand_ok c → nto c c m) → nto c0 c m.
Proof. intros Hs. apply nto_sync. by apply rtc_once. Qed.

Lemma nto_ceq_bind c0 c {A B} (m : NM S M A) (k : A → NM S M B) :
  ceq past m → (∀ a, nto c0 c (k a)) → nto c0 c (m ≫= k).
Proof.
  intros Hm Hk n b n' Hc (a & n1 & H1 & H2)%st_bind_Some. eapply Hk, H2.
  rewrite <-Hc. by eapply Hm.
Qed.

Lemma nto_ceq c0 c {A} (m : NM S M A) : ceq past m → core_steps G c0 c → nto c0 c m.
Proof. intros Hm Hs n a n' <- Hr _. by rewrite (Hm _ _ _ Hr). Qed.

(** A value read from the state is what the core says. *)
Lemma nto_get {A} (P : A → Prop) c0 c {B} (f : Node S M → A) (k : A → NM S M B) :
  (∀ n, core past n = c → P (f n)) → (∀ a, P a → nto c0 c (k a)) → nto c0 c (st_get f ≫= k).
Proof.
  intros Hf Hk n b n' Hc (a & n1 & [= <- <-] & H2)%st_bind_Some. eapply Hk; [by apply Hf|done|done].
Qed.

Lemma nto_check c0 c {A} (P : Prop) `{Decision P} (k : unit → NM S M A) :
  (P → nto c0 c (k tt)) → nto c0 c (st_check P ≫= k).
Proof. intros Hk n b n' Hc ([] & n1 & [HP ->]%st_check_Some & H2)%st_bind_Some. by eapply Hk. Qed.

Lemma nto_lift c0 c {A B} (o : option A) (k : A → NM S M B) :
  (∀ a, o = Some a → nto c0 c (k a)) → nto c0 c (st_lift o ≫= k).
Proof. intros Hk n b n' Hc (a & n1 & [Ho ->]%st_lift_Some & H2)%st_bind_Some. by eapply Hk. Qed.

Lemma nto_set_meta t v c0 c {A} (k : Z → NM S M A) :
  (∀ rc m, ms_set_term_and_votedfor t v (c_meta c) = Some (rc, m) →
    nto c0 (cset_failed (c_failed c ++ if decide (rc ≠ 0 ∧ peer_key v = c_self c) then [t] else [])
      (cset_cast (c_cast c ++ if decide (rc = 0 ∧ peer_key v ≠ key0) then [(t, peer_key v)] else [])
        (cset_meta m c))) (k rc)) →
  nto c0 c (set_term_and_votedfor t v ≫= k).
Proof.
  intros Hk n b n' <- (rc & n1 & (m & Hm & Hc)%(core_set_meta G past) & H2)%st_bind_Some.
  eapply Hk; [exact Hm|exact Hc|done].
Qed.

(** An event that arms the version [v]. *)
Definition arms (v : Z) (ev : NodeEvent) : Prop :=
  ev_armed ev = Some v ∧ ev_cast ev = None ∧ ev_reply ev = None ∧ ∀ self, ev_failed self ev = None.

Lemma core_emit_arm v ev n :
  arms v ev → core past (with_out (n_out n ++ [ev]) n) = cset_armed (c_armed (core past n) ++ [v]) (core past n).
Proof.
  intros (H1 & H2 & H3 & H4). unfold core, cset_armed. cbn. rewrite !app_assoc, !omap_app. cbn.
  by rewrite H1, H2, H3, H4, !app_nil_r.
Qed.

Lemma nto_mod (g : Core M → Core M) c0 c {B} (f : Node S M → Node S M) (k : unit → NM S M B) :
  (∀ n, core past n = c → core past (f n) = g c) → nto c0 (g c) (k tt) → nto c0 c (st_mod f ≫= k).
Proof.
  intros Hf Hk n b n' Hc ([] & n1 & [= <-] & H2)%st_bind_Some. eapply Hk, H2. by apply Hf.
Qed.

Lemma nto_mod_last (g : Core M → Core M) c0 c (f : Node S M → Node S M) :
  (∀ n, core past n = c → core past (f n) = g c) → core_steps G c0 (g c) → nto c0 c (st_mod f).
Proof. intros Hf Hs n b n' Hc [= <- <-] _. by rewrite (Hf n Hc). Qed.

Lemma nto_nrel_bind c {A B} (m : NM S M A) (k : A → NM S M B) :
  nrel m → (∀ a, nrel (k a)) → nto c c (m ≫= k).
Proof.
  intros Hm Hk n b n' <- Hr Hok.
  assert (nrel (m ≫= k)) as Hmk by (apply nrel_bind; done). by eapply Hmk.
Qed.

Lemma nto_nrel c {A} (m : NM S M A) : nrel m → nto c c m.
Proof. intros Hm n a n' <- Hr Hok. by eapply Hm. Qed.

Lemma nto_bind_ret c0 c {A} (m : NM S M A) : nto c0 c (m ≫= mret) → nto c0 c m.
Proof. intros Hm n a n' Hc Hr. apply (Hm n a n' Hc). apply st_bind_Some. eauto. Qed.

Lemma nto_assoc c0 c {A B C} (m : NM S M A) (k : A → NM S M B) (h : B → NM S M C) :
  nto c0 c (m ≫= λ a, k a ≫= h) → nto c0 c ((m ≫= k) ≫= h).
Proof.
  intros Hm n b n' Hc (a & n1 & (a2 & n2 & H2 & H3)%st_bind_Some & H1)%st_bind_Some.
  apply (Hm n b n' Hc). apply st_bind_Some. exists a2, n2. split; [done|]. apply st_bind_Some. eauto.
Qed.

Lemma nto_bind c {A B} (m : NM S M A) (k : A → NM S M B) :
  nto c c m → (∀ a c', cand_ok c' → nto c' c' (k a)) → nto c c (m ≫= k).
Proof.
  intros Hm Hk n b n' Hc (a & n1 & H1 & H2)%st_bind_Some Hok.
  pose proof (Hm _ _ _ Hc H1 Hok) as Hs. etrans; [exact Hs|].
  pose proof (core_steps_cand_ok _ _ _ Hs Hok). by eapply Hk.
Qed.
End symbolic.

(** Peel a handler into parts that leave the core alone or have a lemma. *)
Ltac nrel_tac :=
  repeat (cbv beta zeta; match goal with
  | |- nrel _ _ (_ ≫= _) => apply nrel_bind; [|intros ?]
  | |- nrel _ _ (if ?b then _ else _) => destruct b
  | |- nrel _ _ (match ?x with _ => _ end) => destruct x
  | _ => solve [eauto with node_core | apply ceq_nrel; ceq_tac]
  end).

(** Skip what leaves the core alone. *)
Ltac nto_skip := repeat (apply nto_ceq_bind; [solve [ceq_tac]|intros ?]; cbv beta zeta).

Section rel2.
Context {S M : Type} `{LogStorage S, RaftMetaStorage M} (fl : RaftFlags) (e : Env).
Context (G : Z → pkey → Prop) (past : list NodeEvent).
Implicit Types n : Node S M.
Abbreviation nrel := (nrel (S := S) (M := M) G past).

Lemma ceq_conf_ctx_reset st : ceq past (conf_ctx_reset (S := S) (M := M) e st).
Proof. unfold conf_ctx_reset. ceq_tac. Qed.

Lemma ceq_conf_ctx_flush c oc : ceq past (conf_ctx_flush (S := S) (M := M) c oc).
Proof. unfold conf_ctx_flush. ceq_tac. Qed.
#[local] Hint Resolve ceq_conf_ctx_reset ceq_conf_ctx_flush : node_core.

Lemma nrel_step_down_from status : nrel (step_down_from status).
Proof. unfold step_down_from. nrel_tac. apply nrel_reset_vote. Qed.

Lemma nto_raise_term t c : passive (c_state c) → nto G past c c (raise_term (S := S) (M := M) t).
Proof. intros Hp n u n' <- Hr Hok. by eapply raise_term_rel. Qed.

Lemma nrel_step_down t w status : nrel (step_down e t w status).
Proof.
  unfold step_down. apply nrel_bind; [apply ceq_nrel, ceq_get|intros s]. destruct (negb _); [nrel_tac|].
  apply nrel_bind; [apply nrel_step_down_from|intros _].
  apply nrel_bind; [apply ceq_nrel, ceq_reset_leader_id|intros _].
  apply nrel_nto. intros c Hok. apply (nto_mod _ _ (cset_state STATE_FOLLOWER)); [by intros n <-|].
  apply nto_step; [by apply cs_state|intros Hok']. nto_skip.
  apply nto_bind; [by apply nto_raise_term|intros _ c' _]. apply nto_ceq; [ceq_tac|apply rtc_refl].
Qed.
End rel2.

Section rel3.
Context {S M : Type} `{LogStorage S, RaftMetaStorage M} (fl : RaftFlags) (e : Env).
Context (G : Z → pkey → Prop) (past : list NodeEvent).
Implicit Types (n : Node S M) (c : Core M).
Abbreviation nrel := (nrel (S := S) (M := M) G past).
Abbreviation nto := (nto (S := S) (M := M) G past).

Lemma nrel_check_step_down t p : nrel (check_step_down e t p).
Proof. unfold check_step_down. nrel_tac; apply nrel_step_down. Qed.

(** ** Becoming leader *)

Lemma nto_reset_vote c0 c {A} (k : unit → NM S M A) :
  nto c0 (cset_version (c_version c + 1) c) (k tt) → nto c0 c (vote_ctx_reset VoteCtx ≫= k).
Proof.
  intros Hk n b n' Hc (u & n1 & H1 & H2)%st_bind_Some. unfold vote_ctx_reset in H1.
  apply st_bind_Some in H1 as (u1 & n2 & H1 & [= <- <-]). apply (ceq_stop_timer past) in H1.
  eapply Hk, H2. rewrite <-Hc, <-H1. done.
Qed.

Lemma nto_init_vote b c0 c {A} (k : unit → NM S M A) :
  (∀ conf old, nto c0 (cset_ballot (ballot_init conf old).1 (cset_version (c_version c + 1) c)) (k tt)) →
  nto c0 c (vote_ctx_init VoteCtx b ≫= k).
Proof.
  intros Hk n a n' Hc (u & n1 & H1 & H2)%st_bind_Some. unfold vote_ctx_init in H1.
  apply st_bind_Some in H1 as (u1 & n2 & H1 & H3). unfold vote_ctx_reset in H1.
  apply st_bind_Some in H1 as (u2 & n3 & H1 & [= <- <-]). apply (ceq_stop_timer past) in H1.
  apply st_bind_Some in H3 as (conf & n4 & [= <- <-] & [= <- <-]).
  eapply Hk, H2. rewrite <-Hc, <-H1. reflexivity.
Qed.

End rel3.

(** Run the code symbolically, up to a step the core depends on. *)
Ltac nto_run :=
  repeat (cbv beta zeta; lazymatch goal with
  | |- nto _ _ _ ?c (st_get n_server_id ≫= _) =>
      apply (nto_get _ _ (λ p, peer_key p = c_self c)); [by intros ? <-|intros ? ?]
  | |- nto _ _ _ ?c (st_get n_current_term ≫= _) =>
      apply (nto_get _ _ (λ t, t = c_term c)); [by intros ? <-|intros ? ->]
  | |- nto _ _ _ ?c (st_get n_state ≫= _) =>
      apply (nto_get _ _ (λ s, s = c_state c)); [by intros ? <-|intros ? ->]
  | |- nto _ _ _ ?c (st_get n_voted_id ≫= _) =>
      apply (nto_get _ _ (λ p, peer_key p = c_voted c)); [by intros ? <-|intros ? ?]
  | |- nto _ _ _ ?c (get_ctx VoteCtx ≫= _) =>
      apply (nto_get _ _ (λ v, vc_ballot v = c_ballot c ∧ vc_version v = c_version c)); [by intros ? <-|intros ? [? ?]]
  | |- nto _ _ _ _ (st_check _ ≫= _) => apply nto_check; intros ?
  | |- nto _ _ _ _ (st_lift _ ≫= _) => apply nto_lift; intros ? ?
  | |- nto _ _ _ _ (vote_ctx_reset VoteCtx ≫= _) => apply nto_reset_vote
  | |- nto _ _ _ _ (vote_ctx_init VoteCtx _ ≫= _) => apply nto_init_vote; intros ? ?
  | |- nto _ _ _ _ (st_mod (with_state ?s) ≫= _) => apply (nto_mod _ _ (cset_state s)); [by intros ? <-|]
  | |- nto _ _ _ _ (st_mod (with_current_term ?t) ≫= _) => apply (nto_mod _ _ (cset_term t)); [by intros ? <-|]
  | |- nto _ _ _ _ (st_mod (with_voted_id ?p) ≫= _) => apply (nto_mod _ _ (cset_voted (peer_key p))); [by intros ? <-|]
  | |- nto _ _ _ _ (_ ≫= _) => apply nto_ceq_bind; [solve [ceq_tac]|intros ?]
  end).

Section rel4.
Context {S M : Type} `{LogStorage S, RaftMetaStorage M} (fl : RaftFlags) (e : Env).
Context (G : Z → pkey → Prop) (past : list NodeEvent).
Implicit Types (n : Node S M) (c : Core M).
Abbreviation nrel := (nrel (S := S) (M := M) G past).
Abbreviation nto := (nto (S := S) (M := M) G past).

Lemma nto_become_leader c : self_voted c → ballot_granted (c_ballot c) = true → nto c c become_leader.
Proof.
  intros Hsv Hb. unfold become_leader. nto_run.
  apply nto_step; [by apply cs_leader|intros _]. apply nto_ceq; [|apply rtc_refl].
  ceq_tac. apply ceq_conf_ctx_flush.
Qed.

Lemma nrel_elect_self b : nrel (elect_self b).
Proof.
  apply nrel_nto. intros c Hok. unfold elect_self. nto_run.
  destruct (negb _); [apply nto_ret, rtc_refl|]. nto_run.
  apply (nto_mod_last _ _ (λ c', cset_elects (c_elects c' ++ [c_term c + 1]) c')).
  - intros n <-. unfold core, cset_elects. cbn. by rewrite !omap_app, app_nil_r.
  - apply rtc_once. match goal with Hs : peer_key _ = c_self c |- _ => rewrite Hs end.
    exact (cs_elect G c _ _).
Qed.

(** ** Granting oneself *)

Lemma nto_start_timer_vote w c :
  self_voted c → nto c c (vote_ctx_start_grant_self_timer VoteCtx w).
Proof.
  intros Hv. unfold vote_ctx_start_grant_self_timer. nto_run.
  case_decide; [|apply nto_ret, rtc_refl]. nto_run.
  apply (nto_mod_last _ _ (λ c', cset_armed (c_armed c' ++ [c_version c]) c')).
  - intros n <-. apply core_emit_arm. repeat split. cbn in *. congruence.
  - apply rtc_once, cs_arm; [done|]. by constructor.
Qed.

Lemma nto_grant_ctx p c0 c {A} (k : unit → NM S M A) :
  nto c0 (cset_ballot (ballot_grant (c_ballot c) p) c) (k tt) → nto c0 c (mod_ctx VoteCtx (λ v, vc_grant v p) ≫= k).
Proof. intros Hk. apply (nto_mod _ _ (λ c, cset_ballot (ballot_grant (c_ballot c) p) c)); [by intros n <-|done]. Qed.

Lemma nto_grant_self_vote c : self_voted c → nto c c (grant_self fl e VoteCtx).
Proof.
  intros Hv. unfold grant_self. nto_run. case_decide; [|by apply nto_start_timer_vote]. nto_run.
  apply nto_grant_ctx, nto_step; [by apply cs_self_grant|intros Hok]. nto_run.
  destruct (negb _) eqn:Hg; [apply nto_ret, rtc_refl|]. apply nto_become_leader; [exact Hv|].
  apply negb_false_iff in Hg. unfold vc_granted in Hg. cbn in *. congruence.
Qed.

Lemma nrel_grant_self_pre : nrel (grant_self fl e PreVoteCtx).
Proof. unfold grant_self. nrel_tac; [apply nrel_elect_self|]. apply ceq_nrel. unfold vote_ctx_start_grant_self_timer. ceq_tac. Qed.

(** ** Asking for votes *)

Lemma st_each_arms {A} (f : A → NM S M unit) v l n u n' :
  (∀ x n u n', f x n = Some (u, n') →
     ∃ ar, Forall (v =.) ar ∧ core past n' = cset_armed (c_armed (core past n) ++ ar) (core past n)) →
  st_each f l n = Some (u, n') →
  ∃ ar, Forall (v =.) ar ∧ core past n' = cset_armed (c_armed (core past n) ++ ar) (core past n).
Proof.
  intros Hf. revert n. induction l as [|x l IH]; cbn; intros n Hr.
  - injection Hr as <- <-. exists []. rewrite app_nil_r. done.
  - apply st_bind_Some in Hr as (u1 & n1 & H1 & H2).
    destruct (Hf _ _ _ _ H1) as (ar1 & Ha1 & Hc1). destruct (IH _ H2) as (ar2 & Ha2 & Hc2).
    exists (ar1 ++ ar2). split; [by apply Forall_app|]. by rewrite Hc2, Hc1, app_assoc.
Qed.

Lemma nto_request_peers ps dl c0 c {A} (k : unit → NM S M A) :
  (∀ ar, Forall (c_version c =.) ar → nto c0 (cset_armed (c_armed c ++ ar) c) (k tt)) →
  nto c0 c (request_peers_to_vote e ps dl ≫= k).
Proof.
  intros Hk n b n' Hc ([] & n1 & Hr & H2)%st_bind_Some. unfold request_peers_to_vote in Hr.
  do 4 (apply st_bind_Some in Hr as (? & ? & [= <- <-] & Hr)).
  apply (st_each_arms _ (c_version c)) in Hr as (ar & Ha & Hc1); [eapply Hk; [exact Ha|by rewrite Hc1, Hc|done]|].
  assert (vc_version (n_vote_ctx n) = c_version c) as Hv by by rewrite <-Hc. clear -Hv.
  intros p n1 u n2 Hr. assert (∀ n1 n2 : Node S M, core past n2 = core past n1 →
    ∃ ar, Forall (c_version c =.) ar ∧ core past n2 = cset_armed (c_armed (core past n1) ++ ar) (core past n1)) as Hnil.
  { intros m1 m2 ->. exists []. by rewrite app_nil_r. }
  repeat case_decide; try (injection Hr as <- <-; by apply Hnil).
  - apply st_bind_Some in Hr as (s1 & n3 & [_ ->]%st_lift_Some & Hr).
    apply st_bind_Some in Hr as (s2 & n3 & [_ ->]%st_lift_Some & Hr).
    apply st_bind_Some in Hr as (d & n3 & [= <- <-] & [= <- <-]).
    exists [c_version c]. split; [by constructor|]. apply core_emit_arm. repeat split. cbn in *. congruence.
  - apply st_bind_Some in Hr as (s1 & n3 & [_ ->]%st_lift_Some & Hr).
    apply st_bind_Some in Hr as (s2 & n3 & [_ ->]%st_lift_Some & Hr).
    apply st_bind_Some in Hr as (d & n3 & Hd & [= <- <-]).
    apply st_bind_Some in Hd as (s3 & n4 & [_ ->]%st_lift_Some & [= <- <-]).
    exists [c_version c]. split; [by constructor|]. apply core_emit_arm. repeat split. cbn in *. congruence.
Qed.
End rel4.

Section rel5.
Context {S M : Type} `{LogStorage S, RaftMetaStorage M} (fl : RaftFlags) (e : Env).
Context (G : Z → pkey → Prop) (past : list NodeEvent).
Implicit Types (n : Node S M) (c : Core M).
Abbreviation nrel := (nrel (S := S) (M := M) G past).
Abbreviation nto := (nto (S := S) (M := M) G past).
#[local] Hint Resolve nrel_step_down nrel_elect_self nrel_grant_self_pre nrel_check_step_down : node_core.

(** The rest of an election that waited in [c0] and is not waiting any more. *)
Lemma nto_elect_self_resume old_term i l c0 :
  old_term ∈ c_elects c0 → l ⊆ c_elects c0 →
  nto c0 (cset_elects l c0) (elect_self_resume fl e old_term i).
Proof.
  intros Hin Hl. unfold elect_self_resume. nto_run. cbn.
  case_decide as Ht; [apply nto_ret, rtc_once; by apply cs_elect_drop|]. subst old_term.
  apply nto_ceq_bind; [ceq_tac|intros _]. nto_run. apply nto_request_peers. intros ar Har. nto_run.
  rename a1 into server, H3 into Hserver. cbn in Hserver.
  apply nto_set_meta. intros rc m Hm. cbn in Hm, Har. cbn. destruct (decide (rc = 0)) as [->|Hrc].
  - rewrite (decide_False (P := 0 ≠ 0 ∧ _)) by naive_solver. rewrite (decide_False (P := 0 ≠ 0)) by naive_solver.
    intros n u n' Hc Hr Hok. rewrite decide_True in Hc by (split; [done|]; rewrite Hserver; apply Hok).
    rewrite Hserver, app_nil_r in Hc. revert n u n' Hc Hr Hok.
    apply (nto_step _ _ _ (cset_cast (c_cast c0 ++ [(c_term c0, c_self c0)])
      (cset_armed (c_armed c0 ++ ar) (cset_meta m (cset_elects l c0))))).
    + by eapply cs_elect_end.
    + intros _. apply nto_grant_self_vote. right. cbn. set_solver.
  - rewrite (decide_True (P := rc ≠ 0)) by done. rewrite (decide_True (P := rc ≠ 0 ∧ _)) by done.
    rewrite (decide_False (P := rc = 0 ∧ _)) by naive_solver.
    rewrite app_nil_r. apply (nto_mod_last _ _ (cset_voted key0)); [by intros n <-|].
    apply rtc_once. by eapply (cs_elect_fail G c0 server rc m l ar).
Qed.

Lemma nrel_pre_vote_resume b t i : nrel (pre_vote_resume fl e b t i).
Proof. unfold pre_vote_resume. nrel_tac. Qed.

(** ** Timeouts *)

Lemma nrel_election_timeout : nrel (handle_election_timeout e).
Proof. unfold handle_election_timeout. nrel_tac. Qed.

Lemma nrel_vote_timeout : nrel (handle_vote_timeout fl e).
Proof. unfold handle_vote_timeout. nrel_tac. Qed.

Lemma nto_grant_self_timedout w v c :
  (w = VoteCtx → v ∈ c_armed c) → nto c c (handle_grant_self_timedout fl e w v).
Proof.
  intros Hv. unfold handle_grant_self_timedout. destruct w; [|apply nto_nrel; nrel_tac].
  nto_run. destruct (negb _) eqn:Ha; cbn [orb]; [apply nto_ret, rtc_refl|].
  destruct (bool_decide _) eqn:Hb; cbn; [|apply nto_ret, rtc_refl].
  apply bool_decide_eq_true in Hb. apply nto_grant_self_vote. left. rewrite <-H2, Hb. by apply Hv.
Qed.

(** ** Answers *)

Lemma nrel_timeout_now r : nrel (handle_timeout_now_request fl e r).
Proof. unfold handle_timeout_now_request. nrel_tac. Qed.

Lemma nto_retry_vote c : c_version c ∈ c_armed c → nto c c (retry_vote_on_reserved_peers e).
Proof.
  intros Hv. unfold retry_vote_on_reserved_peers. nto_run. destruct (vc_pop_grantable_peers a) as [c' ps] eqn:Hp.
  apply (nto_mod _ _ (λ c, c)).
  - intros n Hc. unfold vc_pop_grantable_peers in Hp. rewrite <-Hc. unfold core. cbn.
    assert (vc_ballot c' = vc_ballot a ∧ vc_version c' = vc_version a) as [-> ->] by by case_decide; simplify_eq.
    rewrite <-Hc in H1, H2. cbn in H1, H2. by rewrite H1, H2.
  - case_decide; [apply nto_ret, rtc_refl|].
    apply nto_bind_ret.
    apply nto_request_peers. intros ar Har. apply nto_ret, rtc_once. apply cs_arm; [by left|done].
Qed.
End rel5.

Section rel6.
Context {S M : Type} `{LogStorage S, RaftMetaStorage M} (fl : RaftFlags) (e : Env).
Context (G : Z → pkey → Prop) (past : list NodeEvent).
Implicit Types (n : Node S M) (c : Core M).
Abbreviation nrel := (nrel (S := S) (M := M) G past).
Abbreviation nto := (nto (S := S) (M := M) G past).
#[local] Hint Resolve nrel_step_down nrel_elect_self nrel_grant_self_pre nrel_check_step_down : node_core.

Lemma nto_request_vote_response p t v resp c :
  v ∈ c_armed c → (rvr_granted resp = true → G t (peer_key p)) →
  nto c c (handle_request_vote_response e p t v resp).
Proof.
  intros Hv Hg. unfold handle_request_vote_response. nto_run.
  case_decide as Hver; [apply nto_ret, rtc_refl|]. case_decide as Hst; [apply nto_ret, rtc_refl|].
  case_decide as Ht; [apply nto_ret, rtc_refl|]. case_decide; [apply nto_nrel, nrel_step_down|].
  destruct (negb _ && negb _); [apply nto_ret, rtc_refl|]. nto_run. subst t.
  assert (c_version c ∈ c_armed c) as Hvc by congruence.
  destruct (rvr_granted resp); [|nto_run; by apply nto_retry_vote]. specialize (Hg eq_refl).
  apply nto_grant_ctx, nto_step; [by apply cs_peer_grant|intros Hok]. nto_run.
  set (c1 := cset_ballot _ c) in *.
  assert (∀ c2, c_version c2 ∈ c_armed c2 → nto c2 c2 (c' ← get_ctx VoteCtx;
    if vc_granted c' then become_leader else retry_vote_on_reserved_peers e)) as Hend.
  { intros c2 Hv2. nto_run. destruct (vc_granted _) eqn:Hgr; [|by apply nto_retry_vote].
    apply nto_become_leader; [by left|]. unfold vc_granted in Hgr. congruence. }
  case_decide; [apply nto_assoc, nto_grant_ctx, nto_step|apply nto_ceq_bind; [ceq_tac|intros _]; by apply Hend].
  - apply cs_self_grant; [by left|done].
  - intros _. apply nto_ceq_bind; [ceq_tac|intros _]. by apply Hend.
Qed.

Lemma nrel_pre_vote_response p t v resp : nrel (handle_pre_vote_response e p t v resp).
Proof. unfold handle_pre_vote_response. nrel_tac. Qed.

(** ** Requests for a vote *)

Lemma nto_reply_request_vote r p prev d rj c :
  peer_key p ≠ c_self c → nto c c (reply_request_vote r p prev d rj).
Proof.
  intros Hp. unfold reply_request_vote. nto_run.
  destruct (bool_decide (rv_term r = c_term c) && bool_decide (peer_eq a p)) eqn:Hg.
  - apply andb_true_iff in Hg as [Ht Hv]. apply bool_decide_eq_true in Ht, Hv.
    apply (nto_mod_last _ _ (λ c, cset_replies (c_replies c ++ [(rv_term r, peer_key p)]) c)).
    + intros n <-. unfold core, cset_replies. cbn. rewrite !app_assoc, !omap_app. cbn. by rewrite !app_nil_r.
    + apply rtc_once, cs_reply; [done| |done]. apply peer_eq_key in Hv. congruence.
  - apply (nto_mod_last _ _ (λ c, c)); [|apply rtc_refl].
    intros n <-. unfold core. cbn. rewrite !app_assoc, !omap_app. cbn. by rewrite !app_nil_r.
Qed.

(** A request of a candidate that is another node. *)
Lemma nto_request_vote_request r c :
  (∀ p rc, peer_parse (rv_server_id r) = Some (p, rc) → rc = 0 → peer_key p ≠ c_self c) →
  nto c c (handle_request_vote_request r).
Proof.
  intros Hp. unfold handle_request_vote_request. nto_run.
  assert (nto c c (emit_ev [EvRequestVoteReply r empty_peer EINVAL None])) as Herr.
  { apply (nto_mod_last _ _ (λ c, c)); [|apply rtc_refl].
    intros n <-. unfold core. cbn. rewrite !app_assoc, !omap_app. cbn. by rewrite !app_nil_r. }
  destruct (negb _); [done|]. nto_run. destruct a as [p rc]. case_decide as Hrc; [done|].
  specialize (Hp p rc ltac:(done) ltac:(done)). nto_run.
  case_decide; [by apply nto_reply_request_vote|].
  apply (nto_mod_last _ _ (λ c, cset_cands (c_cands c ++ [peer_key p]) c)).
  - intros n <-. unfold core, cset_cands. cbn. by rewrite !omap_app, app_nil_r.
  - by apply rtc_once, cs_cands_add.
Qed.

(** Storing the vote for another node, none having been given in this term. *)
Lemma nto_cast_vote p c0 c {A} (k : unit → NM S M A) :
  core_steps G c0 c → c_voted c = key0 → peer_key p ≠ c_self c →
  (∀ c', c_self c' = c_self c → nto c' c' (k tt)) →
  nto c0 c ((st_mod (with_voted_id p);; now_term ← st_get n_current_term;
             rc ← set_term_and_votedfor now_term p;
             if decide (rc ≠ 0) then st_mod (with_voted_id empty_peer) else mret tt) ≫= k).
Proof.
  intros Hs Hv Hp Hk. apply nto_assoc. nto_run. apply nto_assoc. nto_run. apply nto_assoc.
  apply nto_set_meta. intros rc m Hm. cbn in Hm. cbn.
  rewrite (decide_False (P := rc ≠ 0 ∧ _)) by naive_solver. rewrite app_nil_r.
  destruct (decide (rc = 0)) as [->|Hrc].
  - rewrite (decide_False (P := 0 ≠ 0)) by naive_solver. apply nto_ceq_bind; [ceq_tac|intros []].
    apply (nto_sync _ _ c0 (cset_cast (c_cast c ++ _) (cset_meta m (cset_voted (peer_key p) c)))); [|by intros _; apply Hk].
    etrans; [exact Hs|]. apply rtc_once.
    replace (if decide (0 = 0 ∧ peer_key p ≠ key0) then [(c_term c, peer_key p)] else [])
      with (if decide (peer_key p = key0) then [] else [(c_term c, peer_key p)]); [by apply cs_vote|].
    repeat case_decide; naive_solver.
  - rewrite (decide_True (P := rc ≠ 0)) by done. rewrite (decide_False (P := rc = 0 ∧ _)) by naive_solver.
    rewrite app_nil_r. nto_run.
    apply (nto_sync _ _ c0 (cset_meta m (cset_voted key0 c))); [|by intros _; apply Hk].
    etrans; [exact Hs|]. apply rtc_once. pose proof (cs_vote_fail G c p rc m Hv Hp Hrc Hm) as Hst.
    destruct c. cbn in Hv |- *. subst. exact Hst.
Qed.
End rel6.

(** ** Stepping down gives no vote *)

Section no_new_vote.
Context {S M : Type} `{LogStorage S, RaftMetaStorage M} (e : Env) (past : list NodeEvent).
Implicit Types n : Node S M.

(** The vote stays or is taken back. *)
Definition no_new_vote n n' : Prop :=
  peer_key (n_voted_id n') = peer_key (n_voted_id n) ∨ peer_key (n_voted_id n') = key0.

#[local] Instance no_new_vote_preorder : PreOrder no_new_vote.
Proof. split; [by left|]. intros n1 n2 n3 [H1|H1] [H2|H2]; unfold no_new_vote; rewrite ?H2, ?H1; auto. Qed.

Lemma ceq_no_new_vote {A} (m : NM S M A) : ceq past m → st_rel no_new_vote m.
Proof. intros Hm n a n' Hr. left. apply Hm in Hr. by apply (f_equal c_voted) in Hr. Qed.

Lemma no_new_vote_mod f : (∀ n, no_new_vote n (f n)) → st_rel no_new_vote (st_mod f).
Proof. apply (st_rel_mod no_new_vote). Qed.

Lemma no_new_vote_set_meta t v : st_rel no_new_vote (set_term_and_votedfor (S := S) t v).
Proof.
  unfold set_term_and_votedfor. apply st_rel_bind; [apply _|apply st_rel_get, _|intros m].
  apply st_rel_bind; [apply _|apply st_rel_lift, _|intros [rc m']].
  apply st_rel_bind; [apply _|apply no_new_vote_mod; by left|intros _].
  apply st_rel_bind; [apply _|apply no_new_vote_mod; by left|intros _]. apply st_rel_ret, _.
Qed.

Ltac no_new_vote_tac :=
  repeat (cbv beta zeta; match goal with
  | |- st_rel _ (_ ≫= _) => apply st_rel_bind; [apply _| |intros ?]
  | |- st_rel _ (if ?b then _ else _) => destruct b
  | |- st_rel _ (match ?x with _ => _ end) => destruct x
  | |- st_rel _ (set_term_and_votedfor _ _) => apply no_new_vote_set_meta
  | |- st_rel _ (st_mod (with_voted_id empty_peer)) => apply no_new_vote_mod; by right
  | |- st_rel _ (st_mod _) => apply no_new_vote_mod; by left
  | |- st_rel _ (mod_ctx ?w _) => apply no_new_vote_mod; destruct w; by left
  | _ => apply ceq_no_new_vote; solve [ceq_tac|apply ceq_conf_ctx_reset]
  end).

Lemma no_new_vote_step_down t w status : st_rel no_new_vote (step_down e t w status).
Proof. unfold step_down, step_down_from, raise_term, vote_ctx_reset. no_new_vote_tac. Qed.
End no_new_vote.

Section rel7.
Context {S M : Type} `{LogStorage S, RaftMetaStorage M} (fl : RaftFlags) (e : Env).
Context (G : Z → pkey → Prop) (past : list NodeEvent).
Implicit Types (n : Node S M) (c : Core M).
Abbreviation nrel := (nrel (S := S) (M := M) G past).
Abbreviation nto := (nto (S := S) (M := M) G past).
#[local] Hint Resolve nrel_step_down nrel_elect_self nrel_grant_self_pre nrel_check_step_down : node_core.

Lemma core_steps_self c c' : core_steps G c c' → c_self c' = c_self c.
Proof. induction 1 as [|c1 c2 c3 Hs _ IH]; [done|]. rewrite IH. by destruct Hs. Qed.

(** What a run by steps keeps: the node's own name. *)
Lemma nto_bind_self c {A B} (m : NM S M A) (k : A → NM S M B) :
  nto c c m → (∀ a c', c_self c' = c_self c → nto c' c' (k a)) → nto c c (m ≫= k).
Proof.
  intros Hm Hk n b n' Hc (a & n1 & H1 & H2)%st_bind_Some Hok.
  pose proof (Hm _ _ _ Hc H1 Hok) as Hs. etrans; [exact Hs|].
  pose proof (core_steps_cand_ok _ _ _ Hs Hok). eapply Hk; [by apply core_steps_self|done..].
Qed.

Lemma nto_step_down_unvoted t w st c {A} (k : unit → NM S M A) :
  c_voted c = key0 → (∀ c', c_self c' = c_self c → c_voted c' = key0 → nto c' c' (k tt)) →
  nto c c (step_down e t w st ≫= k).
Proof.
  intros Hv Hk n b n' Hc ([] & n1 & H1 & H2)%st_bind_Some Hok.
  assert (core_steps G c (core past n1)) as Hs by (rewrite <-Hc in Hok |- *; by eapply nrel_step_down).
  etrans; [exact Hs|]. pose proof (core_steps_cand_ok _ _ _ Hs Hok). eapply Hk; [by apply core_steps_self| |done..].
  apply (no_new_vote_step_down e past) in H1 as [H1|H1]; [|done]. rewrite <-Hc in Hv. cbn in Hv |- *. congruence.
Qed.

Lemma nto_request_vote_request_resume r p prev i c :
  peer_key p ≠ c_self c → nto c c (handle_request_vote_request_resume fl e r p prev i).
Proof.
  intros Hp. unfold handle_request_vote_request_resume. nto_run.
  case_decide; [by apply nto_reply_request_vote|]. nto_run. case_decide; [by apply nto_reply_request_vote|].
  nto_run. apply nto_bind_self; [case_decide; apply nto_nrel; nrel_tac|]. intros d c1 Hc1. rewrite <-Hc1 in Hp.
  clear dependent c. nto_run. rewrite (peer_is_empty_key a0).
  assert (∀ c', c_self c' = c_self c1 → nto c' c' (reply_request_vote r p prev d false)) as Hend.
  { intros c' Hc'. apply nto_reply_request_vote. by rewrite Hc'. }
  destruct (bool_decide (logid_ge _ _) && _) eqn:Hb; [|nto_run; by apply Hend].
  apply andb_true_iff in Hb as [_ Hb]. apply bool_decide_eq_true in Hb.
  apply nto_assoc, nto_step_down_unvoted; [congruence|]. intros c2 Hc2 Hv2.
  apply nto_cast_vote; [apply rtc_refl|done|congruence|]. intros c3 Hc3. apply Hend. congruence.
Qed.
End rel7.

(** ** Suspended calls *)

Lemma omap_insert_same {A B} (f : A → option B) (l : list A) (i : nat) x y :
  l !! i = Some x → f y = f x → omap f (<[i := y]> l) = omap f l.
Proof.
  revert i. induction l as [|z l IH]; intros [|i]; cbn; intros Hi Hf; [done|done| |].
  - injection Hi as ->. by rewrite Hf.
  - exact (f_equal (λ l', match f z with Some b => b :: l' | None => l' end) (IH i Hi Hf)).
Qed.

Lemma omap_map_same {A B} (f : A → option B) (g : A → A) (l : list A) :
  (∀ x, f (g x) = f x) → omap f (g <$> l) = omap f l.
Proof. intros Hf. induction l as [|x l IH]; [done|]. cbn. by rewrite Hf, IH. Qed.

Lemma omap_delete_subseteq {A B} (f : A → option B) (l : list A) (i : nat) : omap f (delete i l) ⊆ omap f l.
Proof.
  revert i. induction l as [|x l IH]; intros [|i]; cbn; [done|done| |].
  - destruct (f x); set_solver.
  - specialize (IH i). destruct (f x); set_solver.
Qed.

Lemma omap_delete_None {A B} (f : A → option B) (l : list A) (i : nat) x :
  l !! i = Some x → f x = None → omap f (delete i l) = omap f l.
Proof.
  revert i. induction l as [|z l IH]; intros [|i]; cbn; intros Hi Hf; [done|done| |].
  - injection Hi as ->. by rewrite Hf.
  - exact (f_equal (λ l', match f z with Some b => b :: l' | None => l' end) (IH i Hi Hf)).
Qed.

Section rel8.
Context {S M : Type} `{LogStorage S, RaftMetaStorage M} (fl : RaftFlags) (e : Env).
Context (G : Z → pkey → Prop) (past : list NodeEvent).
Implicit Types (n : Node S M) (c : Core M).
Abbreviation node_rel := (node_rel (S := S) (M := M) G past).

Lemma ceq_answer_last_log_id cl i : ceq past (answer_last_log_id (S := S) (M := M) cl i).
Proof.
  apply ceq_mod. intros n. unfold core. cbn. rewrite !omap_map_same; [done|..];
    by intros [k|c' k|? k]; [|case_decide; [by destruct k|]|].
Qed.

Lemma enter_last_log_id_eq i n u n' :
  enter_last_log_id i n = Some (u, n') → core past n' = core past n.
Proof.
  unfold enter_last_log_id. intros (l & n0 & [= <- <-] & Hr)%st_bind_Some.
  destruct (n_suspended n !! i) as [[k|c k|a k]|] eqn:Hi; try (by injection Hr as <- <-).
  do 2 (apply st_bind_Some in Hr as (? & ? & [= <- <-] & Hr)).
  apply st_bind_Some in Hr as (m & n2 & [= <- <-] & Hr). destruct (lm_last_log_id_flush _ _) as [m' ans].
  apply st_bind_Some in Hr as (? & n3 & [= <- <-] & [= <- <-]).
  unfold core. cbn. rewrite (omap_insert_same sus_elect _ _ _ _ Hi), (omap_insert_same sus_cand _ _ _ _ Hi); [|by destruct ans, k..]. done.
Qed.

Lemma resume_rel i n u n' : resume fl e i n = Some (u, n') → node_rel n n'.
Proof.
  unfold resume. intros (l & n0 & [= <- <-] & Hr)%st_bind_Some Hok.
  destruct (n_suspended n !! i) as [[k|c k|a k]|] eqn:Hi; try (by injection Hr as <- <-; apply rtc_refl).
  apply st_bind_Some in Hr as ([] & n1 & [= <-] & Hr). set (nd := with_suspended _ n) in *.
  assert (sus_elect (SuspendedWith a k) = None → core past nd =
    cset_cands (omap sus_cand (delete i (n_suspended n))) (core past n)) as Hce.
  { intros He. unfold core, cset_cands. cbn. by rewrite (omap_delete_None sus_elect _ _ _ Hi He). }
  assert (sus_elect (SuspendedWith a k) = None → core_steps G (core past n) (core past nd)) as Hdrop.
  { intros He. rewrite (Hce He). apply rtc_once, cs_cands_drop. apply omap_delete_subseteq. }
  assert (cand_ok (core past nd)) as Hok'.
  { split; [apply Hok|]. destruct Hok as [_ Hc]. rewrite Forall_forall in Hc |- *. intros x Hx.
    apply Hc. revert Hx. apply omap_delete_subseteq. }
  destruct k as [b t|t|r|r p prev]; cbn in Hr.
  - etrans; [by apply Hdrop|]. eapply nrel_pre_vote_resume; [exact Hr|done].
  - apply (nto_elect_self_resume fl e G past t a (omap sus_elect (delete i (n_suspended n))) (core past n))
      with (n := nd) (a := u); [| |  |done..].
    + apply list_elem_of_omap. exists (SuspendedWith a (ResumeElectSelf t)). split; [|done].
      by eapply list_elem_of_lookup_2.
    + apply omap_delete_subseteq.
    + unfold core, cset_elects. cbn. by rewrite (omap_delete_None sus_cand _ _ _ Hi eq_refl).
  - etrans; [by apply Hdrop|]. apply ceq_pre_vote_request_resume with (past := past) in Hr. rewrite Hr. apply rtc_refl.
  - etrans; [by apply Hdrop|].
    eapply (nto_request_vote_request_resume fl e G past r p prev a (core past nd)); [|done..].
    destruct Hok as [_ Hc]. rewrite Forall_forall in Hc. cbn in Hc. apply not_eq_sym, Hc.
    apply list_elem_of_omap. exists (SuspendedWith a (ResumeVoteRequest r p prev)). split; [|done].
    by eapply list_elem_of_lookup_2.
Qed.
End rel8.
