(* ===== verification/NodeLog.v ===== *)
(** * Log replication and administration

    The other handlers of [NodeImpl], src/melon/raft/node.cc: tasks applied on
    the leader, requests of the leader on a follower, the closures that run
    when entries are stored, configuration changes, leadership transfer,
    leases, read-only mode, errors and shutdown. *)

From stdpp Require Import prelude.
From S2P Require Import Prelude StdContainers Configuration Ballot ClosureQueue BallotBox Bytes PeerText.
From S2P Require Import LogStorage ConfigurationManager LogManager StateMonad Messages Lease MetaStorage.
From S2P Require Import AppendEntriesCache NodeState NodeVote.
Local Open Scope Z_scope.

Section node.
Context {S M : Type} `{LogStorage S, RaftMetaStorage M} (fl : RaftFlags) (e : Env).
Abbreviation N := (NM S M).

(** ** Applying tasks *)

(** [LogEntryAndClosure]; the entry holds the task's data. *)
Record LogEntryAndClosure := mkLogEntryAndClosure {
  lc_data : list Z;
  lc_done : option Z;
  lc_expected_term : Z;
}.

(** [run_closure_in_fiber] of a task's closure, if it has one. *)
Definition fail_task (t : LogEntryAndClosure) (error : Z) : N unit :=
  match lc_done t with Some d => emit_ev [EvUserDone d error] | None => mret tt end.

(** The loop of [apply]: the entries to append. *)
Fixpoint apply_tasks (tasks : list LogEntryAndClosure) : N (list LogEntry) :=
  match tasks with
  | [] => mret []
  | t :: ts =>
      current ← st_get n_current_term;
      if decide (lc_expected_term t ≠ -1 ∧ lc_expected_term t ≠ current) then
        fail_task t EPERM;; apply_tasks ts
      else
        conf ← st_get n_conf;
        done ← match lc_done t with
               | Some d => c ← new_closure (UserClosure d); mret (Some c)
               | None => mret None
               end;
        b ← st_get n_ballot_box;
        b' ← st_lift (bb_append_pending_task b (ce_conf conf)
                        (if ce_stable conf then None else Some (ce_old_conf conf)) done);
        st_mod (with_ballot_box b');;
        es ← apply_tasks ts;
        mret (mkLogEntry ENTRY_TYPE_DATA (mkLogId 0 current) None None (lc_data t) :: es)
  end.

(** [apply(tasks, size)]. *)
Definition apply (tasks : list LogEntryAndClosure) : N unit :=
  state ← st_get n_state;
  ro ← st_get n_node_readonly;
  mro ← st_get n_majority_nodes_readonly;
  let reject_new_user_logs := ro || mro in
  if negb (bool_decide (state = STATE_LEADER)) || reject_new_user_logs then
    let st := if bool_decide (state = STATE_LEADER) && reject_new_user_logs then EREADONLY
              else if decide (state ≠ STATE_TRANSFERRING) then EPERM else EBUSY in
    st_each (λ t, fail_task t st) tasks
  else
    entries ← apply_tasks tasks;
    leader_append entries;;
    check_and_set_configuration.

(** ** Configuration changes *)

Definition conf_ctx_next_stage : N unit :=
  c ← st_get n_conf_ctx;
  st_check (cc_is_busy c = true);;
  match cc_stage c with
  | STAGE_CATCHING_UP =>
      if decide (cc_nchanges c > 1) then
        mod_conf_ctx (cc_with_stage STAGE_JOINT);;
        unsafe_apply_configuration (mkConfiguration (cc_new_peers c))
          (Some (mkConfiguration (cc_old_peers c))) false
      else
        mod_conf_ctx (cc_with_stage STAGE_STABLE);;
        unsafe_apply_configuration (mkConfiguration (cc_new_peers c)) None false
  | STAGE_JOINT =>
      mod_conf_ctx (cc_with_stage STAGE_STABLE);;
      unsafe_apply_configuration (mkConfiguration (cc_new_peers c)) None false
  | STAGE_STABLE =>
      server ← st_get n_server_id;
      current ← st_get n_current_term;
      let should_step_down := negb (set_contains peer_lt server (cc_new_peers c)) in
      conf_ctx_reset e (Some 0);;
      if should_step_down then step_down e current true ELEADERREMOVED else mret tt
  | STAGE_NONE => st_check False
  end.

(** [ConfigurationCtx::on_caughtup]. *)
Definition conf_ctx_on_caughtup (version : Z) (peer_id : PeerId) (succ : bool) : N unit :=
  c ← st_get n_conf_ctx;
  if decide (version ≠ cc_version c) then mret tt
  else
    st_check (cc_stage c = STAGE_CATCHING_UP);;
    if succ then
      let adding := (set_erase peer_lt peer_id (cc_adding_peers c)).1 in
      mod_conf_ctx (cc_with_adding adding);;
      if decide (adding = []) then conf_ctx_next_stage else mret tt
    else conf_ctx_reset e (Some ECATCHUP).

(** [_replicator_group.wait_caughtup(peer, ...)] with a new [OnCaughtUp]. *)
Definition wait_caughtup (peer : PeerId) (version : Z) : N Z :=
  current ← st_get n_current_term;
  o ← st_get n_options;
  (if decide (e_wait_caughtup e peer = 0)
   then emit_ev [EvReplicatorWaitCaughtup peer current version (get_catchup_timeout_ms o)] else mret tt);;
  mret (e_wait_caughtup e peer).

(** The loop of [ConfigurationCtx::start] over the peers to add; the first
    failure ends it. *)
Fixpoint start_catchup (version : Z) (adding : list PeerId) : N unit :=
  match adding with
  | [] => mret tt
  | p :: ps =>
      if decide (e_add_replicator e p ≠ 0) then conf_ctx_on_caughtup version p false
      else
        emit_ev [EvReplicatorAdd p];;
        rc ← wait_caughtup p version;
        if decide (rc ≠ 0) then conf_ctx_on_caughtup version p false
        else start_catchup version ps
  end.

(** [ConfigurationCtx::start]. *)
Definition conf_ctx_start (old_conf new_conf : Configuration) (done : option Closure) : N unit :=
  c ← st_get n_conf_ctx;
  st_check (cc_is_busy c = false);;
  st_check (cc_done c = None);;
  let '(adding, removing) := diffs new_conf old_conf in
  st_mod (with_conf_ctx (mkConfigurationCtx STAGE_CATCHING_UP (conf_size adding + conf_size removing)
            (cc_version c) (list_peers new_conf) (list_peers old_conf) (cc_adding_peers c) done));;
  if conf_empty adding then conf_ctx_next_stage
  else
    mod_conf_ctx (cc_with_adding (list_peers adding));;
    start_catchup (cc_version c) (list_peers adding).

Definition unsafe_register_conf_change (old_conf new_conf : Configuration) (done : option Z) : N unit :=
  state ← st_get n_state;
  cc ← st_get n_conf_ctx;
  conf ← st_get n_conf;
  let answer st := match done with Some d => emit_ev [EvUserDone d st] | None => mret tt end in
  if decide (state ≠ STATE_LEADER) then
    answer (if decide (state = STATE_TRANSFERRING) then EBUSY else EPERM)
  else if cc_is_busy cc then answer EBUSY
  else if conf_equals (ce_conf conf) new_conf then answer 0
  else
    d ← match done with
        | Some d => c ← new_closure (UserClosure d); mret (Some c)
        | None => mret None
        end;
    conf_ctx_start old_conf new_conf d.

(** [add_peer], [remove_peer] and [change_peers]. *)
Definition node_add_peer (peer : PeerId) (done : option Z) : N unit :=
  conf ← st_get n_conf;
  unsafe_register_conf_change (ce_conf conf) (Configuration.add_peer (ce_conf conf) peer).1 done.

Definition node_remove_peer (peer : PeerId) (done : option Z) : N unit :=
  conf ← st_get n_conf;
  unsafe_register_conf_change (ce_conf conf) (Configuration.remove_peer (ce_conf conf) peer).1 done.

Definition change_peers (new_peers : Configuration) (done : option Z) : N unit :=
  conf ← st_get n_conf;
  unsafe_register_conf_change (ce_conf conf) new_peers done.

(** [reset_peers]: the status code. *)
Definition reset_peers (new_peers : Configuration) : N Z :=
  state ← st_get n_state;
  conf ← st_get n_conf;
  cc ← st_get n_conf_ctx;
  current ← st_get n_current_term;
  if conf_empty new_peers then mret EINVAL
  else if negb (is_active_state state) then mret EPERM
  else if conf_empty (ce_conf conf) then
    st_mod (with_conf (mkConfigurationEntry (ce_id conf) new_peers (ce_old_conf conf)));;
    step_down e (current + 1) false ESETPEER;; mret 0
  else if bool_decide (state = STATE_LEADER) && cc_is_busy cc then mret EBUSY
  else if conf_equals (ce_conf conf) new_peers then mret 0
  else
    st_mod (with_conf (mkConfigurationEntry (ce_id conf) new_peers conf_new));;
    step_down e (current + 1) false ESETPEER;; mret 0.

(** [list_peers]. *)
Definition node_list_peers : N (list PeerId + Z) :=
  state ← st_get n_state;
  conf ← st_get n_conf;
  mret (if decide (state ≠ STATE_LEADER) then inr EPERM else inl (list_peers (ce_conf conf))).

Definition on_configuration_change_done (term : Z) : N unit :=
  state ← st_get n_state;
  current ← st_get n_current_term;
  if decide (state_num STATE_TRANSFERRING < state_num state ∨ term ≠ current) then mret tt
  else conf_ctx_next_stage.

(** [on_caughtup(peer, term, version, st)]. *)
Definition on_caughtup (peer : PeerId) (term version st : Z) : N unit :=
  state ← st_get n_state;
  current ← st_get n_current_term;
  o ← st_get n_options;
  if decide (state ≠ STATE_LEADER ∨ term ≠ current) then mret tt
  else if decide (st = 0) then conf_ctx_on_caughtup version peer true
  else if decide (st = ETIMEDOUT ∧
                  e_monotonic_ms e - e_last_rpc_send_timestamp e peer ≤ no_election_timeout_ms o) then
    rc ← wait_caughtup peer version;
    if decide (0 = rc) then mret tt else conf_ctx_on_caughtup version peer false
  else conf_ctx_on_caughtup version peer false.

(** ** Timers of a leader *)

Definition check_dead_nodes (conf : Configuration) (now_ms : Z) : N unit :=
  server ← st_get n_server_id;
  o ← st_get n_options;
  current ← st_get n_current_term;
  let ps := list_peers conf in
  let alive_count := zlen (filter (λ p, peer_eq p server ∨
    now_ms - e_last_rpc_send_timestamp e p ≤ no_election_timeout_ms o) ps) in
  if decide (zlen ps / 2 + 1 ≤ alive_count) then mret tt
  else step_down e current false ERAFTTIMEDOUT.

Definition check_witness : N unit :=
  o ← st_get n_options;
  current ← st_get n_current_term;
  if no_witness o then step_down e current true ETRANSFERLEADERSHIP else mret tt.

Definition handle_stepdown_timeout : N unit :=
  state ← st_get n_state;
  if decide (state_num STATE_TRANSFERRING < state_num state) then mret tt
  else
    check_witness;;
    conf ← st_get n_conf;
    check_dead_nodes (ce_conf conf) (e_monotonic_ms e);;
    conf' ← st_get n_conf;
    if conf_empty (ce_old_conf conf') then mret tt
    else check_dead_nodes (ce_old_conf conf') (e_monotonic_ms e).

Definition handle_transfer_timeout (term : Z) (peer : PeerId) : N unit :=
  current ← st_get n_current_term;
  if decide (term = current) then
    emit_ev [EvReplicatorStopTransfer peer];;
    state ← st_get n_state;
    if decide (state = STATE_TRANSFERRING) then
      st_mod (λ n, with_leader_lease (ll_on_leader_start (n_leader_lease n) term) n);;
      lease ← st_get n_leader_lease;
      emit_ev [EvLeaderStart term (ll_lease_epoch lease)];;
      st_mod (with_state STATE_LEADER);;
      st_mod (with_stop_transfer_arg None)
    else mret tt
  else mret tt.

(** [transfer_leadership_to(peer)]: the return code. *)
Definition transfer_leadership_to (peer : PeerId) : N Z :=
  state ← st_get n_state;
  cc ← st_get n_conf_ctx;
  server ← st_get n_server_id;
  conf ← st_get n_conf;
  if decide (state ≠ STATE_LEADER) then mret (if decide (state = STATE_TRANSFERRING) then EBUSY else EPERM)
  else if cc_is_busy cc then mret EBUSY
  else
    match (if decide (peer_eq peer empty_peer) then e_next_candidate e else Some peer) with
    | None => mret (-1)
    | Some peer_id =>
        if decide (peer_eq peer_id server) then mret 0
        else if negb (ce_contains conf peer_id) then mret EINVAL
        else
          m ← st_get n_log_manager;
          let rc := e_transfer_leadership_to e peer_id (lm_last_log_index m) in
          if decide (rc ≠ 0) then mret rc
          else
            emit_ev [EvReplicatorTransfer peer_id (lm_last_log_index m)];;
            st_mod (with_state STATE_TRANSFERRING);;
            st_mod (λ n, with_leader_lease (ll_on_leader_stop (n_leader_lease n)) n);;
            emit_ev [EvLeaderStop ETRANSFERLEADERSHIP];;
            current ← st_get n_current_term;
            o ← st_get n_options;
            st_mod (with_stop_transfer_arg (Some (current, peer_id)));;
            added ← sys_result;
            if decide (added ≠ 0) then handle_transfer_timeout current peer_id;; mret (-1)
            else emit_ev [EvTransferTimer current peer_id (no_election_timeout_ms o)];; mret 0
    end.

(** ** Election timeouts *)

Definition heartbeat_timeout (election_timeout : Z) : Z :=
  let factor := if decide (raft_election_heartbeat_factor fl ≤ 0) then 10
                else raft_election_heartbeat_factor fl in
  Z.max (Z.quot election_timeout factor) 10.

Definition unsafe_reset_election_timeout_ms (election_timeout_ms max_clock_drift_ms : Z) : N unit :=
  st_mod (λ n, let o := n_options n in
    with_options (mkNodeOptions election_timeout_ms (no_catchup_timeout_ms o) max_clock_drift_ms
                    (no_catchup_margin o) (no_witness o) (no_initial_conf o) (no_snapshot_interval_s o)) n);;
  emit_ev [EvReplicatorIntervals (heartbeat_timeout election_timeout_ms) election_timeout_ms];;
  o ← st_get n_options;
  if no_witness o && raft_enable_witness_to_leader fl then
    emit_ev [EvTimerReset ElectionTimer (election_timeout_ms * 2)];;
    st_mod (λ n, with_follower_lease
      (fl_reset_election_timeout_ms (n_follower_lease n) (election_timeout_ms * 2) max_clock_drift_ms) n)
  else
    emit_ev [EvTimerReset ElectionTimer election_timeout_ms];;
    st_mod (λ n, with_leader_lease (ll_reset_election_timeout_ms (n_leader_lease n) election_timeout_ms) n);;
    st_mod (λ n, with_follower_lease
      (fl_reset_election_timeout_ms (n_follower_lease n) election_timeout_ms max_clock_drift_ms) n).

(** [vote(election_timeout_ms)]: the status code. *)
Definition node_vote (election_timeout_ms : Z) : N Z :=
  state ← st_get n_state;
  o ← st_get n_options;
  let max_election_timeout_ms := no_max_clock_drift_ms o + no_election_timeout_ms o in
  if decide (state ≠ STATE_FOLLOWER) then mret EPERM
  else if decide (election_timeout_ms > max_election_timeout_ms) then mret EINVAL
  else
    let t := Z.min election_timeout_ms max_election_timeout_ms in
    unsafe_reset_election_timeout_ms t (max_election_timeout_ms - t);;
    st_mod (with_vote_triggered true);;
    mret 0.

(** [reset_election_timeout_ms(election_timeout_ms)]. *)
Definition reset_election_timeout_ms (election_timeout_ms : Z) : N Z :=
  o ← st_get n_options;
  let max_election_timeout_ms := no_max_clock_drift_ms o + no_election_timeout_ms o in
  if decide (election_timeout_ms > max_election_timeout_ms) then mret EINVAL
  else
    let t := Z.min election_timeout_ms max_election_timeout_ms in
    unsafe_reset_election_timeout_ms t (max_election_timeout_ms - t);;
    mret 0.

(** ** AppendEntries on a follower *)

(** [data_buf.cutn(&log_entry->data, len)]: a negative length is a huge
    [size_t]. *)
Definition cutn (data_buf : list Z) (len : Z) : list Z * list Z :=
  if decide (len < 0) then (data_buf, [])
  else (take (Z.to_nat len) data_buf, drop (Z.to_nat len) data_buf).

(** One entry of the request; [PeerId(const std::string&)] aborts on a string
    it cannot parse. *)
Definition parse_entry (index : Z) (em : EntryMeta) (data_buf : list Z) : option (LogEntry * list Z) :=
  ps ← mapM peer_of_string (em_peers em);
  '(peers, old_peers) ←
    (if decide (em_peers em = []) then
       CHECK (em_type em ≠ ENTRY_TYPE_CONFIGURATION);; Some (None, None)
     else
       CHECK (em_type em = ENTRY_TYPE_CONFIGURATION);;
       if decide (em_old_peers em = []) then Some (Some ps, None)
       else ops ← mapM peer_of_string (em_old_peers em); Some (Some ps, Some ops));
  let '(data, rest) := match em_data_len em with
                       | Some len => cutn data_buf (i32 len)
                       | None => ([], data_buf)
                       end in
  Some (mkLogEntry (em_type em) (mkLogId index (em_term em)) peers old_peers data, rest).

(** The loop of [handle_append_entries_request] over the entries. *)
Fixpoint parse_entries (index : Z) (ems : list EntryMeta) (data_buf : list Z) : option (list LogEntry) :=
  match ems with
  | [] => Some []
  | em :: ems' =>
      if decide (em_type em = ENTRY_TYPE_UNKNOWN) then parse_entries (index + 1) ems' data_buf
      else
        '(entry, rest) ← parse_entry (index + 1) em data_buf;
        es ← parse_entries (index + 1) ems' rest;
        Some (entry :: es)
  end.

(** An empty cache is deleted. *)
Definition drop_empty_cache : N unit :=
  st_mod (λ n, match n_cache n with
               | Some c => if ac_empty c then with_cache None n else n
               | None => n
               end).

Definition handle_out_of_order_append_entries (rpc : AppendEntriesRpc) (local_last_index : Z) : N bool :=
  if negb (raft_enable_append_entries_cache fl) ||
     bool_decide (ae_prev_log_index (rpc_request rpc) ≤ local_last_index) ||
     bool_decide (ae_entries_size (rpc_request rpc) = 0)
  then mret false
  else
    cache ← st_get n_cache;
    version ← st_get n_cache_version;
    c ← match cache with
        | Some c => mret c
        | None => st_mod (with_cache_version (version + 1));; mret (ac_new (version + 1))
        end;
    o ← st_get n_options;
    rc ← cache_call c (ac_store (no_election_timeout_ms o) (raft_max_append_entries_cache_size fl)
           (mkAppendEntriesRpc (rpc_id rpc) (rpc_request rpc) (rpc_attachment rpc) (e_realtime_ms e)));
    (if rc : bool then mret tt else drop_empty_cache);;
    mret rc.

Definition check_append_entries_cache (local_last_index : Z) : N unit :=
  cache ← st_get n_cache;
  match cache with
  | None => mret tt
  | Some c => cache_call c (ac_process_runable_rpcs local_last_index);; drop_empty_cache
  end.

Definition handle_append_entries_cache_timedout (cache_version timer_version timer_start_ms : Z) : N unit :=
  cache ← st_get n_cache;
  o ← st_get n_options;
  match cache with
  | Some c =>
      if decide (cache_version = ac_cache_version c) then
        cache_call c (ac_timedout (no_election_timeout_ms o) timer_version timer_start_ms);; drop_empty_cache
      else mret tt
  | None => mret tt
  end.

Definition reply_append_entries (rpc : AppendEntriesRpc) (term : Z) (success : bool)
    (last_log_index : option Z) (readonly : option bool) : N unit :=
  emit_ev [EvAppendEntriesReply rpc 0 (Some (mkAppendEntriesResponse term success last_log_index readonly))].

(** The log agrees with the request up to its first entry: append. *)
Definition accept_append_entries (rpc : AppendEntriesRpc) : N unit :=
  let request := rpc_request rpc in
  entries ← st_lift (parse_entries (ae_prev_log_index request) (ae_entries request) (rpc_attachment rpc));
  check_append_entries_cache (ae_last_index request);;
  current ← st_get n_current_term;
  c ← new_closure (FollowerStableClosure rpc current);
  log_call (λ m, lm_append_entries m entries c);;
  check_and_set_configuration.

Definition handle_append_entries_request (rpc : AppendEntriesRpc) (from_append_entries_cache : bool) : N unit :=
  let request := rpc_request rpc in
  state ← st_get n_state;
  if negb (is_active_state state) then emit_ev [EvAppendEntriesReply rpc EINVAL None]
  else
    '(server_id, rc) ← st_lift (peer_parse (ae_server_id request));
    if decide (0 ≠ rc) then emit_ev [EvAppendEntriesReply rpc EREQUEST None]
    else
      current ← st_get n_current_term;
      if decide (ae_term request < current) then reply_append_entries rpc current false None None
      else
        check_step_down e (ae_term request) server_id;;
        leader ← st_get n_leader_id;
        if decide (¬ peer_eq server_id leader) then
          step_down e (ae_term request + 1) false ELEADERCONFLICT;;
          reply_append_entries rpc (ae_term request + 1) false None None
        else
          (if from_append_entries_cache then mret tt
           else st_mod (λ n, with_follower_lease
                  (fl_renew (n_follower_lease n) (e_monotonic_ms e) leader) n));;
          has_executor ← st_get n_snapshot_executor;
          if bool_decide (ae_entries_size request > 0) && (has_executor && e_installing_snapshot e) then
            emit_ev [EvAppendEntriesReply rpc EBUSY None]
          else
            m ← st_get n_log_manager;
            local_prev_log_term ← st_lift (lm_get_term m (ae_prev_log_index request));
            now_term ← st_get n_current_term;
            if decide (local_prev_log_term ≠ ae_prev_log_term request) then
              cached ← (if from_append_entries_cache then mret false
                        else handle_out_of_order_append_entries rpc (lm_last_log_index m));
              if cached : bool then mret tt
              else reply_append_entries rpc now_term false (Some (lm_last_log_index m)) None
            else if decide (ae_entries_size request = 0) then
              ro ← st_get n_node_readonly;
              box_call (λ b, bb_set_last_committed_index b
                               (Z.min (ae_committed_index request) (ae_prev_log_index request)));;
              reply_append_entries rpc now_term true (Some (lm_last_log_index m)) (Some ro)
            else accept_append_entries rpc.

(** [handle_install_snapshot_request] up to the snapshot executor. *)
Definition handle_install_snapshot_request (request : InstallSnapshotRequest) : N unit :=
  has_executor ← st_get n_snapshot_executor;
  state ← st_get n_state;
  if negb has_executor then emit_ev [EvInstallSnapshotReply request EINVAL None]
  else
    '(server_id, rc) ← st_lift (peer_parse (is_server_id request));
    current ← st_get n_current_term;
    if decide (0 ≠ rc) then emit_ev [EvInstallSnapshotReply request EREQUEST None]
    else if negb (is_active_state state) then emit_ev [EvInstallSnapshotReply request EINVAL None]
    else if decide (is_term request < current) then
      emit_ev [EvInstallSnapshotReply request 0 (Some (mkTermResponse current false))]
    else
      check_step_down e (is_term request) server_id;;
      leader ← st_get n_leader_id;
      if decide (¬ peer_eq server_id leader) then
        step_down e (is_term request + 1) false ELEADERCONFLICT;;
        emit_ev [EvInstallSnapshotReply request 0 (Some (mkTermResponse (is_term request + 1) false))]
      else clear_append_entries_cache;; emit_ev [EvInstallSnapshot request].

(** The snapshot executor sets the snapshot of the log manager and then calls
    [update_configuration_after_installing_snapshot]. *)
Definition update_configuration_after_installing_snapshot : N unit := check_and_set_configuration.

(** ** Closures that run *)

(** [last_leader_active_timestamp(conf)]: the min-heap keeps the latest
    [peers.size() / 2] timestamps of the other peers, and the result is the
    least of them. *)
Fixpoint remove_min (x : Z) (l : list Z) : Z * list Z :=
  match l with
  | [] => (x, [])
  | y :: l' => let '(m, r) := remove_min (Z.min x y) l' in (m, Z.max x y :: r)
  end.

Definition push_bounded (bound : Z) (heap : list Z) (t : Z) : list Z :=
  if decide (bound < zlen (t :: heap)) then (remove_min t heap).2 else t :: heap.

Definition last_leader_active_timestamp_of (server : PeerId) (conf : Configuration) : Z :=
  let ps := list_peers conf in
  let heap := foldl (push_bounded (zlen ps / 2)) []
                (e_last_rpc_send_timestamp e <$> filter (λ p, ¬ peer_eq p server) ps) in
  match heap with
  | [] => e_monotonic_ms e
  | t :: heap' => (remove_min t heap').1
  end.

Definition last_leader_active_timestamp : N Z :=
  server ← st_get n_server_id;
  conf ← st_get n_conf;
  let timestamp := last_leader_active_timestamp_of server (ce_conf conf) in
  mret (if conf_empty (ce_old_conf conf) then timestamp
        else Z.min timestamp (last_leader_active_timestamp_of server (ce_old_conf conf))).

Definition leader_lease_start (lease_epoch : Z) : N unit :=
  state ← st_get n_state;
  if decide (state = STATE_LEADER) then
    t ← last_leader_active_timestamp;
    st_mod (λ n, with_leader_lease (ll_on_lease_start (n_leader_lease n) lease_epoch t) n)
  else mret tt.

(** [LeaderLeaseStatus]. *)
Inductive LeaseState := LEASE_DISABLED | LEASE_EXPIRED | LEASE_NOT_READY | LEASE_VALID.

Record LeaderLeaseStatus := mkLeaderLeaseStatus { ls_state : LeaseState; ls_term : Z; ls_lease_epoch : Z }.

(** [get_leader_lease_status] of a status that holds the defaults; [now] is
    the clock of the first, unlocked look at the lease. *)
Definition get_leader_lease_status (now : Z) : N LeaderLeaseStatus :=
  lease ← st_get n_leader_lease;
  let info := ll_get_lease_info (raft_enable_leader_lease fl) now lease in
  match li_state info with
  | DISABLED => mret (mkLeaderLeaseStatus LEASE_DISABLED 0 0)
  | EXPIRED => mret (mkLeaderLeaseStatus LEASE_EXPIRED 0 0)
  | NOT_READY => mret (mkLeaderLeaseStatus LEASE_NOT_READY 0 0)
  | VALID => mret (mkLeaderLeaseStatus LEASE_VALID (li_term info) (li_lease_epoch info))
  | SUSPECT =>
      state ← st_get n_state;
      if decide (state ≠ STATE_LEADER) then mret (mkLeaderLeaseStatus LEASE_EXPIRED 0 0)
      else
        t ← last_leader_active_timestamp;
        st_mod (λ n, with_leader_lease (ll_renew (n_leader_lease n) t) n);;
        lease' ← st_get n_leader_lease;
        let info' := ll_get_lease_info (raft_enable_leader_lease fl) (e_monotonic_ms e) lease' in
        if decide (li_state info' ≠ VALID ∧ li_state info' ≠ DISABLED) then
          current ← st_get n_current_term;
          step_down e current false ERAFTTIMEDOUT;;
          mret (mkLeaderLeaseStatus LEASE_EXPIRED 0 0)
        else if decide (li_state info' = VALID) then
          mret (mkLeaderLeaseStatus LEASE_VALID (li_term info') (li_lease_epoch info'))
        else mret (mkLeaderLeaseStatus LEASE_DISABLED 0 0)
  end.

(** [Run] of a closure of the node, with the status code it was given. *)
Definition run_node_closure (c : NodeClosure) (status : Z) : N unit :=
  match c with
  | LeaderStableClosure first_log_index nentries =>
      if decide (status = 0) then
        server ← st_get n_server_id;
        box_call (λ b, bb_commit_at b first_log_index (first_log_index + nentries - 1) server)
      else mret tt
  | FollowerStableClosure rpc term =>
      let request := rpc_request rpc in
      current ← st_get n_current_term;
      if decide (status ≠ 0) then emit_ev [EvAppendEntriesReply rpc status None]
      else if decide (term ≠ current) then reply_append_entries rpc current false None None
      else
        box_call (λ b, bb_set_last_committed_index b
                         (Z.min (ae_committed_index request) (ae_last_index request)));;
        reply_append_entries rpc term true None None
  | ConfigurationChangeDone term leader_start lease_epoch =>
      if decide (status = 0) then
        on_configuration_change_done term;;
        if leader_start then leader_lease_start lease_epoch;; emit_ev [EvUserLeaderStart term] else mret tt
      else mret tt
  | UserClosure d => emit_ev [EvUserDone d status]
  end.

(** Closure [c] runs, and is gone. *)
Definition run_closure (c : Closure) (status : Z) : N unit :=
  cs ← st_get n_closures;
  match head (filter (λ x, x.1 = c) cs) with
  | Some (_, k) =>
      st_mod (with_closures (filter (λ x, x.1 ≠ c) cs));;
      run_node_closure k status
  | None => mret tt
  end.

(** A call the log manager has made arrives. The calls come from several
    fibers, so any pending one may be next. *)
Definition log_event (i : nat) : N unit :=
  m ← st_get n_log_manager;
  match lm_out m !! i with
  | None => mret tt
  | Some ev =>
      st_mod (with_log_manager (mkLogManager (lm_log_storage m) (lm_config_manager m) (lm_wait_map m)
        (lm_stopped m) (lm_has_error m) (lm_next_wait_id m) (lm_disk_id m) (lm_applied_id m)
        (lm_logs_in_memory m) (lm_first_log_index m) (lm_last_log_index m) (lm_last_snapshot_id m)
        (lm_virtual_first_log_id m) (lm_disk_queue m) (lm_thread m) (delete i (lm_out m))));;
      match ev with
      | EvRun c status => run_closure c status
      | EvLastLogId c last_log_id => answer_last_log_id c last_log_id
      | EvNewLog w status => emit_ev [EvNewLogAvailable w status]
      | EvError status => emit_ev [EvFsmError status]
      end
  end.

(** ** Read-only mode *)

Definition set_node_readonly (b : bool) : N unit := st_mod (with_node_readonly b).

Definition node_readonly : N bool :=
  ro ← st_get n_node_readonly;
  mro ← st_get n_majority_nodes_readonly;
  mret (ro || mro).

(** [change_readonly_config(term, peer_id, readonly)]. *)
Definition change_readonly_config (term : Z) (peer_id : PeerId) (readonly : bool) : N Z :=
  current ← st_get n_current_term;
  state ← st_get n_state;
  if decide (term ≠ current ∧ state ≠ STATE_LEADER) then mret EINVAL
  else
    emit_ev [EvReplicatorReadonly peer_id readonly];;
    check_majority_nodes_readonly e;;
    mret 0.

(** ** Terms, errors and shutdown *)

Definition increase_term_to (new_term status : Z) : N Z :=
  current ← st_get n_current_term;
  if decide (new_term ≤ current) then mret EINVAL
  else step_down e new_term false status;; mret 0.

Definition on_error (error : Z) : N unit :=
  emit_ev [EvFsmError error];;
  state ← st_get n_state;
  current ← st_get n_current_term;
  (if decide (state_num state ≤ state_num STATE_FOLLOWER)
   then step_down e current (bool_decide (state = STATE_LEADER)) EBADNODE else mret tt);;
  state' ← st_get n_state;
  if decide (state_num state' < state_num STATE_ERROR) then st_mod (with_state STATE_ERROR) else mret tt.

(** [shutdown(done)]. *)
Definition shutdown (done : option Z) : N unit :=
  state ← st_get n_state;
  current ← st_get n_current_term;
  (if decide (state_num state < state_num STATE_SHUTTING) then
     emit_ev [EvRemoveFromManager];;
     (if decide (state_num state ≤ state_num STATE_FOLLOWER)
      then step_down e current (bool_decide (state = STATE_LEADER)) ESHUTDOWN else mret tt);;
     st_mod (with_state STATE_SHUTTING);;
     emit_ev [EvTimerDestroy ElectionTimer; EvTimerDestroy VoteTimer; EvTimerDestroy StepdownTimer;
              EvTimerDestroy SnapshotTimer];;
     st_mod (λ n, with_log_manager (lm_shutdown (n_log_manager n)) n);;
     has_executor ← st_get n_snapshot_executor;
     (if has_executor : bool then emit_ev [EvSnapshotShutdown] else mret tt);;
     emit_ev [EvFsmShutdown]
   else mret tt);;
  state' ← st_get n_state;
  if decide (state' ≠ STATE_SHUTDOWN) then
    st_mod (λ n, with_shutdown_continuations (n_shutdown_continuations n ++ option_list done) n)
  else match done with Some d => emit_ev [EvUserDone d 0] | None => mret tt end.

Definition after_shutdown : N unit :=
  state ← st_get n_state;
  st_check (state = STATE_SHUTTING);;
  st_mod (with_state STATE_SHUTDOWN);;
  cs ← st_get n_shutdown_continuations;
  st_mod (with_shutdown_continuations []);;
  emit_ev ((λ d, EvUserDone d 0) <$> cs).

(** ** Reading committed entries *)

(** The result is the index and data of the next user entry, or a status. *)
Fixpoint read_user_log (fuel : nat) (cur_index last_applied_index : Z) : N ((Z * list Z) + Z) :=
  match fuel with
  | O => st_lift None
  | Datatypes.S fuel' =>
      m ← st_get n_log_manager;
      '(m', entry) ← st_lift (lm_get_entry m cur_index);
      st_mod (with_log_manager m');;
      match entry with
      | None => mret (inr ELOGDELETED)
      | Some en =>
          if decide (type en = ENTRY_TYPE_DATA) then mret (inl (cur_index, data en))
          else if decide (cur_index + 1 > last_applied_index) then mret (inr ENOMOREUSERLOG)
          else read_user_log fuel' (cur_index + 1) last_applied_index
      end
  end.

Definition read_committed_user_log (index last_applied_index : Z) : N ((Z * list Z) + Z) :=
  if decide (index ≤ 0) then mret (inr EINVAL)
  else if decide (index > last_applied_index) then mret (inr ENOMOREUSERLOG)
  else read_user_log (Datatypes.S (Z.to_nat (last_applied_index - index))) index last_applied_index.
End node.
