(* ===== verification/NodeLogSpec.v ===== *)
(** * Properties of a node's handlers

    The timestamp a leader's lease is renewed with, the requests that renew a
    follower's, and the votes a node gives away. *)

From stdpp Require Import prelude.
From S2P Require Import Prelude StdContainers Configuration Ballot ClosureQueue BallotBox PeerText.
From S2P Require Import LogStorage LogManager StateMonad Messages Lease MetaStorage AppendEntriesCache.
From S2P Require Import NodeState NodeVote NodeCore NodeLog.
Local Open Scope Z_scope.

(** ** The heap of timestamps *)

Lemma remove_min_spec x l :
  let '(m, r) := remove_min x l in m :: r ≡ₚ x :: l ∧ Forall (λ y, m ≤ y) r.
Proof.
  revert x. induction l as [|y l IH]; intros x; cbn; [by split|].
  specialize (IH (Z.min x y)). destruct (remove_min (Z.min x y) l) as [m r]. destruct IH as [Hp Hf].
  assert (m ≤ Z.min x y) as Hm.
  { assert (Z.min x y ∈ m :: r) as Hin by (rewrite Hp; apply list_elem_of_here).
    apply elem_of_cons in Hin as [->|Hin]; [lia|]. rewrite Forall_forall in Hf. by apply Hf. }
  split; [|constructor; [lia|done]]. rewrite (Permutation_swap (Z.max x y) m r), Hp.
  destruct (Z.le_ge_cases x y).
  - rewrite Z.max_r, Z.min_l by lia. apply Permutation_swap.
  - rewrite Z.max_l, Z.min_r by lia. done.
Qed.

(** The heap holds the [k] latest of what was pushed. *)
Definition latest (k : Z) (heap pushed : list Z) : Prop :=
  zlen heap = Z.min k (zlen pushed) ∧
  ∃ rest, heap ++ rest ≡ₚ pushed ∧ ∀ h r, h ∈ heap → r ∈ rest → r ≤ h.

Lemma push_bounded_latest k heap pushed t :
  0 ≤ k → latest k heap pushed → latest k (push_bounded k heap t) (t :: pushed).
Proof.
  intros Hk (Hlen & rest & Hp & Hle). unfold push_bounded, latest.
  assert (zlen pushed = zlen heap + zlen rest) as Hpl.
  { unfold zlen. rewrite <-Hp, length_app. lia. }
  pose proof (zlen_nonneg rest). pose proof (zlen_nonneg heap). rewrite !zlen_cons. case_decide as Hd.
  - pose proof (remove_min_spec t heap) as Hm. destruct (remove_min t heap) as [m r]. destruct Hm as [Hmp Hmf].
    assert (zlen r = zlen heap) as Hr.
    { apply Permutation_length in Hmp. cbn in Hmp. unfold zlen. lia. }
    cbn. split; [rewrite Hr; lia|]. exists (m :: rest). split.
    + rewrite <-Permutation_middle. change (m :: r ++ rest) with ((m :: r) ++ rest). rewrite Hmp. cbn. by rewrite Hp.
    + intros h x Hh Hx. rewrite Forall_forall in Hmf. apply elem_of_cons in Hx as [->|Hx]; [by apply Hmf|].
      assert (m ∈ t :: heap) as Hin by (rewrite <-Hmp; apply list_elem_of_here).
      apply elem_of_cons in Hin as [->|Hin].
      * apply Permutation_cons_inv in Hmp. apply Hle; [by rewrite <-Hmp|done].
      * specialize (Hle m x Hin Hx). specialize (Hmf h Hh). lia.
  - split; [rewrite zlen_cons; lia|]. exists rest. assert (rest = []) as ->.
    { destruct rest; [done|]. rewrite zlen_cons in *. pose proof (zlen_nonneg rest). lia. }
    split; [cbn; by rewrite Hp|]. intros h r _ ?%not_elem_of_nil. done.
Qed.

Lemma push_all_latest k ts heap pushed :
  0 ≤ k → latest k heap pushed → latest k (foldl (push_bounded k) heap ts) (reverse ts ++ pushed).
Proof.
  intros Hk. revert heap pushed. induction ts as [|t ts IH]; intros heap pushed Hl; [done|].
  cbn [foldl]. rewrite reverse_cons, <-app_assoc. apply IH. by apply push_bounded_latest.
Qed.

(** ** The lease timestamp *)

(** The peers of [conf] that were heard of at [t] or later; the server itself
    always is. *)
Definition heard_since (e : Env) (server : PeerId) (conf : Configuration) (t : Z) : Z :=
  zlen (filter (λ p, peer_eq p server ∨ t ≤ e_last_rpc_send_timestamp e p) (list_peers conf)).

Definition at_least (t : Z) (l : list Z) : Z := zlen (filter (λ x, t ≤ x) l).

Lemma at_least_perm t l l' : l ≡ₚ l' → at_least t l = at_least t l'.
Proof. intros Hp. unfold at_least, zlen. by rewrite Hp. Qed.

Lemma at_least_app t l l' : at_least t (l ++ l') = at_least t l + at_least t l'.
Proof. unfold at_least. by rewrite filter_app, zlen_app. Qed.

Lemma at_least_all t l : Forall (λ x, t ≤ x) l → at_least t l = zlen l.
Proof. intros Hl. unfold at_least. rewrite list_filter_all; [done|]. by apply Forall_forall. Qed.

Lemma at_least_none t l : Forall (λ x, x < t) l → at_least t l = 0.
Proof.
  intros Hl. unfold at_least. induction Hl as [|x l Hx Hl IH]; [done|]. rewrite filter_cons, decide_False by lia. done.
Qed.

Lemma at_least_le t l : at_least t l ≤ zlen l.
Proof. unfold at_least, zlen. pose proof (length_filter (λ x, t ≤ x) l). lia. Qed.

(** The least of the [k] latest is reached by [k] and by no more. *)
Lemma latest_min k x heap pushed :
  0 < k ≤ zlen pushed → latest k (x :: heap) pushed →
  let m := (remove_min x heap).1 in
  k ≤ at_least m pushed ∧ ∀ t, m < t → at_least t pushed < k.
Proof.
  intros Hk (Hlen & rest & Hp & Hle) m. subst m. pose proof (remove_min_spec x heap) as Hm.
  destruct (remove_min x heap) as [m r]. destruct Hm as [Hmp Hmf]. cbn.
  assert (zlen (m :: r) = k) as Hk' by (apply Permutation_length in Hmp; unfold zlen in *; lia).
  rewrite zlen_cons in Hk'. pose proof (zlen_nonneg (filter (λ x, m ≤ x) rest)). split.
  - rewrite <-(at_least_perm _ _ _ Hp), at_least_app, <-(at_least_perm _ _ _ Hmp).
    rewrite at_least_all by (constructor; [lia|done]). rewrite zlen_cons. unfold at_least at 1. lia.
  - intros t Ht. rewrite <-(at_least_perm _ _ _ Hp), at_least_app, <-(at_least_perm _ _ _ Hmp).
    rewrite (at_least_none t rest).
    + change (m :: r) with ([m] ++ r). rewrite at_least_app, (at_least_none t [m]); [|by repeat constructor].
      pose proof (at_least_le t r). lia.
    + apply Forall_forall. intros y Hy. assert (m ∈ x :: heap) as Hin by (rewrite <-Hmp; apply list_elem_of_here).
      specialize (Hle m y Hin Hy). lia.
Qed.

(** The server and the others. *)
Lemma heard_split e server conf t :
  conf_wf conf → contains conf server = true →
  let others := filter (λ p, ¬ peer_eq p server) (list_peers conf) in
  zlen others = conf_size conf - 1 ∧
  heard_since e server conf t = 1 + at_least t (e_last_rpc_send_timestamp e <$> others).
Proof.
  intros Hwf Hin others. apply contains_key in Hin. unfold conf_keys in Hin.
  apply list_elem_of_fmap in Hin as (p & Hk & Hp). apply list_elem_of_split in Hp as (l1 & l2 & Hl).
  pose proof (conf_keys_NoDup conf Hwf) as Hnd. unfold conf_keys in Hnd. rewrite Hl, fmap_app, fmap_cons in Hnd.
  apply NoDup_app in Hnd as (_ & Hd1 & [Hd2 _]%NoDup_cons).
  assert (∀ q, q ∈ l1 ++ l2 → ¬ peer_eq q server) as Hne.
  { intros q [Hq|Hq]%elem_of_app Heq%peer_eq_key.
    - apply (Hd1 (peer_key q)); [by apply list_elem_of_fmap_2|]. rewrite Heq, Hk. apply list_elem_of_here.
    - apply Hd2. rewrite <-Hk, <-Heq. by apply list_elem_of_fmap_2. }
  assert (peer_eq p server) as Hpe by (by apply peer_eq_key).
  assert (others = l1 ++ l2) as Ho.
  { unfold others, list_peers. rewrite Hl, filter_app, filter_cons, decide_False by naive_solver.
    rewrite <-filter_app. by apply list_filter_all. }
  rewrite Ho. unfold conf_size, heard_since, list_peers, at_least. rewrite Hl. split.
  - rewrite !zlen_app, zlen_cons. lia.
  - rewrite filter_app, filter_cons, decide_True by auto. rewrite zlen_app, zlen_cons, fmap_app, filter_app, zlen_app.
    assert (∀ l, l ⊆ l1 ++ l2 → zlen (filter (λ q, peer_eq q server ∨ t ≤ e_last_rpc_send_timestamp e q) l) =
      zlen (filter (λ x, t ≤ x) (e_last_rpc_send_timestamp e <$> l))) as Hcnt.
    { induction l as [|q l IH]; intros Hsub; [done|]. rewrite fmap_cons, !filter_cons.
      assert (¬ peer_eq q server) by (apply Hne, Hsub, list_elem_of_here).
      specialize (IH ltac:(intros ? ?; by apply Hsub, list_elem_of_further)).
      repeat case_decide; rewrite ?zlen_cons; naive_solver lia. }
    rewrite !Hcnt by (intros ? ?; apply elem_of_app; auto). lia.
Qed.

Lemma active_timestamp_spec e server conf :
  conf_wf conf → contains conf server = true →
  let t := last_leader_active_timestamp_of e server conf in
  conf_size conf / 2 + 1 ≤ heard_since e server conf t ∧
  (1 < conf_size conf → ∀ t', t < t' → heard_since e server conf t' < conf_size conf / 2 + 1).
Proof.
  intros Hwf Hin t. subst t. unfold last_leader_active_timestamp_of. set (others := filter _ (list_peers conf)).
  set (ts := e_last_rpc_send_timestamp e <$> others). change (zlen (list_peers conf)) with (conf_size conf).
  assert (zlen others = conf_size conf - 1) as Ho by (by apply (heard_split e server conf 0)).
  assert (∀ t, heard_since e server conf t = 1 + at_least t ts) as Hh by (intros t; by apply heard_split).
  assert (zlen ts = conf_size conf - 1) as Hts by (unfold ts, zlen in *; by rewrite length_fmap).
  pose proof (zlen_nonneg others) as Hpos. set (k := conf_size conf / 2).
  assert (0 ≤ k ∧ (1 < conf_size conf → 0 < k ≤ conf_size conf - 1) ∧ k ≤ conf_size conf / 2) as (Hk0 & Hk1 & Hk2).
  { unfold k. pose proof (Z.div_mod (conf_size conf) 2). pose proof (Z.mod_pos_bound (conf_size conf) 2). lia. }
  assert (latest k (foldl (push_bounded k) [] ts) (reverse ts ++ [])) as Hl.
  { apply push_all_latest; [done|]. split; [rewrite zlen_nil; lia|]. exists []. split; [done|]. by intros ? ? ?%not_elem_of_nil. }
  rewrite app_nil_r in Hl. assert (zlen (reverse ts) = zlen ts) as Hr by (unfold zlen; by rewrite length_reverse).
  destruct (foldl (push_bounded k) [] ts) as [|x heap].
  - destruct Hl as [Hz _]. rewrite zlen_nil in Hz. assert (conf_size conf = 1) as Hc by lia.
    rewrite Hh. unfold k. rewrite Hc. unfold at_least. pose proof (zlen_nonneg (filter (λ x, e_monotonic_ms e ≤ x) ts)).
    split; [change (1 / 2) with 0; lia|lia].
  - assert (1 < conf_size conf) as Hc.
    { destruct Hl as [Hz _]. rewrite zlen_cons in Hz. pose proof (zlen_nonneg heap).
      destruct (decide (1 < conf_size conf)); [done|]. assert (conf_size conf = 1) by lia. unfold k in *.
      assert (conf_size conf / 2 = 0) by (by rewrite H0). lia. }
    destruct (latest_min k x heap (reverse ts)) as [H1 H2]; [lia|done|].
    assert (∀ t, at_least t (reverse ts) = at_least t ts) as Hrev by (intros; apply at_least_perm, reverse_Permutation).
    rewrite Hh, <-Hrev. split; [lia|]. intros _ t' Ht'. rewrite Hh, <-Hrev. specialize (H2 t' Ht'). lia.
Qed.

(** C22. The lease of a leader is renewed with the right timestamp.  The
    timestamp [last_leader_active_timestamp] selects with a bounded heap is one
    since when a majority of the configuration (the leader with it) was heard
    of, and no later timestamp has that. *)
Theorem lease_timestamp_quorum (e : Env) (server : PeerId) (conf : Configuration)
    (Hwf : conf_wf conf) (Hin : contains conf server = true) :
  let t := last_leader_active_timestamp_of e server conf in
  conf_size conf / 2 + 1 ≤ heard_since e server conf t ∧
  (1 < conf_size conf → ∀ t', t < t' → heard_since e server conf t' < conf_size conf / 2 + 1).
Proof. by apply active_timestamp_spec. Qed.

(** The peers that may vote for another candidate: their lease does not keep
    them from it. *)
Definition free_voters (server : PeerId) (conf : Configuration) (follower : PeerId → FollowerLease)
    (clock : PeerId → Z) : list PeerId :=
  filter (λ p, ¬ peer_eq p server ∧ fl_votable_time_from_now true (clock p) (follower p) = 0) (list_peers conf).

Lemma free_voters_bound server conf follower clock (P : PeerId → Prop) `{!∀ p, Decision (P p)} :
  (∀ p, p ∈ list_peers conf → P p → p ∉ free_voters server conf follower clock) →
  zlen (free_voters server conf follower clock) + zlen (filter P (list_peers conf)) ≤ conf_size conf.
Proof.
  unfold free_voters, conf_size, list_peers. generalize (_peers conf). intros l. induction l as [|p l IH]; intros Hn; [done|].
  assert (∀ Q : PeerId → Prop, ∀ `{!∀ p, Decision (Q p)}, ∀ q, q ∈ filter Q l → q ∈ filter Q (p :: l)) as Hmono.
  { intros Q ? q [? ?]%list_elem_of_filter. apply list_elem_of_filter. by split; [|apply list_elem_of_further]. }
  assert (zlen (filter (λ p, ¬ peer_eq p server ∧ fl_votable_time_from_now true (clock p) (follower p) = 0) l) +
    zlen (filter P l) ≤ zlen l) as IH'.
  { apply IH. intros q Hq HP Hin. apply (Hn q); [by apply list_elem_of_further|done|by apply Hmono]. }
  rewrite !filter_cons, zlen_cons. repeat case_decide; rewrite ?zlen_cons; try lia.
  exfalso. apply (Hn p); [apply list_elem_of_here|done|]. apply list_elem_of_filter. by split; [|apply list_elem_of_here].
Qed.

(** ** The follower's side of a lease *)

Section follower.
Context {S M : Type} `{LogStorage S, RaftMetaStorage M} (fl : RaftFlags) (e : Env).
Implicit Types n : Node S M.

Definition keeps_lease {A} (f : NM S M A) : Prop :=
  ∀ n x n', f n = Some (x, n') → n_follower_lease n' = n_follower_lease n.

Lemma lease_kept_bind {A B} (f : NM S M A) (g : A → NM S M B) :
  keeps_lease f → (∀ x, keeps_lease (g x)) → keeps_lease (f ≫= g).
Proof.
  intros Hf Hg n x n' Hr. apply st_bind_Some in Hr as (y & n1 & Hy & Hr). etrans; [by eapply Hg|by eapply Hf].
Qed.

Lemma lease_kept_ret {A} (x : A) : keeps_lease (mret x : NM S M A).
Proof. by intros n y n' [= _ <-]. Qed.

Lemma lease_kept_get {A} (f : Node S M → A) : keeps_lease (st_get f : NM S M A).
Proof. by intros n y n' [= _ <-]. Qed.

Lemma lease_kept_lift {A} (o : option A) : keeps_lease (st_lift o : NM S M A).
Proof. by intros n y n' [_ ->]%st_lift_Some. Qed.

Lemma lease_kept_mod (f : Node S M → Node S M) :
  (∀ n, n_follower_lease (f n) = n_follower_lease n) → keeps_lease (st_mod f : NM S M unit).
Proof. intros Hf n y n' [= _ <-]. apply Hf. Qed.

Lemma lease_kept_cache_call {A} c (f : CM A) : keeps_lease (cache_call c f : NM S M A).
Proof. by intros n x n' ([a s] & _ & [= _ <-])%bind_Some. Qed.

Lemma lease_kept_new_closure c : keeps_lease (new_closure c : NM S M Closure).
Proof. by intros n x n' [= _ <-]. Qed.

Create HintDb lease.
#[local] Hint Resolve lease_kept_ret lease_kept_get lease_kept_lift lease_kept_cache_call lease_kept_new_closure : lease.

Ltac keeps := repeat first [solve [auto with lease]|apply lease_kept_bind; [|intros ?]
  |apply lease_kept_mod; intros ?; solve [reflexivity|by repeat case_match]|case_match|case_decide].

Lemma lease_kept_out_of_order rpc i : keeps_lease (handle_out_of_order_append_entries fl e rpc i : NM S M bool).
Proof. unfold handle_out_of_order_append_entries, drop_empty_cache. keeps. Qed.

Lemma lease_kept_accept rpc : keeps_lease (accept_append_entries rpc : NM S M unit).
Proof.
  unfold accept_append_entries, check_append_entries_cache, drop_empty_cache, log_call, check_and_set_configuration. keeps.
Qed.

Lemma lease_kept_box_call f : keeps_lease (box_call f : NM S M unit).
Proof. unfold box_call, emit_ev. keeps. Qed.
#[local] Hint Resolve lease_kept_out_of_order lease_kept_accept lease_kept_box_call : lease.

(** A reply the leader does not count: the RPC failed, or it has a newer term. *)
Definition refuses (rpc : AppendEntriesRpc) (ev : NodeEvent) : Prop :=
  match ev with
  | EvAppendEntriesReply r _ response =>
      r = rpc ∧ match response with Some a => ae_term (rpc_request rpc) < aer_term a | None => True end
  | _ => False
  end.

(** A request that is not refused renews the lease, whatever comes of its
    entries. *)
Lemma append_entries_renews rpc n u n' :
  handle_append_entries_request fl e rpc false n = Some (u, n') → Forall (λ ev, ¬ refuses rpc ev) (n_out n') →
  fl_last_leader_timestamp (n_follower_lease n') = e_monotonic_ms e.
Proof.
  intros Hr Hno. unfold handle_append_entries_request in Hr.
  assert (∀ n0 evs ev, n_out n' = n_out n0 ++ evs → ev ∈ evs → refuses rpc ev → False) as Hout.
  { intros n0 evs ev Ho Hev. rewrite Ho in Hno. apply Forall_app in Hno as [_ Hno]. rewrite Forall_forall in Hno. by apply Hno. }
  apply st_bind_Some in Hr as (st & ? & [= <- <-] & Hr).
  destruct (negb _); [injection Hr as <- <-; exfalso; by eapply (Hout n _ _ eq_refl (list_elem_of_here _ _))|].
  apply st_bind_Some in Hr as ([server rc] & ? & [_ ->]%st_lift_Some & Hr).
  case_decide; [injection Hr as <- <-; exfalso; by eapply (Hout n _ _ eq_refl (list_elem_of_here _ _))|].
  apply st_bind_Some in Hr as (cur & ? & [= <- <-] & Hr).
  case_decide; [injection Hr as <- <-; exfalso; by eapply (Hout n _ _ eq_refl (list_elem_of_here _ _))|].
  apply st_bind_Some in Hr as ([] & n1 & _ & Hr). apply st_bind_Some in Hr as (leader & ? & [= <- <-] & Hr).
  case_decide.
  { apply st_bind_Some in Hr as ([] & n2 & _ & [= <- <-]). exfalso.
    eapply (Hout n2 _ _ eq_refl (list_elem_of_here _ _)). split; [done|]. cbn. lia. }
  apply st_bind_Some in Hr as ([] & n2 & [= <-] & Hr).
  match type of Hr with ?f _ = _ => assert (keeps_lease f) as Hk end.
  { unfold reply_append_entries, emit_ev. keeps. }
  by rewrite (Hk _ _ _ Hr).
Qed.
End follower.

(** Renewals of a lease, none before [t]. *)
Definition renewed_since (t : Z) (f f' : FollowerLease) : Prop :=
  ∃ l : list (Z * PeerId), Forall (λ x, t ≤ x.1) l ∧ f' = foldl (λ f x, fl_renew f x.1 x.2) f l.

Lemma renewed_since_timestamp t f f' :
  renewed_since t f f' → t ≤ fl_last_leader_timestamp f → t ≤ fl_last_leader_timestamp f'.
Proof.
  intros (l & Hl & ->). revert f. induction Hl as [|x l Hx Hl IH]; intros f Hf; cbn; [done|]. by apply IH.
Qed.

Section lease.
Context {S M : Type} `{LogStorage S, RaftMetaStorage M} (fl : RaftFlags).

(** A follower handled a request of the leader without refusing it, at
    [e_monotonic_ms] of its own clock; since then its lease was only renewed,
    and its clock went on by no more than the leader's did since [sent], up to
    the drift. *)
Definition acknowledged (f : FollowerLease) (clock now sent : Z) : Prop :=
  ∃ (e : Env) (rpc : AppendEntriesRpc) (n n' : Node S M) u,
    handle_append_entries_request fl e rpc false n = Some (u, n') ∧ Forall (λ ev, ¬ refuses rpc ev) (n_out n') ∧
    renewed_since (e_monotonic_ms e) (n_follower_lease n') f ∧
    clock - e_monotonic_ms e ≤ now - sent + fl_max_clock_drift_ms f.

Lemma lease_bounds_voters (e : Env) server conf t now timeout follower clock :
  conf_wf conf → contains conf server = true → t ≤ last_leader_active_timestamp_of e server conf →
  now < t + timeout →
  (∀ p, p ∈ list_peers conf → ¬ peer_eq p server → t ≤ e_last_rpc_send_timestamp e p →
     timeout ≤ fl_election_timeout_ms (follower p) ∧
     acknowledged (follower p) (clock p) now (e_last_rpc_send_timestamp e p)) →
  ¬ majority conf (peer_key <$> free_voters server conf follower clock).
Proof.
  intros Hwf Hin Ht Hnow Hack. destruct (active_timestamp_spec e server conf Hwf Hin) as [Hq _]. unfold heard_since in Hq.
  pose proof (free_voters_bound server conf follower clock (λ p, peer_eq p server ∨
    last_leader_active_timestamp_of e server conf ≤ e_last_rpc_send_timestamp e p)) as Hb.
  assert (zlen (acked conf (peer_key <$> free_voters server conf follower clock)) ≤
          zlen (free_voters server conf follower clock)) as Hacked.
  { unfold acked, zlen. rewrite <-(length_fmap peer_key (free_voters _ _ _ _)). apply inj_le, submseteq_length.
    apply NoDup_submseteq; [apply NoDup_filter, conf_keys_NoDup, Hwf|]. by intros k [? _]%list_elem_of_filter. }
  unfold majority. pose proof (Z.div_mod (conf_size conf) 2). pose proof (Z.mod_pos_bound (conf_size conf) 2).
  cut (zlen (free_voters server conf follower clock) + (conf_size conf / 2 + 1) ≤ conf_size conf); [lia|].
  etrans; [apply Z.add_le_mono_l, Hq|apply Hb]. intros p Hp Hor Hfree.
  apply list_elem_of_filter in Hfree as ((Hne & Hv) & _). destruct Hor as [|Hts]; [done|].
  destruct (Hack p Hp Hne ltac:(lia)) as [He (ep & rpc & n & n' & u & Hr & Hno & Hren & Hclk)].
  pose proof (append_entries_renews fl ep rpc n u n' Hr Hno) as Hts'.
  pose proof (renewed_since_timestamp _ _ _ Hren ltac:(lia)). apply fl_votable_iff in Hv. lia.
Qed.

End lease.

Definition ex_lease_env (ts : PeerId → Z) : Env :=
  mkEnv 1000 1000 (λ _, 0) false (λ _, 0) (λ _, 0) ts (λ _, false) None (λ _ _, 0).

Lemma lease_timestamp_quorum_witness :
  let e := ex_lease_env (λ p, 100 * ip (addr p)) in
  last_leader_active_timestamp_of e (ex_peer 1) ex_conf3 = 300 ∧ 2 ≤ heard_since e (ex_peer 1) ex_conf3 300.
Proof.
  split; [by vm_compute|].
  apply (lease_timestamp_quorum (ex_lease_env (λ p, 100 * ip (addr p))) (ex_peer 1) ex_conf3);
    [apply conf_of_vector_wf|by vm_compute].
Defined.

(** ** Giving a vote away *)

Section votes.
Context {S M : Type} `{LogStorage S, RaftMetaStorage M} (fl : RaftFlags) (e : Env).
Implicit Types n : Node S M.

Lemma reply_request_vote_keeps r p prev d rj n u n' :
  reply_request_vote r p prev d rj n = Some (u, n') →
  n_voted_id n' = n_voted_id n ∧ n_current_term n' = n_current_term n ∧ n_out n ⊆ n_out n'.
Proof.
  unfold reply_request_vote. intros Hr. do 2 apply st_bind_Some in Hr as (? & ? & [= <- <-] & Hr).
  injection Hr as <- <-. split_and!; [done..|]. cbn. set_solver.
Qed.

(** Storing a vote that stays. *)
Lemma cast_vote_stored p n u n' :
  (st_mod (with_voted_id p);; now_term ← st_get n_current_term;
   rc ← set_term_and_votedfor now_term p;
   if decide (rc ≠ 0) then st_mod (with_voted_id empty_peer) else mret tt) n = Some (u, n') →
  peer_key (n_voted_id n') ≠ key0 → EvSetMeta (n_current_term n') p 0 ∈ n_out n'.
Proof.
  intros Hr Hv. apply st_bind_Some in Hr as ([] & n1 & [= <-] & Hr).
  apply st_bind_Some in Hr as (t & n2 & [= <- <-] & Hr). apply st_bind_Some in Hr as (rc & n3 & Hs & Hr).
  unfold set_term_and_votedfor in Hs. apply st_bind_Some in Hs as (m & n4 & [= <- <-] & Hs).
  apply st_bind_Some in Hs as ([rc' m'] & n5 & [_ ->]%st_lift_Some & Hs).
  do 2 apply st_bind_Some in Hs as ([] & ? & [= <-] & Hs). injection Hs as <- <-.
  case_decide as Hrc; injection Hr as <- <-; [by destruct Hv|]. assert (rc' = 0) as -> by naive_solver.
  cbn. apply elem_of_app. right. apply list_elem_of_here.
Qed.

(** A request for a vote that ends with a vote for the candidate that the node
    had not given before: the candidate's last log id is at least the one the
    log manager answered, no leader's lease keeps the node from voting, and the
    vote is stored in the node's term. *)
Lemma vote_granted (request : RequestVoteRequest) (candidate_id : PeerId) (previous_term : Z)
    (last_log_id : LogId) (n n' : Node S M) (u : unit)
    (Hrun : handle_request_vote_request_resume fl e request candidate_id previous_term last_log_id n = Some (u, n'))
    (Hvoted : peer_eq (n_voted_id n') candidate_id) (Hnew : ¬ peer_eq (n_voted_id n) candidate_id)
    (Hcand : peer_is_empty candidate_id = false) :
  logid_ge (mkLogId (rv_last_log_index request) (rv_last_log_term request)) last_log_id ∧
  fl_votable_time_from_now (raft_enable_leader_lease fl) (e_monotonic_ms e) (n_follower_lease n) ≤ 0 ∧
  EvSetMeta (n_current_term n') candidate_id 0 ∈ n_out n'.
Proof.
  rewrite peer_is_empty_key in Hcand. apply bool_decide_eq_false in Hcand. apply peer_eq_key in Hvoted.
  rewrite peer_eq_key in Hnew. unfold handle_request_vote_request_resume in Hrun.
  apply st_bind_Some in Hrun as (t & ? & [= <- <-] & Hr).
  case_decide; [exfalso; apply reply_request_vote_keeps in Hr as (Hv & _); rewrite Hv in Hvoted; by apply Hnew|].
  apply st_bind_Some in Hr as (vt & n1 & Hvt & Hr).
  unfold votable_time_from_now in Hvt. apply st_bind_Some in Hvt as (f & ? & [= <- <-] & [= <- <-]).
  case_decide as Hvt; [exfalso; apply reply_request_vote_keeps in Hr as (Hv & _); rewrite Hv in Hvoted; by apply Hnew|].
  apply st_bind_Some in Hr as (state & ? & [= <- <-] & Hr). apply st_bind_Some in Hr as (d & n1 & Hd & Hr).
  assert (no_new_vote n n1) as Hn1.
  { case_decide; [|injection Hd as <- <-; by left]. apply st_bind_Some in Hd as (? & ? & Hsd & [= <- <-]).
    by apply (no_new_vote_step_down e []) in Hsd. }
  apply st_bind_Some in Hr as (voted & ? & [= <- <-] & Hr). apply st_bind_Some in Hr as (? & n2 & Hc & Hr).
  apply reply_request_vote_keeps in Hr as (Hv2 & Ht2 & Ho2). rewrite Hv2 in Hvoted. rewrite Ht2.
  destruct (bool_decide (logid_ge _ _)) eqn:Hlog; cbn [andb] in Hc.
  2:{ injection Hc as <- <-. destruct Hn1; congruence. }
  apply bool_decide_eq_true in Hlog. destruct (peer_is_empty _).
  2:{ injection Hc as <- <-. destruct Hn1; congruence. }
  apply st_bind_Some in Hc as (? & n3 & _ & Hc).
  split; [done|]. split; [lia|]. apply Ho2. eapply cast_vote_stored; [exact Hc|]. congruence.
Qed.
End votes.
