(* ===== verification/NodeRun.v ===== *)
(** * The life of a node

    [NodeImpl::init] of src/melon/raft/node.cc, and everything that can happen
    to a node that is up: [NodeInput] lists the entry points of NodeVote.v and
    NodeLog.v (rpc handlers, timers, user calls, answers of other components)
    with the steps of the log manager's disk thread, and [node_step] runs
    one. *)

From stdpp Require Import prelude.
From S2P Require Import Prelude StdContainers Configuration Ballot ClosureQueue BallotBox PeerText.
From S2P Require Import ConfigurationManager LogStorage LogManager StateMonad Messages Lease MetaStorage.
From S2P Require Import AppendEntriesCache NodeState NodeVote NodeLog.
Local Open Scope Z_scope.

(** What the components [init] sets up answer: the log storage is the result
    of its own [init]; the snapshot executor, if there is a snapshot uri, gives
    its status and the meta of the snapshot it loaded. *)
Record InitEnv (S : Type) := mkInitEnv {
  ie_server_exists : bool;
  ie_queue_start : Z;
  ie_queue_address : bool;
  ie_log_storage : Z * S * ConfigurationManager;
  ie_fsm_caller : Z;
  ie_snapshot : option (Z * option SnapshotMeta);
  ie_node_manager_add : bool;
}.
#[global] Arguments mkInitEnv {S}.
#[global] Arguments ie_server_exists {S}.
#[global] Arguments ie_queue_start {S}.
#[global] Arguments ie_queue_address {S}.
#[global] Arguments ie_log_storage {S}.
#[global] Arguments ie_fsm_caller {S}.
#[global] Arguments ie_snapshot {S}.
#[global] Arguments ie_node_manager_add {S}.

Section node.
Context {S M : Type} `{LogStorage S, RaftMetaStorage M} (fl : RaftFlags) (e : Env).
Abbreviation N := (NM S M).

(** ** [init] *)

Definition init_meta_storage : N Z :=
  m ← st_get n_meta_storage;
  '(rc, m1) ← st_lift (ms_init m);
  st_mod (with_meta_storage m1);;
  if decide (rc ≠ 0) then mret rc
  else
    '(rc1, (current, voted), m2) ← st_lift (ms_get_term_and_votedfor m1);
    st_mod (with_meta_storage m2);;
    if decide (rc1 ≠ 0) then mret rc1
    else
      st_mod (with_current_term current);;
      st_mod (with_voted_id voted);;
      lm ← st_get n_log_manager;
      last_log_id ← st_lift (lm_last_log_id lm);
      if decide (current < term last_log_id) then
        st_mod (with_current_term (term last_log_id + 1));;
        st_mod (with_voted_id empty_peer);;
        set_term_and_votedfor (term last_log_id + 1) empty_peer
      else mret 0.

(** The timers and leases of the options. *)
Definition init_timers (o : NodeOptions) : list NodeEvent :=
  let t := no_election_timeout_ms o in
  (if no_witness o then
     if raft_enable_witness_to_leader fl then
       [EvTimerInit ElectionTimer (t * 2); EvTimerInit VoteTimer (t * 2 + no_max_clock_drift_ms o)]
     else []
   else [EvTimerInit ElectionTimer t; EvTimerInit VoteTimer (t + no_max_clock_drift_ms o)]) ++
  [EvTimerInit StepdownTimer t; EvTimerInit SnapshotTimer (no_snapshot_interval_s o * 1000)].

(** [init] after [init_meta_storage], and from its call on. *)
Definition init_running (node_manager_add : bool) : N Z :=
  current ← st_get n_current_term;
  voted ← st_get n_voted_id;
  (if bool_decide (current = 1) && peer_is_empty voted
   then st_mod (λ n, with_follower_lease (fl_reset (n_follower_lease n)) n) else mret tt);;
  o ← st_get n_options;
  emit_ev [EvReplicatorIntervals (heartbeat_timeout fl (no_election_timeout_ms o)) (no_election_timeout_ms o)];;
  st_mod (with_state STATE_FOLLOWER);;
  has_executor ← st_get n_snapshot_executor;
  (if has_executor && bool_decide (no_snapshot_interval_s o > 0)
   then emit_ev [EvTimerStart SnapshotTimer] else mret tt);;
  conf ← st_get n_conf;
  (if ce_empty conf then mret tt else step_down e current false 0);;
  if negb node_manager_add then mret (-1)
  else
    conf' ← st_get n_conf;
    server ← st_get n_server_id;
    (if ce_stable conf' && bool_decide (conf_size (ce_conf conf') = 1) && contains (ce_conf conf') server
     then elect_self false else mret tt);;
    mret 0.

Definition init_started (node_manager_add : bool) : N Z :=
  rc ← init_meta_storage;
  if decide (rc ≠ 0) then mret (-1) else init_running node_manager_add.

(** [NodeImpl(group_id, peer_id)] and [init(options)] on the meta storage
    object [meta]: the status, and the node unless it was given up before it
    had its parts. *)
Definition init (group_id : list Z) (server_id : PeerId) (options : NodeOptions) (ie : InitEnv S) (meta : M)
    (sys : list Z) : option (Z * option (Node S M)) :=
  let '(log_rc, s, cm) := ie_log_storage ie in
  let '(box, box_rc) := bb_init true (Some cq_new) in
  if decide (ip (addr server_id) = 0) then Some (-1, None)
  else if negb (ie_server_exists ie) then Some (-1, None)
  else if decide (ie_queue_start ie ≠ 0) then Some (-1, None)
  else if negb (ie_queue_address ie) then Some (-1, None)
  else if decide (log_rc ≠ 0) then Some (-1, None)
  else
    lm ← lm_init s cm;
    if decide (ie_fsm_caller ie ≠ 0) then Some (-1, None)
    else if decide (box_rc ≠ 0) then Some (-1, None)
    else
      let '(snapshot_rc, snapshot) := default (0, None) (ie_snapshot ie) in
      if decide (snapshot_rc ≠ 0) then Some (-1, None)
      else
        lm1 ← match snapshot with Some sm => lm_set_snapshot lm sm | None => Some lm end;
        rc ← lm_check_consistency lm1;
        if decide (rc ≠ 0) then Some (-1, None)
        else
          let conf0 := mkConfigurationEntry zero_id conf_new conf_new in
          let conf := if decide (0 < lm_last_log_index lm1) then (lm_check_and_set_configuration lm1 conf0).1
                      else mkConfigurationEntry zero_id (no_initial_conf options) conf_new in
          let t := no_election_timeout_ms options in
          let lease := fl_init fl_new (e_monotonic_ms e) (if no_witness options then t * 2 else t)
                         (no_max_clock_drift_ms options) in
          '(rc, n) ← init_started (ie_node_manager_add ie)
            (mkNode group_id server_id options STATE_UNINITIALIZED 0 empty_peer empty_peer vc_new vc_new
               conf cc_init meta lm1 box (bool_decide (ie_snapshot ie ≠ None)) None false [] None 0 false false
               (ll_init ll_new t) lease [] 0 [] sys (init_timers options));
          Some (rc, Some n).

(** ** Inputs *)

Inductive NodeInput :=
  (* timers *)
  | InElectionTimeout
  | InVoteTimeout
  | InStepdownTimeout
  | InGrantSelfTimeout (w : WhichCtx) (ctx_version : Z)
  | InTransferTimeout (term : Z) (peer : PeerId)
  | InCacheTimeout (cache_version timer_version timer_start_ms : Z)
  (* rpc *)
  | InPreVoteRequest (request : RequestVoteRequest)
  | InRequestVoteRequest (request : RequestVoteRequest)
  | InPreVoteResponse (peer : PeerId) (term ctx_version : Z) (response : RequestVoteResponse)
  | InRequestVoteResponse (peer : PeerId) (term ctx_version : Z) (response : RequestVoteResponse)
  | InTimeoutNow (request : TimeoutNowRequest)
  | InAppendEntries (rpc : AppendEntriesRpc) (from_append_entries_cache : bool)
  | InInstallSnapshot (request : InstallSnapshotRequest)
  (* calls that waited for [last_log_id(true)] *)
  | InEnterLastLogId (i : nat)
  | InResume (i : nat)
  (* the user *)
  | InApply (tasks : list LogEntryAndClosure)
  | InAddPeer (peer : PeerId) (done : option Z)
  | InRemovePeer (peer : PeerId) (done : option Z)
  | InChangePeers (new_peers : Configuration) (done : option Z)
  | InResetPeers (new_peers : Configuration)
  | InTransferLeadership (peer : PeerId)
  | InVote (election_timeout_ms : Z)
  | InResetElectionTimeout (election_timeout_ms : Z)
  | InSetReadonly (b : bool)
  | InLeaseStatus (now : Z)
  | InReadUserLog (index last_applied_index : Z)
  | InShutdown (done : option Z)
  (* replicators *)
  | InCaughtup (peer : PeerId) (term version st : Z)
  | InCommitAt (first_log_index last_log_index : Z) (peer : PeerId)
  | InIncreaseTerm (new_term status : Z)
  | InChangeReadonly (term : Z) (peer : PeerId) (readonly : bool)
  (* state machine caller and snapshot executor *)
  | InRunClosure (c : Closure) (status : Z)
  | InSetApplied (applied_id : LogId)
  | InSetSnapshot (meta : SnapshotMeta)
  | InClearBufferedLogs
  | InSnapshotInstalled
  | InError (error : Z)
  | InAfterShutdown
  (* log manager *)
  | InLogEvent (i : nat)
  | InDiskStart
  | InDiskStep
  | InDiskEnd.

Definition ignore {A} (m : N A) : N unit := m;; mret tt.

Definition node_step (i : NodeInput) : N unit :=
  match i with
  | InElectionTimeout => handle_election_timeout e
  | InVoteTimeout => handle_vote_timeout fl e
  | InStepdownTimeout => handle_stepdown_timeout e
  | InGrantSelfTimeout w v => handle_grant_self_timedout fl e w v
  | InTransferTimeout t p => handle_transfer_timeout t p
  | InCacheTimeout cv tv ms => handle_append_entries_cache_timedout cv tv ms
  | InPreVoteRequest r => handle_pre_vote_request r
  | InRequestVoteRequest r => handle_request_vote_request r
  | InPreVoteResponse p t v resp => handle_pre_vote_response e p t v resp
  | InRequestVoteResponse p t v resp => handle_request_vote_response e p t v resp
  | InTimeoutNow r => handle_timeout_now_request fl e r
  | InAppendEntries rpc c => handle_append_entries_request fl e rpc c
  | InInstallSnapshot r => handle_install_snapshot_request e r
  | InEnterLastLogId i => enter_last_log_id i
  | InResume i => resume fl e i
  | InApply tasks => apply tasks
  | InAddPeer p d => node_add_peer e p d
  | InRemovePeer p d => node_remove_peer e p d
  | InChangePeers ps d => change_peers e ps d
  | InResetPeers ps => ignore (reset_peers e ps)
  | InTransferLeadership p => ignore (transfer_leadership_to e p)
  | InVote ms => ignore (node_vote fl ms)
  | InResetElectionTimeout ms => ignore (reset_election_timeout_ms fl ms)
  | InSetReadonly b => set_node_readonly b
  | InLeaseStatus now => ignore (get_leader_lease_status fl e now)
  | InReadUserLog i a => ignore (read_committed_user_log i a)
  | InShutdown d => shutdown e d
  | InCaughtup p t v st => on_caughtup e p t v st
  | InCommitAt f l p => box_call (λ b, bb_commit_at b f l p)
  | InIncreaseTerm t st => ignore (increase_term_to e t st)
  | InChangeReadonly t p ro => ignore (change_readonly_config e t p ro)
  | InRunClosure c st => run_closure e c st
  | InSetApplied a => log_call (λ m, Some (lm_set_applied_id m a))
  | InSetSnapshot sm => log_call (λ m, lm_set_snapshot m sm)
  | InClearBufferedLogs => log_call lm_clear_bufferred_logs
  | InSnapshotInstalled => update_configuration_after_installing_snapshot
  | InError err => on_error e err
  | InAfterShutdown => after_shutdown
  | InLogEvent i => log_event e i
  | InDiskStart => log_call disk_start
  | InDiskStep => log_call disk_step
  | InDiskEnd => log_call disk_end
  end.
End node.
