(* ===== verification/NodeStep.v ===== *)
(** * Every input is a sequence of core steps

    The handlers of NodeLog.v change the part of a node that elections depend
    on only by stepping down and by moving between the two states of a leader,
    so that each input of NodeRun.v is a sequence of the steps of NodeCore.v. *)

From stdpp Require Import prelude.
From S2P Require Import Prelude StdContainers Configuration Ballot ClosureQueue BallotBox PeerText.
From S2P Require Import LogStorage LogManager StateMonad Messages Lease MetaStorage AppendEntriesCache.
From S2P Require Import NodeState NodeVote NodeCore NodeLog NodeRun.
Local Open Scope Z_scope.

Section rel_log.
Context {S M : Type} `{LogStorage S, RaftMetaStorage M} (fl : RaftFlags) (e : Env).
Context (G : Z → pkey → Prop) (past : list NodeEvent).
Abbreviation nrel := (nrel (S := S) (M := M) G past).
Abbreviation ceq := (ceq (S := S) (M := M) past).
Abbreviation nto := (nto (S := S) (M := M) G past).
#[local] Hint Resolve ceq_conf_ctx_reset ceq_conf_ctx_flush ceq_answer_last_log_id : node_core.
#[local] Hint Resolve nrel_step_down nrel_check_step_down : node_core.

(** ** Configuration changes and the log *)

Lemma ceq_apply_tasks ts : ceq (apply_tasks ts).
Proof. induction ts as [|t ts IH]; cbn [apply_tasks]; unfold fail_task; ceq_tac; exact IH. Qed.

Lemma ceq_apply ts : ceq (apply ts).
Proof. unfold apply, fail_task. pose proof ceq_apply_tasks. ceq_tac; eauto. Qed.

Lemma nrel_next_stage : nrel (conf_ctx_next_stage e).
Proof. unfold conf_ctx_next_stage. nrel_tac. Qed.
#[local] Hint Resolve nrel_next_stage : node_core.

Lemma nrel_conf_caughtup v p b : nrel (conf_ctx_on_caughtup e v p b).
Proof. unfold conf_ctx_on_caughtup. nrel_tac. Qed.
#[local] Hint Resolve nrel_conf_caughtup : node_core.

Lemma ceq_wait_caughtup p v : ceq (wait_caughtup e p v).
Proof. unfold wait_caughtup. ceq_tac. Qed.
#[local] Hint Resolve ceq_wait_caughtup : node_core.

Lemma nrel_start_catchup v ps : nrel (start_catchup e v ps).
Proof. induction ps as [|p ps IH]; cbn [start_catchup]; nrel_tac; exact IH. Qed.
#[local] Hint Resolve nrel_start_catchup : node_core.

Lemma nrel_register oc nc d : nrel (unsafe_register_conf_change e oc nc d).
Proof. unfold unsafe_register_conf_change, conf_ctx_start. nrel_tac. Qed.
#[local] Hint Resolve nrel_register : node_core.

Lemma nrel_reset_peers c : nrel (reset_peers e c).
Proof. unfold reset_peers. nrel_tac. Qed.

Lemma nrel_change_done t : nrel (on_configuration_change_done e t).
Proof. unfold on_configuration_change_done. nrel_tac. Qed.

Lemma nrel_on_caughtup p t v st : nrel (on_caughtup e p t v st).
Proof. unfold on_caughtup. nrel_tac. Qed.

Lemma nrel_stepdown_timeout : nrel (handle_stepdown_timeout e).
Proof. unfold handle_stepdown_timeout, check_witness, check_dead_nodes. nrel_tac. Qed.

(** ** Transferring the leadership *)

Lemma nto_transfer_timeout t p c : nto c c (handle_transfer_timeout t p).
Proof.
  unfold handle_transfer_timeout. nto_run. case_decide; [|apply nto_ret, rtc_refl]. nto_run.
  case_decide as Hst; [|apply nto_ret, rtc_refl]. nto_run.
  apply nto_ceq; [ceq_tac|]. apply rtc_once, cs_transfer; [by right|by left].
Qed.

Lemma nrel_transfer p : nrel (transfer_leadership_to e p).
Proof.
  apply nrel_nto. intros c Hok. unfold transfer_leadership_to. nto_run.
  case_decide as Hst; [apply nto_ret, rtc_refl|]. destruct (cc_is_busy _); [apply nto_ret, rtc_refl|].
  destruct (if decide _ then _ else _) as [q|]; [|apply nto_ret, rtc_refl].
  case_decide; [apply nto_ret, rtc_refl|]. destruct (negb _); [apply nto_ret, rtc_refl|]. nto_run.
  case_decide; [apply nto_ret, rtc_refl|]. nto_run.
  apply nto_sync; [apply rtc_once, cs_transfer; [by left|by right]|intros _].
  case_decide; [|apply nto_ceq; [ceq_tac|apply rtc_refl]].
  apply nto_bind; [apply nto_transfer_timeout|]. intros _ c' _. apply nto_ret, rtc_refl.
Qed.

(** ** AppendEntries and snapshots *)

Lemma ceq_drop_empty_cache : ceq drop_empty_cache.
Proof. apply ceq_mod. intros n. destruct (n_cache n) as [c|]; [|done]. by destruct (ac_empty c). Qed.
#[local] Hint Resolve ceq_drop_empty_cache : node_core.

Lemma ceq_out_of_order r l : ceq (handle_out_of_order_append_entries fl e r l).
Proof. unfold handle_out_of_order_append_entries. ceq_tac. Qed.
Lemma ceq_check_cache l : ceq (check_append_entries_cache l).
Proof. unfold check_append_entries_cache. ceq_tac. Qed.
#[local] Hint Resolve ceq_out_of_order ceq_check_cache : node_core.

Lemma ceq_cache_timeout a b c : ceq (handle_append_entries_cache_timedout a b c).
Proof. unfold handle_append_entries_cache_timedout. ceq_tac. Qed.

Lemma ceq_accept rpc : ceq (accept_append_entries rpc).
Proof. unfold accept_append_entries. ceq_tac. Qed.
Lemma ceq_reply_append r t s l ro : ceq (reply_append_entries r t s l ro).
Proof. unfold reply_append_entries. ceq_tac. Qed.
#[local] Hint Resolve ceq_accept ceq_reply_append : node_core.

Lemma nrel_append_entries rpc c : nrel (handle_append_entries_request fl e rpc c).
Proof. unfold handle_append_entries_request. nrel_tac. Qed.

Lemma nrel_install_snapshot r : nrel (handle_install_snapshot_request e r).
Proof. unfold handle_install_snapshot_request. nrel_tac. Qed.

(** ** Closures and the log manager's calls *)

Lemma ceq_active_timestamp : ceq (last_leader_active_timestamp e).
Proof. unfold last_leader_active_timestamp. ceq_tac. Qed.
#[local] Hint Resolve ceq_active_timestamp nrel_change_done : node_core.

Lemma ceq_lease_start ep : ceq (leader_lease_start e ep).
Proof. unfold leader_lease_start. ceq_tac. Qed.
#[local] Hint Resolve ceq_lease_start : node_core.

Lemma nrel_lease_status now : nrel (get_leader_lease_status fl e now).
Proof. unfold get_leader_lease_status. nrel_tac. Qed.

Lemma nrel_run_closure c st : nrel (run_closure e c st).
Proof. unfold run_closure, run_node_closure. nrel_tac. Qed.
#[local] Hint Resolve nrel_run_closure : node_core.

Lemma nrel_log_event i : nrel (log_event e i).
Proof. unfold log_event. nrel_tac. Qed.

(** ** Modes, errors and the end *)

Lemma ceq_reset_timeout a b : ceq (unsafe_reset_election_timeout_ms fl a b).
Proof. unfold unsafe_reset_election_timeout_ms. ceq_tac. Qed.
#[local] Hint Resolve ceq_reset_timeout : node_core.

Lemma nrel_on_error err : nrel (on_error e err).
Proof. unfold on_error. nrel_tac. by apply nrel_state. Qed.

Lemma nrel_shutdown d : nrel (shutdown e d).
Proof. unfold shutdown. nrel_tac; by apply nrel_state. Qed.

Lemma nrel_after_shutdown : nrel after_shutdown.
Proof.
  unfold after_shutdown. nrel_tac; [by apply nrel_state|].
  apply ceq_nrel, ceq_emit. by apply Forall_fmap, Forall_true.
Qed.

Lemma ceq_read_user_log fuel i a : ceq (read_user_log fuel i a).
Proof.
  revert i. induction fuel as [|fuel IH]; intros i; cbn [read_user_log]; ceq_tac.
Qed.
#[local] Hint Resolve ceq_read_user_log : node_core.

(** ** All inputs *)

(** What a node can rely on of an input: timers and answers belong to a vote
    context of its own, a vote it is told it has was given, and nobody asks it
    for a vote in its own name. *)
Definition input_ok (c : Core M) (i : NodeInput) : Prop :=
  match i with
  | InGrantSelfTimeout VoteCtx v => v ∈ c_armed c
  | InRequestVoteResponse p t v resp => v ∈ c_armed c ∧ (rvr_granted resp = true → G t (peer_key p))
  | InRequestVoteRequest r =>
      ∀ p rc, peer_parse (rv_server_id r) = Some (p, rc) → rc = 0 → peer_key p ≠ c_self c
  | _ => True
  end.

#[local] Hint Resolve nrel_election_timeout nrel_vote_timeout nrel_stepdown_timeout nrel_pre_vote_response
  nrel_timeout_now nrel_append_entries nrel_install_snapshot nrel_reset_peers nrel_transfer nrel_lease_status
  nrel_shutdown nrel_on_caughtup nrel_on_error nrel_after_shutdown nrel_log_event : node_core.
#[local] Hint Resolve ceq_cache_timeout ceq_apply : node_core.

Lemma node_step_rel i n u n' :
  input_ok (core past n) i → node_step fl e i n = Some (u, n') → node_rel G past n n'.
Proof.
  intros Hi Hr.
  assert (nrel (node_step fl e i) → node_rel G past n n') as Hn by (intros Hm; by eapply Hm).
  destruct i; cbn [node_step input_ok] in *; try (apply Hn; unfold ignore, node_add_peer, node_remove_peer,
    change_peers, node_vote, reset_election_timeout_ms, set_node_readonly, read_committed_user_log,
    increase_term_to, change_readonly_config, update_configuration_after_installing_snapshot; by nrel_tac).
  - intros Hok. eapply nto_grant_self_timedout; [|done..]. by intros ->.
  - intros Hok. by eapply nto_transfer_timeout.
  - intros Hok. by eapply nto_request_vote_request.
  - intros Hok. destruct Hi. by eapply nto_request_vote_response.
  - apply node_rel_eq. by eapply enter_last_log_id_eq.
  - by eapply resume_rel.
Qed.
End rel_log.

(** ** A new life *)

Section init.
Context {S M : Type} `{LogStorage S} `{Hms : RaftMetaStorage M} `{!RaftMetaLaws M} (fl : RaftFlags) (e : Env).
Context (G : Z → pkey → Prop) (past : list NodeEvent).
Implicit Types (n : Node S M) (c : Core M) (d : Z * PeerId).

(** What a start may do to the medium. *)
Definition durable_next d d' : Prop := d' = d ∨ (d.1 < d'.1 ∧ peer_key d'.2 = key0).

(** The core of a node that took its term and vote from the medium. *)
Record fresh c : Prop := mkFresh {
  fr_state : c_state c = STATE_UNINITIALIZED;
  fr_wf : ms_wf (c_meta c);
  fr_term : c_term c = (ms_durable (c_meta c)).1;
  fr_voted : c_voted c = peer_key (ms_durable (c_meta c)).2;
  fr_elects : c_elects c = [];
  fr_cands : c_cands c = [];
  fr_armed : c_armed c = [];
  fr_failed : c_failed c = [];
  fr_cast : c_cast c = omap ev_cast past;
  fr_replies : c_replies c = omap ev_reply past;
}.

(** Before [init_meta_storage]: no term, no vote and nothing said. *)
Definition blank c : Prop :=
  c_state c = STATE_UNINITIALIZED ∧ c_elects c = [] ∧ c_cands c = [] ∧ c_armed c = [] ∧ c_failed c = [] ∧
  c_cast c = omap ev_cast past ∧ c_replies c = omap ev_reply past.

Lemma blank_set c m t v : blank c → blank (cset_meta m (cset_voted v (cset_term t c))).
Proof. done. Qed.

Lemma init_meta_rel m n rc n' :
  ms_wf m → n_meta_storage n = ms_reopen m → blank (core past n) → peer_key (n_server_id n) ≠ key0 →
  init_meta_storage n = Some (rc, n') →
  c_self (core past n') = c_self (core past n) ∧ blank (core past n') ∧
  ms_wf (n_meta_storage n') ∧ durable_next (ms_durable m) (ms_durable (n_meta_storage n')) ∧
  (rc = 0 → fresh (core past n')).
Proof.
  intros Hwf Hm Hb Hself Hr. unfold init_meta_storage in Hr.
  apply st_bind_Some in Hr as (m0 & n0 & [= <- <-] & Hr). rewrite Hm in Hr.
  apply st_bind_Some in Hr as ([rc1 m1] & n0 & [Hi ->]%st_lift_Some & Hr).
  apply st_bind_Some in Hr as ([] & n0 & [= <-] & Hr).
  destruct (ms_reopen_law m Hwf) as [Hwf0 Hd0]. destruct (ms_init_law _ _ _ Hwf0 Hi) as [Hwf1 Hd1].
  case_decide as Hrc1.
  { injection Hr as <- <-. split_and!; try done. left. cbn. congruence. }
  assert (rc1 = 0) as -> by naive_solver.
  apply st_bind_Some in Hr as ([[rc2 [t v]] m2] & n1 & [Hg ->]%st_lift_Some & Hr).
  apply st_bind_Some in Hr as ([] & n1 & [= <-] & Hr).
  destruct (ms_get_law _ _ _ _ _ Hwf Hi Hg) as (Hwf2 & Hd2 & Htv).
  case_decide as Hrc2.
  { injection Hr as <- <-. split_and!; try done. by left. }
  assert (rc2 = 0) as -> by naive_solver. specialize (Htv eq_refl).
  do 2 apply st_bind_Some in Hr as ([] & ? & [= <-] & Hr).
  apply st_bind_Some in Hr as (lm & ? & [= <- <-] & Hr).
  apply st_bind_Some in Hr as (lid & n1 & [_ ->]%st_lift_Some & Hr).
  case_decide as Hlt.
  - do 2 apply st_bind_Some in Hr as ([] & ? & [= <-] & Hr). apply (core_set_meta G past) in Hr as (m3 & Hset & Hc).
    destruct (ms_set_law _ _ _ _ _ Hwf2 Hset) as [Hwf3 Hd3].
    assert (n_meta_storage n' = m3) as -> by (apply (f_equal c_meta) in Hc; exact Hc).
    rewrite !decide_False, !app_nil_r in Hc by naive_solver.
    rewrite Hc. split_and!; [done..| |].
    + rewrite Hd3, Hd2. destruct (decide (rc = 0)); [right|by left]. rewrite <-Htv. split; [cbn; lia|done].
    + intros ->. rewrite decide_True in Hd3 by done. destruct Hb as (?&?&?&?&?&?&?).
      constructor; try done; cbn; by rewrite Hd3.
  - injection Hr as <- <-. split_and!; try done; [by left|]. intros _. destruct Hb as (?&?&?&?&?&?&?).
    constructor; try done; cbn; by rewrite Hd2, <-Htv.
Qed.

Lemma nrel_init_running add : nrel (S := S) (M := M) G past (init_running fl e add).
Proof.
  pose proof (nrel_step_down (S := S) (M := M) e G past). pose proof (nrel_elect_self (S := S) (M := M) G past).
  unfold init_running. nrel_tac. by apply nrel_state.
Qed.

Lemma init_started_rel m add n rc n' :
  ms_wf m → n_meta_storage n = ms_reopen m → blank (core past n) → peer_key (n_server_id n) ≠ key0 →
  init_started fl e add n = Some (rc, n') →
  ∃ c, c_self c = c_self (core past n) ∧ blank c ∧ ms_wf (c_meta c) ∧
    durable_next (ms_durable m) (ms_durable (c_meta c)) ∧
    (c = core past n' ∧ rc ≠ 0 ∨ fresh c ∧ core_steps G c (core past n')).
Proof.
  intros Hwf Hm Hb Hself Hr. unfold init_started in Hr.
  apply st_bind_Some in Hr as (rc1 & n1 & Hi & Hr).
  destruct (init_meta_rel m n rc1 n1 Hwf Hm Hb Hself Hi) as (Hs & Hb1 & Hwf1 & Hd1 & Hf1).
  exists (core past n1). split_and!; try done. case_decide as Hrc; [left; by injection Hr as <- <-|].
  assert (rc1 = 0) as -> by naive_solver. right. split; [by apply Hf1|].
  apply nrel_init_running in Hr. apply Hr. split; [by rewrite Hs|].
  destruct Hb1 as (_ & _ & -> & _). constructor.
Qed.

Lemma omap_init_timers {A} (f : NodeEvent → option A) o :
  (∀ ev, quiet_ev ev = true → f ev = None) → omap f (init_timers fl o) = [].
Proof.
  intros Hf. apply omap_nil_all. intros ev Hev. apply Hf. revert ev Hev. apply Forall_forall.
  unfold init_timers. destruct (no_witness o), (raft_enable_witness_to_leader fl); by repeat constructor.
Qed.

Lemma init_rel group_id server_id options ie m sys rc n :
  ms_wf m → peer_key server_id ≠ key0 →
  init fl e group_id server_id options ie (ms_reopen m) sys = Some (rc, Some n) →
  ∃ c, c_self c = peer_key server_id ∧ blank c ∧ ms_wf (c_meta c) ∧
    durable_next (ms_durable m) (ms_durable (c_meta c)) ∧
    (c = core past n ∧ rc ≠ 0 ∨ fresh c ∧ core_steps G c (core past n)).
Proof.
  intros Hwf Hself Hr. unfold init in Hr. destruct (ie_log_storage ie) as [[log_rc s] cm].
  cbn [bb_init] in Hr. destruct (default _ _) as [src sn].
  repeat first [case_decide | destruct (negb _)]; try done;
    apply bind_Some in Hr as (lm & _ & Hr); try done.
  apply bind_Some in Hr as (lm1 & _ & Hr). apply bind_Some in Hr as (rc1 & _ & Hr).
  destruct (decide (rc1 ≠ 0)); [done|].
  apply bind_Some in Hr as ([rc2 n2] & Hst & Hr). injection Hr as <- <-.
  apply (init_started_rel m) in Hst; [exact Hst|done..| |done].
  unfold blank, core. cbn. rewrite !omap_app, !omap_init_timers, !app_nil_r; [done|..];
    intros []; cbn; try done; by destruct w.
Qed.
End init.
