(* ===== verification/Election.v ===== *)
(** * At most one leader per term

    The invariant of the core of a node (NodeCore.v): a vote given in a term is
    on the medium and no other is given in that term, in this life of the node
    or a later one; a node that leads won a ballot whose grants come from votes
    that were given.  A world of nodes that exchange votes, crash and start
    again then has at most one leader per term among ballots that share a
    configuration. *)

From stdpp Require Import prelude.
From S2P Require Import Prelude StdContainers Configuration Ballot ClosureQueue BallotBox PeerText.
From S2P Require Import LogStorage LogManager StateMonad Messages Lease MetaStorage AppendEntriesCache.
From S2P Require Import NodeState NodeVote NodeCore NodeLog NodeRun NodeStep.
Local Open Scope Z_scope.

Section core_inv.
Context {M : Type} `{Hms : RaftMetaStorage M} `{!RaftMetaLaws M}.
Implicit Types (c : Core M) (G : Z → pkey → Prop).

Definition durable_term c : Z := (ms_durable (c_meta c)).1.
Definition durable_vote c : pkey := peer_key (ms_durable (c_meta c)).2.

(** Grants of a ballot in term [t]: the node's own vote or votes of others. *)
Definition votes_ok G c (gs : list PeerId) : Prop :=
  ∀ g, g ∈ gs → peer_key g = c_self c ∧ (c_term c, c_self c) ∈ c_cast c ∨ G (c_term c) (peer_key g).

(** The ballot is what [init] made of a configuration and valid grants. *)
Definition ballot_ok G c : Prop :=
  ∃ conf old gs, c_ballot c = foldl ballot_grant (ballot_init conf old).1 gs ∧ votes_ok G c gs.

Definition contending (s : State) : Prop := s = STATE_CANDIDATE ∨ leading s.

Record core_inv G c : Prop := mkCoreInv {
  ci_wf : ms_wf (c_meta c);
  ci_self : c_self c ≠ key0;
  ci_cast t v : (t, v) ∈ c_cast c → v ≠ key0 ∧ t ≤ c_term c ∧ (t = c_term c → c_voted c = v) ∧
    t ≤ durable_term c ∧ (t = durable_term c → durable_vote c = v);
  ci_unique t v v' : (t, v) ∈ c_cast c → (t, v') ∈ c_cast c → v = v';
  ci_durable : durable_vote c ≠ key0 → (durable_term c, durable_vote c) ∈ c_cast c;
  ci_voted : c_voted c ≠ key0 → c_voted c ≠ c_self c → (c_term c, c_voted c) ∈ c_cast c;
  ci_elects t : t ∈ c_elects c → t ≤ c_term c ∧ (t = c_term c → c_voted c = c_self c);
  ci_armed v : v ∈ c_armed c → v ≤ c_version c;
  ci_armed_voted : c_version c ∈ c_armed c → contending (c_state c) → (c_term c, c_self c) ∈ c_cast c;
  ci_reply t v : (t, v) ∈ c_replies c → v ≠ key0 → (t, v) ∈ c_cast c;
  ci_ballot : contending (c_state c) → ballot_ok G c;
  ci_granted : leading (c_state c) → ballot_granted (c_ballot c) = true;
}.

(** What the medium and the answers of a node that is down promise. *)
Record medium_inv (m : M) (evs : list NodeEvent) : Prop := mkMediumInv {
  mi_wf : ms_wf m;
  mi_cast t v : (t, v) ∈ omap ev_cast evs → v ≠ key0 ∧
    t ≤ (ms_durable m).1 ∧ (t = (ms_durable m).1 → peer_key (ms_durable m).2 = v);
  mi_unique t v v' : (t, v) ∈ omap ev_cast evs → (t, v') ∈ omap ev_cast evs → v = v';
  mi_durable : peer_key (ms_durable m).2 ≠ key0 →
    ((ms_durable m).1, peer_key (ms_durable m).2) ∈ omap ev_cast evs;
  mi_reply t v : (t, v) ∈ omap ev_reply evs → v ≠ key0 → (t, v) ∈ omap ev_cast evs;
}.

(** ** Preservation *)

Lemma quorum_grant (peer : PeerId) ps q h : (grant_in peer ps q h).1.2 ≤ q.
Proof.
  unfold grant_in. destruct (find_peer _ _ _) as [i|]; [|done]. destruct (ps !! i) as [u|]; [|done].
  destruct (found u); cbn; lia.
Qed.

Lemma granted_grant b p : ballot_granted b = true → ballot_granted (ballot_grant b p) = true.
Proof.
  unfold ballot_granted, ballot_grant, ballot_grant_hint. rewrite !bool_decide_eq_true. intros [H1 H2].
  pose proof (quorum_grant p (bl_peers b) (_quorum b) (pos0 no_hint)) as Hq.
  destruct (grant_in p (bl_peers b) _ _) as [[ps q] p0]. cbn in Hq. case_decide; [cbn; lia|].
  pose proof (quorum_grant p (bl_old_peers b) (_old_quorum b) (pos1 no_hint)) as Hq'.
  destruct (grant_in p (bl_old_peers b) _ _) as [[ps' q'] p1]. cbn in Hq' |- *. lia.
Qed.

(** More votes, more valid grants. *)
Lemma ballot_ok_mono G c c' :
  c_ballot c' = c_ballot c → c_self c' = c_self c → c_term c' = c_term c → c_cast c ⊆ c_cast c' →
  ballot_ok G c → ballot_ok G c'.
Proof.
  intros Hb Hs Ht Hc (conf & old & gs & Heq & Hv). exists conf, old, gs. rewrite Hb. split; [done|].
  intros g Hg. rewrite Hs, Ht. destruct (Hv g Hg) as [[? ?]|?]; [left; split; [done|by apply Hc]|by right].
Qed.

Lemma ballot_ok_grant G c p :
  ballot_ok G c → peer_key p = c_self c ∧ (c_term c, c_self c) ∈ c_cast c ∨ G (c_term c) (peer_key p) →
  ballot_ok G (cset_ballot (ballot_grant (c_ballot c) p) c).
Proof.
  intros (conf & old & gs & Heq & Hv) Hp. exists conf, old, (gs ++ [p]). split.
  - cbn. by rewrite foldl_app, Heq.
  - intros g [Hg| ->%list_elem_of_singleton]%elem_of_app; [by apply Hv|done].
Qed.

Lemma core_inv_G G G' c : (∀ t k, G t k → G' t k) → core_inv G c → core_inv G' c.
Proof.
  intros HG [? ? ? ? ? ? ? ? ? ? Hb ?]. constructor; try done. intros Hc.
  destruct (Hb Hc) as (conf & old & gs & Heq & Hv). exists conf, old, gs. split; [done|].
  intros g Hg. destruct (Hv g Hg); [by left|right; auto].
Qed.

Ltac core_fields := unfold durable_term, durable_vote; cbn.

(** A failed store leaves the medium. *)
Lemma core_inv_meta G c m : core_inv G c → ms_wf m → ms_durable m = ms_durable (c_meta c) → core_inv G (cset_meta m c).
Proof.
  intros [Hwf Hs Hc Hu Hd Hv He Ha Hav Hr Hb Hg] Hm Heq. unfold durable_term, durable_vote in *.
  constructor; core_fields; rewrite ?Heq; try done.
Qed.

Lemma core_inv_passive G c s : passive s → core_inv G c → core_inv G (cset_state s c).
Proof.
  intros (Hp1 & Hp2 & Hp3) [Hwf Hs Hc Hu Hd Hv He Ha Hav Hr Hb Hg].
  constructor; try done; cbn; unfold contending, leading; naive_solver.
Qed.

Lemma core_inv_transfer G c s : leading (c_state c) → leading s → core_inv G c → core_inv G (cset_state s c).
Proof.
  intros Hl Hl' [Hwf Hs Hc Hu Hd Hv He Ha Hav Hr Hb Hg].
  constructor; try done; cbn; intros; [apply Hav; [done|by right]|apply Hb; by right|by apply Hg].
Qed.

Lemma core_inv_version G c : core_inv G c → core_inv G (cset_version (c_version c + 1) c).
Proof.
  intros [Hwf Hs Hc Hu Hd Hv He Ha Hav Hr Hb Hg]. constructor; try done; cbn.
  - intros v Hin%Ha. lia.
  - intros Hin%Ha. lia.
Qed.

Lemma core_inv_term G c t rc m :
  passive (c_state c) → c_term c < t → ms_set_term_and_votedfor t empty_peer (c_meta c) = Some (rc, m) →
  core_inv G c → core_inv G (cset_meta m (cset_voted key0 (cset_term t c))).
Proof.
  intros (Hp1 & Hp2 & Hp3) Ht Hm [Hwf Hs Hc Hu Hd Hv He Ha Hav Hr Hb Hg].
  destruct (ms_set_law _ _ _ _ _ Hwf Hm) as [Hwf' Hd'].
  assert (∀ s, contending s → s = c_state c → False) as Hnc by (unfold contending, leading; naive_solver).
  constructor; try done; core_fields; try (intros; exfalso; eapply Hnc; [|done]; by unfold contending; eauto).
  - intros t' v Hin. destruct (Hc t' v Hin) as (? & ? & ? & ? & ?). split_and!; [done|lia|lia|..]; rewrite Hd';
      case_decide; cbn; try done; lia.
  - rewrite Hd'. case_decide; [done|]. exact Hd.
  - intros t' Hin%He. lia.
Qed.

Lemma core_inv_vote G c p m :
  c_voted c = key0 → peer_key p ≠ c_self c → ms_set_term_and_votedfor (c_term c) p (c_meta c) = Some (0, m) →
  core_inv G c →
  core_inv G (cset_cast (c_cast c ++ (if decide (peer_key p = key0) then [] else [(c_term c, peer_key p)]))
                (cset_meta m (cset_voted (peer_key p) c))).
Proof.
  intros Hv0 Hp Hm [Hwf Hs Hc Hu Hd Hv He Ha Hav Hr Hb Hg].
  destruct (ms_set_law _ _ _ _ _ Hwf Hm) as [Hwf' Hd']. rewrite decide_True in Hd' by done.
  assert (∀ t v, (t, v) ∈ c_cast c → v ≠ key0 ∧ t < c_term c) as Hlt.
  { intros t v Hin. destruct (Hc t v Hin) as (? & ? & Ht & ?). split; [done|].
    destruct (decide (t = c_term c)) as [Heq|]; [|lia]. rewrite (Ht Heq) in Hv0. done. }
  set (new := if decide (peer_key p = key0) then [] else [(c_term c, peer_key p)]).
  assert (∀ t v, (t, v) ∈ new → t = c_term c ∧ v = peer_key p ∧ v ≠ key0) as Hnew.
  { intros t v. unfold new. case_decide; [set_solver|]. intros [= -> ->]%list_elem_of_singleton. done. }
  assert (peer_key p ≠ key0 → (c_term c, peer_key p) ∈ new) as Hin.
  { intros Hne. unfold new. rewrite decide_False by done. set_solver. }
  assert (c_cast c ⊆ c_cast c ++ new) as Hsub by set_solver.
  constructor; try done; core_fields; rewrite ?Hd'; cbn.
  - intros t v [H1|H1]%elem_of_app; [apply Hlt in H1 as []|apply Hnew in H1 as (-> & -> & ?)]; split_and!; (done || lia).
  - intros t v v' [H1|H1]%elem_of_app [H2|H2]%elem_of_app; [by eapply Hu|..];
      repeat match goal with H : _ ∈ new |- _ => apply Hnew in H as (? & ? & ?) end; subst; try done;
      match goal with H : _ ∈ c_cast c |- _ => apply Hlt in H as [] end; lia.
  - intros Hne. apply elem_of_app. right. by apply Hin.
  - intros Hne _. apply elem_of_app. right. by apply Hin.
  - intros t Hin'. destruct (He t Hin') as [? Heq]. split; [done|]. intros ->. rewrite Heq in Hv0 by done. done.
  - intros ? ?. apply Hsub. by apply Hav.
  - intros t v Hin' Hne. apply Hsub. by apply Hr.
  - intros Hcd. by apply (ballot_ok_mono G c); [..|apply Hb].
Qed.

Lemma core_inv_elect G c conf old :
  core_inv G c →
  core_inv G (cset_elects (c_elects c ++ [c_term c + 1])
    (cset_version (c_version c + 1) (cset_ballot (ballot_init conf old).1
      (cset_voted (c_self c) (cset_term (c_term c + 1) (cset_state STATE_CANDIDATE c)))))).
Proof.
  intros [Hwf Hs Hc Hu Hd Hv He Ha Hav Hr Hb Hg]. constructor; try done; core_fields.
  - intros t v Hin. destruct (Hc t v Hin) as (? & ? & ? & ? & ?). split_and!; try done; intros; lia.
  - intros t [Hin%He|Hin%list_elem_of_singleton]%elem_of_app; [lia|]. split; [lia|done].
  - intros v Hin%Ha. lia.
  - intros Hin%Ha. lia.
  - intros _. exists conf, old, []. split; [done|]. intros g. set_solver.
  - by intros [].
Qed.

Lemma core_inv_elect_end G c p m l ar :
  c_term c ∈ c_elects c → l ⊆ c_elects c → Forall (c_version c =.) ar → peer_key p = c_self c →
  ms_set_term_and_votedfor (c_term c) p (c_meta c) = Some (0, m) → core_inv G c →
  core_inv G (cset_cast (c_cast c ++ [(c_term c, c_self c)]) (cset_armed (c_armed c ++ ar)
    (cset_meta m (cset_elects l c)))).
Proof.
  intros Hin Hl Har Hp Hm [Hwf Hs Hc Hu Hd Hv He Ha Hav Hr Hb Hg].
  destruct (ms_set_law _ _ _ _ _ Hwf Hm) as [Hwf' Hd']. rewrite decide_True in Hd' by done.
  pose proof (proj2 (He _ Hin) eq_refl) as Hvoted.
  assert (c_cast c ⊆ c_cast c ++ [(c_term c, c_self c)]) as Hsub by set_solver.
  assert ((c_term c, c_self c) ∈ c_cast c ++ [(c_term c, c_self c)]) as Hnew by set_solver.
  assert (∀ v, (c_term c, v) ∈ c_cast c → v = c_self c) as Hself.
  { intros v H1. destruct (Hc _ _ H1) as (_ & _ & Heq & _). rewrite <-Heq; done. }
  constructor; try done; core_fields; rewrite ?Hd'; cbn; rewrite ?Hp; try done.
  - intros t v [H1|[= -> ->]%list_elem_of_singleton]%elem_of_app.
    + destruct (Hc _ _ H1) as (? & ? & ? & _). split_and!; try done. intros ->. by rewrite (Hself v).
    + split_and!; done.
  - intros t v v' [H1|[= -> ->]%list_elem_of_singleton]%elem_of_app [H2|H2%list_elem_of_singleton]%elem_of_app.
    + by eapply Hu.
    + injection H2 as -> ->. by apply Hself.
    + by rewrite (Hself v').
    + by injection H2 as ->.
  - intros t Ht. by apply He, Hl.
  - intros v [H1|H1]%elem_of_app; [by apply Ha|]. rewrite Forall_forall in Har. rewrite (Har v H1). done.
  - intros t v H1 Hne. apply Hsub. by apply Hr.
  - intros Hcd. by apply (ballot_ok_mono G c); [..|apply Hb].
Qed.

(** The context is of this term, or there is a vote for oneself. *)
Lemma self_voted_cast G c : core_inv G c → self_voted c → contending (c_state c) → (c_term c, c_self c) ∈ c_cast c.
Proof. intros HI [Hv|Hv] Hc; [|done]. by apply (ci_armed_voted G c). Qed.

Lemma core_inv_arm G c ar :
  self_voted c → Forall (c_version c =.) ar → core_inv G c → core_inv G (cset_armed (c_armed c ++ ar) c).
Proof.
  intros Hsv Har HI. pose proof (self_voted_cast G c HI Hsv) as Hcast.
  destruct HI as [Hwf Hs Hc Hu Hd Hv He Ha Hav Hr Hb Hg]. constructor; try done; cbn.
  intros v [H1|H1]%elem_of_app; [by apply Ha|]. rewrite Forall_forall in Har. by rewrite (Har v H1).
Qed.

Lemma core_inv_self_grant G c p :
  self_voted c → peer_key p = c_self c → core_inv G c →
  core_inv G (cset_ballot (ballot_grant (c_ballot c) p) c).
Proof.
  intros Hsv Hp HI. pose proof (self_voted_cast G c HI Hsv) as Hcast.
  destruct HI as [Hwf Hs Hc Hu Hd Hv He Ha Hav Hr Hb Hg]. constructor; try done; cbn.
  - intros Hcd. apply ballot_ok_grant; [by apply Hb|]. left. by split; [|apply Hcast].
  - intros Hl. by apply granted_grant, Hg.
Qed.

Lemma core_inv_peer_grant G c p :
  c_state c = STATE_CANDIDATE → G (c_term c) (peer_key p) → core_inv G c →
  core_inv G (cset_ballot (ballot_grant (c_ballot c) p) c).
Proof.
  intros Hst Hp [Hwf Hs Hc Hu Hd Hv He Ha Hav Hr Hb Hg]. constructor; try done; cbn.
  - intros Hcd. apply ballot_ok_grant; [by apply Hb|by right].
  - intros Hl. by apply granted_grant, Hg.
Qed.

Lemma core_inv_leader G c :
  c_state c = STATE_CANDIDATE → self_voted c → ballot_granted (c_ballot c) = true → core_inv G c →
  core_inv G (cset_version (c_version c + 1) (cset_state STATE_LEADER c)).
Proof.
  intros Hst _ Hgr [Hwf Hs Hc Hu Hd Hv He Ha Hav Hr Hb Hg]. constructor; try done; cbn.
  - intros v Hin%Ha. lia.
  - intros Hin%Ha. lia.
  - intros _. apply Hb. by left.
Qed.

Lemma core_inv_reply G c t k :
  t = c_term c → k = c_voted c → k ≠ c_self c → core_inv G c → core_inv G (cset_replies (c_replies c ++ [(t, k)]) c).
Proof.
  intros -> -> Hk [Hwf Hs Hc Hu Hd Hv He Ha Hav Hr Hb Hg]. constructor; try done; cbn.
  intros t v [H1|[= -> ->]%list_elem_of_singleton]%elem_of_app Hne; [by apply Hr|by apply Hv].
Qed.

Lemma core_inv_step G c c' : core_step G c c' → core_inv G c → c_failed c' = [] → core_inv G c'.
Proof.
  intros Hs HI Hf. destruct Hs; try (by destruct (c_failed c)).
  - by apply core_inv_passive.
  - by apply core_inv_transfer.
  - by apply core_inv_version.
  - by eapply core_inv_term.
  - by apply core_inv_vote.
  - match goal with H : ms_set_term_and_votedfor _ _ _ = _ |- _ =>
      destruct (ms_set_law _ _ _ _ _ (ci_wf _ _ HI) H) as [? Hd] end.
    apply core_inv_meta; [done..|]. by rewrite decide_False in Hd.
  - by apply core_inv_elect.
  - destruct HI. constructor; try done; cbn. naive_solver.
  - by destruct HI.
  - by destruct HI.
  - by eapply core_inv_elect_end.
  - by apply core_inv_arm.
  - by apply core_inv_self_grant.
  - by apply core_inv_peer_grant.
  - by apply core_inv_leader.
  - by apply core_inv_reply.
Qed.

Lemma core_steps_failed G c c' : core_steps G c c' → c_failed c' = [] → c_failed c = [].
Proof.
  induction 1 as [|c c1 c' Hst _ IH]; [done|]. intros Hf%IH. destruct Hst; try done. by destruct (c_failed c).
Qed.

Lemma core_inv_steps G c c' : core_steps G c c' → core_inv G c → c_failed c' = [] → core_inv G c'.
Proof.
  induction 1 as [|c c1 c' Hst Hs IH]; [done|]. intros HI Hf. apply IH; [|done].
  eapply core_inv_step; [done..|]. by eapply core_steps_failed.
Qed.

Lemma core_steps_wf G c c' : core_steps G c c' → ms_wf (c_meta c) → ms_wf (c_meta c').
Proof.
  induction 1 as [|c c1 c' Hst _ IH]; [done|]. intros Hwf. apply IH.
  destruct Hst; try done; match goal with H : ms_set_term_and_votedfor _ _ _ = _ |- _ =>
    by destruct (ms_set_law _ _ _ _ _ Hwf H) end.
Qed.

(** A node that leads stored a vote for itself in its term. *)
Definition lead_cast c : Prop := leading (c_state c) → (c_term c, c_self c) ∈ c_cast c.

Lemma passive_not_leading s : passive s → ¬ leading s.
Proof. intros (_ & ? & ?) [?|?]; congruence. Qed.

Lemma lead_cast_step G c c' : core_step G c c' → core_inv G c → lead_cast c → lead_cast c'.
Proof.
  intros Hs HI Hl. unfold lead_cast in *.
  destruct Hs as [c s Hp|c s Hc _| |c t rc m Hp| | | | | | | | | | | |c Hcd Hsv _|]; cbn; try done.
  - intros Hc. by destruct (passive_not_leading _ Hp).
  - intros _. by apply Hl.
  - intros Hc. by destruct (passive_not_leading _ Hp).
  - intros Hc. apply elem_of_app. left. by apply Hl.
  - by intros [].
  - intros Hc. apply elem_of_app. left. by apply Hl.
  - intros _. apply (self_voted_cast G); [done..|]. by left.
Qed.

Lemma lead_cast_steps G c c' :
  core_steps G c c' → core_inv G c → c_failed c' = [] → lead_cast c → lead_cast c'.
Proof.
  induction 1 as [|c c1 c' Hst Hs IH]; [done|]. intros HI Hf Hl.
  apply IH; [|done|by eapply lead_cast_step].
  eapply core_inv_step; [done..|]. by eapply core_steps_failed.
Qed.

(** What is said stays said. *)
Lemma core_steps_cast G c c' : core_steps G c c' → c_cast c ⊆ c_cast c'.
Proof. induction 1 as [|c c1 c' Hst _ IH]; [done|]. destruct Hst; cbn in IH; try done;
    intros x Hx; apply IH, elem_of_app; by left. Qed.

(** ** Lives *)

Lemma core_inv_fresh G past m c :
  medium_inv m past → c_self c ≠ key0 → durable_next (ms_durable m) (ms_durable (c_meta c)) →
  fresh past c → core_inv G c.
Proof.
  intros [Hwf Hc Hu Hd Hr] Hs Hn [Hst Hwf' Ht Hv He Hca Ha _ Hcast Hrep].
  assert (∀ s, s = STATE_UNINITIALIZED → contending s → False) as Hnc by (intros ? -> [|[]]; done).
  assert (c_voted c ≠ key0 → (c_term c, c_voted c) ∈ c_cast c) as Hvoted.
  { rewrite Hv, Ht, Hcast. destruct Hn as [->|[_ Hn]]; [exact Hd|by rewrite Hn]. }
  assert (∀ t v, (t, v) ∈ omap ev_cast past → v ≠ key0 ∧ t ≤ c_term c ∧ (t = c_term c → c_voted c = v)) as Hall.
  { intros t v Hin. rewrite Ht, Hv. destruct (Hc t v Hin) as (? & ? & ?).
    destruct Hn as [->|[? _]]; split_and!; try done; intros; lia. }
  constructor; unfold durable_term, durable_vote; rewrite ?Hcast, ?Hrep, ?He, ?Ha, ?Hst, <-?Ht, <-?Hv; try done;
    try (by intros ? ?%not_elem_of_nil); try (by intros ?%not_elem_of_nil).
  - intros t v Hin. destruct (Hall t v Hin) as (? & ? & ?). by split_and!.
  - intros Hne. rewrite <-Hcast. by apply Hvoted.
  - intros Hne _. rewrite <-Hcast. by apply Hvoted.
  - intros Hcd. by destruct (Hnc STATE_UNINITIALIZED).
  - intros Hl. by destruct (Hnc STATE_UNINITIALIZED); [|right].
Qed.

(** The medium a life leaves behind; answers may have been lost with it. *)
Lemma medium_inv_core G c evs :
  core_inv G c → omap ev_cast evs = c_cast c → omap ev_reply evs ⊆ c_replies c → medium_inv (c_meta c) evs.
Proof.
  intros [Hwf Hs Hc Hu Hd Hv He Ha Hav Hr Hb Hg] Hcast Hrep. unfold durable_term, durable_vote in *.
  constructor; rewrite ?Hcast; try done.
  - intros t v Hin. destruct (Hc t v Hin) as (? & _ & _ & ? & ?). done.
  - intros t v Hin. apply Hr, Hrep, Hin.
Qed.

(** A start that failed. *)
Lemma medium_inv_next m m' past evs :
  medium_inv m past → ms_wf m' → durable_next (ms_durable m) (ms_durable m') →
  omap ev_cast evs = omap ev_cast past → omap ev_reply evs = omap ev_reply past → medium_inv m' evs.
Proof.
  intros [Hwf Hc Hu Hd Hr] Hwf' Hn Hcast Hrep. constructor; rewrite ?Hcast, ?Hrep; try done.
  - intros t v Hin. destruct (Hc t v Hin) as (? & ? & ?).
    destruct Hn as [->|[? _]]; split_and!; try done; intros; lia.
  - destruct Hn as [->|[_ Hn]]; [exact Hd|]. by rewrite Hn.
Qed.
End core_inv.
