(* ===== verification/Cluster.v ===== *)
(** * A group of nodes

    Servers that run the nodes of one group, exchange votes, crash and start
    again.  Requests and answers may be lost, delayed, repeated or reordered,
    and requests may be anything at all; what a server can rely on is
    [deliverable].  [wexec] is one event of the group.  The theorem is that two
    leaders of one term whose elections share a configuration are the same
    server. *)

From stdpp Require Import prelude.
From S2P Require Import Prelude StdContainers Configuration Ballot ClosureQueue BallotBox PeerText.
From S2P Require Import LogStorage LogManager StateMonad Messages Lease MetaStorage AppendEntriesCache.
From S2P Require Import NodeState NodeVote NodeCore NodeLog NodeRun NodeStep Election.
Local Open Scope Z_scope.

(** ** Servers and events *)

Inductive Life (S M : Type) := Up (n : Node S M) | Down (m : M).
#[global] Arguments Up {S M}.
#[global] Arguments Down {S M}.

(** [sv_past] are the events of the earlier lives. *)
Record Server (S M : Type) := mkServer {
  sv_id : PeerId;
  sv_past : list NodeEvent;
  sv_life : Life S M;
}.
#[global] Arguments mkServer {S M}.
#[global] Arguments sv_id {S M}.
#[global] Arguments sv_past {S M}.
#[global] Arguments sv_life {S M}.

(** [g_elected]: the term, the server and the ballot of every leader seen. *)
Record Group (S M : Type) := mkGroup {
  g_servers : list (Server S M);
  g_elected : list (Z * PeerId * Ballot);
}.
#[global] Arguments mkGroup {S M}.
#[global] Arguments g_servers {S M}.
#[global] Arguments g_elected {S M}.

(** What happens: an input is handled; the process dies while it handles one,
    when the stores are done and the answers after the first [sent] events are
    not out; it dies between two inputs; it starts. *)
Inductive Action (S : Type) :=
  | ActInput (k : nat) (e : Env) (i : NodeInput)
  | ActDie (k : nat) (e : Env) (i : NodeInput) (sent : nat)
  | ActCrash (k : nat)
  | ActStart (k : nat) (e : Env) (group_id : list Z) (options : NodeOptions) (ie : InitEnv S) (sys : list Z).
#[global] Arguments ActInput {S}.
#[global] Arguments ActDie {S}.
#[global] Arguments ActCrash {S}.
#[global] Arguments ActStart {S}.

(** The events that a death leaves. *)
Definition left_behind (sent : nat) (evs : list NodeEvent) : list NodeEvent :=
  take sent evs ++ filter (λ ev, ev_reply ev = None) (drop sent evs).

Section cluster.
Context {S M : Type} `{LogStorage S} `{Hms : RaftMetaStorage M} (fl : RaftFlags).
Implicit Types (w : Group S M) (s : Server S M) (n : Node S M).

Definition sv_events s : list NodeEvent :=
  sv_past s ++ match sv_life s with Up n => n_out n | Down _ => [] end.

(** The server with key [k] answered that it votes for [self] in term [t]. *)
Definition answered w (self : PeerId) (t : Z) (k : pkey) : Prop :=
  Exists (λ s, peer_key (sv_id s) = k ∧ (t, peer_key self) ∈ omap ev_reply (sv_events s)) (g_servers w).

(** Timers fire and answers arrive for a request of this life; a vote was
    answered; nobody asks in the name of the server itself. *)
Definition deliverable w n (i : NodeInput) : Prop :=
  match i with
  | InGrantSelfTimeout VoteCtx v => v ∈ omap ev_armed (n_out n)
  | InRequestVoteResponse p t v resp =>
      v ∈ omap ev_armed (n_out n) ∧ (rvr_granted resp = true → answered w (n_server_id n) t (peer_key p))
  | InRequestVoteRequest r =>
      match peer_parse (rv_server_id r) with
      | Some (p, rc) => rc = 0 → peer_key p ≠ peer_key (n_server_id n)
      | None => True
      end
  | _ => True
  end.

#[global] Instance deliverable_dec w n i : Decision (deliverable w n i).
Proof.
  unfold deliverable, answered. destruct i; try apply _; [destruct w0; apply _|].
  destruct (peer_parse _) as [[]|]; apply _.
Defined.

Definition elected_now (l : Life S M) : list (Z * PeerId * Ballot) :=
  match l with
  | Up n => if bool_decide (n_state n = STATE_LEADER ∨ n_state n = STATE_TRANSFERRING)
            then [(n_current_term n, n_server_id n, vc_ballot (n_vote_ctx n))] else []
  | Down _ => []
  end.

Definition set_server w (k : nat) s : Group S M :=
  mkGroup (<[k := s]> (g_servers w)) (g_elected w ++ elected_now (sv_life s)).

Definition wexec w (a : Action S) : option (Group S M) :=
  match a with
  | ActInput k e i =>
      s ← g_servers w !! k;
      match sv_life s with
      | Up n =>
          CHECK (deliverable w n i);;
          '(_, n') ← node_step fl e i n;
          Some (set_server w k (mkServer (sv_id s) (sv_past s) (Up n')))
      | Down _ => None
      end
  | ActDie k e i sent =>
      s ← g_servers w !! k;
      match sv_life s with
      | Up n =>
          CHECK (deliverable w n i);;
          '(_, n') ← node_step fl e i n;
          Some (set_server w k (mkServer (sv_id s) (sv_past s ++ left_behind sent (n_out n'))
                                  (Down (n_meta_storage n'))))
      | Down _ => None
      end
  | ActCrash k =>
      s ← g_servers w !! k;
      match sv_life s with
      | Up n => Some (set_server w k (mkServer (sv_id s) (sv_events s) (Down (n_meta_storage n))))
      | Down _ => None
      end
  | ActStart k e group_id options ie sys =>
      s ← g_servers w !! k;
      match sv_life s with
      | Down m =>
          '(rc, on) ← init fl e group_id (sv_id s) options ie (ms_reopen m) sys;
          Some (match on with
                | Some n =>
                    if decide (rc = 0) then set_server w k (mkServer (sv_id s) (sv_past s) (Up n))
                    else set_server w k (mkServer (sv_id s) (sv_past s ++ n_out n) (Down (n_meta_storage n)))
                | None => w
                end)
      | Up _ => None
      end
  end.

Fixpoint wrun w (acts : list (Action S)) : option (Group S M) :=
  match acts with
  | [] => Some w
  | a :: acts' => w' ← wexec w a; wrun w' acts'
  end.
End cluster.

(** ** The invariant *)

Section cluster_inv.
Context {S M : Type} `{LogStorage S} `{Hms : RaftMetaStorage M} `{!RaftMetaLaws M} (fl : RaftFlags).
Implicit Types (w : Group S M) (s : Server S M) (n : Node S M).

Definition sv_key s : pkey := peer_key (sv_id s).

(** The server with key [k] stored a vote for [self] in term [t]. *)
Definition voted_in (l : list (Server S M)) (self : pkey) (t : Z) (k : pkey) : Prop :=
  ∃ s, s ∈ l ∧ sv_key s = k ∧ (t, self) ∈ omap ev_cast (sv_events s).

Definition server_inv (l : list (Server S M)) s : Prop :=
  match sv_life s with
  | Up n => c_self (core (sv_past s) n) = sv_key s ∧ cand_ok (core (sv_past s) n) ∧
            core_inv (voted_in l (sv_key s)) (core (sv_past s) n)
  | Down m => medium_inv m (sv_past s)
  end.

(** A ballot that was won with votes that were stored. *)
Definition won (l : list (Server S M)) (x : Z * PeerId * Ballot) : Prop :=
  ∃ conf old gs, x.2 = foldl ballot_grant (ballot_init conf old).1 gs ∧ ballot_granted x.2 = true ∧
    ∀ g, g ∈ gs → voted_in l (peer_key x.1.2) x.1.1 (peer_key g).

Record group_inv w : Prop := mkGroupInv {
  wi_keys : NoDup (sv_key <$> g_servers w);
  wi_nonempty s : s ∈ g_servers w → sv_key s ≠ key0;
  wi_servers s : s ∈ g_servers w → server_inv (g_servers w) s;
  wi_elected x : x ∈ g_elected w → won (g_servers w) x;
}.

(** No node failed to store a vote for itself. *)
Definition self_votes_stored w : Prop :=
  ∀ s, s ∈ g_servers w → omap (ev_failed (sv_key s)) (sv_events s) = [].

(** ** Replacing a server *)

Lemma voted_in_insert l k s s' self t p :
  l !! k = Some s → sv_key s' = sv_key s → omap ev_cast (sv_events s) ⊆ omap ev_cast (sv_events s') →
  voted_in l self t p → voted_in (<[k := s']> l) self t p.
Proof.
  intros Hk Hkey Hsub (x & Hx & Hp & Hc). apply list_elem_of_lookup in Hx as [j Hj].
  destruct (decide (j = k)) as [->|Hne].
  - assert (x = s) as -> by congruence. exists s'. split_and!; [|congruence|by apply Hsub].
    apply list_elem_of_lookup. exists k. apply list_lookup_insert_eq. by eapply lookup_lt_Some.
  - exists x. split_and!; [|done..]. apply list_elem_of_lookup. exists j. by rewrite list_lookup_insert_ne.
Qed.

Lemma server_inv_mono l l' s :
  (∀ self t p, voted_in l self t p → voted_in l' self t p) → server_inv l s → server_inv l' s.
Proof.
  intros Hm. unfold server_inv. destruct (sv_life s) as [n|m]; [|done].
  intros (? & ? & ?). split_and!; [done..|]. eapply core_inv_G; [|done]. auto.
Qed.

Lemma group_inv_insert w k s s' :
  group_inv w → g_servers w !! k = Some s → sv_key s' = sv_key s →
  omap ev_cast (sv_events s) ⊆ omap ev_cast (sv_events s') →
  server_inv (<[k := s']> (g_servers w)) s' →
  (∀ x, x ∈ elected_now (sv_life s') → won (<[k := s']> (g_servers w)) x) →
  group_inv (set_server w k s').
Proof.
  intros [Hk1 Hk2 Hs He] Hk Hkey Hsub Hinv Hel.
  assert (∀ self t p, voted_in (g_servers w) self t p → voted_in (<[k := s']> (g_servers w)) self t p) as Hm.
  { intros self t p. by eapply voted_in_insert. }
  assert (∀ x, x ∈ <[k := s']> (g_servers w) → x = s' ∨ x ∈ g_servers w) as Hin.
  { intros x [j Hj]%list_elem_of_lookup. destruct (decide (j = k)) as [->|Hne].
    - rewrite list_lookup_insert_eq in Hj by (by eapply lookup_lt_Some). left. congruence.
    - rewrite list_lookup_insert_ne in Hj by done. right. by eapply list_elem_of_lookup_2. }
  constructor; cbn.
  - rewrite list_fmap_insert, Hkey, list_insert_id; [done|]. by rewrite list_lookup_fmap, Hk.
  - intros x [->|Hx]%Hin; [rewrite Hkey; apply Hk2; by eapply list_elem_of_lookup_2|by apply Hk2].
  - intros x [->|Hx]%Hin; [done|]. eapply server_inv_mono; [done|]. by apply Hs.
  - intros x [Hx|Hx]%elem_of_app; [|by apply Hel]. destruct (He x Hx) as (conf & old & gs & ? & ? & Hg).
    exists conf, old, gs. split_and!; [done..|]. intros g Hin'. by apply Hm, Hg.
Qed.

(** A leader of this moment won. *)
Lemma elected_now_won l s x :
  s ∈ l → server_inv l s → x ∈ elected_now (sv_life s) → won l x.
Proof.
  intros Hin. unfold server_inv, elected_now. destruct (sv_life s) as [n|m] eqn:El; [|by intros _ ?%not_elem_of_nil].
  intros (Hself & _ & HI). case_bool_decide as Hl; [|by intros ?%not_elem_of_nil].
  intros ->%list_elem_of_singleton. cbn in Hself.
  destruct (ci_ballot _ _ HI ltac:(by right)) as (conf & old & gs & Hb & Hv).
  exists conf, old, gs. split_and!; [done|by apply (ci_granted _ _ HI)|]. intros g Hg. cbn. rewrite Hself.
  destruct (Hv g Hg) as [[Hkg Hc]|Hc]; [|exact Hc].
  exists s. split_and!; [done|by rewrite Hkg|]. unfold sv_events. rewrite El. cbn in Hc. by rewrite <-Hself.
Qed.

(** ** One action *)

(** What does not depend on the stores. *)
Definition server_ok s : Prop :=
  sv_key s ≠ key0 ∧
  match sv_life s with
  | Up n => c_self (core (sv_past s) n) = sv_key s ∧ cand_ok (core (sv_past s) n) ∧ ms_wf (n_meta_storage n)
  | Down m => ms_wf m
  end.

Lemma input_core_steps G w s n e i u n' :
  sv_life s = Up n → server_ok s → deliverable w n i → (∀ t k, answered w (n_server_id n) t k → G t k) →
  node_step fl e i n = Some (u, n') → core_steps G (core (sv_past s) n) (core (sv_past s) n').
Proof.
  intros El (_ & Hok) Hd HG Hr. rewrite El in Hok. destruct Hok as (Hself & Hok & _).
  eapply node_step_rel; [|done..]. destruct i; try done.
  - intros p rc Hp. cbn in Hd. by rewrite Hp in Hd.
  - destruct Hd as [? Hg]. split; [done|]. intros Hr'. by apply HG, Hg.
Qed.

Lemma server_ok_steps G past id n n' :
  core_steps G (core past n) (core past n') → server_ok (mkServer id past (Up n)) →
  server_ok (mkServer id past (Up n')).
Proof.
  intros Hs (Hk & Hself & Hok & Hwf). split; [done|]. cbn [sv_life sv_past] in *. split_and!.
  - trans (c_self (core past n)); [by eapply core_steps_self|done].
  - by eapply core_steps_cand_ok.
  - exact (core_steps_wf _ _ _ Hs Hwf).
Qed.

Lemma omap_left_behind {A} (f : NodeEvent → option A) sent evs :
  (∀ ev, ev_reply ev ≠ None → f ev = None) → omap f (left_behind sent evs) = omap f evs.
Proof.
  intros Hf. unfold left_behind. rewrite omap_app. rewrite <-(take_drop sent evs) at 3. rewrite omap_app. f_equal.
  induction (drop sent evs) as [|ev l IH]; [done|]. rewrite filter_cons. case_decide as Hd; cbn.
  - by rewrite IH.
  - by rewrite (Hf ev Hd).
Qed.

Lemma reply_only_cast ev : ev_reply ev ≠ None → ev_cast ev = None.
Proof. by destruct ev. Qed.

Lemma reply_only_failed self ev : ev_reply ev ≠ None → ev_failed self ev = None.
Proof. by destruct ev. Qed.

Lemma left_behind_reply sent evs : omap ev_reply (left_behind sent evs) ⊆ omap ev_reply evs.
Proof.
  intros x (ev & Hin & Hx)%list_elem_of_omap. apply list_elem_of_omap. exists ev. split; [|done].
  unfold left_behind in Hin. apply elem_of_app in Hin as [Hin|Hin].
  - by apply subseteq_take in Hin.
  - apply list_elem_of_filter in Hin as [_ Hin]. by apply subseteq_drop in Hin.
Qed.

(** The ways one server changes. *)
Inductive change w s : Server S M → Prop :=
  | ch_input n e i u n' :
      sv_life s = Up n → deliverable w n i → node_step fl e i n = Some (u, n') →
      change w s (mkServer (sv_id s) (sv_past s) (Up n'))
  | ch_die n e i u n' sent :
      sv_life s = Up n → deliverable w n i → node_step fl e i n = Some (u, n') →
      change w s (mkServer (sv_id s) (sv_past s ++ left_behind sent (n_out n')) (Down (n_meta_storage n')))
  | ch_crash n :
      sv_life s = Up n → change w s (mkServer (sv_id s) (sv_events s) (Down (n_meta_storage n)))
  | ch_start m e group_id options ie sys n :
      sv_life s = Down m → init fl e group_id (sv_id s) options ie (ms_reopen m) sys = Some (0, Some n) →
      change w s (mkServer (sv_id s) (sv_past s) (Up n))
  | ch_start_fail m e group_id options ie sys n rc :
      sv_life s = Down m → init fl e group_id (sv_id s) options ie (ms_reopen m) sys = Some (rc, Some n) →
      change w s (mkServer (sv_id s) (sv_past s ++ n_out n) (Down (n_meta_storage n))).

Lemma wexec_change w a w' :
  wexec fl w a = Some w' →
  w' = w ∨ ∃ k s s', g_servers w !! k = Some s ∧ change w s s' ∧ w' = set_server w k s'.
Proof.
  intros Hx. destruct a as [k e i|k e i sent|k|k e g o ie sys]; cbn in Hx;
    apply bind_Some in Hx as (s & Hk & Hx); destruct (sv_life s) as [n|m] eqn:El; try done.
  - apply bind_Some in Hx as (? & Hd%CHECK_Some & Hx). apply bind_Some in Hx as ([u n'] & Hr & [= <-]).
    right. do 3 eexists. split_and!; [done| |done]. by eapply ch_input.
  - apply bind_Some in Hx as (? & Hd%CHECK_Some & Hx). apply bind_Some in Hx as ([u n'] & Hr & [= <-]).
    right. do 3 eexists. split_and!; [done| |done]. by eapply ch_die.
  - injection Hx as <-. right. do 3 eexists. split_and!; [done| |done]. by eapply ch_crash.
  - apply bind_Some in Hx as ([rc [n|]] & Hr & [= <-]); [right|by left].
    case_decide; subst; do 3 eexists; (split_and!; [done| |done]); [by eapply ch_start|by eapply ch_start_fail].
Qed.

Lemma failed_app self (l1 l2 : list NodeEvent) :
  omap (ev_failed self) (l1 ++ l2) = [] → omap (ev_failed self) l1 = [] ∧ omap (ev_failed self) l2 = [].
Proof. rewrite omap_app. apply app_eq_nil. Qed.

Lemma failed_steps G past n n' self :
  core_steps G (core past n) (core past n') → c_self (core past n) = self →
  omap (ev_failed self) (n_out n') = [] → omap (ev_failed self) (n_out n) = [].
Proof.
  intros Hs <- Ho. apply (core_steps_failed _ _ _ Hs). apply core_steps_self in Hs. rewrite <-Hs in Ho. exact Ho.
Qed.

(** The parts of a server that do not depend on the stores. *)
Lemma change_ok w s s' :
  server_ok s → change w s s' →
  server_ok s' ∧ sv_key s' = sv_key s ∧
  (omap (ev_failed (sv_key s)) (sv_events s') = [] → omap (ev_failed (sv_key s)) (sv_events s) = []).
Proof.
  intros Hok Hch. pose proof Hok as [Hkey Hlife].
  destruct Hch as [n e i u n' El Hd Hr|n e i u n' sent El Hd Hr|n El
    |m e g o ie sys n El Hr|m e g o ie sys n rc El Hr]; unfold sv_events; rewrite El in *; cbn [sv_past sv_life].
  1,2: destruct Hlife as (Hself & Hcand & Hwf);
    pose proof (input_core_steps (λ _ _, True) w s n e i u n' El Hok Hd ltac:(done) Hr) as Hs.
  4,5: destruct (init_rel fl e (λ _ _, True) (sv_past s) g (sv_id s) o ie m sys _ n Hlife Hkey Hr) as
        (c & Hself & Hbl & Hwf & _ & Hs).
  - split_and!; [|done|].
    + eapply server_ok_steps; [exact Hs|]. by split.
    + intros [Hp Ho]%failed_app. rewrite omap_app, Hp. by eapply failed_steps.
  - split_and!; [|done|].
    + split; [done|]. exact (core_steps_wf _ _ _ Hs Hwf).
    + rewrite app_nil_r. intros [Hp Ho]%failed_app. rewrite omap_app, Hp.
      rewrite omap_left_behind in Ho by apply reply_only_failed. by eapply failed_steps.
  - split_and!; [|done|by rewrite app_nil_r]. split; [done|]. apply Hlife.
  - destruct Hs as [[_ ?]|[Hf Hs]]; [done|]. split_and!; [|done|].
    + split; [done|]. cbn [sv_life sv_past]. split_and!.
      * trans (c_self c); [by eapply core_steps_self|done].
      * eapply core_steps_cand_ok; [exact Hs|]. split; [by rewrite Hself|]. rewrite (fr_cands _ _ Hf). constructor.
      * exact (core_steps_wf _ _ _ Hs Hwf).
    + intros [Hp _]%failed_app. by rewrite app_nil_r.
  - split_and!; [|done|].
    + split; [done|]. cbn [sv_life]. destruct Hs as [[-> _]|[_ Hs]]; [exact Hwf|exact (core_steps_wf _ _ _ Hs Hwf)].
    + rewrite app_nil_r. intros [Hp _]%failed_app. by rewrite app_nil_r.
Qed.

(** ** The invariant is kept *)

Lemma answered_voted w n s t k :
  group_inv w → s ∈ g_servers w → c_self (core (sv_past s) n) = sv_key s →
  answered w (n_server_id n) t k → voted_in (g_servers w) (sv_key s) t k.
Proof.
  intros [_ Hne Hs _] Hin Hself (x & Hx & Hk & Hr)%Exists_exists. cbn in Hself. rewrite Hself in Hr.
  exists x. split_and!; [done..|]. specialize (Hs x Hx). specialize (Hne s Hin). unfold server_inv in Hs.
  unfold sv_events in *. destruct (sv_life x) as [n'|m].
  - destruct Hs as (_ & _ & HI). by apply (ci_reply _ _ HI).
  - rewrite app_nil_r in *. by apply (mi_reply _ _ Hs).
Qed.

(** An input of a server that is up. *)
Lemma input_inv w s n e i u n' :
  group_inv w → s ∈ g_servers w → server_ok s → sv_life s = Up n → deliverable w n i →
  node_step fl e i n = Some (u, n') → omap (ev_failed (sv_key s)) (n_out n') = [] →
  omap ev_cast (sv_past s ++ n_out n) ⊆ omap ev_cast (sv_past s ++ n_out n') ∧
  core_inv (voted_in (g_servers w) (sv_key s)) (core (sv_past s) n').
Proof.
  intros HW Hin Hok El Hd Hr Hf. pose proof (wi_servers w HW s Hin) as Hinv. unfold server_inv in Hinv.
  rewrite El in Hinv. destruct Hinv as (Hself & Hcand & HI).
  assert (core_steps (voted_in (g_servers w) (sv_key s)) (core (sv_past s) n) (core (sv_past s) n')) as Hs.
  { eapply input_core_steps; [done..| |done]. intros t k. by apply answered_voted. }
  split; [exact (core_steps_cast _ _ _ Hs)|]. eapply core_inv_steps; [done..|].
  apply core_steps_self in Hs. cbn in Hs, Hself. unfold core. cbn. by rewrite Hs, Hself.
Qed.

(** A start, of which the node comes up or not. *)
Lemma start_inv w s m e g o ie sys rc n :
  group_inv w → s ∈ g_servers w → server_ok s → sv_life s = Down m →
  init fl e g (sv_id s) o ie (ms_reopen m) sys = Some (rc, Some n) → omap (ev_failed (sv_key s)) (n_out n) = [] →
  omap ev_cast (sv_past s) ⊆ omap ev_cast (sv_past s ++ n_out n) ∧
  medium_inv (n_meta_storage n) (sv_past s ++ n_out n) ∧
  (rc = 0 → core_inv (voted_in (g_servers w) (sv_key s)) (core (sv_past s) n)).
Proof.
  intros HW Hin [Hkey Hlife] El Hr Hf. pose proof (wi_servers w HW s Hin) as Hinv. unfold server_inv in Hinv.
  rewrite El in *. split; [rewrite omap_app; set_solver|].
  destruct (init_rel fl e (voted_in (g_servers w) (sv_key s)) (sv_past s) g (sv_id s) o ie m sys rc n Hlife Hkey Hr) as
        (c & Hself & Hbl & Hwf & Hdn & [[-> Hrc]|[Hfr Hs]]).
  - split; [|done]. destruct Hbl as (_ & _ & _ & _ & _ & Hc & Hrep).
    exact (medium_inv_next m _ (sv_past s) _ Hinv Hwf Hdn Hc Hrep).
  - assert (core_inv (voted_in (g_servers w) (sv_key s)) (core (sv_past s) n)) as HI; [|split; [|done]].
    + eapply core_inv_steps; [done|by eapply core_inv_fresh; [..|done]; rewrite ?Hself|].
      apply core_steps_self in Hs. cbn in Hs. unfold core. cbn. by rewrite Hs, Hself.
    + by eapply (medium_inv_core _ (core (sv_past s) n)).
Qed.

Lemma change_inv w s s' :
  group_inv w → s ∈ g_servers w → server_ok s → change w s s' →
  omap (ev_failed (sv_key s)) (sv_events s') = [] →
  omap ev_cast (sv_events s) ⊆ omap ev_cast (sv_events s') ∧ server_inv (g_servers w) s'.
Proof.
  intros HW Hin Hok Hch Hfail. pose proof (proj1 (change_ok w s s' Hok Hch)) as Hok'.
  destruct Hok' as [_ Hok']. unfold server_inv, sv_events in *.
  destruct Hch as [n e i u n' El Hd Hr|n e i u n' sent El Hd Hr|n El
    |m e g o ie sys n El Hr|m e g o ie sys n rc El Hr]; rewrite El in *; cbn [sv_past sv_life sv_id] in *.
  - apply failed_app in Hfail as [_ Hf]. destruct (input_inv w s n e i u n') as [? HI]; [done..|].
    split; [done|]. split_and!; [apply Hok'..|done].
  - rewrite app_nil_r in *. apply failed_app in Hfail as [_ Hf].
    rewrite omap_left_behind in Hf by apply reply_only_failed.
    destruct (input_inv w s n e i u n') as [Hsub HI]; [done..|].
    assert (omap ev_cast (sv_past s ++ left_behind sent (n_out n')) = omap ev_cast (sv_past s ++ n_out n')) as Hc.
    { by rewrite !omap_app, omap_left_behind by apply reply_only_cast. }
    rewrite Hc. split; [done|]. eapply (medium_inv_core _ (core (sv_past s) n')); [done..|]. cbn.
    rewrite !omap_app. pose proof (left_behind_reply sent (n_out n')). set_solver.
  - unfold sv_events. rewrite El. split; [by rewrite app_nil_r|]. pose proof (wi_servers w HW s Hin) as Hinv. unfold server_inv in Hinv.
    rewrite El in Hinv. destruct Hinv as (_ & _ & HI). by eapply (medium_inv_core _ (core (sv_past s) n)).
  - apply failed_app in Hfail as [_ Hf]. rewrite app_nil_r.
    destruct (start_inv w s m e g o ie sys 0 n) as (? & _ & HI); [done..|].
    split; [done|]. split_and!; [apply Hok'..|by apply HI].
  - rewrite app_nil_r in *. apply failed_app in Hfail as [_ Hf].
    destruct (start_inv w s m e g o ie sys rc n) as (? & ? & _); [done..|].
    rewrite app_nil_r. done.
Qed.

Definition group_ok w : Prop := ∀ s, s ∈ g_servers w → server_ok s.

Lemma elem_of_set_server w k s' x :
  x ∈ g_servers (set_server w k s') → x = s' ∨ x ∈ g_servers w.
Proof.
  cbn. intros [j Hj]%list_elem_of_lookup. apply list_lookup_insert_Some in Hj as [(-> & -> & _)|[_ Hj]]; [by left|].
  right. by eapply list_elem_of_lookup_2.
Qed.

Lemma wexec_ok w a w' :
  group_ok w → wexec fl w a = Some w' → group_ok w' ∧ (self_votes_stored w' → self_votes_stored w).
Proof.
  intros Hok [->|(k & s & s' & Hk & Hch & ->)]%wexec_change; [done|].
  destruct (change_ok w s s') as (Hs' & Hkey & Hf); [apply Hok; by eapply list_elem_of_lookup_2|done|].
  split; [by intros x [->|Hx]%elem_of_set_server; [|apply Hok]|].
  intros Hst x [j Hj]%list_elem_of_lookup. destruct (decide (j = k)) as [->|Hne].
  - assert (x = s) as -> by congruence. apply Hf. rewrite <-Hkey. apply Hst.
    apply list_elem_of_lookup. exists k. apply list_lookup_insert_eq. by eapply lookup_lt_Some.
  - apply Hst. apply list_elem_of_lookup. exists j. cbn. by rewrite list_lookup_insert_ne.
Qed.

Lemma wexec_inv w a w' :
  group_ok w → group_inv w → wexec fl w a = Some w' → self_votes_stored w' → group_inv w'.
Proof.
  intros Hok HW [->|(k & s & s' & Hk & Hch & ->)]%wexec_change; [done|]. intros Hst.
  assert (s ∈ g_servers w) as Hin by (by eapply list_elem_of_lookup_2).
  destruct (change_ok w s s') as (_ & Hkey & _); [by apply Hok|done|].
  assert (s' ∈ <[k := s']> (g_servers w)) as Hin'.
  { apply list_elem_of_lookup. exists k. apply list_lookup_insert_eq. by eapply lookup_lt_Some. }
  destruct (change_inv w s s') as [Hsub Hinv]; [done|done|by apply Hok|done|rewrite <-Hkey; by apply Hst|].
  assert (server_inv (<[k := s']> (g_servers w)) s') as Hinv'.
  { eapply server_inv_mono; [|exact Hinv]. intros self t p. by eapply voted_in_insert. }
  eapply group_inv_insert; [done..|]. intros x. by apply elected_now_won.
Qed.

Lemma wrun_ok w acts w' :
  group_ok w → wrun fl w acts = Some w' → self_votes_stored w' → self_votes_stored w.
Proof.
  revert w. induction acts as [|a acts IH]; intros w Hok Hr Hst; cbn in Hr; [by injection Hr as <-|].
  apply bind_Some in Hr as (w1 & Hx & Hr). destruct (wexec_ok w a w1 Hok Hx) as [Hok1 Hback].
  apply Hback. by eapply IH.
Qed.

Lemma wrun_inv w acts w' :
  group_ok w → group_inv w → wrun fl w acts = Some w' → self_votes_stored w' → group_inv w'.
Proof.
  revert w. induction acts as [|a acts IH]; intros w Hok HW Hr Hst; cbn in Hr; [by injection Hr as <-|].
  apply bind_Some in Hr as (w1 & Hx & Hr). destruct (wexec_ok w a w1 Hok Hx) as [Hok1 _].
  apply (IH w1); [done| |done..]. apply (wexec_inv w a w1); [done..|]. by apply (wrun_ok w1 acts w').
Qed.

(** A group before its first start: every medium is empty of votes. *)
Definition never_started w : Prop :=
  NoDup (sv_key <$> g_servers w) ∧ g_elected w = [] ∧
  ∀ s, s ∈ g_servers w → sv_key s ≠ key0 ∧ sv_past s = [] ∧
    ∃ m, sv_life s = Down m ∧ ms_wf m ∧ peer_key (ms_durable m).2 = key0.

Lemma never_started_inv w : never_started w → group_ok w ∧ group_inv w.
Proof.
  intros (Hk & He & Hs). split; [|constructor].
  - intros s Hin. destruct (Hs s Hin) as (? & _ & m & Hl & ? & _). split; [done|]. by rewrite Hl.
  - done.
  - intros s Hin. by destruct (Hs s Hin).
  - intros s Hin. destruct (Hs s Hin) as (? & Hp & m & Hl & Hwf & Hv). unfold server_inv. rewrite Hl, Hp.
    constructor; try done; cbn; try (by intros ? ? ?%not_elem_of_nil); by intros ? ? ? ?%not_elem_of_nil.
  - intros x. rewrite He. by intros ?%not_elem_of_nil.
Qed.
End cluster_inv.

(** ** Ballots that share a configuration *)

(** The peers of a ballot come from a [std::set]. *)
Definition ballot_wf (b : Ballot) : Prop :=
  set_wf peer_lt (peer_id <$> bl_peers b) ∧ set_wf peer_lt (peer_id <$> bl_old_peers b).

(** [c] is the configuration or the old configuration of the ballot. *)
Definition votes_in (b : Ballot) (c : Configuration) : Prop :=
  conf_empty c = false ∧ (peer_id <$> bl_peers b = _peers c ∨ peer_id <$> bl_old_peers b = _peers c).

Lemma grant_in_ids peer ps q h : peer_id <$> (grant_in peer ps q h).1.1 = peer_id <$> ps.
Proof.
  unfold grant_in. destruct (find_peer _ _ _) as [i|]; [|done]. destruct (ps !! i) as [u|] eqn:Eu; [|done].
  destruct (found u); [done|]. cbn. rewrite list_fmap_insert, list_insert_id; [done|].
  by rewrite list_lookup_fmap, Eu.
Qed.

Lemma ballot_grant_ids b p :
  peer_id <$> bl_peers (ballot_grant b p) = peer_id <$> bl_peers b ∧
  peer_id <$> bl_old_peers (ballot_grant b p) = peer_id <$> bl_old_peers b.
Proof.
  unfold ballot_grant, ballot_grant_hint.
  pose proof (grant_in_ids p (bl_peers b) (_quorum b) (pos0 no_hint)) as H1.
  destruct (grant_in p (bl_peers b) _ _) as [[ps q] p0]. case_decide; [done|].
  pose proof (grant_in_ids p (bl_old_peers b) (_old_quorum b) (pos1 no_hint)) as H2.
  by destruct (grant_in p (bl_old_peers b) _ _) as [[ps' q'] p1].
Qed.

Lemma foldl_grant_ids b gs :
  peer_id <$> bl_peers (foldl ballot_grant b gs) = peer_id <$> bl_peers b ∧
  peer_id <$> bl_old_peers (foldl ballot_grant b gs) = peer_id <$> bl_old_peers b.
Proof.
  revert b. induction gs as [|g gs IH]; intros b; [done|]. cbn.
  destruct (IH (ballot_grant b g)) as [-> ->]. apply ballot_grant_ids.
Qed.

Lemma ballot_init_ids conf old :
  peer_id <$> bl_peers (ballot_init conf old).1 = _peers conf ∧
  peer_id <$> bl_old_peers (ballot_init conf old).1 = from_option _peers [] old.
Proof.
  unfold ballot_init, list_peers. destruct old; cbn; rewrite <-!list_fmap_compose; unfold compose; cbn;
    by rewrite ?list_fmap_id.
Qed.

Lemma foldl_grant_all b gs : foldl ballot_grant b gs = grant_all b ((λ g, (g, no_hint)) <$> gs).
Proof. unfold grant_all. rewrite foldl_fmap. done. Qed.

(** A won ballot is a majority of each configuration it votes in. *)
Lemma won_majority conf old gs c :
  let b := foldl ballot_grant (ballot_init conf old).1 gs in
  ballot_wf b → ballot_granted b = true → votes_in b c → conf_wf c ∧ majority c (peer_key <$> gs).
Proof.
  intros b [Hw1 Hw2] Hg [Hne Hv]. unfold b in *. destruct (foldl_grant_ids (ballot_init conf old).1 gs) as [H1 H2].
  destruct (ballot_init_ids conf old) as [H3 H4]. rewrite H1, H3 in *. rewrite H2, H4 in *.
  assert (oconf_wf old) as Hold by (destruct old; done).
  rewrite foldl_grant_all, ballot_init_spec in Hg. cbn [fst] in Hg. rewrite grant_all_spec in Hg by done.
  rewrite ballot_of_granted, app_nil_r, <-list_fmap_compose in Hg. unfold compose in Hg. cbn in Hg.
  assert (∀ c', majority c' (reverse (peer_key <$> gs)) → majority c' (peer_key <$> gs)) as Hrev.
  { intros c'. apply majority_mono. intros k. by rewrite elem_of_reverse. }
  destruct Hg as [Hg1 Hg2]. destruct c as [ps]. cbn in Hv. destruct Hv as [Hv|Hv].
  - destruct conf as [ps']. cbn in *. subst. split; [done|]. by apply Hrev.
  - destruct old as [[ps']|]; cbn in *; subst; [split; [done|]; by apply Hrev|done].
Qed.

(** ** Election safety *)

Section safety.
Context {S M : Type} `{LogStorage S} `{Hms : RaftMetaStorage M} `{!RaftMetaLaws M} (fl : RaftFlags).
Implicit Types (w : Group S M).

(** A server votes for one candidate per term. *)
Lemma votes_unique w k t a b :
  group_inv w → voted_in (g_servers w) a t k → voted_in (g_servers w) b t k → a = b.
Proof.
  intros [Hk _ Hs _] (s1 & Hin1 & <- & Hc1) (s2 & Hin2 & Heq & Hc2).
  assert (s2 = s1) as ->.
  { apply list_elem_of_lookup in Hin1 as [i Hi], Hin2 as [j Hj].
    assert (i = j) as ->; [|congruence]. eapply NoDup_lookup; [exact Hk|..]; rewrite list_lookup_fmap.
    - rewrite Hi. done.
    - rewrite Hj. cbn. by rewrite Heq. }
  specialize (Hs s1 Hin1). unfold server_inv in Hs. unfold sv_events in *. destruct (sv_life s1) as [n|m].
  - destruct Hs as (_ & _ & HI). by eapply (ci_unique _ _ HI).
  - rewrite app_nil_r in *. by eapply (mi_unique _ _ Hs).
Qed.

(** Two ballots of one term that share a configuration were won by one server. *)
Lemma elected_unique w t p1 p2 b1 b2 c :
  group_inv w → (t, p1, b1) ∈ g_elected w → (t, p2, b2) ∈ g_elected w → ballot_wf b1 → ballot_wf b2 →
  votes_in b1 c → votes_in b2 c → peer_eq p1 p2.
Proof.
  intros HW He1 He2 Hw1 Hw2 Hc1 Hc2.
  destruct (wi_elected w HW _ He1) as (cf1 & o1 & g1 & Hb1 & Hg1 & Hv1).
  destruct (wi_elected w HW _ He2) as (cf2 & o2 & g2 & Hb2 & Hg2 & Hv2).
  cbn in Hb1, Hb2, Hg1, Hg2, Hv1, Hv2. subst b1 b2.
  destruct (won_majority cf1 o1 g1 c) as [Hcwf Hm1]; [done..|].
  destruct (won_majority cf2 o2 g2 c) as [_ Hm2]; [done..|].
  destruct (majority_intersect c _ _ Hcwf Hm1 Hm2) as (k & _ & (q1 & -> & Hq1)%list_elem_of_fmap & (q2 & Hk & Hq2)%list_elem_of_fmap).
  apply peer_eq_key. apply (votes_unique w (peer_key q1) t); [done|by apply Hv1|]. rewrite Hk. by apply Hv2.
Qed.

(** C1. Election safety.  Start a group whose media hold no vote, and let the
    servers handle any inputs in any order, crash, die while they handle an
    input, and start again.  If no store of a server's vote for itself failed,
    two servers that led in the same term and whose ballots share a
    configuration are the same server. *)
Theorem election_safety (w0 w : Group S M) (acts : list (Action S)) (t : Z) (p1 p2 : PeerId) (b1 b2 : Ballot)
    (c : Configuration)
    (Hstart : never_started w0) (Hrun : wrun fl w0 acts = Some w) (Hstored : self_votes_stored w)
    (He1 : (t, p1, b1) ∈ g_elected w) (He2 : (t, p2, b2) ∈ g_elected w)
    (Hw1 : ballot_wf b1) (Hw2 : ballot_wf b2) (Hc1 : votes_in b1 c) (Hc2 : votes_in b2 c) :
  peer_eq p1 p2.
Proof.
  destruct (never_started_inv w0 Hstart) as [Hok HW0]. pose proof (wrun_inv fl w0 acts w Hok HW0 Hrun Hstored) as HW.
  by eapply elected_unique.
Qed.

(** C2. One vote per term.  In the same runs, no server ever answers two
    candidates of one term that it votes for them, neither in one life nor in
    two. *)
Theorem one_vote_per_term (w0 w : Group S M) (acts : list (Action S)) (s : Server S M) (t : Z) (a b : pkey)
    (Hstart : never_started w0) (Hrun : wrun fl w0 acts = Some w) (Hstored : self_votes_stored w)
    (Hs : s ∈ g_servers w)
    (Ha : (t, a) ∈ omap ev_reply (sv_events s)) (Hb : (t, b) ∈ omap ev_reply (sv_events s))
    (Hne : a ≠ key0 ∧ b ≠ key0) :
  a = b.
Proof.
  destruct (never_started_inv w0 Hstart) as [Hok HW0]. pose proof (wrun_inv fl w0 acts w Hok HW0 Hrun Hstored) as HW.
  destruct Hne as [Ha0 Hb0]. pose proof (wi_servers w HW s Hs) as Hi. unfold server_inv in Hi.
  unfold sv_events in *. destruct (sv_life s) as [n|m].
  - destruct Hi as (_ & _ & HI). by eapply (ci_unique _ _ HI); apply (ci_reply _ _ HI).
  - rewrite app_nil_r in *. by eapply (mi_unique _ _ Hi); apply (mi_reply _ _ Hi).
Qed.
End safety.
