(* ===== verification/RaftMeta.v ===== *)
(** * The meta file

    [FileBasedSingleMetaStorage] of src/melon/raft/raft_meta.{h,cc}: term and
    vote in one protobuf file that is replaced by a rename.  Writes may fail in
    any way: a call that reports success has replaced the file, one that
    reports a failure has left the file as it was, so that the storage keeps
    the laws of MetaStorage.v.  Reads are taken to succeed. *)

From Stdlib Require Import Ascii String.
From stdpp Require Import prelude gmap.
From S2P Require Import Prelude StdContainers Bytes Text Configuration PeerText FileSystem Protobuf MetaStorage.
Local Open Scope Z_scope.

(** ** The message *)

(** [StablePBMeta]: the term and the vote as a string. *)
Class PbStable := {
  pb_stable_serialize : Z → list Z → list Z;
  pb_stable_parse : list Z → Z * list Z;
}.

Class PbStableLaws `{PbStable} := {
  pb_stable_roundtrip t v :
    - 2 ^ 63 ≤ t < 2 ^ 63 → zlen v < 2 ^ 10 →
    zlen (pb_stable_serialize t v) < 2 ^ 31 ∧ pb_stable_parse (pb_stable_serialize t v) = (t, v);
}.

(** The wire format: field 1 a varint, field 2 a string. *)
Definition wire_stable_parse (d : list Z) : Z * list Z :=
  match d with
  | 8 :: d1 =>
      match read_varint d1 with
      | Some (t, 18 :: d2) =>
          match read_varint d2 with
          | Some (n, rest) => (i64 t, take (Z.to_nat n) rest)
          | None => (i64 t, [])
          end
      | Some (t, _) => (i64 t, [])
      | None => (0, [])
      end
  | _ => (0, [])
  end.

#[local] Instance wire_stable : PbStable := {
  pb_stable_serialize t v := 8 :: varint64 (u64 t) ++ wire_string 18 v;
  pb_stable_parse := wire_stable_parse;
}.

#[local] Instance wire_stable_laws : PbStableLaws.
Proof.
  split. intros t v Ht Hv. cbn [pb_stable_serialize pb_stable_parse wire_stable]. pose proof (u64_range t).
  pose proof (zlen_nonneg v). split.
  - unfold wire_string. rewrite !zlen_cons, zlen_app, zlen_cons, zlen_app.
    pose proof (varint_length 10 (u64 t)). pose proof (varint_length 10 (zlen v)). unfold varint64, zlen in *. lia.
  - unfold wire_stable_parse. rewrite read_varint64 by done. unfold wire_string. cbn [app].
    rewrite read_varint64 by lia. rewrite i64_u64 by done.
    by rewrite take_ge by (unfold zlen; lia).
Qed.

(** ** The storage *)

Record FileBasedSingleMetaStorage := mkSingleMeta {
  sm_world : World;
  sm_path : list Z;
  sm_sync : bool;
  sm_is_inited : bool;
  sm_term : Z;
  sm_votedfor : PeerId;
}.

Definition _s_raft_meta : list Z := chars "raft_meta"%string.

Definition sm_file (m : FileBasedSingleMetaStorage) : list Z := sm_path m ++ chars "/"%string ++ _s_raft_meta.

Definition sm_with_world (w : World) (m : FileBasedSingleMetaStorage) : FileBasedSingleMetaStorage :=
  mkSingleMeta w (sm_path m) (sm_sync m) (sm_is_inited m) (sm_term m) (sm_votedfor m).

(** [FileBasedSingleMetaStorage(path)] on the same medium. *)
Definition sm_new (m : FileBasedSingleMetaStorage) : FileBasedSingleMetaStorage :=
  mkSingleMeta (sm_world m) (sm_path m) (sm_sync m) false 1 empty_peer.

(** [CreateDirectoryAndGetError]: 0 or the error. *)
Definition create_meta_directory : IO Z := λ w,
  let '(r, w) := next_write w in
  match r with
  | SysError e => Some (if decide (e = 0) then -1 else e, set_errno w e)
  | _ => Some (0, w)
  end.

Section storage.
Context `{PbStable}.
Implicit Types m : FileBasedSingleMetaStorage.

(** [save()]; term and vote are an [int64_t] and a [PeerId] of machine
    integers with an IPv4 endpoint. *)
Definition sm_save m : option (Z * FileBasedSingleMetaStorage) :=
  CHECK (- 2 ^ 63 ≤ sm_term m < 2 ^ 63);;
  CHECK (peer_ok (sm_votedfor m));;
  votedfor ← peer_to_string (sm_votedfor m);
  '(ret, w) ← pb_file_save (sm_file m) (pb_stable_serialize (sm_term m) votedfor) (sm_sync m) (sm_world m);
  Some (ret, sm_with_world w m).

Definition sm_load m : option (Z * FileBasedSingleMetaStorage) :=
  '(msg, w) ← pb_file_load (sm_file m) (sm_world m);
  match msg with
  | Some d =>
      let '(t, v) := pb_stable_parse d in
      '(p, ret) ← peer_parse v;
      Some (ret, mkSingleMeta w (sm_path m) (sm_sync m) (sm_is_inited m) t p)
  | None => Some (if decide (w_errno w = ENOENT) then 0 else -1, sm_with_world w m)
  end.

Definition sm_init m : option (Z * FileBasedSingleMetaStorage) :=
  if sm_is_inited m then Some (0, m)
  else
    '(e, w) ← create_meta_directory (sm_world m);
    if decide (e ≠ 0) then Some (e, sm_with_world w m)
    else
      '(ret, m1) ← sm_load (sm_with_world w m);
      if decide (ret ≠ 0) then Some (EIO, m1)
      else Some (0, mkSingleMeta (sm_world m1) (sm_path m1) (sm_sync m1) true (sm_term m1) (sm_votedfor m1)).

Definition sm_set_term_and_votedfor (t : Z) (v : PeerId) m : option (Z * FileBasedSingleMetaStorage) :=
  if negb (sm_is_inited m) then Some (EINVAL, m)
  else
    '(ret, m1) ← sm_save (mkSingleMeta (sm_world m) (sm_path m) (sm_sync m) true t v);
    Some (if decide (ret ≠ 0) then EIO else 0, m1).

Definition sm_get_term_and_votedfor m : option (Z * (Z * PeerId) * FileBasedSingleMetaStorage) :=
  if negb (sm_is_inited m) then Some (EINVAL, (0, empty_peer), m)
  else Some (0, (sm_term m, sm_votedfor m), m).

#[global] Instance single_meta_storage : RaftMetaStorage FileBasedSingleMetaStorage := {
  ms_init := sm_init;
  ms_set_term_and_votedfor := sm_set_term_and_votedfor;
  ms_get_term_and_votedfor := sm_get_term_and_votedfor;
  ms_reopen := sm_new;
}.
End storage.

(** ** The laws *)

Section laws.
Context `{PbStableLaws}.
Implicit Types m : FileBasedSingleMetaStorage.

(** What [load] finds. *)
Definition sm_durable m : Z * PeerId :=
  match lookup_file (sm_world m) (sm_file m) with
  | None => (1, empty_peer)
  | Some c => let '(t, v) := pb_stable_parse (drop 4 c) in (t, from_option fst empty_peer (peer_parse v))
  end.

(** What [save] writes. *)
Definition saved_message (c : list Z) : Prop :=
  ∃ t p v, - 2 ^ 63 ≤ t < 2 ^ 63 ∧ peer_ok p ∧ peer_to_string p = Some v ∧ c = pb_file_bytes (pb_stable_serialize t v).

(** No file yet, or one that [save] wrote; reads succeed. *)
Definition sm_wf m : Prop :=
  fs_ok (sm_file m) (sm_world m) ∧ w_reads (sm_world m) = [] ∧
  ∀ c, lookup_file (sm_world m) (sm_file m) = Some c → saved_message c.

Lemma peer_string_short p v : peer_to_string p = Some v → zlen v < 2 ^ 10.
Proof.
  unfold peer_to_string. destruct (endpoint2str _); [|done]. cbn. intros [= <-]. rewrite zlen_take. lia.
Qed.

Lemma drop_pb_file_bytes msg : drop 4 (pb_file_bytes msg) = msg.
Proof. unfold pb_file_bytes. by rewrite drop_app_length' by by rewrite store_le_length. Qed.

Lemma durable_stored t p v :
  - 2 ^ 63 ≤ t < 2 ^ 63 → peer_ok p → peer_to_string p = Some v →
  (let '(t', v') := pb_stable_parse (drop 4 (pb_file_bytes (pb_stable_serialize t v))) in
   (t', from_option fst empty_peer (peer_parse v'))) = (t, p).
Proof.
  intros Ht Hp Hv. rewrite drop_pb_file_bytes.
  destruct (pb_stable_roundtrip t v Ht (peer_string_short p v Hv)) as [_ ->]. by rewrite (peer_parse_string p v).
Qed.

Lemma sm_set_law t v m rc m' :
  sm_wf m → sm_set_term_and_votedfor t v m = Some (rc, m') →
  sm_wf m' ∧ sm_durable m' = if decide (rc = 0) then (t, v) else sm_durable m.
Proof.
  intros (Hfs & Hr & Hc). unfold sm_set_term_and_votedfor. destruct (sm_is_inited m); cbn [negb];
    [|by intros [= <- <-]].
  unfold sm_save. cbn [sm_term sm_votedfor sm_world sm_sync].
  intros Hset. apply bind_Some in Hset as ([ret m1] & Hsv & [= <- <-]).
  apply CHECK_bind_Some in Hsv as [Ht Hsv]. apply CHECK_bind_Some in Hsv as [Hp Hsv].
  apply bind_Some in Hsv as (s & Hs & Hsv). apply bind_Some in Hsv as ([ret' w'] & Hsv & [= <- <-]). unfold sm_file in *. cbn [sm_path] in Hsv.
  apply pb_file_save_atomic in Hsv as (Hfs' & Hr' & Hl); [|done].
  unfold sm_wf, sm_durable, sm_file, sm_with_world. cbn [sm_world sm_path]. rewrite Hl.
  destruct (decide (ret' = 0)) as [->|Hne]; cbn.
  - split; [split_and!; [done|congruence|]|by apply durable_stored]. intros c [= <-]. by exists t, v, s.
  - rewrite (decide_True (P := ret' ≠ 0)), decide_False by done. split; [|done]. split_and!; [done|congruence|done].
Qed.

Lemma create_meta_directory_keeps path w e w' :
  create_meta_directory w = Some (e, w') →
  lookup_file w' path = lookup_file w path ∧ w_reads w' = w_reads w ∧ (fs_ok path w → fs_ok path w').
Proof.
  unfold create_meta_directory. destruct (next_write w) as [o w1] eqn:Eo. unfold next_write in Eo.
  assert (∀ x, w_dir (set_errno w1 x) = w_dir w ∧ w_next (set_errno w1 x) = w_next w ∧
    w_reads (set_errno w1 x) = w_reads w ∧ w_files (set_errno w1 x) = w_files w) as Hw.
  { intros x. destruct (w_writes w); by injection Eo as <- <-. }
  assert (w1 = set_errno w1 (w_errno w1)) as Hw1 by by destruct w1.
  destruct o as [|k|x]; intros [= <- <-]; [rewrite Hw1|rewrite Hw1|];
    match goal with |- context [set_errno w1 ?x] => destruct (Hw x) as (Hd & Hn & Hr & Hf) end;
    unfold lookup_file, fs_ok, w_content; by rewrite Hd, Hn, Hr, Hf.
Qed.

(** Loading a storage that keeps its invariant. *)
Lemma sm_load_spec m :
  sm_wf m →
  ∃ m', sm_load m = Some (0, m') ∧ sm_wf m' ∧ sm_durable m' = sm_durable m ∧
    ((sm_term m, sm_votedfor m) = (1, empty_peer) → (sm_term m', sm_votedfor m') = sm_durable m).
Proof.
  intros (Hfs & Hr & Hc). unfold sm_load. destruct (lookup_file (sm_world m) (sm_file m)) as [c|] eqn:Ef.
  - destruct (Hc _ eq_refl) as (t & p & v & Hrg & Hp & Hs & ->). pose proof Ef as Ef'. unfold lookup_file in Ef'.
    apply fmap_Some in Ef' as (ino & Ei & Hb).
    destruct (pb_stable_roundtrip t v Hrg (peer_string_short p v Hs)) as [Hlen Hrt].
    rewrite (pb_file_load_reads _ _ ino (pb_stable_serialize t v)) by done. cbn [mbind option_bind].
    rewrite Hrt, (peer_parse_string p v) by done. eexists. split; [done|].
    unfold sm_wf, sm_durable. change (sm_file (mkSingleMeta _ _ _ _ t p)) with (sm_file m). cbn [sm_world].
    rewrite Ef, (durable_stored t p v) by done. split_and!; done.
  - pose proof Ef as Ef'. unfold lookup_file in Ef'. apply fmap_None in Ef'.
    assert (pb_file_load (sm_file m) (sm_world m) = Some (None, set_errno (sm_world m) ENOENT)) as ->.
    { unfold pb_file_load, mbind, io_bind, sys_open, next_read. by rewrite Hr, Ef'. }
    cbn [mbind option_bind]. rewrite decide_True by done. eexists. split; [done|].
    unfold sm_durable. rewrite Ef. change (sm_file (sm_with_world _ m)) with (sm_file m).
    change (lookup_file (sm_world (sm_with_world _ m)) (sm_file m)) with (lookup_file (sm_world m) (sm_file m)).
    rewrite Ef. split; [|split; [done|intros Htv; exact Htv]].
    split; [exact Hfs|]. split; [exact Hr|]. intros c.
    change (lookup_file (sm_world m) (sm_file m) = Some c → saved_message c). by rewrite Ef.
Qed.

Lemma sm_init_spec m rc m' :
  sm_wf m → sm_init m = Some (rc, m') →
  sm_wf m' ∧ sm_durable m' = sm_durable m ∧
  (sm_is_inited m = false → (sm_term m, sm_votedfor m) = (1, empty_peer) → rc = 0 →
   sm_is_inited m' = true ∧ (sm_term m', sm_votedfor m') = sm_durable m).
Proof.
  intros Hwf. unfold sm_init. destruct (sm_is_inited m) eqn:Ei; [by intros [= <- <-]|].
  intros ([e w] & (Hl & Hr & Hfs)%(create_meta_directory_keeps (sm_file m)) & Hx)%bind_Some.
  assert (sm_wf (sm_with_world w m)) as Hwf1.
  { destruct Hwf as (H1 & H2 & H3). split_and!; [by apply Hfs|cbn; congruence|].
    intros c. change (lookup_file w (sm_file m) = Some c → saved_message c). rewrite Hl. apply H3. }
  assert (sm_durable (sm_with_world w m) = sm_durable m) as Hd1.
  { unfold sm_durable. change (lookup_file (sm_world (sm_with_world w m)) (sm_file (sm_with_world w m))) with
      (lookup_file w (sm_file m)). by rewrite Hl. }
  case_decide as He; [injection Hx as <- <-; split_and!; [done..|]; intros _ _ ->; by destruct He|].
  destruct (sm_load_spec _ Hwf1) as (m1 & Hm1 & Hwf2 & Hd2 & Htv). rewrite Hm1 in Hx. cbn in Hx.
  injection Hx as <- <-. rewrite Hd1 in *. split_and!; [exact Hwf2|exact Hd2|]. intros _ Htv0 _. split; [done|].
  by apply Htv.
Qed.

#[global] Program Instance single_meta_laws : RaftMetaLaws FileBasedSingleMetaStorage := {
  ms_wf := sm_wf;
  ms_durable := sm_durable;
  ms_set_law := sm_set_law;
}.
Next Obligation. done. Qed.
Next Obligation. intros m rc m' Hwf Hi. by destruct (sm_init_spec m rc m' Hwf Hi) as (? & ? & _). Qed.
Next Obligation.
  intros m m1 rc tv m2 Hwf Hi Hg. destruct (sm_init_spec (sm_new m) 0 m1 Hwf Hi) as (Hwf1 & Hd1 & Htv).
  destruct (Htv eq_refl eq_refl eq_refl) as [Hin Heq]. cbn in Hg. unfold sm_get_term_and_votedfor in Hg.
  rewrite Hin in Hg. injection Hg as <- <- <-. split_and!; [done|exact Hd1|]. intros _. exact Heq.
Qed.

(** ** A life of the storage *)

(** Calls of [set_term_and_votedfor] in order, and the last pair one of them
    acknowledged. *)
Fixpoint sm_run m (ops : list (Z * PeerId)) (acked : Z * PeerId)
  : option ((Z * PeerId) * FileBasedSingleMetaStorage) :=
  match ops with
  | [] => Some (acked, m)
  | (t, v) :: ops' =>
      '(rc, m') ← sm_set_term_and_votedfor t v m;
      sm_run m' ops' (if decide (rc = 0) then (t, v) else acked)
  end.

Lemma sm_run_durable m ops acked m' :
  sm_wf m → sm_run m ops (sm_durable m) = Some (acked, m') → sm_wf m' ∧ sm_durable m' = acked.
Proof.
  revert m. induction ops as [|[t v] ops IH]; intros m Hwf; cbn [sm_run]; [by intros [= <- <-]|].
  intros ([rc m1] & Hset & Hr)%bind_Some. destruct (sm_set_law t v m rc m1 Hwf Hset) as [Hwf1 Hd1].
  rewrite <-Hd1 in Hr. by apply (IH m1).
Qed.

(** C5. The meta file survives failures and restarts.  Whatever system calls
    fail while term and vote are stored, a process that opens the storage
    afterwards reads the last pair whose store was acknowledged (or what the
    file held before); opening it cannot fail unless its directory cannot be
    made. *)
Theorem raft_meta_keeps_acked (m m1 : FileBasedSingleMetaStorage) (ops : list (Z * PeerId)) (acked : Z * PeerId)
    (Hwf : sm_wf m) (Hrun : sm_run m ops (sm_durable m) = Some (acked, m1)) :
  ∃ rc m2, sm_init (sm_new m1) = Some (rc, m2) ∧ sm_durable m2 = acked ∧
    (rc = 0 → sm_get_term_and_votedfor m2 = Some (0, acked, m2)) ∧
    (w_writes (sm_world m1) = [] → rc = 0).
Proof.
  destruct (sm_run_durable m ops acked m1 Hwf Hrun) as [Hwf1 <-].
  assert (∃ rc m2, sm_init (sm_new m1) = Some (rc, m2) ∧ (w_writes (sm_world m1) = [] → rc = 0))
    as (rc & m2 & Hi & Hq).
  { unfold sm_init. cbn [sm_is_inited sm_new]. destruct (create_meta_directory (sm_world m1)) as [[e w]|] eqn:Ec.
    - pose proof (create_meta_directory_keeps (sm_file m1) _ _ _ Ec) as (Hl & Hr & Hfs).
      assert (sm_wf (sm_with_world w (sm_new m1))) as Hwf2.
      { destruct Hwf1 as (H1 & H2 & H3). split; [by apply Hfs|]. split; [cbn; congruence|].
        intros c. change (lookup_file w (sm_file m1) = Some c → saved_message c). rewrite Hl. apply H3. }
      change (create_meta_directory (sm_world (sm_new m1))) with (create_meta_directory (sm_world m1)). rewrite Ec. cbn.
      destruct (sm_load_spec _ Hwf2) as (m2 & -> & _). cbn.
      assert (w_writes (sm_world m1) = [] → e = 0) as He.
      { intros Hw. unfold create_meta_directory, next_write in Ec. rewrite Hw in Ec. by injection Ec as <- _. }
      destruct (decide (e ≠ 0)) as [Hne|_]; do 2 eexists; (split; [done|]); [intros Hw; by destruct Hne; apply He|done].
    - unfold create_meta_directory in Ec. destruct (next_write _) as [[] ?]; done. }
  destruct (sm_init_spec (sm_new m1) rc m2 Hwf1 Hi) as (_ & Hd & Htv). exists rc, m2. split_and!; [done|exact Hd| |done].
  intros ->. destruct (Htv eq_refl eq_refl eq_refl) as [Hin Heq]. unfold sm_get_term_and_votedfor.
  rewrite Hin. cbn. do 2 f_equal. by rewrite Heq.
Qed.
End laws.

(** ** Witness *)

(** A new storage whose second store fails at the rename. *)
Definition ex_single_meta (faults : list SysResult) : FileBasedSingleMetaStorage :=
  mkSingleMeta (FileSystem.mkWorld ∅ [] 1 0 [] faults) (chars "m"%string) true true 1 empty_peer.

Definition ex_meta_peer : PeerId := mkPeerId (mkEndPoint 16777343 8000) 0 REPLICA.

Lemma raft_meta_keeps_acked_witness :
  ∃ m1 rc m2,
    sm_run (ex_single_meta (repeat SysDone 9 ++ [SysError 5])) [(2, ex_meta_peer); (3, empty_peer)] (1, empty_peer)
      = Some ((2, ex_meta_peer), m1) ∧
    sm_init (sm_new m1) = Some (rc, m2) ∧ rc = 0 ∧
    sm_get_term_and_votedfor m2 = Some (0, (2, ex_meta_peer), m2).
Proof.
  destruct (sm_run (ex_single_meta (repeat SysDone 9 ++ [SysError 5])) [(2, ex_meta_peer); (3, empty_peer)] (1, empty_peer))
    as [[acked m1]|] eqn:E; [|by vm_compute in E].
  assert (acked = (2, ex_meta_peer) ∧ w_writes (sm_world m1) = []) as [-> Hw].
  { vm_compute in E. injection E as <- <-. done. }
  destruct (raft_meta_keeps_acked (ex_single_meta (repeat SysDone 9 ++ [SysError 5])) m1
    [(2, ex_meta_peer); (3, empty_peer)] (2, ex_meta_peer)) as (rc & m2 & Hi & _ & Hg & Hq).
  - split; [split; intros ? [=]|]. split; [done|]. intros c [=].
  - exact E.
  - exists m1, rc, m2. split_and!; [done|exact Hi|by apply Hq|by apply Hg, Hq].
Defined.
