(* ===== verification/ClusterRuns.v ===== *)
(** * Runs of a group

    Three servers on memory logs and meta files: an election that goes well,
    and one in which a server cannot store its vote for itself and leads all
    the same.  A group of one that is shut down while it elects itself. *)

From Stdlib Require Import Ascii String.
From stdpp Require Import prelude gmap.
From S2P Require Import Prelude StdContainers Text Configuration Ballot ClosureQueue BallotBox PeerText.
From S2P Require Import ConfigurationManager LogStorage MemoryLog LogManager StateMonad Messages Lease.
From S2P Require Import FileSystem Protobuf MetaStorage RaftMeta AppendEntriesCache.
From S2P Require Import NodeState NodeVote NodeCore NodeLog NodeLogSpec NodeRun NodeStep Election Cluster.
Local Open Scope Z_scope.

#[local] Existing Instance wire_stable.
#[local] Existing Instance wire_stable_laws.

Abbreviation RunGroup := (Group MemoryLogStorage FileBasedSingleMetaStorage).
Abbreviation RunAction := (Action MemoryLogStorage).

Definition run_flags : RaftFlags := mkRaftFlags false true true 1000 false 10.

Definition run_env : Env :=
  mkEnv 10000 10000 (λ _, 0) false (λ _, 0) (λ _, 0) (λ _, 10000) (λ _, false) None (λ _ _, 0).

(** Servers 1, 2 and 3. *)
Definition run_peer (k : nat) : PeerId := mkPeerId (mkEndPoint (Z.of_nat k + 1) 8000) 0 REPLICA.

Definition run_text (k : nat) : list Z := default [] (peer_to_string (run_peer k)).

Definition run_conf : Configuration := conf_of_vector [run_peer 0; run_peer 1; run_peer 2].

Definition run_options : NodeOptions := mkNodeOptions 1000 1000 1000 1000 false run_conf 0.

(** A medium without a file, and the outcomes of its write calls to come. *)
Definition run_medium (writes : list SysResult) : FileBasedSingleMetaStorage :=
  mkSingleMeta (FileSystem.mkWorld ∅ [] 1 0 [] writes) (chars "meta"%string) true false 1 empty_peer.

Definition run_group (writes : nat → list SysResult) : RunGroup :=
  mkGroup ((λ k, mkServer (run_peer k) [] (Down (run_medium (writes k)))) <$> [0%nat; 1%nat; 2%nat]) [].

(** A start with an empty log. *)
Definition start (k : nat) : RunAction :=
  ActStart k run_env [] run_options (mkInitEnv true 0 true (0, ml_new, cm_new) 0 None true) [].

Definition input (k : nat) (i : NodeInput) : RunAction := ActInput k run_env i.

(** The call that waits for the log goes on. *)
Definition goes_on (k : nat) : list RunAction := [input k (InEnterLastLogId 0); input k (InResume 0)].

Definition timeout_now (k : nat) (term : Z) : RunAction :=
  input k (InTimeoutNow (mkTimeoutNowRequest [] (run_text k) (run_text k) term false)).

(** The request of candidate [k] to voter [j], with the empty log. *)
Definition vote_request (k j : nat) (term : Z) : RequestVoteRequest :=
  mkRequestVoteRequest [] (run_text k) (run_text j) term 0 0 None.

(** Candidate [k] of [term] asks [j], whose last term was [previous]; the
    vote arrives. *)
Definition asks (k j : nat) (term previous version : Z) : list RunAction :=
  [input j (InRequestVoteRequest (vote_request k j term))] ++ goes_on j ++
  [input k (InRequestVoteResponse (run_peer j) term version (mkRequestVoteResponse term true false previous false))].

(** Server [k] is told to elect itself, and does. *)
Definition election (k j : nat) (term previous version : Z) : list RunAction :=
  [timeout_now k (term - 1)] ++ goes_on k ++ asks k j term previous version.

Definition heartbeat (k j : nat) (term : Z) : RunAction :=
  input j (InAppendEntries (mkAppendEntriesRpc 0
    (mkAppendEntriesRequest [] (run_text k) (run_text j) term 0 0 [] 0) [] 0) false).

Definition run_start : list RunAction := [start 0; start 1; start 2].

(** ** A run that goes well *)

(** Server 1 wins term 2 with the vote of server 2, tells server 0, and goes on
    leading. *)
Definition good_run : list RunAction :=
  run_start ++ election 1 2 2 1 1 ++ [heartbeat 1 0 2; input 1 InStepdownTimeout].

(** ** A vote that is not stored

    Server 1 leads term 2, and server 0 hears of it; server 1 crashes and comes
    back.  Server 0 stands in term 3 and asks for votes; storing its own vote
    fails, and it takes its vote back.  The vote of server 1 arrives, and since
    server 1 was the last leader, server 0 counts itself as well and leads.  It
    crashes, comes back in term 2, and votes for server 2 in term 3. *)
Definition bad_run : list RunAction :=
  run_start ++ election 1 2 2 1 1 ++ [heartbeat 1 0 2; ActCrash 1; start 1] ++ election 0 1 3 2 1 ++
  [ActCrash 0; start 0] ++ election 2 0 3 2 1.

(** The directory, the five calls of the first store, and then an error. *)
Definition bad_writes (k : nat) : list SysResult :=
  if decide (k = 0%nat) then repeat SysDone 6 ++ [SysError EIO] else [].

(** ** Facts about the runs *)

Lemma run_medium_wf writes : sm_wf (run_medium writes).
Proof. split; [split; intros ? [=]|]. split; [done|]. intros c [=]. Qed.

Lemma run_never_started writes : never_started (run_group writes).
Proof.
  split_and!; [|done|].
  - apply (bool_decide_eq_true_1 _). vm_compute. reflexivity.
  - intros s (k & -> & Hk)%list_elem_of_fmap. split_and!; [|done|].
    + repeat (apply elem_of_cons in Hk as [->|Hk]; [by vm_compute|]). by apply not_elem_of_nil in Hk.
    + exists (run_medium (writes k)). split_and!; [done|apply run_medium_wf|done].
Qed.

Lemma run_conf_sorted : set_wf peer_lt (_peers run_conf).
Proof. apply conf_of_vector_wf. Qed.

Lemma run_ballot b :
  peer_id <$> bl_peers b = _peers run_conf → bl_old_peers b = [] → ballot_wf b ∧ votes_in b run_conf.
Proof.
  intros H1 H2. unfold ballot_wf, votes_in. rewrite H1, H2. split; [split; [apply run_conf_sorted|constructor]|].
  split; [by vm_compute|by left].
Qed.

(** C37. A store that fails breaks election safety.  In a run in which one
    server fails once to store its vote for itself, two different servers lead
    in term 3, each by a ballot over the same configuration: [elect_self] has
    asked for votes before it stores its own, and an answer of the last leader
    counts the server itself no matter whether its vote was stored. *)
Theorem unstored_vote_two_leaders :
  ∃ w b0 b2, wrun run_flags (run_group bad_writes) bad_run = Some w ∧
    (3, run_peer 0, b0) ∈ g_elected w ∧ (3, run_peer 2, b2) ∈ g_elected w ∧
    ballot_wf b0 ∧ ballot_wf b2 ∧ votes_in b0 run_conf ∧ votes_in b2 run_conf ∧
    ¬ peer_eq (run_peer 0) (run_peer 2).
Proof.
  eexists _, _, _. split; [vm_compute; reflexivity|].
  split; [apply (list_elem_of_lookup_2 _ 1); vm_compute; reflexivity|].
  split; [apply (list_elem_of_lookup_2 _ 2); vm_compute; reflexivity|].
  split; [apply run_ballot; by vm_compute|]. split; [apply run_ballot; by vm_compute|].
  split; [apply run_ballot; by vm_compute|]. split; [apply run_ballot; by vm_compute|].
  apply (bool_decide_eq_true_1 _). vm_compute. reflexivity.
Qed.

Lemma election_safety_witness :
  ∃ w p1 p2 b1 b2, wrun run_flags (run_group (λ _, [])) good_run = Some w ∧
    self_votes_stored w ∧ g_elected w = [(2, p1, b1); (2, p2, b2)] ∧ peer_eq p1 p2.
Proof.
  destruct (wrun run_flags (run_group (λ _, [])) good_run) as [w|] eqn:E; [|by vm_compute in E].
  assert (∃ p1 p2 b1 b2, g_elected w = [(2, p1, b1); (2, p2, b2)] ∧ peer_id <$> bl_peers b1 = _peers run_conf ∧
    peer_id <$> bl_peers b2 = _peers run_conf ∧ bl_old_peers b1 = [] ∧ bl_old_peers b2 = []) as
    (p1 & p2 & b1 & b2 & He & H1 & H2 & H3 & H4).
  { vm_compute in E. injection E as <-. do 4 eexists. split; [reflexivity|]. by vm_compute. }
  assert (self_votes_stored w) as Hs.
  { intros s Hin. vm_compute in E. injection E as <-.
    repeat (apply elem_of_cons in Hin as [->|Hin]; [by vm_compute|]). by apply not_elem_of_nil in Hin. }
  destruct (run_ballot b1 H1 H3) as [Hw1 Hc1]. destruct (run_ballot b2 H2 H4) as [Hw2 Hc2].
  exists w, p1, p2, b1, b2. split_and!; [done..|].
  assert ((2, p1, b1) ∈ g_elected w) as Hin1 by (rewrite He; apply list_elem_of_here).
  assert ((2, p2, b2) ∈ g_elected w) as Hin2 by (rewrite He; apply list_elem_of_further, list_elem_of_here).
  exact (election_safety run_flags (run_group (λ _, [])) w good_run 2 p1 p2 b1 b2 run_conf
    (run_never_started _) E Hs Hin1 Hin2 Hw1 Hw2 Hc1 Hc2).
Defined.

(** Server 2 crashes after its vote and hears of another candidate of the same
    term. *)
Definition vote_run : list RunAction :=
  run_start ++ election 1 2 2 1 1 ++ [ActCrash 2; start 2; input 2 (InRequestVoteRequest (vote_request 0 2 2))] ++
  goes_on 2.

Lemma one_vote_per_term_witness :
  ∃ w s, wrun run_flags (run_group (λ _, [])) vote_run = Some w ∧ g_servers w !! 2%nat = Some s ∧
    omap ev_reply (sv_events s) = [(2, peer_key (run_peer 1))] ∧
    ∀ b, (2, b) ∈ omap ev_reply (sv_events s) → b ≠ key0 → peer_key (run_peer 1) = b.
Proof.
  destruct (wrun run_flags (run_group (λ _, [])) vote_run) as [w|] eqn:E; [|by vm_compute in E].
  assert (∃ s, g_servers w !! 2%nat = Some s ∧ omap ev_reply (sv_events s) = [(2, peer_key (run_peer 1))]) as (s & Hs & Hr).
  { vm_compute in E. injection E as <-. eexists. split; [reflexivity|]. by vm_compute. }
  assert (self_votes_stored w) as Hst.
  { intros s' Hin. vm_compute in E. injection E as <-.
    repeat (apply elem_of_cons in Hin as [->|Hin]; [by vm_compute|]). by apply not_elem_of_nil in Hin. }
  exists w, s. split; [done|]. split; [done|]. split; [done|]. intros b Hb Hne.
  assert ((2, peer_key (run_peer 1)) ∈ omap ev_reply (sv_events s)) as Ha by (rewrite Hr; apply list_elem_of_here).
  assert (peer_key (run_peer 1) ≠ key0) as H1 by (by vm_compute).
  exact (one_vote_per_term run_flags (run_group (λ _, [])) w vote_run s 2 (peer_key (run_peer 1)) b
    (run_never_started _) E Hst (list_elem_of_lookup_2 _ _ _ Hs) Ha Hb (conj H1 Hne)).
Defined.

(** The node of server [k] after [acts]. *)
Definition run_node (acts : list RunAction) (k : nat) : option (Node MemoryLogStorage FileBasedSingleMetaStorage) :=
  w ← wrun run_flags (run_group (λ _, [])) acts;
  s ← g_servers w !! k;
  match sv_life s with Up n => Some n | Down _ => None end.

(** Server 1 leads, server 2 takes its heartbeat at 10000; half a timeout later
    the leases of the followers are as server 2's. *)
Definition lease_flags : RaftFlags := mkRaftFlags true true true 1000 false 10.

Definition heartbeat_rpc (k j : nat) (term : Z) : AppendEntriesRpc :=
  mkAppendEntriesRpc 0 (mkAppendEntriesRequest [] (run_text k) (run_text j) term 0 0 [] 0) [] 0.

Lemma heartbeat_acknowledged :
  ∃ f, fl_election_timeout_ms f = 1000 ∧
    acknowledged (S := MemoryLogStorage) (M := FileBasedSingleMetaStorage) lease_flags f 10500 10500 10000.
Proof.
  destruct (run_node (run_start ++ election 1 2 2 1 1) 2) as [n|] eqn:En; [|by vm_compute in En].
  destruct (handle_append_entries_request lease_flags run_env (heartbeat_rpc 1 2 2) false n) as [[u n']|] eqn:Er;
    [|vm_compute in En; injection En as <-; by vm_compute in Er].
  exists (n_follower_lease n'). split.
  { vm_compute in En. injection En as <-. vm_compute in Er. injection Er as <- <-. reflexivity. }
  exists run_env, (heartbeat_rpc 1 2 2), n, n', u. split; [exact Er|].
  vm_compute in En. injection En as <-. vm_compute in Er. injection Er as <- <-. split; [|split].
  - repeat constructor; cbn; try tauto; by intros [_ ?].
  - by exists [].
  - by vm_compute.
Qed.


(** ** An election that is interrupted

    A group of one server: [init] starts its election at once. *)
Definition single_options : NodeOptions :=
  mkNodeOptions 1000 1000 1000 1000 false (conf_of_vector [run_peer 0]) 0.

Definition single_group : RunGroup := mkGroup [mkServer (run_peer 0) [] (Down (run_medium []))] [].

Definition single_start : list RunAction :=
  [ActStart 0 run_env [] single_options (mkInitEnv true 0 true (0, ml_new, cm_new) 0 None true) [];
   input 0 (InEnterLastLogId 0)].

(** Shutting a node down aborts the process if it is electing itself.
    [elect_self] gives up the mutex to learn the last log id and looks only at
    the term when it takes it again.  If nothing happens in between the server
    leads its group of one; if the node is shut down in between, the election
    goes on and fails the [CHECK] of [become_leader]. *)
Theorem shutdown_aborts_election :
  (∃ w, wrun run_flags single_group (single_start ++ [input 0 (InResume 0)]) = Some w ∧
        (λ x, x.1) <$> g_elected w = [(2, run_peer 0)]) ∧
  (∃ w, wrun run_flags single_group (single_start ++ [input 0 (InShutdown None)]) = Some w ∧
        wexec run_flags w (input 0 (InResume 0)) = None).
Proof.
  split; eexists; (split; [vm_compute; reflexivity|]); vm_compute; reflexivity.
Qed.
