(* ===== verification/Replicator.v ===== *)
(** * Replicator

    [Replicator] and [ReplicatorGroup] of src/melon/raft/replicator.{h,cc}: the
    pipeline of AppendEntries rpcs a leader keeps to one follower, with
    heartbeats, snapshots, catching up, read-only followers and the hand-over
    of leadership.

    A replicator is locked by its fiber session for each of its callbacks, and
    a callback is one step; when the session is destroyed no later callback
    finds it.  The node, the state machine caller, the disk thread and other
    replicators use the same log manager and ballot box: before each call into
    one of them they do what the next element of [rw_others] says.  The results
    of timer calls are the stream [rw_sys], 0 past its end.  What leaves the
    replicator is collected in [rw_out], oldest first. *)

From stdpp Require Import prelude.
From S2P Require Import Prelude StdContainers Configuration Ballot ClosureQueue BallotBox PeerText.
From S2P Require Import LogStorage LogManager StateMonad Messages Lease MetaStorage AppendEntriesCache NodeState.
Local Open Scope Z_scope.

Definition EHOSTUNREACH : Z := 113.

(** ** Data *)

Inductive St := IDLE | BLOCKING | APPENDING_ENTRIES | INSTALLING_SNAPSHOT.

#[global] Instance St_eq_dec : EqDecision St.
Proof. solve_decision. Defined.

(** The second and third members are unions: [first_log_index] or
    [last_log_included], [last_log_index] or [last_term_included]. *)
Record Stat := mkStat { st_st : St; st_first_log_index : Z; st_last_log_index : Z }.

Record FlyingAppendEntriesRpc := mkFlying { fy_log_index : Z; fy_entries_size : Z; fy_call_id : Z }.

(** A [CatchupClosure] with the code of its status. *)
Record CatchupClosure := mkCatchupClosure {
  cu_closure : Closure;
  cu_max_margin : Z;
  cu_has_timer : bool;
  cu_error_was_set : bool;
  cu_status : Z;
}.

(** The part of the options that differs between replicators; [ro_id] is the
    value of the session. *)
Record ReplicatorOptions := mkReplicatorOptions {
  ro_id : Z;
  ro_group_id : list Z;
  ro_server_id : PeerId;
  ro_peer_id : PeerId;
  ro_term : Z;
}.

Record Replicator := mkReplicator {
  rp_options : ReplicatorOptions;
  rp_next_index : Z;
  rp_flying_append_entries_size : Z;
  rp_consecutive_error_times : Z;
  rp_has_succeeded : bool;
  rp_timeout_now_index : Z;
  rp_heartbeat_counter : Z;
  rp_append_entries_counter : Z;
  rp_install_snapshot_counter : Z;
  rp_readonly_index : Z;
  rp_st : Stat;
  rp_append_entries_in_fly : list FlyingAppendEntriesRpc;
  rp_install_snapshot_in_fly : Z;
  rp_heartbeat_in_fly : Z;
  rp_timeout_now_in_fly : Z;
  rp_wait_id : Z;
  rp_is_waiter_canceled : bool;
  rp_reader : bool;
  rp_catchup_closure : option CatchupClosure;
}.

(** An rpc ends with an error code or with its response. *)
Definition RpcResult (A : Type) : Type := (Z + A)%type.

Inductive RpEvent :=
  | RpAppendEntries (call_id : Z) (request : AppendEntriesRequest) (attachment : list Z) (send_time : Z)
  | RpHeartbeat (call_id : Z) (request : AppendEntriesRequest) (timeout_ms send_time : Z)
  | RpInstallSnapshot (call_id : Z) (request : InstallSnapshotRequest)
  | RpTimeoutNow (call_id : Z) (request : TimeoutNowRequest) (timeout_ms : Z)
  | RpCancel (call_id : Z)
  | RpBlockTimer (ms : Z)
  | RpHeartbeatTimer (ms : Z)
  | RpHeartbeatNow
  | RpDelHeartbeatTimer
  | RpCatchupTimer
  | RpRunCatchup (c : Closure) (status : Z)
  | RpCommitAt (first_log_index last_log_index : Z) (peer : PeerId)
  | RpCommitted (i : Z)
  | RpIncreaseTermTo (term status : Z)
  | RpSnapshotError (status : Z)
  | RpChangeReadonlyConfig (term : Z) (peer : PeerId) (readonly : bool)
  | RpCloseReader
  | RpThrottleFinish.

Record RpFlags := mkRpFlags {
  raft_max_entries_size : Z;
  raft_max_parallel_append_entries_rpc_num : Z;
  raft_max_body_size : Z;
  raft_retry_replicate_interval_ms : Z;
  rp_enable_witness_to_leader : bool;
}.

(** What the surroundings answer during a callback: the clock, the dynamic
    timeouts, whether the leader is a witness, the throttle (if there is one)
    and the snapshot storage's [open], with the uri and [load_meta] of its
    reader. *)
Record RpEnv := mkRpEnv {
  re_monotonic_ms : Z;
  re_heartbeat_timeout_ms : Z;
  re_election_timeout_ms : Z;
  re_node_is_witness : bool;
  re_throttle : option bool;
  re_snapshot : option (list Z * (Z * SnapshotMetaPb));
}.

Record RpWorld (S : Type) := mkRpWorld {
  rw_replicator : option Replicator;
  rw_log_manager : LogManager S;
  rw_ballot_box : BallotBox;
  rw_others : list (LogManager S * BallotBox → option (LogManager S * BallotBox));
  rw_last_rpc_send_timestamp : Z;
  rw_next_call_id : Z;
  rw_sys : list Z;
  rw_out : list RpEvent;
}.
#[global] Arguments mkRpWorld {S}.
#[global] Arguments rw_replicator {S}.
#[global] Arguments rw_log_manager {S}.
#[global] Arguments rw_ballot_box {S}.
#[global] Arguments rw_others {S}.
#[global] Arguments rw_last_rpc_send_timestamp {S}.
#[global] Arguments rw_next_call_id {S}.
#[global] Arguments rw_sys {S}.
#[global] Arguments rw_out {S}.

(** ** Field updates *)

Definition set_next_index (v : Z) (r : Replicator) : Replicator :=
  mkReplicator (rp_options r) v (rp_flying_append_entries_size r) (rp_consecutive_error_times r)
    (rp_has_succeeded r) (rp_timeout_now_index r) (rp_heartbeat_counter r) (rp_append_entries_counter r)
    (rp_install_snapshot_counter r) (rp_readonly_index r) (rp_st r) (rp_append_entries_in_fly r)
    (rp_install_snapshot_in_fly r) (rp_heartbeat_in_fly r) (rp_timeout_now_in_fly r) (rp_wait_id r)
    (rp_is_waiter_canceled r) (rp_reader r) (rp_catchup_closure r).
Definition set_flying_append_entries_size (v : Z) (r : Replicator) : Replicator :=
  mkReplicator (rp_options r) (rp_next_index r) v (rp_consecutive_error_times r) (rp_has_succeeded r)
    (rp_timeout_now_index r) (rp_heartbeat_counter r) (rp_append_entries_counter r)
    (rp_install_snapshot_counter r) (rp_readonly_index r) (rp_st r) (rp_append_entries_in_fly r)
    (rp_install_snapshot_in_fly r) (rp_heartbeat_in_fly r) (rp_timeout_now_in_fly r) (rp_wait_id r)
    (rp_is_waiter_canceled r) (rp_reader r) (rp_catchup_closure r).
Definition set_consecutive_error_times (v : Z) (r : Replicator) : Replicator :=
  mkReplicator (rp_options r) (rp_next_index r) (rp_flying_append_entries_size r) v (rp_has_succeeded r)
    (rp_timeout_now_index r) (rp_heartbeat_counter r) (rp_append_entries_counter r)
    (rp_install_snapshot_counter r) (rp_readonly_index r) (rp_st r) (rp_append_entries_in_fly r)
    (rp_install_snapshot_in_fly r) (rp_heartbeat_in_fly r) (rp_timeout_now_in_fly r) (rp_wait_id r)
    (rp_is_waiter_canceled r) (rp_reader r) (rp_catchup_closure r).
Definition set_has_succeeded (v : bool) (r : Replicator) : Replicator :=
  mkReplicator (rp_options r) (rp_next_index r) (rp_flying_append_entries_size r)
    (rp_consecutive_error_times r) v (rp_timeout_now_index r) (rp_heartbeat_counter r)
    (rp_append_entries_counter r) (rp_install_snapshot_counter r) (rp_readonly_index r) (rp_st r)
    (rp_append_entries_in_fly r) (rp_install_snapshot_in_fly r) (rp_heartbeat_in_fly r)
    (rp_timeout_now_in_fly r) (rp_wait_id r) (rp_is_waiter_canceled r) (rp_reader r) (rp_catchup_closure r).
Definition set_timeout_now_index (v : Z) (r : Replicator) : Replicator :=
  mkReplicator (rp_options r) (rp_next_index r) (rp_flying_append_entries_size r)
    (rp_consecutive_error_times r) (rp_has_succeeded r) v (rp_heartbeat_counter r)
    (rp_append_entries_counter r) (rp_install_snapshot_counter r) (rp_readonly_index r) (rp_st r)
    (rp_append_entries_in_fly r) (rp_install_snapshot_in_fly r) (rp_heartbeat_in_fly r)
    (rp_timeout_now_in_fly r) (rp_wait_id r) (rp_is_waiter_canceled r) (rp_reader r) (rp_catchup_closure r).
Definition set_heartbeat_counter (v : Z) (r : Replicator) : Replicator :=
  mkReplicator (rp_options r) (rp_next_index r) (rp_flying_append_entries_size r)
    (rp_consecutive_error_times r) (rp_has_succeeded r) (rp_timeout_now_index r) v
    (rp_append_entries_counter r) (rp_install_snapshot_counter r) (rp_readonly_index r) (rp_st r)
    (rp_append_entries_in_fly r) (rp_install_snapshot_in_fly r) (rp_heartbeat_in_fly r)
    (rp_timeout_now_in_fly r) (rp_wait_id r) (rp_is_waiter_canceled r) (rp_reader r) (rp_catchup_closure r).
Definition set_append_entries_counter (v : Z) (r : Replicator) : Replicator :=
  mkReplicator (rp_options r) (rp_next_index r) (rp_flying_append_entries_size r)
    (rp_consecutive_error_times r) (rp_has_succeeded r) (rp_timeout_now_index r) (rp_heartbeat_counter r) v
    (rp_install_snapshot_counter r) (rp_readonly_index r) (rp_st r) (rp_append_entries_in_fly r)
    (rp_install_snapshot_in_fly r) (rp_heartbeat_in_fly r) (rp_timeout_now_in_fly r) (rp_wait_id r)
    (rp_is_waiter_canceled r) (rp_reader r) (rp_catchup_closure r).
Definition set_install_snapshot_counter (v : Z) (r : Replicator) : Replicator :=
  mkReplicator (rp_options r) (rp_next_index r) (rp_flying_append_entries_size r)
    (rp_consecutive_error_times r) (rp_has_succeeded r) (rp_timeout_now_index r) (rp_heartbeat_counter r)
    (rp_append_entries_counter r) v (rp_readonly_index r) (rp_st r) (rp_append_entries_in_fly r)
    (rp_install_snapshot_in_fly r) (rp_heartbeat_in_fly r) (rp_timeout_now_in_fly r) (rp_wait_id r)
    (rp_is_waiter_canceled r) (rp_reader r) (rp_catchup_closure r).
Definition set_readonly_index (v : Z) (r : Replicator) : Replicator :=
  mkReplicator (rp_options r) (rp_next_index r) (rp_flying_append_entries_size r)
    (rp_consecutive_error_times r) (rp_has_succeeded r) (rp_timeout_now_index r) (rp_heartbeat_counter r)
    (rp_append_entries_counter r) (rp_install_snapshot_counter r) v (rp_st r) (rp_append_entries_in_fly r)
    (rp_install_snapshot_in_fly r) (rp_heartbeat_in_fly r) (rp_timeout_now_in_fly r) (rp_wait_id r)
    (rp_is_waiter_canceled r) (rp_reader r) (rp_catchup_closure r).
Definition set_st (v : Stat) (r : Replicator) : Replicator :=
  mkReplicator (rp_options r) (rp_next_index r) (rp_flying_append_entries_size r)
    (rp_consecutive_error_times r) (rp_has_succeeded r) (rp_timeout_now_index r) (rp_heartbeat_counter r)
    (rp_append_entries_counter r) (rp_install_snapshot_counter r) (rp_readonly_index r) v
    (rp_append_entries_in_fly r) (rp_install_snapshot_in_fly r) (rp_heartbeat_in_fly r)
    (rp_timeout_now_in_fly r) (rp_wait_id r) (rp_is_waiter_canceled r) (rp_reader r) (rp_catchup_closure r).
Definition set_append_entries_in_fly (v : list FlyingAppendEntriesRpc) (r : Replicator) : Replicator :=
  mkReplicator (rp_options r) (rp_next_index r) (rp_flying_append_entries_size r)
    (rp_consecutive_error_times r) (rp_has_succeeded r) (rp_timeout_now_index r) (rp_heartbeat_counter r)
    (rp_append_entries_counter r) (rp_install_snapshot_counter r) (rp_readonly_index r) (rp_st r) v
    (rp_install_snapshot_in_fly r) (rp_heartbeat_in_fly r) (rp_timeout_now_in_fly r) (rp_wait_id r)
    (rp_is_waiter_canceled r) (rp_reader r) (rp_catchup_closure r).
Definition set_install_snapshot_in_fly (v : Z) (r : Replicator) : Replicator :=
  mkReplicator (rp_options r) (rp_next_index r) (rp_flying_append_entries_size r)
    (rp_consecutive_error_times r) (rp_has_succeeded r) (rp_timeout_now_index r) (rp_heartbeat_counter r)
    (rp_append_entries_counter r) (rp_install_snapshot_counter r) (rp_readonly_index r) (rp_st r)
    (rp_append_entries_in_fly r) v (rp_heartbeat_in_fly r) (rp_timeout_now_in_fly r) (rp_wait_id r)
    (rp_is_waiter_canceled r) (rp_reader r) (rp_catchup_closure r).
Definition set_heartbeat_in_fly (v : Z) (r : Replicator) : Replicator :=
  mkReplicator (rp_options r) (rp_next_index r) (rp_flying_append_entries_size r)
    (rp_consecutive_error_times r) (rp_has_succeeded r) (rp_timeout_now_index r) (rp_heartbeat_counter r)
    (rp_append_entries_counter r) (rp_install_snapshot_counter r) (rp_readonly_index r) (rp_st r)
    (rp_append_entries_in_fly r) (rp_install_snapshot_in_fly r) v (rp_timeout_now_in_fly r) (rp_wait_id r)
    (rp_is_waiter_canceled r) (rp_reader r) (rp_catchup_closure r).
Definition set_timeout_now_in_fly (v : Z) (r : Replicator) : Replicator :=
  mkReplicator (rp_options r) (rp_next_index r) (rp_flying_append_entries_size r)
    (rp_consecutive_error_times r) (rp_has_succeeded r) (rp_timeout_now_index r) (rp_heartbeat_counter r)
    (rp_append_entries_counter r) (rp_install_snapshot_counter r) (rp_readonly_index r) (rp_st r)
    (rp_append_entries_in_fly r) (rp_install_snapshot_in_fly r) (rp_heartbeat_in_fly r) v (rp_wait_id r)
    (rp_is_waiter_canceled r) (rp_reader r) (rp_catchup_closure r).
Definition set_wait_id (v : Z) (r : Replicator) : Replicator :=
  mkReplicator (rp_options r) (rp_next_index r) (rp_flying_append_entries_size r)
    (rp_consecutive_error_times r) (rp_has_succeeded r) (rp_timeout_now_index r) (rp_heartbeat_counter r)
    (rp_append_entries_counter r) (rp_install_snapshot_counter r) (rp_readonly_index r) (rp_st r)
    (rp_append_entries_in_fly r) (rp_install_snapshot_in_fly r) (rp_heartbeat_in_fly r)
    (rp_timeout_now_in_fly r) v (rp_is_waiter_canceled r) (rp_reader r) (rp_catchup_closure r).
Definition set_is_waiter_canceled (v : bool) (r : Replicator) : Replicator :=
  mkReplicator (rp_options r) (rp_next_index r) (rp_flying_append_entries_size r)
    (rp_consecutive_error_times r) (rp_has_succeeded r) (rp_timeout_now_index r) (rp_heartbeat_counter r)
    (rp_append_entries_counter r) (rp_install_snapshot_counter r) (rp_readonly_index r) (rp_st r)
    (rp_append_entries_in_fly r) (rp_install_snapshot_in_fly r) (rp_heartbeat_in_fly r)
    (rp_timeout_now_in_fly r) (rp_wait_id r) v (rp_reader r) (rp_catchup_closure r).
Definition set_reader (v : bool) (r : Replicator) : Replicator :=
  mkReplicator (rp_options r) (rp_next_index r) (rp_flying_append_entries_size r)
    (rp_consecutive_error_times r) (rp_has_succeeded r) (rp_timeout_now_index r) (rp_heartbeat_counter r)
    (rp_append_entries_counter r) (rp_install_snapshot_counter r) (rp_readonly_index r) (rp_st r)
    (rp_append_entries_in_fly r) (rp_install_snapshot_in_fly r) (rp_heartbeat_in_fly r)
    (rp_timeout_now_in_fly r) (rp_wait_id r) (rp_is_waiter_canceled r) v (rp_catchup_closure r).
Definition set_catchup_closure (v : option CatchupClosure) (r : Replicator) : Replicator :=
  mkReplicator (rp_options r) (rp_next_index r) (rp_flying_append_entries_size r)
    (rp_consecutive_error_times r) (rp_has_succeeded r) (rp_timeout_now_index r) (rp_heartbeat_counter r)
    (rp_append_entries_counter r) (rp_install_snapshot_counter r) (rp_readonly_index r) (rp_st r)
    (rp_append_entries_in_fly r) (rp_install_snapshot_in_fly r) (rp_heartbeat_in_fly r)
    (rp_timeout_now_in_fly r) (rp_wait_id r) (rp_is_waiter_canceled r) (rp_reader r) v.

(** [Replicator()] with its options. *)
Definition rp_new (o : ReplicatorOptions) : Replicator :=
  mkReplicator o 0 0 0 false 0 0 0 0 0 (mkStat IDLE 0 0) [] 0 0 0 0 false false None.

Definition min_flying_index (r : Replicator) : Z := rp_next_index r - rp_flying_append_entries_size r.

Definition set_state (s : St) (r : Replicator) : Replicator :=
  set_st (mkStat s (st_first_log_index (rp_st r)) (st_last_log_index (rp_st r))) r.

Section replicator.
Context {S : Type} `{LogStorage S} (fl : RpFlags) (e : RpEnv).
Abbreviation R := (ST (RpWorld S)).

(** The replicator is there while its callback holds the session. *)
Definition rp_get {A} (f : Replicator → A) : R A :=
  r ← st_get rw_replicator; st_lift (f <$> r).

Definition rp_mod (f : Replicator → Replicator) : R unit :=
  st_mod (λ w, mkRpWorld (f <$> rw_replicator w) (rw_log_manager w) (rw_ballot_box w) (rw_others w)
    (rw_last_rpc_send_timestamp w) (rw_next_call_id w) (rw_sys w) (rw_out w)).

Definition rp_emit (evs : list RpEvent) : R unit :=
  st_mod (λ w, mkRpWorld (rw_replicator w) (rw_log_manager w) (rw_ballot_box w) (rw_others w)
    (rw_last_rpc_send_timestamp w) (rw_next_call_id w) (rw_sys w) (rw_out w ++ evs)).

Definition rp_sys : R Z := λ w,
  Some (default 0 (head (rw_sys w)),
        mkRpWorld (rw_replicator w) (rw_log_manager w) (rw_ballot_box w) (rw_others w)
          (rw_last_rpc_send_timestamp w) (rw_next_call_id w) (tail (rw_sys w)) (rw_out w)).

(** [cntl->call_id()] of a new controller. *)
Definition new_call_id : R Z := λ w,
  Some (rw_next_call_id w,
        mkRpWorld (rw_replicator w) (rw_log_manager w) (rw_ballot_box w) (rw_others w)
          (rw_last_rpc_send_timestamp w) (rw_next_call_id w + 1) (rw_sys w) (rw_out w)).

Definition rp_shared {A} (f : LogManager S → BallotBox → option (LogManager S * BallotBox * A)) : R A := λ w,
  '(m, b) ← match rw_others w with
            | g :: _ => g (rw_log_manager w, rw_ballot_box w)
            | [] => Some (rw_log_manager w, rw_ballot_box w)
            end;
  '(m', b', a) ← f m b;
  Some (a, mkRpWorld (rw_replicator w) m' b' (tail (rw_others w)) (rw_last_rpc_send_timestamp w)
             (rw_next_call_id w) (rw_sys w) (rw_out w)).

Definition rp_log {A} (f : LogManager S → option (LogManager S * A)) : R A :=
  rp_shared (λ m b, '(m', a) ← f m; Some (m', b, a)).

Definition rp_first_log_index : R Z := rp_log (λ m, Some (m, lm_first_log_index m)).
Definition rp_last_log_index : R Z := rp_log (λ m, Some (m, lm_last_log_index m)).

(** [_update_last_rpc_send_timestamp]. *)
Definition update_last_rpc_send_timestamp (t : Z) : R unit :=
  st_mod (λ w, mkRpWorld (rw_replicator w) (rw_log_manager w) (rw_ballot_box w) (rw_others w)
    (if decide (rw_last_rpc_send_timestamp w < t) then t else rw_last_rpc_send_timestamp w)
    (rw_next_call_id w) (rw_sys w) (rw_out w)).

(** A callback that finds the session locks it; otherwise it returns [d]. *)
Definition locked {A} (d : A) (k : R A) : R A :=
  r ← st_get rw_replicator;
  match r with Some _ => k | None => mret d end.

(** ** Snapshot readers and destruction *)

Definition finish_throttle : R unit :=
  match re_throttle e with
  | Some _ => rp_emit [RpThrottleFinish]
  | None => mret tt
  end.

Definition close_reader : R unit :=
  reader ← rp_get rp_reader;
  if (reader : bool) then
    rp_emit [RpCloseReader];;
    rp_mod (set_reader false);;
    finish_throttle
  else mret tt.

(** [_destroy]: the destructor closes the reader. *)
Definition destroy : R unit :=
  close_reader;;
  st_mod (λ w, mkRpWorld None (rw_log_manager w) (rw_ballot_box w) (rw_others w)
    (rw_last_rpc_send_timestamp w) (rw_next_call_id w) (rw_sys w) (rw_out w)).

(** ** Catching up *)

Definition is_catchup (max_margin : Z) : R bool :=
  next ← rp_get rp_next_index;
  first ← rp_first_log_index;
  if decide (next < first) then mret false
  else
    min_flying ← rp_get min_flying_index;
    last ← rp_last_log_index;
    mret (negb (bool_decide (min_flying - 1 + max_margin < last))).

Definition run_catchup (c : CatchupClosure) : R unit :=
  rp_mod (set_catchup_closure None);;
  rp_emit [RpRunCatchup (cu_closure c) (cu_status c)].

Definition notify_on_caught_up (error_code : Z) (before_destroy : bool) : R unit :=
  c ← rp_get rp_catchup_closure;
  match c with
  | None => mret tt
  | Some c =>
      if decide (error_code ≠ ETIMEDOUT ∧ error_code ≠ EPERM) then
        ok ← is_catchup (cu_max_margin c);
        if negb ok || cu_error_was_set c then mret tt
        else
          let c' := mkCatchupClosure (cu_closure c) (cu_max_margin c) (cu_has_timer c) true
                      (if decide (error_code ≠ 0) then error_code else cu_status c) in
          rp_mod (set_catchup_closure (Some c'));;
          if cu_has_timer c && negb before_destroy then
            rc ← rp_sys;
            if decide (rc = 1) then mret tt else run_catchup c'
          else run_catchup c'
      else
        run_catchup (mkCatchupClosure (cu_closure c) (cu_max_margin c) (cu_has_timer c) (cu_error_was_set c)
          (if cu_error_was_set c then cu_status c else error_code))
  end.

Definition wait_for_caught_up (max_margin : Z) (has_due_time : bool) (done : Closure) : R unit :=
  r ← st_get rw_replicator;
  match r with
  | None => rp_emit [RpRunCatchup done EINVAL]
  | Some r =>
      if decide (rp_catchup_closure r ≠ None) then rp_emit [RpRunCatchup done EINVAL]
      else
        caught ← (if rp_has_succeeded r then is_catchup max_margin else mret false);
        if (caught : bool) then rp_emit [RpRunCatchup done 0]
        else
          rc ← (if has_due_time then rp_sys else mret 0);
          if decide (rc ≠ 0) then rp_emit [RpRunCatchup done EINVAL]
          else
            (if has_due_time then rp_emit [RpCatchupTimer] else mret tt);;
            rp_mod (set_catchup_closure (Some (mkCatchupClosure done max_margin has_due_time false 0)))
  end.

Definition on_catch_up_timedout : R unit := locked tt (notify_on_caught_up ETIMEDOUT false).

(** ** The pipeline *)

Definition start_heartbeat_timer : R unit :=
  rc ← rp_sys;
  rp_emit (if decide (rc ≠ 0) then [RpHeartbeatNow] else [RpHeartbeatTimer (re_heartbeat_timeout_ms e)]).

Definition cancel_append_entries_rpcs : R unit :=
  fs ← rp_get rp_append_entries_in_fly;
  rp_emit ((λ f, RpCancel (fy_call_id f)) <$> fs);;
  rp_mod (set_append_entries_in_fly []).

Definition reset_next_index : R unit :=
  rp_mod (λ r, set_flying_append_entries_size 0 (set_next_index (min_flying_index r) r));;
  cancel_append_entries_rpcs;;
  rp_mod (set_is_waiter_canceled true);;
  wait_id ← rp_get rp_wait_id;
  if decide (wait_id ≠ 0) then
    rp_log (λ m, Some (lm_remove_waiter m wait_id));;
    rp_mod (set_wait_id 0)
  else mret tt.

(** [_fill_common_fields]: the request, unless [prev_log_index] was compacted. *)
Definition fill_common_fields (prev_log_index : Z) (is_heartbeat : bool) : R (option AppendEntriesRequest) :=
  prev_log_term ← rp_log (λ m, t ← lm_get_term m prev_log_index; Some (m, t));
  compacted ←
    (if decide (prev_log_term = 0 ∧ prev_log_index ≠ 0) then
       if is_heartbeat then mret true
       else first ← rp_first_log_index; st_check (prev_log_index < first);; mret true
     else mret false);
  if (compacted : bool) && negb is_heartbeat then mret None
  else
    o ← rp_get rp_options;
    server_id ← st_lift (peer_to_string (ro_server_id o));
    peer_id ← st_lift (peer_to_string (ro_peer_id o));
    committed ← rp_shared (λ m b, Some (m, b, bb_last_committed_index b));
    mret (Some (mkAppendEntriesRequest (ro_group_id o) server_id peer_id (ro_term o) prev_log_term
      (if (compacted : bool) then 0 else prev_log_index) [] committed)).

Definition with_entries (ems : list EntryMeta) (q : AppendEntriesRequest) : AppendEntriesRequest :=
  mkAppendEntriesRequest (ae_group_id q) (ae_server_id q) (ae_peer_id q) (ae_term q) (ae_prev_log_term q)
    (ae_prev_log_index q) ems (ae_committed_index q).

Definition wait_more_entries : R unit :=
  r ← rp_get (λ r, r);
  (if decide (rp_wait_id r = 0 ∧ rp_flying_append_entries_size r < raft_max_entries_size fl ∧
              zlen (rp_append_entries_in_fly r) < raft_max_parallel_append_entries_rpc_num fl) then
     wait_id ← rp_log (λ m, Some (lm_notify_on_new_log m (rp_next_index r - 1) (ro_id (rp_options r))));
     rp_mod (set_wait_id wait_id);;
     rp_mod (set_is_waiter_canceled false)
   else mret tt);;
  if decide (rp_flying_append_entries_size r = 0) then rp_mod (set_state IDLE) else mret tt.

(** ** Probes, snapshots and blocking

    [_block], [_send_empty_entries] and [_install_snapshot] call each other:
    [_block] goes on with a probe when no timer can be added.  Each takes what
    it calls as an argument; [block] ties the knot, and returns from the
    recursion when a timer was added. *)

(** [_install_snapshot] with [_block]. *)
Definition install_snapshot_with (block : Z → R unit) : R unit :=
  reader ← rp_get rp_reader;
  if re_node_is_witness e then block EBUSY
  else if (reader : bool) then mret tt
  else if bool_decide (re_throttle e = Some false) then block EBUSY
  else
    rp_mod (set_state INSTALLING_SNAPSHOT);;
    match re_snapshot e with
    | None =>
        finish_throttle;;
        rp_emit [RpSnapshotError EIO]
    | Some (uri, (rc, meta)) =>
        rp_mod (set_reader true);;
        if decide (uri = []) then close_reader;; block EBUSY
        else if decide (rc ≠ 0) then rp_emit [RpSnapshotError EIO]
        else
          call_id ← new_call_id;
          o ← rp_get rp_options;
          server_id ← st_lift (peer_to_string (ro_server_id o));
          peer_id ← st_lift (peer_to_string (ro_peer_id o));
          rp_mod (λ r, set_install_snapshot_counter (rp_install_snapshot_counter r + 1)
                         (set_install_snapshot_in_fly call_id r));;
          rp_mod (λ r, set_st (mkStat (st_st (rp_st r)) (smp_last_included_index meta)
                                 (smp_last_included_term meta)) r);;
          rp_emit [RpInstallSnapshot call_id
            (mkInstallSnapshotRequest (ro_group_id o) server_id peer_id (ro_term o) meta uri)]
    end.

(** [_send_empty_entries(is_heartbeat)] with [_install_snapshot]. *)
Definition send_empty_entries_with (install_snapshot : R unit) (is_heartbeat : bool) : R unit :=
  next ← rp_get rp_next_index;
  q ← fill_common_fields (next - 1) is_heartbeat;
  match q with
  | None => st_check (is_heartbeat = false);; install_snapshot
  | Some q =>
      call_id ← new_call_id;
      if is_heartbeat then
        rp_mod (λ r, set_heartbeat_counter (rp_heartbeat_counter r + 1) (set_heartbeat_in_fly call_id r));;
        rp_emit [RpHeartbeat call_id q (Z.quot (re_election_timeout_ms e) 2) (re_monotonic_ms e)]
      else
        rp_mod (set_st (mkStat APPENDING_ENTRIES next (next - 1)));;
        r ← rp_get (λ r, r);
        st_check (rp_append_entries_in_fly r = []);;
        st_check (rp_flying_append_entries_size r = 0);;
        rp_mod (set_append_entries_in_fly (rp_append_entries_in_fly r ++ [mkFlying next 0 call_id]));;
        rp_mod (set_append_entries_counter (rp_append_entries_counter r + 1));;
        rp_emit [RpAppendEntries call_id q [] (re_monotonic_ms e)]
  end.

(** [fuel] calls may fail to add a timer. *)
Fixpoint block_loop (fuel : nat) (error_code : Z) : R unit :=
  s ← rp_get (λ r, st_st (rp_st r));
  if decide (s = BLOCKING) then mret tt
  else
    let blocking_time :=
      if decide (error_code = EBUSY ∨ error_code = EINTR) then raft_retry_replicate_interval_ms fl
      else re_heartbeat_timeout_ms e in
    rc ← rp_sys;
    if decide (rc = 0) then rp_emit [RpBlockTimer blocking_time];; rp_mod (set_state BLOCKING)
    else
      match fuel with
      | O => mret tt
      | Datatypes.S fuel' => send_empty_entries_with (install_snapshot_with (block_loop fuel')) false
      end.

(** Every failure uses up an element of [rw_sys]. *)
Definition block (error_code : Z) : R unit := λ w, block_loop (length (rw_sys w)) error_code w.

Definition install_snapshot : R unit := install_snapshot_with block.
Definition send_empty_entries (is_heartbeat : bool) : R unit :=
  send_empty_entries_with install_snapshot is_heartbeat.

(** ** Sending entries *)

(** [_prepare_entry(offset, em, data)]: the result, the meta and the data. *)
Definition prepare_entry (offset : Z) (data_buf : list Z) : R (Z * option EntryMeta * list Z) :=
  if decide (raft_max_body_size fl ≤ zlen data_buf) then mret (ERANGE, None, data_buf)
  else
    r ← rp_get (λ r, r);
    let log_index := rp_next_index r + offset in
    entry ← rp_log (λ m, lm_get_entry m log_index);
    match entry with
    | None => mret (ENOENT, None, data_buf)
    | Some entry =>
        if decide (rp_readonly_index r ≠ 0 ∧ rp_readonly_index r ≤ log_index ∧
                   type entry ≠ ENTRY_TYPE_CONFIGURATION)
        then mret (EREADONLY, None, data_buf)
        else
          (if decide (rp_readonly_index r ≠ 0 ∧ rp_readonly_index r ≤ log_index)
           then rp_mod (set_readonly_index (log_index + 1)) else mret tt);;
          ps ← match peers entry with
               | Some ps => st_check (ps ≠ []);; st_lift (mapM peer_to_string ps)
               | None => st_check (type entry ≠ ENTRY_TYPE_CONFIGURATION);; mret []
               end;
          old ← match peers entry, old_peers entry with
                | Some _, Some ops => st_lift (mapM peer_to_string ops)
                | _, _ => mret []
                end;
          if negb (is_witness (ro_peer_id (rp_options r))) || rp_enable_witness_to_leader fl then
            mret (0, Some (mkEntryMeta (term (id entry)) (type entry) ps (Some (zlen (data entry))) old),
                  data_buf ++ data entry)
          else mret (0, Some (mkEntryMeta (term (id entry)) (type entry) ps None old), data_buf)
    end.

(** The loop of [_send_entries]; [n] entries at most, from [offset] on. *)
Fixpoint prepare_entries (n : nat) (offset : Z) (ems : list EntryMeta) (data_buf : list Z)
  : R (Z * list EntryMeta * list Z) :=
  match n with
  | O => mret (0, ems, data_buf)
  | Datatypes.S n' =>
      x ← prepare_entry offset data_buf;
      match x with
      | (_, Some em, data_buf') => prepare_entries n' (offset + 1) (ems ++ [em]) data_buf'
      | (rc, None, _) => mret (rc, ems, data_buf)
      end
  end.

Definition send_entries : R unit :=
  r ← rp_get (λ r, r);
  if decide (raft_max_entries_size fl ≤ rp_flying_append_entries_size r ∨
             raft_max_parallel_append_entries_rpc_num fl ≤ zlen (rp_append_entries_in_fly r) ∨
             st_st (rp_st r) = BLOCKING) then mret tt
  else
    q ← fill_common_fields (rp_next_index r - 1) false;
    match q with
    | None => reset_next_index;; install_snapshot
    | Some q =>
        x ← prepare_entries (Z.to_nat (raft_max_entries_size fl - rp_flying_append_entries_size r)) 0 [] [];
        let '(rc, ems, data_buf) := x in
        if decide (ems = []) then
          first ← rp_first_log_index;
          if decide (rp_next_index r < first) then reset_next_index;; install_snapshot
          else if decide (rc = EREADONLY) then
            if decide (rp_flying_append_entries_size r = 0) then rp_mod (set_state IDLE) else mret tt
          else wait_more_entries
        else
          call_id ← new_call_id;
          rp_mod (λ r, set_append_entries_in_fly
            (rp_append_entries_in_fly r ++ [mkFlying (rp_next_index r) (zlen ems) call_id]) r);;
          rp_mod (λ r, set_append_entries_counter (rp_append_entries_counter r + 1) r);;
          rp_mod (λ r, set_flying_append_entries_size (rp_flying_append_entries_size r + zlen ems)
                         (set_next_index (rp_next_index r + zlen ems) r));;
          rp_mod (λ r, set_st (mkStat APPENDING_ENTRIES (min_flying_index r) (rp_next_index r - 1)) r);;
          rp_emit [RpAppendEntries call_id (with_entries ems q) data_buf (re_monotonic_ms e)];;
          wait_more_entries
    end.

(** [_continue_sending(arg, error_code)], called by the log manager or after
    blocking. *)
Definition continue_sending (error_code : Z) : R Z :=
  locked (-1)
    (r ← rp_get (λ r, r);
     (if decide (error_code = ETIMEDOUT) then
        if decide (rp_wait_id r ≠ 0) then mret tt else send_empty_entries false
      else if decide (error_code ≠ ESTOP ∧ rp_is_waiter_canceled r = false) then
        rp_mod (set_wait_id 0);; send_entries
      else mret tt);;
     mret 0).

(** [_on_block_timedout_in_new_thread] up to its call of
    [_continue_sending(arg, ETIMEDOUT)], which locks again. *)
Definition on_block_timedout : R unit := locked tt (rp_mod (set_state IDLE)).

(** ** Handing over leadership *)

Definition send_timeout_now (old_leader_stepped_down : bool) (timeout_ms : Z) : R unit :=
  o ← rp_get rp_options;
  server_id ← st_lift (peer_to_string (ro_server_id o));
  peer_id ← st_lift (peer_to_string (ro_peer_id o));
  call_id ← new_call_id;
  (if old_leader_stepped_down then mret tt
   else rp_mod (set_timeout_now_in_fly call_id);; rp_mod (set_timeout_now_index 0));;
  rp_emit [RpTimeoutNow call_id
    (mkTimeoutNowRequest (ro_group_id o) server_id peer_id (ro_term o) old_leader_stepped_down) timeout_ms].

Definition timeout_now_if_caught_up : R unit :=
  r ← rp_get (λ r, r);
  if decide (0 < rp_timeout_now_index r ∧ rp_timeout_now_index r < min_flying_index r)
  then send_timeout_now false (-1) else mret tt.

Definition transfer_leadership (log_index : Z) : R Z :=
  locked EINVAL
    (r ← rp_get (λ r, r);
     (if decide (rp_has_succeeded r = true ∧ log_index < min_flying_index r)
      then send_timeout_now false (-1) else rp_mod (set_timeout_now_index log_index));;
     mret 0).

Definition stop_transfer_leadership : R Z :=
  locked EINVAL (rp_mod (set_timeout_now_index 0);; mret 0).

Definition send_timeout_now_and_stop (timeout_ms : Z) : R Z :=
  locked (-1) (send_timeout_now true timeout_ms;; mret 0).

(** ** Answers *)

(** A response with a higher term ends the replicator and the leader. *)
Definition quit_for_higher_term (term : Z) : R unit :=
  notify_on_caught_up EPERM true;;
  destroy;;
  rp_emit [RpIncreaseTermTo term EHIGHERTERMRESPONSE].

Definition count_error : R unit :=
  rp_mod (λ r, set_consecutive_error_times (rp_consecutive_error_times r + 1) r).

Definition on_heartbeat_returned (send_time : Z) (result : RpcResult AppendEntriesResponse) : R unit :=
  locked tt
    match result with
    | inl _ => count_error;; start_heartbeat_timer
    | inr response =>
        rp_mod (set_consecutive_error_times 0);;
        o ← rp_get rp_options;
        if decide (ro_term o < aer_term response) then quit_for_higher_term (aer_term response)
        else
          let readonly := default false (aer_readonly response) in
          update_last_rpc_send_timestamp send_time;;
          start_heartbeat_timer;;
          ri ← rp_get rp_readonly_index;
          if decide ((readonly = true ∧ ri = 0) ∨ (readonly = false ∧ ri ≠ 0))
          then rp_emit [RpChangeReadonlyConfig (ro_term o) (ro_peer_id o) readonly]
          else mret tt
    end.

(** The answered rpc is in fly, not after its first index. *)
Fixpoint is_valid_rpc (call_id rpc_first_index : Z) (fs : list FlyingAppendEntriesRpc) : bool :=
  match fs with
  | f :: fs' =>
      if decide (rpc_first_index < fy_log_index f) then false
      else bool_decide (fy_call_id f = call_id) || is_valid_rpc call_id rpc_first_index fs'
  | [] => false
  end.

Fixpoint pop_in_fly (rpc_first_index : Z) (fs : list FlyingAppendEntriesRpc) (flying : Z)
  : list FlyingAppendEntriesRpc * Z :=
  match fs with
  | f :: fs' =>
      if decide (fy_log_index f ≤ rpc_first_index) then pop_in_fly rpc_first_index fs' (flying - fy_entries_size f)
      else (fs, flying)
  | [] => ([], flying)
  end.

(** [prev_log_index] and [prev_log_term] do not match the follower's log. *)
Definition find_next_index (response : AppendEntriesResponse) : R unit :=
  reset_next_index;;
  rp_mod (λ r,
    let last := default 0 (aer_last_log_index response) in
    if decide (last + 1 < rp_next_index r) then set_next_index (last + 1) r
    else if decide (1 < rp_next_index r) then set_next_index (rp_next_index r - 1) r
    else r);;
  send_empty_entries false.

(** The entries of [request] are stored by the follower. *)
Definition entries_replicated (request : AppendEntriesRequest) (min_flying : Z) : R unit :=
  o ← rp_get rp_options;
  (if decide (0 < ae_entries_size request) then
     rp_emit [RpCommitAt min_flying (ae_last_index request) (ro_peer_id o)];;
     committed ← rp_shared (λ m b,
       '(b', _, c) ← bb_commit_at b min_flying (ae_last_index request) (ro_peer_id o); Some (m, b', c));
     match committed with Some i => rp_emit [RpCommitted i] | None => mret tt end
   else mret tt);;
  rp_mod (λ r,
    let '(fs, flying) := pop_in_fly (ae_prev_log_index request + 1) (rp_append_entries_in_fly r)
                           (rp_flying_append_entries_size r) in
    set_append_entries_in_fly fs (set_flying_append_entries_size flying r));;
  rp_mod (set_has_succeeded true);;
  notify_on_caught_up 0 false;;
  timeout_now_if_caught_up;;
  send_entries.

Definition on_rpc_returned (call_id : Z) (request : AppendEntriesRequest) (send_time : Z)
    (result : RpcResult AppendEntriesResponse) : R unit :=
  locked tt
    (r ← rp_get (λ r, r);
     let min_flying := min_flying_index r in
     st_check (0 < min_flying);;
     if negb (is_valid_rpc call_id (ae_prev_log_index request + 1) (rp_append_entries_in_fly r)) then mret tt
     else
       match result with
       | inl error_code => count_error;; reset_next_index;; block error_code
       | inr response =>
           rp_mod (set_consecutive_error_times 0);;
           if negb (aer_success response) then
             if decide (ro_term (rp_options r) < aer_term response) then
               reset_next_index;; quit_for_higher_term (aer_term response)
             else update_last_rpc_send_timestamp send_time;; find_next_index response
           else if decide (aer_term response ≠ ro_term (rp_options r)) then reset_next_index
           else update_last_rpc_send_timestamp send_time;; entries_replicated request min_flying
       end).

Definition on_install_snapshot_returned (request : InstallSnapshotRequest) (result : RpcResult TermResponse) : R unit :=
  locked tt
    (close_reader;;
     match result with
     | inl error_code => count_error;; block error_code
     | inr response =>
         if negb (tr_success response) then block 0
         else
           rp_mod (set_next_index (smp_last_included_index (is_meta request) + 1));;
           rp_mod (set_has_succeeded true);;
           notify_on_caught_up 0 false;;
           timeout_now_if_caught_up;;
           send_entries
     end).

Definition on_timeout_now_returned (old_leader_stepped_down : bool) (result : RpcResult TermResponse) : R unit :=
  locked tt
    (o ← rp_get rp_options;
     match result with
     | inr response =>
         if decide (ro_term o < tr_term response) then quit_for_higher_term (tr_term response)
         else if old_leader_stepped_down then notify_on_caught_up ESTOP true;; destroy else mret tt
     | inl _ => if old_leader_stepped_down then notify_on_caught_up ESTOP true;; destroy else mret tt
     end).

(** ** Start and stop *)

(** [start]; [channel_init] and [session_create] are results of the runtime. *)
Definition rp_start (o : ReplicatorOptions) (channel_init session_create : Z) : R Z :=
  if decide (channel_init ≠ 0) then mret (-1)
  else
    last ← rp_last_log_index;
    if decide (session_create ≠ 0) then mret (-1)
    else
      st_mod (λ w, mkRpWorld (Some (set_next_index (last + 1) (rp_new o))) (rw_log_manager w) (rw_ballot_box w)
        (rw_others w) (rw_last_rpc_send_timestamp w) (rw_next_call_id w) (rw_sys w) (rw_out w));;
      update_last_rpc_send_timestamp (re_monotonic_ms e);;
      start_heartbeat_timer;;
      send_empty_entries false;;
      mret 0.

(** [stop] up to [fiber_session_error(id, ESTOP)], which locks again. *)
Definition rp_stop : R unit := locked tt (notify_on_caught_up EPERM true).

(** [_on_error(id, arg, ESTOP)]. *)
Definition on_error_stop : R unit :=
  locked tt
    (r ← rp_get (λ r, r);
     rp_emit [RpCancel (rp_install_snapshot_in_fly r); RpCancel (rp_heartbeat_in_fly r); RpCancel (rp_timeout_now_in_fly r)];;
     cancel_append_entries_rpcs;;
     rp_emit [RpDelHeartbeatTimer];;
     rp_log (λ m, Some (lm_remove_waiter m (rp_wait_id r)));;
     notify_on_caught_up ESTOP true;;
     rp_mod (set_wait_id 0);;
     destroy).

(** [_send_heartbeat], what [_on_error(id, arg, ETIMEDOUT)] comes to. *)
Definition send_heartbeat : R unit := locked tt (send_empty_entries true).

(** ** Read-only followers *)

Definition rp_change_readonly_config (readonly : bool) : R Z :=
  locked 0
    (ri ← rp_get rp_readonly_index;
     if decide ((readonly = true ∧ ri ≠ 0) ∨ (readonly = false ∧ ri = 0)) then mret 0
     else if readonly then
       last ← rp_last_log_index;
       rp_mod (set_readonly_index (last + 1));;
       mret 0
     else
       rp_mod (set_readonly_index 0);;
       wait_more_entries;;
       mret 0).

Definition rp_readonly : R bool :=
  locked false (ri ← rp_get rp_readonly_index; mret (negb (bool_decide (ri = 0)))).

(** ** Queries *)

Definition get_next_index : R Z :=
  locked 0 (r ← rp_get (λ r, r); mret (if rp_has_succeeded r then min_flying_index r else 0)).

Definition get_consecutive_error_times : R Z := locked (-1) (rp_get rp_consecutive_error_times).
End replicator.
