(* ===== verification/ReplicatorWire.v ===== *)
(** * Entries on the wire

    What [Replicator::_prepare_entry] writes for an entry and what
    [NodeImpl::handle_append_entries_request] makes of it: a request and its
    attachment give the follower the entries of the leader, without their data
    if the follower is a witness. *)

From stdpp Require Import prelude.
From S2P Require Import Prelude StdContainers Configuration Bytes PeerText LogStorage LogManager StateMonad Messages.
From S2P Require Import MetaStorage NodeState NodeVote NodeLog.
Local Open Scope Z_scope.

(** The meta of an entry, and what a follower gets of it. *)
Definition entry_meta (with_data : bool) (en : LogEntry) : option EntryMeta :=
  ps ← match peers en with Some ps => mapM peer_to_string ps | None => Some [] end;
  old ← match peers en, old_peers en with
        | Some _, Some ops => mapM peer_to_string ops
        | _, _ => Some []
        end;
  Some (mkEntryMeta (term (id en)) (type en) ps (if with_data then Some (zlen (data en)) else None) old).

Definition received (with_data : bool) (en : LogEntry) : LogEntry :=
  mkLogEntry (type en) (id en) (peers en) (old_peers en) (if with_data then data en else []).

Definition attachment (with_data : bool) (es : list LogEntry) : list Z := es ≫= λ en, data (received with_data en).

(** The entries a leader has: configurations are those with peers, addresses
    can be printed, and the length of the data fits the [int] it is read
    into. *)
Record sendable (i : Z) (en : LogEntry) : Prop := {
  sd_index : index (id en) = i;
  sd_type : type en ≠ ENTRY_TYPE_UNKNOWN;
  sd_conf : type en = ENTRY_TYPE_CONFIGURATION ↔ peers en ≠ None;
  sd_peers : peers en ≠ Some [] ∧ Forall peer_ok (default [] (peers en));
  sd_old : old_peers en ≠ Some [] ∧ (peers en = None → old_peers en = None) ∧ Forall peer_ok (default [] (old_peers en));
  sd_data : zlen (data en) < 2 ^ 31;
}.

Lemma peers_back ps ss :
  Forall peer_ok ps → mapM peer_to_string ps = Some ss → mapM peer_of_string ss = Some ps ∧ (ss = [] ↔ ps = []).
Proof.
  intros Hps Hss. apply mapM_Some in Hss. split.
  - apply mapM_Some. induction Hss as [|p s ps ss Hp Hss IH]; [constructor|].
    apply Forall_cons in Hps as [Hp0 Hps]. constructor; [by apply peer_of_string_print|by apply IH].
  - by destruct Hss.
Qed.

Lemma cutn_app d rest : zlen d < 2 ^ 31 → cutn (d ++ rest) (i32 (zlen d)) = (d, rest).
Proof.
  intros Hd. pose proof (zlen_nonneg d). assert (i32 (zlen d) = zlen d) as ->.
  { unfold i32, u32. rewrite Z.mod_small by lia. by rewrite decide_False by lia. }
  unfold cutn. rewrite decide_False by lia.
  unfold zlen. rewrite Nat2Z.id, take_app_length, drop_app_length. done.
Qed.

Lemma cut_received b en rest :
  zlen (data en) < 2 ^ 31 →
  match (if b : bool then Some (zlen (data en)) else None) with
  | Some len => cutn (data (received b en) ++ rest) (i32 len)
  | None => ([], data (received b en) ++ rest)
  end = (data (received b en), rest).
Proof. intros Hd. destruct b; [by apply cutn_app|done]. Qed.

(** One entry is parsed to what was sent, the attachment cut behind it. *)
Lemma parse_entry_sent b i en em rest :
  sendable i en → entry_meta b en = Some em →
  parse_entry i em (data (received b en) ++ rest) = Some (received b en, rest) ∧ em_type em ≠ ENTRY_TYPE_UNKNOWN.
Proof.
  intros [Hi Ht Hc [Hp0 Hp] (Ho0 & Hop & Ho) Hd] Hem. unfold entry_meta in Hem.
  assert (mkLogId i (term (id en)) = id en) as Hid by (rewrite <- Hi; by destruct (id en)).
  destruct (peers en) as [ps|] eqn:Hpe; cbn in Hp.
  - destruct (mapM peer_to_string ps) as [ss|] eqn:Hss; [|done]. cbn in Hem.
    destruct (peers_back _ _ Hp Hss) as [Hback Hnil].
    assert (type en = ENTRY_TYPE_CONFIGURATION) as Hconf by (by apply Hc).
    assert (ss ≠ []) as Hne by naive_solver.
    destruct (old_peers en) as [ops|] eqn:Hoe; cbn in Ho.
    + destruct (mapM peer_to_string ops) as [os|] eqn:Hos; [|done]. injection Hem as <-.
      destruct (peers_back _ _ Ho Hos) as [Hoback Honil]. assert (os ≠ []) by naive_solver.
      split; [|done]. unfold parse_entry. cbn -[received]. rewrite Hback. cbn -[received].
      rewrite decide_False by done. rewrite (CHECK_true _ Hconf). cbn -[received].
      rewrite decide_False by done. rewrite Hoback. cbn -[received]. rewrite cut_received by done.
      unfold received. by rewrite Hid, Hpe, Hoe.
    + injection Hem as <-. split; [|done]. unfold parse_entry. cbn -[received]. rewrite Hback. cbn -[received].
      rewrite decide_False by done. rewrite (CHECK_true _ Hconf). cbn -[received]. rewrite cut_received by done.
      unfold received. by rewrite Hid, Hpe, Hoe.
  - injection Hem as <-. split; [|done]. assert (type en ≠ ENTRY_TYPE_CONFIGURATION) as Hconf by naive_solver.
    unfold parse_entry. cbn -[received]. rewrite (CHECK_true _ Hconf). cbn -[received]. rewrite cut_received by done.
    unfold received. by rewrite Hid, Hpe, Hop.
Qed.

Lemma parse_entries_sent b es i ems :
  (∀ k en, es !! k = Some en → sendable (i + 1 + Z.of_nat k) en) → mapM (entry_meta b) es = Some ems →
  parse_entries i ems (attachment b es) = Some (received b <$> es).
Proof.
  revert i ems. induction es as [|en es IH]; intros i ems Hs Hems; cbn in Hems; [by injection Hems as <-|].
  destruct (entry_meta b en) as [em|] eqn:Hem; [|done]. cbn in Hems.
  destruct (mapM (entry_meta b) es) as [ems'|]; [|done]. injection Hems as <-.
  specialize (Hs 0%nat en eq_refl) as Hen. replace (i + 1 + Z.of_nat 0) with (i + 1) in Hen by lia.
  destruct (parse_entry_sent b (i + 1) en em (attachment b es) Hen Hem) as [Hp Hu].
  cbn -[received]. rewrite decide_False by done. unfold attachment in *. cbn -[received]. rewrite Hp. cbn -[received].
  rewrite (IH (i + 1) ems'); [done| |done].
  intros k x Hk. replace (i + 1 + 1 + Z.of_nat k) with (i + 1 + Z.of_nat (Datatypes.S k)) by lia. by apply Hs.
Qed.
