(* ===== verification/ReplicatorSpec.v ===== *)
(** * The pipeline of a replicator

    [rp_reach] is the step relation of one replicator: it starts, then its
    callbacks run one after the other, each answer belonging to an rpc that was
    sent, while the rest of the leader changes the log manager and the ballot
    box in between and during the callbacks.  In every reachable state the rpcs
    in fly are disjoint and in order, their sizes add up to the flying counter
    within its bound, and the indexes given to [commit_at] end where the
    follower has acknowledged the log in the leader's term. *)

From stdpp Require Import prelude list_numbers.
From S2P Require Import Prelude StdContainers Configuration Ballot ClosureQueue BallotBox PeerText.
From S2P Require Import LogStorage LogManager StateMonad Messages Lease MetaStorage AppendEntriesCache NodeState.
From S2P Require Import NodeVote NodeLog ReplicatorWire Replicator.
Local Open Scope Z_scope.

Create HintDb frames.

(** ** The callbacks *)

Inductive RpCall :=
  | CallWaitForCaughtUp (max_margin : Z) (has_due_time : bool) (done : Closure)
  | CallBlockTimedout
  | CallContinueSending (error_code : Z)
  | CallRpcReturned (call_id : Z) (request : AppendEntriesRequest) (send_time : Z)
      (result : RpcResult AppendEntriesResponse)
  | CallHeartbeatReturned (send_time : Z) (result : RpcResult AppendEntriesResponse)
  | CallInstallSnapshotReturned (call_id : Z) (request : InstallSnapshotRequest) (result : RpcResult TermResponse)
  | CallTimeoutNowReturned (old_leader_stepped_down : bool) (result : RpcResult TermResponse)
  | CallCatchUpTimedout
  | CallSendHeartbeat
  | CallStop
  | CallErrorStop
  | CallTransferLeadership (log_index : Z)
  | CallStopTransferLeadership
  | CallSendTimeoutNowAndStop (timeout_ms : Z)
  | CallChangeReadonlyConfig (readonly : bool).

Definition rp_call {S} `{LogStorage S} (fl : RpFlags) (e : RpEnv) (c : RpCall) : ST (RpWorld S) unit :=
  match c with
  | CallWaitForCaughtUp k b d => wait_for_caught_up k b d
  | CallBlockTimedout => on_block_timedout
  | CallContinueSending ec => continue_sending fl e ec;; mret tt
  | CallRpcReturned id q t x => on_rpc_returned fl e id q t x
  | CallHeartbeatReturned t x => on_heartbeat_returned e t x
  | CallInstallSnapshotReturned _ q x => on_install_snapshot_returned fl e q x
  | CallTimeoutNowReturned b x => on_timeout_now_returned e b x
  | CallCatchUpTimedout => on_catch_up_timedout
  | CallSendHeartbeat => send_heartbeat fl e
  | CallStop => rp_stop
  | CallErrorStop => on_error_stop e
  | CallTransferLeadership i => transfer_leadership i;; mret tt
  | CallStopTransferLeadership => stop_transfer_leadership;; mret tt
  | CallSendTimeoutNowAndStop ms => send_timeout_now_and_stop ms;; mret tt
  | CallChangeReadonlyConfig b => rp_change_readonly_config fl b;; mret tt
  end.

(** ** The leader's log *)

(** The log grows at its end, and what was compacted stays so. *)
Definition log_le {S} `{LogStorage S} (m m' : LogManager S) : Prop :=
  lm_first_log_index m ≤ lm_first_log_index m' ∧ lm_last_log_index m ≤ lm_last_log_index m' ∧
  ∀ i, i ≠ 0 → i < lm_first_log_index m → lm_get_term m i = Some 0 → lm_get_term m' i = Some 0.

(** The log is [C]: what is read from it is an entry of [C] that can be sent,
    and so is what is known of terms.  Entries have terms, and the log is
    compacted up to the last snapshot at most. *)
Definition good_log {S} `{LogStorage S} (C : Z → LogEntry) (e : RpEnv) (m : LogManager S) : Prop :=
  (∀ i, lm_first_log_index m ≤ i ≤ lm_last_log_index m → lm_get_term m i ≠ Some 0) ∧
  (∀ uri rc meta, re_snapshot e = Some (uri, (rc, meta)) → lm_first_log_index m ≤ smp_last_included_index meta + 1) ∧
  (∀ i m' en, lm_get_entry m i = Some (m', Some en) → en = C i ∧ sendable i en) ∧
  (∀ i t, i ≠ 0 → t ≠ 0 → lm_get_term m i = Some t → t = term (id (C i))).

Definition keeps_log {S} `{LogStorage S} (C : Z → LogEntry) (e : RpEnv)
    (g : LogManager S * BallotBox → option (LogManager S * BallotBox)) : Prop :=
  ∀ m b m' b', good_log C e m → g (m, b) = Some (m', b') → good_log C e m' ∧ log_le m m'.

Definition env_ok {S} `{LogStorage S} (C : Z → LogEntry) (e : RpEnv) (w : RpWorld S) : Prop :=
  good_log C e (rw_log_manager w) ∧ Forall (keeps_log C e) (rw_others w).

(** ** Reachable states *)

(** An answer is one to an rpc that was sent; a follower's log ends at 0 at
    least, and no snapshot is ahead of the leader's log. *)
Definition call_ok {S} (w : RpWorld S) (sent : list RpEvent) (c : RpCall) : Prop :=
  match c with
  | CallRpcReturned id q t x =>
      (∃ a, RpAppendEntries id q a t ∈ sent) ∧
      match x with inr response => 0 ≤ default 0 (aer_last_log_index response) | inl _ => True end
  | CallInstallSnapshotReturned id q x =>
      RpInstallSnapshot id q ∈ sent ∧ smp_last_included_index (is_meta q) ≤ lm_last_log_index (rw_log_manager w)
  | _ => True
  end.

Definition is_install (id : Z) (ev : RpEvent) : bool :=
  match ev with RpInstallSnapshot id' _ => bool_decide (id' = id) | _ => false end.

(** A snapshot rpc is answered once. *)
Definition answered (c : RpCall) (sent : list RpEvent) : list RpEvent :=
  match c with
  | CallInstallSnapshotReturned id _ _ =>
      filter (λ ev, is_install id ev = false) sent
  | _ => sent
  end.

(** One callback in [w0], which is [w] after the rest of the leader has run. *)
Record rp_step {S} `{LogStorage S} (fl : RpFlags) (C : Z → LogEntry) (w : RpWorld S) (sent : list RpEvent)
    (w0 : RpWorld S) (e : RpEnv) (c : RpCall) (w' : RpWorld S) : Prop := {
  rs_replicator : rw_replicator w0 = rw_replicator w;
  rs_call_id : rw_next_call_id w0 = rw_next_call_id w;
  rs_out : rw_out w0 = [];
  rs_log : log_le (rw_log_manager w) (rw_log_manager w0);
  rs_env : env_ok C e w0;
  rs_ok : call_ok w0 sent c;
  rs_run : rp_call fl e c w0 = Some (tt, w');
}.

Inductive rp_reach {S} `{LogStorage S} (fl : RpFlags) (o : ReplicatorOptions) (C : Z → LogEntry)
  : RpWorld S → list RpEvent → Prop :=
  | reach_start e w0 rc w :
      rw_replicator w0 = None → rw_out w0 = [] → 0 ≤ lm_last_log_index (rw_log_manager w0) →
      env_ok C e w0 → rp_start fl e o 0 0 w0 = Some (rc, w) →
      rp_reach fl o C w (rw_out w)
  | reach_step w sent w0 e c w' :
      rp_reach fl o C w sent → rp_step fl C w sent w0 e c w' →
      rp_reach fl o C w' (answered c sent ++ rw_out w').

(** ** The invariant *)

(** Disjoint and in order, between [lo] and [hi]. *)
Fixpoint fly_ok (lo : Z) (fs : list FlyingAppendEntriesRpc) (hi : Z) : Prop :=
  match fs with
  | [] => lo ≤ hi
  | f :: fs' => lo ≤ fy_log_index f ∧ 0 ≤ fy_entries_size f ∧ fly_ok (fy_log_index f + fy_entries_size f) fs' hi
  end.

Definition fly_size (fs : list FlyingAppendEntriesRpc) : Z := foldr (λ f n, fy_entries_size f + n) 0 fs.

(** The state of a pipeline. *)
Record pipeline_ok (fl : RpFlags) (r : Replicator) : Prop := {
  po_fly : fly_ok 1 (rp_append_entries_in_fly r) (rp_next_index r);
  po_sum : rp_flying_append_entries_size r = fly_size (rp_append_entries_in_fly r);
  po_max : rp_flying_append_entries_size r ≤ raft_max_entries_size fl;
  po_len : zlen (rp_append_entries_in_fly r) ≤ Z.max 1 (raft_max_parallel_append_entries_rpc_num fl);
}.

(** No entry can be sent from [n] on: it, or the term before it, is compacted. *)
Definition barred {S} `{LogStorage S} (m : LogManager S) (n : Z) : Prop :=
  n < lm_first_log_index m ∨
  (n = lm_first_log_index m ∧ n - 1 ≠ 0 ∧ lm_get_term m (n - 1) = Some 0).

Definition snapshots_sent (evs : list RpEvent) : list (Z * InstallSnapshotRequest) :=
  omap (λ ev, match ev with RpInstallSnapshot id q => Some (id, q) | _ => None end) evs.

Definition flight_of (evs : list RpEvent) (f : FlyingAppendEntriesRpc) : Prop :=
  ∃ q a t, RpAppendEntries (fy_call_id f) q a t ∈ evs ∧
    fy_log_index f = ae_prev_log_index q + 1 ∧ fy_entries_size f = ae_entries_size q.

(** With the log and the rpcs sent so far. *)
Record rep_ok {S} `{LogStorage S} (fl : RpFlags) (o : ReplicatorOptions) (m : LogManager S) (evs : list RpEvent) (r : Replicator) : Prop := {
  ro_opts : rp_options r = o;
  ro_pipe : pipeline_ok fl r;
  ro_last : rp_next_index r - 1 ≤ lm_last_log_index m;
  ro_sent : Forall (flight_of evs) (rp_append_entries_in_fly r);
  ro_inst : snapshots_sent evs = [] ∨
    ∃ id q, snapshots_sent evs = [(id, q)] ∧ rp_reader r = true ∧ barred m (rp_next_index r) ∧
      rp_next_index r ≤ smp_last_included_index (is_meta q) + 1;
}.

(** Witnesses get no data. *)
Definition sends_data (fl : RpFlags) (o : ReplicatorOptions) : bool :=
  negb (is_witness (ro_peer_id o)) || rp_enable_witness_to_leader fl.

(** A request in the leader's term that carries its entries after
    [prev_log_index], and the term before them. *)
Definition request_ok (fl : RpFlags) (o : ReplicatorOptions) (C : Z → LogEntry) (q : AppendEntriesRequest) (a : list Z)
  : Prop :=
  let es := C <$> seqZ (ae_prev_log_index q + 1) (ae_entries_size q) in
  ae_term q = ro_term o ∧
  (ae_prev_log_index q ≠ 0 → ae_prev_log_term q = term (id (C (ae_prev_log_index q)))) ∧
  mapM (entry_meta (sends_data fl o)) es = Some (ae_entries q) ∧ a = attachment (sends_data fl o) es ∧
  ∀ i, ae_prev_log_index q < i ≤ ae_last_index q → sendable i (C i).

(** The rpcs themselves. *)
Definition sent_ok (evs : list RpEvent) (next_call_id : Z) : Prop :=
  (∀ id q a t, RpAppendEntries id q a t ∈ evs → id < next_call_id) ∧
  (∀ id q a t q' a' t', RpAppendEntries id q a t ∈ evs → RpAppendEntries id q' a' t' ∈ evs → q = q').

(** ** Logs *)

Section logs.
Context {S : Type} `{LogStorage S} (C : Z → LogEntry).
Implicit Types m : LogManager S.

#[local] Instance log_le_preorder : PreOrder (log_le (S:=S)).
Proof.
  split; [done|]. intros m1 m2 m3 (Hf & Hl & Ht) (Hf' & Hl' & Ht'). split_and!; [lia..|].
  intros i Hi Hlt Hz. apply Ht'; [done|lia|]. by apply Ht.
Qed.

(** The calls of the replicator leave the log alone. *)
Definition log_same m m' : Prop :=
  lm_first_log_index m' = lm_first_log_index m ∧ lm_last_log_index m' = lm_last_log_index m ∧
  (∀ i, lm_get_term m' i = lm_get_term m i) ∧ ∀ i, snd <$> lm_get_entry m' i = snd <$> lm_get_entry m i.

Lemma log_same_refl m : log_same m m.
Proof. done. Qed.

Lemma log_same_le m m' : log_same m m' → log_le m m'.
Proof. intros (Hf & Hl & Ht & _). split_and!; [lia..|]. intros i. by rewrite Ht. Qed.

Lemma log_same_good e m m' : log_same m m' → good_log C e m → good_log C e m'.
Proof.
  intros (Hf & Hl & Ht & Hg) (Hpos & Hsnap & Hget & Hterm). split_and!.
  - intros i. rewrite Hf, Hl, Ht. apply Hpos.
  - intros ???. rewrite Hf. apply Hsnap.
  - intros i m1 en Hen. specialize (Hg i). rewrite Hen in Hg. cbn in Hg.
    destruct (lm_get_entry m i) as [[m2 x]|] eqn:E; [|done]. injection Hg as <-. by eapply Hget.
  - intros i t. rewrite Ht. apply Hterm.
Qed.

Lemma log_same_fields m m' :
  lm_log_storage m' = lm_log_storage m → lm_logs_in_memory m' = lm_logs_in_memory m →
  lm_first_log_index m' = lm_first_log_index m → lm_last_log_index m' = lm_last_log_index m →
  lm_last_snapshot_id m' = lm_last_snapshot_id m → lm_virtual_first_log_id m' = lm_virtual_first_log_id m →
  log_same m m'.
Proof.
  intros Hs Hm Hf Hl Hi Hv. split_and!; [done..| |]; intros i.
  - unfold lm_get_term, lm_get_entry_from_memory. by rewrite Hs, Hm, Hf, Hl, Hi, Hv.
  - unfold lm_get_entry, lm_get_entry_from_memory. rewrite Hs, Hm, Hf, Hl. case_decide; [done|].
    destruct (match lm_logs_in_memory m with [] => _ | _ :: _ => _ end) as [[y|]|]; cbn; [done| |done].
    by destruct (ls_get_entry _ _) as [[y|]|].
Qed.

Lemma remove_waiter_same m i : log_same m (lm_remove_waiter m i).1.
Proof. unfold lm_remove_waiter. case_match; by apply log_same_fields. Qed.

Lemma notify_same m i a : log_same m (lm_notify_on_new_log m i a).1.
Proof. unfold lm_notify_on_new_log. case_decide; by apply log_same_fields. Qed.

Lemma get_entry_same m i m' x : lm_get_entry m i = Some (m', x) → log_same m m'.
Proof.
  unfold lm_get_entry. case_decide; [by intros [= <- <-]|].
  destruct (lm_get_entry_from_memory m i) as [[y|]|]; cbn; [by intros [= <- <-]| |done].
  destruct (ls_get_entry _ _) as [[y|]|]; cbn; [by intros [= <- <-]| |done].
  intros [= <- <-]. by apply log_same_fields.
Qed.

Lemma get_entry_range m i m' x : lm_get_entry m i = Some (m', Some x) → lm_first_log_index m ≤ i ≤ lm_last_log_index m.
Proof. unfold lm_get_entry. case_decide; [done|]. intros _. lia. Qed.

Lemma barred_le m m' n : log_le m m' → barred m n → barred m' n.
Proof.
  intros (Hf & Hl & Ht) [Hn|(Hn & H0 & Hz)]; [left; lia|].
  destruct (decide (n < lm_first_log_index m')); [by left|].
  right. split_and!; [lia|done|]. apply Ht; [done|lia|done].
Qed.

Lemma barred_lower m n n' : n' ≤ n → barred m n → barred m n'.
Proof.
  intros Hn Hb. destruct (decide (n' = n)) as [->|]; [done|]. left. destruct Hb as [|(?&_)]; lia.
Qed.

Lemma barred_first m n : barred m n → n ≤ lm_first_log_index m.
Proof. intros [|(?&_)]; lia. Qed.
End logs.
#[global] Existing Instance log_le_preorder.

Section pipeline.
Context {S : Type} `{LogStorage S} (fl : RpFlags) (opts : ReplicatorOptions) (C : Z → LogEntry).
Context (e : RpEnv) (sent : list RpEvent) (allowed : Z → Z → PeerId → Prop).
Implicit Types w : RpWorld S.

(** ** Frames

    Most of the replicator leaves the pipeline alone: it changes other members,
    emits other events, calls the log manager.  A property of the replicator
    that depends only on the [rcore] and survives the growth of the log is kept
    by all of that. *)

Definition rcore (r : Replicator) : Z * Z * list FlyingAppendEntriesRpc * bool * ReplicatorOptions :=
  (rp_next_index r, rp_flying_append_entries_size r, rp_append_entries_in_fly r, rp_reader r, rp_options r).

Definition is_rpc (ev : RpEvent) : bool :=
  match ev with RpAppendEntries _ _ _ _ | RpInstallSnapshot _ _ => true | _ => false end.
Definition loud (ev : RpEvent) : bool :=
  is_rpc ev || match ev with RpCommitAt _ _ _ => true | _ => false end.

Definition louds (evs : list RpEvent) : list RpEvent := filter (λ ev, is_rpc ev = true) evs.
Definition seen w : list RpEvent := louds (sent ++ rw_out w).

Definition ev_ok (ev : RpEvent) : Prop :=
  match ev with
  | RpCommitAt f l p => allowed f l p
  | RpAppendEntries _ q a _ => request_ok fl opts C q a
  | _ => True
  end.

Definition shared_ok w : Prop :=
  env_ok C e w ∧ sent_ok (seen w) (rw_next_call_id w) ∧
  ∀ ev, ev ∈ rw_out w → ev_ok ev.

Abbreviation RProp := (LogManager S → list RpEvent → Replicator → Prop).

Class Stable (RP : RProp) : Prop :=
  stable : ∀ m m' evs r r', RP m evs r → log_le m m' → rcore r = rcore r' → RP m' evs r'.

Definition holds (RP : RProp) w : Prop :=
  shared_ok w ∧ match rw_replicator w with Some r => RP (rw_log_manager w) (seen w) r | None => True end.

Definition frame (RP : RProp) {A} (k : ST (RpWorld S) A) : Prop := st_triple (holds RP) k (λ _, holds RP).

Section frames.
Context (RP : RProp) `{!Stable RP}.

Lemma frame_ret {A} (a : A) : frame RP (mret a).
Proof. intros w ? ? Hw [= <- <-]. done. Qed.

Lemma frame_bind {A B} (k : ST (RpWorld S) A) (f : A → ST (RpWorld S) B) :
  frame RP k → (∀ a, frame RP (f a)) → frame RP (k ≫= f).
Proof. intros Hk Hf. by eapply triple_bind. Qed.

Lemma frame_st_get {A} (f : RpWorld S → A) : frame RP (st_get f).
Proof. intros w ? ? Hw [= <- <-]. done. Qed.

Lemma frame_lift {A} (o : option A) : frame RP (st_lift o).
Proof. intros w a w' Hw [? ->]%st_lift_Some. done. Qed.

Lemma frame_check (P : Prop) `{Decision P} : frame RP (st_check P).
Proof. apply frame_lift. Qed.

Lemma rp_get_run {A} (f : Replicator → A) w a w' :
  rp_get f w = Some (a, w') → w' = w ∧ ∃ r, rw_replicator w = Some r ∧ a = f r.
Proof.
  intros (x & w1 & [= <- <-] & [Hx ->]%st_lift_Some)%st_bind_Some.
  destruct (rw_replicator w) as [r|]; [|done]. injection Hx as <-. eauto.
Qed.

Lemma frame_get {A} (f : Replicator → A) : frame RP (rp_get f).
Proof. intros w a w' Hw [-> _]%rp_get_run. done. Qed.

Lemma frame_sys : frame RP rp_sys.
Proof. intros w a w' Hw [= <- <-]. done. Qed.

Lemma frame_timestamp t : frame RP (update_last_rpc_send_timestamp t).
Proof. intros w a w' Hw [= <- <-]. done. Qed.

Lemma frame_new_call_id : frame RP new_call_id.
Proof.
  intros w a w' [(He & [Hid Hu] & Hc) Hr] [= <- <-]. split; [|done]. split_and!; [done| |done].
  split; [|done]. intros id q x t Hin. specialize (Hid _ _ _ _ Hin). cbn. lia.
Qed.

Lemma frame_mod (f : Replicator → Replicator) : (∀ r, rcore (f r) = rcore r) → frame RP (rp_mod f).
Proof.
  intros Hf w a w' [Hs Hr] [= <- <-]. split; [done|]. cbn -[default]. destruct (rw_replicator w) as [r|]; [|done]. cbn -[default].
  eapply stable; [done|reflexivity|]. by rewrite Hf.
Qed.

Lemma louds_quiet evs evs' : Forall (λ ev, loud ev = false) evs' → louds (evs ++ evs') = louds evs.
Proof.
  intros Hq. unfold louds. rewrite filter_app. rewrite <- (app_nil_r (filter _ evs)) at 2. f_equal.
  induction Hq as [|ev evs' Hev Hq IH]; [done|]. rewrite filter_cons_False; [done|]. by destruct ev.
Qed.

Lemma frame_emit evs : Forall (λ ev, loud ev = false) evs → frame RP (rp_emit evs).
Proof.
  intros Hq w a w' [(He & Hs & Hc) Hr] [= <- <-].
  unfold holds, shared_ok, seen. cbn. rewrite app_assoc, louds_quiet by done. split; [|done]. split_and!; [done..|].
  intros ev [Hin|Hin]%elem_of_app; [by apply Hc|].
  rewrite Forall_forall in Hq. specialize (Hq _ Hin). by destruct ev.
Qed.

(** What the others do first, then the call. *)
Lemma rp_shared_run {A} (f : LogManager S → BallotBox → option (LogManager S * BallotBox * A)) w a w' :
  env_ok C e w → rp_shared f w = Some (a, w') →
  ∃ m b m' b', good_log C e m ∧ log_le (rw_log_manager w) m ∧ f m b = Some (m', b', a) ∧
    Forall (keeps_log C e) (tail (rw_others w)) ∧
    w' = mkRpWorld (rw_replicator w) m' b' (tail (rw_others w)) (rw_last_rpc_send_timestamp w)
           (rw_next_call_id w) (rw_sys w) (rw_out w).
Proof.
  intros [Hg Ho]. unfold rp_shared. destruct (rw_others w) as [|g gs].
  - cbn. intros Hrun. destruct (f _ _) as [[[m' b'] a']|] eqn:Hf; [|done]. injection Hrun as <- <-.
    do 4 eexists. split_and!; [done|reflexivity|done..].
  - destruct (g _) as [[m b]|] eqn:Hgo; [|done]. cbn. intros Hrun.
    destruct (f m b) as [[[m' b'] a']|] eqn:Hf; [|done]. injection Hrun as <- <-.
    apply Forall_cons in Ho as [Hk Ho]. destruct (Hk _ _ _ _ Hg Hgo) as [? ?].
    do 4 eexists. split_and!; done.
Qed.

Lemma triple_shared {A} (f : LogManager S → BallotBox → option (LogManager S * BallotBox * A)) :
  (∀ m b m' b' a, f m b = Some (m', b', a) → log_same m m') →
  st_triple (holds RP) (rp_shared f) (λ a w, holds RP w ∧
    ∃ m b b', good_log C e m ∧ f m b = Some (rw_log_manager w, b', a)).
Proof.
  intros Hf w a w' [(He & Hs & Hc) Hr] Hrun.
  destruct (rp_shared_run _ _ _ _ He Hrun) as (m & b & m' & b' & Hg & Hle & Hfm & Ho & ->).
  pose proof (Hf _ _ _ _ _ Hfm) as Hsame. split; [|by eauto 10]. split.
  - split_and!; [split; [by eapply log_same_good|done]|done..].
  - cbn. destruct (rw_replicator w); [|done]. eapply stable; [done| |done].
    etrans; [done|]. by apply log_same_le.
Qed.

Lemma triple_log {A} (f : LogManager S → option (LogManager S * A)) :
  (∀ m m' a, f m = Some (m', a) → log_same m m') →
  st_triple (holds RP) (rp_log f) (λ a w, holds RP w ∧
    ∃ m, good_log C e m ∧ f m = Some (rw_log_manager w, a)).
Proof.
  intros Hf. eapply triple_conseq; [apply (triple_shared (λ m b, '(m', a) ← f m; Some (m', b, a)))|done|].
  - intros m b m' b' a. destruct (f m) as [[m1 a1]|] eqn:E; [|done]. intros [= <- <- <-]. by eapply Hf.
  - intros a w (Hw & m & b & b' & Hg & Hfm). split; [done|]. exists m. split; [done|].
    destruct (f m) as [[m1 a1]|]; [|done]. by injection Hfm as <- _ <-.
Qed.

Lemma frame_shared {A} (f : LogManager S → BallotBox → option (LogManager S * BallotBox * A)) :
  (∀ m b m' b' a, f m b = Some (m', b', a) → log_same m m') → frame RP (rp_shared f).
Proof. intros Hf. eapply triple_conseq; [by apply triple_shared|done|]. by intros a w [? _]. Qed.

Lemma frame_log {A} (f : LogManager S → option (LogManager S * A)) :
  (∀ m m' a, f m = Some (m', a) → log_same m m') → frame RP (rp_log f).
Proof. intros Hf. eapply triple_conseq; [by apply triple_log|done|]. by intros a w [? _]. Qed.

Lemma frame_first : frame RP rp_first_log_index.
Proof. apply frame_log. by intros m ? ? [= <- <-]. Qed.
Lemma frame_last : frame RP rp_last_log_index.
Proof. apply frame_log. by intros m ? ? [= <- <-]. Qed.
Lemma frame_remove_waiter i : frame RP (rp_log (λ m, Some (lm_remove_waiter m i))).
Proof. apply frame_log. intros m ? ? [= Heq]. pose proof (remove_waiter_same m i) as Hs. by rewrite Heq in Hs. Qed.
Lemma frame_notify i a : frame RP (rp_log (λ m, Some (lm_notify_on_new_log m i a))).
Proof. apply frame_log. intros m ? ? [= Heq]. pose proof (notify_same m i a) as Hs. by rewrite Heq in Hs. Qed.
Lemma frame_get_entry i : frame RP (rp_log (λ m, lm_get_entry m i)).
Proof. apply frame_log. intros m m' a. apply get_entry_same. Qed.
Lemma frame_get_term i : frame RP (rp_log (λ m, t ← lm_get_term m i; Some (m, t))).
Proof. apply frame_log. intros m m' a. destruct (lm_get_term m i); [|done]. by intros [= <- <-]. Qed.
Lemma triple_get_term i :
  st_triple (holds RP) (rp_log (λ m, t ← lm_get_term m i; Some (m, t)))
    (λ t w, holds RP w ∧ good_log C e (rw_log_manager w) ∧ lm_get_term (rw_log_manager w) i = Some t).
Proof.
  eapply triple_conseq; [apply (triple_log (λ m, t ← lm_get_term m i; Some (m, t)))|done|].
  - intros m m' a. destruct (lm_get_term m i); [|done]. by intros [= <- <-].
  - intros t w (Hw & m & Hg & Hm). split; [done|].
    destruct (lm_get_term m i) eqn:E; [|done]. by injection Hm as <- <-.
Qed.
Lemma frame_committed : frame RP (rp_shared (λ m b, Some (m, b, bb_last_committed_index b))).
Proof. apply frame_shared. by intros m b ? ? ? [= <- <- <-]. Qed.

Lemma frame_locked {A} (d : A) (k : ST (RpWorld S) A) : frame RP k → frame RP (locked d k).
Proof. intros Hk. apply frame_bind; [apply frame_st_get|]. intros [r|]; [done|apply frame_ret]. Qed.
End frames.

(** One step of a body whose calls are all frames. *)
Ltac frame_step :=
  match goal with
  | |- frame _ (mret _) => apply frame_ret
  | |- frame _ (_ ≫= _) => apply frame_bind; [|intros ?]
  | |- frame _ (st_get _) => apply frame_st_get
  | |- frame _ (st_lift _) => apply frame_lift
  | |- frame _ (st_check _) => apply frame_check
  | |- frame _ (rp_get _) => apply frame_get
  | |- frame _ rp_sys => apply frame_sys
  | |- frame _ new_call_id => apply frame_new_call_id
  | |- frame _ (update_last_rpc_send_timestamp _) => apply frame_timestamp
  | |- frame _ (rp_mod _) => apply frame_mod; [typeclasses eauto|by intros []]
  | |- frame _ (rp_emit _) => apply frame_emit; repeat case_decide; by repeat constructor
  | |- frame _ rp_first_log_index => apply frame_first; typeclasses eauto
  | |- frame _ rp_last_log_index => apply frame_last; typeclasses eauto
  | |- frame _ (rp_log (λ m, Some (lm_remove_waiter m _))) => apply frame_remove_waiter; typeclasses eauto
  | |- frame _ (rp_log (λ m, Some (lm_notify_on_new_log m _ _))) => apply frame_notify; typeclasses eauto
  | |- frame _ (rp_log (λ m, lm_get_entry m _)) => apply frame_get_entry; typeclasses eauto
  | |- frame _ (rp_log _) => apply frame_get_term; typeclasses eauto
  | |- frame _ (rp_shared _) => apply frame_committed; typeclasses eauto
  | |- frame _ (locked _ _) => apply frame_locked; try typeclasses eauto
  | |- frame _ (match ?x with _ => _ end) => destruct x
  | _ => solve [eauto with frames typeclass_instances]
  end.
Ltac frames :=
  lazymatch goal with |- st_triple (holds ?RP) ?k _ => change (frame RP k) | _ => idtac end;
  repeat frame_step.

Section framed.
Context (RP : RProp) `{!Stable RP}.

Lemma frame_finish_throttle : frame RP (finish_throttle e).
Proof. unfold finish_throttle. frames. Qed.

Lemma frame_is_catchup k : frame RP (is_catchup k).
Proof. unfold is_catchup. frames. Qed.

Lemma frame_run_catchup c : frame RP (run_catchup c).
Proof. unfold run_catchup. frames. Qed.

#[local] Hint Resolve frame_finish_throttle frame_is_catchup frame_run_catchup : frames.

Lemma frame_notify_on_caught_up ec b : frame RP (notify_on_caught_up ec b).
Proof. unfold notify_on_caught_up. frames. Qed.

Lemma frame_start_heartbeat_timer : frame RP (start_heartbeat_timer e).
Proof. unfold start_heartbeat_timer. frames. Qed.

Lemma frame_fill_common_fields i b : frame RP (fill_common_fields i b).
Proof. unfold fill_common_fields. frames. Qed.

Lemma frame_wait_more_entries : frame RP (wait_more_entries fl).
Proof. unfold wait_more_entries. frames. Qed.

Lemma frame_send_timeout_now b ms : frame RP (send_timeout_now b ms).
Proof. unfold send_timeout_now. frames. Qed.

Lemma frame_prepare_entry i data : frame RP (prepare_entry fl i data).
Proof. unfold prepare_entry. frames. Qed.

#[local] Hint Resolve frame_notify_on_caught_up frame_start_heartbeat_timer frame_send_timeout_now : frames.

Lemma frame_timeout_now_if_caught_up : frame RP timeout_now_if_caught_up.
Proof. unfold timeout_now_if_caught_up. frames. Qed.

Lemma frame_wait_for_caught_up k b d : frame RP (wait_for_caught_up k b d).
Proof. unfold wait_for_caught_up. frames. Qed.

Lemma frame_count_error : frame RP count_error.
Proof. unfold count_error. frames. Qed.
End framed.

#[local] Hint Resolve frame_finish_throttle frame_is_catchup frame_run_catchup frame_notify_on_caught_up
  frame_start_heartbeat_timer frame_fill_common_fields frame_wait_more_entries frame_send_timeout_now
  frame_prepare_entry frame_timeout_now_if_caught_up frame_wait_for_caught_up frame_count_error : frames.

(** ** Destruction *)

Definition anything : RProp := λ _ _ _, True.
#[local] Instance anything_stable : Stable anything.
Proof. done. Qed.
#[local] Instance rep_ok_stable : Stable (rep_ok fl opts).
Proof.
  intros m m' evs r r' [Ho Hp Hl Hs Hi] Hle [= Hn Hf Hfs Hrd Hopts]. rewrite Hopts in Ho.
  destruct Hp as [P1 P2 P3 P4]. rewrite Hn, Hf, Hfs, Hrd in *. pose proof Hle as (_ & ? & _).
  constructor; [done|by constructor|lia|done|].
  destruct Hi as [|(id & q & ? & ? & ? & ?)]; [by left|right].
  exists id, q. split_and!; try done. by eapply barred_le.
Qed.

Lemma holds_anything RP w : holds RP w → holds anything w.
Proof. intros [Hs _]. split; [done|]. by case_match. Qed.

Lemma triple_mod_any f : st_triple (holds anything) (rp_mod f) (λ _, holds anything).
Proof. intros w a w' [Hs _] [= <- <-]. split; [done|]. by case_match. Qed.

(** Destroying a replicator needs nothing of its state. *)
Lemma destroy_ok RP RP' : st_triple (holds RP) (destroy e) (λ _, holds RP').
Proof.
  intros w0 a0 w0' Hw%holds_anything. revert w0 a0 w0' Hw.
  change (st_triple (holds anything) (destroy e) (λ _, holds RP')).
  eapply (triple_bind _ _ (λ _, holds anything)).
  - apply frame_bind; [frames|]. intros [|]; frames. apply triple_mod_any.
  - intros _ w a w' [Hs _] [= <- <-]. split; done.
Qed.

(** ** The pipeline *)

Lemma fly_ok_size lo fs hi : fly_ok lo fs hi → 0 ≤ fly_size fs ∧ lo ≤ hi - fly_size fs.
Proof.
  revert lo. induction fs as [|f fs IH]; cbn; intros lo; [lia|].
  intros (? & ? & Hfs). specialize (IH _ Hfs). unfold fly_size in *. lia.
Qed.

Lemma fly_ok_hi lo fs hi hi' : hi ≤ hi' → fly_ok lo fs hi → fly_ok lo fs hi'.
Proof.
  intros Hhi. revert lo. induction fs as [|f fs IH]; cbn; intros lo; [lia|].
  intros (? & ? & Hfs). split_and!; [done..|]. by apply IH.
Qed.

Lemma fly_ok_lo lo lo' fs hi : lo' ≤ lo → fly_ok lo fs hi → fly_ok lo' fs hi.
Proof. destruct fs as [|f fs]; cbn; [lia|]. intros ? (? & ? & ?). split_and!; [lia|done..]. Qed.

Lemma fly_ok_snoc lo fs hi f :
  fly_ok lo fs hi → fy_log_index f = hi → 0 ≤ fy_entries_size f →
  fly_ok lo (fs ++ [f]) (hi + fy_entries_size f).
Proof.
  revert lo. induction fs as [|g fs IH]; cbn; intros lo; [lia|].
  intros (? & ? & Hfs) ? ?. split_and!; [done..|]. by apply IH.
Qed.

Lemma fly_size_snoc fs f : fly_size (fs ++ [f]) = fly_size fs + fy_entries_size f.
Proof. unfold fly_size. induction fs as [|g fs IH]; cbn in *; lia. Qed.

Lemma pipeline_min_flying r : pipeline_ok fl r → 1 ≤ min_flying_index r ∧ 0 ≤ rp_flying_append_entries_size r.
Proof.
  intros [Hfly Hsum _ _]. unfold min_flying_index. rewrite Hsum. apply fly_ok_size in Hfly. lia.
Qed.

(** With the log compacted at the next index, if [b]. *)
Definition maybe_barred (b : bool) : RProp := λ m evs r,
  rep_ok fl opts m evs r ∧ (b = true → barred m (rp_next_index r)).
#[local] Instance maybe_barred_stable b : Stable (maybe_barred b).
Proof.
  intros m m' evs r r' [Hr Hb] Hle Hc. split; [by eapply stable|]. intros Ht.
  injection Hc as <- _ _ _ _. eapply barred_le; eauto.
Qed.

(** With nothing in fly. *)
Definition emptied (b : bool) : RProp := λ m evs r,
  maybe_barred b m evs r ∧ rp_append_entries_in_fly r = [] ∧ rp_flying_append_entries_size r = 0.
#[local] Instance emptied_stable b : Stable (emptied b).
Proof.
  intros m m' evs r r' (Hr & H1 & H2) Hle Hc. split_and!; [by eapply stable|..]; injection Hc; congruence.
Qed.

Lemma holds_impl (RP RP' : RProp) w : (∀ m evs r, RP m evs r → RP' m evs r) → holds RP w → holds RP' w.
Proof. intros Hi [Hs Hr]. split; [done|]. destruct (rw_replicator w); [by apply Hi|done]. Qed.

(** Another replicator in the same world. *)
Lemma holds_set (RP RP' : RProp) w r r' evs :
  holds RP w → rw_replicator w = Some r → Forall (λ ev, loud ev = false) evs →
  (RP (rw_log_manager w) (seen w) r → RP' (rw_log_manager w) (seen w) r') →
  holds RP' (mkRpWorld (Some r') (rw_log_manager w) (rw_ballot_box w) (rw_others w)
    (rw_last_rpc_send_timestamp w) (rw_next_call_id w) (rw_sys w) (rw_out w ++ evs)).
Proof.
  intros [(He & Hs & Hc) Hr] Hw Hq Hi. rewrite Hw in Hr. unfold holds, shared_ok, seen in *. cbn.
  rewrite app_assoc, louds_quiet by done. split; [|by apply Hi]. split_and!; [done..|].
  intros ev [Hin|Hin]%elem_of_app; [by apply Hc|].
  rewrite Forall_forall in Hq. specialize (Hq _ Hin). by destruct ev.
Qed.

Lemma empty_pipeline m evs r r' :
  rep_ok fl opts m evs r → 0 ≤ raft_max_entries_size fl → 1 ≤ rp_next_index r' ≤ rp_next_index r →
  rp_append_entries_in_fly r' = [] → rp_flying_append_entries_size r' = 0 → rp_reader r' = rp_reader r →
  rp_options r' = rp_options r →
  rep_ok fl opts m evs r'.
Proof.
  intros [Ho Hp Hl Hs Hi] Hmax Hn Hfs Hf Hrd Hopts. constructor.
  - congruence.
  - constructor; rewrite ?Hfs, ?Hf; unfold zlen; cbn; lia.
  - lia.
  - by rewrite Hfs.
  - destruct Hi as [?|(id & q & ? & ? & Hb & ?)]; [by left|right].
    exists id, q. rewrite Hrd. split_and!; [done..| |lia]. eapply barred_lower; [|exact Hb]; lia.
Qed.

Context (Hmax : 0 < raft_max_entries_size fl).

Lemma reset_next_index_ok b :
  st_triple (holds (maybe_barred b)) reset_next_index (λ _, holds (emptied b)).
Proof.
  intros w u w' Hw ([] & w1 & [= <-] & Hrun)%st_bind_Some.
  apply st_bind_Some in Hrun as ([] & w2 & Hc & Hrun).
  apply st_bind_Some in Hc as (fs & w3 & [-> (r1 & Hr1 & ->)]%rp_get_run & Hc).
  apply st_bind_Some in Hc as ([] & w4 & [= <-] & [= <-]). cbn in Hr1.
  destruct (rw_replicator w) as [r|] eqn:Hr; [|done]. injection Hr1 as <-. revert Hrun. cbn.
  match goal with |- _ ?x = _ → _ => set (w1 := x) end. intros Hrun.
  assert (holds (emptied b) w1) as Hw1.
  { eapply (holds_set _ _ w r); [done|done| |].
    - apply Forall_fmap, Forall_true. done.
    - intros [Hrep Hb]. pose proof (pipeline_min_flying r (ro_pipe _ _ _ _ _ Hrep)) as [? ?].
      assert (min_flying_index r ≤ rp_next_index r) by (unfold min_flying_index in *; lia).
      split_and!; [|done..]. split; [by eapply empty_pipeline; [exact Hrep|lia|done..]|].
      intros Ht. eapply barred_lower; [|by apply Hb]. done. }
  clearbody w1. revert w1 u w' Hw1 Hrun. change (frame (emptied b) (rp_mod (set_is_waiter_canceled true);;
    wait_id ← rp_get rp_wait_id; if decide (wait_id ≠ 0) then rp_log (λ m, Some (lm_remove_waiter m wait_id));;
      rp_mod (set_wait_id 0) else mret tt)). frames.
Qed.

Lemma reset_frame : frame (rep_ok fl opts) reset_next_index.
Proof.
  eapply triple_conseq; [apply (reset_next_index_ok false)| |].
  - intros w. apply holds_impl. by intros; split.
  - intros u w. apply holds_impl. by intros m evs r ([? _] & _).
Qed.

(** ** Sending *)

Lemma snapshots_sent_app evs evs' : snapshots_sent (evs ++ evs') = snapshots_sent evs ++ snapshots_sent evs'.
Proof. apply omap_app. Qed.

Lemma seen_loud w ev : is_rpc ev = true → louds (sent ++ rw_out w ++ [ev]) = seen w ++ [ev].
Proof. intros Hev. unfold seen, louds. by rewrite app_assoc, filter_app, filter_cons_True by done. Qed.

Lemma flight_of_app evs evs' f : flight_of evs f → flight_of (evs ++ evs') f.
Proof. intros (q & a & t & ? & ?). exists q, a, t. rewrite elem_of_app. tauto. Qed.

(** A new rpc in fly with [n] entries: its id is the last one given out. *)
Lemma push_rep_ok m evs r r' id q a t n :
  rep_ok fl opts m evs r → 0 ≤ n →
  rcore r' = (rp_next_index r + n, rp_flying_append_entries_size r + n,
              rp_append_entries_in_fly r ++ [mkFlying (rp_next_index r) n id], rp_reader r, rp_options r) →
  rp_next_index r = ae_prev_log_index q + 1 → ae_entries_size q = n →
  rp_flying_append_entries_size r + n ≤ raft_max_entries_size fl →
  zlen (rp_append_entries_in_fly r) + 1 ≤ Z.max 1 (raft_max_parallel_append_entries_rpc_num fl) →
  rp_next_index r + n - 1 ≤ lm_last_log_index m →
  n = 0 ∨ snapshots_sent evs = [] →
  rep_ok fl opts m (evs ++ [RpAppendEntries id q a t]) r'.
Proof.
  intros [Ho Hp Hl Hs Hi] Hn [= Hnext Hfly Hfs Hrd Hopts] Hq Hsz Hm Hlen Hlast Hsnap. constructor.
  - congruence.
  - destruct Hp as [P1 P2 P3 P4]. constructor; rewrite ?Hnext, ?Hfly, ?Hfs.
    + by apply (fly_ok_snoc _ _ _ (mkFlying (rp_next_index r) n id)).
    + rewrite fly_size_snoc. cbn. lia.
    + done.
    + rewrite zlen_app. unfold zlen in *. cbn in *. lia.
  - lia.
  - rewrite Hfs. apply Forall_app. split; [eapply Forall_impl; [exact Hs|intros; by apply flight_of_app]|].
    repeat constructor. exists q, a, t. cbn. rewrite elem_of_app, list_elem_of_singleton. auto.
  - rewrite snapshots_sent_app. cbn. rewrite app_nil_r.
    destruct Hi as [?|(id' & q' & Hsn & ? & ? & ?)]; [by left|right].
    destruct Hsnap as [->|?]; [|congruence]. exists id', q'. rewrite Hnext, Hrd, Z.add_0_r. done.
Qed.

Lemma push_shared_ok w w' id q a t :
  request_ok fl opts C q a → shared_ok w → rw_next_call_id w = id → rw_next_call_id w' = id + 1 →
  rw_log_manager w' = rw_log_manager w → rw_others w' = rw_others w →
  rw_out w' = rw_out w ++ [RpAppendEntries id q a t] → shared_ok w'.
Proof.
  intros Hreq (He & [Hid Hu] & Hc) Hn Hn' Hm Ho Hout. unfold shared_ok, env_ok, seen. rewrite Hm, Ho, Hout, seen_loud by done.
  assert (∀ q' a' t', RpAppendEntries id q' a' t' ∉ seen w) as Hfresh.
  { intros q' a' t' Hin. specialize (Hid _ _ _ _ Hin). lia. }
  split_and!; [apply He..| |].
  - split.
    + intros id' q' a' t' [Hin|Hin]%elem_of_app; [specialize (Hid _ _ _ _ Hin); lia|].
      apply list_elem_of_singleton in Hin as [= -> -> -> ->]. lia.
    + intros id' q1 a1 t1 q2 a2 t2 [H1|H1]%elem_of_app [H2|H2]%elem_of_app.
      * by eapply Hu.
      * apply list_elem_of_singleton in H2 as [= -> -> -> ->]. by apply Hfresh in H1.
      * apply list_elem_of_singleton in H1 as [= -> -> -> ->]. by apply Hfresh in H2.
      * apply list_elem_of_singleton in H1 as [= -> -> -> ->]. by apply list_elem_of_singleton in H2 as [= -> -> ->].
  - intros ev [Hin|Hin]%elem_of_app; [by apply Hc|]. by apply list_elem_of_singleton in Hin as ->.
Qed.

(** ** Compacted logs *)

(** The next index is [n], and the entries from it on can be read. *)
Definition at_next (n : Z) (P : LogManager S → list RpEvent → Prop) : RProp := λ m evs r,
  rep_ok fl opts m evs r ∧ rp_next_index r = n ∧ P m evs.

Definition clear (n : Z) (m : LogManager S) (evs : list RpEvent) : Prop :=
  snapshots_sent evs = [] ∨ n < lm_first_log_index m.

#[local] Instance at_next_clear_stable n : Stable (at_next n (clear n)).
Proof.
  intros m m' evs r r' (Hr & Hn & Hc) Hle Heq. split_and!; [by eapply stable|by injection Heq; congruence|].
  destruct Hc; [by left|right]. destruct Hle; lia.
Qed.
#[local] Instance at_next_barred_stable n : Stable (at_next n (λ m _, barred m n)).
Proof.
  intros m m' evs r r' (Hr & Hn & Hc) Hle Heq. split_and!; [by eapply stable|by injection Heq; congruence|].
  by eapply barred_le.
Qed.
#[local] Instance at_next_true_stable n : Stable (at_next n (λ _ _, True)).
Proof. intros m m' evs r r' (Hr & Hn & Hc) Hle Heq. split_and!; [by eapply stable|by injection Heq; congruence|done]. Qed.

Lemma term_barred m n :
  good_log C e m → n - 1 ≤ lm_last_log_index m → lm_get_term m (n - 1) = Some 0 → n - 1 ≠ 0 → barred m n.
Proof.
  intros [Hpos _] Hl Hz Hn. destruct (decide (n < lm_first_log_index m)); [by left|right].
  destruct (decide (n - 1 < lm_first_log_index m)); [split_and!; [lia|done..]|].
  exfalso. apply (Hpos (n - 1)); [lia|done].
Qed.

(** The request before its entries. *)
Definition header_ok (n : Z) (q : AppendEntriesRequest) : Prop :=
  n = ae_prev_log_index q + 1 ∧ ae_entries q = [] ∧ ae_term q = ro_term opts ∧
  (ae_prev_log_index q ≠ 0 → ae_prev_log_term q = term (id (C (ae_prev_log_index q)))).

(** A request is made where the log can be read, a snapshot needed where not. *)
Lemma fill_common_fields_ok n :
  st_triple (holds (at_next n (λ _ _, True))) (fill_common_fields (n - 1) false) (λ q w,
    match q with
    | None => holds (at_next n (λ m _, barred m n)) w
    | Some q => holds (at_next n (clear n)) w ∧ header_ok n q
    end).
Proof.
  intros w q w' Hw Hrun. unfold fill_common_fields in Hrun. apply st_bind_Some in Hrun as (t & w1 & Ht & Hrun).
  destruct (triple_get_term _ (n - 1) _ _ _ Hw Ht) as (Hw1 & Hg & Hterm).
  destruct (decide (t = 0 ∧ n - 1 ≠ 0)) as [[-> Hn]|Ht0].
  - assert (holds (at_next n (λ m _, barred m n)) w1) as Hb.
    { split; [apply Hw1|]. destruct Hw1 as [_ Hr]. destruct (rw_replicator w1); [|done].
      destruct Hr as (Hrep & Hnext & _). split_and!; [done..|]. apply term_barred; [done| |done|done].
      pose proof (ro_last _ _ _ _ _ Hrep). lia. }
    apply st_bind_Some in Hrun as (c & w2 & Hc & Hrun).
    apply st_bind_Some in Hc as (first & w3 & Hf & Hc). apply st_bind_Some in Hc as ([] & w4 & Hck & [= <- <-]).
    injection Hrun as <- <-. apply st_check_Some in Hck as [_ ->]. exact (frame_first (at_next n (λ m _, barred m n)) _ _ _ Hb Hf).
  - assert (holds (at_next n (clear n)) w1) as Hb.
    { split; [apply Hw1|]. destruct Hw1 as [_ Hr]. destruct (rw_replicator w1); [|done].
      destruct Hr as (Hrep & Hnext & _). split_and!; [done..|].
      destruct (ro_inst _ _ _ _ _ Hrep) as [?|(id & x & _ & _ & Hbar & _)]; [by left|right].
      rewrite Hnext in Hbar. destruct Hbar as [?|(_ & ? & ?)]; [done|]. destruct Ht0. split; [congruence|done]. }
    rewrite st_bind_eq with (a := false) (s1 := w1) in Hrun by done. cbn in Hrun.
    match type of Hrun with ?k w1 = _ => assert (frame (at_next n (clear n)) k) as Hk by frames end.
    pose proof (Hk _ _ _ Hb Hrun) as Hw'. clear Hk.
    apply st_bind_Some in Hrun as (o & w2 & [-> (r & Hr & ->)]%rp_get_run & Hrun).
    destruct Hb as [_ Hb]. rewrite Hr in Hb. destruct Hb as (Hrep & _). rewrite (ro_opts _ _ _ _ _ Hrep) in Hrun.
    repeat (apply st_bind_Some in Hrun as (? & ? & _ & Hrun)). injection Hrun as <- <-.
    split; [done|]. unfold header_ok. cbn. split_and!; [lia|done|done|]. intros Hn.
    destruct Hg as (_ & _ & _ & Hct). apply (Hct (n - 1)); [done| |done]. intros ->. by apply Ht0.
Qed.

(** ** Snapshots *)

(** No snapshot is on its way, and the reader is open if [b]. *)
Definition uninstalled (b : bool) : RProp := λ m evs r,
  maybe_barred true m evs r ∧ snapshots_sent evs = [] ∧ (b = true → rp_reader r = true).
#[local] Instance uninstalled_stable b : Stable (uninstalled b).
Proof.
  intros m m' evs r r' (Hr & H1 & H2) Hle Hc. split_and!; [by eapply stable|done|].
  injection Hc as _ _ _ <- _. done.
Qed.

Lemma set_reader_rep_ok b m evs r : snapshots_sent evs = [] → rep_ok fl opts m evs r → rep_ok fl opts m evs (set_reader b r).
Proof. intros Hs [Ho [P1 P2 P3 P4] Hl Hsent _]. constructor; [done|constructor|..]; cbn; auto. Qed.

Lemma set_reader_ok b b' :
  st_triple (holds (uninstalled b)) (rp_mod (set_reader b')) (λ _, holds (uninstalled b')).
Proof.
  intros w u w' [Hs Hr] [= <- <-]. split; [done|]. cbn -[default]. destruct (rw_replicator w) as [r|]; [|done]. cbn -[default].
  destruct Hr as ([Hr Hb] & Hi & _). split_and!; [|done|done]. split; [by apply set_reader_rep_ok|done].
Qed.

Lemma holds_weaken b w : holds (maybe_barred b) w → holds (rep_ok fl opts) w.
Proof. apply holds_impl. by intros ? ? ? [? _]. Qed.

Lemma uninstalled_weaken b w : holds (uninstalled b) w → holds (rep_ok fl opts) w.
Proof. apply holds_impl. by intros ? ? ? ([? _] & _). Qed.

(** Closing the reader keeps what does not depend on it. *)
Lemma close_reader_ok (RP : RProp) `{!Stable RP} :
  (∀ m evs r, RP m evs r → RP m evs (set_reader false r)) → frame RP (close_reader e).
Proof.
  intros Hrd. apply frame_bind; [frames|]. intros [|]; [|frames].
  apply frame_bind; [frames|]. intros _. apply frame_bind; [|intros _; frames].
  intros w u w' [Hs Hr] [= <- <-]. split; [done|]. cbn. destruct (rw_replicator w); [by apply Hrd|done].
Qed.

Lemma uninstalled_closed m evs r : uninstalled false m evs r → uninstalled false m evs (set_reader false r).
Proof. intros ([Hr Hb] & Hi & _). split_and!; [|done|done]. split; [by apply set_reader_rep_ok|done]. Qed.

Lemma uninstalled_any b w : holds (uninstalled b) w → holds (uninstalled false) w.
Proof. apply holds_impl. intros m evs r (? & ? & _). by split_and!. Qed.

Lemma emit_install_ok uri rc id q :
  re_snapshot e = Some (uri, (rc, is_meta q)) →
  st_triple (holds (uninstalled true)) (rp_emit [RpInstallSnapshot id q]) (λ _, holds (rep_ok fl opts)).
Proof.
  intros Hsn w u w' [(He & Hs & Hc) Hr] [= <- <-]. unfold holds, shared_ok, seen. cbn. rewrite seen_loud by done.
  split; [split_and!|].
  - done.
  - destruct Hs as [Hid Hu].
    split; [intros id' q' a' t' [?|?%list_elem_of_singleton]%elem_of_app; [eauto|done]|].
    intros id' q' a' t' q2 a2 t2 [?|?%list_elem_of_singleton]%elem_of_app
      [?|?%list_elem_of_singleton]%elem_of_app; [eauto|done..].
  - intros ev [?| ->%list_elem_of_singleton]%elem_of_app; [by apply Hc|done].
  - destruct (rw_replicator w) as [r|]; [|done]. destruct Hr as ([[Ho Hp Hl Hsent _] Hb] & Hi & Hrd).
    constructor; [done..| |].
    + eapply Forall_impl; [exact Hsent|]. intros. by apply flight_of_app.
    + right. exists id, q. rewrite snapshots_sent_app, Hi. split_and!; [done|by apply Hrd|by apply Hb|].
      pose proof (barred_first _ _ (Hb eq_refl)). destruct He as [(_ & Hf & _) _]. specialize (Hf _ _ _ Hsn). lia.
Qed.

Lemma install_snapshot_ok blk :
  (∀ ec, frame (rep_ok fl opts) (blk ec)) →
  st_triple (holds (maybe_barred true)) (install_snapshot_with e blk) (λ _, holds (rep_ok fl opts)).
Proof.
  intros Hblk w u w' Hw (rd & w1 & [-> (r & Hr & ->)]%rp_get_run & Hrun)%st_bind_Some.
  destruct (re_node_is_witness e); [exact (Hblk _ _ _ _ (holds_weaken _ _ Hw) Hrun)|].
  destruct (rp_reader r) eqn:Hrd; [injection Hrun as _ <-; by apply holds_weaken in Hw|].
  case_bool_decide; [exact (Hblk _ _ _ _ (holds_weaken _ _ Hw) Hrun)|].
  assert (holds (uninstalled false) w) as Hw1.
  { destruct Hw as [Hs Hrep]. split; [done|]. rewrite Hr in *. split_and!; [done| |done].
    destruct Hrep as [[_ _ _ _ [?|(? & ? & _ & ? & _)]] _]; [done|congruence]. }
  clear Hw Hr Hrd. revert w u w' Hw1 Hrun.
  match goal with |- ∀ w u w', _ → ?k w = _ → _ =>
    change (st_triple (holds (uninstalled false)) k (λ _, holds (rep_ok fl opts))) end.
  eapply (triple_bind _ _ (λ _, holds (uninstalled false))); [frames|]. intros _.
  destruct (re_snapshot e) as [[uri [rc meta]]|] eqn:Hsn.
  2: { eapply triple_pre; [|apply uninstalled_weaken].
       change (frame (rep_ok fl opts) (finish_throttle e;; rp_emit [RpSnapshotError EIO] : ST (RpWorld S) unit)). frames. }
  eapply (triple_bind _ _ (λ _, holds (uninstalled true))); [apply set_reader_ok|]. intros _.
  destruct (decide (uri = [])).
  { eapply triple_pre; [|apply uninstalled_any].
    eapply (triple_bind _ _ (λ _, holds (uninstalled false))); [exact (close_reader_ok (uninstalled false) uninstalled_closed)|]. intros _.
    eapply triple_pre; [apply Hblk|apply uninstalled_weaken]. }
  destruct (decide (rc ≠ 0)).
  { eapply triple_pre; [|apply uninstalled_weaken].
    change (frame (rep_ok fl opts) (rp_emit [RpSnapshotError EIO] : ST (RpWorld S) unit)). frames. }
  do 6 (eapply (triple_bind _ _ (λ _, holds (uninstalled true))); [frames|intros ?]).
  by eapply emit_install_ok.
Qed.

(** ** Probes and blocking *)

Lemma at_next_barred_weaken n w : holds (at_next n (λ m _, barred m n)) w → holds (maybe_barred true) w.
Proof. apply holds_impl. intros m evs r (? & <- & ?). by split. Qed.

Lemma at_next_of w r :
  holds (rep_ok fl opts) w → rw_replicator w = Some r → holds (at_next (rp_next_index r) (λ _ _, True)) w.
Proof. intros [Hs Hrep] Hr. split; [done|]. rewrite Hr in *. done. Qed.

Lemma probe_request n q : header_ok n q → request_ok fl opts C q [].
Proof.
  intros (-> & Hq & Ht & Hp). unfold request_ok, ae_last_index, ae_entries_size. rewrite Hq.
  split_and!; [done..|]. unfold zlen. cbn. lia.
Qed.

Lemma send_probe_ok n q :
  header_ok n q →
  st_triple (holds (at_next n (clear n)))
    (call_id ← new_call_id;
     rp_mod (set_st (mkStat APPENDING_ENTRIES n (n - 1)));;
     r ← rp_get (λ r, r);
     st_check (rp_append_entries_in_fly r = []);;
     st_check (rp_flying_append_entries_size r = 0);;
     rp_mod (set_append_entries_in_fly (rp_append_entries_in_fly r ++ [mkFlying n 0 call_id]));;
     rp_mod (set_append_entries_counter (rp_append_entries_counter r + 1));;
     rp_emit [RpAppendEntries call_id q [] (re_monotonic_ms e)])
    (λ _, holds (rep_ok fl opts)).
Proof.
  intros Hh w u w' [Hs Hrep] Hrun. pose proof (probe_request _ _ Hh) as Hreq. destruct Hh as (Hn & Hq & _).
  apply st_bind_Some in Hrun as (id & w1 & [= <- <-] & Hrun).
  apply st_bind_Some in Hrun as ([] & w2 & [= <-] & Hrun).
  apply st_bind_Some in Hrun as (r & w3 & [-> (r0 & Hr & ->)]%rp_get_run & Hrun). cbn in Hr.
  apply st_bind_Some in Hrun as ([] & w4 & [Hfs ->]%st_check_Some & Hrun).
  apply st_bind_Some in Hrun as ([] & w5 & [Hfl ->]%st_check_Some & Hrun).
  apply st_bind_Some in Hrun as ([] & w6 & [= <-] & Hrun).
  apply st_bind_Some in Hrun as ([] & w7 & [= <-] & [= <- <-]).
  destruct (rw_replicator w) as [r|]; [|done]. injection Hr as <-. cbn in Hfs, Hfl.
  destruct Hrep as (Hrep & Hnext & Hclear).
  split; [by eapply (push_shared_ok w)|]. cbn. unfold seen. cbn. rewrite seen_loud by done.
  eapply (push_rep_ok _ _ r); [exact Hrep|reflexivity|..].
  - unfold rcore. cbn. by rewrite Hfl, Hfs, !Z.add_0_r, Hnext.
  - lia.
  - unfold ae_entries_size. by rewrite Hq.
  - lia.
  - rewrite Hfs. unfold zlen. cbn. lia.
  - pose proof (ro_last _ _ _ _ _ Hrep). lia.
  - by left.
Qed.

Lemma send_empty_ok inst hb :
  st_triple (holds (maybe_barred true)) inst (λ _, holds (rep_ok fl opts)) →
  frame (rep_ok fl opts) (send_empty_entries_with e inst hb).
Proof.
  intros Hinst w u w' Hw (n & w1 & [-> (r & Hr & ->)]%rp_get_run & Hrun)%st_bind_Some.
  destruct hb.
  - revert u w' Hrun. assert (∀ q, frame (rep_ok fl opts) match q with
      | Some q => call_id ← new_call_id;
          rp_mod (λ r, set_heartbeat_counter (rp_heartbeat_counter r + 1) (set_heartbeat_in_fly call_id r));;
          rp_emit [RpHeartbeat call_id q (Z.quot (re_election_timeout_ms e) 2) (re_monotonic_ms e)]
      | None => st_check (true = false);; inst end) as Hk.
    { intros [q|]; [frames|]. intros s a s' _ ([] & ? & [? _]%st_check_Some & _)%st_bind_Some. done. }
    intros u w' Hrun. exact (frame_bind _ _ _ (frame_fill_common_fields _ _ _) Hk _ _ _ Hw Hrun).
  - apply st_bind_Some in Hrun as (q & w1 & Hq & Hrun).
    apply (fill_common_fields_ok _ _ _ _ (at_next_of _ _ Hw Hr)) in Hq. destruct q as [q|].
    + destruct Hq as (Hw1 & Hh). by eapply send_probe_ok.
    + apply st_bind_Some in Hrun as ([] & w2 & [_ ->]%st_check_Some & Hrun).
      eapply Hinst; [|exact Hrun]. by eapply at_next_barred_weaken.
Qed.

Lemma block_loop_ok fuel ec : frame (rep_ok fl opts) (block_loop fl e fuel ec).
Proof.
  revert ec. induction fuel as [|fuel IH]; intros ec; cbn; frames.
  apply send_empty_ok, install_snapshot_ok. done.
Qed.

Lemma block_ok ec : frame (rep_ok fl opts) (block fl e ec).
Proof. intros w u w'. apply block_loop_ok. Qed.

Lemma install_ok : st_triple (holds (maybe_barred true)) (install_snapshot fl e) (λ _, holds (rep_ok fl opts)).
Proof. apply install_snapshot_ok, block_ok. Qed.

Lemma send_empty_entries_ok hb : frame (rep_ok fl opts) (send_empty_entries fl e hb).
Proof. apply send_empty_ok, install_ok. Qed.

(** ** Entries *)

(** The first [k] entries from [n] on were read. *)
Definition prepared (n k : Z) : RProp :=
  at_next n (λ m evs, n + k - 1 ≤ lm_last_log_index m ∧ (if decide (k = 0) then clear n m evs else snapshots_sent evs = [])).
#[local] Instance prepared_stable n k : Stable (prepared n k).
Proof.
  intros m m' evs r r' (Hr & Hn & Hl & Hc) Hle Heq. split_and!; [by eapply stable|by injection Heq; congruence|..].
  - destruct Hle as (_ & ? & _). lia.
  - case_decide; [|done]. destruct Hc; [by left|right]. destruct Hle; lia.
Qed.

Lemma prepared_pred n k w : 0 ≤ k → holds (prepared n (k + 1)) w → holds (prepared n k) w.
Proof.
  intros Hk. apply holds_impl. intros m evs r (? & ? & ? & Hs). split_and!; [done..|lia|].
  rewrite decide_False in Hs by lia. case_decide; [by left|done].
Qed.

Lemma get_entry_prepared n k :
  0 ≤ k → st_triple (holds (prepared n k)) (rp_log (λ m, lm_get_entry m (n + k)))
    (λ x w, match x with
            | Some en => holds (prepared n (k + 1)) w ∧ en = C (n + k) ∧ sendable (n + k) en
            | None => holds (prepared n k) w
            end).
Proof.
  intros Hk. eapply triple_conseq; [apply (triple_log _ (λ m, lm_get_entry m (n + k)))|done|].
  { intros m m' a. apply get_entry_same. }
  intros [x|] w (Hw & m & (_ & _ & Hread & _) & Hget); [|done]. split; [|by eapply Hread].
  pose proof (get_entry_range _ _ _ _ Hget) as Hr.
  destruct (get_entry_same _ _ _ _ Hget) as (Hf & Hl & _). destruct Hw as [Hs Hrep]. split; [done|].
  destruct (rw_replicator w) as [r|]; [|done]. destruct Hrep as (? & ? & ? & Hc). split_and!; [done..|lia|].
  rewrite decide_False by lia. case_decide; [|done]. destruct Hc; [done|lia].
Qed.

Abbreviation wd := (sends_data fl opts).

(** What [_prepare_entry] writes for an entry it has read. *)
Lemma prepare_entry_value (en : LogEntry) (r : Replicator) (k : ST (RpWorld S) unit) data_buf w x w' :
  rp_options r = opts →
  (k;;
   ps ← match peers en with
        | Some ps => st_check (ps ≠ []);; st_lift (mapM peer_to_string ps)
        | None => st_check (type en ≠ ENTRY_TYPE_CONFIGURATION);; mret []
        end;
   old ← match peers en, old_peers en with
         | Some _, Some ops => st_lift (mapM peer_to_string ops)
         | _, _ => mret []
         end;
   if negb (is_witness (ro_peer_id (rp_options r))) || rp_enable_witness_to_leader fl then
     mret (0, Some (mkEntryMeta (term (id en)) (type en) ps (Some (zlen (data en))) old), data_buf ++ data en)
   else mret (0, Some (mkEntryMeta (term (id en)) (type en) ps None old), data_buf)) w = Some (x, w') →
  x.1.2 = entry_meta wd en ∧ x.2 = data_buf ++ data (received wd en) ∧ ∃ em, x.1.2 = Some em.
Proof.
  intros Hopts ([] & w1 & _ & Hrun)%st_bind_Some. apply st_bind_Some in Hrun as (ps & w2 & Hps & Hrun).
  apply st_bind_Some in Hrun as (old & w3 & Hold & Hrun).
  assert (match peers en with Some ps => mapM peer_to_string ps | None => Some [] end = Some ps) as Hps'.
  { destruct (peers en); apply st_bind_Some in Hps as ([] & ? & _ & Hps); [by apply st_lift_Some in Hps as [-> _]|].
    by injection Hps as <- <-. }
  assert (match peers en, old_peers en with Some _, Some ops => mapM peer_to_string ops | _, _ => Some [] end = Some old)
    as Hold'.
  { destruct (peers en), (old_peers en); [by apply st_lift_Some in Hold as [-> _]|by injection Hold as <- <-..]. }
  unfold entry_meta, received. rewrite Hps', Hold'. cbn. unfold sends_data. rewrite Hopts in Hrun.
  destruct (negb _ || _); injection Hrun as <- <-; cbn; rewrite ?app_nil_r; eauto.
Qed.

Lemma prepare_entry_ok n k data_buf :
  0 ≤ k → st_triple (holds (prepared n k)) (prepare_entry fl k data_buf)
    (λ x w, match x.1.2 with
            | Some em => holds (prepared n (k + 1)) w ∧ entry_meta wd (C (n + k)) = Some em ∧
                x.2 = data_buf ++ data (received wd (C (n + k))) ∧ sendable (n + k) (C (n + k))
            | None => holds (prepared n k) w
            end).
Proof.
  intros Hk. unfold prepare_entry. case_decide; [by intros w x w' Hw [= <- <-]|].
  intros w x w' Hw (r & w1 & [-> (r1 & Hr & ->)]%rp_get_run & Hrun)%st_bind_Some.
  assert (rp_next_index r1 = n ∧ rp_options r1 = opts) as [Hn Hopts].
  { destruct Hw as [_ Hw]. rewrite Hr in Hw. destruct Hw as ([] & ? & _). done. }
  rewrite Hn in Hrun. apply st_bind_Some in Hrun as (en & w2 & Hget & Hrun).
  apply (get_entry_prepared _ _ Hk _ _ _ Hw) in Hget. destruct en as [en|]; [|by injection Hrun as <- <-].
  destruct Hget as (Hw2 & -> & Hsend).
  case_decide; [injection Hrun as <- <-; by apply prepared_pred|].
  destruct (prepare_entry_value _ _ _ _ _ _ _ Hopts Hrun) as (Hem & Hdata & em & Hsome). rewrite Hsome in *.
  split_and!; [|done..].
  match type of Hrun with ?f w2 = _ => assert (frame (prepared n (k + 1)) f) as Hf by frames end.
  exact (Hf _ _ _ Hw2 Hrun).
Qed.

(** The entries of [C] from [n] on, as they are sent. *)
Definition encoded (n : Z) (ems : list EntryMeta) (data_buf : list Z) : Prop :=
  mapM (entry_meta wd) (C <$> seqZ n (zlen ems)) = Some ems ∧ data_buf = attachment wd (C <$> seqZ n (zlen ems)) ∧
  ∀ i, n ≤ i < n + zlen ems → sendable i (C i).

Lemma encoded_snoc n k ems data_buf em :
  zlen ems = k → encoded n ems data_buf → entry_meta wd (C (n + k)) = Some em → sendable (n + k) (C (n + k)) →
  encoded n (ems ++ [em]) (data_buf ++ data (received wd (C (n + k)))).
Proof.
  intros <- (Hm & Hd & Hs) Hem Hsend. pose proof (zlen_nonneg ems). unfold encoded.
  assert (zlen (ems ++ [em]) = zlen ems + 1) as -> by (rewrite zlen_app; done).
  rewrite seqZ_app, fmap_app by lia. 
  assert (seqZ (n + zlen ems) 1 = [n + zlen ems]) as -> by (rewrite seqZ_cons by lia; by rewrite seqZ_nil by lia).
  cbn.
  split_and!.
  - apply mapM_Some, Forall2_app; [by apply mapM_Some|]. repeat constructor. done.
  - unfold attachment in *. rewrite bind_app, Hd. cbn. by rewrite app_nil_r.
  - intros i Hi. destruct (decide (i = n + zlen ems)) as [->|]; [done|apply Hs; lia].
Qed.

Lemma prepare_entries_ok n k N ems data_buf :
  0 ≤ k → zlen ems = k → encoded n ems data_buf → st_triple (holds (prepared n k)) (prepare_entries fl N k ems data_buf)
    (λ x w, holds (prepared n (zlen x.1.2)) w ∧ zlen x.1.2 ≤ k + Z.of_nat N ∧ encoded n x.1.2 x.2).
Proof.
  revert k ems data_buf. induction N as [|N IH]; intros k ems data_buf Hk Hl He; cbn [prepare_entries].
  { intros w x w' Hw [= <- <-]. cbn. rewrite Hl. split_and!; [done|lia|done]. }
  intros w x w' Hw ([[rc em] data'] & w1 & Hp & Hrun)%st_bind_Some.
  apply (prepare_entry_ok _ _ _ Hk _ _ _ Hw) in Hp. cbn in Hp. destruct em as [em|].
  - destruct Hp as (Hw1 & Hem & -> & Hsend).
    apply IH in Hrun; [|lia|rewrite zlen_app; unfold zlen; cbn; unfold zlen in Hl; lia|by apply encoded_snoc|done].
    destruct Hrun as (? & ? & ?). split_and!; [done|lia|done].
  - injection Hrun as <- <-. cbn. rewrite Hl. split_and!; [done|lia|done].
Qed.

Lemma flight_request n q ems data_buf :
  header_ok n q → encoded n ems data_buf → request_ok fl opts C (with_entries ems q) data_buf.
Proof.
  intros (-> & _ & Ht & Hp) (Hm & Hd & Hs). unfold request_ok, ae_last_index, ae_entries_size. cbn.
  split_and!; [done..|]. intros i Hi. apply Hs. lia.
Qed.

Lemma send_flight_ok n q ems data :
  header_ok n q → encoded n ems data → ems ≠ [] →
  st_triple (λ w, holds (prepared n (zlen ems)) w ∧ ∀ r, rw_replicator w = Some r →
      rp_flying_append_entries_size r + zlen ems ≤ raft_max_entries_size fl ∧
      zlen (rp_append_entries_in_fly r) < raft_max_parallel_append_entries_rpc_num fl)
    (call_id ← new_call_id;
     rp_mod (λ r, set_append_entries_in_fly
       (rp_append_entries_in_fly r ++ [mkFlying (rp_next_index r) (zlen ems) call_id]) r);;
     rp_mod (λ r, set_append_entries_counter (rp_append_entries_counter r + 1) r);;
     rp_mod (λ r, set_flying_append_entries_size (rp_flying_append_entries_size r + zlen ems)
                    (set_next_index (rp_next_index r + zlen ems) r));;
     rp_mod (λ r, set_st (mkStat APPENDING_ENTRIES (min_flying_index r) (rp_next_index r - 1)) r);;
     rp_emit [RpAppendEntries call_id (with_entries ems q) data (re_monotonic_ms e)];;
     wait_more_entries fl)
    (λ _, holds (rep_ok fl opts)).
Proof.
  intros Hh Hen Hne w u w' [[Hs Hrep] Hb] Hrun. pose proof (flight_request _ _ _ _ Hh Hen) as Hreq.
  destruct Hh as (Hn & _). apply st_bind_Some in Hrun as (id & w1 & [= <- <-] & Hrun).
  do 5 apply st_bind_Some in Hrun as ([] & ? & [= <-] & Hrun). cbn in Hrun.
  eapply (frame_wait_more_entries (rep_ok fl opts)); [|exact Hrun].
  destruct (rw_replicator w) as [r|]; [|by split; [eapply (push_shared_ok w)|]]. cbn in *.
  destruct (Hb r eq_refl) as [Hm Hlen]. destruct Hrep as (Hrep & Hnext & Hl & Hsn).
  assert (0 < zlen ems) by (destruct ems; [done|unfold zlen; cbn; lia]). rewrite decide_False in Hsn by lia.
  split; [by eapply (push_shared_ok w)|]. cbn. unfold seen. cbn. rewrite seen_loud by done.
  eapply (push_rep_ok _ _ r); [exact Hrep| |done|cbn; lia|done|lia|lia|lia|by right]. lia.
Qed.

Definition core_is (c : Z * Z * list FlyingAppendEntriesRpc * bool * ReplicatorOptions) : RProp := λ _ _ r, rcore r = c.
#[local] Instance core_is_stable c : Stable (core_is c).
Proof. intros m m' evs r r' Hr _ Heq. unfold core_is in *. congruence. Qed.

Lemma frame_prepare_entries RP `{!Stable RP} N k ems data : frame RP (prepare_entries fl N k ems data).
Proof.
  revert k ems data. induction N as [|N IH]; intros k ems data; cbn [prepare_entries]; [frames|].
  apply frame_bind; [frames|]. intros [[rc [em|]] data']; [apply IH|frames].
Qed.

Lemma reset_install_ok n :
  st_triple (holds (at_next n (λ m _, barred m n))) (reset_next_index;; install_snapshot fl e) (λ _, holds (rep_ok fl opts)).
Proof.
  eapply triple_pre; [|apply at_next_barred_weaken]. eapply triple_bind; [apply (reset_next_index_ok true)|].
  intros ?. eapply triple_pre; [apply install_ok|]. intros w. apply holds_impl. by intros m evs r [? _].
Qed.

Lemma prepared_weaken n k w : holds (prepared n k) w → holds (rep_ok fl opts) w.
Proof. apply holds_impl. by intros m evs r [? _]. Qed.

Lemma first_log_index_run RP `{!Stable RP} w first w' :
  holds RP w → rp_first_log_index w = Some (first, w') → holds RP w' ∧ first = lm_first_log_index (rw_log_manager w').
Proof.
  intros Hw Hrun. apply (triple_log RP (λ m, Some (m, lm_first_log_index m))) in Hrun as (Hw' & m & _ & Hm); [|by intros ??? [= <- <-]|done].
  injection Hm as -> <-. done.
Qed.

(** No entry was prepared. *)
Lemma send_nothing_ok n rc (flying : Z) :
  st_triple (holds (prepared n 0))
    (first ← rp_first_log_index;
     if decide (n < first) then reset_next_index;; install_snapshot fl e
     else if decide (rc = EREADONLY) then
       if decide (flying = 0) then rp_mod (set_state IDLE) else mret tt
     else wait_more_entries fl)
    (λ _, holds (rep_ok fl opts)).
Proof.
  intros w u w' Hw (first & w1 & Hfirst & Hrun)%st_bind_Some.
  destruct (first_log_index_run _ _ _ _ Hw Hfirst) as [Hw1 ->]. clear Hw Hfirst.
  case_decide as Hlt.
  - apply reset_install_ok with (n := n) in Hrun; [done|]. destruct Hw1 as [Hs Hrep]. split; [done|].
    destruct (rw_replicator w1); [|done]. destruct Hrep as (? & ? & _). split_and!; [done..|by left].
  - apply prepared_weaken in Hw1.
    match type of Hrun with ?f w1 = _ => assert (frame (rep_ok fl opts) f) as Hf by frames end.
    exact (Hf _ _ _ Hw1 Hrun).
Qed.

Lemma send_entries_ok : frame (rep_ok fl opts) (send_entries fl e).
Proof.
  intros w u w' Hw (r & w1 & [-> (r1 & Hr & ->)]%rp_get_run & Hrun)%st_bind_Some.
  case_decide as Hg; [by injection Hrun as <- <-|].
  assert (holds (core_is (rcore r1)) w) as Hc. { split; [apply Hw|]. by rewrite Hr. }
  apply st_bind_Some in Hrun as (q & w1 & Hq & Hrun).
  apply (frame_fill_common_fields (core_is (rcore r1)) _ _ _ _ _ Hc) in Hq as Hc1.
  apply (fill_common_fields_ok _ _ _ _ (at_next_of _ _ Hw Hr)) in Hq. clear Hc.
  destruct q as [q|]; [|by eapply reset_install_ok].
  destruct Hq as (Hw1 & Hh). apply st_bind_Some in Hrun as ([[rc ems] data] & w2 & Hp & Hrun).
  apply (frame_prepare_entries (core_is (rcore r1)) _ _ _ _ _ _ _ Hc1) in Hp as Hc2.
  apply (prepare_entries_ok (rp_next_index r1)) in Hp as (Hw2 & Hlen & Hen); [|done|done|by split_and!; [..|unfold zlen; cbn; lia]|].
  2: { destruct Hw1 as [Hs Hrep]. split; [done|]. destruct (rw_replicator w1); [|done].
       destruct Hrep as (Hrep & ? & ?). split_and!; [done..| |done]. pose proof (ro_last _ _ _ _ _ Hrep). lia. }
  cbn in Hw2, Hlen, Hen. case_decide as Hems; [subst ems; by eapply send_nothing_ok|].
  eapply (send_flight_ok (rp_next_index r1)); [done|done|done| |exact Hrun]. split; [done|]. intros r2 Hr2.
  destruct Hc2 as [_ Hc2]. rewrite Hr2 in Hc2. injection Hc2 as _ -> -> _ _. lia.
Qed.

#[local] Hint Resolve send_entries_ok send_empty_entries_ok block_ok : frames.

(** ** Answers *)

Lemma quit_ok t : frame (rep_ok fl opts) (quit_for_higher_term e t).
Proof. unfold quit_for_higher_term. frames. apply destroy_ok. Qed.

Lemma find_next_index_ok response :
  0 ≤ default 0 (aer_last_log_index response) → frame (rep_ok fl opts) (find_next_index fl e response).
Proof.
  intros Hl. eapply triple_pre; [|intros w; apply (holds_impl _ (maybe_barred false)); by intros; split].
  eapply triple_bind; [apply (reset_next_index_ok false)|]. intros ?.
  eapply (triple_bind _ _ (λ _, holds (rep_ok fl opts))); [|intros _; frames].
  intros w u w' [Hs Hr] [= <- <-]. split; [done|]. cbn -[default]. destruct (rw_replicator w) as [r|]; [|done]. cbn -[default].
  destruct Hr as ([Hrep _] & Hfs & Hf). pose proof (pipeline_min_flying r (ro_pipe _ _ _ _ _ Hrep)) as [Hmin _].
  unfold min_flying_index in Hmin. repeat case_decide; [..|done];
    (eapply empty_pipeline; [exact Hrep|lia|cbn -[default]; lia|done..]).
Qed.

Lemma pop_in_fly_ok first fs flying lo hi :
  fly_ok lo fs hi →
  let '(fs', flying') := pop_in_fly first fs flying in
  fly_ok lo fs' hi ∧ flying' - fly_size fs' = flying - fly_size fs ∧ fly_size fs' ≤ fly_size fs ∧
  (length fs' ≤ length fs)%nat ∧ ∀ f, f ∈ fs' → f ∈ fs.
Proof.
  revert flying lo. induction fs as [|f fs IH]; intros flying lo; cbn; [auto with lia|].
  intros (? & ? & Hfs). case_decide; [|cbn; split_and!; auto with lia].
  apply (fly_ok_lo _ lo) in Hfs; [|lia]. specialize (IH (flying - fy_entries_size f) lo Hfs).
  destruct (pop_in_fly _ _ _) as [fs' flying']. destruct IH as (? & ? & ? & ? & Hin).
  unfold fly_size in *. cbn. split_and!; [done|lia|lia|lia|]. intros g Hg. right. by apply Hin.
Qed.

Lemma pop_rep_ok first m evs r :
  rep_ok fl opts m evs r →
  rep_ok fl opts m evs (let '(fs, flying) := pop_in_fly first (rp_append_entries_in_fly r) (rp_flying_append_entries_size r) in
                   set_append_entries_in_fly fs (set_flying_append_entries_size flying r)).
Proof.
  intros [Ho [P1 P2 P3 P4] Hl Hs Hi]. pose proof (pop_in_fly_ok first _ (rp_flying_append_entries_size r) _ _ P1) as Hpop.
  destruct (pop_in_fly _ _ _) as [fs flying]. destruct Hpop as (? & ? & ? & ? & Hin).
  constructor; [done|constructor|..]; cbn -[fly_size]; [done|lia|lia|unfold zlen in *; lia|done| |done].
  rewrite Forall_forall in *. auto.
Qed.

Lemma emit_commit_ok RP f l p : allowed f l p → frame RP (rp_emit [RpCommitAt f l p]).
Proof.
  intros Ha w u w' [(He & Hs & Hc) Hr] [= <- <-].
  assert (louds (sent ++ rw_out w ++ [RpCommitAt f l p]) = seen w) as Heq.
  { unfold seen, louds. rewrite app_assoc, filter_app. apply app_nil_r. }
  unfold holds, shared_ok, seen. cbn. rewrite Heq. split; [|done]. split_and!; [done..|].
  intros ev [Hin|Hin]%elem_of_app; [by apply Hc|]. by apply list_elem_of_singleton in Hin as ->.
Qed.

Lemma commit_at_frame RP `{!Stable RP} f l p :
  frame RP (rp_shared (λ m b, '(b', _, c) ← bb_commit_at b f l p; Some (m, b', c))).
Proof.
  apply frame_shared; [done|]. intros m b m' b' a.
  destruct (bb_commit_at b f l p) as [[[b1 rc] c]|]; [|done]. by intros [= <- <- <-].
Qed.
#[local] Hint Resolve quit_ok find_next_index_ok commit_at_frame emit_commit_ok : frames.

Lemma pop_ok first : frame (rep_ok fl opts) (rp_mod (λ r,
  let '(fs, flying) := pop_in_fly first (rp_append_entries_in_fly r) (rp_flying_append_entries_size r) in
  set_append_entries_in_fly fs (set_flying_append_entries_size flying r))).
Proof.
  intros w u w' [Hs Hr] [= <- <-]. split; [done|]. destruct (rw_replicator w) as [r|]; [|done].
  by apply (pop_rep_ok first) in Hr.
Qed.

Lemma entries_replicated_ok q mf :
  st_triple (λ w, holds (rep_ok fl opts) w ∧ ∀ r, rw_replicator w = Some r → 0 < ae_entries_size q →
      allowed mf (ae_last_index q) (ro_peer_id (rp_options r)))
    (entries_replicated fl e q mf) (λ _, holds (rep_ok fl opts)).
Proof.
  intros w u w' [Hw Ha] (o & w1 & [-> (r & Hr & ->)]%rp_get_run & Hrun)%st_bind_Some.
  specialize (Ha r Hr). match type of Hrun with ?f w = _ => assert (frame (rep_ok fl opts) f) as Hf end.
  - apply frame_bind; [case_decide|intros _].
    + apply frame_bind; [by apply emit_commit_ok, Ha|intros _].
      apply frame_bind; [by apply commit_at_frame; typeclasses eauto|]. intros [i|]; frames.
    + frames.
    + apply frame_bind; [apply pop_ok|intros _; frames].
  - exact (Hf _ _ _ Hw Hrun).
Qed.

Lemma on_rpc_returned_ok id q t x :
  match x with inr response => 0 ≤ default 0 (aer_last_log_index response) | inl _ => True end →
  st_triple (λ w, holds (rep_ok fl opts) w ∧ ∀ r response, rw_replicator w = Some r → x = inr response →
      aer_success response = true → aer_term response = ro_term (rp_options r) → 0 < ae_entries_size q →
      is_valid_rpc id (ae_prev_log_index q + 1) (rp_append_entries_in_fly r) = true →
      allowed (min_flying_index r) (ae_last_index q) (ro_peer_id (rp_options r)))
    (on_rpc_returned fl e id q t x) (λ _, holds (rep_ok fl opts)).
Proof.
  intros Hx w u w' [Hw Ha] (ro & w1 & [= <- <-] & Hrun)%st_bind_Some.
  destruct (rw_replicator w) as [r0|] eqn:Hr0; [|by injection Hrun as <- <-].
  apply st_bind_Some in Hrun as (r & w1 & [-> (r1 & Hr & ->)]%rp_get_run & Hrun).
  rewrite Hr0 in Hr. injection Hr as <-.
  apply st_bind_Some in Hrun as ([] & w1 & [_ ->]%st_check_Some & Hrun).
  destruct (is_valid_rpc _ _ _) eqn:Hv; cbn in Hrun; [|by injection Hrun as <- <-].
  destruct x as [ec|response].
  { match type of Hrun with ?f w = _ => assert (frame (rep_ok fl opts) f) as Hf end; [|exact (Hf _ _ _ Hw Hrun)].
    apply frame_bind; [frames|intros _]. apply frame_bind; [apply reset_frame|intros _; frames]. }
  apply st_bind_Some in Hrun as ([] & w1 & Hm & Hrun).
  pose proof (frame_mod (rep_ok fl opts) (set_consecutive_error_times 0) (λ r, eq_refl) _ _ _ Hw Hm) as Hw1.
  injection Hm as <-. destruct (aer_success response) eqn:Hsucc; cbn [negb] in Hrun.
  - case_decide as Ht; [exact (reset_frame _ _ _ Hw1 Hrun)|].
    apply st_bind_Some in Hrun as ([] & w2 & Hts & Hrun).
    pose proof (frame_timestamp _ _ _ _ _ Hw1 Hts) as Hw2. injection Hts as <-.
    eapply (entries_replicated_ok q (min_flying_index r0)); [|exact Hrun]. split; [done|].
    intros r Hr Hsz. cbn in Hr. rewrite Hr0 in Hr. injection Hr as <-.
    by apply (Ha r0 response).
  - match type of Hrun with ?f ?w1 = _ => assert (frame (rep_ok fl opts) f) as Hf end; [|exact (Hf _ _ _ Hw1 Hrun)].
    case_decide; (apply frame_bind; [first [apply reset_frame|frames]|intros _]); [apply quit_ok|by apply find_next_index_ok].
Qed.

(** ** The other callbacks *)

Definition install_returns (k : Z) : RProp := λ m evs r,
  rep_ok fl opts m evs r ∧ snapshots_sent evs = [] ∧ rp_next_index r ≤ k + 1 ∧ k ≤ lm_last_log_index m.
#[local] Instance install_returns_stable k : Stable (install_returns k).
Proof.
  intros m m' evs r r' (Hr & Hs & Hn & Hk) Hle Hc. split_and!; [by eapply stable|done|..].
  - injection Hc as <- _ _ _ _. done.
  - destruct Hle as (_ & ? & _). lia.
Qed.

Lemma install_returns_weaken k w : holds (install_returns k) w → holds (rep_ok fl opts) w.
Proof. apply holds_impl. by intros m evs r [? _]. Qed.

Lemma set_next_index_ok k : st_triple (holds (install_returns k)) (rp_mod (set_next_index (k + 1))) (λ _, holds (rep_ok fl opts)).
Proof.
  intros w u w' [Hs Hr] [= <- <-]. split; [done|]. cbn. destruct (rw_replicator w) as [r|]; [|done].
  destruct Hr as ([Ho [P1 P2 P3 P4] Hl Hsent _] & Hsn & Hn & Hk).
  constructor; [done|constructor|..]; cbn -[fly_size]; [|done..|lia|done|by left]. by eapply fly_ok_hi.
Qed.

Lemma on_install_snapshot_returned_ok q x :
  st_triple (holds (install_returns (smp_last_included_index (is_meta q))))
    (on_install_snapshot_returned fl e q x) (λ _, holds (rep_ok fl opts)).
Proof.
  set (k := smp_last_included_index (is_meta q)).
  intros w u w' Hw (ro & w1 & [= <- <-] & Hrun)%st_bind_Some.
  destruct (rw_replicator w) as [r0|] eqn:Hr0; [|injection Hrun as <- <-; by eapply install_returns_weaken].
  revert Hw Hrun. clear Hr0 r0. revert w u w'.
  match goal with |- ∀ w u w', _ → ?f w = _ → _ => change (st_triple (holds (install_returns k)) f (λ _, holds (rep_ok fl opts))) end.
  eapply (triple_bind _ _ (λ _, holds (install_returns k))); [|intros _].
  { apply close_reader_ok; [typeclasses eauto|]. intros m evs r (? & ? & ? & ?). split_and!; [|done..].
    by apply set_reader_rep_ok. }
  destruct x as [ec|response]; [eapply triple_pre; [|apply install_returns_weaken]; frames|].
  destruct (tr_success response); cbn; [|eapply triple_pre; [|apply install_returns_weaken]; frames].
  eapply (triple_bind _ _ (λ _, holds (rep_ok fl opts))); [apply set_next_index_ok|intros _; frames].
Qed.

Lemma cancel_any : frame anything cancel_append_entries_rpcs.
Proof.
  unfold cancel_append_entries_rpcs. apply frame_bind; [frames|intros fs]. apply frame_bind; [|intros _; apply triple_mod_any].
  apply frame_emit, Forall_fmap, Forall_true. done.
Qed.

Lemma on_error_stop_ok : frame (rep_ok fl opts) (on_error_stop e).
Proof.
  eapply frame_bind; [frames|]. intros [r0|]; [|frames].
  match goal with |- frame _ ?f => change (st_triple (holds (rep_ok fl opts)) f (λ _, holds (rep_ok fl opts))) end.
  apply (triple_pre _ (holds anything)); [|intros w; apply holds_anything].
  eapply (triple_bind _ _ (λ _, holds anything)); [frames|intros r].
  eapply (triple_bind _ _ (λ _, holds anything)); [frames|intros ?].
  eapply (triple_bind _ _ (λ _, holds anything)); [apply cancel_any|intros ?].
  do 4 (eapply (triple_bind _ _ (λ _, holds anything)); [solve [frames]|intros ?]).
  apply destroy_ok.
Qed.

Lemma stop_and_destroy_ok : frame (rep_ok fl opts) (notify_on_caught_up ESTOP true;; destroy e).
Proof. frames. apply destroy_ok. Qed.
#[local] Hint Resolve stop_and_destroy_ok : frames.

Lemma on_timeout_now_returned_ok b x : frame (rep_ok fl opts) (on_timeout_now_returned e b x).
Proof. unfold on_timeout_now_returned. frames; apply destroy_ok. Qed.

Definition is_answer (c : RpCall) : bool :=
  match c with CallRpcReturned _ _ _ _ | CallInstallSnapshotReturned _ _ _ => true | _ => false end.

Lemma rp_call_ok c :
  is_answer c = false →
  frame (rep_ok fl opts) (rp_call fl e c).
Proof.
  destruct c; cbn [rp_call]; try done; intros _.
  - frames.
  - unfold on_block_timedout. frames.
  - unfold continue_sending. frames.
  - unfold on_heartbeat_returned. frames.
  - apply on_timeout_now_returned_ok.
  - unfold on_catch_up_timedout. frames.
  - unfold send_heartbeat. frames.
  - unfold rp_stop. frames.
  - apply on_error_stop_ok.
  - unfold transfer_leadership. frames.
  - unfold stop_transfer_leadership. frames.
  - unfold send_timeout_now_and_stop. frames.
  - unfold rp_change_readonly_config. frames.
Qed.

Lemma rp_start_ok :
  st_triple (λ w, shared_ok w ∧ rw_replicator w = None ∧ seen w = [] ∧ 0 ≤ lm_last_log_index (rw_log_manager w))
    (rp_start fl e opts 0 0) (λ _, holds (rep_ok fl opts)).
Proof.
  intros w rc w' ((He & Hs & Hc) & Hnone & Hseen & Hlast) Hrun. unfold rp_start in Hrun.
  rewrite decide_False in Hrun by lia. apply st_bind_Some in Hrun as (last & w1 & Hl & Hrun).
  rewrite decide_False in Hrun by lia. unfold rp_last_log_index, rp_log in Hl.
  destruct (rp_shared_run _ _ _ _ He Hl) as (m & b & m' & b' & Hg & Hle & [= <- <- <-] & Ho & ->).
  apply st_bind_Some in Hrun as ([] & w1 & [= <-] & Hrun). cbn in Hrun.
  match type of Hrun with ?f ?w1 = _ => assert (frame (rep_ok fl opts) f) as Hf by frames; assert (holds (rep_ok fl opts) w1) end;
    [|by eapply Hf].
  split; [by split_and!|]. cbn. unfold seen in *. cbn. rewrite Hseen. destruct Hle as (_ & ? & _).
  constructor; [done|constructor|..]; cbn; [lia|done|lia|unfold zlen; cbn; lia|lia|done|by left].
Qed.
End pipeline.

(** ** The recursion of [_block] *)

Section rounds.
Context {S : Type} `{LogStorage S} (fl : RpFlags) (e : RpEnv).
Abbreviation R := (ST (RpWorld S)).

(** No timer is added or deleted. *)
Definition same_sys (w w' : RpWorld S) : Prop := rw_sys w' = rw_sys w.
#[local] Instance same_sys_preorder : PreOrder same_sys.
Proof. split; [by intros w|]. intros w1 w2 w3. unfold same_sys. congruence. Qed.

Lemma get_same_sys {A} (f : Replicator → A) : st_rel same_sys (rp_get f).
Proof. intros w a w' [-> _]%rp_get_run. reflexivity. Qed.

Lemma shared_same_sys {A} (f : LogManager S → BallotBox → option (LogManager S * BallotBox * A)) :
  st_rel same_sys (rp_shared f).
Proof.
  intros w a w' Hrun. unfold rp_shared in Hrun. destruct (match rw_others w with [] => _ | _ :: _ => _ end) as [[m b]|]; [|done].
  cbn in Hrun. destruct (f m b) as [[[m' b'] x]|]; [|done]. by injection Hrun as <- <-.
Qed.

Ltac same_sys :=
  repeat match goal with
  | |- st_rel _ (mret _) => apply st_rel_ret, _
  | |- st_rel _ (_ ≫= _) => apply st_rel_bind; [apply _| |intros ?]
  | |- st_rel _ (st_lift _) => apply st_rel_lift, _
  | |- st_rel _ (st_check _) => apply st_rel_check, _
  | |- st_rel _ (rp_get _) => apply get_same_sys
  | |- st_rel _ (rp_mod _) => by intros ? ? ? [= <- <-]
  | |- st_rel _ (rp_emit _) => by intros ? ? ? [= <- <-]
  | |- st_rel _ new_call_id => by intros ? ? ? [= <- <-]
  | |- st_rel _ rp_first_log_index => apply shared_same_sys
  | |- st_rel _ (rp_log _) => apply shared_same_sys
  | |- st_rel _ (rp_shared _) => apply shared_same_sys
  | |- st_rel _ (match ?x with _ => _ end) => destruct x
  end.

Lemma fill_same_sys i b : st_rel same_sys (fill_common_fields (S := S) i b).
Proof. unfold fill_common_fields. same_sys. Qed.

Lemma close_reader_same_sys : st_rel same_sys (close_reader (S := S) e).
Proof. unfold close_reader, finish_throttle. same_sys. Qed.

(** The same from every world with the results [s] to come. *)
Definition agree (s : list Z) {A} (k k' : R A) : Prop := ∀ w, rw_sys w = s → k w = k' w.

Lemma agree_refl s {A} (k : R A) : agree s k k.
Proof. by intros w _. Qed.

Lemma agree_bind s {A B} (k : R A) (f g : A → R B) :
  st_rel same_sys k → (∀ a, agree s (f a) (g a)) → agree s (k ≫= f) (k ≫= g).
Proof.
  intros Hk Hfg w Hs. destruct (k w) as [[a w1]|] eqn:Hkw.
  - rewrite !(st_bind_eq _ _ _ _ _ Hkw). apply Hfg. rewrite <- Hs. by apply Hk in Hkw.
  - destruct ((k ≫= f) w) as [[b w2]|] eqn:Ef; [apply st_bind_Some in Ef as (? & ? & ? & _); congruence|].
    destruct ((k ≫= g) w) as [[b w2]|] eqn:Eg; [apply st_bind_Some in Eg as (? & ? & ? & _); congruence|done].
Qed.

Lemma install_agree s (b b' : Z → R unit) :
  (∀ ec, agree s (b ec) (b' ec)) → agree s (install_snapshot_with e b) (install_snapshot_with e b').
Proof.
  intros Hb. apply agree_bind; [apply get_same_sys|]. intros rd.
  destruct (re_node_is_witness e); [apply Hb|]. destruct rd; [apply agree_refl|].
  case_bool_decide; [apply Hb|]. apply agree_bind; [same_sys|]. intros ?.
  destruct (re_snapshot e) as [[uri [rc meta]]|]; [|apply agree_refl].
  apply agree_bind; [same_sys|]. intros ?. destruct (decide (uri = [])); [|apply agree_refl].
  apply agree_bind; [apply close_reader_same_sys|]. intros ?. apply Hb.
Qed.

Lemma send_empty_agree s (i i' : R unit) hb :
  agree s i i' → agree s (send_empty_entries_with e i hb) (send_empty_entries_with e i' hb).
Proof.
  intros Hi. apply agree_bind; [apply get_same_sys|]. intros n. apply agree_bind; [apply fill_same_sys|].
  intros [q|]; [apply agree_refl|]. apply agree_bind; [same_sys|]. intros ?. exact Hi.
Qed.

Lemma block_loop_agree s n n' ec :
  (length s ≤ n)%nat → (length s ≤ n')%nat → agree s (block_loop fl e n ec) (block_loop fl e n' ec).
Proof.
  revert n n' ec. induction s as [|x s IH]; intros n n' ec Hn Hn'.
  - intros w Hs. destruct n, n'; cbn [block_loop]; (apply (agree_bind []); [apply get_same_sys| |done]);
      intros st; (destruct (decide (st = BLOCKING)); [apply agree_refl|]);
      intros w1 Hs1; rewrite !st_bind_eq with (a := 0) (s1 := mkRpWorld (rw_replicator w1) (rw_log_manager w1)
        (rw_ballot_box w1) (rw_others w1) (rw_last_rpc_send_timestamp w1) (rw_next_call_id w1) [] (rw_out w1))
        by (unfold rp_sys; by rewrite Hs1); done.
  - destruct n as [|n], n' as [|n']; cbn [length] in *; [lia..|]. cbn [block_loop].
    apply agree_bind; [apply get_same_sys|]. intros st. destruct (decide (st = BLOCKING)); [apply agree_refl|].
    intros w Hs. rewrite !st_bind_eq with (a := x) (s1 := mkRpWorld (rw_replicator w) (rw_log_manager w)
      (rw_ballot_box w) (rw_others w) (rw_last_rpc_send_timestamp w) (rw_next_call_id w) s (rw_out w))
      by (unfold rp_sys; by rewrite Hs). destruct (decide (x = 0)); [done|].
    apply (send_empty_agree s); [|done]. apply install_agree. intros ec'. apply IH; lia.
Qed.

(** [_block], [_send_empty_entries] and [_install_snapshot] call each other
    until a timer can be added or a request is sent: the recursion ends after at
    most one round for each timer that cannot be added. *)
Lemma block_rounds (w : RpWorld S) rounds error_code :
  (length (rw_sys w) ≤ rounds)%nat → block_loop fl e rounds error_code w = block fl e error_code w.
Proof. intros Hl. by apply (block_loop_agree (rw_sys w)). Qed.
End rounds.

(** ** Reachable states *)

Section reach.
Context {S : Type} `{LogStorage S} (fl : RpFlags) (opts : ReplicatorOptions) (C : Z → LogEntry).
Context (Hmax : 0 < raft_max_entries_size fl).

Definition reach_inv (w : RpWorld S) (sent : list RpEvent) : Prop :=
  sent_ok (louds sent) (rw_next_call_id w) ∧
  match rw_replicator w with Some r => rep_ok fl opts (rw_log_manager w) (louds sent) r | None => True end.

Lemma answered_append c sent id q a t :
  RpAppendEntries id q a t ∈ louds (answered c sent) ↔ RpAppendEntries id q a t ∈ louds sent.
Proof.
  unfold louds, answered. destruct c; try done. rewrite !list_elem_of_filter. naive_solver.
Qed.

Lemma snapshots_sent_elem evs id q : (id, q) ∈ snapshots_sent evs ↔ RpInstallSnapshot id q ∈ evs.
Proof.
  unfold snapshots_sent. rewrite list_elem_of_omap. split.
  - intros (ev & Hin & Hev). by destruct ev; simplify_eq.
  - intros Hin. by exists (RpInstallSnapshot id q).
Qed.

Lemma answered_install sent id q x id' q' :
  RpInstallSnapshot id q ∈ sent → snapshots_sent (louds sent) = [(id', q')] →
  q' = q ∧ snapshots_sent (louds (answered (CallInstallSnapshotReturned id q x) sent)) = [].
Proof.
  intros Hin Hs. assert ((id, q) ∈ snapshots_sent (louds sent)) as Hin'.
  { apply snapshots_sent_elem, list_elem_of_filter. done. }
  rewrite Hs in Hin'. apply list_elem_of_singleton in Hin' as [= <- <-]. split; [done|].
  apply elem_of_nil_inv. intros [i y] Hi. apply snapshots_sent_elem in Hi.
  unfold louds, answered in Hi. rewrite !list_elem_of_filter in Hi. destruct Hi as (_ & Hf & Hsent).
  assert ((i, y) ∈ snapshots_sent (louds sent)) as Hy by (apply snapshots_sent_elem, list_elem_of_filter; done).
  rewrite Hs in Hy. apply list_elem_of_singleton in Hy as [= -> ->]. cbn in Hf. by rewrite bool_decide_true in Hf.
Qed.

Lemma answered_no_install sent c :
  snapshots_sent (louds sent) = [] → snapshots_sent (louds (answered c sent)) = [].
Proof.
  intros Hs. apply elem_of_nil_inv. intros [i y] Hi. apply snapshots_sent_elem in Hi.
  assert (RpInstallSnapshot i y ∈ louds sent) as Hin.
  { destruct c; try done. unfold louds, answered in *. rewrite !list_elem_of_filter in *. tauto. }
  apply snapshots_sent_elem in Hin. rewrite Hs in Hin. by apply not_elem_of_nil in Hin.
Qed.

(** The world a callback starts in. *)
Section enter.
Context (w : RpWorld S) (sent : list RpEvent) (w0 : RpWorld S) (e : RpEnv) (c : RpCall).
Context (allowed : Z → Z → PeerId → Prop).
Context (Hinv : reach_inv w sent) (Hrep : rw_replicator w0 = rw_replicator w).
Context (Hid : rw_next_call_id w0 = rw_next_call_id w) (Hout : rw_out w0 = []).
Context (Hle : log_le (rw_log_manager w) (rw_log_manager w0)) (Henv : env_ok C e w0).

Lemma enter_shared : shared_ok fl opts C e (answered c sent) allowed w0.
Proof.
  destruct Hinv as [[Hids Hu] _]. split_and!; [done| |by rewrite Hout; intros ? ?%not_elem_of_nil].
  unfold seen. rewrite Hout, app_nil_r, Hid. split.
  - intros id q a t ?%answered_append. by eapply Hids.
  - intros id q a t q' a' t' ?%answered_append ?%answered_append. by eapply Hu.
Qed.

Lemma enter_call :
  match c with CallInstallSnapshotReturned _ _ _ => False | _ => True end →
  holds fl opts C e (answered c sent) allowed (rep_ok fl opts) w0.
Proof.
  intros Hc. assert (answered c sent = sent) as Heq by by destruct c. split; [apply enter_shared|].
  unfold seen. rewrite Heq, Hout, app_nil_r, Hrep. destruct Hinv as [_ Hr].
  destruct (rw_replicator w); [|done]. by eapply rep_ok_stable.
Qed.

Lemma enter_install id q x :
  c = CallInstallSnapshotReturned id q x → RpInstallSnapshot id q ∈ sent →
  smp_last_included_index (is_meta q) ≤ lm_last_log_index (rw_log_manager w0) →
  holds fl opts C e (answered c sent) allowed (install_returns fl opts (smp_last_included_index (is_meta q))) w0.
Proof.
  intros Hc Hin Hk. split; [apply enter_shared|]. rewrite Hrep. destruct Hinv as [_ Hr].
  destruct (rw_replicator w) as [r|]; [|done]. unfold seen. rewrite Hout, app_nil_r.
  destruct (rep_ok_stable fl opts _ _ _ r r Hr Hle eq_refl) as [Ho Hp Hl Hsent Hi]. rewrite Hc.
  destruct Hi as [Hi|(id' & q' & Hi & _ & _ & Hn)].
  { assert ((id, q) ∈ snapshots_sent (louds sent)) as Hin'; [|by rewrite Hi in Hin'; apply not_elem_of_nil in Hin'].
    by apply snapshots_sent_elem, list_elem_of_filter. }
  destruct (answered_install _ _ _ x _ _ Hin Hi) as [-> Hnone]. split_and!; [|done..].
  constructor; [done..| |by left]. eapply Forall_impl; [exact Hsent|].
  intros f (qf & a & t & Hf & ?). exists qf, a, t. split; [by apply answered_append|done].
Qed.
End enter.

(** One callback, with what it may commit. *)
Lemma rp_call_inv (allowed : Z → Z → PeerId → Prop) w sent w0 e c w' :
  reach_inv w sent → rp_step fl C w sent w0 e c w' →
  (∀ r id q t response, rw_replicator w0 = Some r → c = CallRpcReturned id q t (inr response) →
     aer_success response = true → aer_term response = ro_term (rp_options r) → 0 < ae_entries_size q →
     is_valid_rpc id (ae_prev_log_index q + 1) (rp_append_entries_in_fly r) = true →
     allowed (min_flying_index r) (ae_last_index q) (ro_peer_id (rp_options r))) →
  holds fl opts C e (answered c sent) allowed (rep_ok fl opts) w'.
Proof.
  intros Hinv [Hrep Hid Hout Hle Henv Hok Hrun] Ha.
  destruct (is_answer c) eqn:Hc; [destruct c; try done|].
  - destruct Hok as [_ Hx].
    eapply (on_rpc_returned_ok fl opts C e _ allowed Hmax call_id request send_time result Hx); [|exact Hrun].
    split; [by apply (enter_call w)|]. intros r response Hr ->. by eapply Ha.
  - destruct Hok as [Hin Hk].
    eapply (on_install_snapshot_returned_ok fl opts C e _ allowed Hmax request result); [|exact Hrun].
    by eapply (enter_install w).
  - eapply (rp_call_ok fl opts C e _ allowed Hmax c Hc); [|exact Hrun].
    apply (enter_call w); [done..|]. by destruct c.
Qed.

Lemma holds_reach_inv e sent allowed w : holds fl opts C e sent allowed (rep_ok fl opts) w → reach_inv w (sent ++ rw_out w).
Proof. intros [(_ & Hs & _) Hr]. by split. Qed.

Lemma rp_reach_inv w sent : rp_reach fl opts C w sent → reach_inv w sent.
Proof.
  induction 1 as [e w0 rc w Hn Hout Hl He Hrun|w sent w0 e c w' _ IH Hstep].
  - apply (holds_reach_inv e [] (λ _ _ _, True)). eapply (rp_start_ok fl opts C e [] _ Hmax); [|exact Hrun].
    unfold seen, shared_ok. rewrite Hout. split_and!; [done| |by intros ? ?%not_elem_of_nil|done..].
    unfold seen, louds. rewrite Hout.
    split; [by intros ? ? ? ? ?%not_elem_of_nil|by intros ? ? ? ? ? ? ? ?%not_elem_of_nil].
  - apply (holds_reach_inv e _ (λ _ _ _, True)). by eapply (rp_call_inv _ w sent w0).
Qed.

Lemma valid_in_fly id first fs : is_valid_rpc id first fs = true → ∃ f, f ∈ fs ∧ fy_call_id f = id.
Proof.
  induction fs as [|f fs IH]; cbn; [done|]. case_decide; [done|].
  intros [Hid|Hv]%orb_prop; [apply bool_decide_eq_true in Hid; exists f; split; [left|done]|].
  destruct (IH Hv) as (g & ? & ?). exists g. split; [by right|done].
Qed.

Lemma louds_elem ev evs : ev ∈ louds evs → ev ∈ evs.
Proof. unfold louds. rewrite list_elem_of_filter. tauto. Qed.

(** C19. In every reachable state of a replicator the rpcs in fly are disjoint
    ranges of indexes in ascending order below the next index, each the one of
    a request that was sent; their sizes add up to the flying counter, which
    stays within the limit, as does their number; and the next index stays
    within the leader's log. *)
Theorem replicator_pipeline w sent r :
  rp_reach fl opts C w sent → rw_replicator w = Some r →
  pipeline_ok fl r ∧ 1 ≤ min_flying_index r ≤ rp_next_index r ∧
  rp_next_index r ≤ lm_last_log_index (rw_log_manager w) + 1 ∧
  Forall (flight_of sent) (rp_append_entries_in_fly r).
Proof.
  intros Hreach Hr. destruct (rp_reach_inv _ _ Hreach) as [_ Hinv]. rewrite Hr in Hinv.
  destruct Hinv as [_ Hp Hl Hs _]. pose proof (pipeline_min_flying fl r Hp) as [? ?].
  split_and!; [done..|unfold min_flying_index in *; lia|lia|].
  eapply Forall_impl; [exact Hs|]. intros f (q & a & t & Hin%louds_elem & Hf). by exists q, a, t.
Qed.

(** C20. A callback gives [commit_at] a range of indexes only when a follower
    has answered, in the leader's term and with success, the request of an rpc
    in fly, and the range ends where that request ends. *)
Theorem commit_at_acknowledged w sent w0 e c w' first last peer :
  rp_reach fl opts C w sent → rp_step fl C w sent w0 e c w' → RpCommitAt first last peer ∈ rw_out w' →
  ∃ r f id q t response, rw_replicator w = Some r ∧ c = CallRpcReturned id q t (inr response) ∧
    aer_success response = true ∧ aer_term response = ro_term opts ∧
    f ∈ rp_append_entries_in_fly r ∧ fy_call_id f = id ∧ fy_log_index f = ae_prev_log_index q + 1 ∧
    last = ae_last_index q ∧ first = min_flying_index r ∧ peer = ro_peer_id opts.
Proof.
  intros Hreach Hstep Hin. pose proof (rp_reach_inv _ _ Hreach) as Hinv.
  pose proof (rp_call_inv (λ first last peer,
    ∃ r f id q t response, rw_replicator w = Some r ∧ c = CallRpcReturned id q t (inr response) ∧
    aer_success response = true ∧ aer_term response = ro_term opts ∧
    f ∈ rp_append_entries_in_fly r ∧ fy_call_id f = id ∧ fy_log_index f = ae_prev_log_index q + 1 ∧
    last = ae_last_index q ∧ first = min_flying_index r ∧ peer = ro_peer_id opts) _ _ _ _ _ _ Hinv Hstep) as Hc.
  destruct Hc as [(_ & _ & Hev) _]; [|exact (Hev _ Hin)].
  intros r id q t response Hr -> Hs Ht _ Hv. rewrite (rs_replicator _ _ _ _ _ _ _ _ Hstep) in Hr.
  destruct Hinv as [[_ Hu] Hrep]. rewrite Hr in Hrep. destruct Hrep as [Hopts _ _ Hsent _].
  destruct (valid_in_fly _ _ _ Hv) as (f & Hf & Hid). rewrite Forall_forall in Hsent.
  destruct (Hsent f Hf) as (q' & a & t' & Hq' & Hlog & _).
  destruct (rs_ok _ _ _ _ _ _ _ _ Hstep) as [(a' & Hq) _].
  assert (q' = q) as ->.
  { rewrite Hid in Hq'. eapply (Hu id); [exact Hq'|]. by apply list_elem_of_filter. }
  exists r, f, id, q, t, response. rewrite <- Hopts. done.
Qed.

(** C21. What the follower parses from a request and its attachment is what the
    leader has in its log after [prev_log_index] (without the data if it is a
    witness that gets none), and [prev_log_term] is the term before it. *)
Theorem request_carries_log w sent w0 e c w' id q a t :
  rp_reach fl opts C w sent → rp_step fl C w sent w0 e c w' → RpAppendEntries id q a t ∈ rw_out w' →
  parse_entries (ae_prev_log_index q) (ae_entries q) a =
    Some ((λ i, received (sends_data fl opts) (C i)) <$> seqZ (ae_prev_log_index q + 1) (ae_entries_size q)) ∧
  (ae_prev_log_index q ≠ 0 → ae_prev_log_term q = term (Configuration.id (C (ae_prev_log_index q)))) ∧
  ae_term q = ro_term opts.
Proof.
  intros Hreach Hstep Hin.
  destruct (rp_call_inv (λ _ _ _, True) _ _ _ _ _ _ (rp_reach_inv _ _ Hreach) Hstep) as [(_ & _ & Hev) _]; [done|].
  destruct (Hev _ Hin) as (Ht & Hp & Hems & -> & Hsend). split_and!; [|done..].
  change (λ i, received (sends_data fl opts) (C i)) with (received (sends_data fl opts) ∘ C).
  rewrite list_fmap_compose. apply parse_entries_sent; [|done].
  intros k en (i & -> & Hi)%list_lookup_fmap_Some. apply lookup_seqZ in Hi as [-> Hk].
  apply Hsend. unfold ae_last_index. lia.
Qed.
End reach.
