(* ===== verification/ReplicatorGroup.v ===== *)
(** * Replicator group

    [ReplicatorGroup] of src/melon/raft/replicator.{h,cc}: the map from the
    followers of a leader to their replicators.  A replicator is found by the
    number of its session; it lives on after its follower has left the map until
    it is stopped.  All of them share the log manager and the ballot box of
    Replicator.v; a call runs to its end, with what other threads do in between
    in [gw_others].  The group chooses whom to hand the leadership to
    ([next_candidate_best]) and stops the others
    ([stop_all_keeps_candidate]); [group_ops_effect] says what each operation
    does to the map and the sessions. *)

From stdpp Require Import prelude.
From S2P Require Import Prelude StdContainers Configuration Ballot ClosureQueue BallotBox.
From S2P Require Import LogStorage LogManager StateMonad Messages Lease MetaStorage AppendEntriesCache NodeState.
From S2P Require Import Replicator.
Local Open Scope Z_scope.

(** ** State *)

(** [ReplicatorId]: the number of the session. *)
Abbreviation ReplicatorId := nat.

Record ReplicatorGroup := mkReplicatorGroup {
  rg_rmap : list (PeerId * ReplicatorId);
  rg_term : Z;
  rg_group_id : list Z;
  rg_server_id : PeerId;
  rg_dynamic_timeout_ms : Z;
  rg_election_timeout_ms : Z;
}.

Record GroupWorld (S : Type) := mkGroupWorld {
  gw_group : ReplicatorGroup;
  gw_sessions : list (option Replicator * Z);
  gw_log_manager : LogManager S;
  gw_ballot_box : BallotBox;
  gw_others : list (LogManager S * BallotBox → option (LogManager S * BallotBox));
  gw_next_call_id : Z;
  gw_sys : list Z;
  gw_out : list (ReplicatorId * RpEvent);
}.
#[global] Arguments mkGroupWorld {S}.
#[global] Arguments gw_group {S}.
#[global] Arguments gw_sessions {S}.
#[global] Arguments gw_log_manager {S}.
#[global] Arguments gw_ballot_box {S}.
#[global] Arguments gw_others {S}.
#[global] Arguments gw_next_call_id {S}.
#[global] Arguments gw_sys {S}.
#[global] Arguments gw_out {S}.

(** The order of [std::map<PeerId, ...>]. *)
Definition rmap_lt (x y : PeerId * ReplicatorId) : Prop := peer_lt x.1 y.1.
#[global] Instance rmap_lt_swo : StrictWeakOrder rmap_lt.
Proof.
  split; unfold rmap_lt.
  - intros x y. apply _.
  - intros x. apply swo_irrefl.
  - intros x y z. apply swo_trans.
  - intros x y z. apply swo_incomp_trans.
Defined.

(** [_rmap.find(peer)]. *)
Definition rmap_find (peer : PeerId) (g : ReplicatorGroup) : option ReplicatorId :=
  snd <$> set_find rmap_lt (peer, 0%nat) (rg_rmap g).

Definition with_rmap (m : list (PeerId * ReplicatorId)) (g : ReplicatorGroup) : ReplicatorGroup :=
  mkReplicatorGroup m (rg_term g) (rg_group_id g) (rg_server_id g) (rg_dynamic_timeout_ms g) (rg_election_timeout_ms g).

(** [init]. *)
Definition rg_init (group_id : list Z) (server_id : PeerId) (heartbeat_timeout_ms election_timeout_ms : Z)
  : ReplicatorGroup :=
  mkReplicatorGroup [] 0 group_id server_id heartbeat_timeout_ms election_timeout_ms.

Section group.
Context {S : Type} `{LogStorage S} (fl : RpFlags) (e : RpEnv).
Abbreviation G := (ST (GroupWorld S)).

Definition g_mod (f : ReplicatorGroup → ReplicatorGroup) : G unit :=
  st_mod (λ w, mkGroupWorld (f (gw_group w)) (gw_sessions w) (gw_log_manager w) (gw_ballot_box w) (gw_others w)
    (gw_next_call_id w) (gw_sys w) (gw_out w)).

(** The timeouts of the replicators point to the group's. *)
Definition group_env (g : ReplicatorGroup) : RpEnv :=
  mkRpEnv (re_monotonic_ms e) (rg_dynamic_timeout_ms g) (rg_election_timeout_ms g) (re_node_is_witness e)
    (re_throttle e) (re_snapshot e).

(** A call of a static member of [Replicator] with an id. *)
Definition session {A} (id : ReplicatorId) (k : RpEnv → ST (RpWorld S) A) : G A := λ w,
  let '(r, t) := default (None, 0) (gw_sessions w !! id) in
  '(a, w') ← k (group_env (gw_group w))
    (mkRpWorld r (gw_log_manager w) (gw_ballot_box w) (gw_others w) t (gw_next_call_id w) (gw_sys w) []);
  Some (a, mkGroupWorld (gw_group w) (<[id := (rw_replicator w', rw_last_rpc_send_timestamp w')]> (gw_sessions w))
             (rw_log_manager w') (rw_ballot_box w') (rw_others w') (rw_next_call_id w') (rw_sys w')
             (gw_out w ++ ((λ ev, (id, ev)) <$> rw_out w'))).

(** [Replicator::stop(id)]: the catch-up closure runs, then the session's error
    handler. *)
Definition stop_session (id : ReplicatorId) : G Z :=
  session id (λ e', rp_stop;; on_error_stop e');; mret 0.

(** A new [ReplicatorStatus] and the number of the next session. *)
Definition new_session : G ReplicatorId := λ w,
  Some (length (gw_sessions w),
        mkGroupWorld (gw_group w) (gw_sessions w ++ [(None, 0)]) (gw_log_manager w) (gw_ballot_box w) (gw_others w)
          (gw_next_call_id w) (gw_sys w) (gw_out w)).

(** [add_replicator]; the results of the runtime as in [rp_start]. *)
Definition add_replicator (peer : PeerId) (channel_init session_create : Z) : G Z :=
  g ← st_get gw_group;
  st_check (rg_term g ≠ 0);;
  match rmap_find peer g with
  | Some _ => mret 0
  | None =>
      id ← new_session;
      rc ← session id (λ e', rp_start fl e'
        (mkReplicatorOptions (Z.of_nat id) (rg_group_id g) (rg_server_id g) peer (rg_term g)) channel_init session_create);
      if decide (rc ≠ 0) then mret (-1)
      else g_mod (λ g, with_rmap (set_insert rmap_lt (peer, id) (rg_rmap g)).1 g);; mret 0
  end.

(** A call that needs the follower in the map, [d] if it is not. *)
Definition at_peer {A} (peer : PeerId) (d : A) (k : ReplicatorId → G A) : G A :=
  g ← st_get gw_group;
  match rmap_find peer g with Some id => k id | None => mret d end.

Definition rg_wait_caughtup (peer : PeerId) (max_margin : Z) (has_due_time : bool) (done : Closure) : G Z :=
  at_peer peer (-1) (λ id, session id (λ _, wait_for_caught_up max_margin has_due_time done);; mret 0).

Definition rg_last_rpc_send_timestamp (peer : PeerId) : G Z :=
  at_peer peer 0 (λ id, st_get (λ w, (default (None, 0) (gw_sessions w !! id)).2)).

Definition rg_stop_replicator (peer : PeerId) : G Z :=
  at_peer peer (-1) (λ id,
    g_mod (λ g, with_rmap (set_erase rmap_lt (peer, id) (rg_rmap g)).1 g);;
    stop_session id).

Definition stop_all : G Z :=
  ids ← st_get (λ w, (rg_rmap (gw_group w)).*2);
  g_mod (with_rmap []);;
  st_each (λ id, stop_session id;; mret tt) ids;;
  mret 0.

Definition rg_contains (g : ReplicatorGroup) (peer : PeerId) : bool := bool_decide (rmap_find peer g ≠ None).

Definition reset_term (new_term : Z) : G Z :=
  g ← st_get gw_group;
  st_check (rg_term g < new_term);;
  g_mod (λ g, mkReplicatorGroup (rg_rmap g) new_term (rg_group_id g) (rg_server_id g)
                (rg_dynamic_timeout_ms g) (rg_election_timeout_ms g));;
  mret 0.

Definition reset_heartbeat_interval (new_interval_ms : Z) : G Z :=
  g_mod (λ g, mkReplicatorGroup (rg_rmap g) (rg_term g) (rg_group_id g) (rg_server_id g)
                new_interval_ms (rg_election_timeout_ms g));;
  mret 0.

Definition reset_election_timeout_interval (new_interval_ms : Z) : G Z :=
  g_mod (λ g, mkReplicatorGroup (rg_rmap g) (rg_term g) (rg_group_id g) (rg_server_id g)
                (rg_dynamic_timeout_ms g) new_interval_ms);;
  mret 0.

Definition rg_transfer_leadership_to (peer : PeerId) (log_index : Z) : G Z :=
  at_peer peer EINVAL (λ id,
    errors ← session id (λ _, get_consecutive_error_times);
    if decide (0 < errors) then mret EHOSTUNREACH
    else session id (λ _, transfer_leadership log_index)).

Definition rg_stop_transfer_leadership (peer : PeerId) : G Z :=
  at_peer peer (-1) (λ id, session id (λ _, stop_transfer_leadership)).

(** The loop of [find_the_next_candidate]. *)
Fixpoint find_candidate (conf : ConfigurationEntry) (rmap : list (PeerId * ReplicatorId)) (max_index : Z)
    (peer_id : option PeerId) : G (Z * option PeerId) :=
  match rmap with
  | [] => mret (max_index, peer_id)
  | (peer, id) :: rmap' =>
      if ce_contains conf peer then
        next_index ← session id (λ _, get_next_index);
        errors ← session id (λ _, get_consecutive_error_times);
        if decide (errors = 0 ∧ max_index < next_index ∧ is_witness peer = false)
        then find_candidate conf rmap' next_index (Some peer)
        else find_candidate conf rmap' max_index peer_id
      else find_candidate conf rmap' max_index peer_id
  end.

(** [find_the_next_candidate]: the return code and [*peer_id], unless it was
    left alone. *)
Definition find_the_next_candidate (conf : ConfigurationEntry) : G (Z * option PeerId) :=
  rmap ← st_get (λ w, rg_rmap (gw_group w));
  x ← find_candidate conf rmap 0 None;
  mret (if decide (x.1 = 0) then -1 else 0, x.2).

(** [stop_all_and_find_the_next_candidate]: [*candidate], [None] for the
    invalid id. *)
Definition stop_all_and_find_the_next_candidate (conf : ConfigurationEntry) : G (option ReplicatorId) :=
  x ← find_the_next_candidate conf;
  g ← st_get gw_group;
  let candidate := if decide (x.1 = 0) then p ← x.2; rmap_find p g else None in
  st_each (λ y, if decide (Some y.2 = candidate) then mret tt else stop_session y.2;; mret tt) (rg_rmap g);;
  g_mod (with_rmap []);;
  mret candidate.

Definition list_replicators (g : ReplicatorGroup) : list (PeerId * ReplicatorId) := rg_rmap g.

Definition rg_change_readonly_config (peer : PeerId) (readonly : bool) : G Z :=
  at_peer peer (-1) (λ id, session id (λ _, rp_change_readonly_config fl readonly)).

Definition rg_readonly (peer : PeerId) : G bool :=
  at_peer peer false (λ id, session id (λ _, rp_readonly)).

(** ** Queries *)

(** What a session answers about its follower. *)
Definition next_index_of (w : GroupWorld S) (id : ReplicatorId) : Z :=
  match (default (None, 0) (gw_sessions w !! id)).1 with
  | Some r => if rp_has_succeeded r then min_flying_index r else 0
  | None => 0
  end.

Definition errors_of (w : GroupWorld S) (id : ReplicatorId) : Z :=
  match (default (None, 0) (gw_sessions w !! id)).1 with
  | Some r => rp_consecutive_error_times r
  | None => -1
  end.

(** A call that changes nothing. *)
Lemma session_read {A} id (k : RpEnv → ST (RpWorld S) A) (f : option Replicator → A) (w : GroupWorld S) :
  (∀ e' w1, k e' w1 = Some (f (rw_replicator w1), w1)) →
  session id k w = Some (f (default (None, 0) (gw_sessions w !! id)).1, w).
Proof.
  intros Hk. unfold session. destruct (default (None, 0) (gw_sessions w !! id)) as [r t] eqn:Hs. rewrite Hk. cbn.
  rewrite app_nil_r. do 2 f_equal. destruct w as [g ss lm bb os ci sys out]. cbn in *. f_equal.
  destruct (ss !! id) as [x|] eqn:Hx; cbn in Hs; [subst x; by apply list_insert_id|].
  apply list_insert_ge. by apply lookup_ge_None.
Qed.

Lemma next_index_read id w : session id (λ _, get_next_index) w = Some (next_index_of w id, w).
Proof.
  rewrite (session_read id _ (λ r, match r with
    Some r => if rp_has_succeeded r then min_flying_index r else 0 | None => 0 end)); [done|].
  intros _ w1. unfold get_next_index, locked. erewrite st_bind_eq by reflexivity.
  destruct (rw_replicator w1) as [r|] eqn:Hr; [|done].
  rewrite st_bind_eq with (a := r) (s1 := w1); [done|]. unfold rp_get. erewrite st_bind_eq by reflexivity. by rewrite Hr.
Qed.

Lemma errors_read id w : session id (λ _, get_consecutive_error_times) w = Some (errors_of w id, w).
Proof.
  rewrite (session_read id _ (λ r, match r with Some r => rp_consecutive_error_times r | None => -1 end)); [done|].
  intros _ w1. unfold get_consecutive_error_times, locked. erewrite st_bind_eq by reflexivity.
  destruct (rw_replicator w1) as [r|] eqn:Hr; [|done].
  unfold rp_get. erewrite st_bind_eq by reflexivity. by rewrite Hr.
Qed.

(** ** The next candidate *)

(** A follower that may get the leadership. *)
Definition eligible (conf : ConfigurationEntry) (w : GroupWorld S) (x : PeerId * ReplicatorId) : bool :=
  ce_contains conf x.1 && bool_decide (errors_of w x.2 = 0) && negb (is_witness x.1).

(** The first of the eligible followers with the greatest index. *)
Fixpoint best (conf : ConfigurationEntry) (w : GroupWorld S) (rmap : list (PeerId * ReplicatorId)) (max_index : Z)
    (peer_id : option PeerId) : Z * option PeerId :=
  match rmap with
  | [] => (max_index, peer_id)
  | x :: rmap' =>
      if eligible conf w x && bool_decide (max_index < next_index_of w x.2)
      then best conf w rmap' (next_index_of w x.2) (Some x.1)
      else best conf w rmap' max_index peer_id
  end.

Lemma find_candidate_best conf w rmap k p : find_candidate conf rmap k p w = Some (best conf w rmap k p, w).
Proof.
  revert k p. induction rmap as [|[peer id] rmap IH]; intros k p; [done|]. cbn [find_candidate best].
  unfold eligible. cbn [fst snd]. destruct (ce_contains conf peer); [|apply IH].
  erewrite st_bind_eq by apply next_index_read. erewrite st_bind_eq by apply errors_read. cbn [andb].
  destruct (decide (errors_of w id = 0 ∧ k < next_index_of w id ∧ is_witness peer = false)) as [(? & ? & Hw)|Hn].
  - rewrite !bool_decide_true, Hw by done. apply IH.
  - rewrite IH. do 2 f_equal. destruct (bool_decide (errors_of w id = 0)) eqn:E1; [|done].
    destruct (is_witness peer) eqn:E2; [done|]. destruct (bool_decide (k < next_index_of w id)) eqn:E3; [|done].
    apply bool_decide_eq_true in E1, E3. tauto.
Qed.

Lemma best_spec conf w rmap k p :
  let '(m, q) := best conf w rmap k p in
  k ≤ m ∧ (∀ x, x ∈ rmap → eligible conf w x = true → next_index_of w x.2 ≤ m) ∧
  ((m, q) = (k, p) ∨ ∃ x, x ∈ rmap ∧ eligible conf w x = true ∧ m = next_index_of w x.2 ∧ q = Some x.1 ∧ k < m).
Proof.
  revert k p. induction rmap as [|x rmap IH]; intros k p; cbn [best].
  { split_and!; [lia|by intros x ?%not_elem_of_nil|by left]. }
  destruct (eligible conf w x) eqn:He; cbn [andb]; [case_bool_decide as Hlt|].
  - specialize (IH (next_index_of w x.2) (Some x.1)). destruct (best _ _ _ _ _) as [m q].
    destruct IH as (Hk & Hall & Hq). split_and!; [lia| |right].
    + intros y [->|Hy]%elem_of_cons Hey; [lia|by apply Hall].
    + destruct Hq as [[= -> ->]|(y & Hy & ? & ? & ? & ?)].
      * exists x. split_and!; [left|done..].
      * exists y. split_and!; [by right|done..|lia].
  - specialize (IH k p). destruct (best _ _ _ _ _) as [m q]. destruct IH as (Hk & Hall & Hq). split_and!; [done| |].
    + intros y [->|Hy]%elem_of_cons Hey; [lia|by apply Hall].
    + destruct Hq as [?|(y & Hy & ?)]; [by left|right]. exists y. split; [by right|done].
  - specialize (IH k p). destruct (best _ _ _ _ _) as [m q]. destruct IH as (Hk & Hall & Hq). split_and!; [done| |].
    + intros y [->|Hy]%elem_of_cons Hey; [congruence|by apply Hall].
    + destruct Hq as [?|(y & Hy & ?)]; [by left|right]. exists y. split; [by right|done].
Qed.

Lemma find_candidate_run conf (w : GroupWorld S) :
  let rmap := rg_rmap (gw_group w) in
  ∃ rc q, find_the_next_candidate conf w = Some ((rc, q), w) ∧
    match q with
    | Some p => rc = 0 ∧ ∃ id, (p, id) ∈ rmap ∧ eligible conf w (p, id) = true ∧ 0 < next_index_of w id ∧
        ∀ x, x ∈ rmap → eligible conf w x = true → next_index_of w x.2 ≤ next_index_of w id
    | None => rc = -1 ∧ ∀ x, x ∈ rmap → eligible conf w x = true → next_index_of w x.2 ≤ 0
    end.
Proof.
  cbn zeta. pose proof (best_spec conf w (rg_rmap (gw_group w)) 0 None) as Hb.
  destruct (best conf w (rg_rmap (gw_group w)) 0 None) as [m q] eqn:E. destruct Hb as (Hk & Hall & Hq).
  exists (if decide (m = 0) then -1 else 0), q. split.
  - unfold find_the_next_candidate. erewrite st_bind_eq by reflexivity. erewrite st_bind_eq by apply find_candidate_best.
    by rewrite E.
  - destruct Hq as [[= -> ->]|([p id] & Hx & He & -> & -> & Hlt)]; [done|].
    rewrite decide_False by lia. split; [done|]. exists id. split_and!; done.
Qed.

(** [find_the_next_candidate] changes nothing and finds, among the followers
    in the configuration that are no witnesses and whose last rpc did not fail,
    one that has stored the log as far as any of them; it returns -1 exactly
    when none of them is known to have stored anything. *)
Theorem next_candidate_best conf (w : GroupWorld S) :
  let rmap := rg_rmap (gw_group w) in
  ∃ rc q, find_the_next_candidate conf w = Some ((rc, q), w) ∧
    match q with
    | Some p => rc = 0 ∧ ∃ id, (p, id) ∈ rmap ∧ eligible conf w (p, id) = true ∧ 0 < next_index_of w id ∧
        ∀ x, x ∈ rmap → eligible conf w x = true → next_index_of w x.2 ≤ next_index_of w id
    | None => rc = -1 ∧ ∀ x, x ∈ rmap → eligible conf w x = true → next_index_of w x.2 ≤ 0
    end.
Proof. apply find_candidate_run. Qed.

(** ** Stopping *)

Definition all_return (os : list (LogManager S * BallotBox → option (LogManager S * BallotBox))) : Prop :=
  Forall (λ g, ∀ x, g x ≠ None) os.

(** A call that returns, whatever the replicator is, and leaves one. *)
Definition returns {A} (k : ST (RpWorld S) A) : Prop :=
  ∀ w r, rw_replicator w = Some r → all_return (rw_others w) →
  ∃ a w' r', k w = Some (a, w') ∧ rw_replicator w' = Some r' ∧ all_return (rw_others w').

Lemma returns_ret {A} (a : A) : returns (mret a).
Proof. intros w r Hr Ho. by exists a, w, r. Qed.

Lemma returns_bind {A B} (k : ST (RpWorld S) A) (f : A → ST (RpWorld S) B) :
  returns k → (∀ a, returns (f a)) → returns (k ≫= f).
Proof.
  intros Hk Hf w r Hr Ho. destruct (Hk w r Hr Ho) as (a & w1 & r1 & Hk1 & Hr1 & Ho1).
  destruct (Hf a w1 r1 Hr1 Ho1) as (b & w2 & r2 & Hf2 & ? & ?). exists b, w2, r2. by rewrite (st_bind_eq _ _ _ _ _ Hk1).
Qed.

(** A call that returns and ends the replicator. *)
Definition ends (k : ST (RpWorld S) unit) : Prop :=
  ∀ w r, rw_replicator w = Some r → all_return (rw_others w) →
  ∃ w', k w = Some (tt, w') ∧ rw_replicator w' = None ∧ all_return (rw_others w').

Lemma ends_bind {A} (k : ST (RpWorld S) A) (f : A → ST (RpWorld S) unit) :
  returns k → (∀ a, ends (f a)) → ends (k ≫= f).
Proof.
  intros Hk Hf w r Hr Ho. destruct (Hk w r Hr Ho) as (a & w1 & r1 & Hk1 & Hr1 & Ho1).
  destruct (Hf a w1 r1 Hr1 Ho1) as (w2 & Hf2 & ? & ?). exists w2. by rewrite (st_bind_eq _ _ _ _ _ Hk1).
Qed.

Lemma returns_get {A} (f : Replicator → A) : returns (rp_get f).
Proof.
  intros w r Hr Ho. exists (f r), w, r. split; [|done]. unfold rp_get. erewrite st_bind_eq by reflexivity. by rewrite Hr.
Qed.

Lemma returns_mod f : returns (rp_mod f).
Proof. intros w r Hr Ho. eexists tt, _, (f r). split; [reflexivity|]. cbn. by rewrite Hr. Qed.

Lemma returns_emit evs : returns (rp_emit evs).
Proof. intros w r Hr Ho. by eexists tt, _, r. Qed.

Lemma returns_sys : returns rp_sys.
Proof. intros w r Hr Ho. by eexists _, _, r. Qed.

Lemma returns_log {A} (f : LogManager S → LogManager S * A) : returns (rp_log (λ m, Some (f m))).
Proof.
  intros w r Hr Ho. unfold rp_log, rp_shared. destruct (rw_others w) as [|g os] eqn:Eo.
  - cbn. destruct (f (rw_log_manager w)) as [m a]. eexists a, _, r. split; [reflexivity|]. by rewrite ?Eo.
  - apply Forall_cons in Ho as [Hg Ho]. destruct (g _) as [[m b]|] eqn:Eg; [|by apply Hg in Eg].
    cbn. destruct (f m) as [m' a]. by eexists a, _, r.
Qed.

Lemma returns_remove_waiter (i : Z) : returns (rp_log (λ m, Some (lm_remove_waiter m i))).
Proof. apply returns_log. Qed.
Lemma returns_first : returns rp_first_log_index.
Proof. apply (returns_log (λ m, (m, lm_first_log_index m))). Qed.
Lemma returns_last : returns rp_last_log_index.
Proof. apply (returns_log (λ m, (m, lm_last_log_index m))). Qed.
End group.

Create HintDb returns.
#[export] Hint Resolve returns_ret returns_get returns_mod returns_emit returns_sys returns_remove_waiter
  returns_first returns_last : returns.

Ltac returns :=
  repeat match goal with
  | |- returns (_ ≫= _) => apply returns_bind; [|intros ?]
  | |- returns (match ?x with _ => _ end) => destruct x
  | _ => solve [auto with returns]
  end.

Section stopping.
Context {S : Type} `{LogStorage S} (fl : RpFlags) (e : RpEnv).

Lemma returns_notify ec b : returns (S := S) (notify_on_caught_up ec b).
Proof. unfold notify_on_caught_up, is_catchup, run_catchup. returns. Qed.

Lemma returns_close_reader : returns (S := S) (close_reader e).
Proof. unfold close_reader, finish_throttle. returns. Qed.
#[local] Hint Resolve returns_notify returns_close_reader : returns.

Lemma ends_destroy : ends (S := S) (destroy e).
Proof. apply ends_bind; [apply returns_close_reader|]. intros _ w r Hr Ho. by eexists. Qed.

Lemma stop_returns (w : RpWorld S) :
  all_return (rw_others w) →
  ∃ w', (rp_stop;; on_error_stop e) w = Some (tt, w') ∧ rw_replicator w' = None ∧ all_return (rw_others w').
Proof.
  intros Ho. destruct (rw_replicator w) as [r|] eqn:Hr.
  - destruct (returns_notify EPERM true w r Hr Ho) as ([] & w1 & r1 & Hn1 & Hr1 & Ho1).
    assert (rp_stop w = Some (tt, w1)) as Hs.
    { unfold rp_stop, locked. erewrite st_bind_eq by reflexivity. by rewrite Hr. }
    rewrite (st_bind_eq _ _ _ _ _ Hs). unfold on_error_stop, locked. erewrite st_bind_eq by reflexivity. rewrite Hr1.
    match goal with |- ∃ w', ?k w1 = _ ∧ _ => assert (ends k) as Hk end; [|by apply (Hk w1 r1)].
    unfold cancel_append_entries_rpcs.
    repeat first [apply ends_destroy|apply ends_bind; [returns|intros ?]].
  - exists w. split; [|done]. unfold rp_stop, on_error_stop, locked.
    rewrite st_bind_eq with (a := tt) (s1 := w).
    + erewrite st_bind_eq by reflexivity. by rewrite Hr.
    + erewrite st_bind_eq by reflexivity. by rewrite Hr.
Qed.

End stopping.

Section stopped.
Context {S : Type} `{LogStorage S} (e : RpEnv).
Implicit Types w : GroupWorld S.

Definition dead w (id : ReplicatorId) : Prop := (default (None, 0) (gw_sessions w !! id)).1 = None.

(** What stopping a session leaves. *)
Lemma stop_session_spec id w :
  all_return (gw_others w) →
  ∃ w', stop_session e id w = Some (0, w') ∧ gw_group w' = gw_group w ∧ all_return (gw_others w') ∧
    dead w' id ∧ ∀ j, j ≠ id → gw_sessions w' !! j = gw_sessions w !! j.
Proof.
  intros Ho. unfold stop_session. destruct (default (None, 0) (gw_sessions w !! id)) as [r t] eqn:Es.
  destruct (stop_returns (group_env e (gw_group w)) (mkRpWorld r (gw_log_manager w) (gw_ballot_box w) (gw_others w) t
    (gw_next_call_id w) (gw_sys w) [])) as (w1 & Hrun & Hdead & Ho1); [done|].
  eexists. split; [erewrite st_bind_eq; [reflexivity|]; unfold session; rewrite Es, Hrun; reflexivity|].
  cbn. split_and!; [done..| |].
  - unfold dead. cbn. destruct (decide (id < length (gw_sessions w))%nat).
    + by rewrite list_lookup_insert_eq.
    + rewrite list_insert_ge by lia. by rewrite lookup_ge_None_2 by lia.
  - intros j Hj. by rewrite list_lookup_insert_ne.
Qed.

(** The loop that stops all but the candidate. *)
Lemma stop_each_spec (candidate : option ReplicatorId) rmap w :
  all_return (gw_others w) →
  ∃ w', st_each (λ y : PeerId * ReplicatorId,
      if decide (Some y.2 = candidate) then mret tt else stop_session e y.2;; mret tt) rmap w = Some (tt, w') ∧
    gw_group w' = gw_group w ∧ all_return (gw_others w') ∧
    (∀ id, dead w id → dead w' id) ∧ (∀ x, x ∈ rmap → candidate ≠ Some x.2 → dead w' x.2) ∧
    (∀ id, candidate = Some id → gw_sessions w' !! id = gw_sessions w !! id).
Proof.
  revert w. induction rmap as [|x rmap IH]; intros w Ho; cbn [st_each].
  { exists w. split_and!; try done. by intros x ?%not_elem_of_nil. }
  destruct (decide (Some x.2 = candidate)) as [Hc|Hc].
  - destruct (IH w Ho) as (w' & Hrun & Hg & Ho' & Hd & Hall & Hcand). exists w'.
    erewrite st_bind_eq by reflexivity. split_and!; [done..| |done].
    intros y [->|Hy]%elem_of_cons Hne; [congruence|by apply Hall].
  - destruct (stop_session_spec x.2 w Ho) as (w1 & Hrun1 & Hg1 & Ho1 & Hdead & Hother).
    destruct (IH w1 Ho1) as (w' & Hrun & Hg & Ho' & Hd & Hall & Hcand). exists w'.
    erewrite st_bind_eq; [|erewrite st_bind_eq; [reflexivity|exact Hrun1]].
    split_and!; [exact Hrun|congruence|done| | |].
    + intros id Hid. apply Hd. destruct (decide (id = x.2)) as [->|Hne]; [done|]. unfold dead. by rewrite Hother.
    + intros y [->|Hy]%elem_of_cons Hne; [by apply Hd|by apply Hall].
    + intros id Hid. rewrite Hcand by done. apply Hother. congruence.
Qed.

Lemma rmap_find_elem g p id : set_wf rmap_lt (rg_rmap g) → (p, id) ∈ rg_rmap g → rmap_find p g = Some id.
Proof.
  intros Hwf Hin. unfold rmap_find, set_find.
  assert (∀ y, y ∈ rg_rmap g → key_eq rmap_lt (p, 0%nat) y → y = (p, id)) as Huniq.
  { intros y Hy Hk. apply (set_wf_elem_inj rmap_lt (rg_rmap g)); [done..|].
    destruct Hk as [H1 H2]. split; [exact H2|exact H1]. }
  assert ((p, id) ∈ filter (key_eq rmap_lt (p, 0%nat)) (rg_rmap g)) as Hf.
  { apply list_elem_of_filter. split; [|done]. split; apply (swo_irrefl (lt := peer_lt)). }
  destruct (filter _ _) as [|y l] eqn:E; [by apply not_elem_of_nil in Hf|]. cbn.
  assert (y ∈ filter (key_eq rmap_lt (p, 0%nat)) (rg_rmap g)) as Hy by (rewrite E; left).
  apply list_elem_of_filter in Hy as [Hk Hy]. by rewrite (Huniq y Hy Hk).
Qed.

(** Handing over on a step down empties the map, stops every replicator but
    the one of the candidate and leaves that one as it was; the candidate is
    eligible and has stored the log as far as any eligible follower. *)
Lemma stop_all_keeps_candidate conf w :
  set_wf rmap_lt (rg_rmap (gw_group w)) → all_return (gw_others w) →
  ∃ candidate w', stop_all_and_find_the_next_candidate e conf w = Some (candidate, w') ∧
    rg_rmap (gw_group w') = [] ∧
    (∀ x, x ∈ rg_rmap (gw_group w) → candidate ≠ Some x.2 → dead w' x.2) ∧
    ∀ id, candidate = Some id → gw_sessions w' !! id = gw_sessions w !! id ∧
      ∃ p, (p, id) ∈ rg_rmap (gw_group w) ∧ eligible conf w (p, id) = true ∧
        ∀ x, x ∈ rg_rmap (gw_group w) → eligible conf w x = true → next_index_of w x.2 ≤ next_index_of w id.
Proof.
  intros Hwf Ho. destruct (find_candidate_run e conf w) as (rc & q & Hfind & Hq).
  pose (candidate := if decide (rc = 0) then p ← q; rmap_find p (gw_group w) else None).
  destruct (stop_each_spec candidate (rg_rmap (gw_group w)) w Ho) as (w' & Hrun & Hg & Ho' & _ & Hall & Hcand).
  eexists candidate, _. split.
  { unfold stop_all_and_find_the_next_candidate. erewrite st_bind_eq by exact Hfind. erewrite st_bind_eq by reflexivity.
    cbn [fst snd]. fold candidate. erewrite st_bind_eq by exact Hrun. erewrite st_bind_eq by reflexivity. reflexivity. }
  split; [done|]. split; [exact Hall|]. intros id Hid. split; [by apply Hcand|].
  unfold candidate in Hid. destruct q as [p|]; [|by destruct (decide (rc = 0))].
  destruct Hq as (-> & id' & Hin & He & _ & Hmax). rewrite decide_True in Hid by done. cbn in Hid.
  rewrite (rmap_find_elem _ _ _ Hwf Hin) in Hid. injection Hid as <-. by exists p.
Qed.
End stopped.

(** ** Well-formed groups *)

Inductive GroupOp :=
  | OpAddReplicator (peer : PeerId) (channel_init session_create : Z)
  | OpWaitCaughtup (peer : PeerId) (max_margin : Z) (has_due_time : bool) (done : Closure)
  | OpStopReplicator (peer : PeerId)
  | OpStopAll
  | OpResetTerm (new_term : Z)
  | OpResetHeartbeatInterval (ms : Z)
  | OpResetElectionTimeoutInterval (ms : Z)
  | OpTransferLeadershipTo (peer : PeerId) (log_index : Z)
  | OpStopTransferLeadership (peer : PeerId)
  | OpStopAllAndFind (conf : ConfigurationEntry)
  | OpChangeReadonlyConfig (peer : PeerId) (readonly : bool)
  | OpReadonly (peer : PeerId).

Section wf.
Context {S : Type} `{LogStorage S} (fl : RpFlags) (e : RpEnv).

Definition group_op (o : GroupOp) : ST (GroupWorld S) unit :=
  match o with
  | OpAddReplicator p ci sc => add_replicator fl e p ci sc;; mret tt
  | OpWaitCaughtup p k b d => rg_wait_caughtup e p k b d;; mret tt
  | OpStopReplicator p => rg_stop_replicator e p;; mret tt
  | OpStopAll => stop_all e;; mret tt
  | OpResetTerm t => reset_term t;; mret tt
  | OpResetHeartbeatInterval ms => reset_heartbeat_interval ms;; mret tt
  | OpResetElectionTimeoutInterval ms => reset_election_timeout_interval ms;; mret tt
  | OpTransferLeadershipTo p i => rg_transfer_leadership_to e p i;; mret tt
  | OpStopTransferLeadership p => rg_stop_transfer_leadership e p;; mret tt
  | OpStopAllAndFind conf => stop_all_and_find_the_next_candidate e conf;; mret tt
  | OpChangeReadonlyConfig p b => rg_change_readonly_config fl e p b;; mret tt
  | OpReadonly p => rg_readonly e p;; mret tt
  end.

(** The map is sorted by follower, and its sessions exist and are distinct. *)
Record group_wf (w : GroupWorld S) : Prop := {
  gwf_sorted : set_wf rmap_lt (rg_rmap (gw_group w));
  gwf_distinct : NoDup (rg_rmap (gw_group w)).*2;
  gwf_sessions : Forall (λ x, (x.2 < length (gw_sessions w))%nat) (rg_rmap (gw_group w));
}.

(** The same map over at least as many sessions. *)
Definition keeps_map (w w' : GroupWorld S) : Prop :=
  rg_rmap (gw_group w') = rg_rmap (gw_group w) ∧ (length (gw_sessions w) ≤ length (gw_sessions w'))%nat.
#[local] Instance keeps_map_preorder : PreOrder keeps_map.
Proof. split; [by intros w|]. intros w1 w2 w3 [? ?] [? ?]. split; [congruence|lia]. Qed.

Lemma keeps_map_wf w w' : keeps_map w w' → group_wf w → group_wf w'.
Proof.
  intros [Hm Hl] [H1 H2 H3]. constructor; rewrite Hm; [done..|]. eapply Forall_impl; [exact H3|]. cbn. lia.
Qed.

Lemma session_keeps {A} id (k : RpEnv → ST (RpWorld S) A) : st_rel keeps_map (session e id k).
Proof.
  intros w a w' Hrun. unfold session in Hrun. destruct (default _ _) as [r t].
  destruct (k _ _) as [[b w1]|]; [|done]. injection Hrun as <- <-. split; cbn; [done|]. by rewrite length_insert.
Qed.

Lemma stop_session_keeps id : st_rel keeps_map (stop_session e id).
Proof. apply st_rel_bind; [apply _|apply session_keeps|intros ?; by apply st_rel_ret, _]. Qed.

Lemma at_peer_keeps {A} p (d : A) k : (∀ id, st_rel keeps_map (k id)) → st_rel keeps_map (at_peer (S := S) p d k).
Proof.
  intros Hk. apply st_rel_bind; [apply _|by apply st_rel_get, _|]. intros g. case_match; [done|by apply st_rel_ret, _].
Qed.

Lemma set_insert_perm x l : (set_insert rmap_lt x l).1 = l ∨ (set_insert rmap_lt x l).1 ≡ₚ x :: l.
Proof.
  induction l as [|y l IH]; cbn; [by right|]. case_decide; [by right|]. case_decide; [|by left].
  destruct (set_insert rmap_lt x l) as [r b]. cbn in *. destruct IH as [->|IH]; [by left|right].
  rewrite IH. constructor.
Qed.

Abbreviation keeps_wf k := (st_triple group_wf k (λ _, group_wf)).

Lemma rel_wf {A} (k : ST (GroupWorld S) A) : st_rel keeps_map k → keeps_wf k.
Proof. intros Hk w a w' Hw Hrun. eapply keeps_map_wf; [by eapply Hk|done]. Qed.

Lemma then_wf {A} (k : ST (GroupWorld S) A) : keeps_wf k → keeps_wf (k;; mret tt).
Proof. intros Hk. eapply triple_bind; [exact Hk|]. by intros ? w ? ? Hw [= <- <-]. Qed.

Lemma then_ret {A} (k : ST (GroupWorld S) unit) (a : A) : keeps_wf k → keeps_wf (k;; mret a).
Proof. intros Hk. eapply triple_bind; [exact Hk|]. by intros ? w ? ? Hw [= <- <-]. Qed.

(** A group with fewer followers. *)
Lemma fewer_wf f : (∀ g, sublist (rg_rmap (f g)) (rg_rmap g)) → (∀ g, set_wf rmap_lt (rg_rmap g) → set_wf rmap_lt (rg_rmap (f g))) →
  keeps_wf (g_mod f).
Proof.
  intros Hsub Hsort w a w' [H1 H2 H3] [= <- <-]. specialize (Hsub (gw_group w)). constructor; cbn.
  - by apply Hsort.
  - eapply sublist_NoDup; [exact H2|]. by apply fmap_sublist.
  - rewrite Forall_forall in *. intros x Hx. apply H3. by eapply elem_of_sublist.
Qed.

Lemma clear_wf : keeps_wf (g_mod (with_rmap [])).
Proof. apply fewer_wf; [intros g; apply sublist_nil_l|intros g _; constructor]. Qed.

Lemma add_replicator_wf p ci sc : keeps_wf (add_replicator fl e p ci sc).
Proof.
  intros w rc w' Hw Hrun. unfold add_replicator in Hrun.
  apply st_bind_Some in Hrun as (g & w0 & [= <- <-] & Hrun).
  apply st_bind_Some in Hrun as ([] & w0 & [_ ->]%st_check_Some & Hrun).
  destruct (rmap_find p (gw_group w)); [by injection Hrun as <- <-|].
  apply st_bind_Some in Hrun as (id & w1 & [= <- <-] & Hrun).
  apply st_bind_Some in Hrun as (rc1 & w2 & Hs & Hrun). apply session_keeps in Hs as [Hm Hl]. cbn in Hm, Hl.
  rewrite length_app in Hl. cbn in Hl.
  assert (group_wf w2) as Hw2. { eapply keeps_map_wf; [|exact Hw]. split; [done|lia]. }
  destruct (decide (rc1 ≠ 0)); [by injection Hrun as <- <-|].
  apply st_bind_Some in Hrun as ([] & w3 & [= <-] & [= <- <-]). destruct Hw2 as [H1 H2 H3].
  constructor; cbn [gw_group rg_rmap with_rmap gw_sessions].
  - by apply set_insert_wf.
  - destruct (set_insert_perm (p, length (gw_sessions w)) (rg_rmap (gw_group w2))) as [-> | ->]; [done|].
    cbn. constructor; [|done]. rewrite Hm. intros ([q id] & Hid & Hin)%list_elem_of_fmap. cbn in Hid. subst id.
    pose proof (gwf_sessions _ Hw) as Hss. rewrite Forall_forall in Hss. specialize (Hss _ Hin). cbn in Hss. lia.
  - destruct (set_insert_perm (p, length (gw_sessions w)) (rg_rmap (gw_group w2))) as [-> | ->]; [done|].
    constructor; [cbn; lia|done].
Qed.

Lemma stop_replicator_wf p : keeps_wf (rg_stop_replicator e p).
Proof.
  intros w rc w' Hw (g & w0 & [= <- <-] & Hrun)%st_bind_Some.
  destruct (rmap_find p (gw_group w)) as [id|]; [|by injection Hrun as <- <-].
  apply st_bind_Some in Hrun as ([] & w1 & Hm & Hrun). eapply (rel_wf _ (stop_session_keeps id)); [|exact Hrun].
  eapply fewer_wf; [| |exact Hw|exact Hm].
  - intros g. cbn. apply sublist_filter.
  - intros g. cbn. apply set_erase_wf.
Qed.

Lemma stop_all_wf : keeps_wf (stop_all e).
Proof.
  eapply triple_bind; [apply triple_get|]. intros ids. eapply triple_pre; [|by intros w [Hw _]; exact Hw].
  eapply triple_bind; [apply clear_wf|]. intros ?. apply rel_wf.
  apply st_rel_bind; [apply _| |intros ?; by apply st_rel_ret, _].
  apply st_rel_each; [apply _|]. intros id. apply st_rel_bind; [apply _|apply stop_session_keeps|intros ?; by apply st_rel_ret, _].
Qed.

Lemma find_candidate_keeps conf rmap k p : st_rel keeps_map (find_candidate e conf rmap k p).
Proof. intros w a w' Hrun. rewrite find_candidate_best in Hrun. injection Hrun as <- <-. reflexivity. Qed.

Lemma stop_all_and_find_wf conf : keeps_wf (stop_all_and_find_the_next_candidate e conf).
Proof.
  eapply triple_bind; [apply rel_wf|].
  - apply st_rel_bind; [apply _|by apply st_rel_get, _|]. intros m.
    apply st_rel_bind; [apply _|apply find_candidate_keeps|intros ?; by apply st_rel_ret, _].
  - intros x. cbn beta. eapply triple_bind; [apply triple_get|]. intros g. eapply triple_pre; [|by intros w [Hw _]; exact Hw].
    eapply triple_bind; [apply rel_wf, st_rel_each; [apply _|]|].
    + intros y. destruct (decide _); [by apply st_rel_ret, _|].
      apply st_rel_bind; [apply _|apply stop_session_keeps|intros ?; by apply st_rel_ret, _].
    + intros ?. eapply triple_bind; [apply clear_wf|]. by intros u w c w' Hw [= <- <-].
Qed.

Lemma same_map_wf f : (∀ g, rg_rmap (f g) = rg_rmap g) → keeps_wf (g_mod f).
Proof. intros Hf. apply rel_wf. intros w a w' [= <- <-]. split; cbn; [by rewrite Hf|done]. Qed.

Lemma group_op_wf o w w' : group_wf w → group_op o w = Some (tt, w') → group_wf w'.
Proof.
  assert (∀ o, keeps_wf (group_op o)) as Hall; [|intros Hw Hrun; exact (Hall o _ _ _ Hw Hrun)].
  clear o. intros o. destruct o; cbn [group_op]; apply then_wf.
  - apply add_replicator_wf.
  - apply rel_wf, at_peer_keeps. intros id. apply st_rel_bind; [apply _|apply session_keeps|intros ?; by apply st_rel_ret, _].
  - apply stop_replicator_wf.
  - apply stop_all_wf.
  - eapply triple_bind; [apply triple_get|]. intros g. eapply triple_bind; [apply triple_check|]. intros ?.
    eapply triple_pre; [apply then_ret, same_map_wf; done|]. by intros w0 [[Hw _] _].
  - by apply then_ret, same_map_wf.
  - by apply then_ret, same_map_wf.
  - apply rel_wf, at_peer_keeps. intros id. apply st_rel_bind; [apply _|apply session_keeps|intros n].
    destruct (decide _); [by apply st_rel_ret, _|apply session_keeps].
  - apply rel_wf, at_peer_keeps. intros id. apply session_keeps.
  - apply stop_all_and_find_wf.
  - apply rel_wf, at_peer_keeps. intros id. apply session_keeps.
  - apply rel_wf, at_peer_keeps. intros id. apply session_keeps.
Qed.

(** ** What an operation does to the group *)

(** The stopping operations end the sessions of the followers that leave the map,
    the other calls leave the map and the term alone. *)
Definition op_effect (o : GroupOp) (w w' : GroupWorld S) : Prop :=
  let g := gw_group w in
  let g' := gw_group w' in
  match o with
  | OpAddReplicator p channel_init session_create =>
      rg_term g ≠ 0 ∧
      if decide (rg_contains g p = false ∧ channel_init = 0 ∧ session_create = 0)
      then g' = with_rmap (rg_rmap g') g ∧ ∀ x, x ∈ rg_rmap g' ↔ x = (p, length (gw_sessions w)) ∨ x ∈ rg_rmap g
      else g' = g
  | OpStopReplicator p =>
      g' = with_rmap (filter (λ x, ¬ peer_eq p x.1) (rg_rmap g)) g ∧
      ∀ x, x ∈ rg_rmap g → peer_eq p x.1 → dead w' x.2
  | OpStopAll => g' = with_rmap [] g ∧ ∀ x, x ∈ rg_rmap g → dead w' x.2
  | OpResetTerm t => rg_term g < t ∧ rg_term g' = t ∧ rg_rmap g' = rg_rmap g
  | OpResetHeartbeatInterval ms => rg_dynamic_timeout_ms g' = ms ∧ rg_term g' = rg_term g ∧ rg_rmap g' = rg_rmap g
  | OpResetElectionTimeoutInterval ms =>
      rg_election_timeout_ms g' = ms ∧ rg_term g' = rg_term g ∧ rg_rmap g' = rg_rmap g
  | OpStopAllAndFind conf =>
      rg_rmap g' = [] ∧ ∃ candidate,
        (∀ x, x ∈ rg_rmap g → candidate ≠ Some x.2 → dead w' x.2) ∧
        ∀ id, candidate = Some id → gw_sessions w' !! id = gw_sessions w !! id ∧
          ∃ p, (p, id) ∈ rg_rmap g ∧ eligible conf w (p, id) = true ∧
            ∀ x, x ∈ rg_rmap g → eligible conf w x = true → next_index_of w x.2 ≤ next_index_of w id
  | _ => g' = g
  end.

Definition same_group (w w' : GroupWorld S) : Prop := gw_group w' = gw_group w.
#[local] Instance same_group_preorder : PreOrder same_group.
Proof. split; [by intros w|]. intros w1 w2 w3 ? ?. unfold same_group in *. congruence. Qed.

Lemma session_same {A} id (k : RpEnv → ST (RpWorld S) A) : st_rel same_group (session e id k).
Proof.
  intros w a w' Hrun. unfold session in Hrun. destruct (default _ _) as [r t].
  destruct (k _ _) as [[b w1]|]; [|done]. by injection Hrun as <- <-.
Qed.

Lemma at_peer_same {A} p (d : A) k : (∀ id, st_rel same_group (k id)) → st_rel same_group (at_peer (S := S) p d k).
Proof.
  intros Hk. apply st_rel_bind; [apply _|by apply st_rel_get, _|]. intros g. case_match; [done|by apply st_rel_ret, _].
Qed.

Lemma start_rc (e' : RpEnv) o ci sc (w w' : RpWorld S) rc :
  rp_start fl e' o ci sc w = Some (rc, w') → rc = 0 ↔ ci = 0 ∧ sc = 0.
Proof.
  unfold rp_start. case_decide; intros Hr; [injection Hr as <- _; naive_solver|].
  apply st_bind_Some in Hr as (last & w1 & _ & Hr). case_decide; [injection Hr as <- _; naive_solver|].
  do 4 apply st_bind_Some in Hr as (? & ? & _ & Hr). injection Hr as <- _. split; [|done].
  intros _. split; [destruct (decide (ci = 0))|destruct (decide (sc = 0))]; tauto.
Qed.

Lemma add_effect p ci sc rc w w' : add_replicator fl e p ci sc w = Some (rc, w') → op_effect (OpAddReplicator p ci sc) w w'.
Proof.
  intros Hrun. unfold add_replicator in Hrun.
  apply st_bind_Some in Hrun as (g & w0 & [= <- <-] & Hrun).
  apply st_bind_Some in Hrun as ([] & w0 & [Ht ->]%st_check_Some & Hrun). cbn. split; [done|]. unfold rg_contains.
  destruct (rmap_find p (gw_group w)) eqn:Ef.
  { injection Hrun as <- <-. rewrite decide_False; [done|]. by intros [? _]. }
  apply st_bind_Some in Hrun as (id & w1 & [= <- <-] & Hrun).
  apply st_bind_Some in Hrun as (rc1 & w2 & Hs & Hrun).
  assert (rc1 = 0 ↔ ci = 0 ∧ sc = 0) as Hrc.
  { unfold session in Hs. destruct (default _ _) as [r t]. destruct (rp_start _ _ _ _ _ _) as [[b w3]|] eqn:E; [|done].
    injection Hs as <- <-. by eapply start_rc. }
  apply session_same in Hs. unfold same_group in Hs. cbn in Hs. case_decide as Hz.
  - injection Hrun as <- <-. by rewrite decide_False by tauto.
  - apply st_bind_Some in Hrun as ([] & w3 & [= <-] & [= <- <-]). rewrite decide_True by (split; [done|tauto]). cbn.
    rewrite Hs. split; [done|]. intros x. split; [apply set_insert_In|]. intros [->|Hx]; [|by apply set_insert_mono].
    destruct (set_insert rmap_lt (p, length (gw_sessions w)) (rg_rmap (gw_group w))) as [l' b] eqn:Ei.
    pose proof (set_insert_contains rmap_lt (p, length (gw_sessions w)) (rg_rmap (gw_group w))) as (y & Hy & Hk).
    rewrite Ei in Hy. cbn in Hy |- *. pose proof (set_insert_In rmap_lt (p, length (gw_sessions w)) y (rg_rmap (gw_group w))) as Hin.
    rewrite Ei in Hin. destruct (Hin Hy) as [->|Hin']; [done|]. exfalso.
    unfold rmap_find, set_find in Ef. apply fmap_None in Ef.
    assert (y ∈ filter (key_eq rmap_lt (p, 0%nat)) (rg_rmap (gw_group w))) as Hf by (by apply list_elem_of_filter).
    destruct (filter _ _); [by apply not_elem_of_nil in Hf|done].
Qed.

Lemma stop_ids_spec ids (w : GroupWorld S) :
  all_return (gw_others w) →
  ∃ w', st_each (λ id, stop_session e id;; mret tt) ids w = Some (tt, w') ∧ gw_group w' = gw_group w ∧
    (∀ id, dead w id ∨ id ∈ ids → dead w' id).
Proof.
  revert w. induction ids as [|i ids IH]; intros w Ho; cbn [st_each].
  { exists w. split_and!; try done. by intros id [?|?%not_elem_of_nil]. }
  destruct (stop_session_spec e i w Ho) as (w1 & Hrun1 & Hg1 & Ho1 & Hdead & Hother).
  destruct (IH w1 Ho1) as (w' & Hrun & Hg & Hd). exists w'.
  erewrite st_bind_eq; [|erewrite st_bind_eq; [reflexivity|exact Hrun1]]. split_and!; [exact Hrun|congruence|].
  intros id Hid. apply Hd. destruct (decide (id = i)) as [->|Hne]; [by left|].
  rewrite elem_of_cons in Hid. destruct Hid as [Hid|[?|?]]; [left|done|by right]. unfold dead. by rewrite Hother.
Qed.

Lemma stop_all_effect rc w w' :
  all_return (gw_others w) → stop_all e w = Some (rc, w') → op_effect OpStopAll w w'.
Proof.
  intros Ho Hrun. unfold stop_all in Hrun. apply st_bind_Some in Hrun as (ids & ? & [= <- <-] & Hrun).
  apply st_bind_Some in Hrun as ([] & w1 & [= <-] & Hrun). apply st_bind_Some in Hrun as ([] & w2 & Hs & [= <- <-]).
  match type of Hs with st_each _ _ ?w1 = _ => destruct (stop_ids_spec (rg_rmap (gw_group w)).*2 w1) as (w3 & Hs' & Hg & Hd) end; [done|].
  assert (w3 = w2) as -> by congruence. cbn. split; [exact Hg|]. intros x Hx. apply Hd. right.
  by apply list_elem_of_fmap_2.
Qed.

Lemma stop_replicator_effect p rc w w' :
  group_wf w → all_return (gw_others w) → rg_stop_replicator e p w = Some (rc, w') → op_effect (OpStopReplicator p) w w'.
Proof.
  intros [Hwf _ _] Ho (g & w0 & [= <- <-] & Hrun)%st_bind_Some. cbn.
  assert (∀ x, key_eq rmap_lt (p, 0%nat) x ↔ peer_eq p x.1) as Hk.
  { intros x. rewrite peer_eq_key, <-key_eq_peer. done. }
  destruct (rmap_find p (gw_group w)) as [id|] eqn:Ef.
  - apply st_bind_Some in Hrun as ([] & w1 & [= <-] & Hrun).
    match type of Hrun with stop_session _ _ ?w1 = _ => destruct (stop_session_spec e id w1 Ho) as (w2 & Hs & Hg & _ & Hd & _) end.
    assert (w2 = w') as -> by congruence. split.
    + rewrite Hg. cbn. unfold set_erase. cbn. f_equal. apply list_filter_iff. intros x. by rewrite <-Hk.
    + intros x Hx Hp. assert (rmap_find p (gw_group w) = Some x.2) as Hfx.
      { unfold rmap_find, set_find in *. assert (x ∈ filter (key_eq rmap_lt (p, 0%nat)) (rg_rmap (gw_group w))) as Hf.
        { apply list_elem_of_filter. by rewrite Hk. }
        destruct (filter _ _) as [|y l] eqn:E; [by apply not_elem_of_nil in Hf|]. cbn. do 2 f_equal.
        assert (y ∈ filter (key_eq rmap_lt (p, 0%nat)) (rg_rmap (gw_group w))) as Hy by (rewrite E; left).
        apply list_elem_of_filter in Hy as [Hky Hy]. apply (set_wf_elem_inj rmap_lt (rg_rmap (gw_group w))); [done..|].
        apply Hk in Hp. etrans; [symmetry; exact Hky|]. apply Hk. by apply Hk in Hp. }
      assert (id = x.2) as -> by congruence. exact Hd.
  - injection Hrun as <- <-. unfold rmap_find, set_find in Ef. apply fmap_None in Ef.
    assert (∀ x, x ∈ rg_rmap (gw_group w) → ¬ peer_eq p x.1) as Hno.
    { intros x Hx Hp%Hk. assert (x ∈ filter (key_eq rmap_lt (p, 0%nat)) (rg_rmap (gw_group w))) as Hf by (by apply list_elem_of_filter).
      destruct (filter _ _); [by apply not_elem_of_nil in Hf|done]. }
    split; [|by intros x Hx ?%Hno]. rewrite list_filter_all by done. by destruct (gw_group w).
Qed.

Lemma then_run {A} (k : ST (GroupWorld S) A) w w' : (k;; mret tt) w = Some (tt, w') → ∃ a, k w = Some (a, w').
Proof. intros (a & w1 & Hk & [= <-])%st_bind_Some. by exists a. Qed.

(** C23. The operations of a replicator group do what they promise.  On a group
    whose map is sorted by follower over existing, distinct sessions, an
    operation that returns leaves such a group, and: [add_replicator], in a
    term, adds exactly the follower with a new session, unless it is there
    already or its channel or session cannot be made; [stop_replicator] takes
    exactly the follower out and ends its session; [stop_all] empties the map
    and ends every session; [reset_term] sets a greater term; a hand-over
    empties the map and ends every session but that of the candidate, an
    eligible follower whose log is as long as any eligible one's, which it
    leaves as it was; every other operation leaves the group alone.  The calls
    of other threads in between return. *)
Theorem group_ops_effect (o : GroupOp) (w w' : GroupWorld S)
    (Hwf : group_wf w) (Hothers : all_return (gw_others w)) (Hrun : group_op o w = Some (tt, w')) :
  group_wf w' ∧ op_effect o w w'.
Proof.
  split; [by eapply group_op_wf|].
  assert (∀ A (k : ST (GroupWorld S) A), st_rel same_group k → (k;; mret tt) w = Some (tt, w') → gw_group w' = gw_group w) as Hsame.
  { intros A k Hk (a & Hr)%then_run. by apply Hk in Hr. }
  destruct o; cbn [group_op] in Hrun.
  - apply then_run in Hrun as (a & Hrun). by eapply add_effect.
  - eapply Hsame, Hrun. apply at_peer_same. intros id.
    apply st_rel_bind; [apply _|apply session_same|intros ?; by apply st_rel_ret, _].
  - apply then_run in Hrun as (a & Hrun). by eapply stop_replicator_effect.
  - apply then_run in Hrun as (a & Hrun). by eapply stop_all_effect.
  - apply then_run in Hrun as (a & Hrun). unfold reset_term in Hrun.
    apply st_bind_Some in Hrun as (g & ? & [= <- <-] & Hrun).
    apply st_bind_Some in Hrun as ([] & ? & [Ht ->]%st_check_Some & Hrun).
    apply st_bind_Some in Hrun as ([] & ? & [= <-] & [= <- <-]). done.
  - apply then_run in Hrun as (a & Hrun). by apply st_bind_Some in Hrun as ([] & ? & [= <-] & [= <- <-]).
  - apply then_run in Hrun as (a & Hrun). by apply st_bind_Some in Hrun as ([] & ? & [= <-] & [= <- <-]).
  - eapply Hsame, Hrun. apply at_peer_same. intros id. apply st_rel_bind; [apply _|apply session_same|intros n].
    destruct (decide _); [by apply st_rel_ret, _|apply session_same].
  - eapply Hsame, Hrun. apply at_peer_same. intros id. apply session_same.
  - apply then_run in Hrun as (a & Hrun).
    destruct (stop_all_keeps_candidate e conf w (gwf_sorted _ Hwf) Hothers) as (c & w2 & Hr & Hm & Hd & Hc).
    assert (c = a ∧ w2 = w') as [-> ->] by (split; congruence). cbn. split; [exact Hm|]. by exists a.
  - eapply Hsame, Hrun. apply at_peer_same. intros id. apply session_same.
  - eapply Hsame, Hrun. apply at_peer_same. intros id. apply session_same.
Qed.
End wf.
