(* ===== verification/ReplicatorRuns.v ===== *)
(** * Runs of a replicator

    The log manager gives the replicator the log it relies on
    ([leader_log_good]); runs of a leader with one follower that show the
    theorems of ReplicatorSpec.v at work; and two runs in which leaving the
    read-only mode meets a pipeline that is already busy: one aborts the leader,
    the other drops entries that are still in fly. *)

From stdpp Require Import prelude list_numbers.
From S2P Require Import Prelude StdContainers Configuration ConfigurationManager Ballot ClosureQueue BallotBox PeerText.
From S2P Require Import LogStorage MemoryLog LogManager LogManagerSpec StateMonad Messages Lease MetaStorage.
From S2P Require Import AppendEntriesCache NodeState NodeVote NodeLog ReplicatorWire Replicator ReplicatorSpec ReplicatorGroup.
Local Open Scope Z_scope.

(** ** The log manager as the leader's log *)

Section leader.
Context {St : Type} `{LogStorageLaws St}.

(** An id the manager keeps beside its log. *)
Definition known_id (C : Z → LogEntry) (i : LogId) : Prop := index i = 0 ∨ term i = term (id (C (index i))).

Lemma leader_log_good (m : LogManager St) l L C e :
  lm_inv m l L → (∀ i en, log_get L i = Some en → C i = en ∧ sendable i en) →
  known_id C (lm_virtual_first_log_id m) → known_id C (lm_last_snapshot_id m) →
  (∀ uri rc meta, re_snapshot e = Some (uri, (rc, meta)) → lfirst L ≤ smp_last_included_index meta + 1) →
  good_log C e m.
Proof.
  intros Hi HL Hv Hs Hsn. rewrite <- (inv_first _ _ _ Hi) in Hsn.
  assert (∀ i, lm_first_log_index m ≤ i ≤ lm_last_log_index m →
    ∃ en, log_get L i = Some en ∧ lm_get_term m i = Some (term (id en))) as Hin.
  { intros i Hr. rewrite (inv_first _ _ _ Hi), (inv_last _ _ _ Hi) in Hr.
    destruct (log_get_in_range L i Hr) as [en Hen]. exists en. split; [done|].
    pose proof (unsafe_get_term_in m l L i Hi Hr) as Ht. unfold log_term in Ht. by rewrite Hen in Ht. }
  split_and!; [|done|..].
  - intros i Hr. destruct (Hin i Hr) as (en & Hen & ->). intros [= Hz].
    pose proof (inv_entries _ _ _ Hi) as Hok. rewrite Forall_forall in Hok.
    destruct (Hok en) as [? _]; [by eapply zlookup_elem|done].
  - intros i m' en Hen. destruct (log_get L i) as [en'|] eqn:Eg.
    + rewrite (get_entry_in m l L i en' Hi Eg) in Hen. injection Hen as <- <-. destruct (HL i en' Eg). done.
    + by rewrite (get_entry_out m l L i Hi Eg) in Hen.
  - intros i t Hi0 Ht0 Hterm.
    destruct (decide (lm_first_log_index m ≤ i ≤ lm_last_log_index m)) as [Hr|Hr].
    { destruct (Hin i Hr) as (en & Hen & Hen'). rewrite Hen' in Hterm. injection Hterm as <-.
      by destruct (HL i en Hen) as [-> _]. }
    unfold lm_get_term in Hterm. rewrite decide_False in Hterm by done.
    case_decide; [|case_decide; [|rewrite decide_True in Hterm by lia; congruence]].
    + injection Hterm as <-. subst i. by destruct Hv.
    + injection Hterm as <-. subst i. by destruct Hs.
Qed.
End leader.

(** ** A leader of term 1 with two entries and a follower without any *)

Definition ex_rp_flags (parallel : Z) : RpFlags := mkRpFlags 1024 parallel (512 * 1024) 1000 false.
Definition ex_rp_env : RpEnv := mkRpEnv 5 100 1000 false None None.
Definition ex_rp_peer (i : Z) : PeerId := mkPeerId (mkEndPoint i 8000) 0 REPLICA.
Definition ex_rp_opts : ReplicatorOptions := mkReplicatorOptions 7 [103] (ex_rp_peer 1) (ex_rp_peer 2) 1.
Definition ex_rp_log : Log := mkLog 1 [ex_entry 1 1; ex_entry 2 1].
Definition ex_rp_entry (i : Z) : LogEntry := default (ex_entry 0 0) (log_get ex_rp_log i).

Definition ex_rp_manager : LogManager MemoryLogStorage := Eval vm_compute in
  default (ex_manager ex_log) (lm_init (ml_of ex_rp_log) cm_new).

Definition ex_rp_world : RpWorld MemoryLogStorage :=
  mkRpWorld None ex_rp_manager (mkBallotBox 0 0 [] (mkClosureQueue 0 [])) [] 0 100 [] [].

Definition quiet {S} (w : RpWorld S) : RpWorld S :=
  mkRpWorld (rw_replicator w) (rw_log_manager w) (rw_ballot_box w) (rw_others w)
    (rw_last_rpc_send_timestamp w) (rw_next_call_id w) (rw_sys w) [].

(** The requests and answers of the runs below. *)
Definition ex_request (prev prev_term : Z) (ems : list EntryMeta) : AppendEntriesRequest := Eval vm_compute in
  mkAppendEntriesRequest [103] (default [] (peer_to_string (ex_rp_peer 1))) (default [] (peer_to_string (ex_rp_peer 2)))
    1 prev_term prev ems 0.
Definition ex_metas : list EntryMeta :=
  [mkEntryMeta 1 ENTRY_TYPE_DATA [] (Some 1) []; mkEntryMeta 1 ENTRY_TYPE_DATA [] (Some 1) []].
Definition ex_yes : RpcResult AppendEntriesResponse := inr (mkAppendEntriesResponse 1 true (Some 2) None).
Definition ex_no : RpcResult AppendEntriesResponse := inr (mkAppendEntriesResponse 1 false (Some 0) None).

(** The follower refuses the first probe, which makes the next index 1. *)
Definition ex_refuse : RpCall := CallRpcReturned 100 (ex_request 2 1 []) 5 ex_no.
Definition ex_match (x : RpcResult AppendEntriesResponse) : RpCall := CallRpcReturned 101 (ex_request 0 0 []) 5 x.
Definition ex_stored (x : RpcResult AppendEntriesResponse) : RpCall := CallRpcReturned 102 (ex_request 0 0 ex_metas) 5 x.

(** The calls one after the other, with all that was sent. *)
Fixpoint rp_calls (fl : RpFlags) (cs : list RpCall) (w : RpWorld MemoryLogStorage) (sent : list RpEvent)
  : option (RpWorld MemoryLogStorage * list RpEvent) :=
  match cs with
  | [] => Some (w, sent)
  | c :: cs' => '(_, w') ← rp_call fl ex_rp_env c (quiet w); rp_calls fl cs' w' (answered c sent ++ rw_out w')
  end.

Definition ex_run (parallel : Z) (cs : list RpCall) : option (RpWorld MemoryLogStorage * list RpEvent) :=
  '(_, w) ← rp_start (ex_rp_flags parallel) ex_rp_env ex_rp_opts 0 0 ex_rp_world;
  rp_calls (ex_rp_flags parallel) cs w (rw_out w).

#[local] Instance EntryMeta_eq_dec : EqDecision EntryMeta.
Proof. solve_decision. Defined.
#[local] Instance AppendEntriesRequest_eq_dec : EqDecision AppendEntriesRequest.
Proof. solve_decision. Defined.
#[local] Instance MemoryLogStorage_eq_dec : EqDecision MemoryLogStorage.
Proof. solve_decision. Defined.

(** An answer to an rpc that was sent. *)
Definition is_answer_to (id : Z) (q : AppendEntriesRequest) (t : Z) (ev : RpEvent) : bool :=
  match ev with RpAppendEntries id' q' _ t' => bool_decide (id' = id ∧ q' = q ∧ t' = t) | _ => false end.

Definition answers (sent : list RpEvent) (c : RpCall) : bool :=
  match c with
  | CallRpcReturned id q t x =>
      existsb (is_answer_to id q t) sent &&
      match x with inr response => bool_decide (0 ≤ default 0 (aer_last_log_index response)) | inl _ => true end
  | CallInstallSnapshotReturned _ _ _ => false
  | _ => true
  end.

(** Nobody has changed the log. *)
Definition log_untouched (w : RpWorld MemoryLogStorage) : bool :=
  let m := rw_log_manager w in
  bool_decide (lm_log_storage m = lm_log_storage ex_rp_manager ∧ lm_logs_in_memory m = [] ∧
    lm_first_log_index m = 1 ∧ lm_last_log_index m = 2 ∧ lm_last_snapshot_id m = zero_id ∧
    lm_virtual_first_log_id m = zero_id) && match rw_others w with [] => true | _ => false end.

Fixpoint run_ok (fl : RpFlags) (cs : list RpCall) (w : RpWorld MemoryLogStorage) (sent : list RpEvent) : bool :=
  log_untouched w &&
  match cs with
  | [] => true
  | c :: cs' =>
      answers sent c &&
      match rp_call fl ex_rp_env c (quiet w) with
      | Some (_, w') => run_ok fl cs' w' (answered c sent ++ rw_out w')
      | None => false
      end
  end.

Lemma ex_rp_inv : lm_inv ex_rp_manager ex_rp_log ex_rp_log.
Proof.
  destruct (lm_init_inv (ml_of ex_rp_log) ex_rp_log cm_new) as (m & Hm & Hi).
  - split; [done|]. vm_compute. intros [|[|k]] en [= <-]; reflexivity.
  - done.
  - repeat constructor; done.
  - done.
  - done.
  - vm_compute in Hm. by injection Hm as <-.
Qed.

Lemma ex_rp_good : good_log ex_rp_entry ex_rp_env ex_rp_manager.
Proof.
  eapply leader_log_good; [apply ex_rp_inv| |by left|by left|done].
  intros i en Hen. pose proof (log_get_Some_range _ _ _ Hen) as Hr. change (1 ≤ i ≤ 2) in Hr.
  assert (i = 1 ∨ i = 2) as [->| ->] by lia; injection Hen as <-; split; try done; split; try done.
Qed.

Lemma untouched_same w : log_untouched w = true → log_same ex_rp_manager (rw_log_manager w) ∧ rw_others w = [].
Proof.
  unfold log_untouched. intros [Hb Ho]%andb_prop. apply bool_decide_eq_true in Hb. split; [|by destruct (rw_others w)].
  destruct Hb as (? & ? & ? & ? & ? & ?). by apply log_same_fields.
Qed.

Lemma answers_ok (w : RpWorld MemoryLogStorage) sent c : answers sent c = true → call_ok w sent c.
Proof.
  destruct c; try done. cbn. intros [Hs Hx]%andb_prop. split.
  - apply existsb_exists in Hs as ([] & Hin & Hev); try done. apply bool_decide_eq_true in Hev as (-> & -> & ->).
    eexists. by apply list_elem_of_In.
  - destruct result; [done|]. by apply bool_decide_eq_true in Hx.
Qed.

(** A next step from a state whose log nobody has changed. *)
Lemma ex_step fl w sent c w' :
  log_untouched w = true → answers sent c = true → rp_call fl ex_rp_env c (quiet w) = Some (tt, w') →
  rp_step fl ex_rp_entry w sent (quiet w) ex_rp_env c w'.
Proof.
  intros Hu Ha Hc. destruct (untouched_same _ Hu) as [Hs Ho]. constructor; try done.
  - split; [by eapply log_same_good; [|apply ex_rp_good]|]. cbn. by rewrite Ho.
  - by apply answers_ok.
Qed.

(** A run of calls goes through reachable states. *)
Lemma run_reach fl cs w sent w' sent' :
  rp_reach fl ex_rp_opts ex_rp_entry w sent → run_ok fl cs w sent = true →
  rp_calls fl cs w sent = Some (w', sent') → rp_reach fl ex_rp_opts ex_rp_entry w' sent'.
Proof.
  revert w sent. induction cs as [|c cs IH]; intros w sent Hreach Hok Hrun; cbn in Hok, Hrun.
  { by injection Hrun as <- <-. }
  apply andb_prop in Hok as [Hu Hok]. apply andb_prop in Hok as [Ha Hok].
  destruct (rp_call fl ex_rp_env c (quiet w)) as [[[] w1]|] eqn:Hc; [|done]. eapply IH; [|done|done].
  eapply reach_step; [exact Hreach|by apply ex_step].
Qed.

Lemma ex_run_reach p cs w sent :
  ex_run p cs = Some (w, sent) →
  match rp_start (ex_rp_flags p) ex_rp_env ex_rp_opts 0 0 ex_rp_world with
  | Some (_, w1) => run_ok (ex_rp_flags p) cs w1 (rw_out w1)
  | None => false
  end = true →
  rp_reach (ex_rp_flags p) ex_rp_opts ex_rp_entry w sent.
Proof.
  unfold ex_run. destruct (rp_start _ _ _ _ _ _) as [[rc w1]|] eqn:Hs; [|done]. cbn. intros Hrun Hok.
  eapply run_reach; [|exact Hok|exact Hrun].
  apply (reach_start _ _ _ ex_rp_env ex_rp_world rc); [done|done|done|split; [apply ex_rp_good|constructor]|exact Hs].
Qed.

(** ** Witnesses *)

Definition ex_default : RpWorld MemoryLogStorage * list RpEvent := (ex_rp_world, []).

(** The follower has matched at 0, the two entries are on their way. *)
Definition ex_sending : RpWorld MemoryLogStorage * list RpEvent := Eval vm_compute in
  default ex_default (ex_run 1 [ex_refuse; ex_match ex_yes]).
Definition ex_matching : RpWorld MemoryLogStorage * list RpEvent := Eval vm_compute in
  default ex_default (ex_run 1 [ex_refuse]).

Lemma ex_sending_reach : rp_reach (ex_rp_flags 1) ex_rp_opts ex_rp_entry ex_sending.1 ex_sending.2.
Proof. apply (ex_run_reach 1 [ex_refuse; ex_match ex_yes]); vm_compute; reflexivity. Qed.
Lemma ex_matching_reach : rp_reach (ex_rp_flags 1) ex_rp_opts ex_rp_entry ex_matching.1 ex_matching.2.
Proof. apply (ex_run_reach 1 [ex_refuse]); vm_compute; reflexivity. Qed.

Lemma replicator_pipeline_witness :
  ∃ r, rw_replicator ex_sending.1 = Some r ∧ pipeline_ok (ex_rp_flags 1) r ∧
    rp_append_entries_in_fly r = [mkFlying 1 2 102] ∧ min_flying_index r = 1.
Proof.
  eexists. split; [reflexivity|].
  destruct (replicator_pipeline (ex_rp_flags 1) ex_rp_opts ex_rp_entry eq_refl _ _ _ ex_sending_reach eq_refl) as (Hp & _).
  split; [exact Hp|]. split; reflexivity.
Defined.

Definition ex_stored_world : RpWorld MemoryLogStorage := Eval vm_compute in
  default ex_rp_world (snd <$> rp_call (ex_rp_flags 1) ex_rp_env (ex_stored ex_yes) (quiet ex_sending.1)).

Lemma commit_at_acknowledged_witness :
  ∃ r f id q t response, rw_replicator ex_sending.1 = Some r ∧ ex_stored ex_yes = CallRpcReturned id q t (inr response) ∧
    aer_success response = true ∧ f ∈ rp_append_entries_in_fly r ∧ 2 = ae_last_index q ∧ 1 = min_flying_index r.
Proof.
  destruct (commit_at_acknowledged (ex_rp_flags 1) ex_rp_opts ex_rp_entry eq_refl ex_sending.1 ex_sending.2
    (quiet ex_sending.1) ex_rp_env (ex_stored ex_yes) ex_stored_world 1 2 (ex_rp_peer 2))
    as (r & f & id & q & t & response & H1 & H2 & H3 & _ & H5 & _ & _ & H8 & H9 & _).
  - apply ex_sending_reach.
  - apply ex_step; vm_compute; reflexivity.
  - left.
  - exists r, f, id, q, t, response. done.
Defined.

Lemma request_carries_log_witness :
  parse_entries 0 ex_metas [1; 2] = Some [ex_entry 1 1; ex_entry 2 1].
Proof.
  refine (proj1 (request_carries_log (ex_rp_flags 1) ex_rp_opts ex_rp_entry eq_refl ex_matching.1 ex_matching.2
    (quiet ex_matching.1) ex_rp_env (ex_match ex_yes) ex_sending.1 102 (ex_request 0 0 ex_metas) [1; 2] 5 _ _ _)).
  - apply ex_matching_reach.
  - apply ex_step; vm_compute; reflexivity.
  - left.
Defined.

(** A leader with two followers, the second one ahead. *)
Definition ex_follower (i next : Z) : Replicator :=
  set_has_succeeded true (set_next_index next (rp_new (mkReplicatorOptions i [103] (ex_rp_peer 1) (ex_rp_peer i) 1))).

Definition ex_group_world : GroupWorld MemoryLogStorage :=
  mkGroupWorld (mkReplicatorGroup [(ex_rp_peer 2, 0%nat); (ex_rp_peer 3, 1%nat)] 1 [103] (ex_rp_peer 1) 100 1000)
    [(Some (ex_follower 2 2), 0); (Some (ex_follower 3 3), 0)] ex_rp_manager (mkBallotBox 0 0 [] (mkClosureQueue 0 []))
    [λ x, Some (lm_wakeup_all_waiter x.1, x.2)] 100 [] [].

Definition ex_group_conf : ConfigurationEntry :=
  mkConfigurationEntry zero_id (conf_of_vector [ex_rp_peer 1; ex_rp_peer 2; ex_rp_peer 3]) (conf_of_vector []).

Lemma ex_group_wf : group_wf ex_group_world.
Proof.
  split; cbn.
  - repeat constructor.
  - apply (bool_decide_unpack _). vm_compute. done.
  - repeat constructor.
Qed.

Lemma group_ops_effect_witness :
  ∃ w1 w2, group_op (ex_rp_flags 1) ex_rp_env (OpAddReplicator (ex_rp_peer 4) 0 0) ex_group_world = Some (tt, w1) ∧
    (ex_rp_peer 4, 2%nat) ∈ rg_rmap (gw_group w1) ∧
    group_op (ex_rp_flags 1) ex_rp_env (OpStopReplicator (ex_rp_peer 2)) ex_group_world = Some (tt, w2) ∧
    rg_rmap (gw_group w2) = [(ex_rp_peer 3, 1%nat)] ∧ dead w2 0%nat.
Proof.
  assert (all_return (gw_others ex_group_world)) as Ho by (by repeat constructor).
  destruct (group_op (ex_rp_flags 1) ex_rp_env (OpAddReplicator (ex_rp_peer 4) 0 0) ex_group_world) as [[[] w1]|] eqn:E1;
    [|by vm_compute in E1].
  destruct (group_op (ex_rp_flags 1) ex_rp_env (OpStopReplicator (ex_rp_peer 2)) ex_group_world) as [[[] w2]|] eqn:E2;
    [|by vm_compute in E2].
  exists w1, w2. split; [done|].
  destruct (group_ops_effect (ex_rp_flags 1) ex_rp_env _ _ _ ex_group_wf Ho E1) as (_ & _ & Hadd).
  destruct (group_ops_effect (ex_rp_flags 1) ex_rp_env _ _ _ ex_group_wf Ho E2) as (_ & Hg & Hd).
  rewrite decide_True in Hadd by (by vm_compute). split; [apply Hadd; by left|]. split; [done|].
  rewrite Hg. split; [by vm_compute|]. apply (Hd (ex_rp_peer 2, 0%nat)); [left|done].
Defined.

(** ** Leaving the read-only mode *)

(** The rpc to a read-only follower fails, the replicator blocks; the follower
    leaves the mode, the waiter it registers sends entries, the block timer
    fires. *)
Definition ex_unblocked : RpWorld MemoryLogStorage * list RpEvent := Eval vm_compute in
  default ex_default (ex_run 1 [ex_refuse; CallChangeReadonlyConfig true; ex_match (inl EHOSTUNREACH);
    CallChangeReadonlyConfig false; CallContinueSending 0; CallBlockTimedout]).

(** C24. With the default of one rpc in fly, a replicator that leaves the
    read-only mode while it blocks can reach a state in which its block timer
    has fired, entries are in fly and nothing waits for more; the call the timer
    makes then aborts the leader on [CHECK(_append_entries_in_fly.empty())]. *)
Theorem readonly_unblock_aborts :
  let '(w, sent) := ex_unblocked in
  rp_reach (ex_rp_flags 1) ex_rp_opts ex_rp_entry w sent ∧ RpBlockTimer 100 ∈ sent ∧
  rp_call (ex_rp_flags 1) ex_rp_env (CallContinueSending ETIMEDOUT) (quiet w) = None.
Proof.
  split_and!.
  - apply (ex_run_reach 1 [ex_refuse; CallChangeReadonlyConfig true; ex_match (inl EHOSTUNREACH);
      CallChangeReadonlyConfig false; CallContinueSending 0; CallBlockTimedout]); vm_compute; reflexivity.
  - vm_compute. repeat first [left|right].
  - vm_compute. reflexivity.
Qed.

(** With pipelining: the mode is switched on and off while the probe is in fly,
    entries follow the probe, the probe is answered. *)
Definition ex_overtaken : RpWorld MemoryLogStorage * list RpEvent := Eval vm_compute in
  default ex_default (ex_run 8 [ex_refuse; CallChangeReadonlyConfig true; CallChangeReadonlyConfig false;
    CallContinueSending 0; ex_match ex_yes]).

(** C25. With more than one rpc in fly, the answer to a probe can take the
    entries sent after it out of the pipeline although they are unanswered: the
    replicator counts them as replicated, and whatever becomes of their rpc is
    ignored. *)
Theorem probe_answer_drops_entries :
  let '(w, sent) := ex_overtaken in
  rp_reach (ex_rp_flags 8) ex_rp_opts ex_rp_entry w sent ∧
  RpAppendEntries 102 (ex_request 0 0 ex_metas) [1; 2] 5 ∈ sent ∧
  (∃ r, rw_replicator w = Some r ∧ min_flying_index r = 3) ∧
  ∀ x, rp_call (ex_rp_flags 8) ex_rp_env (ex_stored x) (quiet w) = Some (tt, quiet w).
Proof.
  split_and!.
  - apply (ex_run_reach 8 [ex_refuse; CallChangeReadonlyConfig true; CallChangeReadonlyConfig false;
      CallContinueSending 0; ex_match ex_yes]); vm_compute; reflexivity.
  - vm_compute. repeat first [left|right].
  - eexists. split; [reflexivity|]. vm_compute. reflexivity.
  - intros x. vm_compute. reflexivity.
Qed.
