(* ===== verification/SnapshotFs.v ===== *)
(** * Directories

    The operations of [PosixFileSystemAdaptor]
    (src/melon/raft/file_system_adaptor.{h,cc}) that work on whole directories,
    with [DeleteFile] and [CreateDirectoryAndGetError] of
    src/melon/utility/file_util_posix.cc, on the [World] of FileSystem.v.  Names
    are full paths and a directory is an entry with the inode [dir_ino].  The
    directories above the one a component works in exist and are not part of
    the world.

    Outcomes of calls that change something are arbitrary.  Since a call that
    fails changes nothing, a run in which every call after some point fails
    leaves the disk a crash at that point leaves: the lemmas below cover
    crashes together with faults. *)

From Stdlib Require Import Ascii String.
From stdpp Require Import prelude gmap sorting.
From S2P Require Import Prelude Bytes Text FileSystem.
Local Open Scope Z_scope.

Definition ENOTDIR : Z := 20.
Definition ENOTEMPTY : Z := 39.

Definition ch_slash : Z := 47.
Definition dir_ino : Z := -1.

(** [p + "/" + n]. *)
Definition path_join (p n : list Z) : list Z := p ++ ch_slash :: n.

(** [n] below the directory [p]: its name relative to [p]. *)
Definition relative (p n : list Z) : option (list Z) := scan_lit (p ++ [ch_slash]) n.

Definition below (p n : list Z) : Prop := is_Some (relative p n).
#[global] Instance below_dec p n : Decision (below p n) := _.

Definition at_or_below (p n : list Z) : Prop := n = p ∨ below p n.
#[global] Instance at_or_below_dec p n : Decision (at_or_below p n) := _.

(** ** System calls *)

(** [stat], [lstat] and [access]: the inode. *)
Definition sys_stat (name : list Z) : IO (option Z) := sys_open name.

(** A call that changes the entries, [f], or fails with an error. *)
Definition sys_change (f : list (list Z * Z) → Z + list (list Z * Z)) : IO Z := λ w,
  let '(r, w) := next_write w in
  match r with
  | SysError e => Some (-1, set_errno w e)
  | _ =>
      match f (w_dir w) with
      | inl e => Some (-1, set_errno w e)
      | inr d => Some (0, set_dir w d)
      end
  end.

Definition sys_mkdir (name : list Z) : IO Z := sys_change (λ d,
  match dir_lookup d name with
  | Some _ => inl EEXIST
  | None => inr (d ++ [(name, dir_ino)])
  end).

Definition sys_rmdir (name : list Z) : IO Z := sys_change (λ d,
  if decide (dir_lookup d name ≠ Some dir_ino) then inl ENOTDIR
  else if decide (Exists (λ e, below name e.1) d) then inl ENOTEMPTY
  else inr (dir_remove d name)).

Definition sys_link (old new : list Z) : IO Z := sys_change (λ d,
  match dir_lookup d old, dir_lookup d new with
  | None, _ => inl ENOENT
  | Some _, Some _ => inl EEXIST
  | Some ino, None => inr (d ++ [(new, ino)])
  end).

(** The name an entry has after [old] was renamed to [new]. *)
Definition renamed (old new n : list Z) : list Z :=
  if decide (at_or_below old n) then new ++ drop (length old) n else n.

(** [rename] of a directory: the new name is free or an empty directory. *)
Definition sys_rename_dir (old new : list Z) : IO Z := sys_change (λ d,
  if decide (dir_lookup d old ≠ Some dir_ino) then inl ENOENT
  else if decide (Exists (λ e, below new e.1) d) then inl ENOTEMPTY
  else if decide (dir_lookup d new = None ∨ dir_lookup d new = Some dir_ino) then
    inr (prod_map (renamed old new) id <$> dir_remove d new)
  else inl ENOTDIR).

(** ** The adaptor *)

Definition fs_path_exists (path : list Z) : IO bool :=
  i ← sys_stat path; mret (bool_decide (is_Some i)).

Definition fs_directory_exists (path : list Z) : IO bool :=
  i ← sys_stat path; mret (bool_decide (i = Some dir_ino)).

Definition fs_create_directory (path : list Z) : IO bool :=
  exists_ ← fs_directory_exists path;
  if (exists_ : bool) then mret true
  else
    rc ← sys_mkdir path;
    if decide (rc = 0) then mret true else fs_directory_exists path.

(** A loop that stops at the first call that fails. *)
Fixpoint while_success (call : list Z → IO Z) (names : list (list Z)) : IO bool :=
  match names with
  | [] => mret true
  | n :: ns =>
      rc ← call n;
      if decide (rc = 0) then while_success call ns else mret false
  end.

(** What the traversal of [path] finds: files, and directories, which are
    removed with the inner ones first. *)
Definition files_below (path : list Z) (w : World) : list (list Z) :=
  (filter (λ e, below path e.1 ∧ e.2 ≠ dir_ino) (w_dir w)).*1.
Definition longer (a b : list Z) : Prop := zlen b ≤ zlen a.
#[global] Instance longer_dec : RelDecision longer.
Proof. intros a b. unfold longer. apply _. Defined.
Definition directories_below (path : list Z) (w : World) : list (list Z) :=
  merge_sort longer (filter (λ e, below path e.1 ∧ e.2 = dir_ino) (w_dir w)).*1.

Definition fs_delete_file (path : list Z) (recursive : bool) : IO bool :=
  i ← sys_stat path;
  match i with
  | None => e ← get_errno; mret (bool_decide (e = ENOENT ∨ e = ENOTDIR))
  | Some i =>
      if decide (i ≠ dir_ino) then rc ← sys_unlink path; mret (bool_decide (rc = 0))
      else if negb recursive then rc ← sys_rmdir path; mret (bool_decide (rc = 0))
      else λ w,
        let directories := directories_below path w ++ [path] in
        (success ← while_success sys_unlink (files_below path w);
         if (success : bool) then while_success sys_rmdir directories else mret false) w
  end.

Definition fs_rename (old_path new_path : list Z) : IO bool := λ w,
  (rc ← (if decide (dir_lookup (w_dir w) old_path = Some dir_ino) then sys_rename_dir old_path new_path
         else sys_rename old_path new_path);
   mret (bool_decide (rc = 0))) w.

Definition fs_link (old_path new_path : list Z) : IO bool :=
  rc ← sys_link old_path new_path; mret (bool_decide (rc = 0)).

(** [directory_reader(path)]: the names in the directory, or [None] when the
    reader is not valid. *)
Definition fs_directory_reader (path : list Z) : IO (option (list (list Z))) := λ w,
  let '(r, w) := next_read w in
  match r with
  | SysError e => Some (None, set_errno w e)
  | _ =>
      if decide (dir_lookup (w_dir w) path ≠ Some dir_ino) then Some (None, set_errno w ENOENT)
      else Some (Some (omap (λ e, n ← relative path e.1; if decide (ch_slash ∈ n) then None else Some n) (w_dir w)), w)
  end.

(** ** Paths *)

Lemma scan_lit_Some lit s r : scan_lit lit s = Some r ↔ s = lit ++ r.
Proof.
  revert s. induction lit as [|c lit IH]; intros s; cbn; [naive_solver|].
  destruct s as [|d s]; [naive_solver|]. case_decide; [|naive_solver]. rewrite IH. naive_solver.
Qed.

Lemma relative_Some p n r : relative p n = Some r ↔ n = path_join p r.
Proof. unfold relative, path_join. rewrite scan_lit_Some, <-app_assoc. done. Qed.

Lemma below_join p n : below p n ↔ ∃ r, n = path_join p r.
Proof. unfold below, is_Some. by setoid_rewrite relative_Some. Qed.

Lemma below_path_join p r : below p (path_join p r).
Proof. apply below_join. eauto. Qed.

Lemma at_or_below_refl p : at_or_below p p.
Proof. by left. Qed.

Lemma below_length p n : below p n → (length p < length n)%nat.
Proof. intros [r ->]%below_join. unfold path_join. rewrite length_app. cbn. lia. Qed.

Lemma below_at_or_below p n : below p n → at_or_below p n.
Proof. by right. Qed.

Lemma path_join_assoc p a b : path_join (path_join p a) b = path_join p (path_join a b).
Proof. unfold path_join. by rewrite <-app_assoc. Qed.

Lemma below_trans p q n : at_or_below p q → below q n → below p n.
Proof.
  intros [->|[r ->]%below_join] [r' ->]%below_join; apply below_join; [eauto|].
  rewrite path_join_assoc. eauto.
Qed.

Lemma at_or_below_trans p q n : at_or_below p q → at_or_below q n → at_or_below p n.
Proof. intros Hp [->|Hq]; [done|]. right. by eapply below_trans. Qed.

(** Two names in one directory have nothing in common below them. *)
Lemma path_join_below_inj root a b n :
  ch_slash ∉ a → ch_slash ∉ b → at_or_below (path_join root a) n → at_or_below (path_join root b) n → a = b.
Proof.
  intros Ha Hb Hna Hnb.
  assert (∀ c, at_or_below (path_join root c) n → ∃ t, n = path_join root (c ++ t) ∧ (t = [] ∨ head t = Some ch_slash)) as Hform.
  { intros c [->|[r ->]%below_join]; [exists []; rewrite app_nil_r; auto|].
    exists (ch_slash :: r). unfold path_join. rewrite <-app_assoc. auto. }
  apply Hform in Hna as (t & -> & Ht). apply Hform in Hnb as (t' & Heq & Ht').
  apply app_inv_head in Heq. injection Heq as Heq. clear Hform.
  revert b Hb Heq. induction a as [|x a IH]; intros [|y b] Hb Heq; cbn in *.
  - done.
  - subst t. destruct Ht as [|Ht]; [done|]. cbn in Ht. injection Ht as ->. set_solver.
  - subst t'. destruct Ht' as [|Ht']; [done|]. cbn in Ht'. injection Ht' as ->. set_solver.
  - injection Heq as -> Heq. f_equal. apply IH; [set_solver..|done].
Qed.

Lemma path_join_inj p a b : path_join p a = path_join p b → a = b.
Proof. unfold path_join. intros E%app_inv_head. by injection E. Qed.

Lemma path_join_ne p a : path_join p a ≠ p.
Proof. intros E. pose proof (below_length p (path_join p a) (below_path_join p a)). rewrite E in *. lia. Qed.

(** ** The shape of a world *)

Abbreviation lk w n := (dir_lookup (w_dir w) n).

Lemma dir_lookup_elem d n i : NoDup d.*1 → dir_lookup d n = Some i ↔ (n, i) ∈ d.
Proof.
  intros Hnd. unfold dir_lookup. split.
  - intros H. destruct (filter _ d) as [|[m j] l] eqn:E; [done|]. cbn in H. injection H as ->.
    assert ((m, i) ∈ filter (λ e, e.1 = n) d) as Hin by (rewrite E; left).
    apply list_elem_of_filter in Hin as [Hm Hin]. cbn in Hm. by subst.
  - intros H. induction d as [|[m j] d IH]; [by apply elem_of_nil in H|].
    cbn in Hnd. apply NoDup_cons in Hnd as [Hm Hnd]. rewrite filter_cons. cbn [fst]. case_decide as Hmn.
    + subst. apply elem_of_cons in H as [[= <-]|H]; [done|]. destruct Hm. apply list_elem_of_fmap. by exists (n, i).
    + apply elem_of_cons in H as [[= <- <-]|H]; [done|]. by apply IH.
Qed.

Lemma lookup_None_elem d n : dir_lookup d n = None ↔ n ∉ d.*1.
Proof.
  unfold dir_lookup. induction d as [|[m j] d IH]; [split; [intros _; apply not_elem_of_nil|done]|].
  rewrite filter_cons. cbn [fst]. rewrite fmap_cons, not_elem_of_cons. case_decide as Hm; cbn; [naive_solver|].
  rewrite IH. naive_solver.
Qed.

(** What is in a directory implies the directory. *)
Definition tree_ok (root : list Z) (w : World) : Prop :=
  ∀ p n, at_or_below root p → below p n → is_Some (lk w n) → lk w p = Some dir_ino.

Definition fs_wf (root : list Z) (w : World) : Prop :=
  NoDup (w_dir w).*1 ∧ 0 ≤ w_next w ∧ (∀ n i, lk w n = Some i → i = dir_ino ∨ 0 ≤ i < w_next w) ∧ tree_ok root w.

(** Only names with [P] were removed, and nothing else happened. *)
Definition deleted (P : list Z → Prop) (w w' : World) : Prop :=
  w_reads w' = w_reads w ∧ w_next w' = w_next w ∧ w_files w' = w_files w ∧
  sublist (w_dir w') (w_dir w) ∧
  (∀ n, ¬ P n → lk w' n = lk w n) ∧ (∀ n i, lk w' n = Some i → lk w n = Some i).

#[global] Instance deleted_preorder P : PreOrder (deleted P).
Proof.
  split; [by intros w; split_and!|].
  intros w1 w2 w3 (H1 & H2 & H3 & H4 & H5 & H6) (G1 & G2 & G3 & G4 & G5 & G6).
  split_and!; [congruence..|by etrans| |by eauto]. intros n Hn. by rewrite G5, H5.
Qed.

Lemma deleted_weaken (P Q : list Z → Prop) w w' : (∀ n, P n → Q n) → deleted P w w' → deleted Q w w'.
Proof. intros HPQ (?&?&?&?&H5&?). split_and!; [done..| |done]. intros n Hn. apply H5. auto. Qed.

Lemma deleted_nodup P w w' : deleted P w w' → NoDup (w_dir w).*1 → NoDup (w_dir w').*1.
Proof. intros (_&_&_&H&_) Hnd. eapply sublist_NoDup; [exact Hnd|]. by apply fmap_sublist. Qed.

Lemma next_write_same w r w1 :
  next_write w = (r, w1) →
  w_dir w1 = w_dir w ∧ w_next w1 = w_next w ∧ w_files w1 = w_files w ∧ w_reads w1 = w_reads w ∧
  (w_writes w = [] → r = SysDone ∧ w_writes w1 = []).
Proof. unfold next_write. destruct (w_writes w) eqn:E; intros [= <- <-]; split_and!; done. Qed.

Lemma deleted_same P w w' :
  w_dir w' = w_dir w → w_next w' = w_next w → w_files w' = w_files w → w_reads w' = w_reads w → deleted P w w'.
Proof. intros Hd ???. split_and!; [done..|by rewrite Hd| |]; intros; by rewrite Hd in *. Qed.

Lemma fs_wf_deleted root P w w' : fs_wf root w → deleted P w w' → tree_ok root w' → fs_wf root w'.
Proof.
  intros (Hnd & Hn & Hi & _) Hdel Ht. split_and!; [by eapply deleted_nodup|..|done].
  - by destruct Hdel as (_ & -> & _).
  - intros n i Hni. destruct Hdel as (_ & -> & _ & _ & _ & H). eauto.
Qed.

Lemma deleted_Some P w w' n : deleted P w w' → is_Some (lk w' n) → is_Some (lk w n).
Proof. intros (_&_&_&_&_&H) [i Hi]. eauto. Qed.

Lemma deleted_None P w w' n : deleted P w w' → lk w n = None → lk w' n = None.
Proof. intros H Hn. apply eq_None_not_Some. intros Hs%(deleted_Some _ _ _ _ H). rewrite Hn in Hs. by apply is_Some_None in Hs. Qed.

Lemma fs_wf_same root w w' :
  w_dir w' = w_dir w → w_next w' = w_next w → fs_wf root w → fs_wf root w'.
Proof. intros Hd Hn. unfold fs_wf, tree_ok. by rewrite Hd, Hn. Qed.

(** The directory may have changed, nothing else has. *)
Definition dir_only (w w' : World) : Prop :=
  w_reads w' = w_reads w ∧ w_next w' = w_next w ∧ w_files w' = w_files w.

#[global] Instance dir_only_preorder : PreOrder dir_only.
Proof. split; [done|]. intros w1 w2 w3 (?&?&?) (?&?&?). split_and!; congruence. Qed.

Lemma sys_change_spec f w :
  ∃ rc w', sys_change f w = Some (rc, w') ∧ dir_only w w' ∧ (w_writes w = [] → w_writes w' = []) ∧
    (rc = -1 ∧ w_dir w' = w_dir w ∧ (w_writes w = [] → ∃ e, f (w_dir w) = inl e) ∨
     rc = 0 ∧ f (w_dir w) = inr (w_dir w')).
Proof.
  unfold sys_change. destruct (next_write w) as [r w1] eqn:E.
  apply next_write_same in E as (Hd & Hn & Hf & Hr & Hq). rewrite Hd.
  assert (∀ e, r = SysError e → w_writes w ≠ []) as Herr by (intros e -> Hw; by destruct (Hq Hw)).
  destruct r as [|k|e]; [destruct (f (w_dir w)) as [e|d] eqn:Ef..|]; eexists _, _; (split; [done|]);
    (split; [by split_and!|]); (split; [intros Hw; by apply Hq|]).
  1,3: left; split_and!; [done..|eauto].
  1,2: by right; split.
  left. split_and!; [done..|]. intros Hw. by destruct (Herr e).
Qed.

Lemma sys_unlink_change n w :
  sys_unlink n w =
    sys_change (λ d, match dir_lookup d n with None => inl ENOENT | Some _ => inr (dir_remove d n) end) w.
Proof.
  unfold sys_unlink, sys_change. destruct (next_write w) as [[] w1]; by destruct (dir_lookup (w_dir w1) n).
Qed.

Lemma deleted_unchanged P w w' : dir_only w w' → w_dir w' = w_dir w → deleted P w w'.
Proof. intros (?&?&?) ?. by apply deleted_same. Qed.

Lemma deleted_dir_remove (P : list Z → Prop) n w w' :
  P n → dir_only w w' → w_dir w' = dir_remove (w_dir w) n → deleted P w w'.
Proof.
  intros HP (?&?&?) Hd. split_and!; [done..| | |]; rewrite Hd.
  - apply sublist_filter.
  - intros m Hm. rewrite dir_lookup_remove, decide_False; [done|]. by intros ->.
  - intros m i. rewrite dir_lookup_remove. by case_decide.
Qed.

(** A name that has nothing below it can go. *)
Lemma tree_ok_remove root n w w' :
  tree_ok root w → w_dir w' = dir_remove (w_dir w) n → (∀ m, at_or_below root n → below n m → lk w m = None) → tree_ok root w'.
Proof.
  intros Ht Hd Hempty p m Hp Hm Hs. rewrite Hd, dir_lookup_remove in *.
  case_decide; [by apply is_Some_None in Hs|].
  rewrite decide_False; [by apply (Ht p m)|]. intros ->. rewrite Hempty in Hs by done. by apply is_Some_None in Hs.
Qed.

Lemma sys_unlink_spec root n w :
  fs_wf root w → lk w n ≠ Some dir_ino →
  ∃ rc w', sys_unlink n w = Some (rc, w') ∧ deleted (eq n) w w' ∧ fs_wf root w' ∧ (rc = 0 → lk w' n = None) ∧
    (w_writes w = [] → w_writes w' = [] ∧ (is_Some (lk w n) → rc = 0)).
Proof.
  intros Hwf Hfile. rewrite sys_unlink_change.
  destruct (sys_change_spec (λ d, match dir_lookup d n with None => inl ENOENT | Some _ => inr (dir_remove d n) end) w)
    as (rc & w' & -> & Hdo & Hq & Hc). exists rc, w'. split; [done|].
  destruct Hc as [(-> & Hd & He)|(-> & Hd)].
  - split_and!; [by apply deleted_unchanged| |done|].
    + destruct Hdo as (_ & ? & _). by eapply fs_wf_same.
    + intros Hw. split; [auto|]. intros [i Hi]. destruct (He Hw) as [e He']. by rewrite Hi in He'.
  - destruct (lk w n) as [i|] eqn:Hi; [|done]. injection Hd as Hd. symmetry in Hd.
    assert (deleted (eq n) w w') as Hdel by (by eapply deleted_dir_remove).
    split_and!; [done| |by rewrite Hd, dir_lookup_remove, decide_True|auto].
    eapply fs_wf_deleted; [done..|]. apply (tree_ok_remove root n w); [apply Hwf|done|].
    intros m Hr Hm. apply eq_None_not_Some. intros Hs. destruct Hwf as (_ & _ & _ & Ht).
    rewrite (Ht n m) in Hi by done. congruence.
Qed.

Lemma sys_rmdir_spec root n w :
  fs_wf root w →
  ∃ rc w', sys_rmdir n w = Some (rc, w') ∧ deleted (eq n) w w' ∧ fs_wf root w' ∧
    (rc = 0 → (∀ m, at_or_below n m → lk w' m = None)) ∧
    (w_writes w = [] → w_writes w' = [] ∧
      (lk w n = Some dir_ino → (∀ m, below n m → lk w m = None) → rc = 0)).
Proof.
  intros Hwf. unfold sys_rmdir.
  assert (Exists (λ e, below n e.1) (w_dir w) ↔ ∃ m, below n m ∧ is_Some (lk w m)) as Hex.
  { rewrite Exists_exists. split.
    - intros ([m i] & Hin & Hb). exists m. split; [done|]. exists i. by apply dir_lookup_elem; [apply Hwf|].
    - intros (m & Hb & i & Hi). exists (m, i). split; [by apply dir_lookup_elem; [apply Hwf|]|done]. }
  edestruct (sys_change_spec) as (rc & w' & -> & Hdo & Hq & Hc). exists rc, w'. split; [done|].
  destruct Hc as [(-> & Hd & He)|(-> & Hd)].
  - split_and!; [by apply deleted_unchanged| |done|].
    + destruct Hdo as (_ & ? & _). by eapply fs_wf_same.
    + intros Hw. split; [auto|]. intros Hdir Hempty. destruct (He Hw) as [e He'].
      rewrite decide_False in He' by auto. case_decide as Hx; [|done].
      apply Hex in Hx as (m & Hb & Hs). rewrite Hempty in Hs by done. by apply is_Some_None in Hs.
  - case_decide as Hdir; [done|]. case_decide as Hx; [done|].
    injection Hd as Hd. symmetry in Hd.
    assert (∀ m, below n m → lk w m = None) as Hempty.
    { intros m Hm. apply eq_None_not_Some. intros Hs. apply Hx, Hex. eauto. }
    assert (deleted (eq n) w w') as Hdel by (by eapply deleted_dir_remove).
    split_and!; [done| | |auto].
    + eapply fs_wf_deleted; [done..|]. apply (tree_ok_remove root n w); [apply Hwf|done|]. intros. auto.
    + intros _ m [->|Hm]; rewrite Hd, dir_lookup_remove; [by rewrite decide_True|]. rewrite Hempty by done. by case_decide.
Qed.

Lemma while_success_unlink root (P : list Z → Prop) names w :
  fs_wf root w → Forall (λ n, P n ∧ lk w n ≠ Some dir_ino) names →
  ∃ b w', while_success sys_unlink names w = Some (b, w') ∧ deleted P w w' ∧ fs_wf root w' ∧
    (b = true → Forall (λ n, lk w' n = None) names) ∧
    (w_writes w = [] → w_writes w' = [] ∧ (NoDup names → Forall (λ n, is_Some (lk w n)) names → b = true)).
Proof.
  revert w. induction names as [|n names IH]; intros w Hwf Hall; cbn [while_success].
  { exists true, w. by split_and!. }
  apply Forall_cons in Hall as [[HP Hn] Hall].
  destruct (sys_unlink_spec root n w Hwf Hn) as (rc & w1 & H1 & Hdel & Hwf1 & Hgone & Hq).
  rewrite (io_bind_eq _ _ _ _ _ H1). assert (deleted P w w1) as HdelP.
  { eapply deleted_weaken; [|exact Hdel]. by intros ? <-. }
  case_decide as Hrc.
  - destruct (IH w1 Hwf1) as (b & w2 & H2 & Hdel2 & Hwf2 & Hgone2 & Hq2).
    { eapply Forall_impl; [exact Hall|]. intros m [? Hm]. split; [done|]. intros Hc. apply Hm.
      destruct Hdel as (_&_&_&_&_&Hsub). eauto. }
    exists b, w2. split_and!; [done|by etrans|done| |].
    + intros Hb. constructor; [|auto]. eapply deleted_None; [exact Hdel2|auto].
    + intros Hw. destruct (Hq Hw) as [Hw1 _]. destruct (Hq2 Hw1) as [Hw2 Hb]. split; [done|].
      intros [Hnn Hnd]%NoDup_cons [_ Hex]%Forall_cons. apply Hb; [done|].
      apply Forall_forall. intros m Hm. rewrite Forall_forall in Hex. destruct Hdel as (_&_&_&_&Hsame&_).
      rewrite Hsame; [auto|]. by intros <-.
  - exists false, w1. split_and!; try done. intros Hw. destruct (Hq Hw) as [? Hrc0]. split; [done|].
    intros _ [Hs _]%Forall_cons. by destruct Hrc; apply Hrc0.
Qed.

Lemma while_success_rmdir root (P : list Z → Prop) names w :
  fs_wf root w → Forall P names →
  ∃ b w', while_success sys_rmdir names w = Some (b, w') ∧ deleted P w w' ∧ fs_wf root w' ∧
    (b = true → Forall (λ n, ∀ m, at_or_below n m → lk w' m = None) names) ∧
    (w_writes w = [] → w_writes w' = [] ∧
      (NoDup names → StronglySorted longer names → Forall (λ n, lk w n = Some dir_ino) names →
       (∀ n m, n ∈ names → below n m → is_Some (lk w m) → m ∈ names) → b = true)).
Proof.
  revert w. induction names as [|n names IH]; intros w Hwf Hall; cbn [while_success].
  { exists true, w. by split_and!. }
  apply Forall_cons in Hall as [HP Hall].
  destruct (sys_rmdir_spec root n w Hwf) as (rc & w1 & H1 & Hdel & Hwf1 & Hgone & Hq).
  rewrite (io_bind_eq _ _ _ _ _ H1). assert (deleted P w w1) as HdelP.
  { eapply deleted_weaken; [|exact Hdel]. by intros ? <-. }
  case_decide as Hrc.
  - destruct (IH w1 Hwf1 Hall) as (b & w2 & H2 & Hdel2 & Hwf2 & Hgone2 & Hq2).
    exists b, w2. split_and!; [done|by etrans|done| |].
    + intros Hb. constructor; [|auto]. intros m Hm. eapply deleted_None; [exact Hdel2|auto].
    + intros Hw. destruct (Hq Hw) as [Hw1 _]. destruct (Hq2 Hw1) as [Hw2 Hb]. split; [done|].
      intros [Hnn Hnd]%NoDup_cons [Hss _]%StronglySorted_inv [_ Hex]%Forall_cons Hcl. apply Hb; [done..| |].
      * apply Forall_forall. intros m Hm. rewrite Forall_forall in Hex. destruct Hdel as (_&_&_&_&Hsame&_).
        rewrite Hsame; [auto|]. by intros <-.
      * intros k m Hk Hb' Hs. pose proof (deleted_Some _ _ _ _ Hdel Hs) as Hs0.
        assert (m ∈ n :: names) as [->|]%elem_of_cons by (apply (Hcl k); [by right|done..]); [|done].
        rewrite Hgone in Hs by (done || apply at_or_below_refl). by apply is_Some_None in Hs.
  - exists false, w1. split_and!; try done. intros Hw. destruct (Hq Hw) as [? Hrc0]. split; [done|].
    intros [Hnn _]%NoDup_cons [_ Hlen]%StronglySorted_inv [Hdir _]%Forall_cons Hcl. destruct Hrc. apply Hrc0; [done|].
    intros m Hm. apply eq_None_not_Some. intros Hs.
    assert (m ∈ n :: names) as [->|Hin]%elem_of_cons by (apply (Hcl n); [by left|done..]).
    + apply below_length in Hm. lia.
    + rewrite Forall_forall in Hlen. apply Hlen in Hin. apply below_length in Hm. unfold longer, zlen in Hin. lia.
Qed.

#[global] Instance longer_total : Total longer.
Proof. intros a b. unfold longer. lia. Qed.
#[global] Instance longer_trans : Transitive longer.
Proof. intros a b c. unfold longer. lia. Qed.

Lemma files_below_elem path w n :
  n ∈ files_below path w ↔ ∃ i, (n, i) ∈ w_dir w ∧ below path n ∧ i ≠ dir_ino.
Proof.
  unfold files_below. rewrite list_elem_of_fmap. setoid_rewrite list_elem_of_filter. split.
  - intros ([m i] & -> & [? ?] & ?). by exists i.
  - intros (i & ? & ? & ?). by exists (n, i).
Qed.

Lemma directories_below_elem path w n : n ∈ directories_below path w ↔ (n, dir_ino) ∈ w_dir w ∧ below path n.
Proof.
  unfold directories_below. rewrite merge_sort_Permutation, list_elem_of_fmap. setoid_rewrite list_elem_of_filter. split.
  - intros ([m i] & -> & [? Hi] & ?). cbn in *. by subst.
  - intros [? ?]. by exists (n, dir_ino).
Qed.

Lemma directories_nodup p w : NoDup (w_dir w).*1 → NoDup (directories_below p w ++ [p]).
Proof.
  intros Hnd. apply NoDup_app. split_and!.
  - unfold directories_below. rewrite merge_sort_Permutation.
    eapply sublist_NoDup; [exact Hnd|]. apply fmap_sublist, sublist_filter.
  - intros n [_ Hb]%directories_below_elem ->%list_elem_of_singleton. apply below_length in Hb. lia.
  - apply NoDup_singleton.
Qed.

Lemma directories_sorted p w : StronglySorted longer (directories_below p w ++ [p]).
Proof.
  apply StronglySorted_app_2; [|apply (StronglySorted_merge_sort longer); apply _|repeat constructor].
  intros a b [_ Hb]%directories_below_elem ->%list_elem_of_singleton. apply below_length in Hb. unfold longer, zlen. lia.
Qed.

(** ** The adaptor *)

Lemma sys_stat_eq p w :
  w_reads w = [] →
  sys_stat p w = Some (lk w p, match lk w p with Some _ => w | None => set_errno w ENOENT end).
Proof. intros Hr. unfold sys_stat, sys_open, next_read. rewrite Hr. by destruct (dir_lookup _ _). Qed.

(** Up to [errno]. *)
Definition same_disk (w w' : World) : Prop :=
  dir_only w w' ∧ w_dir w' = w_dir w ∧ w_writes w' = w_writes w.

#[global] Instance same_disk_preorder : PreOrder same_disk.
Proof. split; [done|]. intros w1 w2 w3 (?&?&?) (?&?&?). split_and!; [by etrans|congruence..]. Qed.

Lemma same_disk_wf root w w' : same_disk w w' → fs_wf root w → fs_wf root w'.
Proof. intros ((_&?&_)&?&_). by apply fs_wf_same. Qed.

Lemma same_disk_deleted P w w' : same_disk w w' → deleted P w w'.
Proof. intros (?&?&_). by apply deleted_unchanged. Qed.

Lemma sys_stat_same p w : w_reads w = [] → ∃ w', sys_stat p w = Some (lk w p, w') ∧ same_disk w w'.
Proof. intros Hr. rewrite sys_stat_eq by done. eexists. split; [done|]. by destruct (lk w p). Qed.

Lemma fs_directory_exists_spec p w :
  w_reads w = [] → ∃ w', fs_directory_exists p w = Some (bool_decide (lk w p = Some dir_ino), w') ∧ same_disk w w'.
Proof.
  intros Hr. unfold fs_directory_exists. destruct (sys_stat_same p w Hr) as (w' & Hs & ?).
  rewrite (io_bind_eq _ _ _ _ _ Hs). by exists w'.
Qed.

Lemma fs_path_exists_spec p w :
  w_reads w = [] → ∃ w', fs_path_exists p w = Some (bool_decide (is_Some (lk w p)), w') ∧ same_disk w w'.
Proof.
  intros Hr. unfold fs_path_exists. destruct (sys_stat_same p w Hr) as (w' & Hs & ?).
  rewrite (io_bind_eq _ _ _ _ _ Hs). by exists w'.
Qed.

(** The whole tree goes, or what is left is still a tree. *)
Lemma delete_tree_spec root p w :
  fs_wf root w → at_or_below root p → lk w p = Some dir_ino →
  ∃ b w', (success ← while_success sys_unlink (files_below p w);
           if (success : bool) then while_success sys_rmdir (directories_below p w ++ [p]) else mret false) w = Some (b, w') ∧
    deleted (at_or_below p) w w' ∧ fs_wf root w' ∧ (b = true → ∀ n, at_or_below p n → lk w' n = None) ∧
    (w_writes w = [] → b = true ∧ w_writes w' = []).
Proof.
  intros Hwf Hroot Hp. pose proof Hwf as (Hnd & _ & _ & Ht).
  assert (∀ n i, n ∈ files_below p w → lk w n = Some i → i ≠ dir_ino) as Hfile.
  { intros n i (j & Hin & _ & Hj)%files_below_elem. apply dir_lookup_elem in Hin; [|done]. congruence. }
  destruct (while_success_unlink root (λ n, n ∈ files_below p w) (files_below p w) w Hwf)
    as (b1 & w1 & H1 & Hdel & Hwf1 & Hg1 & Hq1).
  { apply Forall_forall. intros n Hn. split; [done|]. intros Hc. by apply (Hfile n) in Hc. }
  rewrite (io_bind_eq _ _ _ _ _ H1).
  assert (deleted (at_or_below p) w w1) as Hdel1.
  { eapply deleted_weaken; [|exact Hdel]. intros n (i & _ & Hb & _)%files_below_elem. by right. }
  assert (w_writes w = [] → b1 = true ∧ w_writes w1 = []) as Hb1.
  { intros Hw. destruct (Hq1 Hw) as [? Hb]. split; [|done]. apply Hb.
    - eapply sublist_NoDup; [exact Hnd|]. apply fmap_sublist, sublist_filter.
    - apply Forall_forall. intros n (i & Hin & _)%files_below_elem. exists i. by apply dir_lookup_elem. }
  destruct b1.
  2:{ exists false, w1. by split_and!. }
  destruct (while_success_rmdir root (at_or_below p) (directories_below p w ++ [p]) w1 Hwf1)
    as (b2 & w2 & H2 & Hdel2 & Hwf2 & Hg2 & Hq2).
  { apply Forall_app. split; [|by constructor; [left|]].
    apply Forall_forall. intros n [_ ?]%directories_below_elem. by right. }
  exists b2, w2. split_and!; [done|by etrans|done| |].
  - intros Hb n Hn. specialize (Hg2 Hb). apply Forall_app in Hg2 as [_ [Hg _]%Forall_cons]. auto.
  - intros Hw. destruct (Hb1 Hw) as [_ Hw1]. destruct (Hq2 Hw1) as [Hw2 Hb]. split; [|done]. apply Hb.
    + by apply directories_nodup.
    + by apply directories_sorted.
    + apply Forall_forall. intros n Hn. assert (lk w n = Some dir_ino) as Hl.
      { apply elem_of_app in Hn as [[Hin _]%directories_below_elem| ->%list_elem_of_singleton]; [|done].
        by apply dir_lookup_elem in Hin. }
      destruct Hdel as (_&_&_&_&Hsame&_). rewrite Hsame; [done|]. intros Hf. by apply (Hfile n dir_ino).
    + intros n m Hn Hm Hs. apply elem_of_app. left. apply directories_below_elem.
      assert (below p m) as Hpm.
      { apply elem_of_app in Hn as [[_ Hpn]%directories_below_elem| ->%list_elem_of_singleton]; [|done].
        eapply below_trans; [by right|done]. }
      split; [|done]. pose proof (deleted_Some _ _ _ _ Hdel Hs) as [i Hi]. apply dir_lookup_elem in Hi; [|done].
      destruct (decide (i = dir_ino)) as [->|Hne]; [done|]. specialize (Hg1 eq_refl).
      rewrite Forall_forall in Hg1. rewrite Hg1 in Hs by (apply files_below_elem; eauto). by apply is_Some_None in Hs.
Qed.

Lemma fs_delete_file_spec root p recursive w :
  fs_wf root w → w_reads w = [] → at_or_below root p →
  ∃ b w', fs_delete_file p recursive w = Some (b, w') ∧ deleted (at_or_below p) w w' ∧ fs_wf root w' ∧
    (b = true → ∀ n, at_or_below p n → lk w' n = None) ∧
    (w_writes w = [] → w_writes w' = [] ∧ (recursive = true ∨ lk w p ≠ Some dir_ino → b = true)).
Proof.
  intros Hwf Hr Hroot. unfold fs_delete_file. destruct (sys_stat_same p w Hr) as (w0 & Hs & Hsame).
  assert (lk w0 p = lk w p) as Hl0 by (destruct Hsame as (_ & -> & _); done).
  pose proof (same_disk_wf root _ _ Hsame Hwf) as Hwf0. pose proof (same_disk_deleted (at_or_below p) _ _ Hsame) as Hdel0.
  assert (w_writes w0 = w_writes w) as Hww by apply Hsame.
  rewrite sys_stat_eq in Hs by done. injection Hs as Hs. rewrite (io_bind_eq _ _ _ _ _ (sys_stat_eq p w Hr)), Hs.
  destruct (lk w p) as [i|] eqn:Hp.
  - destruct (decide (i ≠ dir_ino)) as [Hi|Hi].
    { destruct (sys_unlink_spec root p w0 Hwf0) as (rc & w' & H1 & Hdel & Hwf' & Hg & Hq); [congruence|].
      rewrite (io_bind_eq _ _ _ _ _ H1). eexists _, w'. split; [done|].
      assert (deleted (at_or_below p) w0 w') by (eapply deleted_weaken; [|exact Hdel]; intros ? <-; by left).
      split_and!; [by etrans|done| |].
      - intros Hb n [->|Hn]; [apply Hg; by apply bool_decide_eq_true in Hb|].
        eapply deleted_None; [exact Hdel|]. apply eq_None_not_Some. intros Hsn.
        destruct Hwf0 as (_&_&_&Ht). rewrite (Ht p n) in Hl0 by done. congruence.
      - intros Hw. rewrite <-Hww in Hw. destruct (Hq Hw) as [? Hrc]. split; [done|]. intros _.
        apply bool_decide_eq_true, Hrc. by rewrite Hl0. }
    apply dec_stable in Hi. subst i. destruct recursive; cbn [negb].
    + destruct (delete_tree_spec root p w0 Hwf0 Hroot Hl0) as (b & w' & H1 & Hdel & Hwf' & Hg & Hq). exists b, w'.
      split; [exact H1|]. split_and!; [by etrans|done..|]. intros Hw. rewrite <-Hww in Hw. by destruct (Hq Hw).
    + destruct (sys_rmdir_spec root p w0 Hwf0) as (rc & w' & H1 & Hdel & Hwf' & Hg & Hq).
      rewrite (io_bind_eq _ _ _ _ _ H1). eexists _, w'. split; [done|].
      assert (deleted (at_or_below p) w0 w') by (eapply deleted_weaken; [|exact Hdel]; intros ? <-; by left).
      split_and!; [by etrans|done| |].
      * intros Hb%bool_decide_eq_true. by apply Hg.
      * intros Hw. rewrite <-Hww in Hw. destruct (Hq Hw). split; [done|]. by intros [?|?].
  - subst w0. eexists _, _. split; [reflexivity|]. split_and!; [done|done| |done].
    intros _ n [->|Hn]; [done|]. apply eq_None_not_Some. intros Hsn.
    destruct Hwf0 as (_&_&_&Ht). by rewrite (Ht p n) in Hl0.
Qed.

(** ** Saving a message in a directory *)

(** Names outside [P] keep their file and its content. *)
Definition outside (P : list Z → Prop) (w w' : World) : Prop :=
  w_reads w' = w_reads w ∧ w_next w ≤ w_next w' ∧
  (∀ n, ¬ P n → lk w' n = lk w n) ∧ (∀ n i, ¬ P n → lk w n = Some i → w_content w' i = w_content w i).

#[global] Instance outside_preorder P : PreOrder (outside P).
Proof.
  split; [intros w; by split_and!|]. intros w1 w2 w3 (H1 & H2 & H3 & H4) (G1 & G2 & G3 & G4).
  split_and!; [congruence|lia|..].
  - intros n Hn. by rewrite G3, H3.
  - intros n i Hn Hi. rewrite (G4 n), (H4 n); try done. by rewrite H3.
Qed.

Lemma outside_weaken (P Q : list Z → Prop) w w' : (∀ n, P n → Q n) → outside P w w' → outside Q w w'.
Proof. intros HPQ (?&?&H3&H4). split_and!; [done..| |]; intros; eauto. Qed.

Lemma deleted_outside P w w' : deleted P w w' → outside P w w'.
Proof.
  intros (?&?&Hf&_&H5&_). split_and!; [done|lia|done|]. intros. unfold w_content. by rewrite Hf.
Qed.

Lemma outside_lookup_file P w w' n : outside P w w' → ¬ P n → lookup_file w' n = lookup_file w n.
Proof.
  intros (_ & _ & H3 & H4) Hn. unfold lookup_file. rewrite H3 by done. destruct (lk w n) as [i|] eqn:E; [|done].
  cbn. by rewrite (H4 n).
Qed.

(** The steps before the rename touch the temporary file only. *)
Definition tmp_frame (tmp : list Z) (w w' : World) : Prop :=
  w_reads w' = w_reads w ∧ w_next w ≤ w_next w' ∧ (∀ n, n ≠ tmp → lk w' n = lk w n) ∧
  (∀ i, i < w_next w → lk w tmp ≠ Some i → w_content w' i = w_content w i) ∧
  (∀ i, lk w' tmp = Some i → lk w tmp = Some i ∨ w_next w ≤ i < w_next w') ∧
  (NoDup (w_dir w).*1 → NoDup (w_dir w').*1) ∧ (w_writes w = [] → w_writes w' = []).

#[global] Instance tmp_frame_preorder tmp : PreOrder (tmp_frame tmp).
Proof.
  split; [intros w; split_and!; naive_solver|].
  intros w1 w2 w3 (H1 & H2 & H3 & H4 & H5 & H6 & H7) (G1 & G2 & G3 & G4 & G5 & G6 & G7).
  split_and!; [congruence|lia|..|auto|auto].
  - intros n Hn. by rewrite G3, H3.
  - intros i Hi Ht. rewrite G4, H4; [done..|lia|]. intros Hc. destruct (H5 i Hc); [done|lia].
  - intros i Hi. destruct (G5 i Hi) as [Hi'|?]; [|right; lia]. destruct (H5 i Hi'); [by left|right; lia].
Qed.

Lemma only_file_tmp tmp ino w w' :
  only_file ino w w' → lk w tmp = Some ino → (w_writes w = [] → w_writes w' = []) → tmp_frame tmp w w'.
Proof.
  intros (Hd & Hn & Hr & Hc) Ht Hw. unfold tmp_frame. rewrite Hd, Hn. split_and!; [done|lia|done| |auto..].
  intros i _ Hi. apply Hc. by intros ->.
Qed.

Lemma sys_create_tmp tmp w :
  ∃ r w', sys_create tmp w = Some (r, w') ∧ tmp_frame tmp w w' ∧ lk w' tmp = (match r with Some ino => Some ino | None => lk w tmp end) ∧
    match r with Some ino => w_content w' ino = [] | None => w_writes w ≠ [] end.
Proof.
  unfold sys_create. destruct (next_write w) as [r w1] eqn:E. apply next_write_same in E as (Hd & Hn & Hf & Hr & Hq).
  assert (tmp_frame tmp w w1) as H1.
  { unfold tmp_frame, w_content. rewrite Hd, Hn, Hf. split_and!; [done|lia|done|done|auto|done|]. intros Hw. by apply Hq. }
  assert (∃ ino w', match dir_lookup (w_dir w1) tmp with
      | Some ino => Some (Some ino, set_files w1 (<[ino:=[]]> (w_files w1)))
      | None => Some (Some (w_next w1), mkWorld (<[w_next w1:=[]]> (w_files w1)) (w_dir w1 ++ [(tmp, w_next w1)])
          (w_next w1 + 1) (w_errno w1) (w_reads w1) (w_writes w1))
      end = Some (Some ino, w') ∧ tmp_frame tmp w1 w' ∧ lk w' tmp = Some ino ∧ w_content w' ino = []) as (ino & w' & H2 & H3 & H4 & H5).
  { destruct (dir_lookup (w_dir w1) tmp) as [ino|] eqn:Et; eexists _, _; (split; [done|]).
    - split_and!; [|done|apply w_content_insert]. split_and!; try done; [|auto..].
      intros i _ Hi. apply w_content_insert_ne. congruence.
    - split_and!; cbn [w_dir w_next].
      + split_and!; cbn [w_dir w_next w_reads w_writes]; try done; [lia|..].
        * intros n Hne. rewrite dir_lookup_app, decide_False by done. by destruct (dir_lookup (w_dir w1) n).
        * intros i Hi _. unfold w_content. cbn. by rewrite lookup_insert_ne by lia.
        * intros i. rewrite dir_lookup_app, Et, decide_True by done. intros [= <-]. right. lia.
        * intros Hnd. rewrite fmap_app. apply NoDup_app. split_and!; [done| |apply NoDup_singleton].
          intros n Hin ->%list_elem_of_singleton. by apply lookup_None_elem in Et.
      + by rewrite dir_lookup_app, Et, decide_True.
      + unfold w_content. cbn. by rewrite lookup_insert_eq. }
  destruct r as [|k|e]; [exists (Some ino), w'; split_and!; [done|by etrans|done..]..|].
  exists None, (set_errno w1 e). split_and!; [done|done|cbn; congruence|]. intros Hw. by destruct (Hq Hw).
Qed.

Lemma pwrite_loop_total fuel ino off d w :
  (S (S (length (w_writes w))) ≤ fuel)%nat →
  ∃ b w', pwrite_loop fuel ino off d w = Some (b, w') ∧ (w_writes w = [] → b = true ∧ w_writes w' = []).
Proof.
  revert off d w. induction fuel as [|fuel IH]; intros off d w Hf; [lia|]. cbn [pwrite_loop].
  case_decide as Hd; [|by exists true, w]. unfold sys_pwrite at 1, mbind, io_bind.
  unfold next_write. destruct (w_writes w) as [|r rs] eqn:Ew.
  - destruct fuel as [|fuel]; [lia|]. cbn [pwrite_loop]. rewrite decide_False; [eauto|].
    by rewrite drop_ge by (unfold zlen; lia).
  - cbn in Hf. destruct r as [|k|e]; cbn [w_writes w_errno set_files set_errno get_errno mret io_ret].
    1,2: edestruct IH as (b & w' & -> & _); [cbn; lia|by exists b, w'].
    destruct (decide (e = EINTR)); [|by eexists _, _]. edestruct IH as (b & w' & -> & _); [cbn; lia|by exists b, w'].
Qed.

Lemma file_pwrite_tmp tmp ino d w off :
  off = zlen (w_content w ino) → lk w tmp = Some ino →
  ∃ n w', file_pwrite d ino off w = Some (n, w') ∧ tmp_frame tmp w w' ∧ lk w' tmp = Some ino ∧
    (n = zlen d → w_content w' ino = w_content w ino ++ d) ∧ (w_writes w = [] → n = zlen d).
Proof.
  intros Hoff Ht. destruct (pwrite_loop_total (S (S (length (w_writes w)))) ino off d w) as (b & w' & Hl & Hq); [lia|].
  assert (file_pwrite d ino off w = Some (if b then zlen d else -1, w')) as Hw.
  { unfold file_pwrite, mbind, io_bind. by rewrite Hl. }
  destruct (file_pwrite_only ino d w _ w' off Hoff Hw) as [Ho Hc].
  exists (if b then zlen d else -1), w'. split_and!; [done| | |done|].
  - eapply only_file_tmp; [done..|]. intros Hww. by apply Hq.
  - by destruct Ho as (-> & _).
  - intros Hww. by destruct (Hq Hww) as [-> _].
Qed.

Lemma below_file q dir f : ch_slash ∉ f → below q (path_join dir f) → at_or_below q dir.
Proof.
  intros Hf [r Hr]%below_join. unfold path_join in Hr. revert dir Hr. induction q as [|c q IH]; intros [|d dir] Hr; cbn in Hr.
  - by left.
  - injection Hr as -> Hr. right. apply below_join. by exists dir.
  - injection Hr as <- Hr. exfalso. apply Hf. rewrite Hr. apply elem_of_app. right. left.
  - injection Hr as -> Hr. destruct (IH dir Hr) as [->|[r' ->]%below_join]; [by left|].
    right. apply below_join. by exists r'.
Qed.

(** Names [N] that are no directories may come and go where their parents are. *)
Lemma tree_ok_update root (N : list Z → Prop) w w' :
  tree_ok root w → (∀ n, N n ∨ ¬ N n) → (∀ n, ¬ N n → lk w' n = lk w n) →
  (∀ c q, N c → at_or_below root q → below q c → lk w q = Some dir_ino ∧ ¬ N q) →
  (∀ c m, N c → at_or_below root c → below c m → ¬ N m ∧ lk w m = None) → tree_ok root w'.
Proof.
  intros Ht HN Hsame Hpar Hempty p m Hp Hm Hs. destruct (HN m) as [Nm|Nm].
  - destruct (Hpar m p) as [Hd Np]; [done..|]. by rewrite Hsame.
  - rewrite Hsame in Hs by done. destruct (HN p) as [Np|Np].
    + destruct (Hempty p m) as [_ Hnone]; [done..|]. rewrite Hnone in Hs. by apply is_Some_None in Hs.
    + rewrite Hsame by done. by apply (Ht p m).
Qed.

Lemma tree_ok_files root N dir w w' :
  tree_ok root w → at_or_below root dir → lk w dir = Some dir_ino →
  Forall (λ f, (ch_slash ∉ f) ∧ lk w (path_join dir f) ≠ Some dir_ino) N →
  (∀ n, (∀ f, f ∈ N → n ≠ path_join dir f) → lk w' n = lk w n) → tree_ok root w'.
Proof.
  intros Ht Hroot Hdir HN Hsame. rewrite Forall_forall in HN.
  assert (∀ q f, f ∈ N → at_or_below root q → below q (path_join dir f) → lk w q = Some dir_ino) as Hq.
  { intros q f Hf Hq Hb. destruct (HN f Hf) as [Hs _]. destruct (below_file q dir f Hs Hb) as [->|Hqd]; [done|].
    by apply (Ht q dir). }
  apply (tree_ok_update root (λ n, ∃ f, f ∈ N ∧ n = path_join dir f) w).
  - done.
  - intros n. destruct (decide (Exists (λ f, n = path_join dir f) N)) as [He|He]; rewrite Exists_exists in He; eauto.
  - intros n Hn. apply Hsame. intros f Hf ->. eauto.
  - intros c q (f & Hf & ->) Hqr Hb. pose proof (Hq q f Hf Hqr Hb). split; [done|].
    intros (g & Hg & ->). by destruct (HN g Hg).
  - intros c m (f & Hf & ->) Hc Hm. destruct (HN f Hf) as [_ Hnd]. split.
    + intros (g & Hg & ->). apply Hnd. by apply (Hq _ g).
    + apply eq_None_not_Some. intros Hs. apply Hnd. by apply (Ht _ m).
Qed.

(** No other name has the file [n]. *)
Definition unshared (w : World) (n : list Z) : Prop := ∀ m i, lk w n = Some i → lk w m = Some i → m = n.

Lemma sys_rename_tmp (path tmp : list Z) w ino :
  tmp ≠ path → lk w tmp = Some ino → NoDup (w_dir w).*1 →
  ∃ rc w', sys_rename tmp path w = Some (rc, w') ∧ dir_only w w' ∧ NoDup (w_dir w').*1 ∧ (w_writes w = [] → w_writes w' = []) ∧
    (rc = 0 ∧ (∀ n, lk w' n = if decide (path = n) then Some ino else if decide (tmp = n) then None else lk w n) ∨
     rc = -1 ∧ w_dir w' = w_dir w ∧ w_writes w ≠ []).
Proof.
  intros Hne Ht Hnd. unfold sys_rename. destruct (next_write w) as [r w1] eqn:E.
  apply next_write_same in E as (Hd & Hn & Hf & Hr & Hq). rewrite Hd, Ht.
  set (d := dir_remove (dir_remove (w_dir w) tmp) path ++ [(path, ino)]).
  assert (∀ n, dir_lookup d n = if decide (path = n) then Some ino else if decide (tmp = n) then None else lk w n) as Hl.
  { intros n. unfold d. rewrite dir_lookup_app, !dir_lookup_remove. repeat case_decide; try done. by destruct (lk w n). }
  assert (NoDup d.*1) as Hnd'.
  { unfold d. rewrite fmap_app. apply NoDup_app. split_and!; [| |apply NoDup_singleton].
    - eapply sublist_NoDup; [exact Hnd|]. apply fmap_sublist. unfold dir_remove. etrans; apply sublist_filter.
    - intros n Hin ->%list_elem_of_singleton. cbn in Hin. 
      assert (dir_lookup (dir_remove (dir_remove (w_dir w) tmp) path) path = None) as Hnone%lookup_None_elem; [|done].
      by rewrite dir_lookup_remove, decide_True. }
  assert (w_writes w = [] → w_writes w1 = []) by (intros Hw; by apply Hq).
  assert (dir_only w (set_dir w1 d)) as Hdo by (by split_and!).
  destruct r as [|k|e]; [exists 0; eexists; split; [done|]; split_and!; auto..|].
  exists (-1), (set_errno w1 e). split; [done|]. split_and!; [by split_and!|cbn; by rewrite Hd|done|].
  right. split_and!; [done..|]. intros Hw. by destruct (Hq Hw).
Qed.

(** A save wrote the temporary file and then renamed it, or failed. *)
Definition save_outcome (path : list Z) (w : World) (rc : Z) (w' : World) : Prop :=
  let tmp := path ++ tmp_suffix in
  NoDup (w_dir w').*1 ∧ (w_writes w = [] → rc = 0 ∧ w_writes w' = []) ∧
  ∃ w1, tmp_frame tmp w w1 ∧ dir_only w1 w' ∧
    (rc = 0 ∧ is_Some (lk w1 tmp) ∧
       (∀ n, lk w' n = if decide (path = n) then lk w1 tmp else if decide (tmp = n) then None else lk w1 n) ∨
     rc = -1 ∧ w_dir w' = w_dir w1).

Lemma save_outcome_fail path w w1 :
  NoDup (w_dir w).*1 → tmp_frame (path ++ tmp_suffix) w w1 → w_writes w ≠ [] → save_outcome path w (-1) w1.
Proof. intros ? F ?. split_and!; [by apply F|done|]. exists w1. split_and!; [done|done|by right]. Qed.

Lemma pb_file_save_outcome path msg sync w :
  NoDup (w_dir w).*1 → ∃ rc w', pb_file_save path msg sync w = Some (rc, w') ∧ save_outcome path w rc w'.
Proof.
  intros Hnd. set (tmp := path ++ tmp_suffix). unfold pb_file_save. fold tmp.
  destruct (sys_create_tmp tmp w) as (r & w1 & H1 & F1 & L1 & C1). rewrite (io_bind_eq _ _ _ _ _ H1).
  destruct r as [ino|]; [|eexists _, _; split; [done|by apply save_outcome_fail]].
  generalize (store_le_length 4 (HostToNet32 (u32 (zlen msg)))). generalize (store_le 4 (HostToNet32 (u32 (zlen msg)))).
  intros hdr Hhdr. assert (zlen hdr = 4) as Hz by (unfold zlen; by rewrite Hhdr).
  destruct (file_pwrite_tmp tmp ino hdr w1 0) as (n2 & w2 & H2 & F2 & L2 & C2 & Q2); [by rewrite C1|done|].
  rewrite (io_bind_eq _ _ _ _ _ H2). assert (tmp_frame tmp w w2) as G2 by (by etrans).
  destruct (decide (4 ≠ n2)) as [Hn2|Hn2].
  { eexists _, _. split; [done|]. apply save_outcome_fail; [done..|]. intros Hw. apply Hn2. rewrite Q2; [done|]. by apply F1. }
  rewrite C1 in C2. specialize (C2 ltac:(lia)). cbn [app] in C2.
  destruct (file_pwrite_tmp tmp ino msg w2 4) as (n3 & w3 & H3 & F3 & L3 & C3 & Q3); [by rewrite C2|done|].
  rewrite (io_bind_eq _ _ _ _ _ H3). assert (tmp_frame tmp w w3) as G3 by (by etrans).
  case_decide as Hn3.
  { eexists _, _. split; [done|]. apply save_outcome_fail; [done..|]. intros Hw. apply Hn3. rewrite Q3; [done|]. by apply G2. }
  assert (∃ rc w4, (if sync then raft_fsync ino else mret 0) w3 = Some (rc, w4) ∧ tmp_frame tmp w3 w4 ∧ lk w4 tmp = Some ino ∧
    (rc ≠ 0 → w_writes w3 ≠ [])) as (rc4 & w4 & H4 & F4 & L4 & Q4).
  { destruct sync; [|by exists 0, w3]. unfold raft_fsync. destruct (next_write w3) as [o w5] eqn:E5.
    apply next_write_same in E5 as (Hd & Hn & Hf & Hr & Hq).
    assert (tmp_frame tmp w3 w5) as F5.
    { unfold tmp_frame, w_content. rewrite Hd, Hn, Hf. split_and!; [done|lia|done|done|auto|done|]. intros Hw. by apply Hq. }
    destruct o as [|k|e]; eexists _, _; (split; [done|]); (split; [exact F5|]); cbn [w_dir set_errno]; rewrite ?Hd; split; try done.
    intros _ Hw. by destruct (Hq Hw). }
  rewrite (io_bind_eq _ _ _ _ _ H4). assert (tmp_frame tmp w w4) as G4 by (by etrans).
  case_decide as Hrc4.
  { eexists _, _. split; [done|]. apply save_outcome_fail; [done..|]. intros Hw. apply Q4; [done|]. by apply G3. }
  destruct (sys_rename_tmp path tmp w4 ino (tmp_path_ne path) L4) as (rc & w5 & H5 & Hdo & Hnd5 & Q5 & Hcase); [by apply G4|].
  rewrite (io_bind_eq _ _ _ _ _ H5). destruct Hcase as [[-> Hl]|(-> & Hd & Hw5)].
  - eexists _, _. split; [done|]. split_and!; [done|intros Hw; split; [done|]; by apply Q5, G4|].
    exists w4. split_and!; [done|done|]. left. fold tmp. rewrite L4. split_and!; [done|eauto|done].
  - eexists _, _. split; [done|]. split_and!; [done|intros Hw; by destruct Hw5; apply G4|].
    exists w4. split_and!; [done|done|by right].
Qed.

Lemma path_join_tmp dir f : path_join dir (f ++ tmp_suffix) = path_join dir f ++ tmp_suffix.
Proof. unfold path_join. by rewrite <-app_assoc. Qed.

Section save_in_directory.
Context (root dir f : list Z) (w : World).
Context (Hwf : fs_wf root w) (Hroot : at_or_below root dir) (Hdir : lk w dir = Some dir_ino) (Hf : ch_slash ∉ f).
Local Abbreviation path := (path_join dir f).
Local Abbreviation tmp := (path_join dir f ++ tmp_suffix).
Context (Hpath : lk w path ≠ Some dir_ino) (Htmp : lk w tmp ≠ Some dir_ino) (Hshare : unshared w tmp).

Lemma save_fs_ok : fs_ok path w.
Proof using Hwf Hpath Htmp Hshare.
  destruct Hwf as (_ & Hn & Hi & _). split.
  - intros i Hp. destruct (Hi _ _ Hp) as [->|?]; [done|]. split; [lia|]. intros Ht.
    pose proof (Hshare _ _ Ht Hp). by apply (tmp_path_ne path).
  - intros j Ht. destruct (Hi _ _ Ht) as [->|?]; [done|lia].
Qed.

Lemma tmp_frame_outside w1 : tmp_frame tmp w w1 → outside (eq tmp) w w1.
Proof using Hwf Hshare.
  destruct Hwf as (_ & Hn & Hi & _). intros (Hr & Hnx & Hl & Hc & _). split_and!; [done|done|auto|].
  intros n i Hne Hni. apply Hc; [destruct (Hi _ _ Hni) as [->|?]; unfold dir_ino in *; lia|].
  intros Ht. by rewrite (Hshare _ _ Ht Hni) in Hne.
Qed.

Lemma save_inodes w1 i : tmp_frame tmp w w1 → lk w1 tmp = Some i → 0 ≤ i < w_next w1 ∧ (∀ m, lk w m = Some i → m = tmp).
Proof using Hwf Htmp Hshare.
  destruct Hwf as (_ & Hn & Hi & _). intros (_ & Hnx & _ & _ & Ht & _) Hl. destruct (Ht i Hl) as [Hold|Hnew].
  - split; [|intros m Hm; by eapply Hshare]. destruct (Hi _ _ Hold) as [->|?]; [done|lia].
  - split; [lia|]. intros m Hm. destruct (Hi _ _ Hm) as [->|?]; unfold dir_ino in *; lia.
Qed.

(** A save changes the file and its temporary only, replaces the file or
    leaves it as it is, and leaves a directory in which it can be repeated. *)
Lemma pb_file_save_spec msg sync :
  ∃ rc w', pb_file_save path msg sync w = Some (rc, w') ∧ fs_wf root w' ∧ outside (λ n, n = path ∨ n = tmp) w w' ∧
    lookup_file w' path = (if decide (rc = 0) then Some (pb_file_bytes msg) else lookup_file w path) ∧
    (rc = 0 ∧ lk w' tmp = None ∧ unshared w' path ∨ rc = -1 ∧ w_writes w ≠ []) ∧
    lk w' path ≠ Some dir_ino ∧ lk w' tmp ≠ Some dir_ino ∧ unshared w' tmp ∧ (w_writes w = [] → w_writes w' = []).
Proof using Hwf Hroot Hdir Hf Hpath Htmp Hshare.
  destruct (pb_file_save_outcome path msg sync w) as (rc & w' & H1 & Hnd' & Hq & w1 & F1 & Hdo & Hcase); [apply Hwf|].
  pose proof (pb_file_save_atomic path msg sync w rc w' save_fs_ok H1) as (_ & _ & Hlook).
  pose proof (tmp_frame_outside w1 F1) as (Hr1 & Hn1 & Ho1 & Hc1). destruct Hdo as (Hr' & Hn' & Hf').
  pose proof Hwf as (Hnd & Hn0 & Hi0 & Ht0). pose proof (tmp_path_ne path) as Hne.
  assert (∀ n, n ≠ path → n ≠ tmp → lk w' n = lk w n) as Hother.
  { intros n Hn Ht. destruct Hcase as [(_ & _ & ->)|[_ ->]]; [|by apply Ho1].
    rewrite !decide_False by congruence. by apply Ho1. }
  assert (∀ i, lk w' path = Some i → 0 ≤ i < w_next w') as Hpi.
  { intros i. rewrite Hn'. destruct Hcase as [(_ & _ & ->)|[_ ->]].
    - rewrite decide_True by done. intros Hi. by apply (save_inodes w1 i F1).
    - rewrite Ho1 by done. intros Hi. destruct (Hi0 _ _ Hi) as [->|?]; [done|lia]. }
  assert (∀ i, lk w' tmp = Some i → 0 ≤ i < w_next w' ∧ ∀ m, lk w m = Some i → m = tmp) as Hti.
  { intros i. rewrite Hn'. destruct Hcase as [(_ & _ & ->)|[_ ->]].
    - by rewrite decide_False, decide_True by congruence.
    - intros Hi. by apply (save_inodes w1 i F1). }
  exists rc, w'. split; [done|]. split_and!.
  - split_and!; [done|lia| |].
    + intros n i Hni. destruct (decide (n = path)) as [->|Hp]; [right; auto|].
      destruct (decide (n = tmp)) as [->|Ht]; [right; by apply Hti|]. rewrite Hother in Hni by done.
      destruct (Hi0 _ _ Hni); [by left|right; lia].
    + apply (tree_ok_files root [f; f ++ tmp_suffix] dir w); [done..| |].
      * rewrite !Forall_cons, path_join_tmp. split_and!; [done..| |done|by constructor].
        intros [?|Hs]%elem_of_app; [done|]. by vm_compute in Hs; set_solver.
      * intros n Hn. apply Hother; [apply Hn; by left|]. rewrite <-path_join_tmp. apply Hn. right. left.
  - split_and!; [congruence|lia|intros n Hn; apply Hother; naive_solver|].
    intros n i Hn Hi. unfold w_content. rewrite Hf'. apply (Hc1 n); [naive_solver|done].
  - done.
  - destruct Hcase as [(-> & _ & Hl)|(-> & _)].
    + left. split_and!; [done|by rewrite Hl, decide_False, decide_True by congruence|].
      intros m i Hp Hm. destruct (decide (m = path)) as [|Hmp]; [done|]. exfalso.
      rewrite Hl, decide_True in Hp by done. destruct (decide (m = tmp)) as [->|Hmt].
      * rewrite Hl, decide_False, decide_True in Hm by congruence. done.
      * rewrite Hother in Hm by done. by apply Hmt, (save_inodes w1 i F1).
    + right. split; [done|]. intros Hw. by destruct (Hq Hw).
  - intros Hp. apply Hpi in Hp. unfold dir_ino in Hp. lia.
  - intros Hp. apply Hti in Hp. unfold dir_ino in Hp. lia.
  - intros m i Ht Hm. destruct (Hti i Ht) as [_ Hu]. destruct (decide (m = tmp)) as [|Hmt]; [done|].
    destruct (decide (m = path)) as [->|Hmp]; [|rewrite Hother in Hm by done; auto].
    destruct Hcase as [(_ & _ & Hl)|[_ Hd]]; [by rewrite Hl, decide_False, decide_True in Ht by congruence|].
    apply Hu. rewrite Hd in Hm. by rewrite Ho1 in Hm.
  - intros Hw. by destruct (Hq Hw).
Qed.
End save_in_directory.

(** ** Renaming a directory *)

Lemma at_or_below_split p n : at_or_below p n ↔ ∃ r, n = p ++ r ∧ (r = [] ∨ head r = Some ch_slash).
Proof.
  split.
  - intros [->|[r ->]%below_join]; [exists []; rewrite app_nil_r; auto|exists (ch_slash :: r); auto].
  - intros (r & -> & [->|Hr]); [left; by rewrite app_nil_r|]. destruct r as [|c r]; [done|]. injection Hr as ->.
    right. apply below_path_join.
Qed.

(** Where the subtree at [p] goes when it is called [q]. *)
Definition moved (p q n : list Z) : list Z := q ++ drop (length p) n.

Lemma moved_app p q r : moved p q (p ++ r) = q ++ r.
Proof. unfold moved. by rewrite drop_app_length. Qed.

Lemma moved_at_or_below p q n : at_or_below p n → at_or_below q (moved p q n).
Proof. intros (r & -> & Hr)%at_or_below_split. rewrite moved_app. apply at_or_below_split. eauto. Qed.

Lemma moved_moved p q n : at_or_below p n → moved q p (moved p q n) = n.
Proof. intros (r & -> & Hr)%at_or_below_split. by rewrite !moved_app. Qed.

Lemma moved_below p q n m : at_or_below p n → below n m → below (moved p q n) (moved p q m).
Proof.
  intros (r & -> & Hr)%at_or_below_split [s ->]%below_join. unfold path_join. rewrite <-app_assoc, !moved_app, app_assoc.
  apply below_path_join.
Qed.

(** Two directories above one name are one above the other. *)
Lemma above_comparable p q n : below p n → at_or_below q n → at_or_below q p ∨ below p q.
Proof.
  intros [r ->]%below_join (s & Heq & Hs)%at_or_below_split. unfold path_join in Heq.
  apply app_eq_inv in Heq as [(k & -> & ->)|(k & -> & Hk)].
  - left. apply at_or_below_split. exists k. split; [done|]. destruct k as [|c k]; [by left|right].
    cbn in Hs. by destruct Hs.
  - destruct k as [|c k]; [left; rewrite app_nil_r; apply at_or_below_refl|]. injection Hk as <- _. right. apply below_path_join.
Qed.

Lemma at_or_below_antisym p q : at_or_below p q → at_or_below q p → p = q.
Proof. intros [|H1%below_length] [|H2%below_length]; [done..|]. lia. Qed.

Section rename_directory.
Context (root a b : list Z) (w : World).
Local Abbreviation old := (path_join root a).
Local Abbreviation new := (path_join root b).
Context (Hwf : fs_wf root w) (Ha : ch_slash ∉ a) (Hb : ch_slash ∉ b) (Hab : a ≠ b).
Context (Hroot : lk w root = Some dir_ino) (Hold : lk w old = Some dir_ino).
Context (Hnew : ∀ n, at_or_below new n → lk w n = None).

Definition lookup_renamed (n : list Z) : option Z :=
  if decide (at_or_below new n) then lk w (moved new old n)
  else if decide (at_or_below old n) then None else lk w n.

Lemma old_new_disjoint n : at_or_below old n → ¬ at_or_below new n.
Proof using Ha Hb Hab. intros H1 H2. apply Hab. by eapply path_join_below_inj. Qed.

Lemma renamed_elem n i :
  (n, i) ∈ prod_map (renamed old new) id <$> dir_remove (w_dir w) new ↔ lookup_renamed n = Some i.
Proof using Hwf Ha Hb Hab Hnew.
  destruct Hwf as (Hnd & _). unfold lookup_renamed. rewrite list_elem_of_fmap. split.
  - intros ([m j] & [= -> ->] & Hm). unfold dir_remove in Hm. apply list_elem_of_filter in Hm as [_ Hm].
    apply dir_lookup_elem in Hm; [|done]. unfold renamed. destruct (decide (at_or_below old m)) as [Hom|Hom].
    + fold (moved old new m). rewrite decide_True by (by apply moved_at_or_below). by rewrite moved_moved.
    + rewrite decide_False; [by rewrite decide_False|]. intros Hnm. rewrite Hnew in Hm by done. done.
  - assert (∀ m, lk w m = Some i → (m, i) ∈ dir_remove (w_dir w) new) as Hin.
    { intros m Hm. apply list_elem_of_filter. split; [|by apply dir_lookup_elem].
      cbn. intros ->. rewrite Hnew in Hm by apply at_or_below_refl. done. }
    destruct (decide (at_or_below new n)) as [Hn|Hn].
    + intros Hl. exists (moved new old n, i). split; [|by apply Hin]. cbn. f_equal. unfold renamed.
      rewrite decide_True by (by apply moved_at_or_below). fold (moved old new (moved new old n)). by rewrite moved_moved.
    + destruct (decide (at_or_below old n)) as [|Ho]; [done|]. intros Hl. exists (n, i). split; [|by apply Hin].
      cbn. f_equal. unfold renamed. by rewrite decide_False.
Qed.

Lemma renamed_nodup : NoDup (prod_map (renamed old new) id <$> dir_remove (w_dir w) new).*1.
Proof using Hwf Ha Hb Hab Hnew.
  destruct Hwf as (Hnd & _). rewrite <-list_fmap_compose. assert (NoDup (dir_remove (w_dir w) new).*1) as Hnd1.
  { eapply sublist_NoDup; [exact Hnd|]. apply fmap_sublist, sublist_filter. }
  assert (∀ e, e ∈ dir_remove (w_dir w) new → lk w e.1 = Some e.2) as Hl.
  { intros [m i] [_ Hm]%list_elem_of_filter. by apply dir_lookup_elem. }
  revert Hnd1 Hl. generalize (dir_remove (w_dir w) new). intros d. induction d as [|[m i] d IH]; [by constructor|].
  rewrite !fmap_cons. intros [Hm Hnd1]%NoDup_cons Hl. apply NoDup_cons. split; [|apply IH; [done|]; intros; apply Hl; by right].
  intros ([m' i'] & Heq & Hin)%list_elem_of_fmap. cbn in Heq. apply Hm, list_elem_of_fmap. exists (m', i'). split; [|done]. cbn.
  assert (∀ k j, (k, j) ∈ (m, i) :: d → ¬ at_or_below new k) as Hnn.
  { intros k j Hk Hc. apply Hl in Hk. cbn in Hk. by rewrite Hnew in Hk. }
  pose proof (Hnn m i (list_elem_of_here _ _)) as N1. pose proof (Hnn m' i' (list_elem_of_further _ _ _ Hin)) as N2.
  unfold renamed in Heq. fold (moved old new m) (moved old new m') in Heq.
  destruct (decide (at_or_below old m)) as [O1|O1], (decide (at_or_below old m')) as [O2|O2]; try done.
  - apply (f_equal (moved new old)) in Heq. by rewrite !moved_moved in Heq.
  - destruct N2. rewrite <-Heq. by apply moved_at_or_below.
  - destruct N1. rewrite Heq. by apply moved_at_or_below.
Qed.

Lemma renamed_wf w' :
  dir_only w w' → w_dir w' = prod_map (renamed old new) id <$> dir_remove (w_dir w) new →
  fs_wf root w' ∧ ∀ n, lk w' n = lookup_renamed n.
Proof using Hwf Ha Hb Hab Hnew Hroot Hold.
  intros (_ & Hn & _) Hd. pose proof renamed_nodup as Hnd'. rewrite <-Hd in Hnd'.
  assert (∀ n, lk w' n = lookup_renamed n) as Hl.
  { intros n. apply option_eq. intros i. rewrite dir_lookup_elem by done. rewrite Hd. apply renamed_elem. }
  split; [|done]. pose proof Hwf as (Hnd & Hn0 & Hi & Ht). split_and!; [done|lia| |].
  - intros n i. rewrite Hl, Hn. unfold lookup_renamed. repeat case_decide; [apply Hi|done|apply Hi].
  - intros p n Hp Hb' Hs. rewrite Hl in *. unfold lookup_renamed in *.
    destruct (decide (at_or_below new p)) as [Np|Np].
    + rewrite decide_True in Hs by (right; by eapply below_trans).
      apply (Ht _ (moved new old n)); [|by apply moved_below|done].
      eapply at_or_below_trans; [right; apply below_path_join|by apply (moved_at_or_below new old)].
    + destruct (decide (at_or_below new n)) as [Nn|Nn].
      { assert (p = root) as ->.
        { destruct (above_comparable p new n) as [?|Hbn]; [done..|].
          apply below_file in Hbn; [|done]. by apply at_or_below_antisym. }
        rewrite decide_False; [done|]. intros Ho. apply (path_join_ne root a).
        apply at_or_below_antisym; [done|]. right. apply below_path_join. }
      destruct (decide (at_or_below old n)) as [|On]; [by apply is_Some_None in Hs|].
      rewrite decide_False; [by apply (Ht p n)|]. intros Op. apply On. right. by eapply below_trans.
Qed.

Lemma fs_rename_spec :
  ∃ ok w', fs_rename old new w = Some (ok, w') ∧ fs_wf root w' ∧ dir_only w w' ∧
    (w_writes w = [] → ok = true ∧ w_writes w' = []) ∧
    (ok = true ∧ (∀ n, lk w' n = lookup_renamed n) ∨ ok = false ∧ w_dir w' = w_dir w).
Proof using Hwf Ha Hb Hab Hnew Hroot Hold.
  unfold fs_rename. rewrite decide_True by done. unfold sys_rename_dir, mbind, io_bind.
  edestruct sys_change_spec as (rc & w' & -> & Hdo & Hq & Hc). eexists _, w'. split; [reflexivity|].
  assert (¬ Exists (λ e, below new e.1) (w_dir w)) as Hex.
  { intros ([m i] & Hin & Hm)%Exists_exists. destruct Hwf as (Hnd & _). apply dir_lookup_elem in Hin; [|done].
    cbn in Hm. rewrite Hnew in Hin by (by right). done. }
  rewrite (decide_False (P := lk w old ≠ Some dir_ino)) in Hc by auto. rewrite (decide_False (P := Exists _ _)) in Hc by done.
  rewrite (decide_True (P := lk w new = None ∨ _)) in Hc by (left; apply Hnew, at_or_below_refl).
  destruct Hc as [(-> & Hd & He)|(-> & [= Hd])].
  - split_and!; [|done| |by right].
    + destruct Hdo as (_ & ? & _). by eapply fs_wf_same.
    + intros Hw. by destruct (He Hw).
  - destruct (renamed_wf w') as [? ?]; [done..|]. split_and!; [done|done|auto|by left].
Qed.
End rename_directory.

(** ** Creating and listing a directory *)

Lemma fs_create_directory_spec root p w :
  fs_wf root w → w_reads w = [] → (∀ q, at_or_below root q → below q p → lk w q = Some dir_ino) →
  ∃ ok w', fs_create_directory p w = Some (ok, w') ∧ fs_wf root w' ∧ dir_only w w' ∧
    (∀ n, n ≠ p → lk w' n = lk w n) ∧ (lk w' p = lk w p ∨ lk w p = None ∧ lk w' p = Some dir_ino) ∧
    (ok = true → lk w' p = Some dir_ino) ∧
    (w_writes w = [] → w_writes w' = [] ∧ (lk w p = None ∨ lk w p = Some dir_ino → ok = true)).
Proof.
  intros Hwf Hr Hpar. unfold fs_create_directory.
  destruct (fs_directory_exists_spec p w Hr) as (w1 & H1 & S1). rewrite (io_bind_eq _ _ _ _ _ H1).
  pose proof (same_disk_wf root _ _ S1 Hwf) as Hwf1. destruct S1 as (D1 & E1 & W1).
  case_bool_decide as Hp.
  { exists true, w1. split; [done|]. rewrite !E1. split_and!; try done; [by left|]. intros Hw. by rewrite W1. }
  unfold sys_mkdir. edestruct sys_change_spec as (rc & w2 & H2 & D2 & Q2 & C2). rewrite (io_bind_eq _ _ _ _ _ H2). rewrite E1 in C2.
  assert (dir_only w w2) as D12 by (by etrans). destruct C2 as [(-> & E2 & Hf)|(-> & E2)]; cbn [decide].
  - destruct (fs_directory_exists_spec p w2) as (w3 & H3 & S3); [by destruct D12 as (-> & _)|].
    destruct (decide (-1 = 0)) as [?|_]; [done|]. exists (bool_decide (lk w2 p = Some dir_ino)), w3. split; [exact H3|].
    destruct S3 as (D3 & E3 & W3). rewrite E3, E2. split_and!; try done.
    + eapply fs_wf_same; [..|exact Hwf]; [by rewrite E3, E2|]. destruct D12 as (_&Hn&_), D3 as (_&Hn3&_). lia.
    + by etrans.
    + by left.
    + by intros ?%bool_decide_eq_true.
    + intros Hw. rewrite W3. split; [apply Q2; by rewrite W1|]. intros [Hn|Hd]; [|by apply bool_decide_eq_true].
      destruct (Hf ltac:(by rewrite W1)) as [e He]. by rewrite Hn in He.
  - destruct (decide (0 = 0)) as [_|?]; [|done]. destruct (lk w p) as [i|] eqn:Ep; [done|]. injection E2 as E2.
    assert (∀ n, lk w2 n = if decide (p = n) then Some dir_ino else lk w n) as Hl.
    { intros n. rewrite <-E2, dir_lookup_app. case_decide as Hn; [subst; by rewrite Ep|by destruct (lk w n)]. }
    exists true, w2. split; [done|]. split_and!; try done.
    + destruct Hwf as (Hnd & Hn & Hi & Ht), D12 as (_ & Hn2 & _). split_and!; [|lia| |].
      * rewrite <-E2, fmap_app. apply NoDup_app. split_and!; [done| |apply NoDup_singleton].
        intros n Hin ->%list_elem_of_singleton. by apply lookup_None_elem in Ep.
      * intros n i. rewrite Hl, Hn2. case_decide; [intros [= <-]; by left|apply Hi].
      * intros q n Hq Hb Hs. rewrite !Hl in *. case_decide as Hn1; [subst n|].
        -- case_decide; [done|]. by apply Hpar.
        -- case_decide; [done|]. by apply (Ht q n).
    + intros n Hn. by rewrite Hl, decide_False.
    + right. by rewrite Hl, decide_True.
    + intros _. by rewrite Hl, decide_True.
    + intros Hw. split; [|done]. apply Q2. by rewrite W1.
Qed.

Lemma fs_directory_reader_spec root p w :
  fs_wf root w → w_reads w = [] → lk w p = Some dir_ino →
  ∃ names, fs_directory_reader p w = Some (Some names, w) ∧
    ∀ n, n ∈ names ↔ (ch_slash ∉ n) ∧ is_Some (lk w (path_join p n)).
Proof.
  intros (Hnd & _) Hr Hp. unfold fs_directory_reader, next_read. rewrite Hr, decide_False by auto.
  eexists. split; [done|]. intros n. rewrite list_elem_of_omap. split.
  - intros ([m i] & Hin & Hn). cbn in Hn. destruct (relative p m) as [r|] eqn:Er; [|done]. cbn in Hn.
    case_decide; [done|]. injection Hn as ->. apply relative_Some in Er as ->. split; [done|]. exists i. by apply dir_lookup_elem.
  - intros (Hn & i & Hi). exists (path_join p n, i). split; [by apply dir_lookup_elem|]. cbn.
    assert (relative p (path_join p n) = Some n) as -> by (by apply relative_Some). cbn. by rewrite decide_False.
Qed.

Lemma pb_file_load_spec path msg w :
  w_reads w = [] → lookup_file w path = Some (pb_file_bytes msg) → zlen msg < 2 ^ 31 →
  pb_file_load path w = Some (Some msg, w).
Proof.
  intros Hr Hl Hz. unfold lookup_file in Hl. destruct (lk w path) as [ino|] eqn:E; [|done]. injection Hl as Hl.
  by eapply pb_file_load_reads.
Qed.
