(* ===== verification/Snapshot.v ===== *)
(** * Snapshots on the local disk

    src/melon/raft/snapshot.{h,cc}: the table of the files of a snapshot, the
    writer and the reader of one snapshot, and [LocalSnapshotStorage], which
    keeps the snapshots of a node as directories [snapshot_<index>] and writes
    a new one in the directory [temp].

    The storage, its disk and the readers that were opened and not closed yet
    are one state.  [_mutex] protects the index of the last snapshot and the
    reference counts only for single statements; what other threads do before
    each of those is the next element of [sr_others].  Between two of them a
    call works on files no other call touches: the directory [temp], which has
    one writer at a time, or a snapshot it has a reference to or took the last
    reference of. *)

From Stdlib Require Import Ascii String.
From stdpp Require Import prelude gmap sorting.
From S2P Require Import Prelude Bytes Text StateMonad FileSystem Messages SnapshotFs.
Local Open Scope Z_scope.

(** ** Messages *)

Inductive FileSource := FILE_SOURCE_LOCAL | FILE_SOURCE_REFERENCE.

Record LocalFileMeta := mkLocalFileMeta {
  fm_user_meta : option (list Z);
  fm_source : option FileSource;
  fm_checksum : option (list Z);
}.

#[global] Instance file_source_eq_dec : EqDecision FileSource.
Proof. solve_decision. Defined.
#[global] Instance local_file_meta_eq_dec : EqDecision LocalFileMeta.
Proof. solve_decision. Defined.
#[global] Instance snapshot_meta_eq_dec : EqDecision SnapshotMetaPb.
Proof. solve_decision. Defined.

Definition no_file_meta : LocalFileMeta := mkLocalFileMeta None None None.

(** [source()], with the default of the message. *)
Definition file_source (m : LocalFileMeta) : FileSource := default FILE_SOURCE_LOCAL (fm_source m).

Record LocalSnapshotPbMeta := mkLocalSnapshotPbMeta {
  pm_meta : option SnapshotMetaPb;
  pm_files : list (list Z * LocalFileMeta);
}.

(** The generated code of [LocalSnapshotPbMeta]: a parse gives a message on
    every input, and whether it succeeded. *)
Class PbSnapshot := {
  pb_snapshot_serialize : LocalSnapshotPbMeta → list Z;
  pb_snapshot_parse : list Z → LocalSnapshotPbMeta * bool;
}.

(** Indexes and terms are an [int64_t]. *)
Definition snapshot_meta_ok (m : SnapshotMetaPb) : Prop :=
  - 2 ^ 63 ≤ smp_last_included_index m < 2 ^ 63 ∧ - 2 ^ 63 ≤ smp_last_included_term m < 2 ^ 63.

Class PbSnapshotLaws `{PbSnapshot} := {
  pb_snapshot_roundtrip m :
    (∀ meta, pm_meta m = Some meta → snapshot_meta_ok meta) → zlen (pb_snapshot_serialize m) < 2 ^ 31 →
    pb_snapshot_parse (pb_snapshot_serialize m) = (m, true);
}.

(** ** [LocalSnapshotMetaTable] *)

(** [_meta] is [None] when it is not initialized. *)
Record LocalSnapshotMetaTable := mkTable {
  mt_file_map : gmap (list Z) LocalFileMeta;
  mt_meta : option SnapshotMetaPb;
}.

Definition empty_table : LocalSnapshotMetaTable := mkTable ∅ None.

(** [operator<=] of strings. *)
Fixpoint string_leb (a b : list Z) : bool :=
  match a, b with
  | [], _ => true
  | _ :: _, [] => false
  | x :: a', y :: b' => bool_decide (x < y) || (bool_decide (x = y) && string_leb a' b')
  end.
Definition string_le (a b : list Z) : Prop := string_leb a b = true.
#[global] Instance string_le_dec : RelDecision string_le.
Proof. intros a b. apply bool_eq_dec. Defined.

(** The names in the order of the map. *)
Definition mt_list_files (t : LocalSnapshotMetaTable) : list (list Z) :=
  merge_sort string_le (map_to_list (mt_file_map t)).*1.

Definition mt_get_file_meta (filename : list Z) (t : LocalSnapshotMetaTable) : option LocalFileMeta :=
  mt_file_map t !! filename.

Definition mt_add_file (filename : list Z) (meta : LocalFileMeta) (t : LocalSnapshotMetaTable)
  : Z * LocalSnapshotMetaTable :=
  match mt_file_map t !! filename with
  | Some _ => (-1, t)
  | None => (0, mkTable (<[filename := meta]> (mt_file_map t)) (mt_meta t))
  end.

Definition mt_remove_file (filename : list Z) (t : LocalSnapshotMetaTable) : Z * LocalSnapshotMetaTable :=
  match mt_file_map t !! filename with
  | None => (-1, t)
  | Some _ => (0, mkTable (delete filename (mt_file_map t)) (mt_meta t))
  end.

(** The message of a table; [f] is what happens to each meta. *)
Definition table_message (f : LocalFileMeta → LocalFileMeta) (t : LocalSnapshotMetaTable) : LocalSnapshotPbMeta :=
  mkLocalSnapshotPbMeta (mt_meta t)
    (omap (λ name, (λ m, (name, f m)) <$> mt_get_file_meta name t) (mt_list_files t)).

(** The table of a message; of two files with one name the last one counts. *)
Definition message_table (m : LocalSnapshotPbMeta) : LocalSnapshotMetaTable :=
  mkTable (list_to_map (reverse (pm_files m))) (pm_meta m).

Definition clear_source (m : LocalFileMeta) : LocalFileMeta := mkLocalFileMeta (fm_user_meta m) None (fm_checksum m).

Definition MELON_RAFT_SNAPSHOT_META_FILE : list Z := chars "__raft_snapshot_meta"%string.

Section snapshots.
Context `{PbSnapshot}.

(** [save_to_file(fs, dir + "/" + MELON_RAFT_SNAPSHOT_META_FILE)]: the file
    cannot be opened when the directory does not exist. *)
Definition mt_save_to_file (dir : list Z) (sync_meta : bool) (t : LocalSnapshotMetaTable) : IO Z := λ w,
  if decide (dir_lookup (w_dir w) dir ≠ Some dir_ino) then Some (-1, set_errno w ENOENT)
  else pb_file_save (path_join dir MELON_RAFT_SNAPSHOT_META_FILE) (pb_snapshot_serialize (table_message id t)) sync_meta w.

Definition mt_load_from_file (path : list Z) (t : LocalSnapshotMetaTable) : IO (Z * LocalSnapshotMetaTable) :=
  msg ← pb_file_load path;
  mret (match msg with
        | None => (-1, t)
        | Some d => (0, message_table (pb_snapshot_parse d).1)
        end).

Definition mt_save_to_iobuf_as_remote (t : LocalSnapshotMetaTable) : list Z :=
  pb_snapshot_serialize (table_message clear_source t).

Definition mt_load_from_iobuf_as_remote (buf : list Z) (t : LocalSnapshotMetaTable) : Z * LocalSnapshotMetaTable :=
  let '(m, parsed) := pb_snapshot_parse buf in
  if (parsed : bool) then (0, message_table m) else (-1, t).

(** ** [LocalSnapshotWriter] *)

(** [wr_error] is the code of its status. *)
Record LocalSnapshotWriter := mkWriter {
  wr_path : list Z;
  wr_meta_table : LocalSnapshotMetaTable;
  wr_error : Z;
}.

Definition wr_set_error (e : Z) (wr : LocalSnapshotWriter) : LocalSnapshotWriter :=
  mkWriter (wr_path wr) (wr_meta_table wr) e.
Definition wr_set_table (t : LocalSnapshotMetaTable) (wr : LocalSnapshotWriter) : LocalSnapshotWriter :=
  mkWriter (wr_path wr) t (wr_error wr).
Definition wr_ok (wr : LocalSnapshotWriter) : bool := bool_decide (wr_error wr = 0).

(** [delete_file(path/name, false)] for each name, whatever it returns. *)
Fixpoint delete_files (path : list Z) (names : list (list Z)) : IO unit :=
  match names with
  | [] => mret tt
  | n :: ns => fs_delete_file (path_join path n) false;; delete_files path ns
  end.

Definition wr_init (wr : LocalSnapshotWriter) : IO (Z * LocalSnapshotWriter) :=
  let path := wr_path wr in
  let failed wr := mret (EIO, wr_set_error EIO wr) : IO (Z * LocalSnapshotWriter) in
  created ← fs_create_directory path;
  if negb (created : bool) then failed wr
  else
    let meta_path := path_join path MELON_RAFT_SNAPSHOT_META_FILE in
    has_meta_file ← fs_path_exists meta_path;
    '(rc, t) ← (if (has_meta_file : bool) then mt_load_from_file meta_path (wr_meta_table wr)
                else mret (0, wr_meta_table wr));
    if decide (rc ≠ 0) then failed wr
    else
      let wr := wr_set_table t wr in
      names ← fs_directory_reader path;
      match names with
      | None => failed wr
      | Some names =>
          let to_remove :=
            filter (λ n, n ≠ MELON_RAFT_SNAPSHOT_META_FILE ∧ mt_get_file_meta n t = None) names in
          delete_files path to_remove;;
          mret (0, wr)
      end.

Definition wr_snapshot_index (wr : LocalSnapshotWriter) : Z :=
  match mt_meta (wr_meta_table wr) with Some m => smp_last_included_index m | None => 0 end.

Definition wr_remove_file (filename : list Z) (wr : LocalSnapshotWriter) : Z * LocalSnapshotWriter :=
  let '(rc, t) := mt_remove_file filename (wr_meta_table wr) in (rc, wr_set_table t wr).

(** [file_meta] may be NULL. *)
Definition wr_add_file (filename : list Z) (file_meta : option LocalFileMeta) (wr : LocalSnapshotWriter)
  : Z * LocalSnapshotWriter :=
  let '(rc, t) := mt_add_file filename (default no_file_meta file_meta) (wr_meta_table wr) in (rc, wr_set_table t wr).

Definition wr_list_files (wr : LocalSnapshotWriter) : list (list Z) := mt_list_files (wr_meta_table wr).

Definition wr_get_file_meta (filename : list Z) (wr : LocalSnapshotWriter) : option LocalFileMeta :=
  mt_get_file_meta filename (wr_meta_table wr).

Definition wr_save_meta (meta : SnapshotMetaPb) (wr : LocalSnapshotWriter) : LocalSnapshotWriter :=
  wr_set_table (mkTable (mt_file_map (wr_meta_table wr)) (Some meta)) wr.

Definition wr_sync (sync_meta : bool) (wr : LocalSnapshotWriter) : IO (Z * LocalSnapshotWriter) :=
  rc ← mt_save_to_file (wr_path wr) sync_meta (wr_meta_table wr);
  mret (rc, if decide (rc ≠ 0) then if wr_ok wr then wr_set_error rc wr else wr else wr).

(** ** [LocalSnapshotReader] *)

Record LocalSnapshotReader := mkReader {
  rd_path : list Z;
  rd_meta_table : LocalSnapshotMetaTable;
  rd_error : Z;
}.

Definition rd_init (rd : LocalSnapshotReader) : IO (Z * LocalSnapshotReader) :=
  exists_ ← fs_directory_exists (rd_path rd);
  if negb (exists_ : bool) then mret (ENOENT, mkReader (rd_path rd) (rd_meta_table rd) ENOENT)
  else
    '(rc, t) ← mt_load_from_file (path_join (rd_path rd) MELON_RAFT_SNAPSHOT_META_FILE) (rd_meta_table rd);
    if decide (rc ≠ 0) then mret (EIO, mkReader (rd_path rd) (rd_meta_table rd) EIO)
    else mret (0, mkReader (rd_path rd) t (rd_error rd)).

Definition rd_load_meta (rd : LocalSnapshotReader) : option SnapshotMetaPb := mt_meta (rd_meta_table rd).

Definition rd_list_files (rd : LocalSnapshotReader) : list (list Z) := mt_list_files (rd_meta_table rd).

Definition rd_get_file_meta (filename : list Z) (rd : LocalSnapshotReader) : option LocalFileMeta :=
  mt_get_file_meta filename (rd_meta_table rd).

Definition snapshot_prefix : list Z := chars "snapshot_"%string.

(** [MELON_RAFT_SNAPSHOT_PATTERN], printed and scanned. *)
Definition snapshot_name (index : Z) : list Z := snapshot_prefix ++ print_020 index.
Definition scan_snapshot_name (name : list Z) : option Z :=
  rest ← scan_lit snapshot_prefix name;
  fst <$> scan_ld 20 rest.

(** [BaseName()]: what follows the last slash. *)
Definition base_name (path : list Z) : list Z :=
  reverse (span (λ c, negb (bool_decide (c = ch_slash))) (reverse path)).1.

Definition rd_snapshot_index (rd : LocalSnapshotReader) : option Z := scan_snapshot_name (base_name (rd_path rd)).

(** ** [LocalSnapshotStorage] *)

Record LocalSnapshotStorage := mkStorage {
  ss_path : list Z;
  ss_filter_before_copy_remote : bool;
  ss_last_snapshot_index : Z;
  ss_ref_map : gmap Z Z;
  ss_copy_file : bool;
  ss_sync_meta : bool;
  ss_world : World;
  ss_readers : gmap Z LocalSnapshotReader;
}.

(** The storage as one thread sees it. *)
Record StorageRun := mkStorageRun {
  sr_storage : LocalSnapshotStorage;
  sr_others : list (LocalSnapshotStorage → LocalSnapshotStorage);
}.

Definition with_last_snapshot_index (i : Z) (s : LocalSnapshotStorage) : LocalSnapshotStorage :=
  mkStorage (ss_path s) (ss_filter_before_copy_remote s) i (ss_ref_map s) (ss_copy_file s) (ss_sync_meta s)
    (ss_world s) (ss_readers s).
Definition with_ref_map (r : gmap Z Z) (s : LocalSnapshotStorage) : LocalSnapshotStorage :=
  mkStorage (ss_path s) (ss_filter_before_copy_remote s) (ss_last_snapshot_index s) r (ss_copy_file s) (ss_sync_meta s)
    (ss_world s) (ss_readers s).
Definition with_ss_world (w : World) (s : LocalSnapshotStorage) : LocalSnapshotStorage :=
  mkStorage (ss_path s) (ss_filter_before_copy_remote s) (ss_last_snapshot_index s) (ss_ref_map s) (ss_copy_file s)
    (ss_sync_meta s) w (ss_readers s).
Definition with_readers (rds : gmap Z LocalSnapshotReader) (s : LocalSnapshotStorage) : LocalSnapshotStorage :=
  mkStorage (ss_path s) (ss_filter_before_copy_remote s) (ss_last_snapshot_index s) (ss_ref_map s) (ss_copy_file s)
    (ss_sync_meta s) (ss_world s) rds.

Definition SR : Type → Type := ST StorageRun.

Definition sr_get {A} (f : LocalSnapshotStorage → A) : SR A := st_get (λ r, f (sr_storage r)).
Definition sr_mod (f : LocalSnapshotStorage → LocalSnapshotStorage) : SR unit :=
  st_mod (λ r, mkStorageRun (f (sr_storage r)) (sr_others r)).

(** Input and output on the disk of the storage. *)
Definition sr_io {A} (m : IO A) : SR A := λ r,
  '(a, w) ← m (ss_world (sr_storage r));
  Some (a, mkStorageRun (with_ss_world w (sr_storage r)) (sr_others r)).

(** Taking [_mutex]. *)
Definition sr_lock : SR unit :=
  st_mod (λ r, match sr_others r with
               | [] => r
               | g :: gs => mkStorageRun (g (sr_storage r)) gs
               end).

(** [LocalSnapshotStorage(path)].  The constructor leaves
    [_filter_before_copy_remote] as it finds it: [filter]. *)
Definition ss_new (path : list Z) (filter sync_meta : bool) (w : World) : LocalSnapshotStorage :=
  mkStorage path filter 0 ∅ true sync_meta w ∅.

Definition _s_temp_path : list Z := chars "temp"%string.

Definition temp_path (s : LocalSnapshotStorage) : list Z := path_join (ss_path s) _s_temp_path.
Definition snapshot_path (index : Z) (s : LocalSnapshotStorage) : list Z := path_join (ss_path s) (snapshot_name index).

Definition ss_ref (index : Z) : SR unit :=
  sr_lock;;
  sr_mod (λ s, with_ref_map (<[index := default 0 (ss_ref_map s !! index) + 1]> (ss_ref_map s)) s).

Definition destroy_snapshot (path : list Z) : SR Z :=
  deleted ← sr_io (fs_delete_file path true);
  mret (if (deleted : bool) then 0 else -1).

(** [unref] once it has the mutex. *)
Definition unref_locked (index : Z) : SR unit :=
  count ← sr_get (λ s, ss_ref_map s !! index);
  match count with
  | None => mret tt
  | Some n =>
      if decide (n - 1 = 0) then
        sr_mod (λ s, with_ref_map (delete index (ss_ref_map s)) s);;
        old_path ← sr_get (snapshot_path index);
        destroy_snapshot old_path;;
        mret tt
      else sr_mod (λ s, with_ref_map (<[index := n - 1]> (ss_ref_map s)) s)
  end.

Definition ss_unref (index : Z) : SR unit := sr_lock;; unref_locked index.

(** The loop of [init] over the set of snapshots found: all but the greatest
    are deleted. *)
Fixpoint delete_old_snapshots (snapshots : list Z) : SR (Z * Z) :=
  match snapshots with
  | [] => mret (0, 0)
  | [index] => mret (0, index)
  | index :: rest =>
      path ← sr_get (snapshot_path index);
      deleted ← sr_io (fs_delete_file path true);
      if (deleted : bool) then delete_old_snapshots rest else mret (EIO, 0)
  end.

(** [init] from the directory reader on. *)
Definition find_last_snapshot : SR Z :=
  path ← sr_get ss_path;
  names ← sr_io (fs_directory_reader path);
  match names with
  | None => mret EIO
  | Some names =>
      let snapshots := merge_sort Z.le (remove_dups (omap scan_snapshot_name names)) in
      '(rc, last) ← delete_old_snapshots snapshots;
      if decide (rc ≠ 0) then mret rc
      else if decide (snapshots = []) then mret 0
      else
        sr_mod (with_last_snapshot_index last);;
        ss_ref last;;
        mret 0
  end.

Definition ss_init : SR Z :=
  path ← sr_get ss_path;
  created ← sr_io (fs_create_directory path);
  if negb (created : bool) then mret (-1)
  else
    filter_ ← sr_get ss_filter_before_copy_remote;
    temp ← sr_get temp_path;
    deleted ← (if (filter_ : bool) then mret true else sr_io (fs_delete_file temp true));
    if negb (deleted : bool) then mret EIO else find_last_snapshot.

(** [create(from_empty)]; [create()] is [ss_create true]. *)
Definition ss_create (from_empty : bool) : SR (option LocalSnapshotWriter) :=
  temp ← sr_get temp_path;
  present ← sr_io (fs_path_exists temp);
  rc ← (if present && from_empty then destroy_snapshot temp else mret 0);
  if decide (rc ≠ 0) then mret None
  else
    '(rc, wr) ← sr_io (wr_init (mkWriter temp empty_table 0));
    if decide (rc ≠ 0) then mret None else mret (Some wr).

(** [close(writer, keep_data_on_error)] from the rename of [temp] on. *)
Definition place_snapshot (old_index new_index : Z) : SR Z :=
  temp ← sr_get temp_path;
  new_path ← sr_get (snapshot_path new_index);
  deleted ← sr_io (fs_delete_file new_path true);
  if negb (deleted : bool) then mret EIO
  else
    renamed ← sr_io (fs_rename temp new_path);
    if negb (renamed : bool) then mret EIO
    else
      ss_ref new_index;;
      sr_lock;;
      last ← sr_get ss_last_snapshot_index;
      st_check (old_index = last);;
      sr_mod (with_last_snapshot_index new_index);;
      ss_unref old_index;;
      mret 0.

(** Its loop body, for a writer without an error. *)
Definition publish (wr : LocalSnapshotWriter) : SR Z :=
  sync_meta ← sr_get ss_sync_meta;
  '(ret, wr) ← sr_io (wr_sync sync_meta wr);
  if decide (ret ≠ 0) then mret ret
  else
    sr_lock;;
    old_index ← sr_get ss_last_snapshot_index;
    let new_index := wr_snapshot_index wr in
    if decide (new_index = old_index) then mret EEXIST else place_snapshot old_index new_index.

Definition close_writer (wr : LocalSnapshotWriter) (keep_data_on_error : bool) : SR Z :=
  ret ← (if decide (wr_error wr ≠ 0) then mret (wr_error wr) else publish wr);
  (if decide (ret ≠ 0 ∧ keep_data_on_error = false) then destroy_snapshot (wr_path wr) else mret 0);;
  mret (if decide (ret ≠ EIO) then 0 else -1).

(** [open] once it has the mutex; the reader is a new object. *)
Definition open_locked : SR (option Z) :=
  last_snapshot_index ← sr_get ss_last_snapshot_index;
  if decide (last_snapshot_index ≠ 0) then
    sr_mod (λ s, with_ref_map (<[last_snapshot_index := default 0 (ss_ref_map s !! last_snapshot_index) + 1]>
                                 (ss_ref_map s)) s);;
    path ← sr_get (snapshot_path last_snapshot_index);
    '(rc, rd) ← sr_io (rd_init (mkReader path empty_table 0));
    if decide (rc ≠ 0) then ss_unref last_snapshot_index;; mret None
    else
      id ← sr_get (λ s, fresh (dom (ss_readers s)));
      sr_mod (λ s, with_readers (<[id := rd]> (ss_readers s)) s);;
      mret (Some id)
  else mret None.

Definition ss_open : SR (option Z) := sr_lock;; open_locked.

(** [close(reader)]; the reader is a live object. *)
Definition ss_close_reader (id : Z) : SR Z :=
  rds ← sr_get ss_readers;
  rd ← st_lift (rds !! id);
  index ← st_lift (rd_snapshot_index rd);
  ss_unref index;;
  sr_mod (λ s, with_readers (delete id (ss_readers s)) s);;
  mret 0.

(** What another thread does with readers. *)
Inductive ReaderCall := OtherOpen | OtherClose (id : Z).

Definition reader_call (c : ReaderCall) (s : LocalSnapshotStorage) : LocalSnapshotStorage :=
  let run := match c with
             | OtherOpen => ss_open;; mret tt
             | OtherClose id => if decide (is_Some (ss_readers s !! id)) then ss_close_reader id;; mret tt else mret tt
             end in
  match run (mkStorageRun s []) with
  | Some (_, r) => sr_storage r
  | None => s
  end.

End snapshots.
