(* ===== verification/SnapshotWire.v ===== *)
(** * The wire format of the snapshot table

    An instance of the codec of [LocalSnapshotPbMeta] (Snapshot.v): the format
    of protocol buffers for src/melon/proto/raft/local_storage.proto,
    raft.proto and local_file_meta.proto, as lists of numbered fields. *)

From stdpp Require Import prelude.
From S2P Require Import Prelude Bytes Protobuf Messages Snapshot.
Local Open Scope Z_scope.

(** ** Fields *)

Inductive WireField :=
  | WVarint (number value : Z)
  | WBytes (number : Z) (value : list Z).

Definition encode_field (f : WireField) : list Z :=
  match f with
  | WVarint n x => 8 * n :: varint64 x
  | WBytes n d => wire_string (8 * n + 2) d
  end.
Definition encode_fields (fs : list WireField) : list Z := concat (encode_field <$> fs).

Fixpoint decode_loop (fuel : nat) (d : list Z) : option (list WireField) :=
  match fuel, d with
  | _, [] => Some []
  | O, _ => None
  | S fuel', tag :: d' =>
      '(x, rest) ← read_varint d';
      if decide (tag mod 8 = 0) then fs ← decode_loop fuel' rest; Some (WVarint (tag / 8) x :: fs)
      else if decide (tag mod 8 = 2 ∧ x ≤ zlen rest) then
        fs ← decode_loop fuel' (drop (Z.to_nat x) rest); Some (WBytes (tag / 8) (take (Z.to_nat x) rest) :: fs)
      else None
  end.
Definition decode_fields (d : list Z) : option (list WireField) := decode_loop (length d) d.

Definition field_ok (f : WireField) : Prop :=
  match f with
  | WVarint n x => 0 ≤ x < 2 ^ 64
  | WBytes n d => zlen d < 2 ^ 31
  end.

(** The values of the fields with a number; a single field has the last one. *)
Definition varints (n : Z) (fs : list WireField) : list Z :=
  omap (λ f, match f with WVarint m x => if decide (m = n) then Some x else None | _ => None end) fs.
Definition strings (n : Z) (fs : list WireField) : list (list Z) :=
  omap (λ f, match f with WBytes m d => if decide (m = n) then Some d else None | _ => None end) fs.

(** ** Messages *)

Definition meta_fields (m : SnapshotMetaPb) : list WireField :=
  [WVarint 1 (u64 (smp_last_included_index m)); WVarint 2 (u64 (smp_last_included_term m))] ++
  (WBytes 3 <$> smp_peers m) ++ (WBytes 4 <$> smp_old_peers m).

Definition parse_meta (d : list Z) : option SnapshotMetaPb :=
  fs ← decode_fields d;
  i ← last (varints 1 fs);
  t ← last (varints 2 fs);
  Some (mkSnapshotMetaPb (i64 i) (i64 t) (strings 3 fs) (strings 4 fs)).

Definition source_code (s : FileSource) : Z :=
  match s with FILE_SOURCE_LOCAL => 0 | FILE_SOURCE_REFERENCE => 1 end.
Definition code_source (x : Z) : FileSource := if decide (x = 1) then FILE_SOURCE_REFERENCE else FILE_SOURCE_LOCAL.

Definition file_meta_fields (m : LocalFileMeta) : list WireField :=
  (WBytes 1 <$> option_list (fm_user_meta m)) ++ (WVarint 2 ∘ source_code <$> option_list (fm_source m)) ++
  (WBytes 3 <$> option_list (fm_checksum m)).

Definition parse_file_meta (d : list Z) : option LocalFileMeta :=
  fs ← decode_fields d;
  Some (mkLocalFileMeta (last (strings 1 fs)) (code_source <$> last (varints 2 fs)) (last (strings 3 fs))).

Definition file_fields (f : list Z * LocalFileMeta) : list WireField :=
  [WBytes 1 f.1; WBytes 2 (encode_fields (file_meta_fields f.2))].

Definition parse_file (d : list Z) : option (list Z * LocalFileMeta) :=
  fs ← decode_fields d;
  name ← last (strings 1 fs);
  m ← match last (strings 2 fs) with Some d => parse_file_meta d | None => Some no_file_meta end;
  Some (name, m).

Definition snapshot_fields (m : LocalSnapshotPbMeta) : list WireField :=
  (WBytes 1 ∘ encode_fields ∘ meta_fields <$> option_list (pm_meta m)) ++
  (WBytes 2 ∘ encode_fields ∘ file_fields <$> pm_files m).

Definition parse_snapshot (d : list Z) : option LocalSnapshotPbMeta :=
  fs ← decode_fields d;
  meta ← match last (strings 1 fs) with Some d => Some <$> parse_meta d | None => Some None end;
  files ← mapM parse_file (strings 2 fs);
  Some (mkLocalSnapshotPbMeta meta files).

#[global] Instance wire_snapshot : PbSnapshot := {
  pb_snapshot_serialize m := encode_fields (snapshot_fields m);
  pb_snapshot_parse d :=
    match parse_snapshot d with Some m => (m, true) | None => (mkLocalSnapshotPbMeta None [], false) end;
}.

(** ** Round trips *)

Lemma encode_field_length f : (0 < length (encode_field f))%nat.
Proof. destruct f; cbn; lia. Qed.

Lemma tag_split n k : 0 ≤ k < 8 → (8 * n + k) mod 8 = k ∧ (8 * n + k) / 8 = n.
Proof. intros Hk. Z.to_euclidean_division_equations. lia. Qed.

Lemma decode_loop_cons fuel f d :
  field_ok f → decode_loop (S fuel) (encode_field f ++ d) = (λ fs, f :: fs) <$> decode_loop fuel d.
Proof.
  destruct f as [n x|n s]; cbn [field_ok encode_field app decode_loop]; intros Hf.
  - destruct (tag_split n 0) as [Hm Hd]; [lia|]. rewrite Z.add_0_r in Hm, Hd.
    rewrite read_varint64 by done. cbn [mbind option_bind]. rewrite decide_True, Hd by done. by destruct (decode_loop fuel d).
  - destruct (tag_split n 2) as [Hm Hd]; [lia|]. unfold wire_string. cbn [app]. pose proof (zlen_nonneg s). rewrite <-app_assoc, read_varint64 by lia. cbn [mbind option_bind].
    rewrite decide_False by lia. rewrite decide_True by (rewrite zlen_app; pose proof (zlen_nonneg d); lia).
    replace (Z.to_nat (zlen s)) with (length s) by (unfold zlen; lia). rewrite take_app_length, drop_app_length.
    rewrite Hd. by destruct (decode_loop fuel d).
Qed.

Lemma decode_encode fs : Forall field_ok fs → decode_fields (encode_fields fs) = Some fs.
Proof.
  intros Hfs. unfold decode_fields, encode_fields.
  assert (∀ fuel, (length fs ≤ fuel)%nat → decode_loop fuel (concat (encode_field <$> fs)) = Some fs) as Hloop.
  { induction Hfs as [|f fs Hf Hfs IH]; intros fuel Hl; [by destruct fuel|]. destruct fuel as [|fuel]; [cbn in Hl; lia|].
    rewrite fmap_cons. cbn [concat]. rewrite decode_loop_cons, IH by (done || cbn in Hl; lia). done. }
  apply Hloop. clear. induction fs as [|f fs IH]; [done|]. rewrite fmap_cons. cbn [concat length]. rewrite length_app.
  pose proof (encode_field_length f). lia.
Qed.

Lemma encode_fields_app a b : encode_fields (a ++ b) = encode_fields a ++ encode_fields b.
Proof. unfold encode_fields. by rewrite fmap_app, concat_app. Qed.

(** A field is not longer than its message. *)
Lemma encode_fields_elem n d fs : WBytes n d ∈ fs → zlen d ≤ zlen (encode_fields fs).
Proof.
  intros (a & b & ->)%list_elem_of_split. rewrite encode_fields_app, zlen_app. unfold encode_fields at 2.
  rewrite fmap_cons. cbn [concat]. cbn [encode_field]. unfold wire_string. rewrite zlen_app, zlen_cons, zlen_app.
  pose proof (zlen_nonneg (encode_fields a)). pose proof (zlen_nonneg (varint64 (zlen d))).
  pose proof (zlen_nonneg (concat (encode_field <$> b))). lia.
Qed.

Lemma strings_app n a b : strings n (a ++ b) = strings n a ++ strings n b.
Proof. apply omap_app. Qed.
Lemma varints_app n a b : varints n (a ++ b) = varints n a ++ varints n b.
Proof. apply omap_app. Qed.

Lemma strings_fmap n m (l : list (list Z)) : strings n (WBytes m <$> l) = if decide (m = n) then l else [].
Proof.
  induction l as [|x l IH]; [by case_decide|]. unfold strings in *. rewrite fmap_cons. cbn [omap list_omap].
  rewrite IH. by case_decide.
Qed.

Lemma varints_bytes_fmap n m (l : list (list Z)) : varints n (WBytes m <$> l) = [].
Proof. by induction l. Qed.

Lemma last_option_list {A} (o : option A) : last (option_list o) = o.
Proof. by destruct o. Qed.

Lemma meta_roundtrip m :
  snapshot_meta_ok m → zlen (encode_fields (meta_fields m)) < 2 ^ 31 → parse_meta (encode_fields (meta_fields m)) = Some m.
Proof.
  intros [Hi Ht] Hz. unfold parse_meta. rewrite decode_encode.
  - cbn [mbind option_bind]. unfold meta_fields. cbn [app]. set (rest := (WBytes 3 <$> _) ++ _).
    assert (varints 1 rest = [] ∧ varints 2 rest = []) as [H1 H2] by (unfold rest; by rewrite !varints_app, !varints_bytes_fmap).
    assert (strings 3 rest = smp_peers m ∧ strings 4 rest = smp_old_peers m) as [H3 H4].
    { unfold rest. rewrite !strings_app, !strings_fmap. cbn. by rewrite app_nil_r. }
    unfold varints at 1 2, strings at 1 2. cbn [omap list_omap]. fold (varints 1 rest) (varints 2 rest) (strings 3 rest) (strings 4 rest).
    rewrite H1, H2, H3, H4, !(decide_True (P := 1 = 1)), !(decide_True (P := 2 = 2)), !(decide_False (P := 2 = 1)),
      !(decide_False (P := 1 = 2)) by done. cbn -[i64 u64]. rewrite !i64_u64 by done. by destruct m.
  - apply Forall_forall. intros [n x|n d] Hin; cbn [field_ok]; [|apply (encode_fields_elem n) in Hin; lia].
    unfold meta_fields in Hin. repeat rewrite ?elem_of_app, ?elem_of_cons, ?list_elem_of_fmap in Hin.
    destruct Hin as [[[= -> ->]|[[= -> ->]|?%elem_of_nil]]|[(? & ? & _)|(? & ? & _)]]; try done; apply u64_range.
Qed.

Lemma file_meta_roundtrip m :
  zlen (encode_fields (file_meta_fields m)) < 2 ^ 31 → parse_file_meta (encode_fields (file_meta_fields m)) = Some m.
Proof.
  intros Hz. unfold parse_file_meta. rewrite decode_encode.
  - destruct m as [[u|] [[|]|] [c|]]; reflexivity.
  - apply Forall_forall. intros [n x|n d] Hin; cbn [field_ok]; [|apply (encode_fields_elem n) in Hin; lia].
    destruct m as [[u|] [[|]|] [c|]]; unfold file_meta_fields in Hin; cbn in Hin; set_solver by lia.
Qed.

Lemma file_roundtrip f :
  zlen (encode_fields (file_fields f)) < 2 ^ 31 → parse_file (encode_fields (file_fields f)) = Some f.
Proof.
  intros Hz. unfold parse_file. destruct f as [name m]. rewrite decode_encode.
  - cbn [mbind option_bind]. change (last (strings 1 (file_fields (name, m)))) with (Some name).
    change (last (strings 2 (file_fields (name, m)))) with (Some (encode_fields (file_meta_fields m))).
    cbn [mbind option_bind]. rewrite file_meta_roundtrip; [done|].
    pose proof (encode_fields_elem 2 (encode_fields (file_meta_fields m)) (file_fields (name, m))) as He.
    assert (zlen (encode_fields (file_meta_fields m)) ≤ zlen (encode_fields (file_fields (name, m)))); [|lia].
    apply He. right. left.
  - apply Forall_forall. intros [n x|n d] Hin; cbn [field_ok]; [|apply (encode_fields_elem n) in Hin; lia].
    unfold file_fields in Hin. set_solver.
Qed.

#[global] Instance wire_snapshot_laws : PbSnapshotLaws.
Proof.
  split. intros [meta files] Hm Hz. cbn [pb_snapshot_serialize pb_snapshot_parse wire_snapshot] in *. cbn [pm_meta] in Hm.
  set (fs := snapshot_fields _) in *. assert (parse_snapshot (encode_fields fs) = Some (mkLocalSnapshotPbMeta meta files)) as ->; [|done].
  unfold parse_snapshot. assert (∀ n d, WBytes n d ∈ fs → zlen d < 2 ^ 31) as Hel.
  { intros n d Hin%(encode_fields_elem n). lia. }
  rewrite decode_encode.
  - cbn [mbind option_bind]. unfold fs, snapshot_fields. cbn [pm_meta pm_files]. rewrite !strings_app.
    rewrite !list_fmap_compose, !strings_fmap.
    rewrite (decide_True (P := 1 = 1)), (decide_False (P := 2 = 1)), (decide_False (P := 1 = 2)), (decide_True (P := 2 = 2)) by done.
    rewrite app_nil_r. cbn [app].
    assert (mapM parse_file (encode_fields <$> (file_fields <$> files)) = Some files) as ->.
    { apply mapM_Some_2. rewrite <-list_fmap_compose. apply Forall2_fmap_l, Forall_Forall2_diag, Forall_forall. intros f Hf. apply file_roundtrip.
      apply (Hel 2). unfold fs, snapshot_fields. apply elem_of_app. right. apply list_elem_of_fmap. by exists f. }
    destruct meta as [m|]; [|done]. cbn -[encode_fields parse_meta meta_fields]. rewrite meta_roundtrip; [done|by apply Hm|].
    apply (Hel 1). unfold fs, snapshot_fields. cbn. left.
  - apply Forall_forall. intros [n x|n d] Hin; cbn [field_ok]; [|by eapply Hel].
    unfold fs, snapshot_fields in Hin. rewrite elem_of_app, !list_elem_of_fmap in Hin. by destruct Hin as [(? & ? & _)|(? & ? & _)].
Qed.
