(* ===== verification/SnapshotSpec.v ===== *)
(** * What the snapshot storage keeps

    The invariant of [LocalSnapshotStorage]: the reference counts are the
    readers that are open, the last snapshot and what the running call holds,
    and every snapshot with a count is on disk as it was published.  Every
    operation keeps it, whatever system calls fail, with readers opened and
    closed by other threads in between.  A writer that is closed replaces the
    last snapshot or leaves it, also across a crash at any point. *)

From Stdlib Require Import Ascii String.
From stdpp Require Import prelude gmap sorting.
From S2P Require Import Prelude Bytes Text StateMonad FileSystem Messages SnapshotFs Snapshot.
Local Open Scope Z_scope.

(** ** Names *)

Lemma temp_no_slash : ch_slash ∉ _s_temp_path.
Proof. vm_compute. set_solver. Qed.

Lemma snapshot_name_no_slash i : ch_slash ∉ snapshot_name i.
Proof.
  unfold snapshot_name. intros [H|H]%elem_of_app; [vm_compute in H; set_solver|]. unfold print_020 in H.
  assert (∀ n x, ch_slash ∉ fixed_digits n x) as Hd.
  { intros n x Hin. pose proof (fixed_digits_digit n x) as Hall. rewrite Forall_forall in Hall. apply Hall in Hin. by vm_compute in Hin. }
  case_decide; [apply elem_of_cons in H as [H|H]; [by vm_compute in H|]|]; by apply Hd in H.
Qed.

Definition index_ok (i : Z) : Prop := 0 < i < 2 ^ 63.

Lemma scan_snapshot_name_eq i : index_ok i → scan_snapshot_name (snapshot_name i) = Some i.
Proof.
  intros Hi. unfold scan_snapshot_name, snapshot_name. rewrite scan_lit_app. cbn.
  rewrite <-(app_nil_r (print_020 i)), scan_print_020; [done|]. unfold index_ok in Hi. lia.
Qed.

Lemma snapshot_name_inj i j : index_ok i → index_ok j → snapshot_name i = snapshot_name j → i = j.
Proof. intros Hi Hj E. apply scan_snapshot_name_eq in Hi, Hj. rewrite E in Hi. congruence. Qed.

Lemma scan_temp : scan_snapshot_name _s_temp_path = None.
Proof. done. Qed.

Lemma snapshot_name_temp i : snapshot_name i ≠ _s_temp_path.
Proof. done. Qed.

Lemma base_name_join root n : ch_slash ∉ n → base_name (path_join root n) = n.
Proof.
  intros Hn. unfold base_name, path_join. rewrite reverse_app, reverse_cons, <-app_assoc.
  rewrite span_app; [apply reverse_involutive| |].
  - apply Forall_forall. intros c Hc. apply negb_true_iff, bool_decide_eq_false. intros ->. apply Hn. by apply elem_of_reverse.
  - intros c [= <-]. done.
Qed.

(** ** The invariant *)

Section spec.
Context `{PbSnapshot}.
Implicit Types (s : LocalSnapshotStorage) (w : World).

(** What a published snapshot holds: its files by their names. *)
Abbreviation Content := (Z → list Z → option (list Z)).

(** Tables whose message can be written. *)
Definition table_ok (t : LocalSnapshotMetaTable) : Prop :=
  (∀ meta, mt_meta t = Some meta → snapshot_meta_ok meta) ∧ zlen (pb_snapshot_serialize (table_message id t)) < 2 ^ 31.

(** The files [F] are those of a snapshot with table [t]. *)
Definition has_table (t : LocalSnapshotMetaTable) (F : list Z → option (list Z)) : Prop :=
  F MELON_RAFT_SNAPSHOT_META_FILE = Some (pb_file_bytes (pb_snapshot_serialize (table_message id t))) ∧
  table_ok t.

(** The snapshot [i] is on disk with content [G i]. *)
Definition intact (G : Content) (s : LocalSnapshotStorage) (i : Z) : Prop :=
  index_ok i ∧ (∃ t, has_table t (G i)) ∧ lk (ss_world s) (snapshot_path i s) = Some dir_ino ∧
  ∀ f, lookup_file (ss_world s) (path_join (snapshot_path i s) f) = G i f.

(** The meta file of the directory [dir] can be saved. *)
Definition meta_ok (dir : list Z) (w : World) : Prop :=
  let meta := path_join dir MELON_RAFT_SNAPSHOT_META_FILE in
  lk w meta ≠ Some dir_ino ∧ lk w (meta ++ tmp_suffix) ≠ Some dir_ino ∧ unshared w (meta ++ tmp_suffix).

Definition count (i : Z) (l : list Z) : Z := zlen (filter (eq i) l).

(** The snapshots in [pins] are held, with repetitions; [top] bounds the
    indexes on disk. *)
Record storage_ok (G : Content) (pins : list Z) (top : Z) (s : LocalSnapshotStorage) : Prop := {
  so_wf : fs_wf (ss_path s) (ss_world s);
  so_reads : w_reads (ss_world s) = [];
  so_root : lk (ss_world s) (ss_path s) = Some dir_ino;
  so_names n : ch_slash ∉ n → is_Some (lk (ss_world s) (path_join (ss_path s) n)) →
    n = _s_temp_path ∨ ∃ i, n = snapshot_name i ∧ index_ok i ∧ i ≤ top;
  so_refs i : ss_ref_map s !! i = (if decide (count i pins = 0) then None else Some (count i pins));
  so_pins i : i ∈ pins → intact G s i;
  so_last : ss_last_snapshot_index s = 0 ∨ ss_last_snapshot_index s ∈ pins;
  so_top : 0 ≤ ss_last_snapshot_index s ≤ top;
  so_meta : meta_ok (temp_path s) (ss_world s);
}.

Lemma count_cons i j l : count i (j :: l) = (if decide (i = j) then 1 else 0) + count i l.
Proof. unfold count. rewrite filter_cons. case_decide; rewrite ?zlen_cons; lia. Qed.

Lemma count_nonneg i l : 0 ≤ count i l.
Proof. apply zlen_nonneg. Qed.

Lemma count_zero i l : count i l = 0 ↔ i ∉ l.
Proof.
  induction l as [|j l IH]; [split; [intros _; apply not_elem_of_nil|done]|].
  rewrite count_cons, not_elem_of_cons, <-IH. pose proof (count_nonneg i l). case_decide; [split; [lia|naive_solver]|].
  rewrite Z.add_0_l. naive_solver.
Qed.

Lemma count_perm i l l' : l ≡ₚ l' → count i l = count i l'.
Proof. intros Hp. unfold count, zlen. f_equal. by rewrite Hp. Qed.

Lemma storage_ok_perm G pins pins' top s : pins ≡ₚ pins' → storage_ok G pins top s → storage_ok G pins' top s.
Proof.
  intros Hp [????????]. constructor; try done.
  - intros i. by rewrite <-(count_perm i _ _ Hp).
  - intros i Hi. apply so_pins0. by rewrite Hp.
  - by rewrite <-Hp.
Qed.

Lemma temp_snapshot_disjoint s i n : at_or_below (temp_path s) n → ¬ at_or_below (snapshot_path i s) n.
Proof.
  intros H1 H2. apply (snapshot_name_temp i). symmetry.
  by apply (path_join_below_inj (ss_path s) _ _ n); [apply temp_no_slash|apply snapshot_name_no_slash|..].
Qed.

Lemma snapshots_disjoint s i j n :
  index_ok i → index_ok j → at_or_below (snapshot_path i s) n → at_or_below (snapshot_path j s) n → i = j.
Proof.
  intros Hi Hj H1 H2. apply snapshot_name_inj; [done..|].
  by apply (path_join_below_inj (ss_path s) _ _ n); [apply snapshot_name_no_slash..| |].
Qed.

(** Names in no snapshot that is held. *)
Definition unheld (pins : list Z) (s : LocalSnapshotStorage) (n : list Z) : Prop :=
  ∀ i, i ∈ pins → index_ok i → ¬ at_or_below (snapshot_path i s) n.

Lemma intact_outside G P s w' i :
  intact G s i → outside P (ss_world s) w' → (∀ n, P n → ¬ at_or_below (snapshot_path i s) n) →
  intact G (with_ss_world w' s) i.
Proof.
  intros (Hi & Htab & Hd & Hf) Ho HP. assert (∀ n, at_or_below (snapshot_path i s) n → ¬ P n) as HnP by (intros n ? ?; by eapply HP).
  split_and!; [done|done| |].
  - cbn. destruct Ho as (_ & _ & Hl & _). rewrite Hl; [done|]. apply HnP, at_or_below_refl.
  - intros f. rewrite <-Hf. apply (outside_lookup_file P); [done|]. apply HnP. right. apply below_path_join.
Qed.

(** The disk may change where nothing is held. *)
Lemma storage_ok_world G pins top P s w' :
  storage_ok G pins top s → outside P (ss_world s) w' → fs_wf (ss_path s) w' →
  (∀ n, P n → below (ss_path s) n ∧ unheld pins s n) →
  (∀ n, ch_slash ∉ n → P (path_join (ss_path s) n) → is_Some (lk w' (path_join (ss_path s) n)) →
    n = _s_temp_path ∨ ∃ i, n = snapshot_name i ∧ index_ok i ∧ i ≤ top) →
  meta_ok (temp_path s) w' → (∀ n, P n ∨ ¬ P n) → storage_ok G pins top (with_ss_world w' s).
Proof.
  intros Hok Ho Hwf HP Hnames Hmeta Hdec. destruct Hok as [Hwf0 Hr Hroot Hn Hrefs Hpins Hlast Htop _].
  pose proof Ho as (Hr' & _ & Hl & _). constructor; try done; cbn.
  - congruence.
  - rewrite Hl; [done|]. intros [Hb _]%HP. apply below_length in Hb. lia.
  - intros n Hs Hex. destruct (Hdec (path_join (ss_path s) n)) as [HPn|HPn]; [by apply Hnames|].
    rewrite Hl in Hex by done. by apply Hn.
  - intros i Hi. eapply intact_outside; [by apply Hpins|done|]. intros n HPn. destruct (HP n HPn) as [_ Hu].
    apply Hu; [done|]. by apply Hpins.
Qed.

Lemma meta_ok_deleted P dir w w' : deleted P w w' → meta_ok dir w → meta_ok dir w'.
Proof.
  intros (_&_&_&_&_&Hsub) (H1 & H2 & H3). split_and!.
  - intros Hc. by apply Hsub in Hc.
  - intros Hc. by apply Hsub in Hc.
  - intros m i Ht Hm. eauto.
Qed.

(** Deleting a tree in which nothing is held. *)
Lemma storage_ok_delete G pins top p s w' :
  storage_ok G pins top s → deleted (at_or_below p) (ss_world s) w' → fs_wf (ss_path s) w' →
  (∀ n, at_or_below p n → below (ss_path s) n ∧ unheld pins s n) → storage_ok G pins top (with_ss_world w' s).
Proof.
  intros Hok Hdel Hwf HP. eapply storage_ok_world; [done|by apply deleted_outside|done|done| | |].
  - intros n Hs _ Hex. apply (so_names _ _ _ _ Hok n Hs). by eapply deleted_Some.
  - eapply meta_ok_deleted; [done|]. apply Hok.
  - intros n. destruct (decide (at_or_below p n)); auto.
Qed.

Lemma temp_unheld pins s n : at_or_below (temp_path s) n → below (ss_path s) n ∧ unheld pins s n.
Proof.
  intros Hn. split.
  - destruct Hn as [->|Hn]; [apply below_path_join|]. eapply below_trans; [right; apply below_path_join|done].
  - intros i _ _. by apply temp_snapshot_disjoint.
Qed.

Lemma snapshot_unheld pins s j n :
  index_ok j → j ∉ pins → at_or_below (snapshot_path j s) n → below (ss_path s) n ∧ unheld pins s n.
Proof.
  intros Hj Hp Hn. split.
  - destruct Hn as [->|Hn]; [apply below_path_join|]. eapply below_trans; [right; apply below_path_join|done].
  - intros i Hi Hok Hi'. apply Hp. by rewrite <-(snapshots_disjoint s i j n).
Qed.

(** ** Reference counts *)

(** Everything but counts, readers and disk. *)
Definition same_conf s s' : Prop :=
  ss_path s' = ss_path s ∧ ss_filter_before_copy_remote s' = ss_filter_before_copy_remote s ∧
  ss_last_snapshot_index s' = ss_last_snapshot_index s ∧ ss_copy_file s' = ss_copy_file s ∧ ss_sync_meta s' = ss_sync_meta s.

#[local] Instance same_conf_preorder : PreOrder same_conf.
Proof. split; [done|]. intros s1 s2 s3 (?&?&?&?&?) (?&?&?&?&?). split_and!; congruence. Qed.

Lemma storage_ok_unpin G i pins top s r :
  storage_ok G (i :: pins) top s → (ss_last_snapshot_index s = 0 ∨ ss_last_snapshot_index s ∈ pins) →
  (∀ j, r !! j = if decide (count j pins = 0) then None else Some (count j pins)) → storage_ok G pins top (with_ref_map r s).
Proof. intros [????????] Hl Hr. constructor; try done. intros j Hj. apply so_pins0. by right. Qed.

Lemma sr_io_eq {A} (m : IO A) s o a w' :
  m (ss_world s) = Some (a, w') → sr_io m (mkStorageRun s o) = Some (a, mkStorageRun (with_ss_world w' s) o).
Proof. intros Hm. unfold sr_io. cbn. by rewrite Hm. Qed.

Lemma destroy_snapshot_ok G pins top p s o :
  storage_ok G pins top s → (∀ n, at_or_below p n → below (ss_path s) n ∧ unheld pins s n) →
  ∃ rc w', destroy_snapshot p (mkStorageRun s o) = Some (rc, mkStorageRun (with_ss_world w' s) o) ∧
    storage_ok G pins top (with_ss_world w' s) ∧ deleted (at_or_below p) (ss_world s) w' ∧
    (rc = 0 → ∀ n, at_or_below p n → lk w' n = None) ∧ (w_writes (ss_world s) = [] → rc = 0 ∧ w_writes w' = []).
Proof.
  intros Hok HP. destruct (HP p (at_or_below_refl p)) as [Hb _].
  destruct (fs_delete_file_spec (ss_path s) p true (ss_world s)) as (b & w' & H1 & Hdel & Hwf & Hg & Hq);
    [apply Hok|apply Hok|by right|].
  unfold destroy_snapshot. rewrite (st_bind_eq _ _ _ _ _ (sr_io_eq _ s o _ _ H1)). eexists _, w'. split; [done|].
  split_and!; [by eapply storage_ok_delete|done| |].
  - destruct b; [auto|done].
  - intros Hw. destruct (Hq Hw) as [? Hb']. by rewrite Hb' by (by left).
Qed.

Lemma unref_locked_ok G i pins top s o :
  storage_ok G (i :: pins) top s → (ss_last_snapshot_index s = 0 ∨ ss_last_snapshot_index s ∈ pins) →
  ∃ s', unref_locked i (mkStorageRun s o) = Some (tt, mkStorageRun s' o) ∧ storage_ok G pins top s' ∧ same_conf s s' ∧
    ss_readers s' = ss_readers s ∧ deleted (at_or_below (snapshot_path i s)) (ss_world s) (ss_world s') ∧
    (w_writes (ss_world s) = [] → w_writes (ss_world s') = []).
Proof.
  intros Hok Hl. unfold unref_locked. rewrite (st_bind_eq _ _ _ (ss_ref_map s !! i) (mkStorageRun s o)) by done.
  pose proof (so_refs _ _ _ _ Hok) as Hr. pose proof (count_nonneg i pins) as Hc.
  assert (count i (i :: pins) = 1 + count i pins) as Hci by (by rewrite count_cons, decide_True).
  rewrite Hr, decide_False, Hci by lia. destruct (decide (1 + count i pins - 1 = 0)) as [H0|H0].
  - rewrite (st_bind_eq _ _ _ tt (mkStorageRun (with_ref_map (delete i (ss_ref_map s)) s) o)) by done.
    assert (storage_ok G pins top (with_ref_map (delete i (ss_ref_map s)) s)) as Hok1.
    { eapply storage_ok_unpin; [done..|]. intros j. destruct (decide (j = i)) as [->|Hj].
      - rewrite lookup_delete_eq, decide_True by lia. done.
      - by rewrite lookup_delete_ne, Hr, count_cons, (decide_False (P := j = i)), Z.add_0_l by done. }
    rewrite (st_bind_eq _ _ _ (snapshot_path i s) (mkStorageRun (with_ref_map (delete i (ss_ref_map s)) s) o)) by done.
    destruct (destroy_snapshot_ok G pins top (snapshot_path i s) _ o Hok1) as (rc & w' & H1 & Hok2 & Hdel & _ & Hq).
    { intros n Hn. apply (snapshot_unheld pins (with_ref_map (delete i (ss_ref_map s)) s) i); [|apply count_zero; lia|done].
      by apply (so_pins _ _ _ _ Hok i (list_elem_of_here _ _)). }
    rewrite (st_bind_eq _ _ _ _ _ H1). eexists. split; [done|]. split_and!; try done. intros Hw. by apply Hq.
  - eexists. split; [done|]. split_and!; try done. eapply storage_ok_unpin; [done..|]. intros j.
    destruct (decide (j = i)) as [->|Hj].
    + rewrite lookup_insert_eq, decide_False by lia. f_equal. lia.
    + by rewrite lookup_insert_ne, Hr, count_cons, (decide_False (P := j = i)), Z.add_0_l by done.
Qed.

Lemma storage_ok_pin G i pins top s :
  storage_ok G pins top s → intact G s i →
  storage_ok G (i :: pins) top (with_ref_map (<[i := default 0 (ss_ref_map s !! i) + 1]> (ss_ref_map s)) s).
Proof.
  intros [???? Hr Hpins Hlast ??] Hi. constructor; try done.
  - intros j. cbn [with_ref_map ss_ref_map]. rewrite count_cons. pose proof (count_nonneg j pins). destruct (decide (j = i)) as [->|Hj].
    + rewrite lookup_insert_eq, decide_False by lia. f_equal. rewrite Hr. case_decide; cbn; lia.
    + rewrite lookup_insert_ne, Hr, Z.add_0_l by done. done.
  - intros j [->|Hj]%elem_of_cons; [done|]. by apply Hpins.
  - cbn. destruct Hlast; [by left|right]. by right.
Qed.

(** ** Reading a snapshot *)

Lemma file_pread_total ino off size w :
  w_reads w = [] → 0 ≤ off → ∃ r, file_pread ino off size w = Some (r, w).
Proof.
  intros Hr Ho. destruct (decide (0 ≤ size)) as [Hs|Hs]; [eexists; by apply file_pread_full|].
  unfold file_pread. rewrite Hr. cbn [length]. unfold mbind, io_bind. cbn [pread_loop].
  rewrite decide_False by lia. by eexists.
Qed.

Lemma pb_file_load_total path w : w_reads w = [] → ∃ r w', pb_file_load path w = Some (r, w') ∧ same_disk w w'.
Proof.
  intros Hr. unfold pb_file_load. destruct (sys_stat_same path w Hr) as (w1 & H1 & Hsame). unfold sys_stat in H1.
  rewrite (io_bind_eq _ _ _ _ _ H1). destruct (lk w path) as [ino|]; [|by eexists _, _].
  assert (w_reads w1 = []) as Hr1 by (by destruct Hsame as ((-> & _) & _)).
  destruct (file_pread_total ino 0 4 w1 Hr1) as ([hdr n] & H2); [lia|]. rewrite (io_bind_eq _ _ _ _ _ H2).
  case_decide; [by eexists _, _|].
  destruct (file_pread_total ino 4 (i32 (NetToHost32 (load_le hdr))) w1 Hr1) as ([d n'] & H3); [lia|].
  rewrite (io_bind_eq _ _ _ _ _ H3). case_decide; by eexists _, _.
Qed.

Lemma message_table_roundtrip t : message_table (table_message id t) = t.
Proof.
  destruct t as [m meta]. unfold message_table, table_message. cbn [mt_meta pm_meta pm_files]. f_equal.
  apply map_eq. intros f. unfold mt_get_file_meta. cbn [mt_file_map].
  set (l := omap _ (mt_list_files (mkTable m meta))).
  assert (∀ g x, (g, x) ∈ l ↔ m !! g = Some x) as Hl.
  { intros g x. unfold l. rewrite list_elem_of_omap. split.
    - intros (n & _ & Hn). destruct (m !! n) eqn:E; [|done]. cbn in Hn. by injection Hn as <- <-.
    - intros Hg. exists g. split; [|by rewrite Hg]. unfold mt_list_files. rewrite merge_sort_Permutation.
      apply list_elem_of_fmap. exists (g, x). split; [done|]. by apply elem_of_map_to_list. }
  assert (NoDup (reverse l).*1) as Hnd.
  { rewrite fmap_reverse, reverse_Permutation. apply (sublist_NoDup _ (mt_list_files (mkTable m meta))).
    - unfold mt_list_files. rewrite merge_sort_Permutation. apply NoDup_fst_map_to_list.
    - unfold l. generalize (mt_list_files (mkTable m meta)). intros fs. induction fs as [|g fs IH]; [constructor|]. cbn.
      destruct (m !! g); cbn; by constructor. }
  destruct (m !! f) as [x|] eqn:E.
  - apply elem_of_list_to_map; [done|]. apply elem_of_reverse. by apply Hl.
  - apply not_elem_of_list_to_map. rewrite fmap_reverse, elem_of_reverse. intros ([g x] & -> & Hin)%list_elem_of_fmap.
    apply Hl in Hin. cbn in E. congruence.
Qed.

Lemma rd_init_spec `{!PbSnapshotLaws} p w :
  w_reads w = [] →
  ∃ rc rd w', rd_init (mkReader p empty_table 0) w = Some ((rc, rd), w') ∧ same_disk w w' ∧ rd_path rd = p ∧
    (∀ t, lk w p = Some dir_ino → has_table t (λ f, lookup_file w (path_join p f)) → rc = 0 ∧ rd_meta_table rd = t).
Proof.
  intros Hr. unfold rd_init. cbn [rd_path rd_meta_table rd_error].
  destruct (fs_directory_exists_spec p w Hr) as (w1 & H1 & S1). rewrite (io_bind_eq _ _ _ _ _ H1).
  pose proof S1 as ((Hr1 & _ & Hf1) & Hd1 & _). rewrite Hr in Hr1.
  case_bool_decide as Hp; cbn [negb]; [|by eexists _, _, _].
  unfold mt_load_from_file. set (meta := path_join p _).
  destruct (pb_file_load_total meta w1 Hr1) as (r & w2 & H2 & S2).
  rewrite (io_bind_eq _ _ _ (match r with Some d => (0, message_table (pb_snapshot_parse d).1) | None => (-1, empty_table) end) w2).
  2:{ rewrite (io_bind_eq _ _ _ _ _ H2). by destruct r. }
  assert (same_disk w w2) as S by (by etrans).
  assert (∀ t, has_table t (λ f, lookup_file w (path_join p f)) → r = Some (pb_snapshot_serialize (table_message id t)) ∧
    message_table (pb_snapshot_parse (pb_snapshot_serialize (table_message id t))).1 = t) as Ht.
  { intros t [Hc [Hm Hz]]. rewrite pb_snapshot_roundtrip by done. split; [|apply message_table_roundtrip].
    rewrite (pb_file_load_spec meta (pb_snapshot_serialize (table_message id t)) w1) in H2; [congruence|done| |done].
    rewrite <-Hc. fold meta. unfold lookup_file, w_content. by rewrite Hd1, Hf1. }
  destruct r as [d|]; cbn; eexists _, _, _; (split; [done|]); split_and!; try done; intros t _ [[= ->] ->]%Ht; done.
Qed.

(** ** Readers *)

Definition reader_indexes s : list Z := omap (λ e, rd_snapshot_index e.2) (map_to_list (ss_readers s)).

Definition readers_ok (G : Content) s : Prop :=
  map_Forall (λ _ rd, ∃ i, index_ok i ∧ i ≤ ss_last_snapshot_index s ∧ rd_path rd = snapshot_path i s ∧
                           has_table (rd_meta_table rd) (G i)) (ss_readers s).

(** [extra] is held by no reader: the last snapshot and what a call holds. *)
Definition snap_inv (G : Content) (extra : list Z) (top : Z) s : Prop :=
  readers_ok G s ∧ storage_ok G (reader_indexes s ++ extra) top s.

Lemma rd_snapshot_index_eq rd i s : index_ok i → rd_path rd = snapshot_path i s → rd_snapshot_index rd = Some i.
Proof.
  intros Hi Hp. unfold rd_snapshot_index. rewrite Hp. unfold snapshot_path.
  rewrite base_name_join by apply snapshot_name_no_slash. by apply scan_snapshot_name_eq.
Qed.

Lemma reader_indexes_insert id rd i s :
  ss_readers s !! id = None → rd_snapshot_index rd = Some i →
  reader_indexes (with_readers (<[id := rd]> (ss_readers s)) s) ≡ₚ i :: reader_indexes s.
Proof. intros Hid Hi. unfold reader_indexes. cbn [ss_readers with_readers]. rewrite map_to_list_insert by done. cbn -[rd_snapshot_index].
  by rewrite Hi. Qed.

Lemma reader_indexes_delete id rd i s :
  ss_readers s !! id = Some rd → rd_snapshot_index rd = Some i →
  reader_indexes s ≡ₚ i :: reader_indexes (with_readers (delete id (ss_readers s)) s).
Proof.
  intros Hid Hi. unfold reader_indexes. cbn [ss_readers with_readers]. rewrite <-(map_to_list_delete (ss_readers s) id rd) by done.
  cbn -[rd_snapshot_index]. by rewrite Hi.
Qed.

Lemma sr_lock_nil s : sr_lock (mkStorageRun s []) = Some (tt, mkStorageRun s []).
Proof. done. Qed.

Lemma ss_unref_nil i s : ss_unref i (mkStorageRun s []) = unref_locked i (mkStorageRun s []).
Proof. done. Qed.

Lemma same_disk_outside P w w' : same_disk w w' → outside P w w'.
Proof. intros Hs. by apply deleted_outside, same_disk_deleted. Qed.

Lemma storage_ok_lookups G pins top s w' :
  storage_ok G pins top s → dir_only (ss_world s) w' → (∀ n, lk w' n = lk (ss_world s) n) → fs_wf (ss_path s) w' →
  storage_ok G pins top (with_ss_world w' s).
Proof.
  intros Hok Ho Hl Hwf. eapply (storage_ok_world G pins top (λ _, False)); try done.
  - destruct Ho as (Hr & Hn & Hf). split_and!; [done|lia|done|]. intros. unfold w_content. by rewrite Hf.
  - destruct (so_meta _ _ _ _ Hok) as (? & ? & Hu). split_and!; [by rewrite Hl..|]. intros m i. rewrite !Hl. apply Hu.
  - auto.
Qed.

Lemma storage_ok_unchanged G pins top s w' :
  storage_ok G pins top s → dir_only (ss_world s) w' → w_dir w' = w_dir (ss_world s) →
  storage_ok G pins top (with_ss_world w' s).
Proof.
  intros Hok Ho Hd. apply storage_ok_lookups; [done..|by rewrite Hd|].
  destruct Ho as (_ & Hn & _). eapply fs_wf_same; [done..|apply Hok].
Qed.

Lemma storage_ok_same G pins top s w' :
  storage_ok G pins top s → same_disk (ss_world s) w' → storage_ok G pins top (with_ss_world w' s).
Proof. intros Hok (? & ? & _). by apply storage_ok_unchanged. Qed.

(** What other threads may change. *)
Definition others_frame s s' : Prop :=
  same_conf s s' ∧
  deleted (λ n, ∃ i, index_ok i ∧ i ≤ ss_last_snapshot_index s ∧ at_or_below (snapshot_path i s) n)
    (ss_world s) (ss_world s') ∧
  (w_writes (ss_world s) = [] → w_writes (ss_world s') = []).

Lemma others_frame_refl s : others_frame s s.
Proof. split_and!; [done|done|done]. Qed.

Lemma others_frame_trans s1 s2 s3 : others_frame s1 s2 → others_frame s2 s3 → others_frame s1 s3.
Proof.
  intros (H1 & H2 & H3) (G1 & G2 & G3). split_and!; [by etrans| |auto]. etrans; [exact H2|].
  eapply deleted_weaken; [|exact G2]. intros n (i & Hi & Hl & Hn). exists i.
  unfold snapshot_path in *. by destruct H1 as (<- & _ & <- & _).
Qed.

(** A reader of the last snapshot, if there is one. *)
Lemma open_locked_spec `{!PbSnapshotLaws} G extra top s o :
  snap_inv G extra top s →
  ∃ r s', open_locked (mkStorageRun s o) = Some (r, mkStorageRun s' o) ∧ snap_inv G extra top s' ∧ others_frame s s' ∧
    if decide (ss_last_snapshot_index s = 0) then r = None ∧ ss_readers s' = ss_readers s
    else ∃ id rd, r = Some id ∧ ss_readers s !! id = None ∧ ss_readers s' = <[id := rd]> (ss_readers s) ∧
      rd_path rd = snapshot_path (ss_last_snapshot_index s) s ∧ has_table (rd_meta_table rd) (G (ss_last_snapshot_index s)).
Proof.
  intros [Hrd Hok]. unfold open_locked.
  set (last := ss_last_snapshot_index s). rewrite (st_bind_eq _ _ _ last (mkStorageRun s o)) by done.
  destruct (decide (last = 0)) as [E|Hl].
  { rewrite decide_False by auto. eexists None, s. split; [done|]. split; [by split|]. split; [apply others_frame_refl|]. done. }
  rewrite decide_True by done. assert (intact G s last) as Hi.
  { destruct (so_last _ _ _ _ Hok) as [|Hin]; [done|]. by apply (so_pins _ _ _ _ Hok). }
  pose proof (storage_ok_pin G last _ top s Hok Hi) as Hpin. set (s1 := with_ref_map _ s) in Hpin.
  rewrite (st_bind_eq _ _ _ tt (mkStorageRun s1 o)) by done.
  rewrite (st_bind_eq _ _ _ (snapshot_path last s) (mkStorageRun s1 o)) by done.
  destruct (rd_init_spec (snapshot_path last s) (ss_world s1)) as (rc & rd & w' & H1 & Hsame & Hpath & Ht); [apply Hpin|].
  rewrite (st_bind_eq _ _ _ _ _ (sr_io_eq _ s1 o _ _ H1)). cbv beta iota.
  pose proof (storage_ok_same _ _ _ _ _ Hpin Hsame) as Hpin2. set (s2 := with_ss_world w' s1) in Hpin2 |- *.
  assert (others_frame s s2) as Hof.
  { split_and!; [done|by apply same_disk_deleted|]. destruct Hsame as (_ & _ & Hw). cbn. by rewrite Hw. }
  destruct Hi as (Hio & (t & Htab) & Hdir & Hfiles). destruct (Ht t) as [-> Htable]; [done| |].
  { destruct Htab as [Hc Hz]. split; [|done]. by rewrite <-Hc, <-Hfiles. }
  destruct (decide (0 ≠ 0)) as [?|_]; [done|].
  set (id := fresh (dom (ss_readers s2))). assert (ss_readers s2 !! id = None) as Hid by apply not_elem_of_dom, is_fresh.
  rewrite (st_bind_eq _ _ _ id (mkStorageRun s2 o)) by done.
  rewrite (st_bind_eq _ _ _ tt (mkStorageRun (with_readers (<[id := rd]> (ss_readers s2)) s2) o)) by done.
  assert (rd_snapshot_index rd = Some last) as Hidx by (by eapply (rd_snapshot_index_eq _ _ s)).
  eexists (Some id), _. split; [done|]. split; [split|split; [done|]].
  - intros id' rd'. cbn. intros [[<- <-]|[_ Hlk]]%lookup_insert_Some; [|by eapply Hrd].
    exists last. do 3 (split; [done|]). by rewrite Htable.
  - eapply (storage_ok_perm G (last :: reader_indexes s ++ extra)).
    + rewrite (reader_indexes_insert id rd last s2) by done. done.
    + by destruct Hpin2; constructor.
  - exists id, rd. do 4 (split; [done|]). by rewrite Htable.
Qed.

Lemma open_spec `{!PbSnapshotLaws} G extra top s :
  snap_inv G extra top s →
  ∃ r s', ss_open (mkStorageRun s []) = Some (r, mkStorageRun s' []) ∧ snap_inv G extra top s' ∧ others_frame s s' ∧
    if decide (ss_last_snapshot_index s = 0) then r = None ∧ ss_readers s' = ss_readers s
    else ∃ id rd, r = Some id ∧ ss_readers s !! id = None ∧ ss_readers s' = <[id := rd]> (ss_readers s) ∧
      rd_path rd = snapshot_path (ss_last_snapshot_index s) s ∧ has_table (rd_meta_table rd) (G (ss_last_snapshot_index s)).
Proof. unfold ss_open. rewrite (st_bind_eq _ _ _ _ _ (sr_lock_nil s)). apply open_locked_spec. Qed.

Lemma readers_conf G s s' : same_conf s s' → ss_readers s' = ss_readers s → readers_ok G s → readers_ok G s'.
Proof. intros (Hp & _ & Hl & _) Hr. unfold readers_ok, snapshot_path. by rewrite Hr, Hp, Hl. Qed.

Lemma unref_frame G pins top s s' i :
  storage_ok G pins top s → i ∈ pins → i ≤ ss_last_snapshot_index s → same_conf s s' →
  deleted (at_or_below (snapshot_path i s)) (ss_world s) (ss_world s') →
  (w_writes (ss_world s) = [] → w_writes (ss_world s') = []) → others_frame s s'.
Proof.
  intros Hok Hi Hle Hc Hd Hw. split_and!; [done| |done]. eapply deleted_weaken; [|exact Hd].
  intros n Hn. exists i. split_and!; [by apply (so_pins _ _ _ _ Hok)..|done|done].
Qed.

(** The last snapshot is held by the storage itself. *)
Definition last_held (extra : list Z) s : Prop := ss_last_snapshot_index s = 0 ∨ ss_last_snapshot_index s ∈ extra.

Lemma ss_close_reader_spec G extra top s id rd :
  snap_inv G extra top s → last_held extra s → ss_readers s !! id = Some rd →
  ∃ s', ss_close_reader id (mkStorageRun s []) = Some (0, mkStorageRun s' []) ∧ snap_inv G extra top s' ∧
    others_frame s s' ∧ ss_readers s' = delete id (ss_readers s).
Proof.
  intros [Hrd Hok] Hlast Hid. unfold ss_close_reader. destruct (Hrd id rd Hid) as (i & Hi & Hle & Hp & _).
  pose proof (rd_snapshot_index_eq rd i s Hi Hp) as Hidx.
  rewrite (st_bind_eq _ _ _ (ss_readers s) (mkStorageRun s [])) by done.
  rewrite (st_bind_eq _ _ _ rd (mkStorageRun s [])) by (unfold st_lift; by rewrite Hid).
  rewrite (st_bind_eq _ _ _ i (mkStorageRun s [])) by (unfold st_lift; by rewrite Hidx).
  set (rds := delete id (ss_readers s)). set (rest := reader_indexes (with_readers rds s) ++ extra).
  assert (reader_indexes s ++ extra ≡ₚ i :: rest) as Hperm.
  { unfold rest, rds. by rewrite (reader_indexes_delete id rd i s) by done. }
  destruct (unref_locked_ok G i rest top s []) as (s1 & H1 & Hok1 & Hc1 & Hr1 & Hd1 & Hw1).
  { by eapply storage_ok_perm. }
  { destruct Hlast as [?|?]; [by left|right]. apply elem_of_app. by right. }
  rewrite (st_bind_eq (ss_unref i) _ _ tt (mkStorageRun s1 [])) by exact H1.
  rewrite (st_bind_eq _ _ _ tt (mkStorageRun (with_readers (delete id (ss_readers s1)) s1) [])) by done.
  eexists. split; [done|]. split; [split|split].
  - eapply (readers_conf _ (with_readers rds s)); [exact Hc1|cbn; by rewrite Hr1|].
    intros id' rd'. cbn. unfold rds. intros [_ Hid']%lookup_delete_Some. by apply (Hrd id').
  - unfold reader_indexes. cbn [with_readers ss_readers]. rewrite Hr1. destruct Hok1. by constructor.
  - eapply (unref_frame G _ top s); [exact Hok|by rewrite Hperm; left|done..].
  - cbn. by rewrite Hr1.
Qed.

Lemma reader_call_spec `{!PbSnapshotLaws} G extra top s c :
  snap_inv G extra top s → last_held extra s →
  snap_inv G extra top (reader_call c s) ∧ others_frame s (reader_call c s).
Proof.
  intros Hinv Hl. unfold reader_call. destruct c as [|id].
  - destruct (open_spec G extra top s Hinv) as (r & s' & H1 & ? & ? & _). by rewrite (st_bind_eq _ _ _ _ _ H1).
  - destruct (decide (is_Some (ss_readers s !! id))) as [[rd Hrd]|_]; [|by split; [|apply others_frame_refl]].
    destruct (ss_close_reader_spec G extra top s id rd Hinv Hl Hrd) as (s' & H1 & ? & ? & _). by rewrite (st_bind_eq _ _ _ _ _ H1).
Qed.

Definition reader_calls (o : list (LocalSnapshotStorage → LocalSnapshotStorage)) : Prop :=
  Forall (λ g, ∃ c, g = reader_call c) o.

Lemma sr_lock_spec `{!PbSnapshotLaws} G extra top s o :
  snap_inv G extra top s → last_held extra s → reader_calls o →
  ∃ s' o', sr_lock (mkStorageRun s o) = Some (tt, mkStorageRun s' o') ∧ reader_calls o' ∧ snap_inv G extra top s' ∧
    others_frame s s' ∧ last_held extra s'.
Proof.
  intros Hinv Hl Ho. unfold sr_lock, st_mod. cbn. destruct Ho as [|g o [c ->] Ho].
  - exists s, []. split; [done|]. split; [constructor|]. split; [done|]. by split; [apply others_frame_refl|].
  - destruct (reader_call_spec G extra top s c Hinv Hl) as [? Hf]. exists (reader_call c s), o. split; [done|].
    do 2 (split; [done|]). split; [done|]. unfold last_held. destruct Hf as ((_ & _ & -> & _) & _). done.
Qed.

(** ** Writing a snapshot *)

Abbreviation temp_file s f := (path_join (temp_path s) f).

Lemma meta_no_slash : ch_slash ∉ MELON_RAFT_SNAPSHOT_META_FILE.
Proof. vm_compute. set_solver. Qed.

Lemma temp_file_below s f : at_or_below (temp_path s) (temp_file s f).
Proof. right. apply below_path_join. Qed.

(** No name below [temp] is a name in the root. *)
Lemma temp_file_not_child s f n : ch_slash ∉ n → path_join (ss_path s) n ≠ temp_file s f.
Proof.
  intros Hn E. unfold temp_path in E. rewrite path_join_assoc in E. apply path_join_inj in E. subst. apply Hn.
  unfold path_join. apply elem_of_app. right. left.
Qed.

(** The disk may change at and below [temp]. *)
Lemma storage_ok_temp G pins top s w' :
  storage_ok G pins top s → outside (at_or_below (temp_path s)) (ss_world s) w' → fs_wf (ss_path s) w' →
  meta_ok (temp_path s) w' → storage_ok G pins top (with_ss_world w' s).
Proof.
  intros Hok Ho Hwf Hm. eapply storage_ok_world; [done..| | |done|].
  - intros n. apply temp_unheld.
  - intros n Hn HP _. left. destruct HP as [HP|[f HP]%below_join]; [by apply path_join_inj in HP|].
    by apply temp_file_not_child in HP.
  - intros n. destruct (decide (at_or_below (temp_path s) n)); auto.
Qed.

Lemma wr_sync_spec G pins top s wr sync :
  storage_ok G pins top s → wr_path wr = temp_path s →
  ∃ rc wr' w', wr_sync sync wr (ss_world s) = Some ((rc, wr'), w') ∧ storage_ok G pins top (with_ss_world w' s) ∧
    wr_path wr' = temp_path s ∧ wr_meta_table wr' = wr_meta_table wr ∧ (w_writes (ss_world s) = [] → w_writes w' = []) ∧
    outside (λ n, ∃ f, n = temp_file s f) (ss_world s) w' ∧
    (∀ f, f ≠ MELON_RAFT_SNAPSHOT_META_FILE → f ≠ MELON_RAFT_SNAPSHOT_META_FILE ++ tmp_suffix →
      lookup_file w' (temp_file s f) = lookup_file (ss_world s) (temp_file s f)) ∧
    (rc = 0 ∧ lk w' (temp_path s) = Some dir_ino ∧ wr' = wr ∧
       lk w' (temp_file s (MELON_RAFT_SNAPSHOT_META_FILE ++ tmp_suffix)) = None ∧
       lookup_file w' (temp_file s MELON_RAFT_SNAPSHOT_META_FILE) =
         Some (pb_file_bytes (pb_snapshot_serialize (table_message id (wr_meta_table wr)))) ∨
     rc = -1 ∧ (w_writes (ss_world s) ≠ [] ∨ lk (ss_world s) (temp_path s) ≠ Some dir_ino)).
Proof.
  intros Hok Hp. unfold wr_sync. set (wrf := λ rc : Z, if decide (rc ≠ 0) then if wr_ok wr then wr_set_error rc wr else wr else wr).
  assert (∀ rc, wr_path (wrf rc) = temp_path s ∧ wr_meta_table (wrf rc) = wr_meta_table wr) as Hwrf.
  { intros rc. unfold wrf. repeat case_match; done. }
  unfold mt_save_to_file. rewrite Hp. unfold mbind, io_bind. destruct (decide (lk (ss_world s) (temp_path s) ≠ Some dir_ino)) as [Hnd|Hdir].
  { eexists _, (wrf (-1)), _. split; [done|]. split_and!; try apply Hwrf; try done; [by apply storage_ok_same|by right; auto]. }
  apply dec_stable in Hdir. destruct (so_meta _ _ _ _ Hok) as (M1 & M2 & M3).
  destruct (pb_file_save_spec (ss_path s) (temp_path s) MELON_RAFT_SNAPSHOT_META_FILE (ss_world s)
    (so_wf _ _ _ _ Hok) (or_intror (below_path_join _ _)) Hdir meta_no_slash M1 M2 M3
    (pb_snapshot_serialize (table_message id (wr_meta_table wr))) sync)
    as (rc & w' & -> & Hwf & Ho & Hlook & Hcase & M1' & M2' & M3' & Hq).
  exists rc, (wrf rc), w'. split; [done|].
  assert (outside (λ n, ∃ f, n = temp_file s f) (ss_world s) w') as Ho'.
  { eapply outside_weaken; [|exact Ho]. intros n [->|Hn]; [eauto|]. rewrite <-path_join_tmp in Hn. eauto. }
  split_and!; [|apply Hwrf|apply Hwrf|done|done| |].
  - apply storage_ok_temp; [done| |done|done]. eapply outside_weaken; [|exact Ho']. intros n (f & ->). apply temp_file_below.
  - intros f Hf1 Hf2. eapply outside_lookup_file; [exact Ho|]. rewrite <-path_join_tmp. intros [E|E]; by apply path_join_inj in E.
  - destruct Hcase as [(-> & Ht & _)|(-> & Hw)]; [left|right; auto]. rewrite decide_True in Hlook by done.
    split_and!; [done| |done|by rewrite path_join_tmp|done].
    destruct Ho' as (_ & _ & Hl & _). rewrite Hl; [done|]. intros (f & E). symmetry in E. by apply path_join_ne in E.
Qed.

(** The content of [temp] becomes the snapshot [n]. *)
Definition publish_content (G : Content) (n : Z) (F : list Z → option (list Z)) : Content :=
  λ i, if decide (i = n) then F else G i.

Lemma fresh_index G pins top s n :
  storage_ok G pins top s → index_ok n → top < n →
  (n ∉ pins) ∧ ∀ m, at_or_below (snapshot_path n s) m → lk (ss_world s) m = None.
Proof.
  intros Hok Hn Htop. assert (lk (ss_world s) (snapshot_path n s) = None) as Hnone.
  { apply eq_None_not_Some. intros Hs. apply (so_names _ _ _ _ Hok) in Hs; [|apply snapshot_name_no_slash].
    destruct Hs as [Hs|(i & Hs & Hi & Hle)]; [by apply snapshot_name_temp in Hs|].
    apply snapshot_name_inj in Hs; [lia|done..]. }
  split.
  - intros (_ & _ & Hd & _)%(so_pins _ _ _ _ Hok). congruence.
  - intros m [->|Hm]; [done|]. apply eq_None_not_Some. intros Hs. destruct (so_wf _ _ _ _ Hok) as (_ & _ & _ & Ht).
    rewrite (Ht (snapshot_path n s) m) in Hnone; [done| |done|done]. right. apply below_path_join.
Qed.

Section rename.
Context (G : Content) (pins : list Z) (top n : Z) (s : LocalSnapshotStorage) (w' : World).
Context (Hok : storage_ok G pins top s) (Hn : index_ok n) (Htop : top < n).
Context (Hdo : dir_only (ss_world s) w') (Hwf : fs_wf (ss_path s) w').
Context (Hl : ∀ m, lk w' m = lookup_renamed (ss_path s) _s_temp_path (snapshot_name n) (ss_world s) m).

Lemma renamed_elsewhere m :
  ¬ at_or_below (snapshot_path n s) m → ¬ at_or_below (temp_path s) m →
  lk w' m = lk (ss_world s) m ∧ lookup_file w' m = lookup_file (ss_world s) m.
Proof using Hl Hdo.
  intros H1 H2. assert (lk w' m = lk (ss_world s) m) as E.
  { rewrite Hl. unfold lookup_renamed. by rewrite !decide_False. }
  split; [done|]. destruct Hdo as (_ & _ & Hf). unfold lookup_file, w_content. by rewrite E, Hf.
Qed.

Lemma renamed_files f : lookup_file w' (path_join (snapshot_path n s) f) = lookup_file (ss_world s) (temp_file s f).
Proof using Hl Hdo.
  destruct Hdo as (_ & _ & Hf). unfold lookup_file, w_content. rewrite Hl, Hf. unfold lookup_renamed.
  rewrite decide_True by (right; apply below_path_join).
  change (path_join (snapshot_path n s) f) with (path_join (ss_path s) (snapshot_name n) ++ ch_slash :: f). by rewrite moved_app.
Qed.

Local Abbreviation G' := (publish_content G n (λ f, lookup_file (ss_world s) (temp_file s f))).

Lemma publish_content_ne i : i ≠ n → G' i = G i.
Proof using. intros Hne. unfold publish_content. by rewrite decide_False. Qed.

Lemma renamed_pinned i : i ∈ pins → intact G' (with_ss_world w' s) i.
Proof using Hok Hn Htop Hdo Hl.
  destruct (fresh_index G pins top s n Hok Hn Htop) as [Hfresh _].
  intros Hi. pose proof (so_pins _ _ _ _ Hok i Hi) as (Hio & Htab & Hid & Hif). assert (i ≠ n) as Hne by congruence.
  assert (∀ m, at_or_below (snapshot_path i s) m → ¬ at_or_below (snapshot_path n s) m ∧ ¬ at_or_below (temp_path s) m) as Hd.
  { intros m Hm. split; [|by intros ?%(temp_snapshot_disjoint s i)]. intros Hm'. by apply Hne, (snapshots_disjoint s i n m). }
  unfold intact. rewrite publish_content_ne by done. split_and!; [apply Hio..|done| |].
  - destruct (renamed_elsewhere (snapshot_path i s)) as [E _]; [by apply Hd; left..|]. cbn. by rewrite <-Hid.
  - intros f. rewrite <-Hif. apply renamed_elsewhere; apply Hd; right; apply below_path_join.
Qed.

Lemma renamed_new t :
  lk (ss_world s) (temp_path s) = Some dir_ino → has_table t (λ f, lookup_file (ss_world s) (temp_file s f)) →
  intact G' (with_ss_world w' s) n.
Proof using Hn Hdo Hl.
  intros Hdir Ht. assert (G' n = λ f, lookup_file (ss_world s) (temp_file s f)) as HG.
  { unfold publish_content. by rewrite decide_True. }
  unfold intact. rewrite HG. split; [done|]. split; [by exists t|]. split.
  - cbn. rewrite Hl. unfold lookup_renamed. rewrite decide_True by apply at_or_below_refl.
    unfold moved. by rewrite drop_ge, app_nil_r.
  - apply renamed_files.
Qed.

Lemma renamed_root m : at_or_below m (ss_path s) → lk w' m = lk (ss_world s) m.
Proof using Hl Hdo.
  intros Hm. apply renamed_elsewhere; intros Hb; pose proof (at_or_below_trans _ _ _ Hb Hm) as [E|E%below_length].
  - symmetry in E. by apply path_join_ne in E.
  - unfold snapshot_path, path_join in E. rewrite length_app in E. cbn in E. lia.
  - symmetry in E. by apply path_join_ne in E.
  - unfold temp_path, path_join in E. rewrite length_app in E. cbn in E. lia.
Qed.

Lemma storage_ok_rename : storage_ok G' pins n (with_ss_world w' s).
Proof using Hok Hn Htop Hdo Hwf Hl.
  pose proof renamed_pinned as Hp'. destruct Hok as [Hwf0 Hr Hroot Hnames Hrefs Hpins Hlast Htp Hmeta].
  assert (∀ m, at_or_below (temp_path s) m → lk w' m = None) as Htemp.
  { intros m Hm. rewrite Hl. unfold lookup_renamed. rewrite decide_False, decide_True; [done..|].
    by apply (temp_snapshot_disjoint s n). }
  constructor; try done; cbn [with_ss_world ss_path ss_world ss_ref_map ss_last_snapshot_index].
  - by destruct Hdo as (-> & _).
  - rewrite renamed_root; [done|apply at_or_below_refl].
  - intros m Hs Hex. destruct (decide (m = snapshot_name n)) as [->|Hmn]; [right; by exists n|].
    destruct (decide (m = _s_temp_path)) as [->|Hmt]; [by left|].
    assert (∀ k, (ch_slash ∉ k) → m ≠ k → ¬ at_or_below (path_join (ss_path s) k) (path_join (ss_path s) m)) as Hd.
    { intros k Hk Hne Hb. apply Hne. eapply (path_join_below_inj (ss_path s)); [done..|left; reflexivity|done]. }
    destruct (renamed_elsewhere (path_join (ss_path s) m)) as [E _].
    { apply Hd; [apply snapshot_name_no_slash|done]. }
    { apply Hd; [apply temp_no_slash|done]. }
    rewrite E in Hex. destruct (Hnames m Hs Hex) as [|(i & -> & Hi & Hle)]; [by left|right]. exists i. split_and!; [done|apply Hi..|lia].
  - lia.
  - change (temp_path (with_ss_world w' s)) with (temp_path s). unfold meta_ok, unshared.
    rewrite <-path_join_tmp, !Htemp by apply temp_file_below. done.
Qed.
End rename.

Definition held s : list Z := if decide (ss_last_snapshot_index s = 0) then [] else [ss_last_snapshot_index s].

Lemma held_last s : last_held (held s) s.
Proof. unfold last_held, held. case_decide; [by left|right]. apply list_elem_of_here. Qed.

Lemma held_conf s s' : same_conf s s' → held s' = held s.
Proof. intros (_ & _ & Hl & _). unfold held. by rewrite Hl. Qed.

Lemma intact_others G s s' n :
  intact G s n → ss_last_snapshot_index s < n → others_frame s s' → intact G s' n.
Proof.
  intros Hi Hlt ((Hp & _) & Hd & _). pose proof Hi as (Hn & _).
  assert (intact G (with_ss_world (ss_world s') s) n) as (? & ? & ? & ?).
  { eapply intact_outside; [done|by apply deleted_outside|]. intros m (i & Hio & Hle & Hm) Hm'.
    rewrite (snapshots_disjoint s i n m) in Hle; [lia|done..]. }
  unfold intact, snapshot_path. rewrite Hp. done.
Qed.

(** A count of its own, taken with the mutex. *)
Lemma ss_ref_spec `{!PbSnapshotLaws} G top n s o :
  snap_inv G (held s) top s → intact G s n → ss_last_snapshot_index s < n → reader_calls o →
  ∃ s' o', ss_ref n (mkStorageRun s o) = Some (tt, mkStorageRun s' o') ∧ reader_calls o' ∧
    snap_inv G (n :: held s) top s' ∧ others_frame s s'.
Proof.
  intros Hinv Hi Hlt Ho. destruct (sr_lock_spec G (held s) top s o Hinv (held_last s) Ho)
    as (s1 & o1 & H1 & Ho1 & [Hrd1 Hok1] & Hf & _).
  unfold ss_ref. rewrite (st_bind_eq _ _ _ _ _ H1). eexists _, o1. split; [done|]. split; [done|]. split; [split|].
  - exact Hrd1.
  - eapply storage_ok_perm; [|apply storage_ok_pin; [exact Hok1|by eapply intact_others]].
    cbn. unfold reader_indexes. by rewrite Permutation_middle.
  - done.
Qed.

Lemma others_frame_conf s s' : others_frame s s' → same_conf s s'.
Proof. by intros (? & _). Qed.

Lemma snap_inv_set_last G n s :
  snap_inv G (n :: held s) n s → ss_last_snapshot_index s < n → snap_inv G (n :: held s) n (with_last_snapshot_index n s).
Proof.
  intros [Hrd Hok] Hlt. split.
  - intros id rd Hid. destruct (Hrd id rd Hid) as (i & Hi & Hle & Hp & Htab). exists i. do 2 (split; [done || cbn; lia|]). done.
  - pose proof (so_top _ _ _ _ Hok). destruct Hok as [? ? ? ? ? Hpins ? ? ?]. constructor; try done.
    + right. cbn. apply elem_of_app. right. apply list_elem_of_here.
    + cbn. lia.
Qed.

(** Giving up the old snapshot. *)
Lemma ss_unref_old `{!PbSnapshotLaws} G n s o old :
  snap_inv G (n :: (if decide (old = 0) then [] else [old])) n s → ss_last_snapshot_index s = n → old ≤ n → reader_calls o →
  ∃ s' o', ss_unref old (mkStorageRun s o) = Some (tt, mkStorageRun s' o') ∧ reader_calls o' ∧ snap_inv G [n] n s' ∧ others_frame s s'.
Proof.
  intros Hinv Hl Hle Ho. set (extra := n :: _) in Hinv.
  destruct (sr_lock_spec G extra n s o Hinv) as (s1 & o1 & H1 & Ho1 & Hinv1 & Hf & Hh1);
    [right; rewrite Hl; apply list_elem_of_here|done|].
  unfold ss_unref. rewrite (st_bind_eq _ _ _ _ _ H1). destruct Hinv1 as [Hrd1 Hok1].
  assert (ss_last_snapshot_index s1 = n) as Hl1 by (by destruct Hf as ((_ & _ & -> & _) & _)).
  unfold extra in *. destruct (decide (old = 0)) as [->|Hold].
  - assert (count 0 (reader_indexes s1 ++ [n]) = 0) as Hc.
    { apply count_zero. intros [Hi _]%(so_pins _ _ _ _ Hok1). unfold index_ok in Hi. lia. }
    exists s1, o1. split; [|done]. unfold unref_locked.
    rewrite (st_bind_eq _ _ _ None (mkStorageRun s1 o1)); [done|]. unfold sr_get, st_get. cbn [sr_storage].
    by rewrite (so_refs _ _ _ _ Hok1), decide_True.
  - destruct (unref_locked_ok G old (reader_indexes s1 ++ [n]) n s1 o1) as (s2 & H2 & Hok2 & Hc2 & Hr2 & Hd2 & Hw2).
    { eapply storage_ok_perm; [|exact Hok1]. rewrite (Permutation_swap old n). symmetry. apply Permutation_middle. }
    { right. rewrite Hl1. apply elem_of_app. right. apply list_elem_of_here. }
    exists s2, o1. split; [exact H2|]. split; [done|]. split; [split|].
    + by eapply readers_conf.
    + unfold reader_indexes. by rewrite Hr2.
    + eapply others_frame_trans; [done|]. eapply (unref_frame G _ n s1 _ old); [exact Hok1| |lia|done..].
      apply elem_of_app. right. right. left.
Qed.

(** Setting the new snapshot, once it has its name. *)
Lemma publish_finish `{!PbSnapshotLaws} G n s o :
  snap_inv G (held s) n s → intact G s n → ss_last_snapshot_index s < n → reader_calls o →
  ∃ s' o', (ss_ref n;; sr_lock;; last ← sr_get ss_last_snapshot_index; st_check (ss_last_snapshot_index s = last);;
            sr_mod (with_last_snapshot_index n);; ss_unref (ss_last_snapshot_index s);; mret 0) (mkStorageRun s o) =
      Some (0, mkStorageRun s' o') ∧ reader_calls o' ∧ snap_inv G [n] n s' ∧ same_conf (with_last_snapshot_index n s) s' ∧
      (w_writes (ss_world s) = [] → w_writes (ss_world s') = []).
Proof.
  intros Hinv Hi Hlt Ho. destruct (ss_ref_spec G n n s o Hinv Hi Hlt Ho) as (s1 & o1 & H1 & Ho1 & Hinv1 & Hf1).
  rewrite (st_bind_eq _ _ _ _ _ H1). pose proof (others_frame_conf _ _ Hf1) as Hc1.
  destruct (sr_lock_spec G (n :: held s) n s1 o1 Hinv1) as (s2 & o2 & H2 & Ho2 & Hinv2 & Hf2 & _); [|done|].
  { unfold last_held. destruct Hc1 as (_ & _ & -> & _). destruct (held_last s); [by left|right]. by right. }
  rewrite (st_bind_eq _ _ _ _ _ H2). pose proof (others_frame_trans _ _ _ Hf1 Hf2) as Hf12.
  pose proof (others_frame_conf _ _ Hf12) as Hc2. pose proof Hc2 as (_ & _ & Hl2 & _).
  rewrite (st_bind_eq _ _ _ (ss_last_snapshot_index s) (mkStorageRun s2 o2)) by (unfold sr_get, st_get; cbn; by rewrite Hl2).
  rewrite (st_bind_eq _ _ _ tt (mkStorageRun s2 o2)) by (by apply st_check_true).
  rewrite (st_bind_eq _ _ _ tt (mkStorageRun (with_last_snapshot_index n s2) o2)) by done.
  rewrite <-(held_conf s s2 Hc2) in Hinv2. pose proof (snap_inv_set_last G n s2 Hinv2 ltac:(by rewrite Hl2)) as Hinv3.
  unfold held in Hinv3. rewrite Hl2 in Hinv3.
  destruct (ss_unref_old G n (with_last_snapshot_index n s2) o2 (ss_last_snapshot_index s)) as (s3 & o3 & H3 & Ho3 & Hinv4 & Hf3);
    [done|done|lia|done|].
  rewrite (st_bind_eq _ _ _ _ _ H3). exists s3, o3. split; [done|]. split; [done|]. split; [done|]. split.
  - etrans; [|by apply others_frame_conf]. destruct Hc2 as (?&?&?&?&?). by split_and!.
  - intros Hw. apply Hf3. cbn. by apply Hf12.
Qed.

Definition published_files (wr : LocalSnapshotWriter) s (F : list Z → option (list Z)) : Prop :=
  F MELON_RAFT_SNAPSHOT_META_FILE =
    Some (pb_file_bytes (pb_snapshot_serialize (table_message id (wr_meta_table wr)))) ∧
  F (MELON_RAFT_SNAPSHOT_META_FILE ++ tmp_suffix) = None ∧
  ∀ f, f ≠ MELON_RAFT_SNAPSHOT_META_FILE → f ≠ MELON_RAFT_SNAPSHOT_META_FILE ++ tmp_suffix →
    F f = lookup_file (ss_world s) (temp_file s f).

(** The last snapshot after a writer was closed: the new one, or the old one
    when something failed. *)
Definition replaced (G : Content) (wr : LocalSnapshotWriter) s s' : Prop :=
  let n := wr_snapshot_index wr in
  index_ok n ∧ ss_last_snapshot_index s < n ∧ same_conf (with_last_snapshot_index n s) s' ∧
  ∃ F, published_files wr s F ∧ snap_inv (publish_content G n F) [n] n s'.

Definition kept (G : Content) s s' : Prop := same_conf s s' ∧ snap_inv G (held s) (ss_last_snapshot_index s) s'.

(** A writer in [temp] for a snapshot that is not older than the last one. *)
Definition writer_ok wr s : Prop :=
  wr_path wr = temp_path s ∧
  (wr_error wr = 0 → table_ok (wr_meta_table wr) ∧
    (wr_snapshot_index wr = ss_last_snapshot_index s ∨
     index_ok (wr_snapshot_index wr) ∧ ss_last_snapshot_index s < wr_snapshot_index wr)).

Lemma snap_inv_world G extra top s w' :
  snap_inv G extra top s → storage_ok G (reader_indexes s ++ extra) top (with_ss_world w' s) →
  snap_inv G extra top (with_ss_world w' s).
Proof. by intros [? ?] ?. Qed.

Lemma others_temp s s' m :
  others_frame s s' → at_or_below (temp_path s) m →
  lk (ss_world s') m = lk (ss_world s) m ∧ lookup_file (ss_world s') m = lookup_file (ss_world s) m.
Proof.
  intros (_ & Hd & _) Hm. assert (¬ ∃ i, index_ok i ∧ i ≤ ss_last_snapshot_index s ∧ at_or_below (snapshot_path i s) m) as Hn.
  { intros (i & _ & _ & Hi). by apply (temp_snapshot_disjoint s i m). }
  split; [by apply Hd|]. eapply outside_lookup_file; [by apply deleted_outside|done].
Qed.

Lemma readers_publish G n F s : ss_last_snapshot_index s < n → readers_ok G s → readers_ok (publish_content G n F) s.
Proof.
  intros Hlt Hrd id rd Hid. destruct (Hrd id rd Hid) as (i & Hi & Hle & Hp & Ht). exists i. do 3 (split; [done|]).
  unfold publish_content. rewrite decide_False by lia. done.
Qed.

Lemma snap_inv_ext G G' extra top s :
  (∀ i f, G i f = G' i f) → snap_inv G extra top s → snap_inv G' extra top s.
Proof.
  intros HG [Hrd [? ? ? ? ? Hpins ? ? ?]].
  assert (∀ t i, has_table t (G i) → has_table t (G' i)) as Hht by (intros t i [? ?]; split; [by rewrite <-HG|done]).
  split.
  - intros id rd Hid. destruct (Hrd id rd Hid) as (i & ? & ? & ? & ?). exists i. do 3 (split; [done|]). auto.
  - constructor; try done. intros i Hi. destruct (Hpins i Hi) as (? & [t Ht] & ? & Hf). split; [done|]. split; [eauto|].
    split; [done|]. intros f. by rewrite Hf, HG.
Qed.

Lemma place_snapshot_spec `{!PbSnapshotLaws} G n s o t :
  snap_inv G (held s) (ss_last_snapshot_index s) s → index_ok n → ss_last_snapshot_index s < n → reader_calls o →
  lk (ss_world s) (temp_path s) = Some dir_ino → has_table t (λ f, lookup_file (ss_world s) (temp_file s f)) →
  ∃ rc s' o', place_snapshot (ss_last_snapshot_index s) n (mkStorageRun s o) = Some (rc, mkStorageRun s' o') ∧ reader_calls o' ∧
    (w_writes (ss_world s) = [] → rc = 0 ∧ w_writes (ss_world s') = []) ∧
    (rc = 0 ∧ same_conf (with_last_snapshot_index n s) s' ∧
       snap_inv (publish_content G n (λ f, lookup_file (ss_world s) (temp_file s f))) [n] n s' ∨
     rc = EIO ∧ kept G s s').
Proof.
  intros [Hrd Hok] Hn Hlt Ho Hdir Htab. unfold place_snapshot.
  rewrite (st_bind_eq _ _ _ (temp_path s) (mkStorageRun s o)), (st_bind_eq _ _ _ (snapshot_path n s) (mkStorageRun s o)) by done.
  destruct (fresh_index G _ _ s n Hok Hn Hlt) as [Hfresh Hnone].
  destruct (fs_delete_file_spec (ss_path s) (snapshot_path n s) true (ss_world s)) as (b & w1 & H1 & Hdel & Hwf1 & _ & Hq1);
    [apply Hok|apply Hok|right; apply below_path_join|].
  rewrite (st_bind_eq _ _ _ _ _ (sr_io_eq _ s o _ _ H1)). set (s1 := with_ss_world w1 s).
  assert (storage_ok G (reader_indexes s1 ++ held s1) (ss_last_snapshot_index s1) s1) as Hok1.
  { eapply storage_ok_delete; [done..|]. intros m. by apply snapshot_unheld. }
  destruct b; cbn [negb].
  2:{ eexists EIO, s1, o. split; [done|]. split; [done|]. split; [|right; done].
      intros Hw. destruct (Hq1 Hw) as [_ Hb]. specialize (Hb (or_introl eq_refl)). done. }
  assert (lk w1 (temp_path s) = Some dir_ino ∧ ∀ f, lookup_file w1 (temp_file s f) = lookup_file (ss_world s) (temp_file s f))
    as [Hdir1 Hfiles].
  { split; [destruct Hdel as (_&_&_&_&Hsame&_); rewrite Hsame; [done|]|
      intros f; eapply outside_lookup_file; [by apply deleted_outside|]]; apply temp_snapshot_disjoint;
      [apply at_or_below_refl|apply temp_file_below]. }
  destruct (fs_rename_spec (ss_path s) _s_temp_path (snapshot_name n) w1) as (ok & w2 & H2 & Hwf2 & Hdo & Hq2 & Hcase);
    [done|apply temp_no_slash|apply snapshot_name_no_slash|by intros E; symmetry in E; apply snapshot_name_temp in E|apply Hok1|done|
     intros m Hm; eapply deleted_None; [done|by apply Hnone]|].
  rewrite (st_bind_eq _ _ _ _ _ (sr_io_eq _ s1 o _ _ H2)). set (s2 := with_ss_world w2 s1).
  destruct Hcase as [[-> Hl]|[-> Hd]]; cbn [negb].
  2:{ eexists EIO, s2, o. split; [done|]. split; [done|]. split; [|right].
      - intros Hw. destruct (Hq2 ltac:(by apply Hq1)) as [? _]. done.
      - split; [done|]. split; [done|]. split; [done|]. by apply storage_ok_unchanged. }
  pose proof (storage_ok_rename G _ _ n s1 w2 Hok1 Hn Hlt Hdo Hwf2 Hl) as Hok2.
  assert (has_table t (λ f, lookup_file w1 (temp_file s f))) as Htab1 by (destruct Htab; split; [by rewrite Hfiles|done]).
  pose proof (renamed_new G n s1 w2 Hn Hdo Hl t Hdir1 Htab1) as Hi2.
  destruct (publish_finish _ n s2 o (conj (readers_publish _ _ _ _ Hlt Hrd) Hok2) Hi2 Hlt Ho) as (s' & o' & H3 & Ho' & Hinv' & Hc' & Hw').
  exists 0, s', o'. split; [exact H3|]. split; [done|]. split; [|left; split_and!; [done|done|]].
  - intros Hw. split; [done|]. apply Hw'. apply Hq2. by apply Hq1.
  - eapply snap_inv_ext; [|exact Hinv']. intros i f. unfold publish_content. case_decide; [|done]. apply Hfiles.
Qed.

Lemma publish_spec `{!PbSnapshotLaws} G wr s o :
  snap_inv G (held s) (ss_last_snapshot_index s) s → writer_ok wr s → wr_error wr = 0 → reader_calls o →
  ∃ rc s' o', publish wr (mkStorageRun s o) = Some (rc, mkStorageRun s' o') ∧ reader_calls o' ∧
    (rc = 0 ∧ replaced G wr s s' ∨ rc ≠ 0 ∧ kept G s s') ∧
    (w_writes (ss_world s) = [] → w_writes (ss_world s') = [] ∧
      (lk (ss_world s) (temp_path s) = Some dir_ino → wr_snapshot_index wr ≠ ss_last_snapshot_index s → rc = 0)).
Proof.
  intros Hinv [Hp Hidx] He Ho. destruct (Hidx He) as [Htab Hidx']. clear Hidx. rename Hidx' into Hidx. unfold publish. rewrite (st_bind_eq _ _ _ (ss_sync_meta s) (mkStorageRun s o)) by done.
  destruct (wr_sync_spec G _ _ s wr (ss_sync_meta s) (proj2 Hinv) Hp)
    as (rc & wr' & w1 & H1 & Hok1 & Hp1 & Ht1 & Hq1 & Hout1 & Hkeep1 & Hcase).
  rewrite (st_bind_eq _ _ _ _ _ (sr_io_eq _ s o _ _ H1)). cbv beta iota. set (s1 := with_ss_world w1 s).
  assert (snap_inv G (held s1) (ss_last_snapshot_index s1) s1) as Hinv1 by (by apply snap_inv_world).
  destruct Hcase as [(-> & Hdir1 & -> & Htmp1 & Hmeta1)|(-> & Hbad)]; cbn [decide].
  2:{ exists (-1), s1, o. split; [done|]. split; [done|]. split; [right; split; [done|by split]|].
      intros Hw. split; [auto|]. intros Hd. by destruct Hbad. }
  destruct (decide (0 ≠ 0)) as [?|_]; [done|].
  destruct (sr_lock_spec G (held s1) _ s1 o Hinv1 (held_last s1) Ho) as (s2 & o2 & H2 & Ho2 & Hinv2 & Hf2 & _).
  rewrite (st_bind_eq _ _ _ _ _ H2). pose proof (others_frame_conf _ _ Hf2) as Hc2. pose proof Hc2 as (Hpath2 & _ & Hl2 & _).
  rewrite (st_bind_eq _ _ _ (ss_last_snapshot_index s2) (mkStorageRun s2 o2)) by done. cbv zeta.
  assert (∀ f, temp_file s2 f = temp_file s f) as Htf by (intros f; unfold temp_path; by rewrite Hpath2).
  destruct (decide (wr_snapshot_index wr = ss_last_snapshot_index s2)) as [E|E].
  { exists EEXIST, s2, o2. split; [done|]. split; [done|]. split; [right; by split|]. intros Hw. split; [by apply Hf2, Hq1|].
    intros _ Hne. by rewrite E, Hl2 in Hne. }
  rewrite <-(held_conf _ _ Hc2), <-Hl2 in Hinv2.
  assert (∀ f, lookup_file (ss_world s2) (temp_file s f) = lookup_file w1 (temp_file s f)) as Hsame.
  { intros f. apply (others_temp s1 s2); [done|]. apply (temp_file_below s1). }
  destruct (place_snapshot_spec G (wr_snapshot_index wr) s2 o2 (wr_meta_table wr) Hinv2) as (rc & s3 & o3 & H3 & Ho3 & Hq3 & Hcase);
    [rewrite Hl2 in E; by destruct Hidx as [|[]]|rewrite Hl2 in E |- *; by destruct Hidx as [|[]]|done| | |].
  2:{ split; [by rewrite Htf, Hsame|done]. }
  { destruct (others_temp s1 s2 (temp_path s1) Hf2 (at_or_below_refl _)) as [Hlk _].
    unfold temp_path in *. rewrite Hpath2. cbn in *. by rewrite Hlk. }
  exists rc, s3, o3. split; [exact H3|]. split; [done|].
  destruct Hcase as [(-> & Hc3 & Hinv3)|(-> & Hc3 & Hinv3)].
  - split; [left; split; [done|]|intros Hw; split; [apply Hq3, Hf2, Hq1; done|done]]. unfold replaced.
    destruct Hidx as [Hidx|[Hix Hlt]]; [by rewrite Hl2 in E|]. split; [done|]. split; [done|]. split.
    + etrans; [|exact Hc3]. destruct Hc2 as (?&?&?&?&?). by split_and!.
    + eexists. split; [|exact Hinv3]. unfold published_files. rewrite !Htf, !Hsame. split_and!; [done|unfold lookup_file; by rewrite Htmp1|]. intros f Hf1' Hf2'. rewrite Htf, Hsame. auto.
  - split; [right; split; [done|]|intros Hw; destruct (Hq3 ltac:(by apply Hf2, Hq1)); done]. split; [by etrans|].
    rewrite (held_conf _ _ Hc2) in Hinv3. by rewrite Hl2 in Hinv3.
Qed.

(** [close(writer)]: whatever fails and whatever readers do meanwhile. *)
Lemma close_writer_spec `{!PbSnapshotLaws} G wr keep s o :
  snap_inv G (held s) (ss_last_snapshot_index s) s → writer_ok wr s → reader_calls o →
  ∃ rc s' o', close_writer wr keep (mkStorageRun s o) = Some (rc, mkStorageRun s' o') ∧ reader_calls o' ∧
    (replaced G wr s s' ∧ wr_error wr = 0 ∧ rc = 0 ∨ kept G s s') ∧
    (w_writes (ss_world s) = [] → w_writes (ss_world s') = [] ∧
      (wr_error wr = 0 → lk (ss_world s) (temp_path s) = Some dir_ino →
       wr_snapshot_index wr ≠ ss_last_snapshot_index s → replaced G wr s s' ∧ rc = 0)).
Proof.
  intros Hinv Hwr Ho. unfold close_writer. pose proof Hwr as [Hp _].
  assert (∃ rc s1 o1, (if decide (wr_error wr ≠ 0) then mret (wr_error wr) else publish wr) (mkStorageRun s o) =
      Some (rc, mkStorageRun s1 o1) ∧ reader_calls o1 ∧ (rc = 0 ∧ replaced G wr s s1 ∧ wr_error wr = 0 ∨ rc ≠ 0 ∧ kept G s s1) ∧
      (w_writes (ss_world s) = [] → w_writes (ss_world s1) = [] ∧ (wr_error wr = 0 →
        lk (ss_world s) (temp_path s) = Some dir_ino → wr_snapshot_index wr ≠ ss_last_snapshot_index s → rc = 0)))
    as (rc & s1 & o1 & H1 & Ho1 & Hcase & Hq).
  { case_decide as He; [exists (wr_error wr), s, o; split; [done|]; split; [done|]; split; [right; split; [done|by split]|done]|].
    destruct (publish_spec G wr s o Hinv Hwr He Ho) as (rc & s1 & o1 & ? & ? & Hcase & Hq).
    exists rc, s1, o1. split_and!; [done|done| |naive_solver]. naive_solver. }
  rewrite (st_bind_eq _ _ _ _ _ H1). destruct Hcase as [(-> & Hrep & He)|(Hrc & Hkept)].
  - rewrite (decide_False (P := 0 ≠ 0 ∧ keep = false)) by naive_solver. rewrite (st_bind_eq _ _ _ 0 (mkStorageRun s1 o1)) by done.
    exists 0, s1, o1. split; [done|]. split; [done|]. split; [by left|]. intros Hw. split; [by apply Hq|done].
  - assert (∃ rc2 s2, (if decide (rc ≠ 0 ∧ keep = false) then destroy_snapshot (wr_path wr) else mret 0) (mkStorageRun s1 o1) =
      Some (rc2, mkStorageRun s2 o1) ∧ kept G s s2 ∧ (w_writes (ss_world s1) = [] → w_writes (ss_world s2) = [])) as (rc2 & s2 & H2 & Hk2 & Hw2).
    { destruct (decide (rc ≠ 0 ∧ keep = false)); [|exists 0, s1; split; [done|]; by split]. destruct Hkept as [Hc1 [Hrd1 Hok1]].
      destruct (destroy_snapshot_ok G _ _ (wr_path wr) s1 o1 Hok1) as (rc2 & w2 & H2 & Hok2 & _ & _ & Hw2).
      { intros m. rewrite Hp. unfold temp_path. destruct Hc1 as (<- & _). apply temp_unheld. }
      exists rc2, (with_ss_world w2 s1). split; [done|]. split; [by split|]. intros Hw. by apply Hw2. }
    rewrite (st_bind_eq _ _ _ _ _ H2). eexists _, s2, o1. split; [done|]. split; [done|]. split; [by right|].
    intros Hw. destruct (Hq Hw) as [Hw1 Hz]. split; [auto|]. intros. by destruct Hrc; apply Hz.
Qed.

(** ** Restarting *)

(** A new storage on the same disk; its calls succeed. *)
Definition ss_reopen (filter sync_meta : bool) s : LocalSnapshotStorage :=
  let w := ss_world s in
  ss_new (ss_path s) filter sync_meta (mkWorld (w_files w) (w_dir w) (w_next w) 0 [] []).

Lemma ss_reopen_ok G pins s filter sync_meta :
  storage_ok G pins (ss_last_snapshot_index s) s →
  storage_ok G [] (ss_last_snapshot_index s) (ss_reopen filter sync_meta s) ∧
  (ss_last_snapshot_index s ≠ 0 → intact G (ss_reopen filter sync_meta s) (ss_last_snapshot_index s)).
Proof.
  intros [Hwf ? ? ? ? Hpins Hlast ? ?]. split.
  - constructor; try done.
    + by intros i ?%elem_of_nil.
    + by left.
    + cbn. lia.
  - intros Hne. destruct Hlast as [|Hin]; [done|]. by destruct (Hpins _ Hin).
Qed.

Lemma delete_old_snapshots_spec G top L s :
  storage_ok G [] top s → w_writes (ss_world s) = [] → StronglySorted Z.lt L → Forall index_ok L →
  (∀ m, last L = Some m → intact G s m) →
  ∃ w', delete_old_snapshots L (mkStorageRun s []) = Some ((0, default 0 (last L)), mkStorageRun (with_ss_world w' s) []) ∧
    storage_ok G [] top (with_ss_world w' s) ∧ w_writes w' = [] ∧ (∀ m, last L = Some m → intact G (with_ss_world w' s) m).
Proof.
  revert s. induction L as [|i L IH]; intros s Hok Hw HL Hidx Hm.
  { exists (ss_world s). split_and!; [by destruct s|by destruct Hok; constructor|done|done]. }
  destruct L as [|j L]; [exists (ss_world s); split_and!; [by destruct s|by destruct Hok; constructor|done|done]|].
  apply StronglySorted_inv in HL as [HL Hlt]. apply Forall_cons in Hidx as [Hi Hidx].
  assert (last (i :: j :: L) = last (j :: L)) as Hlast by done. rewrite Hlast in *.
  change (delete_old_snapshots (i :: j :: L)) with (path ← sr_get (snapshot_path i);
    deleted ← sr_io (fs_delete_file path true);
    if (deleted : bool) then delete_old_snapshots (j :: L) else mret (EIO, 0)).
  rewrite (st_bind_eq _ _ _ (snapshot_path i s) (mkStorageRun s [])) by done.
  destruct (fs_delete_file_spec (ss_path s) (snapshot_path i s) true (ss_world s)) as (b & w1 & H1 & Hdel & Hwf1 & _ & Hq);
    [apply Hok|apply Hok|right; apply below_path_join|].
  rewrite (st_bind_eq _ _ _ _ _ (sr_io_eq _ s [] _ _ H1)). destruct (Hq Hw) as [Hw1 Hb]. rewrite Hb by (by left).
  destruct (IH (with_ss_world w1 s)) as (w' & H2 & Hok' & Hw' & Hm'); [|done|done|done| |].
  - eapply storage_ok_delete; [done..|]. intros m Hmn. eapply snapshot_unheld; [exact Hi|apply not_elem_of_nil|done].
  - intros m Hlm. eapply intact_outside; [by apply Hm|by apply deleted_outside|]. intros n Hn Hn'.
    assert (i = m) as -> by (eapply (snapshots_disjoint s); [done|by apply Hm|done..]).
    rewrite Forall_forall in Hlt. assert (m ∈ j :: L) as Hin by (by apply last_Some_elem_of). apply Hlt in Hin. lia.
  - exists w'. by rewrite H2.
Qed.

(** The set [init] reads from the directory. *)
Lemma snapshots_sorted (names : list (list Z)) :
  StronglySorted Z.lt (merge_sort Z.le (remove_dups (omap scan_snapshot_name names))).
Proof.
  set (l := remove_dups _). assert (NoDup (merge_sort Z.le l)) as Hnd.
  { rewrite merge_sort_Permutation. apply NoDup_remove_dups. }
  pose proof (StronglySorted_merge_sort Z.le l) as Hs. induction Hs as [|x L Hs IH Hall]; [constructor|].
  apply NoDup_cons in Hnd as [Hx Hnd]. constructor; [auto|]. rewrite Forall_forall in Hall |- *.
  intros y Hy. specialize (Hall y Hy). assert (x ≠ y) by congruence. lia.
Qed.

Lemma sorted_last (L : list Z) m : StronglySorted Z.lt L → m ∈ L → Forall (λ i, i ≤ m) L → last L = Some m.
Proof.
  intros HL Hin Hle. destruct (last L) as [x|] eqn:E; [|apply last_None in E; subst; by apply elem_of_nil in Hin].
  apply last_Some in E as (L' & ->). apply elem_of_app in Hin as [Hin|Hin]; [|by apply list_elem_of_singleton in Hin as ->].
  assert (m < x) by (eapply (StronglySorted_app_1_elem_of Z.lt L' [x]); [done|done|apply list_elem_of_here]).
  apply Forall_app in Hle as [_ [? _]%Forall_cons]. lia.
Qed.

Lemma snapshots_elem G pins top s names i :
  storage_ok G pins top s →
  (∀ n, n ∈ names ↔ (ch_slash ∉ n) ∧ is_Some (lk (ss_world s) (path_join (ss_path s) n))) →
  i ∈ merge_sort Z.le (remove_dups (omap scan_snapshot_name names)) →
  index_ok i ∧ i ≤ top.
Proof.
  intros Hok Hnames. rewrite merge_sort_Permutation, elem_of_remove_dups, list_elem_of_omap.
  intros (n & [Hs Hex]%Hnames & Hi). destruct (so_names _ _ _ _ Hok n Hs Hex) as [->|(j & -> & Hj & Hle)].
  - by rewrite scan_temp in Hi.
  - rewrite scan_snapshot_name_eq in Hi by done. by injection Hi as <-.
Qed.

Lemma snapshots_last G pins top s names :
  storage_ok G pins top s → (top ≠ 0 → intact G s top) → 0 ≤ top →
  (∀ n, n ∈ names ↔ (ch_slash ∉ n) ∧ is_Some (lk (ss_world s) (path_join (ss_path s) n))) →
  let L := merge_sort Z.le (remove_dups (omap scan_snapshot_name names)) in
  default 0 (last L) = top ∧ (L = [] ↔ top = 0) ∧ Forall index_ok L.
Proof.
  intros Hok Hi Htop Hnames L. assert (∀ i, i ∈ L → index_ok i ∧ i ≤ top) as HL by (intros i; by eapply snapshots_elem).
  assert (Forall index_ok L) as Hidx by (apply Forall_forall; intros; by apply HL).
  destruct (decide (top = 0)) as [->|Hne].
  - assert (L = []) as ->; [|done]. apply elem_of_nil_inv. intros i [? ?]%HL. unfold index_ok in *. lia.
  - destruct (Hi Hne) as (Hok' & _ & Hdir & _). assert (top ∈ L) as Hin.
    { unfold L. rewrite merge_sort_Permutation, elem_of_remove_dups, list_elem_of_omap. exists (snapshot_name top).
      rewrite scan_snapshot_name_eq by done. split; [|done]. apply Hnames. split; [apply snapshot_name_no_slash|by eexists]. }
    split_and!; [|split; [|done]|done].
    + rewrite (sorted_last L top); [done|apply snapshots_sorted|done|]. apply Forall_forall. intros. by apply HL.
    + intros E. rewrite E in Hin. by apply elem_of_nil in Hin.
Qed.

Lemma find_last_snapshot_spec G top s :
  storage_ok G [] top s → ss_last_snapshot_index s = 0 → ss_readers s = ∅ → w_writes (ss_world s) = [] → (top ≠ 0 → intact G s top) →
  ∃ s', find_last_snapshot (mkStorageRun s []) = Some (0, mkStorageRun s' []) ∧ ss_path s' = ss_path s ∧
    ss_last_snapshot_index s' = top ∧ snap_inv G (held s') top s' ∧ w_writes (ss_world s') = [].
Proof.
  intros Hok Hlast Hrds Hw Hi. pose proof (so_top _ _ _ _ Hok) as Ht. unfold find_last_snapshot.
  rewrite (st_bind_eq _ _ _ (ss_path s) (mkStorageRun s [])) by done.
  destruct (fs_directory_reader_spec (ss_path s) (ss_path s) (ss_world s)) as (names & H1 & Hnames); [apply Hok..|].
  rewrite (st_bind_eq _ _ _ (Some names) (mkStorageRun (with_ss_world (ss_world s) s) [])) by (by apply sr_io_eq).
  replace (with_ss_world (ss_world s) s) with s by (by destruct s). cbv zeta.
  destruct (snapshots_last G [] top s names Hok Hi ltac:(lia) Hnames) as (Hlast' & Hempty & Hidx).
  set (L := merge_sort _ _) in *.
  destruct (delete_old_snapshots_spec G top L s Hok Hw (snapshots_sorted names) Hidx) as (w' & H2 & Hok' & Hw' & Hi').
  { intros m Hm. rewrite Hm in Hlast'. cbn in Hlast'. subst m. apply Hi. rewrite <-Hempty. by intros ->. }
  rewrite (st_bind_eq _ _ _ _ _ H2). cbv beta iota. rewrite decide_False by auto.
  set (s1 := with_ss_world w' s) in *. destruct (decide (L = [])) as [E|E].
  - assert (top = 0) as -> by (by apply Hempty). exists s1. do 3 (split; [done|]). split; [|done].
    split; [unfold readers_ok, s1; cbn; rewrite Hrds; apply map_Forall_empty|].
    unfold reader_indexes, held, s1. cbn [ss_readers with_ss_world ss_last_snapshot_index]. by rewrite Hrds, Hlast, decide_True.
  - rewrite Hlast'. assert (last L = Some top) as Hlm.
    { destruct (last L) as [m|] eqn:Em; [cbn in Hlast'; congruence|]. by apply last_None in Em. }
    specialize (Hi' top Hlm). pose proof (storage_ok_pin G top [] top s1 Hok' Hi') as Hpin.
    set (s2 := with_ref_map _ s1) in Hpin. exists (with_last_snapshot_index top s2).
    rewrite (st_bind_eq _ _ _ tt (mkStorageRun (with_last_snapshot_index top s1) [])) by done.
    rewrite (st_bind_eq _ _ _ tt (mkStorageRun (with_last_snapshot_index top s2) [])) by done.
    split; [done|]. split; [done|]. split; [done|]. split; [split|done].
    + unfold readers_ok. cbn. rewrite Hrds. apply map_Forall_empty.
    + unfold reader_indexes, held. cbn [ss_readers with_last_snapshot_index ss_last_snapshot_index with_ref_map s2 s1 with_ss_world].
      rewrite Hrds, decide_False by (by rewrite <-Hempty). destruct Hpin as [? ? ? ? ? Hp ? ? ?]. constructor; try done.
      * right. apply list_elem_of_here.
      * cbn. lia.
Qed.

(** [init] on a disk whose snapshots are at most [top]. *)
Lemma ss_init_spec G top s :
  storage_ok G [] top s → ss_last_snapshot_index s = 0 → ss_readers s = ∅ → w_writes (ss_world s) = [] → (top ≠ 0 → intact G s top) →
  ∃ s', ss_init (mkStorageRun s []) = Some (0, mkStorageRun s' []) ∧ ss_path s' = ss_path s ∧
    ss_last_snapshot_index s' = top ∧ snap_inv G (held s') top s' ∧ w_writes (ss_world s') = [].
Proof.
  intros Hok Hlast Hrds Hw Hi. unfold ss_init. rewrite (st_bind_eq _ _ _ (ss_path s) (mkStorageRun s [])) by done.
  destruct (fs_create_directory_spec (ss_path s) (ss_path s) (ss_world s)) as (b & w1 & H1 & Hwf1 & Hdo1 & Hl1 & Hp1 & _ & Hq1);
    [apply Hok|apply Hok|intros q [->|Hq%below_length] Hb%below_length; lia|].
  rewrite (st_bind_eq _ _ _ _ _ (sr_io_eq _ s [] _ _ H1)). destruct (Hq1 Hw) as [Hw1 Hb].
  rewrite Hb by (right; apply Hok). cbn [negb]. set (s1 := with_ss_world w1 s).
  assert (∀ n, lk w1 n = lk (ss_world s) n) as Hsame.
  { intros n. destruct (decide (n = ss_path s)) as [->|]; [|auto]. destruct Hp1 as [|[Hnone _]]; [done|].
    by rewrite (so_root _ _ _ _ Hok) in Hnone. }
  assert (storage_ok G [] top s1) as Hok1 by (by apply storage_ok_lookups).
  assert (top ≠ 0 → intact G s1 top) as Hi1.
  { intros Hne. eapply (intact_outside G (λ _, False)); [by apply Hi| |done].
    destruct Hdo1 as (? & ? & Hf). split_and!; [done|lia|done|]. intros. unfold w_content. by rewrite Hf. }
  rewrite (st_bind_eq _ _ _ (ss_filter_before_copy_remote s) (mkStorageRun s1 [])) by done.
  rewrite (st_bind_eq _ _ _ (temp_path s) (mkStorageRun s1 [])) by done.
  assert (∃ w2, (if ss_filter_before_copy_remote s then mret true else sr_io (fs_delete_file (temp_path s) true)) (mkStorageRun s1 []) =
    Some (true, mkStorageRun (with_ss_world w2 s1) []) ∧ storage_ok G [] top (with_ss_world w2 s1) ∧
    (top ≠ 0 → intact G (with_ss_world w2 s1) top) ∧ w_writes w2 = []) as (w2 & H2 & Hok2 & Hi2 & Hw2).
  { destruct (ss_filter_before_copy_remote s); [by exists w1|].
    destruct (fs_delete_file_spec (ss_path s) (temp_path s) true w1) as (b2 & w2 & H2 & Hdel & Hwf2 & _ & Hq2);
      [done|apply Hok1|right; apply below_path_join|].
    destruct (Hq2 Hw1) as [Hw2 Hb2]. rewrite Hb2 in H2 by (by left). exists w2. split_and!; [by apply sr_io_eq| | |done].
    - eapply storage_ok_delete; [done..|]. apply (temp_unheld [] s1).
    - intros Hne. eapply intact_outside; [by apply Hi1|by apply deleted_outside|]. intros n. apply (temp_snapshot_disjoint s1). }
  rewrite (st_bind_eq _ _ _ _ _ H2). cbn [negb].
  destruct (find_last_snapshot_spec G top (with_ss_world w2 s1)) as (s' & ? & ? & ? & ? & ?); [done..|]. by exists s'.
Qed.

(** The storage finds its last snapshot again. *)
Lemma restart_spec G pins s filter sync_meta :
  storage_ok G pins (ss_last_snapshot_index s) s →
  ∃ s', ss_init (mkStorageRun (ss_reopen filter sync_meta s) []) = Some (0, mkStorageRun s' []) ∧ ss_path s' = ss_path s ∧
    ss_last_snapshot_index s' = ss_last_snapshot_index s ∧ snap_inv G (held s') (ss_last_snapshot_index s) s' ∧
    w_writes (ss_world s') = [].
Proof.
  intros Hok. destruct (ss_reopen_ok G pins s filter sync_meta Hok) as [Hok' Hi].
  destruct (ss_init_spec G _ _ Hok') as (s' & ? & ? & ? & ? & ?); [done..|]. by exists s'.
Qed.

(** ** Creating a writer *)

Lemma delete_files_spec G pins top s names :
  storage_ok G pins top s →
  ∃ w', delete_files (temp_path s) names (ss_world s) = Some (tt, w') ∧ storage_ok G pins top (with_ss_world w' s).
Proof.
  revert s. induction names as [|n names IH]; intros s Hok.
  { exists (ss_world s). split; [done|]. by destruct Hok; constructor. }
  destruct (fs_delete_file_spec (ss_path s) (temp_file s n) false (ss_world s)) as (b & w1 & H1 & Hdel & Hwf1 & _);
    [apply Hok|apply Hok|eapply at_or_below_trans; [right; apply below_path_join|apply temp_file_below]|].
  cbn [delete_files]. rewrite (io_bind_eq _ _ _ _ _ H1).
  destruct (IH (with_ss_world w1 s)) as (w' & H2 & Hok'); [|by exists w'].
  eapply storage_ok_delete; [done..|]. intros m Hm. apply temp_unheld. eapply at_or_below_trans; [apply temp_file_below|done].
Qed.

Lemma wr_init_spec G pins top s wr :
  storage_ok G pins top s → wr_path wr = temp_path s →
  ∃ rc wr' w', wr_init wr (ss_world s) = Some ((rc, wr'), w') ∧ storage_ok G pins top (with_ss_world w' s) ∧
    wr_path wr' = temp_path s.
Proof.
  intros Hok Hp. unfold wr_init. rewrite Hp. cbv zeta.
  destruct (fs_create_directory_spec (ss_path s) (temp_path s) (ss_world s)) as (b & w1 & H1 & Hwf1 & Hdo1 & Hl1 & Hp1 & _);
    [apply Hok|apply Hok| |].
  { intros q Hq Hb. apply below_file in Hb; [|apply temp_no_slash].
    rewrite (at_or_below_antisym q (ss_path s)) by done. apply Hok. }
  rewrite (io_bind_eq _ _ _ _ _ H1).
  assert (storage_ok G pins top (with_ss_world w1 s)) as Hok1.
  { apply storage_ok_temp; [done| |done|].
    - destruct Hdo1 as (Hr & Hn & Hf). split_and!; [done|lia| |].
      + intros n Hn'. apply Hl1. intros ->. apply Hn', at_or_below_refl.
      + intros. unfold w_content. by rewrite Hf.
    - destruct (so_meta _ _ _ _ Hok) as (M1 & M2 & M3). unfold meta_ok. rewrite <-path_join_tmp in *.
      assert (∀ f, lk w1 (temp_file s f) = lk (ss_world s) (temp_file s f)) as Hf by (intros f; apply Hl1, path_join_ne).
      split_and!; [by rewrite Hf..|]. intros m i. rewrite Hf. intros Hm Hmi.
      destruct (decide (m = temp_path s)) as [->|]; [|rewrite Hl1 in Hmi by done; eauto].
      destruct Hp1 as [E|[_ E]]; [rewrite E in Hmi; eauto|congruence]. }
  set (s1 := with_ss_world w1 s) in *.
  assert (∀ w2, same_disk w1 w2 → storage_ok G pins top (with_ss_world w2 s)) as Hread.
  { intros w2 Hsame. apply (storage_ok_same G pins top s1); done. }
  destruct b; cbn [negb]; [|by eexists _, _, w1].
  destruct (fs_path_exists_spec (temp_file s MELON_RAFT_SNAPSHOT_META_FILE) w1) as (w2 & H2 & S2); [apply Hok1|].
  rewrite (io_bind_eq _ _ _ _ _ H2).
  assert (w_reads w2 = []) as Hr2 by (destruct S2 as ((-> & _) & _); apply Hok1).
  assert (∃ rc t w3, (if bool_decide (is_Some (lk w1 (temp_file s MELON_RAFT_SNAPSHOT_META_FILE)))
      then mt_load_from_file (temp_file s MELON_RAFT_SNAPSHOT_META_FILE) (wr_meta_table wr)
      else mret (0, wr_meta_table wr)) w2 = Some ((rc, t), w3) ∧ same_disk w1 w3) as (rc & t & w3 & H3 & S3).
  { case_bool_decide; [|by eexists _, _, w2]. unfold mt_load_from_file.
    destruct (pb_file_load_total (temp_file s MELON_RAFT_SNAPSHOT_META_FILE) w2 Hr2) as (r & w3 & H3 & S3).
    rewrite (io_bind_eq _ _ _ _ _ H3). destruct r; eexists _, _, w3; (split; [done|by etrans]). }
  rewrite (io_bind_eq _ _ _ _ _ H3). cbv beta iota. case_decide; [eexists _, _, w3; split; [done|]; split; [auto|done]|].
  unfold mbind at 1, io_bind at 1, fs_directory_reader, next_read.
  assert (w_reads w3 = []) as -> by (destruct S3 as ((-> & _) & _); apply Hok1).
  destruct (decide (lk w3 (temp_path s) ≠ Some dir_ino)).
  { eexists _, _, _. split; [done|]. split; [|done]. apply Hread. by etrans. }
  destruct (delete_files_spec G pins top (with_ss_world w3 s)
    (filter (λ n, n ≠ MELON_RAFT_SNAPSHOT_META_FILE ∧ mt_get_file_meta n t = None)
       (omap (λ e, n ← relative (temp_path s) e.1; if decide (ch_slash ∈ n) then None else Some n) (w_dir w3)))) as (w4 & H4 & Hok4); [auto|].
  rewrite (io_bind_eq _ _ _ _ _ H4). by eexists _, _, w4.
Qed.

Lemma ss_create_spec G extra top s from_empty :
  snap_inv G extra top s →
  ∃ r w', ss_create from_empty (mkStorageRun s []) = Some (r, mkStorageRun (with_ss_world w' s) []) ∧
    snap_inv G extra top (with_ss_world w' s) ∧ (∀ wr, r = Some wr → wr_path wr = temp_path s).
Proof.
  intros [Hrd Hok]. unfold ss_create. rewrite (st_bind_eq _ _ _ (temp_path s) (mkStorageRun s [])) by done.
  destruct (fs_path_exists_spec (temp_path s) (ss_world s)) as (w1 & H1 & S1); [apply Hok|].
  rewrite (st_bind_eq _ _ _ _ _ (sr_io_eq _ s [] _ _ H1)). pose proof (storage_ok_same _ _ _ _ _ Hok S1) as Hok1.
  set (s1 := with_ss_world w1 s) in *.
  assert (∃ rc w2, (if bool_decide (is_Some (lk (ss_world s) (temp_path s))) && from_empty then destroy_snapshot (temp_path s) else mret 0)
    (mkStorageRun s1 []) = Some (rc, mkStorageRun (with_ss_world w2 s) []) ∧
    storage_ok G (reader_indexes s ++ extra) top (with_ss_world w2 s)) as (rc & w2 & H2 & Hok2).
  { destruct (_ && _); [|by exists 0, w1].
    destruct (destroy_snapshot_ok G _ top (temp_path s) s1 [] Hok1 (temp_unheld _ s)) as (rc & w2 & ? & ? & _). by exists rc, w2. }
  rewrite (st_bind_eq _ _ _ _ _ H2). case_decide; [by exists None, w2|].
  destruct (wr_init_spec G _ top (with_ss_world w2 s) (mkWriter (temp_path s) empty_table 0) Hok2) as (rc3 & wr & w3 & H3 & Hok3 & Hp3); [done|].
  rewrite (st_bind_eq _ _ _ _ _ (sr_io_eq _ (with_ss_world w2 s) [] _ _ H3)). cbv beta iota.
  case_decide; eexists _, w3; (split; [done|]); (split; [by split|]); [done|]. by intros ? [= <-].
Qed.
End spec.
