(* ===== verification/SnapshotRun.v ===== *)
(** * Runs of the snapshot storage

    The storage with its readers and its writer as a transition system: calls
    on readers and on the writer, files the user writes in [temp], system
    calls that start to fail, crashes and restarts.  In every state the last
    snapshot can be opened; closing a writer replaces it or leaves it, and
    what is left is what a restart finds; a snapshot is the same for every
    reader at every time. *)

From Stdlib Require Import Ascii String.
From stdpp Require Import prelude gmap sorting.
From S2P Require Import Prelude Bytes Text StateMonad FileSystem Messages SnapshotFs Snapshot SnapshotWire SnapshotSpec.
Local Open Scope Z_scope.

Section runs.
Context `{PbSnapshot}.
Implicit Types (s : LocalSnapshotStorage) (w : World).

(** ** What the storage serves *)

Record SnapshotView := mkView {
  vw_index : Z;
  vw_table : LocalSnapshotMetaTable;
  vw_files : list Z → option (list Z);
}.

(** The reader [rd] shows [v]. *)
Definition shows s (rd : LocalSnapshotReader) (v : SnapshotView) : Prop :=
  rd_snapshot_index rd = Some (vw_index v) ∧ rd_meta_table rd = vw_table v ∧
  ∀ f, lookup_file (ss_world s) (path_join (rd_path rd) f) = vw_files v f.

(** [open] gives a reader of [v]; without a snapshot it gives none. *)
Definition serves s (v : option SnapshotView) : Prop :=
  ss_last_snapshot_index s = default 0 (vw_index <$> v) ∧
  ∃ r s', ss_open (mkStorageRun s []) = Some (r, mkStorageRun s' []) ∧
    match v with
    | None => r = None
    | Some v => ∃ id rd, r = Some id ∧ ss_readers s' !! id = Some rd ∧ shows s' rd v
    end.

(** What a writer publishes. *)
Definition writer_view (wr : LocalSnapshotWriter) s (v : SnapshotView) : Prop :=
  vw_index v = wr_snapshot_index wr ∧ vw_table v = wr_meta_table wr ∧ published_files wr s (vw_files v).

(** ** The system *)

Record SnapRun := mkSnapRun {
  sn_storage : LocalSnapshotStorage;
  sn_writer : option LocalSnapshotWriter;
}.

(** A storage over an empty directory. *)
Definition storage_start s : Prop :=
  fs_wf (ss_path s) (ss_world s) ∧ w_reads (ss_world s) = [] ∧ lk (ss_world s) (ss_path s) = Some dir_ino ∧
  (∀ n, below (ss_path s) n → lk (ss_world s) n = None) ∧
  ss_last_snapshot_index s = 0 ∧ ss_ref_map s = ∅ ∧ ss_readers s = ∅.

(** The user writes files of the snapshot. *)
Definition user_writes s w' : Prop :=
  outside (at_or_below (temp_path s)) (ss_world s) w' ∧ fs_wf (ss_path s) w' ∧ meta_ok (temp_path s) w'.

Definition with_writes (script : list SysResult) w : World :=
  mkWorld (w_files w) (w_dir w) (w_next w) (w_errno w) (w_reads w) script.

Inductive snap_step : SnapRun → SnapRun → Prop :=
  | SnOpen s wr r s' :
      ss_open (mkStorageRun s []) = Some (r, mkStorageRun s' []) → snap_step (mkSnapRun s wr) (mkSnapRun s' wr)
  | SnCloseReader s wr id rd rc s' :
      ss_readers s !! id = Some rd → ss_close_reader id (mkStorageRun s []) = Some (rc, mkStorageRun s' []) →
      snap_step (mkSnapRun s wr) (mkSnapRun s' wr)
  | SnCreate s from_empty r s' :
      ss_create from_empty (mkStorageRun s []) = Some (r, mkStorageRun s' []) →
      snap_step (mkSnapRun s None) (mkSnapRun s' r)
  | SnAddFile s wr name meta :
      snap_step (mkSnapRun s (Some wr)) (mkSnapRun s (Some (wr_add_file name meta wr).2))
  | SnRemoveFile s wr name :
      snap_step (mkSnapRun s (Some wr)) (mkSnapRun s (Some (wr_remove_file name wr).2))
  | SnSaveMeta s wr meta :
      snap_step (mkSnapRun s (Some wr)) (mkSnapRun s (Some (wr_save_meta meta wr)))
  | SnError s wr e :
      snap_step (mkSnapRun s (Some wr)) (mkSnapRun s (Some (wr_set_error e wr)))
  | SnUser s wr w' :
      user_writes s w' → snap_step (mkSnapRun s (Some wr)) (mkSnapRun (with_ss_world w' s) (Some wr))
  | SnSync s wr rc wr' w' :
      wr_sync (ss_sync_meta s) wr (ss_world s) = Some ((rc, wr'), w') →
      snap_step (mkSnapRun s (Some wr)) (mkSnapRun (with_ss_world w' s) (Some wr'))
  | SnCloseWriter s wr keep o rc s' o' :
      writer_ok wr s → reader_calls o → close_writer wr keep (mkStorageRun s o) = Some (rc, mkStorageRun s' o') →
      snap_step (mkSnapRun s (Some wr)) (mkSnapRun s' None)
  | SnFaults s wr script :
      snap_step (mkSnapRun s wr) (mkSnapRun (with_ss_world (with_writes script (ss_world s)) s) wr)
  | SnRestart s wr filter sync_meta rc s' :
      ss_init (mkStorageRun (ss_reopen filter sync_meta s) []) = Some (rc, mkStorageRun s' []) →
      snap_step (mkSnapRun s wr) (mkSnapRun s' None).

Inductive snap_reach : SnapRun → Prop :=
  | SnInit s : storage_start s → snap_reach (mkSnapRun s None)
  | SnStep r r' : snap_reach r → snap_step r r' → snap_reach r'.

(** ** The invariant *)

Definition run_ok (G : Z → list Z → option (list Z)) (r : SnapRun) : Prop :=
  let s := sn_storage r in
  snap_inv G (held s) (ss_last_snapshot_index s) s ∧ ∀ wr, sn_writer r = Some wr → wr_path wr = temp_path s.

(** Snapshots up to [last] are the same in [G] and [G']. *)
Definition agrees (last : Z) (G G' : Z → list Z → option (list Z)) : Prop := ∀ i f, i ≤ last → G' i f = G i f.

Lemma start_ok s G : storage_start s → run_ok G (mkSnapRun s None).
Proof.
  intros (Hwf & Hr & Hroot & Hempty & Hl & Href & Hrd). split; [|done]. cbn. split.
  { intros id rd. by rewrite Hrd, lookup_empty. }
  assert (reader_indexes s ++ held s = []) as ->.
  { unfold reader_indexes, held. by rewrite Hrd, Hl, map_to_list_empty. }
  assert (∀ f, lk (ss_world s) (path_join (temp_path s) f) = None) as Ht.
  { intros f. apply Hempty. unfold temp_path. rewrite path_join_assoc. apply below_path_join. }
  constructor; try done.
  - intros n Hn [i Hi]. by rewrite Hempty in Hi by apply below_path_join.
  - intros i. by rewrite Href, lookup_empty.
  - by intros i ?%elem_of_nil.
  - by left.
  - lia.
  - unfold meta_ok, unshared. rewrite <-path_join_tmp, !Ht. done.
Qed.

Lemma run_ok_inv G s s' wr :
  snap_inv G (held s) (ss_last_snapshot_index s) s' → same_conf s s' →
  (∀ wr', wr = Some wr' → wr_path wr' = temp_path s) → run_ok G (mkSnapRun s' wr).
Proof.
  intros Hinv Hc Hwr. split; cbn.
  - rewrite (held_conf _ _ Hc). by destruct Hc as (_ & _ & -> & _).
  - intros wr' Hw. rewrite (Hwr wr' Hw). unfold temp_path. by destruct Hc as (-> & _).
Qed.

Lemma wr_add_file_path name meta wr : wr_path (wr_add_file name meta wr).2 = wr_path wr.
Proof. unfold wr_add_file. by destruct (mt_add_file _ _ _). Qed.
Lemma wr_remove_file_path name wr : wr_path (wr_remove_file name wr).2 = wr_path wr.
Proof. unfold wr_remove_file. by destruct (mt_remove_file _ _). Qed.

Lemma faults_ok G pins top s script :
  storage_ok G pins top s → storage_ok G pins top (with_ss_world (with_writes script (ss_world s)) s).
Proof. intros Hok. by apply storage_ok_unchanged. Qed.

Lemma agrees_refl last G : agrees last G G.
Proof. done. Qed.

Lemma agrees_publish last G n F : last < n → agrees last G (publish_content G n F).
Proof. intros Hlt i f Hi. unfold publish_content. by rewrite decide_False by lia. Qed.

(** The same snapshots, perhaps with a newer one. *)
Definition grows G r G' r' : Prop :=
  let last := ss_last_snapshot_index (sn_storage r) in
  last ≤ ss_last_snapshot_index (sn_storage r') ∧ agrees last G G'.

Lemma grows_refl G r r' :
  ss_last_snapshot_index (sn_storage r') = ss_last_snapshot_index (sn_storage r) → grows G r G r'.
Proof. intros E. split; [lia|apply agrees_refl]. Qed.

Lemma grows_trans G1 r1 G2 r2 G3 r3 : grows G1 r1 G2 r2 → grows G2 r2 G3 r3 → grows G1 r1 G3 r3.
Proof. intros [H1 A1] [H2 A2]. split; [lia|]. intros i f Hi. rewrite A2 by lia. by apply A1. Qed.

Lemma run_ok_step G s wr s' wr' :
  snap_inv G (held s) (ss_last_snapshot_index s) s' → same_conf s s' →
  (∀ wr, wr' = Some wr → wr_path wr = temp_path s) →
  ∃ G', run_ok G' (mkSnapRun s' wr') ∧ grows G (mkSnapRun s wr) G' (mkSnapRun s' wr').
Proof. intros Hinv Hc Hwr. exists G. split; [by eapply run_ok_inv|]. apply grows_refl. apply Hc. Qed.

Lemma snap_step_ok `{!PbSnapshotLaws} G r r' :
  run_ok G r → snap_step r r' → ∃ G', run_ok G' r' ∧ grows G r G' r'.
Proof.
  intros [Hinv Hwr] Hs. destruct Hs as [s wr x s' H1|s wr id rd rc s' Hid H1|s fe x s' H1|s wr n m|s wr n|s wr m|s wr e
    |s wr w' (Hout & Hwf & Hm)|s wr rc wr' w' H1|s wr keep o rc s' o' Hok Ho H1|s wr script|s wr fl sm rc s' H1]; cbn in Hinv, Hwr.
  - destruct (open_spec G _ _ s Hinv) as (x' & s1 & H2 & Hinv' & Hf & _). rewrite H2 in H1. injection H1 as -> ->.
    apply run_ok_step; [done|apply Hf|done].
  - destruct (ss_close_reader_spec G _ _ s id rd Hinv (held_last s) Hid) as (s1 & H2 & Hinv' & Hf & _). rewrite H2 in H1.
    injection H1 as <- ->. apply run_ok_step; [done|apply Hf|done].
  - destruct (ss_create_spec G _ _ s fe Hinv) as (x' & w' & H2 & Hinv' & Hp). rewrite H2 in H1. injection H1 as -> <-.
    by apply run_ok_step.
  - apply run_ok_step; [done..|]. intros ? [= <-]. rewrite wr_add_file_path. auto.
  - apply run_ok_step; [done..|]. intros ? [= <-]. rewrite wr_remove_file_path. auto.
  - apply run_ok_step; [done..|]. intros ? [= <-]. exact (Hwr wr eq_refl).
  - apply run_ok_step; [done..|]. intros ? [= <-]. exact (Hwr wr eq_refl).
  - apply run_ok_step; [|done..]. apply snap_inv_world; [done|]. apply storage_ok_temp; [apply Hinv|done..].
  - destruct (wr_sync_spec G _ _ s wr (ss_sync_meta s) (proj2 Hinv) (Hwr _ eq_refl)) as (rc' & wr2 & w2 & H2 & Hok & Hp & _).
    rewrite H2 in H1. injection H1 as -> -> ->. apply run_ok_step; [by apply snap_inv_world|done|]. by intros ? [= <-].
  - destruct (close_writer_spec G wr keep s o Hinv Hok Ho) as (rc' & s1 & o1 & H2 & _ & Hcase & _).
    rewrite H2 in H1. injection H1 as -> -> ->. destruct Hcase as [[(Hi & Hlt & Hc & F & HF & Hinv') _]|[Hc Hinv']].
    + set (n := wr_snapshot_index wr) in *. assert (ss_last_snapshot_index s' = n) as Hl by apply Hc.
      exists (publish_content G n F). split; [split; [|done]|split; [cbn; lia|by apply agrees_publish]].
      cbn. unfold held. rewrite Hl, decide_False; [done|]. unfold index_ok in Hi. lia.
    + by apply run_ok_step.
  - apply run_ok_step; [|done..]. apply snap_inv_world; [done|]. apply faults_ok, Hinv.
  - destruct (restart_spec G _ s fl sm (proj2 Hinv)) as (s1 & H2 & Hp & Hl & Hinv' & _). rewrite H2 in H1. injection H1 as <- ->.
    exists G. split; [|by apply grows_refl]. split; [cbn; by rewrite Hl|done].
Qed.

Lemma snap_reach_ok `{!PbSnapshotLaws} r : snap_reach r → ∃ G, run_ok G r.
Proof.
  induction 1 as [s Hs|r r' _ [G IH] Hs]; [exists (λ _ _, None); by apply start_ok|].
  destruct (snap_step_ok G r r' IH Hs) as (G' & ? & _). by exists G'.
Qed.

Lemma snap_steps_ok `{!PbSnapshotLaws} G r r' :
  run_ok G r → rtc snap_step r r' → ∃ G', run_ok G' r' ∧ grows G r G' r'.
Proof.
  intros Hok Hs. revert G Hok. induction Hs as [r|r1 r2 r3 Hs _ IH]; intros G Hok; [exists G; split; [done|by apply grows_refl]|].
  destruct (snap_step_ok G r1 r2 Hok Hs) as (G2 & Hok2 & Hg2). destruct (IH G2 Hok2) as (G3 & Hok3 & Hg3).
  exists G3. split; [done|by eapply grows_trans].
Qed.

(** ** What readers see *)

Lemma has_table_unique `{!PbSnapshotLaws} t t' F : has_table t F → has_table t' F → t = t'.
Proof.
  intros [H1 [Ok1 Z1]] [H2 [Ok2 Z2]]. rewrite H1 in H2. apply (f_equal (default [])) in H2 as E. cbn [default] in E.
  assert (pb_snapshot_serialize (table_message id t) = pb_snapshot_serialize (table_message id t')) as E'.
  { apply (f_equal (drop 4)) in E. exact E. }
  apply (f_equal pb_snapshot_parse) in E'. rewrite !pb_snapshot_roundtrip in E' by done.
  apply (f_equal (message_table ∘ fst)) in E'. cbn in E'. by rewrite !message_table_roundtrip in E'.
Qed.

Lemma reader_shows G extra top s id rd :
  snap_inv G extra top s → ss_readers s !! id = Some rd →
  ∃ i, i ≤ ss_last_snapshot_index s ∧ has_table (rd_meta_table rd) (G i) ∧ rd_path rd = snapshot_path i s ∧
    shows s rd (mkView i (rd_meta_table rd) (G i)).
Proof.
  intros [Hrd Hok] Hid. destruct (Hrd id rd Hid) as (i & Hi & Hle & Hp & Ht). exists i. do 3 (split; [done|]).
  pose proof (rd_snapshot_index_eq rd i s Hi Hp) as Hidx. do 2 (split; [done|]). cbn. intros f. rewrite Hp.
  assert (intact G s i) as (_ & _ & _ & Hf); [|done]. apply (so_pins _ _ _ _ Hok), elem_of_app. left.
  unfold reader_indexes. apply list_elem_of_omap. exists (id, rd). split; [by apply elem_of_map_to_list|done].
Qed.

Lemma inv_serves `{!PbSnapshotLaws} G extra top s :
  snap_inv G extra top s →
  if decide (ss_last_snapshot_index s = 0) then serves s None
  else ∃ t, has_table t (G (ss_last_snapshot_index s)) ∧
         serves s (Some (mkView (ss_last_snapshot_index s) t (G (ss_last_snapshot_index s)))).
Proof.
  intros Hinv. destruct (open_spec G extra top s Hinv) as (r & s' & H1 & Hinv' & Hf & Hcase). case_decide as Hl.
  - split; [done|]. exists r, s'. split; [done|]. by destruct Hcase.
  - destruct Hcase as (id & rd & -> & _ & Hrds & Hp & Ht). exists (rd_meta_table rd). split; [done|].
    split; [done|]. exists (Some id), s'. split; [done|]. exists id, rd. split; [done|].
    assert (ss_readers s' !! id = Some rd) as Hid by (by rewrite Hrds, lookup_insert_eq). split; [done|].
    destruct (reader_shows G extra top s' id rd Hinv' Hid) as (i & _ & _ & Hp' & Hs).
    assert (rd_snapshot_index rd = Some (ss_last_snapshot_index s)) as E.
    { assert (snapshot_path (ss_last_snapshot_index s) s = snapshot_path (ss_last_snapshot_index s) s') as E'.
      { unfold snapshot_path. by destruct Hf as ((-> & _) & _). }
      eapply rd_snapshot_index_eq; [|by rewrite <-E']. destruct Hinv as [_ Hok].
      destruct (so_last _ _ _ _ Hok) as [|Hin]; [done|]. by apply (so_pins _ _ _ _ Hok). }
    destruct Hs as (Hi & Hs). rewrite E in Hi. injection Hi as <-. done.
Qed.

Lemma serves_view `{!PbSnapshotLaws} G extra top s v :
  snap_inv G extra top s → serves s (Some v) →
  index_ok (vw_index v) ∧ vw_index v = ss_last_snapshot_index s ∧ has_table (vw_table v) (G (vw_index v)) ∧
  ∀ f, vw_files v f = G (vw_index v) f.
Proof.
  intros Hinv (Hl & r & s' & H1 & id & rd & -> & Hid & Hi & Ht & Hf). cbn in Hl.
  destruct (open_spec G extra top s Hinv) as (r2 & s2 & H2 & Hinv2 & _ & Hcase). rewrite H2 in H1. injection H1 as -> ->.
  destruct (reader_shows G extra top s' id rd Hinv2 Hid) as (i & _ & Hti & _ & Hi' & _ & Hf'). cbn [vw_index vw_files] in Hi', Hf'.
  rewrite Hi in Hi'. injection Hi' as <-. rewrite <-Ht. split; [|split; [done|split; [done|]]].
  - destruct Hinv2 as [Hrd2 _]. destruct (Hrd2 id rd Hid) as (j & Hj & _ & Hp & _).
    rewrite (rd_snapshot_index_eq rd j s' Hj Hp) in Hi. by injection Hi as <-.
  - intros f. by rewrite <-Hf, Hf'.
Qed.

Lemma serves_same `{!PbSnapshotLaws} G extra top s extra' top' s' v :
  snap_inv G extra top s → snap_inv G extra' top' s' → ss_last_snapshot_index s' = ss_last_snapshot_index s →
  serves s v → serves s' v.
Proof.
  intros Hinv Hinv' Hl Hs. pose proof (inv_serves G _ _ s' Hinv') as Hs'. rewrite Hl in Hs'. destruct v as [v|].
  - destruct (serves_view G extra top s v Hinv Hs) as (Hi & Hv & Ht & Hf). rewrite decide_False in Hs' by (unfold index_ok in Hi; lia).
    destruct Hs' as (t & Ht' & Hl' & r & s2 & H1 & id & rd & -> & Hid & Hi' & Htab & Hf'). rewrite <-Hv in *.
    rewrite (has_table_unique t (vw_table v) _ Ht' Ht) in Htab. split; [done|]. exists (Some id), s2. split; [done|].
    exists id, rd. do 2 (split; [done|]). split; [done|]. split; [done|]. intros f. by rewrite Hf, Hf'.
  - destruct Hs as [Hz _]. cbn in Hz. by rewrite decide_True in Hs'.
Qed.

Lemma inv_serving `{!PbSnapshotLaws} G extra top s : snap_inv G extra top s → ∃ v, serves s v.
Proof.
  intros Hinv. pose proof (inv_serves G _ _ _ Hinv) as Hs. case_decide; [by eexists|]. destruct Hs as (t & _ & Hs). by eexists.
Qed.

Lemma reach_serves `{!PbSnapshotLaws} r : snap_reach r → ∃ v, serves (sn_storage r) v.
Proof. intros [G [Hinv _]]%snap_reach_ok. by eapply inv_serving. Qed.

(** A writer that was closed and replaced the last snapshot. *)
Lemma replaced_serves `{!PbSnapshotLaws} G wr s s' :
  replaced G wr s s' → table_ok (wr_meta_table wr) →
  ∃ G' new, snap_inv G' (held s') (ss_last_snapshot_index s') s' ∧ serves s' (Some new) ∧ writer_view wr s new.
Proof.
  intros (Hn & Hlt & Hc & F & HF & Hinv') Htab. set (n := wr_snapshot_index wr) in *.
  assert (ss_last_snapshot_index s' = n) as Hl by apply Hc. pose proof (inv_serves _ _ _ _ Hinv') as Hs.
  rewrite Hl, decide_False in Hs by (unfold index_ok in Hn; lia). destruct Hs as (t & Ht & Hs).
  assert (publish_content G n F n = F) as EF by (unfold publish_content; by rewrite decide_True). rewrite EF in *.
  assert (t = wr_meta_table wr) as ->.
  { eapply has_table_unique; [exact Ht|]. split; [apply HF|done]. }
  exists (publish_content G n F), (mkView n (wr_meta_table wr) F). split; [|by split].
  unfold held. by rewrite Hl, decide_False by (unfold index_ok in Hn; lia).
Qed.

(** ** Theorems *)

(** In every reachable state the last snapshot can be opened, and a restart
    finds the same one. *)
Theorem storage_serves `{!PbSnapshotLaws} r filter sync_meta :
  snap_reach r → ∃ v, serves (sn_storage r) v ∧
    ∃ s', ss_init (mkStorageRun (ss_reopen filter sync_meta (sn_storage r)) []) = Some (0, mkStorageRun s' []) ∧ serves s' v.
Proof.
  intros Hr. destruct (reach_serves r Hr) as [v Hv]. apply snap_reach_ok in Hr as [G [Hinv _]]. set (s := sn_storage r) in *.
  exists v. split; [done|]. destruct (restart_spec G _ s filter sync_meta (proj2 Hinv)) as (s' & H1 & _ & Hl & Hinv' & _).
  exists s'. split; [done|]. by eapply (serves_same G _ _ s).
Qed.

(** C26. Closing a writer replaces the last snapshot by what was written or leaves
    it, whatever fails. *)
Theorem close_writer_atomic `{!PbSnapshotLaws} s wr keep o v filter sync_meta :
  snap_reach (mkSnapRun s (Some wr)) → writer_ok wr s → reader_calls o → serves s v →
  ∃ rc s' o' v', close_writer wr keep (mkStorageRun s o) = Some (rc, mkStorageRun s' o') ∧ serves s' v' ∧
    (v' = v ∨ rc = 0 ∧ wr_error wr = 0 ∧ ∃ new, v' = Some new ∧ writer_view wr s new) ∧
    (w_writes (ss_world s) = [] → wr_error wr = 0 → lk (ss_world s) (temp_path s) = Some dir_ino →
     wr_snapshot_index wr ≠ ss_last_snapshot_index s → rc = 0 ∧ ∃ new, v' = Some new ∧ writer_view wr s new) ∧
    ∃ s2, ss_init (mkStorageRun (ss_reopen filter sync_meta s') []) = Some (0, mkStorageRun s2 []) ∧ serves s2 v'.
Proof.
  intros [G [Hinv _]]%snap_reach_ok Hwr Ho Hv. cbn in Hinv.
  destruct (close_writer_spec G wr keep s o Hinv Hwr Ho) as (rc & s' & o' & H1 & _ & Hcase & Hq).
  assert (∀ G' n v', snap_inv G' (held s') n s' → n = ss_last_snapshot_index s' → serves s' v' →
    ∃ s2, ss_init (mkStorageRun (ss_reopen filter sync_meta s') []) = Some (0, mkStorageRun s2 []) ∧ serves s2 v') as Hre.
  { intros G' n v' Hinv' -> Hs'. destruct (restart_spec G' _ s' filter sync_meta (proj2 Hinv')) as (s2 & H2 & _ & Hl & Hinv2 & _).
    exists s2. split; [done|]. by eapply (serves_same G' _ _ s'). }
  destruct Hcase as [(Hrep & He & ->)|Hkept].
  - destruct (replaced_serves G wr s s' Hrep) as (G' & new & Hinv' & Hs & Hnew); [by apply Hwr|].
    exists 0, s', o', (Some new). split; [done|]. split; [exact Hs|]. split; [right; by eauto|]. split; [by eauto|]. by eapply Hre.
  - destruct Hkept as [Hc Hinv']. assert (ss_last_snapshot_index s' = ss_last_snapshot_index s) as Hl by apply Hc.
    exists rc, s', o', v. split; [done|]. split; [by eapply (serves_same G _ _ s)|]. split; [by left|]. split.
    + intros Hw He Hd Hne. destruct (Hq Hw) as [_ Hz]. destruct (Hz He Hd Hne) as [(_ & Hlt & Hc' & _) _].
      assert (ss_last_snapshot_index s' = wr_snapshot_index wr) by apply Hc'. lia.
    + eapply Hre; [by rewrite (held_conf _ _ Hc)|done|]. by eapply (serves_same G _ _ s).
Qed.

(** C27. A snapshot never changes while it can be read: two readers of one
    snapshot, at any two times, see the same table and files. *)
Theorem readers_stable `{!PbSnapshotLaws} r r' id id' rd rd' :
  snap_reach r → rtc snap_step r r' →
  ss_readers (sn_storage r) !! id = Some rd → ss_readers (sn_storage r') !! id' = Some rd' →
  rd_snapshot_index rd = rd_snapshot_index rd' →
  rd_meta_table rd' = rd_meta_table rd ∧
  ∀ f, lookup_file (ss_world (sn_storage r')) (path_join (rd_path rd') f) =
       lookup_file (ss_world (sn_storage r)) (path_join (rd_path rd) f).
Proof.
  intros [G Hok]%snap_reach_ok Hs Hid Hid' Hi. destruct (snap_steps_ok G r r' Hok Hs) as (G' & [Hinv' _] & Hle & Ha).
  destruct Hok as [Hinv _].
  destruct (reader_shows G _ _ _ id rd Hinv Hid) as (i & Hil & Ht & _ & Hi1 & _ & Hf).
  destruct (reader_shows G' _ _ _ id' rd' Hinv' Hid') as (i' & _ & Ht' & _ & Hi2 & _ & Hf'). cbn [vw_index vw_files] in *.
  rewrite Hi1, Hi2 in Hi. injection Hi as <-. split.
  - eapply has_table_unique; [exact Ht'|]. destruct Ht as [Hc ?]. split; [by rewrite Ha|done].
  - intros f. by rewrite Hf, Hf', Ha.
Qed.

(** When the meta file cannot be written the snapshot is dropped, and [close]
    still returns 0. *)
Theorem close_writer_unsaved `{!PbSnapshotLaws} s wr keep wr' w' v :
  snap_reach (mkSnapRun s (Some wr)) → wr_error wr = 0 →
  wr_sync (ss_sync_meta s) wr (ss_world s) = Some ((-1, wr'), w') → serves s v →
  ∃ s', close_writer wr keep (mkStorageRun s []) = Some (0, mkStorageRun s' []) ∧ serves s' v.
Proof.
  intros [G [Hinv Hp]]%snap_reach_ok He H1 Hv. cbn in Hinv, Hp. specialize (Hp wr eq_refl). unfold close_writer.
  destruct (wr_sync_spec G _ _ s wr (ss_sync_meta s) (proj2 Hinv) Hp) as (rc & wr2 & w2 & H2 & Hok & _).
  rewrite H2 in H1. injection H1 as -> -> ->. set (s1 := with_ss_world w' s) in *.
  rewrite (st_bind_eq _ _ _ (-1) (mkStorageRun s1 [])).
  2:{ rewrite decide_False by auto. unfold publish. rewrite (st_bind_eq _ _ _ (ss_sync_meta s) (mkStorageRun s [])) by done.
      by rewrite (st_bind_eq _ _ _ _ _ (sr_io_eq _ s [] _ _ H2)). }
  assert (∃ rc s2, (if decide (-1 ≠ 0 ∧ keep = false) then destroy_snapshot (wr_path wr) else mret 0) (mkStorageRun s1 []) =
    Some (rc, mkStorageRun s2 []) ∧ snap_inv G (held s) (ss_last_snapshot_index s) s2 ∧
    ss_last_snapshot_index s2 = ss_last_snapshot_index s) as (rc & s2 & H3 & Hinv2 & Hl).
  { case_decide; [|by exists 0, s1; split; [|split; [apply snap_inv_world|]]].
    destruct (destroy_snapshot_ok G _ _ (wr_path wr) s1 [] Hok) as (rc2 & w2 & H3 & Hok2 & _); [rewrite Hp; apply (temp_unheld _ s1)|].
    exists rc2, (with_ss_world w2 s1). split; [done|]. split; [|done]. destruct Hinv. by split. }
  rewrite (st_bind_eq _ _ _ _ _ H3). exists s2. split; [done|]. by eapply (serves_same G _ _ s).
Qed.

(** ** A file of the user *)

Definition new_file (name d : list Z) w : World :=
  mkWorld (<[w_next w := d]> (w_files w)) (w_dir w ++ [(name, w_next w)]) (w_next w + 1) (w_errno w) (w_reads w) (w_writes w).

Lemma new_file_lookup name d w n :
  lk w name = None → lk (new_file name d w) n = if decide (name = n) then Some (w_next w) else lk w n.
Proof.
  intros Hn. unfold new_file. cbn [w_dir]. rewrite dir_lookup_app. case_decide; [subst n; by rewrite Hn|by destruct (lk w n)].
Qed.

Lemma new_file_writes G pins top s f d :
  storage_ok G pins top s → lk (ss_world s) (temp_path s) = Some dir_ino → lk (ss_world s) (path_join (temp_path s) f) = None →
  ch_slash ∉ f → f ≠ MELON_RAFT_SNAPSHOT_META_FILE → f ≠ MELON_RAFT_SNAPSHOT_META_FILE ++ tmp_suffix →
  user_writes s (new_file (path_join (temp_path s) f) d (ss_world s)).
Proof.
  intros Hok Hdir Hnone Hs Hf1 Hf2. set (w := ss_world s) in *. set (name := path_join (temp_path s) f) in *.
  pose proof (new_file_lookup name d w) as Hlk. assert (w_next (new_file name d w) = w_next w + 1) as Hnx by done. destruct (so_wf _ _ _ _ Hok) as (Hnd & Hnext & Hino & Htree). fold w in Hnd, Hnext, Hino, Htree.
  assert (∀ g, f ≠ g → name ≠ path_join (temp_path s) g) as Hne by (intros g Hg E; by apply path_join_inj in E).
  unfold user_writes, outside, fs_wf, meta_ok. cbv zeta. split_and!.
  - done.
  - rewrite Hnx. fold w. lia.
  - intros n Hn. rewrite Hlk, decide_False; [done| |done]. intros <-. apply Hn, temp_file_below.
  - intros n i Hn Hi. unfold w_content. cbn. rewrite lookup_insert_ne; [done|]. apply Hino in Hi as [->|Hi]; [unfold dir_ino; lia|lia].
  - cbn. rewrite fmap_app. apply NoDup_app. split_and!; [done| |apply NoDup_singleton].
    intros n Hin ->%list_elem_of_singleton. apply list_elem_of_fmap in Hin as ([m j] & Hm & Hin).
    apply dir_lookup_elem in Hin; [|done]. cbn in Hm. by rewrite <-Hm, Hnone in Hin.
  - rewrite Hnx. lia.
  - intros n i. rewrite Hlk, Hnx by done. case_decide; [intros [= <-]; lia|]. intros Hi. apply Hino in Hi. lia.
  - intros p n Hp Hb. rewrite !Hlk by done. case_decide as E.
    + subst n. intros _. assert (at_or_below p (temp_path s)) as Hb' by (by apply below_file in Hb).
      rewrite decide_False; [destruct Hb' as [<-|Hb']; [done|eapply Htree; [done..|by eexists]]|].
      intros <-. destruct Hb' as [E|E]; [symmetry in E; by apply path_join_ne in E|]. apply below_length in E. unfold name, path_join in E.
      rewrite length_app in E. lia.
    + intros Hn. assert (lk w p = Some dir_ino) as Hdp by (by eapply Htree). rewrite decide_False; [done|].
      intros <-. by rewrite Hnone in Hdp.
  - rewrite Hlk, decide_False; [apply Hok| |done]. by apply Hne.
  - rewrite <-path_join_tmp, Hlk, decide_False; [|by apply Hne|done]. rewrite path_join_tmp. apply Hok.
  - destruct (so_meta _ _ _ _ Hok) as (_ & _ & Hu). rewrite <-path_join_tmp in *. intros m i. rewrite Hlk, decide_False; [|by apply Hne|done].
    intros Hi. rewrite Hlk by done. case_decide; [|by eauto]. intros [= <-]. apply Hino in Hi as [Hi|Hi]; [unfold dir_ino in Hi; lia|lia].
Qed.

End runs.

(** ** A run *)

Module Example.

Definition root : list Z := chars "/d"%string.
Definition s0 : LocalSnapshotStorage := ss_new root false true (mkWorld ∅ [(root, dir_ino)] 0 0 [] []).

(** The result of a call with nothing in between; [a] when it aborts. *)
Definition call {A} (a : A) (m : SR A) (s : LocalSnapshotStorage) : A * LocalSnapshotStorage :=
  match m (mkStorageRun s []) with Some (a, r) => (a, sr_storage r) | None => (a, s) end.

(** A writer with the file [data] and the meta data of [index]. *)
Definition data : list Z := chars "data"%string.
Definition put (d : list Z) (s : LocalSnapshotStorage) : LocalSnapshotStorage :=
  with_ss_world (new_file (path_join (temp_path s) data) d (ss_world s)) s.
Definition create (s : LocalSnapshotStorage) := call None (ss_create true) s.
Definition written (index : Z) (s : LocalSnapshotStorage) : LocalSnapshotWriter :=
  wr_save_meta (mkSnapshotMetaPb index 1 [] []) (wr_add_file data None (default (mkWriter [] empty_table 0) (create s).1)).2.
Definition writing (index : Z) (d : list Z) (s : LocalSnapshotStorage) : SnapRun :=
  mkSnapRun (put d (create s).2) (Some (written index s)).
Definition closed (index : Z) (d : list Z) (s : LocalSnapshotStorage) : LocalSnapshotStorage :=
  (call 0 (close_writer (written index s) false) (sn_storage (writing index d s))).2.

Lemma reach_steps r r' : snap_reach r → rtc snap_step r r' → snap_reach r'.
Proof. intros Hr Hs. induction Hs as [|r1 r2 r3 Hs _ IH]; [done|]. apply IH. by eapply SnStep. Qed.

Lemma start_reach : snap_reach (mkSnapRun s0 None).
Proof.
  apply SnInit. assert (∀ n, lk (ss_world s0) n = if decide (root = n) then Some dir_ino else None) as Hl.
  { intros n. exact (dir_lookup_app [] root dir_ino n). }
  unfold storage_start, fs_wf. change (ss_path s0) with root. split_and!; try done.
  - apply NoDup_singleton.
  - intros n i. rewrite Hl. case_decide; [intros [= <-]; by left|done].
  - intros p n Hp Hb. rewrite !Hl. case_decide as E; [subst n|by intros []]. intros _.
    destruct Hp as [->|Hp%below_length]; [by rewrite decide_True|]. apply below_length in Hb. lia.
  - intros n Hb. rewrite Hl, decide_False; [done|]. intros <-. apply below_length in Hb. lia.
Qed.

(** What is checked by evaluation before a writer is filled. *)
Definition can_write (s : LocalSnapshotStorage) : Prop :=
  let s' := (create s).2 in
  is_Some (create s).1 ∧ lk (ss_world s') (temp_path s') = Some dir_ino ∧
  lk (ss_world s') (path_join (temp_path s') data) = None.

Lemma writing_steps index d s :
  snap_reach (mkSnapRun s None) → can_write s → rtc snap_step (mkSnapRun s None) (writing index d s).
Proof.
  intros Hr ([wr Hwr] & Hdir & Hnone). pose proof (snap_reach_ok _ Hr) as [G [Hinv _]]. cbn in Hinv.
  destruct (ss_create_spec G _ _ s true Hinv) as (r & w' & H1 & [_ Hok] & _).
  assert (create s = (r, with_ss_world w' s)) as E by (unfold create, call; by rewrite H1).
  unfold writing, written. rewrite E in *. cbn in Hwr. subst r. cbn [default snd fst].
  eapply rtc_l; [by eapply SnCreate|]. eapply rtc_l; [apply SnUser; eapply new_file_writes; [exact Hok|done..|vm_compute; set_solver|done|done]|].
  eapply rtc_l; [apply SnAddFile|]. apply rtc_once, SnSaveMeta.
Qed.

Lemma closed_steps index d s :
  snap_reach (writing index d s) → writer_ok (written index s) (put d (create s).2) →
  rtc snap_step (writing index d s) (mkSnapRun (closed index d s) None).
Proof.
  intros Hr Hok. pose proof (snap_reach_ok _ Hr) as [G [Hinv _]]. cbn in Hinv.
  destruct (close_writer_spec G _ false _ [] Hinv Hok) as (rc & s' & o' & H1 & _); [constructor|].
  apply rtc_once. eapply SnCloseWriter; [exact Hok| |]; [by constructor|].
  unfold closed, call. cbn [writing sn_storage]. by rewrite H1.
Qed.

(** The snapshots at 5 and, with a reader of the first one open, at 9. *)
Definition r1 : SnapRun := writing 5 [1; 2; 3] s0.
Definition s1 : LocalSnapshotStorage := closed 5 [1; 2; 3] s0.
Definition s2 : LocalSnapshotStorage := (call None ss_open s1).2.
Definition r2 : SnapRun := writing 9 [4] s2.
Definition s3 : LocalSnapshotStorage := closed 9 [4] s2.
Definition s4 : LocalSnapshotStorage := (call None ss_open s3).2.

Lemma writing_reach index d s : snap_reach (mkSnapRun s None) → can_write s → snap_reach (writing index d s).
Proof. intros Hr Hw. eapply reach_steps; [exact Hr|by apply writing_steps]. Qed.

Lemma closed_reach index d s :
  snap_reach (writing index d s) → writer_ok (written index s) (put d (create s).2) →
  snap_reach (mkSnapRun (closed index d s) None).
Proof. intros Hr Hok. eapply reach_steps; [exact Hr|by apply closed_steps]. Qed.

Lemma r1_reach : snap_reach r1.
Proof. apply writing_reach; [apply start_reach|]. split_and!; [by eexists; vm_compute|by vm_compute..]. Qed.

Lemma r1_writer : writer_ok (written 5 s0) (sn_storage r1).
Proof.
  split; [by vm_compute|]. intros _. split; [split|right; split; [split|]]; [|by vm_compute..].
  intros m Hm. vm_compute in Hm. injection Hm as <-. by vm_compute.
Qed.

Lemma s2_reach : snap_reach (mkSnapRun s2 None).
Proof.
  eapply SnStep; [apply (closed_reach 5 [1; 2; 3] s0); [apply r1_reach|apply r1_writer]|].
  apply (SnOpen _ _ (call None ss_open s1).1). by vm_compute.
Qed.

Lemma r2_steps : rtc snap_step (mkSnapRun s2 None) r2.
Proof. apply writing_steps; [apply s2_reach|]. split_and!; [by eexists; vm_compute|by vm_compute..]. Qed.

Lemma r2_reach : snap_reach r2.
Proof. eapply reach_steps; [apply s2_reach|apply r2_steps]. Qed.

Lemma r2_writer : writer_ok (written 9 s2) (sn_storage r2).
Proof.
  split; [by vm_compute|]. intros _. split; [split|right; split; [split|]]; [|by vm_compute..].
  intros m Hm. vm_compute in Hm. injection Hm as <-. by vm_compute.
Qed.

Lemma storage_serves_witness :
  ∃ v, serves (sn_storage r2) v ∧
    ∃ s', ss_init (mkStorageRun (ss_reopen true false (sn_storage r2)) []) = Some (0, mkStorageRun s' []) ∧ serves s' v.
Proof. apply storage_serves, r2_reach. Defined.

(** Another thread opens a reader while the writer is closed. *)
Lemma close_writer_atomic_witness :
  ∃ v, serves (sn_storage r2) v ∧
  ∃ rc s' o' v', close_writer (written 9 s2) false (mkStorageRun (sn_storage r2) [reader_call OtherOpen]) =
      Some (rc, mkStorageRun s' o') ∧ serves s' v' ∧ rc = 0 ∧ ∃ new, v' = Some new ∧ writer_view (written 9 s2) (sn_storage r2) new.
Proof.
  destruct (reach_serves r2 r2_reach) as [v Hv]. exists v. split; [exact Hv|].
  destruct (close_writer_atomic (sn_storage r2) (written 9 s2) false [reader_call OtherOpen] v false true)
    as (rc & s' & o' & v' & H1 & H2 & _ & H3 & _); [exact r2_reach|exact r2_writer| |exact Hv|].
  - constructor; [by exists OtherOpen|constructor].
  - exists rc, s', o', v'. split; [exact H1|]. split; [exact H2|]. apply H3; by vm_compute.
Defined.

Lemma s3_steps : rtc snap_step (mkSnapRun s2 None) (mkSnapRun s4 None).
Proof.
  etrans; [apply r2_steps|]. etrans; [apply (closed_steps 9 [4] s2); [apply r2_reach|apply r2_writer]|].
  apply rtc_once. apply (SnOpen _ _ (call None ss_open s3).1). by vm_compute.
Qed.

(** The reader of the snapshot at 5 keeps its file. *)
Lemma readers_stable_witness :
  ∃ rd rd', ss_readers s2 !! 0 = Some rd ∧ ss_readers s4 !! 0 = Some rd' ∧ ss_last_snapshot_index s4 = 9 ∧
    lookup_file (ss_world s4) (path_join (rd_path rd') data) = lookup_file (ss_world s2) (path_join (rd_path rd) data).
Proof.
  destruct (ss_readers s2 !! 0) as [rd|] eqn:E; [|by vm_compute in E].
  destruct (ss_readers s4 !! 0) as [rd'|] eqn:E'; [|by vm_compute in E'].
  exists rd, rd'. split; [done|]. split; [done|]. split; [by vm_compute|].
  apply (readers_stable (mkSnapRun s2 None) (mkSnapRun s4 None) 0 0); [apply s2_reach|apply s3_steps|exact E|exact E'|].
  vm_compute in E, E'. injection E as <-. injection E' as <-. by vm_compute.
Defined.

(** The disk is full when the first writer is closed. *)
Definition r1_full : SnapRun :=
  mkSnapRun (with_ss_world (with_writes [SysError 28] (ss_world (sn_storage r1))) (sn_storage r1)) (sn_writer r1).

Lemma r1_full_reach : snap_reach r1_full.
Proof. eapply SnStep; [apply r1_reach|apply SnFaults]. Qed.

Lemma close_writer_unsaved_witness :
  ∃ s', close_writer (written 5 s0) false (mkStorageRun (sn_storage r1_full) []) = Some (0, mkStorageRun s' []) ∧ serves s' None.
Proof.
  eapply (close_writer_unsaved (sn_storage r1_full) (written 5 s0) false); [exact r1_full_reach|by vm_compute|by vm_compute|].
  split; [by vm_compute|]. exists None, (sn_storage r1_full). split; by vm_compute.
Defined.

End Example.
