(* ===== verification/LogLink.v ===== *)
(** * Logs that are made of known links

    A link is an entry with the term of the entry before it.  A log is linked to
    a set of links when every entry of it is in the set together with the term
    that precedes it, be it the term of an entry, of the snapshot or of the
    virtual first entry of the manager.  Every operation of the log manager
    keeps its log linked: a leader's append adds the links it makes, a
    follower's append adds nothing as long as the request carries links of the
    set.  Two logs linked to a set that has one link per log id agree up to any
    entry they have in common. *)

From stdpp Require Import prelude.
From S2P Require Import Prelude StdContainers Configuration ConfigurationManager ClosureQueue LogStorage.
From S2P Require Import MemoryLog LogManager LogManagerSpec.
Local Open Scope Z_scope.

(** ** Links *)

Abbreviation Link := (Z * LogEntry)%type.

Definition link_id (x : Link) : LogId := id x.2.

(** The links of entries that follow an entry of term [p]. *)
Fixpoint links (p : Z) (es : list LogEntry) : list Link :=
  match es with
  | [] => []
  | e :: es' => (p, e) :: links (term (id e)) es'
  end.

(** The term of the last of the entries, [p] when there is none. *)
Definition last_term (p : Z) (es : list LogEntry) : Z := from_option (λ e, term (id e)) p (last es).

(** One link per log id. *)
Definition links_unique (P : list Link) : Prop :=
  ∀ x y, x ∈ P → y ∈ P → link_id x = link_id y → x = y.

Lemma last_term_cons p e es : last_term p (e :: es) = last_term (term (id e)) es.
Proof. unfold last_term. rewrite last_cons. by destruct (last es). Qed.

Lemma links_app p es fs : links p (es ++ fs) = links p es ++ links (last_term p es) fs.
Proof.
  revert p. induction es as [|e es IH]; intros p; cbn; [done|]. by rewrite IH, last_term_cons.
Qed.

Lemma links_split p es n : links p es = links p (take n es) ++ links (last_term p (take n es)) (drop n es).
Proof. by rewrite <-links_app, take_drop. Qed.

Lemma elem_of_links p es x : x ∈ links p es → x.2 ∈ es.
Proof.
  revert p. induction es as [|e es IH]; intros p; cbn; [by intros ?%not_elem_of_nil|].
  intros [->|Hx]%elem_of_cons; [left|right; by eapply IH].
Qed.

Lemma links_lookup p es k e : es !! k = Some e → (last_term p (take k es), e) ∈ links p es.
Proof.
  intros He. rewrite (links_split p es k), (drop_S es e k He). apply elem_of_app. right. left.
Qed.

Lemma last_term_lookup p es k e : es !! k = Some e → last_term p (take (S k) es) = term (id e).
Proof. intros He. unfold last_term. by rewrite (take_S_r _ _ _ He), last_snoc. Qed.

(** ** Linked logs *)

(** What the id of a snapshot or of the virtual first entry says of the term
    before the log. *)
Definition base_fits (q : Z) (L : Log) (d : LogId) : Prop :=
  index d = lfirst L - 1 → 0 < index d → term d = q.

(** [v] and [sn] are the virtual first id and the id of the last snapshot.  [q] is a term
    before the log that makes its links known. *)
Definition chained (P : list Link) (v sn : LogId) (L : Log) (q : Z) : Prop :=
  links q (lents L) ⊆ P ∧ (lfirst L = 1 → q = 0) ∧ base_fits q L v ∧ base_fits q L sn.

Record linked (P : list Link) (v sn : LogId) (L : Log) : Prop := mkLinked {
  lk_snap : lfirst L - 1 ≤ index sn;
  lk_virtual : index v = 0 ∨ index v = lfirst L - 1;
  lk_terms : (0 < index sn → term sn ≠ 0) ∧ (0 < index v → term v ≠ 0);
  lk_chain : ∃ q, chained P v sn L q;
}.

Lemma linked_mono P P' v sn L : P ⊆ P' → linked P v sn L → linked P' v sn L.
Proof.
  intros Hs [H1 H2 H3 (q & Hq & H4)]. constructor; try done. exists q. split; [|done]. set_solver.
Qed.

(** The term before the [k]-th index of a log that follows a term [q]. *)
Definition prev_term (q : Z) (L : Log) (k : Z) : Z := last_term q (take (Z.to_nat (k - lfirst L)) (lents L)).

Lemma prev_term_first q L : prev_term q L (lfirst L) = q.
Proof. unfold prev_term. by rewrite Z.sub_diag. Qed.

Lemma prev_term_get q L k e : log_get L (k - 1) = Some e → prev_term q L k = term (id e).
Proof.
  intros Hg. pose proof (log_get_Some_range _ _ _ Hg). unfold log_get, zlookup in Hg.
  rewrite decide_False in Hg by lia. unfold prev_term.
  replace (Z.to_nat (k - lfirst L)) with (S (Z.to_nat (k - 1 - lfirst L))) by lia.
  by apply last_term_lookup.
Qed.

Lemma prev_term_end q L : prev_term q L (log_last L + 1) = last_term q (lents L).
Proof. unfold prev_term, log_last, zlen. f_equal. apply take_ge. lia. Qed.

(** An id that fits the log gives the term before the entry after it. *)
Lemma base_prev_term q L d :
  base_fits q L d → 0 < index d → lfirst L - 1 ≤ index d ≤ log_last L →
  (∀ e, log_get L (index d) = Some e → term (id e) = term d) → prev_term q L (index d + 1) = term d.
Proof.
  intros Hb Hp Hr Hg. destruct (decide (index d = lfirst L - 1)) as [He|He].
  - rewrite (Hb He Hp). replace (index d + 1) with (lfirst L) by lia. apply prev_term_first.
  - destruct (log_get_in_range L (index d)) as [e Hge]; [lia|]. rewrite <-(Hg e Hge).
    apply prev_term_get. by replace (index d + 1 - 1) with (index d) by lia.
Qed.

Lemma linked_empty P v sn n :
  0 < n → sn = mkLogId n (term sn) → term sn ≠ 0 → v = sn → linked P v sn (mkLog (n + 1) []).
Proof.
  intros Hn Hs Ht ->. assert (index sn = n) as Hi by (rewrite Hs; done).
  constructor; cbn; [lia|right; lia|done|]. exists (term sn). split; [apply list_subseteq_nil|].
  split; [cbn; lia|]. by split; intros _ _.
Qed.

(** Entries replace the end of the log after index [k]. *)
Lemma linked_replace P v sn L L0 k es :
  lfirst L0 = lfirst L → lents L0 = take (Z.to_nat (k + 1 - lfirst L)) (lents L) → linked P v sn L →
  (∀ q, chained P v sn L q → links (prev_term q L (k + 1)) es ⊆ P) → linked P v sn (log_append L0 es).
Proof.
  intros Hf He [H1 H2 H3 (q & Hq)] Hes. specialize (Hes q Hq). destruct Hq as (Hq & H4 & H5 & H6).
  constructor; cbn; rewrite ?Hf; try done. exists q. unfold chained, base_fits. cbn. rewrite Hf. split; [|done].
  rewrite He, links_app. rewrite (links_split q (lents L) (Z.to_nat (k + 1 - lfirst L))) in Hq.
  unfold prev_term in Hes. set_solver.
Qed.

Lemma truncate_suffix_shape L k :
  lfirst L - 1 ≤ k → lfirst (log_truncate_suffix L k) = lfirst L ∧
  lents (log_truncate_suffix L k) = take (Z.to_nat (k + 1 - lfirst L)) (lents L).
Proof.
  intros Hk. unfold log_truncate_suffix. case_decide; [|done]. cbn. split; [lia|].
  by replace (Z.to_nat _) with 0%nat by lia.
Qed.

Lemma take_all_shape L : lents L = take (Z.to_nat (log_last L + 1 - lfirst L)) (lents L).
Proof. symmetry. apply take_ge. unfold log_last, zlen. lia. Qed.

(** A leader's entries extend the log. *)
Lemma linked_extend P v sn L es :
  linked P v sn L → (∀ q, chained P v sn L q → links (prev_term q L (log_last L + 1)) es ⊆ P) →
  linked P v sn (log_append L es).
Proof. intros Hl. apply (linked_replace P v sn L L (log_last L)); [done|apply take_all_shape|done]. Qed.

(** What a leader sends is merged. *)
Lemma linked_merge P v sn L es i pt :
  linked P v sn L → contiguous i es → Forall entry_ok es → lfirst L ≤ i ≤ log_last L + 1 →
  (∀ q, chained P v sn L q → prev_term q L i = pt) → links pt es ⊆ P → linked P v sn (merge L es).
Proof.
  intros Hl Hc Hok Hi Hpt Hes. unfold merge. destruct (es !! match_len L es) as [e|] eqn:He; [|done].
  pose proof (Hc _ _ He) as Hei. pose proof (merge_base_last L es i e Hc Hok (proj2 Hi) He) as Hbl.
  apply (linked_replace P v sn L _ (index (id e) - 1)); [..|done|].
  - case_decide; [apply truncate_suffix_shape; lia|done].
  - case_decide; [apply truncate_suffix_shape; lia|]. rewrite <-Hbl. apply take_all_shape.
  - intros q Hq. replace (index (id e) - 1 + 1) with (index (id e)) by lia.
    rewrite (links_split pt es (match_len L es)) in Hes.
    assert (prev_term q L (index (id e)) = last_term pt (take (match_len L es) es)) as ->; [|set_solver].
    destruct (match_len L es) as [|c] eqn:Ec; [rewrite Hei, Z.add_0_r; by apply Hpt|].
    destruct (lookup_lt_is_Some_2 es c) as [f Hf]; [apply lookup_lt_Some in He; lia|].
    assert (c < match_len L es)%nat as Hlt by lia. pose proof (Hc _ _ Hf).
    pose proof (match_len_in _ _ _ _ _ Hc Hok Hlt Hf). rewrite (last_term_lookup _ _ _ _ Hf).
    destruct (log_get_in_range L (index (id f))) as [g Hg]; [lia|].
    pose proof (match_len_matches _ _ _ _ Hlt Hf) as Ht. unfold log_term in Ht. rewrite Hg in Ht. rewrite <-Ht.
    apply prev_term_get. by replace (index (id e) - 1) with (index (id f)) by lia.
Qed.

(** They leave it at its front, up to an id that fits. *)
Lemma linked_truncate_prefix P v sn L d sn' :
  linked P v sn L → 0 < index d → lfirst L - 1 ≤ index d ≤ log_last L → term d ≠ 0 →
  (∀ q, base_fits q L v → base_fits q L sn → base_fits q L d) →
  (∀ e, log_get L (index d) = Some e → term (id e) = term d) →
  index d ≤ index sn' → (index sn' = index d → sn' = d) → (0 < index sn' → term sn' ≠ 0) →
  linked P d sn' (log_truncate_prefix L (index d + 1)).
Proof.
  intros [H1 H2 H3 (q & Hq & H4 & H5 & H6)] Hd Hr Ht Hb Hg Hsn Heq Hts.
  pose proof (base_prev_term q L d (Hb q H5 H6) Hd Hr Hg) as Hp.
  constructor; cbn; [lia|right; lia|done|]. exists (term d). unfold chained. cbn. split_and!.
  - rewrite <-Hp. unfold prev_term. cbn. rewrite (links_split q _ (Z.to_nat (index d + 1 - lfirst L))) in Hq.
    set_solver.
  - lia.
  - by intros _ _.
  - intros Hi _. cbn in Hi. by rewrite Heq by lia.
Qed.

(** ** Agreement *)

(** Two linked logs that share an entry agree before it. *)
Lemma linked_agree P v1 sn1 L1 v2 sn2 L2 i j e1 e2 f1 f2 :
  links_unique P → log_wf L1 → log_wf L2 → linked P v1 sn1 L1 → linked P v2 sn2 L2 →
  log_get L1 i = Some e1 → log_get L2 i = Some e2 → term (id e1) = term (id e2) →
  j ≤ i → log_get L1 j = Some f1 → log_get L2 j = Some f2 → f1 = f2.
Proof.
  intros Hu Hw1 Hw2 [_ _ _ (q1 & Hq1 & _)] [_ _ _ (q2 & Hq2 & _)] He1 He2 Ht Hji Hf1 Hf2.
  assert (∀ L q k e, log_wf L → links q (lents L) ⊆ P → log_get L k = Some e → (prev_term q L k, e) ∈ P) as Hin.
  { intros L q k e Hw Hq Hg. apply Hq. unfold log_get, zlookup in Hg. case_decide; [done|].
    by apply links_lookup. }
  remember (Z.to_nat (i - j)) as n eqn:En. revert i e1 e2 He1 He2 Ht Hji En.
  induction n as [|n IH]; intros i e1 e2 He1 He2 Ht Hji En.
  - assert (i = j) as -> by lia. rewrite He1 in Hf1. rewrite He2 in Hf2. injection Hf1 as <-. injection Hf2 as <-.
    pose proof (Hu _ _ (Hin _ _ _ _ Hw1 Hq1 He1) (Hin _ _ _ _ Hw2 Hq2 He2)) as Hx.
    assert (id e1 = id e2) as Hid.
    { pose proof (log_get_index _ _ _ Hw1 He1). pose proof (log_get_index _ _ _ Hw2 He2).
      destruct (id e1), (id e2); cbn in *. congruence. }
    by injection (Hx Hid).
  - pose proof (log_get_Some_range _ _ _ He1). pose proof (log_get_Some_range _ _ _ He2).
    pose proof (log_get_Some_range _ _ _ Hf1). pose proof (log_get_Some_range _ _ _ Hf2).
    destruct (log_get_in_range L1 (i - 1)) as [g1 Hg1]; [lia|].
    destruct (log_get_in_range L2 (i - 1)) as [g2 Hg2]; [lia|].
    apply (IH (i - 1) g1 g2 Hg1 Hg2); [|lia..].
    assert (id e1 = id e2) as Hid.
    { pose proof (log_get_index _ _ _ Hw1 He1). pose proof (log_get_index _ _ _ Hw2 He2).
      destruct (id e1), (id e2); cbn in *. congruence. }
    pose proof (Hu _ _ (Hin _ _ _ _ Hw1 Hq1 He1) (Hin _ _ _ _ Hw2 Hq2 He2) Hid) as [= Hp _].
    by rewrite (prev_term_get _ _ _ _ Hg1), (prev_term_get _ _ _ _ Hg2) in Hp.
Qed.

(** ** The log manager *)

Section manager.
Context {St : Type} `{LogStorageLaws St}.
Implicit Types (m : LogManager St) (l L : Log) (P : list Link).

(** The entries that can be read from index [i] on, [n] at most. *)
Fixpoint lm_read m (i : Z) (n : nat) : list LogEntry :=
  match n with
  | O => []
  | S n' => match lm_get_entry m i with
            | Some (_, Some e) => e :: lm_read m (i + 1) n'
            | _ => []
            end
  end.

Definition lm_entries m : list LogEntry :=
  lm_read m (lm_first_log_index m) (Z.to_nat (lm_last_log_index m - lm_first_log_index m + 1)).

(** The links of a manager's log; the one of its first entry is known when the
    manager has the term before it. *)
Definition lm_links m : list Link :=
  match lm_entries m with
  | [] => []
  | e :: es =>
      match lm_get_term m (lm_first_log_index m - 1) with
      | Some p => if decide (p ≠ 0 ∨ lm_first_log_index m = 1) then [(p, e)] else []
      | None => []
      end ++ links (term (id e)) es
  end.

Definition lm_linked P m l L : Prop :=
  lm_inv m l L ∧ linked P (lm_virtual_first_log_id m) (lm_last_snapshot_id m) L.

Abbreviation lm_chained P m L q := (chained P (lm_virtual_first_log_id m) (lm_last_snapshot_id m) L q).

Lemma lm_read_spec m l L n i :
  lm_inv m l L → lfirst L ≤ i → lm_read m i n = take n (drop (Z.to_nat (i - lfirst L)) (lents L)).
Proof.
  intros Hi. revert i. induction n as [|n IH]; intros i Hl; [done|]. cbn [lm_read].
  destruct (log_get L i) as [e|] eqn:E.
  - rewrite (get_entry_in _ _ _ _ _ Hi E). rewrite IH by lia. unfold log_get, zlookup in E.
    case_decide; [done|]. rewrite (drop_S _ _ _ E). cbn.
    by replace (Z.to_nat (i + 1 - lfirst L)) with (S (Z.to_nat (i - lfirst L))) by lia.
  - rewrite (get_entry_out _ _ _ _ Hi E). rewrite drop_ge; [done|].
    destruct (decide (i ≤ log_last L)) as [Hle|Hgt].
    + destruct (log_get_in_range L i) as [e He]; [lia|congruence].
    + unfold log_last, zlen in Hgt. lia.
Qed.

Lemma lm_entries_spec m l L : lm_inv m l L → lm_entries m = lents L.
Proof.
  intros Hi. unfold lm_entries. rewrite (inv_first _ _ _ Hi), (inv_last _ _ _ Hi).
  rewrite (lm_read_spec m l L) by (done || lia). rewrite Z.sub_diag. apply take_ge.
  unfold log_last, zlen. change (drop (Z.to_nat 0) (lents L)) with (lents L). lia.
Qed.

(** A term the manager gives right before an entry is the one of the chain. *)
Lemma get_term_prev P m l L q prev pt :
  lm_inv m l L → lm_chained P m L q → lfirst L - 1 ≤ prev ≤ log_last L →
  lm_get_term m prev = Some pt → pt ≠ 0 ∨ prev = 0 → prev_term q L (prev + 1) = pt.
Proof.
  intros Hi (_ & H1 & Hv & Hs) Hr Ht Hz. pose proof (inv_pos _ _ _ Hi).
  destruct (decide (lfirst L ≤ prev)) as [Hin|Hout].
  - destruct (log_get_in_range L prev) as [e He]; [lia|].
    change (lm_get_term m prev) with (lm_unsafe_get_term m prev) in Ht.
    rewrite (unsafe_get_term_in _ _ _ _ Hi) in Ht by lia. unfold log_term in Ht. rewrite He in Ht.
    injection Ht as <-. apply prev_term_get. by replace (prev + 1 - 1) with prev by lia.
  - replace (prev + 1) with (lfirst L) by lia. rewrite prev_term_first. unfold lm_get_term in Ht.
    case_decide; [injection Ht as <-; apply H1; lia|].
    case_decide; [injection Ht as <-; symmetry; apply Hv; lia|].
    case_decide; [injection Ht as <-; symmetry; apply Hs; lia|].
    rewrite (inv_first _ _ _ Hi), decide_True in Ht by lia. injection Ht as <-. lia.
Qed.

(** The term before a log that starts right after the snapshot is known. *)
Lemma get_term_snapshot P m l L :
  lm_linked P m l L → index (lm_last_snapshot_id m) = lfirst L - 1 →
  ∃ p, lm_get_term m (lfirst L - 1) = Some p ∧ (p ≠ 0 ∨ lfirst L - 1 = 0).
Proof.
  intros [Hi [Hs Hv [Ht1 Ht2] _]] Hsn. pose proof (inv_pos _ _ _ Hi).
  unfold lm_get_term. case_decide; [exists 0; split; [done|by right]|].
  case_decide as Hd; [eexists; split; [done|left; apply Ht2; lia]|].
  rewrite decide_True by done. eexists. split; [done|]. left. apply Ht1. lia.
Qed.

Lemma snapshot_of_empty P m l L :
  lm_linked P m l L → lents L = [] → index (lm_last_snapshot_id m) = lfirst L - 1.
Proof.
  intros [Hi [Hs _ _ _]] He. destruct (inv_snap _ _ _ Hi) as [Hs1 _].
  unfold log_last, zlen in Hs1. rewrite He in Hs1. cbn in Hs1. lia.
Qed.

(** The links of a linked log are known. *)
Lemma lm_links_known P m l L : lm_linked P m l L → lm_links m ⊆ P.
Proof.
  intros [Hi Hl]. pose proof Hl as [_ _ _ (q & Hq)]. unfold lm_links. rewrite (lm_entries_spec m l L Hi).
  pose proof Hq as (Hsub & _). destruct (lents L) as [|e es] eqn:El; [apply list_subseteq_nil|]. cbn in Hsub.
  rewrite (inv_first _ _ _ Hi). intros x [Hx|Hx]%elem_of_app; [|apply Hsub; by right].
  destruct (lm_get_term m (lfirst L - 1)) as [p|] eqn:Ep; [|by apply not_elem_of_nil in Hx].
  case_decide as Hd; [|by apply not_elem_of_nil in Hx]. apply list_elem_of_singleton in Hx as ->.
  apply Hsub. assert (q = p) as ->; [|left].
  rewrite <-(prev_term_first q L). replace (lfirst L) with (lfirst L - 1 + 1) by lia.
  eapply get_term_prev; [done|done| |done|lia].
  unfold log_last, zlen. lia.
Qed.

(** The links of appended entries are among the links of the manager. *)
Lemma appended_links P P' m l L m' l' es q :
  lm_linked P m l L → lm_linked P' m' l' (log_append L es) → lm_chained P' m' (log_append L es) q →
  lm_last_snapshot_id m' = lm_last_snapshot_id m →
  links (prev_term q L (log_last L + 1)) es ⊆ lm_links m'.
Proof.
  intros Hm Hm' Hq Hsn. rewrite prev_term_end. unfold lm_links. pose proof Hm' as [Hi' _].
  rewrite (lm_entries_spec m' l' _ Hi'). cbn [lents log_append].
  destruct (lents L) as [|e es0] eqn:El; cbn [app].
  - destruct es as [|e es]; [apply list_subseteq_nil|]. cbn [links].
    pose proof (snapshot_of_empty _ _ _ _ Hm El) as Hse. rewrite <-Hsn in Hse.
    destruct (get_term_snapshot _ _ _ _ Hm' Hse) as (p & Hp & Hpz). cbn [lfirst log_append] in Hp, Hpz.
    rewrite (inv_first _ _ _ Hi'). cbn [lfirst log_append]. rewrite Hp. rewrite decide_True by lia.
    assert (last_term q [] = p) as ->; [|done]. change (last_term q []) with q.
    rewrite <-(prev_term_first q (log_append L (e :: es))).
    rewrite <-(get_term_prev P' m' l' (log_append L (e :: es)) q (lfirst L - 1) p Hi' Hq); [|..|done|done].
    + f_equal. cbn. lia.
    + rewrite log_append_last. cbn [lfirst log_append]. unfold log_last, zlen. lia.
  - rewrite last_term_cons, links_app. set_solver.
Qed.
End manager.
