(* ===== verification/LogLinkOps.v ===== *)
(** * The log manager keeps its log linked

    Each call of the log manager, on a manager whose log is linked to a set of
    links (LogLink.v), when it returns: appends of a leader and of a follower,
    snapshots, what the state machine has applied, the disk thread, and a start
    on a storage whose log is linked. *)

From stdpp Require Import prelude.
From S2P Require Import Prelude StdContainers Configuration ConfigurationManager ClosureQueue LogStorage.
From S2P Require Import MemoryLog LogManager LogManagerSpec LogLink.
Local Open Scope Z_scope.

Section ops.
Context {St : Type} `{LogStorageLaws St}.
Implicit Types (m : LogManager St) (l L : Log) (P : list Link).
Abbreviation lm_chained P m L q := (chained P (lm_virtual_first_log_id m) (lm_last_snapshot_id m) L q).

(** ** The ids of an append *)

Definition same_ids m m' : Prop :=
  lm_virtual_first_log_id m' = lm_virtual_first_log_id m ∧ lm_last_snapshot_id m' = lm_last_snapshot_id m ∧
  lm_applied_id m' = lm_applied_id m.

Lemma truncate_suffix_ids m k m' : lm_unsafe_truncate_suffix m k = Some m' → same_ids m m'.
Proof.
  unfold lm_unsafe_truncate_suffix. intros (_ & Hr)%CHECK_bind_Some.
  apply bind_Some in Hr as (t & _ & Hr). apply CHECK_bind_Some in Hr as (_ & [= <-]). done.
Qed.

Lemma resolve_ids m es m1 es1 r er :
  lm_check_and_resolve_conflict m es = Some (m1, es1, r, er) → same_ids m m1.
Proof.
  unfold lm_check_and_resolve_conflict. intros Hr. destruct es as [|front es]; [done|].
  destruct (last (front :: es)) as [back|]; [|done].
  do 4 (case_decide; [by injection Hr as <- <- <- <-|]).
  apply bind_Some in Hr as (c & _ & Hr). apply bind_Some in Hr as (m2 & Hm2 & [= <- <- <- <-]).
  destruct ((front :: es) !! c) as [e|]; [|by injection Hm2 as <-].
  apply bind_Some in Hm2 as (m3 & Hm3 & [= <-]). case_decide; [|by injection Hm3 as <-].
  by apply truncate_suffix_ids in Hm3.
Qed.

Lemma append_resolved_ids m es d m' : lm_append_resolved m es d = Some m' → same_ids m m'.
Proof. unfold lm_append_resolved. intros (cm & _ & [= <-])%bind_Some. done. Qed.

Lemma append_ids m es d m' : lm_append_entries m es d = Some m' → same_ids m m'.
Proof.
  unfold lm_append_entries. destruct (lm_has_error m); [by intros [= <-]|].
  case_decide; [by apply append_resolved_ids|].
  intros ([[[m1 es1] r] er] & Hr & Ha)%bind_Some. apply resolve_ids in Hr as (Hv1 & Hs1 & Ha1).
  case_decide; [injection Ha as <-; done|]. apply append_resolved_ids in Ha as (Hv2 & Hs2 & Ha2). split_and!; congruence.
Qed.

Lemma linked_of_ids P m m' l' L' :
  same_ids m m' → lm_inv m' l' L' → linked P (lm_virtual_first_log_id m) (lm_last_snapshot_id m) L' →
  lm_linked P m' l' L'.
Proof. intros (Hv & Hs & _) Hi Hl. split; [done|]. by rewrite Hv, Hs. Qed.

(** What only touches the closures and events of a manager. *)
Lemma emit_inv m l L evs : lm_inv m l L → lm_inv (emit m evs) l L.
Proof. intros []. constructor; done. Qed.

(** ** Appends *)

Lemma assign_indexes_term t last es :
  Forall (λ e, term (id e) = t) es → Forall (λ e, term (id e) = t) (assign_indexes last es).
Proof. intros Hf. revert last. induction Hf; intros last; cbn; constructor; done. Qed.

(** A leader appends: the links of the entries are new. *)
Lemma lead_linked P m l L es t d m' :
  lm_linked P m l L → Forall (λ e, id e = mkLogId 0 t) es → Forall entry_ok es →
  lm_append_entries m es d = Some m' →
  let es' := assign_indexes (log_last L) es in
  ∃ q, contiguous (log_last L + 1) es' ∧ Forall (λ e, term (id e) = t) es' ∧
    lm_linked (P ++ links (prev_term q L (log_last L + 1)) es') m' l (log_append L es') ∧
    links (prev_term q L (log_last L + 1)) es' ⊆ lm_links m'.
Proof.
  intros Hm Hid Hok Ha. pose proof Hm as [Hi Hl]. pose proof Hl as [Hsn Hvt Htm (q & Hq)].
  pose proof (append_ids _ _ _ _ Ha) as Hids.
  set (es' := assign_indexes (log_last L) es).
  assert (contiguous (log_last L + 1) es' ∧ Forall (λ e, term (id e) = t) es' ∧
            lm_inv m' l (log_append L es')) as (Hc & Ht & Hi').
  { split_and!; [apply assign_indexes_contiguous| |].
    { apply assign_indexes_term. eapply Forall_impl; [exact Hid|]. by intros e ->. }
    destruct es as [|front es].
    - subst es'. cbn [assign_indexes]. rewrite log_append_nil.
      unfold lm_append_entries in Ha. rewrite (inv_ok _ _ _ Hi) in Ha. rewrite decide_True in Ha by done.
      destruct (append_nothing_inv m l L d Hi) as (m2 & Hm2 & ?). congruence.
    - destruct (leader_append_inv m l L (front :: es) front d Hi) as (m2 & Hm2 & Hi2 & _); [done| |done|].
      { apply Forall_cons in Hid as [-> _]. done. }
      subst es'. congruence. }
  exists q. set (new := links _ es').
  assert (linked (P ++ new) (lm_virtual_first_log_id m) (lm_last_snapshot_id m) (log_append L es') ∧
          chained (P ++ new) (lm_virtual_first_log_id m) (lm_last_snapshot_id m) (log_append L es') q) as [Hl' Hq'].
  { destruct Hq as (Hq1 & Hq2 & Hq3 & Hq4).
    assert (chained (P ++ new) (lm_virtual_first_log_id m) (lm_last_snapshot_id m) (log_append L es') q) as Hq'.
    { split; [|done]. cbn. rewrite links_app, <-prev_term_end. fold new. set_solver. }
    split; [|done]. by constructor; [..|exists q]. }
  pose proof (linked_of_ids _ m m' l _ Hids Hi' Hl') as Hm'. split_and!; [done..|].
  destruct Hids as (Hv & Hs & _). eapply appended_links; [done|exact Hm'|by rewrite Hv, Hs|done].
Qed.

(** A follower's append that returns did not truncate what was applied. *)
Lemma append_no_conflict m l L es front e d m' :
  lm_inv m l L → head es = Some front → contiguous (index (id front)) es → lfirst L ≤ index (id front) →
  index (lm_applied_id m) < index (id front) + zlen es - 1 → lm_append_entries m es d = Some m' →
  es !! match_len L es = Some e → index (id e) ≤ log_last L → index (lm_applied_id m) < index (id e).
Proof.
  intros Hi Hhd Hc Hf Hap Ha He Hle. pose proof (Hc _ _ He) as Hei. pose proof (inv_pos _ _ _ Hi).
  unfold lm_append_entries in Ha. rewrite (inv_ok _ _ _ Hi) in Ha.
  destruct es as [|x es]; [done|]. injection Hhd as ->. rewrite decide_False in Ha by done.
  apply bind_Some in Ha as ([[[m1 es1] r] er] & Hr & _). unfold lm_check_and_resolve_conflict in Hr.
  destruct (last (front :: es)) as [back|] eqn:Eb; [|by apply last_None in Eb].
  assert (index (id back) = index (id front) + zlen es) as Hbi.
  { rewrite last_lookup in Eb. apply Hc in Eb. rewrite Eb. unfold zlen. cbn. lia. }
  rewrite zlen_cons in Hap. rewrite (inv_last _ _ _ Hi) in Hr.
  rewrite decide_False in Hr by lia. rewrite decide_False in Hr by lia.
  rewrite decide_False in Hr by lia. rewrite decide_False in Hr by lia.
  rewrite (conflicting_index_spec _ _ _ _ _ Hi Hf Hc) in Hr. cbn [mbind option_bind] in Hr. rewrite He in Hr.
  apply bind_Some in Hr as (m2 & Hm2 & _). apply bind_Some in Hm2 as (m3 & Hm3 & _).
  rewrite decide_True in Hm3 by done. unfold lm_unsafe_truncate_suffix in Hm3.
  apply CHECK_bind_Some in Hm3 as (Hx & _). lia.
Qed.

Lemma last_contiguous i (e : LogEntry) es b :
  contiguous i (e :: es) → last (e :: es) = Some b → index (id b) = i + zlen es.
Proof. intros Hc Hb. rewrite last_lookup in Hb. apply Hc in Hb. rewrite Hb. unfold zlen. cbn. lia. Qed.

(** The log after a follower's append: entries that leave a gap, and entries that
    end at or before the applied index, are not taken. *)
Definition follower_log L (applied : LogId) (es : list LogEntry) : Log :=
  match head es, last es with
  | Some front, Some back =>
      if decide (log_last L + 1 < index (id front) ∨ index (id back) ≤ index applied) then L else merge L es
  | _, _ => L
  end.

(** A follower appends entries that start in the log or right after it. *)
Lemma follow_in_range P m l L es front pt d m' :
  lm_linked P m l L → head es = Some front → contiguous (index (id front)) es → Forall entry_ok es →
  lfirst L ≤ index (id front) → lm_get_term m (index (id front) - 1) = Some pt →
  pt ≠ 0 ∨ index (id front) = 1 → links pt es ⊆ P → lm_append_entries m es d = Some m' →
  lm_linked P m' l (follower_log L (lm_applied_id m) es).
Proof.
  intros [Hi Hl] Hhd Hc Hok Hf Ht Hz Hes Ha. pose proof (inv_pos _ _ _ Hi) as Hpos.
  destruct es as [|x es]; [done|]. injection Hhd as ->.
  destruct (last (front :: es)) as [back|] eqn:Eb; [|by apply last_None in Eb].
  pose proof (last_contiguous _ _ _ _ Hc Eb) as Hbi. unfold follower_log. rewrite Eb. cbn [head].
  destruct (decide (log_last L + 1 < index (id front) ∨ index (id back) ≤ index (lm_applied_id m))) as [Hrf|Hrf].
  { assert (∃ evs, m' = emit m evs) as [evs ->]; [|split; [by apply emit_inv|exact Hl]].
    unfold lm_append_entries in Ha. rewrite (inv_ok _ _ _ Hi) in Ha. rewrite decide_False in Ha by done.
    unfold lm_check_and_resolve_conflict in Ha. rewrite Eb in Ha. rewrite (inv_last _ _ _ Hi) in Ha.
    rewrite decide_False in Ha by lia. case_decide; [injection Ha as <-; eauto|].
    rewrite decide_True in Ha by lia. injection Ha as <-. eauto. }
  assert (index (lm_applied_id m) < index (id front) + zlen (front :: es) - 1) as Hap.
  { rewrite zlen_cons. lia. }
  destruct (resolve_conflict_inv m l L (front :: es) front d Hi) as (m2 & Hm2 & Hi2); try done.
  - lia.
  - destruct Hz as [Hz|Hz]; [right; by exists pt|by left].
  - intros e He Hle. by eapply (append_no_conflict m l L (front :: es) front e d m').
  - assert (m2 = m') as -> by congruence. apply (linked_of_ids P m); [by eapply append_ids|done|].
    eapply (linked_merge P _ _ L _ (index (id front)) pt); [done..|lia| |done].
    intros q Hq. replace (index (id front)) with (index (id front) - 1 + 1) at 1 by lia.
    eapply get_term_prev; [done|done| |done|]; lia.
Qed.

(** A request that starts at index 1 of a log that starts at 2: the first entry
    is the one the snapshot ends with, and is skipped. *)
Lemma follow_skip P m l L e es d m' :
  lm_linked P m l L → contiguous 1 (e :: es) → Forall entry_ok (e :: es) → 1 < lfirst L →
  lm_append_entries m (e :: es) d = Some m' →
  (∃ evs, m' = emit m evs) ∨
  es ≠ [] ∧ lfirst L = 2 ∧ lm_get_term m 1 = Some (term (id e)) ∧ lm_append_entries m es d = Some m'.
Proof.
  intros [Hi Hl] Hc Hok Hf Ha. destruct Hl as [Hsn Hvt _ _]. pose proof (inv_applied _ _ _ Hi) as Hia.
  assert (lfirst L - 1 ≤ log_last L) as Hll by (unfold log_last; pose proof (zlen_nonneg (lents L)); lia).
  pose proof Hc as [Hei Hc']%contiguous_cons. apply Forall_cons in Hok as [[Het _] Hok].
  unfold lm_append_entries in *. rewrite (inv_ok _ _ _ Hi) in *. rewrite decide_False in Ha by done.
  unfold lm_check_and_resolve_conflict in *.
  destruct (last (e :: es)) as [back|] eqn:Eb; [|by apply last_None in Eb].
  pose proof (last_contiguous _ _ _ _ Hc Eb) as Hbi. rewrite (inv_last _ _ _ Hi) in *.
  rewrite decide_False in Ha by lia. rewrite decide_False in Ha by lia.
  case_decide as Hb; [injection Ha as <-; left; eauto|]. right.
  rewrite decide_False in Ha by lia. cbn [conflicting_index] in Ha. rewrite Hei in Ha.
  destruct (lm_unsafe_get_term m 1) as [t|] eqn:Et; [|done]. cbn [mbind option_bind] in Ha.
  destruct (decide (t ≠ term (id e))) as [Hne|Heq].
  { cbn [mbind option_bind lookup list_lookup] in Ha. rewrite decide_True in Ha by lia.
    unfold lm_unsafe_truncate_suffix in Ha.
    destruct (decide (¬ (index (id e) - 1 < index (lm_applied_id m)))) as [Hx|Hx]; [lia|].
    unfold CHECK in Ha. by rewrite decide_False in Ha by done. }
  assert (t = term (id e)) as -> by (destruct (decide (t = term (id e))); [done|tauto]).
  assert (lfirst L = 2) as Hf2.
  { unfold lm_unsafe_get_term in Et. rewrite decide_False in Et by lia. case_decide; [lia|].
    case_decide; [lia|]. rewrite (inv_first _ _ _ Hi), decide_True in Et by lia. congruence. }
  destruct es as [|f es]; [cbn in Hbi; unfold zlen in Hbi; cbn in Hbi; lia|]. split_and!; [done|done|exact Et|].
  rewrite decide_False by done. rewrite last_cons_cons in Eb. rewrite Eb.
  pose proof Hc' as [Hfi _]%contiguous_cons. change (1 + 1) with 2 in *.
  rewrite decide_False by lia. rewrite decide_False by lia. rewrite decide_False by lia.
  rewrite (conflicting_index_spec _ _ _ 2 _ Hi) in * by (done || lia).
  cbn [fmap option_fmap option_map mbind option_bind] in *. change ((e :: f :: es) !! S ?c) with ((f :: es) !! c) in Ha.
  cbn [drop] in Ha. case_decide as Hlast; [|exact Ha].
  assert (match_len L (f :: es) = 0%nat) as Hz.
  { cbn. rewrite decide_False; [done|]. unfold log_term. rewrite log_get_out by lia. cbn.
    apply Forall_cons in Hok as [[? _] _]. congruence. }
  rewrite Hz in Ha. cbn [lookup list_lookup drop] in Ha. rewrite decide_False in Ha by lia. exact Ha.
Qed.

(** A follower appends what a request brings. *)
Lemma follow_linked P m l L es prev pt d m' :
  lm_linked P m l L → contiguous (prev + 1) es → Forall entry_ok es → lm_get_term m prev = Some pt →
  pt ≠ 0 ∨ prev = 0 → links pt es ⊆ P → lm_append_entries m es d = Some m' → ∃ L', lm_linked P m' l L'.
Proof.
  intros Hm Hc Hok Ht Hz Hes Ha. pose proof Hm as [Hi Hl].
  destruct es as [|front es].
  { exists L. apply (linked_of_ids P m); [by eapply append_ids| |done]. unfold lm_append_entries in Ha.
    rewrite (inv_ok _ _ _ Hi), decide_True in Ha by done.
    destruct (append_nothing_inv m l L d Hi) as (m2 & Hm2 & ?). congruence. }
  pose proof Hc as [Hfi Hc']%contiguous_cons. rewrite <-Hfi in Hc.
  destruct (decide (lfirst L ≤ index (id front))) as [Hf|Hf].
  { eexists. eapply (follow_in_range P m l L (front :: es) front pt); try done; [|lia].
    by replace (index (id front) - 1) with prev by lia. }
  assert (prev = 0) as ->.
  { destruct Hl as [Hsn Hvt _ _]. destruct (decide (prev = 0)) as [|Hp]; [done|]. unfold lm_get_term in Ht.
    rewrite decide_False in Ht by done. rewrite decide_False in Ht by lia. rewrite decide_False in Ht by lia.
    rewrite (inv_first _ _ _ Hi), decide_True in Ht by lia. injection Ht as <-. lia. }
  destruct (follow_skip P m l L front es d m') as [[evs ->]|(Hne & Hf2 & Ht1 & Ha')]; [done| |done|lia|done|..].
  { by rewrite Hfi in Hc. }
  { exists L. split; [by apply emit_inv|exact Hl]. }
  destruct es as [|f es]; [done|]. pose proof Hc' as [Hf1 _]%contiguous_cons.
  eexists. eapply (follow_in_range P m l L (f :: es) f (term (id front))); try done.
  - by rewrite Hf1.
  - by apply Forall_cons in Hok as [_ ?].
  - lia.
  - by replace (index (id f) - 1) with 1 by lia.
  - left. by apply Forall_cons in Hok as [[? _] _].
  - intros x Hx. apply Hes. by right.
Qed.

(** ** Snapshots *)

Definition snapshot_id (meta : SnapshotMeta) : LogId :=
  mkLogId (sm_last_included_index meta) (sm_last_included_term meta).

Lemma truncate_past L k : log_last L < k → log_truncate_prefix L k = mkLog k [].
Proof.
  intros Hk. unfold log_truncate_prefix. f_equal. apply drop_ge. unfold log_last, zlen in Hk. lia.
Qed.

(** The log after a snapshot of which the last entry is in the log, or that
    starts the log anew. *)
Lemma linked_snapshot P m l L meta q :
  lm_inv m l L → lm_chained P m L q →
  index (lm_virtual_first_log_id m) = 0 ∨ index (lm_virtual_first_log_id m) = lfirst L - 1 →
  (0 < index (lm_last_snapshot_id m) → term (lm_last_snapshot_id m) ≠ 0) →
  (0 < index (lm_virtual_first_log_id m) → term (lm_virtual_first_log_id m) ≠ 0) →
  index (lm_last_snapshot_id m) = 0 ∨ lfirst L - 1 ≤ index (lm_last_snapshot_id m) →
  lfirst L ≤ sm_last_included_index meta + 1 →
  0 ≤ index (lm_last_snapshot_id m) < sm_last_included_index meta → sm_last_included_term meta ≠ 0 →
  (sm_last_included_index meta = lfirst L - 1 → sm_last_included_term meta = q) →
  linked P (snapshot_virtual m meta (log_term L (sm_last_included_index meta))) (snapshot_id meta)
    (snapshot_log L (lm_last_snapshot_id m) meta (log_term L (sm_last_included_index meta))).
Proof.
  intros Hi Hq Hv Hts Htv Hsn Hf Hnew Hst Hbase. destruct meta as [si st ps ops]. unfold snapshot_id, snapshot_virtual, snapshot_log.
  cbn [sm_last_included_index sm_last_included_term] in *.
  assert (linked P (mkLogId si st) (mkLogId si st) (mkLog (si + 1) [])) as Hanew by (apply linked_empty; [lia|done..]).
  pose proof (log_term_nonzero m l L si Hi) as Hnz.
  destruct Hq as (Hq1 & Hq2 & Hq3 & Hq4).
  case_decide as E0; [|case_decide as Et; [case_decide as Hp|]].
  - destruct (decide (log_last L < si + 1)) as [Hlt|Hge]; [by rewrite truncate_past|].
    assert (si = lfirst L - 1) as Hsi. { destruct (decide (lfirst L ≤ si)); [|lia]. by destruct (Hnz ltac:(lia)). }
    replace (log_truncate_prefix L (si + 1)) with L.
    2:{ destruct L as [f es]. unfold log_truncate_prefix. cbn in *. replace (si + 1) with f by lia. by rewrite Z.sub_diag. }
    constructor; cbn; [lia|by right|done|]. exists q. split_and!; [done|done|..]; by intros _ _; cbn; apply Hbase.
  - assert (lfirst L ≤ si ≤ log_last L) as Hin.
    { destruct (decide (lfirst L ≤ si ≤ log_last L)); [done|]. destruct E0. unfold log_term. by rewrite log_get_out. }
    destruct (inv_snap _ _ _ Hi) as [Hs1 Hs2].
    apply (linked_truncate_prefix P (lm_virtual_first_log_id m) (lm_last_snapshot_id m)); cbn; try done; try lia; try (by apply Hts).
    constructor; [lia|done|done|]. by exists q.
  - assert (lfirst L ≤ si ≤ log_last L) as Hin.
    { destruct (decide (lfirst L ≤ si ≤ log_last L)); [done|]. destruct E0. unfold log_term. by rewrite log_get_out. }
    constructor; cbn; [lia|done|done|]. exists q. split_and!; [done..|]. intros He. cbn in He. lia.
  - done.
Qed.

(** What it means that [set_snapshot] returned on a manager that takes the
    snapshot. *)
Lemma set_snapshot_check m meta m' :
  lm_set_snapshot m meta = Some m' → index (lm_last_snapshot_id m) < sm_last_included_index meta →
  logid_ge (snapshot_id meta) (ce_id (_snapshot (lm_config_manager m))).
Proof.
  unfold lm_set_snapshot. intros Hr Hlt. rewrite decide_False in Hr by lia.
  apply bind_Some in Hr as (cm & Hcm & _). unfold cm_set_snapshot in Hcm. by apply CHECK_bind_Some in Hcm as [? _].
Qed.

(** The log and the applied id after [set_snapshot]. *)
Definition taken_log L (prev : LogId) (meta : SnapshotMeta) : Log :=
  if decide (index prev < sm_last_included_index meta)
  then snapshot_log L prev meta (log_term L (sm_last_included_index meta)) else L.

Definition taken_applied (prev applied : LogId) (meta : SnapshotMeta) : LogId :=
  if decide (index prev < sm_last_included_index meta ∧ logid_gt (snapshot_id meta) applied)
  then snapshot_id meta else applied.

(** The state machine saved a snapshot, or one was installed. *)
Lemma snapshot_linked P m l L meta m' :
  lm_linked P m l L → lm_set_snapshot m meta = Some m' →
  (index (lm_last_snapshot_id m) < sm_last_included_index meta →
     sm_last_included_term meta ≠ 0 ∧
     (logid_gt (snapshot_id meta) (lm_applied_id m) ∨ sm_last_included_index meta ≤ index (lm_applied_id m))) →
  let L' := taken_log L (lm_last_snapshot_id m) meta in
  lm_linked P m' l L' ∧
    (lm_get_term m (sm_last_included_index meta) = Some (sm_last_included_term meta) → log_last L' = log_last L).
Proof.
  intros [Hi Hl] Hr Hok. unfold taken_log.
  destruct (decide (index (lm_last_snapshot_id m) < sm_last_included_index meta)) as [Hlt|Hge].
  2:{ unfold lm_set_snapshot in Hr. rewrite decide_True in Hr by lia. by injection Hr as <-. }
  destruct (Hok Hlt) as [Hst Hord]. pose proof (set_snapshot_check m meta m' Hr Hlt) as Hck.
  destruct Hl as [Hsn Hv [Hts Htv] (q & Hq)]. pose proof (inv_pos _ _ _ Hi). pose proof (inv_virtual _ _ _ Hi).
  destruct (set_snapshot_inv m l L meta Hi) as (m2 & Hm2 & Hi2 & Hs2 & Hv2); cbn [index] in *; [lia..|done|done|].
  assert (m2 = m') as -> by congruence. split; [split; [exact Hi2|]|].
  - rewrite Hs2, Hv2. apply (linked_snapshot P m l L meta q); try done; lia.
  - change (lm_get_term m ?i) with (lm_unsafe_get_term m i). intros Ht.
    destruct (snapshot_term m l L (lm_config_manager m) (sm_last_included_index meta) Hi) as [Ht' Hz]; [lia..|].
    change (lm_unsafe_get_term (with_config m ?c) ?i) with (lm_unsafe_get_term m i) in Ht'.
    rewrite Ht in Ht'. injection Ht' as Ht'. unfold snapshot_log.
    rewrite <-Ht'. rewrite decide_False by done. rewrite decide_True by done. case_decide; [|done].
    destruct (inv_snap _ _ _ Hi). rewrite log_truncate_prefix_last by lia. lia.
Qed.

(** The log after [clear_bufferred_logs]: what follows the last snapshot. *)
Definition cleared_log L (snapshot : LogId) : Log :=
  if decide (index snapshot ≠ 0) then log_truncate_prefix L (index snapshot + 1) else L.

Lemma clear_buffered_linked P m l L m' :
  lm_linked P m l L → lm_clear_bufferred_logs m = Some m' →
  let L' := cleared_log L (lm_last_snapshot_id m) in lm_linked P m' l L' ∧ log_last L' = log_last L.
Proof.
  intros [Hi Hl] Hr. unfold lm_clear_bufferred_logs in Hr. unfold cleared_log.
  case_decide as Hz; [|by injection Hr as <-].
  pose proof Hl as [Hsn Hv [Hts Htv] _]. destruct (inv_snap _ _ _ Hi) as [Hs1 Hs2]. pose proof (inv_pos _ _ _ Hi).
  set (sn := lm_last_snapshot_id m) in *.
  destruct (truncate_prefix_inv m l L (with_snapshot m sn sn) (index sn + 1) Hi) as (m2 & Hm2 & Hi2 & Hs2' & Hv2).
  - by repeat split.
  - lia.
  - unfold ids_fit. cbn. rewrite log_truncate_prefix_last by lia. split_and!; [lia|lia| |apply Hi].
    intros e. rewrite log_truncate_prefix_get by lia. by rewrite decide_False by lia.
  - assert (m2 = m') as -> by congruence. split.
    + split; [done|]. rewrite Hs2', Hv2. cbn.
      apply (linked_truncate_prefix P (lm_virtual_first_log_id m) sn); try done; lia.
    + rewrite log_truncate_prefix_last by lia. lia.
Qed.

(** ** A start *)

(** The log a storage comes up with, with the term before it. *)
Record stored_log P (s : St) (cm : ConfigurationManager) (l : Log) (q : Z) : Prop := mkStoredLog {
  so_rep : ls_rep s l;
  so_pos : 1 ≤ lfirst l;
  so_entries : Forall entry_ok (lents l);
  so_empty : lents l = [] → lfirst l = 1;
  so_conf : _configurations cm = omap entry_conf (lents l);
  so_links : links q (lents l) ⊆ P;
  so_first : lfirst l = 1 → q = 0;
}.

(** A snapshot that may come up with it. *)
Definition stored_snapshot (l : Log) (q : Z) (meta : SnapshotMeta) : Prop :=
  0 < sm_last_included_index meta →
  0 < sm_last_included_term meta ∧ (sm_last_included_index meta = lfirst l - 1 → sm_last_included_term meta = q).

Lemma init_ids s cm m :
  lm_init s cm = Some m →
  lm_virtual_first_log_id m = zero_id ∧ lm_last_snapshot_id m = zero_id ∧ lm_applied_id m = zero_id.
Proof. unfold lm_init. intros (t & _ & [= <-])%bind_Some. done. Qed.

Lemma start_linked P s cm l q m :
  stored_log P s cm l q → lm_init s cm = Some m → lm_check_consistency m = Some 0 → lm_linked P m l l.
Proof.
  intros [Hr Hp He Hz Hc Hq H1] Hm Hck. destruct (init_ids _ _ _ Hm) as (Hv & Hs & _).
  destruct (lm_init_inv s l cm Hr Hp He Hz Hc) as (m2 & Hm2 & Hi). assert (m2 = m) as -> by congruence.
  pose proof (consistent_snapshot _ _ _ Hi Hck) as Hcs. split; [done|]. rewrite Hv, Hs in *. cbn in Hcs.
  constructor; cbn; [done|by left|lia|]. exists q. by split_and!.
Qed.

Lemma start_snapshot_linked P s cm l q meta m m' :
  stored_log P s cm l q → stored_snapshot l q meta → lm_init s cm = Some m → lm_set_snapshot m meta = Some m' →
  lm_check_consistency m' = Some 0 → lm_linked P m' l (taken_log l zero_id meta).
Proof.
  intros Hst Hsn Hm Hr Hck. pose proof Hst as [Hrep Hp He Hz Hc Hq H1].
  destruct (init_ids _ _ _ Hm) as (Hv & Hs & Ha).
  destruct (decide (sm_last_included_index meta ≤ 0)) as [Hle|Hgt].
  { unfold lm_set_snapshot in Hr. rewrite Hs, decide_True in Hr by (cbn; lia). injection Hr as <-.
    unfold taken_log. rewrite decide_False by (cbn; lia). by eapply start_linked. }
  unfold taken_log. rewrite decide_True by (cbn; lia).
  destruct (Hsn ltac:(lia)) as [Ht Hb].
  destruct (lm_init_inv s l cm Hrep Hp He Hz Hc) as (m2 & Hm2 & Hi). assert (m2 = m) as -> by congruence.
  assert (lfirst l ≤ sm_last_included_index meta + 1) as Hf.
  { destruct (decide (lfirst l ≤ sm_last_included_index meta + 1)); [done|]. exfalso.
    unfold lm_set_snapshot in Hr. rewrite Hs, decide_False in Hr by (cbn; lia).
    apply bind_Some in Hr as (cm' & _ & Hr). apply bind_Some in Hr as (t & Hgt' & Hr).
    unfold lm_unsafe_get_term in Hgt'. cbn in Hgt'. rewrite Hv, Hs in Hgt'. cbn in Hgt'.
    do 3 (rewrite decide_False in Hgt' by lia). rewrite (inv_first _ _ _ Hi), decide_True in Hgt' by lia.
    injection Hgt' as <-. rewrite decide_True in Hr by done. unfold lm_truncate_prefix in Hr.
    apply CHECK_bind_Some in Hr as [Hx _]. revert Hx. case_decide; cbn; rewrite (inv_first _ _ _ Hi); lia. }
  pose proof (set_snapshot_check m meta m' Hr) as Hge. rewrite Hs in Hge. specialize (Hge ltac:(cbn; lia)).
  destruct (set_snapshot_inv m l l meta Hi) as (m3 & Hm3 & Hi3 & Hs3 & Hv3);
    rewrite ?Hs, ?Hv, ?Ha; cbn [index zero_id]; [lia|lia|by left|lia|done| |].
  { left. rewrite logid_gt_lt, logid_lt_spec. cbn. lia. }
  assert (m3 = m') as -> by congruence. rewrite Hs in Hi3. split; [exact Hi3|]. rewrite Hs3, Hv3.
  replace zero_id with (lm_last_snapshot_id m). apply (linked_snapshot P m l l meta q); rewrite ?Hs, ?Hv; cbn [index term zero_id]; try done; try lia.
Qed.

(** ** Calls that leave the log alone *)

(** Waiters, events and the stopped flag change; a call of [last_log_id(true)]
    is queued; an entry is read. *)
Inductive quiet_step : relation (LogManager St) :=
  | qs_side m w b n evs :
      quiet_step m (mkLogManager (lm_log_storage m) (lm_config_manager m) w b (lm_has_error m) n (lm_disk_id m)
        (lm_applied_id m) (lm_logs_in_memory m) (lm_first_log_index m) (lm_last_log_index m)
        (lm_last_snapshot_id m) (lm_virtual_first_log_id m) (lm_disk_queue m) (lm_thread m) evs)
  | qs_flush m c : quiet_step m (lm_last_log_id_flush m c).1
  | qs_read m i m' e : lm_get_entry m i = Some (m', e) → quiet_step m m'.

Definition log_quiet : relation (LogManager St) := rtc quiet_step.

Lemma flush_inv m l L c : lm_inv m l L → lm_inv (lm_last_log_id_flush m c).1 l L.
Proof.
  intros Hi. unfold lm_last_log_id_flush. case_decide; [done|]. cbn [fst].
  assert (pending (execute m (TaskLastLogId c)) = pending m) as Hp.
  { rewrite (pending_snoc m _ (TaskLastLogId c)) by done. by rewrite app_nil_r. }
  split; rewrite ?Hp; try apply Hi. cbn. apply Forall_app. split; [apply Hi|]. by repeat constructor.
Qed.

Lemma quiet_linked P m m' l L : log_quiet m m' → lm_linked P m l L → lm_linked P m' l L.
Proof.
  induction 1 as [|m m1 m' Hs _ IH]; [done|]. intros [Hi Hl]. apply IH.
  destruct Hs as [m w b n evs|m c|m i m1 e Hg].
  - split; [|exact Hl]. destruct Hi. by constructor.
  - split; [by apply flush_inv|]. unfold lm_last_log_id_flush. by case_decide.
  - destruct (log_get L i) as [e'|] eqn:E.
    + rewrite (get_entry_in _ _ _ _ _ Hi E) in Hg. by injection Hg as <- _.
    + rewrite (get_entry_out _ _ _ _ Hi E) in Hg. by injection Hg as <- _.
Qed.

(** ** What leaves the memory *)

(** A queued operation leaves the entry at [i]. *)
Definition effect_keeps (i : Z) (f : Effect) : Prop :=
  match f with
  | EffTruncateSuffix k => i ≤ k
  | EffReset _ => False
  | _ => True
  end.

#[global] Instance effect_keeps_dec i f : Decision (effect_keeps i f).
Proof. destruct f; cbn; apply _. Defined.

(** The storage has the entry, and no operation of the disk thread's queue or
    batch takes it away. *)
Definition written m (e : LogEntry) : Prop :=
  ls_get_entry (lm_log_storage m) (index (id e)) = Some (Some e) ∧ Forall (effect_keeps (index (id e))) (pending m).

(** What [clear_memory_logs] relies on: the entries it drops are written. *)
Definition drop_safe m (c : LogId) : Prop := Forall (written m) (popped c (lm_logs_in_memory m)).

#[global] Instance drop_safe_dec m c : Decision (drop_safe m c).
Proof. unfold drop_safe, written. apply _. Defined.

Lemma effect_keeps_first l f l' i :
  effect_keeps i f → apply_effect l f = Some l' → lfirst l ≤ lfirst l' ∧
  ∀ e, log_get l i = Some e → lfirst l' ≤ i → log_get l' i = Some e.
Proof.
  intros Hf H1. destruct f as [es|k|k|n]; cbn in H1, Hf; case_decide as Hd; try done; injection H1 as <-.
  - split; [done|]. intros e He _. pose proof (log_get_Some_range _ _ _ He). rewrite <-He. unfold log_get, log_append.
    cbn. apply zlookup_app_l. unfold log_last in *. lia.
  - split; [done|]. cbn. intros e He Hki. rewrite log_truncate_prefix_get by lia. by rewrite decide_True by lia.
  - split; [unfold log_truncate_suffix; case_decide; cbn; lia|]. intros e He _. rewrite log_truncate_suffix_get.
    by rewrite decide_True by lia.
Qed.

Lemma effects_keep_first l fs L i : Forall (effect_keeps i) fs → replay l fs = Some L → lfirst l ≤ lfirst L.
Proof.
  revert l. induction fs as [|f fs IH]; intros l Hk; cbn; [by intros [= <-]|].
  apply Forall_cons in Hk as [Hf Hk]. intros (l1 & H1 & HL)%bind_Some.
  destruct (effect_keeps_first _ _ _ _ Hf H1) as [? _]. etrans; [done|by apply IH].
Qed.

Lemma keeps_always l fs L i e :
  log_get l i = Some e → Forall (effect_keeps i) fs → replay l fs = Some L → lfirst L ≤ i → always l fs i e.
Proof.
  revert l. induction fs as [|f fs IH]; intros l He Hk; cbn [replay]; [done|].
  apply Forall_cons in Hk as [Hf Hk]. intros (l1 & H1 & HL)%bind_Some Hi. split; [done|].
  intros l' Hl'. assert (l' = l1) as -> by congruence.
  destruct (effect_keeps_first _ _ _ _ Hf H1) as [_ Hg]. apply IH; try done. apply Hg; [done|].
  pose proof (effects_keep_first _ _ _ _ Hk HL). lia.
Qed.

Lemma drop_safe_inv m l L c : lm_inv m l L → drop_safe m c → lm_inv (lm_clear_memory_logs m c) l L.
Proof.
  intros Hi Hd. apply clear_popped_inv; [done|]. intros e He.
  unfold drop_safe in Hd. rewrite Forall_forall in Hd. destruct (Hd e He) as [Hs Hk].
  rewrite (ls_rep_get_entry _ _ _ (inv_rep _ _ _ Hi)) in Hs. injection Hs as Hs.
  eapply keeps_always; [done|done|apply Hi|]. apply popped_elem in He.
  destruct (inv_mem _ _ _ Hi) as (n & _ & Hm). rewrite Hm in He. apply list_elem_of_lookup in He as [j Hj].
  rewrite lookup_drop in Hj. rewrite (inv_wf _ _ _ Hi _ _ Hj). lia.
Qed.

Lemma clear_memory_ids m c : same_ids m (lm_clear_memory_logs m c).
Proof. done. Qed.

(** The state machine applied entries. *)
Lemma set_applied_linked P m l L a :
  lm_linked P m l L →
  (logid_ge a (lm_applied_id m) →
     index (lm_last_snapshot_id m) ≤ index a ∧ drop_safe m (logid_min (lm_disk_id m) a)) →
  lm_linked P (lm_set_applied_id m a) l L.
Proof.
  intros [Hi Hl] Ha. split; [|unfold lm_set_applied_id; by case_decide].
  unfold logid_ge in Ha. destruct (decide (logid_lt a (lm_applied_id m))) as [Hlt|Hge].
  - unfold lm_set_applied_id. by rewrite decide_True.
  - destruct (Ha Hge) as [Hs Hd]. unfold lm_set_applied_id. rewrite decide_False by done.
    apply drop_safe_inv; [|exact Hd]. split; try apply Hi. exact Hs.
Qed.

(** ** The disk thread *)

Lemma disk_start_linked P m l L m' : lm_linked P m l L → disk_start m = Some m' → lm_linked P m' l L.
Proof.
  intros [Hi Hl] Hr. unfold disk_start in Hr. destruct (lm_thread m) eqn:Et; [done|].
  destruct (disk_start_inv m l L Hi Et) as (m2 & Hm2 & Hi2 & _). unfold disk_start in Hm2. rewrite Et in Hm2.
  assert (m2 = m') as -> by congruence. split; [done|]. by injection Hr as <-.
Qed.

Lemma append_to_storage_ids m es last_id m1 id1 :
  lm_append_to_storage m es last_id = Some (m1, id1) → same_ids m m1.
Proof.
  unfold lm_append_to_storage. destruct (lm_has_error m); [by intros [= <- _]|].
  intros ([s n] & _ & Hr)%bind_Some.
  repeat case_decide; try (apply bind_Some in Hr as (e & _ & Hr)); by injection Hr as <- _.
Qed.

Lemma flush_ids m last_id ab m1 id1 ab1 : ab_flush m last_id ab = Some (m1, id1, ab1) → same_ids m m1.
Proof.
  unfold ab_flush. case_decide; [by intros [= <- _ _]|]. intros ([m2 id2] & Hr%append_to_storage_ids & [= <- _ _])%bind_Some.
  exact Hr.
Qed.

Lemma operation_ids m last_id t m1 id1 r evs :
  disk_operation m last_id t = Some (m1, id1, r, evs) → same_ids m m1.
Proof.
  unfold disk_operation. destruct t.
  - by intros [= <- _ _ _].
  - by intros (_ & [= <- _ _ _])%CHECK_bind_Some.
  - by intros ([s r'] & _ & [= <- _ _ _])%bind_Some.
  - intros ([s r'] & _ & Hr)%bind_Some. case_decide; [apply CHECK_bind_Some in Hr as [_ Hr]|]; by injection Hr as <- _ _ _.
  - by intros ([s r'] & _ & [= <- _ _ _])%bind_Some.
Qed.

Lemma same_ids_trans m1 m2 m3 : same_ids m1 m2 → same_ids m2 m3 → same_ids m1 m3.
Proof. intros (? & ? & ?) (? & ? & ?). split_and!; congruence. Qed.

Lemma iteration_ids m last_id ab t m1 id1 ab1 :
  disk_iteration m last_id ab t = Some (m1, id1, ab1) → same_ids m m1.
Proof.
  assert (∀ t', (ab_flush m last_id ab ≫= λ x, let '(m2, id2, ab2) := x in
      disk_operation m2 id2 t' ≫= λ y, let '(m3, id3, r, evs) := y in
      Some (emit (if decide (r ≠ 0) then lm_report_error m3 r else m3) evs, id3, ab2)) = Some (m1, id1, ab1) →
      same_ids m m1) as Hop.
  { intros t' ([[m2 id2] ab2] & Hf%flush_ids & Hr)%bind_Some.
    apply bind_Some in Hr as ([[[m3 id3] r] evs] & Ho%operation_ids & Hr). injection Hr as <- _ _.
    eapply same_ids_trans; [exact Hf|]. eapply same_ids_trans; [exact Ho|]. by case_decide. }
  unfold disk_iteration. destruct t as [c f [|e es]|c|k|k t|n]; try apply Hop.
  unfold ab_append. intros ([[m2 id2] ab2] & Hf & [= <- _ _])%bind_Some.
  case_decide; [by apply flush_ids in Hf|by injection Hf as <- _ _].
Qed.

Section reliable.
Context `{!LogStorageReliable (St := St)}.

Lemma disk_step_linked P m l L m' : lm_linked P m l L → disk_step m = Some m' → ∃ l', lm_linked P m' l' L.
Proof.
  intros [Hi Hl] Hr. pose proof Hr as Hr'. unfold disk_step in Hr'.
  destruct (lm_thread m) as [[last_id ab]|] eqn:Et; [|done]. destruct (lm_disk_queue m) as [|t q] eqn:Eq; [done|].
  destruct (disk_step_inv m l L last_id ab t q Hi Et Eq) as (m2 & l' & ? & ? & ? & Hm2 & Hi2 & _).
  assert (m2 = m') as -> by congruence. exists l'. apply (linked_of_ids P m); [|done..].
  apply bind_Some in Hr' as ([[m3 id3] ab3] & Hit%iteration_ids & [= <-]). exact Hit.
Qed.

(** The end of a batch, whatever was queued meanwhile. *)
Definition disk_end_safe m : Prop :=
  ∀ last_id ab m1 id1 ab1, lm_thread m = Some (last_id, ab) → ab_flush m last_id ab = Some (m1, id1, ab1) →
    drop_safe (with_thread m1 None) (logid_min id1 (lm_applied_id m)).

Lemma disk_end_linked P m l L m' :
  lm_linked P m l L → disk_end_safe m → disk_end m = Some m' → ∃ l', lm_linked P m' l' L.
Proof.
  intros [Hi Hl] Hsafe Hr. unfold disk_end in Hr. destruct (lm_thread m) as [[last_id ab]|] eqn:Et; [|done].
  pose proof (inv_disk_inv _ _ _ Hi) as Hd. unfold pending in Hd. rewrite Et in Hd.
  pose proof (inv_thread _ _ _ Hi) as Hto. rewrite Et in Hto. cbn [batched app] in Hd.
  destruct (flush_ok _ _ _ _ _ _ _ (inv_ok _ _ _ Hi) Hto Hd) as (m1 & id1 & l' & Hf & Hfr & Hid & Hd1).
  rewrite Hf in Hr. cbn [mbind option_bind] in Hr. injection Hr as <-.
  assert (lm_inv (with_thread m1 None) l' L) as Hi1.
  { apply (inv_disk_update m l L m1 (ab_storage ab) (lm_disk_queue m)); [done| |apply Hi|done|exact Hd1].
    replace (with_queue m (lm_disk_queue m)) with m by by destruct m. done. }
  exists l'. apply (linked_of_ids P m).
  - eapply same_ids_trans; [by eapply flush_ids|]. unfold lm_set_disk_id. by case_decide.
  - specialize (Hsafe last_id ab m1 id1 _ Et Hf). destruct Hfr as (s & evs & -> & _). unfold lm_set_disk_id.
    case_decide; [done|]. apply drop_safe_inv; [|exact Hsafe]. split; try apply Hi1. exact Hid.
  - done.
Qed.
End reliable.
End ops.
