(* ===== verification/LogManagerRuns.v ===== *)
(** * Runs of the log manager

    The calls of the log manager from a start, and the abstract log they make:
    a leader's append extends it, a follower's append merges into it, a snapshot
    cuts it, and the disk thread, the state machine's progress and the waiters
    leave it alone.  Every read of a manager that a run reached answers from the
    abstract log.

    A run's calls keep what the code around the manager keeps: entries come with
    consecutive indexes after an entry of which the manager has the term, a
    snapshot is newer than what was applied or ends inside it, and the entries
    that leave the memory are written.  The last is not ensured by the code:
    [stale_disk_id_reads_replaced_entry] of LogManagerSpec.v is a run without
    it. *)

From stdpp Require Import prelude.
From S2P Require Import Prelude StdContainers Configuration ConfigurationManager ClosureQueue LogStorage.
From S2P Require Import MemoryLog LogManager LogManagerSpec LogLink LogLinkOps.
Local Open Scope Z_scope.

(** ** The abstract log *)

(** The log, the id of the last snapshot and the applied id. *)
Record LogSpec := mkLogSpec {
  sp_log : Log;
  sp_snapshot : LogId;
  sp_applied : LogId;
}.

(** The calls of a log manager. *)
Inductive LogCall :=
  | CallAppend (entries : list LogEntry) (done : Closure)
  | CallSetSnapshot (meta : SnapshotMeta)
  | CallClearBufferred
  | CallSetApplied (applied_id : LogId)
  | CallDiskStart
  | CallDiskStep
  | CallDiskEnd
  | CallLastLogId (c : Closure)
  | CallWait (expected_last_log_index wm : Z)
  | CallRemoveWaiter (wait_id : Z)
  | CallShutdown.

(** Entries without an index are a leader's. *)
Definition sp_append (sp : LogSpec) (es : list LogEntry) : Log :=
  let L := sp_log sp in
  match head es with
  | Some front =>
      if decide (index (id front) = 0) then log_append L (assign_indexes (log_last L) es)
      else follower_log L (sp_applied sp) es
  | None => L
  end.

Definition sp_call (sp : LogSpec) (c : LogCall) : LogSpec :=
  match c with
  | CallAppend es _ => mkLogSpec (sp_append sp es) (sp_snapshot sp) (sp_applied sp)
  | CallSetSnapshot meta =>
      mkLogSpec (taken_log (sp_log sp) (sp_snapshot sp) meta)
        (if decide (index (sp_snapshot sp) < sm_last_included_index meta) then snapshot_id meta else sp_snapshot sp)
        (taken_applied (sp_snapshot sp) (sp_applied sp) meta)
  | CallClearBufferred => mkLogSpec (cleared_log (sp_log sp) (sp_snapshot sp)) (sp_snapshot sp) (sp_applied sp)
  | CallSetApplied a =>
      mkLogSpec (sp_log sp) (sp_snapshot sp) (if decide (logid_lt a (sp_applied sp)) then sp_applied sp else a)
  | _ => sp
  end.

(** ** The calls on a manager *)

Section runs.
Context {St : Type} `{LogStorageLaws St} `{!LogStorageReliable (St := St)}.
Implicit Types (m : LogManager St) (l L : Log) (P : list Link) (sp : LogSpec).

Definition lm_call m (c : LogCall) : option (LogManager St) :=
  match c with
  | CallAppend es d => lm_append_entries m es d
  | CallSetSnapshot meta => lm_set_snapshot m meta
  | CallClearBufferred => lm_clear_bufferred_logs m
  | CallSetApplied a => Some (lm_set_applied_id m a)
  | CallDiskStart => disk_start m
  | CallDiskStep => disk_step m
  | CallDiskEnd => disk_end m
  | CallLastLogId c => Some (lm_last_log_id_flush m c).1
  | CallWait expected wm => Some (lm_notify_on_new_log m expected wm).1
  | CallRemoveWaiter w => Some (lm_remove_waiter m w).1
  | CallShutdown => Some (lm_shutdown m)
  end.

(** A leader's entries have one term and no index; a follower's follow an entry
    that is in its log or right before it, and of which it has the term. *)
Definition append_ok m (es : list LogEntry) : Prop :=
  Forall entry_ok es ∧
  ((∃ t, Forall (λ e, id e = mkLogId 0 t) es) ∨
   ∃ prev pt, contiguous (prev + 1) es ∧ 0 < prev + 1 ∧ lm_first_log_index m ≤ prev + 1 ∧
     lm_get_term m prev = Some pt ∧ (pt ≠ 0 ∨ prev = 0)).

Definition call_ok m (c : LogCall) : Prop :=
  match c with
  | CallAppend es _ => append_ok m es
  | CallSetSnapshot meta =>
      index (lm_last_snapshot_id m) < sm_last_included_index meta →
      sm_last_included_term meta ≠ 0 ∧
      (logid_gt (snapshot_id meta) (lm_applied_id m) ∨ sm_last_included_index meta ≤ index (lm_applied_id m))
  | CallSetApplied a =>
      logid_ge a (lm_applied_id m) →
      index (lm_last_snapshot_id m) ≤ index a ∧ drop_safe m (logid_min (lm_disk_id m) a)
  | CallDiskEnd => disk_end_safe m
  | _ => True
  end.

(** A start: on the log of the storage alone, or with the snapshot the executor
    loaded. *)
Inductive lm_starts (s : St) (cm : ConfigurationManager) : LogManager St → LogSpec → Prop :=
  | starts_plain l q m :
      stored_log (links q (lents l)) s cm l q → lm_init s cm = Some m → lm_check_consistency m = Some 0 →
      lm_starts s cm m (mkLogSpec l zero_id zero_id)
  | starts_snapshot l q meta m m' :
      stored_log (links q (lents l)) s cm l q → stored_snapshot l q meta → lm_init s cm = Some m →
      lm_set_snapshot m meta = Some m' → lm_check_consistency m' = Some 0 →
      lm_starts s cm m' (sp_call (mkLogSpec l zero_id zero_id) (CallSetSnapshot meta)).

Inductive lm_runs : list LogCall → LogManager St → LogManager St → Prop :=
  | runs_nil m : lm_runs [] m m
  | runs_call c cs m m1 m' : call_ok m c → lm_call m c = Some m1 → lm_runs cs m1 m' → lm_runs (c :: cs) m m'.

(** ** The refinement *)

Definition lm_refines m sp : Prop :=
  (∃ P l, lm_linked P m l (sp_log sp)) ∧ lm_last_snapshot_id m = sp_snapshot sp ∧ lm_applied_id m = sp_applied sp.

Lemma truncate_prefix_fields m k m' :
  lm_truncate_prefix m k = Some m' → lm_last_snapshot_id m' = lm_last_snapshot_id m ∧ lm_applied_id m' = lm_applied_id m.
Proof. unfold lm_truncate_prefix. intros (_ & Hr)%CHECK_bind_Some. by simplify_eq. Qed.

Lemma set_snapshot_fields m meta m' :
  lm_set_snapshot m meta = Some m' →
  lm_last_snapshot_id m' = (if decide (index (lm_last_snapshot_id m) < sm_last_included_index meta)
                            then snapshot_id meta else lm_last_snapshot_id m) ∧
  lm_applied_id m' = taken_applied (lm_last_snapshot_id m) (lm_applied_id m) meta.
Proof.
  unfold lm_set_snapshot, taken_applied. case_decide as Hle; intros Hr.
  { injection Hr as <-. rewrite !decide_False by lia. done. }
  rewrite decide_True by lia. apply bind_Some in Hr as (cm & _ & Hr). apply bind_Some in Hr as (t & _ & Hr).
  assert (lm_last_snapshot_id m' = snapshot_id meta ∧
    lm_applied_id m' = if decide (logid_gt (snapshot_id meta) (lm_applied_id m)) then snapshot_id meta else lm_applied_id m)
    as [-> ->].
  { revert Hr. cbn. fold (snapshot_id meta). repeat case_decide; intros Hr;
      first [apply truncate_prefix_fields in Hr as [-> ->]|injection Hr as <-]; done. }
  split; [done|]. destruct (decide (logid_gt (snapshot_id meta) (lm_applied_id m))) as [Hg|Hg].
  - by rewrite decide_True by (split; [lia|done]).
  - by rewrite decide_False by tauto.
Qed.

Lemma append_refines m sp es d m' :
  lm_refines m sp → append_ok m es → lm_append_entries m es d = Some m' → lm_refines m' (sp_call sp (CallAppend es d)).
Proof.
  intros ((P & l & Hm) & Hs & Ha) [Hok Hes] Hr. pose proof Hm as [Hi _].
  pose proof (append_ids _ _ _ _ Hr) as (_ & Hs' & Ha').
  split; [|cbn; split; congruence]. cbn [sp_call sp_log]. unfold sp_append.
  destruct es as [|front es].
  { exists P, l. eapply (lead_linked P m l _ [] 0 d m') in Hm as (q & _ & _ & Hm & _); [|constructor|constructor|done].
    cbn in Hm |- *. by rewrite app_nil_r, log_append_nil in Hm. }
  cbn [head]. destruct Hes as [(t & Hid)|(prev & pt & Hc & Hp & Hf & Ht & Hz)].
  - rewrite decide_True by (apply Forall_cons in Hid as [-> _]; done).
    eapply lead_linked in Hm as (q & _ & _ & Hm & _); [|done..]. by eexists _, l.
  - pose proof Hc as [Hfi _]%contiguous_cons. rewrite decide_False by lia.
    exists (P ++ links pt (front :: es)), l. rewrite <-Ha. rewrite (inv_first _ _ _ Hi) in Hf.
    eapply (follow_in_range _ m l _ (front :: es) front pt d); try done; rewrite ?Hfi; try done; try lia.
    + destruct Hm as [_ Hl]. split; [done|]. eapply linked_mono; [|done]. intros x Hx. apply elem_of_app. by left.
    + by replace (prev + 1 - 1) with prev by lia.
    + intros x Hx. apply elem_of_app. by right.
Qed.

Lemma disk_step_ids m m' : disk_step m = Some m' → same_ids m m'.
Proof.
  unfold disk_step. destruct (lm_thread m) as [[last_id ab]|]; [|done]. destruct (lm_disk_queue m) as [|t q]; [done|].
  intros ([[m1 id1] ab1] & Hit%iteration_ids & [= <-])%bind_Some. exact Hit.
Qed.

Lemma disk_end_ids m m' : disk_end m = Some m' → same_ids m m'.
Proof.
  unfold disk_end. destruct (lm_thread m) as [[last_id ab]|]; [|done].
  intros ([[m1 id1] ab1] & Hf%flush_ids & [= <-])%bind_Some. eapply same_ids_trans; [exact Hf|].
  unfold lm_set_disk_id. by case_decide.
Qed.

(** A call that leaves the abstract state alone. *)
Lemma refines_same m m' sp :
  lm_refines m sp → same_ids m m' →
  (∀ P l, lm_linked P m l (sp_log sp) → ∃ l', lm_linked P m' l' (sp_log sp)) → lm_refines m' sp.
Proof.
  intros ((P & l & Hm) & Hs & Ha) (_ & Hs' & Ha') Hl. split; [|split; congruence].
  destruct (Hl P l Hm) as [l' ?]. by exists P, l'.
Qed.

Lemma quiet_refines m m' sp : quiet_step m m' → same_ids m m' → lm_refines m sp → lm_refines m' sp.
Proof.
  intros Hq Hid Hm. eapply refines_same; [done..|]. intros P l Hl. exists l. eapply quiet_linked; [|done]. by apply rtc_once.
Qed.

Lemma flush_refines m sp c : lm_refines m sp → lm_refines (lm_last_log_id_flush m c).1 sp.
Proof. apply quiet_refines; [apply qs_flush|]. unfold lm_last_log_id_flush. by case_decide. Qed.

(** Waiters and the stopped flag. *)
Lemma side_refines m m' sp w b n evs :
  m' = mkLogManager (lm_log_storage m) (lm_config_manager m) w b (lm_has_error m) n (lm_disk_id m)
         (lm_applied_id m) (lm_logs_in_memory m) (lm_first_log_index m) (lm_last_log_index m)
         (lm_last_snapshot_id m) (lm_virtual_first_log_id m) (lm_disk_queue m) (lm_thread m) evs →
  lm_refines m sp → lm_refines m' sp.
Proof. intros ->. by apply quiet_refines; [apply qs_side|]. Qed.

Lemma call_refines m sp c m' :
  lm_refines m sp → call_ok m c → lm_call m c = Some m' → lm_refines m' (sp_call sp c).
Proof.
  intros Hm Hok Hr. destruct c as [es d|meta| |a| | | |c|x w|w|]; cbn [lm_call call_ok] in *; try (injection Hr as <-).
  - by eapply append_refines.
  - destruct Hm as ((P & l & Hm) & Hs & Ha). destruct (set_snapshot_fields _ _ _ Hr) as [Hs' Ha']. cbn.
    rewrite <-Hs, <-Ha, <-Hs', <-Ha'. split; [|done]. exists P, l. by eapply snapshot_linked.
  - destruct Hm as ((P & l & Hm) & Hs & Ha). split; cbn.
    + exists P, l. rewrite <-Hs. by eapply clear_buffered_linked.
    + unfold lm_clear_bufferred_logs in Hr. case_decide; [apply truncate_prefix_fields in Hr as [-> ->]|injection Hr as <-]; done.
  - destruct Hm as ((P & l & Hm) & Hs & Ha). split; [exists P, l; by apply set_applied_linked|]. cbn.
    rewrite <-Hs, <-Ha. unfold lm_set_applied_id. by case_decide.
  - eapply refines_same; [done| |].
    + unfold disk_start in Hr. destruct (lm_thread m); [done|]. by injection Hr as <-.
    + intros P l Hl. exists l. by eapply disk_start_linked.
  - eapply refines_same; [done|by apply disk_step_ids|]. intros P l Hl. by eapply disk_step_linked.
  - eapply refines_same; [done|by apply disk_end_ids|]. intros P l Hl. by eapply disk_end_linked.
  - by apply flush_refines.
  - unfold lm_notify_on_new_log. case_decide; (eapply side_refines; [|done]; reflexivity).
  - unfold lm_remove_waiter. destruct (map_get w (lm_wait_map m)); [eapply side_refines; [|done]; reflexivity|done].
  - eapply side_refines; [|done]. reflexivity.
Qed.

Lemma starts_refine s cm m sp : lm_starts s cm m sp → lm_refines m sp.
Proof.
  intros [l q m0 Hst Hm Hck|l q meta m0 m1 Hst Hsn Hm Hr Hck]; destruct (init_ids _ _ _ Hm) as (_ & Hs & Ha).
  - split; [|done]. eexists _, l. by eapply start_linked.
  - destruct (set_snapshot_fields _ _ _ Hr) as [Hs' Ha']. rewrite Hs in Hs'. rewrite Hs, Ha in Ha'.
    split; [|done]. eexists _, l. by eapply start_snapshot_linked.
Qed.

Lemma runs_refine cs m sp m' : lm_runs cs m m' → lm_refines m sp → lm_refines m' (foldl sp_call sp cs).
Proof.
  intros Hr. revert sp. induction Hr as [|c cs m m1 m' Hok Hc _ IH]; intros sp Hm; [done|]. cbn. apply IH.
  by eapply call_refines.
Qed.

(** C13. Over the runs of a log manager from a start on a storage whose
    operations succeed: every read answers from the abstract log the calls made,
    whether the entry is in memory or only on the storage, whatever disk
    operations are pending; an entry is returned exactly for the indexes of that
    log, and its range, its terms, the last log id and the applied id are those
    of the abstract state.  A leader's append extends the log with the next
    indexes, a follower's append replaces from the first entry of another term
    and is refused with a gap or when it ends at the applied index, a snapshot
    keeps what follows it or, when the log ends in it, what follows the one
    before.  The run's calls satisfy [call_ok]; of it, that the entries which
    leave the memory are written is not ensured by the code. *)
Theorem log_manager_reads s cm m0 sp cs m
    (Hstart : lm_starts s cm m0 sp) (Hrun : lm_runs cs m0 m) :
  let sp' := foldl sp_call sp cs in
  let L := sp_log sp' in
  (∀ i, lm_get_entry m i = Some (m, log_get L i)) ∧
  (∀ i, lfirst L ≤ i ≤ log_last L → lm_get_term m i = Some (log_term L i)) ∧
  lm_first_log_index m = lfirst L ∧ lm_last_log_index m = log_last L ∧
  lm_last_snapshot_id m = sp_snapshot sp' ∧ lm_applied_id m = sp_applied sp'.
Proof.
  cbn zeta. destruct (runs_refine cs m0 sp m Hrun (starts_refine _ _ _ _ Hstart)) as ((P & l & Hi & _) & Hs & Ha).
  split_and!; [|intros i Hr; exact (unsafe_get_term_in m l _ i Hi Hr)|apply Hi|apply Hi|done|done].
  intros i. destruct (log_get _ i) as [e|] eqn:E; [by eapply get_entry_in|by eapply get_entry_out].
Qed.
End runs.

(** ** A run *)

(** A follower of two entries takes one that replaces the second and one more,
    the disk thread writes them, and the state machine applies them. *)
Definition run_log : Log := mkLog 1 [ex_entry 1 1; ex_entry 2 1].

Definition run_calls : list LogCall :=
  [CallAppend [ex_entry 2 2; ex_entry 3 2] 7; CallDiskStart; CallDiskStep; CallDiskStep; CallDiskEnd;
   CallSetApplied (mkLogId 2 2); CallAppend [ex_entry 0 3] 8].

Lemma run_starts :
  ∃ m0, lm_init (ml_of run_log) cm_new = Some m0 ∧
    lm_starts (ml_of run_log) cm_new m0 (mkLogSpec run_log zero_id zero_id).
Proof.
  eexists. split; [vm_compute; reflexivity|]. eapply (starts_plain _ _ run_log 0); [|vm_compute; reflexivity..].
  split; try done; [|by repeat constructor].
  split; [done|]. vm_compute. intros [|[|k]] e [= <-]; reflexivity.
Qed.

(** Evaluates one call of a run. *)
Ltac run_call := eapply runs_call; [|vm_compute; reflexivity|].

Ltac run_disk_end :=
  cbn [call_ok]; intros ?id ?ab ?m1 ?id1 ?ab1 Ht Hf; vm_compute in Ht; injection Ht as <- <-;
  vm_compute in Hf; injection Hf as <- <- <-; refine (bool_decide_unpack _ _); vm_compute; reflexivity.

Lemma run_reached m0 : lm_init (ml_of run_log) cm_new = Some m0 → ∃ m, lm_runs run_calls m0 m.
Proof.
  intros Hm. vm_compute in Hm. injection Hm as <-. eexists. unfold run_calls. run_call.
  { split; [repeat constructor; done|]. right. exists 1, 1. split; [|by vm_compute; repeat split; try done; left].
    vm_compute. intros [|[|k]] e [= <-]; reflexivity. }
  do 3 (run_call; [done|]). run_call; [run_disk_end|]. run_call.
  { intros _. split; [by vm_compute|]. refine (bool_decide_unpack _ _). vm_compute. reflexivity. }
  run_call; [|apply runs_nil]. split; [repeat constructor; done|]. left. exists 3. by repeat constructor.
Qed.

Lemma log_manager_reads_witness :
  ∃ m0 m, lm_init (ml_of run_log) cm_new = Some m0 ∧ lm_runs run_calls m0 m ∧
    lm_get_entry m 2 = Some (m, Some (ex_entry 2 2)) ∧ lm_get_entry m 4 = Some (m, Some (set_index (ex_entry 0 3) 4)) ∧
    lm_get_entry m 5 = Some (m, None) ∧ lm_applied_id m = mkLogId 2 2.
Proof.
  destruct run_starts as (m0 & Hm0 & Hs). destruct (run_reached m0 Hm0) as (m & Hr). exists m0, m.
  destruct (log_manager_reads _ _ _ _ _ _ Hs Hr) as (Hg & _ & _ & _ & _ & Ha).
  split_and!; [done|done|rewrite Hg|rewrite Hg|rewrite Hg|rewrite Ha]; vm_compute; reflexivity.
Defined.
