(* ===== verification/NodeLogStep.v ===== *)
(** * What an input does to the log

    Every input of NodeRun.v changes the log manager of a node in one of a few
    ways: not at all, by calls that leave the log alone, by one append of a node
    that leads when the input is done, with entries of its term, by one append
    of a follower that found the request's previous entry in its log, or by the
    one call of the log manager that the input stands for. *)

From stdpp Require Import prelude.
From S2P Require Import Prelude StdContainers Configuration Ballot ClosureQueue BallotBox PeerText.
From S2P Require Import LogStorage LogManager StateMonad Messages Lease MetaStorage AppendEntriesCache.
From S2P Require Import NodeState NodeVote NodeCore NodeLog NodeRun LogManagerSpec LogLink LogLinkOps.
Local Open Scope Z_scope.

Create HintDb node_log.

Section frames.
Context {S M : Type} `{LogStorageLaws S, RaftMetaStorage M}.
Implicit Types n : Node S M.

(** The log manager is the same; so are the state and the term. *)
Definition same_manager n n' : Prop := n_log_manager n' = n_log_manager n.
Definition still n n' : Prop :=
  same_manager n n' ∧ n_state n' = n_state n ∧ n_current_term n' = n_current_term n.

#[global] Instance same_manager_preorder : PreOrder same_manager.
Proof. split; [done|]. intros n1 n2 n3 ? ?. unfold same_manager in *. congruence. Qed.
#[global] Instance still_preorder : PreOrder still.
Proof.
  split; [by repeat split|]. intros n1 n2 n3 (? & ? & ?) (? & ? & ?). unfold still, same_manager in *.
  split_and!; congruence.
Qed.

Lemma frame_cache_call {A} c (f : CM A) : st_rel still (cache_call (S := S) (M := M) c f).
Proof. intros n a n' Hr. unfold cache_call in Hr. destruct (f _) as [[a' s]|]; [|done]. by injection Hr as <- <-. Qed.
Lemma frame_n_sys : st_rel still (sys_result (S := S) (M := M)).
Proof. by intros n a n' [= <- <-]. Qed.
Lemma frame_new_closure c : st_rel still (new_closure (S := S) (M := M) c).
Proof. by intros n a n' [= <- <-]. Qed.
Lemma frame_mod_ctx w f : st_rel still (mod_ctx (S := S) (M := M) w f).
Proof. apply st_rel_mod. intros n. by destruct w. Qed.

Lemma still_same {A} (m : NM S M A) : st_rel still m → st_rel same_manager m.
Proof. intros Hm n a n' Hr. by apply Hm in Hr as [? _]. Qed.
End frames.

(** Peel a computation down to operations that have a lemma. *)
Ltac frame_tac :=
  repeat (cbv beta zeta; match goal with
  | |- st_rel _ (mret _) => apply st_rel_ret; apply _
  | |- st_rel _ (st_get _) => apply st_rel_get; apply _
  | |- st_rel _ (get_ctx _) => apply st_rel_get; apply _
  | |- st_rel _ (st_lift _) => apply st_rel_lift; apply _
  | |- st_rel _ (st_check _) => apply st_rel_check; apply _
  | |- st_rel _ (_ ≫= _) => apply st_rel_bind; [apply _| |intros ?]
  | |- st_rel _ (st_each _ _) => apply st_rel_each; [apply _|intros ?]
  | |- st_rel _ (if ?b then _ else _) => destruct b
  | |- st_rel _ (match ?x with _ => _ end) => destruct x
  | |- st_rel _ (st_mod _) => apply st_rel_mod; intros ?; by repeat split
  | |- st_rel _ (mod_conf_ctx _) => apply st_rel_mod; intros ?; by repeat split
  | |- st_rel _ (emit_ev _) => apply st_rel_mod; intros ?; by repeat split
  | |- st_rel _ _ => solve [eauto with node_log]
  end).
#[export] Hint Resolve frame_cache_call frame_n_sys frame_new_closure frame_mod_ctx still_same : node_log.

(** ** Parts of the handlers *)

Section parts.
Context {S M : Type} `{LogStorageLaws S, RaftMetaStorage M} (fl : RaftFlags) (e : Env).
Abbreviation stays := (st_rel (still (S := S) (M := M))).

Lemma frame_check_conf : stays check_and_set_configuration.
Proof. unfold check_and_set_configuration. frame_tac. Qed.
Lemma frame_box_call f : stays (box_call f).
Proof. unfold box_call. frame_tac. Qed.
Lemma frame_set_meta t v : stays (set_term_and_votedfor t v).
Proof. unfold set_term_and_votedfor. frame_tac. Qed.
Lemma frame_stop_timer w : stays (vote_ctx_stop_grant_self_timer w).
Proof. unfold vote_ctx_stop_grant_self_timer. frame_tac. Qed.
Lemma frame_start_timer w ms : stays (vote_ctx_start_grant_self_timer w ms).
Proof. unfold vote_ctx_start_grant_self_timer. frame_tac. Qed.
Lemma frame_votable : stays (votable_time_from_now fl e).
Proof. unfold votable_time_from_now. frame_tac. Qed.
Lemma frame_suspend k : stays (suspend k).
Proof. unfold suspend. frame_tac. Qed.
Lemma frame_stop_replicator k d : stays (stop_replicator k d).
Proof. unfold stop_replicator. frame_tac. Qed.
Lemma frame_majority_of c : stays (check_majority_of e c).
Proof. unfold check_majority_of. frame_tac. Qed.
Lemma frame_clear_cache : stays clear_append_entries_cache.
Proof. unfold clear_append_entries_cache. frame_tac. Qed.
Lemma frame_step_down_cache : stays drop_empty_cache.
Proof.
  unfold drop_empty_cache. apply st_rel_mod. intros n. destruct (n_cache n) as [c|]; [|done]. by destruct (ac_empty c).
Qed.
Lemma frame_answer_last c i : stays (answer_last_log_id c i).
Proof. unfold answer_last_log_id. frame_tac. Qed.
End parts.
#[export] Hint Resolve frame_check_conf frame_box_call frame_set_meta frame_stop_timer frame_start_timer
  frame_votable frame_suspend frame_stop_replicator frame_majority_of frame_clear_cache frame_step_down_cache
  frame_answer_last : node_log.

Section parts2.
Context {S M : Type} `{LogStorageLaws S, RaftMetaStorage M} (fl : RaftFlags) (e : Env).
Abbreviation stays := (st_rel (still (S := S) (M := M))).

Lemma frame_vote_reset w : stays (vote_ctx_reset w).
Proof. unfold vote_ctx_reset. frame_tac. Qed.
Lemma frame_majority : stays (check_majority_nodes_readonly e).
Proof. unfold check_majority_nodes_readonly. frame_tac. Qed.
Lemma frame_request_vote ps dl : stays (request_peers_to_vote e ps dl).
Proof. unfold request_peers_to_vote. frame_tac. Qed.
Lemma frame_request_pre i : stays (request_peers_to_pre_vote e i).
Proof. unfold request_peers_to_pre_vote. frame_tac. Qed.
Lemma frame_pre_vote b : stays (pre_vote e b).
Proof. unfold pre_vote. frame_tac. Qed.
Lemma frame_disrupts r : stays (disrupts_leader r).
Proof. unfold disrupts_leader. frame_tac. Qed.
Lemma frame_reply_vote r c t d x : stays (reply_request_vote r c t d x).
Proof. unfold reply_request_vote. frame_tac. Qed.
Lemma frame_wait_caughtup p v : stays (wait_caughtup e p v).
Proof. unfold wait_caughtup. frame_tac. Qed.
Lemma frame_check_cache i : stays (check_append_entries_cache i).
Proof. unfold check_append_entries_cache. frame_tac. Qed.
Lemma frame_active_timestamp : stays (last_leader_active_timestamp e).
Proof. unfold last_leader_active_timestamp. frame_tac. Qed.
Lemma frame_reset_timeout a b : stays (unsafe_reset_election_timeout_ms fl a b).
Proof. unfold unsafe_reset_election_timeout_ms. frame_tac. Qed.
Lemma frame_apply_tasks ts : stays (apply_tasks ts).
Proof. induction ts as [|t ts IH]; cbn [apply_tasks]; unfold fail_task; frame_tac; exact IH. Qed.
Lemma frame_reply_append r t b i o : stays (reply_append_entries r t b i o).
Proof. unfold reply_append_entries. frame_tac. Qed.
End parts2.
#[export] Hint Resolve frame_vote_reset frame_majority frame_request_vote frame_request_pre frame_pre_vote
  frame_disrupts frame_reply_vote frame_wait_caughtup frame_check_cache frame_active_timestamp frame_reset_timeout
  frame_apply_tasks frame_reply_append : node_log.

Section parts3.
Context {S M : Type} `{LogStorageLaws S, RaftMetaStorage M} (fl : RaftFlags) (e : Env).
Abbreviation stays := (st_rel (still (S := S) (M := M))).

Lemma frame_vote_init w b : stays (vote_ctx_init w b).
Proof. unfold vote_ctx_init. frame_tac. Qed.
Lemma frame_reset_leader p st : stays (reset_leader_id p st).
Proof. unfold reset_leader_id. frame_tac. Qed.
Lemma frame_conf_reset st : stays (conf_ctx_reset e st).
Proof. unfold conf_ctx_reset. frame_tac. Qed.
Lemma frame_step_down_from st : stays (step_down_from st).
Proof. unfold step_down_from. frame_tac. Qed.
Lemma frame_retry : stays (retry_vote_on_reserved_peers e).
Proof. unfold retry_vote_on_reserved_peers. frame_tac. Qed.
Lemma frame_grant_pre ps : stays (grant_pre_votes ps).
Proof. unfold grant_pre_votes. frame_tac. Qed.
Lemma frame_out_of_order r i : stays (handle_out_of_order_append_entries fl e r i).
Proof. unfold handle_out_of_order_append_entries. frame_tac. Qed.
Lemma frame_lease_start i : stays (leader_lease_start e i).
Proof. unfold leader_lease_start. frame_tac. Qed.
Lemma frame_transfer_timeout t p : st_rel (same_manager (S := S) (M := M)) (handle_transfer_timeout t p).
Proof. unfold handle_transfer_timeout. frame_tac. Qed.
Lemma frame_cache_timeout a b c : stays (handle_append_entries_cache_timedout a b c).
Proof. unfold handle_append_entries_cache_timedout. frame_tac. Qed.
End parts3.
#[export] Hint Resolve frame_vote_init frame_reset_leader frame_conf_reset frame_step_down_from frame_retry
  frame_grant_pre frame_out_of_order frame_lease_start frame_transfer_timeout frame_cache_timeout : node_log.

(** ** Stepping down and standing *)

Section stepping.
Context {S M : Type} `{LogStorageLaws S, RaftMetaStorage M} (fl : RaftFlags) (e : Env).
Abbreviation keeps := (st_rel (same_manager (S := S) (M := M))).

Lemma frame_raise_term t : keeps (raise_term t).
Proof. unfold raise_term. frame_tac. Qed.
#[local] Hint Resolve frame_raise_term : node_log.
Lemma frame_step_down t b st : keeps (step_down e t b st).
Proof. unfold step_down. frame_tac. Qed.
#[local] Hint Resolve frame_step_down : node_log.
Lemma frame_check_step_down t p : keeps (check_step_down e t p).
Proof. unfold check_step_down. frame_tac. Qed.
Lemma frame_elect_self b : keeps (elect_self b).
Proof. unfold elect_self. frame_tac. Qed.
End stepping.
#[export] Hint Resolve frame_raise_term frame_step_down frame_check_step_down frame_elect_self : node_log.

(** ** Appends of a leader *)

(** Entries of a leader of term [t] that have no index yet. *)
Definition leader_entries (t : Z) (es : list LogEntry) : Prop :=
  Forall (λ e, id e = mkLogId 0 t ∧ (type e = ENTRY_TYPE_CONFIGURATION → peers e ≠ None)) es.

Section growing.
Context {S M : Type} `{LogStorageLaws S, RaftMetaStorage M} (fl : RaftFlags) (e : Env).
Implicit Types n : Node S M.
Abbreviation keeps := (st_rel (same_manager (S := S) (M := M))).
Abbreviation stays := (st_rel (still (S := S) (M := M))).

(** One append, by a node that leads afterwards in the term of the entries. *)
Definition appended n n' : Prop :=
  leading (n_state n') ∧ ∃ es d, leader_entries (n_current_term n') es ∧
    lm_append_entries (n_log_manager n) es d = Some (n_log_manager n').

Definition grows n n' : Prop := same_manager n n' ∨ appended n n'.

(** [m] from a node in state [s] and term [t]. *)
Definition grow_from (s : State) (t : Z) {A} (m : NM S M A) : Prop :=
  ∀ n a n', n_state n = s → n_current_term n = t → m n = Some (a, n') → grows n n'.

Lemma grow_keeps s t {A} (m : NM S M A) : keeps m → grow_from s t m.
Proof. intros Hm n a n' _ _ Hr. left. by eapply Hm. Qed.

Lemma grow_keeps_bind s t {A B} (m : NM S M A) (k : A → NM S M B) :
  keeps m → (∀ a s' t', grow_from s' t' (k a)) → grow_from s t (m ≫= k).
Proof.
  intros Hm Hk n b n' _ _ (a & n1 & Hr1 & Hr2)%st_bind_Some. apply Hm in Hr1. unfold same_manager in Hr1.
  destruct (Hk a _ _ n1 b n' eq_refl eq_refl Hr2) as [Hs|(Hl & es & d & Hes & Ha)].
  - left. unfold same_manager in *. congruence.
  - right. split; [done|]. exists es, d. by rewrite <-Hr1.
Qed.

Lemma grow_stays_bind s t {A B} (m : NM S M A) (k : A → NM S M B) :
  stays m → (∀ a, grow_from s t (k a)) → grow_from s t (m ≫= k).
Proof.
  intros Hm Hk n b n' Hs Ht (a & n1 & Hr1 & Hr2)%st_bind_Some. apply Hm in Hr1 as (Hm1 & Hs1 & Ht1).
  unfold same_manager in Hm1.
  destruct (Hk a n1 b n' ltac:(congruence) ltac:(congruence) Hr2) as [Hx|(Hl & es & d & Hes & Ha)].
  - left. unfold same_manager in *. congruence.
  - right. split; [done|]. exists es, d. by rewrite <-Hm1.
Qed.

Lemma grow_bind_stays s t {A B} (m : NM S M A) (k : A → NM S M B) :
  grow_from s t m → (∀ a, stays (k a)) → grow_from s t (m ≫= k).
Proof.
  intros Hm Hk n b n' Hs Ht (a & n1 & Hr1 & Hr2)%st_bind_Some. apply Hk in Hr2 as (Hm1 & Hs1 & Ht1).
  unfold same_manager in Hm1. destruct (Hm n a n1 Hs Ht Hr1) as [Hx|(Hl & es & d & Hes & Ha)].
  - left. unfold same_manager in *. congruence.
  - right. split; [by rewrite Hs1|]. exists es, d. by rewrite Ht1, Hm1.
Qed.

Lemma grow_state s t {A} (k : State → NM S M A) : grow_from s t (k s) → grow_from s t (st_get n_state ≫= k).
Proof. intros Hk n b n' Hs Ht (a & n1 & [= <- <-] & Hr2)%st_bind_Some. rewrite Hs in Hr2. by eapply Hk. Qed.

Lemma grow_term s t {A} (k : Z → NM S M A) : grow_from s t (k t) → grow_from s t (st_get n_current_term ≫= k).
Proof. intros Hk n b n' Hs Ht (a & n1 & [= <- <-] & Hr2)%st_bind_Some. rewrite Ht in Hr2. by eapply Hk. Qed.

Lemma grow_set_state s s' t {A} (k : unit → NM S M A) :
  grow_from s' t (k tt) → grow_from s t (st_mod (with_state s') ≫= k).
Proof. intros Hk n b n' Hs Ht (a & n1 & [= <- <-] & Hr2)%st_bind_Some. by apply (Hk (with_state s' n) b n'). Qed.

Lemma grow_check s t (P : Prop) `{Decision P} {A} (k : unit → NM S M A) :
  (P → grow_from s t (k tt)) → grow_from s t (st_check P ≫= k).
Proof. intros Hk n b n' Hs Ht ([] & n1 & [HP ->]%st_check_Some & Hr2)%st_bind_Some. by eapply Hk. Qed.

Lemma grow_append s t es : leading s → leader_entries t es → grow_from s t (leader_append es).
Proof.
  intros Hl Hes n b n' Hs Ht Hr. unfold leader_append in Hr.
  apply st_bind_Some in Hr as (c & n1 & Hc & Hr). apply frame_new_closure in Hc as (Hm1 & Hs1 & Ht1).
  apply st_bind_Some in Hr as ([] & n2 & Ha & [= _ <-]). unfold log_call in Ha.
  apply st_bind_Some in Ha as (m & n3 & [= <- <-] & Ha).
  apply st_bind_Some in Ha as (m' & n3 & [Ha' ->]%st_lift_Some & [= <-]).
  right. split; [cbn; by rewrite Hs1, Hs|]. exists es, c. cbn. unfold same_manager in Hm1.
  by rewrite Ht1, Ht, <-Hm1.
Qed.
Lemma apply_tasks_entries ts n es n' : apply_tasks ts n = Some (es, n') → leader_entries (n_current_term n) es.
Proof.
  revert n es n'. induction ts as [|x ts IH]; intros n es n' Hr; cbn [apply_tasks] in Hr.
  { injection Hr as <- _. constructor. }
  apply st_bind_Some in Hr as (t & n1 & [= <- <-] & Hr). case_decide.
  - apply st_bind_Some in Hr as ([] & n1 & Hf & Hr).
    assert (still n n1) as (_ & _ & <-); [|by eapply IH].
    revert Hf. refine ((_ : st_rel still _) n tt n1). unfold fail_task. frame_tac.
  - apply st_bind_Some in Hr as (conf & n1 & [= <- <-] & Hr).
    apply st_bind_Some in Hr as (o & n1 & Ho & Hr).
    assert (still n n1) as (_ & _ & Ht1).
    { revert Ho. refine ((_ : st_rel still _) n o n1). destruct (lc_done x); frame_tac. }
    apply st_bind_Some in Hr as (bx & n2 & [= <- <-] & Hr).
    apply st_bind_Some in Hr as (bx' & n2 & [_ ->]%st_lift_Some & Hr).
    apply st_bind_Some in Hr as ([] & n2 & [= <-] & Hr).
    apply st_bind_Some in Hr as (es' & n3 & He & [= <- _]).
    constructor; [done|]. apply IH in He. cbn in He. by rewrite Ht1 in He.
Qed.

Lemma grow_tasks s t ts {A} (k : list LogEntry → NM S M A) :
  (∀ es, leader_entries t es → grow_from s t (k es)) → grow_from s t (apply_tasks ts ≫= k).
Proof.
  intros Hk n b n' Hs Ht (es & n1 & He & Hr2)%st_bind_Some. pose proof (apply_tasks_entries _ _ _ _ He) as Hes.
  rewrite Ht in Hes. apply frame_apply_tasks in He as (Hm1 & Hs1 & Ht1). unfold same_manager in Hm1.
  destruct (Hk es Hes n1 b n' ltac:(congruence) ltac:(congruence) Hr2) as [Hx|(Hl & es' & d & Hes' & Ha)].
  - left. unfold same_manager in *. congruence.
  - right. split; [done|]. exists es', d. by rewrite <-Hm1.
Qed.
End growing.

(** Run a handler from a state and a term. *)
Ltac grow_tac :=
  repeat (cbv beta zeta; match goal with
  | |- grow_from _ _ (st_get n_state ≫= _) => apply grow_state
  | |- grow_from _ _ (st_get n_current_term ≫= _) => apply grow_term
  | |- grow_from _ _ (st_mod (with_state _) ≫= _) => apply grow_set_state
  | |- grow_from _ _ (apply_tasks _ ≫= _) => apply grow_tasks; intros ? ?
  | |- grow_from _ _ (st_check _ ≫= _) => apply grow_check; intros ?
  | |- grow_from _ _ (_ ≫= _) => apply grow_stays_bind; [solve [frame_tac]|intros ?]
  | |- grow_from _ _ (if decide _ then _ else _) => case_decide
  | |- grow_from _ _ (if ?b then _ else _) => destruct b eqn:?
  | |- grow_from _ _ (match ?x with _ => _ end) => destruct x eqn:?
  | |- grow_from _ _ _ => first [solve [eauto with node_log]|apply grow_keeps; solve [frame_tac]]
  end).

Section growing_handlers.
Context {S M : Type} `{LogStorageLaws S, RaftMetaStorage M} (fl : RaftFlags) (e : Env).
Implicit Types n : Node S M.
Abbreviation grow_from := (grow_from (S := S) (M := M)).

Lemma grow_apply_conf s t nc oc b : leading s → grow_from s t (unsafe_apply_configuration nc oc b).
Proof.
  intros Hl. unfold unsafe_apply_configuration. grow_tac.
  apply grow_bind_stays; [|intros _; frame_tac]. apply grow_append; [done|]. by repeat constructor.
Qed.

Lemma grow_become_leader s t : grow_from s t become_leader.
Proof.
  unfold become_leader, conf_ctx_flush. grow_tac. apply grow_bind_stays; [|intros _; frame_tac].
  pose proof (grow_apply_conf STATE_LEADER t) as Ha. grow_tac; apply Ha; by left.
Qed.

Lemma grow_apply s t ts : grow_from s t (apply ts).
Proof.
  unfold apply, fail_task. grow_tac. apply grow_bind_stays; [|intros _; frame_tac]. apply grow_append; [|done].
  left. apply orb_false_iff in Heqb as [Hb _]. by apply negb_false_iff, bool_decide_eq_true in Hb.
Qed.
End growing_handlers.
#[export] Hint Resolve grow_apply_conf grow_become_leader grow_apply : node_log.

(** ** Handlers that may append as a leader *)

Section growing_more.
Context {S M : Type} `{LogStorageLaws S, RaftMetaStorage M} (fl : RaftFlags) (e : Env).
Implicit Types n : Node S M.
Abbreviation grow_from := (grow_from (S := S) (M := M)).

Lemma grow_next_stage s t : leading s → grow_from s t (conf_ctx_next_stage e).
Proof. intros Hl. unfold conf_ctx_next_stage. grow_tac. Qed.
#[local] Hint Resolve grow_next_stage : node_log.

Lemma grow_conf_caughtup s t v p b : leading s → grow_from s t (conf_ctx_on_caughtup e v p b).
Proof. intros Hl. unfold conf_ctx_on_caughtup. grow_tac. Qed.
#[local] Hint Resolve grow_conf_caughtup : node_log.

Lemma grow_start_catchup s t v ps : leading s → grow_from s t (start_catchup e v ps).
Proof. intros Hl. induction ps as [|p ps IH]; cbn [start_catchup]; grow_tac. Qed.
#[local] Hint Resolve grow_start_catchup : node_log.

Lemma grow_register s t oc nc d : grow_from s t (unsafe_register_conf_change e oc nc d).
Proof.
  unfold unsafe_register_conf_change, conf_ctx_start. grow_tac.
  all: assert (leading s) by (left; destruct (decide (s = STATE_LEADER)); [done|tauto]); grow_tac.
Qed.

Lemma grow_change_done s t x : grow_from s t (on_configuration_change_done e x).
Proof.
  unfold on_configuration_change_done. grow_tac. apply grow_next_stage.
  destruct s; cbn in *; try lia; [by left|by right].
Qed.
#[local] Hint Resolve grow_change_done : node_log.

Lemma grow_on_caughtup s t p x v st : grow_from s t (on_caughtup e p x v st).
Proof.
  unfold on_caughtup. grow_tac.
  all: assert (leading s) by (left; destruct (decide (s = STATE_LEADER)); [done|tauto]); grow_tac.
Qed.

Lemma grow_run_closure s t c st : grow_from s t (run_closure e c st).
Proof.
  unfold run_closure, run_node_closure. grow_tac. apply grow_bind_stays; [grow_tac|intros _; frame_tac].
Qed.

Lemma grow_grant_self s t w : grow_from s t (grant_self fl e w).
Proof. unfold grant_self. grow_tac. Qed.
#[local] Hint Resolve grow_grant_self : node_log.

Lemma grow_grant_self_timedout s t w v : grow_from s t (handle_grant_self_timedout fl e w v).
Proof. unfold handle_grant_self_timedout. grow_tac. Qed.

Lemma grow_vote_response s t p x v r : grow_from s t (handle_request_vote_response e p x v r).
Proof. unfold handle_request_vote_response. grow_tac. Qed.

Lemma grow_resume s t i : grow_from s t (resume fl e i).
Proof.
  unfold resume, resume_call, pre_vote_resume, elect_self_resume, handle_pre_vote_request_resume,
    handle_request_vote_request_resume. grow_tac.
Qed.
End growing_more.
#[export] Hint Resolve grow_register grow_on_caughtup grow_run_closure grow_grant_self_timedout grow_vote_response
  grow_resume : node_log.

(** ** The append of a follower *)

Section following.
Context {S M : Type} `{LogStorageLaws S, RaftMetaStorage M} (fl : RaftFlags) (e : Env).
Implicit Types n : Node S M.

Definition same_state n n' : Prop := n_state n' = n_state n.

#[local] Instance same_state_preorder : PreOrder same_state.
Proof. split; [done|]. intros n1 n2 n3 ? ?. unfold same_state in *. congruence. Qed.

Lemma still_same_state {A} (m : NM S M A) : st_rel still m → st_rel same_state m.
Proof. intros Hm n a n' Hr. by apply Hm in Hr as (_ & ? & _). Qed.
#[local] Hint Resolve still_same_state : node_log.

Lemma state_raise_term t : st_rel same_state (raise_term t).
Proof. unfold raise_term. frame_tac. Qed.
#[local] Hint Resolve state_raise_term : node_log.

Lemma step_down_follower t b st n u n' :
  is_active_state (n_state n) = true → step_down e t b st n = Some (u, n') → n_state n' = STATE_FOLLOWER.
Proof.
  intros Hact Hr. unfold step_down in Hr. apply st_bind_Some in Hr as (s & n1 & [= <- <-] & Hr).
  rewrite Hact in Hr. cbn [negb] in Hr. apply st_bind_Some in Hr as ([] & n1 & _ & Hr).
  apply st_bind_Some in Hr as ([] & n2 & _ & Hr). apply st_bind_Some in Hr as ([] & n3 & [= <-] & Hr).
  revert Hr. refine ((_ : st_rel same_state _) (with_state STATE_FOLLOWER n2) u n'). frame_tac.
Qed.

Lemma check_step_down_follower t p n u n' :
  is_active_state (n_state n) = true → check_step_down e t p n = Some (u, n') → n_state n' = STATE_FOLLOWER.
Proof.
  intros Hact Hr. unfold check_step_down in Hr. do 3 apply st_bind_Some in Hr as (? & ? & [= <- <-] & Hr).
  apply st_bind_Some in Hr as (status & n1 & Hd & Hr).
  assert (n_state n1 = STATE_FOLLOWER) as Hf.
  { assert (∀ b st, (step_down e t b st;; mret ENEWLEADER) n = Some (status, n1) → n_state n1 = STATE_FOLLOWER) as Hs.
    { intros b st ([] & n2 & Hx & [= _ <-])%st_bind_Some. by eapply step_down_follower. }
    case_decide; [by eapply Hs|]. case_decide as Hst; [by eapply Hs|].
    destruct (peer_is_empty _); [by eapply Hs|]. injection Hd as _ <-.
    destruct (decide (n_state n = STATE_FOLLOWER)); [done|tauto]. }
  rewrite <-Hf. revert Hr. refine ((_ : st_rel same_state _) n1 u n'). frame_tac.
Qed.

(** One append of a node that follows afterwards, of entries whose previous
    entry its log has with the term the request gives. *)
Definition followed (rpc : AppendEntriesRpc) n n' : Prop :=
  let request := rpc_request rpc in
  n_state n' = STATE_FOLLOWER ∧ ∃ es d,
    lm_get_term (n_log_manager n) (ae_prev_log_index request) = Some (ae_prev_log_term request) ∧
    parse_entries (ae_prev_log_index request) (ae_entries request) (rpc_attachment rpc) = Some es ∧
    lm_append_entries (n_log_manager n) es d = Some (n_log_manager n').

Lemma accept_followed rpc n u n' :
  n_state n = STATE_FOLLOWER →
  lm_get_term (n_log_manager n) (ae_prev_log_index (rpc_request rpc)) = Some (ae_prev_log_term (rpc_request rpc)) →
  accept_append_entries rpc n = Some (u, n') → followed rpc n n'.
Proof.
  intros Hf Ht Hr. unfold accept_append_entries in Hr.
  apply st_bind_Some in Hr as (es & n1 & [Hes ->]%st_lift_Some & Hr).
  apply st_bind_Some in Hr as ([] & n1 & Hc & Hr). apply frame_check_cache in Hc as (Hm1 & Hs1 & _).
  apply st_bind_Some in Hr as (t & n2 & [= <- <-] & Hr).
  apply st_bind_Some in Hr as (c & n2 & Hn & Hr). apply frame_new_closure in Hn as (Hm2 & Hs2 & _).
  apply st_bind_Some in Hr as ([] & n3 & Ha & Hr). apply frame_check_conf in Hr as (Hm3 & Hs3 & _).
  unfold log_call in Ha. apply st_bind_Some in Ha as (m & n4 & [= <- <-] & Ha).
  apply st_bind_Some in Ha as (m' & n4 & [Ha' ->]%st_lift_Some & [= <-]). unfold same_manager in *.
  cbn in Hm3, Hs3. split; [congruence|]. exists es, c. split_and!; [done..|]. congruence.
Qed.

Lemma append_entries_followed rpc fc n u n' :
  handle_append_entries_request fl e rpc fc n = Some (u, n') → same_manager n n' ∨ followed rpc n n'.
Proof.
  intros Hr. unfold handle_append_entries_request in Hr.
  apply st_bind_Some in Hr as (s & n1 & [= <- <-] & Hr).
  assert (∀ A (m : NM S M A) n1 a n2, st_rel same_manager m → same_manager n n1 → m n1 = Some (a, n2) →
            same_manager n n2) as Hk by (intros A m n1 a n2 Hm H1' H2'; etrans; [done|by eapply Hm]).
  destruct (negb _) eqn:Hact; [left; eapply Hk; [|done|exact Hr]; frame_tac|]. apply negb_false_iff in Hact.
  apply st_bind_Some in Hr as ([sid rc] & n1 & [_ ->]%st_lift_Some & Hr).
  case_decide; [left; eapply Hk; [|done|exact Hr]; frame_tac|].
  apply st_bind_Some in Hr as (cur & n1 & [= <- <-] & Hr).
  case_decide; [left; eapply Hk; [|done|exact Hr]; frame_tac|].
  apply st_bind_Some in Hr as ([] & n1 & Hd & Hr). pose proof (check_step_down_follower _ _ _ _ _ Hact Hd) as Hf.
  apply frame_check_step_down in Hd. apply st_bind_Some in Hr as (ld & n2 & [= <- <-] & Hr).
  case_decide; [left; eapply Hk; [|done|exact Hr]; frame_tac|].
  apply st_bind_Some in Hr as ([] & n2 & Hl & Hr).
  assert (still n1 n2) as (Hm2 & Hs2 & _).
  { revert Hl. refine ((_ : st_rel still _) n1 tt n2). frame_tac. }
  assert (same_manager n n2) as Hd2 by (etrans; [exact Hd|exact Hm2]).
  apply st_bind_Some in Hr as (he & n3 & [= <- <-] & Hr).
  destruct (_ && _); [left; eapply Hk; [|done|exact Hr]; frame_tac|].
  apply st_bind_Some in Hr as (m & n3 & [= <- <-] & Hr).
  apply st_bind_Some in Hr as (pt & n3 & [Hpt ->]%st_lift_Some & Hr).
  apply st_bind_Some in Hr as (now & n3 & [= <- <-] & Hr).
  case_decide as Hne; [left; eapply Hk; [|done|exact Hr]; frame_tac|].
  case_decide; [left; eapply Hk; [|done|exact Hr]; frame_tac|].
  assert (pt = ae_prev_log_term (rpc_request rpc)) as -> by (destruct (decide (pt = ae_prev_log_term (rpc_request rpc))); [done|tauto]).
  right. apply accept_followed in Hr as (Hs & es & d & Ht & Hp & Ha); [|congruence|done].
  split; [done|]. exists es, d. unfold same_manager in Hd2. by rewrite <-Hd2.
Qed.
End following.

(** ** All inputs *)

Section all_inputs.
Context {S M : Type} `{LogStorageLaws S, RaftMetaStorage M} (fl : RaftFlags) (e : Env).
Implicit Types n : Node S M.

(** The inputs that are one call of the log manager. *)
Definition log_op (i : NodeInput) : option (LogManager S → option (LogManager S)) :=
  match i with
  | InSetApplied a => Some (λ m, Some (lm_set_applied_id m a))
  | InSetSnapshot sm => Some (λ m, lm_set_snapshot m sm)
  | InClearBufferedLogs => Some lm_clear_bufferred_logs
  | InDiskStart => Some disk_start
  | InDiskStep => Some disk_step
  | InDiskEnd => Some disk_end
  | _ => None
  end.

Inductive log_change (i : NodeInput) n n' : Prop :=
  | lc_quiet : log_quiet (n_log_manager n) (n_log_manager n') → log_change i n n'
  | lc_append m1 es d :
      log_quiet (n_log_manager n) m1 → leading (n_state n') → leader_entries (n_current_term n') es →
      lm_append_entries m1 es d = Some (n_log_manager n') → log_change i n n'
  | lc_follow rpc fc : i = InAppendEntries rpc fc → followed rpc n n' → log_change i n n'
  | lc_call f :
      log_op i = Some f → f (n_log_manager n) = Some (n_log_manager n') →
      n_state n' = n_state n → n_current_term n' = n_current_term n → log_change i n n'.

Lemma grows_change i n n' : grows n n' → log_change i n n'.
Proof.
  intros [Hs|(Hl & es & d & Hes & Ha)].
  - apply lc_quiet. unfold same_manager in Hs. rewrite Hs. apply rtc_refl.
  - eapply lc_append; [apply rtc_refl|done..].
Qed.

Lemma log_call_change i f n u n' :
  log_op i = Some f → log_call f n = Some (u, n') → log_change i n n'.
Proof.
  intros Hi Hr. unfold log_call in Hr. apply st_bind_Some in Hr as (m & n1 & [= <- <-] & Hr).
  apply st_bind_Some in Hr as (m' & n1 & [Hf ->]%st_lift_Some & [= _ <-]). by eapply lc_call.
Qed.

(** Calls that leave the log alone, as a frame. *)
Definition quiet_manager n n' : Prop := log_quiet (n_log_manager n) (n_log_manager n').

#[local] Instance quiet_manager_preorder : PreOrder quiet_manager.
Proof. split; [intros n; apply rtc_refl|]. intros n1 n2 n3 ? ?. unfold quiet_manager, log_quiet in *. by etrans. Qed.

Lemma keeps_quiet {A} (m : NM S M A) : st_rel same_manager m → st_rel quiet_manager m.
Proof. intros Hm n a n' Hr. apply Hm in Hr. unfold quiet_manager. rewrite Hr. apply rtc_refl. Qed.
#[local] Hint Resolve keeps_quiet : node_log.

Ltac quiet_tac :=
  repeat (cbv beta zeta; match goal with
  | |- st_rel quiet_manager (_ ≫= _) => apply st_rel_bind; [apply _| |intros ?]
  | |- st_rel quiet_manager (if ?b then _ else _) => destruct b
  | |- st_rel quiet_manager (match ?x with _ => _ end) => destruct x
  | |- st_rel quiet_manager _ => apply keeps_quiet; solve [frame_tac]
  end).

Lemma quiet_shutdown d : st_rel quiet_manager (shutdown e d).
Proof.
  unfold shutdown. quiet_tac. apply st_rel_mod. intros n. apply rtc_once.
  exact (qs_side (n_log_manager n) [] true (lm_next_wait_id (n_log_manager n)) _).
Qed.

Lemma quiet_read fuel i a : st_rel quiet_manager (read_user_log fuel i a).
Proof.
  revert i. induction fuel as [|fuel IH]; intros i; cbn [read_user_log]; [apply keeps_quiet; frame_tac|].
  intros n x n' Hr. apply st_bind_Some in Hr as (m & n1 & [= <- <-] & Hr).
  apply st_bind_Some in Hr as ([m' o] & n1 & [Hg ->]%st_lift_Some & Hr).
  apply st_bind_Some in Hr as ([] & n1 & [= <-] & Hr).
  unfold quiet_manager, log_quiet. eapply rtc_l; [by eapply qs_read|]. fold (log_quiet m' (n_log_manager n')).
  revert Hr. refine ((_ : st_rel quiet_manager _) (with_log_manager m' n) x n').
  destruct o; quiet_tac. apply IH.
Qed.

Lemma quiet_enter i : st_rel quiet_manager (enter_last_log_id i).
Proof.
  intros n u n' Hr. unfold enter_last_log_id in Hr. apply st_bind_Some in Hr as (l & n1 & [= <- <-] & Hr).
  destruct (_ !! i) as [[k| |]|]; try (injection Hr as _ <-; apply rtc_refl).
  apply st_bind_Some in Hr as (c & n1 & [= <- <-] & Hr).
  apply st_bind_Some in Hr as ([] & n1 & [= <-] & Hr).
  apply st_bind_Some in Hr as (m & n1 & [= <- <-] & Hr).
  destruct (lm_last_log_id_flush _ _) as [m' o] eqn:Em.
  apply st_bind_Some in Hr as ([] & n1 & [= <-] & [= _ <-]). unfold quiet_manager. cbn.
  apply rtc_once. cbn in Em. change m' with (m', o).1. rewrite <-Em. apply qs_flush.
Qed.

Lemma log_event_change i n u n' : log_event e i n = Some (u, n') → log_change (InLogEvent i) n n'.
Proof.
  intros Hr. unfold log_event in Hr. apply st_bind_Some in Hr as (m & n1 & [= <- <-] & Hr).
  destruct (lm_out _ !! i) as [ev|]; [|injection Hr as _ <-; apply lc_quiet, rtc_refl].
  apply st_bind_Some in Hr as ([] & n1 & [= <-] & Hr).
  set (n1 := with_log_manager _ n) in Hr.
  assert (log_quiet (n_log_manager n) (n_log_manager n1)) as Hq by (apply rtc_once, qs_side).
  assert (grows n1 n') as [Hs|(Hl & es & d & Hes & Ha)].
  - revert Hr. refine ((_ : grow_from (n_state n1) (n_current_term n1) _) n1 u n' eq_refl eq_refl).
    destruct ev; grow_tac.
  - apply lc_quiet. unfold same_manager in Hs. rewrite Hs. exact Hq.
  - by eapply lc_append.
Qed.

Lemma node_step_change i n u n' : node_step fl e i n = Some (u, n') → log_change i n n'.
Proof.
  intros Hr.
  assert (grow_from (n_state n) (n_current_term n) (node_step fl e i) → log_change i n n') as Hg.
  { intros Hg. apply grows_change. by eapply Hg. }
  assert (st_rel quiet_manager (node_step fl e i) → log_change i n n') as Hq.
  { intros Hq. apply lc_quiet. by eapply Hq. }
  destruct i; cbn [node_step] in *; try (by eapply log_call_change); try (by apply log_event_change in Hr);
    try (apply Hg; solve [eauto with node_log]);
    try (apply Hg; unfold ignore, handle_election_timeout, handle_vote_timeout, handle_stepdown_timeout, check_witness,
      check_dead_nodes, handle_transfer_timeout, handle_pre_vote_request, handle_request_vote_request,
      handle_pre_vote_response, handle_timeout_now_request, handle_install_snapshot_request, node_add_peer,
      node_remove_peer, change_peers, reset_peers, transfer_leadership_to, node_vote, reset_election_timeout_ms,
      set_node_readonly, get_leader_lease_status, increase_term_to, change_readonly_config,
      update_configuration_after_installing_snapshot, on_error, after_shutdown; solve [grow_tac | apply grow_keeps; frame_tac]).
  - apply append_entries_followed in Hr as [Hs|Hf]; [|by eapply lc_follow].
    apply lc_quiet. unfold same_manager in Hs. rewrite Hs. apply rtc_refl.
  - apply Hq, quiet_enter.
  - apply Hq. unfold ignore, read_committed_user_log. quiet_tac. apply quiet_read.
  - apply Hq, quiet_shutdown.
Qed.
End all_inputs.

(** ** A start *)

Section start.
Context {S M : Type} `{LogStorageLaws S, RaftMetaStorage M} (fl : RaftFlags) (e : Env).

Lemma frame_init_started add : st_rel (same_manager (S := S) (M := M)) (init_started fl e add).
Proof. unfold init_started, init_meta_storage, init_running. frame_tac. Qed.

(** The snapshot the snapshot executor loaded. *)
Definition start_snapshot (ie : InitEnv S) : option SnapshotMeta := (default (0, None) (ie_snapshot ie)).2.

Lemma init_manager group_id sid options ie meta sys rc (n : Node S M) :
  init fl e group_id sid options ie meta sys = Some (rc, Some n) →
  ∃ s cm m, ie_log_storage ie = (0, s, cm) ∧ lm_init s cm = Some m ∧
    lm_check_consistency (n_log_manager n) = Some 0 ∧
    match start_snapshot ie with
    | Some sm => lm_set_snapshot m sm = Some (n_log_manager n)
    | None => n_log_manager n = m
    end.
Proof.
  intros Hr. unfold init in Hr. unfold start_snapshot. destruct (ie_log_storage ie) as [[log_rc s] cm].
  cbn [bb_init] in Hr. destruct (default _ _) as [src sn].
  repeat first [case_decide | destruct (negb _)]; try done;
    apply bind_Some in Hr as (lm & Hlm & Hr); try done.
  apply bind_Some in Hr as (lm1 & Hlm1 & Hr). apply bind_Some in Hr as (rc1 & Hck & Hr).
  destruct (decide (rc1 ≠ 0)) as [|Hz]; [done|].
  apply bind_Some in Hr as ([rc2 n2] & Hst & [= <- <-]). apply frame_init_started in Hst. unfold same_manager in Hst.
  cbn in Hst. rewrite Hst. assert (rc1 = 0) as -> by (destruct (decide (rc1 = 0)); [done|tauto]).
  assert (log_rc = 0) as -> by (destruct (decide (log_rc = 0)); [done|tauto]).
  exists s, cm, lm. split_and!; [done..|]. destruct sn as [sm|]; [done|]. by injection Hlm1 as ->.
Qed.
End start.
