(* ===== verification/LogMatching.v ===== *)
(** * Log matching

    The group of Cluster.v with the logs of its servers.  [lg_links] are the
    links (LogLink.v) that the log of some server has had.  A run is one of
    Cluster.v in which the rest of the system behaves as the code relies on
    ([action_log_ok]): requests carry links that a log had, what leaves a
    manager's memory is on its storage, snapshots are of applied entries, and a
    server comes back with a log made of known links.  The theorem is the Log
    Matching property of Raft: two logs with an entry of the same index and term
    agree on everything before it. *)

From stdpp Require Import prelude.
From S2P Require Import Prelude StdContainers Configuration ConfigurationManager Ballot ClosureQueue BallotBox PeerText.
From S2P Require Import LogStorage LogManager StateMonad Messages Lease MetaStorage AppendEntriesCache.
From S2P Require Import NodeState NodeVote NodeCore NodeLog NodeRun NodeStep Election Cluster.
From S2P Require Import LogManagerSpec LogLink LogLinkOps NodeLogStep.
Local Open Scope Z_scope.

(** ** Terms and states along core steps *)

Section core_facts.
Context {M : Type} `{Hms : RaftMetaStorage M} `{!RaftMetaLaws M}.
Implicit Types (c : Core M) (G : Z → pkey → Prop).

(** Terms do not decrease, and within a term a node that does not stand stays
    so and does not start to lead. *)
Definition settled c c' : Prop :=
  c_term c ≤ c_term c' ∧
  (c_term c' = c_term c → c_state c ≠ STATE_CANDIDATE →
   c_state c' ≠ STATE_CANDIDATE ∧ (leading (c_state c') → leading (c_state c))).

#[local] Instance settled_preorder : PreOrder settled.
Proof.
  split; [by intros c; split|]. intros c1 c2 c3 [Ht1 Hs1] [Ht2 Hs2]. split; [lia|]. intros Ht Hc.
  destruct (Hs1 ltac:(lia) Hc) as [Hc2 Hl2]. destruct (Hs2 ltac:(lia) Hc2) as [Hc3 Hl3]. auto.
Qed.

Lemma core_steps_settled G c c' : core_steps G c c' → settled c c'.
Proof.
  induction 1 as [|c c1 c' Hs _ IH]; [reflexivity|]. etrans; [|exact IH]. clear IH. unfold settled.
  destruct Hs as [c s Hp|c s Hc Hl| |c t rc m Hp Ht| | | | | | | | | | | |c Hcd _ _|]; cbn; try (split; [lia|done]).
  - split; [lia|]. intros _ _. split; [apply Hp|]. intros Hl. by destruct (passive_not_leading _ Hp).
  - split; [lia|]. intros _ _. split; [by destruct Hl as [->| ->]|done].
  - split; lia.
Qed.

(** Terms are not negative, and whoever stands or leads has a positive one. *)
Definition term_ok c : Prop :=
  0 ≤ c_term c ∧ 0 ≤ durable_term c ∧ (contending (c_state c) → 0 < c_term c).

Lemma term_ok_step G c c' : core_step G c c' → ms_wf (c_meta c) → term_ok c → term_ok c'.
Proof.
  intros Hs Hwf (Ht & Hd & Hc). unfold term_ok, durable_term in *.
  assert (∀ t v rc m, 0 ≤ t → ms_set_term_and_votedfor t v (c_meta c) = Some (rc, m) → 0 ≤ (ms_durable m).1) as Hset.
  { intros t v rc m Hp Hr. destruct (ms_set_law _ _ _ _ _ Hwf Hr) as [_ ->]. by case_decide. }
  destruct Hs as [c s Hp|c s Hl Hl'| |c t rc m Hp Hlt Hr|c p m _ _ Hr|c p rc m _ _ _ Hr| | | |
    |c p m l ar _ _ _ _ Hr|c p rc m l ar _ _ _ _ _ Hr| | | |c Hcd _ _|]; cbn; try done.
  - split_and!; [done..|]. intros [->|Hl]; [by destruct Hp|by destruct (passive_not_leading _ Hp)].
  - split_and!; [done..|]. intros _. apply Hc. by right.
  - split_and!; [lia| |lia]. eapply Hset; [|done]. lia.
  - split_and!; [done| |done]. exact (Hset _ _ _ _ Ht Hr).
  - split_and!; [done| |done]. exact (Hset _ _ _ _ Ht Hr).
  - split_and!; lia.
  - split_and!; [done| |done]. exact (Hset _ _ _ _ Ht Hr).
  - split_and!; [done| |done]. exact (Hset _ _ _ _ Ht Hr).
  - split_and!; [done..|]. intros _. apply Hc. by left.
Qed.

Lemma term_ok_steps G c c' : core_steps G c c' → ms_wf (c_meta c) → term_ok c → term_ok c'.
Proof.
  induction 1 as [|c c1 c' Hs _ IH]; [done|]. intros Hwf Hok. apply IH.
  - by eapply core_steps_wf; [apply rtc_once|].
  - by eapply term_ok_step.
Qed.
End core_facts.

(** ** What an input does to the links *)

Section input_links.
Context {S M : Type} `{LogStorageLaws S} `{!LogStorageReliable (St := S)} `{RaftMetaStorage M}.
Implicit Types (n : Node S M) (P : list Link).

(** A request carries known links, one entry after the other. *)
Definition request_known P (rpc : AppendEntriesRpc) : Prop :=
  let request := rpc_request rpc in
  ∀ es, parse_entries (ae_prev_log_index request) (ae_entries request) (rpc_attachment rpc) = Some es → es ≠ [] →
    contiguous (ae_prev_log_index request + 1) es ∧ Forall entry_ok es ∧
    (ae_prev_log_term request ≠ 0 ∨ ae_prev_log_index request = 0) ∧ links (ae_prev_log_term request) es ⊆ P.

(** What a node relies on of the components around its log. *)
Definition input_log_ok P n (i : NodeInput) : Prop :=
  let m := n_log_manager n in
  match i with
  | InAppendEntries rpc _ => request_known P rpc
  | InSetApplied a =>
      logid_ge a (lm_applied_id m) →
      index (lm_last_snapshot_id m) ≤ index a ∧ drop_safe m (logid_min (lm_disk_id m) a)
  | InDiskEnd => disk_end_safe m
  | InSetSnapshot meta =>
      index (lm_last_snapshot_id m) < sm_last_included_index meta →
      sm_last_included_term meta ≠ 0 ∧
      (logid_gt (snapshot_id meta) (lm_applied_id m) ∨ sm_last_included_index meta ≤ index (lm_applied_id m)) ∧
      (leading (n_state n) → lm_get_term m (sm_last_included_index meta) = Some (sm_last_included_term meta))
  | _ => True
  end.

(** The links that an append of a leader of term [t] makes on top of [last]. *)
Definition fresh_links (t last last' : Z) (new : list Link) : Prop :=
  links_unique new ∧ ∀ x, x ∈ new → term (link_id x) = t ∧ last < index (link_id x) ≤ last'.

Lemma links_contiguous_unique p i es : contiguous i es → links_unique (links p es).
Proof.
  intros Hc x y Hx Hy Hid.
  assert (∀ es p i x, contiguous i es → x ∈ links p es → ∃ k, links p es !! k = Some x ∧ es !! k = Some x.2) as Hl.
  { clear. induction es as [|e es IH]; intros p i x Hc; cbn; [by intros ?%not_elem_of_nil|].
    intros [->|Hx]%elem_of_cons; [by exists 0%nat|]. apply contiguous_cons in Hc as [_ Hc].
    destruct (IH _ _ _ Hc Hx) as (k & ? & ?). by exists (Datatypes.S k). }
  destruct (Hl es p i x Hc Hx) as (k & Hk & Hek). destruct (Hl es p i y Hc Hy) as (j & Hj & Hej).
  assert (k = j) as ->; [|congruence]. apply Hc in Hek, Hej. unfold link_id in Hid. rewrite Hid in Hek. lia.
Qed.

Lemma quiet_last P m m' l L : log_quiet m m' → lm_linked P m l L → lm_last_log_index m' = lm_last_log_index m.
Proof.
  intros Hq Hm. pose proof (quiet_linked _ _ _ _ _ Hq Hm) as [Hi' _]. destruct Hm as [Hi _].
  by rewrite (inv_last _ _ _ Hi), (inv_last _ _ _ Hi').
Qed.

Lemma leader_entries_ok t es : t ≠ 0 → leader_entries t es → Forall (λ e, id e = mkLogId 0 t) es ∧ Forall entry_ok es.
Proof.
  intros Ht Hes. unfold leader_entries in Hes. rewrite !Forall_forall in *. split; [by intros e [? _]%Hes|].
  intros e [Hid Hp]%Hes. split; [by rewrite Hid|done].
Qed.

(** The one call of the log manager that some inputs are. *)
Lemma call_links P n n' i f l L :
  lm_linked P (n_log_manager n) l L → input_log_ok P n i → log_op i = Some f →
  f (n_log_manager n) = Some (n_log_manager n') →
  ∃ l' L', lm_linked P (n_log_manager n') l' L' ∧ (leading (n_state n) → log_last L' = log_last L).
Proof.
  intros Hm Hok Hop Hf. destruct i; cbn in Hop; try done; injection Hop as <-; cbn in Hok.
  - injection Hf as <-. exists l, L. split; [|done]. by apply set_applied_linked.
  - destruct (snapshot_linked P (n_log_manager n) l L meta (n_log_manager n') Hm Hf) as (Hm' & Hl').
    { intros Hlt. by destruct (Hok Hlt) as (? & ? & _). }
    eexists l, _. split; [exact Hm'|]. intros Hld.
    destruct (decide (index (lm_last_snapshot_id (n_log_manager n)) < sm_last_included_index meta)) as [Hlt|Hge].
    + destruct (Hok Hlt) as (_ & _ & Ht). by apply Hl', Ht.
    + unfold lm_set_snapshot in Hf. rewrite decide_True in Hf by lia. injection Hf as Hf.
      destruct Hm as [Hi _], Hm' as [Hi' _]. rewrite <-Hf in Hi'.
      by rewrite <-(inv_last _ _ _ Hi), <-(inv_last _ _ _ Hi').
  - destruct (clear_buffered_linked _ _ _ _ _ Hm Hf) as (? & ?). by eexists l, _.
  - exists l, L. split; [|done]. by eapply disk_start_linked.
  - destruct (disk_step_linked _ _ _ _ _ Hm Hf) as (l' & ?). by exists l', L.
  - destruct (disk_end_linked _ _ _ _ _ Hm Hok Hf) as (l' & ?). by exists l', L.
Qed.

(** From [n] to [n'] the log stays linked; only a leader makes links, above its
    log and in its term, and its log does not get shorter. *)
Definition links_step P n n' (new : list Link) : Prop :=
  let last := lm_last_log_index (n_log_manager n) in
  let last' := lm_last_log_index (n_log_manager n') in
  (∃ l' L', lm_linked (P ++ new) (n_log_manager n') l' L') ∧ new ⊆ lm_links (n_log_manager n') ∧
  (new = [] ∨ leading (n_state n')) ∧ fresh_links (n_current_term n') last last' new ∧
  (leading (n_state n) → leading (n_state n') → last ≤ last').

Lemma links_step_nil P n n' l' L' :
  lm_linked P (n_log_manager n') l' L' →
  (leading (n_state n) → leading (n_state n') →
   lm_last_log_index (n_log_manager n) ≤ lm_last_log_index (n_log_manager n')) →
  ∃ new, links_step P n n' new.
Proof.
  intros Hm' Hlast. exists []. split_and!; try done.
  - exists l', L'. by rewrite app_nil_r.
  - apply list_subseteq_nil.
  - by left.
  - split; [by intros x y ?%not_elem_of_nil|by intros x ?%not_elem_of_nil].
Qed.

Lemma input_links P n n' i l L :
  lm_linked P (n_log_manager n) l L → input_log_ok P n i → log_change i n n' →
  (leading (n_state n') → 0 < n_current_term n') → ∃ new, links_step P n n' new.
Proof.
  intros Hm Hok Hch Hpos.
  destruct Hch as [Hq|m1 es d Hq Hl Hes Ha|rpc fc -> (Hs & es & d & Ht & Hp & Ha)|f Hop Hf Hs Ht].
  - apply (links_step_nil P n n' l L); [by eapply quiet_linked|]. intros _ _. by rewrite (quiet_last _ _ _ _ _ Hq Hm).
  - pose proof (quiet_linked _ _ _ _ _ Hq Hm) as Hm1.
    destruct (leader_entries_ok (n_current_term n') es) as [Hid Hok']; [specialize (Hpos Hl); lia|done|].
    destruct (lead_linked P m1 l L es _ d _ Hm1 Hid Hok' Ha) as (q & Hc & Hte & Hm' & Hsub). set (es' := assign_indexes (log_last L) es) in *.
    pose proof Hm1 as [Hi1 _]. pose proof Hm' as [Hi' _].
    eexists. unfold links_step. rewrite <-(quiet_last _ _ _ _ _ Hq Hm).
    rewrite (inv_last _ _ _ Hi1), (inv_last _ _ _ Hi'), log_append_last.
    split_and!; [by eexists _, _|done|by right|..|pose proof (zlen_nonneg es'); lia].
    split; [by eapply links_contiguous_unique|]. intros x Hx%elem_of_links.
    rewrite Forall_forall in Hte. split; [by apply Hte|]. apply list_elem_of_lookup in Hx as [k Hk].
    pose proof (Hc _ _ Hk) as Hk'. apply lookup_lt_Some in Hk. unfold link_id, zlen. lia.
  - assert (∃ L', lm_linked P (n_log_manager n') l L') as [L' Hm'].
    { destruct (decide (es = [])) as [->|Hne].
      - apply (follow_linked P (n_log_manager n) l L [] 0 0 d); try done; [by right|].
        apply list_subseteq_nil.
      - destruct (Hok es Hp Hne) as (Hc & Heo & Hz & Hsub). by eapply follow_linked. }
    apply (links_step_nil P n n' l L'); [done|]. intros _ Hl. rewrite Hs in Hl. by destruct Hl.
  - destruct (call_links P n n' i f l L Hm Hok Hop Hf) as (l' & L' & Hm' & Hlast). apply (links_step_nil P n n' l' L'); [done|].
    intros Hl _. destruct Hm as [Hi _], Hm' as [Hi' _]. rewrite (inv_last _ _ _ Hi), (inv_last _ _ _ Hi').
    rewrite Hlast by done. done.
Qed.
End input_links.

(** ** The group with its links *)

Record LogGroup (S M : Type) := mkLogGroup {
  lg_group : Group S M;
  lg_links : list Link;
}.
#[global] Arguments mkLogGroup {S M}.
#[global] Arguments lg_group {S M}.
#[global] Arguments lg_links {S M}.

Section group.
Context {S M : Type} `{LogStorageLaws S} `{!LogStorageReliable (St := S)}.
Context `{Hms : RaftMetaStorage M} `{!RaftMetaLaws M} (fl : RaftFlags).
Implicit Types (w : Group S M) (s : Server S M) (n : Node S M) (P : list Link) (g : LogGroup S M).

(** A server comes up with a log of known links, and a snapshot that fits. *)
Definition start_log_ok P (ie : InitEnv S) : Prop :=
  ∀ st cm, ie_log_storage ie = (0, st, cm) →
    ∃ l q, stored_log P st cm l q ∧ ∀ sm, start_snapshot ie = Some sm → stored_snapshot l q sm.

Definition action_log_ok g (a : Action S) : Prop :=
  match a with
  | ActInput k _ i =>
      ∀ s n, g_servers (lg_group g) !! k = Some s → sv_life s = Up n → input_log_ok (lg_links g) n i
  | ActStart _ _ _ _ ie _ => start_log_ok (lg_links g) ie
  | _ => True
  end.

Definition sv_links s : list Link :=
  match sv_life s with Up n => lm_links (n_log_manager n) | Down _ => [] end.

(** The run goes on with every link that a log of a server now has. *)
Inductive lrun : LogGroup S M → list (Action S) → LogGroup S M → Prop :=
  | lrun_nil g : lrun g [] g
  | lrun_cons g a w' acts g' :
      wexec fl (lg_group g) a = Some w' → action_log_ok g a →
      lrun (mkLogGroup w' (lg_links g ++ (g_servers w' ≫= sv_links))) acts g' → lrun g (a :: acts) g'.

(** ** The invariant *)

(** Server [s] may have made the link [x]: if it is still in that term it does
    not stand, and if it leads its log has it. *)
Definition may_own s (x : Link) : Prop :=
  match sv_life s with
  | Up n =>
      n_current_term n = term (link_id x) →
      n_state n ≠ STATE_CANDIDATE ∧
      (leading (n_state n) → index (link_id x) ≤ lm_last_log_index (n_log_manager n))
  | Down _ => True
  end.

(** Server [s] led in the term of the link, with a vote for itself. *)
Definition created w s (x : Link) : Prop :=
  (term (link_id x), sv_key s) ∈ omap ev_cast (sv_events s) ∧
  (∃ p b, peer_key p = sv_key s ∧ (term (link_id x), p, b) ∈ g_elected w) ∧ may_own s x.

Definition server_log_ok P s : Prop :=
  match sv_life s with
  | Up n => (∃ l L, lm_linked P (n_log_manager n) l L) ∧ lead_cast (core (sv_past s) n) ∧ term_ok (core (sv_past s) n)
  | Down m => 0 ≤ (ms_durable m).1
  end.

Record log_inv w P : Prop := mkLogInv {
  li_unique : links_unique P;
  li_servers s : s ∈ g_servers w → server_log_ok P s;
  li_created x : x ∈ P → ∃ s, s ∈ g_servers w ∧ created w s x;
}.

(** Any two elections of one term share a configuration. *)
Definition elections_share w : Prop :=
  ∀ t p1 p2 b1 b2, (t, p1, b1) ∈ g_elected w → (t, p2, b2) ∈ g_elected w →
    ∃ c, ballot_wf b1 ∧ ballot_wf b2 ∧ votes_in b1 c ∧ votes_in b2 c.

Lemma server_log_ok_mono P P' s : P ⊆ P' → server_log_ok P s → server_log_ok P' s.
Proof.
  intros Hs. unfold server_log_ok. destruct (sv_life s) as [n|m]; [|done].
  intros ((l & L & Hi & Hl) & Hrest). split; [|done]. exists l, L. split; [done|]. by eapply linked_mono.
Qed.

(** The links may be listed in any way. *)
Lemma log_inv_equiv w P P' : P ⊆ P' → P' ⊆ P → log_inv w P → log_inv w P'.
Proof.
  intros H1' H2' [Hu Hs Hc]. constructor.
  - intros x y Hx%H2' Hy%H2'. by apply Hu.
  - intros s Hin. by eapply server_log_ok_mono, Hs.
  - intros x Hx%H2'. by apply Hc.
Qed.

Lemma key_inj w s1 s2 : group_inv w → s1 ∈ g_servers w → s2 ∈ g_servers w → sv_key s1 = sv_key s2 → s1 = s2.
Proof.
  intros [Hk _ _ _] [i Hi]%list_elem_of_lookup [j Hj]%list_elem_of_lookup Heq.
  assert (i = j) as ->; [|congruence]. eapply NoDup_lookup; [exact Hk|..]; rewrite list_lookup_fmap.
  - rewrite Hi. done.
  - rewrite Hj. cbn. by rewrite Heq.
Qed.

Lemma elected_set_server w k s x : x ∈ g_elected w → x ∈ g_elected (set_server w k s).
Proof. intros Hx. apply elem_of_app. by left. Qed.

(** One server changes, and may add links. *)
Lemma log_inv_set w P k s s' new :
  group_inv w → group_inv (set_server w k s') → elections_share (set_server w k s') → log_inv w P →
  g_servers w !! k = Some s → sv_key s' = sv_key s →
  omap ev_cast (sv_events s) ⊆ omap ev_cast (sv_events s') → server_log_ok (P ++ new) s' →
  (∀ x, created w s x → may_own s' x) → links_unique new →
  (∀ y, y ∈ new → created (set_server w k s') s' y) →
  (∀ x y, y ∈ new → link_id x = link_id y → created w s x → False) →
  log_inv (set_server w k s') (P ++ new).
Proof.
  intros HW HW' Hsh [Hu Hs Hc] Hk Hkey Hsub Hok Hown Hun Hnew Hdis.
  assert (s ∈ g_servers w) as Hin by (by eapply list_elem_of_lookup_2).
  assert (s' ∈ g_servers (set_server w k s')) as Hin'.
  { apply list_elem_of_lookup. exists k. apply list_lookup_insert_eq. by eapply lookup_lt_Some. }
  assert (∀ x y, x ∈ P → y ∈ new → link_id x = link_id y → False) as Hxy.
  { intros x y Hx Hy Hid. destruct (Hc x Hx) as (s0 & Hin0 & Hcr0). pose proof Hcr0 as (_ & (p0 & b0 & Hp0 & He0) & _).
    destruct (Hnew y Hy) as (_ & (p & b & Hp & He) & _). rewrite <-Hid in He. apply (elected_set_server w k s') in He0.
    destruct (Hsh _ _ _ _ _ He0 He) as (c & Hw1 & Hw2 & Hv1 & Hv2).
    pose proof (elected_unique _ _ _ _ _ _ _ HW' He0 He Hw1 Hw2 Hv1 Hv2) as Heq%peer_eq_key.
    assert (s0 = s) as -> by (eapply key_inj; [exact HW|done|done|congruence]). by eapply (Hdis x y). }
  constructor.
  - intros x y [Hx|Hx]%elem_of_app [Hy|Hy]%elem_of_app Hid; [by apply Hu|by destruct (Hxy x y)| |by apply Hun].
    by destruct (Hxy y x).
  - intros x [->|Hx]%elem_of_set_server; [done|]. eapply server_log_ok_mono; [|by apply Hs].
    intros y Hy. apply elem_of_app. by left.
  - intros x [Hx|Hx]%elem_of_app; [|by exists s'; auto].
    destruct (Hc x Hx) as (s0 & Hin0 & Hcr0). destruct (decide (sv_key s0 = sv_key s)) as [Heq|Hne].
    + assert (s0 = s) as -> by (by apply (key_inj w)). exists s'. split; [done|]. pose proof Hcr0 as (Hcast & (p & b & Hp & He) & _). unfold created. rewrite Hkey.
      split_and!; [by apply Hsub| |by apply Hown]. exists p, b. split; [done|by apply elected_set_server].
    + exists s0. split.
      * apply list_elem_of_lookup in Hin0 as [j Hj]. apply list_elem_of_lookup. exists j. cbn.
        rewrite list_lookup_insert_ne; [done|]. intros ->. congruence.
      * destruct Hcr0 as (? & (p & b & ? & ?) & ?). split_and!; [done| |done].
        exists p, b. split; [done|by apply elected_set_server].
Qed.

(** ** The actions *)

Lemma cast_bound w s x :
  group_inv w → s ∈ g_servers w → created w s x →
  match sv_life s with
  | Up n => term (link_id x) ≤ n_current_term n
  | Down m => term (link_id x) ≤ (ms_durable m).1
  end.
Proof.
  intros HW Hin (Hcast & _ & _). pose proof (wi_servers w HW s Hin) as Hinv. unfold server_inv in Hinv.
  unfold sv_events in Hcast. destruct (sv_life s) as [n|m].
  - destruct Hinv as (_ & _ & HI). by destruct (ci_cast _ _ HI _ _ Hcast) as (_ & ? & _).
  - rewrite app_nil_r in Hcast. by destruct (mi_cast _ _ Hinv _ _ Hcast) as (_ & ? & _).
Qed.

(** What a server owns it still owns after core steps, if the log of a leader
    did not get shorter. *)
Lemma may_own_steps w s x G c n' :
  core_steps G c (core (sv_past s) n') → group_inv w → s ∈ g_servers w → created w s x →
  (match sv_life s with
   | Up n => c = core (sv_past s) n ∧ (leading (n_state n) → leading (n_state n') →
               lm_last_log_index (n_log_manager n) ≤ lm_last_log_index (n_log_manager n'))
   | Down m => (ms_durable m).1 ≤ c_term c ∧ c_state c = STATE_UNINITIALIZED
   end) →
  may_own (mkServer (sv_id s) (sv_past s) (Up n')) x.
Proof.
  intros Hs HW Hin Hcr Hl. pose proof (cast_bound w s x HW Hin Hcr) as Hb. destruct Hcr as (_ & _ & Hown).
  destruct (core_steps_settled _ _ _ Hs) as [Hle Hset]. cbn in Hle. unfold may_own in *. cbn. intros Ht.
  destruct (sv_life s) as [n|m].
  - destruct Hl as [-> Hl]. cbn in Hle, Hset. destruct (Hown ltac:(lia)) as [Hc Hi].
    destruct (Hset ltac:(lia) Hc) as [Hc' Hl']. split; [done|]. intros Hld. specialize (Hi (Hl' Hld)).
    specialize (Hl (Hl' Hld) Hld). lia.
  - destruct Hl as [Hd Hst]. cbn in Hset. rewrite Hst in Hset. destruct (Hset ltac:(lia)) as [Hc' Hl']; [done|].
    split; [done|]. intros Hld. destruct (Hl' Hld); done.
Qed.

Lemma input_step_inv w P k s n e i u n' :
  let s' := mkServer (sv_id s) (sv_past s) (Up n') in
  group_ok w → group_inv w → group_inv (set_server w k s') → elections_share (set_server w k s') →
  log_inv w P → g_servers w !! k = Some s → sv_life s = Up n → deliverable w n i → input_log_ok P n i →
  node_step fl e i n = Some (u, n') → omap (ev_failed (sv_key s)) (n_out n') = [] →
  ∃ new, new ⊆ lm_links (n_log_manager n') ∧ log_inv (set_server w k s') (P ++ new).
Proof.
  intros s' Hok HW HW' Hsh HL Hk El Hd Hil Hr Hf.
  assert (s ∈ g_servers w) as Hin by (by eapply list_elem_of_lookup_2).
  pose proof (wi_servers w HW s Hin) as Hinv. unfold server_inv in Hinv. rewrite El in Hinv.
  destruct Hinv as (Hself & Hcand & HI).
  pose proof (li_servers w P HL s Hin) as Hsl. unfold server_log_ok in Hsl. rewrite El in Hsl.
  destruct Hsl as ((l & L & Hm) & Hlc & Hto).
  assert (core_steps (voted_in (g_servers w) (sv_key s)) (core (sv_past s) n) (core (sv_past s) n')) as Hs.
  { eapply (input_core_steps fl _ w s n e i u n'); [done|by apply Hok|done| |done]. intros t p. by apply answered_voted. }
  pose proof (core_steps_self _ _ _ Hs) as Hself'. rewrite Hself in Hself'.
  assert (lead_cast (core (sv_past s) n')) as Hlc'.
  { eapply lead_cast_steps; [exact Hs|done| |done]. cbn in Hself' |- *. by rewrite Hself'. }
  assert (term_ok (core (sv_past s) n')) as Hto' by (eapply term_ok_steps; [exact Hs|apply HI|done]).
  destruct (input_links P n n' i l L Hm Hil (node_step_change fl e i n u n' Hr)) as (new & Hm' & Hsub & Hnl & [Hun Hfr] & Hlast).
  { intros Hl. apply Hto'. by right. }
  exists new. split; [done|]. apply (log_inv_set w P k s); try done.
  - cbn. unfold sv_events. rewrite El. exact (core_steps_cast _ _ _ Hs).
  - intros x Hcr. apply (may_own_steps w s x _ _ n' Hs); [done..|]. by rewrite El.
  - intros y Hy. destruct Hnl as [->|Hl]; [by apply not_elem_of_nil in Hy|]. destruct (Hfr y Hy) as [Ht Hi].
    unfold created. rewrite Ht. split_and!.
    + specialize (Hlc' Hl). cbn in Hlc', Hself'. by rewrite Hself' in Hlc'.
    + exists (n_server_id n'), (vc_ballot (n_vote_ctx n')). split; [exact Hself'|]. cbn. apply elem_of_app. right.
      rewrite bool_decide_eq_true_2 by exact Hl. left.
    + cbn. intros _. split; [by destruct Hl as [->| ->]|]. intros _. apply Hi.
  - intros x y Hy Hid Hcr. destruct Hnl as [->|Hl]; [by apply not_elem_of_nil in Hy|]. destruct (Hfr y Hy) as [Ht Hi].
    pose proof (cast_bound w s x HW Hin Hcr) as Hb. destruct Hcr as (_ & _ & Hown). unfold may_own in Hown.
    rewrite El in Hb, Hown. destruct (core_steps_settled _ _ _ Hs) as [Hle Hset]. cbn in Hle, Hset.
    rewrite <-Hid in Ht, Hi. destruct (Hown ltac:(lia)) as [Hc Hix]. destruct (Hset ltac:(lia) Hc) as [_ Hl'].
    specialize (Hix (Hl' Hl)). lia.
Qed.

(** A server that is down afterwards makes no link. *)
Lemma down_step_inv w P k s s' m' :
  group_inv w → group_inv (set_server w k s') → elections_share (set_server w k s') → log_inv w P →
  g_servers w !! k = Some s → sv_key s' = sv_key s → omap ev_cast (sv_events s) ⊆ omap ev_cast (sv_events s') →
  sv_life s' = Down m' → 0 ≤ (ms_durable m').1 → log_inv (set_server w k s') P.
Proof.
  intros HW HW' Hsh HL Hk Hkey Hsub El Hd. rewrite <-(app_nil_r P).
  apply (log_inv_set w P k s); try done.
  - unfold server_log_ok. by rewrite El.
  - intros x _. unfold may_own. by rewrite El.
  - by intros x y ?%not_elem_of_nil.
  - by intros y ?%not_elem_of_nil.
  - by intros x y ?%not_elem_of_nil.
Qed.

(** Terms of a server that starts. *)
Lemma start_terms G s m e group_id options ie sys rc n :
  ms_wf m → sv_key s ≠ key0 → 0 ≤ (ms_durable m).1 →
  init fl e group_id (sv_id s) options ie (ms_reopen m) sys = Some (rc, Some n) →
  0 ≤ (ms_durable (n_meta_storage n)).1 ∧
  (rc = 0 → ∃ c, c_self c = sv_key s ∧ fresh (sv_past s) c ∧ core_steps G c (core (sv_past s) n) ∧
     (ms_durable m).1 ≤ c_term c ∧ durable_next (ms_durable m) (ms_durable (c_meta c)) ∧
     term_ok (core (sv_past s) n)).
Proof.
  intros Hwf Hkey Hd Hr.
  destruct (init_rel fl e G (sv_past s) _ _ _ _ m _ _ _ Hwf Hkey Hr) as (c & Hself & _ & Hwfc & Hdn & [[-> Hrc]|[Hfr Hs]]).
  - split; [|done]. destruct Hdn as [Hdn|[Hdn _]]; cbn in Hdn; [by rewrite Hdn|lia].
  - assert ((ms_durable m).1 ≤ (ms_durable (c_meta c)).1) as Hdc by (destruct Hdn as [->|[? _]]; lia).
    assert (term_ok (core (sv_past s) n)) as Hto.
    { eapply term_ok_steps; [exact Hs|apply Hfr|]. unfold term_ok, durable_term. rewrite (fr_term _ _ Hfr), (fr_state _ _ Hfr).
      split_and!; [lia..|]. by intros [|[]]. }
    split; [apply Hto|]. intros _. exists c. split_and!; try done. by rewrite (fr_term _ _ Hfr).
Qed.

Lemma start_links P e group_id sid options ie meta sys rc n :
  start_log_ok P ie → init fl e group_id sid options ie meta sys = Some (rc, Some n) →
  ∃ l L, lm_linked P (n_log_manager n) l L.
Proof.
  intros Hok (st & cm & m & Hst & Hm & Hck & Hsn)%init_manager. destruct (Hok st cm Hst) as (l & q & Hl & Hs).
  exists l. destruct (start_snapshot ie) as [sm|].
  - eexists. eapply start_snapshot_linked; [done|by apply Hs|done..].
  - rewrite Hsn in *. exists l. by eapply start_linked.
Qed.

Lemma start_step_inv w P k s m e group_id options ie sys n :
  let s' := mkServer (sv_id s) (sv_past s) (Up n) in
  group_ok w → group_inv w → group_inv (set_server w k s') → elections_share (set_server w k s') →
  log_inv w P → g_servers w !! k = Some s → sv_life s = Down m → start_log_ok P ie →
  init fl e group_id (sv_id s) options ie (ms_reopen m) sys = Some (0, Some n) →
  omap (ev_failed (sv_key s)) (n_out n) = [] → log_inv (set_server w k s') P.
Proof.
  intros s' Hok HW HW' Hsh HL Hk El Hsl Hr Hf.
  assert (s ∈ g_servers w) as Hin by (by eapply list_elem_of_lookup_2).
  destruct (Hok s Hin) as [Hkey Hlife]. rewrite El in Hlife.
  pose proof (wi_servers w HW s Hin) as Hinv. unfold server_inv in Hinv. rewrite El in Hinv.
  pose proof (li_servers w P HL s Hin) as Hd. unfold server_log_ok in Hd. rewrite El in Hd.
  destruct (start_terms (voted_in (g_servers w) (sv_key s)) s m _ _ _ _ _ _ _ Hlife Hkey Hd Hr) as
    (_ & (c & Hself & Hfr & Hs & Hle & Hdn & Hto)); [done|].
  pose proof (core_steps_self _ _ _ Hs) as Hself'. rewrite Hself in Hself'. cbn in Hself'.
  rewrite <-(app_nil_r P). apply (log_inv_set w P k s); try done.
  - unfold sv_events. rewrite El, app_nil_r. cbn. rewrite omap_app. set_solver.
  - unfold server_log_ok. cbn. rewrite app_nil_r. split_and!; [by eapply start_links| |done].
    eapply lead_cast_steps; [exact Hs| |cbn; by rewrite Hself'|].
    + eapply core_inv_fresh; [exact Hinv|by rewrite Hself|done|done].
    + unfold lead_cast. rewrite (fr_state _ _ Hfr). by intros [].
  - intros x Hcr. apply (may_own_steps w s x _ _ n Hs); [done..|]. rewrite El. split; [done|apply Hfr].
  - by intros x y ?%not_elem_of_nil.
  - by intros y ?%not_elem_of_nil.
  - by intros x y ?%not_elem_of_nil.
Qed.

Lemma sv_links_up w k s s' n :
  g_servers w !! k = Some s → sv_life s' = Up n →
  lm_links (n_log_manager n) ⊆ (g_servers (set_server w k s') ≫= sv_links).
Proof.
  intros Hk El x Hx. apply list_elem_of_bind. exists s'. unfold sv_links. rewrite El. split; [done|].
  apply list_elem_of_lookup. exists k. apply list_lookup_insert_eq. by eapply lookup_lt_Some.
Qed.

Lemma change_facts w k s s' :
  group_ok w → group_inv w → g_servers w !! k = Some s → change fl w s s' → self_votes_stored (set_server w k s') →
  sv_key s' = sv_key s ∧ omap (ev_failed (sv_key s)) (sv_events s') = [] ∧
  omap ev_cast (sv_events s) ⊆ omap ev_cast (sv_events s').
Proof.
  intros Hok HW Hk Hch Hst. assert (s ∈ g_servers w) as Hin by (by eapply list_elem_of_lookup_2).
  destruct (change_ok fl w s s' (Hok s Hin) Hch) as (_ & Hkey & _).
  assert (omap (ev_failed (sv_key s)) (sv_events s') = []) as Hf.
  { rewrite <-Hkey. apply Hst. apply list_elem_of_lookup. exists k. apply list_lookup_insert_eq. by eapply lookup_lt_Some. }
  split_and!; [done..|]. exact (proj1 (change_inv fl w s s' HW Hin (Hok s Hin) Hch Hf)).
Qed.

(** The term on the medium of a server after a change. *)
Lemma change_durable w P s s' m' :
  group_ok w → group_inv w → log_inv w P → s ∈ g_servers w → change fl w s s' → sv_life s' = Down m' →
  0 ≤ (ms_durable m').1.
Proof.
  intros Hok HW HL Hin Hch El'. pose proof (li_servers w P HL s Hin) as Hsl. unfold server_log_ok in Hsl.
  pose proof (wi_servers w HW s Hin) as Hinv. unfold server_inv in Hinv. destruct (Hok s Hin) as [Hkey Hlife].
  destruct Hch as [n e i u n' El Hd Hr|n e i u n' sent El Hd Hr|n El
    |m e gi o ie sys n El Hr|m e gi o ie sys n rc El Hr]; rewrite El in *; cbn in El'; try done; injection El' as <-.
  - destruct Hsl as (_ & _ & Hto). destruct Hinv as (Hself & _ & HI).
    assert (core_steps (voted_in (g_servers w) (sv_key s)) (core (sv_past s) n) (core (sv_past s) n')) as Hs.
    { eapply (input_core_steps fl _ w s n e i u n'); [done|by apply Hok|done| |done]. intros t p. by apply answered_voted. }
    destruct (term_ok_steps _ _ _ Hs (ci_wf _ _ HI) Hto) as (_ & Hd' & _). exact Hd'.
  - destruct Hsl as (_ & _ & _ & Hd & _). exact Hd.
  - by destruct (start_terms (λ _ _, True) s m _ _ _ _ _ _ _ Hlife Hkey Hsl Hr).
Qed.

(** An action keeps the invariant, with the links that a leader made. *)
Lemma action_inv w P a w' :
  group_ok w → group_inv w → log_inv w P → wexec fl w a = Some w' → action_log_ok (mkLogGroup w P) a →
  self_votes_stored w' → elections_share w' →
  ∃ new, new ⊆ (g_servers w' ≫= sv_links) ∧ log_inv w' (P ++ new).
Proof.
  intros Hok HW HL Hx Hal Hst Hsh. pose proof (wexec_inv fl w a w' Hok HW Hx Hst) as HW'.
  assert (∀ w1, log_inv w1 P → ∃ new, new ⊆ (g_servers w1 ≫= sv_links) ∧ log_inv w1 (P ++ new)) as Hnone.
  { intros w1 HL1. exists []. rewrite app_nil_r. split; [apply list_subseteq_nil|done]. }
  assert (∀ k s s' m', g_servers w !! k = Some s → change fl w s s' → w' = set_server w k s' → sv_life s' = Down m' →
            ∃ new, new ⊆ (g_servers w' ≫= sv_links) ∧ log_inv w' (P ++ new)) as Hdown.
  { intros k s s' m' Hk Hch -> El'. destruct (change_facts w k s s') as (Hkey & _ & Hsub); [done..|]. apply Hnone.
    eapply down_step_inv; try done. eapply change_durable; [done..| |done|done]. by eapply list_elem_of_lookup_2. }
  destruct a as [k e i|k e i sent|k|k e gi o ie sys]; cbn in Hx;
    apply bind_Some in Hx as (s & Hk & Hx); destruct (sv_life s) as [n|m] eqn:El; try done.
  - apply bind_Some in Hx as (? & Hd%CHECK_Some & Hx). apply bind_Some in Hx as ([u n'] & Hr & [= <-]).
    destruct (change_facts w k s (mkServer (sv_id s) (sv_past s) (Up n'))) as (_ & Hf & _); try done.
    { by eapply ch_input. }
    apply failed_app in Hf as [_ Hf].
    destruct (input_step_inv w P k s n e i u n') as (new & Hsub & HL'); try done; [by apply (Hal s n)|].
    exists new. split; [|done]. etrans; [exact Hsub|]. by eapply (sv_links_up w k s).
  - apply bind_Some in Hx as (? & Hd%CHECK_Some & Hx). apply bind_Some in Hx as ([u n'] & Hr & [= <-]).
    eapply Hdown; [done| |done|done]. by eapply ch_die.
  - injection Hx as <-. eapply Hdown; [done| |done|done]. by eapply ch_crash.
  - apply bind_Some in Hx as ([rc [n|]] & Hr & [= <-]); [|by apply Hnone]. case_decide as Hrc.
    + subst rc. destruct (change_facts w k s (mkServer (sv_id s) (sv_past s) (Up n))) as (_ & Hf & _); try done.
      { by eapply ch_start. }
      apply failed_app in Hf as [_ Hf]. apply Hnone. by eapply start_step_inv.
    + eapply Hdown; [done| |done|done]. by eapply ch_start_fail.
Qed.

(** The links a log has are known. *)
Lemma sv_links_known w P : log_inv w P → (g_servers w ≫= sv_links) ⊆ P.
Proof.
  intros HL x (s & Hx & Hin)%list_elem_of_bind. pose proof (li_servers w P HL s Hin) as Hsl.
  unfold server_log_ok in Hsl. unfold sv_links in Hx. destruct (sv_life s) as [n|m]; [|by apply not_elem_of_nil in Hx].
  destruct Hsl as ((l & L & Hm) & _). by eapply lm_links_known.
Qed.

(** ** Runs *)

Lemma wexec_elected w a w' x : wexec fl w a = Some w' → x ∈ g_elected w → x ∈ g_elected w'.
Proof. intros [->|(k & s & s' & _ & _ & ->)]%wexec_change; [done|]. apply elected_set_server. Qed.

Lemma lrun_elected g acts g' x : lrun g acts g' → x ∈ g_elected (lg_group g) → x ∈ g_elected (lg_group g').
Proof. induction 1 as [|g a w' acts g' Hx _ _ IH]; [done|]. intros Hin. by eapply IH, wexec_elected. Qed.

Lemma lrun_wrun g acts g' : lrun g acts g' → wrun fl (lg_group g) acts = Some (lg_group g').
Proof. induction 1 as [|g a w' acts g' Hx _ _ IH]; [done|]. cbn. by rewrite Hx. Qed.

Lemma lrun_inv g acts g' :
  lrun g acts g' → group_ok (lg_group g) → group_inv (lg_group g) → log_inv (lg_group g) (lg_links g) →
  self_votes_stored (lg_group g') → elections_share (lg_group g') → log_inv (lg_group g') (lg_links g').
Proof.
  induction 1 as [|g a w' acts g' Hx Hal Hr IH]; [done|]. intros Hok HW HL Hst Hsh.
  destruct (wexec_ok fl _ _ _ Hok Hx) as [Hok' _].
  assert (self_votes_stored w') as Hst' by (eapply (wrun_ok fl w' acts); [done|by apply (lrun_wrun _ _ _ Hr)|done]).
  assert (elections_share w') as Hsh'.
  { intros t p1 p2 b1 b2 H1' H2'. eapply Hsh; by apply (lrun_elected _ _ _ _ Hr). }
  apply IH; try done; [by apply (wexec_inv fl (lg_group g) a w')|]. destruct g as [w P]. cbn [lg_group lg_links] in *.
  destruct (action_inv w P a w' Hok HW HL Hx Hal Hst' Hsh') as (new & Hsub & HL').
  eapply log_inv_equiv; [..|exact HL'].
  - set_solver.
  - pose proof (sv_links_known _ _ HL'). set_solver.
Qed.

(** A group before its first start, whose terms are not negative. *)
Definition logs_unstarted g : Prop :=
  never_started (lg_group g) ∧ lg_links g = [] ∧
  ∀ s m, s ∈ g_servers (lg_group g) → sv_life s = Down m → 0 ≤ (ms_durable m).1.

Lemma logs_unstarted_inv g : logs_unstarted g → log_inv (lg_group g) (lg_links g).
Proof.
  intros ((_ & _ & Hs) & -> & Ht). constructor.
  - by intros x y ?%not_elem_of_nil.
  - intros s Hin. destruct (Hs s Hin) as (_ & _ & m & El & _). unfold server_log_ok. rewrite El. by eapply Ht.
  - by intros x ?%not_elem_of_nil.
Qed.

(** ** Theorems *)

(** [get_entry(i)] of the node's log manager gives the entry. *)
Definition reads n (i : Z) (en : LogEntry) : Prop := ∃ m, lm_get_entry (n_log_manager n) i = Some (m, Some en).

Lemma reads_log n l L i en : lm_inv (n_log_manager n) l L → reads n i en → log_get L i = Some en.
Proof.
  intros Hi [m Hm]. destruct (log_get L i) as [en'|] eqn:E.
  - rewrite (get_entry_in _ _ _ _ _ Hi E) in Hm. by injection Hm as _ ->.
  - by rewrite (get_entry_out _ _ _ _ Hi E) in Hm.
Qed.

(** C3. Log matching.  Start a group whose media hold no vote and let its servers
    handle inputs in any order, elect leaders, append, replicate, install
    snapshots, crash and start again.  Any two servers whose logs hold an entry
    with the same index and the same term hold the same entries at every index
    up to it that both still have.

    The assumptions on the run are these.  The operations of the log storages
    succeed.  No store of a server's vote for itself failed
    ([self_votes_stored]), and the elections of a term share a configuration
    ([elections_share]).  And, by [action_log_ok]: the entries of an
    AppendEntries request follow each other the way they did in some log of the
    group ([request_known], what a replicator sends from its leader's log); an
    entry that leaves a manager's memory is on its storage and no queued
    operation removes it ([drop_safe], which the code does not ensure, see
    [stale_disk_id_reads_replaced_entry]); a snapshot ends inside what was
    applied or is newer, and on a leader ends in its log; a server starts on a
    log made of links of the group, and with the snapshot that goes before it. *)
Theorem log_matching (g0 g : LogGroup S M) (acts : list (Action S)) (s1 s2 : Server S M) (n1 n2 : Node S M)
    (i j : Z) (e1 e2 f1 f2 : LogEntry)
    (Hstart : logs_unstarted g0) (Hrun : lrun g0 acts g) (Hstored : self_votes_stored (lg_group g))
    (Hshare : elections_share (lg_group g))
    (Hs1 : s1 ∈ g_servers (lg_group g)) (Hs2 : s2 ∈ g_servers (lg_group g))
    (Hu1 : sv_life s1 = Up n1) (Hu2 : sv_life s2 = Up n2)
    (He1 : reads n1 i e1) (He2 : reads n2 i e2) (Hterm : term (id e1) = term (id e2))
    (Hj : j ≤ i) (Hf1 : reads n1 j f1) (Hf2 : reads n2 j f2) :
  f1 = f2.
Proof.
  pose proof Hstart as (Hns & _ & _). destruct (never_started_inv _ Hns) as [Hok HW].
  pose proof (lrun_inv _ _ _ Hrun Hok HW (logs_unstarted_inv _ Hstart) Hstored Hshare) as [Hu Hs _].
  pose proof (Hs s1 Hs1) as H1'. pose proof (Hs s2 Hs2) as H2'. unfold server_log_ok in H1', H2'.
  rewrite Hu1 in H1'. rewrite Hu2 in H2'. destruct H1' as ((l1 & L1 & Hi1 & Hl1) & _).
  destruct H2' as ((l2 & L2 & Hi2 & Hl2) & _).
  eapply (linked_agree _ _ _ L1 _ _ L2 i j e1 e2); try done; try (by eapply inv_wf); by eapply reads_log.
Qed.

(** C4. Entries come from leaders.  In the runs of [log_matching], under the same
    assumptions on storages, votes, configurations, requests, memory, snapshots
    and starts, every entry a server can read was appended under a term in which some server of the group won an
    election, and is unique to that term and index: whoever reads an entry with
    the same index and term, at any server, reads the same entry. *)
Theorem entries_from_leaders (g0 g : LogGroup S M) (acts : list (Action S)) (s : Server S M) (n : Node S M)
    (i : Z) (en : LogEntry)
    (Hstart : logs_unstarted g0) (Hrun : lrun g0 acts g) (Hstored : self_votes_stored (lg_group g))
    (Hshare : elections_share (lg_group g))
    (Hs : s ∈ g_servers (lg_group g)) (Hu : sv_life s = Up n) (He : reads n i en) :
  (∃ p b, (term (id en), p, b) ∈ g_elected (lg_group g)) ∧ index (id en) = i ∧
  ∀ s' n' en', s' ∈ g_servers (lg_group g) → sv_life s' = Up n' → reads n' i en' → id en' = id en → en' = en.
Proof.
  pose proof Hstart as (Hns & _ & _). destruct (never_started_inv _ Hns) as [Hok HW].
  pose proof (lrun_inv _ _ _ Hrun Hok HW (logs_unstarted_inv _ Hstart) Hstored Hshare) as [Huq Hsv Hcr].
  assert (∀ s n en, s ∈ g_servers (lg_group g) → sv_life s = Up n → reads n i en →
            index (id en) = i ∧ ∃ p, (p, en) ∈ lg_links g) as Hknown.
  { intros s1 n1 en1 Hin Hu1 Hr1. pose proof (Hsv s1 Hin) as Hsl. unfold server_log_ok in Hsl. rewrite Hu1 in Hsl.
    destruct Hsl as ((l & L & Hi & [_ _ _ (q & Hq & _)]) & _). apply (reads_log _ l L) in Hr1; [|done].
    split; [by eapply log_get_index; [eapply inv_wf|]|]. exists (prev_term q L i). apply Hq.
    unfold log_get, zlookup in Hr1. case_decide; [done|]. by apply links_lookup. }
  destruct (Hknown s n en Hs Hu He) as [Hi (p & Hp)]. destruct (Hcr _ Hp) as (s0 & _ & _ & (p0 & b0 & _ & He0) & _).
  split_and!; [by exists p0, b0|done|]. intros s' n' en' Hin' Hu' Hr' Hid.
  destruct (Hknown s' n' en' Hin' Hu' Hr') as [_ (p' & Hp')]. by injection (Huq _ _ Hp' Hp Hid).
Qed.
End group.
