(* ===== verification/LogMatchingRuns.v ===== *)
(** * Runs of a group with logs

    The servers of ClusterRuns.v: one leads and appends, a second one gets part
    of its log, is elected and replaces the rest of the first one's log. *)

From Stdlib Require Import Ascii String.
From stdpp Require Import prelude gmap.
From S2P Require Import Prelude StdContainers Text Configuration Ballot ClosureQueue BallotBox PeerText.
From S2P Require Import ConfigurationManager LogStorage MemoryLog LogManager LogManagerSpec StateMonad Messages Lease.
From S2P Require Import FileSystem Protobuf MetaStorage RaftMeta AppendEntriesCache.
From S2P Require Import NodeState NodeVote NodeCore NodeLog NodeRun NodeStep Election Cluster ClusterRuns.
From S2P Require Import LogLink LogLinkOps NodeLogStep LogMatching.
Local Open Scope Z_scope.

#[local] Existing Instance wire_stable.
#[local] Existing Instance wire_stable_laws.

(** Entries on the wire. *)
Definition conf_meta (term : Z) : EntryMeta :=
  mkEntryMeta term ENTRY_TYPE_CONFIGURATION (run_text <$> [0%nat; 1%nat; 2%nat]) None [].
Definition data_meta (term len : Z) : EntryMeta := mkEntryMeta term ENTRY_TYPE_DATA [] (Some len) [].

(** Leader [k] of [term] sends entries to [j]. *)
Definition sends (k j : nat) (term prev_term prev : Z) (ems : list EntryMeta) (data : list Z) : RunAction :=
  input j (InAppendEntries (mkAppendEntriesRpc 0
    (mkAppendEntriesRequest [] (run_text k) (run_text j) term prev_term prev ems 0) data 0) false).

Definition applies (k : nat) (data : list Z) : RunAction :=
  input k (InApply [mkLogEntryAndClosure data None (-1)]).

(** Server 0 stands in [term]; the disk thread tells it its last log id. *)
Definition stands (k : nat) (term : Z) (ev : nat) : list RunAction :=
  [timeout_now k (term - 1); input k (InEnterLastLogId 0); input k InDiskStart; input k InDiskStep;
   input k InDiskStep; input k (InLogEvent ev); input k (InResume 0)].

(** The entries of the run. *)
Definition conf_entry (i term : Z) : LogEntry :=
  mkLogEntry ENTRY_TYPE_CONFIGURATION (mkLogId i term) (Some (run_peer <$> [0%nat; 1%nat; 2%nat])) None [].
Definition data_entry (i term : Z) (data : list Z) : LogEntry :=
  mkLogEntry ENTRY_TYPE_DATA (mkLogId i term) None None data.

(** Server [k] starts on a storage that holds the entries. *)
Definition starts_with (k : nat) (es : list LogEntry) : RunAction :=
  ActStart k run_env [] run_options
    (mkInitEnv true 0 true (0, ml_of (mkLog 1 es), mkCM (omap entry_conf es) (_snapshot cm_new)) 0 None true) [].

(** Server 1 leads term 2 and has three entries, of which server 0 has two.
    Server 0 leads term 3 with the vote of server 2.  Server 1 crashes, comes
    back with its three entries, and gets the first entry of server 0. *)
Definition log_run : list RunAction :=
  run_start ++ election 1 2 2 1 1 ++
  [applies 1 [7]; sends 1 0 2 0 0 [conf_meta 2; data_meta 2 1] [7]; applies 1 [9]] ++
  stands 0 3 1 ++
  [input 2 (InRequestVoteRequest (mkRequestVoteRequest [] (run_text 0) (run_text 2) 3 2 2 None))] ++ goes_on 2 ++
  [input 0 (InRequestVoteResponse (run_peer 2) 3 1 (mkRequestVoteResponse 3 true false 2 false));
   ActCrash 1; starts_with 1 [conf_entry 1 2; data_entry 2 2 [7]; data_entry 3 2 [9]];
   sends 0 1 3 2 2 [conf_meta 3] []].

(** ** The run is one of LogMatching.v *)

#[local] Instance entry_ok_dec e : Decision (entry_ok e).
Proof. unfold entry_ok. apply _. Defined.

Abbreviation RunLogGroup := (LogGroup MemoryLogStorage FileBasedSingleMetaStorage).

(** The conditions of [action_log_ok] on the actions of the run, decidably. *)
Definition request_checked (P : list Link) (rpc : AppendEntriesRpc) : Prop :=
  let request := rpc_request rpc in
  match parse_entries (ae_prev_log_index request) (ae_entries request) (rpc_attachment rpc) with
  | Some es =>
      es = [] ∨
      (contiguous (ae_prev_log_index request + 1) es ∧ Forall entry_ok es ∧
       (ae_prev_log_term request ≠ 0 ∨ ae_prev_log_index request = 0) ∧
       Forall (λ x, x ∈ P) (links (ae_prev_log_term request) es))
  | None => True
  end.

Definition start_checked (P : list Link) (ie : InitEnv MemoryLogStorage) : Prop :=
  let '(_, st, cm) := ie_log_storage ie in
  let l := mkLog 1 (ml_log_entry_data st) in
  st = ml_of l ∧ log_wf l ∧ Forall entry_ok (lents l) ∧ _configurations cm = omap entry_conf (lents l) ∧
  Forall (λ x, x ∈ P) (links 0 (lents l)) ∧ start_snapshot ie = None.

#[local] Instance MemoryLogStorage_eq_dec : EqDecision MemoryLogStorage.
Proof. solve_decision. Defined.
#[local] Instance ConfigurationEntry_eq_dec : EqDecision ConfigurationEntry.
Proof. solve_decision. Defined.
#[local] Instance SnapshotMeta_eq_dec : EqDecision SnapshotMeta.
Proof. solve_decision. Defined.
#[local] Instance request_checked_dec P rpc : Decision (request_checked P rpc).
Proof. unfold request_checked. destruct (parse_entries _ _ _); apply _. Defined.
#[local] Instance start_checked_dec P ie : Decision (start_checked P ie).
Proof. unfold start_checked, log_wf. destruct (ie_log_storage ie) as [[? ?] ?]. apply _. Defined.

Lemma request_checked_known P rpc : request_checked P rpc → request_known P rpc.
Proof.
  unfold request_checked, request_known. cbn zeta. intros Hc es Hes Hne. rewrite Hes in Hc.
  destruct Hc as [->|(? & ? & ? & Hl)]; [done|]. split_and!; [done..|].
  rewrite Forall_forall in Hl. exact Hl.
Qed.

Lemma start_checked_ok P ie : start_checked P ie → start_log_ok P ie.
Proof.
  intros Hc st cm Hst. unfold start_checked in Hc. rewrite Hst in Hc. cbn zeta in Hc.
  destruct Hc as (Hr & Hw & He & Hcf & Hl & Hsn). exists (mkLog 1 (ml_log_entry_data st)), 0. split.
  - constructor; cbn; try done. rewrite Forall_forall in Hl. exact Hl.
  - intros sm. by rewrite Hsn.
Qed.

Definition action_checked (g : RunLogGroup) (a : RunAction) : Prop :=
  match a with
  | ActInput _ _ (InAppendEntries rpc _) => request_checked (lg_links g) rpc
  | ActInput _ _ (InSetApplied _ | InDiskEnd | InSetSnapshot _) => False
  | ActStart _ _ _ _ ie _ => start_checked (lg_links g) ie
  | _ => True
  end.

#[local] Instance action_checked_dec g a : Decision (action_checked g a).
Proof. unfold action_checked. destruct a; try destruct i; apply _. Defined.

Lemma action_checked_ok g a : action_checked g a → action_log_ok g a.
Proof.
  destruct a as [k e i|k e i sent|k|k e gi o ie sys]; cbn; try done; [|apply start_checked_ok].
  intros Hc s n _ _. destruct i; try done. by apply request_checked_known.
Qed.

Fixpoint crun (g : RunLogGroup) (acts : list RunAction) : option RunLogGroup :=
  match acts with
  | [] => Some g
  | a :: acts' =>
      CHECK (action_checked g a);;
      w' ← wexec run_flags (lg_group g) a;
      crun (mkLogGroup w' (lg_links g ++ (g_servers w' ≫= sv_links))) acts'
  end.

Lemma crun_lrun g acts g' : crun g acts = Some g' → lrun run_flags g acts g'.
Proof.
  revert g. induction acts as [|a acts IH]; intros g Hr; cbn in Hr; [injection Hr as <-; constructor|].
  apply CHECK_bind_Some in Hr as [Hc Hr]. apply bind_Some in Hr as (w' & Hw & Hr).
  econstructor; [exact Hw|by apply action_checked_ok|by apply IH].
Qed.

Definition log_group : RunLogGroup := mkLogGroup (run_group (λ _, [])) [].

Lemma log_group_unstarted : logs_unstarted log_group.
Proof.
  split_and!; [apply run_never_started|done|]. intros s m Hin Hl.
  apply list_elem_of_fmap in Hin as (k & -> & _). injection Hl as <-. vm_compute. discriminate.
Qed.

(** ** What the theorems say of it *)

(** The group after the run. *)
Definition log_end : RunLogGroup := default log_group (crun log_group log_run).

Lemma log_end_run : lrun run_flags log_group log_run log_end.
Proof.
  apply crun_lrun. unfold log_end. destruct (crun log_group log_run) as [g|] eqn:E; [done|by vm_compute in E].
Qed.

Lemma log_end_stored : self_votes_stored (lg_group log_end).
Proof.
  assert (Forall (λ s, omap (ev_failed (sv_key s)) (sv_events s) = []) (g_servers (lg_group log_end))) as Hf.
  { apply (bool_decide_eq_true_1 _). vm_compute. reflexivity. }
  rewrite Forall_forall in Hf. exact Hf.
Qed.

Lemma log_end_share : elections_share (lg_group log_end).
Proof.
  assert (Forall (λ x, peer_id <$> bl_peers x.2 = _peers run_conf ∧ length (bl_old_peers x.2) = 0%nat)
            (g_elected (lg_group log_end))) as Hf.
  { apply (bool_decide_eq_true_1 _). vm_compute. reflexivity. }
  rewrite Forall_forall in Hf. intros t p1 p2 b1 b2 H1 H2. exists run_conf.
  destruct (Hf _ H1) as [Ha1 Hb1%nil_length_inv]. destruct (Hf _ H2) as [Ha2 Hb2%nil_length_inv].
  destruct (run_ballot b1 Ha1 Hb1) as [? ?]. by destruct (run_ballot b2 Ha2 Hb2) as [? ?].
Qed.

(** What server [k] reads at [i] if it is up. *)
Definition end_read (k : nat) (i : Z) : option LogEntry :=
  s ← g_servers (lg_group log_end) !! k;
  match sv_life s with
  | Up n => '(_, o) ← lm_get_entry (n_log_manager n) i; o
  | Down _ => None
  end.

Lemma end_read_reads k i en :
  end_read k i = Some en → ∃ s n, g_servers (lg_group log_end) !! k = Some s ∧ sv_life s = Up n ∧ reads n i en.
Proof.
  unfold end_read. intros (s & Hs & Hr)%bind_Some. destruct (sv_life s) as [n|m] eqn:El; [|done].
  apply bind_Some in Hr as ([m o] & Hg & ->). exists s, n. split_and!; [done..|]. by exists m.
Qed.

Lemma end_read_same k s n i en :
  g_servers (lg_group log_end) !! k = Some s → sv_life s = Up n → end_read k i = Some en → reads n i en.
Proof.
  intros Hs Hl (s' & n' & Hs' & Hl' & Hr)%end_read_reads. rewrite Hs in Hs'. injection Hs' as <-.
  rewrite Hl in Hl'. by injection Hl' as <-.
Qed.

(** The two servers that lead share the last entry; they agree on the one
    before, which both have. *)
Lemma log_matching_witness :
  end_read 0 3 = Some (conf_entry 3 3) ∧ end_read 1 3 = Some (conf_entry 3 3) ∧
  ∃ f, end_read 0 2 = Some f ∧ end_read 1 2 = Some f.
Proof.
  assert (end_read 0 3 = Some (conf_entry 3 3)) as H03 by (vm_compute; reflexivity).
  assert (end_read 1 3 = Some (conf_entry 3 3)) as H13 by (vm_compute; reflexivity).
  assert (∃ f0 f1, end_read 0 2 = Some f0 ∧ end_read 1 2 = Some f1) as (f0 & f1 & H0 & H1).
  { do 2 eexists. split; vm_compute; reflexivity. }
  destruct (end_read_reads 0 3 _ H03) as (s0 & n0 & Hs0 & Hl0 & Hr03).
  destruct (end_read_reads 1 3 _ H13) as (s1 & n1 & Hs1 & Hl1 & Hr13).
  split; [done|]. split; [done|]. exists f0. split; [done|]. rewrite H1. f_equal.
  exact (log_matching run_flags log_group log_end log_run s1 s0 n1 n0 3 2 (conf_entry 3 3) (conf_entry 3 3) f1 f0
    log_group_unstarted log_end_run log_end_stored log_end_share
    (list_elem_of_lookup_2 _ _ _ Hs1) (list_elem_of_lookup_2 _ _ _ Hs0) Hl1 Hl0 Hr13 Hr03 eq_refl ltac:(lia)
    (end_read_same _ _ _ _ _ Hs1 Hl1 H1) (end_read_same _ _ _ _ _ Hs0 Hl0 H0)).
Defined.

(** The entry that replaced the one of term 2 at index 3 comes from an election
    of term 3. *)
Lemma entries_from_leaders_witness :
  end_read 1 3 = Some (conf_entry 3 3) ∧ ∃ p b, (3, p, b) ∈ g_elected (lg_group log_end).
Proof.
  assert (end_read 1 3 = Some (conf_entry 3 3)) as H13 by (vm_compute; reflexivity). split; [done|].
  destruct (end_read_reads 1 3 _ H13) as (s & n & Hs & Hl & Hr).
  exact (proj1 (entries_from_leaders run_flags log_group log_end log_run s n 3 (conf_entry 3 3)
    log_group_unstarted log_end_run log_end_stored log_end_share (list_elem_of_lookup_2 _ _ _ Hs) Hl Hr)).
Defined.
