(* ===== verification/LastLogId.v ===== *)
(** * The last log id a vote is judged by

    [LogManager::last_log_id(true)] waits for the disk thread: the call queues a
    closure and the disk thread answers with the id of the last entry it has
    written.  Over the runs of LogManagerRuns.v the answer is at least the last
    log id the manager had when the call was made; so a vote that a handler of
    the node gives away, after it has released the mutex for the call and taken
    it again, went to a candidate that is not behind that log. *)

From stdpp Require Import prelude.
From S2P Require Import Prelude StdContainers Configuration ConfigurationManager ClosureQueue LogStorage.
From S2P Require Import MemoryLog LogManager LogManagerSpec LogLink LogLinkOps LogManagerRuns.
From S2P Require Import StateMonad Messages Lease MetaStorage NodeState NodeVote NodeCore NodeLog NodeRun NodeLogSpec.
From S2P Require Import RaftMeta Cluster ClusterRuns LogMatchingRuns.
Local Open Scope Z_scope.

Definition last_id_of (l : Log) : LogId := mkLogId (log_last l) (log_term l (log_last l)).

(** [i] is at least the id of the last entry. *)
Definition covers (i : LogId) (l : Log) : Prop := lents l ≠ [] → logid_ge i (last_id_of l).

Lemma last_id_append l es e : contiguous (log_last l + 1) es → last es = Some e → last_id_of (log_append l es) = id e.
Proof.
  intros Hc He. rewrite last_lookup in He. assert (0 < zlen es) as Hp by (destruct es; [done|]; rewrite zlen_cons; pose proof (zlen_nonneg es); lia).
  unfold last_id_of. rewrite log_append_last. unfold log_term. unfold zlen in *.
  replace (log_last l + Z.of_nat (length es)) with (log_last l + 1 + Z.of_nat (pred (length es))) by lia.
  rewrite (log_get_append_r l es _ e He). cbn. rewrite <-(Hc _ _ He). by destruct (id e).
Qed.

Section answers.
Context {St : Type} `{LogStorageLaws St} `{!LogStorageReliable (St := St)}.
Implicit Types (m : LogManager St) (l L : Log) (q : list DiskTask).

(** A storage holds one log. *)
Lemma ls_rep_inj s l l' : ls_rep s l → ls_rep s l' → l = l'.
Proof.
  intros H1 H2. pose proof (ls_rep_first _ _ H1) as Hf. rewrite (ls_rep_first _ _ H2) in Hf.
  destruct l as [f es], l' as [f' es']. cbn in Hf. subst f'. f_equal. apply list_eq. intros k.
  pose proof (ls_rep_get_entry _ _ (f + Z.of_nat k) H1) as Hg. rewrite (ls_rep_get_entry _ _ _ H2) in Hg.
  injection Hg as Hg. unfold log_get, zlookup in Hg. cbn in Hg. rewrite !decide_False in Hg by lia.
  by replace (Z.to_nat (f + Z.of_nat k - f)) with k in Hg by lia.
Qed.

(** ** The closure [c0], queued on the log [L0] *)

Variables (c0 : Closure) (L0 : Log).

Definition task_at (t : DiskTask) l : Prop :=
  match t with
  | TaskTruncateSuffix k u => lfirst l ≤ k → log_term l k = u
  | TaskLastLogId c => c = c0 → l = L0
  | _ => True
  end.

(** The tasks of the queue, each at the log the ones before it leave. *)
Fixpoint tasks_at l q : Prop :=
  match q with
  | [] => True
  | t :: q' => task_at t l ∧ ∀ l', replay l (task_effects t) = Some l' → tasks_at l' q'
  end.

Lemma tasks_at_app l q q' :
  tasks_at l q → (∀ l', replay l (queued q) = Some l' → tasks_at l' q') → tasks_at l (q ++ q').
Proof.
  revert l. induction q as [|t q IH]; intros l; cbn [tasks_at app]; [intros _ Hq; by apply Hq|].
  intros [Ht Hq] Hq'. split; [done|]. intros l' Hl'. apply IH; [by apply Hq|]. intros l2 Hl2. apply Hq'.
  unfold queued. cbn. fold (queued q). rewrite replay_app, Hl'. exact Hl2.
Qed.

(** The last id the disk thread works with. *)
Definition disk_last m : LogId := match lm_thread m with Some (i, _) => i | None => lm_disk_id m end.

Record disk_ok m l : Prop := mkDiskOk {
  dk_queue lb : replay l (batched (lm_thread m)) = Some lb → tasks_at lb (lm_disk_queue m);
  dk_last : covers (disk_last m) l;
  dk_out i : EvLastLogId c0 i ∈ lm_out m → covers i L0;
}.

(** [m'] queued [new] and emitted no answer. *)
Definition queues m m' (new : list DiskTask) : Prop :=
  lm_log_storage m' = lm_log_storage m ∧ lm_thread m' = lm_thread m ∧ lm_disk_id m' = lm_disk_id m ∧
  lm_disk_queue m' = lm_disk_queue m ++ new ∧ ∀ c i, EvLastLogId c i ∈ lm_out m' → EvLastLogId c i ∈ lm_out m.

Lemma queues_refl m m' :
  lm_log_storage m' = lm_log_storage m → lm_thread m' = lm_thread m → lm_disk_id m' = lm_disk_id m →
  lm_disk_queue m' = lm_disk_queue m → lm_out m' = lm_out m → queues m m' [].
Proof. intros H1 H2 H3 H4 Ho. split_and!; try done; [by rewrite app_nil_r|by rewrite Ho]. Qed.

Lemma queues_trans m m1 m2 new new' : queues m m1 new → queues m1 m2 new' → queues m m2 (new ++ new').
Proof.
  intros (H1 & H2 & H3 & H4 & H5) (H6 & H7 & H8 & H9 & H10). split_and!; try congruence.
  - by rewrite H9, H4, app_assoc.
  - intros c i Hc. by apply H5, H10.
Qed.

Lemma queues_disk_ok m m' new l l' L L' :
  lm_inv m l L → lm_inv m' l' L' → queues m m' new → tasks_at L new → disk_ok m l → disk_ok m' l'.
Proof.
  intros Hi Hi' (Hs & Ht & Hd & Hq & Ho) Hn [Hdq Hdl Hdo].
  assert (l' = l) as -> by (eapply ls_rep_inj; [apply Hi'|]; rewrite Hs; apply Hi).
  constructor; [|unfold disk_last in *; by rewrite Ht, Hd|].
  - intros lb. rewrite Ht, Hq. intros Hb. apply tasks_at_app; [by apply Hdq|]. intros l1 Hl1.
    pose proof (inv_replay _ _ _ Hi) as HL. unfold pending in HL. rewrite replay_app, Hb in HL. cbn in HL.
    rewrite Hl1 in HL. by injection HL as <-.
  - intros i Hin. apply Hdo. by apply Ho.
Qed.

(** ** The calls that only queue *)

Lemma execute_queues m t : queues m (execute m t) [t].
Proof. by repeat split. Qed.

Lemma wakeup_queues m : queues m (lm_wakeup_all_waiter m) [].
Proof.
  split_and!; [done|done|done|by rewrite app_nil_r|]. intros c i. unfold lm_wakeup_all_waiter. cbn.
  intros [?|Hw]%elem_of_app; [done|]. by apply list_elem_of_fmap in Hw as (w & ? & _).
Qed.

Lemma run_queues m c err : queues m (emit m [EvRun c err]) [].
Proof.
  split_and!; [done|done|done|by rewrite app_nil_r|]. intros c' i. cbn.
  intros [?|Hw]%elem_of_app; [done|]. by apply list_elem_of_singleton in Hw.
Qed.

Lemma append_resolved_queues m es d m' :
  lm_append_resolved m es d = Some m' → ∃ f, queues m m' [TaskAppend d f es].
Proof.
  unfold lm_append_resolved. intros (cm & _ & [= <-])%bind_Some. eexists.
  eapply (queues_trans _ _ _ [_] []); [|apply wakeup_queues]. by repeat split.
Qed.

Lemma truncate_suffix_queues m l L k m' :
  lm_inv m l L → k < log_last L → lm_unsafe_truncate_suffix m k = Some m' →
  ∃ t, queues m m' [TaskTruncateSuffix k t] ∧ (lfirst L ≤ k → log_term L k = t).
Proof.
  intros Hi Hk Hr.
  assert (∃ t, queues m m' [TaskTruncateSuffix k t] ∧ index (lm_applied_id m) ≤ k) as (t & Hg & Ha).
  { unfold lm_unsafe_truncate_suffix in Hr. apply CHECK_bind_Some in Hr as (Hx & Hr).
    apply bind_Some in Hr as (t & _ & Hr). apply CHECK_bind_Some in Hr as (_ & [= <-]).
    exists t. split; [by repeat split|lia]. }
  exists t. split; [done|]. intros Hl. pose proof (unsafe_get_term_in m l L k Hi ltac:(lia)) as Ht.
  destruct (truncate_suffix_inv m l L k _ Hi ltac:(lia) Ha Ht) as (m2 & Hm2 & _ & Hq & _).
  { right. apply (log_term_nonzero m l L k Hi). lia. }
  assert (m2 = m') as -> by congruence. destruct Hg as (_ & _ & _ & Hq' & _). rewrite Hq' in Hq.
  apply app_inv_head in Hq. by injection Hq.
Qed.

Lemma resolve_queues m l L es m1 es1 r er :
  lm_inv m l L → lm_check_and_resolve_conflict m es = Some (m1, es1, r, er) → ∃ new, queues m m1 new ∧ tasks_at L new.
Proof.
  intros Hi Hr. unfold lm_check_and_resolve_conflict in Hr. destruct es as [|front es]; [done|].
  destruct (last (front :: es)) as [back|]; [|done].
  do 4 (case_decide; [injection Hr as <- <- <- <-; exists []; split; [by apply queues_refl|done]|]).
  apply bind_Some in Hr as (c & _ & Hr). apply bind_Some in Hr as (m2 & Hm2 & [= <- <- <- <-]).
  destruct ((front :: es) !! c) as [e|]; [|injection Hm2 as <-; exists []; split; [by apply queues_refl|done]].
  apply bind_Some in Hm2 as (m3 & Hm3 & [= <-]).
  case_decide as Hle; [|injection Hm3 as <-; exists []; split; [by apply queues_refl|done]].
  rewrite (inv_last _ _ _ Hi) in Hle. eapply truncate_suffix_queues in Hm3 as (t & Hg & Ht); [|done|lia].
  eexists. split; [exact Hg|]. done.
Qed.

Lemma tasks_at_snoc l q t : tasks_at l q → (∀ l', task_at t l') → tasks_at l (q ++ [t]).
Proof. intros Hq Ht. apply tasks_at_app; [done|]. intros l' _. by split; [apply Ht|]. Qed.

Lemma append_queues m l L es d m' :
  lm_inv m l L → lm_append_entries m es d = Some m' → ∃ new, queues m m' new ∧ tasks_at L new.
Proof.
  intros Hi Hr. unfold lm_append_entries in Hr. rewrite (inv_ok _ _ _ Hi) in Hr.
  case_decide; [apply append_resolved_queues in Hr as (f & Hg); eexists; split; [exact Hg|by repeat split]|].
  apply bind_Some in Hr as ([[[m1 es1] r] er] & Hc & Hr).
  eapply resolve_queues in Hc as (new & Hg & Hn); [|done].
  case_decide; [injection Hr as <-; exists new; split; [|done]; rewrite <-(app_nil_r new); eapply queues_trans; [exact Hg|apply run_queues]|].
  apply append_resolved_queues in Hr as (f & Hg'). eexists. split; [by eapply queues_trans|]. by apply tasks_at_snoc.
Qed.

Lemma truncate_prefix_queues m k m' : lm_truncate_prefix m k = Some m' → queues m m' [TaskTruncatePrefix k].
Proof. unfold lm_truncate_prefix. intros (_ & Hr)%CHECK_bind_Some. injection Hr as <-. by repeat split. Qed.

Lemma queues_from m0 m m' new : queues m0 m [] → queues m m' new → queues m0 m' new.
Proof. apply (queues_trans m0 m m' [] new). Qed.

Lemma set_snapshot_queues m meta m' L :
  lm_set_snapshot m meta = Some m' → ∃ new, queues m m' new ∧ tasks_at L new.
Proof.
  unfold lm_set_snapshot. case_decide; intros Hr.
  { injection Hr as <-. exists []. split; [by apply queues_refl|done]. }
  apply bind_Some in Hr as (cm & _ & Hr). apply bind_Some in Hr as (t & _ & Hr). cbv zeta in Hr.
  repeat case_decide; first
    [ apply truncate_prefix_queues in Hr; eexists; split; [eapply queues_from; [|exact Hr]; by apply queues_refl|by repeat split]
    | injection Hr as <-; exists []; split; [by apply queues_refl|done]
    | injection Hr as <-; exists [TaskReset (sm_last_included_index meta + 1)]; split; by repeat split ].
Qed.

Lemma clear_bufferred_queues m m' L :
  lm_clear_bufferred_logs m = Some m' → ∃ new, queues m m' new ∧ tasks_at L new.
Proof.
  unfold lm_clear_bufferred_logs. case_decide; intros Hr.
  - apply truncate_prefix_queues in Hr. eexists. split; [eapply queues_from; [|exact Hr]; by apply queues_refl|by repeat split].
  - injection Hr as <-. exists []. split; [by apply queues_refl|done].
Qed.

(** ** The disk thread *)

Lemma covers_ge i j l : covers i l → logid_ge j i → covers j l.
Proof.
  intros Hc Hij Hl. specialize (Hc Hl). unfold logid_ge in *. rewrite !logid_lt_spec in *. lia.
Qed.

Lemma append_to_storage_covers m l es last_id m1 id1 :
  ls_rep (lm_log_storage m) l → lm_has_error m = false → contiguous (log_last l + 1) es → covers last_id l →
  lm_append_to_storage m es last_id = Some (m1, id1) →
  ls_rep (lm_log_storage m1) (log_append l es) ∧ covers id1 (log_append l es) ∧ lm_has_error m1 = false ∧
  lm_disk_queue m1 = lm_disk_queue m ∧ lm_disk_id m1 = lm_disk_id m ∧ lm_out m1 = lm_out m.
Proof.
  intros Hr He Hc Hl Ha. unfold lm_append_to_storage in Ha. rewrite He in Ha.
  destruct (ls_rep_append _ _ _ Hr Hc) as (s' & n & Happ & Hn & Hr'). rewrite Happ in Ha. cbn [mbind option_bind] in Ha.
  pose proof (rel_append _ _ _ _ _ Hr Hc Happ) as Hz. unfold zlen in Hz. assert (n = length es) as -> by lia.
  rewrite take_ge in Hr' by lia. destruct (decide (Z.of_nat (length es) ≠ zlen es)) as [Hx|_]; [by destruct Hx|].
  case_decide as Hp.
  - apply bind_Some in Ha as (e & Hlk & [= <- <-]). split_and!; [exact Hr'| |done..].
    intros _. rewrite (last_id_append l es e Hc); [unfold logid_ge; rewrite logid_lt_spec; lia|].
    rewrite last_lookup. unfold zlookup in Hlk. rewrite decide_False in Hlk by lia. rewrite <-Hlk. f_equal. lia.
  - injection Ha as <- <-. assert (es = []) as -> by (destruct es; [done|cbn in Hp; lia]).
    rewrite log_append_nil in *. done.
Qed.

Lemma flush_covers m l last_id ab m1 id1 ab1 lb :
  ls_rep (lm_log_storage m) l → lm_has_error m = false → thread_ok (Some (last_id, ab)) →
  apply_effect l (EffAppend (ab_to_append ab)) = Some lb → covers last_id l → ab_flush m last_id ab = Some (m1, id1, ab1) →
  ls_rep (lm_log_storage m1) lb ∧ covers id1 lb ∧ ab_to_append ab1 = [] ∧ lm_has_error m1 = false ∧
  lm_disk_queue m1 = lm_disk_queue m ∧ lm_disk_id m1 = lm_disk_id m ∧
  (∀ c i, EvLastLogId c i ∈ lm_out m1 → EvLastLogId c i ∈ lm_out m).
Proof.
  intros Hr He (_ & _ & Hemp) Hb Hl Hf. cbn in Hb. case_decide as Hc; [|done]. injection Hb as <-.
  unfold ab_flush in Hf. case_decide as Hs.
  - injection Hf as <- <- <-. rewrite (Hemp Hs), log_append_nil. done.
  - apply bind_Some in Hf as ([m2 id2] & Ha & [= <- <- <-]).
    destruct (append_to_storage_covers _ _ _ _ _ _ Hr He Hc Hl Ha) as (H1 & H2 & H3 & H4 & H5 & H6).
    split_and!; [done|done|done|done|done|done|]. cbn. rewrite H6. intros c i [?|Hx]%elem_of_app; [done|].
    by apply list_elem_of_fmap in Hx as (? & ? & _).
Qed.

Lemma covers_truncate_prefix i l k : lfirst l ≤ k → covers i l → covers i (log_truncate_prefix l k).
Proof.
  intros Hk Hc Hne. assert (k ≤ log_last l) as Hle.
  { destruct (decide (k ≤ log_last l)); [done|]. rewrite truncate_past in Hne by lia. done. }
  assert (last_id_of (log_truncate_prefix l k) = last_id_of l) as ->.
  { unfold last_id_of. rewrite log_truncate_prefix_last by lia. rewrite Z.max_r by lia. f_equal. unfold log_term.
    by rewrite log_truncate_prefix_get, decide_True by lia. }
  apply Hc. intros He. apply Hne. unfold log_truncate_prefix. rewrite He. by destruct (Z.to_nat _).
Qed.

Lemma covers_truncate_suffix l k u :
  lfirst l - 1 ≤ k < log_last l → (lfirst l ≤ k → log_term l k = u) → covers (mkLogId k u) (log_truncate_suffix l k).
Proof.
  intros Hk Hu Hne. assert (lfirst l ≤ k) as Hle.
  { destruct (decide (lfirst l ≤ k)); [done|]. unfold log_truncate_suffix in Hne. by rewrite decide_True in Hne by lia. }
  unfold last_id_of. rewrite log_truncate_suffix_last by lia. unfold log_term. rewrite log_truncate_suffix_get.
  rewrite decide_True by lia. fold (log_term l k). rewrite Hu by done. unfold logid_ge. rewrite logid_lt_spec. lia.
Qed.

Lemma operation_covers m l last_id t m1 id1 r evs l' :
  ls_rep (lm_log_storage m) l → task_at t l → covers last_id l → (∀ c i e es, t ≠ TaskAppend c i (e :: es)) →
  replay l (task_effects t) = Some l' → disk_operation m last_id t = Some (m1, id1, r, evs) →
  ls_rep (lm_log_storage m1) l' ∧ covers id1 l' ∧ r = 0 ∧ (∀ i, EvLastLogId c0 i ∈ evs → covers i L0) ∧
  lm_disk_queue m1 = lm_disk_queue m ∧ lm_disk_id m1 = lm_disk_id m ∧ lm_out m1 = lm_out m.
Proof.
  intros Hr Ht Hl Hne Hf Ho. destruct t as [c f [|e es]|c|k|k u|n]; cbn [disk_operation task_effects replay] in *.
  - rewrite apply_append_nil in Hf. injection Hf as <-. injection Ho as <- <- <- <-. split_and!; try done.
    by intros i ?%list_elem_of_singleton.
  - by destruct (Hne c f e es).
  - injection Hf as <-. apply CHECK_bind_Some in Ho as (_ & [= <- <- <- <-]). split_and!; try done.
    intros i Hi%list_elem_of_singleton. injection Hi as Hc ->. by rewrite <-(Ht (eq_sym Hc)).
  - apply bind_Some in Hf as (l1 & Hl1 & [= ->]). cbn in Hl1. case_decide as Hk; [|done]. injection Hl1 as <-.
    destruct (ls_rep_truncate_prefix _ _ _ Hr Hk) as (s' & rc & Hs & Hrep & _). rewrite Hs in Ho. injection Ho as <- <- <- <-.
    pose proof (rel_truncate_prefix _ _ _ _ _ Hr Hk Hs) as ->. split_and!; try done; [by apply Hrep|by apply covers_truncate_prefix|].
    by intros i ?%not_elem_of_nil.
  - apply bind_Some in Hf as (l1 & Hl1 & [= ->]). cbn in Hl1. case_decide as Hk; [|done]. injection Hl1 as <-.
    destruct (ls_rep_truncate_suffix _ _ _ Hr Hk) as (s' & rc & Hs & Hrep). rewrite Hs in Ho. cbn [mbind option_bind] in Ho.
    pose proof (rel_truncate_suffix _ _ _ _ _ Hr Hk Hs) as ->. rewrite decide_True in Ho by done.
    apply CHECK_bind_Some in Ho as (_ & [= <- <- <- <-]).
    split_and!; try done; [by apply Hrep|by apply covers_truncate_suffix|]. by intros i ?%not_elem_of_nil.
  - apply bind_Some in Hf as (l1 & Hl1 & [= ->]). cbn in Hl1. case_decide as Hk; [|done]. injection Hl1 as <-.
    destruct (ls_rep_reset _ _ _ Hr Hk) as (s' & rc & Hs & Hrep). rewrite Hs in Ho. injection Ho as <- <- <- <-.
    pose proof (rel_reset _ _ _ _ _ Hr Hk Hs) as ->. split_and!; try done; [by apply Hrep|by intros []|].
    by intros i ?%not_elem_of_nil.
Qed.

(** One iteration of the disk thread, on the log [lb] that the batch makes. *)
Lemma iteration_covers m l last_id ab t m1 id1 ab1 lb l' :
  ls_rep (lm_log_storage m) l → lm_has_error m = false → thread_ok (Some (last_id, ab)) → covers last_id l →
  apply_effect l (EffAppend (ab_to_append ab)) = Some lb → task_at t lb → replay lb (task_effects t) = Some l' →
  disk_iteration m last_id ab t = Some (m1, id1, ab1) →
  ∃ l1, ls_rep (lm_log_storage m1) l1 ∧ covers id1 l1 ∧ apply_effect l1 (EffAppend (ab_to_append ab1)) = Some l' ∧
    lm_disk_queue m1 = lm_disk_queue m ∧ ∀ i, EvLastLogId c0 i ∈ lm_out m1 → EvLastLogId c0 i ∈ lm_out m ∨ covers i L0.
Proof.
  intros Hr He Hto Hl Hb Ht Hf Hit.
  destruct t as [c f [|e es]|c|k|k u|n].
  2:{ cbn [task_effects replay] in Hf. apply bind_Some in Hf as (l1 & Hf & [= ->]). cbn [disk_iteration] in Hit.
      unfold ab_append in Hit. apply bind_Some in Hit as ([[m2 id2] ab2] & Hfl & [= <- <- <-]). cbn [ab_to_append].
      case_decide.
      - destruct (flush_covers _ _ _ _ _ _ _ _ Hr He Hto Hb Hl Hfl) as (G1 & G2 & G3 & _ & G4 & _ & G5).
        exists lb. rewrite G3. split_and!; try done. intros i Hi. left. by apply (G5 c0).
      - injection Hfl as <- <- <-. exists l. split_and!; try done; [|auto]. rewrite apply_append_app, Hb. exact Hf. }
  all: unfold disk_iteration in Hit; apply bind_Some in Hit as ([[m2 id2] ab2] & Hfl & Hit);
    apply bind_Some in Hit as ([[[m3 id3] r] evs] & Hop & [= <- <- <-]);
    destruct (flush_covers _ _ _ _ _ _ _ _ Hr He Hto Hb Hl Hfl) as (G1 & G2 & G3 & _ & G4 & _ & G5);
    (destruct (operation_covers _ _ _ _ _ _ _ _ _ G1 Ht G2 ltac:(done) Hf Hop) as (K1 & K2 & -> & K3 & K4 & _ & K5));
    exists l'; rewrite decide_False by tauto; rewrite G3, apply_append_nil; cbn;
    (split_and!; [done|done|done|congruence|]); rewrite K5; intros i [Hi|Hi]%elem_of_app;
    [left; by apply (G5 c0)|right; by apply K3].
Qed.

Lemma disk_step_ok m l L m' l' L' :
  lm_inv m l L → lm_inv m' l' L' → disk_ok m l → disk_step m = Some m' → disk_ok m' l'.
Proof.
  intros Hi Hi' [Hq Hl Ho] Hr. unfold disk_step in Hr. unfold disk_last in Hl.
  pose proof (inv_replay _ _ _ Hi) as HL. pose proof (inv_thread _ _ _ Hi) as Hto. unfold pending in HL.
  destruct (lm_thread m) as [[last_id ab]|] eqn:Et; [|done].
  destruct (lm_disk_queue m) as [|t q] eqn:Eq; [done|].
  apply bind_Some in Hr as ([[m1 id1] ab1] & Hit & [= <-]). cbn [batched app replay] in HL, Hq.
  apply bind_Some in HL as (lb & Hb & HL). unfold queued in HL. cbn in HL. rewrite replay_app in HL.
  apply bind_Some in HL as (l2 & Hl2 & _). specialize (Hq lb). rewrite Hb in Hq.
  destruct (Hq eq_refl) as [Ht Hq2].
  destruct (iteration_covers (with_queue m q) l last_id ab t m1 id1 ab1 lb l2) as (l1 & K1 & K2 & K3 & K4 & K5);
    [apply Hi|apply Hi|done..|].
  assert (l' = l1) as -> by (eapply ls_rep_inj; [apply Hi'|exact K1]).
  constructor; cbn [lm_thread with_thread batched replay lm_disk_queue disk_last lm_out].
  - intros lb'. rewrite K3. intros [= <-]. rewrite K4. by apply Hq2.
  - exact K2.
  - intros i [?|?]%K5; [by apply Ho|done].
Qed.

Lemma disk_end_ok m l L m' l' L' :
  lm_inv m l L → lm_inv m' l' L' → disk_ok m l → disk_end m = Some m' → disk_ok m' l'.
Proof.
  intros Hi Hi' [Hq Hl Ho] Hr. unfold disk_end in Hr. unfold disk_last in Hl.
  pose proof (inv_replay _ _ _ Hi) as HL. pose proof (inv_thread _ _ _ Hi) as Hto. unfold pending in HL.
  destruct (lm_thread m) as [[last_id ab]|] eqn:Et; [|done].
  apply bind_Some in Hr as ([[m1 id1] ab1] & Hf & [= <-]). cbn [batched app replay] in HL, Hq.
  apply bind_Some in HL as (lb & Hb & _). specialize (Hq lb). rewrite Hb in Hq.
  destruct (flush_covers m l last_id ab m1 id1 ab1 lb (inv_rep _ _ _ Hi) (inv_ok _ _ _ Hi) Hto Hb Hl Hf)
    as (K1 & K2 & _ & _ & K3 & K4 & K5).
  unfold lm_set_disk_id in *.
  assert (l' = lb) as -> by (eapply ls_rep_inj; [apply Hi'|]; case_decide; exact K1).
  case_decide as Hd; (constructor; cbn;
    [intros ? [= <-]; rewrite K3; by apply Hq| |intros i Hin; by apply Ho, (K5 c0)]).
  - eapply covers_ge; [exact K2|]. cbn in Hd. unfold logid_ge. rewrite logid_lt_spec in *. lia.
  - exact K2.
Qed.

Lemma call_disk_ok m l L c m' l' L' :
  lm_inv m l L → lm_inv m' l' L' → (c = CallLastLogId c0 → L = L0) → lm_call m c = Some m' → disk_ok m l → disk_ok m' l'.
Proof.
  intros Hi Hi' Hc Hr Hd.
  assert ((∃ new, queues m m' new ∧ tasks_at L new) → disk_ok m' l') as Hg.
  { intros (new & Hg & Hn). exact (queues_disk_ok m m' new l l' L L' Hi Hi' Hg Hn Hd). }
  assert (queues m m' [] → disk_ok m' l') as Hg0 by (intros Hx; apply Hg; by exists []).
  destruct c as [es d|meta| |a| | | |c|x w|w|]; cbn [lm_call] in Hr; try (injection Hr as <-).
  - apply Hg. by eapply append_queues.
  - apply Hg. by eapply set_snapshot_queues.
  - apply Hg. by eapply clear_bufferred_queues.
  - apply Hg0. unfold lm_set_applied_id. case_decide; by apply queues_refl.
  - unfold disk_start in Hr. destruct (lm_thread m) eqn:Et; [done|]. injection Hr as <-.
    assert (l' = l) as -> by (eapply ls_rep_inj; [apply Hi'|apply Hi]). destruct Hd as [Hq Hl Ho].
    unfold disk_last in Hl. rewrite Et in Hl, Hq. constructor; [|exact Hl|exact Ho].
    intros lb. cbn [lm_thread with_thread batched replay ab_to_append ab_new]. rewrite apply_append_nil.
    intros [= <-]. by apply Hq.
  - exact (disk_step_ok m l L m' l' L' Hi Hi' Hd Hr).
  - exact (disk_end_ok m l L m' l' L' Hi Hi' Hd Hr).
  - unfold lm_last_log_id_flush in *. case_decide; [apply Hg0; by apply queues_refl|]. apply Hg.
    eexists. split; [apply execute_queues|]. split; [|done]. intros ->. by apply Hc.
  - apply Hg0. unfold lm_notify_on_new_log. case_decide; [|by apply queues_refl].
    split_and!; [done|done|done|by rewrite app_nil_r|]. cbn. intros c i [?|Hx]%elem_of_app; [done|].
    by apply list_elem_of_singleton in Hx.
  - apply Hg0. unfold lm_remove_waiter. destruct (map_get w (lm_wait_map m)); by apply queues_refl.
  - apply Hg0. unfold lm_shutdown. eapply (queues_from _ (with_stopped m true)); [by apply queues_refl|apply wakeup_queues].
Qed.

Lemma runs_disk_ok cs m sp m' l l' :
  lm_runs cs m m' → lm_refines m sp → CallLastLogId c0 ∉ cs → ls_rep (lm_log_storage m) l →
  ls_rep (lm_log_storage m') l' → disk_ok m l → disk_ok m' l'.
Proof.
  intros Hr. revert sp l. induction Hr as [m|c cs m m1 m' Hok Hc Hr IH]; intros sp l Hm Hn Hl Hl' Hd.
  { by rewrite (ls_rep_inj _ _ _ Hl' Hl). }
  apply not_elem_of_cons in Hn as [Hn Hns]. pose proof (call_refines _ _ _ _ Hm Hok Hc) as Hm1.
  destruct Hm as ((P & l0 & Hi & _) & _). pose proof Hm1 as ((P1 & l1 & Hi1 & _) & _).
  assert (l0 = l) as -> by (eapply ls_rep_inj; [apply Hi|done]).
  eapply (IH _ l1 Hm1 Hns (inv_rep _ _ _ Hi1) Hl'). by eapply (call_disk_ok m l).
Qed.

Lemma starts_disk_ok s cm m sp l : lm_starts s cm m sp → ls_rep (lm_log_storage m) l → disk_ok m l.
Proof.
  assert (∀ l (q : Z) m0, stored_log (links q (lents l)) s cm l q → lm_init s cm = Some m0 → lm_inv m0 l l ∧ disk_ok m0 l) as Hinit.
  { intros l0 q m0 [Hr Hp He Hz Hc Hq H1] Hm. destruct (lm_init_inv s l0 cm Hr Hp He Hz Hc) as (m2 & Hm2 & Hi).
    assert (m2 = m0) as -> by congruence. split; [done|]. unfold lm_init in Hm.
    apply bind_Some in Hm as (t & Ht & [= <-]). constructor; cbn; [by intros ? [= <-]| |by intros i ?%not_elem_of_nil].
    rewrite (ls_rep_get_term _ _ _ Hr) in Ht. injection Ht as <-. unfold disk_last. cbn.
    rewrite (ls_rep_last _ _ Hr). intros _. unfold logid_ge. rewrite logid_lt_spec. cbn. lia. }
  intros Hs. pose proof (starts_refine _ _ _ _ Hs) as ((P & l1 & Hi1 & _) & _). intros Hl.
  destruct Hs as [l0 q m0 Hst Hm Hck|l0 q meta m0 m1 Hst Hsn Hm Hr Hck]; destruct (Hinit _ _ _ Hst Hm) as [Hi Hd].
  - by rewrite (ls_rep_inj _ _ _ Hl (inv_rep _ _ _ Hi)).
  - destruct (set_snapshot_queues m0 meta m1 l0 Hr) as (new & Hg & Hn).
    rewrite (ls_rep_inj _ _ _ Hl (inv_rep _ _ _ Hi1)). by eapply (queues_disk_ok m0 m1 new l0).
Qed.
End answers.

(** ** The answer *)

Section last_log_id.
Context {St : Type} `{LogStorageLaws St} `{!LogStorageReliable (St := St)}.
Implicit Types (m : LogManager St) (l L : Log).

(** What [last_log_id(true)], called on [m] with the closure [c], answers: at
    once, or when the disk thread runs the closure in what follows. *)
Definition answers m (c : Closure) (i : LogId) : Prop :=
  match lm_last_log_id_flush m c with
  | (_, Some answer) => i = answer
  | (m1, None) => ∃ cs m', lm_runs cs m1 m' ∧ (CallLastLogId c ∉ cs) ∧ EvLastLogId c i ∈ lm_out m'
  end.

Lemma last_log_id_answer s cm m0 sp cs m c i :
  lm_starts s cm m0 sp → lm_runs cs m0 m → CallLastLogId c ∉ cs → answers m c i →
  ∃ last, lm_last_log_id m = Some last ∧ logid_ge i last.
Proof.
  intros Hs Hr Hn Ha. pose proof (starts_refine _ _ _ _ Hs) as Hm0. pose proof Hm0 as ((P0 & l0 & Hi0 & _) & _).
  pose proof (runs_refine _ _ _ _ Hr Hm0) as Hm. pose proof Hm as ((P & l & Hi & Hl) & _). set (L := sp_log (foldl sp_call sp cs)) in *.
  assert (disk_ok c L m l) as Hd.
  { eapply (runs_disk_ok c L cs m0); [done|done|done|apply Hi0|apply Hi|]. eapply starts_disk_ok; [done|apply Hi0]. }
  unfold answers in Ha. pose proof (flush_refines m _ c Hm) as Hm1. pose proof (flush_inv m l L c Hi) as Hi1.
  pose proof (call_disk_ok c L m l L (CallLastLogId c) _ l L Hi Hi1 (λ _, eq_refl) eq_refl Hd) as Hd1.
  unfold lm_last_log_id_flush, lm_last_log_id in *. rewrite (inv_first _ _ _ Hi), (inv_last _ _ _ Hi) in *.
  case_decide as Hsnap; cbn [fst] in *.
  - subst i. destruct (inv_snap _ _ _ Hi) as [_ Hst]. case_decide as Hne.
    + rewrite (unsafe_get_term_in m l L _ Hi) by lia. eexists. split; [done|].
      destruct (log_get_in_range L (log_last L)) as [e He]; [lia|]. unfold log_term. rewrite He. cbn.
      rewrite Hsnap in He |- *. rewrite (Hst e He). unfold logid_ge. rewrite logid_lt_spec. cbn. lia.
    + eexists. split; [done|]. unfold logid_ge. rewrite logid_lt_spec. lia.
  - destruct Ha as (cs' & m' & Hr' & Hn' & Hev). pose proof (runs_refine _ _ _ _ Hr' Hm1) as ((P' & l' & Hi' & _) & _).
    assert (lents L ≠ []) as Hne.
    { intros He. apply Hsnap. rewrite (snapshot_of_empty P m l L (conj Hi Hl) He). unfold log_last. rewrite He.
      unfold zlen. cbn. lia. }
    assert (covers i L) as Hc.
    { eapply (dk_out c L m' l'); [|exact Hev].
      eapply (runs_disk_ok c L cs' _ _ m' l l' Hr' Hm1 Hn'); [apply Hi1|apply Hi'|exact Hd1]. }
    rewrite decide_True.
    + rewrite (unsafe_get_term_in m l L _ Hi); [|]. eexists. split; [done|by apply Hc].
      all: unfold log_last, zlen; destruct (lents L); [done|cbn; lia].
    + unfold log_last, zlen. destruct (lents L); [done|cbn; lia].
Qed.
End last_log_id.

(** ** Votes *)

Section votes.
Context {S M : Type} `{LogStorageLaws S} `{!LogStorageReliable (St := S)} `{RaftMetaStorage M} (fl : RaftFlags) (e : Env).

(** C6. A vote goes to a candidate whose log is not behind.  The handler of a
    request for a vote releases the node's mutex to call [last_log_id(true)], on
    the log manager [n1] has then, a manager reached by a run of its calls from a
    start on a storage that does not fail; the disk thread answers
    [last_log_id]; the handler goes on on [n], in the same term.  If it ends with
    a vote for the candidate that the node had not given before, then the
    candidate's last log id is at least the last log id of the voter's log when
    the call was made, no leader's lease keeps the voter from voting, and the
    vote is stored in its term.  Entries the log got between the call and the
    vote are not compared: only the term is checked again. *)
Theorem vote_up_to_date (s : S) (cm : ConfigurationManager) (m0 : LogManager S) (sp : LogSpec) (cs : list LogCall)
    (n1 n n' : Node S M) (c : Closure) (last_log_id : LogId) (k : nat)
    (request : RequestVoteRequest) (candidate_id : PeerId) (previous_term : Z) (u : unit)
    (Hstart : lm_starts s cm m0 sp) (Hlog : lm_runs cs m0 (n_log_manager n1)) (Hnew : CallLastLogId c ∉ cs)
    (Hanswer : answers (n_log_manager n1) c last_log_id)
    (Hcall : n_suspended n !! k = Some (SuspendedWith last_log_id (ResumeVoteRequest request candidate_id previous_term)))
    (Hrun : resume fl e k n = Some (u, n'))
    (Hvoted : peer_eq (n_voted_id n') candidate_id) (Hnot : ¬ peer_eq (n_voted_id n) candidate_id)
    (Hcand : peer_is_empty candidate_id = false) :
  (∃ last, lm_last_log_id (n_log_manager n1) = Some last ∧
     logid_ge (mkLogId (rv_last_log_index request) (rv_last_log_term request)) last) ∧
  n_current_term n = previous_term ∧
  fl_votable_time_from_now (raft_enable_leader_lease fl) (e_monotonic_ms e) (n_follower_lease n) ≤ 0 ∧
  EvSetMeta (n_current_term n') candidate_id 0 ∈ n_out n'.
Proof.
  destruct (last_log_id_answer s cm m0 sp cs _ c last_log_id Hstart Hlog Hnew Hanswer) as (last & Hl & Hge).
  unfold resume in Hrun. apply st_bind_Some in Hrun as (l & ? & [= <- <-] & Hrun). rewrite Hcall in Hrun.
  apply st_bind_Some in Hrun as ([] & n2 & [= <-] & Hrun). cbn [resume_call] in Hrun.
  assert (n_current_term n = previous_term) as Ht.
  { unfold handle_request_vote_request_resume in Hrun. apply st_bind_Some in Hrun as (t & ? & [= <- <-] & Hrun).
    case_decide as Hd; [|by destruct (decide (n_current_term n = previous_term)) as [|Hx]; [|destruct Hd]].
    exfalso. apply reply_request_vote_keeps in Hrun as (Hv & _). rewrite Hv in Hvoted. by apply Hnot. }
  apply vote_granted in Hrun as (Hlast & Hlease & Hst); [|done..]. split_and!; [|done|exact Hlease|done].
  exists last. split; [done|]. unfold logid_ge in *. rewrite !logid_lt_spec in *. cbn in *. lia.
Qed.
End votes.

(** ** A vote *)

#[local] Existing Instance wire_stable.
#[local] Existing Instance wire_stable_laws.

(** Server 2 comes up with two entries of term 2; a candidate of term 3 that has
    them too asks for its vote. *)
Definition voter_log : Log := mkLog 1 [conf_entry 1 2; data_entry 2 2 [7]].
Definition voter_confs : ConfigurationManager := mkCM (omap entry_conf (lents voter_log)) (_snapshot cm_new).

Definition voter_request : RequestVoteRequest := mkRequestVoteRequest [] (run_text 0) (run_text 2) 3 2 2 None.

Definition asked_run : list RunAction :=
  [starts_with 2 (lents voter_log); input 2 (InRequestVoteRequest voter_request)].

Definition answered_run : list RunAction :=
  asked_run ++ (input 2 <$> [InEnterLastLogId 0; InDiskStart; InDiskStep; InLogEvent 0]).

Lemma voter_starts m0 :
  lm_init (ml_of voter_log) voter_confs = Some m0 →
  lm_starts (ml_of voter_log) voter_confs m0 (mkLogSpec voter_log zero_id zero_id).
Proof.
  intros Hm. eapply (starts_plain _ _ voter_log 0); [|done|vm_compute in Hm; injection Hm as <-; by vm_compute].
  split; try done; [split; [done|]; vm_compute; intros [|[|k]] e [= <-]; reflexivity|by repeat constructor].
Qed.

Lemma voter_answers m0 c :
  lm_init (ml_of voter_log) voter_confs = Some m0 → answers m0 c (mkLogId 2 2).
Proof.
  intros Hm. vm_compute in Hm. injection Hm as <-. unfold answers. cbn.
  exists [CallDiskStart; CallDiskStep]. eexists. split_and!.
  - do 2 (run_call; [done|]). apply runs_nil.
  - set_solver.
  - left.
Qed.

Lemma vote_up_to_date_witness :
  ∃ n1 n u n', run_node asked_run 2 = Some n1 ∧ run_node answered_run 2 = Some n ∧
    resume run_flags run_env 0 n = Some (u, n') ∧ lm_last_log_id (n_log_manager n1) = Some (mkLogId 2 2) ∧
    ∃ last, lm_last_log_id (n_log_manager n1) = Some last ∧ logid_ge (mkLogId 2 2) last.
Proof.
  destruct (run_node asked_run 2) as [n1|] eqn:E1; [|by vm_compute in E1].
  destruct (run_node answered_run 2) as [n|] eqn:E; [|by vm_compute in E].
  destruct (resume run_flags run_env 0 n) as [[u n']|] eqn:Er; [|vm_compute in E; injection E as <-; by vm_compute in Er].
  assert (lm_init (ml_of voter_log) voter_confs = Some (n_log_manager n1)) as Hm.
  { vm_compute in E1. injection E1 as <-. by vm_compute. }
  exists n1, n, u, n'. split_and!; [done|done|done|vm_compute in E1; injection E1 as <-; by vm_compute|].
  eapply (vote_up_to_date run_flags run_env (ml_of voter_log) voter_confs (n_log_manager n1) _ [] n1 n n' 0 (mkLogId 2 2) 0
    voter_request (run_peer 0) 3 u).
  - by apply voter_starts.
  - apply runs_nil.
  - apply not_elem_of_nil.
  - by apply voter_answers.
  - vm_compute in E. injection E as <-. reflexivity.
  - exact Er.
  - vm_compute in E. injection E as <-. vm_compute in Er. injection Er as <- <-. by apply (bool_decide_eq_true_1 _).
  - vm_compute in E. injection E as <-. by apply (bool_decide_eq_true_1 _).
  - by vm_compute.
Defined.
