(* ===== verification/SnapshotExecutor.v ===== *)
(** * The snapshot executor

    src/melon/raft/snapshot_executor.{h,cc}: the object that saves snapshots of
    the state machine, installs those a leader sends and loads the last one at
    start.  The storage is any implementation of the classes of storage.h
    ([SnapshotStorage]).

    The mutex is released in the middle of most methods, so a method is cut
    where it releases the mutex for good or blocks, and what is left of it is a
    [Job] in the state: any other method can run before the job goes on.  A
    closure the executor gave to the state machine caller is a job as well,
    which goes on when the caller runs it.  The objects [DownloadingSnapshot]
    live in [x_heap], since a retried request is copied over the one it
    replaces; an rpc (its controller, response and closure) is an entry of
    [x_rpcs]. *)

From stdpp Require Import prelude gmap.
From S2P Require Import Prelude ClosureQueue StateMonad Messages.
Local Open Scope Z_scope.

(** ** The classes of storage.h *)

(** Writers, readers and copiers are objects of the storage [S].  A copier
    works in the background; [copier_joined] says that [join] returns. *)
Class SnapshotStorage (S : Type) := {
  SnapshotWriter : Type;
  SnapshotReader : Type;
  SnapshotCopier : Type;
  sto_init : ST S Z;
  sto_create : ST S (option SnapshotWriter);
  writer_is_ok : SnapshotWriter → S → bool;
  writer_set_error : SnapshotWriter → Z → ST S unit;
  writer_save_meta : SnapshotWriter → SnapshotMetaPb → ST S Z;
  sto_close_writer : SnapshotWriter → ST S Z;
  sto_open : ST S (option SnapshotReader);
  reader_is_ok : SnapshotReader → S → bool;
  reader_load_meta : SnapshotReader → S → option SnapshotMetaPb;
  sto_close_reader : SnapshotReader → ST S Z;
  sto_start_to_copy_from : list Z → ST S (option SnapshotCopier);
  copier_cancel : SnapshotCopier → ST S unit;
  copier_joined : SnapshotCopier → S → bool;
  copier_error : SnapshotCopier → S → Z;
  copier_reader : SnapshotCopier → S → option SnapshotReader;
  sto_close_copier : SnapshotCopier → ST S Z;
}.

(** ** State *)

(** [response], [cntl] and [done] belong to one rpc. *)
Record DownloadingSnapshot := mkDownloadingSnapshot {
  ds_request : InstallSnapshotRequest;
  ds_rpc : Z;
}.

(** [rp_failed] is the code of [SetFailed]; [rp_runs] counts [done->Run()]. *)
Record InstallRpc := mkInstallRpc {
  rp_request : InstallSnapshotRequest;
  rp_failed : Z;
  rp_term : option Z;
  rp_success : option bool;
  rp_runs : nat;
}.

Inductive ExecutorEvent :=
  | XvRun (c : Closure) (status : Z)
  | XvClearBufferredLogs
  | XvSetSnapshot (meta : SnapshotMetaPb)
  | XvReportError (error_code : Z)
  | XvUpdateConfiguration.

Definition empty_meta : SnapshotMetaPb := mkSnapshotMetaPb 0 0 [] [].

Section executor.
Context {S : Type} `{SnapshotStorage S}.

Record SaveSnapshotDone := mkSaveSnapshotDone {
  sd_writer : SnapshotWriter;
  sd_done : option Closure;
  sd_meta : SnapshotMetaPb;
  sd_status : Z;
}.

Inductive Job :=
  (** The closure of [on_snapshot_save], with the caller or the user. *)
  | JobSaveQueued (sd : SaveSnapshotDone)
  (** Its [Run] was called. *)
  | JobSaveRunning (sd : SaveSnapshotDone)
  (** [on_snapshot_save_done] after the first [unlock], after [close], and
      after the second [unlock]. *)
  | JobSaveChecked (sd : SaveSnapshotDone) (ret : Z)
  | JobSaveClosed (sd : SaveSnapshotDone) (ret : Z)
  | JobSaveSet (sd : SaveSnapshotDone)
  (** [install_snapshot] that waits for the copier. *)
  | JobDownload (ds : Z) (meta : SnapshotMetaPb)
  (** [load_downloading_snapshot] before [on_snapshot_load], its closure with
      the caller, and the closure run. *)
  | JobLoadCall (reader : SnapshotReader)
  | JobLoadQueued (reader : SnapshotReader)
  | JobLoadRunning (reader : SnapshotReader) (status : Z)
  (** [on_snapshot_load_done] after the first [unlock]. *)
  | JobLoadDone (reader : SnapshotReader) (status : Z) (m : option Z)
  (** [shutdown] after [unlock]. *)
  | JobShutdown (saved_term : Z).

(** [x_node] says whether [_node] is set; [x_throttle] is the number of tasks
    of the throttle, if there is one. *)
Record SnapshotExecutor := mkExecutor {
  x_last_snapshot_term : Z;
  x_last_snapshot_index : Z;
  x_term : Z;
  x_saving_snapshot : bool;
  x_loading_snapshot : bool;
  x_stopped : bool;
  x_node : bool;
  x_cur_copier : option SnapshotCopier;
  x_downloading_snapshot : option Z;
  x_loading_snapshot_meta : SnapshotMetaPb;
  x_running_jobs : Z;
  x_throttle : option Z;
  x_storage : S;
  x_heap : gmap Z DownloadingSnapshot;
  x_rpcs : gmap Z InstallRpc;
  x_jobs : gmap Z Job;
  x_out : list ExecutorEvent;
}.

(** [SnapshotExecutor()]. *)
Definition executor_new (s : S) : SnapshotExecutor :=
  mkExecutor 0 0 0 false false false false None None empty_meta 0 None s ∅ ∅ ∅ [].

(** *** Field updates *)

Definition x_with_last (i t : Z) (x : SnapshotExecutor) : SnapshotExecutor :=
  mkExecutor t i (x_term x) (x_saving_snapshot x) (x_loading_snapshot x) (x_stopped x) (x_node x) (x_cur_copier x)
    (x_downloading_snapshot x) (x_loading_snapshot_meta x) (x_running_jobs x) (x_throttle x) (x_storage x) (x_heap x)
    (x_rpcs x) (x_jobs x) (x_out x).
Definition x_with_term (v : Z) (x : SnapshotExecutor) : SnapshotExecutor :=
  mkExecutor (x_last_snapshot_term x) (x_last_snapshot_index x) v (x_saving_snapshot x) (x_loading_snapshot x)
    (x_stopped x) (x_node x) (x_cur_copier x) (x_downloading_snapshot x) (x_loading_snapshot_meta x) (x_running_jobs x)
    (x_throttle x) (x_storage x) (x_heap x) (x_rpcs x) (x_jobs x) (x_out x).
Definition x_with_saving (v : bool) (x : SnapshotExecutor) : SnapshotExecutor :=
  mkExecutor (x_last_snapshot_term x) (x_last_snapshot_index x) (x_term x) v (x_loading_snapshot x) (x_stopped x)
    (x_node x) (x_cur_copier x) (x_downloading_snapshot x) (x_loading_snapshot_meta x) (x_running_jobs x) (x_throttle x)
    (x_storage x) (x_heap x) (x_rpcs x) (x_jobs x) (x_out x).
Definition x_with_loading (v : bool) (x : SnapshotExecutor) : SnapshotExecutor :=
  mkExecutor (x_last_snapshot_term x) (x_last_snapshot_index x) (x_term x) (x_saving_snapshot x) v (x_stopped x)
    (x_node x) (x_cur_copier x) (x_downloading_snapshot x) (x_loading_snapshot_meta x) (x_running_jobs x) (x_throttle x)
    (x_storage x) (x_heap x) (x_rpcs x) (x_jobs x) (x_out x).
Definition x_with_stopped (v : bool) (x : SnapshotExecutor) : SnapshotExecutor :=
  mkExecutor (x_last_snapshot_term x) (x_last_snapshot_index x) (x_term x) (x_saving_snapshot x) (x_loading_snapshot x)
    v (x_node x) (x_cur_copier x) (x_downloading_snapshot x) (x_loading_snapshot_meta x) (x_running_jobs x)
    (x_throttle x) (x_storage x) (x_heap x) (x_rpcs x) (x_jobs x) (x_out x).
Definition x_with_copier (v : option SnapshotCopier) (x : SnapshotExecutor) : SnapshotExecutor :=
  mkExecutor (x_last_snapshot_term x) (x_last_snapshot_index x) (x_term x) (x_saving_snapshot x) (x_loading_snapshot x)
    (x_stopped x) (x_node x) v (x_downloading_snapshot x) (x_loading_snapshot_meta x) (x_running_jobs x) (x_throttle x)
    (x_storage x) (x_heap x) (x_rpcs x) (x_jobs x) (x_out x).
Definition x_with_downloading (v : option Z) (x : SnapshotExecutor) : SnapshotExecutor :=
  mkExecutor (x_last_snapshot_term x) (x_last_snapshot_index x) (x_term x) (x_saving_snapshot x) (x_loading_snapshot x)
    (x_stopped x) (x_node x) (x_cur_copier x) v (x_loading_snapshot_meta x) (x_running_jobs x) (x_throttle x)
    (x_storage x) (x_heap x) (x_rpcs x) (x_jobs x) (x_out x).
Definition x_with_loading_meta (v : SnapshotMetaPb) (x : SnapshotExecutor) : SnapshotExecutor :=
  mkExecutor (x_last_snapshot_term x) (x_last_snapshot_index x) (x_term x) (x_saving_snapshot x) (x_loading_snapshot x)
    (x_stopped x) (x_node x) (x_cur_copier x) (x_downloading_snapshot x) v (x_running_jobs x) (x_throttle x)
    (x_storage x) (x_heap x) (x_rpcs x) (x_jobs x) (x_out x).
Definition x_with_running (v : Z) (x : SnapshotExecutor) : SnapshotExecutor :=
  mkExecutor (x_last_snapshot_term x) (x_last_snapshot_index x) (x_term x) (x_saving_snapshot x) (x_loading_snapshot x)
    (x_stopped x) (x_node x) (x_cur_copier x) (x_downloading_snapshot x) (x_loading_snapshot_meta x) v (x_throttle x)
    (x_storage x) (x_heap x) (x_rpcs x) (x_jobs x) (x_out x).
Definition x_with_throttle (v : option Z) (x : SnapshotExecutor) : SnapshotExecutor :=
  mkExecutor (x_last_snapshot_term x) (x_last_snapshot_index x) (x_term x) (x_saving_snapshot x) (x_loading_snapshot x)
    (x_stopped x) (x_node x) (x_cur_copier x) (x_downloading_snapshot x) (x_loading_snapshot_meta x) (x_running_jobs x)
    v (x_storage x) (x_heap x) (x_rpcs x) (x_jobs x) (x_out x).
Definition x_with_storage (v : S) (x : SnapshotExecutor) : SnapshotExecutor :=
  mkExecutor (x_last_snapshot_term x) (x_last_snapshot_index x) (x_term x) (x_saving_snapshot x) (x_loading_snapshot x)
    (x_stopped x) (x_node x) (x_cur_copier x) (x_downloading_snapshot x) (x_loading_snapshot_meta x) (x_running_jobs x)
    (x_throttle x) v (x_heap x) (x_rpcs x) (x_jobs x) (x_out x).
Definition x_with_heap (v : gmap Z DownloadingSnapshot) (x : SnapshotExecutor) : SnapshotExecutor :=
  mkExecutor (x_last_snapshot_term x) (x_last_snapshot_index x) (x_term x) (x_saving_snapshot x) (x_loading_snapshot x)
    (x_stopped x) (x_node x) (x_cur_copier x) (x_downloading_snapshot x) (x_loading_snapshot_meta x) (x_running_jobs x)
    (x_throttle x) (x_storage x) v (x_rpcs x) (x_jobs x) (x_out x).
Definition x_with_rpcs (v : gmap Z InstallRpc) (x : SnapshotExecutor) : SnapshotExecutor :=
  mkExecutor (x_last_snapshot_term x) (x_last_snapshot_index x) (x_term x) (x_saving_snapshot x) (x_loading_snapshot x)
    (x_stopped x) (x_node x) (x_cur_copier x) (x_downloading_snapshot x) (x_loading_snapshot_meta x) (x_running_jobs x)
    (x_throttle x) (x_storage x) (x_heap x) v (x_jobs x) (x_out x).
Definition x_with_jobs (v : gmap Z Job) (x : SnapshotExecutor) : SnapshotExecutor :=
  mkExecutor (x_last_snapshot_term x) (x_last_snapshot_index x) (x_term x) (x_saving_snapshot x) (x_loading_snapshot x)
    (x_stopped x) (x_node x) (x_cur_copier x) (x_downloading_snapshot x) (x_loading_snapshot_meta x) (x_running_jobs x)
    (x_throttle x) (x_storage x) (x_heap x) (x_rpcs x) v (x_out x).
Definition x_with_out (v : list ExecutorEvent) (x : SnapshotExecutor) : SnapshotExecutor :=
  mkExecutor (x_last_snapshot_term x) (x_last_snapshot_index x) (x_term x) (x_saving_snapshot x) (x_loading_snapshot x)
    (x_stopped x) (x_node x) (x_cur_copier x) (x_downloading_snapshot x) (x_loading_snapshot_meta x) (x_running_jobs x)
    (x_throttle x) (x_storage x) (x_heap x) (x_rpcs x) (x_jobs x) v.
Definition x_with_node (node : bool) (term : Z) (throttle : option Z) (x : SnapshotExecutor) : SnapshotExecutor :=
  mkExecutor (x_last_snapshot_term x) (x_last_snapshot_index x) term (x_saving_snapshot x) (x_loading_snapshot x)
    (x_stopped x) node (x_cur_copier x) (x_downloading_snapshot x) (x_loading_snapshot_meta x) (x_running_jobs x)
    throttle (x_storage x) (x_heap x) (x_rpcs x) (x_jobs x) (x_out x).

(** ** Helpers *)

Abbreviation X := (ST SnapshotExecutor).

Definition x_emit (es : list ExecutorEvent) : X unit := st_mod (λ x, x_with_out (x_out x ++ es) x).

(** A call of the storage. *)
Definition x_sto {A} (m : ST S A) : X A := λ x,
  '(a, s) ← m (x_storage x);
  Some (a, x_with_storage s x).

Definition x_set_job (id : Z) (j : Job) : X unit := st_mod (λ x, x_with_jobs (<[id := j]> (x_jobs x)) x).
Definition x_end_job (id : Z) : X unit := st_mod (λ x, x_with_jobs (delete id (x_jobs x)) x).
Definition x_new_job (j : Job) : X unit := st_mod (λ x, x_with_jobs (<[fresh (dom (x_jobs x)) := j]> (x_jobs x)) x).

(** [_running_jobs.add_count(v)] and [signal()]. *)
Definition x_count_jobs (v : Z) : X unit := st_mod (λ x, x_with_running (x_running_jobs x + v) x).

(** An access to an rpc: it is a live object. *)
Definition x_mod_rpc (id : Z) (f : InstallRpc → InstallRpc) : X unit :=
  rpcs ← st_get x_rpcs;
  r ← st_lift (rpcs !! id);
  st_mod (x_with_rpcs (<[id := f r]> rpcs)).

Definition rpc_set_failed (code : Z) (r : InstallRpc) : InstallRpc :=
  mkInstallRpc (rp_request r) code (rp_term r) (rp_success r) (rp_runs r).
Definition rpc_set_term (t : Z) (r : InstallRpc) : InstallRpc :=
  mkInstallRpc (rp_request r) (rp_failed r) (Some t) (rp_success r) (rp_runs r).
Definition rpc_set_success (b : bool) (r : InstallRpc) : InstallRpc :=
  mkInstallRpc (rp_request r) (rp_failed r) (rp_term r) (Some b) (rp_runs r).
Definition rpc_run (r : InstallRpc) : InstallRpc :=
  mkInstallRpc (rp_request r) (rp_failed r) (rp_term r) (rp_success r) (rp_runs r + 1).

(** The object at [p]. *)
Definition x_ds (p : Z) : X DownloadingSnapshot :=
  heap ← st_get x_heap;
  st_lift (heap !! p).

Definition x_free (p : Z) : X unit := st_mod (λ x, x_with_heap (delete p (x_heap x)) x).

(** [run_closure_in_fiber(done)], for a closure that may be NULL. *)
Definition run_closure (done : option Closure) (status : Z) : X unit :=
  match done with Some c => x_emit [XvRun c status] | None => mret tt end.

Definition report_error (error_code : Z) : X unit := x_emit [XvReportError error_code].

(** A line of the log that names [_node->node_id()]. *)
Definition log_node : X unit :=
  node ← st_get x_node;
  st_check (node = true).

(** ** Saving *)

Definition raft_do_snapshot_min_index_gap : Z := 1.

(** [last_applied_index] and [saved] are the answers of the caller to
    [last_applied_index()] and [on_snapshot_save(done)]. *)
Definition do_snapshot (done : option Closure) (last_applied_index saved : Z) : X unit :=
  stopped ← st_get x_stopped;
  if (stopped : bool) then run_closure done EPERM
  else
    downloading ← st_get x_downloading_snapshot;
    if decide (is_Some downloading) then run_closure done EBUSY
    else
      saving ← st_get x_saving_snapshot;
      if (saving : bool) then run_closure done EBUSY
      else
        last ← st_get x_last_snapshot_index;
        if decide (last_applied_index - last < raft_do_snapshot_min_index_gap) then
          x_emit [XvClearBufferredLogs];;
          run_closure done 0
        else
          writer ← x_sto sto_create;
          match writer with
          | None => run_closure done EIO;; report_error EIO
          | Some w =>
              st_mod (x_with_saving true);;
              if decide (saved ≠ 0) then
                match done with
                | Some _ => x_new_job (JobSaveRunning (mkSaveSnapshotDone w done empty_meta EHOSTDOWN))
                | None => mret tt
                end
              else
                x_new_job (JobSaveQueued (mkSaveSnapshotDone w done empty_meta 0));;
                x_count_jobs 1
          end.

(** [SaveSnapshotDone::start(meta)], called by the caller. *)
Definition save_start (id : Z) (sd : SaveSnapshotDone) (meta : SnapshotMetaPb) : X SnapshotWriter :=
  x_set_job id (JobSaveQueued (mkSaveSnapshotDone (sd_writer sd) (sd_done sd) meta (sd_status sd)));;
  mret (sd_writer sd).

(** [SaveSnapshotDone::Run()] with the status the caller or the user set. *)
Definition save_run (id : Z) (sd : SaveSnapshotDone) (status : Z) : X unit :=
  x_set_job id (JobSaveRunning (mkSaveSnapshotDone (sd_writer sd) (sd_done sd) (sd_meta sd) status)).

(** [on_snapshot_save_done(st, meta, writer)] up to the first [unlock]. *)
Definition save_done_check (id : Z) (sd : SaveSnapshotDone) : X unit :=
  last ← st_get x_last_snapshot_index;
  if decide (sd_status sd = 0 ∧ smp_last_included_index (sd_meta sd) ≤ last) then
    x_sto (writer_set_error (sd_writer sd) ESTALE);;
    x_set_job id (JobSaveChecked sd ESTALE)
  else x_set_job id (JobSaveChecked sd (sd_status sd)).

(** Without the mutex: the meta is saved and the writer closed. *)
Definition save_done_close (id : Z) (sd : SaveSnapshotDone) (ret : Z) : X unit :=
  let w := sd_writer sd in
  ret ← (if decide (ret = 0) then
           rc ← x_sto (writer_save_meta w (sd_meta sd));
           if decide (rc ≠ 0) then log_node;; mret EIO else mret 0
         else
           ok ← st_get (λ x, writer_is_ok w (x_storage x));
           (if (ok : bool) then x_sto (writer_set_error w ret) else mret tt);;
           mret ret);
  rc ← x_sto (sto_close_writer w);
  ret ← (if decide (rc ≠ 0) then log_node;; mret EIO else mret ret);
  x_set_job id (JobSaveClosed sd ret).

(** The end of [on_snapshot_save_done] and what [continue_run] does after it. *)
Definition save_done_end (id : Z) (sd : SaveSnapshotDone) (ret : Z) : X unit :=
  (if decide (ret = EIO) then report_error EIO else mret tt);;
  st_mod (x_with_saving false);;
  x_count_jobs (-1);;
  x_end_job id;;
  run_closure (sd_done sd) (if decide (ret ≠ 0 ∧ sd_status sd = 0) then ret else sd_status sd).

(** From the second [lock] on; a snapshot that was saved releases the mutex
    once more to tell the log manager. *)
Definition save_done_commit (id : Z) (sd : SaveSnapshotDone) (ret : Z) : X unit :=
  if decide (ret = 0) then
    st_mod (x_with_last (smp_last_included_index (sd_meta sd)) (smp_last_included_term (sd_meta sd)));;
    x_set_job id (JobSaveSet sd)
  else save_done_end id sd ret.

Definition save_done_set (id : Z) (sd : SaveSnapshotDone) : X unit :=
  x_emit [XvSetSnapshot (sd_meta sd)];;
  save_done_end id sd 0.

(** ** Loading *)

(** [on_snapshot_load_done(st)] up to the first [unlock]: the downloading
    snapshot it has seen. *)
Definition load_done_set (status : Z) : X (option Z) :=
  loading ← st_get x_loading_snapshot;
  st_check (loading = true);;
  m ← st_get x_downloading_snapshot;
  meta ← st_get x_loading_snapshot_meta;
  (if decide (status = 0) then
     st_mod (x_with_last (smp_last_included_index meta) (smp_last_included_term meta));;
     x_emit [XvSetSnapshot meta]
   else mret tt);;
  mret m.

(** Its rest. *)
Definition load_done_end (status : Z) (m : option Z) : X unit :=
  node ← st_get x_node;
  (if (node : bool) then x_emit [XvUpdateConfiguration] else mret tt);;
  st_mod (x_with_loading false);;
  st_mod (x_with_downloading None);;
  (match m with
   | Some p =>
       ds ← x_ds p;
       x_mod_rpc (ds_rpc ds) (if decide (status ≠ 0) then rpc_set_failed status else rpc_set_success true);;
       x_mod_rpc (ds_rpc ds) rpc_run;;
       x_free p
   | None => mret tt
   end);;
  x_count_jobs (-1).

(** [InstallSnapshotDone::Run()], cut where the mutex is released, with the
    destructor of the closure. *)
Definition install_done_set (id : Z) (reader : SnapshotReader) (status : Z) : X unit :=
  m ← load_done_set status;
  x_set_job id (JobLoadDone reader status m).

Definition install_done_end (id : Z) (reader : SnapshotReader) (status : Z) (m : option Z) : X unit :=
  load_done_end status m;;
  x_sto (sto_close_reader reader);;
  x_end_job id.

(** [init(options)].  [uri_empty] is [options.uri.empty()], [created] says that
    the kind of storage is known, [local] that it is a [LocalSnapshotStorage];
    [queued] and [status] are the caller's: the result of [on_snapshot_load] and
    the status with which it runs the closure. *)
Definition executor_init (uri_empty : bool) (node : bool) (init_term : Z) (created : bool) (throttle : option Z)
    (local copy_file : bool) (queued status : Z) : X Z :=
  if uri_empty then log_node;; mret (-1)
  else
    st_mod (x_with_node node init_term throttle);;
    if negb created then log_node;; mret (-1)
    else
      rc ← x_sto sto_init;
      if decide (rc ≠ 0) then log_node;; mret (-1)
      else
        (if negb copy_file then st_check (local = true) else mret tt);;
        reader ← x_sto sto_open;
        match reader with
        | None => mret 0
        | Some reader =>
            meta ← st_get (λ x, reader_load_meta reader (x_storage x));
            match meta with
            | None => x_sto (sto_close_reader reader);; mret (-1)
            | Some meta =>
                st_mod (x_with_loading_meta meta);;
                st_mod (x_with_loading true);;
                x_count_jobs 1;;
                st_check (queued = 0);;
                m ← load_done_set status;
                load_done_end status m;;
                x_sto (sto_close_reader reader);;
                mret (if decide (status ≠ 0) then -1 else 0)
            end
        end.

(** ** Installing *)

Definition raft_max_install_snapshot_tasks_num : Z := 1000.

(** [add_one_more_task(false)] and [finish_one_task(false)], with a throttle. *)
Definition add_one_more_task : X bool :=
  throttle ← st_get x_throttle;
  match throttle with
  | None => mret true
  | Some num =>
      if decide (raft_max_install_snapshot_tasks_num ≤ num) then mret false
      else st_mod (x_with_throttle (Some (num + 1)));; mret true
  end.

Definition finish_one_task : X unit :=
  throttle ← st_get x_throttle;
  match throttle with
  | None => mret tt
  | Some num => st_mod (x_with_throttle (Some (num - 1)));; st_check (0 ≤ num - 1)
  end.

(** [register_downloading_snapshot] when a snapshot [m] is being installed. *)
Definition register_other (p m : Z) : X Z :=
  ds ← x_ds p;
  old ← x_ds m;
  let index r := smp_last_included_index (is_meta r) in
  if decide (index (ds_request old) = index (ds_request ds)) then
    st_mod (λ x, x_with_heap (<[m := ds]> (x_heap x)) x);;
    x_mod_rpc (ds_rpc old) (rpc_set_failed EINTR);;
    x_mod_rpc (ds_rpc old) rpc_run;;
    mret 1
  else if decide (index (ds_request old) > index (ds_request ds)) then
    x_mod_rpc (ds_rpc ds) (rpc_set_failed EINVAL);;
    mret (-1)
  else
    loading ← st_get x_loading_snapshot;
    if (loading : bool) then
      x_mod_rpc (ds_rpc ds) (rpc_set_failed EBUSY);;
      mret (-1)
    else
      copier ← st_get x_cur_copier;
      c ← st_lift copier;
      x_sto (copier_cancel c);;
      x_mod_rpc (ds_rpc ds) (rpc_set_failed EBUSY);;
      mret (-1).

Definition register_downloading_snapshot (p : Z) : X Z :=
  ds ← x_ds p;
  let request := ds_request ds in
  stopped ← st_get x_stopped;
  if (stopped : bool) then x_mod_rpc (ds_rpc ds) (rpc_set_failed EHOSTDOWN);; mret (-1)
  else
    term ← st_get x_term;
    if decide (is_term request ≠ term) then
      x_mod_rpc (ds_rpc ds) (rpc_set_success false);;
      x_mod_rpc (ds_rpc ds) (rpc_set_term term);;
      mret (-1)
    else
      last ← st_get x_last_snapshot_index;
      if decide (smp_last_included_index (is_meta request) ≤ last) then
        x_mod_rpc (ds_rpc ds) (rpc_set_term term);;
        x_mod_rpc (ds_rpc ds) (rpc_set_success true);;
        mret (-1)
      else
        x_mod_rpc (ds_rpc ds) (rpc_set_term term);;
        saving ← st_get x_saving_snapshot;
        if (saving : bool) then x_mod_rpc (ds_rpc ds) (rpc_set_failed EBUSY);; mret (-1)
        else
          downloading ← st_get x_downloading_snapshot;
          match downloading with
          | Some m => register_other p m
          | None =>
              st_mod (x_with_downloading (Some p));;
              copier ← st_get x_cur_copier;
              st_check (copier = None);;
              c ← x_sto (sto_start_to_copy_from (is_uri request));
              st_mod (x_with_copier c);;
              match c with
              | None =>
                  st_mod (x_with_downloading None);;
                  x_mod_rpc (ds_rpc ds) (rpc_set_failed EINVAL);;
                  mret (-1)
              | Some _ => x_count_jobs 1;; mret 0
              end
          end.

(** [install_snapshot] up to [join], for an rpc [rpc] with its [request]. *)
Definition install_snapshot (request : InstallSnapshotRequest) (rpc : Z) : X unit :=
  admitted ← add_one_more_task;
  if negb admitted then
    x_mod_rpc rpc (rpc_set_failed EBUSY);;
    x_mod_rpc rpc rpc_run
  else
    p ← st_get (λ x, fresh (dom (x_heap x)));
    st_mod (λ x, x_with_heap (<[p := mkDownloadingSnapshot request rpc]> (x_heap x)) x);;
    ret ← register_downloading_snapshot p;
    if decide (ret ≠ 0) then
      finish_one_task;;
      x_free p;;
      if decide (ret > 0) then mret tt else x_mod_rpc rpc rpc_run
    else x_new_job (JobDownload p (is_meta request)).

(** [if (reader) { _snapshot_storage->close(reader); }] *)
Definition close_reader_if (reader : option SnapshotReader) : X unit :=
  match reader with Some r => x_sto (sto_close_reader r);; mret tt | None => mret tt end.

(** [load_downloading_snapshot] returns without a snapshot: what it does after
    [unlock], with its destructors. *)
Definition download_failed (id p rpc : Z) : X unit :=
  x_count_jobs (-1);;
  x_mod_rpc rpc rpc_run;;
  x_free p;;
  x_end_job id.

(** [install_snapshot] from [join] on and [load_downloading_snapshot(ds, meta)]
    up to [unlock]. *)
Definition load_downloading_snapshot (id p : Z) (meta : SnapshotMetaPb) : X unit :=
  finish_one_task;;
  downloading ← st_get x_downloading_snapshot;
  st_check (downloading = Some p);;
  ds ← x_ds p;
  copier ← st_get x_cur_copier;
  c ← st_lift copier;
  reader ← st_get (λ x, copier_reader c (x_storage x));
  error ← st_get (λ x, copier_error c (x_storage x));
  if decide (error ≠ 0) then
    (if decide (error = EIO) then report_error error else mret tt);;
    close_reader_if reader;;
    x_mod_rpc (ds_rpc ds) (rpc_set_failed error);;
    x_sto (sto_close_copier c);;
    st_mod (x_with_copier None);;
    st_mod (x_with_downloading None);;
    download_failed id p (ds_rpc ds)
  else
    x_sto (sto_close_copier c);;
    st_mod (x_with_copier None);;
    ok ← st_get (λ x, match reader with Some r => reader_is_ok r (x_storage x) | None => false end);
    match reader, ok with
    | Some r, true =>
        st_mod (x_with_loading true);;
        st_mod (x_with_loading_meta meta);;
        x_set_job id (JobLoadCall r)
    | _, _ =>
        close_reader_if reader;;
        st_mod (x_with_downloading None);;
        x_mod_rpc (ds_rpc ds) (rpc_set_failed EINTERNAL);;
        download_failed id p (ds_rpc ds)
    end.

(** Its rest; [queued] is the result of [on_snapshot_load]. *)
Definition load_call (id : Z) (reader : SnapshotReader) (queued : Z) : X unit :=
  if decide (queued ≠ 0) then log_node;; x_set_job id (JobLoadRunning reader EHOSTDOWN)
  else x_set_job id (JobLoadQueued reader).

(** ** Interruption *)

Definition interrupt_downloading_snapshot (new_term : Z) : X unit :=
  term ← st_get x_term;
  st_check (term ≤ new_term);;
  st_mod (x_with_term new_term);;
  downloading ← st_get x_downloading_snapshot;
  if decide (downloading = None) then mret tt
  else
    loading ← st_get x_loading_snapshot;
    if (loading : bool) then mret tt
    else
      copier ← st_get x_cur_copier;
      c ← st_lift copier;
      x_sto (copier_cancel c).

Definition shutdown : X unit :=
  saved_term ← st_get x_term;
  st_mod (x_with_stopped true);;
  x_new_job (JobShutdown saved_term).

Definition shutdown_interrupt (id saved_term : Z) : X unit :=
  x_end_job id;;
  interrupt_downloading_snapshot saved_term.

(** [join()] returns. *)
Definition executor_joined (x : SnapshotExecutor) : bool := bool_decide (x_running_jobs x ≤ 0).

(** [~SnapshotExecutor()] after [join()]. *)
Definition executor_destroy : X unit :=
  saving ← st_get x_saving_snapshot;
  st_check (saving = false);;
  copier ← st_get x_cur_copier;
  st_check (copier = None);;
  loading ← st_get x_loading_snapshot;
  st_check (loading = false);;
  downloading ← st_get x_downloading_snapshot;
  st_check (downloading = None).

Definition is_installing_snapshot (x : SnapshotExecutor) : bool := bool_decide (is_Some (x_downloading_snapshot x)).

(** The status [describe] prints. *)
Inductive SnapshotStatus := STATUS_LOADING | STATUS_DOWNLOADING | STATUS_SAVING | STATUS_IDLE.

Definition describe : X SnapshotStatus :=
  downloading ← st_get x_downloading_snapshot;
  loading ← st_get x_loading_snapshot;
  saving ← st_get x_saving_snapshot;
  if decide (is_Some downloading) then
    st_check (saving = false);;
    mret (if (loading : bool) then STATUS_LOADING else STATUS_DOWNLOADING)
  else mret (if (saving : bool) then STATUS_SAVING else STATUS_IDLE).

End executor.
