(* ===== verification/SnapshotExecutorSpec.v ===== *)
(** * The snapshot executor: its runs

    [xexec] runs one step of an executor, [xenabled] says when the rest of the
    system lets the step happen.  [exec_ok] is the invariant: there is at most
    one job besides [shutdown], and it determines the flags, the copier, the
    objects on the heap, the count of jobs and what the storage is used for.
    The storage is any one with the laws of [SnapshotStorageLaws]: each call is
    allowed where the executor makes it. *)

From stdpp Require Import prelude gmap sorting.
From S2P Require Import Prelude ClosureQueue StateMonad Messages SnapshotExecutor.
Local Open Scope Z_scope.

Section laws.
Context {S : Type} `{SnapshotStorage S}.

(** What the storage is used for: at most one writer or copier, which owns the
    reader it opened until [get_reader]. *)
Inductive StorageUse :=
  | Free
  | Writing (w : SnapshotWriter)
  | Copying (c : SnapshotCopier)
  | Copied (c : SnapshotCopier).

(** [sto_use s u rds]: the storage is used for [u], and the executor holds the
    readers [rds].  [sto_env] is what others do: the user with the writer, the
    copier in the background, the owners of other readers.  A writer is
    [closable] when it has an error or all it needs. *)
Class SnapshotStorageLaws := {
  sto_env : S → S → Prop;
  sto_fresh : S → Prop;
  sto_use : S → StorageUse → list SnapshotReader → Prop;
  sto_fits : SnapshotWriter → SnapshotMetaPb → S → Prop;
  closable : SnapshotWriter → S → Prop;
  use_init s : sto_fresh s → ∃ rc s', sto_init s = Some (rc, s') ∧ (rc = 0 → sto_use s' Free []);
  use_env s s' u rds : sto_use s u rds → sto_env s s' → sto_use s' u rds;
  use_create s rds :
    sto_use s Free rds → ∃ r s', sto_create s = Some (r, s') ∧
      sto_use s' (match r with Some w => Writing w | None => Free end) rds;
  use_set_error s w e rds :
    sto_use s (Writing w) rds → ∃ s', writer_set_error w e s = Some (tt, s') ∧ sto_use s' (Writing w) rds ∧
      (e ≠ 0 → closable w s');
  use_save_meta s w meta rds :
    sto_use s (Writing w) rds → ∃ rc s', writer_save_meta w meta s = Some (rc, s') ∧ sto_use s' (Writing w) rds ∧
      (sto_fits w meta s → closable w s');
  use_failed s w rds : sto_use s (Writing w) rds → writer_is_ok w s = false → closable w s;
  use_close_writer s w rds :
    sto_use s (Writing w) rds → closable w s → ∃ rc s', sto_close_writer w s = Some (rc, s') ∧ sto_use s' Free rds;
  use_open s u rds :
    sto_use s u rds → ∃ r s', sto_open s = Some (r, s') ∧ sto_use s' u (option_list r ++ rds);
  use_close_reader s u r rds :
    sto_use s u (r :: rds) → ∃ rc s', sto_close_reader r s = Some (rc, s') ∧ sto_use s' u rds;
  use_copy_from s uri rds :
    sto_use s Free rds → ∃ r s', sto_start_to_copy_from uri s = Some (r, s') ∧
      sto_use s' (match r with Some c => Copying c | None => Free end) rds;
  use_cancel s c rds : sto_use s (Copying c) rds → ∃ s', copier_cancel c s = Some (tt, s') ∧ sto_use s' (Copying c) rds;
  use_get_reader s c rds :
    sto_use s (Copying c) rds → copier_joined c s = true → sto_use s (Copied c) (option_list (copier_reader c s) ++ rds);
  use_close_copier s c rds :
    sto_use s (Copied c) rds → ∃ rc s', sto_close_copier c s = Some (rc, s') ∧ sto_use s' Free rds;
}.
End laws.

Section runs.
Context {S : Type} `{Hsto : SnapshotStorage S} `{Hlaws : !SnapshotStorageLaws}.
Implicit Types (x : SnapshotExecutor) (act : option (Z * Job)).
Abbreviation X := (ST SnapshotExecutor).

(** ** Steps *)

Inductive XAction :=
  (** The answers of the caller to [last_applied_index] and [on_snapshot_save]. *)
  | XDoSnapshot (done : option Closure) (last_applied_index saved : Z)
  (** The caller starts a save; it or the user runs the closure. *)
  | XSaveStart (id : Z) (meta : SnapshotMetaPb)
  | XSaveRun (id : Z) (status : Z)
  (** A new rpc. *)
  | XInstall (request : InstallSnapshotRequest) (rpc : Z)
  (** The caller takes the closure of a load, or not, and runs it. *)
  | XLoadCall (id : Z) (queued : Z)
  | XLoadRun (id : Z) (status : Z)
  (** A job goes on. *)
  | XNext (id : Z)
  | XInterrupt (new_term : Z)
  | XShutdown
  (** Others use the storage and the throttle. *)
  | XStorage (s : S)
  | XThrottle (num : Z).

Definition job_next (id : Z) (j : Job) : X unit :=
  match j with
  | JobSaveRunning sd => save_done_check id sd
  | JobSaveChecked sd ret => save_done_close id sd ret
  | JobSaveClosed sd ret => save_done_commit id sd ret
  | JobSaveSet sd => save_done_set id sd
  | JobDownload p meta => load_downloading_snapshot id p meta
  | JobLoadRunning reader status => install_done_set id reader status
  | JobLoadDone reader status m => install_done_end id reader status m
  | JobShutdown saved_term => shutdown_interrupt id saved_term
  | JobSaveQueued _ | JobLoadCall _ | JobLoadQueued _ => mret tt
  end.

Definition on_job (id : Z) (f : Job → X unit) : X unit :=
  j ← st_get (λ x, x_jobs x !! id);
  match j with Some j => f j | None => mret tt end.

Definition xexec (a : XAction) : X unit :=
  match a with
  | XDoSnapshot done applied saved => do_snapshot done applied saved
  | XSaveStart id meta =>
      on_job id (λ j, match j with JobSaveQueued sd => save_start id sd meta;; mret tt | _ => mret tt end)
  | XSaveRun id status => on_job id (λ j, match j with JobSaveQueued sd => save_run id sd status | _ => mret tt end)
  | XInstall request rpc =>
      st_mod (λ x, x_with_rpcs (<[rpc := mkInstallRpc request 0 None None 0]> (x_rpcs x)) x);;
      install_snapshot request rpc
  | XLoadCall id queued => on_job id (λ j, match j with JobLoadCall r => load_call id r queued | _ => mret tt end)
  | XLoadRun id status =>
      on_job id (λ j, match j with JobLoadQueued r => x_set_job id (JobLoadRunning r status) | _ => mret tt end)
  | XNext id => on_job id (job_next id)
  | XInterrupt new_term => interrupt_downloading_snapshot new_term
  | XShutdown => shutdown
  | XStorage s => st_mod (x_with_storage s)
  | XThrottle num => st_mod (λ x, x_with_throttle ((λ _, num) <$> x_throttle x) x)
  end.

(** Tasks of this executor the throttle counts. *)
Definition own_tasks act : Z := match act with Some (_, JobDownload _ _) => 1 | _ => 0 end.

Definition no_shutdown x : Prop := ∀ id t, x_jobs x !! id ≠ Some (JobShutdown t).

(** A new rpc is a new object.  A copier that is joined has finished.  A save
    that succeeded is of a size that can be written.  The node's mutex orders
    [interrupt_downloading_snapshot], whose terms do not decrease, and
    [shutdown].  The node shuts the caller down after the executor
    ([NodeImpl::shutdown]): until then the caller takes a save.  The throttle
    counts the tasks of this executor. *)
Definition xenabled x (a : XAction) : Prop :=
  match a with
  | XDoSnapshot _ _ saved => x_stopped x = false → saved = 0
  | XInstall _ rpc => x_rpcs x !! rpc = None
  | XNext id =>
      match x_jobs x !! id with
      | Some (JobDownload _ _) => ∃ c, x_cur_copier x = Some c ∧ copier_joined c (x_storage x) = true
      | Some (JobSaveChecked sd ret) => ret = 0 → sto_fits (sd_writer sd) (sd_meta sd) (x_storage x)
      | _ => True
      end
  | XInterrupt new_term => x_term x ≤ new_term ∧ no_shutdown x
  | XStorage s => sto_env (x_storage x) s
  | XThrottle num => 0 ≤ num ∧ ∀ id j, x_jobs x !! id = Some j → own_tasks (Some (id, j)) ≤ num
  | _ => True
  end.

(** ** The invariant *)

Definition is_shutdown (j : Job) : Prop := match j with JobShutdown _ => True | _ => False end.
#[global] Instance is_shutdown_dec j : Decision (is_shutdown j).
Proof. destruct j; apply _. Defined.

(** [act] is the one job besides [shutdown]. *)
Definition jobs_ok (jobs : gmap Z Job) act : Prop :=
  (∀ id j, jobs !! id = Some j → is_shutdown j ∨ act = Some (id, j)) ∧
  (∀ id j, act = Some (id, j) → jobs !! id = Some j ∧ ¬ is_shutdown j).

Record mode_is x (saving loading : bool) (copier : option SnapshotCopier) (dl : option (Z * DownloadingSnapshot))
    (running : Z) (u : StorageUse) (rds : list SnapshotReader) : Prop := {
  md_saving : x_saving_snapshot x = saving;
  md_loading : x_loading_snapshot x = loading;
  md_copier : x_cur_copier x = copier;
  md_downloading : x_downloading_snapshot x = fst <$> dl;
  md_heap : x_heap x = match dl with Some (p, ds) => {[p := ds]} | None => ∅ end;
  md_running : x_running_jobs x = running;
  md_use : sto_use (x_storage x) u rds;
}.

Definition req_index (r : InstallSnapshotRequest) : Z := smp_last_included_index (is_meta r).

(** The snapshot [m] installed for [ds], newer than the last one. *)
Definition newer x (ds : DownloadingSnapshot) (m : SnapshotMetaPb) : Prop :=
  req_index (ds_request ds) = smp_last_included_index m ∧ x_last_snapshot_index x < smp_last_included_index m.

Definition job_mode x (j : Job) : Prop :=
  match j with
  | JobSaveQueued sd | JobSaveRunning sd => mode_is x true false None None 1 (Writing (sd_writer sd)) []
  | JobSaveChecked sd ret =>
      mode_is x true false None None 1 (Writing (sd_writer sd)) [] ∧
      (ret = 0 → sd_status sd = 0 ∧ x_last_snapshot_index x < smp_last_included_index (sd_meta sd))
  | JobSaveClosed sd ret =>
      mode_is x true false None None 1 Free [] ∧
      (ret = 0 → sd_status sd = 0 ∧ x_last_snapshot_index x < smp_last_included_index (sd_meta sd))
  | JobSaveSet sd =>
      mode_is x true false None None 1 Free [] ∧ sd_status sd = 0 ∧
      x_last_snapshot_index x = smp_last_included_index (sd_meta sd)
  | JobDownload p meta =>
      ∃ c ds, mode_is x false false (Some c) (Some (p, ds)) 1 (Copying c) [] ∧ newer x ds meta
  | JobLoadCall r | JobLoadQueued r | JobLoadRunning r _ =>
      ∃ p ds, mode_is x false true None (Some (p, ds)) 1 Free [r] ∧ newer x ds (x_loading_snapshot_meta x)
  | JobLoadDone r status m =>
      ∃ p ds, m = Some p ∧ mode_is x false true None (Some (p, ds)) 1 Free [r] ∧
        (status = 0 → req_index (ds_request ds) = x_last_snapshot_index x)
  | JobShutdown _ => False
  end.

Definition exec_mode x act : Prop :=
  match act with
  | None => mode_is x false false None None 0 Free []
  | Some (_, j) => job_mode x j
  end.

(** An answer that can be sent: an error, or both fields; success means that
    the snapshot, or a newer one, is in place. *)
Definition answer_ok (last : Z) (r : InstallRpc) : Prop :=
  rp_failed r ≠ 0 ∨ ∃ t b, rp_term r = Some t ∧ rp_success r = Some b ∧ (b = true → req_index (rp_request r) ≤ last).

(** Unanswered rpcs are those on the heap. *)
Definition rpcs_ok (last : Z) (rpcs : gmap Z InstallRpc) (heap : gmap Z DownloadingSnapshot) : Prop :=
  (∀ id r, rpcs !! id = Some r →
    rp_runs r = 1%nat ∧ answer_ok last r ∨ ∃ p ds, heap !! p = Some ds ∧ ds_rpc ds = id) ∧
  (∀ p ds, heap !! p = Some ds → ∃ r, rpcs !! ds_rpc ds = Some r ∧ rp_runs r = 0%nat ∧ rp_failed r = 0 ∧
    is_Some (rp_term r) ∧ rp_request r = ds_request ds).

Definition set_indexes (out : list ExecutorEvent) : list Z :=
  omap (λ e, match e with XvSetSnapshot m => Some (smp_last_included_index m) | _ => None end) out.

(** What the log manager has been told, or is about to be. *)
Definition pending_set act : list Z :=
  match act with Some (_, JobSaveSet sd) => [smp_last_included_index (sd_meta sd)] | _ => [] end.

Definition sets_ok x act : Prop :=
  let l := set_indexes (x_out x) ++ pending_set act in StronglySorted Z.lt l ∧ Forall (λ i, i ≤ x_last_snapshot_index x) l.

Definition runs_of (out : list ExecutorEvent) : list Closure :=
  omap (λ e, match e with XvRun c _ => Some c | _ => None end) out.

Definition job_closure (j : Job) : option Closure :=
  match j with
  | JobSaveQueued sd | JobSaveRunning sd | JobSaveChecked sd _ | JobSaveClosed sd _ | JobSaveSet sd => sd_done sd
  | _ => None
  end.

Definition pending_closure act : list Closure :=
  match act with Some (_, j) => option_list (job_closure j) | None => [] end.

(** [cs] are the closures given to [do_snapshot]. *)
Record exec_ok (cs : list Closure) x act : Prop := {
  ok_jobs : jobs_ok (x_jobs x) act;
  ok_mode : exec_mode x act;
  ok_node : x_node x = true;
  ok_rpcs : rpcs_ok (x_last_snapshot_index x) (x_rpcs x) (x_heap x);
  ok_throttle num : x_throttle x = Some num → own_tasks act ≤ num;
  ok_term id t : x_jobs x !! id = Some (JobShutdown t) → t = x_term x;
  ok_sets : sets_ok x act;
  ok_closures : cs ≡ₚ runs_of (x_out x) ++ pending_closure act;
}.

Definition requested (a : XAction) : list Closure :=
  match a with XDoSnapshot done _ _ => option_list done | _ => [] end.

(** What every step keeps: the index of the last snapshot does not decrease
    and answers stay. *)
Definition exec_mono x x' : Prop :=
  x_last_snapshot_index x ≤ x_last_snapshot_index x' ∧
  ∀ id r, x_rpcs x !! id = Some r → rp_runs r = 1%nat → x_rpcs x' !! id = Some r.

(** ** Evaluation *)

Lemma x_sto_eq {A} (m : ST S A) x a s : m (x_storage x) = Some (a, s) → x_sto m x = Some (a, x_with_storage s x).
Proof. intros Hm. unfold x_sto. by rewrite Hm. Qed.

Lemma x_mod_rpc_eq id f x r :
  x_rpcs x !! id = Some r → x_mod_rpc id f x = Some (tt, x_with_rpcs (<[id := f r]> (x_rpcs x)) x).
Proof.
  intros Hr. unfold x_mod_rpc. erewrite st_bind_eq by reflexivity. by erewrite st_bind_eq by (by apply st_lift_Some).
Qed.

Lemma x_ds_eq p x ds : x_heap x !! p = Some ds → x_ds p x = Some (ds, x).
Proof. intros Hp. unfold x_ds. erewrite st_bind_eq by reflexivity. by apply st_lift_Some. Qed.

Lemma on_job_eq id f x j : x_jobs x !! id = Some j → on_job id f x = f j x.
Proof. intros Hj. unfold on_job. erewrite st_bind_eq by reflexivity. by rewrite Hj. Qed.

Lemma check_bind_eq {A} (P : Prop) `{Decision P} (k : unit → X A) x : P → (st_check P ≫= k) x = k tt x.
Proof. intros HP. by rewrite (st_bind_eq _ _ _ tt x) by (by apply st_check_true). Qed.

Lemma log_node_eq x : x_node x = true → log_node x = Some (tt, x).
Proof. intros Hn. unfold log_node. erewrite st_bind_eq by reflexivity. by apply st_check_true. Qed.

(** ** Jobs *)

Lemma jobs_ok_set jobs id j j' : jobs_ok jobs (Some (id, j)) → ¬ is_shutdown j' → jobs_ok (<[id := j']> jobs) (Some (id, j')).
Proof.
  intros [Hall Hact] Hj'. split.
  - intros id' k. rewrite lookup_insert. case_decide as E; [subst; intros [= ->]; by right|]. intros Hk.
    destruct (Hall id' k Hk) as [|[= ? ?]]; [by left|]. congruence.
  - intros ? ? [= <- <-]. by rewrite lookup_insert_eq.
Qed.

Lemma jobs_ok_end jobs id j : jobs_ok jobs (Some (id, j)) → jobs_ok (delete id jobs) None.
Proof.
  intros [Hall Hact]. split; [|done]. intros id' k [Hne Hk]%lookup_delete_Some.
  destruct (Hall id' k Hk) as [|[= ? ?]]; [by left|]. congruence.
Qed.

Lemma jobs_ok_new jobs j : jobs_ok jobs None → ¬ is_shutdown j → jobs_ok (<[fresh (dom jobs) := j]> jobs) (Some (fresh (dom jobs), j)).
Proof.
  intros [Hall _] Hj. set (id := fresh _). split.
  - intros id' k. rewrite lookup_insert. case_decide as E; [subst; intros [= ->]; by right|]. intros Hk.
    destruct (Hall id' k Hk) as [|[=]]. by left.
  - intros ? ? [= <- <-]. by rewrite lookup_insert_eq.
Qed.

Lemma jobs_ok_shutdown jobs act t : jobs_ok jobs act → jobs_ok (<[fresh (dom jobs) := JobShutdown t]> jobs) act.
Proof.
  intros [Hall Hact]. assert (jobs !! fresh (dom jobs) = None) as Hf by (apply not_elem_of_dom, is_fresh). split.
  - intros id k. rewrite lookup_insert. case_decide; [intros [= <-]; by left|]. apply Hall.
  - intros id k Hk. destruct (Hact id k Hk) as [Hj ?]. split; [|done]. rewrite lookup_insert_ne; [done|]. intros E. by rewrite E, Hj in Hf.
Qed.

Lemma jobs_ok_end_shutdown jobs act id t : jobs_ok jobs act → jobs !! id = Some (JobShutdown t) → jobs_ok (delete id jobs) act.
Proof.
  intros [Hall Hact] Hid. split.
  - intros id' k [Hne Hk]%lookup_delete_Some. by apply Hall.
  - intros id' k Hk. destruct (Hact id' k Hk) as [Hj Hs]. split; [|done]. rewrite lookup_delete_ne; [done|]. intros <-.
    rewrite Hid in Hj. injection Hj as <-. by apply Hs.
Qed.

Lemma jobs_ok_active jobs act id j : jobs_ok jobs act → jobs !! id = Some j → ¬ is_shutdown j → act = Some (id, j).
Proof. intros [Hall _] Hid Hj. by destruct (Hall id j Hid). Qed.

(** Shutdown jobs are the same in both. *)
Definition same_shutdowns (jobs jobs' : gmap Z Job) : Prop :=
  ∀ id t, jobs' !! id = Some (JobShutdown t) → jobs !! id = Some (JobShutdown t).

Lemma same_shutdowns_insert jobs id j : ¬ is_shutdown j → same_shutdowns jobs (<[id := j]> jobs).
Proof. intros Hj i t. rewrite lookup_insert. case_decide; [|done]. intros [= ->]. by destruct Hj. Qed.

Lemma same_shutdowns_delete jobs id : same_shutdowns jobs (delete id jobs).
Proof. intros i t [_ ?]%lookup_delete_Some. done. Qed.

(** ** Answers *)

Lemma answer_ok_mono last last' r : last ≤ last' → answer_ok last r → answer_ok last' r.
Proof. intros Hle [?|(t & b & ? & ? & Hb)]; [by left|right]. exists t, b. split_and!; [done..|]. intros ->. specialize (Hb eq_refl). lia. Qed.

Lemma rpcs_ok_mono last last' rpcs heap : last ≤ last' → rpcs_ok last rpcs heap → rpcs_ok last' rpcs heap.
Proof.
  intros Hle [Hall Hheap]. split; [|done]. intros id r Hr. destruct (Hall id r Hr) as [[? ?]|?]; [left|by right].
  split; [done|]. by eapply answer_ok_mono.
Qed.

(** The one rpc on the heap is answered. *)
Lemma rpcs_ok_answer last rpcs p ds r :
  rpcs_ok last rpcs {[p := ds]} → rp_runs r = 1%nat → answer_ok last r → rpcs_ok last (<[ds_rpc ds := r]> rpcs) ∅.
Proof.
  intros [Hall Hheap] Hr Ha. split; [|intros q d Hq; by rewrite lookup_empty in Hq].
  intros id r'. rewrite lookup_insert. case_decide; [intros [= <-]; by left|]. intros Hr'.
  destruct (Hall id r' Hr') as [?|(q & d & [<- <-]%lookup_singleton_Some & ?)]; [by left|done].
Qed.

(** A new rpc is answered at once. *)
Lemma rpcs_ok_refuse last rpcs heap id r :
  rpcs_ok last rpcs heap → rpcs !! id = None → rp_runs r = 1%nat → answer_ok last r → rpcs_ok last (<[id := r]> rpcs) heap.
Proof.
  intros [Hall Hheap] Hid Hr Ha. split.
  - intros i r'. rewrite lookup_insert. case_decide; [intros [= <-]; by left|]. apply Hall.
  - intros p ds Hp. destruct (Hheap p ds Hp) as (r' & Hr' & ?). exists r'. split; [|done]. rewrite lookup_insert_ne; [done|].
    intros E. by rewrite <-E, Hid in Hr'.
Qed.

(** A new rpc is put on the heap. *)
Lemma rpcs_ok_accept last rpcs id p r :
  rpcs_ok last rpcs ∅ → rp_runs r = 0%nat → rp_failed r = 0 → is_Some (rp_term r) →
  rpcs_ok last (<[id := r]> rpcs) {[p := mkDownloadingSnapshot (rp_request r) id]}.
Proof.
  intros [Hall _] H1 H2 H3. split.
  - intros i r'. rewrite lookup_insert. case_decide as E; [subst i; intros [= <-]; right|].
    + eexists p, _. by rewrite lookup_singleton_eq.
    + intros Hr'. destruct (Hall i r' Hr') as [?|(q & d & Hq & _)]; [by left|]. by rewrite lookup_empty in Hq.
  - intros q d [<- <-]%lookup_singleton_Some. exists r. by rewrite lookup_insert_eq.
Qed.

(** A retried rpc takes the place of the one on the heap, which is answered. *)
Lemma rpcs_ok_replace last rpcs m old id r ro :
  rpcs_ok last rpcs {[m := old]} → rpcs !! id = None → rp_runs r = 0%nat → rp_failed r = 0 → is_Some (rp_term r) →
  rp_runs ro = 1%nat → answer_ok last ro →
  rpcs_ok last (<[ds_rpc old := ro]> (<[id := r]> rpcs)) {[m := mkDownloadingSnapshot (rp_request r) id]}.
Proof.
  intros [Hall Hheap] Hid H1 H2 H3 Hro Ha. destruct (Hheap m old) as (r0 & Hr0 & _); [by rewrite lookup_singleton_eq|].
  assert (ds_rpc old ≠ id) as Hne by (intros E; by rewrite E, Hid in Hr0). split.
  - intros i r'. rewrite !lookup_insert. case_decide; [intros [= <-]; by left|]. case_decide as E.
    + intros [= <-]. right. subst i. eexists m, _. by rewrite lookup_singleton_eq.
    + intros Hr'. destruct (Hall i r' Hr') as [?|(q & d & [<- <-]%lookup_singleton_Some & ?)]; [by left|done].
  - intros q d [<- <-]%lookup_singleton_Some. exists r. cbn [ds_rpc]. by rewrite lookup_insert_ne, lookup_insert_eq.
Qed.

Lemma exec_mono_refl x x' :
  x_last_snapshot_index x' = x_last_snapshot_index x → x_rpcs x' = x_rpcs x → exec_mono x x'.
Proof. intros Hl Hr. split; [lia|]. by rewrite Hr. Qed.

(** ** Steps that keep the invariant *)

(** [m], run from [x1] in a step that started in [x], ends well. *)
Definition keeps cs x (m : X unit) x1 : Prop :=
  ∃ x' act', m x1 = Some (tt, x') ∧ exec_ok cs x' act' ∧ exec_mono x x'.

Lemma keeps_bind {A} cs x (m : X A) (k : A → X unit) x1 a x2 :
  m x1 = Some (a, x2) → keeps cs x (k a) x2 → keeps cs x (m ≫= k) x1.
Proof. intros Hm (x' & act' & Hk & ?). exists x', act'. by rewrite (st_bind_eq _ _ _ _ _ Hm). Qed.

Lemma keeps_end cs x x' act' (m : X unit) x1 :
  m x1 = Some (tt, x') → exec_ok cs x' act' → exec_mono x x' → keeps cs x m x1.
Proof. intros. by exists x', act'. Qed.

(** The next call of an operation, whose result is known or given. *)
Ltac xs := eapply keeps_bind; [reflexivity|]; cbn beta iota.
Ltac xs_with H := eapply keeps_bind; [exact H|]; cbn beta iota.

(** The fields a mode is about. *)
Definition same_mode x x' : Prop :=
  x_saving_snapshot x' = x_saving_snapshot x ∧ x_loading_snapshot x' = x_loading_snapshot x ∧
  x_cur_copier x' = x_cur_copier x ∧ x_downloading_snapshot x' = x_downloading_snapshot x ∧ x_heap x' = x_heap x ∧
  x_running_jobs x' = x_running_jobs x ∧ x_last_snapshot_index x' = x_last_snapshot_index x ∧
  x_loading_snapshot_meta x' = x_loading_snapshot_meta x.

Lemma mode_is_same x x' sv ld cp dl n u rds :
  same_mode x x' → (sto_use (x_storage x) u rds → sto_use (x_storage x') u rds) →
  mode_is x sv ld cp dl n u rds → mode_is x' sv ld cp dl n u rds.
Proof. intros (?&?&?&?&?&?&_) Hs []. constructor; [congruence..|auto]. Qed.

Lemma exec_mode_same x x' act :
  same_mode x x' → (∀ u rds, sto_use (x_storage x) u rds → sto_use (x_storage x') u rds) →
  exec_mode x act → exec_mode x' act.
Proof.
  intros Hs Hu. pose proof (λ sv ld cp dl n u rds, mode_is_same x x' sv ld cp dl n u rds Hs (Hu u rds)) as Hm.
  destruct Hs as (_&_&_&_&_&_&Hl&Hmeta). destruct act as [[id j]|]; [|apply Hm].
  destruct j; cbn; unfold newer; rewrite ?Hl, ?Hmeta; naive_solver.
Qed.

Lemma runs_of_app o1 o2 : runs_of (o1 ++ o2) = runs_of o1 ++ runs_of o2.
Proof. apply omap_app. Qed.
Lemma set_indexes_app o1 o2 : set_indexes (o1 ++ o2) = set_indexes o1 ++ set_indexes o2.
Proof. apply omap_app. Qed.

(** Events that are no calls of the log manager. *)
Lemma sets_ok_events x act x' act' es :
  sets_ok x act → x_out x' = x_out x ++ es → set_indexes es = [] → pending_set act' = pending_set act →
  x_last_snapshot_index x' = x_last_snapshot_index x → sets_ok x' act'.
Proof. unfold sets_ok. intros Hs -> He -> ->. rewrite set_indexes_app, He, app_nil_r. exact Hs. Qed.

Definition run_events (done : option Closure) (status : Z) : list ExecutorEvent :=
  match done with Some c => [XvRun c status] | None => [] end.

Lemma run_closure_eq done status x :
  run_closure done status x = Some (tt, x_with_out (x_out x ++ run_events done status) x).
Proof. destruct done; [done|]. cbn. rewrite app_nil_r. by destruct x. Qed.

Lemma runs_of_events done status : runs_of (run_events done status) = option_list done.
Proof. by destruct done. Qed.
Lemma sets_of_events done status : set_indexes (run_events done status) = [].
Proof. by destruct done. Qed.

(** Only events. *)
Lemma exec_ok_events cs x act es cs' :
  exec_ok cs x act → set_indexes es = [] → cs' ≡ₚ cs ++ runs_of es → exec_ok cs' (x_with_out (x_out x ++ es) x) act.
Proof.
  intros [] Hs Hcs. constructor; try done.
  - by apply (exec_mode_same x).
  - by eapply sets_ok_events.
  - rewrite Hcs. cbn. rewrite runs_of_app, ok_closures0. solve_Permutation.
Qed.

Lemma keeps_run cs x act done status :
  exec_ok cs x act → keeps (cs ++ option_list done) x (run_closure done status) x.
Proof.
  intros Hok. eapply keeps_end; [apply run_closure_eq| |by apply exec_mono_refl].
  eapply exec_ok_events; [done|apply sets_of_events|]. by rewrite runs_of_events.
Qed.

(** An action on [act] that ends without a job, or the start of one, from the
    mode it leaves. *)
Lemma exec_ok_job cs x act x' act' es :
  exec_ok cs x act → jobs_ok (x_jobs x') act' → same_shutdowns (x_jobs x) (x_jobs x') → exec_mode x' act' →
  x_node x' = x_node x → rpcs_ok (x_last_snapshot_index x') (x_rpcs x') (x_heap x') → x_term x' = x_term x →
  (∀ num, x_throttle x' = Some num → own_tasks act' ≤ num) → sets_ok x' act' →
  x_out x' = x_out x ++ es → pending_closure act ≡ₚ runs_of es ++ pending_closure act' → exec_ok cs x' act'.
Proof.
  intros [] Hj Hsh Hm Hn Hr Ht Hth Hs Ho Hc. constructor; try done; [congruence| |].
  - intros id t Hid. rewrite Ht. by apply (ok_term0 id), Hsh.
  - rewrite Ho, runs_of_app, <-app_assoc, <-Hc. done.
Qed.

Lemma exec_idle x act :
  exec_mode x act → x_saving_snapshot x = false → x_downloading_snapshot x = None → act = None.
Proof.
  intros Hm Hs Hd. destruct act as [[id j]|]; [|done]. exfalso. destruct j; cbn in Hm; try done.
  all: try (destruct Hm as (? & ? & Hm)). all: destruct_and?; match goal with H : mode_is _ _ _ _ _ _ _ _ |- _ => destruct H end.
  all: cbn in *; congruence.
Qed.

(** From rest, a job starts. *)
Lemma exec_ok_new cs x x' j es :
  exec_ok cs x None → x_jobs x' = <[fresh (dom (x_jobs x)) := j]> (x_jobs x) → ¬ is_shutdown j → job_mode x' j →
  x_node x' = x_node x → rpcs_ok (x_last_snapshot_index x') (x_rpcs x') (x_heap x') → x_term x' = x_term x →
  x_last_snapshot_index x' = x_last_snapshot_index x → x_out x' = x_out x → pending_set (Some (0, j)) = [] →
  (∀ num, x_throttle x' = Some num → own_tasks (Some (0, j)) ≤ num) → es = option_list (job_closure j) →
  exec_ok (cs ++ es) x' (Some (fresh (dom (x_jobs x)), j)).
Proof.
  intros [] Hj Hsh Hm Hn Hr Ht Hl Ho Hps Hth ->. constructor; try done.
  - rewrite Hj. by apply jobs_ok_new.
  - congruence.
  - intros id t. rewrite Hj, Ht. intros Hid. by eapply ok_term0, same_shutdowns_insert.
  - eapply (sets_ok_events x None _ _ []); [done|by rewrite Ho, app_nil_r|done..].
  - rewrite Ho, ok_closures0. cbn. by rewrite app_nil_r.
Qed.

Lemma keeps_do_snapshot cs x act done applied saved :
  exec_ok cs x act → (x_stopped x = false → saved = 0) → keeps (cs ++ option_list done) x (do_snapshot done applied saved) x.
Proof.
  intros Hok Hsaved. pose proof (λ status, keeps_run cs x act done status Hok) as Hrun. unfold do_snapshot.
  xs. destruct (x_stopped x); [apply Hrun|]. rewrite (Hsaved eq_refl). xs. case_decide as Hdl; [apply Hrun|]. xs.
  destruct (x_saving_snapshot x) eqn:Hsave; [apply Hrun|]. xs. case_decide.
  { xs. eapply keeps_end; [apply run_closure_eq| |by apply exec_mono_refl]. eapply exec_ok_events; [|apply sets_of_events|].
    - by eapply exec_ok_events; [exact Hok|done|].
    - rewrite runs_of_events. cbn. by rewrite app_nil_r. }
  apply eq_None_not_Some in Hdl. pose proof (ok_mode _ _ _ Hok) as Hm. assert (act = None) as -> by (by eapply exec_idle).
  cbn in Hm. destruct (use_create _ _ (md_use _ _ _ _ _ _ _ _ Hm)) as (r & s' & H1 & Hu).
  xs_with (x_sto_eq _ x _ _ H1). destruct r as [w|].
  - xs. rewrite decide_False by auto. xs. eapply keeps_end; [reflexivity| |by apply exec_mono_refl].
    eapply (exec_ok_new _ x _ _ _ Hok); [done|by intros []| |done|apply Hok|done..|exact (ok_throttle _ _ _ Hok)|done].
    destruct Hm. constructor; cbn; congruence || done || lia.
  - xs_with (run_closure_eq done EIO (x_with_storage s' x)). eapply keeps_end; [reflexivity| |by apply exec_mono_refl].
    unfold report_error. eapply exec_ok_events; [eapply exec_ok_events; [|apply sets_of_events|done]|done|].
    2:{ rewrite runs_of_events. cbn. by rewrite app_nil_r. }
    destruct Hok. constructor; try done. destruct Hm. by constructor.
Qed.

(** The job goes on, or ends. *)
Lemma exec_ok_set cs x id j x' j' :
  exec_ok cs x (Some (id, j)) → x_jobs x' = <[id := j']> (x_jobs x) → ¬ is_shutdown j' → job_mode x' j' →
  x_node x' = x_node x → rpcs_ok (x_last_snapshot_index x') (x_rpcs x') (x_heap x') → x_term x' = x_term x →
  (∀ num, x_throttle x' = Some num → own_tasks (Some (id, j')) ≤ num) → sets_ok x' (Some (id, j')) →
  runs_of (x_out x') = runs_of (x_out x) → job_closure j' = job_closure j → exec_ok cs x' (Some (id, j')).
Proof.
  intros [] Hj Hsh Hm Hn Hr Ht Hth Hs Ho Hc. constructor; try done.
  - rewrite Hj. by eapply jobs_ok_set.
  - congruence.
  - intros i t. rewrite Hj, Ht. intros Hid. by eapply ok_term0, same_shutdowns_insert.
  - rewrite Ho. cbn. by rewrite Hc.
Qed.

Lemma exec_ok_end cs x id j x' :
  exec_ok cs x (Some (id, j)) → x_jobs x' = delete id (x_jobs x) → exec_mode x' None →
  x_node x' = x_node x → rpcs_ok (x_last_snapshot_index x') (x_rpcs x') (x_heap x') → x_term x' = x_term x →
  (∀ num, x_throttle x' = Some num → 0 ≤ num) → sets_ok x' None →
  runs_of (x_out x') = runs_of (x_out x) ++ option_list (job_closure j) → exec_ok cs x' None.
Proof.
  intros [] Hj Hm Hn Hr Ht Hth Hs Ho. constructor; try done.
  - rewrite Hj. by eapply jobs_ok_end.
  - congruence.
  - intros i t. rewrite Hj, Ht. intros Hid. by eapply ok_term0, same_shutdowns_delete.
  - rewrite Ho. cbn. by rewrite app_nil_r.
Qed.

Lemma sets_extend l last i :
  StronglySorted Z.lt l → Forall (λ j, j ≤ last) l → last < i → StronglySorted Z.lt (l ++ [i]) ∧ Forall (λ j, j ≤ i) (l ++ [i]).
Proof.
  intros Hs Hall Hi. rewrite Forall_forall in Hall. split.
  - apply StronglySorted_app_2; [|done|repeat constructor]. intros a b Ha ->%list_elem_of_singleton. specialize (Hall a Ha). lia.
  - apply Forall_forall. intros j [Hj|Hj]%elem_of_app; [specialize (Hall j Hj)|apply list_elem_of_singleton in Hj]; lia.
Qed.

(** The mode after updates of some fields. *)
Ltac mode_tac := match goal with Hm : mode_is _ _ _ _ _ _ _ _ |- _ => destruct Hm; constructor; cbn; congruence || done || lia end.

Section step.
Context (cs : list Closure) (x : SnapshotExecutor) (id : Z).

Lemma keeps_save_start sd meta :
  exec_ok cs x (Some (id, JobSaveQueued sd)) → keeps cs x (save_start id sd meta;; mret tt) x.
Proof.
  intros Hok. pose proof (ok_mode _ _ _ Hok) as Hm. cbn in Hm.
  eapply keeps_bind; [unfold save_start; by erewrite st_bind_eq by reflexivity|].
  eapply keeps_end; [reflexivity| |by apply exec_mono_refl].
  eapply (exec_ok_set _ x _ _ _ _ Hok); [done|by intros []|mode_tac|done|apply Hok|done|apply Hok|apply Hok|done..].
Qed.

Lemma keeps_save_run sd status :
  exec_ok cs x (Some (id, JobSaveQueued sd)) → keeps cs x (save_run id sd status) x.
Proof.
  intros Hok. pose proof (ok_mode _ _ _ Hok) as Hm. cbn in Hm. eapply keeps_end; [reflexivity| |by apply exec_mono_refl].
  eapply (exec_ok_set _ x _ _ _ _ Hok); [done|by intros []|mode_tac|done|apply Hok|done|apply Hok|apply Hok|done..].
Qed.

Lemma keeps_save_check sd :
  exec_ok cs x (Some (id, JobSaveRunning sd)) → keeps cs x (save_done_check id sd) x.
Proof.
  intros Hok. pose proof (ok_mode _ _ _ Hok) as Hm. cbn in Hm. unfold save_done_check. xs. case_decide as Hst.
  - destruct (use_set_error _ _ ESTALE _ (md_use _ _ _ _ _ _ _ _ Hm)) as (s' & H1 & Hu & _). xs_with (x_sto_eq _ x _ _ H1).
    eapply keeps_end; [reflexivity| |by apply exec_mono_refl].
    eapply (exec_ok_set _ x _ _ _ _ Hok); [done|by intros []| |done|apply Hok|done|apply Hok|apply Hok|done..].
    split; [mode_tac|done].
  - eapply keeps_end; [reflexivity| |by apply exec_mono_refl].
    eapply (exec_ok_set _ x _ _ _ _ Hok); [done|by intros []| |done|apply Hok|done|apply Hok|apply Hok|done..].
    split; [mode_tac|]. cbn. intros Hz. split; [done|]. lia.
Qed.

Lemma keeps_save_close sd ret :
  exec_ok cs x (Some (id, JobSaveChecked sd ret)) → (ret = 0 → sto_fits (sd_writer sd) (sd_meta sd) (x_storage x)) →
  keeps cs x (save_done_close id sd ret) x.
Proof.
  intros Hok Hfit. pose proof (ok_mode _ _ _ Hok) as [Hm Hret]. pose proof (md_use _ _ _ _ _ _ _ _ Hm) as Hu.
  pose proof (ok_node _ _ _ Hok) as Hnode. unfold save_done_close.
  assert (∃ ret' s1, (if decide (ret = 0) then
           rc ← x_sto (writer_save_meta (sd_writer sd) (sd_meta sd));
           if decide (rc ≠ 0) then log_node;; mret EIO else mret 0
         else
           ok ← st_get (λ x, writer_is_ok (sd_writer sd) (x_storage x));
           (if (ok : bool) then x_sto (writer_set_error (sd_writer sd) ret) else mret tt);;
           mret ret) x = Some (ret', x_with_storage s1 x) ∧ sto_use s1 (Writing (sd_writer sd)) [] ∧
         closable (sd_writer sd) s1 ∧ (ret' = 0 → ret = 0)) as (ret' & s1 & H1 & Hu1 & Hc1 & Hr1).
  { case_decide as Hz.
    - destruct (use_save_meta _ _ (sd_meta sd) _ Hu) as (rc & s1 & H1 & Hu1 & Hc1). rewrite (st_bind_eq _ _ _ _ _ (x_sto_eq _ x _ _ H1)).
      destruct (decide (rc ≠ 0)); [rewrite (st_bind_eq _ _ _ _ _ (log_node_eq (x_with_storage s1 x) Hnode))|]; eexists _, s1; (split; [reflexivity|]); auto.
    - erewrite st_bind_eq by reflexivity. destruct (writer_is_ok _ _) eqn:Eok.
      + destruct (use_set_error _ _ ret _ Hu) as (s1 & H1 & Hu1 & Hc1). rewrite (st_bind_eq _ _ _ _ _ (x_sto_eq _ x _ _ H1)).
        eexists _, s1. split; [reflexivity|]. auto.
      + erewrite st_bind_eq by reflexivity. exists ret, (x_storage x). split; [by destruct x|].
        split; [done|]. split; [|done]. by eapply use_failed. }
  xs_with H1. destruct (use_close_writer _ _ _ Hu1 Hc1) as (rc & s2 & H2 & Hu2).
  xs_with (x_sto_eq _ (x_with_storage s1 x) _ _ H2). set (x2 := x_with_storage s2 _).
  assert (∃ ret2, ((if decide (rc ≠ 0) then log_node;; mret EIO else mret ret') : X Z) x2 = Some (ret2, x2) ∧ (ret2 = 0 → ret' = 0))
    as (ret2 & H3 & Hr2).
  { destruct (decide (rc ≠ 0)); [rewrite (st_bind_eq _ _ _ _ _ (log_node_eq x2 Hnode))|]; eexists; (split; [reflexivity|done]). }
  xs_with H3. eapply keeps_end; [reflexivity| |by apply exec_mono_refl].
  eapply (exec_ok_set _ x _ _ _ _ Hok); [done|by intros []| |done|apply Hok|done|apply Hok|apply Hok|done..].
  split; [mode_tac|]. cbn. auto.
Qed.

(** The end of a save. *)
Lemma keeps_save_end sd j ret x1 es :
  exec_ok cs x (Some (id, j)) → job_closure j = sd_done sd → mode_is x1 true false None None 1 Free [] →
  x_jobs x1 = x_jobs x → x_node x1 = x_node x → rpcs_ok (x_last_snapshot_index x1) (x_rpcs x1) (x_heap x1) →
  x_term x1 = x_term x → x_throttle x1 = x_throttle x → own_tasks (Some (id, j)) = 0 →
  sets_ok x1 None → x_out x1 = x_out x ++ es → runs_of es = [] → exec_mono x x1 →
  keeps cs x (save_done_end id sd ret) x1.
Proof.
  intros Hok Hc Hm Hj Hn Hr Ht Hth Hown Hs Ho He Hmono. unfold save_done_end.
  set (e2 := if decide (ret = EIO) then [XvReportError EIO] else []).
  assert ((if decide (ret = EIO) then report_error EIO else mret tt) x1 = Some (tt, x_with_out (x_out x1 ++ e2) x1)) as H1.
  { unfold e2. case_decide; [done|]. rewrite app_nil_r. by destruct x1. }
  assert (runs_of e2 = [] ∧ set_indexes e2 = []) as [Hr2 Hs2] by (unfold e2; by case_decide).
  xs_with H1. xs. xs. xs. eapply keeps_end; [apply run_closure_eq| |done].
  eapply (exec_ok_end _ x _ _ _ Hok); cbn; try done.
  - by rewrite Hj.
  - mode_tac.
  - intros num. rewrite Hth. intros Hnum. pose proof (ok_throttle _ _ _ Hok num Hnum). lia.
  - eapply (sets_ok_events x1 None _ _ (e2 ++ _)); [done|cbn; by rewrite <-app_assoc|by rewrite set_indexes_app, Hs2, sets_of_events|done..].
  - by rewrite !runs_of_app, Ho, runs_of_app, He, Hr2, runs_of_events, !app_nil_r, Hc.
Qed.

Lemma keeps_save_commit sd ret :
  exec_ok cs x (Some (id, JobSaveClosed sd ret)) → keeps cs x (save_done_commit id sd ret) x.
Proof.
  intros Hok. pose proof (ok_mode _ _ _ Hok) as [Hm Hret]. unfold save_done_commit. case_decide as Hz.
  - destruct (Hret Hz) as [Hst Hlt]. xs. assert (x_last_snapshot_index x ≤ smp_last_included_index (sd_meta sd)) as Hle by lia.
    eapply keeps_end; [reflexivity| |split; [exact Hle|done]].
    eapply (exec_ok_set _ x _ _ _ _ Hok); [done|by intros []| |done| |done|apply Hok| |done..].
    + split; [mode_tac|done].
    + eapply rpcs_ok_mono; [exact Hle|apply Hok].
    + destruct (ok_sets _ _ _ Hok) as [Hso Hall]. cbn in Hso, Hall. rewrite app_nil_r in Hso, Hall. by eapply sets_extend.
  - eapply (keeps_save_end sd _ ret x []); try done; [apply Hok..|by rewrite app_nil_r].
Qed.

Lemma keeps_save_set sd : exec_ok cs x (Some (id, JobSaveSet sd)) → keeps cs x (save_done_set id sd) x.
Proof.
  intros Hok. pose proof (ok_mode _ _ _ Hok) as (Hm & Hst & Hl). unfold save_done_set. xs.
  eapply (keeps_save_end sd _ 0 _ [XvSetSnapshot (sd_meta sd)] Hok); try done; [mode_tac|apply Hok|].
  destruct (ok_sets _ _ _ Hok) as [Hso Hall]. cbn in Hso, Hall. unfold sets_ok. cbn [pending_set]. rewrite app_nil_r.
  cbn [x_out x_with_out]. by rewrite set_indexes_app.
Qed.

Lemma keeps_load_call r queued : exec_ok cs x (Some (id, JobLoadCall r)) → keeps cs x (load_call id r queued) x.
Proof.
  intros Hok. pose proof (ok_mode _ _ _ Hok) as (p & ds & Hm & Hnew). unfold load_call. case_decide.
  - xs_with (log_node_eq x (ok_node _ _ _ Hok)). eapply keeps_end; [reflexivity| |by apply exec_mono_refl].
    eapply (exec_ok_set _ x _ _ _ _ Hok); [done|by intros []| |done|apply Hok|done|apply Hok|apply Hok|done..].
    exists p, ds. split; [mode_tac|done].
  - eapply keeps_end; [reflexivity| |by apply exec_mono_refl].
    eapply (exec_ok_set _ x _ _ _ _ Hok); [done|by intros []| |done|apply Hok|done|apply Hok|apply Hok|done..].
    exists p, ds. split; [mode_tac|done].
Qed.

Lemma keeps_load_run r status :
  exec_ok cs x (Some (id, JobLoadQueued r)) → keeps cs x (x_set_job id (JobLoadRunning r status)) x.
Proof.
  intros Hok. pose proof (ok_mode _ _ _ Hok) as (p & ds & Hm & Hnew). eapply keeps_end; [reflexivity| |by apply exec_mono_refl].
  eapply (exec_ok_set _ x _ _ _ _ Hok); [done|by intros []| |done|apply Hok|done|apply Hok|apply Hok|done..].
  exists p, ds. split; [mode_tac|done].
Qed.

Lemma load_done_set_eq status x1 :
  x_loading_snapshot x1 = true →
  load_done_set status x1 =
    let meta := x_loading_snapshot_meta x1 in
    Some (x_downloading_snapshot x1,
      if decide (status = 0) then
        x_with_out (x_out x1 ++ [XvSetSnapshot meta])
          (x_with_last (smp_last_included_index meta) (smp_last_included_term meta) x1)
      else x1).
Proof.
  intros Hl. unfold load_done_set. erewrite st_bind_eq by reflexivity. rewrite (st_bind_eq _ _ _ tt x1) by (by apply st_check_true).
  do 2 erewrite st_bind_eq by reflexivity. cbv zeta. case_decide; [|by erewrite st_bind_eq by reflexivity].
  erewrite st_bind_eq; [reflexivity|]. by erewrite st_bind_eq by reflexivity.
Qed.

Lemma keeps_done_set r status :
  exec_ok cs x (Some (id, JobLoadRunning r status)) → keeps cs x (install_done_set id r status) x.
Proof.
  intros Hok. pose proof (ok_mode _ _ _ Hok) as (p & ds & Hm & Hreq & Hlt). unfold install_done_set.
  pose proof (md_downloading _ _ _ _ _ _ _ _ Hm) as Hdl. cbn in Hdl.
  xs_with (load_done_set_eq status x (md_loading _ _ _ _ _ _ _ _ Hm)). rewrite Hdl. case_decide as Hz.
  - eapply keeps_end; [reflexivity| |split; [cbn; lia|done]].
    eapply (exec_ok_set _ x _ _ _ _ Hok); [done|by intros []| |done| |done|apply Hok| | |done].
    + exists p, ds. split; [done|]. split; [mode_tac|]. by intros _.
    + eapply rpcs_ok_mono; [|apply Hok]. cbn. lia.
    + destruct (ok_sets _ _ _ Hok) as [Hso Hall]. cbn in Hso, Hall. rewrite app_nil_r in Hso, Hall.
      unfold sets_ok. cbn [pending_set]. rewrite app_nil_r. cbn [x_out x_with_jobs x_with_out]. rewrite set_indexes_app.
      by eapply sets_extend.
    + cbn. by rewrite runs_of_app, app_nil_r.
  - eapply keeps_end; [reflexivity| |by apply exec_mono_refl].
    eapply (exec_ok_set _ x _ _ _ _ Hok); [done|by intros []| |done|apply Hok|done|apply Hok|apply Hok|done..].
    exists p, ds. split; [done|]. split; [mode_tac|done].
Qed.

(** Answering the rpc on the heap leaves the answers there are. *)
Lemma answer_mono x' p ds r :
  rpcs_ok (x_last_snapshot_index x) (x_rpcs x) {[p := ds]} → x_rpcs x' = <[ds_rpc ds := r]> (x_rpcs x) →
  x_last_snapshot_index x ≤ x_last_snapshot_index x' → exec_mono x x'.
Proof.
  intros [_ Hheap] Hr Hl. split; [done|]. intros i r' Hi Hruns. rewrite Hr, lookup_insert_ne; [done|].
  intros <-. destruct (Hheap p ds) as (r0 & Hr0 & Hz & _); [by rewrite lookup_singleton_eq|]. rewrite Hi in Hr0. injection Hr0 as <-. lia.
Qed.

Lemma keeps_done_end r status m :
  exec_ok cs x (Some (id, JobLoadDone r status m)) → keeps cs x (install_done_end id r status m) x.
Proof.
  intros Hok. pose proof (ok_mode _ _ _ Hok) as (p & ds & -> & Hm & Hreq). pose proof (ok_rpcs _ _ _ Hok) as Hrpcs.
  pose proof (md_heap _ _ _ _ _ _ _ _ Hm) as Hheap. cbn in Hheap. rewrite Hheap in Hrpcs.
  destruct Hrpcs as [Hall Hpend]. destruct (Hpend p ds) as (rp & Hrp & Hz & Hf & Ht & Hq); [by rewrite lookup_singleton_eq|].
  pose proof (conj Hall Hpend : rpcs_ok _ _ _) as Hrpcs. unfold install_done_end.
  set (g := if decide (status ≠ 0) then rpc_set_failed status else rpc_set_success true).
  set (x0 := x_with_heap ∅ (x_with_rpcs (<[ds_rpc ds := rpc_run (g rp)]> (x_rpcs x))
               (x_with_downloading None (x_with_loading false (x_with_out (x_out x ++ [XvUpdateConfiguration]) x))))).
  assert (load_done_end status (Some p) x = Some (tt, x_with_running (x_running_jobs x - 1) x0)) as H1.
  { unfold load_done_end. erewrite st_bind_eq by reflexivity. rewrite (ok_node _ _ _ Hok).
    do 3 erewrite st_bind_eq by reflexivity. rewrite (st_bind_eq _ _ _ tt x0); [done|].
    erewrite st_bind_eq by (apply x_ds_eq; cbn; by rewrite Hheap, lookup_singleton_eq).
    fold g. erewrite st_bind_eq by (by apply x_mod_rpc_eq). erewrite st_bind_eq by (apply x_mod_rpc_eq; cbn; by rewrite lookup_insert_eq).
    cbn. unfold x_free, st_mod. cbn. rewrite insert_insert_eq, Hheap, delete_singleton_eq. done. }
  xs_with H1. set (x1 := x_with_running _ _). pose proof (md_use _ _ _ _ _ _ _ _ Hm) as Hu.
  destruct (use_close_reader (x_storage x1) _ _ _ Hu) as (rc & s' & H2 & Hu2). xs_with (x_sto_eq _ x1 _ _ H2).
  assert (rp_request (g rp) = rp_request rp ∧ rp_term (g rp) = rp_term rp) as [Hgq Hgt] by (unfold g; by case_decide).
  assert (answer_ok (x_last_snapshot_index x) (rpc_run (g rp))) as Hans.
  { unfold g. case_decide as Hst; [by left|]. right. destruct Ht as [t Ht]. exists t, true. split_and!; [done..|]. intros _.
    cbn. rewrite Hq, Hreq; [lia|]. lia. }
  eapply keeps_end; [reflexivity| |by eapply answer_mono].
  eapply (exec_ok_end _ x _ _ _ Hok); [done| |done| |done|apply Hok| |].
  - mode_tac.
  - cbn. eapply rpcs_ok_answer; [done| |done]. cbn. unfold g. case_decide; cbn; lia.
  - eapply (sets_ok_events x (Some (id, JobLoadDone r status (Some p)))); [apply Hok|done..].
  - cbn. by rewrite runs_of_app.
Qed.

Lemma finish_one_task_eq x1 :
  (∀ num, x_throttle x1 = Some num → 1 ≤ num) →
  finish_one_task x1 = Some (tt, x_with_throttle ((λ n, n - 1) <$> x_throttle x1) x1).
Proof.
  intros Hn. unfold finish_one_task. erewrite st_bind_eq by reflexivity. destruct (x_throttle x1) as [num|] eqn:E.
  - erewrite st_bind_eq by reflexivity. specialize (Hn num eq_refl). rewrite st_check_true by lia. done.
  - cbn. rewrite <-E. by destruct x1.
Qed.

(** A download fails: the rpc is answered and the job ends. *)
Lemma keeps_download_failed p meta ds rp e x1 es :
  exec_ok cs x (Some (id, JobDownload p meta)) → x_heap x = {[p := ds]} → x_rpcs x !! ds_rpc ds = Some rp →
  rp_runs rp = 0%nat → e ≠ 0 → mode_is (x_with_heap ∅ x1) false false None None 1 Free [] →
  x_heap x1 = x_heap x → x_rpcs x1 = <[ds_rpc ds := rpc_set_failed e rp]> (x_rpcs x) → x_jobs x1 = x_jobs x →
  x_node x1 = x_node x → x_term x1 = x_term x → x_last_snapshot_index x1 = x_last_snapshot_index x →
  x_throttle x1 = (λ n, n - 1) <$> x_throttle x → x_out x1 = x_out x ++ es → runs_of es = [] → set_indexes es = [] →
  keeps cs x (download_failed id p (ds_rpc ds)) x1.
Proof.
  intros Hok Hheap Hrp Hz He Hm Hh Hr Hj Hn Ht Hl Hth Ho Hre Hse. unfold download_failed. xs.
  eapply keeps_bind; [apply x_mod_rpc_eq; cbn; by rewrite Hr, lookup_insert_eq|]. xs.
  pose proof (ok_rpcs _ _ _ Hok) as Hrpcs. rewrite Hheap in Hrpcs.
  eapply keeps_end; [reflexivity| |].
  2:{ eapply (answer_mono _ p ds _ Hrpcs); cbn; [by rewrite Hr, insert_insert_eq|lia]. }
  eapply (exec_ok_end _ x _ _ _ Hok); cbn; try done.
  - by rewrite Hj.
  - destruct Hm. constructor; cbn in *; try congruence || done || lia. by rewrite Hh, Hheap, delete_singleton_eq.
  - rewrite Hr, insert_insert_eq, Hl, Hh, Hheap, delete_singleton_eq. eapply rpcs_ok_answer; [done|cbn; lia|by left].
  - intros num. rewrite Hth. intros (n & Hth' & ->)%fmap_Some. pose proof (ok_throttle _ _ _ Hok n Hth') as Hge. cbn in Hge. lia.
  - eapply (sets_ok_events x (Some (id, JobDownload p meta))); [apply Hok|done..].
  - by rewrite Ho, runs_of_app, Hre.
Qed.

Lemma close_reader_if_eq reader x1 u rds :
  sto_use (x_storage x1) u (option_list reader ++ rds) →
  ∃ s', close_reader_if reader x1 = Some (tt, x_with_storage s' x1) ∧ sto_use s' u rds.
Proof.
  intros Hu. destruct reader as [r|]; cbn in *.
  - destruct (use_close_reader _ _ _ _ Hu) as (rc & s' & H1 & Hu'). exists s'. split; [|done].
    by erewrite st_bind_eq by (by apply x_sto_eq).
  - exists (x_storage x1). split; [by destruct x1|done].
Qed.

Lemma keeps_load_downloading p meta c :
  exec_ok cs x (Some (id, JobDownload p meta)) → x_cur_copier x = Some c → copier_joined c (x_storage x) = true →
  keeps cs x (load_downloading_snapshot id p meta) x.
Proof.
  intros Hok Hc Hjoin. pose proof (ok_mode _ _ _ Hok) as (c' & ds & Hm & Hreq & Hlt). pose proof Hm as [Hsv Hld Hcp Hdl Hheap Hrun Hu].
  rewrite Hc in Hcp. injection Hcp as <-. cbn in Hdl, Hheap.
  destruct (ok_rpcs _ _ _ Hok) as [_ Hpend]. destruct (Hpend p ds) as (rp & Hrp & Hz & _); [by rewrite Hheap, lookup_singleton_eq|].
  pose proof (use_get_reader _ _ _ Hu Hjoin) as Hu0. set (reader := copier_reader c (x_storage x)) in Hu0.
  unfold load_downloading_snapshot.
  eapply keeps_bind; [apply finish_one_task_eq; exact (ok_throttle _ _ _ Hok)|]. set (x1 := x_with_throttle _ x).
  xs. eapply keeps_bind; [by apply st_check_true|]. eapply keeps_bind; [apply x_ds_eq; cbn; by rewrite Hheap, lookup_singleton_eq|].
  xs. eapply keeps_bind; [by apply st_lift_Some|]. do 2 xs. cbn [x_storage x1 x_with_throttle]. fold reader.
  case_decide as He.
  - set (error := copier_error c (x_storage x)) in *. set (es := if decide (error = EIO) then [XvReportError error] else []).
    assert ((if decide (error = EIO) then report_error error else mret tt) x1 = Some (tt, x_with_out (x_out x1 ++ es) x1)) as H1.
    { unfold es. destruct (decide (error = EIO)); [done|]. rewrite app_nil_r. done. }
    assert (runs_of es = [] ∧ set_indexes es = []) as [He1 He2] by (unfold es; by destruct (decide (error = EIO))).
    xs_with H1. destruct (close_reader_if_eq reader (x_with_out (x_out x1 ++ es) x1) _ _ Hu0) as (s2 & H2 & Hu2). xs_with H2.
    eapply keeps_bind; [by apply x_mod_rpc_eq|]. destruct (use_close_copier _ _ _ Hu2) as (rc & s3 & H3 & Hu3).
    eapply keeps_bind; [by apply x_sto_eq|]. do 2 xs.
    eapply (keeps_download_failed p meta ds rp error _ es Hok); done.
  - destruct (use_close_copier _ _ _ Hu0) as (rc & s2 & H2 & Hu2). eapply keeps_bind; [by apply x_sto_eq|]. do 2 xs.
    cbn [x_storage x_with_copier x_with_storage]. destruct reader as [r|]; [destruct (reader_is_ok r s2) eqn:Eok|].
    + do 2 xs. eapply keeps_end; [reflexivity| |by apply exec_mono_refl].
      eapply (exec_ok_set _ x _ _ _ _ Hok); [done|by intros []| |done|apply Hok|done| |apply Hok|done..].
      * exists p, ds. split; [by constructor|]. split; [done|]. done.
      * cbn. intros num (n & Hn & ->)%fmap_Some. pose proof (ok_throttle _ _ _ Hok n Hn) as Hge. cbn in Hge. lia.
    + destruct (close_reader_if_eq (Some r) (x_with_copier None (x_with_storage s2 x1)) _ _ Hu2) as (s3 & H3 & Hu3). xs_with H3. xs.
      eapply keeps_bind; [by apply x_mod_rpc_eq|].
      eapply (keeps_download_failed p meta ds rp EINTERNAL _ [] Hok); try done. cbn. by rewrite app_nil_r.
    + xs. xs. eapply keeps_bind; [by apply x_mod_rpc_eq|].
      eapply (keeps_download_failed p meta ds rp EINTERNAL _ [] Hok); try done. cbn. by rewrite app_nil_r.
Qed.

Lemma x_mod_new_rpc_eq rpc f x1 r R :
  x_rpcs x1 = <[rpc := r]> R → x_mod_rpc rpc f x1 = Some (tt, x_with_rpcs (<[rpc := f r]> R) x1).
Proof. intros Hr. rewrite (x_mod_rpc_eq _ _ _ r); rewrite Hr; [by rewrite insert_insert_eq|by rewrite lookup_insert_eq]. Qed.

(** *** Registration *)

Lemma exec_installing act m :
  exec_mode x act → x_downloading_snapshot x = Some m →
  ∃ id' j old, act = Some (id', j) ∧ x_heap x = {[m := old]} ∧
    (x_loading_snapshot x = true ∨
     ∃ c meta, x_loading_snapshot x = false ∧ x_cur_copier x = Some c ∧ sto_use (x_storage x) (Copying c) [] ∧ j = JobDownload m meta).
Proof.
  intros Hm Hd. destruct act as [[id' j]|]; [|destruct Hm; cbn in *; congruence]. exists id', j.
  destruct j; cbn in Hm; try done; try (destruct_and?; match goal with H : mode_is _ _ _ _ _ _ _ _ |- _ => destruct H; cbn in *; congruence end).
  all: destruct Hm as (a & b & Hm); destruct_and?; match goal with H : mode_is _ _ _ _ _ _ _ _ |- _ => destruct H as [? Hl Hc E Hheap _ Hu] end;
    cbn in E, Hheap; rewrite Hd in E; injection E as E; subst; eexists; (split; [reflexivity|]); (split; [exact Hheap|]); try by left.
  right. by eexists _, _.
Qed.

(** [register_downloading_snapshot] left the executor as it was, but for the
    copier it may have cancelled and the answer [r] it prepared. *)
Record unregistered act x2 rpc (r : InstallRpc) x3 : Prop := {
  un_mode : exec_mode (x_with_heap (x_heap x) x3) act;
  un_heap : x_heap x3 = x_heap x2;
  un_rpcs : x_rpcs x3 = <[rpc := r]> (x_rpcs x);
  un_rest : x_jobs x3 = x_jobs x ∧ x_node x3 = x_node x ∧ x_term x3 = x_term x ∧ x_out x3 = x_out x ∧
    x_last_snapshot_index x3 = x_last_snapshot_index x ∧ x_throttle x3 = x_throttle x2;
}.

Section register.
Context (act : option (Z * Job)) (rpc : Z) (request : InstallSnapshotRequest) (p : Z) (th : option Z).
Context (Hok : exec_ok cs x act) (Hnew : x_rpcs x !! rpc = None) (Hp : x_heap x !! p = None).

Let ds := mkDownloadingSnapshot request rpc.
Let x2 := x_with_heap (<[p := ds]> (x_heap x))
  (x_with_throttle th (x_with_rpcs (<[rpc := mkInstallRpc request 0 None None 0]> (x_rpcs x)) x)).

(** The answer is prepared and not given yet. *)
Definition prepared (r : InstallRpc) : Prop :=
  rp_runs r = 0%nat ∧ rp_request r = request ∧ answer_ok (x_last_snapshot_index x) (rpc_run r).

Inductive register_result : Z → SnapshotExecutor → Prop :=
  | RegRefused r x3 : unregistered act x2 rpc r x3 → prepared r → register_result (-1) x3
  | RegRetry j id' m old ro r x3 :
      act = Some (id', j) → x_heap x = {[m := old]} → x_rpcs x !! ds_rpc old = Some ro →
      req_index request = req_index (ds_request old) → rp_runs r = 0%nat → rp_failed r = 0 → is_Some (rp_term r) → rp_request r = request →
      x3 = x_with_rpcs (<[ds_rpc old := rpc_run (rpc_set_failed EINTR ro)]> (<[rpc := r]> (x_rpcs x)))
             (x_with_heap (<[m := ds]> (<[p := ds]> (x_heap x))) x2) →
      register_result 1 x3
  | RegStarted c s r x3 :
      act = None → rp_runs r = 0%nat → rp_failed r = 0 → is_Some (rp_term r) → rp_request r = request →
      x_last_snapshot_index x < req_index request → sto_use s (Copying c) [] →
      x3 = x_with_running (x_running_jobs x + 1) (x_with_copier (Some c) (x_with_storage s
             (x_with_downloading (Some p) (x_with_rpcs (<[rpc := r]> (x_rpcs x)) x2)))) →
      register_result 0 x3.

Lemma unregistered_rpcs r x3 : x3 = x_with_rpcs (<[rpc := r]> (x_rpcs x)) x2 → unregistered act x2 rpc r x3.
Proof.
  intros ->. constructor; [|done..]. eapply (exec_mode_same x); [done..|apply Hok].
Qed.

Lemma register_other_ok r2 m x3 :
  x_downloading_snapshot x = Some m → x3 = x_with_rpcs (<[rpc := r2]> (x_rpcs x)) x2 → rp_runs r2 = 0%nat → rp_failed r2 = 0 →
  is_Some (rp_term r2) → rp_request r2 = request →
  ∃ ret x4, register_other p m x3 = Some (ret, x4) ∧ register_result ret x4.
Proof.
  intros Hd -> Hr1 Hr2 Hr3 Hr4. pose proof (ok_mode _ _ _ Hok) as Hm.
  destruct (exec_installing act m Hm Hd) as (id' & j & old & Hact & Hheap & Hcase).
  assert (m ≠ p) as Hne by (intros ->; by rewrite Hheap, lookup_singleton_eq in Hp).
  set (x3 := x_with_rpcs (<[rpc := r2]> (x_rpcs x)) x2). assert (∀ f, x_mod_rpc rpc f x3 = Some (tt, x_with_rpcs (<[rpc := f r2]> (x_rpcs x)) x3)) as Hmod.
  { intros f. by apply x_mod_new_rpc_eq. }
  assert (∀ e, e ≠ 0 → prepared (rpc_set_failed e r2)) as Hprep by (intros e He; split_and!; [done..|by left]).
  unfold register_other. erewrite st_bind_eq by (apply x_ds_eq; cbn; by rewrite lookup_insert_eq).
  erewrite st_bind_eq by (apply x_ds_eq; cbn; by rewrite lookup_insert_ne, Hheap, lookup_singleton_eq by done).
  cbn zeta beta. case_decide as Heq; [|case_decide as Hgt].
  - destruct (ok_rpcs _ _ _ Hok) as [_ Hpend]. destruct (Hpend m old) as (ro & Hro & Hz & _); [by rewrite Hheap, lookup_singleton_eq|].
    assert (ds_rpc old ≠ rpc) as Hdiff by (intros E; by rewrite E, Hnew in Hro).
    erewrite st_bind_eq by reflexivity. erewrite st_bind_eq by (apply x_mod_rpc_eq; cbn; by rewrite lookup_insert_ne by done).
    erewrite st_bind_eq by (by apply x_mod_new_rpc_eq). eexists _, _. split; [reflexivity|].
    by eapply (RegRetry j id' m old ro r2).
  - erewrite st_bind_eq by apply Hmod. eexists _, _. split; [reflexivity|]. eapply RegRefused; [by apply unregistered_rpcs|by apply Hprep].
  - erewrite st_bind_eq by reflexivity. change (x_loading_snapshot x3) with (x_loading_snapshot x).
    destruct Hcase as [->|(c & meta & -> & Hc & Hu & ->)].
    + erewrite st_bind_eq by apply Hmod. eexists _, _. split; [reflexivity|]. eapply RegRefused; [by apply unregistered_rpcs|by apply Hprep].
    + erewrite st_bind_eq by reflexivity. erewrite st_bind_eq by (by apply st_lift_Some).
      destruct (use_cancel _ _ _ Hu) as (s' & H1 & Hu'). erewrite st_bind_eq by (by apply x_sto_eq).
      erewrite st_bind_eq by (by apply x_mod_new_rpc_eq). eexists _, _. split; [reflexivity|].
      eapply (RegRefused (rpc_set_failed EBUSY r2)); [|by apply Hprep]. constructor; [|done..]. subst act. destruct Hm as (c' & ds' & Hm & Hn).
      exists c', ds'. split; [|done]. destruct Hm as [? ? Hc' ? ? ? ?]. rewrite Hc in Hc'. injection Hc' as <-. by constructor.
Qed.

Lemma register_ok : ∃ ret x3, register_downloading_snapshot p x2 = Some (ret, x3) ∧ register_result ret x3.
Proof.
  unfold register_downloading_snapshot. erewrite st_bind_eq by (apply x_ds_eq; cbn; by rewrite lookup_insert_eq).
  cbn zeta beta. erewrite st_bind_eq by reflexivity. change (x_stopped x2) with (x_stopped x).
  set (r0 := mkInstallRpc request 0 None None 0).
  destruct (x_stopped x).
  { erewrite st_bind_eq by (by apply (x_mod_new_rpc_eq _ _ x2 r0)). eexists _, _. split; [reflexivity|].
    eapply RegRefused; [by apply unregistered_rpcs|]. split_and!; [done..|by left]. }
  erewrite st_bind_eq by reflexivity. case_decide.
  { erewrite st_bind_eq by (by apply (x_mod_new_rpc_eq _ _ x2 r0)). erewrite st_bind_eq by (by apply x_mod_new_rpc_eq).
    eexists _, _. split; [reflexivity|]. eapply RegRefused; [by apply unregistered_rpcs|]. split_and!; [done..|right].
    by eexists _, false. }
  erewrite st_bind_eq by reflexivity. change (x_last_snapshot_index x2) with (x_last_snapshot_index x). case_decide as Hidx.
  { erewrite st_bind_eq by (by apply (x_mod_new_rpc_eq _ _ x2 r0)). erewrite st_bind_eq by (by apply x_mod_new_rpc_eq).
    eexists _, _. split; [reflexivity|]. eapply RegRefused; [by apply unregistered_rpcs|]. split_and!; [done..|right].
    by eexists _, true. }
  erewrite st_bind_eq by (by apply (x_mod_new_rpc_eq _ _ x2 r0)). set (r1 := rpc_set_term _ r0). erewrite st_bind_eq by reflexivity.
  set (x3 := x_with_rpcs _ x2). change (x_saving_snapshot x3) with (x_saving_snapshot x).
  destruct (x_saving_snapshot x) eqn:Hsv.
  { erewrite st_bind_eq by (by apply x_mod_new_rpc_eq). eexists _, _. split; [reflexivity|].
    eapply RegRefused; [by apply unregistered_rpcs|]. split_and!; [done..|by left]. }
  erewrite st_bind_eq by reflexivity. change (x_downloading_snapshot x3) with (x_downloading_snapshot x).
  destruct (x_downloading_snapshot x) as [m|] eqn:Hd.
  { by eapply (register_other_ok r1). }
  assert (act = None) as Hact by (by eapply exec_idle; [apply Hok|..]). pose proof (ok_mode _ _ _ Hok) as Hm. rewrite Hact in Hm.
  destruct Hm as [_ _ Hc _ Hheap Hrun Hu]. do 2 erewrite st_bind_eq by reflexivity.
  erewrite st_bind_eq by (by apply st_check_true). destruct (use_copy_from _ (is_uri request) _ Hu) as (c & s' & H1 & Hu').
  erewrite st_bind_eq by (by apply x_sto_eq). erewrite st_bind_eq by reflexivity. destruct c as [c|].
  - erewrite st_bind_eq by reflexivity. eexists _, _. split; [reflexivity|].
    eapply (RegStarted c s' r1); try done. apply Z.nle_gt in Hidx. exact Hidx.
  - erewrite st_bind_eq by reflexivity. erewrite st_bind_eq by (by apply x_mod_new_rpc_eq). eexists _, _. split; [reflexivity|].
    eapply (RegRefused (rpc_set_failed EINVAL r1)); [|split_and!; [done..|by left]]. constructor; [|done..]. rewrite Hact. constructor; try done.
    cbn. pose proof (ok_mode _ _ _ Hok) as Hm. rewrite Hact in Hm. apply Hm.
Qed.
End register.

(** A request that is not taken leaves the other answers. *)
Lemma new_rpc_mono x' rpc r :
  x_rpcs x !! rpc = None → x_rpcs x' = <[rpc := r]> (x_rpcs x) → x_last_snapshot_index x' = x_last_snapshot_index x → exec_mono x x'.
Proof.
  intros Hn Hr Hl. split; [lia|]. intros i r' Hi _. rewrite Hr, lookup_insert_ne; [done|]. intros <-. by rewrite Hn in Hi.
Qed.

Lemma add_one_more_task_eq x1 :
  ∃ admitted th, add_one_more_task x1 = Some (admitted, x_with_throttle th x1) ∧
    (if admitted : bool then th = (λ n, n + 1) <$> x_throttle x1 else th = x_throttle x1).
Proof.
  unfold add_one_more_task. erewrite st_bind_eq by reflexivity. destruct (x_throttle x1) as [num|] eqn:E; [case_decide|].
  - exists false, (Some num). split; [rewrite <-E; by destruct x1|done].
  - erewrite st_bind_eq by reflexivity. by eexists true, _.
  - exists true, None. split; [rewrite <-E; by destruct x1|done].
Qed.

(** Another request for the same snapshot on the heap. *)
Lemma exec_mode_retry x' act m old ds :
  exec_mode x act → x_heap x = {[m := old]} → req_index (ds_request ds) = req_index (ds_request old) →
  same_mode (x_with_heap {[m := ds]} x) x' → x_storage x' = x_storage x → exec_mode x' act.
Proof.
  intros Hm Hheap Hidx Hs Hst. assert (∀ sv ld cp q d n u rds, mode_is x sv ld cp (Some (q, d)) n u rds →
    q = m ∧ d = old ∧ mode_is x' sv ld cp (Some (m, ds)) n u rds) as Hmode.
  { intros sv ld cp q d n u rds [? ? ? Hd Hh ? Hu]. cbn in Hd, Hh. rewrite Hheap in Hh.
    assert (({[m := old]} : gmap Z DownloadingSnapshot) !! q = Some d) as E by (by rewrite Hh, lookup_singleton_eq).
    apply lookup_singleton_Some in E as [<- <-]. split; [done|]. split; [done|].
    destruct Hs as (?&?&?&?&?&?&_). cbn in *. constructor; cbn; congruence. }
  destruct Hs as (_&_&_&_&_&_&Hl&Hmeta). cbn in Hl, Hmeta. destruct act as [[id' j]|]; [|by destruct Hm as [_ _ _ _ Hh _ _]; rewrite Hheap in Hh; apply map_non_empty_singleton in Hh].
  destruct j; cbn in Hm |- *; unfold newer in *; rewrite ?Hl, ?Hmeta; try done.
  all: try (destruct_and?; match goal with H : mode_is _ _ _ _ _ _ _ _ |- _ => destruct H as [_ _ _ _ Hh _ _] end; rewrite Hheap in Hh; by apply map_non_empty_singleton in Hh).
  all: destruct Hm as (a & b & Hm); naive_solver congruence.
Qed.

Lemma keeps_install act request rpc :
  exec_ok cs x act → x_rpcs x !! rpc = None →
  keeps cs x (install_snapshot request rpc) (x_with_rpcs (<[rpc := mkInstallRpc request 0 None None 0]> (x_rpcs x)) x).
Proof.
  intros Hok Hnew. set (r0 := mkInstallRpc request 0 None None 0). set (x0 := x_with_rpcs _ x). unfold install_snapshot.
  destruct (add_one_more_task_eq x0) as (admitted & th & H1 & Hth). xs_with H1. destruct admitted; cbn [negb].
  2:{ eapply keeps_bind; [by apply x_mod_new_rpc_eq|]. eapply keeps_end; [by apply x_mod_new_rpc_eq| |by eapply new_rpc_mono].
      cbn in Hth. subst th. destruct Hok. constructor; try done; [by apply (exec_mode_same x)|]. cbn.
      apply rpcs_ok_refuse; [done..|by left]. }
  cbn [x_throttle x0 x_with_rpcs] in Hth. xs. set (p := fresh _). assert (x_heap x !! p = None) as Hp by (apply not_elem_of_dom, is_fresh).
  xs. destruct (register_ok act rpc request p th Hok Hnew Hp) as (ret & x3 & H2 & Hres). xs_with H2. clear H1 H2.
  assert (∀ num, th = Some num → 1 + own_tasks act ≤ num) as Hge.
  { intros num ->. symmetry in Hth. apply fmap_Some in Hth as (n & Hn & ->). pose proof (ok_throttle _ _ _ Hok n Hn). lia. }
  assert (0 ≤ own_tasks act) as Hown by (unfold own_tasks; by destruct act as [[? []]|]).
  destruct Hres as [r x3 Hun (Hr1 & Hr2 & Hr3)|j id' m old ro r x3 -> Hheap Hro Hidx Hr1 Hr2 Hr3 Hr4 ->|c s r x3 -> Hr1 Hr2 Hr3 Hr4 Hlt Hu ->].
  - cbn [decide]. destruct Hun as [Hmode Hheap3 Hrpcs3 (Hj & Hn & Ht & Ho & Hl & Hth3)].
    rewrite decide_True by lia. eapply keeps_bind; [apply finish_one_task_eq; rewrite Hth3; intros num Hnum; specialize (Hge num Hnum); lia|].
    xs. rewrite decide_False by lia. eapply keeps_end; [by apply x_mod_new_rpc_eq| |by eapply new_rpc_mono].
    assert (delete p (x_heap x3) = x_heap x) as Hdel by (rewrite Hheap3; cbn; by apply delete_insert_id).
    destruct Hok. constructor; cbn; rewrite ?Hj, ?Hn, ?Ht, ?Hdel, ?Hl; try done.
    + eapply (exec_mode_same (x_with_heap (x_heap x) x3)); [|done..]. by unfold same_mode.
    + apply rpcs_ok_refuse; [done..| |done]. cbn. lia.
    + intros num. rewrite Hth3. cbn. rewrite Hth. destruct (x_throttle x) as [n|] eqn:E; [|done]. cbn. intros [= <-].
      specialize (ok_throttle0 n eq_refl). lia.
    + eapply (sets_ok_events x act _ _ []); [done|by rewrite app_nil_r|done..].
    + by rewrite Ho.
  - rewrite decide_True by lia. eapply keeps_bind; [apply finish_one_task_eq; intros num Hnum; specialize (Hge num Hnum); lia|].
    xs. rewrite decide_True by lia. assert (m ≠ p) as Hne by (intros ->; by rewrite Hheap, lookup_singleton_eq in Hp).
    set (ds := mkDownloadingSnapshot request rpc).
    assert (delete p (<[m := ds]> (<[p := ds]> (x_heap x))) = {[m := ds]}) as Hdel.
    { rewrite delete_insert_ne, delete_insert_id, Hheap by done. apply insert_singleton_eq. }
    pose proof (ok_rpcs _ _ _ Hok) as Hrpcs. rewrite Hheap in Hrpcs. destruct Hrpcs as [Hall Hpend].
    destruct (Hpend m old) as (ro' & Hro' & Hz & _); [by rewrite lookup_singleton_eq|]. rewrite Hro in Hro'. injection Hro' as <-.
    eapply keeps_end; [reflexivity| |].
    2:{ split; [cbn; lia|]. cbn. intros i r' Hi Hruns. rewrite !lookup_insert_ne; [done|..]; intros <-; [by rewrite Hnew in Hi|].
        rewrite Hro in Hi. injection Hi as <-. lia. }
    destruct Hok. constructor; cbn; rewrite ?Hdel; try done.
    + by apply (exec_mode_retry _ _ m old ds).
    + unfold ds. rewrite <-Hr4. apply rpcs_ok_replace; try done; [cbn; lia|by left].
    + intros num. rewrite Hth. intros (n & Hn & ->)%fmap_Some. apply fmap_Some in Hn as (n' & Hn' & ->). specialize (ok_throttle0 n' Hn'). lia.
  - rewrite decide_False by lia. rewrite <-(app_nil_r cs). eapply keeps_end; [reflexivity| |by eapply new_rpc_mono].
    pose proof (ok_mode _ _ _ Hok) as Hm. eapply (exec_ok_new _ x _ _ _ Hok); [done|by intros []| |done| |done..| |done].
    + exists c, (mkDownloadingSnapshot request rpc). split; [|split; [done|exact Hlt]]. cbn in Hm. destruct Hm. constructor; cbn; try done; [|lia]. by rewrite md_heap0, insert_empty.
    + cbn. destruct Hm as [_ _ _ _ Hh _ _]. rewrite Hh, insert_empty, <-Hr4. apply rpcs_ok_accept; try done. rewrite <-Hh. apply Hok.
    + exact Hge.
Qed.

End step.

(** *** Interruption *)

Lemma keeps_interrupt cs x act x1 t :
  exec_ok cs x1 act → exec_mono x x1 → x_term x1 ≤ t → (x_term x1 = t ∨ no_shutdown x1) →
  keeps cs x (interrupt_downloading_snapshot t) x1.
Proof.
  intros Hok Hmono Hle Hsh. unfold interrupt_downloading_snapshot. xs. eapply keeps_bind; [by apply st_check_true|]. xs. xs.
  assert (∀ x2, exec_mode x2 act → x_jobs x2 = x_jobs x1 → x_node x2 = x_node x1 → x_rpcs x2 = x_rpcs x1 → x_heap x2 = x_heap x1 →
    x_last_snapshot_index x2 = x_last_snapshot_index x1 → x_throttle x2 = x_throttle x1 → x_out x2 = x_out x1 → x_term x2 = t →
    exec_ok cs x2 act ∧ exec_mono x x2) as Hend.
  { intros x2 Hm Hj Hn Hr Hh Hl Hth Ho Ht. split; [|destruct Hmono as [? Hk]; split; [lia|by rewrite Hr]].
    destruct Hok. constructor; rewrite ?Hj, ?Hn, ?Hr, ?Hh, ?Hl, ?Hth, ?Ho; try done.
    - intros i t' Hi. destruct Hsh as [E|Hsh]; [rewrite Ht, <-E; by eapply ok_term0|by destruct (Hsh i t')].
    - eapply (sets_ok_events x1 act _ _ []); [done|by rewrite app_nil_r|done..]. }
  assert (keeps cs x (mret tt) (x_with_term t x1)) as Hsame.
  { destruct (Hend (x_with_term t x1)) as [? ?]; try done; [eapply (exec_mode_same x1); [done..|apply Hok]|]. by eapply keeps_end. }
  cbn [x_downloading_snapshot x_with_term]. destruct (x_downloading_snapshot x1) as [m|] eqn:Hd; [|done].
  rewrite decide_False by done. xs. cbn [x_loading_snapshot x_with_term].
  pose proof (ok_mode _ _ _ Hok) as Hm. destruct (exec_installing x1 act m Hm Hd) as (id & j & old & -> & _ & Hcase).
  destruct Hcase as [->|(c & meta & -> & Hc & Hu & ->)]; [done|]. xs. eapply keeps_bind; [by apply st_lift_Some|].
  destruct (use_cancel _ _ _ Hu) as (s' & Hs & Hu').
  destruct (Hend (x_with_storage s' (x_with_term t x1))) as [? ?]; try done; [|eapply keeps_end; [by apply x_sto_eq|done..]].
  destruct Hm as (c' & ds' & Hm & Hn). exists c', ds'. split; [|done]. destruct Hm as [? ? Hc' ? ? ? ?].
  rewrite Hc in Hc'. injection Hc' as <-. by constructor.
Qed.

Lemma keeps_shutdown cs x act : exec_ok cs x act → keeps cs x shutdown x.
Proof.
  intros Hok. unfold shutdown. xs. xs. eapply keeps_end; [reflexivity| |by apply exec_mono_refl]. destruct Hok. constructor; try done.
  - cbn. by apply jobs_ok_shutdown.
  - by apply (exec_mode_same x).
  - cbn. intros id t. rewrite lookup_insert. case_decide; [by intros [= <-]|]. apply ok_term0.
Qed.

Lemma keeps_shutdown_interrupt cs x act id t :
  exec_ok cs x act → x_jobs x !! id = Some (JobShutdown t) → keeps cs x (shutdown_interrupt id t) x.
Proof.
  intros Hok Hid. unfold shutdown_interrupt. xs. pose proof (ok_term _ _ _ Hok id t Hid) as ->.
  eapply keeps_interrupt; [|by apply exec_mono_refl|done|by left]. destruct Hok. constructor; try done.
  - cbn. by eapply jobs_ok_end_shutdown.
  - by apply (exec_mode_same x).
  - cbn. intros i t'. intros Hi%same_shutdowns_delete. by apply (ok_term0 i).
Qed.

Lemma exec_step cs x act a :
  exec_ok cs x act → xenabled x a → keeps (cs ++ requested a) x (xexec a) x.
Proof.
  intros Hok Hen. pose proof (ok_jobs _ _ _ Hok) as Hjobs.
  assert (∀ id f, requested a = [] → (x_jobs x !! id = None → keeps cs x (mret tt) x) →
    (∀ j, x_jobs x !! id = Some j → keeps cs x (f j) x) → keeps (cs ++ requested a) x (on_job id f) x) as Hon.
  { intros id f -> Hnone Hsome. rewrite app_nil_r. unfold on_job. xs. destruct (x_jobs x !! id) as [j|] eqn:E; auto. }
  assert (keeps cs x (mret tt) x) as Hskip by (eapply keeps_end; [reflexivity|done|by apply exec_mono_refl]).
  destruct a as [done applied saved|id meta|id status|request rpc|id queued|id status|id|t| |s|num]; cbn [xexec].
  - by eapply keeps_do_snapshot.
  - apply Hon; [done..|]. intros [] Hj; try done. rewrite (jobs_ok_active _ _ _ _ Hjobs Hj) in Hok by by intros []. by apply keeps_save_start.
  - apply Hon; [done..|]. intros [] Hj; try done. rewrite (jobs_ok_active _ _ _ _ Hjobs Hj) in Hok by by intros []. by apply keeps_save_run.
  - xs. rewrite app_nil_r. by eapply keeps_install.
  - apply Hon; [done..|]. intros [] Hj; try done. rewrite (jobs_ok_active _ _ _ _ Hjobs Hj) in Hok by by intros []. by apply keeps_load_call.
  - apply Hon; [done..|]. intros [] Hj; try done. rewrite (jobs_ok_active _ _ _ _ Hjobs Hj) in Hok by by intros []. by apply keeps_load_run.
  - apply Hon; [done..|]. intros j Hj. cbn in Hen. rewrite Hj in Hen. destruct (decide (is_shutdown j)) as [Hs|Hs].
    { destruct j; try done. by eapply keeps_shutdown_interrupt. }
    rewrite (jobs_ok_active _ _ _ _ Hjobs Hj Hs) in Hok. destruct j; cbn [job_next]; try done.
    + by apply keeps_save_check.
    + by apply keeps_save_close.
    + by apply keeps_save_commit.
    + by apply keeps_save_set.
    + destruct Hen as (c & Hc & Hjoin). by eapply keeps_load_downloading.
    + by apply keeps_done_set.
    + by apply keeps_done_end.
  - rewrite app_nil_r. destruct Hen as [Hle Hsh]. eapply keeps_interrupt; [done|by apply exec_mono_refl|done|by right].
  - rewrite app_nil_r. by eapply keeps_shutdown.
  - rewrite app_nil_r. eapply keeps_end; [reflexivity| |by apply exec_mono_refl]. destruct Hok. constructor; try done.
    apply (exec_mode_same x); [done| |done]. intros u rds Hu. by eapply use_env.
  - rewrite app_nil_r. eapply keeps_end; [reflexivity| |by apply exec_mono_refl]. destruct Hok. constructor; try done.
    + by apply (exec_mode_same x).
    + cbn. intros n (n' & Hn & ->)%fmap_Some. destruct Hen as [Hz Hen]. destruct act as [[id j]|]; [|done].
      apply (Hen id j). by apply Hjobs.
Qed.

(** ** Starting *)

(** The node's executor after [init], which loads the last snapshot. *)
Definition xstart x : Prop :=
  ∃ s init_term throttle local copy_file status,
    sto_fresh s ∧ (copy_file = true ∨ local = true) ∧ (∀ num, throttle = Some num → 0 ≤ num) ∧
    executor_init false true init_term true throttle local copy_file 0 status (executor_new s) = Some (0, x).

Lemma load_done_end_eq status x :
  x_node x = true →
  load_done_end status None x =
    Some (tt, x_with_running (x_running_jobs x - 1) (x_with_downloading None (x_with_loading false
      (x_with_out (x_out x ++ [XvUpdateConfiguration]) x)))).
Proof.
  intros Hn. unfold load_done_end. erewrite st_bind_eq by reflexivity. rewrite Hn. do 3 erewrite st_bind_eq by reflexivity.
  by erewrite st_bind_eq by reflexivity.
Qed.

Lemma rpcs_ok_empty last : rpcs_ok last ∅ ∅.
Proof. split; intros ? ? Hl; by rewrite lookup_empty in Hl. Qed.

Lemma jobs_ok_empty : jobs_ok ∅ None.
Proof. split; [|done]. intros id j Hl. by rewrite lookup_empty in Hl. Qed.

(** An executor at rest. *)
Lemma exec_ok_rest x :
  mode_is x false false None None 0 Free [] → x_jobs x = ∅ → x_rpcs x = ∅ → x_node x = true →
  (∀ num, x_throttle x = Some num → 0 ≤ num) → runs_of (x_out x) = [] →
  (set_indexes (x_out x) = [] ∨ set_indexes (x_out x) = [x_last_snapshot_index x]) → exec_ok [] x None.
Proof.
  intros Hm Hj Hr Hn Hth Ho Hs. constructor; try done.
  - rewrite Hj. apply jobs_ok_empty.
  - rewrite Hr, (md_heap _ _ _ _ _ _ _ _ Hm). apply rpcs_ok_empty.
  - intros id t. by rewrite Hj, lookup_empty.
  - unfold sets_ok. cbn [pending_set]. rewrite app_nil_r. destruct Hs as [->| ->]; split; repeat constructor; done.
  - by rewrite Ho.
Qed.

Lemma xstart_ok x : xstart x → exec_ok [] x None.
Proof.
  intros (s & t & th & local & copy & status & Hs & Hlc & Hth & Hinit). unfold executor_init in Hinit.
  erewrite st_bind_eq in Hinit by reflexivity. cbn [negb] in Hinit. set (x0 := x_with_node true t th (executor_new s)) in Hinit.
  destruct (use_init s Hs) as (rc & s1 & H1 & Hu1). rewrite (st_bind_eq _ _ _ _ _ (x_sto_eq _ x0 _ _ H1)) in Hinit.
  case_decide as Hrc; [rewrite (st_bind_eq _ _ _ _ _ (log_node_eq (x_with_storage s1 x0) eq_refl)) in Hinit; done|].
  assert (rc = 0) as -> by lia. specialize (Hu1 eq_refl). set (x1 := x_with_storage s1 x0) in Hinit.
  assert ((if negb copy then st_check (local = true) else mret tt) x1 = Some (tt, x1)) as H2.
  { destruct Hlc as [->| ->]; [done|]. destruct copy; [done|]. by apply st_check_true. }
  rewrite (st_bind_eq _ _ _ _ _ H2) in Hinit. destruct (use_open _ _ _ Hu1) as (r & s2 & H3 & Hu2).
  rewrite (st_bind_eq _ _ _ _ _ (x_sto_eq _ x1 _ _ H3)) in Hinit. destruct r as [r|].
  2:{ injection Hinit as <-. apply exec_ok_rest; try done. by left. }
  erewrite st_bind_eq in Hinit by reflexivity. destruct (reader_load_meta _ _) as [meta|].
  2:{ destruct (use_close_reader _ _ _ _ Hu2) as (rc & s3 & H4 & _). by erewrite st_bind_eq in Hinit by (by apply x_sto_eq). }
  do 3 erewrite st_bind_eq in Hinit by reflexivity. rewrite check_bind_eq in Hinit by done.
  erewrite st_bind_eq in Hinit by (by apply load_done_set_eq). cbv zeta in Hinit. destruct (decide (status = 0)) as [Hst|Hst].
  2:{ erewrite st_bind_eq in Hinit by (by apply load_done_end_eq).
      destruct (use_close_reader _ _ _ _ Hu2) as (rc & s3 & H4 & _). erewrite st_bind_eq in Hinit by (by apply x_sto_eq).
      rewrite decide_True in Hinit by done. done. }
  erewrite st_bind_eq in Hinit by (by apply load_done_end_eq).
  destruct (use_close_reader _ _ _ _ Hu2) as (rc & s3 & H4 & Hu3). erewrite st_bind_eq in Hinit by (by apply x_sto_eq).
  rewrite decide_False in Hinit by lia. injection Hinit as <-. apply exec_ok_rest; try done. by right.
Qed.

(** ** Runs *)

Inductive xrun x : list XAction → SnapshotExecutor → Prop :=
  | XRunNil : xrun x [] x
  | XRunStep acts x1 a x2 :
      xrun x acts x1 → xenabled x1 a → xexec a x1 = Some (tt, x2) → xrun x (acts ++ [a]) x2.

Definition all_requested (acts : list XAction) : list Closure := acts ≫= requested.

Lemma exec_mono_trans x1 x2 x3 : exec_mono x1 x2 → exec_mono x2 x3 → exec_mono x1 x3.
Proof. intros [? Hr] [? Hr']. split; [lia|eauto]. Qed.

Lemma xrun_from cs x acts x' act :
  exec_ok cs x act → xrun x acts x' → ∃ act', exec_ok (cs ++ all_requested acts) x' act' ∧ exec_mono x x'.
Proof.
  intros Hok Hrun. induction Hrun as [|acts x1 a x2 _ (act1 & Hok1 & Hm1) Hen Hex].
  - exists act. cbn. rewrite app_nil_r. split; [done|by apply exec_mono_refl].
  - destruct (exec_step _ x1 act1 a Hok1 Hen) as (x2' & act2 & Hex' & Hok2 & Hm2). rewrite Hex in Hex'. injection Hex' as <-.
    exists act2. split; [|by eapply exec_mono_trans]. unfold all_requested in *. rewrite bind_app, app_assoc. cbn.
    by rewrite app_nil_r.
Qed.

Lemma xrun_ok x acts x' : xstart x → xrun x acts x' → ∃ act, exec_ok (all_requested acts) x' act ∧ exec_mono x x'.
Proof. intros Hs Hr. apply (xrun_from [] x acts x' None); [by apply xstart_ok|done]. Qed.

(** ** Theorems *)

Lemma job_mode_is x j :
  job_mode x j → ∃ sv ld cp dl u rds, mode_is x sv ld cp dl 1 u rds ∧ (sv = true ∧ dl = None ∨ sv = false ∧ is_Some dl).
Proof.
  destruct j; cbn; try done; intros Hm.
  1-5: destruct_and?; eexists _, _, _, _, _, _; split; [eassumption|by left].
  all: destruct Hm as (? & ? & Hm); destruct_and?; eexists _, _, _, _, _, _; split; [eassumption|by right; split; [|eexists]].
Qed.

Lemma exec_ok_use cs x act : exec_ok cs x act → ∃ u rds, sto_use (x_storage x) u rds.
Proof.
  intros Hok. pose proof (ok_mode _ _ _ Hok) as Hm. destruct act as [[id j]|].
  - destruct (job_mode_is x j Hm) as (? & ? & ? & ? & u & rds & Hu & _). exists u, rds. apply Hu.
  - eexists _, _. apply Hm.
Qed.

Lemma describe_ok cs x act :
  exec_ok cs x act → ∃ st, describe x = Some (st, x) ∧ (st = STATUS_IDLE ↔ act = None) ∧
    x_running_jobs x = (if decide (act = None) then 0 else 1) ∧ (is_installing_snapshot x = true → x_saving_snapshot x = false).
Proof.
  intros Hok. pose proof (ok_mode _ _ _ Hok) as Hm. unfold describe, is_installing_snapshot. do 3 erewrite st_bind_eq by reflexivity.
  destruct act as [[id j]|].
  2:{ destruct Hm as [Hs _ _ Hd _ Hr _]. cbn in Hd. rewrite Hd, Hs. by eexists. }
  destruct (job_mode_is x j Hm) as (sv & ld & cp & dl & u & rds & [Hs Hl _ Hd _ Hr _] & Hcase).
  rewrite Hs, Hl, Hd. destruct Hcase as [[-> ->]|[-> [[p ds] ->]]].
  - rewrite decide_False by by intros [? [=]]. by eexists.
  - rewrite decide_True by by eexists. rewrite check_bind_eq by done. eexists. split; [reflexivity|]. by destruct ld.
Qed.

(** C29. The executor's own checks hold.  Take any run in which each step is one
    that [xenabled] admits: every rpc is a new object; a copier that is joined
    has finished; the meta of a save that succeeded can be written; the node's
    mutex orders interrupts, whose terms do not decrease, with both halves of
    [shutdown]; and the caller takes a save as long as the executor is not shut
    down.  Whatever the caller, the copier and other users of the storage do
    otherwise and in which order, no [CHECK] of the executor fails and no object
    is used after it was deleted: every step that may happen in a reachable
    state is carried out.  At most one snapshot is saved or installed at a time,
    and [describe] says that none is when no job runs.  A caller that refuses a
    save earlier breaks this ([refused_save_wedges]). *)
Theorem executor_never_aborts x0 acts x a :
  xstart x0 → xrun x0 acts x → xenabled x a →
  (∃ x', xexec a x = Some (tt, x')) ∧
  (∃ st, describe x = Some (st, x) ∧ (st = STATUS_IDLE ↔ x_running_jobs x = 0)) ∧
  0 ≤ x_running_jobs x ≤ 1 ∧ (is_installing_snapshot x = true → x_saving_snapshot x = false).
Proof.
  intros Hs Hr Hen. destruct (xrun_ok x0 acts x Hs Hr) as (act & Hok & _).
  destruct (describe_ok _ x act Hok) as (st & Hd & Hst & Hrun & Hsv). split_and!; [|exists st; split; [done|]|..|done].
  - destruct (exec_step _ x act a Hok Hen) as (x' & act' & Hex & _). by exists x'.
  - rewrite Hst, Hrun. by case_decide.
  - rewrite Hrun. by case_decide.
  - rewrite Hrun. by case_decide.
Qed.

(** C31. When [join] returns after a run whose steps [xenabled] admits, in
    particular one in which the caller took every save until the executor was
    shut down, every rpc has been answered once, every closure given to
    [do_snapshot] has been run once, and the destructor finds nothing left.  With
    a refused save it may not ([refused_save_wedges]). *)
Theorem executor_drained x0 acts x :
  xstart x0 → xrun x0 acts x → executor_joined x = true →
  executor_destroy x = Some (tt, x) ∧ runs_of (x_out x) ≡ₚ all_requested acts ∧ x_heap x = ∅ ∧
  map_Forall (λ _ r, rp_runs r = 1%nat ∧ answer_ok (x_last_snapshot_index x) r) (x_rpcs x).
Proof.
  intros Hs Hr Hj%bool_decide_eq_true. destruct (xrun_ok x0 acts x Hs Hr) as (act & Hok & _).
  destruct (describe_ok _ x act Hok) as (_ & _ & _ & Hrun & _). case_decide; [subst act|lia].
  destruct (ok_mode _ _ _ Hok) as [Hsv Hl Hc Hd Hheap _ _]. cbn in Hd, Hheap. split_and!; [|by rewrite (ok_closures _ _ _ Hok), app_nil_r|done|].
  - unfold executor_destroy. do 4 (erewrite st_bind_eq by reflexivity; try rewrite check_bind_eq by done).
    by apply st_check_true.
  - intros id r Hid. destruct (ok_rpcs _ _ _ Hok) as [Hall _]. destruct (Hall id r Hid) as [?|(p & ds & Hp & _)]; [done|].
    by rewrite Hheap, lookup_empty in Hp.
Qed.

(** C30. An answer is given once and stays, over the runs whose steps [xenabled]
    admits; [success] is true only when the last snapshot index of the executor
    has reached the index of the request.  The index is the executor's own: it
    says what was loaded or reported as saved, not what a new process would find
    on the disk. *)
Theorem install_answers x0 acts x acts' x' id r :
  xstart x0 → xrun x0 acts x → xrun x acts' x' → x_rpcs x !! id = Some r →
  rp_runs r = 0%nat ∨
  rp_runs r = 1%nat ∧ x_rpcs x' !! id = Some r ∧
  (rp_failed r = 0 → rp_success r = Some true → req_index (rp_request r) ≤ x_last_snapshot_index x).
Proof.
  intros Hs Hr Hr' Hid. destruct (xrun_ok x0 acts x Hs Hr) as (act & Hok & _).
  destruct (xrun_from _ x acts' x' act Hok Hr') as (_ & _ & _ & Hkeep). destruct (ok_rpcs _ _ _ Hok) as [Hall Hpend].
  destruct (Hall id r Hid) as [[Hone Ha]|(p & ds & Hp & <-)].
  - right. split; [done|]. split; [by apply Hkeep|]. intros Hf Hst. destruct Ha as [?|(t & b & _ & Hb & Hle)]; [done|].
    rewrite Hst in Hb. injection Hb as <-. auto.
  - left. destruct (Hpend p ds Hp) as (r' & Hr'' & Hz & _). rewrite Hid in Hr''. by injection Hr'' as <-.
Qed.

(** The log manager is told of snapshots in strictly increasing order, never
    beyond the last one, whose index does not decrease. *)
Lemma snapshots_increase x0 acts x acts' x' :
  xstart x0 → xrun x0 acts x → xrun x acts' x' →
  StronglySorted Z.lt (set_indexes (x_out x)) ∧ Forall (λ i, i ≤ x_last_snapshot_index x) (set_indexes (x_out x)) ∧
  x_last_snapshot_index x ≤ x_last_snapshot_index x'.
Proof.
  intros Hs Hr Hr'. destruct (xrun_ok x0 acts x Hs Hr) as (act & Hok & _).
  destruct (xrun_from _ x acts' x' act Hok Hr') as (_ & _ & Hle & _). destruct (ok_sets _ _ _ Hok) as [Hso Hall].
  split_and!; [by apply StronglySorted_app_1_l in Hso|by apply Forall_app in Hall as [? _]|done].
Qed.

(** A caller that refuses [on_snapshot_save], as a stopped one does, leaves an
    executor that had no closure to run saving for ever: its destructor
    aborts, and later saves are refused. *)
Lemma refused_save_wedges x0 acts x applied saved w s :
  xstart x0 → xrun x0 acts x → x_stopped x = false → executor_joined x = true → saved ≠ 0 →
  raft_do_snapshot_min_index_gap ≤ applied - x_last_snapshot_index x → sto_create (x_storage x) = Some (Some w, s) →
  ∃ x1, do_snapshot None applied saved x = Some (tt, x1) ∧ executor_joined x1 = true ∧ executor_destroy x1 = None ∧
    ∀ c i st, do_snapshot (Some c) i st x1 = Some (tt, x_with_out (x_out x1 ++ [XvRun c EBUSY]) x1).
Proof.
  intros Hs Hr Hstop Hj%bool_decide_eq_true Hsv Hgap Hc. destruct (xrun_ok x0 acts x Hs Hr) as (act & Hok & _).
  destruct (describe_ok _ x act Hok) as (_ & _ & _ & Hrun & _). case_decide; [subst act|lia].
  destruct (ok_mode _ _ _ Hok) as [Hs0 _ _ Hd _ _ _]. cbn in Hd. exists (x_with_saving true (x_with_storage s x)). split_and!.
  - unfold do_snapshot. erewrite st_bind_eq by reflexivity. rewrite Hstop. erewrite st_bind_eq by reflexivity. rewrite Hd.
    rewrite decide_False by by intros [? [=]]. erewrite st_bind_eq by reflexivity. rewrite Hs0. erewrite st_bind_eq by reflexivity.
    rewrite decide_False by lia. rewrite (st_bind_eq _ _ _ _ _ (x_sto_eq _ x _ _ Hc)). erewrite st_bind_eq by reflexivity.
    by rewrite decide_True.
  - apply bool_decide_eq_true. exact Hj.
  - unfold executor_destroy. by erewrite st_bind_eq by reflexivity.
  - intros c i st. unfold do_snapshot. erewrite st_bind_eq by reflexivity. cbn [x_stopped x_with_saving x_with_storage]. rewrite Hstop.
    erewrite st_bind_eq by reflexivity. cbn [x_downloading_snapshot x_with_saving x_with_storage]. rewrite Hd.
    rewrite decide_False by by intros [? [=]]. by erewrite st_bind_eq by reflexivity.
Qed.
End runs.
