(* ===== verification/SnapshotExecutorRuns.v ===== *)
(** * Runs of the snapshot executor

    A storage that keeps its last snapshot in memory, and runs of the executor
    on it: a snapshot is saved, a newer one is installed by a request that is
    retried, the executor is shut down and destroyed. *)

From stdpp Require Import prelude gmap sorting.
From S2P Require Import Prelude ClosureQueue StateMonad Messages SnapshotExecutor SnapshotExecutorSpec.
Local Open Scope Z_scope.

(** ** A storage in memory *)

Inductive MemUse :=
  | MemFree
  | MemWriter (error : Z) (meta : option SnapshotMetaPb)
  | MemCopier (joined : bool) (error : Z) (copied : option SnapshotMetaPb).

Record MemSnapshots := mkMemSnapshots {
  ms_last : option SnapshotMetaPb;
  ms_use : MemUse;
}.

Definition mem_set_use (u : MemUse) (s : MemSnapshots) : MemSnapshots := mkMemSnapshots (ms_last s) u.

(** Update the storage and return. *)
Definition mem_op {A} (r : A) (f : MemSnapshots → MemSnapshots) : ST MemSnapshots A := λ s, Some (r, f s).

(** A reader is the meta it has read, a writer or copier the one in [ms_use]. *)
#[global] Instance mem_snapshots : SnapshotStorage MemSnapshots := {|
  SnapshotWriter := unit;
  SnapshotReader := SnapshotMetaPb;
  SnapshotCopier := unit;
  sto_init := mret 0;
  sto_create := mem_op (Some tt) (mem_set_use (MemWriter 0 None));
  writer_is_ok _ s := match ms_use s with MemWriter e _ => bool_decide (e = 0) | _ => false end;
  writer_set_error _ e :=
    mem_op tt (λ s, match ms_use s with MemWriter _ m => mem_set_use (MemWriter e m) s | _ => s end);
  writer_save_meta _ meta :=
    mem_op 0 (λ s, match ms_use s with MemWriter e _ => mem_set_use (MemWriter e (Some meta)) s | _ => s end);
  sto_close_writer _ :=
    mem_op 0 (λ s, match ms_use s with
                 | MemWriter 0 (Some m) => mkMemSnapshots (Some m) MemFree
                 | _ => mem_set_use MemFree s
                 end);
  sto_open := st_get ms_last;
  reader_is_ok _ _ := true;
  reader_load_meta r _ := Some r;
  sto_close_reader _ := mret 0;
  sto_start_to_copy_from _ := mem_op (Some tt) (mem_set_use (MemCopier false 0 None));
  copier_cancel _ :=
    mem_op tt (λ s, match ms_use s with MemCopier false _ _ => mem_set_use (MemCopier true ECANCELED None) s | _ => s end);
  copier_joined _ s := match ms_use s with MemCopier j _ _ => j | _ => true end;
  copier_error _ s := match ms_use s with MemCopier _ e _ => e | _ => 0 end;
  copier_reader _ s := match ms_use s with MemCopier _ _ m => m | _ => None end;
  sto_close_copier _ :=
    mem_op 0 (λ s, match ms_use s with
                 | MemCopier _ _ (Some m) => mkMemSnapshots (Some m) MemFree
                 | _ => mem_set_use MemFree s
                 end);
|}.

(** The kind of use: the use itself may go on. *)
Definition mem_kind (u : MemUse) : Z :=
  match u with MemFree => 0 | MemWriter _ _ => 1 | MemCopier _ _ _ => 2 end.

Definition use_kind (u : @StorageUse MemSnapshots _) : Z :=
  match u with Free => 0 | Writing _ => 1 | Copying _ | Copied _ => 2 end.

#[global] Instance mem_snapshots_laws : SnapshotStorageLaws (S := MemSnapshots).
Proof.
  refine {|
    sto_env s s' := mem_kind (ms_use s') = mem_kind (ms_use s);
    sto_fresh s := ms_use s = MemFree;
    sto_use s u rds := mem_kind (ms_use s) = use_kind u;
    sto_fits _ _ _ := True;
    closable _ _ := True;
  |}; cbn.
  - intros s Hf. exists 0, s. by rewrite Hf.
  - intros s s' u _ Hu Hk. by rewrite Hk.
  - intros s _ _. by eexists (Some tt), _.
  - intros s w e _ Hu. eexists. split; [reflexivity|]. by destruct (ms_use s) eqn:E; cbn; rewrite ?E.
  - intros s w meta _ Hu. eexists 0, _. split; [reflexivity|]. by destruct (ms_use s) eqn:E; cbn; rewrite ?E.
  - done.
  - intros s w _ Hu _. eexists 0, _. split; [reflexivity|]. by destruct (ms_use s) as [|[] []|] eqn:E; cbn; rewrite ?E.
  - intros s u _ Hu. by eexists _, _.
  - intros s u r _ Hu. by eexists _, _.
  - intros s uri _ Hu. by eexists (Some tt), _.
  - intros s c _ Hu. eexists. split; [reflexivity|]. by destruct (ms_use s) as [|[] []|[]] eqn:E; cbn; rewrite ?E.
  - done.
  - intros s c _ Hu. eexists 0, _. split; [reflexivity|]. by destruct (ms_use s) as [|[] []|[] ? []] eqn:E; cbn; rewrite ?E.
Defined.

(** ** Evaluating runs *)

Section evaluation.
Context {S : Type} `{Hsto : SnapshotStorage S} `{Hlaws : !SnapshotStorageLaws}.
Implicit Types (x : SnapshotExecutor (S := S)).

(** What can be decided of the storage. *)
Context (envb : S → S → bool) (fitsb : SnapshotWriter → SnapshotMetaPb → S → bool).
Context (envb_ok : ∀ s s', envb s s' = true → sto_env s s') (fitsb_ok : ∀ w meta s, fitsb w meta s = true → sto_fits w meta s).

Definition no_shutdownb x : bool :=
  bool_decide (map_Forall (λ _ j, ¬ is_shutdown j) (x_jobs x)).

(** [xenabled], decided. *)
Definition xenabledb x (a : XAction) : bool :=
  match a with
  | XDoSnapshot _ _ saved => x_stopped x || bool_decide (saved = 0)
  | XInstall _ rpc => bool_decide (x_rpcs x !! rpc = None)
  | XNext id =>
      match x_jobs x !! id with
      | Some (JobDownload _ _) => match x_cur_copier x with Some c => copier_joined c (x_storage x) | None => false end
      | Some (JobSaveChecked sd ret) => bool_decide (ret ≠ 0) || fitsb (sd_writer sd) (sd_meta sd) (x_storage x)
      | _ => true
      end
  | XInterrupt t => bool_decide (x_term x ≤ t) && no_shutdownb x
  | XStorage s => envb (x_storage x) s
  | XThrottle num => bool_decide (1 ≤ num)
  | _ => true
  end.

Fixpoint xruns x (acts : list XAction) : option SnapshotExecutor :=
  match acts with
  | [] => Some x
  | a :: acts =>
      if xenabledb x a then '(_, x') ← xexec a x; xruns x' acts else None
  end.

Lemma xenabledb_ok x a : xenabledb x a = true → xenabled x a.
Proof using envb_ok fitsb_ok.
  destruct a as [| | |req rpc| | |id|t| |s|num]; cbn; try done.
  - intros [->|Hs%bool_decide_eq_true]%orb_true_iff; [done|by intros _].
  - apply bool_decide_eq_true.
  - destruct (x_jobs x !! id) as [[]|]; try done.
    + intros [Hne%bool_decide_eq_true|Hf]%orb_true_iff ?; [done|by apply fitsb_ok].
    + destruct (x_cur_copier x) as [c|]; [|done]. intros Hj. by exists c.
  - intros [Hle%bool_decide_eq_true Hsh%bool_decide_eq_true]%andb_true_iff. split; [done|].
    intros id t' Hid. by apply (Hsh id _ Hid).
  - apply envb_ok.
  - intros Hn%bool_decide_eq_true. split; [lia|]. intros id j _. unfold own_tasks. destruct j; lia.
Qed.

Lemma xruns_ok x0 acts x acts' x' : xrun x0 acts x → xruns x acts' = Some x' → xrun x0 (acts ++ acts') x'.
Proof using envb_ok fitsb_ok.
  revert acts x. induction acts' as [|a acts' IH]; intros acts x Hr; cbn.
  - intros [= <-]. by rewrite app_nil_r.
  - destruct (xenabledb x a) eqn:Hen; [|done]. destruct (xexec a x) as [[[] x1]|] eqn:Hex; [|done]. cbn. intros Hrest.
    rewrite (cons_middle a acts acts'), (assoc_L (++)). apply (IH _ x1); [|done]. by eapply XRunStep; [|apply xenabledb_ok|].
Qed.

Lemma xruns_run x acts x' : xruns x acts = Some x' → xrun x acts x'.
Proof using envb_ok fitsb_ok. apply (xruns_ok x []). constructor. Qed.

End evaluation.

(** ** A run *)

Module ExecutorExample.

Abbreviation MX := (SnapshotExecutor (S := MemSnapshots)).

Definition mem_env (s s' : MemSnapshots) : bool := bool_decide (mem_kind (ms_use s') = mem_kind (ms_use s)).
Definition mem_fits (w : SnapshotWriter (S := MemSnapshots)) (meta : SnapshotMetaPb) (s : MemSnapshots) : bool := true.
Abbreviation mem_runs := (xruns mem_env mem_fits).

Lemma mem_env_ok s s' : mem_env s s' = true → sto_env s s'.
Proof. apply bool_decide_eq_true. Qed.

Definition meta_at (i t : Z) : SnapshotMetaPb := mkSnapshotMetaPb i t [] [].
Definition request_at (i t : Z) : InstallSnapshotRequest := mkInstallSnapshotRequest [] [] [] t (meta_at i t) [].

(** The storage has a snapshot at 3, which [init] loads. *)
Definition start_storage : MemSnapshots := mkMemSnapshots (Some (meta_at 3 1)) MemFree.
Definition started : option (Z * MX) := executor_init false true 1 true (Some 0) true true 0 0 (executor_new start_storage).
Definition x0 : MX := default (executor_new start_storage) (snd <$> started).

Lemma x0_start : xstart x0.
Proof.
  exists start_storage, 1, (Some 0), true, true, 0. split_and!; [done|by left|by intros ? [= <-]|].
  vm_compute. reflexivity.
Qed.

(** A save for the closure 7, refused installs, an install of 9 in term 2
    that is retried, shut down. *)
Definition acts1 : list (XAction (S := MemSnapshots)) :=
  [XDoSnapshot (Some 7) 5 0; XInstall (request_at 4 1) 100; XSaveStart 0 (meta_at 5 1); XSaveRun 0 0;
   XNext 0; XNext 0; XNext 0; XNext 0; XInterrupt 2; XInstall (request_at 5 2) 101; XInstall (request_at 9 2) 102;
   XInstall (request_at 9 2) 103; XDoSnapshot None 12 0].
Definition acts2 : list (XAction (S := MemSnapshots)) :=
  [XStorage (mkMemSnapshots (Some (meta_at 5 1)) (MemCopier true 0 (Some (meta_at 9 2)))); XNext 0; XLoadCall 0 0;
   XInstall (request_at 12 2) 104; XLoadRun 0 0; XNext 0; XShutdown; XDoSnapshot None 20 22; XNext 0; XNext 1].

Definition x1 : MX := default x0 (mem_runs x0 acts1).
Definition x2 : MX := default x1 (mem_runs x1 acts2).

Lemma run1 : xrun x0 acts1 x1.
Proof. apply (xruns_run mem_env mem_fits); [apply mem_env_ok|done|vm_compute; reflexivity]. Qed.
Lemma run2 : xrun x1 acts2 x2.
Proof. apply (xruns_run mem_env mem_fits); [apply mem_env_ok|done|vm_compute; reflexivity]. Qed.
Lemma run12 : xrun x0 (acts1 ++ acts2) x2.
Proof. apply (xruns_ok mem_env mem_fits mem_env_ok ltac:(done) x0 acts1 x1); [exact run1|vm_compute; reflexivity]. Qed.

(** The last snapshot is that of the leader, both sets reached the log manager
    and the answers are: busy, done already, interrupted by the retry, success,
    busy. *)
Example run_result :
  x_last_snapshot_index x2 = 9 ∧ set_indexes (x_out x2) = [3; 5; 9] ∧ runs_of (x_out x2) = [7] ∧
  (λ r, (rp_failed r, rp_success r)) <$> x_rpcs x2 =
    list_to_map [(100, (EBUSY, None)); (101, (0, Some true)); (102, (EINTR, None)); (103, (0, Some true)); (104, (EBUSY, None))].
Proof. vm_compute. done. Qed.

(** The order of [shutdown] and [interrupt_downloading_snapshot] matters: when
    the term rises between the two halves of [shutdown], the [CHECK] of the
    second fails. *)
Example shutdown_overtaken :
  (x ← snd <$> xexec XShutdown x0; x' ← snd <$> xexec (XInterrupt 2) x; xexec (XNext 0) x') = None.
Proof. vm_compute. reflexivity. Qed.

End ExecutorExample.

(** ** Witnesses *)

Import ExecutorExample.

Lemma executor_never_aborts_witness :
  xstart x0 ∧ xrun x0 acts1 x1 ∧ (∃ x', xexec (XInstall (request_at 12 2) 104) x1 = Some (tt, x')).
Proof.
  split; [exact x0_start|]. split; [exact run1|].
  apply (executor_never_aborts x0 acts1 x1 (XInstall (request_at 12 2) 104) x0_start run1). vm_compute. reflexivity.
Defined.

Lemma executor_drained_witness : executor_destroy x2 = Some (tt, x2) ∧ runs_of (x_out x2) ≡ₚ all_requested (acts1 ++ acts2).
Proof.
  destruct (executor_drained x0 (acts1 ++ acts2) x2 x0_start run12) as (H1 & H2 & _); [vm_compute; reflexivity|].
  split; [exact H1|exact H2].
Defined.

Lemma install_answers_witness :
  ∃ r, x_rpcs x1 !! 101 = Some r ∧ rp_failed r = 0 ∧ rp_success r = Some true ∧ x_rpcs x2 !! 101 = Some r ∧
    req_index (rp_request r) ≤ x_last_snapshot_index x1.
Proof.
  eexists. split; [vm_compute; reflexivity|]. split; [reflexivity|]. split; [reflexivity|].
  edestruct (install_answers x0 acts1 x1 acts2 x2 101) as [H|(_ & H & Hle)];
    [exact x0_start|exact run1|exact run2|vm_compute; reflexivity|discriminate H|].
  split; [exact H|]. apply Hle; reflexivity.
Defined.
