(* ===== verification/FileCopy.v ===== *)
(** * Copying files between servers

    The file service of the server that has a snapshot
    (src/melon/raft/file_service.{h,cc}, file_reader.{h,cc} and
    [SnapshotFileReader] of snapshot.cc), the session of the server that copies
    a file of it (src/melon/raft/remote_file_copier.{h,cc}), and the throttle
    both use (src/melon/raft/snapshot_throttle.{h,cc}).

    A reader releases its mutex while it reads, so a request that gets that far
    is a [ReadJob] and ends in a second step.  The files of the snapshot do not
    change while a reader is open ([readers_stable] in SnapshotRun.v): their
    contents are a function.  What the file system and the throttle answer are
    arguments. *)

From stdpp Require Import prelude gmap.
From S2P Require Import Prelude Bytes FileSegData StateMonad FileSystem Messages SnapshotFs Snapshot.
Local Open Scope Z_scope.

(** ** The throttle *)

Record ThroughputSnapshotThrottle := mkThrottle {
  th_throttle_throughput_bytes : Z;
  th_check_cycle : Z;
  th_last_throughput_check_time_us : Z;
  th_cur_throughput_bytes : Z;
}.

Definition caculate_check_time_us (current_time_us check_cycle : Z) : Z :=
  let base_aligning_time_us := (1000 * 1000) `quot` check_cycle in
  current_time_us `quot` base_aligning_time_us * base_aligning_time_us.

(** The constructor, at time [now]. *)
Definition throttle_new (throttle_throughput_bytes check_cycle now : Z) : ThroughputSnapshotThrottle :=
  mkThrottle throttle_throughput_bytes check_cycle (caculate_check_time_us now check_cycle) 0.

Definition th_set (last cur : Z) (t : ThroughputSnapshotThrottle) : ThroughputSnapshotThrottle :=
  mkThrottle (th_throttle_throughput_bytes t) (th_check_cycle t) last cur.

(** [minimal_mb] is the flag [raft_minimal_throttle_threshold_mb]. *)
Definition limit_per_cycle (minimal_mb : Z) (t : ThroughputSnapshotThrottle) : Z :=
  Z.max (th_throttle_throughput_bytes t) (minimal_mb * 1024 * 1024) `quot` th_check_cycle t.

Definition throttled_by_throughput (minimal_mb now bytes : Z) (t : ThroughputSnapshotThrottle)
  : Z * ThroughputSnapshotThrottle :=
  let limit := limit_per_cycle minimal_mb t in
  let cur := th_cur_throughput_bytes t in
  let last := th_last_throughput_check_time_us t in
  if decide (cur + bytes > limit) then
    if decide (now - last ≤ (1 * 1000 * 1000) `quot` th_check_cycle t) then
      (if decide (limit > cur) then limit - cur else 0, th_set last limit t)
    else
      let available_size := if decide (bytes > limit) then limit else bytes in
      (available_size, th_set (caculate_check_time_us now (th_check_cycle t)) available_size t)
  else (bytes, th_set last (cur + bytes) t).

Definition return_unused_throughput (now acquired consumed elaspe_time_us : Z) (t : ThroughputSnapshotThrottle)
  : ThroughputSnapshotThrottle :=
  if decide (now - elaspe_time_us < th_last_throughput_check_time_us t) then t
  else th_set (th_last_throughput_check_time_us t) (Z.max (th_cur_throughput_bytes t - (acquired - consumed)) 0) t.

(** ** Messages *)

Record GetFileRequest := mkGetFileRequest {
  gf_reader_id : Z;
  gf_filename : list Z;
  gf_count : Z;
  gf_offset : Z;
  gf_read_partly : bool;
}.

#[global] Instance GetFileRequest_eq_dec : EqDecision GetFileRequest.
Proof. solve_decision. Defined.

(** An answer: the error of the rpc, or [eof], [read_size] and the attachment. *)
Inductive GetFileAnswer :=
  | GetFileFailed (code : Z)
  | GetFileDone (eof : bool) (read_size : Z) (attachment : list Z).

Section copy.
Context `{PbSnapshot}.

(** ** The server *)

(** [dr_current_file] is the content of the open file. *)
Record LocalDirReader := mkDirReader {
  dr_current_file : option (list Z);
  dr_current_filename : list Z;
  dr_is_reading : bool;
  dr_eof_reached : bool;
}.

Definition dir_reader_new : LocalDirReader := mkDirReader None [] false true.

Record SnapshotFileReader := mkFileReader {
  fr_dir : LocalDirReader;
  fr_meta_table : LocalSnapshotMetaTable;
  fr_files : list Z → option (list Z);
}.

(** [read_file_with_meta] up to the [unlock] before the read: an error, or the
    read goes on.  [open_error] is what [open] answers, 0 for success. *)
Definition read_file_begin (files : list Z → option (list Z)) (filename : list Z) (offset open_error : Z)
    (d : LocalDirReader) : Z * LocalDirReader :=
  let reading d := mkDirReader (dr_current_file d) (dr_current_filename d) true (dr_eof_reached d) in
  if dr_is_reading d then (EAGAIN, d)
  else if decide (filename ≠ dr_current_filename d) then
    if negb (dr_eof_reached d) || bool_decide (offset ≠ 0) then (EINVAL, d)
    else
      let d := match dr_current_file d with
               | Some _ => mkDirReader None [] (dr_is_reading d) (dr_eof_reached d)
               | None => d
               end in
      match files filename with
      | Some content =>
          if decide (open_error ≠ 0) then (open_error, d)
          else (0, reading (mkDirReader (Some content) filename (dr_is_reading d) false))
      | None => (ENOENT, d)
      end
  else (0, reading d).

(** What the file does in the second half. *)
Inductive ReadOutcome := ReadDone | ReadFails | SizeFails.

(** The read and its end: the result, the data and [is_eof]. *)
Definition read_file_end (offset max_count : Z) (o : ReadOutcome) (d : LocalDirReader)
  : option (Z * list Z * bool * LocalDirReader) :=
  let finish eof_reached := mkDirReader (dr_current_file d) (dr_current_filename d) false eof_reached in
  content ← dr_current_file d;
  let buf := take (Z.to_nat max_count) (drop (Z.to_nat offset) content) in
  let nread := zlen buf in
  match o with
  | ReadFails => Some (EIO, [], false, finish (dr_eof_reached d))
  | _ =>
      if decide (nread < max_count) then Some (0, buf, true, finish true)
      else
        match o with
        | SizeFails => Some (EIO, [], false, d)
        | _ =>
            let is_eof := bool_decide (zlen content = offset + max_count) in
            Some (0, buf, is_eof, finish is_eof)
        end
  end.

(** A read that holds [_is_reading]. *)
Record ReadJob := mkReadJob { rj_request : GetFileRequest; rj_max_count : Z }.

(** [SnapshotFileReader::read_file] up to the read.  [throttle] is the answer
    of [throttled_by_throughput], if there is a throttle. *)
Definition file_reader_begin (request : GetFileRequest) (throttle : option Z) (open_error : Z) (r : SnapshotFileReader)
  : (Z + list Z + ReadJob) * SnapshotFileReader :=
  let max_count := gf_count request in
  if decide (gf_filename request = MELON_RAFT_SNAPSHOT_META_FILE) then
    (inl (inr (mt_save_to_iobuf_as_remote (fr_meta_table r))), r)
  else if decide (mt_get_file_meta (gf_filename request) (fr_meta_table r) = None) then (inl (inl EPERM), r)
  else
    let new_max_count := default max_count throttle in
    if decide (new_max_count < max_count ∧ (gf_read_partly request = false ∨ new_max_count = 0)) then
      (inl (inl EAGAIN), r)
    else
      let '(ret, d) := read_file_begin (fr_files r) (gf_filename request) (gf_offset request) open_error (fr_dir r) in
      let r := mkFileReader d (fr_meta_table r) (fr_files r) in
      if decide (ret ≠ 0) then (inl (inl ret), r) else (inr (mkReadJob request new_max_count), r).

(** [sv_reader_map] are the readers that were added; those that were removed
    live on in [sv_readers] while a request uses them. *)
Record FileServiceImpl := mkFileService {
  sv_next_id : Z;
  sv_reader_map : gset Z;
  sv_readers : gmap Z SnapshotFileReader;
}.

Definition add_reader (r : SnapshotFileReader) (s : FileServiceImpl) : Z * FileServiceImpl :=
  let id := sv_next_id s in
  (id, mkFileService (id + 1) ({[id]} ∪ sv_reader_map s) (<[id := r]> (sv_readers s))).

Definition remove_reader (id : Z) (s : FileServiceImpl) : Z * FileServiceImpl :=
  (if decide (id ∈ sv_reader_map s) then 0 else -1,
   mkFileService (sv_next_id s) (sv_reader_map s ∖ {[id]}) (sv_readers s)).

Definition sv_set_reader (id : Z) (r : SnapshotFileReader) (s : FileServiceImpl) : FileServiceImpl :=
  mkFileService (sv_next_id s) (sv_reader_map s) (<[id := r]> (sv_readers s)).

(** The buffer of the answer: its blocks and what the reserved bytes hold. *)
Record AnswerBuf := mkAnswerBuf { ab_blocks : list (list Z); ab_garbage : list Z; ab_check_hole : bool }.

Definition answer_done (request : GetFileRequest) (is_eof : bool) (b : AnswerBuf) : GetFileAnswer :=
  GetFileDone is_eof (zlen (concat (ab_blocks b)))
    (get_file_attachment (ab_garbage b) (ab_check_hole b) (ab_blocks b) (gf_offset request)).

(** [get_file]: an answer, or the read it started.  [mk_buf] is how the data
    lies in the buffer. *)
Definition get_file_begin (request : GetFileRequest) (throttle : option Z) (open_error : Z) (mk_buf : list Z → AnswerBuf)
    (s : FileServiceImpl) : option ((GetFileAnswer + ReadJob) * FileServiceImpl) :=
  let id := gf_reader_id request in
  if decide (id ∉ sv_reader_map s) then Some (inl (GetFileFailed ENOENT), s)
  else
    r ← sv_readers s !! id;
    if decide (gf_count request ≤ 0 ∨ gf_offset request < 0) then Some (inl (GetFileFailed EREQUEST), s)
    else
      let '(res, r) := file_reader_begin request throttle open_error r in
      Some (match res with
            | inl (inl ret) => inl (GetFileFailed ret)
            | inl (inr out) => inl (answer_done request true (mk_buf out))
            | inr job => inr job
            end, sv_set_reader id r s).

Definition get_file_end (job : ReadJob) (o : ReadOutcome) (mk_buf : list Z → AnswerBuf) (s : FileServiceImpl)
  : option (GetFileAnswer * FileServiceImpl) :=
  let request := rj_request job in
  let id := gf_reader_id request in
  r ← sv_readers s !! id;
  '(ret, out, is_eof, d) ← read_file_end (gf_offset request) (rj_max_count job) o (fr_dir r);
  let s := sv_set_reader id (mkFileReader d (fr_meta_table r) (fr_files r)) s in
  Some (if decide (ret ≠ 0) then GetFileFailed ret else answer_done request is_eof (mk_buf out), s).

(** ** The session *)

Definition raft_max_byte_count_per_rpc : Z := 1024 * 128.
Definition UINT_MAX : Z := 2 ^ 32 - 1.

(** [_options.max_retry]. *)
Definition max_retry : Z := 3.

(** [_file] and its content, or [_buf]. *)
Inductive CopyDest := DestFile (content : list Z) | DestBuf (content : list Z).

Definition dest_content (d : CopyDest) : list Z := match d with DestFile c | DestBuf c => c end.
Definition dest_is_file (d : CopyDest) : bool := match d with DestFile _ => true | DestBuf _ => false end.

(** What the session waits for: an rpc or its timer. *)
Inductive SessionWait := WaitNone | WaitRpc | WaitTimer.

#[global] Instance SessionWait_eq_dec : EqDecision SessionWait.
Proof. solve_decision. Defined.

Record Session := mkSession {
  se_reader_id : Z;
  se_filename : list Z;
  se_read_partly : bool;
  se_dest : CopyDest;
  se_offset : Z;
  se_count : Z;
  se_retry_times : Z;
  se_status : Z;
  se_finished : bool;
  se_wait : SessionWait;
}.

Definition se_set_request (offset count : Z) (s : Session) : Session :=
  mkSession (se_reader_id s) (se_filename s) (se_read_partly s) (se_dest s) offset count (se_retry_times s) (se_status s)
    (se_finished s) (se_wait s).
Definition se_set_dest (d : CopyDest) (s : Session) : Session :=
  mkSession (se_reader_id s) (se_filename s) (se_read_partly s) d (se_offset s) (se_count s) (se_retry_times s)
    (se_status s) (se_finished s) (se_wait s).
Definition se_set_retry (n : Z) (s : Session) : Session :=
  mkSession (se_reader_id s) (se_filename s) (se_read_partly s) (se_dest s) (se_offset s) (se_count s) n (se_status s)
    (se_finished s) (se_wait s).
Definition se_set_status (e : Z) (s : Session) : Session :=
  mkSession (se_reader_id s) (se_filename s) (se_read_partly s) (se_dest s) (se_offset s) (se_count s) (se_retry_times s)
    e (se_finished s) (se_wait s).
Definition se_set_wait (w : SessionWait) (s : Session) : Session :=
  mkSession (se_reader_id s) (se_filename s) (se_read_partly s) (se_dest s) (se_offset s) (se_count s) (se_retry_times s)
    (se_status s) (se_finished s) w.
Definition se_finish (s : Session) : Session :=
  mkSession (se_reader_id s) (se_filename s) (se_read_partly s) (se_dest s) (se_offset s) (se_count s) (se_retry_times s)
    (se_status s) true (se_wait s).

Definition se_request (s : Session) : GetFileRequest :=
  mkGetFileRequest (se_reader_id s) (se_filename s) (se_count s) (se_offset s) (se_read_partly s).

(** [grant] is the answer of the throttle, which only files have. *)
Definition send_next_rpc (grant : option Z) (s : Session) : Session :=
  let offset := se_offset s + se_count s in
  let max_count := if dest_is_file (se_dest s) then raft_max_byte_count_per_rpc else UINT_MAX in
  let s := se_set_wait WaitNone (se_set_request offset (se_count s) s) in
  if se_finished s then s
  else
    let new_max_count := if dest_is_file (se_dest s) then default max_count grant else max_count in
    if decide (new_max_count = 0) then se_set_wait WaitTimer (se_set_request offset 0 s)
    else se_set_wait WaitRpc (se_set_request offset new_max_count s).

(** [start_to_copy_to_file], once the file is open, and [start_to_copy_to_iobuf]. *)
Definition start_to_copy (reader_id : Z) (source : list Z) (read_partly : bool) (to_file : bool) (grant : option Z) : Session :=
  send_next_rpc grant
    (mkSession reader_id source read_partly (if to_file then DestFile [] else DestBuf []) 0 0 0 0 false WaitNone).

(** [sync_ok] says that [sync] and [close] succeed. *)
Definition on_finished (sync_ok : bool) (s : Session) : Session :=
  if se_finished s then s
  else se_finish (if dest_is_file (se_dest s) && negb sync_ok then se_set_status EIO s else s).

(** The attachment is written to the file, by [write], or to the buffer: the
    destination and 0 or [EIO]. *)
Definition store_answer (write : list Z → list Z → Z → list Z * Z) (attachment : list Z) (d : CopyDest)
  : option (CopyDest * Z) :=
  match d with
  | DestFile c =>
      '(c', rc) ← copy_to_file write (S (length attachment)) (fs_reader attachment) c;
      Some (DestFile c', rc)
  | DestBuf c => c' ← copy_to_buf (S (length attachment)) (fs_reader attachment) c; Some (DestBuf c', 0)
  end.

Definition on_rpc_returned (a : GetFileAnswer) (write : list Z → list Z → Z → list Z * Z) (sync_ok : bool)
    (grant : option Z) (s : Session) : option Session :=
  let s := se_set_wait WaitNone s in
  if se_finished s then Some s
  else
    match a with
    | GetFileFailed code =>
        let s := se_set_request (se_offset s) 0 s in
        if decide (code = ECANCELED ∧ se_status s = 0) then Some (on_finished sync_ok (se_set_status code s))
        else
          let s' := if decide (code ≠ EAGAIN) then se_set_retry (se_retry_times s + 1) s else s in
          if decide (code ≠ EAGAIN ∧ max_retry ≤ se_retry_times s ∧ se_status s = 0) then
            Some (on_finished sync_ok (se_set_status code s'))
          else Some (se_set_wait WaitTimer s')
    | GetFileDone eof read_size attachment =>
        let s := se_set_retry 0 s in
        let s := if decide (read_size ≠ 0 ∧ se_read_partly s = true) then se_set_request (se_offset s) read_size s else s in
        '(d, rc) ← store_answer write attachment (se_dest s);
        let s := se_set_dest d s in
        if decide (rc ≠ 0) then Some (on_finished sync_ok (se_set_status EIO s))
        else if (eof : bool) then Some (on_finished sync_ok s)
        else Some (send_next_rpc grant s)
    end.

(** [cancel()]. *)
Definition session_cancel (sync_ok : bool) (s : Session) : Session :=
  if se_finished s then s
  else
    let s := if decide (se_status s = 0) then se_set_status ECANCELED s else s in
    on_finished sync_ok s.

End copy.
