(* ===== verification/ThrottleSpec.v ===== *)
(** * The throttle of snapshot traffic

    What [ThroughputSnapshotThrottle] (FileCopy.v) gives out over time: each
    grant is between nothing and what was asked for, and all of them together
    stay within the limit of the cycles that have begun. *)

From stdpp Require Import prelude.
From S2P Require Import Prelude FileCopy.
Local Open Scope Z_scope.

(** Tokens are asked for, and those not used returned. *)
Inductive ThrottleOp :=
  | Acquire (now bytes : Z)
  | Return (now acquired consumed elaspe_time_us : Z).

(** The change of the tokens given out. *)
Definition throttle_op (minimal_mb : Z) (op : ThrottleOp) (t : ThroughputSnapshotThrottle) : Z * ThroughputSnapshotThrottle :=
  match op with
  | Acquire now bytes => throttled_by_throughput minimal_mb now bytes t
  | Return now acquired consumed elaspe => (- (acquired - consumed), return_unused_throughput now acquired consumed elaspe t)
  end.

Fixpoint throttle_run (minimal_mb : Z) (ops : list ThrottleOp) (t : ThroughputSnapshotThrottle) : Z * ThroughputSnapshotThrottle :=
  match ops with
  | [] => (0, t)
  | op :: ops =>
      let '(n, t) := throttle_op minimal_mb op t in
      let '(m, t) := throttle_run minimal_mb ops t in (n + m, t)
  end.

Definition op_ok (until : Z) (op : ThrottleOp) : Prop :=
  match op with
  | Acquire now bytes => 0 ≤ now ≤ until ∧ 0 ≤ bytes
  | Return now acquired consumed _ => consumed ≤ acquired
  end.

Definition cycle_us (check_cycle : Z) : Z := (1000 * 1000) `quot` check_cycle.

(** [net] tokens are given out since the cycle [k0]; none of it is more than
    the cycles since then allow, and the current one knows its part. *)
Record throttle_inv (minimal_mb until k0 : Z) (net : Z) (t : ThroughputSnapshotThrottle) : Prop := {
  ti_cycle : 1 ≤ th_check_cycle t ≤ 1000 * 1000;
  ti_cur : 0 ≤ th_cur_throughput_bytes t ≤ limit_per_cycle minimal_mb t;
  ti_last : ∃ k, th_last_throughput_check_time_us t = k * cycle_us (th_check_cycle t) ∧ k0 ≤ k ∧
    k * cycle_us (th_check_cycle t) ≤ until ∧ net ≤ limit_per_cycle minimal_mb t * (k - k0) + th_cur_throughput_bytes t;
}.

Lemma cycle_us_pos cc : 1 ≤ cc ≤ 1000 * 1000 → 0 < cycle_us cc.
Proof. intros Hcc. unfold cycle_us. rewrite Z.quot_div_nonneg by lia. pose proof (Z.div_le_lower_bound (1000 * 1000) cc 1). lia. Qed.

Lemma check_time_aligned now cc :
  0 ≤ now → 1 ≤ cc ≤ 1000 * 1000 → ∃ k, caculate_check_time_us now cc = k * cycle_us cc ∧ k * cycle_us cc ≤ now < (k + 1) * cycle_us cc.
Proof.
  intros Hn Hcc. pose proof (cycle_us_pos cc Hcc) as Hp. unfold caculate_check_time_us. fold (cycle_us cc).
  exists (now / cycle_us cc). rewrite Z.quot_div_nonneg by lia. split; [done|].
  pose proof (Z.div_mod now (cycle_us cc)). pose proof (Z.mod_pos_bound now (cycle_us cc)). lia.
Qed.

Lemma throttle_op_inv minimal_mb until k0 net op t :
  throttle_inv minimal_mb until k0 net t → op_ok until op →
  let '(n, t') := throttle_op minimal_mb op t in
  throttle_inv minimal_mb until k0 (net + n) t' ∧ match op with Acquire _ bytes => 0 ≤ n ≤ bytes | _ => True end.
Proof.
  intros [Hcc Hcur (k & Hk & Hk0 & Hun & Hnet)] Hop. set (lim := limit_per_cycle minimal_mb t) in *.
  assert (∀ last cur, limit_per_cycle minimal_mb (th_set last cur t) = lim) as Hlim by done.
  destruct op as [now b|now acq con el]; cbn [throttle_op op_ok] in *.
  - unfold throttled_by_throughput. fold lim. fold (cycle_us (th_check_cycle t)).
    destruct (decide (_ > lim)) as [Hov|Hov]; [destruct (decide (now - _ ≤ _)) as [Hin|Hin]|].
    + assert ((if decide (lim > th_cur_throughput_bytes t) then lim - th_cur_throughput_bytes t else 0) = lim - th_cur_throughput_bytes t) as ->
        by (case_decide; lia).
      split; [|lia]. constructor; rewrite ?Hlim; cbn; [done|lia|]. exists k. lia.
    + destruct (check_time_aligned now (th_check_cycle t)) as (k' & -> & Hk'); [lia|done|].
      change ((1 * 1000 * 1000) `quot` th_check_cycle t) with (cycle_us (th_check_cycle t)) in Hin.
      assert (k + 1 ≤ k') as Hkk by (pose proof (cycle_us_pos _ Hcc); nia).
      destruct (decide (b > lim)); (split; [|lia]); (constructor; rewrite ?Hlim; cbn; [done|lia|]); exists k';
        (split_and!; [done|lia|lia|nia]).
    + split; [|lia]. constructor; rewrite ?Hlim; cbn; [done|lia|]. exists k. lia.
  - split; [|done]. unfold return_unused_throughput. case_decide.
    + constructor; [done..|]. exists k. lia.
    + constructor; rewrite ?Hlim; cbn; [done|lia|]. exists k. lia.
Qed.

Lemma throttle_op_params minimal_mb op t :
  let t' := (throttle_op minimal_mb op t).2 in
  th_throttle_throughput_bytes t' = th_throttle_throughput_bytes t ∧ th_check_cycle t' = th_check_cycle t.
Proof. destruct op; cbn; [unfold throttled_by_throughput|unfold return_unused_throughput]; repeat case_decide; done. Qed.

Lemma throttle_run_inv minimal_mb until k0 net ops t :
  throttle_inv minimal_mb until k0 net t → Forall (op_ok until) ops →
  let '(n, t') := throttle_run minimal_mb ops t in
  throttle_inv minimal_mb until k0 (net + n) t' ∧
  th_throttle_throughput_bytes t' = th_throttle_throughput_bytes t ∧ th_check_cycle t' = th_check_cycle t.
Proof.
  revert net t. induction ops as [|op ops IH]; intros net t Hinv Hops; cbn; [by rewrite Z.add_0_r|].
  apply Forall_cons in Hops as [Hop Hops]. pose proof (throttle_op_inv _ _ _ _ _ _ Hinv Hop) as Hop'.
  pose proof (throttle_op_params minimal_mb op t) as [Hp1 Hp2]. destruct (throttle_op minimal_mb op t) as [n t1]. destruct Hop' as [Hinv1 _].
  specialize (IH _ _ Hinv1 Hops). destruct (throttle_run minimal_mb ops t1) as [m t2]. cbn in *. rewrite Z.add_assoc. by rewrite <-Hp1, <-Hp2.
Qed.

(** C35. However tokens are asked for and returned, up to the time [until] the
    throttle has given out at most what the cycles since it was made allow. *)
Theorem throttle_rate throttle_throughput_bytes check_cycle minimal_mb start until ops :
  1 ≤ check_cycle ≤ 1000 * 1000 → 0 ≤ minimal_mb → 0 ≤ start ≤ until → Forall (op_ok until) ops →
  let t := throttle_new throttle_throughput_bytes check_cycle start in
  (throttle_run minimal_mb ops t).1 ≤
    limit_per_cycle minimal_mb t * (1 + (until - th_last_throughput_check_time_us t) / cycle_us check_cycle).
Proof.
  intros Hcc Hmin Hst Hops t. destruct (check_time_aligned start check_cycle) as (k0 & Hk0 & Hb); [lia|done|].
  assert (0 ≤ limit_per_cycle minimal_mb t) as Hlim by (apply Z.quot_pos; cbn; lia).
  assert (throttle_inv minimal_mb until k0 0 t) as Hinv.
  { constructor; cbn; [done|done|]. exists k0. rewrite Hk0. split_and!; [done|lia|lia|lia]. }
  pose proof (throttle_run_inv _ _ _ _ _ _ Hinv Hops) as Hrun. destruct (throttle_run minimal_mb ops t) as [n t'].
  destruct Hrun as ([_ Hcur (k & Hk & _ & Hun & Hnet)] & Hp1 & Hp2). unfold limit_per_cycle in Hcur, Hnet. rewrite Hp1, Hp2 in Hcur, Hnet.
  fold (limit_per_cycle minimal_mb t) in Hcur, Hnet. rewrite Hp2 in Hun. cbn in *. rewrite Hk0.
  pose proof (cycle_us_pos _ Hcc). pose proof (Z.div_le_lower_bound (until - k0 * cycle_us check_cycle) (cycle_us check_cycle) (k - k0)). nia.
Qed.

Lemma throttle_rate_witness :
  let t := throttle_new 1000 10 5 in
  let ops := [Acquire 7 60; Acquire 8 60; Return 9 40 10 1; Acquire 250000 80] in
  throttle_run 0 ops t = (150, mkThrottle 1000 10 200000 80) ∧
  150 ≤ limit_per_cycle 0 t * (1 + (300000 - th_last_throughput_check_time_us t) / cycle_us 10).
Proof.
  split; [vm_compute; reflexivity|].
  refine (throttle_rate 1000 10 0 5 300000 [Acquire 7 60; Acquire 8 60; Return 9 40 10 1; Acquire 250000 80] _ _ _ _); [lia..|].
  rewrite !Forall_cons; cbn; split_and!; try lia; apply Forall_nil_2.
Defined.
