(* ===== verification/FileCopySpec.v ===== *)
(** * Copying files: what arrives

    A session, the file service it asks and everybody else who uses the
    service, as a transition system: requests are served in any order, twice or
    not at all, answers are lost, and the throttle grants what it likes.  A
    session that ends without an error has copied the file. *)

From stdpp Require Import prelude gmap.
From S2P Require Import Prelude Bytes FileSegData StateMonad FileSystem Messages SnapshotFs Snapshot SnapshotWire FileCopy.
Local Open Scope Z_scope.

(** ** Answers without holes *)

Lemma plain_attachment garbage blocks off :
  length garbage = fs_header_size → concat blocks ≠ [] → zlen (concat blocks) < 2 ^ 32 →
  get_file_attachment garbage false blocks off = encode_segment (off, concat blocks).
Proof.
  intros Hg Hne Hlt. unfold get_file_attachment. rewrite decide_False by done. set (d := concat blocks) in *.
  assert (0 < zlen d) as Hpos by (unfold zlen; destruct d; [done|cbn; lia]).
  assert (u32 (zlen d) = zlen d) as Hu by (unfold u32; apply Z.mod_small; lia).
  unfold fs_append, fs_close. cbn [fs_seg_offset fs_writer]. rewrite decide_False by lia. unfold fs_close_segment at 1.
  cbn [fs_data fs_seg_len fs_seg_header fs_seg_offset]. rewrite Hu, decide_True by done. unfold fs_assign. cbn [fs_close_segment fs_data].
  change (fs_close_segment fs_writer) with (@nil Z). cbn [app length]. rewrite header_length, take_0, Nat.add_0_l.
  rewrite drop_app_length' by (rewrite length_take; lia). unfold encode_segment. by rewrite <-app_assoc.
Qed.

Lemma fs_next_one w : segment_ok w → fs_next (fs_reader (encode_segment w)) = Some (fs_reader [], w.1, w.2, zlen w.2).
Proof. intros Hw. pose proof (fs_next_segment w [] 0 0 0 Hw) as E. by rewrite app_nil_r in E. Qed.

Lemma copy_to_file_plain write data off file :
  segment_ok (off, data) →
  copy_to_file write (S (length (encode_segment (off, data)))) (fs_reader (encode_segment (off, data))) file =
    let '(file', nwritten) := write file data off in Some (file', if decide (nwritten ≠ zlen data) then EIO else 0).
Proof.
  intros Hs. destruct Hs as (Hne & Hs). pose proof (conj Hne Hs : segment_ok (off, data)) as Hok. cbn in Hne.
  assert (length (encode_segment (off, data)) = S (pred (length (encode_segment (off, data))))) as Hl.
  { unfold encode_segment. rewrite !length_app, pack64_length. lia. }
  cbn [copy_to_file]. rewrite fs_next_one by done.
  cbn [mbind option_bind fst snd]. rewrite decide_True by (unfold zlen; destruct data; [done|cbn; lia]).
  destruct (write file data off) as [f' n]. case_decide; [done|]. rewrite Hl. done.
Qed.

Lemma copy_to_buf_plain data off buf :
  segment_ok (off, data) → zlen buf = off →
  copy_to_buf (S (length (encode_segment (off, data)))) (fs_reader (encode_segment (off, data))) buf = Some (buf ++ data).
Proof.
  intros Hok Hb. pose proof Hok as (Hne & _). cbn in Hne.
  assert (length (encode_segment (off, data)) = S (pred (length (encode_segment (off, data))))) as Hl.
  { unfold encode_segment. rewrite !length_app, pack64_length. lia. }
  cbn [copy_to_buf]. rewrite fs_next_one by done.
  cbn [mbind option_bind fst snd]. rewrite decide_True by (unfold zlen; destruct data; [done|cbn; lia]).
  rewrite CHECK_true by lia. cbn [mbind option_bind]. rewrite Hl. cbn.
  rewrite bytes_resize_le by (pose proof (zlen_nonneg buf); lia). rewrite take_ge by (unfold zlen in Hb; lia). done.
Qed.

Section spec.
Context `{PbSnapshot}.

(** The snapshot that is copied, the reader that serves it, and whether holes
    may be left out of answers. *)
Context (table : LocalSnapshotMetaTable) (files : list Z → option (list Z)) (reader_id : Z) (holes : bool).

(** The files as they are served. *)
Definition source (f : list Z) : option (list Z) :=
  if decide (f = MELON_RAFT_SNAPSHOT_META_FILE) then Some (mt_save_to_iobuf_as_remote table) else files f.

Definition buf_ok (mk_buf : list Z → AnswerBuf) : Prop :=
  ∀ d, concat (ab_blocks (mk_buf d)) = d ∧ Forall (λ p, p ≠ []) (ab_blocks (mk_buf d)) ∧
    length (ab_garbage (mk_buf d)) = fs_header_size ∧ (ab_check_hole (mk_buf d) = true → holes = true).

(** The data [d] and [eof] answer the request [rq] for a file [F]. *)
Definition right_data (rq : GetFileRequest) (F d : list Z) (eof : bool) : Prop :=
  let off := gf_offset rq in
  if decide (gf_filename rq = MELON_RAFT_SNAPSHOT_META_FILE) then d = F ∧ eof = true
  else d = take (length d) (drop (Z.to_nat off) F) ∧ zlen d ≤ gf_count rq ∧ 0 ≤ off ∧
       (if eof then zlen F ≤ off + zlen d
        else d ≠ [] ∧ off + zlen d < zlen F ∧ (gf_read_partly rq = false → zlen d = gf_count rq)).

Definition right_answer (rq : GetFileRequest) (a : GetFileAnswer) : Prop :=
  match a with
  | GetFileFailed code => code ≠ 0
  | GetFileDone eof read_size attachment =>
      ∃ F d mk_buf, source (gf_filename rq) = Some F ∧ buf_ok mk_buf ∧ right_data rq F d eof ∧
        GetFileDone eof read_size attachment = answer_done rq eof (mk_buf d)
  end.

(** ** The server *)

Definition job_ok (d : LocalDirReader) (j : ReadJob) : Prop :=
  let rq := rj_request j in
  dr_is_reading d = true ∧ dr_current_filename d = gf_filename rq ∧ is_Some (dr_current_file d) ∧
  gf_filename rq ≠ MELON_RAFT_SNAPSHOT_META_FILE ∧ 0 ≤ gf_offset rq ∧ 1 ≤ rj_max_count j ≤ gf_count rq ∧
  (gf_read_partly rq = false → rj_max_count j = gf_count rq).

Definition dir_ok (d : LocalDirReader) : Prop :=
  match dr_current_file d with
  | Some c => files (dr_current_filename d) = Some c
  | None => dr_current_filename d = []
  end.

Definition own_jobs (jobs : list ReadJob) : list ReadJob := filter (λ j, gf_reader_id (rj_request j) = reader_id) jobs.

(** The reader serves the snapshot; at most one job reads with it. *)
Record service_ok (s : FileServiceImpl) (jobs : list ReadJob) : Prop := {
  svo_next : reader_id < sv_next_id s;
  svo_reader : ∃ d, sv_readers s !! reader_id = Some (mkFileReader d table files) ∧ dir_ok d ∧
    match own_jobs jobs with [] => True | [j] => job_ok d j | _ => False end;
}.

Lemma service_ok_other s s' jobs jobs' :
  service_ok s jobs → sv_next_id s ≤ sv_next_id s' → sv_readers s' !! reader_id = sv_readers s !! reader_id →
  own_jobs jobs' = own_jobs jobs → service_ok s' jobs'.
Proof. intros [Hn Hr] Hle Hs Hj. constructor; [lia|]. by rewrite Hs, Hj. Qed.

Lemma own_jobs_cons j jobs :
  own_jobs (j :: jobs) = if decide (gf_reader_id (rj_request j) = reader_id) then j :: own_jobs jobs else own_jobs jobs.
Proof. unfold own_jobs. rewrite filter_cons. by case_decide. Qed.

Lemma read_file_begin_ok rq open_error d ret d' mc jobs :
  dir_ok d → (match own_jobs jobs with [] => True | [j] => job_ok d j | _ => False end) →
  read_file_begin files (gf_filename rq) (gf_offset rq) open_error d = (ret, d') →
  gf_filename rq ≠ MELON_RAFT_SNAPSHOT_META_FILE → gf_filename rq ≠ [] → 0 ≤ gf_offset rq → 1 ≤ mc ≤ gf_count rq →
  (gf_read_partly rq = false → mc = gf_count rq) →
  dir_ok d' ∧ (if decide (ret = 0) then own_jobs jobs = [] ∧ job_ok d' (mkReadJob rq mc)
               else match own_jobs jobs with [] => True | [j] => job_ok d' j | _ => False end).
Proof.
  intros Hd Hj Hb Hm Hne Ho Hmc Hp. unfold read_file_begin in Hb.
  assert (dr_is_reading d = false → own_jobs jobs = []) as Hnil.
  { intros Hr. destruct (own_jobs jobs) as [|j [|]]; [done| |done]. destruct Hj as [Hr' _]. congruence. }
  destruct (dr_is_reading d) eqn:Er; [by injection Hb as <- <-|]. specialize (Hnil eq_refl). rewrite Hnil. clear Hj.
  case_decide as Hf.
  2:{ injection Hb as <- <-. unfold dir_ok in *. cbn. split; [done|]. split; [done|].
      unfold job_ok. cbn. split_and!; try done; try lia. destruct (dr_current_file d); [done|]. congruence. }
  destruct (_ || _); [by injection Hb as <- <-|].
  set (d1 := match dr_current_file d with Some _ => _ | None => d end) in Hb.
  assert (dir_ok d1) as Hd1 by (unfold d1, dir_ok in *; destruct (dr_current_file d) eqn:E; cbn; [done|by rewrite E]).
  destruct (files (gf_filename rq)) as [c|] eqn:Ef; [|by injection Hb as <- <-].
  case_decide as Hoe; [injection Hb as <- <-; by rewrite decide_False|].
  injection Hb as <- <-. split; [done|]. split; [done|]. unfold job_ok. cbn. split_and!; try done; lia.
Qed.

Lemma slice_length (F : list Z) off mc :
  0 ≤ off → 0 ≤ mc → let d := take (Z.to_nat mc) (drop (Z.to_nat off) F) in
  d = take (length d) (drop (Z.to_nat off) F) ∧ zlen d = Z.max 0 (Z.min mc (zlen F - off)).
Proof.
  intros Ho Hm. cbn zeta. split.
  - rewrite length_take. by destruct (decide (Z.to_nat mc ≤ length (drop (Z.to_nat off) F))%nat);
      [rewrite Nat.min_l by lia|rewrite Nat.min_r by lia; rewrite !take_ge by lia].
  - unfold zlen. rewrite length_take, length_drop. lia.
Qed.

Lemma read_file_end_ok j o d ret out eof d' :
  dir_ok d → job_ok d j → read_file_end (gf_offset (rj_request j)) (rj_max_count j) o d = Some (ret, out, eof, d') →
  dir_ok d' ∧ (ret = 0 → ∃ F, files (gf_filename (rj_request j)) = Some F ∧ right_data (rj_request j) F out eof).
Proof.
  intros Hd (Hr & Hf & [c Hc] & Hm & Ho & Hmc & Hp) Hend. unfold read_file_end in Hend. unfold dir_ok in *.
  rewrite Hc in Hd, Hend. cbn in Hend. rewrite Hf in Hd. destruct (slice_length c (gf_offset (rj_request j)) (rj_max_count j))
    as [Hsl Hlen]; [lia..|]. set (buf := take _ _) in *.
  assert (∀ eof : bool, (if eof then zlen c ≤ gf_offset (rj_request j) + zlen buf
        else buf ≠ [] ∧ gf_offset (rj_request j) + zlen buf < zlen c ∧ (gf_read_partly (rj_request j) = false → zlen buf = gf_count (rj_request j))) →
    right_data (rj_request j) c buf eof) as Hrd.
  { intros e He. unfold right_data. rewrite decide_False by done. split_and!; [done|lia|done|done]. }
  destruct o; [| |].
  - case_decide as Hn.
    + injection Hend as <- <- <- <-. rewrite Hf. split; [done|]. intros _. exists c. split; [done|]. apply Hrd. lia.
    + injection Hend as <- <- <- <-. cbn. rewrite ?Hc, Hf. split; [done|]. intros _. exists c. split; [done|]. apply Hrd.
      case_bool_decide as Hs; [lia|]. split_and!; [|lia|intros Hq; specialize (Hp Hq); lia]. intros Hnil. rewrite Hnil, zlen_nil in Hn. lia.
  - injection Hend as <- <- <- <-. cbn. by rewrite ?Hc, Hf.
  - case_decide as Hn.
    + injection Hend as <- <- <- <-. rewrite Hf. split; [done|]. intros _. exists c. split; [done|]. apply Hrd. lia.
    + injection Hend as <- <- <- <-. by rewrite ?Hc, Hf.
Qed.

Lemma get_file_begin_ok s jobs rq throttle open_error mk_buf res s' :
  service_ok s jobs → get_file_begin rq throttle open_error mk_buf s = Some (res, s') →
  (∀ g, throttle = Some g → 0 ≤ g ≤ gf_count rq) → buf_ok mk_buf → mt_get_file_meta [] table = None →
  match res with
  | inl a => service_ok s' jobs ∧ (gf_reader_id rq = reader_id → right_answer rq a)
  | inr j => service_ok s' (j :: jobs) ∧ rj_request j = rq
  end.
Proof.
  intros Hok Hb Hth Hbuf Hemp. unfold get_file_begin in Hb. case_decide as Hin; [injection Hb as <- <-; done|].
  destruct (sv_readers s !! gf_reader_id rq) as [r|] eqn:Hr; [|done]. cbn in Hb.
  case_decide as Hbad; [injection Hb as <- <-; done|].
  destruct (file_reader_begin rq throttle open_error r) as [res0 r'] eqn:Hfr. injection Hb as <- <-.
  destruct (decide (gf_reader_id rq = reader_id)) as [Hid|Hid].
  2:{ assert (∀ jobs', own_jobs jobs' = own_jobs jobs → service_ok (sv_set_reader (gf_reader_id rq) r' s) jobs') as Hother.
      { intros jobs' Hj. eapply service_ok_other; [done|done| |done]. cbn. by rewrite lookup_insert_ne. }
      destruct res0 as [[ret|out]|j]; [by split; [apply Hother|]..|].
      assert (rj_request j = rq) as Hj.
      { unfold file_reader_begin in Hfr. repeat case_decide; try done. destruct (read_file_begin _ _ _ _ _).
        case_decide; [done|]. by injection Hfr as <- <-. }
      split; [|done]. apply Hother. rewrite own_jobs_cons, Hj. by rewrite decide_False. }
  destruct Hok as [Hn (d & Hd & Hdok & Hjobs)]. rewrite Hid, Hd in Hr. injection Hr as <-. unfold file_reader_begin in Hfr.
  assert (∀ d', dir_ok d' → (match own_jobs jobs with [] => True | [j] => job_ok d' j | _ => False end) →
    service_ok (sv_set_reader (gf_reader_id rq) (mkFileReader d' table files) s) jobs) as Hset.
  { intros d' Hd' Hj'. constructor; [done|]. exists d'. cbn. by rewrite Hid, lookup_insert_eq. }
  case_decide as Hmeta.
  { injection Hfr as <- <-. split; [by apply Hset|]. intros _. cbn [fr_meta_table]. eexists _, _, mk_buf.
    unfold source, right_data. rewrite !decide_True by done. by split_and!. }
  case_decide as Hm; [injection Hfr as <- <-; by split; [apply Hset|]|]. case_decide as Hpart; [injection Hfr as <- <-; by split; [apply Hset|]|].
  cbn [fr_files fr_dir fr_meta_table] in *.
  destruct (read_file_begin files _ _ _ d) as [ret d'] eqn:Hrb.
  assert (1 ≤ default (gf_count rq) throttle ≤ gf_count rq ∧ (gf_read_partly rq = false → default (gf_count rq) throttle = gf_count rq)) as [Hmc Hpl].
  { destruct throttle as [g|]; cbn in *; [|split; [lia|done]]. specialize (Hth g eq_refl).
    destruct (decide (g = 0)) as [->|]; [destruct Hpart; split; [lia|by right]|]. split; [lia|]. intros Hp.
    destruct (decide (g < gf_count rq)); [|lia]. destruct Hpart. split; [done|by left]. }
  destruct (read_file_begin_ok rq open_error d ret d' (default (gf_count rq) throttle) jobs) as [Hd' Hcase]; try done; [|lia|].
  { intros E. rewrite E in Hm. done. }
  destruct (decide (ret ≠ 0)) as [Hret|Hret]; injection Hfr as <- <-.
  - rewrite decide_False in Hcase by done. split; [by apply Hset|done].
  - rewrite decide_True in Hcase by lia. destruct Hcase as [Hnil Hj]. split; [|done]. constructor; [done|]. exists d'. cbn [sv_readers sv_set_reader].
    rewrite Hid, lookup_insert_eq, own_jobs_cons. cbn [rj_request]. rewrite decide_True, Hnil by done. done.
Qed.

Lemma get_file_end_ok s jobs1 j jobs2 o mk_buf a s' :
  service_ok s (jobs1 ++ j :: jobs2) → get_file_end j o mk_buf s = Some (a, s') → buf_ok mk_buf →
  service_ok s' (jobs1 ++ jobs2) ∧ (gf_reader_id (rj_request j) = reader_id → right_answer (rj_request j) a).
Proof.
  intros Hok He Hbuf. unfold get_file_end in He. destruct (sv_readers s !! _) as [r|] eqn:Hr; [|done]. cbn in He.
  destruct (read_file_end _ _ o (fr_dir r)) as [[[[ret out] eof] d']|] eqn:Hre; [|done]. cbn in He. injection He as <- <-.
  assert (own_jobs (jobs1 ++ j :: jobs2) = own_jobs jobs1 ++ own_jobs (j :: jobs2)) as Happ by apply filter_app.
  assert (own_jobs (jobs1 ++ jobs2) = own_jobs jobs1 ++ own_jobs jobs2) as Happ2 by apply filter_app.
  rewrite own_jobs_cons in Happ. destruct (decide (gf_reader_id (rj_request j) = reader_id)) as [Hid|Hid].
  2:{ split; [|done]. eapply service_ok_other; [done|done| |congruence]. cbn. by rewrite lookup_insert_ne. }
  destruct Hok as [Hn (d & Hd & Hdok & Hjobs)]. rewrite Hid, Hd in Hr. injection Hr as <-. cbn [fr_dir fr_meta_table fr_files] in *.
  rewrite Happ in Hjobs.
  assert (own_jobs jobs1 = [] ∧ own_jobs jobs2 = [] ∧ job_ok d j) as (E1 & E2 & Hj).
  { destruct (own_jobs jobs1) as [|? [|]]; [|done..]. destruct (own_jobs jobs2); [done|done]. }
  destruct (read_file_end_ok j o d ret out eof d' Hdok Hj Hre) as [Hd' Hright]. split.
  - constructor; [done|]. exists d'. cbn [sv_readers sv_set_reader]. rewrite Hid, lookup_insert_eq, Happ2, E1, E2. done.
  - intros _. case_decide as Hret; [done|]. destruct (Hright ltac:(lia)) as (F & HF & Hrd). exists F, out, mk_buf.
    unfold source. destruct Hj as (_ & _ & _ & Hm & _). rewrite decide_False by done. done.
Qed.

Lemma job_ends s jobs j o mk_buf :
  service_ok s jobs → j ∈ jobs → gf_reader_id (rj_request j) = reader_id → is_Some (get_file_end j o mk_buf s).
Proof.
  intros [_ (d & Hd & Hdok & Hjobs)] Hj Hid. assert (j ∈ own_jobs jobs) as Hin by (by apply list_elem_of_filter).
  assert (job_ok d j) as (_ & _ & [c Hc] & _).
  { destruct (own_jobs jobs) as [|j' [|]]; [by apply elem_of_nil in Hin| |done]. apply list_elem_of_singleton in Hin. by subst. }
  unfold get_file_end. rewrite Hid, Hd. cbn. unfold read_file_end. rewrite Hc. cbn. destruct o; [case_decide| |case_decide]; by eexists.
Qed.

(** ** The session *)

(** The first [n] bytes of [F] have arrived. *)
Record prefix_ok (F : list Z) (d : CopyDest) (n : Z) : Prop := {
  po_bytes : ∀ i, byte_at (dest_content d) i = if decide (i < n) then byte_at F i else 0;
  po_len : dest_is_file d = false → zlen (dest_content d) ≤ n;
  po_exact : holes = false → dest_content d = take (Z.to_nat n) F;
}.

(** Data [d] is what the file has at [off]. *)
Definition piece (F : list Z) (off : Z) (d : list Z) : Prop :=
  d = take (length d) (drop (Z.to_nat off) F) ∧ 0 ≤ off.

Lemma byte_at_past (l : list Z) i : zlen l ≤ i → byte_at l i = 0.
Proof. intros Hi. unfold byte_at. destruct (zlookup l i) eqn:E; [|done]. apply zlookup_Some_range in E. lia. Qed.

Lemma piece_byte F off d i : piece F off d → off ≤ i < off + zlen d → byte_at d (i - off) = byte_at F i.
Proof.
  intros [Hd Ho] Hi. unfold byte_at. f_equal. rewrite Hd at 1. unfold zlen in Hi.
  rewrite zlookup_take by lia. rewrite zlookup_drop by lia. f_equal. lia.
Qed.

Lemma piece_take F off d : piece F off d → take (Z.to_nat (off + zlen d)) F = take (Z.to_nat off) F ++ d.
Proof.
  intros [Hd Ho]. rewrite Hd at 2. rewrite take_take_drop. f_equal. unfold zlen. lia.
Qed.

Lemma piece_bytes F off d : bytes F → piece F off d → bytes d.
Proof. intros HF [Hd _]. rewrite Hd. by apply Forall_take, Forall_drop. Qed.

Lemma piece_inside F off d : piece F off d → d ≠ [] → off + zlen d ≤ zlen F.
Proof.
  intros [Hd Ho] Hne. assert (0 < length d)%nat as Hl by (destruct d; [done|cbn; lia]).
  apply (f_equal length) in Hd. rewrite length_take, length_drop in Hd. unfold zlen. lia.
Qed.

(** The whole file has arrived. *)
Definition copied (F : list Z) (d : CopyDest) : Prop :=
  (∀ i, byte_at (dest_content d) i = byte_at F i) ∧ (holes = false → dest_content d = F).

Lemma prefix_ok_end F d n : zlen F ≤ n → prefix_ok F d n → copied F d.
Proof.
  intros Hn [Hb _ He]. split.
  - intros i. rewrite Hb. case_decide; [done|]. rewrite byte_at_past; [done|lia].
  - intros Hh. rewrite He, take_ge by (done || (unfold zlen in Hn; lia)). done.
Qed.

(** The writes are those of the file system. *)
Definition write_ok (write : list Z → list Z → Z → list Z * Z) : Prop :=
  ∀ f d o, (write f d o).2 = zlen d → (write f d o).1 = bytes_write f o d.

Definition answer_bytes (mk_buf : list Z → AnswerBuf) (off : Z) (d : list Z) : list Z :=
  let b := mk_buf d in get_file_attachment (ab_garbage b) (ab_check_hole b) (ab_blocks b) off.

Lemma store_bytes write F mk_buf off d dst :
  write_ok write → buf_ok mk_buf → bytes F → piece F off d → range_ok off (zlen d) → prefix_ok F dst off →
  ∃ dst' rc, store_answer write (answer_bytes mk_buf off d) dst = Some (dst', rc) ∧ dest_is_file dst' = dest_is_file dst ∧
    (rc = 0 ∨ rc = EIO) ∧
    (rc = 0 → (∀ i, byte_at (dest_content dst') i = if decide (i < off + zlen d) then byte_at F i else 0) ∧
              (dest_is_file dst = false → zlen (dest_content dst') ≤ off + zlen d)).
Proof.
  intros Hw Hbuf HF Hp Hr Hpre. destruct (Hbuf d) as (Hc & Hne & Hg & _). unfold answer_bytes.
  assert (Forall (λ p, p ≠ [] ∧ bytes p) (ab_blocks (mk_buf d))) as Hbl.
  { apply Forall_and. split; [done|]. apply (Forall_concat byte). rewrite Hc. by eapply piece_bytes. }
  assert (∀ c', (∀ i, byte_at c' i = if decide (off ≤ i < off + zlen d) then byte_at d (i - off) else byte_at (dest_content dst) i) →
    ∀ i, byte_at c' i = if decide (i < off + zlen d) then byte_at F i else 0) as Hall.
  { intros c' Hc' i. rewrite Hc', (po_bytes _ _ _ Hpre). pose proof (zlen_nonneg d).
    destruct (decide (off ≤ i < off + zlen d)) as [Hi|Hi].
    - rewrite decide_True by lia. by apply piece_byte.
    - destruct (decide (i < off)); [by rewrite decide_True by lia|by rewrite decide_False by lia]. }
  destruct dst as [c|c]; cbn [store_answer].
  - destruct (get_file_copied_to_file write (ab_garbage (mk_buf d)) (ab_check_hole (mk_buf d)) (ab_blocks (mk_buf d)) off c)
      as (c' & rc & E & Hrc & Hok); [done|done|done|by rewrite Hc| |].
    { rewrite Hc. intros i Hi. pose proof (po_bytes _ _ _ Hpre i) as Hb. by rewrite decide_False in Hb by lia. }
    cbn zeta in E. rewrite E. cbn. eexists (DestFile c'), rc. split_and!; [done..|]. intros Hz. split; [|done].
    apply Hall. rewrite Hc in Hok. by apply Hok.
  - destruct (get_file_copied_to_buffer (ab_garbage (mk_buf d)) (ab_check_hole (mk_buf d)) (ab_blocks (mk_buf d)) off c)
      as (c' & E & Hl & Hok); [done|done|by rewrite Hc|by apply (po_len _ _ _ Hpre)|].
    cbn zeta in E. rewrite E. cbn. eexists (DestBuf c'), 0. split_and!; [done|done|by left|]. intros _. rewrite Hc in Hl, Hok.
    split; [by apply Hall|done].
Qed.

Lemma store_exact write F mk_buf off d dst dst' :
  write_ok write → buf_ok mk_buf → holes = false → piece F off d → range_ok off (zlen d) → prefix_ok F dst off →
  store_answer write (answer_bytes mk_buf off d) dst = Some (dst', 0) → dest_content dst' = take (Z.to_nat (off + zlen d)) F.
Proof.
  intros Hw Hbuf Hh Hp Hr Hpre. destruct (Hbuf d) as (Hc & _ & Hg & Hch). unfold answer_bytes.
  assert (ab_check_hole (mk_buf d) = false) as -> by (destruct (ab_check_hole _); [by rewrite Hch in Hh|done]).
  rewrite (piece_take _ _ _ Hp). pose proof (po_exact _ _ _ Hpre Hh) as Hcur.
  destruct (decide (d = [])) as [->|Hne].
  { unfold get_file_attachment. rewrite decide_True by done. rewrite app_nil_r. destruct dst; cbn; intros E; injection E as <-; done. }
  assert (segment_ok (off, d)) as Hseg by (unfold segment_ok, range_ok in *; cbn; split_and!; [done|lia..]).
  rewrite plain_attachment, Hc by (rewrite ?Hc; done || (unfold range_ok in Hr; lia)).
  assert (zlen (dest_content dst) = off) as Hlen.
  { rewrite Hcur, zlen_take. pose proof (piece_inside _ _ _ Hp Hne). destruct Hp as [_ Ho]. pose proof (zlen_nonneg d). lia. }
  destruct dst as [c|c]; cbn [dest_content store_answer] in *.
  - rewrite copy_to_file_plain by done. pose proof (Hw c d off) as Hwr. destruct (write c d off) as [c' n]. cbn in *.
    case_decide as Hn; [done|]. intros E. injection E as <-. cbn. rewrite Hwr by lia. rewrite <-Hlen at 1.
    by rewrite bytes_write_end, Hcur.
  - rewrite copy_to_buf_plain by done. cbn. intros E. injection E as <-. cbn. by rewrite Hcur.
Qed.

Lemma store_answer_ok write F mk_buf off d dst :
  write_ok write → buf_ok mk_buf → bytes F → piece F off d → range_ok off (zlen d) → prefix_ok F dst off →
  ∃ dst' rc, store_answer write (answer_bytes mk_buf off d) dst = Some (dst', rc) ∧ dest_is_file dst' = dest_is_file dst ∧
    (rc = 0 ∨ rc = EIO) ∧ (rc = 0 → prefix_ok F dst' (off + zlen d)).
Proof.
  intros Hw Hbuf HF Hp Hr Hpre. destruct (store_bytes write F mk_buf off d dst) as (dst' & rc & E & Hf & Hrc & Hok); [done..|].
  exists dst', rc. split_and!; [done..|]. intros ->. destruct Hok as [Hb Hl]; [done|]. constructor; [done|by rewrite Hf|].
  intros Hh. by eapply store_exact.
Qed.

(** The files that are served are shorter than [2^63] bytes, the table than
    [2^32]. *)
Context (Hsource : ∀ f F, source f = Some F → bytes F ∧ zlen F < 2 ^ 63 ∧ (f = MELON_RAFT_SNAPSHOT_META_FILE → zlen F < 2 ^ 32)).

Definition grant_ok (grant : option Z) : Prop := ∀ g, grant = Some g → 0 ≤ g ≤ raft_max_byte_count_per_rpc.

(** What has arrived before the byte [n]. *)
Definition arrived (s : Session) (n : Z) : Prop :=
  0 ≤ n ∧ (se_filename s = MELON_RAFT_SNAPSHOT_META_FILE → n = 0) ∧
  ∀ F, source (se_filename s) = Some F → n ≤ zlen F ∧ prefix_ok F (se_dest s) n.

Record session_ok (s : Session) : Prop := {
  sk_reader : se_reader_id s = reader_id;
  sk_running : se_finished s = false →
    se_status s = 0 ∧ 0 ≤ se_retry_times s ≤ max_retry ∧ arrived s (se_offset s) ∧
    match se_wait s with WaitRpc => 1 ≤ se_count s ≤ UINT_MAX | WaitTimer => se_count s = 0 | WaitNone => False end;
  sk_finished : se_finished s = true → se_status s = 0 → ∃ F, source (se_filename s) = Some F ∧ copied F (se_dest s);
}.

Lemma send_next_rpc_ok grant s :
  grant_ok grant → se_reader_id s = reader_id → se_finished s = false → se_status s = 0 →
  0 ≤ se_retry_times s ≤ max_retry → arrived s (se_offset s + se_count s) → session_ok (send_next_rpc grant s).
Proof.
  intros Hg Hid Hf Hst Hre Ha. unfold send_next_rpc. cbn [se_finished se_set_wait se_set_request]. rewrite Hf.
  set (m := if dest_is_file _ then default _ grant else _).
  assert (0 ≤ m ≤ UINT_MAX) as Hm.
  { unfold m, grant_ok, raft_max_byte_count_per_rpc, UINT_MAX in *. cbn. destruct (dest_is_file _); [|lia].
    destruct grant as [g|]; cbn; [specialize (Hg g eq_refl)|]; lia. }
  case_decide; (constructor; cbn; [done| |congruence]); intros _; split_and!; try done; lia.
Qed.

Lemma on_finished_failed sync_ok s : se_reader_id s = reader_id → se_finished s = false → se_status s ≠ 0 → session_ok (on_finished sync_ok s).
Proof.
  intros Hid Hf Hst. unfold on_finished. rewrite Hf. destruct (_ && _); (constructor; cbn; [done|done|]); intros _ Hz.
  - discriminate Hz.
  - done.
Qed.

Lemma on_finished_copied sync_ok s F :
  se_reader_id s = reader_id → se_finished s = false → source (se_filename s) = Some F → copied F (se_dest s) →
  session_ok (on_finished sync_ok s).
Proof.
  intros Hid Hf HF Hc. unfold on_finished. rewrite Hf. destruct (_ && _); (constructor; cbn; [done|done|]); intros _ _; by exists F.
Qed.

Lemma finished_woken w s : session_ok s → se_finished s = true → session_ok (se_set_wait w s).
Proof. intros [Hid _ Hfin] Hf. constructor; cbn; [done|congruence|done]. Qed.

Lemma rpc_failed_ok code write sync_ok grant s :
  session_ok s → se_wait s = WaitRpc → code ≠ 0 →
  ∃ s', on_rpc_returned (GetFileFailed code) write sync_ok grant s = Some s' ∧ session_ok s'.
Proof.
  intros Hok Hw Hc. unfold on_rpc_returned. cbn [se_finished se_set_wait].
  destruct (se_finished s) eqn:Hf; [eexists; split; [done|]; by apply finished_woken|]. destruct Hok as [Hid Hrun Hfin].
  destruct Hrun as (Hst & Hre & Ha & _); [done|]. cbn [se_status se_retry_times se_set_request se_set_wait se_offset].
  destruct (decide (code = ECANCELED ∧ se_status s = 0)) as [[-> _]|Hnc].
  { eexists. split; [done|]. by apply on_finished_failed. }
  destruct (decide (code ≠ EAGAIN ∧ max_retry ≤ se_retry_times s ∧ se_status s = 0)) as [Hmax|Hmax].
  { eexists. split; [done|]. apply on_finished_failed; by destruct (decide (code ≠ EAGAIN)). }
  eexists. split; [done|]. destruct (decide (code ≠ EAGAIN)) as [He|He]; constructor; cbn; try done; try congruence.
  - intros _. split_and!; try done; try lia. all: destruct (decide (max_retry ≤ se_retry_times s)); [destruct Hmax; done|lia].
Qed.

Lemma right_data_piece rq F d eof :
  right_data rq F d eof → (gf_filename rq = MELON_RAFT_SNAPSHOT_META_FILE → gf_offset rq = 0) → piece F (gf_offset rq) d.
Proof.
  unfold right_data. intros Hr Hm. case_decide as Hf.
  - destruct Hr as [-> _]. rewrite Hm by done. split; [|done]. by rewrite drop_0, firstn_all.
  - by destruct Hr as (Hd & _ & Ho & _).
Qed.

(** Writes that are never cut short. *)
Definition write_all (write : list Z → list Z → Z → list Z * Z) : Prop := ∀ f d o, write f d o = (bytes_write f o d, zlen d).

Lemma copy_to_file_all write fuel f file file' rc : write_all write → copy_to_file write fuel f file = Some (file', rc) → rc = 0.
Proof.
  intros Hw. revert f file. induction fuel as [|fuel IH]; intros f file E; cbn in E; [done|].
  destruct (fs_next f) as [[[[f' o] d] l]|]; [|done]. cbn in E. case_decide; [|by injection E as <- <-].
  rewrite Hw in E. rewrite decide_False in E by lia. by eapply IH.
Qed.

Lemma store_answer_all write at0 d d' rc : write_all write → store_answer write at0 d = Some (d', rc) → rc = 0.
Proof.
  intros Hw. destruct d; cbn [store_answer]; intros E; apply bind_Some in E as (x & E1 & E2); [destruct x as [c' rc']|]; injection E2 as <- <-; [|done].
  by eapply copy_to_file_all.
Qed.

Lemma right_data_range s F d eof :
  source (se_filename s) = Some F → right_data (se_request s) F d eof → 1 ≤ se_count s ≤ UINT_MAX → arrived s (se_offset s) →
  piece F (se_offset s) d ∧ range_ok (se_offset s) (zlen d) ∧ (eof = true → zlen F ≤ se_offset s + zlen d).
Proof.
  intros HF Hd Hcnt (Ho & Hmeta & Ha). destruct (Ha F HF) as [Hle _]. destruct (Hsource _ _ HF) as (_ & HlF & HmF).
  pose proof (right_data_piece _ _ _ _ Hd Hmeta) as Hp. cbn in Hp. split_and!; [done| |].
  - split; [done|]. destruct (decide (d = [])) as [->|Hne]; [rewrite zlen_nil; lia|].
    pose proof (piece_inside _ _ _ Hp Hne). split; [|lia]. unfold right_data in Hd. cbn in Hd. unfold UINT_MAX in Hcnt.
    case_decide as Hm; [|lia]. destruct Hd as [-> _]. by apply HmF.
  - intros ->. unfold right_data in Hd. cbn in Hd. case_decide as Hm; [|tauto]. destruct Hd as [-> _]. lia.
Qed.

(** What the session does next: it ends, or goes on behind the data. *)
Definition moved_on (sync_ok eof : bool) (grant : option Z) (s s' : Session) : Prop :=
  if eof then se_filename s' = se_filename s ∧ se_wait s' = WaitNone ∧ (sync_ok = true → se_finished s' = true ∧ se_status s' = 0)
  else ∃ s0, s' = send_next_rpc grant s0 ∧ se_finished s0 = false ∧ se_filename s0 = se_filename s ∧
    se_read_partly s0 = se_read_partly s ∧ se_offset s < se_offset s0 + se_count s0 ∧
    ∀ F, source (se_filename s) = Some F → se_offset s0 + se_count s0 < zlen F.

Lemma rpc_done eof rs at0 write sync_ok grant s :
  session_ok s → se_finished s = false → se_wait s = WaitRpc → right_answer (se_request s) (GetFileDone eof rs at0) →
  write_ok write → grant_ok grant →
  ∃ s', on_rpc_returned (GetFileDone eof rs at0) write sync_ok grant s = Some s' ∧ session_ok s' ∧
    (write_all write → moved_on sync_ok eof grant s s').
Proof.
  intros [Hid Hrun Hfin] Hf Hw Hr Hwr Hg. unfold on_rpc_returned. cbn [se_finished se_set_wait]. rewrite Hf.
  destruct Hrun as (Hst & Hre & Harr & Hcnt); [done|]. rewrite Hw in Hcnt.
  destruct Hr as (F & d & mk_buf & HF & Hbuf & Hd & E). injection E as -> ->. cbn [gf_filename gf_offset se_request] in *.
  destruct (right_data_range s F d eof) as (Hp & Hro & Heof); [done..|]. destruct Harr as (Ho & Hmeta & Ha).
  destruct (Ha F HF) as [Hle Hpre]. destruct (Hsource _ _ HF) as (HbF & _).
  destruct (store_answer_ok write F mk_buf (se_offset s) d (se_dest s)) as (dst & rc & Est & Hfile & Hrc & Hpre'); [done..|].
  pose proof (proj1 (Hbuf d)) as Hcat. unfold answer_bytes in Est.
  match goal with |- context [store_answer write _ (se_dest ?s1)] => set (s0 := s1) end.
  assert (se_dest s0 = se_dest s) as Hd0 by (unfold s0; by case_decide).
  rewrite Hd0, Est. cbn [mbind option_bind].
  assert (se_finished s0 = false ∧ se_reader_id s0 = reader_id ∧ se_status s0 = 0 ∧ se_retry_times s0 = 0 ∧
    se_filename s0 = se_filename s ∧ se_offset s0 = se_offset s ∧ se_read_partly s0 = se_read_partly s)
    as (Hf0 & Hid0 & Hst0 & Hre0 & Hfn0 & Ho0 & Hrp0) by (unfold s0; case_decide; done).
  destruct (decide (rc ≠ 0)) as [Hrc0|Hrc0].
  { eexists. split_and!; [done|by apply on_finished_failed|]. intros Hall. by apply (store_answer_all _ _ _ _ _ Hall) in Est. }
  assert (rc = 0) as -> by lia. specialize (Hpre' eq_refl). destruct eof.
  { eexists. split_and!; [done| |].
    - apply (on_finished_copied _ _ F); [done|done|by cbn; rewrite Hfn0|]. by eapply prefix_ok_end; [|apply Hpre']; auto.
    - intros _. unfold moved_on, on_finished. cbn. rewrite Hf0. assert (se_wait s0 = WaitNone) as Hw0 by (unfold s0; by case_decide).
      split_and!; [by destruct (_ && _)|by destruct (_ && _)|]. intros ->. by rewrite andb_false_r. }
  unfold right_data in Hd. cbn in Hd. case_decide as Hm; [by destruct Hd|].
  destruct Hd as (_ & _ & _ & Hne & Hlt & Hrp).
  assert (0 < zlen d) as Hpos by (destruct d; [done|rewrite zlen_cons; pose proof (zlen_nonneg d); lia]).
  assert (se_count s0 = zlen d) as Hc0.
  { unfold s0. rewrite Hcat. case_decide as Hd1; cbn; [done|]. destruct (se_read_partly s) eqn:Erp; [|by rewrite Hrp].
    destruct Hd1. cbn. split; [lia|done]. }
  eexists. split_and!; [done| |].
  - apply send_next_rpc_ok; cbn; try done; [lia|]. rewrite Ho0, Hc0. split_and!; [lia|by cbn; rewrite Hfn0|].
    cbn. rewrite Hfn0, HF. intros ? [= <-]. split; [lia|done].
  - intros _. eexists. split_and!; [done..|cbn; lia|]. cbn. rewrite HF, Ho0, Hc0. intros ? [= <-]. done.
Qed.

Lemma rpc_done_ok a write sync_ok grant s :
  session_ok s → se_wait s = WaitRpc → right_answer (se_request s) a → write_ok write → grant_ok grant →
  ∃ s', on_rpc_returned a write sync_ok grant s = Some s' ∧ session_ok s'.
Proof.
  intros Hok Hw Hr Hwr Hg. destruct a as [code|eof rs at0]; [by apply rpc_failed_ok|].
  destruct (se_finished s) eqn:Hf.
  - unfold on_rpc_returned. cbn [se_finished se_set_wait]. rewrite Hf. eexists. split; [done|]. by apply finished_woken.
  - destruct (rpc_done eof rs at0 write sync_ok grant s) as (s' & E & Hok' & _); eauto.
Qed.

(** ** Runs *)

(** The service, the reads that are going on, the answers it gave, and the
    session of the copier. *)
Record CopyRun := mkCopyRun {
  cr_service : FileServiceImpl;
  cr_jobs : list ReadJob;
  cr_answers : list (GetFileRequest * GetFileAnswer);
  cr_session : option Session;
}.

Definition throttle_grant_ok (rq : GetFileRequest) (throttle : option Z) : Prop := ∀ g, throttle = Some g → 0 ≤ g ≤ gf_count rq.

(** Anybody asks the service, and readers come and go; the copier copies one
    file after another, and the answers it gets are answers to its request. *)
Inductive copy_step : CopyRun → CopyRun → Prop :=
  | copy_asked s jobs ans se rq throttle open_error mk_buf a s' :
      throttle_grant_ok rq throttle → buf_ok mk_buf → get_file_begin rq throttle open_error mk_buf s = Some (inl a, s') →
      copy_step (mkCopyRun s jobs ans se) (mkCopyRun s' jobs ((rq, a) :: ans) se)
  | copy_reading s jobs ans se rq throttle open_error mk_buf j s' :
      throttle_grant_ok rq throttle → buf_ok mk_buf → get_file_begin rq throttle open_error mk_buf s = Some (inr j, s') →
      copy_step (mkCopyRun s jobs ans se) (mkCopyRun s' (j :: jobs) ans se)
  | copy_read s jobs1 j jobs2 ans se o mk_buf a s' :
      buf_ok mk_buf → get_file_end j o mk_buf s = Some (a, s') →
      copy_step (mkCopyRun s (jobs1 ++ j :: jobs2) ans se) (mkCopyRun s' (jobs1 ++ jobs2) ((rj_request j, a) :: ans) se)
  | copy_add_reader s jobs ans se r :
      copy_step (mkCopyRun s jobs ans se) (mkCopyRun (add_reader r s).2 jobs ans se)
  | copy_remove_reader s jobs ans se id :
      copy_step (mkCopyRun s jobs ans se) (mkCopyRun (remove_reader id s).2 jobs ans se)
  | copy_started s jobs ans se f read_partly to_file grant :
      (∀ ss, se = Some ss → se_finished ss = true) → grant_ok grant →
      copy_step (mkCopyRun s jobs ans se) (mkCopyRun s jobs ans (Some (start_to_copy reader_id f read_partly to_file grant)))
  | copy_failed s jobs ans ss ss' code write sync_ok grant :
      se_wait ss = WaitRpc → code ≠ 0 → on_rpc_returned (GetFileFailed code) write sync_ok grant ss = Some ss' →
      copy_step (mkCopyRun s jobs ans (Some ss)) (mkCopyRun s jobs ans (Some ss'))
  | copy_answered s jobs ans ss ss' a write sync_ok grant :
      se_wait ss = WaitRpc → (se_request ss, a) ∈ ans → write_ok write → grant_ok grant →
      on_rpc_returned a write sync_ok grant ss = Some ss' →
      copy_step (mkCopyRun s jobs ans (Some ss)) (mkCopyRun s jobs ans (Some ss'))
  | copy_timer s jobs ans ss grant :
      se_wait ss = WaitTimer → grant_ok grant →
      copy_step (mkCopyRun s jobs ans (Some ss)) (mkCopyRun s jobs ans (Some (send_next_rpc grant ss)))
  | copy_cancel s jobs ans ss sync_ok :
      copy_step (mkCopyRun s jobs ans (Some ss)) (mkCopyRun s jobs ans (Some (session_cancel sync_ok ss))).

Record run_ok (r : CopyRun) : Prop := {
  ro_service : service_ok (cr_service r) (cr_jobs r);
  ro_answers : Forall (λ p, gf_reader_id p.1 = reader_id → right_answer p.1 p.2) (cr_answers r);
  ro_session : ∀ ss, cr_session r = Some ss → session_ok ss;
}.

Lemma start_to_copy_ok f read_partly to_file grant : grant_ok grant → session_ok (start_to_copy reader_id f read_partly to_file grant).
Proof.
  intros Hg. apply send_next_rpc_ok; cbn; try done. split_and!; [done..|]. cbn. intros F HF. split; [apply zlen_nonneg|].
  assert (∀ i, byte_at [] i = 0) as Hnil.
  { intros i. destruct (decide (i < 0)); [|apply byte_at_past; rewrite zlen_nil; lia]. unfold byte_at, zlookup. by rewrite decide_True. }
  assert (∀ i, i < 0 → byte_at F i = 0) as Hneg by (intros i Hi; unfold byte_at, zlookup; by rewrite decide_True).
  constructor; destruct to_file; cbn; try done; intros i; rewrite Hnil; case_decide; [by rewrite Hneg|done|by rewrite Hneg|done].
Qed.

Lemma timer_ok grant s : grant_ok grant → session_ok s → se_wait s = WaitTimer → session_ok (send_next_rpc grant s).
Proof.
  intros Hg Hok Hw. destruct (se_finished s) eqn:Hf.
  - unfold send_next_rpc. cbn [se_finished se_set_wait se_set_request]. rewrite Hf. destruct Hok as [Hid _ Hfin]. constructor; cbn; [done|congruence|done].
  - destruct Hok as [Hid Hrun _]. destruct (Hrun Hf) as (Hst & Hre & Ha & Hc). rewrite Hw in Hc. apply send_next_rpc_ok; try done.
    by rewrite Hc, Z.add_0_r.
Qed.

Lemma cancel_ok sync_ok s : session_ok s → session_ok (session_cancel sync_ok s).
Proof.
  intros Hok. unfold session_cancel. destruct (se_finished s) eqn:Hf; [done|]. destruct Hok as [Hid Hrun _].
  destruct (Hrun Hf) as (Hst & _). rewrite decide_True by done. by apply on_finished_failed.
Qed.

Context (Hnoname : mt_get_file_meta [] table = None).

Lemma copy_step_ok r r' : run_ok r → copy_step r r' → run_ok r'.
Proof.
  intros [Hs Ha Hse] Hstep.
  destruct Hstep as [? ? ? ? ? ? ? ? ? ? Hth Hb E|? ? ? ? ? ? ? ? ? ? Hth Hb E|? ? ? ? ? ? ? ? ? ? Hb E| | |? ? ? ? ? ? ? ? ? Hg
    |? ? ? ss ss' code write sync_ok grant Hw Hc E|? ? ? ss ss' a write sync_ok grant Hw Hin Hwr Hg E| |]; cbn in *.
  - destruct (get_file_begin_ok _ _ _ _ _ _ _ _ Hs E Hth Hb Hnoname) as [Hs' Hr]. constructor; cbn; [done|by constructor|done].
  - destruct (get_file_begin_ok _ _ _ _ _ _ _ _ Hs E Hth Hb Hnoname) as [Hs' Hr]. by constructor.
  - destruct (get_file_end_ok _ _ _ _ _ _ _ _ Hs E Hb) as [Hs' Hr]. constructor; cbn; [done|by constructor|done].
  - constructor; cbn; [|done|done]. pose proof (svo_next _ _ Hs). eapply service_ok_other; [done| | |done]; cbn; [lia|].
    by rewrite lookup_insert_ne by lia.
  - constructor; cbn; [|done|done]. by eapply service_ok_other.
  - constructor; cbn; [done|done|]. intros ? [= <-]. by apply start_to_copy_ok.
  - constructor; cbn; [done|done|]. intros ? [= <-].
    destruct (rpc_failed_ok code write sync_ok grant ss) as (s' & E' & Hok); [by apply Hse|done|done|]. rewrite E' in E. by injection E as <-.
  - constructor; cbn; [done|done|]. intros ? [= <-]. rewrite Forall_forall in Ha.
    destruct (rpc_done_ok a write sync_ok grant ss) as (s' & E' & Hok); [by apply Hse|done| |done|done|].
    { apply (Ha _ Hin). cbn. by apply sk_reader, Hse. }
    rewrite E' in E. by injection E as <-.
  - constructor; cbn; [done|done|]. intros ? [= <-]. apply timer_ok; auto.
  - constructor; cbn; [done|done|]. intros ? [= <-]. apply cancel_ok; auto.
Qed.

Lemma runs_ok r r' : rtc copy_step r r' → run_ok r → run_ok r'.
Proof. induction 1; eauto using copy_step_ok. Qed.

(** ** Undisturbed copies *)

(** A request that nothing fails. *)
Definition serve (rq : GetFileRequest) (throttle : option Z) (mk_buf : list Z → AnswerBuf) (s : FileServiceImpl)
  : option (GetFileAnswer * FileServiceImpl) :=
  '(res, s) ← get_file_begin rq throttle 0 mk_buf s;
  match res with inl a => Some (a, s) | inr j => get_file_end j ReadDone mk_buf s end.

(** One after another; the server's throttle gives at most [limit]. *)
Definition copy_round (mk_buf : list Z → AnswerBuf) (write : list Z → list Z → Z → list Z * Z) (limit grant : option Z)
    (p : FileServiceImpl * Session) : option (FileServiceImpl * Session) :=
  let '(s, ss) := p in
  match se_wait ss with
  | WaitNone => Some (s, ss)
  | WaitTimer => Some (s, send_next_rpc grant ss)
  | WaitRpc =>
      '(a, s) ← serve (se_request ss) ((λ l, Z.min l (se_count ss)) <$> limit) mk_buf s;
      ss ← on_rpc_returned a write true grant ss;
      Some (s, ss)
  end.

Fixpoint copy_rounds (mk_buf : list Z → AnswerBuf) (write : list Z → list Z → Z → list Z * Z)
    (rounds : list (option Z * option Z)) (p : FileServiceImpl * Session) : option (FileServiceImpl * Session) :=
  match rounds with
  | [] => Some p
  | (limit, grant) :: rounds => p ← copy_round mk_buf write limit grant p; copy_rounds mk_buf write rounds p
  end.

Definition ready (f : list Z) (off : Z) (d : LocalDirReader) : Prop :=
  dr_is_reading d = false ∧
  ((dr_eof_reached d = true ∧ off = 0) ∨ (dr_current_filename d = f ∧ f ≠ MELON_RAFT_SNAPSHOT_META_FILE)).

Record at_rest (f : list Z) (off : Z) (s : FileServiceImpl) : Prop := {
  ar_service : service_ok s [];
  ar_added : reader_id ∈ sv_reader_map s;
  ar_ready : ∀ r, sv_readers s !! reader_id = Some r → ready f off (fr_dir r);
}.

Definition served (f : list Z) : Prop :=
  f = MELON_RAFT_SNAPSHOT_META_FILE ∨ (mt_get_file_meta f table ≠ None ∧ is_Some (files f)).

Lemma read_file_ready f off d F :
  ready f off d → dir_ok d → files f = Some F → f ≠ [] →
  read_file_begin files f off 0 d = (0, mkDirReader (Some F) f true (if decide (f = dr_current_filename d) then dr_eof_reached d else false)).
Proof.
  intros [Hr Hcase] Hd HF Hne. unfold read_file_begin. rewrite Hr. destruct (decide (f = dr_current_filename d)) as [->|Hf].
  - rewrite decide_False by tauto. unfold dir_ok in Hd. destruct (dr_current_file d) as [c|]; [|done]. congruence.
  - rewrite decide_True by done. destruct Hcase as [[He ->]|[? _]]; [|done]. rewrite He. cbn. by rewrite HF.
Qed.

Lemma read_file_end_done off mc F f e :
  ∃ d eof d', read_file_end off mc ReadDone (mkDirReader (Some F) f true e) = Some (0, d, eof, d') ∧ dr_is_reading d' = false ∧
    dr_eof_reached d' = eof ∧ dr_current_filename d' = f.
Proof. unfold read_file_end. cbn. case_decide; by eexists _, _, _. Qed.

Lemma file_reader_begin_ready rq throttle d F :
  dir_ok d → ready (gf_filename rq) (gf_offset rq) d → gf_filename rq ≠ MELON_RAFT_SNAPSHOT_META_FILE →
  mt_get_file_meta (gf_filename rq) table ≠ None → files (gf_filename rq) = Some F →
  (∀ g, throttle = Some g → 1 ≤ g ≤ gf_count rq) → (gf_read_partly rq = true ∨ throttle = None) →
  ∃ e, file_reader_begin rq throttle 0 (mkFileReader d table files) =
    (inr (mkReadJob rq (default (gf_count rq) throttle)), mkFileReader (mkDirReader (Some F) (gf_filename rq) true e) table files).
Proof.
  intros Hd Hr Hm Ht HF Hth Hp. unfold file_reader_begin. cbn [fr_meta_table fr_dir fr_files].
  rewrite (decide_False (P := gf_filename rq = _)) by done. rewrite (decide_False (P := mt_get_file_meta _ _ = None)) by done.
  rewrite decide_False.
  2:{ destruct throttle as [g|]; cbn; [|lia]. specialize (Hth g eq_refl). destruct Hp as [->|]; [|done]. intros [? [?|?]]; [done|lia]. }
  rewrite (read_file_ready _ _ _ F) by (done || (intros E; rewrite E in Ht; done)). rewrite decide_False by lia. eauto.
Qed.

Lemma serve_ok s rq throttle mk_buf :
  at_rest (gf_filename rq) (gf_offset rq) s → gf_reader_id rq = reader_id → 0 ≤ gf_offset rq → 1 ≤ gf_count rq →
  (∀ g, throttle = Some g → 1 ≤ g ≤ gf_count rq) → (gf_read_partly rq = true ∨ throttle = None) →
  served (gf_filename rq) → buf_ok mk_buf →
  ∃ eof rs at0 s', serve rq throttle mk_buf s = Some (GetFileDone eof rs at0, s') ∧ right_answer rq (GetFileDone eof rs at0) ∧
    if eof then ∀ f, at_rest f 0 s' else ∀ off, at_rest (gf_filename rq) off s'.
Proof.
  intros [Hs Hadd Hready] Hid Ho Hc Hth Hp Hserved Hbuf. pose proof Hs as [_ (d & Hl & Hd & _)]. specialize (Hready _ Hl). cbn in Hready.
  assert (∀ g, throttle = Some g → 0 ≤ g ≤ gf_count rq) as Hth0 by (intros g Hg; specialize (Hth g Hg); lia).
  unfold serve. destruct (get_file_begin rq throttle 0 mk_buf s) as [[res s1]|] eqn:Eb.
  2:{ unfold get_file_begin in Eb. rewrite decide_False, Hid, Hl in Eb by (rewrite ?Hid; tauto). cbn in Eb. case_decide; [done|].
      by destruct (file_reader_begin _ _ _ _). }
  pose proof (get_file_begin_ok _ _ _ _ _ _ _ _ Hs Eb Hth0 Hbuf Hnoname) as Hbegin.
  unfold get_file_begin in Eb. rewrite decide_False, Hid, Hl in Eb by (rewrite ?Hid; tauto). cbn [mbind option_bind] in Eb.
  rewrite decide_False in Eb by lia. destruct (decide (gf_filename rq = MELON_RAFT_SNAPSHOT_META_FILE)) as [Hm|Hm].
  - unfold file_reader_begin in Eb. rewrite decide_True in Eb by done. injection Eb as <- <-. destruct Hbegin as [Hs1 Hr].
    cbn [mbind option_bind]. eexists true, _, _, _. split_and!; [done|by apply Hr|]. intros f. constructor; [done|done|].
    cbn. rewrite lookup_insert_eq. intros ? [= <-]. destruct Hready as [Hrd [[He _]|[_ ?]]]; [|done]. split; [done|by left].
  - destruct Hserved as [?|[Ht [F HF]]]; [done|].
    destruct (file_reader_begin_ready rq throttle d F) as [e Ef]; [done..|]. rewrite Ef in Eb. injection Eb as <- <-.
    destruct Hbegin as [Hs1 _]. cbn [mbind option_bind].
    destruct (read_file_end_done (gf_offset rq) (default (gf_count rq) throttle) F (gf_filename rq) e) as (dt & eof & d' & Ee & Hrd & Heof & Hcf).
    assert (∃ s2, get_file_end (mkReadJob rq (default (gf_count rq) throttle)) ReadDone mk_buf
      (sv_set_reader reader_id (mkFileReader (mkDirReader (Some F) (gf_filename rq) true e) table files) s) =
      Some (answer_done rq eof (mk_buf dt), s2) ∧ sv_readers s2 !! reader_id = Some (mkFileReader d' table files) ∧ sv_reader_map s2 = sv_reader_map s)
      as (s2 & E2 & Hl2 & Hm2).
    { unfold get_file_end. cbn [rj_request rj_max_count]. rewrite Hid. cbn [sv_readers sv_set_reader]. rewrite lookup_insert_eq.
      cbn [mbind option_bind fr_dir]. rewrite Ee. cbn. eexists. split; [done|]. cbn. by rewrite lookup_insert_eq. }
    rewrite E2. destruct (get_file_end_ok _ [] _ [] _ _ _ _ Hs1 E2 Hbuf) as [Hs2 Hr]. cbn in Hs2, Hr.
    eexists eof, _, _, s2. split_and!; [done|by apply Hr|].
    destruct eof; intros x; (constructor; [done|by rewrite Hm2|]); rewrite Hl2; intros ? [= <-]; (split; [done|]); [left|right]; done.
Qed.

Definition round_ok (read_partly : bool) (r : option Z * option Z) : Prop :=
  (∀ l, r.1 = Some l → 1 ≤ l ∧ read_partly = true) ∧ (∀ g, r.2 = Some g → 1 ≤ g ≤ raft_max_byte_count_per_rpc).

Record copying (f : list Z) (s : FileServiceImpl) (ss : Session) : Prop := {
  cp_service : at_rest f (se_offset ss) s;
  cp_session : session_ok ss;
  cp_file : se_filename ss = f;
  cp_running : se_finished ss = false;
  cp_wait : se_wait ss = WaitRpc;
}.

Definition copy_ended (f : list Z) (s : FileServiceImpl) (ss : Session) : Prop :=
  session_ok ss ∧ se_filename ss = f ∧ se_wait ss = WaitNone ∧ se_finished ss = true ∧ se_status ss = 0 ∧ ∀ f', at_rest f' 0 s.

Lemma send_next_rpc_granted grant s read_partly l :
  round_ok read_partly (l, grant) → se_finished s = false →
  let s' := send_next_rpc grant s in
  se_wait s' = WaitRpc ∧ se_finished s' = false ∧ se_offset s' = se_offset s + se_count s ∧ se_filename s' = se_filename s ∧
  se_read_partly s' = se_read_partly s.
Proof.
  intros [_ Hg] Hf. cbn in Hg. unfold send_next_rpc. cbn [se_finished se_set_wait se_set_request]. rewrite Hf. cbn zeta.
  rewrite decide_False; [done|]. cbn. unfold raft_max_byte_count_per_rpc, UINT_MAX in *.
  destruct (dest_is_file _); [|lia]. destruct grant as [g|]; cbn; [specialize (Hg g eq_refl)|]; lia.
Qed.

Lemma copy_round_ok mk_buf write limit grant f F s ss :
  copying f s ss → served f → source f = Some F → buf_ok mk_buf → write_all write → round_ok (se_read_partly ss) (limit, grant) →
  ∃ s' ss', copy_round mk_buf write limit grant (s, ss) = Some (s', ss') ∧
    (copy_ended f s' ss' ∨
     copying f s' ss' ∧ se_read_partly ss' = se_read_partly ss ∧ se_offset ss < se_offset ss' < zlen F).
Proof.
  intros [Hs Hok Hf Hrun Hw] Hserved HF Hbuf Hwr Hround. unfold copy_round. rewrite Hw. pose proof Hround as [Hl Hg]. cbn in Hl, Hg.
  destruct (sk_running _ Hok Hrun) as (Hst & _ & (Ho & _) & Hcnt). rewrite Hw in Hcnt.
  destruct (serve_ok s (se_request ss) ((λ l, Z.min l (se_count ss)) <$> limit) mk_buf) as (eof & rs & at0 & s' & Es & Hr & Hs'); cbn; try done.
  { by rewrite Hf. }
  { by apply sk_reader. }
  { lia. }
  { intros g Hg1. apply fmap_Some in Hg1 as (l & -> & ->). specialize (Hl l eq_refl). lia. }
  { destruct limit as [l|]; [left; by apply (Hl l)|by right]. }
  { by rewrite Hf. }
  rewrite Es. cbn [mbind option_bind].
  destruct (rpc_done eof rs at0 write true grant ss) as (ss' & E & Hok' & Hmoved); try done.
  { intros a b o _. by rewrite Hwr. }
  { intros g ->. specialize (Hg g eq_refl). lia. }
  rewrite E. cbn. exists s', ss'. split; [done|]. specialize (Hmoved Hwr). destruct eof.
  - left. destruct Hmoved as (Hfn & Hw' & Hfin). destruct Hfin as [Hfi Hsta]; [done|]. by split_and!; [|congruence|..].
  - right. destruct Hmoved as (s0 & -> & Hf0 & Hfn0 & Hrp0 & Hlt & HltF).
    destruct (send_next_rpc_granted grant s0 (se_read_partly ss) limit) as (Hw' & Hf' & Ho' & Hfn' & Hrp'); [done..|].
    rewrite Hf in HltF. specialize (HltF F HF). split_and!; [|congruence|lia|lia].
    constructor; [|done|congruence|done|done]. cbn in Hs'. rewrite Hf in Hs'. apply Hs'.
Qed.

Lemma copy_rounds_ended mk_buf write rounds f s ss :
  copy_ended f s ss → copy_rounds mk_buf write rounds (s, ss) = Some (s, ss).
Proof.
  intros (_ & _ & Hw & _). induction rounds as [|[l g] rounds IH]; [done|]. cbn [copy_rounds copy_round]. by rewrite Hw.
Qed.

Lemma copy_rounds_ok mk_buf write rounds f F s ss :
  copying f s ss → served f → source f = Some F → buf_ok mk_buf → write_all write → Forall (round_ok (se_read_partly ss)) rounds →
  se_offset ss + zlen rounds > zlen F → se_offset ss < zlen F ∨ se_offset ss = 0 →
  ∃ s' ss', copy_rounds mk_buf write rounds (s, ss) = Some (s', ss') ∧ copy_ended f s' ss'.
Proof.
  intros Hc Hserved HF Hbuf Hwr. revert s ss Hc. induction rounds as [|[l g] rounds IH]; intros s ss Hc Hr Hlen Ho.
  { rewrite zlen_nil in Hlen. pose proof (zlen_nonneg F). lia. }
  apply Forall_cons in Hr as [Hr Hrs]. cbn [copy_rounds].
  destruct (copy_round_ok mk_buf write l g f F s ss) as (s' & ss' & E & Hcase); [done..|]. rewrite E. cbn [mbind option_bind].
  destruct Hcase as [He|(Hc' & Hrp & Hlt & HltF)].
  - exists s', ss'. split; [|done]. by eapply copy_rounds_ended.
  - apply IH; [done|by rewrite Hrp|rewrite zlen_cons in Hlen; lia|by left].
Qed.

(** The files of the snapshot one after another, the table into a buffer.  The
    throttle of the copier grants [first f] to the first request for [f], and
    the amounts in [rounds] to the next ones. *)
Fixpoint copy_all (mk_buf : list Z → AnswerBuf) (write : list Z → list Z → Z → list Z * Z) (read_partly : bool)
    (first : list Z → option Z) (rounds : list (option Z * option Z)) (fs : list (list Z)) (s : FileServiceImpl) : option (list CopyDest * FileServiceImpl) :=
  match fs with
  | [] => Some ([], s)
  | f :: fs =>
      '(s, ss) ← copy_rounds mk_buf write rounds
        (s, start_to_copy reader_id f read_partly (bool_decide (f ≠ MELON_RAFT_SNAPSHOT_META_FILE)) (first f));
      if se_finished ss && bool_decide (se_status ss = 0) then
        '(ds, s) ← copy_all mk_buf write read_partly first rounds fs s;
        Some (se_dest ss :: ds, s)
      else None
  end.

(** A grant that lets a request go out. *)
Definition granted (grant : option Z) : Prop := ∀ g, grant = Some g → 1 ≤ g ≤ raft_max_byte_count_per_rpc.

Lemma start_copying f read_partly to_file grant s :
  granted grant → at_rest f 0 s →
  let ss := start_to_copy reader_id f read_partly to_file grant in
  copying f s ss ∧ se_offset ss = 0 ∧ se_read_partly ss = read_partly.
Proof.
  intros Hg Hs. assert (session_ok (start_to_copy reader_id f read_partly to_file grant)) as Hok.
  { apply start_to_copy_ok. intros g Hx. specialize (Hg g Hx). lia. }
  destruct (send_next_rpc_granted grant (mkSession reader_id f read_partly (if to_file then DestFile [] else DestBuf []) 0 0 0 0 false WaitNone)
    read_partly None) as (Hw & Hf & Ho & Hfn & Hrp); [by split|done|].
  fold (start_to_copy reader_id f read_partly to_file grant) in *.
  split_and!; [|exact Ho|exact Hrp]. constructor; [by rewrite Ho|done|exact Hfn|exact Hf|exact Hw].
Qed.

Lemma copy_all_ok mk_buf write read_partly first rounds fs s :
  (∀ f, granted (first f)) → (∀ f, at_rest f 0 s) → Forall served fs → Forall (λ f, ∀ F, source f = Some F → zlen F < zlen rounds) fs →
  buf_ok mk_buf → write_all write → Forall (round_ok read_partly) rounds →
  ∃ ds s', copy_all mk_buf write read_partly first rounds fs s = Some (ds, s') ∧
    Forall2 (λ f d, ∃ F, source f = Some F ∧ copied F d) fs ds.
Proof.
  intros Hfirst Hs Hserved Hlen Hbuf Hwr Hround. revert s Hs. induction fs as [|f fs IH]; intros s Hs; [by eexists [], s|].
  apply Forall_cons in Hserved as [Hsf Hserved]. apply Forall_cons in Hlen as [Hlf Hlen].
  assert (∃ F, source f = Some F) as [F HF].
  { unfold source. case_decide; [by eexists|]. by destruct Hsf as [?|[_ ?]]. }
  specialize (Hlf F HF). cbn [copy_all]. set (to_file := bool_decide _).
  destruct (start_copying f read_partly to_file (first f) s (Hfirst f) (Hs f)) as (Hcp & Ho & Hrp).
  destruct (copy_rounds_ok mk_buf write rounds f F s (start_to_copy reader_id f read_partly to_file (first f)))
    as (s' & ss & E & Hok & Hfn & _ & Hfin & Hst & Hs'); try done; [by rewrite Hrp|lia|lia|].
  rewrite E. cbn [mbind option_bind]. rewrite Hfin, bool_decide_true by done. cbn [andb].
  destruct (IH Hserved Hlen s' Hs') as (ds & s2 & E2 & Hds). rewrite E2. cbn. eexists _, s2. split; [done|].
  constructor; [|done]. destruct (sk_finished _ Hok Hfin Hst) as (F' & HF' & Hc). rewrite Hfn in HF'. by exists F'.
Qed.

(** ** What is copied *)

(** A reader for the snapshot was added to the service. *)
Definition service_with_reader (s : FileServiceImpl) : FileServiceImpl :=
  (add_reader (mkFileReader dir_reader_new table files) s).2.

Lemma service_with_reader_ok s : reader_id = sv_next_id s → service_ok (service_with_reader s) [].
Proof. intros Hid. constructor; cbn; [lia|]. rewrite Hid, lookup_insert_eq. by eexists. Qed.

(** C33. In any run of the service and the copier, a session that ends without
    an error has copied the file as the server has it: the same bytes, and
    exactly the same file when holes are not left out.  No answer makes the
    session abort, and no read of the snapshot aborts the service. *)
Theorem copied_files_right s r :
  reader_id = (add_reader (mkFileReader dir_reader_new table files) s).1 →
  rtc copy_step (mkCopyRun (service_with_reader s) [] [] None) r →
  (∀ ss, cr_session r = Some ss → se_finished ss = true → se_status ss = 0 →
     ∃ F, source (se_filename ss) = Some F ∧ copied F (se_dest ss)) ∧
  (∀ ss a write sync_ok grant, cr_session r = Some ss → se_wait ss = WaitRpc → (se_request ss, a) ∈ cr_answers r →
     write_ok write → grant_ok grant → is_Some (on_rpc_returned a write sync_ok grant ss)) ∧
  (∀ j o mk_buf, j ∈ cr_jobs r → gf_reader_id (rj_request j) = reader_id →
     is_Some (get_file_end j o mk_buf (cr_service r))).
Proof.
  intros Hid Hrun. destruct (runs_ok _ _ Hrun) as [Hs Ha Hse].
  { constructor; cbn; [by apply service_with_reader_ok|done|done]. }
  split_and!.
  - intros ss Hss Hf Hst. by apply (sk_finished _ (Hse ss Hss)).
  - intros ss a write sync_ok grant Hss Hw Hin Hwr Hg. rewrite Forall_forall in Ha.
    destruct (rpc_done_ok a write sync_ok grant ss) as (ss' & -> & _); [by apply Hse|done| |done|done|by eexists].
    apply (Ha _ Hin). by apply sk_reader, Hse.
  - intros j o mk_buf Hj Hjid. by eapply job_ends.
Qed.

(** C34. Undisturbed, the copier gets every file of the snapshot, and its table,
    in at most as many requests as a file has bytes and one.  Nothing fails: the
    answers arrive, the writes are complete and the files are in the table and on
    the disk of the server.  The throttle of the copier grants every request, the
    first one of a file too, a positive amount or has none; the throttle of the
    server limits an answer to a positive amount, and only when the copier asked
    to read partly.  The copy has the bytes of the file, and is the file when
    holes are not left out. *)
Theorem copy_completes mk_buf write read_partly first rounds fs s :
  reader_id = (add_reader (mkFileReader dir_reader_new table files) s).1 →
  Forall served fs → Forall (λ f, ∀ F, source f = Some F → zlen F < zlen rounds) fs →
  buf_ok mk_buf → write_all write → (∀ f, granted (first f)) → Forall (round_ok read_partly) rounds →
  ∃ ds s', copy_all mk_buf write read_partly first rounds fs (service_with_reader s) = Some (ds, s') ∧
    Forall2 (λ f d, ∃ F, source f = Some F ∧ copied F d) fs ds.
Proof.
  intros Hid Hserved Hlen Hbuf Hwr Hfirst Hround. apply copy_all_ok; try done. intros f. constructor.
  - by apply service_with_reader_ok.
  - cbn in *. rewrite Hid. set_solver.
  - intros r. cbn in *. rewrite Hid, lookup_insert_eq. intros [= <-]. split; [done|by left].
Qed.
End spec.
