(* ===== verification/FileCopyRuns.v ===== *)
(** * Copying files: concrete runs

    An executable form of the transition system of FileCopySpec.v, and a copy
    of a small snapshot in it. *)

From Stdlib Require Import String.
From stdpp Require Import prelude gmap.
From S2P Require Import Prelude Bytes Text FileSegData StateMonad FileSystem Messages SnapshotFs Snapshot SnapshotWire FileCopy FileCopySpec.
Local Open Scope Z_scope.

Inductive CopyCmd :=
  | CmdAsk (rq : GetFileRequest) (throttle : option Z)
  | CmdRead
  | CmdStart (f : list Z) (to_file : bool)
  | CmdFail (code : Z)
  | CmdAnswer
  | CmdTimer.

(** Answers in one block, without looking for holes. *)
Definition plain_buf (d : list Z) : AnswerBuf := mkAnswerBuf (if decide (d = []) then [] else [d]) (replicate fs_header_size 0) false.
Definition full_write (f d : list Z) (o : Z) : list Z * Z := (bytes_write f o d, zlen d).

Definition copy_exec `{PbSnapshot} (reader_id : Z) (c : CopyCmd) (r : CopyRun) : option CopyRun :=
  let 'mkCopyRun s jobs ans se := r in
  match c, se with
  | CmdAsk rq throttle, _ =>
      if decide (Forall (λ g, 0 ≤ g ≤ gf_count rq) (option_list throttle)) then
        '(res, s) ← get_file_begin rq throttle 0 plain_buf s;
        match res with
        | inl a => Some (mkCopyRun s jobs ((rq, a) :: ans) se)
        | inr j => Some (mkCopyRun s (j :: jobs) ans se)
        end
      else None
  | CmdRead, _ =>
      match jobs with
      | j :: jobs => '(a, s) ← get_file_end j ReadDone plain_buf s; Some (mkCopyRun s jobs ((rj_request j, a) :: ans) se)
      | [] => None
      end
  | CmdStart f to_file, _ =>
      if decide (Forall (λ ss, se_finished ss = true) (option_list se))
      then Some (mkCopyRun s jobs ans (Some (start_to_copy reader_id f true to_file None))) else None
  | CmdFail code, Some ss =>
      if decide (se_wait ss = WaitRpc ∧ code ≠ 0) then
        ss ← on_rpc_returned (GetFileFailed code) full_write true None ss; Some (mkCopyRun s jobs ans (Some ss))
      else None
  | CmdAnswer, Some ss =>
      match ans with
      | (rq, a) :: _ =>
          if decide (se_wait ss = WaitRpc ∧ rq = se_request ss) then
            ss ← on_rpc_returned a full_write true None ss; Some (mkCopyRun s jobs ans (Some ss))
          else None
      | [] => None
      end
  | CmdTimer, Some ss => if decide (se_wait ss = WaitTimer) then Some (mkCopyRun s jobs ans (Some (send_next_rpc None ss))) else None
  | _, None => None
  end.

Fixpoint copy_execs `{PbSnapshot} (reader_id : Z) (cs : list CopyCmd) (r : CopyRun) : option CopyRun :=
  match cs with [] => Some r | c :: cs => r ← copy_exec reader_id c r; copy_execs reader_id cs r end.

Lemma plain_buf_ok : buf_ok false plain_buf.
Proof.
  intros d. unfold plain_buf. cbn. split_and!; [|by case_decide; repeat constructor|done|done].
  case_decide; [done|]. cbn. by rewrite app_nil_r.
Qed.

Lemma copy_exec_step `{PbSnapshot} reader_id c r r' :
  copy_exec reader_id c r = Some r' → copy_step reader_id false r r'.
Proof.
  destruct r as [s jobs ans se]. assert (grant_ok None) as Hg by done. assert (write_ok full_write) as Hw by done.
  destruct c as [rq throttle| |f to_file|code| |]; cbn [copy_exec].
  - case_decide as Hth; [|done]. intros E. apply bind_Some in E as ([[a|j] s'] & E1 & E2); injection E2 as <-;
      econstructor; try exact E1; try apply plain_buf_ok; intros g ->; by apply Forall_cons in Hth as [? _].
  - destruct jobs as [|j jobs]; [done|]. intros E. apply bind_Some in E as ([a s'] & E1 & E2). injection E2 as <-.
    by apply (copy_read reader_id false s [] j jobs ans se ReadDone plain_buf a s'), E1; apply plain_buf_ok.
  - case_decide as Hse; [|done]. intros E. injection E as <-. constructor; [|done]. intros ss ->. by apply Forall_cons in Hse as [? _].
  - destruct se as [ss|]; [|done]. case_decide as Hd; [|done]. intros E. apply bind_Some in E as (ss' & E1 & E2). injection E2 as <-.
    destruct Hd as [Hd1 Hd2]. by eapply copy_failed; [| |exact E1].
  - destruct se as [ss|]; [|done]. destruct ans as [|[rq a] ans]; [done|]. case_decide as Hd; [|done]. intros E.
    apply bind_Some in E as (ss' & E1 & E2). injection E2 as <-. destruct Hd as [Hd1 ->].
    eapply copy_answered; [done| |done|done|exact E1]. by left.
  - destruct se as [ss|]; [|done]. case_decide; [|done]. intros E. injection E as <-. by constructor.
Qed.

Lemma copy_execs_steps `{PbSnapshot} reader_id cs r r' :
  copy_execs reader_id cs r = Some r' → rtc (copy_step reader_id false) r r'.
Proof.
  revert r. induction cs as [|c cs IH]; cbn; intros r E; [injection E as <-; constructor|].
  apply bind_Some in E as (r1 & E1 & E2). eapply rtc_l; [by eapply copy_exec_step|by apply IH].
Qed.

(** ** A snapshot with one file *)

Module CopyExample.

Definition name : list Z := chars "data"%string.
Definition content : list Z := [1; 2; 0; 3; 5].
Definition table : LocalSnapshotMetaTable := mkTable {[name := no_file_meta]} (Some (mkSnapshotMetaPb 7 2 [] [])).
Definition files (f : list Z) : option (list Z) := if decide (f = name) then Some content else None.
Definition service : FileServiceImpl := mkFileService 1 ∅ ∅.
Definition rq (off : Z) : GetFileRequest := mkGetFileRequest 1 name raft_max_byte_count_per_rpc off true.

Lemma example_source f F :
  source table files f = Some F → bytes F ∧ zlen F < 2 ^ 63 ∧ (f = MELON_RAFT_SNAPSHOT_META_FILE → zlen F < 2 ^ 32).
Proof.
  unfold source, files. case_decide; [|case_decide; [|done]]; intros E; injection E as <-;
    (split; [vm_compute; repeat constructor; discriminate|split; [reflexivity|intros _; reflexivity]]).
Qed.

(** The throttle of the server gives two bytes; the request is sent twice, and
    the second one finds the reader busy; the next answer is lost. *)
Definition run : list CopyCmd :=
  [CmdStart name true; CmdAsk (rq 0) (Some 2); CmdAsk (rq 0) None; CmdAnswer; CmdTimer; CmdRead; CmdAnswer;
   CmdAsk (rq 2) None; CmdFail 110; CmdTimer; CmdRead; CmdAnswer].

Definition final : option CopyRun := copy_execs 1 run (mkCopyRun (service_with_reader table files service) [] [] None).

Lemma final_ended : (λ r, ss ← cr_session r; Some (se_filename ss, se_finished ss, se_status ss)) <$> final = Some (Some (name, true, 0)).
Proof. vm_compute. reflexivity. Qed.

Lemma copied_files_right_witness : ∃ r ss, final = Some r ∧ cr_session r = Some ss ∧ dest_content (se_dest ss) = content.
Proof.
  pose proof final_ended as He. destruct final as [r|] eqn:E; [|discriminate He]. cbn in He.
  destruct (cr_session r) as [ss|] eqn:Hss; [|discriminate He]. injection He as Hn Hf Hst.
  destruct (copied_files_right table files 1 false example_source eq_refl service r eq_refl (copy_execs_steps 1 run _ r E)) as [Hc _].
  destruct (Hc ss Hss Hf Hst) as (F & HF & [_ Hx]). exists r, ss. split_and!; [done|done|]. rewrite (Hx eq_refl).
  rewrite Hn in HF. vm_compute in HF. by injection HF as <-.
Defined.

(** With the hole check a block of zeros at the end of a file is not sent: the
    session ends without an error and the copy is shorter than the file. *)
Example trailing_hole_shortens :
  let answer := answer_done (rq 0) true (mkAnswerBuf [[1; 2]; [0; 0; 0]] (replicate fs_header_size 0) true) in
  (λ ss, (se_finished ss, se_status ss, se_dest ss)) <$>
    on_rpc_returned answer full_write true None (start_to_copy 1 name true true None) = Some (true, 0, DestFile [1; 2]).
Proof. vm_compute. reflexivity. Qed.

Definition rounds : list (option Z * option Z) := replicate 40 (Some 3, Some 4).

Lemma copy_completes_witness :
  ∃ ds s', copy_all 1 plain_buf full_write true (λ _, Some 2) rounds [MELON_RAFT_SNAPSHOT_META_FILE; name] (service_with_reader table files service) =
    Some (ds, s') ∧ dest_content <$> ds = [mt_save_to_iobuf_as_remote table; content].
Proof.
  destruct (copy_completes table files 1 false example_source eq_refl plain_buf full_write true (λ _, Some 2) rounds
    [MELON_RAFT_SNAPSHOT_META_FILE; name] service eq_refl) as (ds & s' & E & Hds).
  - apply Forall_cons. split; [by left|]. apply Forall_singleton. right. split; [discriminate|]. by eexists.
  - repeat constructor; intros F HF; vm_compute in HF; injection HF as <-; reflexivity.
  - apply plain_buf_ok.
  - done.
  - intros f g [= <-]. by split.
  - apply Forall_replicate. split; cbn; intros ? [= <-]; [done|]. by split.
  - exists ds, s'. split; [done|].
    apply Forall2_cons_inv_l in Hds as (d1 & ds1 & (F1 & HF1 & [_ H1]) & Hds & ->).
    apply Forall2_cons_inv_l in Hds as (d2 & ds2 & (F2 & HF2 & [_ H2]) & Hds & ->). apply Forall2_nil_inv_l in Hds as ->.
    cbn. rewrite H1, H2 by reflexivity. injection HF1 as <-. vm_compute in HF2. by injection HF2 as <-.
Defined.

End CopyExample.
