(* ===== verification/SnapshotCopier.v ===== *)
(** * The copier of snapshots

    [LocalSnapshotCopier] (src/melon/raft/snapshot.{h,cc}), which fetches the
    snapshot of another server into the local storage of Snapshot.v, file by
    file with the sessions of FileCopy.v.

    [sessions] says how the session for a file ends, or that the copier was
    cancelled before it started.  What a session writes goes to the file it
    was given.  Names of files are relative paths without empty components,
    and [raft_create_parent_directories] is set, which is its default. *)

From stdpp Require Import prelude gmap.
From S2P Require Import Prelude Bytes StateMonad FileSystem Messages SnapshotFs Snapshot FileCopy.
Local Open Scope Z_scope.

(** ** Errors of the file system *)

Definition ENOMEM : Z := 12.
Definition EACCES : Z := 13.
Definition EISDIR : Z := 21.
Definition EMFILE : Z := 24.
Definition ETXTBSY : Z := 26.
Definition ENOSPC : Z := 28.
Definition EROFS : Z := 30.

(** [File::OSErrorToFileError] and back. *)
Definition file_error_to_os_error (saved_errno : Z) : Z :=
  if decide (saved_errno ∈ [EACCES; EISDIR; EROFS; EPERM]) then EACCES
  else if decide (saved_errno = ETXTBSY) then EAGAIN
  else if decide (saved_errno ∈ [EEXIST; ENOENT; EMFILE; ENOMEM; ENOSPC; ENOTDIR]) then saved_errno
  else EINVAL.

(** The directories in the name of a file, outer ones first. *)
Fixpoint parents (before name : list Z) : list (list Z) :=
  match name with
  | [] => []
  | c :: name => (if decide (c = ch_slash) then [before] else []) ++ parents (before ++ [c]) name
  end.

(** [create_directory] with all parents: 0 or an error. *)
Fixpoint create_directories (dirs : list (list Z)) : IO Z :=
  match dirs with
  | [] => mret 0
  | p :: dirs =>
      present ← fs_directory_exists p;
      if (present : bool) then create_directories dirs
      else
        rc ← sys_mkdir p;
        if decide (rc = 0) then create_directories dirs
        else
          saved_errno ← get_errno;
          present ← fs_directory_exists p;
          if (present : bool) then create_directories dirs else mret (file_error_to_os_error saved_errno)
  end.

(** [open] with [O_TRUNC | O_WRONLY | O_CREAT] of a file in the directory [dir]. *)
Definition open_for_copy (dir path : list Z) : IO (option Z) := λ w,
  if decide (dir_lookup (w_dir w) dir ≠ Some dir_ino) then Some (None, set_errno w ENOENT)
  else if decide (dir_lookup (w_dir w) path = Some dir_ino) then Some (None, set_errno w EISDIR)
  else sys_create path w.

(** What a session has written to its file. *)
Definition session_writes (ino : Z) (content : list Z) : IO unit := λ w,
  Some (tt, set_files w (<[ino := content]> (w_files w))).

Section copier.
Context `{PbSnapshot}.

Inductive SessionEnd := SessionCancelled | SessionEnded (ss : Session).

Context (sessions : list Z → SessionEnd).

(** [lc_error] is the code of its status. *)
Record LocalSnapshotCopier := mkCopier {
  lc_error : Z;
  lc_filter_before_copy_remote : bool;
  lc_copy_file : bool;
  lc_remote_snapshot : LocalSnapshotMetaTable;
  lc_writer : option LocalSnapshotWriter;
  lc_reader : option Z;
}.

Definition lc_set_error (e : Z) (c : LocalSnapshotCopier) : LocalSnapshotCopier :=
  mkCopier e (lc_filter_before_copy_remote c) (lc_copy_file c) (lc_remote_snapshot c) (lc_writer c) (lc_reader c).
Definition lc_set_remote (t : LocalSnapshotMetaTable) (c : LocalSnapshotCopier) : LocalSnapshotCopier :=
  mkCopier (lc_error c) (lc_filter_before_copy_remote c) (lc_copy_file c) t (lc_writer c) (lc_reader c).
Definition lc_set_writer (wr : option LocalSnapshotWriter) (c : LocalSnapshotCopier) : LocalSnapshotCopier :=
  mkCopier (lc_error c) (lc_filter_before_copy_remote c) (lc_copy_file c) (lc_remote_snapshot c) wr (lc_reader c).
Definition lc_set_reader (rd : option Z) (c : LocalSnapshotCopier) : LocalSnapshotCopier :=
  mkCopier (lc_error c) (lc_filter_before_copy_remote c) (lc_copy_file c) (lc_remote_snapshot c) (lc_writer c) rd.
Definition lc_ok (c : LocalSnapshotCopier) : bool := bool_decide (lc_error c = 0).

(** The copier [start_to_copy_from] makes. *)
Definition copier_new (s : LocalSnapshotStorage) : LocalSnapshotCopier :=
  mkCopier 0 (ss_filter_before_copy_remote s) (ss_copy_file s) empty_table None None.

Definition load_meta_table (c : LocalSnapshotCopier) : option LocalSnapshotCopier :=
  match sessions MELON_RAFT_SNAPSHOT_META_FILE with
  | SessionCancelled => Some (lc_set_error ECANCELED c)
  | SessionEnded ss =>
      if decide (se_status ss ≠ 0) then Some (lc_set_error (se_status ss) c)
      else
        let '(rc, t) := mt_load_from_iobuf_as_remote (dest_content (se_dest ss)) (lc_remote_snapshot c) in
        if decide (rc ≠ 0) then Some (lc_set_error (-1) (lc_set_remote t c))
        else
          CHECK (is_Some (mt_meta t));;
          Some (lc_set_remote t c)
  end.

(** ** Filtering *)

(** The first loop of [filter_before_copy]: files the remote snapshot does not
    have. *)
Fixpoint remove_absent (remote : LocalSnapshotMetaTable) (existing_files to_remove : list (list Z)) (wr : LocalSnapshotWriter)
  : list (list Z) * LocalSnapshotWriter :=
  match existing_files with
  | [] => (to_remove, wr)
  | f :: fs =>
      if decide (mt_get_file_meta f remote = None)
      then remove_absent remote fs (to_remove ++ [f]) (wr_remove_file f wr).2
      else remove_absent remote fs to_remove wr
  end.

(** A file is looked for in the last snapshot. *)
Definition take_from_last (last_snapshot : option LocalSnapshotReader) (filename : list Z) (remote_meta : LocalFileMeta)
    (to_remove : list (list Z)) (wr : LocalSnapshotWriter) : IO (list (list Z) * LocalSnapshotWriter) :=
  match last_snapshot with
  | None => mret (to_remove, wr)
  | Some rd =>
      match rd_get_file_meta filename rd with
      | None => mret (to_remove, wr)
      | Some local_meta =>
          if decide (fm_checksum local_meta = None ∨ fm_checksum local_meta ≠ fm_checksum remote_meta) then mret (to_remove, wr)
          else if decide (file_source local_meta = FILE_SOURCE_LOCAL) then
            let source_path := path_join (rd_path rd) filename in
            let dest_path := path_join (wr_path wr) filename in
            fs_delete_file dest_path false;;
            linked ← fs_link source_path dest_path;
            if negb (linked : bool) then mret (to_remove, wr)
            else
              let to_remove := if decide (last to_remove = Some filename) then removelast to_remove else to_remove in
              mret (to_remove, (wr_add_file filename (Some local_meta) wr).2)
          else mret (to_remove, (wr_add_file filename (Some local_meta) wr).2)
      end
  end.

(** Its second loop, over the files of the remote snapshot. *)
Fixpoint filter_remote (remote : LocalSnapshotMetaTable) (last_snapshot : option LocalSnapshotReader)
    (remote_files to_remove : list (list Z)) (wr : LocalSnapshotWriter) : IO (list (list Z) * LocalSnapshotWriter) :=
  match remote_files with
  | [] => mret (to_remove, wr)
  | filename :: fs =>
      remote_meta ← io_lift (mt_get_file_meta filename remote);
      if decide (fm_checksum remote_meta = None) then
        filter_remote remote last_snapshot fs (to_remove ++ [filename]) (wr_remove_file filename wr).2
      else
        match wr_get_file_meta filename wr with
        | Some local_meta =>
            if decide (fm_checksum local_meta = fm_checksum remote_meta) then filter_remote remote last_snapshot fs to_remove wr
            else
              '(to_remove, wr) ← take_from_last last_snapshot filename remote_meta (to_remove ++ [filename]) (wr_remove_file filename wr).2;
              filter_remote remote last_snapshot fs to_remove wr
        | None =>
            '(to_remove, wr) ← take_from_last last_snapshot filename remote_meta to_remove wr;
            filter_remote remote last_snapshot fs to_remove wr
        end
  end.

Definition filter_before_copy (sync_meta : bool) (remote : LocalSnapshotMetaTable) (wr : LocalSnapshotWriter)
    (last_snapshot : option LocalSnapshotReader) : IO (Z * LocalSnapshotWriter) :=
  let '(to_remove, wr) := remove_absent remote (wr_list_files wr) [] wr in
  '(to_remove, wr) ← filter_remote remote last_snapshot (mt_list_files remote) to_remove wr;
  '(rc, wr) ← wr_sync sync_meta wr;
  if decide (rc ≠ 0) then mret (-1, wr)
  else
    delete_files (wr_path wr) to_remove;;
    mret (0, wr).

(** The part of [filter] with [_filter_before_copy_remote]. *)
Definition filter_writer (remote : LocalSnapshotMetaTable) (wr : LocalSnapshotWriter) : SR (option LocalSnapshotWriter) :=
  reader ← ss_open;
  rds ← sr_get ss_readers;
  sync_meta ← sr_get ss_sync_meta;
  '(rc, wr) ← sr_io (filter_before_copy sync_meta remote wr (reader ≫= (rds !!.)));
  wr ← (if decide (rc ≠ 0) then close_writer (wr_set_error (-1) wr) false;; ss_create true else mret (Some wr));
  match reader with
  | Some id => ss_close_reader id;; mret wr
  | None => mret wr
  end.

Definition filter (c : LocalSnapshotCopier) : SR LocalSnapshotCopier :=
  wr ← ss_create (negb (lc_filter_before_copy_remote c));
  match wr with
  | None => mret (lc_set_error EIO c)
  | Some wr =>
      wr ← (if lc_filter_before_copy_remote c then filter_writer (lc_remote_snapshot c) wr else mret (Some wr));
      match wr with
      | None => mret (lc_set_error EIO (lc_set_writer None c))
      | Some wr =>
          meta ← st_lift (mt_meta (lc_remote_snapshot c));
          sync_meta ← sr_get ss_sync_meta;
          '(rc, wr) ← sr_io (wr_sync sync_meta (wr_save_meta meta wr));
          let c := lc_set_writer (Some wr) c in
          mret (if decide (rc ≠ 0) then lc_set_error EIO c else c)
      end
  end.

(** ** Copying *)

(** [copy_file] once the session has ended. *)
Definition file_copied (filename : list Z) (meta : LocalFileMeta) (ss : Session) (wr : LocalSnapshotWriter) (c : LocalSnapshotCopier)
  : SR LocalSnapshotCopier :=
  if decide (se_status ss ≠ 0) then mret (lc_set_error (se_status ss) c)
  else
    let '(rc, wr) := wr_add_file filename (Some meta) wr in
    if decide (rc ≠ 0) then mret (lc_set_error EIO (lc_set_writer (Some wr) c))
    else
      sync_meta ← sr_get ss_sync_meta;
      '(rc, wr) ← sr_io (wr_sync sync_meta wr);
      let c := lc_set_writer (Some wr) c in
      mret (if decide (rc ≠ 0) then lc_set_error EIO c else c).

Definition copy_file (filename : list Z) (c : LocalSnapshotCopier) : SR LocalSnapshotCopier :=
  wr ← st_lift (lc_writer c);
  if decide (is_Some (wr_get_file_meta filename wr)) then mret c
  else
    let dirs := path_join (wr_path wr) <$> parents [] filename in
    rc ← sr_io (create_directories dirs);
    let c := if decide (rc ≠ 0) then lc_set_error rc c else c in
    let meta := default no_file_meta (mt_get_file_meta filename (lc_remote_snapshot c)) in
    match sessions filename with
    | SessionCancelled => mret (lc_set_error ECANCELED c)
    | SessionEnded ss =>
        file ← sr_io (open_for_copy (List.last dirs (wr_path wr)) (path_join (wr_path wr) filename));
        match file with
        | None => mret (lc_set_error (-1) c)
        | Some ino =>
            sr_io (session_writes ino (dest_content (se_dest ss)));;
            file_copied filename meta ss wr c
        end
    end.

(** [for (i = 0; i < files.size() && ok(); ++i)]. *)
Fixpoint copy_files (files : list (list Z)) (c : LocalSnapshotCopier) : SR LocalSnapshotCopier :=
  match files with
  | [] => mret c
  | f :: fs => if lc_ok c then c ← copy_file f c; copy_files fs c else mret c
  end.

(** The body of the [do] of [copy]. *)
Definition fetch (c : LocalSnapshotCopier) : SR LocalSnapshotCopier :=
  c ← st_lift (load_meta_table c);
  if negb (lc_ok c) then mret c
  else
    c ← filter c;
    if negb (lc_ok c) || negb (lc_copy_file c) then mret c
    else copy_files (mt_list_files (lc_remote_snapshot c)) c.

(** What follows it: the writer is closed. *)
Definition close_copied (c : LocalSnapshotCopier) : SR LocalSnapshotCopier :=
  match lc_writer c with
  | None => mret c
  | Some wr =>
      let wr := if negb (lc_ok c) && wr_ok wr then wr_set_error (lc_error c) wr else wr in
      rc ← close_writer wr (lc_filter_before_copy_remote c);
      let c := if decide (rc ≠ 0 ∧ lc_error c = 0) then lc_set_error EIO c else c in
      mret (lc_set_writer None c)
  end.

Definition copy (c : LocalSnapshotCopier) : SR LocalSnapshotCopier :=
  c ← fetch c;
  c ← close_copied c;
  if lc_ok c then reader ← ss_open; mret (lc_set_reader reader c) else mret c.

End copier.
