(* ===== verification/SnapshotCopierSpec.v ===== *)
(** * What the copier of snapshots installs

    The copier of SnapshotCopier.v on the storage of Snapshot.v, with sessions
    of the runs of FileCopySpec.v and any system calls failing: the storage
    serves the snapshot of the other server or the one it had. *)

From stdpp Require Import prelude gmap sorting.
From S2P Require Import Prelude Bytes FileSegData StateMonad FileSystem Messages SnapshotFs Snapshot SnapshotWire SnapshotSpec SnapshotRun FileCopy FileCopySpec SnapshotCopier.
Local Open Scope Z_scope.

(** ** Tables *)

(** The table as another server gets it. *)
Definition remote_table (t : LocalSnapshotMetaTable) : LocalSnapshotMetaTable :=
  mkTable (clear_source <$> mt_file_map t) (mt_meta t).

Lemma remote_list_files t : mt_list_files (remote_table t) = mt_list_files t.
Proof.
  unfold mt_list_files, remote_table. cbn. f_equal. rewrite map_to_list_fmap, <-list_fmap_compose.
  apply list_fmap_ext. by intros i [] _.
Qed.

Lemma remote_message t : table_message id (remote_table t) = table_message clear_source t.
Proof.
  unfold table_message. rewrite remote_list_files. unfold remote_table at 1. cbn [mt_meta]. f_equal.
  apply list_omap_ext, Forall_Forall2_diag, Forall_true. intros f. unfold mt_get_file_meta. cbn. rewrite lookup_fmap.
  by destruct (mt_file_map t !! f).
Qed.

Lemma list_files_elem f t : f ∈ mt_list_files t ↔ is_Some (mt_get_file_meta f t).
Proof.
  unfold mt_list_files, mt_get_file_meta. rewrite merge_sort_Permutation, list_elem_of_fmap. split.
  - intros ([g m] & -> & Hin). exists m. by apply elem_of_map_to_list.
  - intros [m Hm]. exists (f, m). split; [done|]. by apply elem_of_map_to_list.
Qed.

Lemma list_files_nodup t : NoDup (mt_list_files t).
Proof. unfold mt_list_files. rewrite merge_sort_Permutation. apply NoDup_fst_map_to_list. Qed.

Lemma parents_flat before f : ch_slash ∉ f → parents before f = [].
Proof.
  revert before. induction f as [|c f IH]; intros before Hf; cbn; [done|]. apply not_elem_of_cons in Hf as [Hc Hf].
  rewrite decide_False by congruence. by apply IH.
Qed.

Section spec.
Context `{PbSnapshot} {Hlaws : PbSnapshotLaws}.
Implicit Types (s : LocalSnapshotStorage) (w : World).
Abbreviation temp_file s f := (path_join (temp_path s) f).

(** ** An empty writer *)

Lemma wr_init_empty G pins top s :
  storage_ok G pins top s → (∀ n, at_or_below (temp_path s) n → lk (ss_world s) n = None) →
  ∃ rc wr w', wr_init (mkWriter (temp_path s) empty_table 0) (ss_world s) = Some ((rc, wr), w') ∧
    storage_ok G pins top (with_ss_world w' s) ∧ (w_writes (ss_world s) = [] → w_writes w' = [] ∧ rc = 0) ∧
    (rc = 0 → wr = mkWriter (temp_path s) empty_table 0 ∧ lk w' (temp_path s) = Some dir_ino ∧
       ∀ f, lk w' (temp_file s f) = None).
Proof.
  intros Hok Hnone. destruct (wr_init_spec G pins top s (mkWriter (temp_path s) empty_table 0) Hok eq_refl) as (rc & wr & w' & E & Hok' & _).
  exists rc, wr, w'. split; [done|]. split; [done|]. unfold wr_init in E. cbn [wr_path wr_meta_table] in E.
  destruct (fs_create_directory_spec (ss_path s) (temp_path s) (ss_world s)) as (b & w1 & H1 & Hwf1 & Hdo1 & Hl1 & _ & Hb & Hq1);
    [apply Hok|apply Hok| |].
  { intros q Hq Hbl. apply below_file in Hbl; [|apply temp_no_slash]. rewrite (at_or_below_antisym q (ss_path s)) by done. apply Hok. }
  rewrite (io_bind_eq _ _ _ _ _ H1) in E. destruct b; cbn [negb] in E.
  2:{ injection E as <- <- <-. split; [|done]. intros Hw. destruct (Hq1 Hw) as [_ Hb']. discriminate (Hb' (or_introl (Hnone _ (at_or_below_refl _)))). }
  specialize (Hb eq_refl).
  assert (∀ f, lk w1 (temp_file s f) = None) as Hn1 by (intros f; rewrite Hl1 by apply path_join_ne; apply Hnone, temp_file_below).
  assert (w_reads w1 = []) as Hr1 by (destruct Hdo1 as (-> & _); apply Hok).
  destruct (fs_path_exists_spec (temp_file s MELON_RAFT_SNAPSHOT_META_FILE) w1 Hr1) as (w2 & H2 & S2).
  rewrite (io_bind_eq _ _ _ _ _ H2), bool_decide_false in E by (rewrite Hn1; apply is_Some_None).
  rewrite io_ret_bind in E. cbv beta iota in E. destruct (decide (0 ≠ 0)) as [?|_]; [done|].
  destruct S2 as (D2 & E2 & W2).
  destruct (fs_directory_reader_spec (ss_path s) (temp_path s) w2) as (names & H3 & Hnames).
  { eapply fs_wf_same; [exact E2|by destruct D2 as (_ & ? & _)|done]. }
  { by destruct D2 as (-> & _). }
  { by rewrite E2. }
  rewrite (io_bind_eq _ _ _ _ _ H3) in E.
  assert (names = []) as ->.
  { destruct names as [|n names]; [done|]. destruct (proj1 (Hnames n) (list_elem_of_here _ _)) as [_ Hs]. rewrite E2, Hn1 in Hs.
    by apply is_Some_None in Hs. }
  rewrite (io_bind_eq _ _ _ tt w2) in E by done. injection E as <- <- <-. split.
  - intros Hw. rewrite W2. split; [by apply Hq1|done].
  - intros _. rewrite E2. by split_and!.
Qed.

Lemma create_empty_spec G top s o :
  snap_inv G (held s) top s →
  ∃ r w', ss_create true (mkStorageRun s o) = Some (r, mkStorageRun (with_ss_world w' s) o) ∧
    snap_inv G (held s) top (with_ss_world w' s) ∧ (w_writes (ss_world s) = [] → w_writes w' = [] ∧ is_Some r) ∧
    ∀ wr, r = Some wr → wr = mkWriter (temp_path s) empty_table 0 ∧ lk w' (temp_path s) = Some dir_ino ∧
      ∀ f, lk w' (temp_file s f) = None.
Proof.
  intros [Hrd Hok]. unfold ss_create. rewrite (st_bind_eq _ _ _ (temp_path s) (mkStorageRun s o)) by done.
  destruct (fs_path_exists_spec (temp_path s) (ss_world s)) as (w1 & H1 & S1); [apply Hok|].
  rewrite (st_bind_eq _ _ _ _ _ (sr_io_eq _ s o _ _ H1)). pose proof (storage_ok_same _ _ _ _ _ Hok S1) as Hok1.
  destruct S1 as (D1 & E1 & W1). rewrite andb_true_r.
  assert (∃ rc w2, (if bool_decide (is_Some (lk (ss_world s) (temp_path s))) then destroy_snapshot (temp_path s) else mret 0)
    (mkStorageRun (with_ss_world w1 s) o) = Some (rc, mkStorageRun (with_ss_world w2 s) o) ∧
    storage_ok G (reader_indexes s ++ held s) top (with_ss_world w2 s) ∧ (w_writes (ss_world s) = [] → rc = 0 ∧ w_writes w2 = []) ∧
    (rc = 0 → ∀ n, at_or_below (temp_path s) n → lk w2 n = None)) as (rc & w2 & H2 & Hok2 & Hq2 & Hnone).
  { case_bool_decide as Hp.
    - destruct (destroy_snapshot_ok G _ top (temp_path s) (with_ss_world w1 s) o Hok1 (temp_unheld _ s)) as (rc & w2 & H2 & Hok2 & _ & Hn & Hq).
      exists rc, w2. split_and!; [done|done| |done]. intros Hw. apply Hq. cbn. by rewrite W1.
    - exists 0, w1. split_and!; [done|done|by rewrite W1|]. intros _ n Hn. rewrite E1. apply eq_None_not_Some. intros Hs. apply Hp.
      destruct Hn as [->|Hn]; [done|]. exists dir_ino. eapply (so_wf _ _ _ _ Hok); [right; apply below_path_join|done|done]. }
  rewrite (st_bind_eq _ _ _ _ _ H2). destruct (decide (rc ≠ 0)) as [Hrc|Hrc].
  { exists None, w2. split_and!; [done|by split|intros Hw; by destruct (Hq2 Hw)|done]. }
  destruct (wr_init_empty G _ top (with_ss_world w2 s) Hok2) as (rc3 & wr & w3 & H3 & Hok3 & Hq3 & Hz3); [apply Hnone; lia|].
  rewrite (st_bind_eq _ _ _ _ _ (sr_io_eq _ (with_ss_world w2 s) o _ _ H3)). cbv beta iota.
  destruct (decide (rc3 ≠ 0)) as [Hrc3|Hrc3]; eexists _, w3; (split; [done|]); (split; [by split|]).
  - split; [|done]. intros Hw. destruct (Hq3 (proj2 (Hq2 Hw))). done.
  - split; [intros Hw; split; [by apply Hq3, Hq2|by eexists]|]. intros ? [= <-]. by apply Hz3; lia.
Qed.

(** ** What is copied *)

(** The snapshot of the other server and the sessions that fetch it. *)
Context (T : LocalSnapshotMetaTable) (RF : list Z → option (list Z)) (meta : SnapshotMetaPb) (sessions : list Z → SessionEnd).
Context (Hmeta : mt_meta T = Some meta) (Hmeta_ok : snapshot_meta_ok meta) (Hsize : zlen (mt_save_to_iobuf_as_remote T) < 2 ^ 31).
Context (Hnames : ∀ f, is_Some (mt_get_file_meta f T) →
  (ch_slash ∉ f) ∧ f ≠ MELON_RAFT_SNAPSHOT_META_FILE ∧ f ≠ MELON_RAFT_SNAPSHOT_META_FILE ++ tmp_suffix).
Context (Hsess : ∀ f ss, sessions f = SessionEnded ss → se_status ss = 0 → source T RF f = Some (dest_content (se_dest ss))).

Abbreviation remote := (remote_table T).

Lemma remote_loads t : mt_load_from_iobuf_as_remote (mt_save_to_iobuf_as_remote T) t = (0, remote).
Proof.
  unfold mt_load_from_iobuf_as_remote, mt_save_to_iobuf_as_remote. rewrite pb_snapshot_roundtrip; [|by cbn; rewrite Hmeta; intros ? [= <-]|done].
  by rewrite <-remote_message, message_table_roundtrip.
Qed.

Lemma remote_table_ok : table_ok remote.
Proof. split; [cbn; rewrite Hmeta; by intros ? [= <-]|]. rewrite remote_message. exact Hsize. Qed.

(** The writer [wr] has the files [got]. *)
Record writing (G : Z → list Z → option (list Z)) (got : list (list Z)) (wr : LocalSnapshotWriter) s : Prop := {
  wg_inv : snap_inv G (held s) (ss_last_snapshot_index s) s;
  wg_path : wr_path wr = temp_path s;
  wg_error : wr_error wr = 0;
  wg_dir : lk (ss_world s) (temp_path s) = Some dir_ino;
  wg_meta : mt_meta (wr_meta_table wr) = Some meta;
  wg_table f : mt_get_file_meta f (wr_meta_table wr) = if decide (f ∈ got) then mt_get_file_meta f remote else None;
  wg_files f : f ∈ got → is_Some (RF f) ∧ lookup_file (ss_world s) (temp_file s f) = RF f;
  wg_fresh f : f ∉ got → f ≠ MELON_RAFT_SNAPSHOT_META_FILE → f ≠ MELON_RAFT_SNAPSHOT_META_FILE ++ tmp_suffix →
    lookup_file (ss_world s) (temp_file s f) = None;
}.

(** The storage while the writer is at work. *)
Definition at_work (G : Z → list Z → option (list Z)) s (c : LocalSnapshotCopier) w' : Prop :=
  snap_inv G (held s) (ss_last_snapshot_index s) (with_ss_world w' s) ∧
  ∀ wr, lc_writer c = Some wr → wr_path wr = temp_path s.

Definition good_names (fs : list (list Z)) : Prop :=
  Forall (λ f, f ≠ MELON_RAFT_SNAPSHOT_META_FILE ∧ f ≠ MELON_RAFT_SNAPSHOT_META_FILE ++ tmp_suffix) fs.

Lemma writer_sync_spec G got wr s sync :
  writing G got wr s → good_names got →
  ∃ rc wr' w', wr_sync sync wr (ss_world s) = Some ((rc, wr'), w') ∧
    snap_inv G (held s) (ss_last_snapshot_index s) (with_ss_world w' s) ∧ wr_path wr' = temp_path s ∧
    (rc = 0 → wr' = wr ∧ writing G got wr (with_ss_world w' s)) ∧ (w_writes (ss_world s) = [] → w_writes w' = [] ∧ rc = 0).
Proof.
  intros [Hinv Hp He Hd Hm Ht Hf Hfr] Hgood.
  destruct (wr_sync_spec G _ _ s wr sync (proj2 Hinv) Hp) as (rc & wr' & w' & E & Hok & Hp' & _ & Hq & Hout & Hkeep & Hcase).
  assert (snap_inv G (held s) (ss_last_snapshot_index s) (with_ss_world w' s)) as Hinv' by (by apply snap_inv_world).
  exists rc, wr', w'. split_and!; [done|done|done| |].
  - intros ->. destruct Hcase as [(_ & Hdir & -> & _)|[? _]]; [|done]. split; [done|]. constructor; try done.
    + intros f Hin. destruct (Hf f Hin) as [Hs Hl]. split; [done|]. rewrite <-Hl. unfold good_names in Hgood. rewrite Forall_forall in Hgood.
      destruct (Hgood f Hin). by apply Hkeep.
    + intros f Hin H1 H2. rewrite <-(Hfr f) by done. by apply Hkeep.
  - intros Hw. split; [by apply Hq|]. by destruct Hcase as [[-> _]|[_ [?|?]]].
Qed.

(** What does not change while the copier works. *)
Definition same_copier (c c' : LocalSnapshotCopier) : Prop :=
  lc_remote_snapshot c' = lc_remote_snapshot c ∧ lc_filter_before_copy_remote c' = lc_filter_before_copy_remote c ∧
  lc_copy_file c' = lc_copy_file c.

(** [filter] without filtering: an empty writer with the meta data. *)
Lemma filter_spec G c s o :
  snap_inv G (held s) (ss_last_snapshot_index s) s → lc_filter_before_copy_remote c = false → lc_error c = 0 →
  lc_writer c = None → lc_remote_snapshot c = remote →
  ∃ c' w', SnapshotCopier.filter c (mkStorageRun s o) = Some (c', mkStorageRun (with_ss_world w' s) o) ∧ same_copier c c' ∧ at_work G s c' w' ∧
    (lc_error c' = 0 → ∃ wr, lc_writer c' = Some wr ∧ writing G [] wr (with_ss_world w' s)) ∧
    (w_writes (ss_world s) = [] → w_writes w' = [] ∧ lc_error c' = 0).
Proof.
  intros Hinv Hfl He Hwr Hr. unfold SnapshotCopier.filter. rewrite Hfl. cbn [negb].
  destruct (create_empty_spec G (ss_last_snapshot_index s) s o Hinv) as (r & w1 & H1 & Hinv1 & Hq1 & Hw1). rewrite (st_bind_eq _ _ _ _ _ H1).
  destruct r as [wr|].
  2:{ eexists _, w1. split; [done|]. split; [done|]. split; [split; [done|cbn; by rewrite Hwr]|]. split; [done|]. intros Hw. destruct (Hq1 Hw) as [_ Hs]. by apply is_Some_None in Hs. }
  destruct (Hw1 wr eq_refl) as (-> & Hdir & Hnone). rewrite (st_bind_eq (mret _) _ _ (Some _) (mkStorageRun (with_ss_world w1 s) o)) by done.
  rewrite Hr. rewrite (st_bind_eq _ _ _ meta (mkStorageRun (with_ss_world w1 s) o)) by (unfold st_lift; cbn; by rewrite Hmeta).
  rewrite (st_bind_eq _ _ _ (ss_sync_meta s) (mkStorageRun (with_ss_world w1 s) o)) by done.
  set (wr := wr_save_meta _ _).
  assert (writing G [] wr (with_ss_world w1 s)) as Hwriting.
  { constructor; try done.
    - by intros f ?%elem_of_nil.
    - intros f _ _ _. unfold lookup_file. change (temp_path (with_ss_world w1 s)) with (temp_path s). cbn [with_ss_world ss_world]. by rewrite Hnone. }
  destruct (writer_sync_spec G [] wr (with_ss_world w1 s) (ss_sync_meta s) Hwriting) as (rc & wr' & w2 & H2 & Hinv2 & Hp2 & Hz2 & Hq2); [by constructor|].
  rewrite (st_bind_eq _ _ _ _ _ (sr_io_eq _ (with_ss_world w1 s) o _ _ H2)). cbv beta iota.
  eexists _, w2. split; [done|]. split; [by case_decide|]. split; [|split].
  - split; [done|]. case_decide; cbn; by intros ? [= <-].
  - case_decide as Hrc; cbn; [done|]. intros _. exists wr'. split; [done|]. destruct (Hz2 ltac:(lia)) as [-> Hok]. exact Hok.
  - intros Hw. destruct (Hq2 (proj1 (Hq1 Hw))) as [Hw2 ->]. by rewrite decide_False by lia.
Qed.

(** A session writes a new file. *)
Lemma new_file_spec G got wr s f content :
  writing G got wr s → f ∉ got → is_Some (mt_get_file_meta f T) →
  ∃ r w1, open_for_copy (temp_path s) (temp_file s f) (ss_world s) = Some (r, w1) ∧
    (w_writes (ss_world s) = [] → w_writes w1 = [] ∧ is_Some r) ∧
    match r with
    | None => snap_inv G (held s) (ss_last_snapshot_index s) (with_ss_world w1 s)
    | Some ino => ∃ w2, session_writes ino content w1 = Some (tt, w2) ∧ w_writes w2 = w_writes w1 ∧
        snap_inv G (held s) (ss_last_snapshot_index s) (with_ss_world w2 s) ∧ lk w2 (temp_path s) = Some dir_ino ∧
        lookup_file w2 (temp_file s f) = Some content ∧
        ∀ g, g ≠ f → lookup_file w2 (temp_file s g) = lookup_file (ss_world s) (temp_file s g)
    end.
Proof.
  intros Hwr Hf HT. destruct (Hnames f HT) as (Hsl & Hn1 & Hn2). pose proof (wg_inv _ _ _ _ Hwr) as Hinv.
  assert (lk (ss_world s) (temp_file s f) = None) as Hnone.
  { pose proof (wg_fresh _ _ _ _ Hwr f Hf Hn1 Hn2) as Hl. unfold lookup_file in Hl. by destruct (lk (ss_world s) _). }
  unfold open_for_copy. rewrite decide_False by (rewrite (wg_dir _ _ _ _ Hwr); auto). rewrite decide_False by (by rewrite Hnone).
  unfold sys_create. destruct (next_write (ss_world s)) as [r w1] eqn:En. apply next_write_same in En as (Hd & Hnx & Hfs & Hrd & Hq).
  assert (∀ w', dir_only w1 w' → w_dir w' = w_dir w1 → storage_ok G (reader_indexes s ++ held s) (ss_last_snapshot_index s) (with_ss_world w' s)) as Hsame.
  { intros w' (Hr' & Hn' & Hf') Hd'. apply storage_ok_unchanged; [apply Hinv|split_and!; congruence|congruence]. }
  assert (storage_ok G (reader_indexes s ++ held s) (ss_last_snapshot_index s) (with_ss_world w1 s)) as Hok1 by (by apply Hsame).
  rewrite Hd, Hnone.
  assert (∃ w2, session_writes (w_next w1) content
      (mkWorld (<[w_next w1 := []]> (w_files w1)) (w_dir (ss_world s) ++ [(temp_file s f, w_next w1)]) (w_next w1 + 1) (w_errno w1) (w_reads w1) (w_writes w1)) =
      Some (tt, w2) ∧ w_writes w2 = w_writes w1 ∧ snap_inv G (held s) (ss_last_snapshot_index s) (with_ss_world w2 s) ∧
      lk w2 (temp_path s) = Some dir_ino ∧ lookup_file w2 (temp_file s f) = Some content ∧
      ∀ g, g ≠ f → lookup_file w2 (temp_file s g) = lookup_file (ss_world s) (temp_file s g)) as Hnew.
  { exists (new_file (temp_file s f) content w1). split; [unfold session_writes, set_files, new_file; cbn; by rewrite insert_insert_eq, Hd|].
    split; [done|].
    assert (lk (ss_world (with_ss_world w1 s)) (temp_path s) = Some dir_ino) as Hdir1 by (cbn; rewrite Hd; apply Hwr).
    assert (lk w1 (temp_file s f) = None) as Hnone1 by (by rewrite Hd).
    destruct (new_file_writes G _ _ (with_ss_world w1 s) f content Hok1 Hdir1 Hnone1 Hsl Hn1 Hn2) as (Hout & Hwf & Hm).
    split; [apply snap_inv_world; [done|]; apply (storage_ok_temp G _ _ (with_ss_world w1 s)); done|].
    split; [rewrite new_file_lookup, decide_False by (done || apply path_join_ne); done|]. split.
    - unfold lookup_file. rewrite new_file_lookup, decide_True by done. unfold new_file, w_content. cbn. by rewrite lookup_insert_eq.
    - intros g Hg. assert (temp_file s f ≠ temp_file s g) as Hne by (intros E; by apply path_join_inj in E).
      unfold lookup_file. rewrite new_file_lookup, decide_False, Hd by done. destruct (lk (ss_world s) (temp_file s g)) as [i|] eqn:Ei; [|done].
      cbn. f_equal. unfold w_content, new_file. cbn. rewrite Hfs. destruct (proj2 Hinv) as [(_ & Hnn & Hino & _) ?].
      apply Hino in Ei. rewrite lookup_insert_ne; [done|]. rewrite Hnx. destruct Ei as [->|Ei]; [unfold dir_ino|]; lia. }
  destruct r as [|k|e]; [eexists (Some _), _|eexists (Some _), _|eexists None, _]; (split; [done|]); split.
  1,3: intros Hw; split; [by apply Hq|by eexists].
  1,2: exact Hnew.
  - intros Hw. by destruct (Hq Hw).
  - apply snap_inv_world; [done|]. by apply Hsame.
Qed.

Lemma good_names_cons f got : is_Some (mt_get_file_meta f T) → good_names got → good_names (f :: got).
Proof. intros HT Hg. constructor; [|done]. by apply Hnames. Qed.

(** What a step of the copier leaves behind. *)
Definition step_ok G s (c c' : LocalSnapshotCopier) w' (got : list (list Z)) (all : Prop) : Prop :=
  same_copier c c' ∧ at_work G s c' w' ∧
  (lc_error c' = 0 → ∃ wr, lc_writer c' = Some wr ∧ writing G got wr (with_ss_world w' s)) ∧
  (w_writes (ss_world s) = [] → all → w_writes w' = [] ∧ lc_error c' = 0).

Definition session_done (f : list Z) : Prop := ∃ ss, sessions f = SessionEnded ss ∧ se_status ss = 0.

Lemma file_copied_spec G got wr c s o f ss w2 :
  writing G got wr s → good_names got → f ∉ got → is_Some (mt_get_file_meta f T) → lc_writer c = Some wr → lc_error c = 0 →
  sessions f = SessionEnded ss →
  snap_inv G (held s) (ss_last_snapshot_index s) (with_ss_world w2 s) → lk w2 (temp_path s) = Some dir_ino →
  lookup_file w2 (temp_file s f) = Some (dest_content (se_dest ss)) →
  (∀ g, g ≠ f → lookup_file w2 (temp_file s g) = lookup_file (ss_world s) (temp_file s g)) →
  ∃ c' w', file_copied f (default no_file_meta (mt_get_file_meta f remote)) ss wr c (mkStorageRun (with_ss_world w2 s) o) =
      Some (c', mkStorageRun (with_ss_world w' s) o) ∧ same_copier c c' ∧ at_work G s c' w' ∧
    (lc_error c' = 0 → ∃ wr', lc_writer c' = Some wr' ∧ writing G (f :: got) wr' (with_ss_world w' s)) ∧
    (w_writes w2 = [] → se_status ss = 0 → w_writes w' = [] ∧ lc_error c' = 0).
Proof.
  intros Hwr Hgood Hf HT Hcw He Hss Hinv2 Hdir2 Hnew2 Hold2. unfold file_copied.
  destruct (decide (se_status ss ≠ 0)) as [Hst|Hst].
  { eexists _, w2. split; [done|]. split; [done|]. split; [split; [done|cbn; rewrite Hcw; intros ? [= <-]; apply Hwr]|]. done. }
  assert (se_status ss = 0) as Hst0 by lia. pose proof (Hsess f ss Hss Hst0) as Hsrc. destruct (Hnames f HT) as (Hsl & Hn1 & Hn2).
  unfold source in Hsrc. rewrite decide_False in Hsrc by done. destruct HT as [m Hm].
  assert (mt_get_file_meta f remote = Some (clear_source m)) as Hmr by (unfold mt_get_file_meta, remote_table in *; cbn; by rewrite lookup_fmap, Hm).
  unfold wr_add_file, mt_add_file. pose proof (wg_table _ _ _ _ Hwr f) as Htf. rewrite decide_False in Htf by done. unfold mt_get_file_meta in Htf.
  rewrite Htf. cbv beta iota. destruct (decide (0 ≠ 0)) as [?|_]; [done|]. rewrite Hmr. cbn [default].
  set (wr1 := wr_set_table _ wr).
  assert (writing G (f :: got) wr1 (with_ss_world w2 s)) as Hwr1.
  { destruct Hwr as [_ Hp He0 _ Hmt Ht Hfi Hfr]. constructor; try done.
    - intros g. unfold wr1, wr_set_table, mt_get_file_meta. cbn [wr_meta_table mt_file_map]. destruct (decide (g = f)) as [->|Hg].
      + rewrite lookup_insert_eq, decide_True by apply list_elem_of_here. done.
      + rewrite lookup_insert_ne by done. specialize (Ht g). unfold mt_get_file_meta in Ht. rewrite Ht.
        destruct (decide (g ∈ got)); [rewrite decide_True by (by right)|rewrite decide_False by (rewrite elem_of_cons; tauto)]; done.
    - intros g. destruct (decide (g = f)) as [->|Hg]; [intros _; rewrite Hsrc; split; [by eexists|done]|].
      intros [->|Hin]%elem_of_cons; [done|]. destruct (Hfi g Hin) as [Hs Hl]. split; [done|]. rewrite <-Hl. by apply Hold2.
    - intros g Hin G1 G2. apply not_elem_of_cons in Hin as [Hg Hin]. rewrite <-(Hfr g) by done. by apply Hold2. }
  rewrite (st_bind_eq _ _ _ (ss_sync_meta s) (mkStorageRun (with_ss_world w2 s) o)) by done.
  destruct (writer_sync_spec G (f :: got) wr1 (with_ss_world w2 s) (ss_sync_meta s) Hwr1) as (rc & wr' & w3 & H3 & Hinv3 & Hp3 & Hz3 & Hq3).
  { apply good_names_cons; [by exists m|done]. }
  rewrite (st_bind_eq _ _ _ _ _ (sr_io_eq _ (with_ss_world w2 s) o _ _ H3)). cbv beta iota.
  eexists _, w3. split; [done|]. split; [by case_decide|]. split; [split; [done|case_decide; cbn; by intros ? [= <-]]|]. split.
  - case_decide as Hrc; cbn; [done|]. intros _. exists wr'. split; [done|]. by destruct (Hz3 ltac:(lia)) as [-> Hok].
  - intros Hw _. destruct (Hq3 Hw) as [Hw3 ->]. by rewrite decide_False by lia.
Qed.

Lemma copy_file_spec G got wr c s o f :
  writing G got wr s → good_names got → f ∉ got → is_Some (mt_get_file_meta f T) →
  lc_writer c = Some wr → lc_error c = 0 → lc_remote_snapshot c = remote →
  ∃ c' w', copy_file sessions f c (mkStorageRun s o) = Some (c', mkStorageRun (with_ss_world w' s) o) ∧
    step_ok G s c c' w' (f :: got) (session_done f).
Proof.
  intros Hwr Hgood Hf HT Hcw He Hr. unfold copy_file.
  rewrite (st_bind_eq _ _ _ wr (mkStorageRun s o)) by (unfold st_lift; by rewrite Hcw).
  pose proof (wg_table _ _ _ _ Hwr f) as Htf. rewrite decide_False in Htf by done. pose proof (wg_path _ _ _ _ Hwr) as Hp.
  destruct (decide (is_Some (wr_get_file_meta f wr))) as [Hs|_].
  { unfold wr_get_file_meta in Hs. rewrite Htf in Hs. by apply is_Some_None in Hs. }
  destruct (Hnames f HT) as (Hsl & _). rewrite parents_flat by done. cbn [fmap list_fmap List.last create_directories].
  rewrite (st_bind_eq (sr_io (mret 0)) _ _ 0 (mkStorageRun (with_ss_world (ss_world s) s) o)) by done.
  assert (with_ss_world (ss_world s) s = s) as -> by (by destruct s). cbv zeta.
  destruct (decide (0 ≠ 0)) as [?|_]; [done|]. rewrite Hr.
  destruct (sessions f) as [|ss] eqn:Ess.
  { eexists _, (ss_world s). split; [by destruct s|]. split; [done|]. split; [split; [destruct s; apply Hwr|cbn; rewrite Hcw; by intros ? [= <-]]|].
    split; [done|]. intros _ (ss & E & _). congruence. }
  destruct (new_file_spec G got wr s f (dest_content (se_dest ss)) Hwr Hf HT) as (r & w1 & H1 & Hq1 & Hr1).
  rewrite Hp. rewrite (st_bind_eq _ _ _ _ _ (sr_io_eq _ s o _ _ H1)). destruct r as [ino|].
  2:{ eexists _, w1. split; [done|]. split; [done|]. split; [split; [done|cbn; rewrite Hcw; by intros ? [= <-]]|]. split; [done|].
      intros Hw _. destruct (Hq1 Hw) as [_ Hs]. by apply is_Some_None in Hs. }
  destruct Hr1 as (w2 & H2 & Hw2 & Hinv2 & Hdir2 & Hnew2 & Hold2).
  rewrite (st_bind_eq _ _ _ _ _ (sr_io_eq _ (with_ss_world w1 s) o _ _ H2)).
  destruct (file_copied_spec G got wr c s o f ss w2) as (c' & w' & E & Hc & Ha & Hz & Hq); try done.
  exists c', w'. split; [exact E|]. split; [done|]. split; [done|]. split; [done|]. intros Hw (ss' & E' & Hst). rewrite Ess in E'. injection E' as <-.
  apply Hq; [rewrite Hw2; by apply Hq1|done].
Qed.

Lemma copy_files_spec G fs got wr c s o :
  writing G got wr s → good_names got → NoDup fs → (∀ f, f ∈ fs → (f ∉ got) ∧ is_Some (mt_get_file_meta f T)) →
  lc_writer c = Some wr → lc_error c = 0 → lc_remote_snapshot c = remote →
  ∃ c' w', copy_files sessions fs c (mkStorageRun s o) = Some (c', mkStorageRun (with_ss_world w' s) o) ∧
    step_ok G s c c' w' (reverse fs ++ got) (Forall session_done fs).
Proof.
  revert got wr c s. induction fs as [|f fs IH]; intros got wr c s Hwr Hgood Hnd Hfs Hcw He Hr.
  { exists c, (ss_world s). assert (with_ss_world (ss_world s) s = s) as Es by (by destruct s).
    split; [cbn; by rewrite Es|]. split; [done|]. split; [split; [rewrite Es; apply Hwr|rewrite Hcw; intros ? [= <-]; apply Hwr]|].
    split; [|done]. intros _. exists wr. by rewrite Es. }
  apply NoDup_cons in Hnd as [Hnf Hnd]. destruct (Hfs f (list_elem_of_here _ _)) as [Hf HT]. cbn [copy_files].
  unfold lc_ok. rewrite bool_decide_true by done.
  destruct (copy_file_spec G got wr c s o f) as (c1 & w1 & H1 & Hc1 & Ha1 & Hz1 & Hq1); try done. rewrite (st_bind_eq _ _ _ _ _ H1).
  destruct (decide (lc_error c1 = 0)) as [He1|He1].
  - destruct (Hz1 He1) as (wr1 & Hcw1 & Hwr1).
    destruct (IH (f :: got) wr1 c1 (with_ss_world w1 s)) as (c2 & w2 & H2 & Hc2 & Ha2 & Hz2 & Hq2); try done.
    + by apply good_names_cons.
    + intros g Hg. destruct (Hfs g ltac:(by right)) as [Hg1 Hg2]. split; [|done]. apply not_elem_of_cons. split; [|done]. by intros ->.
    + destruct Hc1 as (-> & _). done.
    + exists c2, w2. split; [exact H2|]. split; [destruct Hc1 as (?&?&?), Hc2 as (?&?&?); split_and!; congruence|]. split; [done|].
      rewrite reverse_cons, <-app_assoc. split; [done|]. intros Hw Hall. apply Forall_cons in Hall as [Hsf Hall]. apply Hq2; [by apply Hq1|done].
  - exists c1, w1. split; [destruct fs; cbn; unfold lc_ok; by rewrite ?bool_decide_false by done|]. split; [done|]. split; [done|]. split; [done|].
    intros Hw Hall. apply Forall_cons in Hall as [Hsf Hall]. by destruct (Hq1 Hw Hsf).
Qed.

Lemma load_meta_table_spec c :
  lc_error c = 0 →
  ∃ c', load_meta_table sessions c = Some c' ∧ lc_writer c' = lc_writer c ∧
    lc_filter_before_copy_remote c' = lc_filter_before_copy_remote c ∧ lc_copy_file c' = lc_copy_file c ∧
    (lc_error c' = 0 → lc_remote_snapshot c' = remote) ∧ (session_done MELON_RAFT_SNAPSHOT_META_FILE → lc_error c' = 0).
Proof.
  intros He. unfold load_meta_table. destruct (sessions MELON_RAFT_SNAPSHOT_META_FILE) as [|ss] eqn:E.
  { eexists. split; [done|]. split_and!; try done. intros (ss & E' & _). congruence. }
  destruct (decide (se_status ss ≠ 0)) as [Hst|Hst].
  { eexists. split; [done|]. split_and!; try done. intros (ss' & E' & Hst'). rewrite E in E'. by injection E' as <-. }
  pose proof (Hsess _ ss E ltac:(lia)) as Hs. unfold source in Hs. rewrite decide_True in Hs by done. injection Hs as <-.
  rewrite remote_loads. cbv beta iota. destruct (decide (0 ≠ 0)) as [?|_]; [done|].
  rewrite CHECK_true by (cbn; rewrite Hmeta; by eexists). cbn. eexists. split; [done|]. done.
Qed.

Definition all_done : Prop :=
  session_done MELON_RAFT_SNAPSHOT_META_FILE ∧ ∀ f, is_Some (mt_get_file_meta f T) → session_done f.

Lemma fetch_spec G s o :
  snap_inv G (held s) (ss_last_snapshot_index s) s → ss_filter_before_copy_remote s = false → ss_copy_file s = true →
  ∃ c' w', fetch sessions (copier_new s) (mkStorageRun s o) = Some (c', mkStorageRun (with_ss_world w' s) o) ∧ at_work G s c' w' ∧
    lc_filter_before_copy_remote c' = false ∧
    (lc_error c' = 0 → ∃ wr, lc_writer c' = Some wr ∧ writing G (reverse (mt_list_files T)) wr (with_ss_world w' s)) ∧
    (w_writes (ss_world s) = [] → all_done → w_writes w' = [] ∧ lc_error c' = 0).
Proof.
  intros Hinv Hfl Hcf. unfold fetch. assert (with_ss_world (ss_world s) s = s) as Es by (by destruct s).
  destruct (load_meta_table_spec (copier_new s) eq_refl) as (c1 & H1 & Hw1 & Hfl1 & Hcf1 & Hr1 & Hd1). cbn in Hw1, Hfl1, Hcf1.
  rewrite Hfl in Hfl1. rewrite Hcf in Hcf1.
  rewrite (st_bind_eq _ _ _ c1 (mkStorageRun s o)) by (unfold st_lift; by rewrite H1). unfold lc_ok at 1.
  case_bool_decide as He1; cbn [negb].
  2:{ exists c1, (ss_world s). rewrite Es. split; [done|]. split; [split; [by rewrite Es|by rewrite Hw1]|]. do 2 (split; [done|]).
      intros _ [Hm _]. by apply Hd1 in Hm. }
  destruct (filter_spec G c1 s o Hinv Hfl1 He1 Hw1 (Hr1 He1)) as (c2 & w2 & H2 & Hc2 & Ha2 & Hz2 & Hq2). rewrite (st_bind_eq _ _ _ _ _ H2).
  destruct Hc2 as (Hr2 & Hfl2 & Hcf2). unfold lc_ok. case_bool_decide as He2; cbn [negb orb].
  2:{ exists c2, w2. split; [done|]. split; [done|]. split; [congruence|]. split; [done|]. intros Hw _. by destruct (Hq2 Hw). }
  rewrite Hcf2, Hcf1, Hr2, (Hr1 He1), remote_list_files. cbn [negb].
  destruct (Hz2 He2) as (wr & Hcw & Hwr).
  destruct (copy_files_spec G (mt_list_files T) [] wr c2 (with_ss_world w2 s) o) as (c3 & w3 & H3 & Hc3 & Ha3 & Hz3 & Hq3); try done.
  { by constructor. }
  { apply list_files_nodup. }
  { intros f Hf. split; [apply not_elem_of_nil|by apply list_files_elem]. }
  { rewrite Hr2. auto. }
  rewrite app_nil_r in Hz3. exists c3, w3. split; [exact H3|]. split; [done|]. split; [destruct Hc3 as (_ & -> & _); congruence|]. split; [done|].
  intros Hw [_ Hall]. destruct (Hq2 Hw) as [Hw2 _]. apply Hq3; [done|]. apply Forall_forall. intros f Hf. apply Hall. by apply list_files_elem.
Qed.

(** All files have arrived. *)
Lemma writing_all G wr s :
  writing G (reverse (mt_list_files T)) wr s → wr_meta_table wr = remote ∧ wr_snapshot_index wr = smp_last_included_index meta.
Proof.
  intros Hwr. assert (wr_meta_table wr = remote) as E.
  { destruct (wr_meta_table wr) as [m mm] eqn:Et. unfold remote_table. f_equal.
    - apply map_eq. intros f. pose proof (wg_table _ _ _ _ Hwr f) as Hf. rewrite Et in Hf. unfold mt_get_file_meta, remote_table in Hf. cbn in Hf. rewrite Hf.
      case_decide as Hin; [done|]. rewrite elem_of_reverse, list_files_elem in Hin. apply eq_None_not_Some in Hin. unfold mt_get_file_meta in Hin.
      by rewrite lookup_fmap, Hin.
    - pose proof (wg_meta _ _ _ _ Hwr) as Hm. rewrite Et in Hm. cbn in Hm. by rewrite Hmeta. }
  split; [done|]. unfold wr_snapshot_index. by rewrite (wg_meta _ _ _ _ Hwr).
Qed.

(** The snapshot of the other server. *)
Definition installed (v : SnapshotView) : Prop :=
  vw_index v = smp_last_included_index meta ∧ vw_table v = remote ∧
  ∀ f, is_Some (mt_get_file_meta f T) → is_Some (RF f) ∧ vw_files v f = RF f.

Lemma written_installed G wr s v : writing G (reverse (mt_list_files T)) wr s → writer_view wr s v → installed v.
Proof.
  intros Hwr (Hi & Ht & _ & _ & Hf). destruct (writing_all G wr s Hwr) as [Et Ei]. split_and!; [congruence|congruence|].
  intros f HT. destruct (Hnames f HT) as (_ & H1 & H2). rewrite Hf by done. apply (wg_files _ _ _ _ Hwr). by apply elem_of_reverse, list_files_elem.
Qed.

(** ** Closing and opening *)

(** A reader shows what the storage serves. *)
Definition reader_of s (reader : option Z) (v : option SnapshotView) : Prop :=
  match reader, v with
  | Some id, Some v => ∃ rd, ss_readers s !! id = Some rd ∧ shows s rd v
  | None, None => True
  | _, _ => False
  end.

Lemma open_serves G s o v :
  snap_inv G (held s) (ss_last_snapshot_index s) s → reader_calls o → serves s v →
  ∃ r s' o', ss_open (mkStorageRun s o) = Some (r, mkStorageRun s' o') ∧ serves s' v ∧ reader_of s' r v.
Proof.
  intros Hinv Ho Hv. unfold ss_open. destruct (sr_lock_spec G (held s) _ s o Hinv (held_last s) Ho) as (s1 & o1 & H1 & _ & Hinv1 & Hf1 & _).
  rewrite (st_bind_eq _ _ _ _ _ H1). destruct (open_locked_spec G _ _ s1 o1 Hinv1) as (r & s2 & H2 & Hinv2 & Hf2 & Hcase).
  exists r, s2, o1. split; [exact H2|].
  assert (ss_last_snapshot_index s1 = ss_last_snapshot_index s) as L1 by apply Hf1.
  assert (ss_last_snapshot_index s2 = ss_last_snapshot_index s) as L2 by (rewrite <-L1; apply Hf2).
  assert (serves s2 v) as Hv2 by (by eapply (serves_same G _ _ s)). split; [done|].
  destruct v as [v|].
  - destruct (serves_view G _ _ s2 v Hinv2 Hv2) as (Hi & Hiv & Ht & Hfv). rewrite decide_False in Hcase by (unfold index_ok in Hi; lia).
    destruct Hcase as (id & rd & -> & _ & Hrds & Hp & Htr). exists rd. assert (ss_readers s2 !! id = Some rd) as Hid by (by rewrite Hrds, lookup_insert_eq).
    split; [done|]. destruct (reader_shows G _ _ s2 id rd Hinv2 Hid) as (i & _ & Hti & Hpi & Hsi & _ & Hfi). cbn [vw_index vw_files] in Hsi, Hfi.
    assert (rd_snapshot_index rd = Some (vw_index v)) as Hidx.
    { eapply rd_snapshot_index_eq; [done|]. rewrite Hp, Hiv, L2, <-L1. done. }
    rewrite Hidx in Hsi. injection Hsi as <-. split; [done|]. split; [by eapply has_table_unique|]. intros f. by rewrite Hfi, Hfv.
  - destruct Hv2 as [Hz _]. cbn in Hz. rewrite decide_True in Hcase by lia. destruct Hcase as [-> _]. done.
Qed.

Lemma close_copied_spec G s o v c :
  snap_inv G (held s) (ss_last_snapshot_index s) s → serves s v → reader_calls o →
  index_ok (smp_last_included_index meta) → ss_last_snapshot_index s < smp_last_included_index meta →
  (∀ wr, lc_writer c = Some wr → wr_path wr = temp_path s) →
  (lc_error c = 0 → ∃ wr, lc_writer c = Some wr ∧ writing G (reverse (mt_list_files T)) wr s) →
  ∃ c2 s2 o2 v2 G2, close_copied c (mkStorageRun s o) = Some (c2, mkStorageRun s2 o2) ∧ reader_calls o2 ∧ lc_writer c2 = None ∧
    snap_inv G2 (held s2) (ss_last_snapshot_index s2) s2 ∧ serves s2 v2 ∧
    (v2 = v ∨ lc_error c2 = 0 ∧ ∃ new, v2 = Some new ∧ installed new) ∧
    (w_writes (ss_world s) = [] → lc_error c = 0 → lc_error c2 = 0 ∧ ∃ new, v2 = Some new ∧ installed new).
Proof.
  intros Hinv Hv Ho Hi Hlt Hp Hz. unfold close_copied. destruct (lc_writer c) as [wr0|] eqn:Ew.
  2:{ assert (lc_error c ≠ 0) as He by (intros E; destruct (Hz E) as (? & ? & _); congruence).
      exists c, s, o, v, G. split; [done|]. split; [done|]. split; [done|]. split; [done|]. split; [done|]. split; [by left|done]. }
  cbv zeta. match goal with |- context [close_writer ?x _] => set (wr := x) end.
  assert (wr_path wr = temp_path s) as Hpw by (unfold wr; destruct (_ && _); exact (Hp wr0 eq_refl)).
  assert (wr_error wr = 0 → lc_error c = 0 ∧ wr = wr0) as Hwe.
  { unfold wr, lc_ok, wr_ok. repeat case_bool_decide; cbn; intros E; try done. }
  assert (lc_error c = 0 → wr = wr0 ∧ writing G (reverse (mt_list_files T)) wr s) as Hw0.
  { intros E. destruct (Hz E) as (wr1 & E1 & Hwr1). injection E1 as ->. unfold wr, lc_ok. rewrite bool_decide_true by done. done. }
  assert (writer_ok wr s) as Hwok.
  { split; [done|]. intros E. destruct (Hwe E) as [Ec _]. destruct (Hw0 Ec) as [_ Hwr]. destruct (writing_all _ _ _ Hwr) as [Et Ei].
    rewrite Et, Ei. split; [apply remote_table_ok|by right]. }
  destruct (close_writer_spec G wr (lc_filter_before_copy_remote c) s o Hinv Hwok Ho) as (rc & s2 & o2 & H2 & Ho2 & Hcase & Hq).
  rewrite (st_bind_eq _ _ _ _ _ H2).
  assert (replaced G wr s s2 → wr_error wr = 0 → ∃ G2 new, snap_inv G2 (held s2) (ss_last_snapshot_index s2) s2 ∧ serves s2 (Some new) ∧ installed new) as Hrep.
  { intros Hrep E. destruct (Hw0 (proj1 (Hwe E))) as [_ Hwr]. destruct (replaced_serves G wr s s2 Hrep) as (G2 & new & ? & ? & Hn).
    - by apply Hwok.
    - exists G2, new. split; [done|]. split; [done|]. by eapply written_installed. }
  destruct Hcase as [(Hr & He & ->)|[Hc Hinv2]].
  - destruct (Hrep Hr He) as (G2 & new & Hinv2 & Hs2 & Hnew). destruct (Hwe He) as [Ec _]. eexists _, s2, o2, (Some new), G2.
    rewrite (decide_False (P := 0 ≠ 0 ∧ lc_error c = 0)) by tauto. split; [done|]. cbn. rewrite Ec.
    split; [done|]. split; [done|]. split; [done|]. split; [done|]. split; [right|]; eauto.
  - eexists _, s2, o2, v, G. split; [done|]. split; [done|]. split; [by case_decide|].
    assert (ss_last_snapshot_index s2 = ss_last_snapshot_index s) as Hl by apply Hc.
    split; [by rewrite Hl, (held_conf _ _ Hc)|]. split; [by eapply (serves_same G _ _ s)|]. split; [by left|]. intros Hw Ec.
    destruct (Hw0 Ec) as [_ Hwr]. destruct (writing_all _ _ _ Hwr) as [_ Ei].
    destruct (proj2 (Hq Hw) (wg_error _ _ _ _ Hwr) (wg_dir _ _ _ _ Hwr)) as [(_ & _ & Hc' & _) _]; [lia|].
    assert (ss_last_snapshot_index s2 = wr_snapshot_index wr) by apply Hc'. lia.
Qed.

Lemma copy_spec s o v :
  snap_reach (mkSnapRun s None) → serves s v → reader_calls o →
  ss_filter_before_copy_remote s = false → ss_copy_file s = true →
  index_ok (smp_last_included_index meta) → ss_last_snapshot_index s < smp_last_included_index meta →
  ∃ c s' o' v', copy sessions (copier_new s) (mkStorageRun s o) = Some (c, mkStorageRun s' o') ∧ lc_writer c = None ∧ serves s' v' ∧
    (v' = v ∨ lc_error c = 0 ∧ ∃ new, v' = Some new ∧ installed new) ∧
    (lc_error c = 0 → reader_of s' (lc_reader c) v') ∧
    (w_writes (ss_world s) = [] → all_done → lc_error c = 0 ∧ ∃ new, v' = Some new ∧ installed new).
Proof.
  intros [G [Hinv _]]%snap_reach_ok Hv Ho Hfl Hcf Hi Hlt. cbn in Hinv. unfold copy.
  destruct (fetch_spec G s o Hinv Hfl Hcf) as (c1 & w1 & H1 & [Hinv1 Hp1] & Hfl1 & Hz1 & Hq1). rewrite (st_bind_eq _ _ _ _ _ H1).
  destruct (close_copied_spec G (with_ss_world w1 s) o v c1) as (c2 & s2 & o2 & v2 & G2 & H2 & Ho2 & Hw2 & Hinv2 & Hv2 & Hcase & Hq2); try done.
  { by eapply (serves_same G _ _ s). }
  rewrite (st_bind_eq _ _ _ _ _ H2). unfold lc_ok. case_bool_decide as He.
  - destruct (open_serves G2 s2 o2 v2 Hinv2 Ho2 Hv2) as (r & s3 & o3 & H3 & Hv3 & Hr3). rewrite (st_bind_eq _ _ _ _ _ H3).
    eexists _, s3, o3, v2. split; [done|]. cbn [lc_set_reader lc_writer lc_error lc_reader]. split_and!; try done.
    intros Hw Hall. destruct (Hq1 Hw Hall) as [Hw1 He1]. by apply Hq2.
  - exists c2, s2, o2, v2. split; [done|]. split_and!; try done. intros Hw Hall. destruct (Hq1 Hw Hall) as [Hw1 He1]. by apply Hq2.
Qed.
End spec.

(** ** From one server to another *)

(** The session for the file [f] is one of a run with the file service of the
    server that has the snapshot. *)
Definition session_of `{PbSnapshot} (T : LocalSnapshotMetaTable) (RF : list Z → option (list Z)) (sv : FileServiceImpl)
    (f : list Z) (e : SessionEnd) : Prop :=
  match e with
  | SessionCancelled => True
  | SessionEnded ss =>
      ∃ r, rtc (copy_step (sv_next_id sv) false) (mkCopyRun (service_with_reader T RF sv) [] [] None) r ∧
        cr_session r = Some ss ∧ se_finished ss = true ∧ se_filename ss = f
  end.

(** A snapshot whose files are in one directory, beside the meta file. *)
Record snapshot_ok `{PbSnapshot} (T : LocalSnapshotMetaTable) (RF : list Z → option (list Z)) (meta : SnapshotMetaPb) : Prop := {
  sn_meta : mt_meta T = Some meta;
  sn_meta_ok : snapshot_meta_ok meta;
  sn_size : zlen (mt_save_to_iobuf_as_remote T) < 2 ^ 31;
  sn_names f : is_Some (mt_get_file_meta f T) →
    (ch_slash ∉ f) ∧ f ≠ [] ∧ f ≠ MELON_RAFT_SNAPSHOT_META_FILE ∧ f ≠ MELON_RAFT_SNAPSHOT_META_FILE ++ tmp_suffix;
  sn_source f F : source T RF f = Some F → bytes F ∧ zlen F < 2 ^ 63;
}.

Lemma session_content `{PbSnapshot} T RF meta sv sessions f ss :
  snapshot_ok T RF meta → session_of T RF sv f (sessions f) → sessions f = SessionEnded ss → se_status ss = 0 →
  source T RF f = Some (dest_content (se_dest ss)).
Proof.
  intros Hsn Hss E Hst. rewrite E in Hss. destruct Hss as (r & Hrun & Hr & Hfin & <-).
  assert (∀ f F, source T RF f = Some F → bytes F ∧ zlen F < 2 ^ 63 ∧ (f = MELON_RAFT_SNAPSHOT_META_FILE → zlen F < 2 ^ 32)) as Hsrc.
  { intros f F HF. destruct (sn_source _ _ _ Hsn f F HF) as [Hb Hl]. split; [done|]. split; [done|]. intros ->.
    unfold source in HF. rewrite decide_True in HF by done. injection HF as <-. pose proof (sn_size _ _ _ Hsn). lia. }
  assert (mt_get_file_meta [] T = None) as Hno.
  { apply eq_None_not_Some. intros Hs. by destruct (sn_names _ _ _ Hsn [] Hs) as (_ & ? & _). }
  destruct (runs_ok T RF (sv_next_id sv) false Hsrc Hno _ _ Hrun) as [_ _ Hse].
  { constructor; cbn; [by apply service_with_reader_ok|done|done]. }
  destruct (sk_finished _ _ _ _ _ (Hse ss Hr) Hfin Hst) as (F & HF & [_ Hx]). by rewrite HF, Hx.
Qed.

(** C32. Copying a snapshot from another server, all files anew: the storage does
    not filter before it copies ([filter_before_copy_remote] is off) and copies
    files ([copy_file] is on), the file names have no directories, and the
    snapshot is newer than the one of the storage.  Whatever fails on the way or
    on the disk, and whatever other threads do with readers, the storage then
    serves the snapshot it had or the one of the other server, with its table
    and all its files, and the second only when the copier reports success; a
    copier that reports success hands out a reader of what is served.  When
    nothing fails, it is the snapshot of the other server. *)
Theorem snapshot_copied `{PbSnapshot} {Hlaws : PbSnapshotLaws} T RF meta sv sessions s o v :
  snapshot_ok T RF meta → (∀ f, session_of T RF sv f (sessions f)) →
  snap_reach (mkSnapRun s None) → serves s v → reader_calls o →
  ss_filter_before_copy_remote s = false → ss_copy_file s = true →
  index_ok (smp_last_included_index meta) → ss_last_snapshot_index s < smp_last_included_index meta →
  ∃ c s' o' v', copy sessions (copier_new s) (mkStorageRun s o) = Some (c, mkStorageRun s' o') ∧ lc_writer c = None ∧ serves s' v' ∧
    (v' = v ∨ lc_error c = 0 ∧ ∃ new, v' = Some new ∧ installed T RF meta new) ∧
    (lc_error c = 0 → reader_of s' (lc_reader c) v') ∧
    (w_writes (ss_world s) = [] → all_done T sessions → lc_error c = 0 ∧ ∃ new, v' = Some new ∧ installed T RF meta new).
Proof.
  intros Hsn Hss. apply copy_spec; try apply Hsn.
  - intros f Hf. destruct (sn_names _ _ _ Hsn f Hf) as (? & _ & ? & ?). done.
  - intros f ss E Hst. by eapply session_content.
Qed.
