(* ===== verification/SnapshotCopierRuns.v ===== *)
(** * Copying snapshots: concrete runs

    A snapshot is copied from the service of FileCopyRuns.v into the storage of
    SnapshotRun.v.  With [_filter_before_copy_remote], files that are reused
    by their checksum can end up wrong: two runs. *)

From Stdlib Require Import String.
From stdpp Require Import prelude gmap.
From S2P Require Import Prelude Bytes Text FileSegData StateMonad FileSystem Messages SnapshotFs Snapshot SnapshotWire SnapshotSpec SnapshotRun FileCopy FileCopySpec FileCopyRuns SnapshotCopier SnapshotCopierSpec.
Local Open Scope Z_scope.

(** ** A copy *)

Module CopierExample.
Import CopyExample.

Definition meta : SnapshotMetaPb := mkSnapshotMetaPb 7 2 [] [].
Definition meta_run : list CopyCmd :=
  [CmdStart MELON_RAFT_SNAPSHOT_META_FILE false;
   CmdAsk (mkGetFileRequest 1 MELON_RAFT_SNAPSHOT_META_FILE UINT_MAX 0 true) None; CmdAnswer].

Definition run_for (f : list Z) : list CopyCmd := if decide (f = MELON_RAFT_SNAPSHOT_META_FILE) then meta_run else run.

(** The session for [f] at the end of its run. *)
Definition session_for (f : list Z) : SessionEnd :=
  match copy_execs 1 (run_for f) (mkCopyRun (service_with_reader table files service) [] [] None) with
  | Some (mkCopyRun _ _ _ (Some ss)) =>
      if decide (se_filename ss = f ∧ se_finished ss = true) then SessionEnded ss else SessionCancelled
  | _ => SessionCancelled
  end.

Lemma session_for_of f : session_of table files service f (session_for f).
Proof.
  unfold session_for. destruct (copy_execs 1 (run_for f) _) as [[sv jobs ans [ss|]]|] eqn:E; [|done|done].
  case_decide as Hd; [|done]. eexists. split; [by eapply copy_execs_steps|]. by destruct Hd.
Qed.

Lemma example_snapshot_ok : snapshot_ok table files meta.
Proof.
  constructor; [reflexivity|by vm_compute|by vm_compute| |].
  - intros f Hf. unfold mt_get_file_meta, table in Hf. cbn [mt_file_map] in Hf. destruct (decide (f = name)) as [->|Hne].
    + split; [vm_compute; set_solver|]. by vm_compute.
    + rewrite lookup_singleton_ne in Hf by congruence. destruct (is_Some_None Hf).
  - intros f F HF. destruct (example_source f F HF) as (? & ? & _). done.
Qed.

(** The storage has the snapshot at 5, which a reader holds; another thread
    opens a reader too. *)
Definition local : LocalSnapshotStorage := SnapshotRun.Example.s2.

Lemma snapshot_copied_witness :
  ∃ c s' o' new, copy session_for (copier_new local) (mkStorageRun local [reader_call OtherOpen]) = Some (c, mkStorageRun s' o') ∧
    lc_error c = 0 ∧ serves s' (Some new) ∧ vw_index new = 7 ∧ vw_files new name = Some content.
Proof.
  destruct (reach_serves _ SnapshotRun.Example.s2_reach) as [v Hv].
  destruct (snapshot_copied table files meta service session_for local [reader_call OtherOpen] v example_snapshot_ok session_for_of)
    as (c & s' & o' & v' & E & _ & Hs & _ & _ & Hall); [exact SnapshotRun.Example.s2_reach|exact Hv| |vm_compute; reflexivity|vm_compute; reflexivity|by vm_compute|by vm_compute|].
  - constructor; [by exists OtherOpen|constructor].
  - destruct Hall as (He & new & -> & Hi & _ & Hf); [by vm_compute| |].
    + split; [eexists; split; [vm_compute; reflexivity|reflexivity]|]. intros f Hf. destruct (decide (f = name)) as [->|Hne].
      * eexists. split; [vm_compute; reflexivity|reflexivity].
      * unfold mt_get_file_meta, table in Hf. cbn [mt_file_map] in Hf. rewrite lookup_singleton_ne in Hf by congruence. destruct (is_Some_None Hf).
    + exists c, s', o', new. split; [exact E|]. split; [exact He|]. split; [exact Hs|]. split; [exact Hi|].
      rewrite (proj2 (Hf name (ex_intro _ _ eq_refl))). reflexivity.
Defined.

End CopierExample.

(** ** Reused files *)

Module FilterExample.
Import SnapshotRun.Example.

Definition more : list Z := chars "more"%string.

(** A file of another server: its name, checksum and content, or the error its
    session ends with. *)
Definition RemoteFile : Type := list Z * list Z * (list Z + Z).

Definition table_of (index : Z) (fs : list RemoteFile) : LocalSnapshotMetaTable :=
  mkTable (list_to_map ((λ f, (f.1.1, mkLocalFileMeta None None (Some f.1.2))) <$> fs)) (Some (mkSnapshotMetaPb index 1 [] [])).

Definition ended (f : list Z) (status : Z) (d : CopyDest) : SessionEnd := SessionEnded (mkSession 1 f true d 0 0 0 status true WaitNone).

Definition sessions_of (index : Z) (fs : list RemoteFile) (f : list Z) : SessionEnd :=
  if decide (f = MELON_RAFT_SNAPSHOT_META_FILE) then ended f 0 (DestBuf (mt_save_to_iobuf_as_remote (table_of index fs)))
  else
    match list_find (λ r, r.1.1 = f) fs with
    | Some (_, (_, inl content)) => ended f 0 (DestFile content)
    | Some (_, (_, inr status)) => ended f status (DestFile [])
    | None => SessionCancelled
    end.

(** The storage after a copy, and its error. *)
Definition copied_from (index : Z) (fs : list RemoteFile) (s : LocalSnapshotStorage) : Z * LocalSnapshotStorage :=
  let '(c, s) := call (copier_new s) (copy (sessions_of index fs) (copier_new s)) s in (lc_error c, s).

Definition faults (script : list SysResult) (s : LocalSnapshotStorage) : LocalSnapshotStorage :=
  with_ss_world (with_writes script (ss_world s)) s.

Definition sum_x : list Z := chars "x"%string.
Definition sum_z : list Z := chars "z"%string.

(** The snapshot at 5 has [1; 2; 3] with the checksum "x". *)
Definition start : LocalSnapshotStorage := ss_new root true true (mkWorld ∅ [(root, dir_ino)] 0 0 [] []).
Definition at_5 : LocalSnapshotStorage := (copied_from 5 [(data, sum_x, inl [1; 2; 3])] start).2.

Example at_5_served : ss_last_snapshot_index at_5 = 5 ∧ lookup_file (ss_world at_5) (path_join (snapshot_path 5 at_5) data) = Some [1; 2; 3].
Proof. vm_compute. done. Qed.

(** A copy of the snapshot at 7 fails after the file with the checksum "z"; the
    next one, at 8, finds the file of the checksum "x" in the last snapshot and
    the server crashes between the link and the sync of the table. *)
Definition at_7_failed : LocalSnapshotStorage := (copied_from 7 [(data, sum_z, inl [9]); (more, sum_x, inr 110)] at_5).2.
Definition at_8_crashed : LocalSnapshotStorage :=
  (copied_from 8 [(data, sum_x, inl [1; 2; 3])] (faults (replicate 3 SysDone ++ replicate 40 (SysError EIO)) at_7_failed)).2.
Definition restarted : LocalSnapshotStorage := (call 0 ss_init (ss_reopen true true at_8_crashed)).2.

(** The snapshot at 9 has [9] with the checksum "z", which the table in [temp]
    still claims: it is installed with the other file. *)
Example filter_keeps_wrong_file :
  let '(error, s) := copied_from 9 [(data, sum_z, inl [9])] restarted in
  error = 0 ∧ ss_last_snapshot_index s = 9 ∧ lookup_file (ss_world s) (path_join (snapshot_path 9 s) data) = Some [1; 2; 3].
Proof. vm_compute. done. Qed.

(** A copy fails after a file was linked from the last snapshot.  The next one
    needs another file of that name; the link cannot be removed, which is
    ignored, and the file is overwritten in the last snapshot. *)
Definition linked : LocalSnapshotStorage := (copied_from 7 [(data, sum_x, inl [1; 2; 3]); (more, sum_x, inr 110)] at_5).2.

Example copy_overwrites_last_snapshot :
  let '(error, s) := copied_from 8 [(data, sum_z, inl [9]); (more, sum_x, inr 110)] (faults (replicate 6 SysDone ++ [SysError EIO]) linked) in
  error = 110 ∧ ss_last_snapshot_index s = 5 ∧ lookup_file (ss_world s) (path_join (snapshot_path 5 s) data) = Some [9].
Proof. vm_compute. done. Qed.

(** The table cannot be saved when the writer is closed: the copier reports
    success and has a reader of the old snapshot. *)
Example copy_ok_without_snapshot :
  let '(c, s) := call (copier_new at_5) (copy (sessions_of 7 [(data, sum_z, inl [9])]) (copier_new at_5))
    (faults (replicate 17 SysDone ++ [SysError ENOSPC]) at_5) in
  lc_error c = 0 ∧ ss_last_snapshot_index s = 5 ∧
  (id ← lc_reader c; rd ← ss_readers s !! id; rd_snapshot_index rd) = Some 5.
Proof. vm_compute. done. Qed.

End FilterExample.
