(* ===== verification/LocalStore.v ===== *)
(** * The local storage under the snapshot executor

    [LocalSnapshotStorage] with its writer and its copier as an instance of the
    classes of storage.h ([SnapshotStorage] of SnapshotExecutor.v), and the laws
    the executor relies on ([SnapshotStorageLaws]): what SnapshotExecutorSpec.v
    shows of any storage holds of this one.

    Other users of the storage run between the calls of the executor, and the
    copier does its work, which is [copy] of SnapshotCopier.v, in a step of its
    own.  The snapshots it is given are newer than the last one.  Files are not
    filtered before they are copied, and they are copied. *)

From stdpp Require Import prelude gmap sorting.
From S2P Require Import Prelude Bytes StateMonad FileSystem Messages SnapshotFs Snapshot SnapshotSpec SnapshotRun FileCopy FileCopySpec SnapshotCopier SnapshotCopierSpec SnapshotExecutor SnapshotExecutorSpec.
Local Open Scope Z_scope.

Section local.
Context `{PbSnapshot}.
Implicit Types (st : LocalSnapshotStorage).

(** ** What calls leave alone *)

(** The readers and the settings, without other threads. *)
Definition keeps st st' : Prop :=
  ss_readers st' = ss_readers st ∧ ss_path st' = ss_path st ∧
  ss_filter_before_copy_remote st' = ss_filter_before_copy_remote st ∧ ss_copy_file st' = ss_copy_file st.

Definition run_keeps (r r' : StorageRun) : Prop :=
  sr_others r = [] → sr_others r' = [] ∧ keeps (sr_storage r) (sr_storage r').

#[local] Instance run_keeps_preorder : PreOrder run_keeps.
Proof.
  split; [done|]. intros r1 r2 r3 H12 H23 E. destruct (H12 E) as [E2 (?&?&?&?)]. destruct (H23 E2) as [E3 (?&?&?&?)].
  split; [done|]. split_and!; congruence.
Qed.

Lemma keeps_get {A} (f : LocalSnapshotStorage → A) : st_rel run_keeps (sr_get f).
Proof. apply st_rel_get, _. Qed.

Lemma keeps_mod f : (∀ st, keeps st (f st)) → st_rel run_keeps (sr_mod f).
Proof. intros Hf. apply st_rel_mod. intros r E. by split; [|apply Hf]. Qed.

Lemma keeps_io {A} (m : IO A) : st_rel run_keeps (sr_io m).
Proof.
  intros r a r'. unfold sr_io. destruct (m (ss_world (sr_storage r))) as [[b w]|]; cbn; [|done]. intros [= <- <-]. done.
Qed.

Lemma keeps_lock : st_rel run_keeps sr_lock.
Proof. apply st_rel_mod. intros r E. by rewrite E. Qed.

Ltac keeps_step :=
  match goal with
  | |- st_rel _ (_ ≫= _) => apply st_rel_bind; [apply _| |intros ?]
  | |- st_rel _ (mret _) => apply st_rel_ret, _
  | |- st_rel _ (st_lift _) => apply st_rel_lift, _
  | |- st_rel _ (st_check _) => apply st_rel_check, _
  | |- st_rel _ (sr_get _) => apply keeps_get
  | |- st_rel _ (sr_mod _) => apply keeps_mod; done
  | |- st_rel _ (sr_io _) => apply keeps_io
  | |- st_rel _ sr_lock => apply keeps_lock
  | |- st_rel _ (if ?b then _ else _) => destruct b
  | |- st_rel _ (match ?x with _ => _ end) => destruct x
  | |- st_rel _ (let _ := _ in _) => cbv zeta
  end.
Ltac keeps_solve := repeat keeps_step.

Lemma ss_unref_keeps i : st_rel run_keeps (ss_unref i).
Proof. unfold ss_unref, unref_locked, destroy_snapshot. keeps_solve. Qed.

Lemma close_writer_keeps wr keep : st_rel run_keeps (close_writer wr keep).
Proof.
  unfold close_writer, publish, place_snapshot, destroy_snapshot, ss_ref. repeat (apply ss_unref_keeps || keeps_step).
Qed.

Lemma close_copied_keeps c : st_rel run_keeps (close_copied c).
Proof. unfold close_copied. repeat (apply close_writer_keeps || keeps_step). Qed.

Lemma ss_init_keeps : st_rel run_keeps ss_init.
Proof.
  assert (∀ l, st_rel run_keeps (delete_old_snapshots l)) as Hdel.
  { induction l as [|i l IH]; [apply st_rel_ret, _|]. destruct l as [|j l]; [apply st_rel_ret, _|].
    change (delete_old_snapshots (i :: j :: l)) with (path ← sr_get (snapshot_path i);
      deleted ← sr_io (fs_delete_file path true);
      if (deleted : bool) then delete_old_snapshots (j :: l) else mret (EIO, 0)). repeat (apply IH || keeps_step). }
  unfold ss_init, find_last_snapshot, ss_ref. repeat (apply Hdel || keeps_step).
Qed.

(** ** The storage and what is used of it *)

Inductive LocalUse :=
  | LocalFree
  | LocalWriter (wr : LocalSnapshotWriter)
  (** A copier at work, and one that has finished. *)
  | LocalCopying
  | LocalCopied (c : LocalSnapshotCopier).

(** [lo_readers] are the readers given to the executor or to be given to it. *)
Record LocalStore := mkLocalStore {
  lo_storage : LocalSnapshotStorage;
  lo_use : LocalUse;
  lo_readers : gset Z;
}.

Implicit Types (s : LocalStore).

Definition lo_with_use (u : LocalUse) s : LocalStore := mkLocalStore (lo_storage s) u (lo_readers s).
Definition lo_with_readers (rds : gset Z) s : LocalStore := mkLocalStore (lo_storage s) (lo_use s) rds.

Definition local_call {A} (m : SR A) : ST LocalStore A := λ s,
  '(a, r) ← m (mkStorageRun (lo_storage s) []);
  Some (a, mkLocalStore (sr_storage r) (lo_use s) (lo_readers s)).

Definition local_writer : ST LocalStore LocalSnapshotWriter := λ s,
  match lo_use s with LocalWriter wr => Some (wr, s) | _ => None end.

(** Whether the uri of a copy is one of a remote path copier. *)
Context (copier_init : list Z → bool).

(** A copier that is cancelled ends its sessions, which is up to [local_env]
    below. *)
Definition local_storage : SnapshotStorage LocalStore := {|
  SnapshotWriter := unit;
  SnapshotReader := Z;
  SnapshotCopier := unit;
  sto_init := local_call ss_init;
  sto_create :=
    wr ← local_call (ss_create true);
    match wr with
    | None => mret None
    | Some wr => st_mod (lo_with_use (LocalWriter wr));; mret (Some tt)
    end;
  writer_is_ok _ s := match lo_use s with LocalWriter wr => wr_ok wr | _ => false end;
  writer_set_error _ e := wr ← local_writer; st_mod (lo_with_use (LocalWriter (wr_set_error e wr)));
  writer_save_meta _ meta := wr ← local_writer; st_mod (lo_with_use (LocalWriter (wr_save_meta meta wr)));; mret 0;
  sto_close_writer _ :=
    wr ← local_writer;
    rc ← local_call (close_writer wr false);
    st_mod (lo_with_use LocalFree);;
    mret rc;
  sto_open :=
    id ← local_call ss_open;
    st_mod (λ s, lo_with_readers (list_to_set (option_list id) ∪ lo_readers s) s);;
    mret id;
  reader_is_ok id s := match ss_readers (lo_storage s) !! id with Some rd => bool_decide (rd_error rd = 0) | None => false end;
  reader_load_meta id s := ss_readers (lo_storage s) !! id ≫= rd_load_meta;
  sto_close_reader id :=
    rc ← local_call (ss_close_reader id);
    st_mod (λ s, lo_with_readers (lo_readers s ∖ {[id]}) s);;
    mret rc;
  sto_start_to_copy_from uri :=
    if copier_init uri then st_mod (lo_with_use LocalCopying);; mret (Some tt) else mret None;
  copier_cancel _ := mret tt;
  copier_joined _ s := match lo_use s with LocalCopying => false | _ => true end;
  copier_error _ s := match lo_use s with LocalCopied c => lc_error c | _ => 0 end;
  copier_reader _ s := match lo_use s with LocalCopied c => lc_reader c | _ => None end;
  sto_close_copier _ :=
    u ← st_get lo_use;
    match u with
    | LocalCopied c => st_check (lc_writer c = None);; st_mod (lo_with_use LocalFree);; mret 0
    | _ => st_lift None
    end;
|}.
#[local] Existing Instance local_storage.

(** ** Others *)

(** Owners of other readers, the user with the writer, the system, and the
    copier with sessions of a server that has the snapshot [T], [RF]. *)
Inductive local_env : LocalStore → LocalStore → Prop :=
  | EnvOpen st u rds r st' :
      ss_open (mkStorageRun st []) = Some (r, mkStorageRun st' []) →
      local_env (mkLocalStore st u rds) (mkLocalStore st' u rds)
  | EnvClose st u rds id rc st' :
      id ∉ rds → ss_close_reader id (mkStorageRun st []) = Some (rc, mkStorageRun st' []) →
      local_env (mkLocalStore st u rds) (mkLocalStore st' u rds)
  | EnvWriter st wr wr' rds :
      wr_path wr' = wr_path wr → local_env (mkLocalStore st (LocalWriter wr) rds) (mkLocalStore st (LocalWriter wr') rds)
  | EnvUser st wr w' rds :
      user_writes st w' →
      local_env (mkLocalStore st (LocalWriter wr) rds) (mkLocalStore (with_ss_world w' st) (LocalWriter wr) rds)
  | EnvFaults st u script rds :
      local_env (mkLocalStore st u rds) (mkLocalStore (with_ss_world (with_writes script (ss_world st)) st) u rds)
  | EnvCopy T RF meta sv sessions st c st' rds :
      snapshot_ok T RF meta → (∀ f, session_of T RF sv f (sessions f)) →
      index_ok (smp_last_included_index meta) → ss_last_snapshot_index st < smp_last_included_index meta →
      copy sessions (copier_new st) (mkStorageRun st []) = Some (c, mkStorageRun st' []) →
      local_env (mkLocalStore st LocalCopying rds)
        (mkLocalStore st' (LocalCopied c) (list_to_set (option_list (lc_reader c)) ∪ rds)).

(** ** The invariant *)

Definition storage_inv st : Prop := ∃ G, snap_inv G (held st) (ss_last_snapshot_index st) st.

(** The readers [rds] are live and not for others to close. *)
Record local_ok (rds : list Z) s : Prop := {
  lk_inv : storage_inv (lo_storage s);
  lk_filter : ss_filter_before_copy_remote (lo_storage s) = false;
  lk_copy : ss_copy_file (lo_storage s) = true;
  lk_readers : Forall (λ id, id ∈ lo_readers s ∧ is_Some (ss_readers (lo_storage s) !! id)) rds;
  lk_nodup : NoDup rds;
}.

(** The use is [u]. *)
Definition use_is st (lu : LocalUse) (u : StorageUse) : Prop :=
  match u, lu with
  | Free, LocalFree | Copying _, LocalCopying => True
  | Writing _, LocalWriter wr => wr_path wr = temp_path st
  | Copying _, LocalCopied c | Copied _, LocalCopied c => lc_writer c = None
  | _, _ => False
  end.

(** The readers of the executor and of the copier. *)
Definition owned (lu : LocalUse) (u : StorageUse) (rds : list Z) : list Z :=
  match u, lu with
  | Copying _, LocalCopied c => option_list (lc_reader c) ++ rds
  | _, _ => rds
  end.

Definition local_use s (u : StorageUse) (rds : list Z) : Prop :=
  use_is (lo_storage s) (lo_use s) u ∧ local_ok (owned (lo_use s) u rds) s.

Definition local_closable s : Prop :=
  match lo_use s with LocalWriter wr => writer_ok wr (lo_storage s) | _ => False end.

Definition local_fits (meta : SnapshotMetaPb) s : Prop :=
  match lo_use s with LocalWriter wr => writer_ok (wr_save_meta meta wr) (lo_storage s) | _ => False end.

(** A storage before [init]: the disk of one that was used, or an empty one. *)
Definition local_fresh s : Prop :=
  let st := lo_storage s in
  lo_use s = LocalFree ∧ ss_filter_before_copy_remote st = false ∧ ss_copy_file st = true ∧
  ss_last_snapshot_index st = 0 ∧ ss_readers st = ∅ ∧ w_writes (ss_world st) = [] ∧
  ∃ G top, storage_ok G [] top st ∧ (top ≠ 0 → intact G st top).

Lemma same_conf_keeps st st' : same_conf st st' → ss_readers st' = ss_readers st → keeps st st'.
Proof. intros (?&?&_&?&_) ?. by split_and!. Qed.

Lemma storage_inv_conf G st st' :
  snap_inv G (held st) (ss_last_snapshot_index st) st' → same_conf st st' → storage_inv st'.
Proof. intros Hinv Hc. exists G. rewrite (held_conf _ _ Hc). by destruct Hc as (_ & _ & -> & _). Qed.

Lemma local_ok_keeps rds s st' u :
  local_ok rds s → storage_inv st' → keeps (lo_storage s) st' → local_ok rds (mkLocalStore st' u (lo_readers s)).
Proof. intros [? ? ? ? ?] ? (Hr & _ & Hf & Hc). constructor; cbn; [done|congruence|congruence|by rewrite Hr|done]. Qed.

Lemma local_ok_use rds s u : local_ok rds s → local_ok rds (lo_with_use u s).
Proof. by intros [? ? ? ? ?]. Qed.

Lemma local_call_eq {A} (m : SR A) s a st' :
  m (mkStorageRun (lo_storage s) []) = Some (a, mkStorageRun st' []) →
  local_call m s = Some (a, mkLocalStore st' (lo_use s) (lo_readers s)).
Proof. intros E. unfold local_call. by rewrite E. Qed.

(** ** The copier *)

(** Results of the copier have the reader it had. *)
Definition same_reader (c : LocalSnapshotCopier) (m : SR LocalSnapshotCopier) : Prop :=
  ∀ r c' r', m r = Some (c', r') → lc_reader c' = lc_reader c.

Lemma same_reader_ret c c' : lc_reader c' = lc_reader c → same_reader c (mret c').
Proof. by intros E r c1 r1 [= <- <-]. Qed.

Lemma same_reader_bind {A} c (m : SR A) k : (∀ a, same_reader c (k a)) → same_reader c (m ≫= k).
Proof. intros Hk r c2 r2 (a & r1 & _ & E)%st_bind_Some. by eapply Hk. Qed.

Lemma same_reader_chain c (m : SR LocalSnapshotCopier) k :
  same_reader c m → (∀ c', same_reader c' (k c')) → same_reader c (m ≫= k).
Proof. intros Hm Hk r c2 r2 (c1 & r1 & E1 & E2)%st_bind_Some. rewrite (Hk _ _ _ _ E2). by eapply Hm. Qed.

Ltac same_reader_step :=
  match goal with
  | |- same_reader _ (mret _) => apply same_reader_ret
  | |- same_reader _ (_ ≫= _) => apply same_reader_bind; intros ?
  | |- same_reader _ (if ?b then _ else _) => destruct b
  | |- same_reader _ (match ?x with _ => _ end) => destruct x
  | |- lc_reader _ = lc_reader _ => reflexivity
  | |- lc_reader _ = _ => case_decide
  end.

Lemma filter_reader c : same_reader c (SnapshotCopier.filter c).
Proof. unfold SnapshotCopier.filter. repeat same_reader_step. Qed.

Lemma copy_files_reader sessions fs c : same_reader c (copy_files sessions fs c).
Proof.
  revert c. induction fs as [|f fs IH]; intros c; cbn [copy_files]; [by apply same_reader_ret|]. destruct (lc_ok c); [|by apply same_reader_ret].
  apply same_reader_chain; [|done]. unfold copy_file, file_copied. cbv zeta. repeat same_reader_step.
Qed.

Lemma load_meta_table_reader sessions c c' : load_meta_table sessions c = Some c' → lc_reader c' = lc_reader c.
Proof.
  unfold load_meta_table. destruct (sessions _) as [|ss]; [by intros [= <-]|]. case_decide; [by intros [= <-]|].
  destruct (mt_load_from_iobuf_as_remote _ _) as [rc t]. case_decide; [by intros [= <-]|].
  intros (? & _ & [= <-])%bind_Some. done.
Qed.

Lemma fetch_reader sessions c : same_reader c (fetch sessions c).
Proof.
  unfold fetch. apply same_reader_chain.
  { intros r c1 r1 [E _]%st_lift_Some. by eapply load_meta_table_reader. }
  intros c1. destruct (negb _); [by apply same_reader_ret|]. apply same_reader_chain; [apply filter_reader|]. intros c2.
  destruct (_ || _); [by apply same_reader_ret|]. apply copy_files_reader.
Qed.

Lemma close_copied_reader c : same_reader c (close_copied c).
Proof. unfold close_copied. cbv zeta. repeat same_reader_step. Qed.

(** ** Readers *)

Context `{!PbSnapshotLaws}.

Lemma local_open rds s :
  local_ok rds s →
  ∃ r st', ss_open (mkStorageRun (lo_storage s) []) = Some (r, mkStorageRun st' []) ∧ ss_path st' = ss_path (lo_storage s) ∧
    ∀ u, local_ok rds (mkLocalStore st' u (lo_readers s)) ∧
      local_ok (option_list r ++ rds) (mkLocalStore st' u (list_to_set (option_list r) ∪ lo_readers s)).
Proof.
  intros [[G Hinv] Hf Hc Hrds Hnd]. destruct (open_spec G _ _ _ Hinv) as (r & st' & E & Hinv' & (Hconf & _) & Hcase).
  exists r, st'. split; [done|]. split; [apply Hconf|]. intros u. pose proof (storage_inv_conf _ _ _ Hinv' Hconf) as Hi.
  destruct Hconf as (_ & Hcf & _ & Hcc & _). rewrite <-Hcf in Hf. rewrite <-Hcc in Hc. case_decide as Hl.
  { destruct Hcase as [-> Hr]. rewrite <-Hr in Hrds. split; constructor; try done. cbn. by rewrite union_empty_l_L. }
  destruct Hcase as (id & rd & -> & Hnone & Hr & _).
  assert (Forall (λ i, i ∈ lo_readers s ∧ is_Some (ss_readers st' !! i)) rds) as Hall.
  { eapply Forall_impl; [exact Hrds|]. intros i [Hi' Hs]. split; [done|]. rewrite Hr. by apply lookup_insert_is_Some'; right. }
  split; constructor; try done; cbn.
  - constructor; [split; [set_solver|rewrite Hr, lookup_insert_eq; eauto]|]. eapply Forall_impl; [exact Hall|]. cbn. set_solver.
  - constructor; [|done]. intros Hin. rewrite Forall_forall in Hrds. destruct (Hrds id Hin) as [_ Hs]. rewrite Hnone in Hs. by destruct (is_Some_None Hs).
Qed.

(** Closing a reader of others leaves [rds] alone. *)
Lemma local_close rds id s :
  local_ok rds s → id ∉ rds → is_Some (ss_readers (lo_storage s) !! id) →
  ∃ st', ss_close_reader id (mkStorageRun (lo_storage s) []) = Some (0, mkStorageRun st' []) ∧ ss_path st' = ss_path (lo_storage s) ∧
    ∀ u, local_ok rds (mkLocalStore st' u (lo_readers s)) ∧ local_ok rds (mkLocalStore st' u (lo_readers s ∖ {[id]})).
Proof.
  intros [[G Hinv] Hf Hc Hrds Hnd] Hid [rd Hrd].
  destruct (ss_close_reader_spec G _ _ _ id rd Hinv (held_last _) Hrd) as (st' & E & Hinv' & (Hconf & _) & Hr).
  exists st'. split; [done|]. split; [apply Hconf|]. intros u. pose proof (storage_inv_conf _ _ _ Hinv' Hconf) as Hi.
  destruct Hconf as (_ & Hcf & _ & Hcc & _). rewrite <-Hcf in Hf. rewrite <-Hcc in Hc.
  assert (Forall (λ i, (i ∈ lo_readers s ∧ i ≠ id) ∧ is_Some (ss_readers st' !! i)) rds) as Hall.
  { rewrite Forall_forall in *. intros i Hin. destruct (Hrds i Hin) as [? ?]. assert (i ≠ id) by congruence. split; [done|].
    by rewrite Hr, lookup_delete_ne. }
  split; constructor; try done; (eapply Forall_impl; [exact Hall|]); cbn; set_solver.
Qed.

(** The work of the copier. *)
Lemma local_copy T RF meta sv sessions rds s :
  snapshot_ok T RF meta → (∀ f, session_of T RF sv f (sessions f)) →
  index_ok (smp_last_included_index meta) → ss_last_snapshot_index (lo_storage s) < smp_last_included_index meta → local_ok rds s →
  ∃ c st', copy sessions (copier_new (lo_storage s)) (mkStorageRun (lo_storage s) []) = Some (c, mkStorageRun st' []) ∧
    lc_writer c = None ∧
    local_ok (option_list (lc_reader c) ++ rds) (mkLocalStore st' (LocalCopied c) (list_to_set (option_list (lc_reader c)) ∪ lo_readers s)).
Proof.
  intros Hsn Hss Hi Hlt Hok. set (st := lo_storage s) in *. destruct (lk_inv _ _ Hok) as [G Hinv]. fold st in Hinv.
  pose proof (sn_names _ _ _ Hsn) as Hn0.
  assert (∀ f, is_Some (mt_get_file_meta f T) →
    (ch_slash ∉ f) ∧ f ≠ MELON_RAFT_SNAPSHOT_META_FILE ∧ f ≠ MELON_RAFT_SNAPSHOT_META_FILE ++ tmp_suffix) as Hn by (intros f Hf; naive_solver).
  pose proof (λ f ss, session_content T RF meta sv sessions f ss Hsn (Hss f)) as Hcont.
  destruct (inv_serving G _ _ st Hinv) as [v Hv]. unfold copy.
  destruct (fetch_spec T RF meta sessions (sn_meta _ _ _ Hsn) (sn_meta_ok _ _ _ Hsn) (sn_size _ _ _ Hsn) Hn Hcont G st [] Hinv (lk_filter _ _ Hok) (lk_copy _ _ Hok))
    as (c1 & w1 & H1 & [Hinv1 Hp1] & Hfl1 & Hz1 & _). rewrite (st_bind_eq _ _ _ _ _ H1). apply fetch_reader in H1. cbn in H1.
  destruct (close_copied_spec T RF meta (sn_meta _ _ _ Hsn) (sn_meta_ok _ _ _ Hsn) (sn_size _ _ _ Hsn) Hn G (with_ss_world w1 st) [] v c1)
    as (c2 & st2 & o2 & v2 & G2 & H2 & _ & Hw2 & Hinv2 & _); try done; [by eapply (serves_same G _ _ st)|by constructor|].
  rewrite (st_bind_eq _ _ _ _ _ H2). destruct (close_copied_keeps _ _ _ _ H2 eq_refl) as [E2 Hk]. cbn in E2, Hk. subst o2.
  apply close_copied_reader in H2. rewrite H1 in H2.
  assert (local_ok rds (mkLocalStore st2 LocalCopying (lo_readers s))) as Hok2 by (apply (local_ok_keeps _ s); [done|by eexists|done]).
  destruct (lc_ok c2).
  - destruct (local_open rds _ Hok2) as (r & st3 & H3 & _ & Hok3). cbn in H3. rewrite (st_bind_eq _ _ _ _ _ H3).
    eexists _, st3. split; [done|]. split; [done|]. apply Hok3.
  - exists c2, st2. split; [done|]. split; [done|]. rewrite H2. cbn. rewrite union_empty_l_L. by apply (local_ok_use _ _ (LocalCopied c2)) in Hok2.
Qed.

(** ** The laws *)

Ltac method := cbn [sto_create sto_open sto_close_reader sto_close_writer writer_set_error writer_save_meta sto_start_to_copy_from sto_close_copier local_storage].
Ltac steps := cbv beta iota; repeat (erewrite st_bind_eq by reflexivity; cbv beta iota); reflexivity.

Lemma use_is_path st st' lu u : ss_path st' = ss_path st → use_is st lu u → use_is st' lu u.
Proof. intros Hp. unfold use_is, temp_path. by rewrite Hp. Qed.

Lemma local_ok_inv rds st st' lu lu' mine :
  local_ok rds (mkLocalStore st lu mine) → (∀ G, snap_inv G (held st) (ss_last_snapshot_index st) st → storage_inv st') → keeps st st' →
  local_ok rds (mkLocalStore st' lu' mine).
Proof. intros Hok Hinv Hk. apply (local_ok_keeps _ _ _ _ Hok); [|done]. destruct (lk_inv _ _ Hok) as [G HG]. by eapply Hinv. Qed.

Lemma local_ok_perm rds rds' s : rds ≡ₚ rds' → local_ok rds s → local_ok rds' s.
Proof. intros Hp [? ? ? ? ?]. constructor; [done..|by rewrite <-Hp|by rewrite <-Hp]. Qed.

Lemma owned_app lu u l rds : owned lu u (l ++ rds) ≡ₚ l ++ owned lu u rds.
Proof. destruct u, lu; cbn; try done. by rewrite !(assoc_L (++)), (comm (++) (option_list _)). Qed.

Lemma local_env_use s s' u rds : local_use s u rds → local_env s s' → local_use s' u rds.
Proof.
  intros [Hu Hok] He. destruct He as [st lu mine r st' E|st lu mine id rc st' Hid E|st wr wr' mine Hp|st wr w' mine Hw|st lu script mine|T RF meta sv sessions st c st' mine Hsn Hss Hi Hlt E]; cbn in Hu, Hok.
  - destruct (local_open _ _ Hok) as (r' & st1 & E' & Hp & Hok'). cbn in E', Hp. rewrite E in E'. injection E' as <- <-.
    split; [by eapply use_is_path|apply Hok'].
  - assert (is_Some (ss_readers st !! id)) as Hs.
    { apply st_bind_Some in E as (? & ? & [= <- <-] & (rd & ? & [E _]%st_lift_Some & _)%st_bind_Some). by exists rd. }
    assert (id ∉ owned lu u rds) as Hno.
    { intros Hin. pose proof (lk_readers _ _ Hok) as Hall. rewrite Forall_forall in Hall. by apply Hid, (Hall id Hin). }
    destruct (local_close _ _ _ Hok Hno Hs) as (st1 & E' & Hp & Hok'). cbn in E', Hp. rewrite E in E'. injection E' as _ <-.
    split; [by eapply use_is_path|apply Hok'].
  - split; [by destruct u; cbn in Hu |- *; rewrite ?Hp|]. by destruct u; apply (local_ok_use _ _ (LocalWriter wr')) in Hok.
  - split; [by destruct u|]. destruct Hw as (Ho & Hwf & Hm). eapply local_ok_inv; [done| |done]. intros G [Hrd Hst]. exists G. split; [done|].
    by apply storage_ok_temp.
  - split; [by destruct u, lu|]. eapply local_ok_inv; [done| |done]. intros G [Hrd Hst]. exists G. split; [done|]. by apply faults_ok.
  - destruct u; try done. destruct (local_copy T RF meta sv sessions _ (mkLocalStore st LocalCopying mine) Hsn Hss Hi Hlt Hok) as (c' & st1 & E' & Hw & Hok'). cbn in E', Hok'.
    rewrite E in E'. injection E' as <- <-. done.
Qed.

Lemma local_close_writer w s rds :
  local_use s (Writing w) rds → local_closable s → ∃ rc s', sto_close_writer w s = Some (rc, s') ∧ local_use s' Free rds.
Proof.
  intros [Hu Hok] Hcl. destruct s as [st lu mine]. unfold local_closable in Hcl. destruct lu as [|wr| |]; try done. cbn in Hu, Hok, Hcl.
  destruct (lk_inv _ _ Hok) as [G Hinv]. cbn in Hinv.
  destruct (close_writer_spec G wr false st [] Hinv Hcl) as (rc & st' & o' & E & _ & Hcase & _); [by constructor|].
  destruct (close_writer_keeps _ _ _ _ _ E eq_refl) as [Eo Hk]. cbn in Eo, Hk. subst o'.
  exists rc, (mkLocalStore st' LocalFree mine). split.
  { method. rewrite (st_bind_eq _ _ _ wr (mkLocalStore st (LocalWriter wr) mine)) by done. erewrite st_bind_eq by (apply local_call_eq; exact E). done. }
  split; [done|]. cbn. eapply local_ok_inv; [exact Hok| |exact Hk]. intros _ _.
  destruct Hcase as [((Hi & _ & Hc & F & _ & HF) & _)|[Hc Hk']]; [|by eapply storage_inv_conf].
  assert (ss_last_snapshot_index st' = wr_snapshot_index wr) as El by apply Hc.
  eexists. unfold held. rewrite El, decide_False; [exact HF|]. unfold index_ok in Hi. lia.
Qed.

Lemma local_create s rds :
  local_use s Free rds → ∃ r s', sto_create s = Some (r, s') ∧ local_use s' (match r with Some w => Writing w | None => Free end) rds.
Proof.
  intros [Hu Hok]. destruct s as [st lu mine]. destruct lu; try done. cbn in Hok. destruct (lk_inv _ _ Hok) as [G Hinv]. cbn in Hinv.
  destruct (ss_create_spec G _ _ st true Hinv) as (r & w' & E & Hinv' & Hp).
  assert (∀ lu, local_ok rds (mkLocalStore (with_ss_world w' st) lu mine)) as Hok'.
  { intros lu. eapply local_ok_inv; [exact Hok| |done]. intros _ _. by exists G. }
  destruct r as [wr|]; [exists (Some tt)|exists None]; eexists;
    (split; [method; erewrite st_bind_eq by (apply local_call_eq; exact E); steps|]); (split; [|apply Hok']); [by apply Hp|done].
Qed.

Lemma local_init s : local_fresh s → ∃ rc s', sto_init s = Some (rc, s') ∧ (rc = 0 → local_use s' Free []).
Proof.
  destruct s as [st lu mine]. intros (Hlu & Hf & Hc & Hl & Hr & Hw & G & top & Hok & Hi). cbn in *.
  destruct (ss_init_spec G top st Hok Hl Hr Hw Hi) as (st' & E & _ & El & Hinv & _).
  destruct (ss_init_keeps _ _ _ E eq_refl) as [_ (_ & _ & Hf' & Hc')]. cbn in Hf', Hc'.
  exists 0, (mkLocalStore st' lu mine). split; [by apply local_call_eq|]. intros _. split; [by rewrite Hlu|]. cbn. constructor; cbn; [|congruence|congruence|constructor|constructor].
  exists G. by rewrite El.
Qed.

#[local] Instance local_storage_laws : SnapshotStorageLaws (S := LocalStore).
Proof.
  refine {|
    sto_env := local_env;
    sto_fresh := local_fresh;
    sto_use := local_use;
    sto_fits _ := local_fits;
    closable _ := local_closable;
  |}.
  - apply local_init.
  - apply local_env_use.
  - apply local_create.
  - intros [st lu mine] w e rds [Hu Hok]. destruct lu as [|wr| |]; try done. eexists. split; [method; steps|]. split; [split; [done|by apply (local_ok_use _ _ _ Hok)]|].
    intros He. split; [done|]. by intros ?.
  - intros [st lu mine] w meta rds [Hu Hok]. destruct lu as [|wr| |]; try done. eexists 0, _. split; [method; steps|]. split; [split; [done|by apply (local_ok_use _ _ _ Hok)]|done].
  - intros [st lu mine] w rds [Hu Hok] He. destruct lu as [|wr| |]; try done. split; [done|]. cbn in He. unfold wr_ok in He.
    by apply bool_decide_eq_false in He.
  - intros s w rds. apply local_close_writer.
  - intros s u rds [Hu Hok]. destruct (local_open _ _ Hok) as (r & st' & E & Hp & Hok'). eexists r, _.
    split; [method; erewrite st_bind_eq by (apply local_call_eq; exact E); steps|]. split; [by eapply use_is_path|].
    eapply local_ok_perm; [symmetry; apply owned_app|apply Hok'].
  - intros s u id rds [Hu Hok]. eapply (local_ok_perm _ ([id] ++ _)) in Hok; [|apply (owned_app _ _ [id])]. destruct Hok as [? ? ? Hall Hnd].
    apply Forall_cons in Hall as [[_ Hs] Hall]. apply NoDup_cons in Hnd as [Hno Hnd].
    destruct (local_close (owned (lo_use s) u rds) id s) as (st' & E & Hp & Hok'); [by constructor|done|done|]. eexists 0, _.
    split; [method; erewrite st_bind_eq by (apply local_call_eq; exact E); steps|]. split; [by eapply use_is_path|apply Hok'].
  - intros [st lu mine] uri rds [Hu Hok]. destruct lu; try done. method. destruct (copier_init uri); [eexists (Some tt), _; split; [steps|split; [done|by apply (local_ok_use _ _ _ Hok)]]|by eexists None, _].
  - intros s c rds Hu. by exists s.
  - intros [st lu mine] c rds [Hu Hok] Hj. by destruct lu.
  - intros [st lu mine] c rds [Hu Hok]. destruct lu as [| | |lc]; try done. cbn in Hu. exists 0, (mkLocalStore st LocalFree mine).
    split; [method|split; [done|by apply (local_ok_use _ _ LocalFree) in Hok]].
    erewrite st_bind_eq by reflexivity. cbn [lo_use]. rewrite (st_bind_eq _ _ _ tt _) by (by apply st_check_true). steps.
Defined.

(** C28. The executor on the local storage, whatever happens: a step that may
    happen is carried out, and after it the storage serves a snapshot, or has
    none; a process that starts anew at this point serves the same, and its
    executor can be started on it. *)
Theorem executor_on_disk x0 acts x a sync_meta :
  xstart x0 → xrun x0 acts x → xenabled x a →
  ∃ x', xexec a x = Some (tt, x') ∧
    let st := lo_storage (x_storage x') in
    let reopened := ss_reopen false sync_meta st in
    local_fresh (mkLocalStore reopened LocalFree ∅) ∧
    ∃ v st', serves st v ∧ ss_init (mkStorageRun reopened []) = Some (0, mkStorageRun st' []) ∧ serves st' v.
Proof.
  intros Hs Hr Hen. destruct (xrun_ok x0 acts x Hs Hr) as (act & Hok & _).
  destruct (exec_step _ x act a Hok Hen) as (x' & act' & Hex & Hok' & _). exists x'. split; [done|]. cbv zeta.
  destruct (exec_ok_use _ _ _ Hok') as (u & rds & _ & [[G Hinv] _ _ _ _]). set (st := lo_storage (x_storage x')) in *.
  destruct (ss_reopen_ok G _ st false sync_meta (proj2 Hinv)) as [Hre Hi]. split; [split_and!; try done; by eexists _, _|].
  destruct (inv_serving G _ _ st Hinv) as [v Hv]. destruct (restart_spec G _ st false sync_meta (proj2 Hinv)) as (st' & E & _ & Hl & Hinv' & _).
  exists v, st'. split; [done|]. split; [done|]. by eapply (serves_same G _ _ st).
Qed.

End local.
