(* ===== verification/LocalStoreRuns.v ===== *)
(** * The executor on the local disk: runs

    A snapshot is saved and a newer one is installed from the server of
    FileCopyRuns.v.  When the disk is full while a snapshot is saved, the
    executor counts it as saved and the disk does not have it. *)

From Stdlib Require Import String.
From stdpp Require Import prelude gmap sorting.
From S2P Require Import Prelude Bytes Text ClosureQueue StateMonad FileSystem Messages SnapshotFs Snapshot SnapshotWire SnapshotSpec SnapshotRun FileCopy FileCopyRuns SnapshotCopier SnapshotCopierSpec SnapshotCopierRuns SnapshotExecutor SnapshotExecutorSpec SnapshotExecutorRuns LocalStore.
Local Open Scope Z_scope.

Module DiskExample.
Import SnapshotRun.Example.

#[local] Instance disk : SnapshotStorage LocalStore := local_storage (λ _, true).
#[local] Instance disk_laws : SnapshotStorageLaws := local_storage_laws (λ _, true).
Abbreviation DX := (SnapshotExecutor (S := LocalStore)).

(** [local_fits], decided. *)
Definition disk_fits (w : SnapshotWriter (S := LocalStore)) (meta : SnapshotMetaPb) (s : LocalStore) : bool :=
  match lo_use s with
  | LocalWriter wr =>
      let t := wr_meta_table (wr_save_meta meta wr) in
      let index := smp_last_included_index meta in
      let term := smp_last_included_term meta in
      bool_decide (wr_path wr = temp_path (lo_storage s) ∧ - 2 ^ 63 ≤ term < 2 ^ 63 ∧
        zlen (pb_snapshot_serialize (table_message id t)) < 2 ^ 31 ∧
        0 < index < 2 ^ 63 ∧ ss_last_snapshot_index (lo_storage s) < index)
  | _ => false
  end.

Lemma disk_fits_ok w meta s : disk_fits w meta s = true → sto_fits w meta s.
Proof.
  unfold disk_fits. destruct s as [st [|wr| |] mine]; try done. intros (Hp & Ht & Hz & Hi & Hl)%bool_decide_eq_true. cbn in Hp, Hl.
  split; [done|]. intros _. split; [split; [|done]|by right]. intros m [= <-]. split; [lia|done].
Qed.

Definition disk_env (s s' : LocalStore) : bool := false.
Abbreviation disk_runs := (xruns disk_env disk_fits).

Lemma disk_runs_ok (x0 : DX) acts x acts' x' : xrun x0 acts x → disk_runs x acts' = Some x' → xrun x0 (acts ++ acts') x'.
Proof. apply (xruns_ok disk_env disk_fits); [done|apply disk_fits_ok]. Qed.

(** ** A save and an install *)

Definition start_store : LocalStore := mkLocalStore s0 LocalFree ∅.
Definition started : option (Z * DX) := executor_init false true 1 true (Some 0) true true 0 0 (executor_new start_store).
Definition x0 : DX := default (executor_new start_store) (snd <$> started).

Lemma start_fresh : local_fresh start_store.
Proof.
  split_and!; try reflexivity. destruct (snap_reach_ok _ start_reach) as [G [[_ Hok] _]]. exists G, 0. split; [exact Hok|done].
Qed.

(** Results are compared by their parts: a state has functions in its type. *)
Lemma default_Some {A} (o : option A) (d : A) : bool_decide (is_Some o) = true → o = Some (default d o).
Proof. intros [a ->]%bool_decide_eq_true. done. Qed.

Lemma started_eq : started = Some (0, x0).
Proof.
  assert (default (-1) (fst <$> started) = 0) as E by (vm_compute; reflexivity). unfold x0.
  destruct started as [[rc x]|]; cbn in E; [by subst rc|done].
Qed.

Lemma disk_start : xstart x0.
Proof.
  exists start_store, 1, (Some 0), true, true, 0. split; [exact start_fresh|]. split; [by left|]. split; [by intros ? [= <-]|].
  exact started_eq.
Qed.

Definition save : list (XAction (S := LocalStore)) :=
  [XDoSnapshot (Some 7) 5 0; XSaveStart 0 (mkSnapshotMetaPb 5 1 [] []); XSaveRun 0 0; XNext 0; XNext 0; XNext 0; XNext 0].
Definition install : list (XAction (S := LocalStore)) :=
  [XInstall (mkInstallSnapshotRequest [] [] [] 2 CopierExample.meta []) 100].
Definition load : list (XAction (S := LocalStore)) := [XNext 0; XLoadCall 0 0; XLoadRun 0 0; XNext 0].

Definition x1 : DX := default x0 (disk_runs x0 (save ++ XInterrupt 2 :: install)).

(** The copier does its work. *)
Definition run_copier (s : LocalStore) : option LocalStore :=
  let st := lo_storage s in
  match copy CopierExample.session_for (copier_new st) (mkStorageRun st []) with
  | Some (c, mkStorageRun st' []) =>
      Some (mkLocalStore st' (LocalCopied c) (list_to_set (option_list (lc_reader c)) ∪ lo_readers s))
  | _ => None
  end.

Lemma run_copier_env s s' :
  lo_use s = LocalCopying → bool_decide (ss_last_snapshot_index (lo_storage s) < 7) = true → run_copier s = Some s' → local_env s s'.
Proof.
  destruct s as [st lu mine]. unfold run_copier. cbn [lo_use lo_storage]. intros -> Hl%bool_decide_eq_true.
  destruct (copy _ _ _) as [[c [st' []]]|] eqn:E; [|intros [=]..]. intros [= <-].
  assert (index_ok (smp_last_included_index CopierExample.meta)) as Hi by (unfold index_ok; cbn; lia).
  eapply (EnvCopy _ _ CopierExample.meta); [exact CopierExample.example_snapshot_ok|exact CopierExample.session_for_of|exact Hi|exact Hl|exact E].
Qed.

Definition copied : LocalStore := default (x_storage x1) (run_copier (x_storage x1)).

Definition x2 : DX := x_with_storage copied x1.
Definition x3 : DX := default x2 (disk_runs x2 load).


Lemma disk_run1 : xrun x0 (save ++ XInterrupt 2 :: install) x1.
Proof. apply (disk_runs_ok x0 [] x0); [apply XRunNil|]. unfold x1. apply default_Some. vm_compute. reflexivity. Qed.

Lemma disk_run2 : xrun x0 ((save ++ XInterrupt 2 :: install) ++ [XStorage copied]) x2.
Proof.
  eapply XRunStep; [apply disk_run1| |reflexivity]. apply run_copier_env; [vm_compute; reflexivity..|].
  unfold copied. apply default_Some. vm_compute. reflexivity.
Qed.

Lemma disk_run3 : xrun x0 (((save ++ XInterrupt 2 :: install) ++ [XStorage copied]) ++ load) x3.
Proof. apply (disk_runs_ok x0 _ x2); [exact disk_run2|]. unfold x3. apply default_Some. vm_compute. reflexivity. Qed.

(** The snapshot of the leader is on the disk, with its file. *)
Example disk_result :
  x_last_snapshot_index x3 = 7 ∧ ss_last_snapshot_index (lo_storage (x_storage x3)) = 7 ∧
  set_indexes (x_out x3) = [5; 7] ∧ runs_of (x_out x3) = [7] ∧
  lookup_file (ss_world (lo_storage (x_storage x3))) (path_join (snapshot_path 7 (lo_storage (x_storage x3))) CopyExample.name)
    = Some CopyExample.content.
Proof. split_and!; vm_compute; reflexivity. Qed.

Lemma executor_on_disk_witness :
  xstart x0 ∧ ∃ x' v st', xexec (XNext 0) x3 = Some (tt, x') ∧ serves (lo_storage (x_storage x')) v ∧
    ss_init (mkStorageRun (ss_reopen false true (lo_storage (x_storage x'))) []) = Some (0, mkStorageRun st' []) ∧ serves st' v.
Proof.
  split; [exact disk_start|].
  destruct (executor_on_disk (λ _, true) x0 _ x3 (XNext 0) true disk_start disk_run3) as (x' & E & _ & v & st' & Hv & Hi & Hv').
  - apply (xenabledb_ok disk_env disk_fits); [done|apply disk_fits_ok|vm_compute; reflexivity].
  - exists x', v, st'. split; [exact E|]. split; [exact Hv|]. split; [exact Hi|exact Hv'].
Defined.

(** ** A full disk *)

(** The meta file cannot be written when the writer is closed. *)
Definition save_begin : list (XAction (S := LocalStore)) := [XDoSnapshot (Some 7) 5 0; XSaveStart 0 (mkSnapshotMetaPb 5 1 [] []); XSaveRun 0 0; XNext 0].
Definition save_end : list (XAction (S := LocalStore)) := [XNext 0; XNext 0; XNext 0].
Definition full (s : LocalStore) : LocalStore :=
  let st := lo_storage s in mkLocalStore (with_ss_world (with_writes [SysError 28] (ss_world st)) st) (lo_use s) (lo_readers s).

Lemma full_env s : local_env s (full s).
Proof. destruct s as [st u mine]. apply EnvFaults. Qed.

Definition y1 : DX := default x0 (disk_runs x0 save_begin).
Definition y2 : DX := x_with_storage (full (x_storage y1)) y1.
Definition y3 : DX := default y2 (disk_runs y2 save_end).

Lemma full_run : xrun x0 ((save_begin ++ [XStorage (full (x_storage y1))]) ++ save_end) y3.
Proof.
  apply (disk_runs_ok x0 _ y2); [|unfold y3; apply default_Some; vm_compute; reflexivity]. eapply XRunStep; [| |reflexivity].
  - apply (disk_runs_ok x0 [] x0); [apply XRunNil|]. unfold y1. apply default_Some. vm_compute. reflexivity.
  - apply full_env.
Qed.

(** C40. A run in which the disk is full while a snapshot is saved: the executor
    counts it as the last one, the closure is run with success and the log
    manager is told of the snapshot, so that it may drop the log before it; the
    storage has no snapshot, and a new process finds none. *)
Theorem unsaved_snapshot_counts :
  xstart x0 ∧ xrun x0 ((save_begin ++ [XStorage (full (x_storage y1))]) ++ save_end) y3 ∧
  x_last_snapshot_index y3 = 5 ∧ x_out y3 = [XvSetSnapshot (mkSnapshotMetaPb 5 1 [] []); XvRun 7 0] ∧
  ss_last_snapshot_index (lo_storage (x_storage y3)) = 0 ∧
  ss_last_snapshot_index (call 0 ss_init (ss_reopen false true (lo_storage (x_storage y3)))).2 = 0.
Proof.
  split; [exact disk_start|]. split; [exact full_run|]. split; [vm_compute; reflexivity|]. split; [vm_compute; reflexivity|].
  split; vm_compute; reflexivity.
Qed.

End DiskExample.
